(* ===== verification/_CoqProject ===== *)
-Q . S2P
Prelude.v
OrdMap.v
Bytes.v
StoreTypes.v
Store.v
StoreInv.v
StoreTxn.v
StoreOps.v
StoreLease.v
StoreWatch.v
StoreSnapshot.v
StoreTrace.v
StoreProps.v
RaftTypes.v
Figure2.v
RuleCatalog.v
Figure2Votes.v
Figure2Log.v
LeaderLogs.v
Figure2Steps.v
Figure2Effects.v
Cluster.v
LogCluster.v
LogReact.v
LogInv.v
LogWrites.v
LogSafety.v
RaftProps.v
Text.v
Linearizability.v
LinReplay.v
LinValid.v
LinSearch.v
LinCheck.v
LinProps.v
StoreLin.v
Codec.v
HardState.v
HardStateProps.v
Wal.v
WalScan.v
WalLog.v
WalProps.v
SnapshotFile.v
FileIO.v
FileNames.v
Disk.v
DiskProps.v
SnapshotStore.v
SnapshotStoreProps.v
WalNames.v
HardStateDisk.v
HardStateDiskProps.v
RaftMessages.v
RaftMessageLaws.v
RaftCore.v
RaftCoreFrames.v
RaftCoreTranslate.v
RaftCoreRefine.v
CoreCluster.v
RaftCoreInv.v
RaftCoreKeep.v
RaftCoreTrace.v
RaftCoreRun.v
RaftCoreProps.v
Simulator.v
SimulatorInv.v
SimulatorRun.v
SimulatorReplay.v
SimNode.v
SimNodeProps.v
KuraPointer.v
KuraClient.v
KuraWorld.v
KuraMoves.v
KuraInv.v
KuraThreads.v
KuraProps.v
KuraPublish.v
KuraAwait.v
