(* ===== verification/Prelude.v ===== *)
(** * Kura Metadata Store: verification development

    A model of the C++ sources under [src/src/] and
    [src/include/kura/metadata/], and the theorems that make them correct.

    ** The program

    The repository is a metadata store in the manner of etcd.  Its parts:
    an ordered in-memory key-value store with revisions, transactions, leases
    and watches; a pure step function of the Raft consensus protocol (Figure 2
    of the Raft paper); a timed Raft core around that function, with election
    and heartbeat timers, log persistence, application, ReadIndex and
    snapshots, and the byte format of its messages; a deterministic simulator of
    a cluster, which delivers messages, timers and disk completions in an order
    drawn from a seed, injects faults, and records a trace that can be replayed,
    with the adapter that runs a core as a node of it; durable storage (a record
    file for Raft's term and vote, a segmented write-ahead log, snapshot files);
    a client that keeps the snapshot pointers of tables in the store, with writer
    and reader guards held by leases; and a linearizability checker used to test
    histories of client operations.

    ** Conventions

    C++ integers are [Z]; the bounds of their types are hypotheses of the
    theorems that need them ([u64_max], [i64_max]), wrap-around is written with
    [u64], and the checks the code makes before it would overflow are part of the
    definitions.  Code that throws returns [outcome]; methods of an object are
    [M S A], which returns an outcome and the new object, so that what an
    exception leaves behind is visible.  [std::map] and [std::set] are [gmap] and
    [gset]; iteration in key order is [entries] and [set_entries] of [OrdMap].
    Loops are [foldM], [foldl] or fixpoints; a loop that is not structural has
    fuel: [Linearizability.search] is given the number of operations (every
    recursive call clears a bit), [Linearizability.reduce] one more than the
    number of invocations (every round removes one), [Wal.scan_records] the
    number of bytes (every record has a header), [Figure2.commit_candidate] the
    length of the uncommitted log.  [Simulator.run] is structural in its limit
    of events, as the source's loop is; [SimulationNode.translate] unfolds the
    recursion of the source twice, and [SimNodeProps.translate_levels_enough]
    shows that more levels give the same result.  A method of the Kura client is
    a program of backend calls ([KuraClient.prog]): each call is one atomic step,
    the method is not, and the calls of other threads come in between.  The loop of
    [await_snapshot_change] is given the timeout in milliseconds (every round sleeps
    for at least one).  The readings of clocks and the scheduling of threads are
    inputs of a run.  The theorems are about the fuelled calls as
    made, so they also show that the fuel is enough.

    ** Files

    - [Prelude], [OrdMap], [Bytes]: outcomes and the state monad with their
      weakest-precondition rules ([owp], [mwp], tactics [ostep], [mstep], [mgo]),
      ordered maps, byte strings ([byte_sequence.cpp], [key_range.cpp]).
    - [StoreTypes], [Store]: the records of the headers under [kv/], [lease/],
      [watch/], and every public method of [InMemoryMetadataStore]
      ([in_memory_metadata_store.cpp]), with the private helpers under their C++
      names.  [StoreInv] is the invariant; [StoreTxn], [StoreOps], [StoreLease],
      [StoreWatch], [StoreSnapshot] prove one specification per method;
      [StoreTrace] lifts them to sequences of calls;
      [StoreProps] has the theorems.
    - [RaftTypes], [Figure2]: the messages, and [figure2_spec.cpp] with its
      handlers, the gate on hard-state persistence and the validity check.
      [Figure2Votes], [Figure2Log], [Figure2Steps] have the per-handler lemmas;
      [Figure2Effects] says which effects a step can have; [Cluster] composes
      servers with a network, disks for terms and votes, and crashes; [RaftProps]
      has the theorems on one server.  [RuleCatalog] is the catalog of the rules
      with their names.
    - [LogCluster]: a cluster of Figure 2 servers that also have a log on disk.  A
      server takes an input, then performs the effects the step returned one at a
      time and in order (a write of the hard state, of the log, a message, a timer)
      before it takes the next, as docs/design/0007 asks of the caller; it may crash
      between any two of them and restarts from its disk.  [LeaderLogs] is the
      combinatorics of leaders' logs, votes and acknowledgements, without servers;
      [LogReact] says what one input does to log, commit index and effects;
      [LogInv] is the invariant, which ties the servers to a history of reigns,
      votes and acknowledgements; [LogWrites] preserves it; [LogSafety] has the
      theorems.
    - [RaftMessages], [RaftMessageLaws]: the encoders and decoders of
      [raft_election.cpp] and their laws.
    - [RaftCore] (Module [election]): class [Core] of [raft_election.cpp], its
      constructor, [start], [step] and every private handler, over the state of
      [Figure2].  [RaftCoreFrames] says which fields each handler leaves alone,
      [RaftCoreTranslate] what the translation of Figure 2 effects does and when it
      throws, [RaftCoreRefine] which moves of the specification state an input
      stands for ([reaction]) and that a step makes exactly these;
      [RaftCoreInv] is the invariant and [RaftCoreKeep] its preservation by calls
      that return and by calls that throw; [RaftCoreTrace] accounts for every
      effect of a step; [RaftCoreRun] is a core driven by a list of inputs;
      [RaftCoreProps] has the theorems, and [CoreCluster] the cluster of cores.
    - [Simulator]: class [Simulator] of [raft_simulation.cpp], over the class
      [NodeAdapter] of what it asks of a node.  [SimulatorInv] is the invariant
      and the specification of each method, [SimulatorRun] reduces every
      sequence of public calls to a few kinds of moves, [SimulatorReplay] proves
      the trace.  [SimNode] (Module [SimulationNode]) is class [SimulationNode]
      of [raft_election.cpp], an instance of that class; [SimNodeProps] runs it.
    - [Text], [Linearizability], [LinReplay]: [linearizability.cpp], the checker
      and its replay text.  [LinValid], [LinSearch], [LinCheck] and [LinProps]
      prove it against a declarative definition; [StoreLin] connects the store to
      the checker's sequential specification.
    - [KuraPointer]: the format of snapshot pointers and the keys of a table.
      [KuraClient]: [kura_client.cpp], the interface [KuraMetadataBackend] as the
      calls of [backend_call] with class [BackendHandler] of what answers them, its
      in-process implementation on the store, lease sessions, guards and every
      method of the client.  [KuraWorld] lets any number of clients, sessions and
      time take turns as a step relation and executes schedules of it;
      [KuraMoves] reduces backend calls to a few kinds of changes, [KuraInv] is
      the invariant of the store's contents, [KuraThreads] of the programs under
      way; [KuraProps], [KuraPublish] and [KuraAwait] have the theorems.
    - [Codec], [HardState], [HardStateProps]: little-endian integers, CRC-32C and
      [raft_hard_state_store.cpp].
    - [Wal], [WalScan], [WalLog], [WalProps], [SnapshotFile]: the write-ahead log
      and the snapshot format of [durable_storage.cpp].  [FileIO] has class
      [DurableFile] on POSIX with partial and interrupted calls, [FileNames] the file
      names, [Disk] a directory with system calls that may fail or end the process
      and power failures, and the publication of a file through a temporary one;
      [DiskProps] says what a publication leaves behind.  [SnapshotStore] is class
      [FileSnapshotStore], over class [DirectoryListing] of the order in which a
      directory is listed; [SnapshotStoreProps] has its theorems.  [WalNames]
      relates the directory of the log to the map that [Wal] works on;
      [HardStateDisk] and [HardStateDiskProps] put the hard-state store on such a
      disk, where [HardState] takes the directory for durable.

    ** What the theorems show

    - Store: the invariant of every reachable state; strong exception safety;
      the effect of each operation; atomicity of transactions; watches deliver
      every event once and in order; fencing tokens; snapshot round trip;
      refinement of the sequential specification and linearizability of
      histories; at the greatest revision the contents are frozen.
    - Raft: election safety of a cluster with an unreliable network, asynchronous
      disks and crashes; durability of votes; monotonicity of terms;
      immutability of committed entries; the commit rule; log matching of an
      accepted append.  Of a cluster with logs on disk: State Machine Safety (no two
      servers ever commit different entries at one index), Leader Completeness and
      Log Matching, in every execution.
    - Core: every step makes the moves of the Figure 2 state its input stands for;
      election safety of a cluster of cores; the invariant of every running core,
      also after calls that threw; armed timers, unless an election deadline
      arrived while a hard state was being written, which can leave a follower
      without one; entries are applied once and in order; the log is
      durable before the messages that depend on it; a read is confirmed only
      by a quorum of its own round; messages and records decode exactly to what
      was encoded.  Two theorems exhibit behaviour that departs from the
      intent: an installed snapshot that conflicts with a retained suffix makes
      the next start fail, and a snapshot request leaves before the hard state
      it speaks for is durable.
    - Simulator: its invariant; the trace of a run, replayed, gives the identical
      state, for every node adapter; a fault-free run of cores that a scripted
      snapshot makes fail.
    - Client, in any interleaving of clients, sessions, time and expiry: the
      publications of a table form a chain without lost updates; a registered
      reader protects its snapshot; a table has one writer; a writer that lost its
      lease never writes again; the pointer format is exact.  One theorem exhibits
      a defect: clients that wait at the same time share watch identifiers.
    - Checker: it decides linearizability up to its limits; counterexamples are
      minimal; the replay text round trips.
    - Storage: round trips and corruption detection of the formats; atomicity of
      hard-state writes under injected failures; recovery of the log after
      partial writes; truncation; the scan of a segment ends on any bytes; published
      snapshots survive crashes and power failures, and the newest valid one is
      selected; transfers are exact however the system splits and interrupts them;
      an acknowledged term and vote survive power failures; file names and numbers
      correspond.  Three theorems exhibit defects: a log object that could not read
      the header of its first file accepts an entry of any index into a new first
      segment, truncation trusts a snapshot whose directory entry is not yet
      durable, and a reopened hard-state store acknowledges a vote that is not.

    ** Not modelled

    [LogCluster] starts from at least two servers with empty disks and has no
    snapshots, and a server takes a client command only while its log is far from
    the largest index ([LogCluster.local_event]); the theorems of [LogSafety] are about
    Figure 2 servers so driven, and about cores only through the refinement of their
    single steps.
    Locks: every public method of the store, the log and the hard-state store
    holds its mutex throughout, so a call is one step.  Memory exhaustion.  The
    stores use files through their effect on a directory ([Disk], or the maps of
    [Wal] and [HardState]), and reads of existing files are assumed not to fail
    there; the calls themselves are in [FileIO].  Windows variants of the system
    calls.  The largest log index
    ([u64_max]) is excluded where the theorems on the write-ahead log speak of
    entries.  The theorems on the core assume of each input what its types give
    ([RaftCoreKeep.input_fits]: machine words, and a restored snapshot below the
    commit index that agrees with the committed log) and of the recovered data what
    the stores give ([RaftCoreKeep.recovered_fits]); the runs of [RaftCoreRun] end
    before a term, an index or an identifier is used up ([exhausted]).  Observers, which are callbacks that return
    nothing.  Event numbers of the simulator are unbounded in the model; the theorem on
    replay assumes that fewer than 2^64 were used.  Exceptions that are not
    [std::exception] and an empty factory function.  The sequence
    numbers of a client wrap around at 2^64 in the model as in the code; the runs of
    [KuraWorld] are those in which they have not.
*)

From stdpp Require Export prelude gmap strings list fin_maps sorting.
From coqutil Require Export Byte Word.LittleEndianList.
#[global] Open Scope Z_scope.
#[global] Close Scope nat_scope.
#[global] Open Scope Z_scope.

(** ** Machine integers

    Integers are kept as [Z]; the C++ width limits are the constants below and
    unsigned arithmetic that can wrap is written with [u64]. *)

Abbreviation i64_max := (9223372036854775807)%Z.
Abbreviation u64_max := (18446744073709551615)%Z.
Abbreviation u32_max := (4294967295)%Z.

(** Conversion to [std::uint64_t]: arithmetic modulo 2^64. *)
Definition u64 (z : Z) : Z := z `mod` 18446744073709551616.

Lemma u64_small z : 0 ≤ z ≤ u64_max → u64 z = z.
Proof. intros. unfold u64. apply Z.mod_small. lia. Qed.

Lemma u64_range z : 0 ≤ u64 z ≤ u64_max.
Proof. unfold u64. pose proof (Z.mod_pos_bound z 18446744073709551616). lia. Qed.

(** ** Status codes and exceptions *)

Inductive StatusCode :=
| sc_ok | sc_invalid_argument | sc_comparison_failed | sc_compacted
| sc_future_revision | sc_lease_not_found | sc_not_leader | sc_no_quorum
| sc_deadline_exceeded | sc_permission_denied | sc_quota_exceeded
| sc_corruption.

#[global] Instance StatusCode_eq_dec : EqDecision StatusCode.
Proof. solve_decision. Defined.

(** The C++ exceptions the sources throw, with their message. [store_error]
    carries the status code and compaction revision of class [StoreError],
    [client_error] the status code of class [KuraClientError]. *)
Inductive exn :=
| invalid_argument (what : string)
| overflow_error (what : string)
| logic_error (what : string)
| out_of_range (what : string)
| store_error (code : StatusCode) (what : string) (compact_revision : Z)
| storage_error (what : string)
| simulation_failure (what : string)
| length_error (what : string)
| client_error (code : StatusCode) (what : string).

(** [std::exception::what] *)
Definition what (e : exn) : string :=
  match e with
  | invalid_argument m | overflow_error m | logic_error m | out_of_range m
  | store_error _ m _ | storage_error m | simulation_failure m | length_error m
  | client_error _ m => m
  end.

(** ** The outcome of code that may throw *)

Inductive outcome (A : Type) :=
| Ret (a : A)
| Throw (e : exn).
Arguments Ret {A} a.
Arguments Throw {A} e.

#[global] Instance outcome_ret : MRet outcome := λ A a, Ret a.
#[global] Instance outcome_bind : MBind outcome := λ A B f m,
  match m with Ret a => f a | Throw e => Throw e end.

Definition throw_when (b : bool) (e : exn) : outcome unit :=
  if b then Throw e else Ret tt.

(** [for (x : l) acc = f acc x], stopping at the first exception. *)
Fixpoint foldM {A B} (f : A → B → outcome A) (a : A) (l : list B) : outcome A :=
  match l with
  | [] => Ret a
  | x :: l' => a' ← f a x; foldM f a' l'
  end.

(** Weakest precondition of an outcome: [Q] of the value or [E] of the
    exception. *)
Definition owp {A} (o : outcome A) (Q : A → Prop) (E : exn → Prop) : Prop :=
  match o with Ret a => Q a | Throw e => E e end.

Section outcome_lemmas.
Context {A B : Type}.
Implicit Types (m : outcome A) (k : A → outcome B).

Lemma owp_bind m k Q E :
  owp m (λ a, owp (k a) Q E) E → owp (x ← m; k x) Q E.
Proof. by destruct m. Qed.

Lemma owp_throw_when b e (Q : unit → Prop) E :
  (b = true → E e) → (b = false → Q tt) → owp (throw_when b e) Q E.
Proof. destruct b; simpl; auto. Qed.

Lemma owp_mono m (Q Q' : A → Prop) (E E' : exn → Prop) :
  owp m Q E → (∀ a, m = Ret a → Q a → Q' a) → (∀ e, m = Throw e → E e → E' e) → owp m Q' E'.
Proof. destruct m; simpl; auto. Qed.

Lemma bind_Ret m k b : (x ← m; k x) = Ret b ↔ ∃ a, m = Ret a ∧ k a = Ret b.
Proof. destruct m; simpl; naive_solver. Qed.

Lemma bind_Throw m k e :
  (x ← m; k x) = Throw e ↔ m = Throw e ∨ ∃ a, m = Ret a ∧ k a = Throw e.
Proof. destruct m; simpl; naive_solver. Qed.

Lemma throw_when_Ret b e u : throw_when b e = Ret u ↔ b = false.
Proof. destruct b, u; simpl; naive_solver. Qed.

Lemma throw_when_Throw b e e' : throw_when b e = Throw e' ↔ b = true ∧ e = e'.
Proof. destruct b; simpl; naive_solver. Qed.
End outcome_lemmas.

(** Loop rule for [foldM]: an invariant indexed by the processed prefix. *)
Lemma owp_foldM {A B} (f : A → B → outcome A) (I : list B → A → Prop) E l a :
  I [] a →
  (∀ pre x suf a', l = pre ++ x :: suf → I pre a' →
     owp (f a' x) (I (pre ++ [x])) E) →
  owp (foldM f a l) (I l) E.
Proof.
  intros HI Hstep.
  cut (∀ suf pre a', l = pre ++ suf → I pre a' → owp (foldM f a' suf) (I l) E).
  { intros H. by apply (H l []). }
  clear a HI. induction suf as [|x suf IH]; intros pre a' Hl HI; simpl.
  { rewrite Hl, app_nil_r. done. }
  apply owp_bind. eapply owp_mono; [by eapply Hstep| |done].
  intros a'' _ HI'. apply (IH (pre ++ [x])); [|done].
  by rewrite <-app_assoc.
Qed.

(** ** State-passing code that may throw

    A member function of a class with state [S] is a computation that returns
    or throws and leaves a state behind in both cases, so that what an
    exception leaves in the object is part of the model. *)

Definition M (S A : Type) : Type := S → outcome A * S.

#[global] Instance M_ret {S} : MRet (M S) := λ A a s, (Ret a, s).
#[global] Instance M_bind {S} : MBind (M S) := λ A B f m s,
  match m s with
  | (Ret a, s') => f a s'
  | (Throw e, s') => (Throw e, s')
  end.

Definition get_state {S} : M S S := λ s, (Ret s, s).
Definition put_state {S} (s' : S) : M S unit := λ s, (Ret tt, s').
Definition lift {S A} (o : outcome A) : M S A := λ s, (o, s).

Definition mwp {S A} (m : M S A) (s : S) (Q : A → S → Prop) (E : exn → S → Prop) : Prop :=
  match m s with
  | (Ret a, s') => Q a s'
  | (Throw e, s') => E e s'
  end.

Section mwp_rules.
Context {S A B : Type}.

Lemma mwp_ret (a : A) (s : S) (Q : A → S → Prop) E : Q a s → mwp (mret a) s Q E.
Proof. done. Qed.

Lemma mwp_bind (m : M S A) (k : A → M S B) s Q E :
  mwp m s (λ a s', mwp (k a) s' Q E) E → mwp (x ← m; k x) s Q E.
Proof.
  unfold mwp, mbind, M_bind. by destruct (m s) as [[a|e] s'].
Qed.

Lemma mwp_get (s : S) (Q : S → S → Prop) E : Q s s → mwp get_state s Q E.
Proof. done. Qed.

Lemma mwp_put (s s' : S) (Q : unit → S → Prop) E : Q tt s' → mwp (put_state s') s Q E.
Proof. done. Qed.

Lemma mwp_lift (o : outcome A) (s : S) (Q : A → S → Prop) E :
  owp o (λ a, Q a s) (λ e, E e s) → mwp (lift o) s Q E.
Proof. by destruct o. Qed.

Lemma mwp_mono (m : M S A) s (Q Q' : A → S → Prop) (E E' : exn → S → Prop) :
  mwp m s Q E → (∀ a s', Q a s' → Q' a s') → (∀ e s', E e s' → E' e s') →
  mwp m s Q' E'.
Proof. unfold mwp. destruct (m s) as [[a|e] s']; auto. Qed.

Lemma mwp_run (m : M S A) s Q E o s' :
  mwp m s Q E → m s = (o, s') →
  match o with Ret a => Q a s' | Throw e => E e s' end.
Proof. unfold mwp. intros Hm Hrun. rewrite Hrun in Hm. by destruct o. Qed.
End mwp_rules.

Create HintDb kura discriminated.

(** [mstep] performs the next step of a stateful computation, [ostep] of a
    computation that may throw. *)
Ltac ostep :=
  lazymatch goal with
  | |- owp (mbind _ _) _ _ => apply owp_bind
  | |- owp (throw_when _ _) _ _ => apply owp_throw_when; [intros ?|intros ?]
  | |- owp (Ret _) _ _ => simpl
  | |- owp (mret _) _ _ => simpl
  | |- owp (Throw _) _ _ => simpl
  | |- owp (match ?x with _ => _ end) _ _ => destruct x eqn:?
  end.

Ltac mstep :=
  lazymatch goal with
  | |- mwp (mbind _ _) _ _ _ => apply mwp_bind
  | |- mwp get_state _ _ _ => apply mwp_get
  | |- mwp (put_state _) _ _ _ => apply mwp_put
  | |- mwp (mret _) _ _ _ => apply mwp_ret
  | |- mwp (lift _) _ _ _ => apply mwp_lift
  | |- mwp (match ?x with _ => _ end) _ _ _ => destruct x eqn:?
  end.

Ltac mgo := repeat (first [mstep | ostep]; cbv beta).

Definition is_Ret {A} (o : outcome A) : Prop := ∃ a, o = Ret a.

(** A counter is used up. *)
Definition exhausted (e : exn) : Prop := ∃ message, e = overflow_error message.

(** ** More of the state monad *)

Definition modify {S} (f : S → S) : M S unit := s ← get_state; put_state (f s).

(** [for (x : l) a = f(a, x)] over an object. *)
Fixpoint mfold {S A B} (f : A → B → M S A) (a : A) (l : list B) : M S A :=
  match l with
  | [] => mret a
  | x :: l' => a' ← f a x; mfold f a' l'
  end.

(** [*optional] *)
Definition deref {S A} (o : option A) : M S A :=
  match o with Some a => mret a | None => lift (Throw (logic_error "optional is empty")) end.

Lemma mwp_modify {S} (f : S → S) s (Q : unit → S → Prop) E : Q tt (f s) → mwp (modify f) s Q E.
Proof. done. Qed.

Lemma mwp_deref {S A} (o : option A) s (Q : A → S → Prop) E :
  (∀ a, o = Some a → Q a s) → (o = None → E (logic_error "optional is empty") s) →
  mwp (deref o) s Q E.
Proof. destruct o; simpl; intros HQ HE; [apply mwp_ret; auto|by apply HE]. Qed.

Lemma mwp_and {S A} (m : M S A) s (Q1 Q2 : A → S → Prop) (E : exn → S → Prop) :
  mwp m s Q1 E → mwp m s Q2 E → mwp m s (λ a s', Q1 a s' ∧ Q2 a s') E.
Proof. unfold mwp. by destruct (m s) as [[a|e] s']. Qed.

Lemma mwp_and_l {S A} (m : M S A) s (Q1 Q2 : A → S → Prop) (E E' : exn → S → Prop) :
  mwp m s Q1 E → mwp m s Q2 E' → mwp m s (λ a s', Q1 a s' ∧ Q2 a s') E.
Proof. unfold mwp. by destruct (m s) as [[a|e] s']. Qed.

Lemma mwp_eq {S A} (m m' : M S A) s Q E : m s = m' s → mwp m' s Q E → mwp m s Q E.
Proof. unfold mwp. by intros ->. Qed.

(** What a call that returns and one that throws establish, separately. *)
Lemma mwp_throws {S A} (m : M S A) s (Q : A → S → Prop) (E E' : exn → S → Prop) :
  mwp m s Q E' → mwp m s (λ _ _, True) E → mwp m s Q E.
Proof. unfold mwp. by destruct (m s) as [[a|e] s']. Qed.

Lemma mwp_true {S A} (m : M S A) s : mwp m s (λ _ _, True) (λ _ _, True).
Proof. unfold mwp. by destruct (m s) as [[a|e] s']. Qed.

(** Loop rule: an invariant indexed by the processed prefix. *)
Lemma mwp_mfold {S A B} (f : A → B → M S A) (I : list B → A → S → Prop) E l a s :
  I [] a s →
  (∀ pre x suf a' s', l = pre ++ x :: suf → I pre a' s' →
     mwp (f a' x) s' (I (pre ++ [x])) E) →
  mwp (mfold f a l) s (I l) E.
Proof.
  intros HI Hstep.
  cut (∀ suf pre a' s', l = pre ++ suf → I pre a' s' → mwp (mfold f a' suf) s' (I l) E).
  { intros H. by apply (H l []). }
  clear a s HI. induction suf as [|x suf IH]; intros pre a' s' Hl HI; simpl.
  - apply mwp_ret. by rewrite Hl, app_nil_r.
  - apply mwp_bind. eapply mwp_mono; [by eapply Hstep| |done].
    intros a'' s'' HI'. apply (IH (pre ++ [x])); [|done]. by rewrite <-app_assoc.
Qed.

(** [cstep] is [mstep] with the additions; [cgo] takes all the steps it can. *)
Ltac cstep := first [mstep | apply mwp_modify | ostep | apply owp_throw_when].
Ltac cgo := repeat (cstep; cbv beta).

(** ** Lists *)

Section list_lemmas.
Context {A : Type}.
Implicit Types l : list A.

Lemma filter_id (P : A → Prop) `{!∀ x, Decision (P x)} l :
  Forall P l → filter P l = l.
Proof.
  induction 1 as [|x l Hx _ IH]; [done|].
  rewrite filter_cons_True by done. by f_equal.
Qed.

Lemma filter_none (P : A → Prop) `{!∀ x, Decision (P x)} l :
  Forall (λ x, ¬ P x) l → filter P l = [].
Proof.
  induction 1 as [|x l Hx _ IH]; [done|]. by rewrite filter_cons_False.
Qed.

(** Invariant rule for [foldl]. *)
Lemma foldl_inv {B} (I : B → Prop) (f : B → A → B) l b :
  I b → (∀ b x, I b → I (f b x)) → I (foldl f b l).
Proof. intros Hb Hf. revert b Hb. induction l; simpl; auto. Qed.

Lemma fmap_sublist {B} (f : A → B) l1 l2 :
  l1 `sublist_of` l2 → f <$> l1 `sublist_of` f <$> l2.
Proof. induction 1; simpl; by constructor. Qed.
End list_lemmas.
