(* ===== verification/OrdMap.v ===== *)
(** * Ordered iteration over finite maps

    [std::map] and [std::set] iterate in key order.  A [std::map<K, V>] is
    modelled by a [gmap K V] (so that two maps with the same bindings are equal)
    together with its entries in key order; this file gives the key-order
    interface, the ordered enumeration and the [lower_bound] scan the sources
    write as iterator loops. *)

From S2P Require Import Prelude.

(** What a key type promises to the containers: a decidable total order. *)
Class KeyOrder (K : Type) := {
  key_le : relation K;
  key_le_dec :: RelDecision key_le;
  key_le_po :: PartialOrder key_le;
  key_le_total :: Total key_le;
}.

Definition key_lt `{KeyOrder K} (x y : K) : Prop := ¬ key_le y x.

#[export] Instance key_lt_dec `{KeyOrder K} : RelDecision (key_lt (K := K)).
Proof. intros x y. unfold key_lt. apply _. Defined.

#[export] Program Instance Z_key_order : KeyOrder Z := {| key_le := Z.le |}.

Section key_order.
Context `{KeyOrder K}.
Implicit Types x y z : K.

Lemma key_lt_le x y : key_lt x y → key_le x y.
Proof. intros Hn. by destruct (total key_le x y). Qed.

Lemma key_le_lt_trans x y z : key_le x y → key_lt y z → key_lt x z.
Proof. intros Hxy Hyz Hzx. apply Hyz. by trans x. Qed.

Lemma key_lt_le_trans x y z : key_lt x y → key_le y z → key_lt x z.
Proof. intros Hxy Hyz Hzx. apply Hxy. by trans z. Qed.

Lemma key_lt_irrefl x : ¬ key_lt x x.
Proof. intros Hn. by apply Hn. Qed.

Lemma key_lt_ne x y : key_lt x y → x ≠ y.
Proof. intros Hlt ->. by apply key_lt_irrefl in Hlt. Qed.

Lemma key_not_lt x y : ¬ key_lt x y ↔ key_le y x.
Proof.
  unfold key_lt. split; [|by intros ? Hn].
  intros Hn. destruct (decide (key_le y x)); [done|]. by destruct Hn.
Qed.

Lemma key_le_lt_eq x y : key_le x y → x = y ∨ key_lt x y.
Proof.
  intros Hle. destruct (decide (key_le y x)); [|by right].
  left. by apply (anti_symm key_le).
Qed.
End key_order.

(** ** Iterator scans *)

Fixpoint drop_while {A} (p : A → bool) (l : list A) : list A :=
  match l with
  | [] => []
  | x :: l' => if p x then drop_while p l' else l
  end.

Fixpoint take_while {A} (p : A → bool) (l : list A) : list A :=
  match l with
  | [] => []
  | x :: l' => if p x then x :: take_while p l' else []
  end.

Lemma take_while_all_false {A} (p : A → bool) l :
  Forall (λ x, p x = false) l → take_while p l = [].
Proof. intros [|x l' Hx _]; simpl; [done|]. by rewrite Hx. Qed.

Section ordered_map.
Context `{Countable K} `{!KeyOrder K} {V : Type}.
Implicit Types (m : gmap K V) (k : K) (v : V).

Definition entry_le (x y : K * V) : Prop := key_le x.1 y.1.

#[export] Instance entry_le_dec : RelDecision entry_le.
Proof. intros x y. unfold entry_le. apply _. Defined.

#[export] Instance entry_le_trans : Transitive entry_le.
Proof. intros x y z. unfold entry_le. apply transitivity. Qed.

#[export] Instance entry_le_total : Total entry_le.
Proof. intros x y. unfold entry_le. apply (total key_le). Qed.

(** The entries of a map in key order: [begin() .. end()]. *)
Definition entries m : list (K * V) := merge_sort entry_le (map_to_list m).

(** The iterator returned by [lower_bound(k)], as the entries from it on. *)
Definition lower_bound m k : list (K * V) :=
  drop_while (λ e, bool_decide (key_lt e.1 k)) (entries m).

(** [for (it = lower_bound(s); it != end() && it->first < e; ++it)] *)
Definition scan m s e : list (K * V) :=
  take_while (λ x, bool_decide (key_lt x.1 e)) (lower_bound m s).

Lemma entries_perm m : entries m ≡ₚ map_to_list m.
Proof. apply merge_sort_Permutation. Qed.

Lemma elem_of_entries m k v : (k, v) ∈ entries m ↔ m !! k = Some v.
Proof. rewrite entries_perm. apply elem_of_map_to_list. Qed.

Lemma NoDup_entries m : NoDup (entries m).*1.
Proof. rewrite entries_perm. apply NoDup_fst_map_to_list. Qed.

Lemma sorted_entries m : StronglySorted entry_le (entries m).
Proof. apply (StronglySorted_merge_sort _). Qed.

Lemma entries_to_map m : list_to_map (entries m) = m.
Proof.
  apply map_eq. intros k. apply option_eq. intros v.
  rewrite <-elem_of_list_to_map by apply NoDup_entries. apply elem_of_entries.
Qed.

Lemma length_entries m : length (entries m) = size m.
Proof. rewrite entries_perm. apply length_map_to_list. Qed.

Lemma entries_empty : entries ∅ = [].
Proof. unfold entries. by rewrite map_to_list_empty. Qed.

(** The enumeration is canonical: a sorted list without duplicate keys is the
    enumeration of the map it describes. *)
Lemma entries_unique l m :
  StronglySorted entry_le l → NoDup l.*1 → list_to_map l = m → entries m = l.
Proof.
  intros Hs Hnd <-. unfold entries.
  apply (StronglySorted_unique_strong entry_le);
    [|apply (StronglySorted_merge_sort _)|done|].
  - intros [k1 v1] [k2 v2] H1 H2 Hle1 Hle2. unfold entry_le in *. simpl in *.
    assert (k1 = k2) as -> by by apply (anti_symm key_le).
    rewrite merge_sort_Permutation in H1.
    apply elem_of_map_to_list in H1.
    apply elem_of_list_to_map in H2; [|done]. congruence.
  - rewrite merge_sort_Permutation. by apply map_to_list_to_map.
Qed.

Lemma drop_while_sorted s (l : list (K * V)) :
  StronglySorted entry_le l →
  drop_while (λ e, bool_decide (key_lt e.1 s)) l
  = filter (λ e, key_le s e.1) l.
Proof.
  induction 1 as [|x l Hs IH Hall]; simpl; [done|].
  rewrite filter_cons. case_bool_decide as Hx.
  - rewrite decide_False; [done|]. done.
  - apply key_not_lt in Hx. rewrite decide_True by done. f_equal.
    symmetry. apply filter_id. apply (Forall_impl _ _ _ Hall).
    intros y Hxy. unfold entry_le in Hxy. by trans (x.1).
Qed.

Lemma take_while_sorted e (l : list (K * V)) :
  StronglySorted entry_le l →
  take_while (λ x, bool_decide (key_lt x.1 e)) l
  = filter (λ x, key_lt x.1 e) l.
Proof.
  induction 1 as [|x l Hs IH Hall]; simpl; [done|].
  rewrite filter_cons. case_bool_decide as Hx.
  - rewrite decide_True by done. by f_equal.
  - rewrite decide_False by done. symmetry.
    apply filter_none, (Forall_impl _ _ _ Hall). intros y Hy.
    apply key_not_lt. apply key_not_lt in Hx. unfold entry_le in Hy. by trans (x.1).
Qed.

Lemma StronglySorted_filter (P : K * V → Prop) `{!∀ x, Decision (P x)} l :
  StronglySorted entry_le l → StronglySorted entry_le (filter P l).
Proof.
  induction 1 as [|x l Hs IH Hall]; [constructor|].
  rewrite filter_cons. case_decide; [|done].
  constructor; [done|]. apply Forall_forall. intros y Hy.
  apply list_elem_of_filter in Hy as [_ Hy]. rewrite Forall_forall in Hall. by apply Hall.
Qed.

(** The scan loop visits exactly the keys of [[s, e)], in order. *)
Lemma scan_filter m s e :
  scan m s e = filter (λ x, key_le s x.1 ∧ key_lt x.1 e) (entries m).
Proof.
  unfold scan, lower_bound.
  rewrite drop_while_sorted by apply sorted_entries.
  rewrite take_while_sorted by apply StronglySorted_filter, sorted_entries.
  rewrite list_filter_filter. apply list_filter_iff. intros x. naive_solver.
Qed.

Lemma elem_of_scan m s e k v :
  (k, v) ∈ scan m s e ↔ m !! k = Some v ∧ key_le s k ∧ key_lt k e.
Proof.
  rewrite scan_filter, list_elem_of_filter, elem_of_entries. simpl. naive_solver.
Qed.

Lemma sorted_scan m s e : StronglySorted entry_le (scan m s e).
Proof. rewrite scan_filter. apply StronglySorted_filter, sorted_entries. Qed.

Lemma NoDup_scan m s e : NoDup (scan m s e).*1.
Proof.
  rewrite scan_filter. eapply sublist_NoDup; [apply NoDup_entries|].
  apply fmap_sublist, sublist_filter.
Qed.
End ordered_map.

(** A [std::set] in iteration order. *)
Definition set_entries `{Countable K, !KeyOrder K} (X : gset K) : list K :=
  merge_sort key_le (elements X).

Section ordered_set.
Context `{Countable K} `{!KeyOrder K}.
Implicit Types X : gset K.

Lemma elem_of_set_entries X k : k ∈ set_entries X ↔ k ∈ X.
Proof. unfold set_entries. rewrite merge_sort_Permutation. set_solver. Qed.

Lemma NoDup_set_entries X : NoDup (set_entries X).
Proof. unfold set_entries. rewrite merge_sort_Permutation. apply NoDup_elements. Qed.

Lemma sorted_set_entries X : StronglySorted key_le (set_entries X).
Proof. apply (StronglySorted_merge_sort _). Qed.

Lemma set_entries_to_set X : list_to_set (set_entries X) = X.
Proof.
  apply set_eq. intros k. rewrite elem_of_list_to_set. apply elem_of_set_entries.
Qed.

Lemma set_entries_unique l X :
  StronglySorted key_le l → NoDup l → list_to_set l = X → set_entries X = l.
Proof.
  intros Hs Hnd <-. unfold set_entries.
  apply (StronglySorted_unique key_le);
    [apply (StronglySorted_merge_sort _)|done|].
  rewrite merge_sort_Permutation. apply NoDup_Permutation; [apply NoDup_elements|done|].
  intros x. rewrite elem_of_elements. apply elem_of_list_to_set.
Qed.
End ordered_set.

(** ** Erasing a list of keys *)

Section erase_all.
Context `{Countable K} {V B : Type}.

Lemma lookup_foldl_delete (f : B → K) (l : list B) (m : gmap K V) k :
  foldl (λ m x, delete (f x) m) m l !! k
  = if decide (k ∈ f <$> l) then None else m !! k.
Proof.
  revert m. induction l as [|x l IH]; intros m; simpl.
  { done. }
  rewrite IH. destruct (decide (k ∈ f <$> l)) as [Hin|Hin].
  - case_decide as Hn; [done|]. destruct Hn. by right.
  - destruct (decide (k = f x)) as [->|Hne].
    + case_decide as Hn; [|destruct Hn; by left]. apply lookup_delete_eq.
    + rewrite lookup_delete_ne by done. case_decide as Hn; [|done].
      apply elem_of_cons in Hn. tauto.
Qed.

Lemma foldl_delete_notin (f : B → K) (l : list B) (m : gmap K V) :
  (∀ x, x ∈ l → m !! f x = None) → foldl (λ m x, delete (f x) m) m l = m.
Proof.
  intros Hl. apply map_eq. intros k. rewrite lookup_foldl_delete.
  case_decide as Hin; [|done]. apply list_elem_of_fmap in Hin as (x & -> & Hx).
  symmetry. by apply Hl.
Qed.
End erase_all.

(** Two maps that agree on a half-open interval have the same scan of it. *)
Lemma scan_ext `{Countable K, !KeyOrder K} {V} (m1 m2 : gmap K V) s e :
  (∀ k, key_le s k → key_lt k e → m1 !! k = m2 !! k) → scan m1 s e = scan m2 s e.
Proof.
  intros Hext. apply (StronglySorted_unique_strong entry_le).
  - intros [k1 v1] [k2 v2] [H1 [Hs1 He1]]%elem_of_scan [H2 _]%elem_of_scan.
    unfold entry_le. simpl. intros ??. assert (k1 = k2) as -> by by apply (anti_symm key_le).
    rewrite <-Hext in H2 by done. congruence.
  - apply sorted_scan.
  - apply sorted_scan.
  - apply NoDup_Permutation.
    + apply NoDup_fmap_1 with fst, NoDup_scan.
    + apply NoDup_fmap_1 with fst, NoDup_scan.
    + intros [k v]. rewrite !elem_of_scan. split; intros (Hk & ? & ?); split_and!; try done.
      * by rewrite <-Hext. * by rewrite Hext.
Qed.
