(* ===== verification/Bytes.v ===== *)
(** * Byte sequences and key ranges

    [ByteSequence] (src/byte_sequence.cpp) is an immutable vector of
    [std::uint8_t] compared with the defaulted three-way comparison, that is
    lexicographically on unsigned bytes.  [prefix_range_end]
    (src/key_range.cpp) computes the end of the half-open key range that holds
    the keys with a given prefix. *)

From S2P Require Import Prelude OrdMap.

Definition ByteSequence : Type := list byte.

#[global] Instance byte_eq_dec : EqDecision byte := Strings.Byte.byte_eq_dec.

#[global] Program Instance byte_countable : Countable byte :=
  inj_countable' Strings.Byte.to_N
    (λ n, default Init.Byte.x00 (Strings.Byte.of_N n)) _.
Next Obligation. intros x. simpl. by rewrite Strings.Byte.of_to_N. Qed.

(** [ByteSequence::operator<=>], defaulted over [std::vector<std::uint8_t>]. *)
Fixpoint bytes_compare (a b : ByteSequence) : comparison :=
  match a, b with
  | [], [] => Eq
  | [], _ :: _ => Lt
  | _ :: _, [] => Gt
  | x :: a', y :: b' =>
      match byte.unsigned x ?= byte.unsigned y with
      | Eq => bytes_compare a' b'
      | c => c
      end
  end.

Definition bytes_ltb (a b : ByteSequence) : bool :=
  match bytes_compare a b with Lt => true | _ => false end.
Definition bytes_leb (a b : ByteSequence) : bool :=
  match bytes_compare a b with Gt => false | _ => true end.

Definition bytes_le (a b : ByteSequence) : Prop := bytes_compare a b ≠ Gt.

Lemma bytes_compare_refl a : bytes_compare a a = Eq.
Proof. induction a; simpl; [done|]. by rewrite Z.compare_refl. Qed.

Lemma bytes_compare_eq a b : bytes_compare a b = Eq → a = b.
Proof.
  revert b. induction a as [|x a IH]; intros [|y b]; simpl; try done.
  destruct (byte.unsigned x ?= byte.unsigned y) eqn:Hc; try done.
  apply Z.compare_eq_iff in Hc. intros Heq. f_equal; [by apply byte.unsigned_inj|auto].
Qed.

Lemma bytes_compare_antisym a b : bytes_compare b a = CompOpp (bytes_compare a b).
Proof.
  revert b. induction a as [|x a IH]; intros [|y b]; simpl; try done.
  rewrite (Z.compare_antisym (byte.unsigned x)).
  destruct (byte.unsigned x ?= byte.unsigned y); simpl; auto.
Qed.

Lemma bytes_le_trans a b c : bytes_le a b → bytes_le b c → bytes_le a c.
Proof.
  unfold bytes_le. revert b c.
  induction a as [|x a IH]; intros [|y b] [|z c]; simpl; try done.
  destruct (Z.compare_spec (byte.unsigned x) (byte.unsigned y));
    destruct (Z.compare_spec (byte.unsigned y) (byte.unsigned z));
    destruct (Z.compare_spec (byte.unsigned x) (byte.unsigned z)); try lia; try done.
  apply IH.
Qed.

#[export] Instance bytes_le_dec : RelDecision bytes_le.
Proof. intros a b. unfold bytes_le. apply _. Defined.

#[export] Instance bytes_le_po : PartialOrder bytes_le.
Proof.
  repeat split.
  - intros a. unfold bytes_le. by rewrite bytes_compare_refl.
  - intros a b c. apply bytes_le_trans.
  - intros a b. unfold bytes_le. rewrite (bytes_compare_antisym a b).
    destruct (bytes_compare a b) eqn:Hc; simpl; try done.
    by intros; apply bytes_compare_eq.
Qed.

#[export] Instance bytes_le_total : Total bytes_le.
Proof.
  intros a b. unfold bytes_le. rewrite (bytes_compare_antisym a b).
  destruct (bytes_compare a b); simpl; auto.
Qed.

#[export] Instance bytes_key_order : KeyOrder (list byte) := {| key_le := bytes_le |}.

Lemma bytes_leb_spec a b : bytes_leb a b = true ↔ bytes_le a b.
Proof. unfold bytes_leb, bytes_le. destruct (bytes_compare a b); naive_solver. Qed.

Lemma bytes_ltb_spec a b : bytes_ltb a b = true ↔ key_lt a b.
Proof.
  unfold bytes_ltb, key_lt. simpl. unfold bytes_le. rewrite (bytes_compare_antisym a b).
  destruct (bytes_compare a b); simpl; naive_solver.
Qed.

Lemma bytes_compare_spec a b :
  CompareSpec (a = b) (key_lt a b) (key_lt b a) (bytes_compare a b).
Proof.
  destruct (bytes_compare a b) eqn:Hc; constructor.
  - by apply bytes_compare_eq.
  - apply bytes_ltb_spec. unfold bytes_ltb. by rewrite Hc.
  - apply bytes_ltb_spec. unfold bytes_ltb. by rewrite bytes_compare_antisym, Hc.
Qed.

Lemma bytes_leb_ltb a b : bytes_leb b a = negb (bytes_ltb a b).
Proof.
  unfold bytes_leb, bytes_ltb. rewrite (bytes_compare_antisym a b).
  by destruct (bytes_compare a b).
Qed.

(** ** Key ranges (core/key_range.hpp) *)

Record KeyRange := mkKeyRange { range_start : ByteSequence; range_end : ByteSequence }.

(** [prefix_range_end]: the loop drops trailing 0xff bytes and increments the
    last byte that is not 0xff; a prefix of 0xff bytes only has no end. *)
Fixpoint prefix_range_end_loop (end_ : ByteSequence) (size : nat) : option ByteSequence :=
  match size with
  | O => None
  | Datatypes.S size' =>
      match end_ !! size' with
      | Some byte =>
          if bool_decide (byte.unsigned byte ≠ 255)
          then Some (take size' end_ ++ [byte.of_Z (byte.unsigned byte + 1)])
          else prefix_range_end_loop end_ size'
      | None => None
      end
  end.

Definition prefix_range_end (prefix : ByteSequence) : option ByteSequence :=
  prefix_range_end_loop prefix (length prefix).

(** The same function read from the left, used to reason about it. *)
Fixpoint prefix_succ (prefix : ByteSequence) : option ByteSequence :=
  match prefix with
  | [] => None
  | x :: p =>
      match prefix_succ p with
      | Some q => Some (x :: q)
      | None =>
          if bool_decide (byte.unsigned x ≠ 255)
          then Some [byte.of_Z (byte.unsigned x + 1)] else None
      end
  end.

Lemma prefix_range_end_loop_cons x p n :
  prefix_range_end_loop (x :: p) (Datatypes.S n)
  = match prefix_range_end_loop p n with
    | Some q => Some (x :: q)
    | None => match n with
              | O => prefix_range_end_loop [x] 1
              | _ => if bool_decide (n ≤ length p)%nat
                     then prefix_range_end_loop [x] 1 else None
              end
    end.
Proof.
  induction n as [|n IH]; [done|].
  change (prefix_range_end_loop (x :: p) (Datatypes.S (Datatypes.S n))) with
    (match p !! n with
      | Some byte =>
          if bool_decide (byte.unsigned byte ≠ 255)
          then Some (x :: take n p ++ [byte.of_Z (byte.unsigned byte + 1)])
          else prefix_range_end_loop (x :: p) (Datatypes.S n)
      | None => None
      end).
  change (prefix_range_end_loop p (Datatypes.S n)) with
    (match p !! n with
      | Some byte =>
          if bool_decide (byte.unsigned byte ≠ 255)
          then Some (take n p ++ [byte.of_Z (byte.unsigned byte + 1)])
          else prefix_range_end_loop p n
      | None => None
      end).
  destruct (p !! n) as [y|] eqn:Hy.
  - apply lookup_lt_Some in Hy.
    rewrite (bool_decide_true (Datatypes.S n ≤ length p)%nat) by lia.
    destruct (bool_decide (byte.unsigned y ≠ 255)); [done|]. rewrite IH.
    rewrite bool_decide_true by lia. by destruct n.
  - apply lookup_ge_None in Hy. by rewrite bool_decide_false by lia.
Qed.

Lemma prefix_range_end_succ prefix : prefix_range_end prefix = prefix_succ prefix.
Proof.
  unfold prefix_range_end. induction prefix as [|x p IH]; [done|].
  simpl length. rewrite prefix_range_end_loop_cons. simpl prefix_succ. rewrite IH.
  destruct (prefix_succ p) as [q|]; [done|].
  rewrite bool_decide_true by lia. by destruct (length p).
Qed.

Lemma prefix_succ_None prefix :
  prefix_succ prefix = None ↔ Forall (λ b, byte.unsigned b = 255) prefix.
Proof.
  induction prefix as [|x p IH]; simpl; [by split|].
  rewrite Forall_cons. destruct (prefix_succ p) as [q|].
  - split; [done|]. intros [_ Hp]. by apply IH in Hp.
  - rewrite <-IH. case_bool_decide; naive_solver lia.
Qed.

Lemma bytes_le_ff p k :
  Forall (λ b, byte.unsigned b = 255) p → bytes_le p k → p `prefix_of` k.
Proof.
  revert k. induction p as [|x p IH]; intros k Hff Hle; [apply prefix_nil|].
  apply Forall_cons in Hff as [Hx Hff]. destruct k as [|y k]; [done|].
  unfold bytes_le in *. simpl in *.
  pose proof (byte.unsigned_range y) as [_ Hy].
  destruct (Z.compare_spec (byte.unsigned x) (byte.unsigned y)) as [Heq|?|?]; [|lia|done].
  apply byte.unsigned_inj in Heq as ->. by apply prefix_cons, IH.
Qed.

Lemma prefix_bytes_le p k : p `prefix_of` k → bytes_le p k.
Proof.
  intros [q ->]. unfold bytes_le. induction p as [|x p IH]; simpl; [by destruct q|].
  by rewrite Z.compare_refl.
Qed.

Lemma prefix_succ_range p e k :
  prefix_succ p = Some e → (p `prefix_of` k ↔ bytes_le p k ∧ key_lt k e).
Proof.
  unfold key_lt. simpl. unfold bytes_le. revert e k.
  induction p as [|x p IH]; intros e k; [done|].
  simpl prefix_succ. destruct (prefix_succ p) as [q|] eqn:Hq.
  - intros [= <-]. destruct k as [|y k]; simpl.
    { split; [by intros ?%prefix_nil_inv|naive_solver]. }
    specialize (IH q k eq_refl).
    destruct (Z.compare_spec (byte.unsigned x) (byte.unsigned y)) as [Heq|?|?]; simpl.
    + apply byte.unsigned_inj in Heq as ->. rewrite <-IH. split.
      * by intros ?%prefix_cons_inv_2.
      * apply prefix_cons.
    + split; [intros ->%prefix_cons_inv_1; lia|naive_solver].
    + split; [intros ->%prefix_cons_inv_1; lia|naive_solver].
  - case_bool_decide as Hx; [|done]. intros [= <-].
    apply prefix_succ_None in Hq. destruct k as [|y k]; simpl.
    { split; [by intros ?%prefix_nil_inv|naive_solver]. }
    pose proof (byte.unsigned_range x) as Hrx. change (2 ^ 8) with 256 in Hrx.
    rewrite byte.unsigned_of_Z. unfold byte.wrap. change (2 ^ 8) with 256.
    rewrite Z.mod_small by lia.
    destruct (Z.compare_spec (byte.unsigned x) (byte.unsigned y)) as [Heq|?|?];
    destruct (Z.compare_spec (byte.unsigned x + 1) (byte.unsigned y)) as [?|?|?];
      try lia; simpl.
    + apply byte.unsigned_inj in Heq as ->. split.
      * intros Hp%prefix_cons_inv_2. split; [by apply prefix_bytes_le|naive_solver].
      * intros [Hle _]. by apply prefix_cons, bytes_le_ff.
    + split; [intros ->%prefix_cons_inv_1; lia|]. destruct k; naive_solver.
    + split; [intros ->%prefix_cons_inv_1; lia|naive_solver].
    + split; [intros ->%prefix_cons_inv_1; lia|naive_solver].
Qed.

(** [exact_key_end] (src/kura_client.cpp) and the like append a zero byte. *)
Definition exact_key_end (key : ByteSequence) : ByteSequence := key ++ [Init.Byte.x00].

Lemma exact_key_end_range key k :
  bytes_le key k ∧ key_lt k (exact_key_end key) ↔ k = key.
Proof.
  unfold key_lt, exact_key_end. simpl. unfold bytes_le. revert k.
  induction key as [|x key IH]; intros k; simpl.
  - destruct k as [|y k]; simpl.
    { split; [done|]. intros _. split; [done|]. intros Hn. by apply Hn. }
    pose proof (byte.unsigned_range y).
    split; [intros [_ Hn]; exfalso; apply Hn|done].
    destruct (byte.unsigned y) eqn:?; [by destruct k|done|lia].
  - destruct k as [|y k]; simpl; [naive_solver|].
    destruct (Z.compare_spec (byte.unsigned x) (byte.unsigned y)) as [Heq|?|?]; simpl.
    + apply byte.unsigned_inj in Heq as ->. rewrite IH. naive_solver.
    + split; [naive_solver|]. intros [= -> ->]. lia.
    + split; [naive_solver|]. intros [= -> ->]. lia.
Qed.

Definition bytes_of_Zs (l : list Z) : ByteSequence := byte.of_Z <$> l.

(** [ByteSequence::from_string]: the characters as unsigned bytes. *)
Definition from_string (value : string) : ByteSequence :=
  String.list_byte_of_string value.

(** [ByteSequence::to_string]. *)
Definition to_string (bytes : ByteSequence) : string := String.string_of_list_byte bytes.

(** A key lies in the half-open range [[prefix, prefix_range_end prefix)]
    exactly when it starts with [prefix]; when the function returns no end,
    the prefix is a run of 0xff bytes and every key from [prefix] on has it. *)
Theorem prefix_range_end_correct (prefix k : ByteSequence) :
  match prefix_range_end prefix with
  | Some end_ => prefix `prefix_of` k ↔ bytes_le prefix k ∧ key_lt k end_
  | None => prefix `prefix_of` k ↔ bytes_le prefix k
  end.
Proof.
  rewrite prefix_range_end_succ. destruct (prefix_succ prefix) as [e|] eqn:He.
  - by apply prefix_succ_range.
  - apply prefix_succ_None in He. split; [apply prefix_bytes_le|by apply bytes_le_ff].
Qed.
