(* ===== verification/StoreTypes.v ===== *)
(** * Data types of the metadata store

    The structs of include/kura/metadata/{core,kv,lease,watch}: key-values,
    requests and results of point operations and transactions, leases, watches
    and the in-memory snapshot.  Single-field wrapper structs ([Revision],
    [LeaseId], [FencingToken], [LeaseTick], [LeaseDuration], [WatchId]) are
    represented by their field. *)

From S2P Require Import Prelude OrdMap Bytes.

(** ** core/ *)

Record RequestId := mkRequestId { rid_client : Z; rid_sequence : Z }.

Record ResponseHeader := mkHeader {
  hd_cluster_id : Z; hd_member_id : Z; hd_revision : Z; hd_raft_term : Z }.

(** [ResponseHeader{.revision = r}]: the other fields are zero. *)
Definition header_at (r : Z) : ResponseHeader := mkHeader 0 0 r 0.

Record StoreLimits := mkLimits {
  max_key_bytes : Z;
  max_value_bytes : Z;
  max_transaction_operations : Z;
  max_watchers : Z;
  max_watch_history_revisions : Z;
  max_watch_pending_responses : Z;
  max_active_leases : Z }.

Definition default_limits : StoreLimits :=
  mkLimits 1048576 8388608 128 10000 1024 128 10000.

Inductive ReadConsistency := linearizable | serializable.

(** ** kv/ *)

Record KeyValue := mkKV {
  kv_key : ByteSequence;
  kv_value : ByteSequence;
  kv_version : Z;
  kv_create_revision : Z;
  kv_mod_revision : Z;
  kv_lease_id : Z }.

Record StoreRead := mkStoreRead { sr_value : option KeyValue; sr_revision : Z }.
Record RangeRead := mkRangeRead { rr_values : list KeyValue; rr_revision : Z }.
Record PutResult := mkPutResult {
  pr_current : KeyValue; pr_previous : option KeyValue; pr_revision : Z }.
Record DeleteResult := mkDeleteResult {
  dr_deleted : bool; dr_previous : option KeyValue; dr_revision : Z }.
Record CompareAndSetResult := mkCasResult {
  cas_succeeded : bool; cas_current : option KeyValue; cas_revision : Z }.

Inductive CompareResult := cr_equal | cr_not_equal | cr_greater | cr_less.
Inductive CompareTarget :=
| ct_version | ct_create_revision | ct_mod_revision | ct_value | ct_lease_id.

(** [std::variant<std::int64_t, ByteSequence>] *)
Inductive CompareOperand := operand_int (z : Z) | operand_bytes (b : ByteSequence).

Record Compare := mkCompare {
  cmp_key : ByteSequence;
  cmp_target : CompareTarget;
  cmp_result : CompareResult;
  cmp_expected : CompareOperand }.

Record RangeRequest := mkRangeRequest {
  rq_range : KeyRange; rq_revision : Z; rq_consistency : ReadConsistency; rq_limit : Z }.
Record PutRequest := mkPutRequest {
  pq_request_id : RequestId; pq_key : ByteSequence; pq_value : ByteSequence;
  pq_lease_id : Z; pq_return_previous : bool }.
Record DeleteRequest := mkDeleteRequest {
  dq_request_id : RequestId; dq_range : KeyRange; dq_return_previous : bool }.

Inductive RequestOperation :=
| op_range (r : RangeRequest)
| op_put (p : PutRequest)
| op_delete (d : DeleteRequest).

Record LeaseOwnership := mkOwnership { lo_id : Z; lo_fencing_token : Z }.

Record TransactionRequest := mkTxn {
  tx_request_id : RequestId;
  tx_comparisons : list Compare;
  tx_lease_ownership : list LeaseOwnership;
  tx_lease_tick : Z;
  tx_success : list RequestOperation;
  tx_failure : list RequestOperation }.

Record DeleteRangeResult := mkDeleteRangeResult {
  drr_deleted : Z; drr_previous : list KeyValue; drr_revision : Z }.

Inductive TransactionOperationResult :=
| res_range (r : RangeRead)
| res_put (p : PutResult)
| res_delete (d : DeleteRangeResult).

Record TransactionResult := mkTxnResult {
  tr_header : ResponseHeader;
  tr_succeeded : bool;
  tr_responses : list TransactionOperationResult }.

Inductive MutationEventType := me_put | me_erase.

Record MutationEvent := mkMutation {
  mu_type : MutationEventType;
  mu_current : option KeyValue;
  mu_previous : option KeyValue }.

(** ** lease/ *)

Record LeaseRecord := mkLeaseRecord {
  lr_id : Z;
  lr_fencing_token : Z;
  lr_granted_ttl : Z;
  lr_expiry_tick : Z;
  lr_attached_keys : list ByteSequence }.

Record LeaseGrantRequest := mkGrant {
  lg_request_id : RequestId; lg_requested_id : Z; lg_ttl : Z; lg_tick : Z }.
Record LeaseKeepAliveRequest := mkKeepAlive {
  lk_id : Z; lk_fencing_token : Z; lk_tick : Z }.
Record LeaseTimeToLiveRequest := mkTtl { lt_id : Z; lt_tick : Z }.
Record LeaseRevokeRequest := mkRevoke {
  lv_request_id : RequestId; lv_id : Z; lv_fencing_token : Z; lv_tick : Z }.

Inductive LeaseResultCode :=
| lease_ok | lease_not_found | lease_expired | lease_fencing_token_mismatch.

Record LeaseGrantResult := mkGrantResult { gr_lease : LeaseRecord; gr_revision : Z }.
Record LeaseLookupResult := mkLookupResult {
  ll_code : LeaseResultCode;
  ll_lease : option LeaseRecord;
  ll_remaining_ttl : Z;
  ll_revision : Z }.
Record LeaseCleanupResult := mkCleanupResult {
  lc_code : LeaseResultCode;
  lc_leases : list Z;
  lc_deleted_keys : list KeyValue;
  lc_revision : Z }.

Record InMemoryStoreSnapshot := mkStoreSnapshot {
  ss_values : list KeyValue;
  ss_leases : list LeaseRecord;
  ss_revision : Z;
  ss_logical_tick : Z;
  ss_next_lease_id : Z;
  ss_next_fencing_token : Z }.

(** ** watch/ *)

Inductive WatchFilter := include_all | exclude_put | exclude_erase.

Record WatchEvent := mkWatchEvent { we_revision : Z; we_mutation : MutationEvent }.

Record WatchRequest := mkWatchRequest {
  wq_id : Z;
  wq_range : KeyRange;
  wq_start_revision : Z;
  wq_filter : WatchFilter;
  wq_progress_notifications : bool }.

Record WatchResponse := mkWatchResponse {
  wr_header : ResponseHeader;
  wr_id : Z;
  wr_events : list WatchEvent;
  wr_compact_revision : Z;
  wr_status : StatusCode;
  wr_cancelled : bool }.

(** [WatchResponse{.header = {.revision = r}, .id = id, .events = events}] *)
Definition watch_response_at (r id : Z) (events : list WatchEvent) : WatchResponse :=
  mkWatchResponse (header_at r) id events 0 sc_ok false.

(** ** Decidable equality *)

#[export] Instance KeyValue_eq_dec : EqDecision KeyValue.
Proof. solve_decision. Defined.
#[export] Instance LeaseResultCode_eq_dec : EqDecision LeaseResultCode.
Proof. solve_decision. Defined.
#[export] Instance MutationEventType_eq_dec : EqDecision MutationEventType.
Proof. solve_decision. Defined.
#[export] Instance WatchFilter_eq_dec : EqDecision WatchFilter.
Proof. solve_decision. Defined.
#[export] Instance LeaseOwnership_eq_dec : EqDecision LeaseOwnership.
Proof. solve_decision. Defined.
#[export] Instance LeaseRecord_eq_dec : EqDecision LeaseRecord.
Proof. solve_decision. Defined.
