(* ===== verification/Store.v ===== *)
(** * The in-memory metadata store

    Class [InMemoryMetadataStore] (src/in_memory_metadata_store.cpp): versioned
    key-values, If/Then/Else transactions, leases with fencing tokens, watches
    with bounded history, and the canonical snapshot.  Every public member
    function holds [mutex_] for its whole body, so each is one atomic step
    [M Store A] on the object's state; the state left behind by an exception is
    part of the result. *)

From S2P Require Import Prelude OrdMap Bytes StoreTypes.

(** ** State *)

Record EventBatch := mkBatch { eb_revision : Z; eb_events : list WatchEvent }.

Record WatchState := mkWatchState {
  ws_request : WatchRequest;
  ws_pending : list WatchResponse;
  ws_terminal : option WatchResponse }.

Record StagedWatchPublication := mkPublication {
  sp_history : list EventBatch;
  sp_watchers : gmap Z WatchState;
  sp_compact_revision : Z }.

Record StoredLease := mkStoredLease {
  sl_fencing_token : Z;
  sl_granted_ttl : Z;
  sl_expiry_tick : Z;
  sl_attached_keys : gset ByteSequence }.

Record Store := mkStore {
  values_ : gmap ByteSequence KeyValue;
  limits_ : StoreLimits;
  revision_ : Z;
  compact_revision_ : Z;
  history_ : list EventBatch;
  watchers_ : gmap Z WatchState;
  leases_ : gmap Z StoredLease;
  logical_tick_ : Z;
  next_lease_id_ : Z;
  next_fencing_token_ : Z }.

(** Assignments to groups of members. *)
Definition set_data (s : Store) (values : gmap ByteSequence KeyValue)
    (leases : gmap Z StoredLease) (revision : Z) : Store :=
  mkStore values (limits_ s) revision (compact_revision_ s) (history_ s) (watchers_ s)
    leases (logical_tick_ s) (next_lease_id_ s) (next_fencing_token_ s).
Definition set_leases (s : Store) (leases : gmap Z StoredLease) : Store :=
  set_data s (values_ s) leases (revision_ s).
Definition set_logical_tick (s : Store) (tick : Z) : Store :=
  mkStore (values_ s) (limits_ s) (revision_ s) (compact_revision_ s) (history_ s)
    (watchers_ s) (leases_ s) tick (next_lease_id_ s) (next_fencing_token_ s).
Definition set_counters (s : Store) (next_id next_token : Z) : Store :=
  mkStore (values_ s) (limits_ s) (revision_ s) (compact_revision_ s) (history_ s)
    (watchers_ s) (leases_ s) (logical_tick_ s) next_id next_token.
Definition set_watchers (s : Store) (watchers : gmap Z WatchState) : Store :=
  mkStore (values_ s) (limits_ s) (revision_ s) (compact_revision_ s) (history_ s)
    watchers (leases_ s) (logical_tick_ s) (next_lease_id_ s) (next_fencing_token_ s).

(** ** Helpers *)

Definition is_empty (b : ByteSequence) : bool := match b with [] => true | _ => false end.

Definition validate_range (range : KeyRange) : outcome unit :=
  throw_when (is_empty (range_start range) || is_empty (range_end range))
    (invalid_argument "range bounds must not be empty");;
  throw_when (bytes_leb (range_end range) (range_start range))
    (invalid_argument "range start must be less than range end").

Definition contains_key (range : KeyRange) (key : ByteSequence) : bool :=
  bytes_leb (range_start range) key && bytes_ltb key (range_end range).

Definition ranges_overlap (left right : KeyRange) : bool :=
  bytes_ltb (range_start left) (range_end right)
  && bytes_ltb (range_start right) (range_end left).

Definition maximum_lease_id : Z := i64_max - 1.

Definition comparison_matches {V} (cmp : V → V → comparison)
    (actual expected : V) (result : CompareResult) : bool :=
  match result, cmp actual expected with
  | cr_equal, Eq => true
  | cr_equal, _ => false
  | cr_not_equal, Eq => false
  | cr_not_equal, _ => true
  | cr_greater, Gt => true
  | cr_greater, _ => false
  | cr_less, Lt => true
  | cr_less, _ => false
  end.

Definition validate_key (key : ByteSequence) : outcome unit :=
  throw_when (is_empty key) (invalid_argument "key must not be empty").

Definition validate_tick_locked (s : Store) (tick : Z) : outcome unit :=
  throw_when (tick <? logical_tick_ s) (invalid_argument "lease tick must not move backwards").

Definition next_revision_locked (s : Store) : outcome Z :=
  throw_when (revision_ s =? i64_max) (overflow_error "store revision exhausted");;
  mret (revision_ s + 1).

(** [std::set::erase] in the lease's attachment set must remove one key. *)
Definition detach_key (leases : gmap Z StoredLease) (value : KeyValue)
    : outcome (gmap Z StoredLease) :=
  if kv_lease_id value =? 0 then mret leases
  else match leases !! kv_lease_id value with
    | Some lease =>
        if bool_decide (kv_key value ∈ sl_attached_keys lease) then
          mret (<[kv_lease_id value :=
            mkStoredLease (sl_fencing_token lease) (sl_granted_ttl lease)
              (sl_expiry_tick lease) (sl_attached_keys lease ∖ {[kv_key value]})]> leases)
        else Throw (logic_error "lease attachment index is inconsistent")
    | None => Throw (logic_error "lease attachment index is inconsistent")
    end.

Definition attach_key (leases : gmap Z StoredLease) (id : Z) (key : ByteSequence)
    : outcome (gmap Z StoredLease) :=
  match leases !! id with
  | None => Throw (logic_error "verified lease is missing")
  | Some lease =>
      if bool_decide (key ∈ sl_attached_keys lease)
      then Throw (logic_error "key is already attached to lease")
      else mret (<[id := mkStoredLease (sl_fencing_token lease) (sl_granted_ttl lease)
                    (sl_expiry_tick lease) ({[key]} ∪ sl_attached_keys lease)]> leases)
  end.

Definition lease_record_locked (id : Z) (lease : StoredLease) : LeaseRecord :=
  mkLeaseRecord id (sl_fencing_token lease) (sl_granted_ttl lease)
    (sl_expiry_tick lease) (set_entries (sl_attached_keys lease)).

(** ** Watch publication *)

(** The event always carries a current or a previous value; with neither, the
    source would dereference an empty optional. *)
Definition event_key (event : WatchEvent) : ByteSequence :=
  match mu_current (we_mutation event), mu_previous (we_mutation event) with
  | Some value, _ => kv_key value
  | None, Some value => kv_key value
  | None, None => []
  end.

Definition watch_matches (request : WatchRequest) (event : WatchEvent) : bool :=
  if bool_decide (wq_filter request = exclude_put)
     && bool_decide (mu_type (we_mutation event) = me_put) then false
  else if bool_decide (wq_filter request = exclude_erase)
     && bool_decide (mu_type (we_mutation event) = me_erase) then false
  else
    let key := event_key event in
    if is_empty (range_end (wq_range request))
    then bool_decide (key = range_start (wq_range request))
    else bytes_leb (range_start (wq_range request)) key
         && bytes_ltb key (range_end (wq_range request)).

Definition matching_events (request : WatchRequest) (events : list WatchEvent)
    : list WatchEvent :=
  filter (λ e, watch_matches request e = true) events.

Definition is_nil {A} (l : list A) : bool := match l with [] => true | _ => false end.

(** The body of the loop over [publication.watchers]. *)
Definition stage_watcher (limits : StoreLimits) (events : list WatchEvent)
    (mutation_revision id : Z) (state : WatchState) : WatchState :=
  match ws_terminal state with
  | Some _ => state
  | None =>
      let matching := matching_events (ws_request state) events in
      if is_nil matching && negb (wq_progress_notifications (ws_request state)) then state
      else if max_watch_pending_responses limits <=? Z.of_nat (length (ws_pending state)) then
        mkWatchState (ws_request state) []
          (Some (mkWatchResponse (header_at mutation_revision) id [] 0 sc_quota_exceeded true))
      else
        mkWatchState (ws_request state)
          (ws_pending state ++ [watch_response_at mutation_revision id matching])
          (ws_terminal state)
  end.

(** The final [while] loop: drop the oldest batches beyond the limit. *)
Fixpoint trim_history (limit : Z) (history : list EventBatch) (compact : Z)
    : list EventBatch * Z :=
  match history with
  | [] => ([], compact)
  | front :: rest =>
      if limit <? Z.of_nat (length history)
      then trim_history limit rest (eb_revision front)
      else (history, compact)
  end.

Definition stage_watch_publication_locked (s : Store) (events : list WatchEvent)
    (mutation_revision : Z) : StagedWatchPublication :=
  let history := history_ s ++ [mkBatch mutation_revision events] in
  let watchers :=
    map_imap (λ id state, Some (stage_watcher (limits_ s) events mutation_revision id state))
      (watchers_ s) in
  let '(history, compact) :=
    trim_history (max_watch_history_revisions (limits_ s)) history (compact_revision_ s) in
  mkPublication history watchers compact.

Definition commit_watch_publication_locked (publication : StagedWatchPublication)
    (s : Store) : Store :=
  mkStore (values_ s) (limits_ s) (revision_ s) (sp_compact_revision publication)
    (sp_history publication) (sp_watchers publication) (leases_ s) (logical_tick_ s)
    (next_lease_id_ s) (next_fencing_token_ s).

(** The commit sequence shared by the mutators:
    [values_.swap; leases_.swap; revision_ = r; commit_watch_publication_locked]. *)
Definition commit_mutation (s : Store) (values : gmap ByteSequence KeyValue)
    (leases : gmap Z StoredLease) (revision : Z) (events : list WatchEvent) : Store :=
  let publication := stage_watch_publication_locked s events revision in
  commit_watch_publication_locked publication (set_data s values leases revision).

Definition put_event (revision : Z) (current : KeyValue) (previous : option KeyValue)
    : WatchEvent :=
  mkWatchEvent revision (mkMutation me_put (Some current) previous).
Definition erase_event (revision : Z) (previous : KeyValue) : WatchEvent :=
  mkWatchEvent revision (mkMutation me_erase None (Some previous)).

(** ** Point operations *)

Definition get (key : ByteSequence) : M Store StoreRead :=
  lift (validate_key key);;
  s ← get_state;
  mret (mkStoreRead (values_ s !! key) (revision_ s)).

Definition range (start_inclusive end_exclusive : ByteSequence) : M Store RangeRead :=
  lift (validate_key start_inclusive);;
  lift (validate_key end_exclusive);;
  lift (throw_when (bytes_leb end_exclusive start_inclusive)
    (invalid_argument "range start must be less than range end"));;
  s ← get_state;
  mret (mkRangeRead (scan (values_ s) start_inclusive end_exclusive).*2 (revision_ s)).

Definition put_locked (key value : ByteSequence) : M Store PutResult :=
  s ← get_state;
  let previous := values_ s !! key in
  mutation_revision ← lift (next_revision_locked s);
  lift (throw_when
    match previous with Some p => kv_version p =? i64_max | None => false end
    (overflow_error "key version exhausted"));;
  let current :=
    mkKV key value
      (match previous with Some p => kv_version p + 1 | None => 1 end)
      (match previous with Some p => kv_create_revision p | None => mutation_revision end)
      mutation_revision 0 in
  working_leases ← lift
    match previous with Some p => detach_key (leases_ s) p | None => mret (leases_ s) end;
  put_state (commit_mutation s (<[key := current]> (values_ s)) working_leases
    mutation_revision [put_event mutation_revision current previous]);;
  mret (mkPutResult current previous mutation_revision).

Definition put (key value : ByteSequence) : M Store PutResult :=
  lift (validate_key key);;
  put_locked key value.

Definition erase (key : ByteSequence) : M Store DeleteResult :=
  lift (validate_key key);;
  s ← get_state;
  match values_ s !! key with
  | None => mret (mkDeleteResult false None (revision_ s))
  | Some previous =>
      mutation_revision ← lift (next_revision_locked s);
      working_leases ← lift (detach_key (leases_ s) previous);
      put_state (commit_mutation s (delete key (values_ s)) working_leases
        mutation_revision [erase_event mutation_revision previous]);;
      mret (mkDeleteResult true (Some previous) mutation_revision)
  end.

Definition compare_and_set (key : ByteSequence) (expected_mod_revision : Z)
    (new_value : ByteSequence) : M Store CompareAndSetResult :=
  lift (validate_key key);;
  lift (throw_when (expected_mod_revision <? 0)
    (invalid_argument "expected modification revision must not be negative"));;
  s ← get_state;
  let current := values_ s !! key in
  let matches :=
    match current with
    | None => expected_mod_revision =? 0
    | Some v => kv_mod_revision v =? expected_mod_revision
    end in
  if negb matches then mret (mkCasResult false current (revision_ s))
  else
    result ← put_locked key new_value;
    mret (mkCasResult true (Some (pr_current result)) (pr_revision result)).

(** ** Transactions *)

(** One iteration of the comparison loop; every comparison is evaluated and
    validated, also after an earlier one has failed. *)
Definition evaluate_comparison (values : gmap ByteSequence KeyValue)
    (comparisons_succeeded : bool) (comparison : Compare) : outcome bool :=
  validate_key (cmp_key comparison);;
  let value := values !! cmp_key comparison in
  let numeric (field : KeyValue → Z) : outcome bool :=
    match cmp_expected comparison with
    | operand_int expected =>
        let actual := match value with Some v => field v | None => 0 end in
        mret (comparisons_succeeded
              && comparison_matches Z.compare actual expected (cmp_result comparison))
    | operand_bytes _ =>
        Throw (invalid_argument "numeric comparison requires an int64 value")
    end in
  match cmp_target comparison with
  | ct_value =>
      match cmp_expected comparison with
      | operand_bytes expected =>
          let actual := match value with Some v => kv_value v | None => [] end in
          mret (comparisons_succeeded
                && comparison_matches bytes_compare actual expected (cmp_result comparison))
      | operand_int _ => Throw (invalid_argument "value comparison requires a byte sequence")
      end
  | ct_version => numeric kv_version
  | ct_create_revision => numeric kv_create_revision
  | ct_mod_revision => numeric kv_mod_revision
  | ct_lease_id => numeric kv_lease_id
  end.

Definition ownership_matches (leases : gmap Z StoredLease) (tick : Z)
    (ownership : LeaseOwnership) : bool :=
  match leases !! lo_id ownership with
  | Some lease =>
      (tick <? sl_expiry_tick lease) && (sl_fencing_token lease =? lo_fencing_token ownership)
  | None => false
  end.

(** One iteration of the ownership loop; the accumulator is
    [(comparisons_succeeded, verified_ownership)]. *)
Definition evaluate_ownership (leases : gmap Z StoredLease) (tick : Z)
    (acc : bool * list LeaseOwnership) (ownership : LeaseOwnership)
    : outcome (bool * list LeaseOwnership) :=
  throw_when ((lo_id ownership <=? 0) || (lo_fencing_token ownership =? 0))
    (invalid_argument "invalid lease ownership comparison");;
  let matches := ownership_matches leases tick ownership in
  mret (acc.1 && matches, if matches then acc.2 ++ [ownership] else acc.2).

(** The locals of the validation loop. *)
Record TxnPlan := mkPlan {
  put_keys : list ByteSequence;
  delete_ranges : list KeyRange;
  has_effective_mutation : bool }.

Definition empty_plan : TxnPlan := mkPlan [] [] false.

Definition validate_operation (values : gmap ByteSequence KeyValue)
    (verified_ownership : list LeaseOwnership) (plan : TxnPlan)
    (operation : RequestOperation) : outcome TxnPlan :=
  match operation with
  | op_range r =>
      validate_range (rq_range r);;
      throw_when (negb (rq_revision r =? 0))
        (invalid_argument "historical range reads are not implemented");;
      mret plan
  | op_put p =>
      validate_key (pq_key p);;
      throw_when (pq_lease_id p <? 0) (invalid_argument "lease ID must not be negative");;
      throw_when (negb (pq_lease_id p =? 0)
                  && negb (existsb (λ o, lo_id o =? pq_lease_id p) verified_ownership))
        (invalid_argument "leased put requires verified ownership");;
      throw_when (bool_decide (pq_key p ∈ put_keys plan))
        (invalid_argument "transaction writes one key more than once");;
      throw_when (existsb (λ r, contains_key r (pq_key p)) (delete_ranges plan))
        (invalid_argument "transaction put overlaps a delete");;
      throw_when (match values !! pq_key p with
                  | Some existing => kv_version existing =? i64_max
                  | None => false end)
        (overflow_error "key version exhausted");;
      mret (mkPlan (put_keys plan ++ [pq_key p]) (delete_ranges plan) true)
  | op_delete d =>
      validate_range (dq_range d);;
      throw_when (existsb (λ r, ranges_overlap r (dq_range d)) (delete_ranges plan))
        (invalid_argument "transaction delete ranges overlap");;
      throw_when (existsb (λ k, contains_key (dq_range d) k) (put_keys plan))
        (invalid_argument "transaction delete overlaps a put");;
      let effective :=
        match lower_bound values (range_start (dq_range d)) with
        | first :: _ => has_effective_mutation plan
                        || bytes_ltb first.1 (range_end (dq_range d))
        | [] => has_effective_mutation plan
        end in
      mret (mkPlan (put_keys plan) (delete_ranges plan ++ [dq_range d]) effective)
  end.

(** The working copies the execution loop mutates. *)
Record Working := mkWorking {
  wk_values : gmap ByteSequence KeyValue;
  wk_leases : gmap Z StoredLease;
  wk_responses : list TransactionOperationResult;
  wk_events : list WatchEvent }.

Definition execute_range (transaction_revision : Z) (r : RangeRequest) (w : Working)
    : outcome Working :=
  let found := (scan (wk_values w) (range_start (rq_range r)) (range_end (rq_range r))).*2 in
  let found := if rq_limit r =? 0 then found else take (Z.to_nat (rq_limit r)) found in
  mret (mkWorking (wk_values w) (wk_leases w)
    (wk_responses w ++ [res_range (mkRangeRead found transaction_revision)]) (wk_events w)).

Definition execute_put (transaction_revision : Z) (p : PutRequest) (w : Working)
    : outcome Working :=
  let previous := wk_values w !! pq_key p in
  leases ← match previous with
           | Some v => detach_key (wk_leases w) v
           | None => mret (wk_leases w) end;
  let current :=
    mkKV (pq_key p) (pq_value p)
      (match previous with Some v => kv_version v + 1 | None => 1 end)
      (match previous with Some v => kv_create_revision v | None => transaction_revision end)
      transaction_revision (pq_lease_id p) in
  leases ← (if pq_lease_id p =? 0 then mret leases
            else attach_key leases (pq_lease_id p) (pq_key p));
  mret (mkWorking (<[pq_key p := current]> (wk_values w)) leases
    (wk_responses w ++ [res_put (mkPutResult current
       (if pq_return_previous p then previous else None) transaction_revision)])
    (wk_events w ++ [put_event transaction_revision current previous])).

(** One iteration of the erase loop of a delete. *)
Definition execute_erase (transaction_revision : Z) (w : Working)
    (entry : ByteSequence * KeyValue) : outcome Working :=
  leases ← detach_key (wk_leases w) entry.2;
  mret (mkWorking (delete entry.1 (wk_values w)) leases (wk_responses w)
    (wk_events w ++ [erase_event transaction_revision entry.2])).

Definition execute_delete (transaction_revision : Z) (d : DeleteRequest) (w : Working)
    : outcome Working :=
  let doomed := scan (wk_values w) (range_start (dq_range d)) (range_end (dq_range d)) in
  w' ← foldM (execute_erase transaction_revision) w doomed;
  mret (mkWorking (wk_values w') (wk_leases w')
    (wk_responses w' ++ [res_delete (mkDeleteRangeResult (Z.of_nat (length doomed))
       (if dq_return_previous d then doomed.*2 else []) transaction_revision)])
    (wk_events w')).

Definition execute_operation (transaction_revision : Z) (w : Working)
    (operation : RequestOperation) : outcome Working :=
  match operation with
  | op_range r => execute_range transaction_revision r w
  | op_put p => execute_put transaction_revision p w
  | op_delete d => execute_delete transaction_revision d w
  end.

Definition transaction (request : TransactionRequest) : M Store TransactionResult :=
  s ← get_state;
  comparisons_ok ← lift (foldM (evaluate_comparison (values_ s)) true (tx_comparisons request));
  lift (if is_nil (tx_lease_ownership request) then mret tt
        else validate_tick_locked s (tx_lease_tick request));;
  ownership ← lift (foldM (evaluate_ownership (leases_ s) (tx_lease_tick request))
    (comparisons_ok, []) (tx_lease_ownership request));
  let comparisons_succeeded : bool := ownership.1 in
  let verified_ownership : list LeaseOwnership := ownership.2 in
  let operations := if comparisons_succeeded then tx_success request else tx_failure request in
  plan ← lift (foldM (validate_operation (values_ s) verified_ownership) empty_plan operations);
  transaction_revision ← lift (if has_effective_mutation plan then next_revision_locked s
                               else mret (revision_ s));
  w ← lift (foldM (execute_operation transaction_revision)
    (mkWorking (values_ s) (leases_ s) [] []) operations);
  let s1 :=
    if has_effective_mutation plan
    then commit_mutation s (wk_values w) (wk_leases w) transaction_revision (wk_events w)
    else set_data s (wk_values w) (wk_leases w) transaction_revision in
  put_state (if is_nil (tx_lease_ownership request) then s1
             else set_logical_tick s1 (tx_lease_tick request));;
  mret (mkTxnResult (header_at transaction_revision) comparisons_succeeded (wk_responses w)).

(** ** Leases *)

Definition grant_lease (request : LeaseGrantRequest) : M Store LeaseGrantResult :=
  s ← get_state;
  lift (validate_tick_locked s (lg_tick request));;
  lift (throw_when (lg_ttl request =? 0) (invalid_argument "lease TTL must be positive"));;
  lift (throw_when (u64_max - lg_ttl request <? lg_tick request)
    (overflow_error "lease expiry tick exhausted"));;
  lift (throw_when (next_fencing_token_ s =? u64_max)
    (overflow_error "fencing token exhausted"));;
  lift (throw_when (max_active_leases (limits_ s) <=? Z.of_nat (size (leases_ s)))
    (store_error sc_quota_exceeded "active lease limit reached" 0));;
  id ← lift
    (if lg_requested_id request =? 0 then
       throw_when (maximum_lease_id <? next_lease_id_ s) (overflow_error "lease ID exhausted");;
       mret (next_lease_id_ s)
     else
       throw_when ((lg_requested_id request <? 0)
                   || (maximum_lease_id <? lg_requested_id request))
         (invalid_argument "requested lease ID is outside safe range");;
       mret (lg_requested_id request));
  lift (throw_when (bool_decide (is_Some (leases_ s !! id)))
    (invalid_argument "requested lease ID is already live"));;
  let stored := mkStoredLease (next_fencing_token_ s) (lg_ttl request)
    (lg_tick request + lg_ttl request) ∅ in
  let s1 := set_leases s (<[id := stored]> (leases_ s)) in
  let s2 := set_counters s1
    (if next_lease_id_ s <=? id then id + 1 else next_lease_id_ s)
    (next_fencing_token_ s + 1) in
  put_state (set_logical_tick s2 (lg_tick request));;
  mret (mkGrantResult (lease_record_locked id stored) (revision_ s)).

Definition lookup_lease_locked (s : Store) (id tick : Z) : LeaseLookupResult :=
  match leases_ s !! id with
  | None => mkLookupResult lease_not_found None 0 (revision_ s)
  | Some lease =>
      let record := lease_record_locked id lease in
      if sl_expiry_tick lease <=? tick
      then mkLookupResult lease_expired (Some record) 0 (revision_ s)
      else mkLookupResult lease_ok (Some record) (sl_expiry_tick lease - tick) (revision_ s)
  end.

(** [keep_alive]: [lookup_lease_locked] answers [ok] only for a stored lease,
    whose reference the code then updates in place. *)
Definition keep_alive (request : LeaseKeepAliveRequest) : M Store LeaseLookupResult :=
  s ← get_state;
  lift (validate_tick_locked s (lk_tick request));;
  lift (throw_when ((lk_id request <=? 0) || (lk_fencing_token request =? 0))
    (invalid_argument "invalid keepalive ownership"));;
  let found := lookup_lease_locked s (lk_id request) (lk_tick request) in
  result ← match ll_code found, leases_ s !! lk_id request with
    | lease_ok, Some lease =>
        if negb (sl_fencing_token lease =? lk_fencing_token request) then
          mret (mkLookupResult lease_fencing_token_mismatch (ll_lease found)
            (ll_remaining_ttl found) (ll_revision found))
        else
          lift (throw_when (u64_max - sl_granted_ttl lease <? lk_tick request)
            (overflow_error "lease expiry tick exhausted"));;
          let renewed := mkStoredLease (sl_fencing_token lease) (sl_granted_ttl lease)
            (lk_tick request + sl_granted_ttl lease) (sl_attached_keys lease) in
          put_state (set_leases s (<[lk_id request := renewed]> (leases_ s)));;
          mret (mkLookupResult lease_ok
            (Some (lease_record_locked (lk_id request) renewed))
            (sl_granted_ttl lease) (ll_revision found))
    | _, _ => mret found
    end;
  s' ← get_state;
  put_state (set_logical_tick s' (lk_tick request));;
  mret result.

Definition time_to_live (request : LeaseTimeToLiveRequest) : M Store LeaseLookupResult :=
  s ← get_state;
  lift (validate_tick_locked s (lt_tick request));;
  lift (throw_when (lt_id request <=? 0) (invalid_argument "invalid lease ID"));;
  mret (lookup_lease_locked s (lt_id request) (lt_tick request)).

(** The inner loop of [remove_leases_locked]: the values attached to [id]. *)
Definition collect_attached (values : gmap ByteSequence KeyValue) (id : Z)
    (deleted : list KeyValue) (key : ByteSequence) : outcome (list KeyValue) :=
  match values !! key with
  | Some value =>
      if kv_lease_id value =? id then mret (deleted ++ [value])
      else Throw (logic_error "lease attachment index is inconsistent")
  | None => Throw (logic_error "lease attachment index is inconsistent")
  end.

Definition collect_lease (values : gmap ByteSequence KeyValue) (leases : gmap Z StoredLease)
    (deleted : list KeyValue) (id : Z) : outcome (list KeyValue) :=
  match leases !! id with
  | None => Throw (logic_error "lease cleanup references missing lease")
  | Some lease => foldM (collect_attached values id) deleted (set_entries (sl_attached_keys lease))
  end.

Definition kv_key_le (x y : KeyValue) : Prop := bytes_le (kv_key x) (kv_key y).

#[export] Instance kv_key_le_dec : RelDecision kv_key_le.
Proof. intros x y. unfold kv_key_le. apply _. Defined.

Definition remove_leases_locked (ids : list Z) (code : LeaseResultCode)
    : M Store LeaseCleanupResult :=
  s ← get_state;
  collected ← lift (foldM (collect_lease (values_ s) (leases_ s)) [] ids);
  let deleted := merge_sort kv_key_le collected in
  cleanup_revision ← lift (if is_nil ids then mret (revision_ s) else next_revision_locked s);
  let working_values := foldl (λ m v, delete (kv_key v) m) (values_ s) deleted in
  let working_leases := foldl (λ m id, delete id m) (leases_ s) ids in
  put_state
    (if is_nil ids then set_data s working_values working_leases cleanup_revision
     else commit_mutation s working_values working_leases cleanup_revision
            (erase_event cleanup_revision <$> deleted));;
  mret (mkCleanupResult code ids deleted cleanup_revision).

Definition revoke_lease (request : LeaseRevokeRequest) : M Store LeaseCleanupResult :=
  s ← get_state;
  lift (validate_tick_locked s (lv_tick request));;
  lift (throw_when ((lv_id request <=? 0) || (lv_fencing_token request =? 0))
    (invalid_argument "invalid revoke ownership"));;
  match leases_ s !! lv_id request with
  | None =>
      put_state (set_logical_tick s (lv_tick request));;
      mret (mkCleanupResult lease_not_found [] [] (revision_ s))
  | Some lease =>
      if negb (sl_fencing_token lease =? lv_fencing_token request) then
        put_state (set_logical_tick s (lv_tick request));;
        mret (mkCleanupResult lease_fencing_token_mismatch [] [] (revision_ s))
      else
        result ← remove_leases_locked [lv_id request] lease_ok;
        s' ← get_state;
        put_state (set_logical_tick s' (lv_tick request));;
        mret result
  end.

Definition expired_leases (leases : gmap Z StoredLease) (tick : Z) : list Z :=
  (filter (λ e : Z * StoredLease, sl_expiry_tick e.2 ≤ tick) (entries leases)).*1.

Definition expire_leases (tick : Z) : M Store LeaseCleanupResult :=
  s ← get_state;
  lift (validate_tick_locked s tick);;
  result ← remove_leases_locked (expired_leases (leases_ s) tick) lease_ok;
  s' ← get_state;
  put_state (set_logical_tick s' tick);;
  mret result.

(** ** Snapshot *)

Definition snapshot_of (s : Store) : InMemoryStoreSnapshot :=
  mkStoreSnapshot
    (entries (values_ s)).*2
    ((λ e, lease_record_locked e.1 e.2) <$> entries (leases_ s))
    (revision_ s) (logical_tick_ s) (next_lease_id_ s) (next_fencing_token_ s).

Definition snapshot : M Store InMemoryStoreSnapshot :=
  s ← get_state; mret (snapshot_of s).

(** [revision()] and [compact_revision()]. *)
Definition revision : M Store Z := s ← get_state; mret (revision_ s).
Definition compact_revision : M Store Z := s ← get_state; mret (compact_revision_ s).

(** ** Constructors *)

Definition empty_at (initial_revision : Z) (limits : StoreLimits) : Store :=
  mkStore ∅ limits initial_revision initial_revision [] ∅ ∅ 0 1 1.

Definition new_store (initial_revision : Z) (limits : StoreLimits) : outcome Store :=
  throw_when (initial_revision <? 0)
    (invalid_argument "initial revision must not be negative");;
  mret (empty_at initial_revision limits).

Definition insert_initial_value (initial_revision : Z)
    (values : gmap ByteSequence KeyValue) (value : KeyValue)
    : outcome (gmap ByteSequence KeyValue) :=
  validate_key (kv_key value);;
  throw_when ((kv_version value <=? 0) || (kv_create_revision value <=? 0)
              || (kv_mod_revision value <? kv_create_revision value)
              || (initial_revision <? kv_mod_revision value)
              || negb (kv_lease_id value =? 0))
    (invalid_argument "invalid initial key metadata");;
  throw_when (bool_decide (is_Some (values !! kv_key value)))
    (invalid_argument "duplicate initial key");;
  mret (<[kv_key value := value]> values).

Definition new_store_with_values (initial_values : list KeyValue) (initial_revision : Z)
    (limits : StoreLimits) : outcome Store :=
  throw_when (initial_revision <? 0)
    (invalid_argument "initial revision must not be negative");;
  values ← foldM (insert_initial_value initial_revision) ∅ initial_values;
  mret (set_data (empty_at initial_revision limits) values ∅ initial_revision).

Definition insert_snapshot_attachment (attached : gset ByteSequence) (key : ByteSequence)
    : outcome (gset ByteSequence) :=
  validate_key key;;
  throw_when (bool_decide (key ∈ attached))
    (invalid_argument "duplicate snapshot lease attachment");;
  mret ({[key]} ∪ attached).

Definition insert_snapshot_lease (leases : gmap Z StoredLease) (lease : LeaseRecord)
    : outcome (gmap Z StoredLease) :=
  throw_when ((lr_id lease <=? 0) || (maximum_lease_id <? lr_id lease)
              || (lr_fencing_token lease =? 0) || (lr_granted_ttl lease =? 0))
    (invalid_argument "invalid snapshot lease");;
  attached ← foldM insert_snapshot_attachment ∅ (lr_attached_keys lease);
  throw_when (bool_decide (is_Some (leases !! lr_id lease)))
    (invalid_argument "duplicate snapshot lease");;
  mret (<[lr_id lease := mkStoredLease (lr_fencing_token lease) (lr_granted_ttl lease)
            (lr_expiry_tick lease) attached]> leases).

Definition insert_snapshot_value (revision : Z) (leases : gmap Z StoredLease)
    (values : gmap ByteSequence KeyValue) (value : KeyValue)
    : outcome (gmap ByteSequence KeyValue) :=
  validate_key (kv_key value);;
  throw_when ((kv_version value <=? 0) || (kv_create_revision value <=? 0)
              || (kv_mod_revision value <? kv_create_revision value)
              || (revision <? kv_mod_revision value) || (kv_lease_id value <? 0))
    (invalid_argument "invalid snapshot key metadata");;
  throw_when (bool_decide (is_Some (values !! kv_key value)))
    (invalid_argument "duplicate snapshot key");;
  throw_when (negb (kv_lease_id value =? 0)
    && match leases !! kv_lease_id value with
       | Some lease => bool_decide (kv_key value ∉ sl_attached_keys lease)
       | None => true
       end)
    (invalid_argument "snapshot key attachment is inconsistent");;
  mret (<[kv_key value := value]> values).

Definition check_snapshot_lease (values : gmap ByteSequence KeyValue)
    (next_lease_id next_fencing_token : Z) (_ : unit) (entry : Z * StoredLease)
    : outcome unit :=
  throw_when ((next_lease_id <=? entry.1)
              || (next_fencing_token <=? sl_fencing_token entry.2))
    (invalid_argument "snapshot allocation counters are not ahead of leases");;
  foldM (λ _ key,
    throw_when match values !! key with
               | Some value => negb (kv_lease_id value =? entry.1)
               | None => true end
      (invalid_argument "snapshot lease attachment is inconsistent"))
    tt (set_entries (sl_attached_keys entry.2)).

Definition new_store_from_snapshot (snap : InMemoryStoreSnapshot) (limits : StoreLimits)
    : outcome Store :=
  throw_when ((ss_revision snap <? 0) || (ss_next_lease_id snap <=? 0)
              || (ss_next_fencing_token snap =? 0))
    (invalid_argument "invalid snapshot counters");;
  throw_when (max_active_leases limits <? Z.of_nat (length (ss_leases snap)))
    (store_error sc_quota_exceeded "lease snapshot exceeds active lease limit" 0);;
  leases ← foldM insert_snapshot_lease ∅ (ss_leases snap);
  values ← foldM (insert_snapshot_value (ss_revision snap) leases) ∅ (ss_values snap);
  foldM (check_snapshot_lease values (ss_next_lease_id snap) (ss_next_fencing_token snap))
    tt (entries leases);;
  mret (mkStore values limits (ss_revision snap) (ss_revision snap) [] ∅ leases
    (ss_logical_tick snap) (ss_next_lease_id snap) (ss_next_fencing_token snap)).

(** ** Watches *)

(** One iteration of the replay loop of [create_watch]. *)
Definition replay_batch (limits : StoreLimits) (request : WatchRequest)
    (pending : list WatchResponse) (batch : EventBatch) : outcome (list WatchResponse) :=
  if eb_revision batch <? wq_start_revision request then mret pending
  else
    let matching := matching_events request (eb_events batch) in
    if is_nil matching && negb (wq_progress_notifications request) then mret pending
    else
      throw_when (max_watch_pending_responses limits <=? Z.of_nat (length pending))
        (store_error sc_quota_exceeded "watch replay exceeds pending response limit" 0);;
      mret (pending ++ [watch_response_at (eb_revision batch) (wq_id request) matching]).

Definition with_start_revision (request : WatchRequest) (r : Z) : WatchRequest :=
  mkWatchRequest (wq_id request) (wq_range request) r (wq_filter request)
    (wq_progress_notifications request).

Definition create_watch (request : WatchRequest) : M Store WatchResponse :=
  s ← get_state;
  lift (throw_when (wq_id request <=? 0)
    (store_error sc_invalid_argument "watch ID must be positive" 0));;
  lift (throw_when (is_empty (range_start (wq_range request)))
    (store_error sc_invalid_argument "watch key must not be empty" 0));;
  lift (throw_when (negb (is_empty (range_end (wq_range request)))
                    && bytes_leb (range_end (wq_range request)) (range_start (wq_range request)))
    (store_error sc_invalid_argument "watch range start must be less than range end" 0));;
  lift (throw_when (wq_start_revision request <? 0)
    (store_error sc_invalid_argument "watch start revision must not be negative" 0));;
  lift (throw_when (bool_decide (is_Some (watchers_ s !! wq_id request)))
    (store_error sc_invalid_argument "watch ID is already active" 0));;
  lift (throw_when (max_watchers (limits_ s) <=? Z.of_nat (size (watchers_ s)))
    (store_error sc_quota_exceeded "active watcher limit reached" 0));;
  start_revision ← lift
    (if wq_start_revision request =? 0 then
       throw_when (revision_ s =? i64_max)
         (store_error sc_future_revision "no revision exists after the current revision" 0);;
       mret (revision_ s + 1)
     else mret (wq_start_revision request));
  lift (throw_when (start_revision <=? compact_revision_ s)
    (store_error sc_compacted "watch start revision has been compacted" (compact_revision_ s)));;
  lift (throw_when ((revision_ s <? start_revision)
                    && ((revision_ s =? i64_max) || negb (start_revision =? revision_ s + 1)))
    (store_error sc_future_revision "watch start revision is in the future" 0));;
  let state_request := with_start_revision request start_revision in
  pending ← lift (foldM (replay_batch (limits_ s) state_request) [] (history_ s));
  put_state (set_watchers s
    (<[wq_id request := mkWatchState state_request pending None]> (watchers_ s)));;
  mret (watch_response_at (revision_ s) (wq_id request) []).

Definition unknown_watch : exn := store_error sc_invalid_argument "unknown watch ID" 0.

Definition poll_watch (id : Z) : M Store (option WatchResponse) :=
  s ← get_state;
  match watchers_ s !! id with
  | None => lift (Throw unknown_watch)
  | Some state =>
      match ws_terminal state, ws_pending state with
      | Some response, _ =>
          put_state (set_watchers s (delete id (watchers_ s)));;
          mret (Some response)
      | None, [] => mret None
      | None, response :: rest =>
          put_state (set_watchers s
            (<[id := mkWatchState (ws_request state) rest None]> (watchers_ s)));;
          mret (Some response)
      end
  end.

Definition request_watch_progress (id : Z) : M Store unit :=
  s ← get_state;
  match watchers_ s !! id with
  | None => lift (Throw unknown_watch)
  | Some state =>
      match ws_terminal state with
      | Some _ => mret tt
      | None =>
          if max_watch_pending_responses (limits_ s) <=? Z.of_nat (length (ws_pending state)) then
            put_state (set_watchers s (<[id := mkWatchState (ws_request state) []
              (Some (mkWatchResponse (header_at (revision_ s)) id [] 0 sc_quota_exceeded true))]>
              (watchers_ s)))
          else
            put_state (set_watchers s (<[id := mkWatchState (ws_request state)
              (ws_pending state ++ [watch_response_at (revision_ s) id []]) None]>
              (watchers_ s)))
      end
  end.

Definition cancel_watch (id : Z) : M Store WatchResponse :=
  s ← get_state;
  match watchers_ s !! id with
  | None => lift (Throw unknown_watch)
  | Some _ =>
      put_state (set_watchers s (delete id (watchers_ s)));;
      mret (mkWatchResponse (header_at (revision_ s)) id [] 0 sc_ok true)
  end.
