(* ===== verification/StoreInv.v ===== *)
(** * Invariant of the metadata store

    The well-formedness invariant [store_inv] of [InMemoryMetadataStore]: key
    metadata within bounds, the lease attachment index consistent in both
    directions, allocation counters ahead of every lease, and the retained
    history exactly the batches of the revisions after the compaction
    revision.  The lemmas of this file say how the private helpers
    ([detach_key], [attach_key], [stage_watch_publication_locked],
    [remove_leases_locked]) act on it; the public operations follow in
    [StoreOps]. *)

From S2P Require Import Prelude OrdMap Bytes StoreTypes Store.

(** ** Definitions *)

(** One stored key-value at store revision [rev]. *)
Record value_ok (rev : Z) (k : ByteSequence) (v : KeyValue) : Prop := {
  vo_nonempty : k ≠ [];
  vo_key : kv_key v = k;
  vo_version : 1 ≤ kv_version v ≤ i64_max;
  vo_create : 1 ≤ kv_create_revision v;
  vo_mod : kv_create_revision v ≤ kv_mod_revision v ≤ rev;
  vo_lease : 0 ≤ kv_lease_id v }.

(** Keys and leases point at each other. *)
Record index_ok (values : gmap ByteSequence KeyValue) (leases : gmap Z StoredLease) : Prop := {
  ix_value : ∀ k v, values !! k = Some v → kv_lease_id v ≠ 0 →
    ∃ l, leases !! kv_lease_id v = Some l ∧ k ∈ sl_attached_keys l;
  ix_lease : ∀ id l k, leases !! id = Some l → k ∈ sl_attached_keys l →
    ∃ v, values !! k = Some v ∧ kv_lease_id v = id }.

(** Keys, leases and their index, at store revision [rev]. *)
Record data_ok (rev : Z) (values : gmap ByteSequence KeyValue)
    (leases : gmap Z StoredLease) : Prop := {
  do_values : map_Forall (value_ok rev) values;
  do_index : index_ok values leases;
  do_zero : leases !! 0 = None }.

(** The part of a lease that attaching and detaching keys does not change. *)
Definition lease_meta (l : StoredLease) : Z * Z * Z :=
  (sl_fencing_token l, sl_granted_ttl l, sl_expiry_tick l).

Definition same_meta (l1 l2 : gmap Z StoredLease) : Prop :=
  lease_meta <$> l1 = lease_meta <$> l2.

Record lease_wf (next_id next_token : Z) (id : Z) (l : StoredLease) : Prop := {
  lo_pos : 1 ≤ id ≤ maximum_lease_id;
  lo_next : id < next_id;
  lo_token : 1 ≤ sl_fencing_token l < next_token;
  lo_ttl : 1 ≤ sl_granted_ttl l;
  lo_expiry : 0 ≤ sl_expiry_tick l ≤ u64_max }.

(** An event of the batch of revision [rev]. *)
Definition event_ok (rev : Z) (e : WatchEvent) : Prop :=
  we_revision e = rev ∧
  match mu_type (we_mutation e), mu_current (we_mutation e), mu_previous (we_mutation e) with
  | me_put, Some v, _ => kv_mod_revision v = rev
  | me_erase, None, Some _ => True
  | _, _, _ => False
  end.

Record history_ok (limit compact rev : Z) (history : list EventBatch) : Prop := {
  ho_revisions : eb_revision <$> history = seqZ (compact + 1) (rev - compact);
  ho_events : Forall (λ b, Forall (event_ok (eb_revision b)) (eb_events b)) history;
  ho_length : Z.of_nat (length history) ≤ limit }.

(** Responses of one watch: revisions never decrease, and a response with
    events comes strictly after everything before it. *)
Definition response_lt (a b : WatchResponse) : Prop :=
  hd_revision (wr_header a) ≤ hd_revision (wr_header b) ∧
  (wr_events b ≠ [] → hd_revision (wr_header a) < hd_revision (wr_header b)).

Record watcher_ok (limit rev id : Z) (w : WatchState) : Prop := {
  wo_id : wq_id (ws_request w) = id;
  wo_pos : 1 ≤ id;
  wo_start : 0 ≤ wq_start_revision (ws_request w) ≤ rev + 1;
  wo_length : Z.of_nat (length (ws_pending w)) ≤ limit;
  wo_sorted : StronglySorted response_lt (ws_pending w);
  wo_bound : Forall (λ r, hd_revision (wr_header r) ≤ rev) (ws_pending w);
  wo_terminal : ws_terminal w ≠ None → ws_pending w = [] }.

Record limits_ok (limits : StoreLimits) : Prop := {
  li_watchers : 0 ≤ max_watchers limits;
  li_history : 0 ≤ max_watch_history_revisions limits;
  li_pending : 0 ≤ max_watch_pending_responses limits;
  li_leases : 0 ≤ max_active_leases limits }.

Record store_inv (s : Store) : Prop := {
  inv_limits : limits_ok (limits_ s);
  inv_revision : 0 ≤ compact_revision_ s ≤ revision_ s ∧ revision_ s ≤ i64_max;
  inv_data : data_ok (revision_ s) (values_ s) (leases_ s);
  inv_leases : map_Forall (lease_wf (next_lease_id_ s) (next_fencing_token_ s)) (leases_ s);
  inv_lease_count : Z.of_nat (size (leases_ s)) ≤ max_active_leases (limits_ s);
  inv_counters : 1 ≤ next_lease_id_ s ≤ i64_max ∧ 1 ≤ next_fencing_token_ s ≤ u64_max;
  inv_tick : 0 ≤ logical_tick_ s ≤ u64_max;
  inv_history : history_ok (max_watch_history_revisions (limits_ s))
    (compact_revision_ s) (revision_ s) (history_ s);
  inv_watchers : map_Forall (watcher_ok (max_watch_pending_responses (limits_ s)) (revision_ s))
    (watchers_ s);
  inv_watcher_count : Z.of_nat (size (watchers_ s)) ≤ max_watchers (limits_ s) }.

(** ** Key-values and the lease index *)

Lemma value_ok_mono rev rev' k v : rev ≤ rev' → value_ok rev k v → value_ok rev' k v.
Proof. intros ? []. constructor; lia || done. Qed.

Lemma data_ok_mono rev rev' values leases :
  rev ≤ rev' → data_ok rev values leases → data_ok rev' values leases.
Proof.
  intros ? []. constructor; [|done..].
  eapply map_Forall_impl; [done|]. intros. by eapply value_ok_mono.
Qed.

#[export] Instance same_meta_equiv : Equivalence same_meta.
Proof. unfold same_meta. split; red; congruence. Qed.

Lemma same_meta_lookup l1 l2 id :
  same_meta l1 l2 → lease_meta <$> l1 !! id = lease_meta <$> l2 !! id.
Proof. unfold same_meta. intros Heq. by rewrite <-!lookup_fmap, Heq. Qed.

Lemma same_meta_size l1 l2 : same_meta l1 l2 → size l1 = size l2.
Proof.
  intros Heq. rewrite <-(map_size_fmap lease_meta l1), <-(map_size_fmap lease_meta l2).
  by rewrite Heq.
Qed.

Lemma same_meta_insert leases id l l' :
  leases !! id = Some l → lease_meta l = lease_meta l' →
  same_meta leases (<[id := l']> leases).
Proof.
  intros Hl Hm. unfold same_meta. rewrite fmap_insert, <-Hm.
  symmetry. apply insert_id. by rewrite lookup_fmap, Hl.
Qed.

Lemma same_meta_lease_wf nid ntok l1 l2 :
  same_meta l1 l2 → map_Forall (lease_wf nid ntok) l1 → map_Forall (lease_wf nid ntok) l2.
Proof.
  intros Hm Hok id l Hl. pose proof (same_meta_lookup _ _ id Hm) as Hlk.
  rewrite Hl in Hlk. destruct (l1 !! id) as [l0|] eqn:Hl0; [|done].
  simpl in Hlk. injection Hlk as Ht Hg He. specialize (Hok _ _ Hl0). destruct Hok.
  constructor; lia || congruence.
Qed.

Lemma data_ok_lease_id rev values leases id l k :
  data_ok rev values leases → leases !! id = Some l → k ∈ sl_attached_keys l →
  ∃ v, values !! k = Some v ∧ kv_lease_id v = id.
Proof. intros Hd. apply (ix_lease _ _ (do_index _ _ _ Hd)). Qed.

(** Removing a key together with its attachment keeps the index consistent,
    and [detach_key] does not throw. *)
Lemma detach_key_ok rev values leases k v :
  data_ok rev values leases → values !! k = Some v →
  owp (detach_key leases v)
    (λ leases', data_ok rev (delete k values) leases' ∧ same_meta leases leases')
    (λ _, False).
Proof.
  intros [Hv [Hiv Hil] Hz] Hk. unfold detach_key.
  assert (kv_key v = k) as Hkey by apply (vo_key _ _ _ (Hv _ _ Hk)).
  assert (map_Forall (value_ok rev) (delete k values)) as Hv'.
  { apply map_Forall_lookup. intros k' v' [_ Hk']%lookup_delete_Some. by apply Hv. }
  destruct (Z.eqb_spec (kv_lease_id v) 0) as [H0|H0]; simpl.
  - split; [|done]. split; [done| |done]. split.
    + intros k' v' [_ Hk']%lookup_delete_Some. by apply Hiv.
    + intros id l k' Hl Hin. destruct (Hil _ _ _ Hl Hin) as (v' & Hk' & <-).
      exists v'. split; [|done]. apply lookup_delete_Some. split; [|done].
      intros <-. rewrite Hk in Hk'. simplify_eq. congruence.
  - destruct (Hiv _ _ Hk H0) as (l & Hl & Hin). rewrite Hl, Hkey.
    rewrite bool_decide_true by done. simpl.
    split; [|by eapply same_meta_insert]. split; [done| |].
    2:{ rewrite lookup_insert_ne; done. }
    split.
    + intros k' v' [Hne Hk']%lookup_delete_Some H0'.
      destruct (Hiv _ _ Hk' H0') as (l' & Hl' & Hin').
      destruct (decide (kv_lease_id v = kv_lease_id v')) as [Heq|Hneq].
      * rewrite <-Heq, lookup_insert_eq. eexists. split; [done|]. simpl.
        rewrite <-Heq in Hl'. set_solver.
      * rewrite lookup_insert_ne by done. eauto.
    + intros id l' k' [[<- <-]|[Hne Hl']]%lookup_insert_Some Hin'; simpl in *.
      * destruct (Hil _ _ k' Hl) as (v' & Hk' & Heq); [set_solver|].
        exists v'. split; [|done]. apply lookup_delete_Some. split; [set_solver|done].
      * destruct (Hil _ _ k' Hl' Hin') as (v' & Hk' & Heq).
        exists v'. split; [|done]. apply lookup_delete_Some. split; [|done].
        intros <-. rewrite Hk in Hk'. simplify_eq.
Qed.

Lemma insert_unleased_ok rev values leases k v :
  data_ok rev values leases → values !! k = None → value_ok rev k v → kv_lease_id v = 0 →
  data_ok rev (<[k := v]> values) leases.
Proof.
  intros [Hv [Hiv Hil] Hz] Hk Hok H0. split; [by apply map_Forall_insert_2| |done]. split.
  - intros k' v' [[<- <-]|[Hne Hk']]%lookup_insert_Some; [done|]. by apply Hiv.
  - intros id l k' Hl Hin. destruct (Hil _ _ _ Hl Hin) as (v' & Hk' & Heq).
    exists v'. split; [|done]. rewrite lookup_insert_ne; [done|]. by intros ->; simplify_eq.
Qed.

Lemma attach_key_ok rev values leases k v l :
  data_ok rev values leases → values !! k = None → value_ok rev k v →
  leases !! kv_lease_id v = Some l →
  owp (attach_key leases (kv_lease_id v) k)
    (λ leases', data_ok rev (<[k := v]> values) leases' ∧ same_meta leases leases')
    (λ _, False).
Proof.
  intros [Hv [Hiv Hil] Hz] Hk Hok Hl. unfold attach_key. rewrite Hl.
  rewrite bool_decide_false.
  2:{ intros Hin. destruct (Hil _ _ _ Hl Hin) as (v' & Hk' & _). simplify_eq. }
  simpl. split; [|by eapply same_meta_insert].
  split; [by apply map_Forall_insert_2| |].
  2:{ rewrite lookup_insert_ne; [done|]. intros Heq. rewrite Heq in Hl. simplify_eq. }
  split.
  - intros k' v' [[<- <-]|[Hne Hk']]%lookup_insert_Some H0.
    + rewrite lookup_insert_eq. eexists. split; [done|]. simpl. set_solver.
    + destruct (Hiv _ _ Hk' H0) as (l' & Hl' & Hin').
      destruct (decide (kv_lease_id v = kv_lease_id v')) as [Heq|Hneq].
      * rewrite <-Heq in *. rewrite lookup_insert_eq. eexists. split; [done|].
        simpl. set_solver.
      * rewrite lookup_insert_ne by done. eauto.
  - intros id l' k' [[<- <-]|[Hne Hl']]%lookup_insert_Some Hin'; simpl in *.
    + destruct (decide (k = k')) as [<-|Hkk].
      * rewrite lookup_insert_eq. eauto.
      * rewrite lookup_insert_ne by done. apply (Hil _ _ _ Hl). set_solver.
    + destruct (Hil _ _ _ Hl' Hin') as (v' & Hk' & Heq). exists v'. split; [|done].
      rewrite lookup_insert_ne; [done|]. intros ->. simplify_eq.
Qed.

(** The detach step of a put, whether or not the key exists. *)
Lemma detach_previous_ok rev values leases k :
  data_ok rev values leases →
  owp match values !! k with
      | Some v => detach_key leases v
      | None => mret leases end
    (λ leases', data_ok rev (delete k values) leases' ∧ same_meta leases leases')
    (λ _, False).
Proof.
  intros Hd. destruct (values !! k) as [v|] eqn:Hk; [by apply detach_key_ok|].
  simpl. by rewrite delete_id.
Qed.

(** ** Publication *)

Lemma seqZ_succ_r m n : 0 ≤ n → seqZ m (n + 1) = seqZ m n ++ [m + n].
Proof. intros. by rewrite seqZ_app by lia. Qed.

(** Trimming keeps a suffix of the batches, moves the compaction revision to the
    last one dropped, and respects the limit. *)
Lemma trim_history_ok limit history compact rev :
  0 ≤ limit → compact ≤ rev →
  eb_revision <$> history = seqZ (compact + 1) (rev - compact) →
  let '(history', compact') := trim_history limit history compact in
  (∃ dropped, history = dropped ++ history') ∧
  compact ≤ compact' ≤ rev ∧
  eb_revision <$> history' = seqZ (compact' + 1) (rev - compact') ∧
  Z.of_nat (length history') ≤ limit.
Proof.
  intros Hlim. revert compact.
  induction history as [|b history IH]; intros compact Hle Hrev; cbn [trim_history].
  { split; [by exists []|]. split; [lia|]. split; [done|]. simpl. lia. }
  assert (Z.of_nat (length (b :: history)) = rev - compact) as Hlen.
  { rewrite <-(length_fmap eb_revision), Hrev, length_seqZ. lia. }
  simpl in Hlen, Hrev.
  rewrite seqZ_cons in Hrev by lia. injection Hrev as Hb Hrev.
  destruct (Z.ltb_spec limit (Z.of_nat (length (b :: history)))) as [Hlt|Hge].
  - rewrite Hb. specialize (IH (compact + 1)).
    replace (Z.succ (compact + 1)) with (compact + 1 + 1) in Hrev by lia.
    replace (Z.pred (rev - compact)) with (rev - (compact + 1)) in Hrev by lia.
    destruct (trim_history limit history (compact + 1)) as [h' c'].
    destruct IH as ([dr ->] & Hc & Hr & Hl); [lia|done|].
    split; [by exists (b :: dr)|]. split; [lia|]. done.
  - split; [by exists []|]. split; [lia|]. split; [|done].
    simpl. rewrite Hb, Hrev. symmetry. apply seqZ_cons. lia.
Qed.

Lemma matching_events_revision rev req events e :
  Forall (event_ok rev) events → e ∈ matching_events req events → we_revision e = rev.
Proof.
  intros Hok [_ He]%list_elem_of_filter. rewrite Forall_forall in Hok. by apply Hok.
Qed.

Lemma StronglySorted_snoc {A} (R : relation A) l x :
  StronglySorted R l → Forall (λ y, R y x) l → StronglySorted R (l ++ [x]).
Proof.
  intros Hs Hx. apply StronglySorted_app. split; [|split; [done|repeat constructor]].
  intros y z Hy ->%list_elem_of_singleton. rewrite Forall_forall in Hx. by apply Hx.
Qed.

Lemma stage_watcher_ok limits events rev id w :
  limits_ok limits →
  watcher_ok (max_watch_pending_responses limits) rev id w →
  watcher_ok (max_watch_pending_responses limits) (rev + 1) id
    (stage_watcher limits events (rev + 1) id w).
Proof.
  intros Hlim [Hid Hpos Hstart Hlen Hsort Hbound Hterm]. unfold stage_watcher.
  assert (Forall (λ r, hd_revision (wr_header r) ≤ rev + 1) (ws_pending w)).
  { eapply Forall_impl; [done|]. simpl. lia. }
  destruct (ws_terminal w) eqn:Ht; [constructor; rewrite ?Ht; done || lia|].
  destruct (_ && _); [constructor; rewrite ?Ht; done || lia|].
  destruct (Z.leb_spec (max_watch_pending_responses limits)
    (Z.of_nat (length (ws_pending w)))) as [Hfull|Hroom].
  - destruct Hlim. constructor; simpl; try done; try lia; constructor.
  - constructor; simpl; try done; try lia.
    + rewrite length_app. simpl. lia.
    + apply StronglySorted_snoc; [done|]. eapply Forall_impl; [exact Hbound|].
      unfold response_lt. simpl. lia.
    + apply Forall_app. split; [done|]. repeat constructor. simpl. lia.
Qed.

Lemma commit_mutation_fields s values leases rev events :
  let s' := commit_mutation s values leases rev events in
  values_ s' = values ∧ leases_ s' = leases ∧ revision_ s' = rev ∧
  limits_ s' = limits_ s ∧ logical_tick_ s' = logical_tick_ s ∧
  next_lease_id_ s' = next_lease_id_ s ∧ next_fencing_token_ s' = next_fencing_token_ s ∧
  watchers_ s' = map_imap (λ id w, Some (stage_watcher (limits_ s) events rev id w)) (watchers_ s) ∧
  (history_ s', compact_revision_ s') =
    trim_history (max_watch_history_revisions (limits_ s))
      (history_ s ++ [mkBatch rev events]) (compact_revision_ s).
Proof.
  unfold commit_mutation, stage_watch_publication_locked.
  by destruct (trim_history _ _ _).
Qed.

Lemma map_imap_size {A B} (f : Z → A → B) (m : gmap Z A) :
  size (map_imap (λ i x, Some (f i x)) m) = size m.
Proof.
  rewrite <-(size_dom (D := gset Z)), <-(size_dom (D := gset Z) m). f_equal.
  apply dom_imap_L. intros i. rewrite elem_of_dom. unfold is_Some. naive_solver.
Qed.

(** The history with the batch of the next revision. *)
Lemma history_snoc s events :
  store_inv s →
  eb_revision <$> (history_ s ++ [mkBatch (revision_ s + 1) events])
  = seqZ (compact_revision_ s + 1) (revision_ s + 1 - compact_revision_ s).
Proof.
  intros []. destruct inv_history0 as [Hhr _ _].
  replace (revision_ s + 1 - compact_revision_ s)
    with (revision_ s - compact_revision_ s + 1) by lia.
  rewrite seqZ_succ_r by lia. rewrite fmap_app, Hhr. simpl. do 2 f_equal. lia.
Qed.

(** A commit at the next revision preserves the invariant, given that the new
    data is well formed at that revision and the events belong to it. *)
Lemma commit_mutation_inv s values leases events :
  store_inv s →
  revision_ s < i64_max →
  data_ok (revision_ s + 1) values leases →
  map_Forall (lease_wf (next_lease_id_ s) (next_fencing_token_ s)) leases →
  (size leases ≤ size (leases_ s))%nat →
  Forall (event_ok (revision_ s + 1)) events →
  store_inv (commit_mutation s values leases (revision_ s + 1) events).
Proof.
  intros Hinv. pose proof Hinv as [Hlim Hrev Hdata Hl Hlc Hcnt Htick [Hhr Hhe Hhl] Hw Hwc].
  intros Hmax Hd' Hl' Hsz Hev.
  destruct (commit_mutation_fields s values leases (revision_ s + 1) events)
    as (Ev & El & Er & Elim & Et & Eid & Etok & Ew & Eh).
  set (s' := commit_mutation s values leases (revision_ s + 1) events) in *. clearbody s'.
  pose proof (history_snoc s events Hinv) as Hh1.
  apply (trim_history_ok (max_watch_history_revisions (limits_ s))) in Hh1;
    [|apply Hlim|lia].
  rewrite <-Eh in Hh1. destruct Hh1 as ([dr Hdr] & Hc & Hr' & Hlen').
  constructor; rewrite ?Elim, ?Er, ?Ev, ?El, ?Et, ?Eid, ?Etok; try done; try lia.
  - split; [done| |done].
    assert (Forall (λ b, Forall (event_ok (eb_revision b)) (eb_events b))
      (history_ s ++ [mkBatch (revision_ s + 1) events])) as Hall.
    { apply Forall_app. split; [done|]. by repeat constructor. }
    rewrite Hdr in Hall. by apply Forall_app in Hall as [_ ?].
  - intros id w Hid. rewrite Ew, map_lookup_imap in Hid.
    destruct (watchers_ s !! id) as [w0|] eqn:Hw0; [|done]. simpl in Hid. simplify_eq.
    by apply stage_watcher_ok, Hw.
  - by rewrite Ew, map_imap_size.
Qed.
