(* ===== verification/StoreTxn.v ===== *)
(** * Transactions of the metadata store

    Why a transaction branch that passes validation executes without an
    internal error, and what it computes.  The validation loop rejects branches
    that write one key twice, so the result does not depend on the order of the
    writes: [txn_value] gives the final value of each key from the values before
    the transaction alone. *)

From S2P Require Import Prelude OrdMap Bytes StoreTypes Store StoreInv.

(** ** Replaying watch events *)

(** What a watcher that mirrors the store does with an event. *)
Definition apply_event (values : gmap ByteSequence KeyValue) (e : WatchEvent)
    : gmap ByteSequence KeyValue :=
  match mu_current (we_mutation e), mu_previous (we_mutation e) with
  | Some v, _ => <[kv_key v := v]> values
  | None, Some v => delete (kv_key v) values
  | None, None => values
  end.

Definition apply_events (events : list WatchEvent) (values : gmap ByteSequence KeyValue)
    : gmap ByteSequence KeyValue := foldl apply_event values events.

Lemma apply_events_app es1 es2 values :
  apply_events (es1 ++ es2) values = apply_events es2 (apply_events es1 values).
Proof. apply foldl_app. Qed.

Lemma apply_events_erase rev deleted values :
  apply_events (erase_event rev <$> deleted) values
  = foldl (λ m v, delete (kv_key v) m) values deleted.
Proof. revert values. induction deleted as [|v deleted IH]; intros values; [done|]. apply IH. Qed.

(** Erasing entries by their map key or by the key stored in the value. *)
Lemma foldl_delete_entries (l : list (ByteSequence * KeyValue)) (m : gmap ByteSequence KeyValue) :
  (∀ k v, (k, v) ∈ l → kv_key v = k) →
  foldl (λ m e, delete e.1 m) m l = foldl (λ m v, delete (kv_key v) m) m l.*2.
Proof.
  revert m. induction l as [|[k v] l IH]; intros m Hl; simpl; [done|].
  rewrite (Hl k v) by left. apply IH. intros k' v' Hin. apply Hl. by right.
Qed.

(** ** What a branch writes *)

Definition writes (op : RequestOperation) (k : ByteSequence) : bool :=
  match op with
  | op_range _ => false
  | op_put p => bool_decide (pq_key p = k)
  | op_delete d => contains_key (dq_range d) k
  end.

(** The value a put stores, given the value of its key before the transaction. *)
Definition put_value (rev : Z) (previous : option KeyValue) (p : PutRequest) : KeyValue :=
  mkKV (pq_key p) (pq_value p)
    (match previous with Some v => kv_version v + 1 | None => 1 end)
    (match previous with Some v => kv_create_revision v | None => rev end)
    rev (pq_lease_id p).

(** The value of key [k] after the branch [ops], computed from the values before
    the transaction only. *)
Fixpoint txn_value (rev : Z) (values : gmap ByteSequence KeyValue)
    (ops : list RequestOperation) (k : ByteSequence) : option KeyValue :=
  match ops with
  | [] => values !! k
  | op :: rest =>
      if writes op k then
        match op with
        | op_put p => Some (put_value rev (values !! k) p)
        | _ => None
        end
      else txn_value rev values rest k
  end.

Definition effective (values : gmap ByteSequence KeyValue) (op : RequestOperation) : Prop :=
  match op with
  | op_range _ => False
  | op_put _ => True
  | op_delete d => ∃ k v, values !! k = Some v ∧ contains_key (dq_range d) k = true
  end.

Definition untouched (ops : list RequestOperation) (k : ByteSequence) : Prop :=
  Forall (λ op, writes op k = false) ops.

Lemma txn_value_app_l rev values ops1 ops2 k :
  untouched ops1 k → txn_value rev values (ops1 ++ ops2) k = txn_value rev values ops2 k.
Proof. induction 1 as [|op ops Hop _ IH]; simpl; [done|]. by rewrite Hop. Qed.

Lemma txn_value_app_r rev values ops1 ops2 k :
  untouched ops2 k → txn_value rev values (ops1 ++ ops2) k = txn_value rev values ops1 k.
Proof.
  intros Hun. induction ops1 as [|op ops IH]; simpl.
  - rewrite <-(app_nil_r ops2), txn_value_app_l by done. done.
  - by rewrite IH.
Qed.

Lemma txn_value_untouched rev values ops k :
  untouched ops k → txn_value rev values ops k = values !! k.
Proof. intros. rewrite <-(app_nil_r ops). by rewrite txn_value_app_l. Qed.

Lemma contains_key_spec r k :
  contains_key r k = true ↔ key_le (range_start r) k ∧ key_lt k (range_end r).
Proof. unfold contains_key. by rewrite andb_true_iff, bytes_leb_spec, bytes_ltb_spec. Qed.

Lemma ranges_overlap_spec r1 r2 k :
  contains_key r1 k = true → contains_key r2 k = true → ranges_overlap r1 r2 = true.
Proof.
  rewrite !contains_key_spec. unfold ranges_overlap.
  rewrite andb_true_iff, !bytes_ltb_spec. intros [H1 H2] [H3 H4].
  split; by eapply key_le_lt_trans.
Qed.

Lemma existsb_false {A} (f : A → bool) l : existsb f l = false ↔ Forall (λ x, f x = false) l.
Proof.
  induction l as [|x l IH]; simpl; [by split|].
  by rewrite orb_false_iff, Forall_cons, IH.
Qed.

(** ** Validation *)

(** What validation establishes about operation [op] after the operations
    [pre] of its branch. *)
Definition op_valid (values : gmap ByteSequence KeyValue) (verified : list LeaseOwnership)
    (pre : list RequestOperation) (op : RequestOperation) : Prop :=
  match op with
  | op_range r => rq_revision r = 0
  | op_put p =>
      pq_key p ≠ [] ∧ 0 ≤ pq_lease_id p ∧
      (pq_lease_id p ≠ 0 → ∃ o, o ∈ verified ∧ lo_id o = pq_lease_id p) ∧
      untouched pre (pq_key p) ∧
      (∀ v, values !! pq_key p = Some v → kv_version v ≠ i64_max)
  | op_delete d => ∀ k, contains_key (dq_range d) k = true → untouched pre k
  end.

Definition branch_valid values verified (ops : list RequestOperation) : Prop :=
  ∀ pre op suf, ops = pre ++ op :: suf → op_valid values verified pre op.

Lemma branch_valid_snoc values verified ops op :
  branch_valid values verified ops → op_valid values verified ops op →
  branch_valid values verified (ops ++ [op]).
Proof.
  intros Hb Ho pre op' suf Heq.
  destruct suf as [|op'' suf _] using rev_ind.
  - apply app_inj_2 in Heq as [-> [= ->]]; done.
  - rewrite app_comm_cons, app_assoc in Heq.
    apply app_inj_2 in Heq as [-> _]; [|done]. by eapply Hb.
Qed.

Definition put_key_of (op : RequestOperation) : option ByteSequence :=
  match op with op_put p => Some (pq_key p) | _ => None end.
Definition delete_range_of (op : RequestOperation) : option KeyRange :=
  match op with op_delete d => Some (dq_range d) | _ => None end.

Record plan_inv values verified (pre : list RequestOperation) (plan : TxnPlan) : Prop := {
  pl_puts : put_keys plan = omap put_key_of pre;
  pl_deletes : delete_ranges plan = omap delete_range_of pre;
  pl_valid : branch_valid values verified pre;
  pl_effective : has_effective_mutation plan = true ↔ Exists (effective values) pre }.

Lemma untouched_plan values verified pre plan k :
  plan_inv values verified pre plan →
  k ∉ put_keys plan → Forall (λ r, contains_key r k = false) (delete_ranges plan) →
  untouched pre k.
Proof.
  intros [-> -> _ _] Hp Hd. apply Forall_forall. intros op Hop.
  rewrite Forall_forall in Hd. destruct op as [r|p|d]; simpl; [done| |].
  - apply bool_decide_false. intros Heq. apply Hp.
    apply list_elem_of_omap. exists (op_put p). by rewrite <-Heq.
  - apply Hd, list_elem_of_omap. by exists (op_delete d).
Qed.

Lemma lower_bound_effective (values : gmap ByteSequence KeyValue) r :
  match lower_bound values (range_start r) with
  | first :: _ => bytes_ltb first.1 (range_end r)
  | [] => false
  end = true ↔ ∃ k v, values !! k = Some v ∧ contains_key r k = true.
Proof.
  transitivity (scan values (range_start r) (range_end r) ≠ []).
  - unfold scan. destruct (lower_bound values (range_start r)) as [|e l]; [done|].
    simpl. rewrite bytes_ltb_spec. case_bool_decide; naive_solver.
  - setoid_rewrite contains_key_spec. split.
    + intros Hne. destruct (scan _ _ _) as [|[k v] l] eqn:Hscan; [done|].
      exists k, v. apply elem_of_scan. rewrite Hscan. by left.
    + intros (k & v & Hk) Hnil. apply elem_of_scan in Hk. rewrite Hnil in Hk. set_solver.
Qed.

Lemma validate_operation_ok values verified pre plan op :
  plan_inv values verified pre plan →
  owp (validate_operation values verified plan op)
    (plan_inv values verified (pre ++ [op]))
    (λ e, ∀ m, e ≠ logic_error m).
Proof.
  intros Hpl. pose proof Hpl as [Hp Hd Hv He].
  unfold validate_operation, validate_range, validate_key.
  destruct op as [r|p|d]; repeat ostep; try done.
  - split; rewrite ?omap_app; simpl; rewrite ?app_nil_r; try done.
    + apply branch_valid_snoc; [done|]. simpl.
      destruct (Z.eqb_spec (rq_revision r) 0); done.
    + rewrite He, Exists_app. simpl. rewrite Exists_cons, Exists_nil. simpl. tauto.
  - repeat match goal with H : throw_when _ _ = _ |- _ => clear H end.
    rename select (is_empty _ = false) into Hne.
    rename select ((_ <? 0) = false) into Hlid.
    rename select (negb _ && negb _ = false) into Hown.
    rename select (bool_decide (pq_key p ∈ _) = false) into Hdup.
    rename select (existsb _ _ = false) into Hdel.
    apply bool_decide_eq_false in Hdup. apply existsb_false in Hdel.
    split; rewrite ?omap_app; simpl; rewrite ?app_nil_r; try done.
    + by rewrite Hp.
    + apply branch_valid_snoc; [done|]. simpl. split_and!.
      * by destruct (pq_key p).
      * lia.
      * intros H0. apply andb_false_iff in Hown as [Hown|Hown].
        { apply negb_false_iff in Hown. lia. }
        apply negb_false_iff, existsb_exists in Hown as (o & Ho & Heq).
        exists o. split; [by apply list_elem_of_In|lia].
      * by eapply untouched_plan.
      * intros v Hval.
        match goal with H : match values !! pq_key p with _ => _ end = false |- _ =>
          rewrite Hval in H; lia end.
    + split; [intros _|done]. apply Exists_app. right. by apply Exists_cons_hd.
  - rename select (existsb (λ r, ranges_overlap _ _) _ = false) into Hov.
    rename select (existsb (λ k, contains_key _ _) _ = false) into Hput.
    apply existsb_false in Hov, Hput.
    split; rewrite ?omap_app; simpl; rewrite ?app_nil_r; try done.
    + by rewrite Hd.
    + apply branch_valid_snoc; [done|]. simpl. intros k Hk. eapply untouched_plan; [done|..].
      * intros Hin. rewrite Forall_forall in Hput. rewrite (Hput _ Hin) in Hk. done.
      * apply (Forall_impl _ _ _ Hov). intros r Hr. apply not_true_is_false. intros Hk'.
        by rewrite (ranges_overlap_spec r (dq_range d) k) in Hr.
    + rewrite Exists_app, <-He, Exists_cons, Exists_nil. simpl.
      rewrite <-lower_bound_effective.
      destruct (lower_bound _ _) as [|e l].
      * split; [by left|]. by intros [?|[?|?]].
      * rewrite orb_true_iff. tauto.
Qed.

Lemma validate_branch_ok values verified ops :
  owp (foldM (validate_operation values verified) empty_plan ops)
    (plan_inv values verified ops) (λ e, ∀ m, e ≠ logic_error m).
Proof.
  apply (owp_foldM _ (plan_inv values verified)).
  - split; simpl; try done. + intros [] ???; done. + by rewrite Exists_nil.
  - intros pre op suf plan _ Hpl. by apply validate_operation_ok.
Qed.

(** ** Execution *)

(** The response of operation [op] after the operations [pre] of its branch: a
    range sees the writes of [pre]; puts and deletes report the values before
    the transaction. *)
Definition response_ok (rev : Z) (values : gmap ByteSequence KeyValue)
    (pre : list RequestOperation) (op : RequestOperation)
    (res : TransactionOperationResult) : Prop :=
  match op with
  | op_range r => ∃ m : gmap ByteSequence KeyValue,
      (∀ k, m !! k = txn_value rev values pre k) ∧
      let found := (scan m (range_start (rq_range r)) (range_end (rq_range r))).*2 in
      res = res_range (mkRangeRead
        (if rq_limit r =? 0 then found else take (Z.to_nat (rq_limit r)) found) rev)
  | op_put p =>
      let previous := values !! pq_key p in
      res = res_put (mkPutResult (put_value rev previous p)
        (if pq_return_previous p then previous else None) rev)
  | op_delete d =>
      let doomed := scan values (range_start (dq_range d)) (range_end (dq_range d)) in
      res = res_delete (mkDeleteRangeResult (Z.of_nat (length doomed))
        (if dq_return_previous d then doomed.*2 else []) rev)
  end.

Definition responses_ok rev values (ops : list RequestOperation)
    (responses : list TransactionOperationResult) : Prop :=
  length responses = length ops ∧
  ∀ pre op suf, ops = pre ++ op :: suf →
    ∃ res, responses !! length pre = Some res ∧ response_ok rev values pre op res.

Record exec_inv (rev : Z) (values : gmap ByteSequence KeyValue) (leases : gmap Z StoredLease)
    (pre : list RequestOperation) (w : Working) : Prop := {
  ex_data : data_ok rev (wk_values w) (wk_leases w);
  ex_meta : same_meta leases (wk_leases w);
  ex_replay : wk_values w = apply_events (wk_events w) values;
  ex_events : Forall (event_ok rev) (wk_events w);
  ex_values : ∀ k, wk_values w !! k = txn_value rev values pre k;
  ex_responses : responses_ok rev values pre (wk_responses w);
  ex_quiet : ¬ Exists (effective values) pre →
    wk_values w = values ∧ wk_leases w = leases ∧ wk_events w = [];
  ex_loud : Exists (effective values) pre → wk_events w ≠ [] }.

Lemma responses_ok_snoc rev values ops responses op res :
  responses_ok rev values ops responses → response_ok rev values ops op res →
  responses_ok rev values (ops ++ [op]) (responses ++ [res]).
Proof.
  intros [Hlen Hres] Hop. split; [by rewrite !length_app, Hlen|].
  intros pre op' suf Heq. destruct suf as [|op'' suf _] using rev_ind.
  - apply app_inj_2 in Heq as [-> [= ->]]; [|done].
    exists res. by rewrite <-Hlen, list_lookup_middle.
  - rewrite app_comm_cons, app_assoc in Heq.
    apply app_inj_2 in Heq as [-> _]; [|done].
    destruct (Hres pre op' suf eq_refl) as (res' & Hlk & ?). exists res'. split; [|done].
    by apply lookup_app_l_Some.
Qed.

Lemma Exists_snoc {A} (P : A → Prop) l x : Exists P (l ++ [x]) ↔ Exists P l ∨ P x.
Proof. rewrite Exists_app, Exists_cons, Exists_nil. tauto. Qed.

Lemma txn_value_snoc rev values pre op k :
  untouched pre k → txn_value rev values (pre ++ [op]) k = txn_value rev values [op] k.
Proof. apply txn_value_app_l. Qed.

Lemma txn_value_snoc_other rev values pre op k :
  writes op k = false → txn_value rev values (pre ++ [op]) k = txn_value rev values pre k.
Proof. intros. apply txn_value_app_r. by repeat constructor. Qed.

Section execution.
Context (rev : Z) (values : gmap ByteSequence KeyValue) (leases : gmap Z StoredLease).
Context (verified : list LeaseOwnership).

Lemma execute_range_ok pre r w :
  exec_inv rev values leases pre w →
  owp (execute_range rev r w) (exec_inv rev values leases (pre ++ [op_range r])) (λ _, False).
Proof.
  intros []. unfold execute_range. simpl. constructor; simpl; try done.
  - intros k. by rewrite txn_value_snoc_other.
  - apply responses_ok_snoc; [done|]. by exists (wk_values w).
  - rewrite Exists_snoc. simpl. intros ?. apply ex_quiet0. tauto.
  - rewrite Exists_snoc. simpl. tauto.
Qed.

Lemma put_value_ok k p :
  1 ≤ rev → map_Forall (value_ok rev) values → pq_key p = k → k ≠ [] → 0 ≤ pq_lease_id p →
  (∀ v, values !! k = Some v → kv_version v ≠ i64_max) →
  value_ok rev k (put_value rev (values !! k) p).
Proof.
  intros Hrev Hval Hk Hne Hlid Hver. destruct (values !! k) as [v|] eqn:Hlk.
  - destruct (Hval _ _ Hlk). specialize (Hver _ eq_refl).
    constructor; simpl; try done; lia.
  - constructor; simpl; try done; lia.
Qed.

Lemma execute_put_ok pre p w :
  1 ≤ rev → map_Forall (value_ok rev) values →
  (∀ o, o ∈ verified → is_Some (leases !! lo_id o)) →
  op_valid values verified pre (op_put p) →
  exec_inv rev values leases pre w →
  owp (execute_put rev p w) (exec_inv rev values leases (pre ++ [op_put p])) (λ _, False).
Proof.
  intros Hrev Hval Hver (Hne & Hlid & Hown & Hun & Hvers) [].
  assert (wk_values w !! pq_key p = values !! pq_key p) as Hlk.
  { rewrite ex_values0. by apply txn_value_untouched. }
  unfold execute_put. apply owp_bind.
  eapply owp_mono; [by apply detach_previous_ok| |done].
  intros leases1 _ [Hd1 Hm1]. rewrite Hlk. simpl. apply owp_bind.
  pose proof (put_value_ok _ p Hrev Hval eq_refl Hne Hlid Hvers) as Hpv.
  set (v := put_value rev (values !! pq_key p) p) in *.
  assert (owp (if pq_lease_id p =? 0 then mret leases1
               else attach_key leases1 (pq_lease_id p) (pq_key p))
    (λ l2, data_ok rev (<[pq_key p := v]> (wk_values w)) l2 ∧ same_meta leases l2)
    (λ _, False)) as Hattach.
  { rewrite <-insert_delete_eq.
    assert (delete (pq_key p) (wk_values w) !! pq_key p = None) as Hnone
      by apply lookup_delete_eq.
    destruct (Z.eqb_spec (pq_lease_id p) 0) as [H0|H0].
    - simpl. split; [by apply insert_unleased_ok|]. by trans (wk_leases w).
    - destruct (Hown H0) as (o & Ho & Hoid). destruct (Hver o Ho) as [l Hl].
      pose proof (same_meta_lookup leases leases1 (pq_lease_id p)) as Hml.
      rewrite <-Hoid, Hl in Hml. destruct (leases1 !! lo_id o) as [l1|] eqn:Hl1; last first.
      { discriminate Hml. by trans (wk_leases w). }
      rewrite Hoid in Hl1.
      eapply owp_mono; [by eapply (attach_key_ok rev _ leases1 _ v)| |done].
      intros l2 _ [? ?]. split; [done|]. trans (wk_leases w); [done|]. by trans leases1. }
  eapply owp_mono; [exact Hattach| |done]. clear Hattach. intros leases2 _ [Hd2 Hm2].
  simpl. constructor; simpl; try done.
  - rewrite apply_events_app, <-ex_replay0. done.
  - apply Forall_app. split; [done|]. by repeat constructor.
  - intros k. destruct (decide (pq_key p = k)) as [<-|Hk].
    + rewrite lookup_insert_eq, txn_value_snoc by done. simpl.
      by rewrite bool_decide_true.
    + rewrite lookup_insert_ne by done. rewrite ex_values0. symmetry.
      apply txn_value_snoc_other. simpl. by apply bool_decide_false.
  - by apply responses_ok_snoc.
  - rewrite Exists_snoc. simpl. tauto.
  - intros _. by destruct (wk_events w).
Qed.

(** The erase loop of a delete over the entries [doomed]. *)
Lemma execute_erase_loop doomed w :
  data_ok rev (wk_values w) (wk_leases w) → NoDup doomed.*1 →
  (∀ k v, (k, v) ∈ doomed → wk_values w !! k = Some v) →
  owp (foldM (execute_erase rev) w doomed)
    (λ w', data_ok rev (wk_values w') (wk_leases w') ∧
           same_meta (wk_leases w) (wk_leases w') ∧
           wk_values w' = foldl (λ m e, delete e.1 m) (wk_values w) doomed ∧
           wk_responses w' = wk_responses w ∧
           wk_events w' = wk_events w ++ (erase_event rev <$> doomed.*2) ∧
           (doomed = [] → wk_leases w' = wk_leases w))
    (λ _, False).
Proof.
  revert w. induction doomed as [|[k v] doomed IH]; intros w Hd Hnd Hin; simpl.
  { by rewrite app_nil_r. }
  apply owp_bind. unfold execute_erase at 1. apply owp_bind.
  eapply owp_mono; [apply (detach_key_ok rev (wk_values w) (wk_leases w) k v); [done|apply Hin; set_solver]| |done].
  intros leases1 _ [Hd1 Hm1]. simpl. apply NoDup_cons in Hnd as [Hk Hnd].
  eapply owp_mono; [apply IH; simpl|..].
  - done.
  - done.
  - intros k' v' Hin'. rewrite lookup_delete_ne; [apply Hin; set_solver|].
    intros ->. apply Hk, list_elem_of_fmap. by exists (k', v').
  - simpl. intros w' _ (? & ? & ? & ? & He & _). split_and!; try done.
    + by trans leases1.
    + by rewrite He, <-app_assoc.
  - done.
Qed.

Lemma execute_delete_ok pre d w :
  op_valid values verified pre (op_delete d) →
  exec_inv rev values leases pre w →
  owp (execute_delete rev d w) (exec_inv rev values leases (pre ++ [op_delete d]))
    (λ _, False).
Proof.
  intros Hun []. set (s := range_start (dq_range d)). set (e := range_end (dq_range d)).
  simpl in Hun.
  assert (scan (wk_values w) s e = scan values s e) as Hscan.
  { apply scan_ext. intros k ??. rewrite ex_values0.
    by apply txn_value_untouched, Hun, contains_key_spec. }
  unfold execute_delete. fold s e. rewrite Hscan. apply owp_bind.
  eapply owp_mono; [apply execute_erase_loop; [done|apply NoDup_scan|]| |done].
  { intros k v. rewrite <-Hscan, elem_of_scan. naive_solver. }
  intros w' _ (Hd & Hm & Hv & Hr & He & Hnil). simpl.
  assert (effective values (op_delete d) ↔ scan values s e ≠ []) as Heff.
  { simpl. rewrite <-lower_bound_effective. fold s e. unfold scan.
    destruct (lower_bound values s) as [|x l]; simpl; [done|].
    rewrite bytes_ltb_spec. case_bool_decide; naive_solver. }
  constructor; simpl.
  - done.
  - by trans (wk_leases w).
  - rewrite He, apply_events_app, <-ex_replay0, apply_events_erase, Hv.
    apply foldl_delete_entries.
    intros k v. rewrite <-Hscan, elem_of_scan. intros [Hk _].
    by destruct (do_values _ _ _ ex_data0 _ _ Hk).
  - rewrite He. apply Forall_app. split; [done|]. apply Forall_forall.
    by intros ev (v & -> & _)%list_elem_of_fmap.
  - intros k. rewrite Hv, lookup_foldl_delete, ex_values0.
    destruct (contains_key (dq_range d) k) eqn:Hk.
    + rewrite txn_value_snoc by auto. simpl. rewrite Hk.
      case_decide as Hin; [done|]. rewrite txn_value_untouched by auto.
      destruct (values !! k) as [v|] eqn:Hlk; [|done]. exfalso. apply Hin.
      apply list_elem_of_fmap. exists (k, v). split; [done|].
      apply elem_of_scan. split; [done|]. by apply contains_key_spec.
    + rewrite txn_value_snoc_other by done. rewrite decide_False; [done|].
      intros ([k' v] & -> & Hin)%list_elem_of_fmap.
      apply elem_of_scan in Hin as [_ Hin]. apply contains_key_spec in Hin.
      simpl in Hk. congruence.
  - rewrite Hr. by apply responses_ok_snoc.
  - rewrite Exists_snoc, Heff. intros Hne.
    assert (scan values s e = []) as Hs0 
      by (destruct (scan values s e); [done|]; destruct Hne; by right).
    destruct ex_quiet0 as (Qv & Ql & Qe); [tauto|].
    rewrite Hv, He, (Hnil Hs0), Hs0, Qv, Ql, Qe. done.
  - rewrite Exists_snoc, Heff, He. intros [Hex|Hne].
    + specialize (ex_loud0 Hex). by destruct (wk_events w).
    + destruct (scan values s e); [done|]. simpl. by destruct (wk_events w).
Qed.

(** The execution loop of a validated branch never throws. *)
Lemma execute_branch_ok ops :
  data_ok rev values leases →
  (Exists (effective values) ops → 1 ≤ rev) →
  (∀ o, o ∈ verified → is_Some (leases !! lo_id o)) →
  branch_valid values verified ops →
  owp (foldM (execute_operation rev) (mkWorking values leases [] []) ops)
    (exec_inv rev values leases ops) (λ _, False).
Proof.
  intros Hdata Hrev Hver Hvalid. apply (owp_foldM _ (exec_inv rev values leases)).
  - constructor; simpl; try done. + split; [done|]. by intros [] ???.
    + by rewrite Exists_nil.
  - intros pre op suf w -> Hex. specialize (Hvalid pre op suf eq_refl).
    destruct op as [r|p|d]; simpl.
    + by apply execute_range_ok.
    + apply execute_put_ok; try done; [|apply Hdata]. apply Hrev, Exists_app. right.
      by apply Exists_cons_hd.
    + by apply execute_delete_ok.
Qed.
End execution.

(** ** Order of the operations *)

(** In a valid branch one operation at most writes a key. *)
Lemma branch_valid_unique values verified ops op1 op2 k :
  branch_valid values verified ops → op1 ∈ ops → op2 ∈ ops →
  writes op1 k = true → writes op2 k = true → op1 = op2.
Proof.
  intros Hv [i Hi]%list_elem_of_lookup [j Hj]%list_elem_of_lookup H1 H2.
  assert (∀ i j o1 o2, (i < j)%nat → ops !! i = Some o1 → ops !! j = Some o2 →
    writes o1 k = true → writes o2 k = true → False) as Hlt.
  { clear - Hv. intros i j o1 o2 Hij Hi Hj H1 H2.
    pose proof (take_drop_middle _ _ _ Hj) as Hsplit. symmetry in Hsplit.
    pose proof (Hv _ _ _ Hsplit) as Hok.
    assert (o1 ∈ take j ops) as Hin.
    { apply list_elem_of_lookup. exists i. by rewrite lookup_take_lt. }
    assert (untouched (take j ops) k) as Hun.
    { destruct o2 as [r|p|d]; simpl in H2; [done| |by apply Hok].
      apply bool_decide_eq_true in H2 as <-. apply Hok. }
    unfold untouched in Hun. rewrite Forall_forall in Hun. specialize (Hun _ Hin). congruence. }
  destruct (Nat.lt_trichotomy i j) as [?|[->|?]].
  - exfalso. by apply (Hlt i j op1 op2).
  - congruence.
  - exfalso. by apply (Hlt j i op2 op1).
Qed.

Definition written_value (rev : Z) (values : gmap ByteSequence KeyValue)
    (op : RequestOperation) (k : ByteSequence)
    : option KeyValue :=
  match op with op_put p => Some (put_value rev (values !! k) p) | _ => None end.

(** The final value of a key is what its writer, if any, gives it. *)
Lemma txn_value_writer rev values ops k :
  (untouched ops k ∧ txn_value rev values ops k = values !! k) ∨
  ∃ op, op ∈ ops ∧ writes op k = true ∧ txn_value rev values ops k = written_value rev values op k.
Proof.
  induction ops as [|op ops IH]; [left; split; [constructor|done]|]. simpl.
  destruct (writes op k) eqn:Hw.
  - right. exists op. split; [by left|]. split; [done|]. by destruct op.
  - destruct IH as [[? ?]|(op' & ? & ? & ?)].
    + left. split; [by constructor|done].
    + right. exists op'. split; [by right|done].
Qed.

Lemma txn_value_permutation rev values verified ops1 ops2 k :
  branch_valid values verified ops1 → ops1 ≡ₚ ops2 →
  txn_value rev values ops1 k = txn_value rev values ops2 k.
Proof.
  intros Hv Hp.
  destruct (txn_value_writer rev values ops1 k) as [[Hu1 ->]|(op1 & Hin1 & Hw1 & ->)];
    destruct (txn_value_writer rev values ops2 k) as [[Hu2 ->]|(op2 & Hin2 & Hw2 & ->)].
  - done.
  - unfold untouched in Hu1. rewrite Hp, Forall_forall in Hu1.
    specialize (Hu1 _ Hin2). congruence.
  - unfold untouched in Hu2. rewrite <-Hp, Forall_forall in Hu2.
    specialize (Hu2 _ Hin1). congruence.
  - rewrite <-Hp in Hin2. by rewrite (branch_valid_unique _ _ _ op1 op2 k Hv).
Qed.
