(* ===== verification/StoreOps.v ===== *)
(** * Operations of the metadata store preserve its invariant

    For every public member function of [InMemoryMetadataStore] a specification
    of its normal and of its exceptional outcome: it returns in a state that
    satisfies [store_inv] and differs from the old one by at most one published
    batch of events, or it throws and leaves the object as it was. *)

From S2P Require Import Prelude OrdMap Bytes StoreTypes Store StoreInv StoreTxn.

(** ** What one operation may do *)

(** Every lease of the new state was there before with the same token, or is
    the one lease that was granted, with a token that had not been issued. *)
Definition lease_step (s s' : Store) : Prop :=
  next_fencing_token_ s ≤ next_fencing_token_ s' ∧
  ∃ granted, ∀ id l', leases_ s' !! id = Some l' →
    (∃ l, leases_ s !! id = Some l ∧ sl_fencing_token l = sl_fencing_token l')
    ∨ (id = granted ∧ next_fencing_token_ s ≤ sl_fencing_token l' < next_fencing_token_ s').

(** The data of the store after an operation that published the batch [oe], or
    published nothing. *)
Record effect (s : Store) (oe : option (list WatchEvent)) (s' : Store) : Prop := {
  ef_limits : limits_ s' = limits_ s;
  ef_values : values_ s' = apply_events (default [] oe) (values_ s);
  ef_revision : revision_ s' = revision_ s + (if oe is Some _ then 1 else 0);
  ef_history : (history_ s', compact_revision_ s') =
    match oe with
    | Some es => trim_history (max_watch_history_revisions (limits_ s))
        (history_ s ++ [mkBatch (revision_ s + 1) es]) (compact_revision_ s)
    | None => (history_ s, compact_revision_ s)
    end;
  ef_events : Forall (event_ok (revision_ s + 1)) (default [] oe);
  ef_leases : lease_step s s';
  ef_tick : logical_tick_ s ≤ logical_tick_ s' }.

(** The watchers after a publication. *)
Definition staged_watchers (s : Store) (oe : option (list WatchEvent)) : gmap Z WatchState :=
  match oe with
  | None => watchers_ s
  | Some es => map_imap (λ id w,
      Some (stage_watcher (limits_ s) es (revision_ s + 1) id w)) (watchers_ s)
  end.

Record step_ok (s : Store) (oe : option (list WatchEvent)) (s' : Store) : Prop := {
  st_inv : store_inv s';
  st_effect : effect s oe s';
  st_watchers : watchers_ s' = staged_watchers s oe }.

(** An exception leaves the object unchanged and is never one of the internal
    consistency failures. *)
Definition clean_throw (s : Store) (e : exn) (s' : Store) : Prop :=
  s' = s ∧ ∀ m, e ≠ logic_error m.

Lemma lease_step_refl s : lease_step s s.
Proof. split; [done|]. exists 0. eauto. Qed.

Lemma step_ok_refl s : store_inv s → step_ok s None s.
Proof. intros. split; [done| |done]. split; simpl; try done; [lia|]. apply lease_step_refl. Qed.

Lemma step_ok_tick s oe s' t :
  step_ok s oe s' → logical_tick_ s' ≤ t ≤ u64_max → step_ok s oe (set_logical_tick s' t).
Proof.
  intros [[] [] Hw] Ht. split; [|split; simpl; try done; lia|done].
  constructor; simpl; try done. lia.
Qed.

(** Leases that only lost members or changed attachments. *)
Definition lease_sub (old new : gmap Z StoredLease) : Prop :=
  ∀ id l', new !! id = Some l' → ∃ l, old !! id = Some l ∧ lease_meta l = lease_meta l'.

Lemma same_meta_sub l1 l2 : same_meta l1 l2 → lease_sub l1 l2.
Proof.
  intros Hm id l' Hl. pose proof (same_meta_lookup _ _ id Hm) as Hlk. rewrite Hl in Hlk.
  destruct (l1 !! id) as [l|]; [|done]. exists l. split; [done|]. simpl in Hlk. congruence.
Qed.

Lemma lease_sub_size old new : lease_sub old new → (size new ≤ size old)%nat.
Proof.
  intros Hsub. rewrite <-!(size_dom (D := gset Z)). apply subseteq_size.
  intros id (l' & Hl)%elem_of_dom. destruct (Hsub _ _ Hl) as (l & ? & _).
  apply elem_of_dom. eauto.
Qed.

Lemma lease_sub_ok nid ntok old new :
  lease_sub old new → map_Forall (lease_wf nid ntok) old → map_Forall (lease_wf nid ntok) new.
Proof.
  intros Hsub Hok id l' Hl'. destruct (Hsub _ _ Hl') as (l & Hl & Hm).
  injection Hm as Ht Hg He. destruct (Hok _ _ Hl). constructor; lia || congruence.
Qed.

Lemma lease_sub_step s s' :
  lease_sub (leases_ s) (leases_ s') → next_fencing_token_ s' = next_fencing_token_ s →
  lease_step s s'.
Proof.
  intros Hsub Ht. split; [lia|]. exists 0. intros id l' Hl'. left.
  destruct (Hsub _ _ Hl') as (l & ? & Hm). exists l. split; [done|]. unfold lease_meta in Hm. congruence.
Qed.

Lemma commit_step s values leases events :
  store_inv s → revision_ s < i64_max →
  data_ok (revision_ s + 1) values leases →
  lease_sub (leases_ s) leases →
  Forall (event_ok (revision_ s + 1)) events →
  values = apply_events events (values_ s) →
  step_ok s (Some events) (commit_mutation s values leases (revision_ s + 1) events).
Proof.
  intros Hinv Hmax Hd Hsub Hev Hval.
  destruct (commit_mutation_fields s values leases (revision_ s + 1) events)
    as (Ev & El & Er & Elim & Et & Eid & Etok & Ew & Eh).
  split; [|split|done]; try done.
  - apply commit_mutation_inv; try done.
    + eapply lease_sub_ok; [done|apply Hinv].
    + by apply lease_sub_size.
  - apply lease_sub_step; [by rewrite El|done].
Qed.

Lemma next_revision_ok s Q E :
  store_inv s →
  (revision_ s < i64_max → Q (revision_ s + 1)) →
  (revision_ s = i64_max → E (overflow_error "store revision exhausted")) →
  owp (next_revision_locked s) Q E.
Proof.
  intros Hinv HQ HE. unfold next_revision_locked. repeat ostep.
  - apply HE. lia.
  - apply HQ. destruct Hinv. lia.
Qed.

Lemma clean_throw_refl s e : (∀ m, e ≠ logic_error m) → clean_throw s e s.
Proof. done. Qed.
#[export] Hint Resolve clean_throw_refl step_ok_refl : kura.

(** A clean exception with its cause. *)
Definition refused (cause : Prop) (s : Store) (e : exn) (s' : Store) : Prop :=
  clean_throw s e s' ∧ cause.

Lemma mwp_refused {A} (m : M Store A) s Q cause :
  mwp m s Q (refused cause s) → mwp m s Q (clean_throw s).
Proof. intros Hm. eapply mwp_mono; [exact Hm|done|]. by intros e s' []. Qed.

(** ** Point operations *)

Lemma get_ok (key : ByteSequence) s :
  mwp (get key) s (λ r s', s' = s ∧ r = mkStoreRead (values_ s !! key) (revision_ s) ∧ key ≠ [])
    (λ e s', clean_throw s e s' ∧ key = []).
Proof. unfold get, validate_key. mgo; by destruct key. Qed.

Definition write_value (s : Store) (key value : ByteSequence) : KeyValue :=
  mkKV key value
    (match values_ s !! key with Some p => kv_version p + 1 | None => 1 end)
    (match values_ s !! key with Some p => kv_create_revision p | None => revision_ s + 1 end)
    (revision_ s + 1) 0.

Lemma write_value_ok s (key value : ByteSequence) :
  store_inv s → key ≠ [] →
  (∀ p, values_ s !! key = Some p → kv_version p ≠ i64_max) →
  value_ok (revision_ s + 1) key (write_value s key value).
Proof.
  intros [] Hne Hv. unfold write_value.
  destruct (values_ s !! key) as [p|] eqn:Hk; [|constructor; simpl; try done; lia].
  specialize (Hv _ eq_refl). destruct (do_values _ _ _ inv_data _ _ Hk).
  constructor; simpl; try done; lia.
Qed.

(** A counter of the write is at its maximum. *)
Definition write_exhausted (s : Store) (key : ByteSequence) : Prop :=
  revision_ s = i64_max ∨ ∃ p, values_ s !! key = Some p ∧ kv_version p = i64_max.

Lemma put_locked_ok (key value : ByteSequence) s :
  store_inv s → key ≠ [] →
  mwp (put_locked key value) s
    (λ r s', r = mkPutResult (write_value s key value) (values_ s !! key) (revision_ s + 1) ∧
       values_ s' = <[key := write_value s key value]> (values_ s) ∧
       step_ok s (Some [put_event (revision_ s + 1) (write_value s key value) (values_ s !! key)]) s')
    (λ e s', clean_throw s e s' ∧ write_exhausted s key).
Proof.
  intros Hinv Hne. unfold put_locked. apply mwp_bind, mwp_get. cbv zeta.
  apply mwp_bind, mwp_lift, next_revision_ok; [done|intros Hmax|intros Hmax; split; [done|by left]].
  apply mwp_bind, mwp_lift, owp_throw_when; intros Hver.
  { split; [done|]. right. destruct (values_ s !! key) as [p|]; [|done].
    exists p. split; [done|lia]. }
  apply mwp_bind, mwp_lift.
  eapply owp_mono; [apply (detach_previous_ok (revision_ s + 1) (values_ s) (leases_ s) key)| |done].
  { eapply data_ok_mono; [|apply Hinv]. lia. }
  intros leases1 _ [Hd Hm]. mgo. fold (write_value s key value).
  rewrite (proj1 (commit_mutation_fields _ _ _ _ _)).
  split; [done|]. split; [done|]. apply commit_step; try done.
  - rewrite <-insert_delete_eq. apply insert_unleased_ok; [done|apply lookup_delete_eq| |done].
    apply write_value_ok; try done. intros p Hp. rewrite Hp in Hver. lia.
  - by apply same_meta_sub.
  - by repeat constructor.
Qed.

Lemma erase_ok (key : ByteSequence) s :
  store_inv s →
  mwp (erase key) s
    (λ r s', match values_ s !! key with
       | None => s' = s ∧ r = mkDeleteResult false None (revision_ s)
       | Some v => r = mkDeleteResult true (Some v) (revision_ s + 1) ∧
           values_ s' = delete key (values_ s) ∧
           step_ok s (Some [erase_event (revision_ s + 1) v]) s'
       end ∧ key ≠ [])
    (clean_throw s).
Proof.
  intros Hinv. unfold erase, validate_key. mgo; [done| |by destruct key].
  rename select (is_empty key = false) into Hne.
  apply next_revision_ok; [done|intros Hmax|done]. mgo.
  rename select (values_ s !! key = Some _) into Hk.
  eapply owp_mono; [eapply (detach_key_ok (revision_ s + 1) (values_ s) (leases_ s) key)| |done].
  { eapply data_ok_mono; [|apply Hinv]. lia. } { done. }
  intros leases1 _ [Hd Hm]. mgo.
  rewrite (proj1 (commit_mutation_fields _ _ _ _ _)). split; [|by destruct key].
  split; [done|]. split; [done|]. apply commit_step; try done.
  - by apply same_meta_sub.
  - by repeat constructor.
  - unfold apply_events, apply_event. simpl.
    by rewrite (vo_key _ _ _ (do_values _ _ _ (inv_data _ Hinv) _ _ Hk)).
Qed.

Lemma put_ok (key value : ByteSequence) s :
  store_inv s →
  mwp (put key value) s
    (λ r s', r = mkPutResult (write_value s key value) (values_ s !! key) (revision_ s + 1) ∧
       values_ s' = <[key := write_value s key value]> (values_ s) ∧
       step_ok s (Some [put_event (revision_ s + 1) (write_value s key value) (values_ s !! key)]) s'
       ∧ key ≠ [])
    (λ e s', clean_throw s e s' ∧ (key = [] ∨ write_exhausted s key)).
Proof.
  intros Hinv. unfold put, validate_key. mgo; [split; [done|left; by destruct key]|].
  assert (key ≠ []) by by destruct key.
  eapply mwp_mono; [by apply put_locked_ok|..]; simpl; tauto.
Qed.

(** Does the key's modification revision match ([0]: the key is absent)? *)
Definition cas_matches (s : Store) (key : ByteSequence) (expected : Z) : Prop :=
  match values_ s !! key with
  | None => expected = 0
  | Some v => kv_mod_revision v = expected
  end.

Lemma compare_and_set_ok (key : ByteSequence) (expected : Z) (value : ByteSequence) s :
  store_inv s →
  mwp (compare_and_set key expected value) s
    (λ r s', key ≠ [] ∧
       ((¬ cas_matches s key expected ∧ s' = s ∧
         r = mkCasResult false (values_ s !! key) (revision_ s))
        ∨ (cas_matches s key expected ∧
           r = mkCasResult true (Some (write_value s key value)) (revision_ s + 1) ∧
           values_ s' = <[key := write_value s key value]> (values_ s) ∧
           step_ok s (Some [put_event (revision_ s + 1) (write_value s key value)
             (values_ s !! key)]) s')))
    (clean_throw s).
Proof.
  intros Hinv. unfold compare_and_set, validate_key, cas_matches.
  apply mwp_bind, mwp_lift, owp_throw_when; [done|intros Hne].
  apply mwp_bind, mwp_lift, owp_throw_when; [done|intros Hexp].
  apply mwp_bind, mwp_get. cbv zeta.
  assert (key ≠ []) as Hkey by by destruct key.
  destruct (match values_ s !! key with Some _ => _ | None => _ end) eqn:Hm; simpl.
  - apply mwp_bind. eapply mwp_mono; [by apply put_locked_ok| |simpl; tauto].
    simpl. intros r s' (-> & ? & ?). apply mwp_ret. split; [done|]. right.
    split; [|done]. destruct (values_ s !! key); lia.
  - apply mwp_ret. split; [done|]. left. split; [|done].
    destruct (values_ s !! key); lia.
Qed.

Lemma range_ok start_ end_ s :
  mwp (range start_ end_) s
    (λ r s', s' = s ∧ r = mkRangeRead (scan (values_ s) start_ end_).*2 (revision_ s))
    (refused (¬ (start_ ≠ [] ∧ key_lt start_ end_)) s).
Proof.
  unfold range, validate_key, refused. mgo; try done; (split; [done|]); intros [Hne Hlt].
  - by destruct start_.
  - destruct end_; [|done]. apply Hlt. by destruct start_.
  - apply Hlt. by apply bytes_leb_spec.
Qed.

(** ** Transactions *)

(** Reading of one comparison: an absent key has zero metadata and an empty
    value. *)
Definition relation_holds {V} (lt : V → V → Prop) (actual expected : V) (r : CompareResult) : Prop :=
  match r with
  | cr_equal => actual = expected
  | cr_not_equal => actual ≠ expected
  | cr_greater => lt expected actual
  | cr_less => lt actual expected
  end.

Definition numeric_field (target : CompareTarget) (v : KeyValue) : Z :=
  match target with
  | ct_version => kv_version v
  | ct_create_revision => kv_create_revision v
  | ct_mod_revision => kv_mod_revision v
  | ct_lease_id => kv_lease_id v
  | ct_value => 0
  end.

Definition compare_holds (values : gmap ByteSequence KeyValue) (c : Compare) : Prop :=
  let value := values !! cmp_key c in
  match cmp_expected c with
  | operand_int expected =>
      relation_holds Z.lt (default 0 (numeric_field (cmp_target c) <$> value)) expected
        (cmp_result c)
  | operand_bytes expected =>
      relation_holds key_lt (default [] (kv_value <$> value)) expected (cmp_result c)
  end.

Lemma comparison_matches_Z actual expected r :
  comparison_matches Z.compare actual expected r = true ↔ relation_holds Z.lt actual expected r.
Proof.
  unfold comparison_matches, relation_holds.
  destruct r, (Z.compare_spec actual expected); naive_solver lia.
Qed.

Lemma comparison_matches_bytes actual expected r :
  comparison_matches bytes_compare actual expected r = true
  ↔ relation_holds key_lt actual expected r.
Proof.
  unfold comparison_matches, relation_holds.
  destruct (bytes_compare_spec actual expected) as [->|Hlt|Hlt].
  - pose proof (key_lt_irrefl expected). destruct r; naive_solver.
  - pose proof (key_lt_ne _ _ Hlt). pose proof (key_lt_le _ _ Hlt) as Hle.
    destruct r; naive_solver.
  - pose proof (key_lt_ne _ _ Hlt). pose proof (key_lt_le _ _ Hlt) as Hle.
    destruct r; naive_solver.
Qed.

Lemma evaluate_comparison_ok values b c :
  owp (evaluate_comparison values b c)
    (λ b', b' = true ↔ b = true ∧ compare_holds values c)
    (λ e, ∀ m, e ≠ logic_error m).
Proof.
  unfold evaluate_comparison, validate_key, compare_holds. ostep. ostep; [done|]. cbv zeta.
  destruct (cmp_target c), (cmp_expected c); simpl; try done;
    rewrite andb_true_iff, ?comparison_matches_Z, ?comparison_matches_bytes;
    by destruct (values !! cmp_key c).
Qed.

Lemma comparisons_ok values cs :
  owp (foldM (evaluate_comparison values) true cs)
    (λ b, b = true ↔ Forall (compare_holds values) cs) (λ e, ∀ m, e ≠ logic_error m).
Proof.
  apply (owp_foldM _ (λ pre b, b = true ↔ Forall (compare_holds values) pre)); [done|].
  intros pre c suf b _ Hb. eapply owp_mono; [apply evaluate_comparison_ok| |done].
  simpl. intros b' _ ->. rewrite Forall_app, Forall_singleton, Hb. done.
Qed.

Lemma ownerships_ok leases tick b os :
  owp (foldM (evaluate_ownership leases tick) (b, []) os)
    (λ acc, (acc.1 = true ↔ b = true ∧ Forall (λ o, ownership_matches leases tick o = true) os) ∧
            acc.2 = filter (λ o, ownership_matches leases tick o = true) os)
    (λ e, ∀ m, e ≠ logic_error m).
Proof.
  apply (owp_foldM _ (λ pre acc,
    (acc.1 = true ↔ b = true ∧ Forall (λ o, ownership_matches leases tick o = true) pre) ∧
    acc.2 = filter (λ o, ownership_matches leases tick o = true) pre)).
  { simpl. naive_solver. }
  intros pre o suf acc _ [Hb Hf]. unfold evaluate_ownership. repeat ostep; [done|].
  rewrite Forall_app, Forall_singleton, filter_app, <-Hf, filter_cons, filter_nil.
  rewrite andb_true_iff, Hb. split; [tauto|].
  destruct (ownership_matches leases tick o); [done|]. by rewrite app_nil_r.
Qed.

(** When the [success] branch runs. *)
Definition txn_guard (s : Store) (request : TransactionRequest) : Prop :=
  Forall (compare_holds (values_ s)) (tx_comparisons request) ∧
  Forall (λ o, ownership_matches (leases_ s) (tx_lease_tick request) o = true)
    (tx_lease_ownership request).

Definition txn_branch (request : TransactionRequest) (r : TransactionResult)
    : list RequestOperation :=
  if tr_succeeded r then tx_success request else tx_failure request.

(** What a transaction returns and leaves behind. *)
Record txn_post (request : TransactionRequest) (s : Store) (r : TransactionResult)
    (s' : Store) : Prop := {
  tp_guard : tr_succeeded r = true ↔ txn_guard s request;
  tp_valid : ∃ verified, branch_valid (values_ s) verified (txn_branch request r);
  tp_header : tr_header r = header_at (revision_ s');
  tp_values : ∀ k, values_ s' !! k
    = txn_value (revision_ s') (values_ s) (txn_branch request r) k;
  tp_responses : responses_ok (revision_ s') (values_ s) (txn_branch request r) (tr_responses r);
  tp_step : (Exists (effective (values_ s)) (txn_branch request r) ∧
               ∃ es, es ≠ [] ∧ step_ok s (Some es) s')
            ∨ (¬ Exists (effective (values_ s)) (txn_branch request r) ∧ step_ok s None s' ∧
               leases_ s' = leases_ s);
  tp_tick : logical_tick_ s' =
    if is_nil (tx_lease_ownership request) then logical_tick_ s else tx_lease_tick request }.

(** The commit of a transaction, before the logical tick is set. *)
Lemma txn_commit_ok s ops w (eff : bool) rev :
  store_inv s →
  rev = (if eff then revision_ s + 1 else revision_ s) →
  (eff = true → revision_ s < i64_max) →
  (eff = true ↔ Exists (effective (values_ s)) ops) →
  exec_inv rev (values_ s) (leases_ s) ops w →
  let s1 := if eff then commit_mutation s (wk_values w) (wk_leases w) rev (wk_events w)
            else set_data s (wk_values w) (wk_leases w) rev in
  values_ s1 = wk_values w ∧ revision_ s1 = rev ∧ logical_tick_ s1 = logical_tick_ s ∧
  ((Exists (effective (values_ s)) ops ∧ ∃ es, es ≠ [] ∧ step_ok s (Some es) s1)
   ∨ (¬ Exists (effective (values_ s)) ops ∧ step_ok s None s1 ∧ leases_ s1 = leases_ s)).
Proof.
  intros Hinv Hrev Hmax Heff []. rewrite <-Heff in *. destruct eff; subst rev.
  - destruct (commit_mutation_fields s (wk_values w) (wk_leases w) (revision_ s + 1) (wk_events w))
      as (? & _ & ? & _ & ? & _). simpl. split_and!; try done.
    left. split; [by apply Heff|]. exists (wk_events w). split; [auto|].
    apply commit_step; auto. by apply same_meta_sub.
  - simpl. split_and!; try done. right. split; [by rewrite <-Heff|].
    destruct ex_quiet as (Qv & Ql & _); [done|]. rewrite Qv, Ql.
    split; [|done]. by destruct s; apply step_ok_refl.
Qed.

Lemma transaction_ok request s :
  store_inv s → 0 ≤ tx_lease_tick request ≤ u64_max →
  mwp (transaction request) s (txn_post request s) (clean_throw s).
Proof.
  intros Hinv Htick. unfold transaction. apply mwp_bind, mwp_get.
  apply mwp_bind, mwp_lift. eapply owp_mono; [apply comparisons_ok| |done].
  intros b0 _ Hb0. apply mwp_bind, mwp_lift.
  assert (owp (if is_nil (tx_lease_ownership request) then mret tt
               else validate_tick_locked s (tx_lease_tick request))
    (λ _, is_nil (tx_lease_ownership request) = false → logical_tick_ s ≤ tx_lease_tick request)
    (λ e, ∀ m, e ≠ logic_error m)) as Htk.
  { unfold validate_tick_locked. destruct (is_nil _); simpl; [done|].
    apply owp_throw_when; [done|]. intros. lia. }
  eapply owp_mono; [exact Htk| |done]. clear Htk. intros [] _ Htk.
  apply mwp_bind, mwp_lift. eapply owp_mono; [apply ownerships_ok| |done].
  intros [b verified] _ [Hb Hver]. simpl in Hb, Hver. cbn beta iota zeta delta [fst snd].
  set (ops := if b then tx_success request else tx_failure request).
  apply mwp_bind, mwp_lift. eapply owp_mono; [apply validate_branch_ok| |done].
  intros plan _ [_ _ Hvalid Heff]. apply mwp_bind, mwp_lift.
  assert (∀ o, o ∈ verified → is_Some (leases_ s !! lo_id o)) as Hlive.
  { intros o. rewrite Hver, list_elem_of_filter. unfold ownership_matches.
    destruct (leases_ s !! lo_id o); naive_solver. }
  assert (owp (if has_effective_mutation plan then next_revision_locked s else mret (revision_ s))
    (λ rev, (rev = revision_ s + 1 ∧ revision_ s < i64_max ∧ has_effective_mutation plan = true)
            ∨ (rev = revision_ s ∧ has_effective_mutation plan = false))
    (λ e, ∀ m, e ≠ logic_error m)) as Hrev.
  { destruct (has_effective_mutation plan); [|simpl; by right].
    apply next_revision_ok; [done|by left|done]. }
  eapply owp_mono; [exact Hrev| |done]. clear Hrev. intros rev _ Hrev.
  assert (revision_ s ≤ rev) as Hle by (destruct Hrev as [[-> _]|[-> _]]; lia).
  apply mwp_bind, mwp_lift.
  eapply owp_mono; [apply (execute_branch_ok rev _ _ verified)| |done]; try done.
  { by eapply data_ok_mono, Hinv. }
  { rewrite <-Heff. destruct Hinv. destruct Hrev as [[-> _]|[_ ->]]; [lia|done]. }
  intros w _ Hw. apply mwp_bind, mwp_put, mwp_ret.
  destruct (txn_commit_ok s ops w (has_effective_mutation plan) rev)
    as (Hv & Hr & Ht & Hs); try done.
  { destruct Hrev as [(-> & _ & ->)|(-> & ->)]; done. }
  { destruct Hrev as [(_ & ? & _)|(_ & ->)]; done. }
  set (s1 := if has_effective_mutation plan then _ else _) in *.
  assert (∀ oe, step_ok s oe s1 → step_ok s oe
    (if is_nil (tx_lease_ownership request) then s1
     else set_logical_tick s1 (tx_lease_tick request))) as Hstep.
  { intros oe Hok. destruct (is_nil _); [done|]. apply step_ok_tick; [done|]. lia. }
  clearbody s1. destruct Hw.
  split; simpl; unfold txn_branch; simpl; fold ops.
  - rewrite Hb, Hb0. done.
  - by exists verified.
  - by destruct (is_nil _); simpl; rewrite Hr.
  - intros k. replace (values_ _) with (wk_values w) by by destruct (is_nil _).
    replace (revision_ _) with rev by (by destruct (is_nil _)). apply ex_values.
  - replace (revision_ _) with rev by (by destruct (is_nil _)). done.
  - destruct Hs as [(? & es & ? & ?)|(? & ? & ?)]; [left; eauto|right].
    split; [done|]. split; [auto|]. by destruct (is_nil _).
  - by destruct (is_nil _).
Qed.
