(* ===== verification/StoreLease.v ===== *)
(** * Lease operations of the metadata store

    [grant_lease], [keep_alive], [time_to_live], [revoke_lease] and
    [expire_leases]: invariant preservation, what they change, and which keys a
    cleanup removes. *)

From S2P Require Import Prelude OrdMap Bytes StoreTypes Store StoreInv StoreTxn StoreOps.

(** ** Granting and renewing *)

Lemma data_ok_renew rev values leases id l l' :
  data_ok rev values leases → leases !! id = Some l →
  sl_attached_keys l' = sl_attached_keys l →
  data_ok rev values (<[id := l']> leases).
Proof.
  intros [Hv [Hiv Hil] Hz] Hl Hatt. split; [done| |].
  2:{ rewrite lookup_insert_ne; [done|]. intros ->. simplify_eq. }
  split.
  - intros k v Hk H0. destruct (Hiv _ _ Hk H0) as (l1 & Hl1 & Hin).
    destruct (decide (id = kv_lease_id v)) as [->|Hne].
    + rewrite lookup_insert_eq. eexists. split; [done|]. rewrite Hatt. by simplify_eq.
    + rewrite lookup_insert_ne by done. eauto.
  - intros id' l1 k [[<- <-]|[Hne Hl1]]%lookup_insert_Some Hin.
    + apply (Hil id l k Hl). by rewrite <-Hatt.
    + by apply (Hil id' l1).
Qed.

Lemma data_ok_grant rev values leases id l :
  data_ok rev values leases → leases !! id = None → id ≠ 0 → sl_attached_keys l = ∅ →
  data_ok rev values (<[id := l]> leases).
Proof.
  intros [Hv [Hiv Hil] Hz] Hl H0 Hatt. split; [done| |by rewrite lookup_insert_ne].
  split.
  - intros k v Hk Hk0. destruct (Hiv _ _ Hk Hk0) as (l1 & Hl1 & Hin). exists l1.
    split; [|done]. rewrite lookup_insert_ne; [done|]. intros ->. simplify_eq.
  - intros id' l1 k [[<- <-]|[Hne Hl1]]%lookup_insert_Some Hin.
    + rewrite Hatt in Hin. set_solver.
    + by apply (Hil id' l1).
Qed.

(** The identifier a grant uses. *)
Definition grant_id (s : Store) (request : LeaseGrantRequest) : Z :=
  if lg_requested_id request =? 0 then next_lease_id_ s else lg_requested_id request.

Record grant_post (request : LeaseGrantRequest) (s : Store) (r : LeaseGrantResult)
    (s' : Store) : Prop := {
  gp_step : step_ok s None s';
  gp_fresh : leases_ s !! grant_id s request = None;
  gp_leases : leases_ s' = <[grant_id s request :=
    mkStoredLease (next_fencing_token_ s) (lg_ttl request)
      (lg_tick request + lg_ttl request) ∅]> (leases_ s);
  gp_token : next_fencing_token_ s' = next_fencing_token_ s + 1;
  gp_tick : logical_tick_ s' = lg_tick request;
  gp_result : r = mkGrantResult (mkLeaseRecord (grant_id s request) (next_fencing_token_ s)
    (lg_ttl request) (lg_tick request + lg_ttl request) []) (revision_ s) }.

Lemma grant_id_ok s request :
  store_inv s →
  owp (if lg_requested_id request =? 0 then
         throw_when (maximum_lease_id <? next_lease_id_ s) (overflow_error "lease ID exhausted");;
         mret (next_lease_id_ s)
       else
         throw_when ((lg_requested_id request <? 0)
                     || (maximum_lease_id <? lg_requested_id request))
           (invalid_argument "requested lease ID is outside safe range");;
         mret (lg_requested_id request))
    (λ id, id = grant_id s request ∧ 1 ≤ id ≤ maximum_lease_id)
    (λ e, ∀ m, e ≠ logic_error m).
Proof.
  intros []. unfold grant_id, maximum_lease_id in *.
  destruct (Z.eqb_spec (lg_requested_id request) 0);
    apply owp_bind, owp_throw_when; intros ?; [done| |done|]; simpl; (split; [reflexivity|lia]).
Qed.

Lemma grant_state_inv s id token ttl tick :
  store_inv s → leases_ s !! id = None → 1 ≤ id ≤ maximum_lease_id →
  token = next_fencing_token_ s → token ≠ u64_max → 1 ≤ ttl → tick + ttl ≤ u64_max →
  logical_tick_ s ≤ tick → Z.of_nat (size (leases_ s)) < max_active_leases (limits_ s) →
  step_ok s None (set_logical_tick (set_counters
    (set_leases s (<[id := mkStoredLease token ttl (tick + ttl) ∅]> (leases_ s)))
    (if next_lease_id_ s <=? id then id + 1 else next_lease_id_ s) (token + 1)) tick).
Proof.
  intros [] Hid Hrng -> Htok Httl Hexp Htick Hcount.
  set (nid := if _ <=? _ then _ else _).
  assert (next_lease_id_ s ≤ nid ≤ i64_max ∧ id < nid) as Hnid.
  { unfold nid, maximum_lease_id in *. destruct (Z.leb_spec (next_lease_id_ s) id); lia. }
  split; [constructor; simpl; try done; try lia| |done].
  - apply data_ok_grant; try done. lia.
  - apply map_Forall_insert_2; [constructor; simpl; lia|].
    eapply map_Forall_impl; [done|]. intros id' l' []. constructor; lia.
  - rewrite map_size_insert, Hid. lia.
  - split; simpl; try done; [lia|]. split; simpl; [lia|].
    exists id. intros id' l' [[<- <-]|[Hne Hl]]%lookup_insert_Some; simpl;
      [right; lia|left; eauto].
Qed.

Lemma grant_lease_ok request s :
  store_inv s → 0 ≤ lg_ttl request ≤ u64_max → 0 ≤ lg_tick request ≤ u64_max →
  mwp (grant_lease request) s (grant_post request s) (clean_throw s).
Proof.
  intros Hinv Httl Htick. unfold grant_lease, validate_tick_locked.
  apply mwp_bind, mwp_get.
  do 5 (apply mwp_bind, mwp_lift, owp_throw_when; [done|intros ?]).
  apply mwp_bind, mwp_lift. eapply owp_mono; [by apply grant_id_ok| |done].
  intros id _ [Hid Hrng]. apply mwp_bind, mwp_lift, owp_throw_when; [done|intros Hfresh].
  apply bool_decide_eq_false, eq_None_not_Some in Hfresh.
  apply mwp_bind, mwp_put, mwp_ret. rewrite Hid in *. clear Hid.
  split; try done. apply grant_state_inv; try done; lia.
Qed.

Lemma lookup_lease_spec s id tick :
  lookup_lease_locked s id tick =
  match leases_ s !! id with
  | None => mkLookupResult lease_not_found None 0 (revision_ s)
  | Some l =>
      mkLookupResult (if sl_expiry_tick l <=? tick then lease_expired else lease_ok)
        (Some (lease_record_locked id l)) (Z.max 0 (sl_expiry_tick l - tick)) (revision_ s)
  end.
Proof.
  unfold lookup_lease_locked. destruct (leases_ s !! id) as [l|]; [|done].
  destruct (Z.leb_spec (sl_expiry_tick l) tick); f_equal; lia.
Qed.

(** A renewal is accepted exactly for a live lease presented with its token. *)
Definition renewable (s : Store) (request : LeaseKeepAliveRequest) (l : StoredLease) : Prop :=
  leases_ s !! lk_id request = Some l ∧ lk_tick request < sl_expiry_tick l ∧
  sl_fencing_token l = lk_fencing_token request.

Definition renewed (l : StoredLease) (tick : Z) : StoredLease :=
  mkStoredLease (sl_fencing_token l) (sl_granted_ttl l) (tick + sl_granted_ttl l)
    (sl_attached_keys l).

Record keep_alive_post (request : LeaseKeepAliveRequest) (s : Store) (r : LeaseLookupResult)
    (s' : Store) : Prop := {
  kp_step : step_ok s None s';
  kp_tick : logical_tick_ s' = lk_tick request;
  kp_result :
    (∃ l, renewable s request l ∧ ll_code r = lease_ok ∧
      ll_remaining_ttl r = sl_granted_ttl l ∧
      leases_ s' = <[lk_id request := renewed l (lk_tick request)]> (leases_ s))
    ∨ ((¬ ∃ l, renewable s request l) ∧ ll_code r ≠ lease_ok ∧ leases_ s' = leases_ s) }.

(** The requests [keep_alive] throws on. *)
Definition keep_alive_error (request : LeaseKeepAliveRequest) (s : Store) : Prop :=
  lk_tick request < logical_tick_ s ∨ lk_id request ≤ 0 ∨ lk_fencing_token request = 0 ∨
  ∃ l, renewable s request l ∧ u64_max < lk_tick request + sl_granted_ttl l.

Lemma renew_step s id l tick :
  store_inv s → leases_ s !! id = Some l → 0 ≤ tick → tick + sl_granted_ttl l ≤ u64_max →
  step_ok s None (set_leases s (<[id := renewed l tick]> (leases_ s))).
Proof.
  intros [] Hl Hnn Hexp. destruct (inv_leases id l Hl).
  split; [constructor; simpl; try done| |done].
  - by eapply data_ok_renew.
  - apply map_Forall_insert_2; [|done]. constructor; simpl; lia.
  - rewrite map_size_insert, Hl. done.
  - split; simpl; try done; [lia|]. split; simpl; [lia|].
    exists 0. intros id' l' [[<- <-]|[Hne Hl']]%lookup_insert_Some; left; eauto.
Qed.

Lemma keep_alive_ok request s :
  store_inv s → 0 ≤ lk_tick request ≤ u64_max →
  mwp (keep_alive request) s (keep_alive_post request s) (refused (keep_alive_error request s) s).
Proof.
  intros Hinv Htick. unfold keep_alive, validate_tick_locked, keep_alive_error.
  apply mwp_bind, mwp_get. apply mwp_bind, mwp_lift, owp_throw_when; intros ?.
  { split; [done|]. left. lia. }
  apply mwp_bind, mwp_lift, owp_throw_when; intros ?.
  { split; [done|]. lia. }
  rewrite lookup_lease_spec.
  assert (step_ok s None (set_logical_tick s (lk_tick request))) as Htk.
  { apply step_ok_tick; [by apply step_ok_refl|lia]. }
  destruct (leases_ s !! lk_id request) as [l|] eqn:Hl; cbn [ll_code].
  2:{ mgo. split; simpl; try done. right. split; [|done]. intros (l' & Hl' & _). congruence. }
  destruct (Z.leb_spec (sl_expiry_tick l) (lk_tick request)).
  { mgo. split; simpl; try done. right. split; [|done]. intros (l' & Hl' & ? & _).
    assert (l' = l) as -> by congruence. lia. }
  destruct (Z.eqb_spec (sl_fencing_token l) (lk_fencing_token request)); simpl.
  2:{ mgo. split; simpl; try done. right. split; [|done]. intros (l' & Hl' & _ & ?). congruence. }
  mgo; [split; [done|]; right; right; right; exists l; by split_and!; [..|lia]|].
  fold (renewed l (lk_tick request)).
  split; simpl; try done.
  - apply step_ok_tick; [|simpl; lia]. apply renew_step; try done; lia.
  - left. exists l. split_and!; done.
Qed.

Lemma time_to_live_ok request s :
  mwp (time_to_live request) s
    (λ r s', s' = s ∧ r = lookup_lease_locked s (lt_id request) (lt_tick request))
    (clean_throw s).
Proof. unfold time_to_live, validate_tick_locked. mgo; done. Qed.

(** ** Revocation and expiry *)

(** The values attached to one of the leases [ids], in key order. *)
Definition attached_to (values : gmap ByteSequence KeyValue) (ids : list Z) : list KeyValue :=
  (filter (λ e : ByteSequence * KeyValue, kv_lease_id e.2 ∈ ids) (entries values)).*2.

#[export] Instance kv_key_le_trans : Transitive kv_key_le.
Proof. intros x y z. unfold kv_key_le. by trans (kv_key y). Qed.

#[export] Instance kv_key_le_total : Total kv_key_le.
Proof. intros x y. apply (total bytes_le). Qed.

Section collect.
Context (rev : Z) (values : gmap ByteSequence KeyValue) (leases : gmap Z StoredLease).
Context (Hdata : data_ok rev values leases).

Lemma stored_key k v : values !! k = Some v → kv_key v = k.
Proof. intros Hk. apply (vo_key _ _ _ (do_values _ _ _ Hdata _ _ Hk)). Qed.

(** The values collected after the leases [pre] and, of lease [id], the
    attached keys [ks]. *)
Record collected (pre : list Z) (id : Z) (ks : list ByteSequence) (l : list KeyValue) : Prop := {
  co_elem : ∀ v, v ∈ l ↔ values !! kv_key v = Some v ∧
    (kv_lease_id v ∈ pre ∨ (kv_lease_id v = id ∧ kv_key v ∈ ks));
  co_nodup : NoDup (kv_key <$> l) }.

Lemma collect_attached_ok pre id l ks (key : ByteSequence) deleted :
  leases !! id = Some l → id ∉ pre → key ∈ sl_attached_keys l → key ∉ ks →
  collected pre id ks deleted →
  owp (collect_attached values id deleted key) (collected pre id (ks ++ [key])) (λ _, False).
Proof.
  intros Hl Hpre Hin Hks [He Hnd]. unfold collect_attached.
  destruct (data_ok_lease_id _ _ _ _ _ _ Hdata Hl Hin) as (v & Hv & Hid).
  pose proof (stored_key _ _ Hv) as Hkey.
  rewrite Hv, Hid, Z.eqb_refl. simpl. split.
  - intros u. rewrite elem_of_app, list_elem_of_singleton, He, elem_of_app, list_elem_of_singleton.
    split; [intros [?| ->]; [naive_solver|rewrite Hkey; naive_solver]|].
    intros [Hu [?|[Hlu [?|Hk]]]]; [left; auto|left; auto|]. right. congruence.
  - rewrite fmap_app. apply NoDup_app. split; [done|]. split; [|apply NoDup_singleton].
    intros k (u & -> & Hu)%list_elem_of_fmap Hk. apply list_elem_of_singleton in Hk.
    apply He in Hu as [Hu Hor]. rewrite Hk, Hkey, Hv in Hu. simplify_eq.
    destruct Hor as [?|[? ?]]; congruence.
Qed.

Lemma collect_lease_ok pre id deleted :
  is_Some (leases !! id) → id ∉ pre → collected pre 0 [] deleted →
  owp (collect_lease values leases deleted id) (collected (pre ++ [id]) 0 []) (λ _, False).
Proof.
  intros [l Hl] Hpre [He Hnd]. unfold collect_lease. rewrite Hl.
  eapply owp_mono; [apply (owp_foldM _ (collected pre id) (λ _, False))| |done].
  - split; [|done]. intros v. rewrite He. set_solver.
  - intros ks key suf d Hsplit Hd.
    assert (key ∈ set_entries (sl_attached_keys l)) as Hin.
    { rewrite Hsplit. apply elem_of_app. right. by left. }
    eapply collect_attached_ok; [done|done|by apply elem_of_set_entries| |done].
    pose proof (NoDup_set_entries (sl_attached_keys l)) as Hns.
    rewrite Hsplit in Hns. apply NoDup_app in Hns as (_ & Hns & _).
    intros Hk. apply (Hns _ Hk). by left.
  - intros d _ [He' Hnd']. split; [|done]. intros v. rewrite He'.
    rewrite elem_of_app, list_elem_of_singleton, elem_of_set_entries.
    split; [naive_solver|]. intros [Hv [[?|Hid]|[_ []%elem_of_nil]]]; [by auto|].
    split; [done|]. right. split; [done|].
    assert (id ≠ 0) as H0 by (intros ->; rewrite (do_zero _ _ _ Hdata) in Hl; done).
    destruct (ix_value _ _ (do_index _ _ _ Hdata) _ _ Hv) as (l' & Hl' & ?); [congruence|].
    rewrite Hid, Hl in Hl'. by simplify_eq.
Qed.

Lemma elem_of_attached_to ids v :
  v ∈ attached_to values ids ↔ values !! kv_key v = Some v ∧ kv_lease_id v ∈ ids.
Proof.
  unfold attached_to. rewrite list_elem_of_fmap. setoid_rewrite list_elem_of_filter. split.
  - intros ([k u] & -> & Hin & Hk%elem_of_entries). simpl. by rewrite (stored_key _ _ Hk).
  - intros [Hv Hin]. exists (kv_key v, v). by rewrite elem_of_entries.
Qed.

Lemma sorted_values l :
  StronglySorted entry_le l → (∀ k v, (k, v) ∈ l → kv_key v = k) →
  StronglySorted kv_key_le l.*2.
Proof.
  induction 1 as [|[k v] l Hs IH Hall]; intros Hk; simpl; constructor.
  - apply IH. intros k' v' Hin. apply Hk. by right.
  - apply Forall_fmap, Forall_forall. intros [k' v'] Hin. rewrite Forall_forall in Hall.
    unfold compose, kv_key_le. simpl. rewrite (Hk k v), (Hk k' v') by (by left || by right).
    by apply (Hall (k', v')).
Qed.

Lemma keys_attached_to ids :
  kv_key <$> attached_to values ids
  = (filter (λ e : ByteSequence * KeyValue, kv_lease_id e.2 ∈ ids) (entries values)).*1.
Proof.
  unfold attached_to. rewrite <-list_fmap_compose. apply Forall_fmap_ext_1, Forall_forall.
  intros [k v] [_ Hk%elem_of_entries]%list_elem_of_filter. simpl. by apply stored_key.
Qed.

Lemma collect_leases_ok ids :
  NoDup ids → (∀ id, id ∈ ids → is_Some (leases !! id)) →
  owp (foldM (collect_lease values leases) [] ids)
    (λ l, merge_sort kv_key_le l = attached_to values ids) (λ _, False).
Proof.
  intros Hnd Hlive.
  eapply owp_mono; [apply (owp_foldM _ (λ pre, collected pre 0 []) (λ _, False))| |done].
  - split; [|constructor]. intros v. set_solver.
  - intros pre id suf d Hsplit Hd. apply collect_lease_ok; [..|done].
    + apply Hlive. rewrite Hsplit. apply elem_of_app. right. by left.
    + rewrite Hsplit in Hnd. apply NoDup_app in Hnd as (_ & Hnd & _).
      intros Hk. apply (Hnd _ Hk). by left.
  - intros l _ [He Hndl]. apply (StronglySorted_unique_strong kv_key_le).
    + intros u v. rewrite merge_sort_Permutation, He, elem_of_attached_to.
      intros [Hu _] [Hv _] ??. assert (kv_key u = kv_key v) as Heq
        by by apply (anti_symm bytes_le).
      rewrite Heq in Hu. congruence.
    + apply (StronglySorted_merge_sort _).
    + apply sorted_values; [apply StronglySorted_filter, sorted_entries|].
      intros k v [_ Hk%elem_of_entries]%list_elem_of_filter. by apply stored_key.
    + rewrite merge_sort_Permutation. apply NoDup_Permutation.
      * by apply NoDup_fmap_1 with kv_key.
      * apply NoDup_fmap_1 with kv_key. rewrite keys_attached_to.
        eapply sublist_NoDup; [apply (NoDup_entries values)|]. apply fmap_sublist, sublist_filter.
      * intros v. rewrite He, elem_of_attached_to. set_solver.
Qed.
End collect.

Lemma remove_values_lookup rev values leases ids k v :
  data_ok rev values leases →
  foldl (λ m v, delete (kv_key v) m) values (attached_to values ids) !! k = Some v
  ↔ values !! k = Some v ∧ kv_lease_id v ∉ ids.
Proof.
  intros Hd. rewrite lookup_foldl_delete. case_decide as Hin.
  - split; [done|]. intros [Hk Hnin]. apply list_elem_of_fmap in Hin as (u & -> & Hu).
    apply (elem_of_attached_to rev _ _ Hd) in Hu as [Hu ?]. congruence.
  - split; [|naive_solver]. intros Hk. split; [done|]. intros Hl. apply Hin.
    apply list_elem_of_fmap. exists v. pose proof (stored_key _ _ _ Hd _ _ Hk) as Hkey.
    split; [done|]. apply (elem_of_attached_to rev _ _ Hd). by rewrite Hkey.
Qed.

Lemma remove_ids_lookup (leases : gmap Z StoredLease) ids id l :
  foldl (λ m id, delete id m) leases ids !! id = Some l ↔ leases !! id = Some l ∧ id ∉ ids.
Proof.
  rewrite (lookup_foldl_delete (λ x, x)), list_fmap_id. case_decide; naive_solver.
Qed.

(** The keys of [ids] leave the store together with their leases. *)
Lemma remove_leases_data_ok rev values leases ids :
  data_ok rev values leases →
  data_ok rev (foldl (λ m v, delete (kv_key v) m) values (attached_to values ids))
    (foldl (λ m id, delete id m) leases ids).
Proof.
  intros Hd. pose proof Hd as [Hv [Hiv Hil] Hz].
  pose proof (λ k v, remove_values_lookup rev values leases ids k v Hd) as Hval.
  split.
  - intros k v [Hk _]%Hval. by apply Hv.
  - split.
    + intros k v [Hk Hnin]%Hval H0. destruct (Hiv _ _ Hk H0) as (l & Hl & ?).
      exists l. by rewrite remove_ids_lookup.
    + intros id l k [Hl Hnin]%remove_ids_lookup Hin.
      destruct (Hil _ _ _ Hl Hin) as (v & Hk & Hid). exists v. rewrite Hval. by rewrite Hid.
  - destruct (foldl _ leases ids !! 0) eqn:E; [|done].
    apply remove_ids_lookup in E. naive_solver.
Qed.

Record cleanup_post (ids : list Z) (code : LeaseResultCode) (s : Store) (r : LeaseCleanupResult)
    (s' : Store) : Prop := {
  cp_step : step_ok s (if is_nil ids then None
    else Some (erase_event (revision_ s + 1) <$> attached_to (values_ s) ids)) s';
  cp_values : ∀ k v, values_ s' !! k = Some v ↔ values_ s !! k = Some v ∧ kv_lease_id v ∉ ids;
  cp_leases : ∀ id l, leases_ s' !! id = Some l ↔ leases_ s !! id = Some l ∧ id ∉ ids;
  cp_result : r = mkCleanupResult code ids (attached_to (values_ s) ids) (revision_ s') }.

Lemma attached_to_nil values : attached_to values [] = [].
Proof.
  unfold attached_to. rewrite filter_none; [done|].
  apply Forall_forall. set_solver.
Qed.

Lemma remove_leases_ok ids code s :
  store_inv s → NoDup ids → (∀ id, id ∈ ids → is_Some (leases_ s !! id)) →
  mwp (remove_leases_locked ids code) s
    (λ r s', cleanup_post ids code s r s' ∧ logical_tick_ s' = logical_tick_ s)
    (refused (ids ≠ [] ∧ revision_ s = i64_max) s).
Proof.
  intros Hinv Hnd Hlive. unfold remove_leases_locked. apply mwp_bind, mwp_get.
  apply mwp_bind, mwp_lift.
  eapply owp_mono; [by eapply collect_leases_ok; [apply Hinv|..]| |done].
  intros col _ ->. apply mwp_bind, mwp_lift.
  pose proof (inv_data _ Hinv) as Hd.
  assert (∀ s', step_ok s (if is_nil ids then None
    else Some (erase_event (revision_ s + 1) <$> attached_to (values_ s) ids)) s' →
    values_ s' = foldl (λ m v, delete (kv_key v) m) (values_ s) (attached_to (values_ s) ids) →
    leases_ s' = foldl (λ m id, delete id m) (leases_ s) ids →
    cleanup_post ids code s (mkCleanupResult code ids (attached_to (values_ s) ids) (revision_ s')) s')
    as Hpost.
  { intros s' Hs Hv Hl. split; try done.
    - intros k v. rewrite Hv. by eapply remove_values_lookup.
    - intros id l. rewrite Hl. apply remove_ids_lookup. }
  destruct ids as [|id ids].
  - simpl. mgo. split; [|done]. rewrite attached_to_nil in *.
    replace (set_data s _ _ _) with s by by destruct s.
    apply (Hpost s); try done. by apply step_ok_refl.
  - change (is_nil (id :: ids)) with false in *. cbn iota in *.
    apply next_revision_ok; [done|intros Hmax|by intros ?]. apply mwp_bind, mwp_put, mwp_ret.
    set (ids' := id :: ids) in *. set (es := erase_event _ <$> _) in *.
    match goal with |- context [commit_mutation s ?v ?l ?r es] =>
      destruct (commit_mutation_fields s v l r es) as (Ev & El & Er & _ & Et & _) end.
    split; [|done]. rewrite <-Er at 1. apply Hpost; try done.
    apply commit_step; try done.
    + apply remove_leases_data_ok. eapply data_ok_mono; [|done]. lia.
    + intros id0 l'. rewrite remove_ids_lookup. naive_solver.
    + apply Forall_forall. by intros ev (v & -> & _)%list_elem_of_fmap.
    + by unfold es; rewrite apply_events_erase.
Qed.

Lemma cleanup_post_tick ids code s r s' t :
  cleanup_post ids code s r s' → logical_tick_ s' ≤ t ≤ u64_max →
  cleanup_post ids code s r (set_logical_tick s' t).
Proof. intros [] Ht. split; try done. by apply step_ok_tick. Qed.

Lemma revoke_lease_ok request s :
  store_inv s → 0 ≤ lv_tick request ≤ u64_max →
  mwp (revoke_lease request) s
    (λ r s', logical_tick_ s' = lv_tick request ∧
       match leases_ s !! lv_id request with
       | None => lc_code r = lease_not_found ∧ step_ok s None s' ∧ leases_ s' = leases_ s
       | Some l =>
           if decide (sl_fencing_token l = lv_fencing_token request)
           then cleanup_post [lv_id request] lease_ok s r s'
           else lc_code r = lease_fencing_token_mismatch ∧ step_ok s None s' ∧
                leases_ s' = leases_ s
       end)
    (clean_throw s).
Proof.
  intros Hinv Htick. unfold revoke_lease, validate_tick_locked.
  apply mwp_bind, mwp_get. do 2 (apply mwp_bind, mwp_lift, owp_throw_when; [done|intros ?]).
  assert (step_ok s None (set_logical_tick s (lv_tick request))) as Htk.
  { apply step_ok_tick; [by apply step_ok_refl|lia]. }
  destruct (leases_ s !! lv_id request) as [l|] eqn:Hl; [|by mgo].
  destruct (decide (sl_fencing_token l = lv_fencing_token request)) as [Heq|Heq];
    [rewrite (proj2 (Z.eqb_eq _ _) Heq)|rewrite (proj2 (Z.eqb_neq _ _) Heq)]; simpl.
  - apply mwp_bind.
    eapply mwp_mono; [eapply mwp_refused, remove_leases_ok| |done]; try done.
    + apply NoDup_singleton.
    + intros id ->%list_elem_of_singleton. eauto.
    + intros r s' [Hc Ht]. mgo. split; [done|]. apply cleanup_post_tick; [done|lia].
  - by mgo.
Qed.

Lemma expired_leases_spec (leases : gmap Z StoredLease) tick id :
  id ∈ expired_leases leases tick ↔ ∃ l, leases !! id = Some l ∧ sl_expiry_tick l ≤ tick.
Proof.
  unfold expired_leases. rewrite list_elem_of_fmap. setoid_rewrite list_elem_of_filter. split.
  - intros ([id' l] & -> & Hle & Hin%elem_of_entries). eauto.
  - intros (l & Hl & Hle). exists (id, l). by rewrite elem_of_entries.
Qed.

Lemma expire_leases_ok tick s :
  store_inv s → 0 ≤ tick ≤ u64_max →
  mwp (expire_leases tick) s
    (λ r s', logical_tick_ s' = tick ∧
       cleanup_post (expired_leases (leases_ s) tick) lease_ok s r s')
    (refused (tick < logical_tick_ s ∨
      expired_leases (leases_ s) tick ≠ [] ∧ revision_ s = i64_max) s).
Proof.
  intros Hinv Htick. unfold expire_leases, validate_tick_locked.
  apply mwp_bind, mwp_get. apply mwp_bind, mwp_lift, owp_throw_when; intros ?.
  { split; [done|]. left. lia. }
  apply mwp_bind. eapply mwp_mono; [apply remove_leases_ok| |]; try done.
  - eapply sublist_NoDup; [apply (NoDup_entries (leases_ s))|].
    apply fmap_sublist, sublist_filter.
  - intros id (l & ? & _)%expired_leases_spec. eauto.
  - intros r s' [Hc Ht]. mgo. split; [done|]. apply cleanup_post_tick; [done|lia].
  - intros e s' [Hc Hcause]. split; [done|]. by right.
Qed.
