(* ===== verification/StoreWatch.v ===== *)
(** * Watches of the metadata store

    [create_watch], [poll_watch], [request_watch_progress] and [cancel_watch]:
    invariant preservation, and what a replay queues. *)

From S2P Require Import Prelude OrdMap Bytes StoreTypes Store StoreInv StoreTxn StoreOps.

(** ** Responses of a watch *)

(** The response for one batch, or none when the batch has nothing for the
    watch and progress notifications are off. *)
Definition batch_response (q : WatchRequest) (b : EventBatch) : option WatchResponse :=
  let matching := matching_events q (eb_events b) in
  if is_nil matching && negb (wq_progress_notifications q) then None
  else Some (watch_response_at (eb_revision b) (wq_id q) matching).

Definition replayed (q : WatchRequest) (history : list EventBatch) : list WatchResponse :=
  omap (λ b, if eb_revision b <? wq_start_revision q then None else batch_response q b) history.

Lemma replayed_app q h1 h2 : replayed q (h1 ++ h2) = replayed q h1 ++ replayed q h2.
Proof. apply omap_app. Qed.

Lemma replay_ok limits q history :
  limits_ok limits →
  owp (foldM (replay_batch limits q) [] history)
    (λ p, p = replayed q history ∧
          Z.of_nat (length p) ≤ max_watch_pending_responses limits)
    (λ e, ∀ m, e ≠ logic_error m).
Proof.
  intros []. apply (owp_foldM _ (λ pre p, p = replayed q pre ∧
    Z.of_nat (length p) ≤ max_watch_pending_responses limits)); [done|].
  intros pre b suf p _ [Hp Hlen]. rewrite replayed_app, <-Hp.
  unfold replay_batch, replayed, batch_response. cbn [omap list_omap].
  destruct (eb_revision b <? wq_start_revision q); [by rewrite app_nil_r|].
  destruct (is_nil _ && _); [by rewrite app_nil_r|].
  ostep. ostep; [done|]. simpl. split; [done|]. rewrite length_app. simpl. lia.
Qed.

Lemma seqZ_sorted m n : StronglySorted Z.lt (seqZ m n).
Proof.
  remember (Z.to_nat n) as k eqn:Hk. revert m n Hk.
  induction k as [|k IH]; intros m n Hk.
  - rewrite seqZ_nil by lia. constructor.
  - rewrite seqZ_cons by lia. constructor; [apply IH; lia|].
    apply Forall_forall. intros x Hx%elem_of_seqZ. lia.
Qed.

Lemma StronglySorted_fmap_1 {A B} (R : relation B) (f : A → B) l :
  StronglySorted R (f <$> l) → StronglySorted (λ x y, R (f x) (f y)) l.
Proof.
  induction l as [|x l IH]; intros Hs; [constructor|]. rewrite fmap_cons in Hs.
  apply StronglySorted_inv in Hs as [Hs Hall]. constructor; [auto|].
  exact (proj1 (Forall_fmap f (R (f x)) l) Hall).
Qed.

Lemma replayed_sorted q history :
  StronglySorted (λ x y, eb_revision x < eb_revision y) history →
  StronglySorted response_lt (replayed q history).
Proof.
  induction 1 as [|b l Hs IH Hall]; [constructor|]. unfold replayed, batch_response.
  cbn [omap list_omap]. destruct (eb_revision b <? _); [done|].
  destruct (is_nil _ && _); [done|]. constructor; [done|].
  apply Forall_forall. intros r (b' & Hb' & Heq)%list_elem_of_omap.
  rewrite Forall_forall in Hall. specialize (Hall _ Hb').
  unfold batch_response in Heq.
  destruct (eb_revision b' <? _); [done|]. destruct (is_nil _ && _); [done|].
  simplify_eq. unfold response_lt. simpl. lia.
Qed.

Lemma replayed_revision q history r :
  r ∈ replayed q history →
  ∃ b, b ∈ history ∧ wq_start_revision q ≤ eb_revision b ∧
       r = watch_response_at (eb_revision b) (wq_id q) (matching_events q (eb_events b)).
Proof.
  intros (b & Hb & Heq)%list_elem_of_omap. unfold batch_response in Heq.
  destruct (Z.ltb_spec (eb_revision b) (wq_start_revision q)); [done|].
  destruct (is_nil _ && _); [done|]. simplify_eq. eauto.
Qed.

(** ** Operations *)

(** The revision from which a watch is served. *)
Definition watch_start (s : Store) (q : WatchRequest) : Z :=
  if wq_start_revision q =? 0 then revision_ s + 1 else wq_start_revision q.

Definition watch_request (s : Store) (q : WatchRequest) : WatchRequest :=
  with_start_revision q (watch_start s q).

Record create_post (q : WatchRequest) (s : Store) (r : WatchResponse) (s' : Store) : Prop := {
  cw_inv : store_inv s';
  cw_fresh : watchers_ s !! wq_id q = None;
  cw_start : compact_revision_ s < watch_start s q ≤ revision_ s + 1;
  cw_state : s' = set_watchers s (<[wq_id q := mkWatchState (watch_request s q)
    (replayed (watch_request s q) (history_ s)) None]> (watchers_ s));
  cw_result : r = watch_response_at (revision_ s) (wq_id q) [] }.

Lemma set_watchers_inv s watchers :
  store_inv s →
  map_Forall (watcher_ok (max_watch_pending_responses (limits_ s)) (revision_ s)) watchers →
  Z.of_nat (size watchers) ≤ max_watchers (limits_ s) →
  store_inv (set_watchers s watchers).
Proof. intros [] ??. by constructor. Qed.

Lemma set_watchers_effect s watchers : effect s None (set_watchers s watchers).
Proof. split; simpl; try done; [lia|]. exact (lease_step_refl s). Qed.

Lemma new_watcher_ok s q :
  store_inv s → 1 ≤ wq_id q → compact_revision_ s < watch_start s q ≤ revision_ s + 1 →
  Z.of_nat (length (replayed (watch_request s q) (history_ s)))
    ≤ max_watch_pending_responses (limits_ s) →
  watcher_ok (max_watch_pending_responses (limits_ s)) (revision_ s) (wq_id q)
    (mkWatchState (watch_request s q) (replayed (watch_request s q) (history_ s)) None).
Proof.
  intros [? ? ? ? ? ? ? [Hrev ? ?] ? ?] Hid Hstart Hlen. constructor; simpl; try done.
  - destruct inv_revision. lia.
  - apply replayed_sorted, StronglySorted_fmap_1. rewrite Hrev. apply seqZ_sorted.
  - apply Forall_forall. intros r (b & Hb & _ & ->)%replayed_revision. simpl.
    assert (eb_revision b ∈ seqZ (compact_revision_ s + 1) (revision_ s - compact_revision_ s))
      as Hin%elem_of_seqZ; [|lia]. rewrite <-Hrev. by apply list_elem_of_fmap_2.
Qed.

Lemma watch_start_ok s q :
  store_inv s → 0 ≤ wq_start_revision q →
  owp (if wq_start_revision q =? 0 then
         throw_when (revision_ s =? i64_max)
           (store_error sc_future_revision "no revision exists after the current revision" 0);;
         mret (revision_ s + 1)
       else mret (wq_start_revision q))
    (λ r, r = watch_start s q) (λ e, ∀ m, e ≠ logic_error m).
Proof. intros Hinv H0. unfold watch_start. repeat ostep; done. Qed.

Lemma create_watch_ok q s :
  store_inv s → mwp (create_watch q) s (create_post q s) (clean_throw s).
Proof.
  intros Hinv. unfold create_watch. apply mwp_bind, mwp_get.
  do 6 (apply mwp_bind, mwp_lift, owp_throw_when; [done|intros ?]).
  rename select (bool_decide _ = false) into Hfresh.
  apply bool_decide_eq_false, eq_None_not_Some in Hfresh.
  apply mwp_bind, mwp_lift. eapply owp_mono; [apply watch_start_ok; [done|lia]| |done].
  intros ? _ ->. do 2 (apply mwp_bind, mwp_lift, owp_throw_when; [done|intros ?]).
  apply mwp_bind, mwp_lift. eapply owp_mono; [apply replay_ok, Hinv| |done].
  intros p _ [-> Hlen]. apply mwp_bind, mwp_put, mwp_ret.
  assert (compact_revision_ s < watch_start s q ≤ revision_ s + 1) as Hstart.
  { pose proof (inv_revision _ Hinv). lia. }
  split; try done. apply set_watchers_inv; [done|..].
  - apply map_Forall_insert_2; [|apply Hinv]. apply new_watcher_ok; [done|lia|done|done].
  - rewrite map_size_insert, Hfresh. lia.
Qed.

(** The next response a watch hands out, and the watch that is left. *)
Definition poll_result (w : WatchState) : option WatchResponse * option WatchState :=
  match ws_terminal w, ws_pending w with
  | Some response, _ => (Some response, None)
  | None, [] => (None, Some w)
  | None, response :: rest => (Some response, Some (mkWatchState (ws_request w) rest None))
  end.

Record poll_post (id : Z) (s : Store) (r : option WatchResponse) (s' : Store) : Prop := {
  po_inv : store_inv s';
  po_effect : effect s None s';
  po_others : ∀ id', id' ≠ id → watchers_ s' !! id' = watchers_ s !! id';
  po_result : ∃ w, watchers_ s !! id = Some w ∧ (r, watchers_ s' !! id) = poll_result w }.

Lemma set_watcher_step s id w :
  store_inv s → watcher_ok (max_watch_pending_responses (limits_ s)) (revision_ s) id w →
  is_Some (watchers_ s !! id) →
  store_inv (set_watchers s (<[id := w]> (watchers_ s))).
Proof.
  intros Hinv Hw [w0 Hw0]. apply set_watchers_inv; [done|..].
  - apply map_Forall_insert_2; [done|apply Hinv].
  - rewrite map_size_insert, Hw0. apply Hinv.
Qed.

Lemma delete_watcher_step s id :
  store_inv s → store_inv (set_watchers s (delete id (watchers_ s))).
Proof.
  intros Hinv. apply set_watchers_inv; [done|..].
  - intros id' w [_ Hw]%lookup_delete_Some. by apply Hinv.
  - pose proof (inv_watcher_count _ Hinv).
    rewrite map_size_delete. destruct (watchers_ s !! id); simpl; lia.
Qed.

Lemma poll_watch_ok id s :
  store_inv s → mwp (poll_watch id) s (poll_post id s) (clean_throw s).
Proof.
  intros Hinv. unfold poll_watch. apply mwp_bind, mwp_get.
  destruct (watchers_ s !! id) as [w|] eqn:Hw; [|done].
  pose proof (inv_watchers _ Hinv _ _ Hw) as [].
  destruct (ws_terminal w) as [t|] eqn:Ht.
  - mgo. split; [by apply delete_watcher_step|apply set_watchers_effect|..]; simpl.
    + intros id' Hne. by rewrite lookup_delete_ne.
    + exists w. split; [done|]. unfold poll_result. by rewrite Ht, lookup_delete_eq.
  - destruct (ws_pending w) as [|p rest] eqn:Hp.
    + apply mwp_ret. split; try done; [by apply step_ok_refl|].
      exists w. split; [done|]. unfold poll_result. by rewrite Ht, Hp, Hw.
    + mgo. apply StronglySorted_inv in wo_sorted as [??].
      apply Forall_cons in wo_bound as [??]. simpl in wo_length.
      split; [apply set_watcher_step|apply set_watchers_effect|..]; simpl; try done.
      * constructor; simpl; try done. lia.
      * intros id' Hne. by rewrite lookup_insert_ne.
      * exists w. split; [done|]. unfold poll_result. by rewrite Ht, Hp, lookup_insert_eq.
Qed.

(** A progress request queues an empty response, or ends the watch when its
    queue is full. *)
Definition progressed (limits : StoreLimits) (rev id : Z) (w : WatchState) : WatchState :=
  match ws_terminal w with
  | Some _ => w
  | None =>
      if max_watch_pending_responses limits <=? Z.of_nat (length (ws_pending w)) then
        mkWatchState (ws_request w) []
          (Some (mkWatchResponse (header_at rev) id [] 0 sc_quota_exceeded true))
      else mkWatchState (ws_request w) (ws_pending w ++ [watch_response_at rev id []]) None
  end.

Record progress_post (id : Z) (s : Store) (s' : Store) : Prop := {
  pp_inv : store_inv s';
  pp_effect : effect s None s';
  pp_watchers : ∃ w, watchers_ s !! id = Some w ∧
    watchers_ s' = <[id := progressed (limits_ s) (revision_ s) id w]> (watchers_ s) }.

Lemma request_watch_progress_ok id s :
  store_inv s →
  mwp (request_watch_progress id) s (λ _, progress_post id s) (clean_throw s).
Proof.
  intros Hinv. unfold request_watch_progress. apply mwp_bind, mwp_get.
  destruct (watchers_ s !! id) as [w|] eqn:Hw; [|done].
  pose proof (inv_watchers _ Hinv _ _ Hw) as []. pose proof (inv_limits _ Hinv) as [].
  destruct (ws_terminal w) as [t|] eqn:Ht.
  - apply mwp_ret. split; [done|by apply step_ok_refl|]. exists w.
    unfold progressed. rewrite Ht. by rewrite insert_id.
  - mgo; (split; [apply set_watcher_step; [done| |done]|apply set_watchers_effect|
      exists w; unfold progressed; rewrite Ht; split; [done|]]).
    + constructor; simpl; try done; try lia; constructor.
    + rename select ((_ <=? _) = true) into Hle. by rewrite Hle.
    + rename select ((_ <=? _) = false) into Hle. constructor; simpl; try done.
      * rewrite length_app. simpl. lia.
      * apply StronglySorted_snoc; [done|]. by eapply Forall_impl.
      * apply Forall_app. split; [done|]. by repeat constructor.
    + rename select ((_ <=? _) = false) into Hle. by rewrite Hle.
Qed.

Lemma cancel_watch_ok id s :
  store_inv s →
  mwp (cancel_watch id) s
    (λ _ s', store_inv s' ∧ effect s None s' ∧ watchers_ s' = delete id (watchers_ s))
    (clean_throw s).
Proof.
  intros Hinv. unfold cancel_watch. mgo; [|done].
  split; [by apply delete_watcher_step|]. split; [apply set_watchers_effect|done].
Qed.
