(* ===== verification/StoreSnapshot.v ===== *)
(** * Constructors and the canonical snapshot

    The three constructors of [InMemoryMetadataStore] establish the invariant
    for every input they accept, and restoring a snapshot taken from a
    well-formed store gives back its data. *)

From S2P Require Import Prelude OrdMap Bytes StoreTypes Store StoreInv.

(** ** Empty stores *)

Lemma empty_at_inv revision limits :
  0 ≤ revision ≤ i64_max → limits_ok limits → store_inv (empty_at revision limits).
Proof.
  intros Hr Hl. pose proof Hl as []. constructor; simpl; try done; try lia.
  - split; simpl; [|constructor|lia]. rewrite Z.sub_diag, seqZ_nil; done.
Qed.

Lemma new_store_ok revision limits :
  revision ≤ i64_max → limits_ok limits →
  owp (new_store revision limits) (λ s, store_inv s ∧ s = empty_at revision limits)
    (λ _, revision < 0).
Proof.
  intros Hr Hl. unfold new_store. repeat ostep; [lia|]. split; [|done].
  apply empty_at_inv; [lia|done].
Qed.

(** ** Values checked by a constructor *)

(** Field widths of a key-value that reached the constructor. *)
Definition kv_fits (v : KeyValue) : Prop := kv_version v ≤ i64_max.

Record values_built (rev : Z) (pre : list KeyValue) (m : gmap ByteSequence KeyValue) : Prop := {
  vb_ok : map_Forall (value_ok rev) m;
  vb_elem : ∀ k v, m !! k = Some v ↔ v ∈ pre ∧ kv_key v = k }.

Lemma values_built_snoc rev pre m v :
  values_built rev pre m → value_ok rev (kv_key v) v → m !! kv_key v = None →
  values_built rev (pre ++ [v]) (<[kv_key v := v]> m).
Proof.
  intros [Hok He] Hv Hnone. split; [by apply map_Forall_insert_2|].
  intros k u. rewrite lookup_insert_Some, elem_of_app, list_elem_of_singleton, He.
  split; [naive_solver|]. intros [[Hu| ->] <-]; [|by left].
  destruct (decide (kv_key v = kv_key u)) as [Heq|]; [|naive_solver].
  assert (m !! kv_key u = Some u) as Hm by by apply He. congruence.
Qed.

Lemma insert_initial_value_ok rev pre m v :
  kv_fits v → values_built rev pre m → map_Forall (λ _ u, kv_lease_id u = 0) m →
  owp (insert_initial_value rev m v)
    (λ m', values_built rev (pre ++ [v]) m' ∧ map_Forall (λ _ u, kv_lease_id u = 0) m')
    (λ _, True).
Proof.
  intros Hfit Hm Hl. unfold insert_initial_value, validate_key. repeat ostep; try done.
  rename select (bool_decide _ = false) into Hnew.
  apply bool_decide_eq_false, eq_None_not_Some in Hnew. unfold kv_fits in Hfit.
  split; [apply values_built_snoc; try done|].
  - constructor; try done; try lia. by destruct (kv_key v).
  - apply map_Forall_insert_2; [lia|done].
Qed.

Lemma new_store_with_values_ok values revision limits :
  revision ≤ i64_max → limits_ok limits → Forall kv_fits values →
  owp (new_store_with_values values revision limits)
    (λ s, store_inv s ∧ revision_ s = revision ∧
          ∀ k v, values_ s !! k = Some v ↔ v ∈ values ∧ kv_key v = k)
    (λ _, True).
Proof.
  intros Hr Hlim Hfit. unfold new_store_with_values. ostep. ostep; [done|].
  ostep. eapply owp_mono; [apply (owp_foldM _ (λ pre m, values_built revision pre m ∧
    map_Forall (λ _ u, kv_lease_id u = 0) m) (λ _, True))| |done].
  - split; [|apply map_Forall_empty]. split; [apply map_Forall_empty|].
    intros k v. rewrite lookup_empty. set_solver.
  - intros pre v suf m Hsplit [Hm Hl]. apply insert_initial_value_ok; [|done..].
    rewrite Hsplit in Hfit. by apply Forall_app in Hfit as [_ [? _]%Forall_cons].
  - intros m _ [[Hok He] Hl]. simpl. split; [|done].
    pose proof (empty_at_inv revision limits) as []; [lia|done|].
    constructor; simpl in *; try done. split; [done| |done]. split.
    + intros k v Hk H0. by apply (Hl k v) in Hk.
    + intros. by simplify_map_eq.
Qed.

(** ** Accepted snapshots *)

(** Field widths of a snapshot. *)
Record snapshot_fits (snap : InMemoryStoreSnapshot) : Prop := {
  sf_revision : ss_revision snap ≤ i64_max;
  sf_tick : 0 ≤ ss_logical_tick snap ≤ u64_max;
  sf_next_id : ss_next_lease_id snap ≤ i64_max;
  sf_next_token : 0 ≤ ss_next_fencing_token snap ≤ u64_max;
  sf_values : Forall kv_fits (ss_values snap);
  sf_leases : Forall (λ l, 0 ≤ lr_fencing_token l ∧ 0 ≤ lr_granted_ttl l ∧
    0 ≤ lr_expiry_tick l ≤ u64_max) (ss_leases snap) }.

(** What the loop over the snapshot's leases establishes of one lease. *)
Record lease_read (id : Z) (l : StoredLease) : Prop := {
  le_id : 1 ≤ id ≤ maximum_lease_id;
  le_token : 1 ≤ sl_fencing_token l;
  le_ttl : 1 ≤ sl_granted_ttl l;
  le_expiry : 0 ≤ sl_expiry_tick l ≤ u64_max }.

Lemma insert_snapshot_lease_ok m lease :
  0 ≤ lr_fencing_token lease → 0 ≤ lr_granted_ttl lease → 0 ≤ lr_expiry_tick lease ≤ u64_max →
  map_Forall lease_read m →
  owp (insert_snapshot_lease m lease)
    (λ m', map_Forall lease_read m' ∧ size m' = S (size m)) (λ _, True).
Proof.
  intros Ht Hg He Hm. unfold insert_snapshot_lease. ostep. ostep; [done|]. ostep.
  eapply owp_mono; [by apply (owp_foldM _ (λ _ _, True) (λ _, True)); [|intros; destruct (insert_snapshot_attachment _ _)]| |done].
  intros attached _ _. ostep. ostep; [done|]. simpl.
  rename select (bool_decide _ = false) into Hnew.
  apply bool_decide_eq_false, eq_None_not_Some in Hnew. split.
  - apply map_Forall_insert_2; [|done]. constructor; simpl; lia.
  - by rewrite map_size_insert, Hnew.
Qed.

Lemma insert_snapshot_value_ok rev leases pre m v :
  kv_fits v → values_built rev pre m →
  owp (insert_snapshot_value rev leases m v)
    (λ m', values_built rev (pre ++ [v]) m' ∧
       (kv_lease_id v ≠ 0 → ∃ l, leases !! kv_lease_id v = Some l ∧ kv_key v ∈ sl_attached_keys l))
    (λ _, True).
Proof.
  intros Hfit Hm. unfold insert_snapshot_value, validate_key.
  do 4 (apply owp_bind, owp_throw_when; [done|intros ?]). simpl.
  rename select (bool_decide _ = false) into Hnew.
  apply bool_decide_eq_false, eq_None_not_Some in Hnew. unfold kv_fits in Hfit.
  split; [apply values_built_snoc; try done|].
  - constructor; try done; try lia. by destruct (kv_key v).
  - rename select (negb _ && _ = false) into Hatt. intros Hlid.
    apply Z.eqb_neq in Hlid. rewrite Hlid in Hatt. simpl in Hatt.
    destruct (leases !! kv_lease_id v) as [l|]; [|done]. exists l. split; [done|].
    apply bool_decide_eq_false in Hatt. by apply dec_stable.
Qed.

Lemma check_snapshot_lease_ok values nid ntok id l :
  owp (check_snapshot_lease values nid ntok tt (id, l))
    (λ _, id < nid ∧ sl_fencing_token l < ntok ∧
       ∀ k, k ∈ sl_attached_keys l → ∃ v, values !! k = Some v ∧ kv_lease_id v = id)
    (λ _, True).
Proof.
  unfold check_snapshot_lease. ostep. ostep; [done|].
  rename select (_ || _ = false) into Hcnt. simpl in *.
  eapply owp_mono; [apply (owp_foldM _ (λ pre _, ∀ k, k ∈ pre →
    ∃ v, values !! k = Some v ∧ kv_lease_id v = id) (λ _, True))| |done].
  - set_solver.
  - intros pre k suf [] _ Hpre. apply owp_throw_when; [done|].
    intros Hk k' [?| ->%list_elem_of_singleton]%elem_of_app; [by apply Hpre|].
    destruct (values !! k) as [v|]; [|done]. exists v. split; [done|].
    apply negb_false_iff in Hk. lia.
  - intros [] _ Hall. split; [lia|]. split; [lia|]. intros k Hk.
    by apply Hall, elem_of_set_entries.
Qed.

(** Every snapshot the constructor accepts gives a well-formed store. *)
Lemma new_store_from_snapshot_ok snap limits :
  limits_ok limits → snapshot_fits snap →
  owp (new_store_from_snapshot snap limits) store_inv (λ _, True).
Proof.
  intros Hlim []. unfold new_store_from_snapshot.
  do 2 (apply owp_bind, owp_throw_when; [done|intros ?]).
  ostep. eapply owp_mono; [apply (owp_foldM _ (λ pre m, map_Forall lease_read m ∧
    size m = length pre) (λ _, True))| |done].
  { split; [apply map_Forall_empty|apply map_size_empty]. }
  { intros pre l suf m Hsplit [Hm Hsz]. rewrite Hsplit in sf_leases0.
    apply Forall_app in sf_leases0 as [_ [(? & ? & ?) _]%Forall_cons].
    eapply owp_mono; [by apply insert_snapshot_lease_ok| |done]. simpl.
    intros m' _ [? ->]. split; [done|]. rewrite length_app, Hsz. simpl. lia. }
  intros leases _ [Hleases Hsize]. ostep.
  eapply owp_mono; [apply (owp_foldM _ (λ pre m, values_built (ss_revision snap) pre m ∧
    ∀ v, v ∈ pre → kv_lease_id v ≠ 0 →
      ∃ l, leases !! kv_lease_id v = Some l ∧ kv_key v ∈ sl_attached_keys l) (λ _, True))| |done].
  { split; [|set_solver]. split; [apply map_Forall_empty|].
    intros k v. rewrite lookup_empty. set_solver. }
  { intros pre v suf m Hsplit [Hm Hix]. rewrite Hsplit in sf_values0.
    apply Forall_app in sf_values0 as [_ [? _]%Forall_cons].
    eapply owp_mono; [by apply insert_snapshot_value_ok| |done]. simpl.
    intros m' _ [? Hv]. split; [done|].
    intros u [?| ->%list_elem_of_singleton]%elem_of_app; auto. }
  intros values _ [[Hvok Hvel] Hix]. ostep.
  eapply owp_mono; [apply (owp_foldM _ (λ pre _, ∀ id l, (id, l) ∈ pre →
    id < ss_next_lease_id snap ∧ sl_fencing_token l < ss_next_fencing_token snap ∧
    ∀ k, k ∈ sl_attached_keys l → ∃ v, values !! k = Some v ∧ kv_lease_id v = id) (λ _, True))| |done].
  { set_solver. }
  { intros pre [id l] suf [] _ Hpre. eapply owp_mono; [apply check_snapshot_lease_ok| |done].
    intros [] _ Hc id' l' [?|[= -> ->]%list_elem_of_singleton]%elem_of_app; auto. }
  intros [] _ Hchk. simpl.
  assert (∀ id l, leases !! id = Some l → id < ss_next_lease_id snap ∧
    sl_fencing_token l < ss_next_fencing_token snap ∧
    ∀ k, k ∈ sl_attached_keys l → ∃ v, values !! k = Some v ∧ kv_lease_id v = id) as Hchk'.
  { intros id l Hl. by apply Hchk, elem_of_entries. }
  pose proof Hlim as []. constructor; simpl; try done; try lia.
  - split; [done| |].
    + split; [|intros id l k Hl; by apply (Hchk' id l Hl)].
      intros k v Hk. destruct (proj1 (Hvel k v) Hk) as [Hin <-]. by apply Hix.
    + apply eq_None_not_Some. intros [l Hl]. destruct (Hleases _ _ Hl). lia.
  - intros id l Hl. destruct (Hleases _ _ Hl), (Hchk' _ _ Hl) as (? & ? & _).
    constructor; lia.
  - split; simpl; [|constructor|lia]. by rewrite Z.sub_diag, seqZ_nil.
Qed.

(** ** Round trip *)

(** What a snapshot keeps of a store: everything but watches and history. *)
Definition restored (s : Store) (limits : StoreLimits) : Store :=
  mkStore (values_ s) limits (revision_ s) (revision_ s) [] ∅ (leases_ s)
    (logical_tick_ s) (next_lease_id_ s) (next_fencing_token_ s).

Lemma throw_when_false b e : b = false → throw_when b e = Ret tt.
Proof. by intros ->. Qed.

(** A loop of insertions that never fails builds the map of its list. *)
Lemma foldM_insert {K V X} `{Countable K} (f : gmap K V → X → outcome (gmap K V))
    (key : X → K) (val : X → V) l :
  (∀ pre x suf m, l = pre ++ x :: suf → m !! key x = None →
     f m x = Ret (<[key x := val x]> m)) →
  NoDup (key <$> l) →
  foldM f ∅ l = Ret (list_to_map ((λ x, (key x, val x)) <$> l)).
Proof.
  intros Hf Hnd.
  assert (owp (foldM f ∅ l) (λ m, m = list_to_map ((λ x, (key x, val x)) <$> l)) (λ _, False))
    as Hwp; [|destruct (foldM f ∅ l); simpl in Hwp; [by subst|done]].
  apply (owp_foldM f (λ pre m, m = list_to_map ((λ x, (key x, val x)) <$> pre))); [done|].
  intros pre x suf m Hl Hm.
  assert (key x ∉ key <$> pre) as Hfresh.
  { rewrite Hl, fmap_app in Hnd. apply NoDup_app in Hnd as (_ & Hnd & _).
    intros Hin. apply (Hnd _ Hin). by left. }
  rewrite (Hf pre x suf m Hl); simpl; last first.
  { subst m. apply not_elem_of_list_to_map_1. by rewrite <-list_fmap_compose. }
  rewrite fmap_app, Hm. simpl. rewrite list_to_map_snoc; [done|].
  by rewrite <-list_fmap_compose.
Qed.

Lemma validate_key_ok k : k ≠ [] → validate_key k = Ret tt.
Proof. by destruct k. Qed.

Lemma attachments_ok (X : gset ByteSequence) :
  (∀ k, k ∈ X → k ≠ []) →
  foldM insert_snapshot_attachment ∅ (set_entries X) = Ret X.
Proof.
  intros Hne.
  assert (owp (foldM insert_snapshot_attachment ∅ (set_entries X))
    (λ Y, Y = list_to_set (set_entries X)) (λ _, False)) as Hwp.
  { apply (owp_foldM _ (λ pre Y, Y = list_to_set pre)); [done|].
    intros pre k suf Y Hl ->. unfold insert_snapshot_attachment.
    assert (k ∈ set_entries X) as Hk%elem_of_set_entries.
    { rewrite Hl. apply elem_of_app. right. by left. }
    rewrite validate_key_ok by auto. simpl. rewrite bool_decide_false; simpl.
    { rewrite list_to_set_app_L. simpl. set_solver. }
    rewrite elem_of_list_to_set. pose proof (NoDup_set_entries X) as Hnd.
    rewrite Hl in Hnd. apply NoDup_app in Hnd as (_ & Hnd & _).
    intros Hin. apply (Hnd _ Hin). by left. }
  rewrite set_entries_to_set in Hwp.
  destruct (foldM _ _ _); simpl in Hwp; [by subst|done].
Qed.

Lemma read_back_lease s m e :
  store_inv s → leases_ s !! e.1 = Some e.2 → m !! e.1 = None →
  insert_snapshot_lease m (lease_record_locked e.1 e.2) = Ret (<[e.1 := e.2]> m).
Proof.
  intros Hinv Hl Hnone. unfold insert_snapshot_lease, lease_record_locked. simpl.
  destruct (inv_leases _ Hinv _ _ Hl). rewrite (throw_when_false (_ || _)) by lia. simpl.
  rewrite attachments_ok; simpl.
  - rewrite Hnone. simpl. by destruct e as [id []].
  - intros k Hk. destruct (data_ok_lease_id _ _ _ _ _ _ (inv_data _ Hinv) Hl Hk) as (v & Hv & _).
    apply (vo_nonempty _ _ _ (do_values _ _ _ (inv_data _ Hinv) _ _ Hv)).
Qed.

Lemma read_back_value s m k v :
  store_inv s → values_ s !! k = Some v → m !! k = None →
  insert_snapshot_value (revision_ s) (leases_ s) m v = Ret (<[k := v]> m).
Proof.
  intros Hinv Hv Hnone. destruct (do_values _ _ _ (inv_data _ Hinv) _ _ Hv).
  unfold insert_snapshot_value. rewrite vo_key. rewrite validate_key_ok by done. simpl.
  rewrite (throw_when_false (_ || _)) by lia. simpl. rewrite Hnone. simpl.
  rewrite throw_when_false; [done|].
  destruct (Z.eqb_spec (kv_lease_id v) 0) as [|H0]; [done|]. simpl.
  destruct (ix_value _ _ (do_index _ _ _ (inv_data _ Hinv)) _ _ Hv H0) as (l & -> & Hin).
  apply bool_decide_eq_false. tauto.
Qed.

Lemma read_back_checks s :
  store_inv s →
  foldM (check_snapshot_lease (values_ s) (next_lease_id_ s) (next_fencing_token_ s)) tt
    (entries (leases_ s)) = Ret tt.
Proof.
  intros Hinv. set (o := foldM _ _ _).
  assert (owp o (λ _, True) (λ _, False)) as Hwp; [|destruct o as [[]|]; done].
  apply (owp_foldM _ (λ _ _, True)); [done|]. intros pre [id l] suf [] Hl _.
  assert (leases_ s !! id = Some l) as Hid.
  { apply elem_of_entries. rewrite Hl. apply elem_of_app. right. by left. }
  unfold check_snapshot_lease. simpl. destruct (inv_leases _ Hinv _ _ Hid).
  rewrite (throw_when_false (_ || _)) by lia. simpl. apply (owp_foldM _ (λ _ _, True)); [done|].
  intros pre' k suf' [] Hk _. apply owp_throw_when; [|done].
  assert (k ∈ sl_attached_keys l) as Hin.
  { apply elem_of_set_entries. rewrite Hk. apply elem_of_app. right. by left. }
  destruct (data_ok_lease_id _ _ _ _ _ _ (inv_data _ Hinv) Hid Hin) as (v & -> & ->).
  by rewrite Z.eqb_refl.
Qed.

Lemma restore_snapshot s limits :
  store_inv s → Z.of_nat (size (leases_ s)) ≤ max_active_leases limits →
  new_store_from_snapshot (snapshot_of s) limits = Ret (restored s limits).
Proof.
  intros Hinv Hcount. unfold new_store_from_snapshot, snapshot_of.
  cbn [ss_revision ss_next_lease_id ss_next_fencing_token ss_leases ss_values ss_logical_tick].
  pose proof (inv_counters _ Hinv). pose proof (inv_revision _ Hinv).
  rewrite (throw_when_false (_ || _)) by lia. simpl.
  rewrite length_fmap, length_entries, (throw_when_false (_ <? _)) by lia. simpl.
  assert (foldM insert_snapshot_lease ∅
    ((λ e, lease_record_locked e.1 e.2) <$> entries (leases_ s)) = Ret (leases_ s)) as ->.
  { assert (∀ l m, foldM insert_snapshot_lease m ((λ e, lease_record_locked e.1 e.2) <$> l)
      = foldM (λ m e, insert_snapshot_lease m (lease_record_locked e.1 e.2)) m l) as ->.
    { induction l as [|x l IH]; intros m; simpl; [done|].
      by destruct (insert_snapshot_lease _ _); simpl. }
    rewrite (foldM_insert _ fst snd).
    - f_equal. rewrite <-(entries_to_map (leases_ s)) at 2. f_equal.
      rewrite <-list_fmap_id. apply list_fmap_ext. by intros ? [].
    - intros pre e suf m Hl Hm. apply (read_back_lease s); [done| |done].
      apply elem_of_entries. rewrite Hl. destruct e. apply elem_of_app. right. by left.
    - apply NoDup_entries. }
  simpl.
  assert (foldM (insert_snapshot_value (revision_ s) (leases_ s)) ∅ (entries (values_ s)).*2
    = Ret (values_ s)) as ->.
  { assert (∀ l m, foldM (insert_snapshot_value (revision_ s) (leases_ s)) m (l.*2)
      = foldM (λ m e, insert_snapshot_value (revision_ s) (leases_ s) m (snd e)) m
          (l : list (ByteSequence * KeyValue))) as ->.
    { induction l as [|x l IH]; intros m; simpl; [done|].
      by destruct (insert_snapshot_value _ _ _ _); simpl. }
    rewrite (foldM_insert _ fst snd).
    - f_equal. rewrite <-(entries_to_map (values_ s)) at 2. f_equal.
      rewrite <-list_fmap_id. apply list_fmap_ext. by intros ? [].
    - intros pre [k v] suf m Hl Hm. apply (read_back_value s); [done| |done].
      apply elem_of_entries. rewrite Hl. apply elem_of_app. right. by left.
    - apply NoDup_entries. }
  simpl. by rewrite read_back_checks.
Qed.
