(* ===== verification/StoreTrace.v ===== *)
(** * Sequences of operations on the metadata store

    The public interface as one type of commands, the step and reachability
    relations of the object, and the lemmas about whole executions: invariant,
    exception safety, replay of the published batches, fencing tokens, and what
    a watch delivers. *)

From S2P Require Import Prelude OrdMap Bytes StoreTypes Store StoreInv StoreTxn.
From S2P Require Import StoreOps StoreLease StoreWatch.

(** ** Commands *)

Inductive command :=
| c_get (key : ByteSequence)
| c_range (start_ end_ : ByteSequence)
| c_put (key value : ByteSequence)
| c_erase (key : ByteSequence)
| c_compare_and_set (key : ByteSequence) (expected : Z) (value : ByteSequence)
| c_transaction (request : TransactionRequest)
| c_grant_lease (request : LeaseGrantRequest)
| c_keep_alive (request : LeaseKeepAliveRequest)
| c_time_to_live (request : LeaseTimeToLiveRequest)
| c_revoke_lease (request : LeaseRevokeRequest)
| c_expire_leases (tick : Z)
| c_snapshot
| c_create_watch (request : WatchRequest)
| c_poll_watch (id : Z)
| c_request_watch_progress (id : Z)
| c_cancel_watch (id : Z).

Inductive reply :=
| r_read (r : StoreRead) | r_range (r : RangeRead) | r_put (r : PutResult)
| r_erase (r : DeleteResult) | r_cas (r : CompareAndSetResult)
| r_transaction (r : TransactionResult) | r_grant (r : LeaseGrantResult)
| r_lookup (r : LeaseLookupResult) | r_cleanup (r : LeaseCleanupResult)
| r_snapshot (r : InMemoryStoreSnapshot) | r_watch (r : WatchResponse)
| r_poll (r : option WatchResponse) | r_unit.

Definition run (c : command) : M Store reply :=
  match c with
  | c_get k => r ← get k; mret (r_read r)
  | c_range a b => r ← range a b; mret (r_range r)
  | c_put k v => r ← put k v; mret (r_put r)
  | c_erase k => r ← erase k; mret (r_erase r)
  | c_compare_and_set k e v => r ← compare_and_set k e v; mret (r_cas r)
  | c_transaction q => r ← transaction q; mret (r_transaction r)
  | c_grant_lease q => r ← grant_lease q; mret (r_grant r)
  | c_keep_alive q => r ← keep_alive q; mret (r_lookup r)
  | c_time_to_live q => r ← time_to_live q; mret (r_lookup r)
  | c_revoke_lease q => r ← revoke_lease q; mret (r_cleanup r)
  | c_expire_leases t => r ← expire_leases t; mret (r_cleanup r)
  | c_snapshot => r ← snapshot; mret (r_snapshot r)
  | c_create_watch q => r ← create_watch q; mret (r_watch r)
  | c_poll_watch id => r ← poll_watch id; mret (r_poll r)
  | c_request_watch_progress id => request_watch_progress id;; mret r_unit
  | c_cancel_watch id => r ← cancel_watch id; mret (r_watch r)
  end.

(** The arguments fit their C++ types ([LeaseTick] and [LeaseDuration] are
    unsigned 64-bit). *)
Definition u64_value (z : Z) : Prop := 0 ≤ z ≤ u64_max.

Definition command_wf (c : command) : Prop :=
  match c with
  | c_transaction q => u64_value (tx_lease_tick q)
  | c_grant_lease q => u64_value (lg_ttl q) ∧ u64_value (lg_tick q)
  | c_keep_alive q => u64_value (lk_tick q)
  | c_revoke_lease q => u64_value (lv_tick q)
  | c_expire_leases t => u64_value t
  | _ => True
  end.

#[export] Instance command_wf_dec c : Decision (command_wf c).
Proof. unfold u64_value. destruct c; simpl; apply _. Defined.

Definition is_watch_command (c : command) : Prop :=
  match c with
  | c_create_watch _ | c_poll_watch _ | c_request_watch_progress _ | c_cancel_watch _ => True
  | _ => False
  end.

(** ** One command *)

Lemma mwp_reply {A} (m : M Store A) (f : A → reply) s (Q : A → Store → Prop)
    (Q' : Store → Prop) E :
  mwp m s Q E → (∀ a s', Q a s' → Q' s') → mwp (r ← m; mret (f r)) s (λ _, Q') E.
Proof.
  intros Hm HQ. apply mwp_bind. eapply mwp_mono; [done| |done].
  intros a s' Ha. apply mwp_ret. eauto.
Qed.

(** A command outside the watch interface publishes at most one batch, and what
    it published reaches every watcher. *)
Lemma run_data_ok c s :
  store_inv s → command_wf c → ¬ is_watch_command c →
  mwp (run c) s (λ _ s', ∃ oe, step_ok s oe s') (clean_throw s).
Proof.
  intros Hinv Hwf Hnw. pose proof (step_ok_refl s Hinv) as Hrefl.
  destruct c; simpl in Hnw; try done; simpl in Hwf; unfold u64_value in Hwf.
  - eapply mwp_mono; [eapply mwp_reply; [apply get_ok|]| |]; simpl; naive_solver.
  - eapply mwp_reply; [eapply mwp_refused, range_ok|]. simpl. intros ?? [-> _]. eauto.
  - eapply mwp_mono; [eapply mwp_reply; [by apply put_ok|]| |]; simpl; naive_solver.
  - eapply mwp_reply; [by apply erase_ok|]. simpl. intros r s' [H _].
    destruct (values_ s !! key); [|destruct H as [-> _]]; naive_solver.
  - eapply mwp_reply; [by apply compare_and_set_ok|]. simpl.
    intros r s' [_ [(_ & -> & _)|(_ & _ & _ & ?)]]; eauto.
  - eapply mwp_reply; [by apply transaction_ok|]. intros r s' [].
    destruct tp_step as [(_ & es & _ & ?)|(_ & ? & _)]; eauto.
  - eapply mwp_reply; [apply grant_lease_ok; tauto|]. intros r s' []; eauto.
  - eapply mwp_reply; [by eapply mwp_refused, keep_alive_ok|]. intros r s' []; eauto.
  - eapply mwp_reply; [apply time_to_live_ok|]. intros r s' [-> _]. eauto.
  - eapply mwp_reply; [by apply revoke_lease_ok|]. simpl. intros r s' [_ H].
    destruct (leases_ s !! lv_id request); [case_decide; [destruct H; eauto|]|];
      destruct H as (_ & ? & _); eauto.
  - eapply mwp_reply; [by eapply mwp_refused, expire_leases_ok|]. simpl. intros r s' [_ []]. eauto.
  - unfold run, snapshot. mgo. eauto.
Qed.

Lemma run_watch_ok c s :
  store_inv s → is_watch_command c →
  mwp (run c) s (λ _ s', store_inv s' ∧ effect s None s') (clean_throw s).
Proof.
  intros Hinv Hw. destruct c; simpl in Hw; try done.
  - eapply mwp_reply; [by apply create_watch_ok|]. intros r s' []. split; [done|].
    subst s'. apply set_watchers_effect.
  - eapply mwp_reply; [by apply poll_watch_ok|]. by intros r s' [].
  - apply (mwp_reply _ (λ _, r_unit) _ (λ _, progress_post id s));
      [by apply request_watch_progress_ok|]. by intros r s' [].
  - eapply mwp_reply; [by apply cancel_watch_ok|]. simpl. tauto.
Qed.

#[export] Instance is_watch_command_dec c : Decision (is_watch_command c).
Proof. destruct c; simpl; apply _. Defined.

Lemma run_ok c s :
  store_inv s → command_wf c →
  mwp (run c) s (λ _ s', store_inv s' ∧ ∃ oe, effect s oe s') (clean_throw s).
Proof.
  intros Hinv Hwf. destruct (decide (is_watch_command c)).
  - eapply mwp_mono; [by apply run_watch_ok| |done]. simpl. naive_solver.
  - eapply mwp_mono; [by apply run_data_ok| |done]. simpl. intros _ s' (oe & []). eauto.
Qed.

(** ** Executions *)

(** One call of the interface by a client, returning or throwing. *)
Inductive step : Store → Store → Prop :=
| step_intro s c o s' : command_wf c → run c s = (o, s') → step s s'.

Definition steps : Store → Store → Prop := rtc step.

Lemma step_spec s s' : store_inv s → step s s' → store_inv s' ∧ ∃ oe, effect s oe s'.
Proof.
  intros Hinv Hstep. destruct Hstep as [s c o s' Hwf Hrun].
  pose proof (mwp_run _ _ _ _ _ _ (run_ok c s Hinv Hwf) Hrun) as Hpost.
  destruct o as [r|e]; [done|]. destruct Hpost as [-> _].
  split; [done|]. exists None. apply (st_effect _ _ _ (step_ok_refl _ Hinv)).
Qed.

(** Induction over executions from a well-formed state. *)
Lemma steps_ind (P : Store → Prop) s :
  store_inv s → P s →
  (∀ s1 s2 oe, store_inv s1 → store_inv s2 → effect s1 oe s2 → P s1 → P s2) →
  ∀ s', steps s s' → store_inv s' ∧ P s'.
Proof.
  intros Hinv HP Hstep s' Hs. induction Hs as [s|s1 s2 s3 H12 _ IH]; [done|].
  destruct (step_spec _ _ Hinv H12) as (Hinv2 & oe & He). apply IH; eauto.
Qed.

Lemma steps_inv s s' : store_inv s → steps s s' → store_inv s'.
Proof. intros Hinv Hs. by eapply (steps_ind (λ _, True)). Qed.

Lemma steps_revision s s' : store_inv s → steps s s' → revision_ s ≤ revision_ s'.
Proof.
  intros Hinv Hs. eapply (steps_ind (λ x, revision_ s ≤ revision_ x)); [done|lia| |done].
  intros s1 s2 oe _ _ [] ?. destruct oe; lia.
Qed.

(** ** Fencing tokens *)

(** No lease [id] holds the issued token [token]. *)
Definition token_retired (id token : Z) (s : Store) : Prop :=
  token < next_fencing_token_ s ∧
  ∀ l, leases_ s !! id = Some l → sl_fencing_token l ≠ token.

Lemma token_retired_steps id token s s' :
  store_inv s → token_retired id token s → steps s s' → token_retired id token s'.
Proof.
  intros Hinv Hret Hs. eapply (steps_ind (token_retired id token)); [done|done| |done].
  intros s1 s2 oe _ _ He [Hlt Hne]. destruct (ef_leases _ _ _ He) as (Hle & g & Hl).
  split; [lia|].
  intros l' Hl'. destruct (Hl _ _ Hl') as [(l & Hl1 & <-)|]; [by apply Hne|lia].
Qed.

(** A token that was held and is no longer is retired. *)
Lemma token_lost id l s s' :
  store_inv s → leases_ s !! id = Some l → steps s s' →
  (∀ l', leases_ s' !! id = Some l' → sl_fencing_token l' ≠ sl_fencing_token l) →
  token_retired id (sl_fencing_token l) s'.
Proof.
  intros Hinv Hl Hs Hgone. split; [|done].
  pose proof (inv_leases _ Hinv _ _ Hl) as [].
  assert (next_fencing_token_ s ≤ next_fencing_token_ s'); [|lia].
  eapply (steps_ind (λ x, next_fencing_token_ s ≤ next_fencing_token_ x)); [done|lia| |done].
  intros s1 s2 oe _ _ He ?. destruct (ef_leases _ _ _ He). lia.
Qed.

(** Each token is held by one lease. *)
Definition tokens_unique (s : Store) : Prop :=
  ∀ id1 id2 l1 l2, leases_ s !! id1 = Some l1 → leases_ s !! id2 = Some l2 →
    sl_fencing_token l1 = sl_fencing_token l2 → id1 = id2.

Lemma tokens_unique_steps s s' :
  store_inv s → tokens_unique s → steps s s' → tokens_unique s'.
Proof.
  intros Hinv Hu Hs. eapply (steps_ind tokens_unique); [done|done| |done].
  intros s1 s2 oe Hinv1 _ He Hu1 id1 id2 l1 l2 H1 H2 Heq.
  destruct (ef_leases _ _ _ He) as (_ & g & Hl).
  destruct (Hl _ _ H1) as [(l1' & Hl1 & E1)|[-> ?]];
    destruct (Hl _ _ H2) as [(l2' & Hl2 & E2)|[-> ?]]; [| | |done].
  - apply (Hu1 _ _ l1' l2'); congruence.
  - destruct (inv_leases _ Hinv1 _ _ Hl1). lia.
  - destruct (inv_leases _ Hinv1 _ _ Hl2). lia.
Qed.

(** ** Modification revisions *)

Lemma apply_events_lookup rev es : ∀ values k v,
  Forall (event_ok rev) es → apply_events es values !! k = Some v →
  values !! k = Some v ∨ kv_mod_revision v = rev.
Proof.
  induction es as [|e es IH]; intros values k v Hok Hlk; [by left|].
  apply Forall_cons in Hok as [He Hok]. destruct (IH _ _ _ Hok Hlk) as [H|H]; [|by right].
  destruct e as [r [t [c|] [p|]]]; destruct He as [_ He]; simpl in *;
    unfold apply_event in H; simpl in H.
  - apply lookup_insert_Some in H as [[_ <-]|[_ ?]]; [|by left]. right. by destruct t.
  - apply lookup_insert_Some in H as [[_ <-]|[_ ?]]; [|by left]. right. by destruct t.
  - apply lookup_delete_Some in H as [_ ?]. by left.
  - by left.
Qed.

(** Key [k] is absent or was written after revision [r]. *)
Definition written_after (k : ByteSequence) (r : Z) (s : Store) : Prop :=
  r ≤ revision_ s ∧ ∀ v, values_ s !! k = Some v → r < kv_mod_revision v.

Lemma written_after_steps k r s s' :
  store_inv s → written_after k r s → steps s s' → written_after k r s'.
Proof.
  intros Hinv Hw Hs. eapply (steps_ind (written_after k r)); [done|done| |done].
  intros s1 s2 oe _ _ [] [Hr Hv]. split; [destruct oe; lia|]. intros v.
  rewrite ef_values. intros Hlk.
  apply (apply_events_lookup (revision_ s1 + 1)) in Hlk as [?|?]; [by apply Hv|lia|done].
Qed.

(** ** The retained history *)

Lemma trim_history_dropped limit history compact rev history' compact' :
  0 ≤ limit → compact ≤ rev →
  eb_revision <$> history = seqZ (compact + 1) (rev - compact) →
  trim_history limit history compact = (history', compact') →
  ∃ dropped, history = dropped ++ history' ∧ Forall (λ b, eb_revision b ≤ compact') dropped.
Proof.
  intros Hlim Hle Hrev Heq. pose proof (trim_history_ok limit _ _ _ Hlim Hle Hrev) as Hok.
  rewrite Heq in Hok. destruct Hok as ([dropped ->] & Hc & Hrev' & _).
  exists dropped. split; [done|]. apply Forall_forall. intros b Hb.
  pose proof (seqZ_sorted (compact + 1) (rev - compact)) as Hsort.
  rewrite <-Hrev, fmap_app, Hrev' in Hsort. apply StronglySorted_app in Hsort as (Hlt & _).
  destruct (decide (compact' = rev)) as [->|Hne].
  - assert (eb_revision b ∈ seqZ (compact + 1) (rev - compact)) as Hin%elem_of_seqZ; [|lia].
    rewrite <-Hrev. apply list_elem_of_fmap_2. apply elem_of_app. by left.
  - enough (eb_revision b < compact' + 1) by lia. apply Hlt.
    + by apply list_elem_of_fmap_2.
    + apply elem_of_seqZ. lia.
Qed.

(** The batches published since revision [r]. *)
Definition batches_since (r : Z) (s : Store) : list EventBatch :=
  filter (λ b, r < eb_revision b) (history_ s).

Lemma batches_since_step r s oe s' :
  store_inv s → store_inv s' → effect s oe s' → compact_revision_ s' ≤ r ≤ revision_ s →
  batches_since r s' = batches_since r s ++
    match oe with Some es => [mkBatch (revision_ s + 1) es] | None => [] end.
Proof.
  intros Hinv Hinv' [] Hr. unfold batches_since. destruct oe as [es|].
  2:{ rewrite app_nil_r. by injection ef_history as -> _. }
  symmetry in ef_history. pose proof (inv_revision _ Hinv).
  apply (trim_history_dropped _ _ _ (revision_ s + 1)) in ef_history as (dropped & Hd & Hall).
  - assert (filter (λ b, r < eb_revision b) (history_ s ++ [mkBatch (revision_ s + 1) es])
      = filter (λ b, r < eb_revision b) (history_ s) ++ [mkBatch (revision_ s + 1) es]) as <-.
    { rewrite filter_app. f_equal. rewrite filter_cons_True by (simpl; lia). done. }
    rewrite Hd, filter_app. rewrite (filter_none _ dropped); [done|].
    eapply Forall_impl; [done|]. simpl. lia.
  - apply Hinv.
  - lia.
  - by apply history_snoc.
Qed.

Lemma effect_compact s oe s' :
  store_inv s → effect s oe s' → compact_revision_ s ≤ compact_revision_ s'.
Proof.
  intros Hinv []. destruct oe as [es|]; [|injection ef_history; lia].
  pose proof (inv_revision _ Hinv).
  pose proof (trim_history_ok (max_watch_history_revisions (limits_ s))
    (history_ s ++ [mkBatch (revision_ s + 1) es]) (compact_revision_ s) (revision_ s + 1)) as Ht.
  rewrite <-ef_history in Ht. apply Ht.
  - apply Hinv.
  - lia.
  - by apply history_snoc.
Qed.

Lemma batches_since_now s : store_inv s → batches_since (revision_ s) s = [].
Proof.
  intros Hinv. apply filter_none, Forall_forall. intros b Hb.
  assert (eb_revision b ∈ seqZ (compact_revision_ s + 1) (revision_ s - compact_revision_ s))
    as Hin%elem_of_seqZ; [|lia].
  rewrite <-(ho_revisions _ _ _ _ (inv_history _ Hinv)). by apply list_elem_of_fmap_2.
Qed.

(** ** What a watch delivers

    A watch from its creation on, interleaved with arbitrary commands of other
    clients: the responses polled so far and those still queued are the matching
    events of every published batch, in revision order, one response per batch,
    without gap or repetition. *)

(** The watch a command of the watch interface is about. *)
Definition watch_target (c : command) : option Z :=
  match c with
  | c_create_watch q => Some (wq_id q)
  | c_poll_watch id | c_request_watch_progress id | c_cancel_watch id => Some id
  | _ => None
  end.

Definition published (s : Store) (oe : option (list WatchEvent)) : list EventBatch :=
  match oe with Some es => [mkBatch (revision_ s + 1) es] | None => [] end.

(** [traced id q log del s]: watch [id] was created with the effective request
    [q]; since its start revision the batches [log] were published, and the
    client of the watch has polled the responses [del]; the store is now [s]. *)
Inductive traced (id : Z) (q : WatchRequest)
    : list EventBatch → list WatchResponse → Store → Prop :=
| traced_create s q0 r s' :
    store_inv s → create_watch q0 s = (Ret r, s') → wq_id q0 = id → q = watch_request s q0 →
    traced id q (filter (λ b, wq_start_revision q ≤ eb_revision b) (history_ s)) [] s'
| traced_command log del s c o s' oe :
    traced id q log del s → command_wf c → ¬ is_watch_command c →
    run c s = (o, s') → step_ok s oe s' →
    traced id q (log ++ published s oe) del s'
| traced_poll log del s r s' :
    traced id q log del s → poll_watch id s = (Ret (Some r), s') →
    traced id q log (del ++ [r]) s'
| traced_progress log del s s' :
    traced id q log del s → request_watch_progress id s = (Ret tt, s') →
    traced id q log del s'
| traced_other log del s c o s' id' :
    traced id q log del s → watch_target c = Some id' → id' ≠ id → run c s = (o, s') →
    traced id q log del s'.

(** The response a batch gives rise to, and the responses that carry events. *)
Definition responses (q : WatchRequest) (log : list EventBatch) : list WatchResponse :=
  (λ b, watch_response_at (eb_revision b) (wq_id q) (matching_events q (eb_events b))) <$> log.

Definition loud (l : list WatchResponse) : list WatchResponse :=
  filter (λ r, is_nil (wr_events r) = false) l.

Lemma loud_app l1 l2 : loud (l1 ++ l2) = loud l1 ++ loud l2.
Proof. apply filter_app. Qed.

Lemma responses_app q l1 l2 : responses q (l1 ++ l2) = responses q l1 ++ responses q l2.
Proof. apply fmap_app. Qed.

(** State of the watch relative to what was published and polled. *)
Definition watch_synced (q : WatchRequest) (log : list EventBatch) (del : list WatchResponse)
    (ow : option WatchState) : Prop :=
  match ow with
  | Some w => ws_request w = q ∧
      match ws_terminal w with
      | None => loud (responses q log) = loud (del ++ ws_pending w)
      | Some t => wr_events t = [] ∧ ∃ rest, loud (responses q log) = loud del ++ rest
      end
  | None => ∃ rest, loud (responses q log) = loud del ++ rest
  end.

Record trace_inv (id : Z) (q : WatchRequest) (log : list EventBatch)
    (del : list WatchResponse) (s : Store) : Prop := {
  ti_inv : store_inv s;
  ti_id : wq_id q = id;
  ti_start : wq_start_revision q ≤ revision_ s + 1;
  ti_log : eb_revision <$> log
    = seqZ (wq_start_revision q) (revision_ s + 1 - wq_start_revision q);
  ti_synced : watch_synced q log del (watchers_ s !! id) }.

Lemma loud_replayed q history :
  loud (replayed q history)
  = loud (responses q (filter (λ b, wq_start_revision q ≤ eb_revision b) history)).
Proof.
  induction history as [|b history IH]; [done|].
  rewrite filter_cons. change (replayed q (b :: history)) with (replayed q ([b] ++ history)).
  rewrite replayed_app, loud_app, IH. unfold replayed at 1, batch_response.
  cbn [omap list_omap]. destruct (Z.ltb_spec (eb_revision b) (wq_start_revision q)).
  { by rewrite decide_False by lia. }
  rewrite decide_True by lia. unfold loud, responses. rewrite fmap_cons, filter_cons. simpl.
  destruct (matching_events q (eb_events b)) as [|e es]; simpl.
  - by destruct (wq_progress_notifications q).
  - done.
Qed.

(** Publishing a batch keeps the watch in step. *)
Lemma stage_watcher_synced limits q id log del rev es w :
  wq_id q = id → watch_synced q log del (Some w) →
  watch_synced q (log ++ [mkBatch rev es]) del (Some (stage_watcher limits es rev id w)).
Proof.
  intros Hid [Hq Hs]. unfold stage_watcher, watch_synced.
  rewrite responses_app, loud_app. unfold responses at 2. simpl.
  destruct (ws_terminal w) as [t|] eqn:Ht.
  { rewrite Ht. destruct Hs as (Ht' & rest & Hrest). split; [done|]. split; [done|].
    exists (rest ++ loud [watch_response_at rev (wq_id q) (matching_events q es)]).
    by rewrite Hrest, app_assoc. }
  rewrite Hq, Hs. destruct (matching_events q es) as [|e es'] eqn:Hm; simpl.
  - destruct (wq_progress_notifications q); simpl; [|by rewrite Ht, app_nil_r].
    destruct (_ <=? _); simpl.
    + split; [done|]. split; [done|]. exists (loud (ws_pending w)).
      by rewrite app_nil_r, loud_app.
    + split; [done|]. by rewrite app_assoc, !loud_app.
  - destruct (_ <=? _); simpl.
    + split; [done|]. split; [done|]. rewrite loud_app, <-app_assoc. by eexists.
    + split; [done|]. by rewrite app_assoc, !loud_app, Hid.
Qed.

Lemma published_synced s s' q log del id oe :
  wq_id q = id → step_ok s oe s' → watch_synced q log del (watchers_ s !! id) →
  watch_synced q (log ++ published s oe) del (watchers_ s' !! id).
Proof.
  intros Hid [_ _ Hw] Hs. rewrite Hw. unfold staged_watchers, published.
  destruct oe as [es|]; [|by rewrite app_nil_r].
  rewrite map_lookup_imap. destruct (watchers_ s !! id) as [w|]; simpl.
  - by apply stage_watcher_synced.
  - destruct Hs as [rest Hrest]. rewrite responses_app, loud_app, Hrest, <-app_assoc. by eexists.
Qed.

Lemma poll_synced q log del w r ow :
  watch_synced q log del (Some w) → (Some r, ow) = poll_result w →
  watch_synced q log (del ++ [r]) ow.
Proof.
  unfold poll_result. intros [Hq Hs] Heq. destruct (ws_terminal w) as [t|] eqn:Ht.
  - simplify_eq. destruct Hs as (Ht' & rest & Hrest). exists rest.
    rewrite Hrest, loud_app. unfold loud at 3. rewrite filter_cons, Ht'. simpl.
    by rewrite filter_nil, app_nil_r.
  - destruct (ws_pending w) as [|p pending]; simplify_eq. split; [done|]. simpl.
    by rewrite Hs, <-app_assoc.
Qed.

Lemma progressed_synced limits rev q id log del w :
  watch_synced q log del (Some w) →
  watch_synced q log del (Some (progressed limits rev id w)).
Proof.
  intros [Hq Hs]. unfold progressed. destruct (ws_terminal w) as [t|] eqn:Ht.
  { simpl. by rewrite Ht. }
  destruct (_ <=? _); simpl; (split; [done|]).
  - split; [done|]. exists (loud (ws_pending w)). by rewrite Hs, loud_app.
  - rewrite Hs, !loud_app. simpl. by rewrite app_nil_r.
Qed.

Lemma run_other_watch c s o s' id id' :
  store_inv s → watch_target c = Some id' → id' ≠ id → run c s = (o, s') →
  store_inv s' ∧ revision_ s' = revision_ s ∧ watchers_ s' !! id = watchers_ s !! id.
Proof.
  intros Hinv Ht Hne Hrun.
  assert (mwp (run c) s (λ _ s', store_inv s' ∧ revision_ s' = revision_ s ∧
    watchers_ s' !! id = watchers_ s !! id) (clean_throw s)) as Hwp; last first.
  { pose proof (mwp_run _ _ _ _ _ _ Hwp Hrun). destruct o; [done|]. by destruct H as [-> _]. }
  destruct c; simplify_eq/=.
  - eapply mwp_reply; [by apply create_watch_ok|]. intros r s'' []. subst s''. simpl.
    by rewrite lookup_insert_ne.
  - eapply mwp_reply; [by apply poll_watch_ok|]. intros r s'' []. split; [done|].
    split; [destruct po_effect; lia|by apply po_others].
  - apply (mwp_reply _ (λ _, r_unit) _ (λ _, progress_post id' s));
      [by apply request_watch_progress_ok|]. intros r s'' [? [] (w & Hw & ->)].
    rewrite lookup_insert_ne by done. split; [done|]. split; [lia|done].
  - eapply mwp_reply; [by apply cancel_watch_ok|]. simpl. intros r s'' (? & [] & ->).
    rewrite lookup_delete_ne by done. split; [done|]. split; [lia|done].
Qed.

Lemma history_from_start s start :
  store_inv s → compact_revision_ s < start ≤ revision_ s + 1 →
  eb_revision <$> filter (λ b, start ≤ eb_revision b) (history_ s)
  = seqZ start (revision_ s + 1 - start).
Proof.
  intros Hinv Hst. pose proof (inv_history _ Hinv) as [Hr _ _].
  transitivity (filter (λ r, start ≤ r) (eb_revision <$> history_ s)).
  { clear. induction (history_ s) as [|b l IH]; [done|].
    rewrite fmap_cons, !filter_cons. by case_decide; rewrite ?fmap_cons, IH. }
  rewrite Hr.
  replace (revision_ s - compact_revision_ s)
    with (start - 1 - compact_revision_ s + (revision_ s + 1 - start)) by lia.
  rewrite seqZ_app by lia. rewrite filter_app.
  replace (compact_revision_ s + 1 + (start - 1 - compact_revision_ s)) with start by lia.
  rewrite filter_none, filter_id; [done|..]; apply Forall_forall; intros x Hx%elem_of_seqZ; lia.
Qed.

Lemma traced_inv id q log del s : traced id q log del s → trace_inv id q log del s.
Proof.
  induction 1 as [s q0 r s' Hinv Hrun <- ->|log del s c o s' oe _ IH Hwf Hnw Hrun Hok
    |log del s r s' _ IH Hrun|log del s s' _ IH Hrun|log del s c o s' id' _ IH Ht Hne Hrun].
  - destruct (mwp_run _ _ _ _ _ _ (create_watch_ok q0 s Hinv) Hrun). subst s'.
    split; simpl; try done; [lia|by apply history_from_start|].
    rewrite lookup_insert_eq. split; [done|]. simpl. by rewrite loud_replayed.
  - destruct IH. split; try done; [apply Hok|..].
    + destruct Hok as [_ [] _]. destruct oe; lia.
    + destruct Hok as [_ [] _]. rewrite fmap_app, ti_log0, ef_revision. destruct oe as [es|]; simpl.
      * replace (revision_ s + 1 + 1 - wq_start_revision q)
          with (revision_ s + 1 - wq_start_revision q + 1) by lia.
        rewrite seqZ_succ_r by lia. do 2 f_equal. lia.
      * by rewrite app_nil_r, Z.add_0_r.
    + by apply published_synced.
  - destruct IH. destruct (mwp_run _ _ _ _ _ _ (poll_watch_ok id s ti_inv0) Hrun).
    destruct po_result as (w & Hw & Heq). rewrite Hw in ti_synced0.
    destruct po_effect. split; try done; [lia|by rewrite ef_revision, Z.add_0_r|].
    by eapply poll_synced.
  - destruct IH. destruct (mwp_run _ _ _ _ _ _ (request_watch_progress_ok id s ti_inv0) Hrun).
    destruct pp_watchers as (w & Hw & Heq). rewrite Hw in ti_synced0.
    destruct pp_effect. split; try done; [lia|by rewrite ef_revision, Z.add_0_r|].
    rewrite Heq, lookup_insert_eq. by apply progressed_synced.
  - destruct IH. destruct (run_other_watch _ _ _ _ _ _ ti_inv0 Ht Hne Hrun) as (? & Hr & Hw).
    split; try done; [by rewrite Hr..|by rewrite Hw].
Qed.
