(* ===== verification/StoreProps.v ===== *)
(** * Properties of the metadata store

    The theorems about [InMemoryMetadataStore], each with a concrete instance
    where it has hypotheses. *)

From S2P Require Import Prelude OrdMap Bytes StoreTypes Store StoreInv StoreTxn.
From S2P Require Import StoreOps StoreLease StoreWatch StoreSnapshot StoreTrace.

(** ** A concrete store for the instances *)

Definition demo : Store := empty_at 0 default_limits.
Definition key_a : ByteSequence := from_string "a".
Definition key_b : ByteSequence := from_string "b".
Definition val_1 : ByteSequence := from_string "1".
Definition val_2 : ByteSequence := from_string "2".

Lemma default_limits_ok : limits_ok default_limits.
Proof. constructor; simpl; lia. Defined.

Lemma demo_inv : store_inv demo.
Proof. apply empty_at_inv; [lia|apply default_limits_ok]. Qed.

(** Concrete arguments fit their types. *)
Ltac wf_args := cbv [command_wf u64_value]; simpl; lia.

(** The state a command leaves. *)
Definition after (c : command) (s : Store) : Store := (run c s).2.

Lemma after_step c s : command_wf c → step s (after c s).
Proof. intros Hwf. apply (step_intro s c (run c s).1); [done|]. apply surjective_pairing. Qed.

Lemma after_steps c s : command_wf c → steps s (after c s).
Proof. intros. by apply rtc_once, after_step. Qed.

Definition demo_grant : LeaseGrantRequest := mkGrant (mkRequestId 1 1) 0 10 1.
Definition demo_leased_put : TransactionRequest :=
  mkTxn (mkRequestId 1 2) [] [mkOwnership 1 1] 2
    [op_put (mkPutRequest (mkRequestId 1 2) key_a val_1 1 false)] [].

Definition demo_put : Store := after (c_put key_a val_1) demo.
Definition demo_leased : Store := after (c_grant_lease demo_grant) demo.
Definition demo_attached : Store := after (c_transaction demo_leased_put) demo_leased.

Lemma demo_put_inv : store_inv demo_put.
Proof. eapply steps_inv; [apply demo_inv|]. by apply after_steps. Qed.

Lemma demo_leased_inv : store_inv demo_leased.
Proof.
  eapply steps_inv; [apply demo_inv|]. apply after_steps. wf_args.
Qed.

Lemma demo_attached_inv : store_inv demo_attached.
Proof.
  eapply steps_inv; [apply demo_leased_inv|]. apply after_steps. wf_args.
Qed.

(** ** Invariant and exceptions *)

(** C24: Whatever sequence of calls a client makes on a freshly constructed
    store, returning or throwing, the store satisfies its invariant: key
    metadata in range, keys and lease attachments pointing at each other,
    allocation counters ahead of every live lease, the retained history exactly
    the batches after the compaction revision, every watcher's queue ordered and
    within its bound. *)
Theorem reachable_store_inv (revision : Z) (limits : StoreLimits) (s s' : Store) :
  revision ≤ i64_max → limits_ok limits →
  new_store revision limits = Ret s → steps s s' → store_inv s'.
Proof.
  intros Hr Hl Hnew Hs. eapply steps_inv; [|done].
  pose proof (new_store_ok revision limits Hr Hl) as Hok. rewrite Hnew in Hok. apply Hok.
Qed.

Lemma reachable_store_inv_witness :
  new_store 0 default_limits = Ret demo ∧ store_inv demo_put.
Proof.
  split; [reflexivity|].
  apply (reachable_store_inv 0 default_limits demo demo_put);
    [lia|apply default_limits_ok|reflexivity|apply after_steps; exact I].
Defined.

(** C18: Strong exception safety: a call that throws leaves the whole object,
    watchers and history included, exactly as it was; and none of the internal
    consistency exceptions ("lease attachment index is inconsistent", "verified
    lease is missing", "key is already attached to lease", "lease cleanup
    references missing lease") can be raised. *)
Theorem throwing_call_changes_nothing (c : command) (s s' : Store) (e : exn) :
  store_inv s → command_wf c → run c s = (Throw e, s') →
  s' = s ∧ ∀ m, e ≠ logic_error m.
Proof. intros Hinv Hwf Hrun. exact (mwp_run _ _ _ _ _ _ (run_ok c s Hinv Hwf) Hrun). Qed.

Lemma throwing_call_changes_nothing_witness :
  run (c_put [] val_1) demo = (Throw (invalid_argument "key must not be empty"), demo) ∧
  demo = demo.
Proof.
  split; [reflexivity|].
  apply (throwing_call_changes_nothing (c_put [] val_1) demo demo
    (invalid_argument "key must not be empty")); [apply demo_inv|exact I|reflexivity].
Defined.

(** C29: The revision never wraps.  A store whose revision is the greatest 64-bit
    integer keeps its contents and its history under every sequence of calls: reads,
    leases and watches go on, no call changes a value, and the revision stays in
    range. *)
Theorem exhausted_revision_freezes (s s' : Store) :
  store_inv s → revision_ s = i64_max → steps s s' →
  values_ s' = values_ s ∧ history_ s' = history_ s ∧ revision_ s' = i64_max ∧
  compact_revision_ s' = compact_revision_ s.
Proof.
  intros Hinv Hmax Hs.
  eapply (steps_ind (λ x, values_ x = values_ s ∧ history_ x = history_ s ∧ revision_ x = i64_max ∧
    compact_revision_ x = compact_revision_ s)); [exact Hinv|done| |exact Hs].
  intros s1 s2 oe _ Hinv2 He (Hv & Hh & Hr & Hc). pose proof (inv_revision _ Hinv2) as [_ Hle].
  pose proof (ef_revision _ _ _ He) as Hrev. pose proof (ef_values _ _ _ He) as Hval.
  pose proof (ef_history _ _ _ He) as Hhist. destruct oe; [lia|]. injection Hhist as Hh' Hc'.
  rewrite Hval, Hh', Hc', Hrev. simpl. split_and!; [done|done|lia|done].
Qed.

Lemma exhausted_revision_freezes_witness :
  values_ (after (c_put key_a val_1) (empty_at i64_max default_limits)) = ∅.
Proof.
  apply (exhausted_revision_freezes (empty_at i64_max default_limits)).
  - apply empty_at_inv; [lia|apply default_limits_ok].
  - reflexivity.
  - apply after_steps. exact I.
Defined.

(** ** Reads and writes *)

(** A put of a nonempty key, unless a counter is exhausted, returns: the
    revision advances by one, the version counts the writes since creation, the
    creation revision is kept, any lease is dropped; the key then reads back as
    written, and every other key as before. *)
Theorem put_then_get (key value key' : ByteSequence) (s : Store) :
  store_inv s → key ≠ [] → key' ≠ [] → ¬ write_exhausted s key →
  ∃ s', put key value s
        = (Ret (mkPutResult (write_value s key value) (values_ s !! key) (revision_ s + 1)), s') ∧
    store_inv s' ∧
    get key' s' = (Ret (mkStoreRead
      (if decide (key' = key) then Some (write_value s key value) else values_ s !! key')
      (revision_ s + 1)), s').
Proof.
  intros Hinv Hne Hne' Hroom. pose proof (put_ok key value s Hinv) as Hput. unfold mwp in Hput.
  destruct (put key value s) as [[r|e] s']; last first. { destruct Hput as [_ []]; done. }
  destruct Hput as (-> & Hv & Hst & _). exists s'. split; [done|]. split; [apply Hst|].
  pose proof (get_ok key' s') as Hget. unfold mwp in Hget.
  destruct (get key' s') as [[r|e] s'']; [|by destruct Hget].
  destruct Hget as (-> & -> & _). rewrite Hv, (ef_revision _ _ _ (st_effect _ _ _ Hst)).
  do 3 f_equal. case_decide; subst; [apply lookup_insert_eq|by apply lookup_insert_ne].
Qed.

Lemma put_then_get_witness :
  ∃ s', put key_a val_2 demo_put
        = (Ret (mkPutResult (mkKV key_a val_2 2 1 2 0) (Some (mkKV key_a val_1 1 1 1 0)) 2), s') ∧
    store_inv s' ∧
    get key_a s' = (Ret (mkStoreRead (Some (mkKV key_a val_2 2 1 2 0)) 2), s').
Proof.
  apply (put_then_get key_a val_2 key_a demo_put); [apply demo_put_inv|done|done|].
  intros [H|(p & H & Hv)]; [done|]. vm_compute in H. injection H as <-. done.
Defined.

Lemma strict_values (l : list (ByteSequence * KeyValue)) :
  StronglySorted entry_le l → NoDup l.*1 → (∀ k v, (k, v) ∈ l → kv_key v = k) →
  StronglySorted (λ x y, key_lt (kv_key x) (kv_key y)) l.*2.
Proof.
  induction 1 as [|[k v] l Hs IH Hall]; intros Hnd Hk; simpl; constructor.
  - apply NoDup_cons in Hnd as [_ Hnd]. apply IH; [done|].
    intros k' v' Hin. apply Hk. by right.
  - apply Forall_fmap, Forall_forall. intros [k' v'] Hin. rewrite Forall_forall in Hall.
    unfold compose. simpl. rewrite (Hk k v), (Hk k' v') by (by left || by right).
    destruct (key_le_lt_eq k k' (Hall (k', v') Hin)) as [->|]; [|done].
    apply NoDup_cons in Hnd as [Hnd _]. destruct Hnd. apply list_elem_of_fmap.
    by exists (k', v').
Qed.

(** A range read returns exactly the stored keys of the half-open interval
    [start, end), strictly increasing, at the current revision, and does not
    change the store; it fails on no interval with a nonempty start below its end. *)
Theorem range_returns_interval (start_ end_ : ByteSequence) (s : Store) :
  store_inv s → start_ ≠ [] → key_lt start_ end_ →
  ∃ r, range start_ end_ s = (Ret r, s) ∧ rr_revision r = revision_ s ∧
  (∀ v, v ∈ rr_values r ↔ values_ s !! kv_key v = Some v ∧
        key_le start_ (kv_key v) ∧ key_lt (kv_key v) end_) ∧
  StronglySorted (λ x y, key_lt (kv_key x) (kv_key y)) (rr_values r).
Proof.
  intros Hinv Hne Hlt. destruct (range start_ end_ s) as [[r|e] s'] eqn:Hrun;
    [|destruct (mwp_run _ _ _ _ _ _ (range_ok start_ end_ s) Hrun) as [_ []]; done].
  destruct (mwp_run _ _ _ _ _ _ (range_ok start_ end_ s) Hrun) as [-> ->].
  eexists. split; [done|]. simpl. split; [done|].
  pose proof (stored_key _ _ _ (inv_data _ Hinv)) as Hkey. split.
  - intros v. rewrite list_elem_of_fmap. split.
    + intros ([k u] & -> & (Hk & ? & ?)%elem_of_scan). simpl. by rewrite (Hkey _ _ Hk).
    + intros (Hv & ? & ?). exists (kv_key v, v). by rewrite elem_of_scan.
  - apply strict_values; [apply sorted_scan|apply NoDup_scan|].
    intros k v [Hk _]%elem_of_scan. by apply Hkey.
Qed.

Lemma range_returns_interval_witness :
  ∃ r, range key_a key_b demo_put = (Ret r, demo_put) ∧ rr_revision r = revision_ demo_put ∧
    StronglySorted (λ x y, key_lt (kv_key x) (kv_key y)) (rr_values r).
Proof.
  destruct (range_returns_interval key_a key_b demo_put) as (r & Hr & Hrev & _ & Hs);
    [apply demo_put_inv|discriminate|apply (bool_decide_unpack _); vm_compute; exact I|].
  exists r. split; [exact Hr|]. split; [exact Hrev|exact Hs].
Defined.

(** A successful compare-and-set consumes the modification revision it
    expected: whatever happens to the store afterwards, the same expectation
    never succeeds again on that key (so of several clients racing from one read,
    at most one wins). *)
Theorem compare_and_set_consumes_revision (key : ByteSequence) (expected : Z)
    (v1 v2 : ByteSequence) (s s1 s2 s3 : Store) (r1 r2 : CompareAndSetResult) :
  store_inv s → expected ≠ 0 →
  compare_and_set key expected v1 s = (Ret r1, s1) → cas_succeeded r1 = true →
  steps s1 s2 →
  compare_and_set key expected v2 s2 = (Ret r2, s3) → cas_succeeded r2 = false ∧ s3 = s2.
Proof.
  intros Hinv Hexp Hrun1 Hok1 Hs Hrun2.
  destruct (mwp_run _ _ _ _ _ _ (compare_and_set_ok key expected v1 s Hinv) Hrun1)
    as [_ [(_ & _ & ->)|(Hm & -> & Hv & Hst)]]; [done|].
  pose proof (st_inv _ _ _ Hst) as Hinv1. pose proof (st_effect _ _ _ Hst) as [].
  assert (expected ≤ revision_ s) as Hle.
  { unfold cas_matches in Hm. destruct (values_ s !! key) as [p|] eqn:Hp; [|done].
    destruct (do_values _ _ _ (inv_data _ Hinv) _ _ Hp). lia. }
  assert (written_after key expected s2) as [_ Hw].
  { eapply written_after_steps; [done| |done]. split; [lia|].
    rewrite Hv, lookup_insert_eq. intros v [= <-]. simpl. lia. }
  destruct (mwp_run _ _ _ _ _ _ (compare_and_set_ok key expected v2 s2 (steps_inv _ _ Hinv1 Hs))
    Hrun2) as [_ [(_ & -> & ->)|(Hm2 & _)]]; [done|].
  unfold cas_matches in Hm2. destruct (values_ s2 !! key) as [p|] eqn:Hp; [|done].
  specialize (Hw _ eq_refl). lia.
Qed.

Definition demo_cas : Store := after (c_compare_and_set key_a 1 val_2) demo_put.

Lemma compare_and_set_consumes_revision_witness :
  cas_succeeded (mkCasResult false (Some (mkKV key_a val_2 2 1 2 0)) 2) = false ∧
  demo_cas = demo_cas.
Proof.
  apply (compare_and_set_consumes_revision key_a 1 val_2 val_1 demo_put demo_cas demo_cas demo_cas
    (mkCasResult true (Some (mkKV key_a val_2 2 1 2 0)) 2));
    [apply demo_put_inv|done|vm_compute; reflexivity|reflexivity|apply rtc_refl|
     vm_compute; reflexivity].
Defined.

(** ** Transactions *)

(** C6: A transaction that returns took its success branch exactly when every
    comparison held and every lease ownership was current at the state before
    it; all operations of the branch took effect at one revision, each key
    ending with the value the branch writes to it and every other key unchanged;
    the responses report the state as the branch progressed; and a branch
    without effective writes leaves revision, data and watchers as they were. *)
Theorem transaction_is_atomic (q : TransactionRequest) (s s' : Store) (r : TransactionResult) :
  store_inv s → u64_value (tx_lease_tick q) → transaction q s = (Ret r, s') →
  txn_post q s r s'.
Proof.
  intros Hinv Ht Hrun. exact (mwp_run _ _ _ _ _ _ (transaction_ok q s Hinv Ht) Hrun).
Qed.

Lemma transaction_is_atomic_witness :
  ∃ r, transaction demo_leased_put demo_leased = (Ret r, demo_attached) ∧
    txn_post demo_leased_put demo_leased r demo_attached.
Proof.
  eexists. split; [vm_compute; reflexivity|].
  apply (transaction_is_atomic demo_leased_put demo_leased demo_attached);
    [apply demo_leased_inv|wf_args|vm_compute; reflexivity].
Defined.

(** The order in which a transaction lists its operations does not matter for
    what it stores: two accepted transactions with the same guard whose branches
    are permutations of each other leave the same values at the same revision. *)
Theorem transaction_order_irrelevant (q1 q2 : TransactionRequest) (s s1 s2 : Store)
    (r1 r2 : TransactionResult) :
  store_inv s → u64_value (tx_lease_tick q1) → u64_value (tx_lease_tick q2) →
  (txn_guard s q1 ↔ txn_guard s q2) →
  tx_success q1 ≡ₚ tx_success q2 → tx_failure q1 ≡ₚ tx_failure q2 →
  transaction q1 s = (Ret r1, s1) → transaction q2 s = (Ret r2, s2) →
  values_ s1 = values_ s2 ∧ revision_ s1 = revision_ s2.
Proof.
  intros Hinv Ht1 Ht2 Hg Hps Hpf Hrun1 Hrun2.
  destruct (mwp_run _ _ _ _ _ _ (transaction_ok q1 s Hinv Ht1) Hrun1)
    as [G1 [ver1 V1] _ W1 _ S1 _].
  destruct (mwp_run _ _ _ _ _ _ (transaction_ok q2 s Hinv Ht2) Hrun2)
    as [G2 _ _ W2 _ S2 _].
  assert (txn_branch q1 r1 ≡ₚ txn_branch q2 r2) as Hp.
  { assert (tr_succeeded r1 = tr_succeeded r2) as Heq.
    { apply eq_true_iff_eq. by rewrite G1, G2. }
    unfold txn_branch. rewrite Heq. by destruct (tr_succeeded r2). }
  assert (revision_ s1 = revision_ s2) as Hrev.
  { rewrite Hp in S1.
    destruct S1 as [(E1 & es1 & _ & [_ [] _])|(E1 & [_ [] _] & _)];
    destruct S2 as [(E2 & es2 & _ & [_ [] _])|(E2 & [_ [] _] & _)]; done || congruence. }
  split; [|done]. apply map_eq. intros k. rewrite W1, W2, Hrev.
  by eapply txn_value_permutation.
Qed.

Definition demo_txn (ops : list RequestOperation) : TransactionRequest :=
  mkTxn (mkRequestId 1 1) [] [] 0 ops [].
Definition demo_op_a : RequestOperation :=
  op_put (mkPutRequest (mkRequestId 1 1) key_a val_1 0 false).
Definition demo_op_b : RequestOperation :=
  op_put (mkPutRequest (mkRequestId 1 1) key_b val_2 0 false).

Lemma transaction_order_irrelevant_witness :
  values_ (after (c_transaction (demo_txn [demo_op_a; demo_op_b])) demo)
  = values_ (after (c_transaction (demo_txn [demo_op_b; demo_op_a])) demo).
Proof.
  eapply (transaction_order_irrelevant (demo_txn [demo_op_a; demo_op_b])
    (demo_txn [demo_op_b; demo_op_a]) demo);
    [apply demo_inv|wf_args|wf_args|done|
     apply Permutation_swap|constructor|vm_compute; reflexivity|vm_compute; reflexivity].
Defined.

(** ** Publication *)

(** The published batches account for every change: from any state of an
    execution, as long as the batches after its revision are retained, applying
    their events in order to the values of that state gives the current values;
    there is exactly one batch per revision. *)
Theorem history_replays_values (s s' : Store) :
  store_inv s → steps s s' → compact_revision_ s' ≤ revision_ s →
  values_ s' = apply_events (concat (eb_events <$> batches_since (revision_ s) s')) (values_ s) ∧
  eb_revision <$> batches_since (revision_ s) s'
  = seqZ (revision_ s + 1) (revision_ s' - revision_ s).
Proof.
  intros Hinv Hs.
  eapply (steps_ind (λ x, revision_ s ≤ revision_ x ∧ (compact_revision_ x ≤ revision_ s →
    values_ x = apply_events (concat (eb_events <$> batches_since (revision_ s) x)) (values_ s) ∧
    eb_revision <$> batches_since (revision_ s) x
    = seqZ (revision_ s + 1) (revision_ x - revision_ s)))); [done| | |done].
  - split; [lia|]. intros _. rewrite batches_since_now by done. simpl.
    by rewrite Z.sub_diag, seqZ_nil.
  - intros s1 s2 oe Hinv1 Hinv2 He [Hle IH]. pose proof (effect_compact _ _ _ Hinv1 He).
    pose proof He as []. split; [destruct oe; lia|]. intros Hc.
    destruct IH as [IHv IHr]; [lia|].
    rewrite (batches_since_step (revision_ s) s1 oe s2) by (done || lia).
    rewrite !fmap_app, concat_app, apply_events_app, <-IHv, IHr, ef_values, ef_revision.
    destruct oe as [es|]; simpl; rewrite ?app_nil_r; split; try done.
    + replace (revision_ s1 + 1 - revision_ s) with (revision_ s1 - revision_ s + 1) by lia.
      rewrite seqZ_succ_r by lia. do 2 f_equal. lia.
    + f_equal. lia.
Qed.

Lemma history_replays_values_witness :
  values_ demo_put = apply_events (concat (eb_events <$> batches_since 0 demo_put)) ∅ ∧
  eb_revision <$> batches_since 0 demo_put = seqZ 1 1.
Proof.
  apply (history_replays_values demo demo_put);
    [apply demo_inv|apply after_steps; exact I|vm_compute; discriminate].
Defined.




(** ** Leases *)

(** Fencing: once a lease was revoked, expired or granted anew, so that its
    identifier no longer carries the old token, no later state accepts the old
    token: a transaction that presents it never takes its success branch. *)
Theorem stale_fencing_token_never_owns (id tick : Z) (l : StoredLease) (s s1 s2 s3 : Store)
    (q : TransactionRequest) (r : TransactionResult) :
  store_inv s → leases_ s !! id = Some l →
  steps s s1 →
  (∀ l', leases_ s1 !! id = Some l' → sl_fencing_token l' ≠ sl_fencing_token l) →
  steps s1 s2 →
  mkOwnership id (sl_fencing_token l) ∈ tx_lease_ownership q →
  u64_value (tx_lease_tick q) →
  transaction q s2 = (Ret r, s3) → tr_succeeded r = false.
Proof.
  intros Hinv Hl H1 Hgone H2 Hin Ht Hrun.
  pose proof (steps_inv _ _ Hinv H1) as Hinv1. pose proof (steps_inv _ _ Hinv1 H2) as Hinv2.
  pose proof (token_lost _ _ _ _ Hinv Hl H1 Hgone) as Hret.
  pose proof (token_retired_steps _ _ _ _ Hinv1 Hret H2) as [_ Hne].
  destruct (mwp_run _ _ _ _ _ _ (transaction_ok q s2 Hinv2 Ht) Hrun) as [Hg _ _ _ _ _ _].
  apply not_true_is_false. rewrite Hg. intros [_ Hown]. rewrite Forall_forall in Hown.
  specialize (Hown _ Hin). unfold ownership_matches in Hown. simpl in Hown.
  destruct (leases_ s2 !! id) as [l2|]; [|done]. specialize (Hne _ eq_refl). lia.
Qed.

Definition demo_revoked : Store :=
  after (c_revoke_lease (mkRevoke (mkRequestId 1 3) 1 1 3)) demo_attached.
Definition demo_stale_put : TransactionRequest :=
  mkTxn (mkRequestId 1 4) [] [mkOwnership 1 1] 4
    [op_put (mkPutRequest (mkRequestId 1 4) key_a val_2 1 false)] [].

Lemma stale_fencing_token_never_owns_witness :
  ∃ r, (transaction demo_stale_put demo_revoked).1 = Ret r ∧ tr_succeeded r = false.
Proof.
  eexists. split; [vm_compute; reflexivity|].
  eapply (stale_fencing_token_never_owns 1 4 (mkStoredLease 1 10 11 {[key_a]})
    demo_attached demo_revoked demo_revoked _ demo_stale_put).
  - apply demo_attached_inv.
  - vm_compute. reflexivity.
  - apply after_steps. wf_args.
  - vm_compute. discriminate.
  - apply rtc_refl.
  - left.
  - wf_args.
  - vm_compute. reflexivity.
Defined.

(** Fencing tokens identify leases: in every execution from a new store no
    two live leases share a token, and every live token is positive and below the
    next one to be issued. *)
Theorem fencing_tokens_unique (revision : Z) (limits : StoreLimits) (s s' : Store)
    (id1 id2 : Z) (l1 l2 : StoredLease) :
  revision ≤ i64_max → limits_ok limits → new_store revision limits = Ret s → steps s s' →
  leases_ s' !! id1 = Some l1 → leases_ s' !! id2 = Some l2 →
  (sl_fencing_token l1 = sl_fencing_token l2 → id1 = id2) ∧
  1 ≤ sl_fencing_token l1 < next_fencing_token_ s'.
Proof.
  intros Hr Hlim Hnew Hs H1 H2.
  pose proof (new_store_ok revision limits Hr Hlim) as Hok. rewrite Hnew in Hok.
  destruct Hok as [Hinv ->].
  split; [|by destruct (inv_leases _ (steps_inv _ _ Hinv Hs) _ _ H1)].
  eapply (tokens_unique_steps _ _ Hinv); [|done|done|done].
  intros i1 i2 k1 k2 Hk. by destruct (lookup_empty_Some i1 k1).
Qed.

Lemma fencing_tokens_unique_witness :
  leases_ demo_leased !! 1 = Some (mkStoredLease 1 10 11 ∅) ∧ 1 ≤ 1 < next_fencing_token_ demo_leased.
Proof.
  split; [vm_compute; reflexivity|].
  apply (fencing_tokens_unique 0 default_limits demo demo_leased 1 1
    (mkStoredLease 1 10 11 ∅) (mkStoredLease 1 10 11 ∅));
    [lia|apply default_limits_ok|reflexivity|
     apply after_steps; wf_args|
     vm_compute; reflexivity|vm_compute; reflexivity].
Defined.

(** Expiry is complete and exact: after [expire_leases t] no lease due at [t]
    remains, every key attached to one is gone and reported once in key order,
    and every other lease and key is untouched; all removals share one revision.
    The call returns for every tick that does not regress, unless there is a lease
    to remove and the revision is exhausted. *)
Theorem expire_leases_exact (t : Z) (s : Store) :
  store_inv s → u64_value t → logical_tick_ s ≤ t →
  (expired_leases (leases_ s) t = [] ∨ revision_ s < i64_max) →
  ∃ r s', expire_leases t s = (Ret r, s') ∧ store_inv s' ∧ logical_tick_ s' = t ∧
  (∀ id l, leases_ s' !! id = Some l ↔ leases_ s !! id = Some l ∧ t < sl_expiry_tick l) ∧
  (∀ k v, values_ s' !! k = Some v ↔ values_ s !! k = Some v ∧
     ∀ l, leases_ s !! kv_lease_id v = Some l → t < sl_expiry_tick l) ∧
  lc_deleted_keys r = attached_to (values_ s) (lc_leases r) ∧
  (lc_leases r = [] → revision_ s' = revision_ s) ∧
  (lc_leases r ≠ [] → revision_ s' = revision_ s + 1).
Proof.
  intros Hinv Ht Htick Hroom.
  destruct (expire_leases t s) as [[r|e] s'] eqn:Hrun;
    [|destruct (mwp_run _ _ _ _ _ _ (expire_leases_ok t s Hinv Ht) Hrun) as [_ [?|[? ?]]];
      [lia|destruct Hroom; [done|lia]]].
  destruct (mwp_run _ _ _ _ _ _ (expire_leases_ok t s Hinv Ht) Hrun) as [Htk [Hst Hv Hl ->]].
  eexists _, s'. split; [done|]. simpl. split; [apply Hst|]. split; [done|]. split_and!.
  - intros id l. rewrite Hl, expired_leases_spec. split.
    + intros [Hid Hn]. split; [done|]. apply Z.nle_gt. intros Hle. apply Hn. eauto.
    + intros [Hid Hn]. split; [done|]. intros (l' & Hl' & Hle). simplify_eq. lia.
  - intros k v. rewrite Hv, expired_leases_spec. split.
    + intros [Hk Hn]. split; [done|]. intros l Hl'. apply Z.nle_gt. intros Hle. apply Hn. eauto.
    + intros [Hk Hn]. split; [done|]. intros (l & Hl' & Hle). specialize (Hn _ Hl'). lia.
  - done.
  - intros HE. rewrite HE in Hst. destruct Hst as [_ [] _]. simpl in *. lia.
  - destruct (expired_leases (leases_ s) t); [done|]. destruct Hst as [_ [] _]. done.
Qed.

Lemma expire_leases_exact_witness :
  ∃ r s', expire_leases 11 demo_attached = (Ret r, s') ∧
    lc_deleted_keys r = attached_to (values_ demo_attached) (lc_leases r).
Proof.
  destruct (expire_leases_exact 11 demo_attached) as (r & s' & Hr & _ & _ & _ & _ & Hd & _);
    [apply demo_attached_inv|wf_args|vm_compute; discriminate|right; vm_compute; reflexivity|].
  exists r, s'. split; [exact Hr|exact Hd].
Defined.

(** A keep-alive succeeds exactly for a lease that is live at the request's
    tick and presented with its current token, and then sets the expiry to the
    tick plus the granted TTL, keeping token and attachments; otherwise no lease
    changes. Keys, revision and watchers are never affected. It throws only on a
    regressing tick, an invalid ID or token, or an expiry beyond the tick range. *)
Theorem keep_alive_renews_exactly (q : LeaseKeepAliveRequest) (s : Store) :
  store_inv s → u64_value (lk_tick q) → ¬ keep_alive_error q s →
  ∃ r s', keep_alive q s = (Ret r, s') ∧
  keep_alive_post q s r s' ∧ values_ s' = values_ s ∧ revision_ s' = revision_ s ∧
  watchers_ s' = watchers_ s.
Proof.
  intros Hinv Ht Hne. destruct (keep_alive q s) as [[r|e] s'] eqn:Hrun;
    [|by destruct (mwp_run _ _ _ _ _ _ (keep_alive_ok q s Hinv Ht) Hrun)].
  pose proof (mwp_run _ _ _ _ _ _ (keep_alive_ok q s Hinv Ht) Hrun) as Hp.
  exists r, s'. split; [done|]. split; [done|]. destruct Hp as [[_ [] Hw] _ _]. simpl in *. split; [done|]. split; [lia|done].
Qed.

Definition demo_keep_alive : LeaseKeepAliveRequest := mkKeepAlive 1 1 5.

Lemma demo_keep_alive_fits : ¬ keep_alive_error demo_keep_alive demo_leased.
Proof.
  assert (leases_ demo_leased !! 1 = Some (mkStoredLease 1 10 11 ∅)) as Hl by (vm_compute; reflexivity).
  assert (logical_tick_ demo_leased = 1) as Ht by (vm_compute; reflexivity).
  unfold keep_alive_error. simpl. rewrite Ht. intros [?|[?|[?|(l & [Hl' _] & ?)]]]; try lia.
  simpl in Hl'. rewrite Hl in Hl'. injection Hl' as <-. simpl in *. lia.
Qed.

Lemma keep_alive_renews_exactly_witness :
  ∃ r s', keep_alive demo_keep_alive demo_leased = (Ret r, s') ∧
    keep_alive_post demo_keep_alive demo_leased r s'.
Proof.
  destruct (keep_alive_renews_exactly demo_keep_alive demo_leased) as (r & s' & Hr & Hp & _);
    [apply demo_leased_inv|wf_args|apply demo_keep_alive_fits|].
  exists r, s'. split; [exact Hr|exact Hp].
Defined.

(** ** Snapshots *)

(** C32: Snapshot round trip: restoring the snapshot of any well-formed store is
    accepted (given room for its leases) and yields the same keys, leases,
    revision, logical tick and allocation counters, with empty watch state. *)
Theorem snapshot_restores_store (s : Store) (limits : StoreLimits) :
  store_inv s → Z.of_nat (size (leases_ s)) ≤ max_active_leases limits →
  new_store_from_snapshot (snapshot_of s) limits = Ret (restored s limits) ∧
  snapshot_of (restored s limits) = snapshot_of s.
Proof. intros Hinv Hc. split; [by apply restore_snapshot|done]. Qed.

Lemma snapshot_restores_store_witness :
  new_store_from_snapshot (snapshot_of demo_attached) default_limits
  = Ret (restored demo_attached default_limits).
Proof.
  apply (snapshot_restores_store demo_attached default_limits);
    [apply demo_attached_inv|vm_compute; discriminate].
Defined.

(** C33: The snapshot constructor validates: every snapshot it accepts, whatever
    its origin, yields a store that satisfies the invariant. *)
Theorem accepted_snapshot_is_well_formed (snap : InMemoryStoreSnapshot) (limits : StoreLimits)
    (s : Store) :
  limits_ok limits → snapshot_fits snap →
  new_store_from_snapshot snap limits = Ret s → store_inv s.
Proof.
  intros Hl Hf Heq. pose proof (new_store_from_snapshot_ok snap limits Hl Hf) as Hok.
  by rewrite Heq in Hok.
Qed.

Definition demo_snapshot : InMemoryStoreSnapshot :=
  mkStoreSnapshot [mkKV key_a val_1 1 1 1 1] [mkLeaseRecord 1 1 10 11 [key_a]] 1 2 2 2.

Lemma accepted_snapshot_is_well_formed_witness :
  ∃ s, new_store_from_snapshot demo_snapshot default_limits = Ret s ∧ store_inv s.
Proof.
  eexists. split; [vm_compute; reflexivity|].
  eapply (accepted_snapshot_is_well_formed demo_snapshot default_limits);
    [apply default_limits_ok| |vm_compute; reflexivity].
  constructor; simpl; try lia; (apply Forall_singleton); unfold kv_fits; simpl; lia.
Defined.
