(* ===== verification/RaftTypes.v ===== *)
(** * Raft data types

    The structs of include/kura/metadata/raft/ that the specification, the
    storage and the codecs share.  [Term], [LogIndex], [NodeId] and
    [ReadIndexContext] wrap one unsigned 64-bit field and are represented by it. *)

From S2P Require Import Prelude OrdMap Bytes StoreTypes.

Record CommandEnvelope := mkCommand {
  cmd_request_id : RequestId;
  cmd_type_tag : Z;
  cmd_payload : list byte }.

Record LogEntry := mkEntry {
  en_term : Z;
  en_index : Z;
  en_command : CommandEnvelope }.

Record ClusterMembership := mkMembership {
  mb_voters : list Z;
  mb_learners : list Z }.

Record SnapshotMetadata := mkSnapshotMetadata {
  sm_last_included_index : Z;
  sm_last_included_term : Z;
  sm_store_revision : Z;
  sm_compaction_revision : Z;
  sm_membership : ClusterMembership;
  sm_format_version : Z }.

Record RaftHardState := mkHardState {
  hs_current_term : Z;
  hs_voted_for : option Z }.

Record PersistentRaftState := mkPersistent {
  ps_current_term : Z;
  ps_voted_for : option Z;
  ps_snapshot : option SnapshotMetadata;
  ps_log : list LogEntry }.

Record PersistRaftHardState := mkPersistHardState {
  phs_request_id : Z;
  phs_state : RaftHardState }.

Record RaftHardStatePersisted := mkHardStatePersisted {
  hsp_request_id : Z;
  hsp_state : RaftHardState }.

Inductive RaftRole := role_follower | role_candidate | role_leader | role_learner.

Record RequestVoteRequest := mkRequestVote {
  rv_term : Z;
  rv_candidate : Z;
  rv_last_log_index : Z;
  rv_last_log_term : Z }.

Record RequestVoteResponse := mkVoteResponse {
  vr_term : Z;
  vr_granted : bool }.

Record AppendEntriesRequest := mkAppendEntries {
  ae_term : Z;
  ae_leader : Z;
  ae_previous_log_index : Z;
  ae_previous_log_term : Z;
  ae_entries : list LogEntry;
  ae_leader_commit : Z;
  ae_read_context : option Z }.

Record AppendEntriesResponse := mkAppendResponse {
  ar_term : Z;
  ar_succeeded : bool;
  ar_matched_index : Z;
  ar_read_context : option Z }.

#[export] Instance RaftRole_eq_dec : EqDecision RaftRole.
Proof. solve_decision. Defined.
#[export] Instance RequestId_eq_dec : EqDecision RequestId.
Proof. solve_decision. Defined.
#[export] Instance CommandEnvelope_eq_dec : EqDecision CommandEnvelope.
Proof. solve_decision. Defined.
#[export] Instance LogEntry_eq_dec : EqDecision LogEntry.
Proof. solve_decision. Defined.
#[export] Instance RaftHardState_eq_dec : EqDecision RaftHardState.
Proof. solve_decision. Defined.
