(* ===== verification/Figure2.v ===== *)
(** * The Raft "Figure 2" state machine

    src/figure2_spec.cpp: a pure step function of one server, from a state and
    an input event to a new state, the rules that fired and the effects to
    perform.  Changes of the hard state (term and vote) gate every effect that
    follows them until the storage reports them durable.

    The handlers mutate a [StepResult] and may throw; here each maps a
    [StepResult] to an outcome.  The source dereferences [state.leader] without
    a test where validation has established that a leader has it; the model
    raises [logic_error "leader state is absent"] there.  [rule_catalog]
    and the functions over it are in RuleCatalog.v. *)

From S2P Require Import Prelude OrdMap Bytes StoreTypes RaftTypes.

(** ** Data *)

Inductive RuleId :=
| observe_higher_term_rule | apply_committed | follower_election_timeout
| request_vote_reject_stale | request_vote_grant | request_vote_deny
| append_entries_reject_stale | append_entries_reject_log_mismatch | append_entries_accept
| append_entries_advance_commit | candidate_start_election | candidate_restart_election
| candidate_win_election | candidate_accept_append_entries | leader_initialize
| leader_append_client | leader_replicate | leader_record_replication
| leader_retry_replication | leader_advance_commit | leader_heartbeat.

Record PeerProgress := mkProgress { pg_next_index : Z; pg_match_index : Z }.

Record LeaderState := mkLeaderState {
  ld_progress : gmap Z PeerProgress;
  ld_pending_clients : gset Z }.

Inductive Event :=
| ElectionTimeout
| HeartbeatTimeout
| ApplyCommitted
| ObserveTerm (term : Z)
| ReceiveRequestVote (from : Z) (request : RequestVoteRequest)
| ReceiveRequestVoteResponse (from : Z) (response : RequestVoteResponse)
| ReceiveAppendEntries (from : Z) (request : AppendEntriesRequest)
| ReceiveAppendEntriesResponse (from : Z) (response : AppendEntriesResponse)
| ReceiveClientCommand (command : CommandEnvelope)
| HardStatePersisted (completion : RaftHardStatePersisted).

(** [PersistState{{PersistentField::log}}] is the only use of [PersistState]. *)
Inductive Effect :=
| PersistHardState (request : PersistRaftHardState)
| PersistLog
| SendRequestVote (to : Z) (request : RequestVoteRequest)
| SendRequestVoteResponse (to : Z) (response : RequestVoteResponse)
| SendAppendEntries (to : Z) (request : AppendEntriesRequest)
| SendAppendEntriesResponse (to : Z) (response : AppendEntriesResponse)
| ResetElectionTimer
| ApplyCommand (index : Z) (command : CommandEnvelope)
| CompleteClientCommand (index : Z).

Record PendingHardStatePersistence := mkPending {
  pd_request : PersistRaftHardState;
  pd_deferred_effects : list Effect }.

Record State := mkState {
  st_node : Z;
  st_peers : list Z;
  st_role : RaftRole;
  st_persistent : PersistentRaftState;
  st_commit_index : Z;
  st_last_applied : Z;
  st_known_leader : option Z;
  st_votes_received : gset Z;
  st_leader : option LeaderState;
  st_next_hard_state_request_id : Z;
  st_pending_hard_state : option PendingHardStatePersistence }.

Record StepResult := mkResult {
  res_state : State;
  res_rules : list RuleId;
  res_effects : list Effect }.

(** Shorthands for the members of [persistent]. *)
Definition current_term (s : State) : Z := ps_current_term (st_persistent s).
Definition voted_for (s : State) : option Z := ps_voted_for (st_persistent s).
Definition log_of (s : State) : list LogEntry := ps_log (st_persistent s).

(** Assignments to members of the state. *)
Definition with_hard_state (s : State) (term : Z) (vote : option Z) : State :=
  mkState (st_node s) (st_peers s) (st_role s)
    (mkPersistent term vote (ps_snapshot (st_persistent s)) (log_of s))
    (st_commit_index s) (st_last_applied s) (st_known_leader s) (st_votes_received s)
    (st_leader s) (st_next_hard_state_request_id s) (st_pending_hard_state s).
Definition with_log (s : State) (log : list LogEntry) : State :=
  mkState (st_node s) (st_peers s) (st_role s)
    (mkPersistent (current_term s) (voted_for s) (ps_snapshot (st_persistent s)) log)
    (st_commit_index s) (st_last_applied s) (st_known_leader s) (st_votes_received s)
    (st_leader s) (st_next_hard_state_request_id s) (st_pending_hard_state s).
Definition with_role (s : State) (role : RaftRole) (known : option Z) (votes : gset Z)
    (leader : option LeaderState) : State :=
  mkState (st_node s) (st_peers s) role (st_persistent s)
    (st_commit_index s) (st_last_applied s) known votes
    leader (st_next_hard_state_request_id s) (st_pending_hard_state s).
Definition with_indexes (s : State) (commit applied : Z) : State :=
  mkState (st_node s) (st_peers s) (st_role s) (st_persistent s)
    commit applied (st_known_leader s) (st_votes_received s)
    (st_leader s) (st_next_hard_state_request_id s) (st_pending_hard_state s).
Definition with_leader (s : State) (leader : option LeaderState) : State :=
  with_role s (st_role s) (st_known_leader s) (st_votes_received s) leader.
Definition with_persistence (s : State) (next_id : Z)
    (pending : option PendingHardStatePersistence) : State :=
  mkState (st_node s) (st_peers s) (st_role s) (st_persistent s)
    (st_commit_index s) (st_last_applied s) (st_known_leader s) (st_votes_received s)
    (st_leader s) next_id pending.

Definition set_state (r : StepResult) (s : State) : StepResult :=
  mkResult s (res_rules r) (res_effects r).
Definition push_rule (r : StepResult) (rule : RuleId) : StepResult :=
  mkResult (res_state r) (res_rules r ++ [rule]) (res_effects r).
Definition push_effect (r : StepResult) (effect : Effect) : StepResult :=
  mkResult (res_state r) (res_rules r) (res_effects r ++ [effect]).

(** ** Log access *)

Definition snapshot_base (s : State) : Z :=
  match ps_snapshot (st_persistent s) with
  | Some snapshot => sm_last_included_index snapshot
  | None => 0
  end.

Definition last_index (s : State) : Z :=
  match last (log_of s) with
  | Some entry => en_index entry
  | None => snapshot_base s
  end.

Definition last_term (s : State) : Z :=
  match last (log_of s) with
  | Some entry => en_term entry
  | None => match ps_snapshot (st_persistent s) with
            | Some snapshot => sm_last_included_term snapshot
            | None => 0
            end
  end.

(** [std::vector::at] *)
Definition log_at (log : list LogEntry) (i : Z) : outcome LogEntry :=
  match log !! Z.to_nat i with
  | Some entry => mret entry
  | None => Throw (out_of_range "vector::at")
  end.

Definition term_at (s : State) (index : Z) : outcome Z :=
  if index =? 0 then mret 0
  else
    let base := snapshot_base s in
    match ps_snapshot (st_persistent s) with
    | Some snapshot =>
        if index =? base then mret (sm_last_included_term snapshot)
        else
          throw_when (index <=? base) (out_of_range "Raft log index was compacted");;
          entry ← log_at (log_of s) (index - base - 1);
          mret (en_term entry)
    | None =>
        throw_when (index <=? base) (out_of_range "Raft log index was compacted");;
        entry ← log_at (log_of s) (index - base - 1);
        mret (en_term entry)
    end.

Definition majority (s : State) : Z := (Z.of_nat (length (st_peers s)) + 1) / 2 + 1.

Definition ensure_peer (s : State) (peer : Z) : outcome unit :=
  throw_when (negb (bool_decide (peer ∈ st_peers s)))
    (invalid_argument "RPC sender is not a voting peer").

(** ** Validation *)

Definition validate_peer (node : Z) (acc : list string * gset Z) (peer : Z)
    : list string * gset Z :=
  (acc.1
     ++ (if peer =? node then ["peer list contains the local node"%string] else [])
     ++ (if bool_decide (peer ∈ acc.2) then ["peer list contains a duplicate"%string] else []),
   {[peer]} ∪ acc.2).

(** The log loop stops at the first violation. *)
Fixpoint validate_log (current_term expected : Z) (log : list LogEntry) : list string :=
  match log with
  | [] => []
  | entry :: rest =>
      if negb (en_index entry =? expected)
      then ["log indexes must be contiguous after the snapshot"%string]
      else if current_term <? en_term entry
      then ["log entry term exceeds currentTerm"%string]
      else validate_log current_term (u64 (expected + 1)) rest
  end.

Definition message_when (b : bool) (message : string) : list string :=
  if b then [message] else [].

Definition validate_progress (end_ : Z) (leader : LeaderState) (peer : Z) : list string :=
  match ld_progress leader !! peer with
  | None => ["leader progress is missing a peer"%string]
  | Some p =>
      message_when ((pg_next_index p <? 1) || (u64 (end_ + 1) <? pg_next_index p))
        "peer nextIndex is outside the log"
      ++ message_when ((end_ <? pg_match_index p) || (pg_next_index p <=? pg_match_index p))
        "peer matchIndex/nextIndex is invalid"
  end.

Definition validate (s : State) : list string :=
  let '(peer_messages, peers) := foldl (validate_peer (st_node s)) ([], ∅) (st_peers s) in
  let base := snapshot_base s in
  let end_ := last_index s in
  peer_messages
  ++ match ps_snapshot (st_persistent s) with
     | Some snapshot =>
         message_when (sm_last_included_index snapshot =? 0) "snapshot index must be nonzero"
         ++ message_when ((sm_last_included_term snapshot =? 0)
                          || (current_term s <? sm_last_included_term snapshot))
              "snapshot term must be nonzero and not exceed currentTerm"
     | None => []
     end
  ++ message_when ((st_commit_index s <? base) || (st_last_applied s <? base))
       "commit/apply index precedes the snapshot"
  ++ validate_log (current_term s) (u64 (base + 1)) (log_of s)
  ++ message_when (end_ <? st_commit_index s) "commitIndex exceeds the last log index"
  ++ message_when (st_commit_index s <? st_last_applied s) "lastApplied exceeds commitIndex"
  ++ message_when (bool_decide (st_role s = role_leader)
                   && negb (bool_decide (is_Some (st_leader s))))
       "leader role lacks leader-only state"
  ++ message_when (negb (bool_decide (st_role s = role_leader))
                   && bool_decide (is_Some (st_leader s)))
       "non-leader retains leader-only state"
  ++ message_when (negb (bool_decide (st_role s = role_candidate))
                   && negb (bool_decide (st_votes_received s = ∅)))
       "non-candidate retains received votes"
  ++ message_when (st_next_hard_state_request_id s =? 0)
       "next hard-state request ID is zero"
  ++ match st_pending_hard_state s with
     | Some p => message_when (phs_request_id (pd_request p) =? 0)
                   "pending hard-state request ID is zero"
     | None => []
     end
  ++ concat ((λ voter, message_when (negb (voter =? st_node s)
                                     && negb (bool_decide (voter ∈ peers)))
                         "candidate has a vote from a non-peer")
             <$> elements (st_votes_received s))
  ++ match st_leader s with
     | None => []
     | Some leader =>
         message_when (negb (Z.of_nat (size (ld_progress leader))
                             =? Z.of_nat (length (st_peers s))))
           "leader progress does not cover every peer"
         ++ concat (validate_progress end_ leader <$> st_peers s)
         ++ concat ((λ pending, message_when ((pending =? 0) || (end_ <? pending))
                                  "pending client index is outside the log")
                    <$> elements (ld_pending_clients leader))
     end.

Definition ensure_valid (s : State) (when : string) : outcome unit :=
  match validate s with
  | [] => mret tt
  | message :: _ => Throw (invalid_argument (when +:+ ": " +:+ message))
  end.

(** ** Hard-state persistence *)

Definition hard_state (s : State) : RaftHardState :=
  mkHardState (current_term s) (voted_for s).

Definition persist_hard_state (r : StepResult) : outcome StepResult :=
  let s := res_state r in
  let id := st_next_hard_state_request_id s in
  throw_when ((id =? 0) || (id =? u64_max))
    (overflow_error "Raft hard-state request ID exhausted");;
  mret (push_effect (set_state r (with_persistence s (id + 1) (st_pending_hard_state s)))
    (PersistHardState (mkPersistHardState id (hard_state s)))).

(** The effects up to and including the first hard-state request, that request,
    and the effects after it. *)
Fixpoint split_persistence (effects : list Effect)
    : option (list Effect * PersistRaftHardState * list Effect) :=
  match effects with
  | [] => None
  | PersistHardState request :: after => Some ([PersistHardState request], request, after)
  | effect :: rest =>
      match split_persistence rest with
      | Some (before, request, after) => Some (effect :: before, request, after)
      | None => None
      end
  end.

Definition gate_on_hard_state (r : StepResult) : outcome StepResult :=
  match split_persistence (res_effects r) with
  | None => mret r
  | Some (before, request, deferred) =>
      let s := res_state r in
      throw_when (bool_decide (is_Some (st_pending_hard_state s)))
        (logic_error "Raft hard-state persistence is already pending");;
      mret (mkResult
        (with_persistence s (st_next_hard_state_request_id s) (Some (mkPending request deferred)))
        (res_rules r) before)
  end.

(** ** Replication *)

Definition append_request (s : State) (peer : Z) (read_context : option Z)
    : outcome AppendEntriesRequest :=
  match st_leader s with
  | None => Throw (logic_error "leader state is absent")
  | Some leader =>
      match ld_progress leader !! peer with
      | None => Throw (out_of_range "map::at")
      | Some progress =>
          let base := snapshot_base s in
          let next := Z.max (pg_next_index progress) (u64 (base + 1)) in
          let previous := u64 (next - 1) in
          let entries := if next <=? last_index s
                         then drop (Z.to_nat (next - base - 1)) (log_of s) else [] in
          previous_term ← term_at s previous;
          mret (mkAppendEntries (current_term s) (st_node s) previous previous_term entries
            (st_commit_index s) read_context)
      end
  end.

Definition send_append (read_context : option Z) (r : StepResult) (peer : Z)
    : outcome StepResult :=
  let r1 := push_rule r leader_replicate in
  request ← append_request (res_state r1) peer read_context;
  mret (push_effect r1 (SendAppendEntries peer request)).

(** [progress.emplace] does not overwrite. *)
Definition emplace_progress (next : Z) (m : gmap Z PeerProgress) (peer : Z)
    : gmap Z PeerProgress :=
  match m !! peer with Some _ => m | None => <[peer := mkProgress next 0]> m end.

Definition initialize_leader (r : StepResult) : outcome StepResult :=
  let s := res_state r in
  throw_when (last_index s =? u64_max) (overflow_error "Raft log index exhausted");;
  let next := last_index s + 1 in
  let s1 := with_role s role_leader (Some (st_node s)) ∅
    (Some (mkLeaderState (foldl (emplace_progress next) ∅ (st_peers s)) ∅)) in
  let r1 := push_rule (push_rule (set_state r s1) candidate_win_election) leader_initialize in
  foldM (send_append None) r1 (st_peers s1).

Definition start_election (r : StepResult) : outcome StepResult :=
  let s := res_state r in
  throw_when (current_term s =? u64_max) (overflow_error "Raft term exhausted");;
  let s1 := with_role (with_hard_state s (current_term s + 1) (Some (st_node s)))
    role_candidate None {[st_node s]} None in
  r1 ← persist_hard_state (push_rule (set_state r s1) candidate_start_election);
  let r2 := push_effect r1 ResetElectionTimer in
  let r3 := foldl (λ r peer, push_effect r (SendRequestVote peer
      (mkRequestVote (current_term (res_state r)) (st_node (res_state r))
        (last_index (res_state r)) (last_term (res_state r))))) r2 (st_peers (res_state r2)) in
  if majority (res_state r3) =? 1 then initialize_leader r3 else mret r3.

Definition observe_higher_term (r : StepResult) (observed : Z) : outcome StepResult :=
  let s := res_state r in
  if current_term s <? observed then
    let s1 := with_role (with_hard_state s observed None) role_follower None ∅ None in
    persist_hard_state (push_rule (set_state r s1) observe_higher_term_rule)
  else mret r.

(** ** Vote requests *)

Definition is_log_at_least_as_up_to_date (s : State)
    (candidate_last_term candidate_last_index : Z) : bool :=
  (last_term s <? candidate_last_term)
  || ((candidate_last_term =? last_term s) && (last_index s <=? candidate_last_index)).

Definition handle_request_vote (r : StepResult) (from : Z) (request : RequestVoteRequest)
    : outcome StepResult :=
  ensure_peer (res_state r) from;;
  throw_when (negb (rv_candidate request =? from))
    (invalid_argument "RequestVote sender does not match candidate");;
  r1 ← observe_higher_term r (rv_term request);
  let s := res_state r1 in
  if rv_term request <? current_term s then
    mret (push_effect (push_rule r1 request_vote_reject_stale)
      (SendRequestVoteResponse from (mkVoteResponse (current_term s) false)))
  else
    let can_vote := match voted_for s with
      | None => true
      | Some v => v =? rv_candidate request end in
    let fresh := is_log_at_least_as_up_to_date s (rv_last_log_term request)
      (rv_last_log_index request) in
    if can_vote && fresh then
      let changed := negb (bool_decide (voted_for s = Some (rv_candidate request))) in
      let r2 := push_rule (set_state r1
        (with_hard_state s (current_term s) (Some (rv_candidate request)))) request_vote_grant in
      r3 ← (if changed then persist_hard_state r2 else mret r2);
      mret (push_effect (push_effect r3 ResetElectionTimer)
        (SendRequestVoteResponse from (mkVoteResponse (current_term (res_state r3)) true)))
    else
      mret (push_effect (push_rule r1 request_vote_deny)
        (SendRequestVoteResponse from (mkVoteResponse (current_term s) false))).

Definition handle_request_vote_response (r : StepResult) (from : Z)
    (response : RequestVoteResponse) : outcome StepResult :=
  ensure_peer (res_state r) from;;
  r1 ← observe_higher_term r (vr_term response);
  let s := res_state r1 in
  if negb (bool_decide (st_role s = role_candidate))
     || negb (vr_term response =? current_term s) || negb (vr_granted response)
  then mret r1
  else
    let s1 := with_role s (st_role s) (st_known_leader s)
      ({[from]} ∪ st_votes_received s) (st_leader s) in
    let r2 := set_state r1 s1 in
    if majority s1 <=? Z.of_nat (size (st_votes_received s1))
    then initialize_leader r2 else mret r2.

(** ** Append requests *)

Definition append_reply (r : StepResult) (to : Z) (succeeded : bool) (matched : Z)
    (read_context : option Z) : StepResult :=
  push_effect r (SendAppendEntriesResponse to
    (mkAppendResponse (current_term (res_state r)) succeeded matched read_context)).

(** The check that the entries are numbered consecutively. *)
Definition check_contiguous (expected : Z) (entry : LogEntry) : outcome Z :=
  throw_when (negb (en_index entry =? expected))
    (invalid_argument "AppendEntries entries are not contiguous");;
  mret (u64 (expected + 1)).

(** How the loop over the incoming entries ends: all entries already present or
    the rest starts beyond the log ([merge_from]), a conflict above the commit
    index ([merge_truncate]), or one at or below it ([merge_refuse]). *)
Inductive merge_point :=
| merge_from (rest : list LogEntry)
| merge_truncate (index : Z) (rest : list LogEntry)
| merge_refuse.

Fixpoint scan_entries (s : State) (entries : list LogEntry) : outcome merge_point :=
  match entries with
  | [] => mret (merge_from [])
  | entry :: rest =>
      if last_index s <? en_index entry then mret (merge_from entries)
      else
        term ← term_at s (en_index entry);
        if negb (term =? en_term entry) then
          if en_index entry <=? st_commit_index s then mret merge_refuse
          else mret (merge_truncate (en_index entry) entries)
        else scan_entries s rest
  end.

(** The part of [handle_append_entries] after the log has been updated. *)
Definition finish_append (r : StepResult) (from : Z) (request : AppendEntriesRequest)
    (log_changed : bool) : StepResult :=
  let previous := ae_previous_log_index request in
  let last_new_index := u64 (previous + Z.of_nat (length (ae_entries request))) in
  let r1 := push_rule r append_entries_accept in
  let r2 := if log_changed then push_effect r1 PersistLog else r1 in
  let s := res_state r2 in
  let old_commit := st_commit_index s in
  let r3 :=
    if old_commit <? ae_leader_commit request then
      let bounded_commit := Z.min (ae_leader_commit request) last_new_index in
      if old_commit <? bounded_commit
      then push_rule (set_state r2 (with_indexes s bounded_commit (st_last_applied s)))
             append_entries_advance_commit
      else r2
    else r2 in
  append_reply r3 from true last_new_index (ae_read_context request).

Definition handle_append_entries (r : StepResult) (from : Z) (request : AppendEntriesRequest)
    : outcome StepResult :=
  ensure_peer (res_state r) from;;
  throw_when (negb (ae_leader request =? from))
    (invalid_argument "AppendEntries sender does not match leader");;
  let was_candidate := bool_decide (st_role (res_state r) = role_candidate) in
  r1 ← observe_higher_term r (ae_term request);
  if ae_term request <? current_term (res_state r1) then
    mret (append_reply (push_rule r1 append_entries_reject_stale) from false 0
      (ae_read_context request))
  else
    let r2 := if was_candidate then push_rule r1 candidate_accept_append_entries else r1 in
    let s := with_role (res_state r2) role_follower (Some from) ∅ None in
    let r3 := push_effect (set_state r2 s) ResetElectionTimer in
    let previous := ae_previous_log_index request in
    let base := snapshot_base s in
    let refuse := append_reply (push_rule r3 append_entries_reject_log_mismatch) from false 0
      (ae_read_context request) in
    matches ← (if (base <=? previous) && (previous <=? last_index s)
               then term ← term_at s previous; mret (term =? ae_previous_log_term request)
               else mret false);
    if negb matches then mret refuse
    else
      foldM check_contiguous (u64 (previous + 1)) (ae_entries request);;
      point ← scan_entries s (ae_entries request);
      match point with
      | merge_refuse => mret refuse
      | merge_from [] => mret (finish_append r3 from request false)
      | merge_from rest =>
          mret (finish_append (set_state r3 (with_log s (log_of s ++ rest))) from request true)
      | merge_truncate index rest =>
          mret (finish_append (set_state r3
            (with_log s (take (Z.to_nat (index - base - 1)) (log_of s) ++ rest))) from request true)
      end.

(** ** Leader *)

Definition replicated (leader : LeaderState) (candidate : Z) : Z :=
  1 + Z.of_nat (size (filter (λ e : Z * PeerProgress, candidate ≤ pg_match_index e.2)
                        (ld_progress leader))).

(** The loop of [advance_leader_commit]: [fuel] candidates below and including
    [candidate]. *)
Fixpoint commit_candidate (s : State) (leader : LeaderState) (candidate : Z) (fuel : nat)
    : outcome (option Z) :=
  match fuel with
  | O => mret None
  | S fuel' =>
      term ← term_at s candidate;
      if negb (term =? current_term s) then commit_candidate s leader (candidate - 1) fuel'
      else if majority s <=? replicated leader candidate then mret (Some candidate)
      else commit_candidate s leader (candidate - 1) fuel'
  end.

Definition advance_leader_commit (r : StepResult) : outcome StepResult :=
  let s := res_state r in
  match st_leader s with
  | None => if last_index s <=? st_commit_index s then mret r
            else Throw (logic_error "leader state is absent")
  | Some leader =>
      found ← commit_candidate s leader (last_index s)
        (Z.to_nat (last_index s - st_commit_index s));
      match found with
      | Some candidate =>
          mret (push_rule (set_state r (with_indexes s candidate (st_last_applied s)))
            leader_advance_commit)
      | None => mret r
      end
  end.

Definition handle_append_entries_response (r : StepResult) (from : Z)
    (response : AppendEntriesResponse) : outcome StepResult :=
  ensure_peer (res_state r) from;;
  r1 ← observe_higher_term r (ar_term response);
  let s := res_state r1 in
  if negb (bool_decide (st_role s = role_leader)) || negb (ar_term response =? current_term s)
  then mret r1
  else
    match st_leader s with
    | None => Throw (logic_error "leader state is absent")
    | Some leader =>
        match ld_progress leader !! from with
        | None => Throw (invalid_argument "AppendEntries response from non-peer")
        | Some progress =>
            if ar_succeeded response then
              throw_when (last_index s <? ar_matched_index response)
                (invalid_argument "matched index exceeds leader log");;
              let matched := Z.max (pg_match_index progress) (ar_matched_index response) in
              let leader1 := mkLeaderState
                (<[from := mkProgress (u64 (matched + 1)) matched]> (ld_progress leader))
                (ld_pending_clients leader) in
              advance_leader_commit
                (push_rule (set_state r1 (with_leader s (Some leader1))) leader_record_replication)
            else
              let next := Z.max (u64 (pg_match_index progress + 1))
                (Z.max 1 (u64 (pg_next_index progress - 1))) in
              let leader1 := mkLeaderState
                (<[from := mkProgress next (pg_match_index progress)]> (ld_progress leader))
                (ld_pending_clients leader) in
              send_append (ar_read_context response)
                (push_rule (set_state r1 (with_leader s (Some leader1))) leader_retry_replication)
                from
        end
    end.

Definition handle_apply (r : StepResult) : outcome StepResult :=
  let s := res_state r in
  if st_commit_index s <=? st_last_applied s then mret r
  else
    let index := st_last_applied s + 1 in
    let s1 := with_indexes s (st_commit_index s) index in
    let r1 := push_rule (set_state r s1) apply_committed in
    entry ← log_at (log_of s1) (index - snapshot_base s1 - 1);
    let r2 := push_effect r1 (ApplyCommand index (en_command entry)) in
    match st_leader s1 with
    | Some leader =>
        if bool_decide (index ∈ ld_pending_clients leader) then
          mret (push_effect (set_state r2 (with_leader s1 (Some (mkLeaderState
            (ld_progress leader) (ld_pending_clients leader ∖ {[index]})))))
            (CompleteClientCommand index))
        else mret r2
    | None => mret r2
    end.

Definition handle_client (r : StepResult) (command : CommandEnvelope) : outcome StepResult :=
  let s := res_state r in
  if negb (bool_decide (st_role s = role_leader)) then mret r
  else
    throw_when (last_index s =? u64_max) (overflow_error "Raft log index exhausted");;
    match st_leader s with
    | None => Throw (logic_error "leader state is absent")
    | Some leader =>
        let index := last_index s + 1 in
        let s1 := with_leader
          (with_log s (log_of s ++ [mkEntry (current_term s) index command]))
          (Some (mkLeaderState (ld_progress leader) ({[index]} ∪ ld_pending_clients leader))) in
        let r1 := push_effect (push_rule (set_state r s1) leader_append_client) PersistLog in
        r2 ← foldM (send_append None) r1 (st_peers s1);
        advance_leader_commit r2
    end.

Definition handle_timeout (r : StepResult) : outcome StepResult :=
  let s := res_state r in
  match st_role s with
  | role_leader => foldM (send_append None) (push_rule r leader_heartbeat) (st_peers s)
  | role_follower => start_election (push_rule r follower_election_timeout)
  | role_candidate => start_election (push_rule r candidate_restart_election)
  | role_learner => mret r
  end.

(** ** The step function *)

Definition handle_completion (r : StepResult) (completion : RaftHardStatePersisted)
    : outcome StepResult :=
  let s := res_state r in
  match st_pending_hard_state s with
  | None => Throw (logic_error "no hard-state persistence is pending")
  | Some pending =>
      throw_when (negb (hsp_request_id completion =? phs_request_id (pd_request pending))
                  || negb (bool_decide (hsp_state completion = phs_state (pd_request pending))))
        (invalid_argument "Raft hard-state completion does not match pending request");;
      mret (mkResult (with_persistence s (st_next_hard_state_request_id s) None)
        (res_rules r) (pd_deferred_effects pending))
  end.

Definition dispatch (r : StepResult) (event : Event) : outcome StepResult :=
  match event with
  | ElectionTimeout =>
      if bool_decide (st_role (res_state r) = role_leader) then mret r else handle_timeout r
  | HeartbeatTimeout =>
      if bool_decide (st_role (res_state r) = role_leader) then handle_timeout r else mret r
  | ApplyCommitted => handle_apply r
  | ObserveTerm term => observe_higher_term r term
  | ReceiveRequestVote from request => handle_request_vote r from request
  | ReceiveRequestVoteResponse from response => handle_request_vote_response r from response
  | ReceiveAppendEntries from request => handle_append_entries r from request
  | ReceiveAppendEntriesResponse from response => handle_append_entries_response r from response
  | ReceiveClientCommand command => handle_client r command
  | HardStatePersisted completion => handle_completion r completion
  end.

Definition is_completion (event : Event) : bool :=
  match event with HardStatePersisted _ => true | _ => false end.

Definition step (s : State) (event : Event) : outcome StepResult :=
  ensure_valid s "invalid pre-state";;
  let pending := bool_decide (is_Some (st_pending_hard_state s)) in
  throw_when (pending && negb (is_completion event))
    (logic_error "Raft core input is blocked on hard-state persistence");;
  throw_when (negb pending && is_completion event)
    (invalid_argument "unexpected Raft hard-state persistence completion");;
  r ← dispatch (mkResult s [] []) event;
  r' ← gate_on_hard_state r;
  ensure_valid (res_state r') "invalid post-state";;
  mret r'.
