(* ===== verification/RuleCatalog.v ===== *)
(** * The rule catalog of the Figure 2 specification

    [rule_catalog], [catalog] and [rule_name] of src/figure2_spec.cpp: the texts
    that describe each rule [Figure2.step] can report.  The catalog is tied to
    the state machine: [rule_name] never throws on a rule of the enumeration,
    and a step all of whose rules the catalog describes with "No state change."
    changes no member of the state. *)

From S2P Require Import Prelude OrdMap Bytes StoreTypes RaftTypes Figure2.

#[export] Instance RuleId_eq_dec : EqDecision RuleId.
Proof. solve_decision. Defined.

Record RuleDescriptor := mkDescriptor {
  rd_id : RuleId;
  rd_name : string;
  rd_server_scope : string;
  rd_preconditions : string;
  rd_state_changes : string;
  rd_emitted_effects : string;
  rd_persistence_ordering : string }.

Local Open Scope string_scope.

Definition rule_catalog : list RuleDescriptor := [
   mkDescriptor observe_higher_term_rule "observe higher term" "all servers"
     "An incoming RPC request or response has term > currentTerm."
     "Set currentTerm, clear votedFor, become follower, and clear candidate/leader volatile state."
     "PersistRaftHardState(currentTerm, votedFor) blocks further processing."
     "The new term and empty vote reach stable storage before any response or new-term activity.";
   mkDescriptor apply_committed "apply committed entry" "all servers"
     "commitIndex > lastApplied."
     "Increment lastApplied by one."
     "ApplyCommand, then CompleteClientCommand when this leader owns the pending request."
     "No Raft persistence; apply is emitted strictly in index order and client completion follows apply.";
   mkDescriptor follower_election_timeout "follower election timeout" "follower"
     "Election timeout event while follower."
     "Become candidate and start an election."
     "The candidate-start effects are emitted."
     "Term and self-vote persistence precede RequestVote sends.";
   mkDescriptor request_vote_reject_stale "reject stale RequestVote" "RPC receiver"
     "request.term < currentTerm."
     "No state change."
     "SendRequestVoteResponse(granted=false, currentTerm)."
     "No persistence is needed because persistent state is unchanged.";
   mkDescriptor request_vote_grant "grant RequestVote" "RPC receiver"
     "Term is current; votedFor is empty or candidate; candidate log is at least as up-to-date."
     "Set votedFor to candidate."
     "PersistRaftHardState(term, vote); completion releases timer reset and granted response."
     "The vote reaches stable storage before the granted response.";
   mkDescriptor request_vote_deny "deny RequestVote" "RPC receiver"
     "Term is current, but prior vote or log freshness condition fails."
     "No state change."
     "SendRequestVoteResponse(granted=false)."
     "Any preceding higher-term persistence completes before the denial.";
   mkDescriptor append_entries_reject_stale "reject stale AppendEntries" "RPC receiver"
     "request.term < currentTerm."
     "No state change."
     "SendAppendEntriesResponse(succeeded=false, currentTerm)."
     "No persistence is needed because persistent state is unchanged.";
   mkDescriptor append_entries_reject_log_mismatch "reject log mismatch" "RPC receiver"
     "The log lacks prevLogIndex or its term differs from prevLogTerm."
     "No log or commit-index change."
     "ResetElectionTimer and failed AppendEntries response."
     "Any preceding higher-term persistence completes before the response.";
   mkDescriptor append_entries_accept "accept AppendEntries" "RPC receiver"
     "Term is current and the previous-log entry matches."
     "Become follower; delete a conflicting suffix and append entries not already present."
     "ResetElectionTimer, optional PersistState(log), then successful response."
     "A changed log reaches stable storage before the successful response.";
   mkDescriptor append_entries_advance_commit "advance follower commit" "RPC receiver"
     "Accepted AppendEntries has leaderCommit > commitIndex."
     "Set commitIndex=min(leaderCommit,last new/existing log index)."
     "No additional effect; application is a separate all-server step."
     "commitIndex is volatile; appended entries are persisted before success.";
   mkDescriptor candidate_start_election "start election" "candidate"
     "Follower timeout or explicit candidate election start."
     "Increment term, vote for self, retain only self vote, clear known leader."
     "PersistRaftHardState(term,self); completion releases timer reset and RequestVote sends."
     "Term and self-vote reach stable storage before any election RPC.";
   mkDescriptor candidate_restart_election "restart election" "candidate"
     "Election timeout while candidate."
     "Start a new election in a higher term."
     "The candidate-start effects are emitted."
     "New term and self-vote persistence precede RequestVote sends.";
   mkDescriptor candidate_win_election "win election" "candidate"
     "Granted votes, including self, form a majority in the current term."
     "Become leader and initialize leader-only state."
     "Initial empty AppendEntries to every peer."
     "No new persistence; prior self-vote persistence already completed.";
   mkDescriptor candidate_accept_append_entries "candidate steps down" "candidate"
     "AppendEntries term is at least currentTerm."
     "Become follower and record the leader."
     "Continue through normal AppendEntries receiver rules."
     "Higher term is persisted first when applicable.";
   mkDescriptor leader_initialize "initialize leader" "leader"
     "Candidate wins an election."
     "For each peer set nextIndex=lastLogIndex+1 and matchIndex=0."
     "Send initial empty AppendEntries heartbeats."
     "No persistent state changes.";
   mkDescriptor leader_append_client "append client command" "leader"
     "A client command arrives at the leader."
     "Append a current-term entry and track its pending client response."
     "PersistState(log), then replication sends."
     "The local entry reaches stable storage before it is sent to peers; response waits for apply.";
   mkDescriptor leader_replicate "replicate log" "leader"
     "A heartbeat/replication trigger occurs for a peer."
     "No state change."
     "Send AppendEntries from peer.nextIndex, possibly empty."
     "All entries in the request were persisted before this send.";
   mkDescriptor leader_record_replication "record replication success" "leader"
     "Current-term successful AppendEntries response."
     "Raise matchIndex to matchedIndex and nextIndex to matchedIndex+1."
     "May trigger volatile commit advancement."
     "Follower success implies its log persistence completed.";
   mkDescriptor leader_retry_replication "retry replication" "leader"
     "Current-term failed AppendEntries response."
     "Decrement nextIndex, never below one."
     "Send retry AppendEntries from the new nextIndex."
     "No persistence; retry references only already-persisted entries.";
   mkDescriptor leader_advance_commit "advance leader commit" "leader"
     "A majority match N > commitIndex and log[N].term == currentTerm."
     "Set commitIndex to the greatest such N."
     "No immediate apply; application is a separate all-server step."
     "commitIndex is volatile; the current-term restriction prevents unsafe indirect commitment.";
   mkDescriptor leader_heartbeat "leader heartbeat" "leader"
     "Heartbeat timeout event."
     "No state change."
     "Send AppendEntries to every peer."
     "Requests contain only entries already persisted locally."].

Local Close Scope string_scope.

Definition catalog : list RuleDescriptor := rule_catalog.

(** [std::ranges::find] with the projection [&RuleDescriptor::id] *)
Definition find_rule (id : RuleId) : option RuleDescriptor :=
  snd <$> list_find (λ d, rd_id d = id) rule_catalog.

Definition rule_name (id : RuleId) : outcome string :=
  match find_rule id with
  | None => Throw (invalid_argument "unknown Figure 2 rule")
  | Some found => mret (rd_name found)
  end.

(** ** The catalog covers the enumeration *)

Lemma rule_listed id : id ∈ rd_id <$> rule_catalog.
Proof. apply (bool_decide_unpack _). by destruct id. Qed.

Lemma rules_distinct : NoDup (rd_id <$> rule_catalog).
Proof. apply (bool_decide_unpack _). vm_compute. exact I. Qed.

Lemma names_distinct : NoDup (rd_name <$> rule_catalog).
Proof. apply (bool_decide_unpack _). vm_compute. exact I. Qed.

Lemma find_rule_spec id d : find_rule id = Some d ↔ d ∈ rule_catalog ∧ rd_id d = id.
Proof.
  unfold find_rule. split.
  - intros ([i d'] & (Hi & Hid & _)%list_find_Some & ->)%fmap_Some. simpl.
    split; [by eapply list_elem_of_lookup_2|done].
  - intros [Hin Hid]. destruct (list_find_elem_of (λ d, rd_id d = id) _ _ Hin Hid) as [[i d'] Hf].
    rewrite Hf. simpl. f_equal. apply list_find_Some in Hf as (Hi & Hid' & _).
    apply list_elem_of_lookup in Hin as [j Hj].
    assert (i = j) as ->; [|congruence].
    apply (NoDup_lookup (rd_id <$> rule_catalog) i j id); [exact rules_distinct| |];
      rewrite list_lookup_fmap, ?Hi, ?Hj; simpl; congruence.
Qed.

Lemma find_rule_total id : is_Some (find_rule id).
Proof.
  destruct (proj1 (list_elem_of_fmap _ _ _) (rule_listed id)) as (d & -> & Hd).
  exists d. by apply find_rule_spec.
Qed.

(** Every rule has exactly one descriptor, and [rule_name] returns its name,
    which is not empty and belongs to no other rule. *)
Theorem rule_names_identify_rules :
  (∀ id, exists! d, d ∈ catalog ∧ rd_id d = id) ∧
  (∀ id, ∃ d, d ∈ catalog ∧ rd_id d = id ∧ rule_name id = Ret (rd_name d) ∧ rd_name d ≠ ""%string) ∧
  (∀ id id', rule_name id = rule_name id' → id = id').
Proof.
  unfold catalog, rule_name. split_and!.
  - intros id. destruct (find_rule_total id) as [d Hd]. exists d.
    split; [by apply find_rule_spec|]. intros d' Hd'%find_rule_spec. congruence.
  - intros id. destruct (find_rule_total id) as [d Hd]. exists d. rewrite Hd.
    apply find_rule_spec in Hd as [Hin Hid]. split_and!; try done.
    assert (Forall (λ d, rd_name d ≠ ""%string) rule_catalog) as Hall
      by (apply (bool_decide_unpack _); vm_compute; exact I).
    exact (proj1 (Forall_forall _ _) Hall _ Hin).
  - intros id id'. destruct (find_rule_total id) as [d Hd], (find_rule_total id') as [d' Hd'].
    rewrite Hd, Hd'. intros [= Heq].
    apply find_rule_spec in Hd as [Hin <-], Hd' as [Hin' <-]. f_equal.
    apply list_elem_of_lookup in Hin as [i Hi], Hin' as [j Hj].
    assert (i = j) as ->; [|congruence].
    apply (NoDup_lookup (rd_name <$> rule_catalog) i j (rd_name d)); [exact names_distinct| |];
      rewrite list_lookup_fmap, ?Hi, ?Hj; simpl; congruence.
Qed.

(** ** Rules without a state change *)

(** The catalog says of the rule that it changes nothing. *)
Definition unchanging (id : RuleId) : Prop :=
  rd_state_changes <$> find_rule id = Some "No state change."%string.

#[export] Instance unchanging_dec id : Decision (unchanging id).
Proof. unfold unchanging. apply _. Defined.

Definition loud (r : StepResult) : Prop := Exists (λ id, ¬ unchanging id) (res_rules r).

Lemma loud_now r id s es :
  ¬ unchanging id → loud (mkResult s (res_rules r ++ [id]) es).
Proof. intros H. apply Exists_app. right. by constructor. Qed.

Lemma loud_later r id s es :
  loud r → loud (mkResult s (res_rules r ++ [id]) es).
Proof. intros H. apply Exists_app. by left. Qed.

(** What a handler that starts from the state [s] with no rules leaves: no rule,
    a rule that is said to change the state, or the state [s] with no request
    to the hard-state storage. *)
Definition described (s : State) (r : StepResult) : Prop :=
  res_rules r = [] ∨ loud r ∨ (res_state r = s ∧ split_persistence (res_effects r) = None).

Ltac not_unchanging :=
  apply (bool_decide_unpack _); vm_compute; exact I.

Lemma split_app_none es e :
  split_persistence es = None → (∀ q, e ≠ PersistHardState q) →
  split_persistence (es ++ [e]) = None.
Proof.
  intros Hes He. induction es as [|e' es IH]; simpl in *.
  - destruct e; try done. by destruct (He request).
  - destruct e'; try done; destruct (split_persistence es) as [[[? ?] ?]|]; try done;
      by rewrite IH.
Qed.

Lemma persist_loud r : loud r → owp (persist_hard_state r) loud (λ _, True).
Proof. intros H. apply owp_bind, owp_throw_when; [done|]. by intros _. Qed.

Lemma sends_loud ctx r peers : loud r → owp (foldM (send_append ctx) r peers) loud (λ _, True).
Proof.
  intros H. apply (owp_foldM _ (λ _, loud)); [done|]. intros _ peer _ r' _ Hr.
  apply owp_bind. destruct (append_request _ _ _); simpl; [|done]. by apply loud_later.
Qed.

Lemma initialize_loud r : owp (initialize_leader r) loud (λ _, True).
Proof.
  apply owp_bind, owp_throw_when; [done|]. intros _. apply sends_loud.
  apply loud_later, loud_now. not_unchanging.
Qed.

Lemma advance_loud r : loud r → owp (advance_leader_commit r) loud (λ _, True).
Proof.
  intros H. unfold advance_leader_commit. destruct (st_leader _) as [l|].
  - apply owp_bind. destruct (commit_candidate _ _ _ _) as [[c|]|]; simpl; try done.
    by apply loud_later.
  - by destruct (_ <=? _).
Qed.

Lemma start_election_loud r : owp (start_election r) loud (λ _, True).
Proof.
  apply owp_bind, owp_throw_when; [done|]. intros _. apply owp_bind.
  eapply owp_mono; [apply persist_loud, loud_now; not_unchanging| |done]. intros r1 _ Hr1.
  cbv zeta. destruct (majority _ =? 1); [apply initialize_loud|]. simpl.
  generalize (st_peers (res_state r1)). intros peers.
  assert (loud (push_effect r1 ResetElectionTimer)) as Hr2 by exact Hr1. revert Hr2.
  generalize (push_effect r1 ResetElectionTimer). clear r1 Hr1.
  induction peers as [|p peers IH]; intros r2 Hr2; [exact Hr2|]. simpl. apply IH. exact Hr2.
Qed.

Lemma observe_loud r t :
  owp (observe_higher_term r t) (λ r1, r1 = r ∨ loud r1) (λ _, True).
Proof.
  unfold observe_higher_term. destruct (_ <? t); [|left; reflexivity].
  eapply owp_mono; [apply persist_loud, loud_now; not_unchanging| |done]. intros r1 _ H. by right.
Qed.

Lemma heartbeat_described s peers rules :
  owp (foldM (send_append None) (mkResult s rules []) peers)
    (λ r, res_state r = s ∧ split_persistence (res_effects r) = None) (λ _, True).
Proof.
  apply (owp_foldM _ (λ _ r, res_state r = s ∧ split_persistence (res_effects r) = None)); [done|].
  intros _ peer _ r _ [Hs Hn]. apply owp_bind.
  destruct (append_request _ _ _); simpl; [|done]. split; [done|]. by apply split_app_none.
Qed.

Lemma described_quiet s r : res_state r = s → split_persistence (res_effects r) = None → described s r.
Proof. intros; right; right; done. Qed.

Lemma described_loud s r : loud r → described s r.
Proof. intros; right; left; done. Qed.

Lemma finish_loud r from q changed : loud (finish_append r from q changed).
Proof.
  unfold finish_append. cbv zeta.
  assert (loud (push_rule r append_entries_accept)) as Hr by (apply loud_now; not_unchanging).
  destruct changed; repeat case_match; try exact Hr; by apply loud_later.
Qed.

Lemma request_vote_described s from q :
  owp (handle_request_vote (mkResult s [] []) from q) (described s) (λ _, True).
Proof.
  apply owp_bind, owp_throw_when; [done|intros _].
  apply owp_bind, owp_throw_when; [done|intros _].
  apply owp_bind. eapply owp_mono; [apply observe_loud| |done]. intros r1 _ Hr1.
  cbv zeta. destruct (_ <? _).
  { destruct Hr1 as [->|Hr1]; simpl; [by apply described_quiet|]. by apply described_loud, loud_later. }
  destruct (_ && _).
  - apply owp_bind. eapply (owp_mono _ loud _ (λ _, True)); [| |done].
    + destruct (negb _); [apply persist_loud|]; apply loud_now; not_unchanging.
    + intros r3 _ Hr3. by apply described_loud.
  - destruct Hr1 as [->|Hr1]; simpl; [by apply described_quiet|]. by apply described_loud, loud_later.
Qed.

Lemma append_entries_described s from q :
  owp (handle_append_entries (mkResult s [] []) from q) (described s) (λ _, True).
Proof.
  apply owp_bind, owp_throw_when; [done|intros _].
  apply owp_bind, owp_throw_when; [done|intros _].
  apply owp_bind. eapply owp_mono; [apply observe_loud| |done]. intros r1 _ Hr1.
  cbv zeta. destruct (_ <? _).
  { destruct Hr1 as [->|Hr1]; simpl; [by apply described_quiet|]. by apply described_loud, loud_later. }
  apply owp_bind. eapply (owp_mono _ (λ _, True) _ (λ _, True)); [by destruct (_ : outcome bool)| |done].
  intros matches _ _.
  destruct (negb matches); [apply described_loud, loud_now; not_unchanging|].
  apply owp_bind. eapply (owp_mono _ (λ _, True) _ (λ _, True)); [by destruct (foldM _ _ _)| |done].
  intros _ _ _. apply owp_bind.
  eapply (owp_mono _ (λ _, True) _ (λ _, True)); [by destruct (scan_entries _ _)| |done].
  intros point _ _.
  destruct point as [[|e rest]|i rest|]; apply described_loud; try apply finish_loud.
  apply loud_now. not_unchanging.
Qed.

Lemma observed_described s (r1 : StepResult) :
  r1 = mkResult s [] [] ∨ loud r1 → described s r1.
Proof. intros [->|H]; [by left|by apply described_loud]. Qed.

Lemma vote_response_described s from q :
  owp (handle_request_vote_response (mkResult s [] []) from q) (described s) (λ _, True).
Proof.
  apply owp_bind, owp_throw_when; [done|intros _].
  apply owp_bind. eapply owp_mono; [apply observe_loud| |done]. intros r1 _ Hr1.
  cbv zeta. destruct (_ || _); [by apply observed_described|].
  destruct (_ <=? _).
  - eapply owp_mono; [apply initialize_loud| |done]. intros r _. apply described_loud.
  - destruct Hr1 as [->|Hr1]; [by left|]. by apply described_loud.
Qed.

Lemma append_response_described s from q :
  owp (handle_append_entries_response (mkResult s [] []) from q) (described s) (λ _, True).
Proof.
  apply owp_bind, owp_throw_when; [done|intros _].
  apply owp_bind. eapply owp_mono; [apply observe_loud| |done]. intros r1 _ Hr1.
  cbv zeta. destruct (_ || _); [by apply observed_described|].
  destruct (st_leader _) as [l|]; [|done]. destruct (_ !! from) as [p|]; [|done].
  destruct (ar_succeeded q).
  - apply owp_bind, owp_throw_when; [done|intros _].
    eapply owp_mono; [apply advance_loud, loud_now; not_unchanging| |done].
    intros r _. apply described_loud.
  - apply owp_bind. destruct (append_request _ _ _); [|done]. simpl.
    apply described_loud, loud_later, loud_now. not_unchanging.
Qed.

Lemma apply_described s : owp (handle_apply (mkResult s [] [])) (described s) (λ _, True).
Proof.
  unfold handle_apply. cbv zeta. destruct (_ <=? _); [by left|].
  apply owp_bind. destruct (log_at _ _) as [entry|]; [|done]. simpl.
  assert (∀ s' es, loud (mkResult s' [apply_committed] es)) as Hloud
    by (intros s' es; apply (loud_now (mkResult s' [] es)); not_unchanging).
  destruct (st_leader s) as [l|]; [|apply described_loud, Hloud].
  destruct (bool_decide _); apply described_loud, Hloud.
Qed.

Lemma client_described s c : owp (handle_client (mkResult s [] []) c) (described s) (λ _, True).
Proof.
  unfold handle_client. cbv zeta. destruct (negb _); [by left|].
  apply owp_bind, owp_throw_when; [done|intros _]. destruct (st_leader _) as [l|]; [|done].
  apply owp_bind. eapply owp_mono; [apply sends_loud| |done].
  { apply (loud_now (mkResult s [] [])). not_unchanging. }
  intros r _ Hr. eapply owp_mono; [by apply advance_loud| |done].
  intros r' _. apply described_loud.
Qed.

Lemma timeout_described s : owp (handle_timeout (mkResult s [] [])) (described s) (λ _, True).
Proof.
  unfold handle_timeout. cbn [res_state]. destruct (st_role s); [| | |by left].
  all: try (eapply owp_mono; [apply start_election_loud| |done]; intros r _; apply described_loud).
  eapply owp_mono; [apply heartbeat_described| |done]. intros r _ [Hs Hn].
  by apply described_quiet.
Qed.

Lemma dispatch_described s e : owp (dispatch (mkResult s [] []) e) (described s) (λ _, True).
Proof.
  destruct e; simpl.
  - destruct (bool_decide _); [by left|apply timeout_described].
  - destruct (bool_decide _); [apply timeout_described|by left].
  - apply apply_described.
  - eapply owp_mono; [apply observe_loud| |done]. intros r _. apply observed_described.
  - apply request_vote_described.
  - apply vote_response_described.
  - apply append_entries_described.
  - apply append_response_described.
  - apply client_described.
  - unfold handle_completion. simpl. destruct (st_pending_hard_state s); [|done].
    apply owp_bind, owp_throw_when; [done|intros _]. by left.
Qed.

Lemma gate_rules r r' :
  gate_on_hard_state r = Ret r' →
  res_rules r' = res_rules r ∧ (split_persistence (res_effects r) = None → r' = r).
Proof.
  unfold gate_on_hard_state. destruct (split_persistence _) as [[[before q] deferred]|].
  - intros (_ & _ & [= <-])%bind_Ret. done.
  - intros [= <-]. done.
Qed.

(** A step that fires at least one rule, all of them rules of which the
    catalog says "No state change.", returns the state it was given, every
    member of it, and asks for no hard-state write: the rejections and denials
    of requests, heartbeats and replication. *)
Theorem unchanging_rules_keep_state s e r :
  step s e = Ret r → res_rules r ≠ [] → Forall unchanging (res_rules r) →
  res_state r = s ∧ split_persistence (res_effects r) = None.
Proof.
  intros Hstep Hne Hall. unfold step in Hstep.
  apply bind_Ret in Hstep as (_ & _ & Hstep). cbv zeta in Hstep.
  apply bind_Ret in Hstep as (_ & _ & Hstep). apply bind_Ret in Hstep as (_ & _ & Hstep).
  apply bind_Ret in Hstep as (r0 & Hd & Hstep). apply bind_Ret in Hstep as (r1 & Hg & Hstep).
  apply bind_Ret in Hstep as (_ & _ & [= ->]). apply gate_rules in Hg as [Hrules Hquiet].
  pose proof (dispatch_described s e) as H. rewrite Hd in H. simpl in H. rewrite Hrules in Hne, Hall.
  destruct H as [H|[H|[Hs Hn]]]; [done| |rewrite (Hquiet Hn); done].
  apply Exists_exists in H as (id & Hin & Hid). destruct Hid.
  exact (proj1 (Forall_forall _ _) Hall id Hin).
Qed.

(** A leader of two peers sends heartbeats. *)
Definition heartbeat_state : State :=
  mkState 1 [2; 3] role_leader (mkPersistent 4 (Some 1) None []) 0 0 (Some 1) ∅
    (Some (mkLeaderState {[2 := mkProgress 1 0; 3 := mkProgress 1 0]} ∅)) 1 None.

Lemma unchanging_rules_keep_state_witness :
  ∃ r, step heartbeat_state HeartbeatTimeout = Ret r ∧
    res_rules r = [leader_heartbeat; leader_replicate; leader_replicate] ∧
    res_state r = heartbeat_state ∧ split_persistence (res_effects r) = None.
Proof.
  eexists. split; [vm_compute; reflexivity|]. split; [reflexivity|].
  apply (unchanging_rules_keep_state _ HeartbeatTimeout); [vm_compute; reflexivity|done|].
  apply (bool_decide_unpack _). vm_compute. exact I.
Defined.
