(* ===== verification/Figure2Votes.v ===== *)
(** * Votes and hard state of a Figure 2 server

    How one step changes term, vote, role and received votes, and in which order
    it emits hard-state requests and messages: [hs_run] interprets an effect list
    against a durable hard state and succeeds only when every request follows the
    state before it and every granted vote and vote request is covered by it. *)

From S2P Require Import Prelude OrdMap Bytes StoreTypes RaftTypes Figure2.

(** ** Hard states in order *)

(** [validate_transition] of the hard-state store: the term does not decrease
    and a vote is not changed within a term. *)
Definition follows (h h' : RaftHardState) : Prop :=
  hs_current_term h < hs_current_term h' ∨
  (hs_current_term h = hs_current_term h' ∧
   (hs_voted_for h = None ∨ hs_voted_for h = hs_voted_for h')).

#[export] Instance follows_dec h h' : Decision (follows h h').
Proof. unfold follows. apply _. Defined.

Lemma follows_refl h : follows h h.
Proof. right. auto. Qed.

Lemma follows_trans h1 h2 h3 : follows h1 h2 → follows h2 h3 → follows h1 h3.
Proof.
  unfold follows. intros [?|[? Hv]] [?|[? Hv']]; [left; lia..|]. right. split; [lia|].
  destruct Hv as [?|Hv]; [by left|]. rewrite Hv. done.
Qed.

#[export] Instance follows_preorder : PreOrder follows.
Proof. split; [exact follows_refl|exact follows_trans]. Qed.

(** One effect against the hard state that is durable when it is performed. *)
Definition hs_effect (h : RaftHardState) (effect : Effect) : option RaftHardState :=
  match effect with
  | PersistHardState request =>
      if decide (follows h (phs_state request) ∧ phs_request_id request ≠ 0)
      then Some (phs_state request) else None
  | SendRequestVoteResponse to response =>
      if vr_granted response
      then if decide (h = mkHardState (vr_term response) (Some to)) then Some h else None
      else Some h
  | SendRequestVote _ request =>
      if decide (h = mkHardState (rv_term request) (Some (rv_candidate request)))
      then Some h else None
  | _ => Some h
  end.

Fixpoint hs_run (h : RaftHardState) (effects : list Effect) : option RaftHardState :=
  match effects with
  | [] => Some h
  | effect :: rest => match hs_effect h effect with Some h' => hs_run h' rest | None => None end
  end.

Lemma hs_run_app h es1 es2 :
  hs_run h (es1 ++ es2) = match hs_run h es1 with Some h' => hs_run h' es2 | None => None end.
Proof.
  revert h. induction es1 as [|e es1 IH]; intros h; simpl; [done|].
  destruct (hs_effect h e); [apply IH|done].
Qed.

Lemma hs_run_follows h es h' : hs_run h es = Some h' → follows h h'.
Proof.
  revert h. induction es as [|e es IH]; intros h; simpl; [by intros [= ->]|].
  destruct (hs_effect h e) as [h1|] eqn:He; [|done]. intros Hrun%IH. trans h1; [|done].
  destruct e; simpl in He; repeat case_match; simplify_eq; try done; by destruct_and!.
Qed.

(** Every hard-state request of an accepted effect list has an identifier. *)
Lemma hs_run_requests h es h' q :
  hs_run h es = Some h' → PersistHardState q ∈ es → phs_request_id q ≠ 0.
Proof.
  intros Hrun (es1 & es2 & ->)%list_elem_of_split. rewrite hs_run_app in Hrun.
  destruct (hs_run h es1); [|done]. simpl in Hrun. case_decide; [tauto|done].
Qed.

(** ** Effects in step with the state *)

Section synced.
Context (h0 : RaftHardState).

(** The effects so far take [h0] to the hard state of the result. *)
Definition synced (r : StepResult) : Prop :=
  hs_run h0 (res_effects r) = Some (hard_state (res_state r)).

Lemma synced_push_rule r rule : synced r → synced (push_rule r rule).
Proof. done. Qed.

Lemma synced_set_state r s :
  synced r → hard_state s = hard_state (res_state r) → synced (set_state r s).
Proof. unfold synced. simpl. by intros -> ->. Qed.

Lemma synced_push_effect r e :
  synced r → hs_effect (hard_state (res_state r)) e = Some (hard_state (res_state r)) →
  synced (push_effect r e).
Proof. unfold synced. simpl. intros Hr He. by rewrite hs_run_app, Hr; simpl; rewrite He. Qed.

(** A changed hard state followed by its persistence request. *)
Lemma synced_persist r s :
  synced r → follows (hard_state (res_state r)) (hard_state s) →
  owp (persist_hard_state (set_state r s))
    (λ r', synced r' ∧ ∃ id, res_state r' = with_persistence s id (st_pending_hard_state s))
    (λ _, True).
Proof.
  intros Hr Hf. unfold persist_hard_state. ostep. ostep; [done|]. simpl.
  split; [|by eexists]. unfold synced in *. simpl. rewrite hs_run_app, Hr. simpl.
  rename select (_ || _ = false) into Hid. simpl in Hid.
  rewrite decide_True; [done|]. simpl. split; [done|lia].
Qed.
End synced.

#[export] Hint Resolve synced_push_rule : kura.

(** ** Frames of the helpers *)

(** A handler step that leaves the state alone and only adds messages that need
    no vote. *)
Definition quiet_effect (e : Effect) : Prop :=
  match e with
  | PersistHardState _ | SendRequestVote _ _ => False
  | SendRequestVoteResponse _ response => vr_granted response = false
  | _ => True
  end.

Lemma synced_quiet h0 r e : synced h0 r → quiet_effect e → synced h0 (push_effect r e).
Proof.
  intros Hr He. apply synced_push_effect; [done|]. destruct e; simpl in *; try done.
  by rewrite He.
Qed.

Lemma send_append_frame ctx r peer :
  owp (send_append ctx r peer)
    (λ r', res_state r' = res_state r ∧
      ∃ q, res_effects r' = res_effects r ++ [SendAppendEntries peer q])
    (λ _, True).
Proof.
  unfold send_append. ostep. destruct (append_request _ _ _) as [q|]; [|done].
  simpl. eauto.
Qed.

Lemma send_appends_frame h0 peers r :
  synced h0 r →
  owp (foldM (send_append None) r peers)
    (λ r', res_state r' = res_state r ∧ synced h0 r') (λ _, True).
Proof.
  intros Hr. apply (owp_foldM _ (λ _ r', res_state r' = res_state r ∧ synced h0 r')); [done|].
  intros pre peer suf r' _ [Hs Hsync]. eapply owp_mono; [apply send_append_frame| |done].
  intros r'' _ [Hs' [q Hq]]. split; [by rewrite Hs'|].
  unfold synced in *. rewrite Hq, Hs', hs_run_app, Hsync. done.
Qed.

Lemma initialize_leader_frame h0 r :
  synced h0 r →
  owp (initialize_leader r)
    (λ r', synced h0 r' ∧ ∃ l, res_state r' = with_role (res_state r) role_leader
        (Some (st_node (res_state r))) ∅ (Some l))
    (λ _, True).
Proof.
  intros Hr. unfold initialize_leader. ostep. ostep; [done|]. cbv zeta.
  eapply owp_mono; [apply (send_appends_frame h0)| |done].
  - by do 2 apply synced_push_rule; apply synced_set_state.
  - simpl. intros r' _ [Hs Hsync]. split; [done|]. by eexists.
Qed.

Lemma observe_higher_term_frame h0 r t :
  synced h0 r →
  owp (observe_higher_term r t)
    (λ r', synced h0 r' ∧
       if decide (current_term (res_state r) < t) then
         ∃ id, res_state r' = with_persistence
           (with_role (with_hard_state (res_state r) t None) role_follower None ∅ None) id
           (st_pending_hard_state (res_state r))
       else r' = r)
    (λ _, True).
Proof.
  intros Hr. unfold observe_higher_term.
  destruct (decide (current_term (res_state r) < t)) as [Hlt|Hge];
    [rewrite (proj2 (Z.ltb_lt _ _) Hlt)|rewrite (proj2 (Z.ltb_nlt _ _) Hge)]; [|done].
  eapply owp_mono; [apply (synced_persist h0 (push_rule r observe_higher_term_rule))| |done].
  - done.
  - left. done.
  - simpl. intros r' _ [? [id ->]]. split; [done|]. by exists id.
Qed.

(** ** Roles and received votes *)

Definition same_core (s s' : State) : Prop :=
  st_node s' = st_node s ∧ st_peers s' = st_peers s ∧ st_role s' = st_role s ∧
  current_term s' = current_term s ∧ voted_for s' = voted_for s ∧
  st_votes_received s' = st_votes_received s.

Definition same_vote (s s' : State) : Prop :=
  same_core s s' ∧ st_pending_hard_state s' = st_pending_hard_state s.

(** The vote an event delivers for the current term. *)
Definition event_grants (s : State) (e : Event) : gset Z :=
  match e with
  | ReceiveRequestVoteResponse from response =>
      if vr_granted response && (vr_term response =? current_term s) then {[from]} else ∅
  | _ => ∅
  end.

(** How candidacy and leadership arise, [grants] being the votes received in
    this step. *)
Record vote_step (s : State) (grants : gset Z) (s' : State) : Prop := {
  vs_node : st_node s' = st_node s;
  vs_peers : st_peers s' = st_peers s;
  vs_pending : st_pending_hard_state s' = st_pending_hard_state s;
  vs_candidate : st_role s' = role_candidate →
    (st_votes_received s' = {[st_node s]} ∧ voted_for s' = Some (st_node s)) ∨
    (st_role s = role_candidate ∧ current_term s' = current_term s ∧
     voted_for s' = voted_for s ∧ st_votes_received s' ⊆ grants ∪ st_votes_received s);
  vs_leader : st_role s' = role_leader →
    (st_role s = role_leader ∧ current_term s' = current_term s) ∨ majority s = 1 ∨
    (st_role s = role_candidate ∧ current_term s' = current_term s ∧
     majority s ≤ Z.of_nat (size (grants ∪ st_votes_received s))) }.

Lemma same_vote_step s grants s' : same_vote s s' → vote_step s grants s'.
Proof.
  intros ((Hn & Hp & Hr & Ht & Hv & Hvs) & Hpd). split; [done..| |].
  - rewrite Hr. intros ?. right. rewrite Hvs. split_and!; try done. set_solver.
  - rewrite Hr. auto.
Qed.

(** A step that ends as a follower. *)
Lemma follower_step s grants s' :
  st_node s' = st_node s → st_peers s' = st_peers s →
  st_pending_hard_state s' = st_pending_hard_state s → st_role s' = role_follower →
  vote_step s grants s'.
Proof. intros ??? Hr. split; [done..| |]; by rewrite Hr. Qed.

(** The postcondition shared by the handlers. *)
Definition handled (h0 : RaftHardState) (s : State) (grants : gset Z) (r : StepResult) : Prop :=
  synced h0 r ∧ vote_step s grants (res_state r).

Lemma handled_push_rule h0 s g r rule : handled h0 s g r → handled h0 s g (push_rule r rule).
Proof. done. Qed.

Lemma handled_quiet h0 s g r e :
  handled h0 s g r → quiet_effect e → handled h0 s g (push_effect r e).
Proof. intros [? ?] ?. split; [by apply synced_quiet|done]. Qed.

Lemma start_election_handled h0 r :
  synced h0 r → owp (start_election r) (handled h0 (res_state r) ∅) (λ _, True).
Proof.
  intros Hsync. unfold start_election. ostep. ostep; [done|]. cbv zeta. ostep.
  eapply owp_mono;
    [apply (synced_persist h0 (push_rule r candidate_start_election))| |done]; [done| |].
  { left. unfold hard_state, current_term. simpl. lia. }
  intros r1 _ [Hs1 [id Hst]]. cbv zeta.
  set (r3 := foldl _ _ _).
  assert (synced h0 r3 ∧ res_state r3 = res_state r1) as [Hs3 Hst3].
  { unfold r3. apply (foldl_inv (λ x, synced h0 x ∧ res_state x = res_state r1)).
    - split; [by apply synced_quiet|done].
    - intros x peer [Hx Hxs]. split; [|done]. apply synced_push_effect; [done|].
      simpl. rewrite Hxs, Hst. by rewrite decide_True. }
  assert (vote_step (res_state r) ∅ (res_state r3)) as Hv.
  { rewrite Hst3, Hst. split; simpl; try done. intros _. by left. }
  destruct (Z.eqb_spec (majority (res_state r3)) 1) as [Hm|Hm]; [|done].
  eapply owp_mono; [by apply initialize_leader_frame| |done].
  intros r4 _ [Hs4 [l Hst4]]. split; [done|]. rewrite Hst4, Hst3, Hst in *.
  split; simpl; try done. intros _. right. by left.
Qed.

Lemma handle_timeout_handled h0 r :
  synced h0 r → owp (handle_timeout r) (handled h0 (res_state r) ∅) (λ _, True).
Proof.
  intros Hsync. unfold handle_timeout. destruct (st_role (res_state r)) eqn:Hr.
  - by apply (start_election_handled h0 (push_rule r _)).
  - by apply (start_election_handled h0 (push_rule r _)).
  - eapply owp_mono; [by apply (send_appends_frame h0)| |done].
    intros r' _ [Hs ?]. split; [done|]. rewrite Hs. by apply same_vote_step.
  - split; [done|]. by apply same_vote_step.
Qed.

(** The state after [observe_higher_term]: unchanged, or a follower of a later
    term. *)
Lemma observe_handled h0 r t :
  synced h0 r →
  owp (observe_higher_term r t)
    (λ r', synced h0 r' ∧ st_node (res_state r') = st_node (res_state r) ∧
       st_peers (res_state r') = st_peers (res_state r) ∧
       st_pending_hard_state (res_state r') = st_pending_hard_state (res_state r) ∧
       (r' = r ∨ (current_term (res_state r) < t ∧ current_term (res_state r') = t ∧
                  st_role (res_state r') = role_follower)) ∧
       t ≤ current_term (res_state r'))
    (λ _, True).
Proof.
  intros Hsync. eapply owp_mono; [by apply observe_higher_term_frame| |done].
  intros r' _ [Hs' Hr']. split; [done|]. case_decide as Hlt.
  - destruct Hr' as [id ->]. simpl. split_and!; try done. right. done.
  - subst r'. split_and!; try done; [by left|lia].
Qed.

Lemma handle_request_vote_handled h0 r from q :
  synced h0 r → st_node (res_state r) ∉ st_peers (res_state r) →
  (st_role (res_state r) = role_candidate →
     voted_for (res_state r) = Some (st_node (res_state r))) →
  owp (handle_request_vote r from q) (handled h0 (res_state r) ∅) (λ _, True).
Proof.
  intros Hsync Hself Hown. unfold handle_request_vote, ensure_peer.
  apply owp_bind, owp_throw_when; [done|intros Hpeer%negb_false_iff%bool_decide_eq_true].
  apply owp_bind, owp_throw_when; [done|intros <-%negb_false_iff%Z.eqb_eq].
  ostep. eapply owp_mono; [by apply observe_handled| |done].
  intros r1 _ (Hs1 & Hn1 & Hp1 & Hpd1 & Hr1 & Hle).
  assert (vote_step (res_state r) ∅ (res_state r1)) as Hv1.
  { destruct Hr1 as [->|(_ & _ & ?)]; [by apply same_vote_step|by apply follower_step]. }
  destruct (Z.ltb_spec (rv_term q) (current_term (res_state r1))).
  { apply handled_quiet; [split; done|done]. }
  destruct (match voted_for (res_state r1) with Some _ => _ | None => _ end) eqn:Hcan;
    simpl; [|apply handled_quiet; [split; done|done]].
  destruct (is_log_at_least_as_up_to_date _ _ _); [|apply handled_quiet; [split; done|done]].
  set (s2 := with_hard_state (res_state r1) _ _).
  assert (vote_step (res_state r) ∅ s2) as Hv2.
  { destruct Hr1 as [Hr1|(_ & _ & Hrole)]; [|by apply follower_step].
    subst r1. split; simpl; try done; [|by auto].
    intros Hc. specialize (Hown Hc). rewrite Hown in Hcan. exfalso. apply Hself.
    assert (st_node (res_state r) = rv_candidate q) as -> by lia. done. }
  assert (follows (hard_state (res_state r1)) (hard_state s2)) as Hf.
  { right. unfold hard_state, s2. simpl. split; [done|].
    destruct (voted_for (res_state r1)) as [v|] in Hcan |- *; [|by left].
    right. apply Z.eqb_eq in Hcan as ->. done. }
  assert (owp (if negb (bool_decide (voted_for (res_state r1) = Some (rv_candidate q)))
      then persist_hard_state (push_rule (set_state r1 s2) request_vote_grant)
      else mret (push_rule (set_state r1 s2) request_vote_grant))
    (λ r3, handled h0 (res_state r) ∅ r3 ∧ hard_state (res_state r3) = hard_state s2)
    (λ _, True)) as Hgrant.
  { case_bool_decide as Hsame; simpl.
    - split; [|done]. split; [|done]. apply synced_set_state; [done|].
      unfold hard_state, s2. simpl. by rewrite Hsame.
    - eapply owp_mono; [by apply (synced_persist h0 (push_rule r1 request_vote_grant))| |done].
      intros r3 _ [? [id Hst]]. split; [split; [done|]|]; rewrite Hst; [|done].
      destruct Hv2. by split. }
  ostep. eapply owp_mono; [exact Hgrant| |done]. intros r3 _ [[Hs3 Hv3] Hh3].
  simpl. split; [|done]. apply synced_push_effect; [by apply synced_quiet|].
  change (res_state (push_effect r3 ResetElectionTimer)) with (res_state r3).
  simpl. rewrite decide_True; [done|]. rewrite Hh3.
  unfold hard_state, s2 in *. simpl in *. by injection Hh3 as -> _.
Qed.

Lemma handle_request_vote_response_handled h0 r from q :
  synced h0 r →
  owp (handle_request_vote_response r from q)
    (handled h0 (res_state r)
       (event_grants (res_state r) (ReceiveRequestVoteResponse from q))) (λ _, True).
Proof.
  intros Hsync. unfold handle_request_vote_response, ensure_peer, event_grants.
  apply owp_bind, owp_throw_when; [done|intros _].
  ostep. eapply owp_mono; [by apply observe_handled| |done].
  intros r1 _ (Hs1 & Hn1 & Hp1 & Hpd1 & Hr1 & Hle). cbv zeta.
  destruct Hr1 as [->|(Hlt & Ht1 & Hrole)].
  2:{ rewrite Hrole. simpl. split; [done|]. by apply follower_step. }
  case_bool_decide as Hrole; simpl; [|split; [done|by apply same_vote_step]].
  destruct (Z.eqb_spec (vr_term q) (current_term (res_state r))) as [Ht|]; simpl;
    [|split; [done|by apply same_vote_step]].
  destruct (vr_granted q); simpl; [|split; [done|by apply same_vote_step]].
  set (s1 := with_role _ _ _ _ _).
  assert (vote_step (res_state r) {[from]} s1) as Hv.
  { split; simpl; try done; [by right|]. rewrite Hrole. done. }
  assert (synced h0 (set_state r s1)) by by apply synced_set_state.
  destruct (majority s1 <=? _) eqn:Hm; [|by split].
  eapply owp_mono; [by apply initialize_leader_frame| |done].
  intros r4 _ [? [l Hst]]. split; [done|]. rewrite Hst. split; simpl; try done.
  intros _. right. right. split; [done|]. split; [done|].
  apply Z.leb_le in Hm. exact Hm.
Qed.

Lemma finish_append_handled h0 s g r from q changed :
  handled h0 s g r → st_role (res_state r) = role_follower →
  handled h0 s g (finish_append r from q changed).
Proof.
  intros [Hs [Hn Hp Hpd _ _]] Hr. unfold finish_append, append_reply.
  apply handled_quiet; [|done].
  assert (handled h0 s g (push_rule r append_entries_accept)) as H1.
  { split; [done|]. by apply follower_step. }
  assert (handled h0 s g (if changed then push_effect (push_rule r append_entries_accept) PersistLog
    else push_rule r append_entries_accept)) as H2.
  { destruct changed; [|done]. by apply handled_quiet. }
  set (r2 := if changed then _ else _) in *.
  assert (res_state r2 = res_state r) as Hst by (unfold r2; by destruct changed).
  destruct (_ <? ae_leader_commit q); [|done].
  destruct (_ <? Z.min _ _); [|done].
  split; [apply (synced_set_state h0 (push_rule r2 _)); [apply H2|done]|].
  simpl. rewrite Hst. by apply follower_step.
Qed.

Lemma handle_append_entries_handled h0 r from q :
  synced h0 r →
  owp (handle_append_entries r from q) (handled h0 (res_state r) ∅) (λ _, True).
Proof.
  intros Hsync. unfold handle_append_entries, ensure_peer.
  do 2 (apply owp_bind, owp_throw_when; [done|intros _]). cbv zeta.
  ostep. eapply owp_mono; [by apply observe_handled| |done].
  intros r1 _ (Hs1 & Hn1 & Hp1 & Hpd1 & Hr1 & Hle).
  destruct (_ <? _).
  { apply handled_quiet; [|done]. split; [done|].
    destruct Hr1 as [->|(_ & _ & ?)]; [by apply same_vote_step|by apply follower_step]. }
  set (r2 := if bool_decide _ then _ else _).
  assert (synced h0 r2 ∧ res_state r2 = res_state r1) as [Hs2 Hst2]
    by (unfold r2; by case_bool_decide).
  set (s2 := with_role (res_state r2) role_follower (Some from) ∅ None).
  assert (handled h0 (res_state r) ∅ (push_effect (set_state r2 s2) ResetElectionTimer)) as H3.
  { apply handled_quiet; [|done]. split; [by apply synced_set_state|].
    unfold s2. by rewrite Hst2; apply follower_step. }
  set (r3 := push_effect (set_state r2 s2) ResetElectionTimer) in *.
  assert (∀ log, handled h0 (res_state r) ∅ (set_state r3 (with_log s2 log))) as H4.
  { intros log. destruct H3 as [? []]. split; [|by apply follower_step].
    by apply synced_set_state. }
  ostep. destruct (if _ && _ then _ else _) as [b|]; simpl; [|done].
  destruct b; simpl; [|by apply handled_quiet].
  ostep. destruct (foldM check_contiguous _ _); simpl; [|done].
  ostep. destruct (scan_entries _ _) as [[[|e rest]|index rest|]|]; simpl; try done.
  - by apply finish_append_handled.
  - by apply finish_append_handled.
  - by apply finish_append_handled.
  - by apply handled_quiet.
Qed.

(** Handlers that keep term, vote, role and received votes. *)
Definition kept (h0 : RaftHardState) (s : State) (r : StepResult) : Prop :=
  synced h0 r ∧ same_vote s (res_state r).

Lemma kept_handled h0 s g r : kept h0 s r → handled h0 s g r.
Proof. intros []. split; [done|by apply same_vote_step]. Qed.

Lemma advance_leader_commit_kept h0 s r :
  kept h0 s r → owp (advance_leader_commit r) (kept h0 s) (λ _, True).
Proof.
  intros [? Hs]. unfold advance_leader_commit. destruct (st_leader (res_state r)) as [l|].
  - ostep. destruct (commit_candidate _ _ _ _) as [[c|]|]; simpl; done.
  - destruct (_ <=? _); done.
Qed.

Lemma handle_append_entries_response_handled h0 r from q :
  synced h0 r →
  owp (handle_append_entries_response r from q) (handled h0 (res_state r) ∅) (λ _, True).
Proof.
  intros Hsync. unfold handle_append_entries_response, ensure_peer.
  apply owp_bind, owp_throw_when; [done|intros _].
  ostep. eapply owp_mono; [by apply observe_handled| |done].
  intros r1 _ (Hs1 & Hn1 & Hp1 & Hpd1 & Hr1 & Hle). cbv zeta.
  destruct Hr1 as [->|(Hlt & Ht1 & Hrole)].
  2:{ rewrite Hrole. simpl. split; [done|]. by apply follower_step. }
  destruct (_ || _); [split; [done|by apply same_vote_step]|].
  destruct (st_leader (res_state r)) as [l|]; [|done].
  destruct (ld_progress l !! from) as [p|]; [|done].
  destruct (ar_succeeded q).
  - ostep. ostep; [done|].
    eapply owp_mono; [apply (advance_leader_commit_kept h0 (res_state r))| |done];
      [|intros ???; by apply kept_handled].
    split; [by apply (synced_set_state h0 (push_rule r _))|done].
  - eapply owp_mono; [apply send_append_frame| |done].
    intros r' _ [Hst [m Hm]]. split.
    + unfold synced in *. rewrite Hm, Hst, hs_run_app. simpl. by rewrite Hsync.
    + rewrite Hst. by apply same_vote_step.
Qed.

Lemma handle_apply_handled h0 r :
  synced h0 r → owp (handle_apply r) (handled h0 (res_state r) ∅) (λ _, True).
Proof.
  intros Hsync. unfold handle_apply. destruct (_ <=? _); [split; [done|by apply same_vote_step]|].
  cbv zeta. ostep. destruct (log_at _ _) as [e|]; simpl; [|done].
  set (r2 := push_effect _ (ApplyCommand _ _)).
  assert (kept h0 (res_state r) r2) as Hk.
  { split; [|done]. by apply synced_quiet. }
  destruct (st_leader _) as [l|]; [|by apply kept_handled].
  case_bool_decide; [|by apply kept_handled].
  apply kept_handled. split; [|done]. apply synced_quiet; [|done].
  apply synced_set_state; [apply Hk|done].
Qed.

Lemma handle_client_handled h0 r c :
  synced h0 r → owp (handle_client r c) (handled h0 (res_state r) ∅) (λ _, True).
Proof.
  intros Hsync. unfold handle_client. destruct (negb _); [split; [done|by apply same_vote_step]|].
  ostep. ostep; [done|]. destruct (st_leader (res_state r)) as [l|]; [|done]. cbv zeta. ostep.
  eapply owp_mono; [apply (send_appends_frame h0)| |done].
  { apply synced_quiet; [|done]. by apply (synced_set_state h0 (push_rule r _)). }
  intros r2 _ [Hst Hs2].
  eapply owp_mono; [apply (advance_leader_commit_kept h0 (res_state r))| |done];
    [|intros ???; by apply kept_handled].
  split; [done|]. by rewrite Hst.
Qed.

(** Every input other than a completion, starting without effects. *)
Lemma dispatch_handled s e :
  st_node s ∉ st_peers s →
  (st_role s = role_candidate → voted_for s = Some (st_node s)) →
  is_completion e = false →
  owp (dispatch (mkResult s [] []) e) (handled (hard_state s) s (event_grants s e)) (λ _, True).
Proof.
  intros Hself Hown Hc. assert (synced (hard_state s) (mkResult s [] [])) as Hs by done.
  destruct e; simpl in *; try done.
  - case_bool_decide; [split; [done|by apply same_vote_step]|by apply handle_timeout_handled].
  - case_bool_decide; [by apply handle_timeout_handled|split; [done|by apply same_vote_step]].
  - by apply handle_apply_handled.
  - eapply owp_mono; [by apply observe_handled| |done].
    intros r' _ (? & Hn & Hp & Hpd & Hr & _). split; [done|].
    destruct Hr as [->|(_ & _ & ?)]; [by apply same_vote_step|by apply follower_step].
  - by apply handle_request_vote_handled.
  - exact (handle_request_vote_response_handled _ (mkResult s [] []) from response Hs).
  - by apply handle_append_entries_handled.
  - by apply handle_append_entries_response_handled.
  - by apply handle_client_handled.
Qed.

(** ** Gating *)

Lemma split_persistence_spec es :
  match split_persistence es with
  | None => ∀ q, PersistHardState q ∉ es
  | Some (before, q, after) =>
      ∃ pre, before = pre ++ [PersistHardState q] ∧ es = pre ++ PersistHardState q :: after ∧
        ∀ q', PersistHardState q' ∉ pre
  end.
Proof.
  induction es as [|e es IH]; simpl; [set_solver|].
  destruct e; try (destruct (split_persistence es) as [[[before q] after]|];
    [destruct IH as (pre & -> & -> & Hpre); eexists (_ :: pre); split_and!; try done; set_solver
    |set_solver]).
  exists []. split_and!; try done. set_solver.
Qed.

(** What is released by a step and what is held back: [released] is performed
    with [h] durable, and the rest, if any, after its hard-state request. *)
Definition gated (h : RaftHardState) (s : State) (released : list Effect) : Prop :=
  match st_pending_hard_state s with
  | None => hs_run h released = Some h ∧ hard_state s = h
  | Some p => ∃ pre, released = pre ++ [PersistHardState (pd_request p)] ∧
      hs_run h pre = Some h ∧ follows h (phs_state (pd_request p)) ∧
      hs_run (phs_state (pd_request p)) (pd_deferred_effects p) = Some (hard_state s)
  end.

Lemma hs_run_no_persist h es h' :
  (∀ q, PersistHardState q ∉ es) → hs_run h es = Some h' → h' = h.
Proof.
  revert h. induction es as [|e es IH]; intros h Hno; simpl; [by intros [= ->]|].
  destruct (hs_effect h e) as [h1|] eqn:He; [|done].
  assert (h1 = h) as ->.
  { destruct e; simpl in He; repeat case_match; simplify_eq; try done.
    exfalso. by apply (Hno request); left. }
  apply IH. intros q Hq. apply (Hno q). by right.
Qed.

Lemma gate_on_hard_state_ok h r :
  synced h r → st_pending_hard_state (res_state r) = None →
  owp (gate_on_hard_state r)
    (λ r', gated h (res_state r') (res_effects r') ∧ same_core (res_state r) (res_state r'))
    (λ _, False).
Proof.
  intros Hs Hp. unfold gate_on_hard_state. pose proof (split_persistence_spec (res_effects r)) as Hsp.
  destruct (split_persistence (res_effects r)) as [[[before q] after]|].
  - destruct Hsp as (pre & -> & Heq & Hpre). cbv zeta. rewrite Hp. simpl. split; [|done].
    unfold synced in Hs. rewrite Heq, hs_run_app in Hs.
    destruct (hs_run h pre) as [h1|] eqn:Hrun; [|done].
    pose proof (hs_run_no_persist _ _ _ Hpre Hrun) as ->.
    unfold gated. simpl. exists pre. simpl in Hs. case_decide; [|done].
    split_and!; try done; tauto.
  - simpl. split; [|done]. unfold gated. rewrite Hp.
    pose proof (hs_run_no_persist _ _ _ Hsp Hs) as Heq.
    unfold synced in Hs. rewrite Heq in Hs. done.
Qed.

(** ** One step of a server *)

Lemma ensure_valid_Ret s w u : ensure_valid s w = Ret u → validate s = [].
Proof. unfold ensure_valid. by destruct (validate s). Qed.

(** A successful step, without its checks. *)
Lemma step_inv s e r :
  step s e = Ret r →
  validate s = [] ∧ validate (res_state r) = [] ∧
  (is_Some (st_pending_hard_state s) ↔ is_completion e = true) ∧
  ∃ r0, dispatch (mkResult s [] []) e = Ret r0 ∧ gate_on_hard_state r0 = Ret r.
Proof.
  unfold step. intros (u & Hpre & H)%bind_Ret. cbv zeta in H.
  apply bind_Ret in H as (? & Hb1%throw_when_Ret & H).
  apply bind_Ret in H as (? & Hb2%throw_when_Ret & H).
  apply bind_Ret in H as (r0 & Hd & H). apply bind_Ret in H as (r' & Hg & H).
  apply bind_Ret in H as (? & Hpost & [= ->]).
  split; [by eapply ensure_valid_Ret|]. split; [by eapply ensure_valid_Ret|].
  split; [|eauto]. case_bool_decide; destruct (is_completion e); simpl in *; naive_solver.
Qed.

(** The effect of one input on candidacy and leadership, whatever was gated. *)
Definition vote_core (s : State) (grants : gset Z) (s' : State) : Prop :=
  ∃ s1, vote_step s grants s1 ∧ same_core s1 s'.

Lemma same_core_refl s : same_core s s.
Proof. done. Qed.

Lemma step_input_votes s e r :
  step s e = Ret r → st_pending_hard_state s = None → st_node s ∉ st_peers s →
  (st_role s = role_candidate → voted_for s = Some (st_node s)) →
  gated (hard_state s) (res_state r) (res_effects r) ∧
  vote_core s (event_grants s e) (res_state r).
Proof.
  intros Hstep Hp Hself Hown.
  destruct (step_inv _ _ _ Hstep) as (_ & _ & Hc & r0 & Hd & Hg).
  assert (is_completion e = false) as Hnc.
  { destruct (is_completion e); [|done]. destruct Hc as [_ [p Hp']]; [done|]. congruence. }
  pose proof (dispatch_handled s e Hself Hown Hnc) as Hdisp. rewrite Hd in Hdisp.
  destruct Hdisp as [Hs Hv]. pose proof (vs_pending _ _ _ Hv) as Hp0. rewrite Hp in Hp0.
  pose proof (gate_on_hard_state_ok _ _ Hs Hp0) as Hgate. rewrite Hg in Hgate.
  destruct Hgate as [Hgated Hcore]. split; [done|]. by exists (res_state r0).
Qed.

Lemma step_completion_votes s c p r :
  step s (HardStatePersisted c) = Ret r → st_pending_hard_state s = Some p →
  hs_run (phs_state (pd_request p)) (pd_deferred_effects p) = Some (hard_state s) →
  hsp_state c = phs_state (pd_request p) ∧
  gated (phs_state (pd_request p)) (res_state r) (res_effects r) ∧ same_core s (res_state r).
Proof.
  intros Hstep Hp Hrun.
  destruct (step_inv _ _ _ Hstep) as (_ & _ & _ & r0 & Hd & Hg).
  simpl in Hd. unfold handle_completion in Hd. simpl in Hd. rewrite Hp in Hd.
  apply bind_Ret in Hd as (u & Hb%throw_when_Ret & [= <-]).
  apply orb_false_iff in Hb as [_ Hst%negb_false_iff%bool_decide_eq_true].
  split; [done|].
  pose proof (gate_on_hard_state_ok (phs_state (pd_request p)) (mkResult
    (with_persistence s (st_next_hard_state_request_id s) None) [] (pd_deferred_effects p))
    Hrun eq_refl) as Hgate.
  rewrite Hg in Hgate. by destruct Hgate as [? ?].
Qed.
