(* ===== verification/Figure2Log.v ===== *)
(** * Validity and the log of a Figure 2 server

    [validate] as a predicate, its preservation by every handler, and how a step
    changes log and commit index. *)

From S2P Require Import Prelude OrdMap Bytes StoreTypes RaftTypes Figure2.

(** ** The checks of [validate] as propositions *)

(** Sizes: no index of the state wraps around. *)
Record state_fits (s : State) : Prop := {
  fit_base : 0 ≤ snapshot_base s;
  fit_last : snapshot_base s + Z.of_nat (length (log_of s)) ≤ u64_max;
  fit_request : 0 ≤ st_next_hard_state_request_id s;
  fit_match : ∀ l p g, st_leader s = Some l → ld_progress l !! p = Some g → 0 ≤ pg_match_index g }.

Definition contiguous (base : Z) (log : list LogEntry) : Prop :=
  ∀ i e, log !! i = Some e → en_index e = base + 1 + Z.of_nat i.

Record progress_ok (end_ : Z) (p : PeerProgress) : Prop := {
  pg_next : 1 ≤ pg_next_index p ≤ end_ + 1;
  pg_match : pg_match_index p ≤ end_ ∧ pg_match_index p < pg_next_index p }.

Record leader_ok (peers : list Z) (end_ : Z) (l : LeaderState) : Prop := {
  lk_size : size (ld_progress l) = length peers;
  lk_progress : ∀ p, p ∈ peers → ∃ g, ld_progress l !! p = Some g ∧ progress_ok end_ g;
  lk_clients : ∀ i, i ∈ ld_pending_clients l → i ≠ 0 ∧ i ≤ end_ }.

Record state_ok (s : State) : Prop := {
  ok_self : st_node s ∉ st_peers s;
  ok_nodup : NoDup (st_peers s);
  ok_snapshot : ∀ m, ps_snapshot (st_persistent s) = Some m →
    sm_last_included_index m ≠ 0 ∧ sm_last_included_term m ≠ 0 ∧
    sm_last_included_term m ≤ current_term s;
  ok_base : snapshot_base s ≤ st_commit_index s ∧ snapshot_base s ≤ st_last_applied s;
  ok_contiguous : contiguous (snapshot_base s) (log_of s);
  ok_terms : Forall (λ e, en_term e ≤ current_term s) (log_of s);
  ok_commit : st_commit_index s ≤ last_index s;
  ok_applied : st_last_applied s ≤ st_commit_index s;
  ok_role : st_role s = role_leader ↔ is_Some (st_leader s);
  ok_votes : st_role s ≠ role_candidate → st_votes_received s = ∅;
  ok_request : st_next_hard_state_request_id s ≠ 0;
  ok_pending : ∀ p, st_pending_hard_state s = Some p → phs_request_id (pd_request p) ≠ 0;
  ok_voters : ∀ v, v ∈ st_votes_received s → v = st_node s ∨ v ∈ st_peers s;
  ok_leader : ∀ l, st_leader s = Some l → leader_ok (st_peers s) (last_index s) l }.

Lemma message_when_nil b m : message_when b m = [] ↔ b = false.
Proof. by destruct b. Qed.

Lemma app_nil_both {A} (l1 l2 : list A) : l1 ++ l2 = [] ↔ l1 = [] ∧ l2 = [].
Proof. destruct l1, l2; naive_solver. Qed.

Lemma concat_nil {A B} (f : A → list B) l : concat (f <$> l) = [] ↔ ∀ x, x ∈ l → f x = [].
Proof.
  induction l as [|x l IH]; simpl; [split; [set_solver|done]|].
  rewrite app_nil_both, IH. set_solver.
Qed.

Lemma validate_peers_spec node peers :
  let acc := foldl (validate_peer node) ([], ∅) peers in
  (acc.1 = [] ↔ ((node ∉ peers) ∧ NoDup peers)) ∧ acc.2 = list_to_set peers.
Proof.
  induction peers as [|p peers IH] using rev_ind; simpl.
  { split; [|done]. split; [split; [set_solver|constructor]|done]. }
  rewrite foldl_app. simpl. destruct (foldl _ _ peers) as [m X]. simpl in *.
  destruct IH as [IHm ->]. split; [|rewrite list_to_set_app_L; set_solver].
  assert ((if p =? node then ["peer list contains the local node"%string] else []) = []
    ↔ p ≠ node) as H1 by (destruct (Z.eqb_spec p node); naive_solver).
  assert ((if bool_decide (p ∈ (list_to_set peers : gset Z))
    then ["peer list contains a duplicate"%string] else []) = [] ↔ p ∉ peers) as H2.
  { rewrite <-(elem_of_list_to_set (C := gset Z)). case_bool_decide; naive_solver. }
  rewrite !app_nil_both, IHm, H1, H2, NoDup_app, elem_of_app, list_elem_of_singleton.
  pose proof (NoDup_singleton p). set_solver.
Qed.

Lemma validate_log_spec cur base log :
  0 ≤ base → base + Z.of_nat (length log) ≤ u64_max →
  validate_log cur (u64 (base + 1)) log = [] ↔
  contiguous base log ∧ Forall (λ e, en_term e ≤ cur) log.
Proof.
  revert base. induction log as [|e log IH]; intros base H0 Hlen; simpl.
  { split; [|done]. split; [by intros i e|constructor]. }
  simpl in Hlen. rewrite (u64_small (base + 1)) by lia.
  destruct (Z.eqb_spec (en_index e) (base + 1)) as [Hi|Hi]; simpl; last first.
  { split; [done|]. intros [Hc _]. specialize (Hc 0%nat e eq_refl). lia. }
  destruct (Z.ltb_spec cur (en_term e)) as [Ht|Ht].
  { split; [done|]. intros [_ Hf]. apply Forall_cons in Hf. lia. }
  rewrite IH by lia. split.
  - intros [Hc Hf]. split; [|by constructor; [lia|]]. intros [|i] e' He'; simpl in He'.
    + simplify_eq. lia.
    + rewrite (Hc i e' He'). lia.
  - intros [Hc Hf]. apply Forall_cons in Hf as [_ Hf]. split; [|done].
    intros i e' He'. rewrite (Hc (S i) e' He'). lia.
Qed.

Lemma last_index_length s :
  contiguous (snapshot_base s) (log_of s) →
  last_index s = snapshot_base s + Z.of_nat (length (log_of s)).
Proof.
  intros Hc. unfold last_index. destruct (log_of s) as [|e l _] using rev_ind; simpl; [lia|].
  rewrite last_snoc. rewrite (Hc (length l) e) by by rewrite list_lookup_middle.
  rewrite length_app. simpl. lia.
Qed.

Lemma validate_progress_spec end_ l p :
  end_ < u64_max → 0 ≤ end_ →
  validate_progress end_ l p = [] ↔ ∃ g, ld_progress l !! p = Some g ∧ progress_ok end_ g.
Proof.
  intros Hend H0. unfold validate_progress. destruct (ld_progress l !! p) as [g|].
  - rewrite app_nil_both, !message_when_nil, u64_small by lia. split.
    + intros [Ha Hb]. exists g. split; [done|]. constructor; lia.
    + intros (g' & [= <-] & [? ?]). lia.
  - split; [done|]. by intros (? & ? & _).
Qed.

Definition snapshot_messages (s : State) : list string :=
  match ps_snapshot (st_persistent s) with
  | Some snapshot =>
      message_when (sm_last_included_index snapshot =? 0) "snapshot index must be nonzero"
      ++ message_when ((sm_last_included_term snapshot =? 0)
                       || (current_term s <? sm_last_included_term snapshot))
           "snapshot term must be nonzero and not exceed currentTerm"
  | None => []
  end.

Lemma snapshot_messages_nil s :
  snapshot_messages s = [] ↔
  ∀ m, ps_snapshot (st_persistent s) = Some m →
    sm_last_included_index m ≠ 0 ∧ sm_last_included_term m ≠ 0 ∧
    sm_last_included_term m ≤ current_term s.
Proof.
  unfold snapshot_messages. destruct (ps_snapshot (st_persistent s)) as [m|]; [|naive_solver].
  rewrite app_nil_both, !message_when_nil. split.
  - intros [? ?] m' [= <-]. lia.
  - intros Hm. specialize (Hm m eq_refl). lia.
Qed.

Definition leader_messages (s : State) : list string :=
  match st_leader s with
  | None => []
  | Some leader =>
      message_when (negb (Z.of_nat (size (ld_progress leader))
                          =? Z.of_nat (length (st_peers s))))
        "leader progress does not cover every peer"
      ++ concat (validate_progress (last_index s) leader <$> st_peers s)
      ++ concat ((λ pending, message_when ((pending =? 0) || (last_index s <? pending))
                               "pending client index is outside the log")
                 <$> elements (ld_pending_clients leader))
  end.

Lemma leader_messages_nil s :
  (is_Some (st_leader s) → 0 ≤ last_index s < u64_max) →
  leader_messages s = [] ↔ ∀ l, st_leader s = Some l → leader_ok (st_peers s) (last_index s) l.
Proof.
  intros Hend. unfold leader_messages. destruct (st_leader s) as [l|]; [|naive_solver].
  specialize (Hend ltac:(by eexists)).
  rewrite !app_nil_both, message_when_nil, !concat_nil. split.
  - intros (Hsz & Hp & Hc) l' [= <-]. constructor.
    + apply negb_false_iff in Hsz. lia.
    + intros p Hin. apply (validate_progress_spec (last_index s)); [lia|lia|by apply Hp].
    + intros i Hi. specialize (Hc i). rewrite elem_of_elements, message_when_nil in Hc.
      specialize (Hc Hi). lia.
  - intros Hl. destruct (Hl l eq_refl) as [Hsz Hp Hc]. split_and!.
    + rewrite Hsz, Z.eqb_refl. done.
    + intros p Hin. apply validate_progress_spec; [lia|lia|by apply Hp].
    + intros i Hi%elem_of_elements. destruct (Hc i Hi). rewrite message_when_nil. lia.
Qed.

Lemma pending_messages_nil s :
  match st_pending_hard_state s with
  | Some p => message_when (phs_request_id (pd_request p) =? 0)
                "pending hard-state request ID is zero"
  | None => []
  end = [] ↔ ∀ p, st_pending_hard_state s = Some p → phs_request_id (pd_request p) ≠ 0.
Proof.
  destruct (st_pending_hard_state s) as [p|]; [|naive_solver].
  rewrite message_when_nil. split; [intros ? p' [= <-]; lia|].
  intros Hp. specialize (Hp p eq_refl). lia.
Qed.

(** [validate] reports nothing exactly on the well-formed states. *)
Lemma validate_spec s :
  state_fits s → (is_Some (st_leader s) → 0 ≤ last_index s < u64_max) →
  validate s = [] ↔ state_ok s.
Proof.
  intros Hfit Hend. unfold validate. fold (snapshot_messages s) (leader_messages s).
  pose proof (validate_peers_spec (st_node s) (st_peers s)) as [Hpe Hpset].
  destruct (foldl _ _ (st_peers s)) as [pm peers]. simpl in Hpe, Hpset. subst peers.
  rewrite !app_nil_both, !message_when_nil, Hpe, concat_nil, snapshot_messages_nil.
  rewrite validate_log_spec by (destruct Hfit; lia).
  rewrite leader_messages_nil, pending_messages_nil by done.
  assert (∀ v, message_when (negb (v =? st_node s) &&
    negb (bool_decide (v ∈ (list_to_set (st_peers s) : gset Z)))) "candidate has a vote from a non-peer"
    = [] ↔ v = st_node s ∨ v ∈ st_peers s) as Hvoter.
  { intros v. rewrite message_when_nil, andb_false_iff, !negb_false_iff, Z.eqb_eq.
    by rewrite bool_decide_eq_true, elem_of_list_to_set. }
  split.
  - intros ((? & ?) & ? & Hb & (? & ?) & Hc & Ha & Hr1 & Hr2 & Hv & Hn & ? & Hvs & ?).
    split; try done; try lia.
    + apply andb_false_iff in Hr1, Hr2. rewrite !negb_false_iff in *.
      rewrite !bool_decide_eq_true, !bool_decide_eq_false in *.
      destruct (decide (st_role s = role_leader)); naive_solver.
    + intros Hne. rewrite bool_decide_false in Hv by done. simpl in Hv.
      apply negb_false_iff, bool_decide_eq_true in Hv. done.
    + intros v Hin. apply Hvoter, Hvs. by apply elem_of_elements.
  - intros []. split_and!; try done; try lia.
    + case_bool_decide; [|done]. rewrite bool_decide_true by tauto. done.
    + case_bool_decide; [done|]. rewrite bool_decide_false by tauto. done.
    + case_bool_decide; [done|]. rewrite bool_decide_true by auto. done.
    + intros v Hin%elem_of_elements. by apply Hvoter, ok_voters0.
Qed.

(** ** Reading the log *)

(** The entry at a Raft index above the snapshot. *)
Definition entry_at (s : State) (i : Z) : option LogEntry :=
  if snapshot_base s <? i then log_of s !! Z.to_nat (i - snapshot_base s - 1) else None.

Lemma term_at_entry s i e :
  0 ≤ snapshot_base s → entry_at s i = Some e → term_at s i = Ret (en_term e).
Proof.
  unfold entry_at, term_at, log_at. intros H0.
  destruct (Z.ltb_spec (snapshot_base s) i) as [Hlt|]; [|done]. intros He.
  destruct (Z.eqb_spec i 0); [lia|]. cbv zeta.
  rewrite (proj2 (Z.leb_gt i (snapshot_base s))) by done. rewrite He.
  destruct (ps_snapshot (st_persistent s)); [|done].
  by rewrite (proj2 (Z.eqb_neq i (snapshot_base s))) by lia.
Qed.

Lemma entry_at_Some s i :
  contiguous (snapshot_base s) (log_of s) → snapshot_base s < i ≤ last_index s →
  ∃ e, entry_at s i = Some e ∧ en_index e = i.
Proof.
  intros Hc Hi. rewrite last_index_length in Hi by done. unfold entry_at.
  rewrite (proj2 (Z.ltb_lt _ _)) by lia.
  destruct (lookup_lt_is_Some_2 (log_of s) (Z.to_nat (i - snapshot_base s - 1))) as [e He]; [lia|].
  exists e. split; [done|]. rewrite (Hc _ _ He). lia.
Qed.

Lemma entry_at_bound s i e :
  contiguous (snapshot_base s) (log_of s) → entry_at s i = Some e →
  snapshot_base s < i ≤ last_index s.
Proof.
  intros Hc. unfold entry_at. destruct (Z.ltb_spec (snapshot_base s) i); [|done].
  intros He%lookup_lt_Some. rewrite last_index_length by done. lia.
Qed.

(** ** Merging the entries of an append request *)

Lemma check_contiguous_spec previous entries e0 :
  0 ≤ previous → previous + Z.of_nat (length entries) < u64_max →
  foldM check_contiguous (u64 (previous + 1)) entries = Ret e0 →
  contiguous previous entries.
Proof.
  revert previous. induction entries as [|e entries IH]; intros previous H0 Hlen Hf; [by intros ??|].
  simpl in Hf, Hlen. apply bind_Ret in Hf as (e1 & Hc & Hf). unfold check_contiguous in Hc.
  apply bind_Ret in Hc as (u & Hi%throw_when_Ret & [= <-]).
  rewrite (u64_small (previous + 1)) in * by lia.
  specialize (IH (previous + 1) ltac:(lia) ltac:(lia) Hf).
  apply negb_false_iff in Hi. intros [|i] e' He'; simpl in He'.
  - simplify_eq. lia.
  - rewrite (IH _ _ He'). lia.
Qed.

(** The log after a merge point. *)
Definition merged_log (s : State) (point : merge_point) : list LogEntry :=
  match point with
  | merge_from rest => log_of s ++ rest
  | merge_truncate index rest =>
      take (Z.to_nat (index - snapshot_base s - 1)) (log_of s) ++ rest
  | merge_refuse => log_of s
  end.

(** [pre] is already in the log of [s] and [rest] replaces what follows it. *)
Record merge_ok (s : State) (previous : Z) (entries : list LogEntry) (log' : list LogEntry)
    (pre rest : list LogEntry) : Prop := {
  mg_split : entries = pre ++ rest;
  mg_present : ∀ e, e ∈ pre → ∃ e', entry_at s (en_index e) = Some e' ∧ en_term e' = en_term e;
  mg_log : (rest = [] ∧ log' = log_of s) ∨
    ∃ k, k = (Z.to_nat (previous - snapshot_base s) + length pre)%nat ∧
      (k ≤ length (log_of s))%nat ∧ st_commit_index s ≤ snapshot_base s + Z.of_nat k ∧
      log' = take k (log_of s) ++ rest }.

Lemma scan_entries_spec s previous entries :
  0 ≤ snapshot_base s → contiguous (snapshot_base s) (log_of s) →
  st_commit_index s ≤ last_index s →
  snapshot_base s ≤ previous ≤ last_index s → contiguous previous entries →
  owp (scan_entries s entries)
    (λ point, point = merge_refuse ∨
       ∃ pre rest, merge_ok s previous entries (merged_log s point) pre rest ∧
         match point with merge_from r => r = rest | merge_truncate _ r => r = rest
                        | merge_refuse => True end)
    (λ _, False).
Proof.
  intros H0 Hc Hcom. revert previous.
  induction entries as [|e entries IH]; intros previous Hprev Hcont; simpl.
  { right. exists [], []. split; [|done]. split; [done|set_solver|]. left. simpl.
    by rewrite app_nil_r. }
  pose proof (Hcont 0%nat e eq_refl) as Hi. simpl in Hi.
  assert (contiguous (previous + 1) entries) as Hcont'.
  { intros i e' He'. rewrite (Hcont (S i) e' He'). lia. }
  rewrite last_index_length in * by done.
  destruct (Z.ltb_spec (snapshot_base s + Z.of_nat (length (log_of s))) (en_index e)) as [Hend|Hin].
  { simpl. right. exists [], (e :: entries). split; [|done]. split; [done|set_solver|].
    right. exists (length (log_of s)). simpl. split_and!; try lia.
    by rewrite firstn_all. }
  destruct (entry_at_Some s (en_index e) Hc) as (e' & He' & _).
  { rewrite last_index_length by done. lia. }
  rewrite (term_at_entry _ _ _ H0 He'). simpl.
  destruct (Z.eqb_spec (en_term e') (en_term e)) as [Ht|Ht]; simpl.
  - eapply owp_mono; [apply (IH (previous + 1)); [lia|done]| |done].
    intros point _ [->|(pre & rest & [-> Hpre Hlog] & Hpt)]; [by left|].
    right. exists (e :: pre), rest. split; [|done]. split; [done| |].
    + intros x [->|Hx]%elem_of_cons; eauto.
    + destruct Hlog as [?|(k & -> & ? & ? & ?)]; [by left|]. right.
      exists (S (Z.to_nat (previous - snapshot_base s) + length pre))%nat.
      replace (Z.to_nat (previous + 1 - snapshot_base s) + length pre)%nat
        with (S (Z.to_nat (previous - snapshot_base s) + length pre))%nat in * by lia.
      simpl. split_and!; try done; lia.
  - destruct (Z.leb_spec (en_index e) (st_commit_index s)); simpl; [by left|].
    right. exists [], (e :: entries). split; [|done]. split; [done|set_solver|].
    right. exists (Z.to_nat (en_index e - snapshot_base s - 1)). simpl. split_and!; try lia.
    done.
Qed.

Section merge.
Context (s : State) (previous : Z) (entries log' pre rest : list LogEntry).
Context (Hmerge : merge_ok s previous entries log' pre rest).
Context (Hbase : snapshot_base s ≤ previous).
Context (Hc : contiguous (snapshot_base s) (log_of s)) (He : contiguous previous entries).

Lemma merge_contiguous : contiguous (snapshot_base s) log'.
Proof.
  destruct Hmerge as [Hsplit _ [[_ ->]|(k & Hk & Hlen & _ & ->)]]; [done|].
  intros i e Hi. apply lookup_app_Some in Hi as [Hi|[Hge Hi]].
  - apply Hc. apply lookup_take_Some in Hi. apply Hi.
  - rewrite length_take in *. rewrite Nat.min_l in * by done.
    rewrite (He (length pre + (i - k))%nat e); [lia|].
    rewrite Hsplit, lookup_app_r by lia. by replace (length pre + (i - k) - length pre)%nat with (i - k)%nat by lia.
Qed.

Lemma merge_terms t :
  Forall (λ e, en_term e ≤ t) (log_of s) → Forall (λ e, en_term e ≤ t) entries →
  Forall (λ e, en_term e ≤ t) log'.
Proof.
  intros Hl Hen. destruct Hmerge as [Hsplit _ [[_ ->]|(k & _ & _ & _ & ->)]]; [done|].
  apply Forall_app. split; [by apply Forall_take|].
  rewrite Hsplit in Hen. by apply Forall_app in Hen as [_ ?].
Qed.

Context (Hprev : previous ≤ last_index s) (Hcommit : st_commit_index s ≤ last_index s).

(** The new log reaches the last entry of the request and the commit index. *)
Lemma merge_length :
  previous + Z.of_nat (length entries) ≤ snapshot_base s + Z.of_nat (length log') ∧
  st_commit_index s ≤ snapshot_base s + Z.of_nat (length log').
Proof.
  pose proof (last_index_length s Hc) as Hlast.
  destruct Hmerge as [Hsplit Hpre [[-> ->]|(k & Hk & Hlen & Hcom & ->)]].
  - split; [|lia]. rewrite app_nil_r in Hsplit. subst pre.
    destruct entries as [|e es _] eqn:Hes using rev_ind; simpl; [lia|].
    destruct (Hpre e) as (e' & Hat & _); [set_solver|].
    apply (entry_at_bound s _ _ Hc) in Hat.
    rewrite (He (length es) e) in Hat by by rewrite list_lookup_middle.
    rewrite length_app. simpl. lia.
  - rewrite Hsplit, !length_app, length_take. lia.
Qed.

(** Entries up to the commit index stay. *)
Lemma merge_keeps_committed i :
  snapshot_base s < i ≤ st_commit_index s →
  log' !! Z.to_nat (i - snapshot_base s - 1) = log_of s !! Z.to_nat (i - snapshot_base s - 1).
Proof.
  intros Hi. destruct Hmerge as [_ _ [[_ ->]|(k & _ & Hlen & Hcom & ->)]]; [done|].
  rewrite lookup_app_l by (rewrite length_take; lia). apply lookup_take_lt. lia.
Qed.

(** Every entry of the request is in the new log, at its index and with its
    term. *)
Lemma merge_contains e :
  e ∈ entries →
  ∃ e', log' !! Z.to_nat (en_index e - snapshot_base s - 1) = Some e' ∧ en_term e' = en_term e.
Proof.
  intros Hin. destruct Hmerge as [Hsplit Hpre Hlog].
  rewrite Hsplit in Hin. apply elem_of_app in Hin as [Hin|Hin].
  - destruct (Hpre e Hin) as (e' & Hat & Ht). exists e'. split; [|done].
    unfold entry_at in Hat. destruct (Z.ltb_spec (snapshot_base s) (en_index e)); [|done].
    destruct Hlog as [[_ ->]|(k & -> & Hlen & _ & ->)]; [done|].
    apply list_elem_of_lookup in Hin as [j Hj]. pose proof (lookup_lt_Some _ _ _ Hj).
    assert (en_index e = previous + 1 + Z.of_nat j) as Hidx.
    { apply He. rewrite Hsplit. by apply lookup_app_l_Some. }
    rewrite lookup_app_l by (rewrite length_take; lia).
    rewrite lookup_take_lt by lia. done.
  - destruct Hlog as [[-> _]|(k & -> & Hlen & _ & ->)]; [set_solver|].
    apply list_elem_of_lookup in Hin as [j Hj].
    assert (en_index e = previous + 1 + Z.of_nat (length pre + j)) as Hidx.
    { apply He. rewrite Hsplit, lookup_app_r by lia.
      by replace (length pre + j - length pre)%nat with j by lia. }
    exists e. split; [|done]. rewrite lookup_app_r by (rewrite length_take; lia).
    rewrite length_take, Nat.min_l by done. rewrite <-Hj. f_equal. lia.
Qed.
End merge.
