(* ===== verification/LeaderLogs.v ===== *)
(** * Logs of leaders

    The combinatorial core of Raft's log safety, apart from any server.  A map
    [L] gives for every term in which a server was elected that server and the
    log it has built as leader; the log only grows by entries of its own term.
    A log is genuine when every entry of it, with all before it, comes from the
    leader of the entry's term, which is the Log Matching property.  From what
    every voter's log was when it voted follows Leader Completeness: an entry a
    majority acknowledged in the term it was created in is in the log of every
    later leader. *)

From S2P Require Import Prelude OrdMap Bytes StoreTypes RaftTypes Figure2 Figure2Log.

(** ** Logs and leaders *)

Abbreviation reigns := (gmap Z (Z * list LogEntry)).

Definition leader_log (L : reigns) (t : Z) : option (list LogEntry) := snd <$> L !! t.

(** The log agrees up to each entry with the leader of the entry's term. *)
Definition genuine (L : reigns) (log : list LogEntry) : Prop :=
  ∀ i e, log !! i = Some e →
    ∃ lg, leader_log L (en_term e) = Some lg ∧ take (S i) log = take (S i) lg.

(** Leaders append entries of their own term, and new leaders appear. *)
Definition grows (L L' : reigns) : Prop :=
  ∀ t n lg, L !! t = Some (n, lg) →
    ∃ ext, L' !! t = Some (n, lg ++ ext) ∧ Forall (λ e, en_term e = t) ext.

(** The first [j] entries are those of the leader of term [t]. *)
Definition contains (L : reigns) (t : Z) (j : nat) (log : list LogEntry) : Prop :=
  ∃ lg, leader_log L t = Some lg ∧ (j ≤ length lg)%nat ∧ take j log = take j lg.

(** The [j]th entry of the leader of term [t] was created in that term. *)
Definition solid (L : reigns) (t : Z) (j : nat) : Prop :=
  ∃ lg i e, leader_log L t = Some lg ∧ j = S i ∧ lg !! i = Some e ∧ en_term e = t.

(** The leader of term [t'] has not the first [j] entries of that of [t]. *)
Definition omits (L : reigns) (t' t : Z) (j : nat) : Prop :=
  ∃ lg, leader_log L t' = Some lg ∧ ¬ contains L t j lg.

Definition sorted_terms (log : list LogEntry) : Prop :=
  ∀ i k e e', log !! i = Some e → log !! k = Some e' → (i ≤ k)%nat → en_term e ≤ en_term e'.

Record leader_wf (L : reigns) (t : Z) (log : list LogEntry) : Prop := {
  lw_term : 1 ≤ t;
  lw_genuine : genuine L log;
  lw_sorted : sorted_terms log;
  lw_terms : Forall (λ e, en_term e ≤ t) log;
  lw_contiguous : contiguous 0 log }.

Definition leaders_wf (L : reigns) : Prop :=
  ∀ t lg, leader_log L t = Some lg → leader_wf L t lg.

(** The term of the last entry. *)
Definition log_term (log : list LogEntry) : Z :=
  match last log with Some e => en_term e | None => 0 end.

(** The comparison voters make. *)
Definition up_to_date (candidate log : list LogEntry) : Prop :=
  log_term log < log_term candidate ∨
  (log_term candidate = log_term log ∧ (length log ≤ length candidate)%nat).

(** ** Stability *)

Lemma leader_log_Some (L : reigns) (t : Z) lg :
  leader_log L t = Some lg ↔ ∃ n, L !! t = Some (n, lg).
Proof.
  unfold leader_log. destruct (L !! t) as [[n lg']|]; simpl; naive_solver.
Qed.

Lemma grows_refl L : grows L L.
Proof. intros t n lg HL. exists []. by rewrite app_nil_r. Qed.

Lemma grows_trans L1 L2 L3 : grows L1 L2 → grows L2 L3 → grows L1 L3.
Proof.
  intros H12 H23 t n lg (ext & H2 & He)%H12. apply H23 in H2 as (ext' & H3 & He').
  exists (ext ++ ext'). rewrite app_assoc. split; [done|]. by apply Forall_app.
Qed.

#[export] Instance grows_preorder : PreOrder grows.
Proof. split; [exact grows_refl|exact grows_trans]. Qed.

Lemma grows_log L L' t lg :
  grows L L' → leader_log L t = Some lg →
  ∃ ext, leader_log L' t = Some (lg ++ ext) ∧ Forall (λ e, en_term e = t) ext.
Proof.
  intros Hg (n & (ext & HL' & He)%Hg)%leader_log_Some. exists ext. split; [|done].
  apply leader_log_Some. eauto.
Qed.

Lemma take_app_lookup {A} (l ext : list A) i x l' :
  take (S i) l' = take (S i) l → l' !! i = Some x → take (S i) l' = take (S i) (l ++ ext).
Proof.
  intros Heq Hi. rewrite Heq. symmetry. apply take_app_le.
  assert (l !! i = Some x) as Hl%lookup_lt_Some; [|lia].
  rewrite <-(lookup_take_lt _ (S i)), <-Heq, lookup_take_lt; [done|lia..].
Qed.

Lemma genuine_mono L L' log : grows L L' → genuine L log → genuine L' log.
Proof.
  intros Hg Hlog i e Hi. destruct (Hlog i e Hi) as (lg & HL & Ht).
  destruct (grows_log _ _ _ _ Hg HL) as (ext & HL' & _). exists (lg ++ ext).
  split; [done|]. by eapply take_app_lookup.
Qed.

Lemma contains_mono L L' t j log : grows L L' → contains L t j log → contains L' t j log.
Proof.
  intros Hg (lg & HL & Hj & Ht). destruct (grows_log _ _ _ _ Hg HL) as (ext & HL' & _).
  exists (lg ++ ext). rewrite length_app, take_app_le by lia. split_and!; [done|lia|done].
Qed.

Lemma solid_mono L L' t j : grows L L' → solid L t j → solid L' t j.
Proof.
  intros Hg (lg & i & e & HL & -> & Hi & He). destruct (grows_log _ _ _ _ Hg HL) as (ext & HL' & _).
  exists (lg ++ ext), i, e. split_and!; try done. by apply lookup_app_l_Some.
Qed.

(** What a later leader adds has its own term, so it never comes to contain an
    entry of the earlier one. *)
Lemma omits_mono L L' t' t j :
  grows L L' → t ≠ t' → solid L t j → omits L t' t j → omits L' t' t j.
Proof.
  intros Hg Hne (lg & i & e & HL & -> & Hi & He) (lg' & HL' & Hnot).
  destruct (grows_log _ _ _ _ Hg HL) as (ext & HLg & _).
  destruct (grows_log _ _ _ _ Hg HL') as (ext' & HLg' & Hext').
  exists (lg' ++ ext'). split; [done|]. intros (lg2 & HL2 & Hj & Ht). destruct Hnot.
  rewrite HLg in HL2. injection HL2 as <-. apply lookup_lt_Some in Hi as Hlt.
  rewrite (take_app_le lg) in Ht by lia.
  assert ((lg' ++ ext') !! i = Some e) as Hat.
  { rewrite <-(lookup_take_lt _ (S i)) by lia. rewrite Ht, lookup_take_lt by lia. done. }
  exists lg. split_and!; [done|lia|]. apply lookup_app_Some in Hat as [Hat|[_ Hat]].
  - apply lookup_lt_Some in Hat. rewrite <-Ht. symmetry. apply take_app_le. lia.
  - apply list_elem_of_lookup_2 in Hat. rewrite Forall_forall in Hext'.
    specialize (Hext' e Hat). simpl in Hext'. congruence.
Qed.

#[export] Hint Resolve genuine_mono contains_mono solid_mono : kura.

(** ** Genuine logs *)

Lemma genuine_nil L : genuine L [].
Proof. intros i e. by rewrite lookup_nil. Qed.

Lemma genuine_take L k log : genuine L log → genuine L (take k log).
Proof.
  intros Hg i e [Hi Hlt]%lookup_take_Some. destruct (Hg i e Hi) as (lg & HL & Ht).
  exists lg. split; [done|]. rewrite take_take, Nat.min_l by lia. done.
Qed.

(** Log Matching: entries of one term at one index have the same past. *)
Lemma genuine_match L log log' i e e' :
  genuine L log → genuine L log' → log !! i = Some e → log' !! i = Some e' →
  en_term e = en_term e' → take (S i) log = take (S i) log'.
Proof.
  intros Hg Hg' Hi Hi' Ht. destruct (Hg i e Hi) as (lg & HL & ->).
  destruct (Hg' i e' Hi') as (lg' & HL' & ->). rewrite Ht in HL. congruence.
Qed.

Lemma take_lookup_eq {A} (l l' : list A) n i :
  take n l = take n l' → (i < n)%nat → l !! i = l' !! i.
Proof. intros Ht Hi. rewrite <-(lookup_take_lt l n), Ht, lookup_take_lt by done. done. Qed.

Lemma take_eq_le {A} (l l' : list A) n k :
  take n l = take n l' → (k ≤ n)%nat → take k l = take k l'.
Proof.
  intros Ht Hk. assert (∀ x : list A, take k x = take k (take n x)) as Hx
    by (intros x; by rewrite take_take, Nat.min_l).
  by rewrite (Hx l), (Hx l'), Ht.
Qed.

Lemma take_eq_length {A} (l l' : list A) n :
  take n l = take n l' → (n ≤ length l')%nat → (n ≤ length l)%nat.
Proof. intros Ht Hn. apply (f_equal length) in Ht. rewrite !length_take in Ht. lia. Qed.

Lemma genuine_sorted L log : leaders_wf L → genuine L log → sorted_terms log.
Proof.
  intros HL Hg i k e e' Hi Hk Hle. destruct (Hg k e' Hk) as (lg & Hlg & Ht).
  eapply (lw_sorted _ _ _ (HL _ _ Hlg) i k); [| |done].
  - by rewrite <-(take_lookup_eq _ _ _ i Ht) by lia.
  - by rewrite <-(take_lookup_eq _ _ _ k Ht) by lia.
Qed.

Lemma genuine_positive L log e : leaders_wf L → genuine L log → e ∈ log → 1 ≤ en_term e.
Proof.
  intros HL Hg (i & Hi)%list_elem_of_lookup. destruct (Hg i e Hi) as (lg & Hlg & _).
  by apply (lw_term _ _ _ (HL _ _ Hlg)).
Qed.

(** A whole log is a prefix of the log of the leader of its last term. *)
Lemma genuine_last L log :
  genuine L log → log ≠ [] →
  ∃ lg, leader_log L (log_term log) = Some lg ∧ log = take (length log) lg.
Proof.
  intros Hg Hne. unfold log_term. destruct (last log) as [e|] eqn:He; [|by apply last_None in He].
  rewrite last_lookup in He. destruct (Hg _ e He) as (lg & HL & Ht). exists lg. split; [done|].
  apply lookup_lt_Some in He. replace (S (pred (length log))) with (length log) in Ht by lia.
  by rewrite firstn_all in Ht.
Qed.

(** ** What a vote passes on *)

Lemma contains_nonempty L t j log : solid L t j → contains L t j log → (0 < j ≤ length log)%nat.
Proof.
  intros (lg & i & e & HL & -> & Hi & _) (lg' & HL' & Hj & Ht). simplify_eq.
  split; [lia|]. by eapply take_eq_length.
Qed.

(** The last entry of a log that contains an entry of term [t] is of term [t] or
    later. *)
Lemma contains_log_term L t j log :
  leaders_wf L → genuine L log → solid L t j → contains L t j log → t ≤ log_term log.
Proof.
  intros HL Hg Hs Hc. pose proof (contains_nonempty _ _ _ _ Hs Hc) as Hj.
  destruct Hs as (lg & i & e & Hlg & -> & Hi & <-). destruct Hc as (lg' & Hlg' & _ & Ht).
  simplify_eq. unfold log_term. destruct (last log) as [e'|] eqn:He.
  - rewrite last_lookup in He. eapply (genuine_sorted L log HL Hg i); [|exact He|lia].
    by rewrite (take_lookup_eq _ _ _ i Ht) by lia.
  - apply last_None in He. subst log. simpl in Hj. lia.
Qed.

(** A log that ends in a term after [t] and before [t'] has the entry, or the
    leader of that term had it not. *)
Lemma later_log_contains L t j t' log :
  leaders_wf L → genuine L log → solid L t j → t < log_term log < t' →
  contains L t j log ∨ ∃ t'', t < t'' < t' ∧ omits L t'' t j.
Proof.
  intros HL Hg Hs Hlt. assert (1 ≤ t) as H1.
  { destruct Hs as (lg & ? & ? & Hlg & _). by apply (lw_term _ _ _ (HL _ _ Hlg)). }
  destruct (genuine_last L log Hg) as (lg' & Hlg' & Hlog).
  { intros ->. unfold log_term in Hlt. simpl in Hlt. lia. }
  destruct Hs as (lg & i & e & Hlg & -> & Hi & He).
  destruct (decide (take (S i) lg' = take (S i) lg)) as [Heq|Hne].
  2:{ right. exists (log_term log). split; [lia|]. exists lg'. split; [done|].
      intros (lg2 & Hlg2 & _ & Ht2). simplify_eq. }
  left. exists lg. apply lookup_lt_Some in Hi as Hlen. split; [done|]. split; [lia|].
  rewrite <-Heq. rewrite Hlog, take_take. f_equal. apply Nat.min_l.
  (* the last entry, of a later term, lies beyond the shared prefix *)
  unfold log_term in Hlt. destruct (last log) as [el|] eqn:Hl; [|simpl in Hlt; lia].
  rewrite last_lookup in Hl. destruct (decide (S i ≤ length log)%nat) as [|Hshort]; [done|exfalso].
  apply lookup_lt_Some in Hl as Hpos.
  assert (lg !! pred (length log) = Some el) as Hat.
  { rewrite <-(take_lookup_eq _ _ _ _ Heq) by lia. rewrite Hlog in Hl at 2.
    rewrite lookup_take_lt in Hl by lia. rewrite Hlog in Hl at 1. rewrite length_take in Hl.
    by replace (length log `min` length lg')%nat with (length log) in Hl
      by (rewrite Hlog at 1; rewrite length_take; lia). }
  pose proof (lw_terms _ _ _ (HL _ _ Hlg)) as Hts. rewrite Forall_forall in Hts.
  specialize (Hts el (list_elem_of_lookup_2 _ _ _ Hat)). simpl in Hts. lia.
Qed.

(** A candidate whose log is up to date with a voter's has every entry the voter
    has, unless a leader in between dropped it. *)
Lemma up_to_date_contains L t j t' log candidate :
  leaders_wf L → genuine L log → genuine L candidate →
  Forall (λ e, en_term e < t') candidate → up_to_date candidate log →
  solid L t j → contains L t j log →
  contains L t j candidate ∨ ∃ t'', t < t'' < t' ∧ omits L t'' t j.
Proof.
  intros HL Hg Hgc Hts Hup Hs Hc. pose proof (contains_log_term _ _ _ _ HL Hg Hs Hc) as Hle.
  assert (1 ≤ t) as H1.
  { destruct Hs as (lg & ? & ? & Hlg & _). by apply (lw_term _ _ _ (HL _ _ Hlg)). }
  pose proof (contains_nonempty _ _ _ _ Hs Hc) as Hj.
  assert (log_term candidate ≠ 0 → log_term candidate < t') as Hlast.
  { unfold log_term. destruct (last candidate) as [e|] eqn:He; [|done]. intros _.
    rewrite Forall_forall in Hts. apply Hts. rewrite last_lookup in He.
    by eapply list_elem_of_lookup_2. }
  destruct Hup as [Hlt|[Heq Hlen]].
  - apply later_log_contains; [done..|]. lia.
  - left. assert (log = take (length log) candidate) as Hpre.
    { destruct (genuine_last L log Hg) as (lg & Hlg & Hlog).
      { intros ->. simpl in Hj. lia. }
      destruct (genuine_last L candidate Hgc) as (lg' & Hlg' & Hcand).
      { intros ->. simpl in Hlen. lia. }
      rewrite Heq, Hlg in Hlg'. injection Hlg' as <-. rewrite Hcand, take_take, Nat.min_l by done.
      done. }
    destruct Hc as (lg & Hlg & Hjl & Ht). exists lg. split_and!; [done|done|].
    rewrite <-Ht. trans (take j (take (length log) candidate)); [|by rewrite <-Hpre].
    rewrite take_take, Nat.min_l by lia. done.
Qed.

(** ** Leader completeness *)

Section completeness.
Context (members : list Z) (Hnodup : NoDup members).
(** [acked v t j]: server [v] acknowledged the first [j] entries in term [t]. *)
Context (L : reigns) (acked : Z → Z → nat → Prop).

Definition majority_of (Q : gset Z) : Prop :=
  Q ⊆ list_to_set members ∧ Z.of_nat (length members) < 2 * Z.of_nat (size Q).

Lemma majorities_meet Q1 Q2 : majority_of Q1 → majority_of Q2 → ∃ v, v ∈ Q1 ∧ v ∈ Q2.
Proof.
  intros [HQ1 Hs1] [HQ2 Hs2]. destruct (decide (Q1 ∩ Q2 = ∅)) as [Hdisj|Hne].
  - assert (size (Q1 ∪ Q2) ≤ size (list_to_set members : gset Z))%nat as Hle.
    { apply subseteq_size. set_solver. }
    rewrite size_union in Hle by set_solver.
    rewrite size_list_to_set in Hle by done. lia.
  - apply set_choose_L in Hne as [v [? ?]%elem_of_intersection]. eauto.
Qed.

(** What [v] acknowledged before term [t] is in [candidate], or some leader in
    between omitted it. *)
Definition passes_on (t : Z) (v : Z) (candidate : list LogEntry) : Prop :=
  ∀ t0 j, t0 < t → solid L t0 j → acked v t0 j →
    contains L t0 j candidate ∨ ∃ t1, t0 < t1 < t ∧ omits L t1 t0 j.

(** The leader of [t] started from a log that a majority passed its entries to. *)
Definition well_elected (t : Z) (lg : list LogEntry) : Prop :=
  ∃ start Q, start `prefix_of` lg ∧ majority_of Q ∧ ∀ v, v ∈ Q → passes_on t v start.

(** The entry [j] of term [t] is on a majority. *)
Definition committed (t : Z) (j : nat) : Prop :=
  solid L t j ∧ ∃ Q, majority_of Q ∧ ∀ v, v ∈ Q → acked v t j.

Context (Helected : ∀ t lg, leader_log L t = Some lg → well_elected t lg).

Lemma contains_prefix t j log log' :
  solid L t j → contains L t j log → log `prefix_of` log' → contains L t j log'.
Proof.
  intros Hs Hc [k ->]. pose proof (contains_nonempty _ _ _ _ Hs Hc).
  destruct Hc as (lg & HL & Hj & Ht). exists lg. rewrite take_app_le by lia. done.
Qed.

Lemma leader_complete t j t' lg :
  committed t j → t < t' → leader_log L t' = Some lg → contains L t j lg.
Proof.
  intros [Hs (Q & HQ & Hack)]. revert t' lg.
  cut (∀ n t' lg, (Z.to_nat (t' - t) < n)%nat → t < t' → leader_log L t' = Some lg →
    contains L t j lg); [by eauto|].
  induction n as [|n IH]; intros t' lg Hn Hlt HL; [lia|].
  destruct (Helected t' lg HL) as (start & Q' & Hpre & HQ' & Hpass).
  destruct (majorities_meet _ _ HQ HQ') as (v & Hv & Hv').
  destruct (Hpass v Hv' t j Hlt Hs (Hack v Hv)) as [Hc|(t1 & Ht1 & lg1 & HL1 & Hnot)].
  - by eapply contains_prefix.
  - destruct Hnot. apply (IH t1); [lia|lia|done].
Qed.

(** Two committed entries lie on one log. *)
Lemma committed_agree t j t' j' lg lg' k :
  committed t j → committed t' j' → leader_log L t = Some lg → leader_log L t' = Some lg' →
  (k ≤ j)%nat → (k ≤ j')%nat → take k lg = take k lg'.
Proof.
  intros Hc Hc' HL HL' Hk Hk'. destruct (Z.lt_trichotomy t t') as [Hlt|[->|Hlt]]; [|congruence|].
  - destruct (leader_complete _ _ _ _ Hc Hlt HL') as (lg0 & HL0 & _ & Ht). simplify_eq.
    symmetry. by eapply take_eq_le.
  - destruct (leader_complete _ _ _ _ Hc' Hlt HL) as (lg0 & HL0 & _ & Ht). simplify_eq.
    by eapply take_eq_le.
Qed.
End completeness.
