(* ===== verification/Figure2Steps.v ===== *)
(** * Steps of a Figure 2 server keep it valid

    Every handler applied to a valid state gives a valid state, so the final
    [ensure_valid] of [step] never fires for requests that themselves carry
    sound entries; and the log only changes above the commit index. *)

From S2P Require Import Prelude OrdMap Bytes StoreTypes RaftTypes Figure2 Figure2Votes Figure2Log.

(** ** Valid states with room for more entries *)

Record good (s : State) : Prop := {
  gd_ok : state_ok s;
  gd_fits : state_fits s;
  gd_room : last_index s < u64_max }.

(** The entries of an append request are not newer than its term and their
    indexes do not wrap; a client command finds room in the log. *)
Definition event_fits (s : State) (e : Event) : Prop :=
  match e with
  | ReceiveAppendEntries _ q =>
      0 ≤ ae_previous_log_index q ∧
      ae_previous_log_index q + Z.of_nat (length (ae_entries q)) < u64_max ∧
      last_index s + Z.of_nat (length (ae_entries q)) < u64_max ∧
      Forall (λ e, en_term e ≤ ae_term q) (ae_entries q)
  | ReceiveClientCommand _ => last_index s + 1 < u64_max
  | _ => True
  end.

Lemma good_last s : good s → 0 ≤ last_index s.
Proof.
  intros [[] [] _]. rewrite last_index_length by done. lia.
Qed.

Lemma good_validate s : good s → validate s = [].
Proof.
  intros Hg. pose proof (good_last s Hg). destruct Hg as [Hok Hfit Hroom].
  by apply validate_spec.
Qed.

Lemma good_role s role known votes :
  good s → role ≠ role_leader → (role ≠ role_candidate → votes = ∅) →
  (∀ v, v ∈ votes → v = st_node s ∨ v ∈ st_peers s) →
  good (with_role s role known votes None).
Proof.
  intros [[] [] Hroom] Hr Hv Hvs. split; [|by split|done].
  split; simpl; try done.
Qed.

Lemma good_hard_state s t v : good s → current_term s ≤ t → good (with_hard_state s t v).
Proof.
  intros [[] [] Hroom] Ht. split; [|by split|done].
  split; simpl; try done.
  - intros m Hm. destruct (ok_snapshot m Hm) as (? & ? & ?).
    change (current_term (with_hard_state s t v)) with t. lia.
  - apply (Forall_impl _ _ _ ok_terms). intros e He. simpl in He.
    change (en_term e ≤ t). lia.
Qed.

Lemma good_persistence s id p :
  good s → 1 ≤ id → (∀ q, p = Some q → phs_request_id (pd_request q) ≠ 0) →
  good (with_persistence s id p).
Proof.
  intros [[] [] Hroom] Hid Hp. split; [|split; simpl; done || lia|done].
  split; simpl; done || lia.
Qed.

Lemma good_indexes s commit applied :
  good s → st_commit_index s ≤ commit ≤ last_index s →
  st_last_applied s ≤ applied ≤ commit → good (with_indexes s commit applied).
Proof.
  intros [[] [] Hroom] Hc Ha. split; [|by split|done]. split; simpl; try done; try lia.
  - change (snapshot_base s ≤ commit ∧ snapshot_base s ≤ applied). lia.
  - change (commit ≤ last_index s). lia.
Qed.

(** A new log that keeps the commit index covered, in a server that is not
    leader. *)
Lemma good_log s log :
  good s → contiguous (snapshot_base s) log → Forall (λ e, en_term e ≤ current_term s) log →
  st_commit_index s ≤ snapshot_base s + Z.of_nat (length log) < u64_max →
  st_leader s = None → good (with_log s log).
Proof.
  intros [[] [] Hroom] Hc Ht Hlen Hl.
  pose proof (last_index_length (with_log s log) Hc) as Hlast.
  change (snapshot_base (with_log s log)) with (snapshot_base s) in Hlast.
  change (log_of (with_log s log)) with log in Hlast.
  split; [split; simpl; try done|split; simpl; try done|]; try lia.
  - rewrite Hl. done.
  - change (snapshot_base s + Z.of_nat (length log) ≤ u64_max). lia.
Qed.

Lemma good_leader s l :
  good s → st_role s = role_leader → leader_ok (st_peers s) (last_index s) l →
  (∀ p g, ld_progress l !! p = Some g → 0 ≤ pg_match_index g) →
  good (with_leader s (Some l)).
Proof.
  intros [[] [] Hroom] Hr Hl Hm. split; [|split; simpl; try done|done].
  - split; simpl; try done. by intros l' [= <-].
  - intros l' p g [= <-]. apply Hm.
Qed.

(** ** What a step may do to the log *)

Record log_step (s s' : State) : Prop := {
  ls_snapshot : ps_snapshot (st_persistent s') = ps_snapshot (st_persistent s);
  ls_commit : st_commit_index s ≤ st_commit_index s';
  ls_committed : ∀ i, i ≤ st_commit_index s → entry_at s' i = entry_at s i;
  ls_applied : st_last_applied s ≤ st_last_applied s' ≤ st_last_applied s + 1;
  ls_leader : st_role s = role_leader → st_role s' = role_leader →
    log_of s `prefix_of` log_of s' }.

Definition same_log (s s' : State) : Prop :=
  ps_snapshot (st_persistent s') = ps_snapshot (st_persistent s) ∧ log_of s' = log_of s ∧
  st_commit_index s' = st_commit_index s ∧ st_last_applied s' = st_last_applied s.

Lemma same_log_base s s' : same_log s s' → snapshot_base s' = snapshot_base s.
Proof. intros (Hs & _). unfold snapshot_base. by rewrite Hs. Qed.

Lemma same_log_step s s' : same_log s s' → log_step s s'.
Proof.
  intros Hs. pose proof (same_log_base _ _ Hs) as Hb. destruct Hs as (Hs & Hl & Hc & Ha).
  split; try done; try lia.
  - intros i _. unfold entry_at. by rewrite Hb, Hl.
  - intros _ _. by rewrite Hl.
Qed.

Lemma same_log_trans_step s1 s2 s3 :
  same_log s1 s2 → (st_role s1 = role_leader → st_role s2 = role_leader ∨ st_role s3 ≠ role_leader) →
  log_step s2 s3 → log_step s1 s3.
Proof.
  intros H12 Hr []. pose proof (same_log_base _ _ H12) as Hb. destruct H12 as (Hs & Hl & Hc & Ha).
  split; try congruence; try lia.
  - intros i Hi. rewrite ls_committed0 by lia. unfold entry_at. by rewrite Hb, Hl.
  - intros H1 H3. rewrite <-Hl. apply ls_leader0; [|done]. by destruct (Hr H1).
Qed.

Definition grown (s : State) (r : StepResult) : Prop :=
  good (res_state r) ∧ log_step s (res_state r).

(** ** Handlers *)

Lemma persist_good r s :
  good s →
  owp (persist_hard_state (set_state r s))
    (λ r', good (res_state r') ∧ ∃ id, res_state r' = with_persistence s id (st_pending_hard_state s))
    (λ _, True).
Proof.
  intros Hg. unfold persist_hard_state. ostep. ostep; [done|]. simpl.
  split; [|by eexists].
  pose proof (ok_request _ (gd_ok _ Hg)). pose proof (fit_request _ (gd_fits _ Hg)).
  apply good_persistence; [done|lia|apply Hg].
Qed.

(** After [observe_higher_term] the state is valid, has the same log, and its
    role and leader state are the old ones or those of a follower. *)
Lemma observe_good r t :
  good (res_state r) →
  owp (observe_higher_term r t)
    (λ r', good (res_state r') ∧ same_log (res_state r) (res_state r') ∧
       t ≤ current_term (res_state r') ∧
       (res_state r' = res_state r ∨ st_role (res_state r') = role_follower))
    (λ _, True).
Proof.
  intros Hg. unfold observe_higher_term.
  destruct (Z.ltb_spec (current_term (res_state r)) t) as [Hlt|Hge];
    [|by simpl; split_and!; try done; left].
  eapply owp_mono; [apply (persist_good (push_rule r observe_higher_term_rule))| |done].
  - apply good_role; [|done|done|set_solver]. apply good_hard_state; [done|lia].
  - intros r' _ [? [id Hst]]. rewrite Hst in *. split_and!; try done. by right.
Qed.

Lemma send_appends_good s peers r :
  grown s r → owp (foldM (send_append None) r peers)
    (λ r', grown s r' ∧ res_state r' = res_state r) (λ _, True).
Proof.
  intros Hr. apply (owp_foldM _ (λ _ r', grown s r' ∧ res_state r' = res_state r)); [done|].
  intros pre peer suf r' _ [Hg Hs]. eapply owp_mono; [apply send_append_frame| |done].
  intros r'' _ [Hs' _]. unfold grown in *. by rewrite Hs', Hs in *.
Qed.

Lemma emplace_all next peers :
  NoDup peers →
  foldl (emplace_progress next) ∅ peers
  = list_to_map ((λ p, (p, mkProgress next 0)) <$> peers).
Proof.
  induction peers as [|p peers IH] using rev_ind; [done|]. intros Hnd.
  apply NoDup_app in Hnd as (Hnd & Hp & _).
  assert (p ∉ ((λ p, (p, mkProgress next 0)) <$> peers).*1) as Hfresh.
  { rewrite <-list_fmap_compose. intros (q & -> & Hq)%list_elem_of_fmap.
    apply (Hp q Hq). simpl. by left. }
  rewrite foldl_app, IH by done. simpl. unfold emplace_progress.
  rewrite not_elem_of_list_to_map_1 by done.
  rewrite fmap_app. simpl. by rewrite list_to_map_snoc.
Qed.

Lemma initialize_leader_good s r :
  grown s r → (st_role s = role_leader → False) →
  owp (initialize_leader r) (grown s) (λ _, True).
Proof.
  intros [Hg Hl] Hnl. unfold initialize_leader. ostep. ostep; [done|]. cbv zeta.
  pose proof (good_last _ Hg) as H0. pose proof (gd_room _ Hg) as Hroom.
  destruct Hg as [[] [] _]. rewrite emplace_all by done.
  set (l := mkLeaderState _ ∅). set (s1 := with_role _ role_leader _ _ _).
  assert (∀ p g, ld_progress l !! p = Some g → g = mkProgress (last_index (res_state r) + 1) 0 ∧
    p ∈ st_peers (res_state r)) as Hlk.
  { intros p g Hp. apply elem_of_list_to_map_2, list_elem_of_fmap in Hp as (q & [= -> ->] & ?).
    done. }
  eapply owp_mono; [apply (send_appends_good s)| |done]; [|by intros ? _ [? _]].
  split; [|destruct Hl; by split]. split; [split; simpl; try done|split; simpl; try done|done].
  - intros l' [= <-]. split; simpl.
    + rewrite <-(size_dom (D := gset Z)), dom_list_to_map_L, <-list_fmap_compose.
      rewrite size_list_to_set; [by rewrite length_fmap|].
      by rewrite list_fmap_id.
    + intros p Hp. exists (mkProgress (last_index (res_state r) + 1) 0). split; [|split; simpl].
      * apply elem_of_list_to_map_1; [by rewrite <-list_fmap_compose, list_fmap_id|].
        apply list_elem_of_fmap. eauto.
      * change (last_index s1) with (last_index (res_state r)). lia.
      * change (last_index s1) with (last_index (res_state r)). lia.
    + set_solver.
  - intros l' p g [= <-] Hp. by apply Hlk in Hp as [-> _].
Qed.

Lemma grown_refl r : good (res_state r) → grown (res_state r) r.
Proof. intros. split; [done|]. by apply same_log_step. Qed.

Lemma start_election_good r :
  good (res_state r) → st_role (res_state r) ≠ role_leader →
  owp (start_election r) (grown (res_state r)) (λ _, True).
Proof.
  intros Hg Hnl. unfold start_election. ostep. ostep; [done|]. cbv zeta. ostep.
  eapply owp_mono; [apply (persist_good (push_rule r candidate_start_election))| |done].
  { apply good_role; [|done|done|set_solver]. apply good_hard_state; [done|lia]. }
  intros r1 _ [Hg1 [id Hst]]. cbv zeta. set (r3 := foldl _ _ _).
  assert (res_state r3 = res_state r1) as Hst3.
  { unfold r3. by apply (foldl_inv (λ x, res_state x = res_state r1)). }
  assert (grown (res_state r) r3) as Hgr.
  { split; [by rewrite Hst3|]. rewrite Hst3, Hst. by apply same_log_step. }
  destruct (_ =? 1); [|done]. by apply initialize_leader_good.
Qed.

Lemma handle_timeout_good r :
  good (res_state r) → owp (handle_timeout r) (grown (res_state r)) (λ _, True).
Proof.
  intros Hg. unfold handle_timeout. destruct (st_role (res_state r)) eqn:Hr.
  - apply (start_election_good (push_rule r _)); [done|]. simpl. congruence.
  - apply (start_election_good (push_rule r _)); [done|]. simpl. congruence.
  - eapply owp_mono; [apply (send_appends_good (res_state r)), (grown_refl (push_rule r _) Hg)| |done].
    by intros ? _ [? _].
  - by apply grown_refl.
Qed.

Lemma handle_request_vote_good r from q :
  good (res_state r) → owp (handle_request_vote r from q) (grown (res_state r)) (λ _, True).
Proof.
  intros Hg. unfold handle_request_vote, ensure_peer.
  do 2 (apply owp_bind, owp_throw_when; [done|intros _]).
  ostep. eapply owp_mono; [by apply observe_good| |done].
  intros r1 _ (Hg1 & Hl1 & _ & _). cbv zeta.
  assert (grown (res_state r) r1) as Hgr1 by (split; [done|by apply same_log_step]).
  destruct (rv_term q <? _); [done|]. destruct (_ && _); [|done].
  set (s2 := with_hard_state _ _ _).
  assert (good s2) as Hg2 by (by apply good_hard_state).
  assert (log_step (res_state r) s2) as Hl2 by by apply same_log_step.
  ostep. destruct (negb _); [|done].
  eapply owp_mono; [by apply (persist_good (push_rule r1 request_vote_grant))| |done].
  intros r3 _ [Hg3 [id Hst]]. split; [done|]. simpl. rewrite Hst. by apply same_log_step.
Qed.

Lemma handle_request_vote_response_good r from q :
  good (res_state r) →
  owp (handle_request_vote_response r from q) (grown (res_state r)) (λ _, True).
Proof.
  intros Hg. unfold handle_request_vote_response, ensure_peer.
  apply owp_bind, owp_throw_when; [done|intros Hp%negb_false_iff%bool_decide_eq_true].
  ostep. eapply owp_mono; [by apply observe_good| |done].
  intros r1 _ (Hg1 & Hl1 & _ & Hr1). cbv zeta.
  assert (grown (res_state r) r1) as Hgr1 by (split; [done|by apply same_log_step]).
  case_bool_decide as Hrole; simpl; [|done]. destruct (_ || _); [done|].
  destruct Hr1 as [Hr1|Hr1]; [|congruence]. rewrite Hr1 in *.
  set (s2 := with_role _ _ _ _ _).
  assert (grown (res_state r) (set_state r1 s2)) as Hgr2.
  { split; [|by apply same_log_step]. destruct Hg1 as [[] [] ?].
    split; [split; simpl; try done|by split|done].
    intros v [->%elem_of_singleton|?]%elem_of_union; auto. }
  destruct (majority s2 <=? _); [|done]. apply initialize_leader_good; [done|]. congruence.
Qed.

Lemma finish_append_good s r from q changed :
  good (res_state r) → log_step s (res_state r) → st_role (res_state r) = role_follower →
  0 ≤ ae_previous_log_index q →
  ae_previous_log_index q + Z.of_nat (length (ae_entries q)) ≤ last_index (res_state r) →
  grown s (finish_append r from q changed).
Proof.
  intros Hg Hl Hrole H0 Hlen. unfold finish_append, append_reply.
  pose proof (gd_room _ Hg). rewrite u64_small by lia.
  set (r2 := if changed then _ else _).
  assert (res_state r2 = res_state r) as Hst by (unfold r2; by destruct changed).
  split; simpl.
  - destruct (Z.ltb_spec (st_commit_index (res_state r2)) (ae_leader_commit q)); [|by rewrite Hst].
    destruct (Z.ltb_spec (st_commit_index (res_state r2))
      (Z.min (ae_leader_commit q) (ae_previous_log_index q + Z.of_nat (length (ae_entries q)))));
      [|by rewrite Hst].
    simpl. rewrite Hst in *. pose proof (ok_applied _ (gd_ok _ Hg)).
    apply good_indexes; [done|lia|lia].
  - destruct (Z.ltb_spec (st_commit_index (res_state r2)) (ae_leader_commit q)); [|by rewrite Hst].
    destruct (Z.ltb_spec (st_commit_index (res_state r2))
      (Z.min (ae_leader_commit q) (ae_previous_log_index q + Z.of_nat (length (ae_entries q)))));
      [|by rewrite Hst].
    simpl. rewrite Hst in *. destruct Hl. split; simpl; try done. lia.
Qed.

(** The previous entry of the request is in the log (or is the snapshot's last
    entry, or the empty prefix). *)
Definition previous_matches (s : State) (q : AppendEntriesRequest) : Prop :=
  snapshot_base s ≤ ae_previous_log_index q ≤ last_index s ∧
  term_at s (ae_previous_log_index q) = Ret (ae_previous_log_term q).

(** The reply of an append request, and on success the log it left. *)
Record append_post (s : State) (from : Z) (q : AppendEntriesRequest) (r : StepResult) : Prop := {
  ap_grown : grown s r;
  ap_reply : ∃ resp, last (res_effects r) = Some (SendAppendEntriesResponse from resp) ∧
    ar_term resp = current_term (res_state r) ∧
    (ar_succeeded resp = true →
       ae_term q = current_term (res_state r) ∧ previous_matches s q ∧
       ar_matched_index resp = ae_previous_log_index q + Z.of_nat (length (ae_entries q)) ∧
       ∀ e, e ∈ ae_entries q → ∃ e', entry_at (res_state r) (en_index e) = Some e' ∧
         en_term e' = en_term e);
  ap_follower : ae_term q = current_term (res_state r) →
    st_role (res_state r) = role_follower ∧ st_known_leader (res_state r) = Some from }.

Lemma finish_append_reply r from q changed :
  ∃ resp, last (res_effects (finish_append r from q changed))
    = Some (SendAppendEntriesResponse from resp) ∧ ar_succeeded resp = true ∧
    ar_matched_index resp = u64 (ae_previous_log_index q + Z.of_nat (length (ae_entries q))) ∧
    ar_term resp = current_term (res_state r) ∧
    log_of (res_state (finish_append r from q changed)) = log_of (res_state r) ∧
    snapshot_base (res_state (finish_append r from q changed)) = snapshot_base (res_state r) ∧
    current_term (res_state (finish_append r from q changed)) = current_term (res_state r) ∧
    st_role (res_state (finish_append r from q changed)) = st_role (res_state r) ∧
    st_known_leader (res_state (finish_append r from q changed)) = st_known_leader (res_state r).
Proof.
  unfold finish_append, append_reply. cbv zeta.
  set (r2 := if changed then _ else _).
  assert (res_state r2 = res_state r) as Hst by (unfold r2; by destruct changed).
  set (r3 := if _ <? ae_leader_commit q then _ else _).
  assert (current_term (res_state r3) = current_term (res_state r) ∧
    log_of (res_state r3) = log_of (res_state r) ∧
    snapshot_base (res_state r3) = snapshot_base (res_state r) ∧
    st_role (res_state r3) = st_role (res_state r) ∧
    st_known_leader (res_state r3) = st_known_leader (res_state r)) as (Et & El & Eb & Er & Ek).
  { unfold r3. rewrite <-Hst. by repeat case_match. }
  eexists. split; [apply last_snoc|]. simpl. done.
Qed.

Lemma merged_good s previous entries log' pre rest :
  good s → st_leader s = None →
  merge_ok s previous entries log' pre rest → contiguous previous entries →
  snapshot_base s ≤ previous ≤ last_index s →
  Forall (λ e, en_term e ≤ current_term s) entries →
  last_index s + Z.of_nat (length entries) < u64_max →
  good (with_log s log') ∧ log_step s (with_log s log') ∧
  previous + Z.of_nat (length entries) ≤ last_index (with_log s log').
Proof.
  intros Hg Hl Hm He Hp Ht Hroom. pose proof (gd_ok _ Hg) as [].
  pose proof (merge_contiguous _ _ _ _ _ _ Hm ltac:(lia) ok_contiguous He) as Hc.
  destruct (merge_length _ _ _ _ _ _ Hm ltac:(lia) ok_contiguous He) as [Hlen Hcom]; [lia|lia|].
  assert (Z.of_nat (length log') ≤ Z.of_nat (length (log_of s)) + Z.of_nat (length entries)) as Hup.
  { destruct Hm as [-> _ [[_ ->]|(k & _ & _ & _ & ->)]]; [lia|].
    rewrite !length_app, length_take. lia. }
  rewrite last_index_length in Hroom by done.
  pose proof (last_index_length (with_log s log') Hc) as Hlast.
  change (snapshot_base (with_log s log')) with (snapshot_base s) in Hlast.
  change (log_of (with_log s log')) with log' in Hlast.
  assert (good (with_log s log')) as Hg'.
  { apply good_log; [done|done| |lia|done]. by eapply merge_terms. }
  split; [done|]. split; [|lia]. split; simpl; try done; [|lia|].
  - intros i Hi. unfold entry_at. change (snapshot_base (with_log s log')) with (snapshot_base s).
    destruct (Z.ltb_spec (snapshot_base s) i); [|done]. change (log_of (with_log s log')) with log'.
    by apply (merge_keeps_committed _ _ _ _ _ _ Hm).
  - intros Hr. apply ok_role in Hr as [? ?]. congruence.
Qed.

Lemma append_reply_post s from q r ctx :
  grown s r →
  (ae_term q = current_term (res_state r) →
     st_role (res_state r) = role_follower ∧ st_known_leader (res_state r) = Some from) →
  append_post s from q (append_reply r from false 0 ctx).
Proof.
  intros Hg Hf. split; [done| |done]. eexists. split; [apply last_snoc|]. done.
Qed.

(** Accepting the entries: the merge of a log that the request extends. *)
Lemma finish_append_post s s2 from q r point pre rest changed :
  good s2 → st_leader s2 = None → st_role s2 = role_follower →
  st_known_leader s2 = Some from → same_log s s2 → current_term s2 = ae_term q →
  event_fits s2 (ReceiveAppendEntries from q) → previous_matches s2 q →
  contiguous (ae_previous_log_index q) (ae_entries q) →
  merge_ok s2 (ae_previous_log_index q) (ae_entries q) (merged_log s2 point) pre rest →
  res_state r = with_log s2 (merged_log s2 point) →
  append_post s from q (finish_append r from q changed).
Proof.
  intros Hg Hl Hrole Hk Hsame Ht (H0 & Hsz & Hroom & Hterms) Hprev Hcont Hm Hst.
  rewrite <-Ht in Hterms.
  destruct (merged_good _ _ _ _ _ _ Hg Hl Hm Hcont (proj1 Hprev) Hterms Hroom) as (Hg' & Hls & Hlen).
  rewrite <-Hst in Hg', Hls, Hlen.
  assert (log_step s (res_state r)) as Hstep.
  { eapply same_log_trans_step; [done| |done]. intros _. right.
    rewrite Hst. change (st_role s2 ≠ role_leader). by rewrite Hrole. }
  destruct (finish_append_reply r from q changed)
    as (resp & Hlast & Hsucc & Hmatch & Hterm & El & Eb & Et & Er & Ek).
  split.
  - apply finish_append_good; try done. by rewrite Hst.
  - exists resp. split; [done|]. rewrite Et. split; [done|]. intros _.
    split; [by rewrite Hst|]. split.
    { pose proof (same_log_base _ _ Hsame) as Hb. destruct Hsame as (Es & Elog & _).
      unfold previous_matches, term_at, last_index in *. rewrite Hb, Elog, Es in Hprev.
      done. }
    split; [by rewrite Hmatch, u64_small by lia|].
    intros e He. destruct (merge_contains _ _ _ _ _ _ Hm ltac:(apply Hprev)
      (ok_contiguous _ (gd_ok _ Hg)) Hcont ltac:(apply Hprev) (ok_commit _ (gd_ok _ Hg)) e He)
      as (e' & He' & Hte).
    exists e'. split; [|done]. unfold entry_at. rewrite Eb, El, Hst.
    change (snapshot_base (with_log s2 (merged_log s2 point))) with (snapshot_base s2).
    apply list_elem_of_lookup in He as [j Hj]. rewrite (Hcont _ _ Hj) in *.
    destruct Hprev as [[? ?] _]. by rewrite (proj2 (Z.ltb_lt _ _)) by lia.
  - intros _. rewrite Er, Ek, Hst. done.
Qed.

Lemma handle_append_entries_post r from q :
  good (res_state r) → event_fits (res_state r) (ReceiveAppendEntries from q) →
  owp (handle_append_entries r from q) (append_post (res_state r) from q) (λ _, True).
Proof.
  intros Hg Hev. unfold handle_append_entries, ensure_peer.
  do 2 (apply owp_bind, owp_throw_when; [done|intros _]). cbv zeta.
  ostep. eapply owp_mono; [by apply observe_good| |done].
  intros r1 _ (Hg1 & Hl1 & Hle & Hr1).
  destruct (Z.ltb_spec (ae_term q) (current_term (res_state r1))) as [Hlt|Hge].
  { apply append_reply_post; [split; [done|by apply same_log_step]|]. simpl. lia. }
  set (r2 := if bool_decide _ then _ else _).
  assert (res_state r2 = res_state r1) as Hst2 by (unfold r2; by case_bool_decide).
  set (s2 := with_role (res_state r2) role_follower (Some from) ∅ None).
  assert (good s2) as Hg2 by (unfold s2; rewrite Hst2; apply good_role; [done..|set_solver]).
  assert (same_log (res_state r) s2) as Hl2 by (unfold s2; by rewrite Hst2).
  assert (current_term s2 = ae_term q) as Ht2.
  { change (current_term s2) with (current_term (res_state r2)). rewrite Hst2. lia. }
  assert (event_fits s2 (ReceiveAppendEntries from q)) as Hev2.
  { pose proof (same_log_base _ _ Hl2) as Hb. destruct Hl2 as (_ & Elog & _).
    simpl in Hev |- *. unfold last_index in *. by rewrite Hb, Elog. }
  assert (log_step (res_state r) s2) as Hls2 by by apply same_log_step.
  set (r3 := push_effect (set_state r2 s2) ResetElectionTimer).
  assert (append_post (res_state r) from q (append_reply
    (push_rule r3 append_entries_reject_log_mismatch) from false 0 (ae_read_context q))) as Hrefuse.
  { by apply append_reply_post. }
  pose proof (gd_ok _ Hg2) as Hok2. pose proof (gd_fits _ Hg2) as Hfit2.
  ostep. destruct (_ && _) eqn:Hrange; simpl; [|done].
  apply andb_true_iff in Hrange as [Hb1%Z.leb_le Hb2%Z.leb_le].
  destruct (term_at s2 (ae_previous_log_index q)) as [t|] eqn:Hta; simpl; [|done].
  destruct (Z.eqb_spec t (ae_previous_log_term q)) as [->|]; simpl; [|done].
  ostep. destruct (foldM check_contiguous _ _) as [e0|] eqn:Hcc; simpl; [|done].
  destruct Hev2 as (H0 & Hsz & Hroom & Hterms).
  apply check_contiguous_spec in Hcc; [|done|done].
  ostep. eapply owp_mono; [apply (scan_entries_spec s2 (ae_previous_log_index q));
    [apply Hfit2|apply Hok2|apply Hok2|lia|done]| |done].
  intros point _ [->|(pre & rest & Hm & Hpt)]; [done|].
  assert (∀ r', res_state r' = with_log s2 (merged_log s2 point) → ∀ changed,
    append_post (res_state r) from q (finish_append r' from q changed)) as Hfin.
  { intros r' Hr' changed. by eapply (finish_append_post _ s2). }
  destruct point as [[|e rest']|index rest'|]; simpl in Hfin; [|by apply Hfin..|done].
  apply Hfin. rewrite app_nil_r. by destruct s2 as [? ? ? []].
Qed.

(** ** Commit advancement *)

(** Index [i] may be committed by its leader: of the current term and on a
    majority. *)
Definition committable (s : State) (l : LeaderState) (i : Z) : Prop :=
  term_at s i = Ret (current_term s) ∧ majority s ≤ replicated l i.

Lemma commit_candidate_spec s l candidate fuel :
  owp (commit_candidate s l candidate fuel)
    (λ found, match found with
       | Some c => candidate - Z.of_nat fuel < c ≤ candidate ∧ committable s l c ∧
           ∀ i, c < i ≤ candidate → ¬ committable s l i
       | None => ∀ i, candidate - Z.of_nat fuel < i ≤ candidate → ¬ committable s l i
       end)
    (λ _, True).
Proof.
  revert candidate. induction fuel as [|fuel IH]; intros candidate; cbn [commit_candidate].
  { simpl. intros i Hi. lia. }
  ostep. destruct (term_at s candidate) as [t|] eqn:Ht; simpl; [|done].
  assert (¬ committable s l candidate →
    owp (commit_candidate s l (candidate - 1) fuel)
      (λ found, match found with
       | Some c => candidate - Z.of_nat (S fuel) < c ≤ candidate ∧ committable s l c ∧
           ∀ i, c < i ≤ candidate → ¬ committable s l i
       | None => ∀ i, candidate - Z.of_nat (S fuel) < i ≤ candidate → ¬ committable s l i
       end) (λ _, True)) as Hnext.
  { intros Hno. eapply owp_mono; [apply IH| |done]. intros [c|] _.
    - intros (Hc & Hcom & Hmax). split; [lia|]. split; [done|]. intros i Hi.
      destruct (decide (i = candidate)) as [->|]; [done|]. apply Hmax. lia.
    - intros Hmax i Hi. destruct (decide (i = candidate)) as [->|]; [done|]. apply Hmax. lia. }
  destruct (Z.eqb_spec t (current_term s)) as [->|Hne]; simpl.
  - destruct (Z.leb_spec (majority s) (replicated l candidate)); simpl.
    + split; [lia|]. split; [done|]. intros i Hi. lia.
    + apply Hnext. unfold committable. lia.
  - apply Hnext. unfold committable. rewrite Ht. intros [[= ?] _]. done.
Qed.

Lemma advance_leader_commit_good s r :
  grown s r → owp (advance_leader_commit r) (grown s) (λ _, True).
Proof.
  intros Hgr. unfold advance_leader_commit. destruct (st_leader (res_state r)) as [l|] eqn:Hl.
  2:{ destruct (_ <=? _); done. }
  destruct Hgr as [Hg Hs]. ostep. eapply owp_mono; [apply commit_candidate_spec| |done].
  intros [c|] _ Hc; simpl; [|done]. destruct Hc as (Hc & _ & _).
  pose proof (ok_applied _ (gd_ok _ Hg)). pose proof (ok_commit _ (gd_ok _ Hg)).
  split; simpl; [apply good_indexes; [done|lia|lia]|].
  destruct Hs. split; simpl; try done. lia.
Qed.

(** ** Remaining handlers *)

Lemma leader_ok_insert peers end_ l p g :
  leader_ok peers end_ l → p ∈ peers → progress_ok end_ g →
  leader_ok peers end_ (mkLeaderState (<[p := g]> (ld_progress l)) (ld_pending_clients l)).
Proof.
  intros [Hsz Hp Hc] Hin Hg. split; simpl; [| |done].
  - rewrite map_size_insert. destruct (Hp p Hin) as (g' & -> & _). done.
  - intros p' Hin'. destruct (decide (p' = p)) as [->|Hne].
    + rewrite lookup_insert_eq. eauto.
    + rewrite lookup_insert_ne by done. auto.
Qed.

Lemma handle_append_entries_response_good r from q :
  good (res_state r) →
  owp (handle_append_entries_response r from q) (grown (res_state r)) (λ _, True).
Proof.
  intros Hg. unfold handle_append_entries_response, ensure_peer.
  apply owp_bind, owp_throw_when; [done|intros Hp%negb_false_iff%bool_decide_eq_true].
  ostep. eapply owp_mono; [by apply observe_good| |done].
  intros r1 _ (Hg1 & Hl1 & _ & Hr1). cbv zeta.
  case_bool_decide as Hrole; simpl; [|split; [done|by apply same_log_step]].
  destruct Hr1 as [Hr1|Hr1]; [|congruence]. rewrite Hr1 in *.
  destruct (negb _); [split; [by rewrite Hr1|rewrite Hr1; by apply same_log_step]|].
  destruct (st_leader (res_state r)) as [l|] eqn:Hl; [|done].
  destruct (ld_progress l !! from) as [g|] eqn:Hpg; [|done].
  pose proof (ok_leader _ (gd_ok _ Hg) _ Hl) as Hlok.
  pose proof (good_last _ Hg) as H0. pose proof (gd_room _ Hg) as Hroom.
  pose proof (fit_match _ (gd_fits _ Hg) _ _ _ Hl Hpg) as Hm0.
  assert (progress_ok (last_index (res_state r)) g) as [Hnx [Hmt Hmn]].
  { destruct (lk_progress _ _ _ Hlok from Hp) as (g' & Hg' & Hok). by simplify_eq. }
  assert (∀ g', progress_ok (last_index (res_state r)) g' → 0 ≤ pg_match_index g' →
    grown (res_state r) (set_state r1 (with_leader (res_state r) (Some (mkLeaderState
      (<[from := g']> (ld_progress l)) (ld_pending_clients l)))))) as Hupd.
  { intros g' Hok Hnn. split; [|by apply same_log_step]. simpl. apply good_leader; try done.
    - by apply leader_ok_insert.
    - simpl. intros p g'' [[_ <-]|[_ Hlk]]%lookup_insert_Some; [done|].
      by eapply (fit_match _ (gd_fits _ Hg)). }
  destruct (ar_succeeded q).
  - ostep. ostep; [done|]. apply advance_leader_commit_good, Hupd; simpl; [|lia].
    split; simpl; rewrite u64_small; lia.
  - eapply owp_mono; [apply send_append_frame| |done]. intros r' _ [Hst _].
    unfold grown. rewrite Hst. apply Hupd; simpl; [|lia].
    split; simpl; rewrite !u64_small; lia.
Qed.

Lemma handle_apply_good r :
  good (res_state r) → owp (handle_apply r) (grown (res_state r)) (λ _, True).
Proof.
  intros Hg. unfold handle_apply.
  destruct (Z.leb_spec (st_commit_index (res_state r)) (st_last_applied (res_state r)));
    [by apply grown_refl|].
  cbv zeta. ostep. destruct (log_at _ _) as [e|]; simpl; [|done].
  pose proof (ok_commit _ (gd_ok _ Hg)).
  set (s1 := with_indexes _ _ _).
  assert (good s1) as Hg1 by (apply good_indexes; [done|lia|lia]).
  assert (log_step (res_state r) s1) as Hs1.
  { split; simpl; try done. lia. }
  destruct (st_leader (res_state r)) as [l|] eqn:Hl; [|done].
  case_bool_decide; [|done]. split; simpl; [|by destruct Hs1].
  apply good_leader; [done|apply (gd_ok _ Hg1); by eexists| |].
  - destruct (ok_leader _ (gd_ok _ Hg1) _ Hl) as [? ? Hc]. split; simpl; try done.
    intros i Hi. apply Hc. set_solver.
  - simpl. intros p g Hpg. exact (fit_match _ (gd_fits _ Hg1) l p g Hl Hpg).
Qed.

Lemma handle_client_good r c :
  good (res_state r) → event_fits (res_state r) (ReceiveClientCommand c) →
  owp (handle_client r c) (grown (res_state r)) (λ _, True).
Proof.
  intros Hg Hev. unfold handle_client. case_bool_decide as Hrole; simpl; [|by apply grown_refl].
  ostep. ostep; [done|]. destruct (st_leader (res_state r)) as [l|] eqn:Hl; [|done]. cbv zeta.
  set (s1 := with_leader _ _).
  assert (grown (res_state r) (set_state r s1)) as Hgr.
  { pose proof (good_last _ Hg) as H0. simpl in Hev. destruct Hg as [[] [] Hroom].
    pose proof (last_index_length _ ok_contiguous) as Hlast.
    assert (last_index s1 = last_index (res_state r) + 1) as Hl1.
    { unfold last_index at 1. change (log_of s1) with (log_of (res_state r) ++
        [mkEntry (current_term (res_state r)) (last_index (res_state r) + 1) c]).
      by rewrite last_snoc. }
    split; [split|].
    - split; simpl; try done.
      + intros i e [Hi|[Hge Hi]]%lookup_app_Some; [by apply ok_contiguous|].
        apply list_lookup_singleton_Some in Hi as [Hi <-]. simpl.
        change (snapshot_base s1) with (snapshot_base (res_state r)). lia.
      + apply Forall_app. split; [done|]. by repeat constructor.
      + rewrite Hl1. lia.
      + intros l' [= <-]. rewrite Hl1. destruct (ok_leader _ Hl) as [Hsz Hp Hc].
        split; simpl; [done| |].
        * intros p Hin. destruct (Hp p Hin) as (g & Hpg & [? ?]). exists g. split; [done|].
          split; lia.
        * intros i [->%elem_of_singleton|Hi]%elem_of_union; [lia|]. destruct (Hc i Hi). lia.
    - split; simpl; try done.
      + change (snapshot_base s1) with (snapshot_base (res_state r)).
        change (log_of s1) with (log_of (res_state r) ++
          [mkEntry (current_term (res_state r)) (last_index (res_state r) + 1) c]).
        rewrite length_app. simpl. lia.
      + intros l' p g [= <-]. exact (fit_match l p g Hl).
    - change (last_index s1 < u64_max). lia.
    - split; simpl; try done; try lia.
      + intros i Hi. unfold entry_at. change (snapshot_base s1) with (snapshot_base (res_state r)).
        destruct (Z.ltb_spec (snapshot_base (res_state r)) i); [|done].
        apply lookup_app_l. lia.
      + intros _ _. by apply prefix_app_r. }
  ostep. eapply owp_mono; [apply (send_appends_good (res_state r))| |done].
  { exact Hgr. }
  intros r2 _ [Hgr2 _]. by apply advance_leader_commit_good.
Qed.

(** Deferred hard-state requests carry identifiers that are not zero. *)
Definition requests_ok (effects : list Effect) : Prop :=
  ∀ q, PersistHardState q ∈ effects → phs_request_id q ≠ 0.

Lemma gate_good s r :
  grown s r → requests_ok (res_effects r) →
  owp (gate_on_hard_state r) (grown s) (λ _, True).
Proof.
  intros [Hg Hs] Hreq. unfold gate_on_hard_state.
  pose proof (split_persistence_spec (res_effects r)) as Hsp.
  destruct (split_persistence (res_effects r)) as [[[before q] after]|]; [|done].
  destruct Hsp as (pre & _ & Heq & _). ostep. ostep; [done|]. simpl.
  pose proof (ok_request _ (gd_ok _ Hg)). pose proof (fit_request _ (gd_fits _ Hg)).
  split; simpl; [|by destruct Hs].
  apply good_persistence; [done|lia|]. intros p [= <-]. simpl. apply Hreq. rewrite Heq. set_solver.
Qed.

(** ** Whole steps *)

Lemma dispatch_good s e :
  good s → event_fits s e → is_completion e = false →
  owp (dispatch (mkResult s [] []) e) (grown s) (λ _, True).
Proof.
  intros Hg Hev Hc. destruct e; simpl in Hc; try done; unfold dispatch.
  - case_bool_decide; [by apply (grown_refl (mkResult s [] []))|by apply (handle_timeout_good (mkResult s [] []))].
  - case_bool_decide; [by apply (handle_timeout_good (mkResult s [] []))|by apply (grown_refl (mkResult s [] []))].
  - by apply (handle_apply_good (mkResult s [] [])).
  - eapply owp_mono; [by apply observe_good| |done]. intros r _ (? & ? & _).
    split; [done|by apply same_log_step].
  - by apply (handle_request_vote_good (mkResult s [] [])).
  - by apply (handle_request_vote_response_good (mkResult s [] [])).
  - eapply owp_mono; [by apply (handle_append_entries_post (mkResult s [] []))| |done].
    by intros r _ [].
  - by apply (handle_append_entries_response_good (mkResult s [] [])).
  - by apply (handle_client_good (mkResult s [] [])).
Qed.

(** The invariant of a running server. *)
Record server_ok (s : State) : Prop := {
  so_good : good s;
  so_candidate : st_role s = role_candidate → voted_for s = Some (st_node s);
  so_pending : ∀ p, st_pending_hard_state s = Some p →
    hs_run (phs_state (pd_request p)) (pd_deferred_effects p) = Some (hard_state s) }.

Lemma gated_pending h s es p :
  gated h s es → st_pending_hard_state s = Some p →
  hs_run (phs_state (pd_request p)) (pd_deferred_effects p) = Some (hard_state s).
Proof. unfold gated. intros Hg Hp. rewrite Hp in Hg. by destruct Hg as (? & _ & _ & _ & ?). Qed.

Lemma vote_core_candidate s g s' :
  vote_core s g s' → (st_role s = role_candidate → voted_for s = Some (st_node s)) →
  st_role s' = role_candidate → voted_for s' = Some (st_node s').
Proof.
  intros (s1 & [] & (En & _ & Er & _ & Ev & _)) Hown Hr. rewrite Er in Hr. rewrite En, Ev, vs_node.
  destruct (vs_candidate Hr) as [[_ ->]|(Hc & _ & -> & _)]; [done|by apply Hown].
Qed.

(** An input, without the final check: handler, then gate. *)
Definition unchecked (s : State) (e : Event) : outcome StepResult :=
  r ← dispatch (mkResult s [] []) e; gate_on_hard_state r.

Lemma unchecked_input s e r :
  server_ok s → st_pending_hard_state s = None → event_fits s e → is_completion e = false →
  unchecked s e = Ret r →
  server_ok (res_state r) ∧ log_step s (res_state r) ∧
  gated (hard_state s) (res_state r) (res_effects r) ∧
  vote_core s (event_grants s e) (res_state r).
Proof.
  intros [Hg Hcand Hpend] Hp Hev Hc (r0 & Hd & Hgate)%bind_Ret.
  pose proof (dispatch_good s e Hg Hev Hc) as H1. rewrite Hd in H1.
  pose proof (dispatch_handled s e (ok_self _ (gd_ok _ Hg)) Hcand Hc) as H2. rewrite Hd in H2.
  destruct H2 as [Hsync Hvote]. pose proof (vs_pending _ _ _ Hvote) as Hp0. rewrite Hp in Hp0.
  assert (requests_ok (res_effects r0)) as Hreq by (intros q; by eapply hs_run_requests).
  pose proof (gate_good s r0 H1 Hreq) as H3. rewrite Hgate in H3. destruct H3 as [Hg' Hls].
  pose proof (gate_on_hard_state_ok _ _ Hsync Hp0) as H4. rewrite Hgate in H4.
  destruct H4 as [Hgated Hcore].
  assert (vote_core s (event_grants s e) (res_state r)) as Hvc by by exists (res_state r0).
  split_and!; try done. split; [done|by eapply vote_core_candidate|].
  intros p Hp'. by eapply gated_pending.
Qed.

Lemma unchecked_completion s c p r :
  server_ok s → st_pending_hard_state s = Some p →
  unchecked s (HardStatePersisted c) = Ret r →
  server_ok (res_state r) ∧ log_step s (res_state r) ∧ same_core s (res_state r) ∧
  gated (phs_state (pd_request p)) (res_state r) (res_effects r).
Proof.
  intros [Hg Hcand Hpend] Hp (r0 & Hd & Hgate)%bind_Ret. specialize (Hpend _ Hp).
  simpl in Hd. unfold handle_completion in Hd. simpl in Hd. rewrite Hp in Hd.
  apply bind_Ret in Hd as (u & _ & [= <-]).
  set (r0 := mkResult _ _ _) in Hgate.
  assert (grown s r0) as Hgr.
  { split; [|by apply same_log_step]. pose proof (ok_request _ (gd_ok _ Hg)).
    pose proof (fit_request _ (gd_fits _ Hg)). apply good_persistence; [done|lia|done]. }
  assert (requests_ok (res_effects r0)) as Hreq by (intros q; by eapply hs_run_requests).
  pose proof (gate_good s r0 Hgr Hreq) as H3. rewrite Hgate in H3. destruct H3 as [Hg' Hls].
  pose proof (gate_on_hard_state_ok (phs_state (pd_request p)) r0 Hpend eq_refl) as H4.
  rewrite Hgate in H4. destruct H4 as [Hgated Hcore].
  split_and!; try done. split; [done| |intros p' Hp'; by eapply gated_pending].
  destruct Hcore as (En & _ & Er & _ & Ev & _). rewrite En, Er, Ev. exact Hcand.
Qed.

Lemma step_unchecked s e r : step s e = Ret r → unchecked s e = Ret r.
Proof.
  intros (_ & _ & _ & r0 & Hd & Hg)%step_inv. unfold unchecked. by rewrite Hd.
Qed.

Lemma step_pending s e r :
  step s e = Ret r → is_completion e = bool_decide (is_Some (st_pending_hard_state s)).
Proof.
  intros (_ & _ & Hc & _)%step_inv. case_bool_decide; destruct (is_completion e); naive_solver.
Qed.

(** Both kinds of input together. *)
Lemma step_ok s e r :
  server_ok s → event_fits s e → step s e = Ret r →
  server_ok (res_state r) ∧ log_step s (res_state r) ∧
  follows (hard_state s) (hard_state (res_state r)).
Proof.
  intros Hok Hev Hstep. pose proof (step_pending _ _ _ Hstep) as Hc.
  apply step_unchecked in Hstep. destruct (st_pending_hard_state s) as [p|] eqn:Hp.
  - destruct e; try done. destruct (unchecked_completion _ _ _ _ Hok Hp Hstep)
      as (? & ? & (_ & _ & _ & Et & Ev & _) & _).
    split_and!; try done. unfold hard_state. by rewrite Et, Ev.
  - destruct (unchecked_input _ _ _ Hok Hp Hev Hc Hstep) as (? & ? & Hg & _).
    split_and!; try done. unfold gated in Hg.
    destruct (st_pending_hard_state (res_state r)) as [p|].
    + destruct Hg as (_ & _ & _ & Hf & Hrun). apply hs_run_follows in Hrun.
      by trans (phs_state (pd_request p)).
    + destruct Hg as [_ ->]. done.
Qed.

(** ** When a step throws

    On a valid state that waits for nothing, the checks before and after the
    handler pass. *)

Lemma gate_returns r : st_pending_hard_state (res_state r) = None → is_Ret (gate_on_hard_state r).
Proof.
  intros Hp. unfold gate_on_hard_state. destruct (split_persistence _) as [[[before q] after]|];
    [|by eexists]. cbv zeta. rewrite Hp. by eexists.
Qed.

Lemma step_handler s e :
  server_ok s → st_pending_hard_state s = None → event_fits s e → is_completion e = false →
  match dispatch (mkResult s [] []) e with
  | Ret _ => is_Ret (step s e)
  | Throw x => step s e = Throw x
  end.
Proof.
  intros Hok Hp Hev Hc. pose proof Hok as [Hg Hcand _].
  unfold step, ensure_valid. rewrite (good_validate _ Hg), Hp, Hc. simpl.
  destruct (dispatch (mkResult s [] []) e) as [r0|x] eqn:Hd; simpl; [|done].
  pose proof (dispatch_handled s e (ok_self _ (gd_ok _ Hg)) Hcand Hc) as H2. rewrite Hd in H2.
  destruct H2 as [_ Hvote]. pose proof (vs_pending _ _ _ Hvote) as Hp0. rewrite Hp in Hp0.
  destruct (gate_returns r0 Hp0) as [r Hr]. rewrite Hr. simpl.
  destruct (unchecked_input s e r Hok Hp Hev Hc) as ([Hg' _ _] & _).
  { unfold unchecked. by rewrite Hd. }
  rewrite (good_validate _ Hg'). by eexists.
Qed.

Lemma term_at_returns s index :
  good s → snapshot_base s ≤ index ≤ last_index s → is_Ret (term_at s index).
Proof.
  intros [[] [] Hroom]. rewrite last_index_length by done. intros Hi. unfold term_at.
  destruct (Z.eqb_spec index 0); [by eexists|].
  assert (snapshot_base s < index → is_Ret (throw_when (index <=? snapshot_base s)
    (out_of_range "Raft log index was compacted");;
    entry ← log_at (log_of s) (index - snapshot_base s - 1); mret (en_term entry))) as Hin.
  { intros Hlt. destruct (Z.leb_spec index (snapshot_base s)); [lia|]. simpl. unfold log_at.
    destruct (lookup_lt_is_Some_2 (log_of s) (Z.to_nat (index - snapshot_base s - 1))) as [e He]; [lia|].
    rewrite He. by eexists. }
  unfold snapshot_base in *. destruct (ps_snapshot (st_persistent s)) as [m|].
  - destruct (Z.eqb_spec index (sm_last_included_index m)); [by eexists|]. apply Hin. lia.
  - apply Hin. lia.
Qed.

Lemma append_request_returns s peer ctx :
  good s → st_role s = role_leader → peer ∈ st_peers s → is_Ret (append_request s peer ctx).
Proof.
  intros Hg Hr Hin. pose proof Hg as [[] [] Hroom]. unfold append_request.
  destruct (proj1 ok_role Hr) as [l Hl]. rewrite Hl.
  destruct (lk_progress _ _ _ (ok_leader _ Hl) _ Hin) as (g & Hgl & [[P1 P2] _]). rewrite Hgl.
  assert (snapshot_base s ≤ last_index s) by (rewrite last_index_length by done; lia).
  rewrite (u64_small (snapshot_base s + 1)) by lia.
  rewrite (u64_small (Z.max _ _ - 1)) by lia.
  destruct (term_at_returns s (Z.max (pg_next_index g) (snapshot_base s + 1) - 1)) as [t Ht]; [done|lia|].
  rewrite Ht. by eexists.
Qed.

(** A leader can always send its heartbeats. *)
Lemma heartbeat_returns s :
  server_ok s → st_pending_hard_state s = None → st_role s = role_leader →
  is_Ret (step s HeartbeatTimeout).
Proof.
  intros Hok Hp Hr. pose proof (so_good _ Hok) as Hg.
  pose proof (step_handler s HeartbeatTimeout Hok Hp I eq_refl) as H. simpl in H.
  rewrite bool_decide_true in H by done. unfold handle_timeout in H. simpl in H. rewrite Hr in H.
  assert (∀ peers r, (∀ p, p ∈ peers → p ∈ st_peers s) → res_state r = s →
    is_Ret (foldM (send_append None) r peers)) as Hsend.
  { induction peers as [|p peers IH]; intros r Hin Hs; simpl; [by eexists|].
    destruct (append_request_returns s p None) as [q Hq]; [done|done|set_solver|].
    assert (send_append None r p = Ret (push_effect (push_rule r leader_replicate)
      (SendAppendEntries p q))) as ->.
    { unfold send_append. simpl. by rewrite Hs, Hq. }
    simpl. apply IH; [set_solver|done]. }
  destruct (Hsend (st_peers s) (push_rule (mkResult s [] []) leader_heartbeat)) as [r Hs]; [done|done|].
  by rewrite Hs in H.
Qed.

(** An election or a higher term is refused only when the term or the request
    identifiers are used up. *)
Lemma persist_hard_state_tires r : owp (persist_hard_state r) (λ _, True) exhausted.
Proof. unfold persist_hard_state. ostep. ostep; [by eexists|done]. Qed.

Lemma election_timeout_tires s x :
  server_ok s → st_pending_hard_state s = None → majority s ≠ 1 →
  step s ElectionTimeout = Throw x → exhausted x.
Proof.
  intros Hok Hp Hmaj Hstep.
  pose proof (step_handler s ElectionTimeout Hok Hp I eq_refl) as H.
  assert (owp (dispatch (mkResult s [] []) ElectionTimeout) (λ _, True) exhausted) as Hd.
  { assert (∀ rule, owp (start_election (push_rule (mkResult s [] []) rule)) (λ _, True) exhausted) as Hs.
    { intros rule. unfold start_election, persist_hard_state. ostep. ostep; [by eexists|]. cbv zeta. ostep.
      ostep. ostep; [by eexists|]. simpl. set (r3 := foldl _ _ _).
      assert (majority (res_state r3) = majority s) as Em.
      { unfold r3. by apply (foldl_inv (λ x, majority (res_state x) = majority s)). }
      rewrite Em. by destruct (Z.eqb_spec (majority s) 1). }
    simpl. case_bool_decide; [done|]. unfold handle_timeout. simpl. destruct (st_role s); done. }
  destruct (dispatch _ _) as [r|y]; simpl in *.
  - destruct H. congruence.
  - congruence.
Qed.

Lemma observe_term_tires s t x :
  server_ok s → st_pending_hard_state s = None → step s (ObserveTerm t) = Throw x → exhausted x.
Proof.
  intros Hok Hp Hstep. pose proof (step_handler s (ObserveTerm t) Hok Hp I eq_refl) as H.
  assert (owp (dispatch (mkResult s [] []) (ObserveTerm t)) (λ _, True) exhausted) as Hd.
  { simpl. unfold observe_higher_term. destruct (_ <? _); [apply persist_hard_state_tires|done]. }
  destruct (dispatch _ _) as [r|y]; simpl in *.
  - destruct H. congruence.
  - congruence.
Qed.
