(* ===== verification/Figure2Effects.v ===== *)
(** * Order of effects of a Figure 2 server

    What the handlers do to the log and the applied index, and in which order
    they request that the log be persisted and send messages that rely on it:
    when the log changed, the request precedes every append request and every
    positive append response. *)

From S2P Require Import Prelude OrdMap Bytes StoreTypes RaftTypes Figure2 Figure2Votes.

(** Messages that speak of the sender's log. *)
Definition relies_on_log (e : Effect) : Prop :=
  match e with
  | SendAppendEntries _ _ => True
  | SendAppendEntriesResponse _ response => ar_succeeded response = true
  | _ => False
  end.

#[export] Instance relies_on_log_dec e : Decision (relies_on_log e).
Proof. destruct e; apply _. Defined.

#[export] Instance Effect_is_PersistLog_dec (e : Effect) : Decision (e = PersistLog).
Proof. destruct e; (by left) || (by right). Defined.

(** A candidate or leader is in a term of its own. *)
Definition voter_ok (s : State) : Prop :=
  0 ≤ current_term s ∧
  (st_role s = role_candidate ∨ st_role s = role_leader → 1 ≤ current_term s).

(** Log and applied index are as before and no log request was made. *)
Record untouched (s : State) (r : StepResult) : Prop := {
  ut_log : log_of (res_state r) = log_of s;
  ut_snapshot : ps_snapshot (st_persistent (res_state r)) = ps_snapshot (st_persistent s);
  ut_applied : st_last_applied (res_state r) = st_last_applied s;
  ut_pending : st_pending_hard_state (res_state r) = st_pending_hard_state s;
  ut_role : st_role (res_state r) = role_learner → st_role s = role_learner;
  ut_voter : voter_ok s → voter_ok (res_state r);
  ut_effects : PersistLog ∉ res_effects r }.

(** The effects of [es] that precede the log request do not rely on the log, and
    there is only one request. *)
Definition log_first (es : list Effect) : Prop :=
  ∃ pre post, es = pre ++ PersistLog :: post ∧ Forall (λ e, ¬ relies_on_log e) pre ∧
    (PersistLog ∉ pre) ∧ PersistLog ∉ post.

(** Either untouched, or the log is requested first. *)
Record logged (s : State) (r : StepResult) : Prop := {
  lo_snapshot : ps_snapshot (st_persistent (res_state r)) = ps_snapshot (st_persistent s);
  lo_applied : st_last_applied (res_state r) = st_last_applied s;
  lo_pending : st_pending_hard_state (res_state r) = st_pending_hard_state s;
  lo_role : st_role (res_state r) = role_learner → st_role s = role_learner;
  lo_voter : voter_ok s → voter_ok (res_state r);
  lo_log : (log_of (res_state r) = log_of s ∧ PersistLog ∉ res_effects r) ∨
    log_first (res_effects r) }.

Lemma untouched_logged s r : untouched s r → logged s r.
Proof. intros []. split; auto. Qed.

Lemma untouched_push_rule s r rule : untouched s r → untouched s (push_rule r rule).
Proof. by intros []. Qed.

Lemma untouched_push_effect s r e :
  untouched s r → e ≠ PersistLog → untouched s (push_effect r e).
Proof. intros [] He. split; simpl; try done. set_solver. Qed.

Lemma untouched_set_state s r s' :
  untouched s r → log_of s' = log_of (res_state r) →
  ps_snapshot (st_persistent s') = ps_snapshot (st_persistent (res_state r)) →
  st_last_applied s' = st_last_applied (res_state r) →
  st_pending_hard_state s' = st_pending_hard_state (res_state r) →
  (st_role s' = role_learner → st_role (res_state r) = role_learner) →
  (voter_ok (res_state r) → voter_ok s') → untouched s (set_state r s').
Proof. intros [] ??????. split; simpl; auto; congruence. Qed.

#[export] Hint Resolve untouched_push_rule untouched_push_effect untouched_set_state : kura.

(** Solves goals that a result built from an untouched one is untouched. *)
Ltac untouched :=
  repeat first
    [ done
    | apply untouched_push_rule
    | apply untouched_push_effect; [|done]
    | apply untouched_set_state; [|done..|]
    | by (intros [? ?]; split; simpl; [done|]; intros [?|?]; naive_solver) ].

(** *** Helpers *)

Lemma persist_hard_state_untouched s r :
  untouched s r → owp (persist_hard_state r)
    (λ r', untouched s r' ∧ st_role (res_state r') = st_role (res_state r) ∧
       ∃ q, res_effects r' = res_effects r ++ [PersistHardState q]) (λ _, True).
Proof.
  intros Hr. unfold persist_hard_state. ostep. ostep; [done|]. simpl. split; [untouched|eauto].
Qed.

Lemma send_append_untouched s ctx r peer :
  untouched s r → owp (send_append ctx r peer)
    (λ r', untouched s r' ∧ ∃ q, res_effects r' = res_effects r ++ [SendAppendEntries peer q])
    (λ _, True).
Proof.
  intros Hr. unfold send_append. ostep. destruct (append_request _ _ _) as [q|]; [|done].
  simpl. split; [untouched|eauto].
Qed.

Lemma send_appends_untouched s peers r :
  untouched s r → owp (foldM (send_append None) r peers) (untouched s) (λ _, True).
Proof.
  intros Hr. apply (owp_foldM _ (λ _, untouched s)); [done|].
  intros pre peer suf r' _ Hr'. eapply owp_mono; [by apply send_append_untouched| |done].
  by intros r'' _ [? _].
Qed.

Lemma initialize_leader_untouched s r :
  untouched s r → st_role (res_state r) = role_candidate → owp (initialize_leader r) (untouched s) (λ _, True).
Proof.
  intros Hr Hrole. unfold initialize_leader. ostep. ostep; [done|]. apply send_appends_untouched.
  untouched.
Qed.

Lemma start_election_untouched s r :
  untouched s r → owp (start_election r) (untouched s) (λ _, True).
Proof.
  intros Hr. unfold start_election. ostep. ostep; [done|]. cbv zeta. ostep.
  eapply owp_mono; [apply (persist_hard_state_untouched s); untouched| |done].
  { intros [? ?]; split; unfold current_term in *; simpl in *; lia. }
  intros r1 _ (H1 & Hr1 & _). simpl in Hr1. set (r3 := foldl _ _ _).
  assert (untouched s r3 ∧ st_role (res_state r3) = role_candidate) as [H3 Hr3].
  { unfold r3. apply (foldl_inv (λ x, untouched s x ∧ st_role (res_state x) = role_candidate)).
    - split; [untouched|done].
    - intros x peer [Hx ?]. split; [untouched|done]. }
  destruct (_ =? 1); [by apply initialize_leader_untouched|done].
Qed.

Lemma handle_timeout_untouched s r :
  untouched s r → owp (handle_timeout r) (untouched s) (λ _, True).
Proof.
  intros Hr. unfold handle_timeout. destruct (st_role (res_state r)).
  - apply start_election_untouched. untouched.
  - apply start_election_untouched. untouched.
  - apply send_appends_untouched. untouched.
  - done.
Qed.

Lemma observe_higher_term_untouched s r t :
  untouched s r → owp (observe_higher_term r t)
    (λ r', untouched s r' ∧ (r' = r ∨ ∃ q, res_effects r' = res_effects r ++ [PersistHardState q]))
    (λ _, True).
Proof.
  intros Hr. unfold observe_higher_term.
  destruct (Z.ltb_spec (current_term (res_state r)) t); [|split; [done|by left]].
  eapply owp_mono; [apply (persist_hard_state_untouched s); untouched| |done].
  { intros [? ?]; split; unfold current_term in *; simpl in *; [lia|]. by intros [?|?]. }
  intros r' _ (? & _ & ?). split; [done|by right].
Qed.

Lemma handle_request_vote_untouched s r from q :
  untouched s r → owp (handle_request_vote r from q) (untouched s) (λ _, True).
Proof.
  intros Hr. unfold handle_request_vote, ensure_peer.
  do 2 (apply owp_bind, owp_throw_when; [done|intros _]). ostep.
  eapply owp_mono; [by apply (observe_higher_term_untouched s)| |done]. intros r1 _ [H1 _].
  destruct (_ <? _); [untouched|]. destruct (_ && _); [|untouched]. ostep.
  apply (owp_mono _ (untouched s) _ (λ _, True)); [| |done].
  - destruct (negb _); [|untouched].
    eapply owp_mono; [apply (persist_hard_state_untouched s); untouched| |done]. by intros ? _ [? _].
  - intros r3 _ H3. simpl. untouched.
Qed.

Lemma handle_request_vote_response_untouched s r from q :
  untouched s r → owp (handle_request_vote_response r from q) (untouched s) (λ _, True).
Proof.
  intros Hr. unfold handle_request_vote_response, ensure_peer.
  apply owp_bind, owp_throw_when; [done|intros _]. ostep.
  eapply owp_mono; [by apply (observe_higher_term_untouched s)| |done]. intros r1 _ [H1 _].
  destruct (_ || _) eqn:Hb; [done|]. cbv zeta. destruct (_ <=? _); [|untouched].
  apply orb_false_iff in Hb as [[Hb _]%orb_false_iff _].
  apply negb_false_iff, bool_decide_eq_true in Hb.
  apply initialize_leader_untouched; [untouched|done].
Qed.

Lemma advance_leader_commit_effects s r :
  (logged s r → owp (advance_leader_commit r) (logged s) (λ _, True)) ∧
  (untouched s r → owp (advance_leader_commit r) (untouched s) (λ _, True)).
Proof.
  unfold advance_leader_commit. destruct (st_leader (res_state r)) as [l|].
  2: { destruct (_ <=? _); done. }
  split; intros Hr; ostep; (destruct (commit_candidate _ _ _ _) as [[c|]|]; simpl; [|done..]).
  - destruct Hr. by split.
  - untouched.
Qed.

Lemma handle_append_entries_response_untouched s r from q :
  untouched s r → owp (handle_append_entries_response r from q) (untouched s) (λ _, True).
Proof.
  intros Hr. unfold handle_append_entries_response, ensure_peer.
  apply owp_bind, owp_throw_when; [done|intros _]. ostep.
  eapply owp_mono; [by apply (observe_higher_term_untouched s)| |done]. intros r1 _ [H1 _].
  destruct (_ || _); [done|]. destruct (st_leader _) as [l|]; [|done].
  destruct (ld_progress l !! from) as [p|]; [|done]. destruct (ar_succeeded q).
  - ostep. ostep; [done|]. apply advance_leader_commit_effects. untouched.
  - eapply owp_mono; [apply (send_append_untouched s); untouched| |done]. by intros ? _ [? _].
Qed.

(** *** The handlers that append *)

Lemma log_first_intro r e es :
  Forall (λ e, ¬ relies_on_log e) (res_effects r) → PersistLog ∉ res_effects r →
  PersistLog ∉ es → e = PersistLog → log_first (res_effects r ++ e :: es).
Proof. intros ??? ->. by eexists _, _. Qed.

Lemma finish_append_logged s r from q changed :
  ps_snapshot (st_persistent (res_state r)) = ps_snapshot (st_persistent s) →
  st_last_applied (res_state r) = st_last_applied s →
  st_pending_hard_state (res_state r) = st_pending_hard_state s →
  st_role (res_state r) ≠ role_learner → (voter_ok s → voter_ok (res_state r)) →
  Forall (λ e, ¬ relies_on_log e) (res_effects r) → PersistLog ∉ res_effects r →
  (changed = false → log_of (res_state r) = log_of s) →
  logged s (finish_append r from q changed).
Proof.
  intros Hsn Ha Hpd Hrole Hvo Hq Hno Hc. unfold finish_append, append_reply.
  set (r2 := if changed then _ else _).
  set (r3 := if _ <? _ then _ else _).
  assert (res_effects r3 = res_effects r2 ∧ log_of (res_state r3) = log_of (res_state r) ∧
    ps_snapshot (st_persistent (res_state r3)) = ps_snapshot (st_persistent (res_state r)) ∧
    st_last_applied (res_state r3) = st_last_applied (res_state r) ∧
    st_pending_hard_state (res_state r3) = st_pending_hard_state (res_state r) ∧
    st_role (res_state r3) = st_role (res_state r) ∧
    current_term (res_state r3) = current_term (res_state r))
    as (E1 & E2 & E3 & E4 & E5 & E6 & E7).
  { unfold r3, r2. by destruct changed; repeat case_match. }
  split; simpl; [congruence..|congruence| |].
  { unfold voter_ok in *. by rewrite E6, E7. }
  rewrite E1, E2. unfold r2. destruct changed; simpl.
  - right. rewrite <-app_assoc. apply log_first_intro; try done. set_solver.
  - left. split; [by apply Hc|]. set_solver.
Qed.

Lemma handle_append_entries_logged s r from q :
  untouched s r → res_effects r = [] →
  owp (handle_append_entries r from q) (logged s) (λ _, True).
Proof.
  intros Hr Hnil. unfold handle_append_entries, ensure_peer.
  do 2 (apply owp_bind, owp_throw_when; [done|intros _]). cbv zeta. ostep.
  eapply owp_mono; [by apply (observe_higher_term_untouched s)| |done]. intros r1 _ [H1 Heff].
  assert (Forall (λ e, ¬ relies_on_log e) (res_effects r1)) as Hq.
  { destruct Heff as [->|[q' ->]]; rewrite Hnil; repeat constructor; tauto. }
  destruct (_ <? _). { apply untouched_logged. unfold append_reply. untouched. }
  set (r2 := if bool_decide _ then _ else _).
  assert (untouched s r2 ∧ res_effects r2 = res_effects r1) as [H2 E2].
  { unfold r2. case_bool_decide; split; try done; untouched. }
  set (r3 := push_effect _ ResetElectionTimer).
  assert (untouched s r3) as H3 by (unfold r3; untouched).
  assert (Forall (λ e, ¬ relies_on_log e) (res_effects r3)) as Hq3.
  { unfold r3. simpl. rewrite E2. apply Forall_app. split; [done|]. repeat constructor. simpl. tauto. }
  assert (∀ r', untouched s r' → untouched s (append_reply r' from false 0 (ae_read_context q))) as Href.
  { intros r' Hr'. unfold append_reply. untouched. }
  destruct H3 as [U1 U2 U3 U4 U5 U6 U7].
  ostep. destruct (if _ && _ then _ else _) as [b|]; simpl; [|done].
  destruct b; simpl; [|by apply untouched_logged, Href; split].
  ostep. destruct (foldM check_contiguous _ _); simpl; [|done].
  ostep. destruct (scan_entries _ _) as [[[|e rest]|index rest|]|]; simpl; try done.
  - by apply finish_append_logged.
  - by apply finish_append_logged.
  - by apply finish_append_logged.
  - by apply untouched_logged, Href; split.
Qed.

Lemma handle_client_logged s r c :
  untouched s r → res_effects r = [] → owp (handle_client r c) (logged s) (λ _, True).
Proof.
  intros Hr Hnil. unfold handle_client. destruct (negb _); [by apply untouched_logged|].
  ostep. ostep; [done|]. destruct (st_leader (res_state r)) as [l|]; [|done]. cbv zeta. ostep.
  set (s1 := with_leader _ _). set (r1 := push_effect _ PersistLog).
  assert (owp (foldM (send_append None) r1 (st_peers s1))
    (λ r2, ∃ es, res_effects r2 = PersistLog :: es ∧ (PersistLog ∉ es) ∧
       res_state r2 = s1) (λ _, True)) as Hsend.
  { apply (owp_foldM _ (λ _ r2, ∃ es, res_effects r2 = PersistLog :: es ∧ (PersistLog ∉ es) ∧
       res_state r2 = s1)).
    - exists []. unfold r1. simpl. rewrite Hnil. split_and!; try done. set_solver.
    - intros pre peer suf r2 _ (es & He & Hno & Hs). unfold send_append. ostep.
      destruct (append_request _ _ _) as [q|]; simpl; [|done].
      exists (es ++ [SendAppendEntries peer q]). rewrite He. split_and!; try done. set_solver. }
  eapply owp_mono; [exact Hsend| |done]. intros r2 _ (es & He & Hno & Hs).
  apply advance_leader_commit_effects. destruct Hr. split; rewrite Hs; try done.
  right. rewrite He. exists [], es. split_and!; try done. set_solver.
Qed.

(** ** Dispatch and gate *)

(** The events whose handlers append to the log. *)
Definition may_append (e : Event) : bool :=
  match e with ReceiveAppendEntries _ _ | ReceiveClientCommand _ => true | _ => false end.

Lemma untouched_start s : untouched s (mkResult s [] []).
Proof. split; try done. set_solver. Qed.

Lemma dispatch_untouched s e :
  e ≠ ApplyCommitted → is_completion e = false → may_append e = false →
  owp (dispatch (mkResult s [] []) e) (untouched s) (λ _, True).
Proof.
  intros Ha Hc Hm. pose proof (untouched_start s) as H0. destruct e; simpl in *; try done.
  - case_bool_decide; [done|by apply handle_timeout_untouched].
  - case_bool_decide; [by apply handle_timeout_untouched|done].
  - eapply owp_mono; [by apply (observe_higher_term_untouched s)| |done]. by intros ? _ [? _].
  - by apply handle_request_vote_untouched.
  - by apply handle_request_vote_response_untouched.
  - by apply handle_append_entries_response_untouched.
Qed.

Lemma dispatch_logged s e :
  e ≠ ApplyCommitted → is_completion e = false →
  owp (dispatch (mkResult s [] []) e) (logged s) (λ _, True).
Proof.
  intros Ha Hc. destruct (may_append e) eqn:Hm.
  - destruct e; try done; simpl.
    + by apply handle_append_entries_logged; [apply untouched_start|].
    + by apply handle_client_logged; [apply untouched_start|].
  - eapply owp_mono; [by apply dispatch_untouched| |done]. intros r _. apply untouched_logged.
Qed.

(** The effects a state holds back until its hard state is durable. *)
Definition held (s : State) : list Effect :=
  match st_pending_hard_state s with
  | Some p => pd_deferred_effects p
  | None => []
  end.

Lemma gate_held r r' :
  st_pending_hard_state (res_state r) = None → gate_on_hard_state r = Ret r' →
  res_effects r = res_effects r' ++ held (res_state r') ∧
  log_of (res_state r') = log_of (res_state r) ∧
  ps_snapshot (st_persistent (res_state r')) = ps_snapshot (st_persistent (res_state r)) ∧
  st_last_applied (res_state r') = st_last_applied (res_state r) ∧
  st_role (res_state r') = st_role (res_state r) ∧
  current_term (res_state r') = current_term (res_state r).
Proof.
  intros Hp. unfold gate_on_hard_state.
  assert (∀ es, match split_persistence es with
    | Some (before, _, after) => es = before ++ after | None => True end) as Hsplit.
  { induction es as [|e es IH]; simpl; [done|].
    destruct e; try done; destruct (split_persistence es) as [[[before q] after]|]; simpl; congruence. }
  specialize (Hsplit (res_effects r)).
  destruct (split_persistence (res_effects r)) as [[[before q] after]|].
  - cbv zeta. rewrite Hp. simpl. intros [= <-]. by split_and!.
  - intros [= <-]. unfold held. by rewrite Hp, app_nil_r.
Qed.

(** One step as seen by the log: what it released and what it holds, in order,
    request the log first if it changed it; a completion releases, in order, what
    was held. *)
Record step_logged (s : State) (e : Event) (r : StepResult) : Prop := {
  sl_snapshot : ps_snapshot (st_persistent (res_state r)) = ps_snapshot (st_persistent s);
  sl_applied : st_last_applied (res_state r) = st_last_applied s;
  sl_role : st_role (res_state r) = role_learner → st_role s = role_learner;
  sl_log : let total := res_effects r ++ held (res_state r) in
    if is_completion e then total = held s ∧ log_of (res_state r) = log_of s
    else held s = [] ∧ ((log_of (res_state r) = log_of s ∧ PersistLog ∉ total) ∨ log_first total) }.

Lemma step_step_logged s e r :
  step s e = Ret r → e ≠ ApplyCommitted → step_logged s e r.
Proof.
  intros Hstep Ha. destruct (step_inv _ _ _ Hstep) as (_ & _ & Hc & r0 & Hd & Hg).
  destruct (is_completion e) eqn:Hcomp.
  - destruct e; try done. simpl in Hd. unfold handle_completion in Hd. simpl in Hd.
    destruct (st_pending_hard_state s) as [p|] eqn:Hp; [|done].
    apply bind_Ret in Hd as (u & _ & [= <-]). apply gate_held in Hg as (E1 & E2 & E3 & E4 & E5 & _); [|done].
    simpl in *. split; try done; [congruence|]. simpl. rewrite <-E1. unfold held. by rewrite Hp.
  - assert (st_pending_hard_state s = None) as Hp.
    { apply eq_None_not_Some. rewrite Hc. congruence. }
    pose proof (dispatch_logged s e Ha Hcomp) as Hl. rewrite Hd in Hl. destruct Hl as [L1 L2 L3 L4 L5].
    apply gate_held in Hg as (E1 & E2 & E3 & E4 & E5 & _); [|congruence].
    split; [congruence|congruence|rewrite E5; done|]. rewrite Hcomp. split; [unfold held; by rewrite Hp|].
    rewrite <-E1, E2. done.
Qed.

(** ** Election timeouts *)

Lemma start_election_effects r :
  owp (start_election r)
    (λ r', ∃ q es, res_effects r' = res_effects r ++ PersistHardState q :: ResetElectionTimer :: es)
    (λ _, True).
Proof.
  unfold start_election. ostep. ostep; [done|]. cbv zeta. ostep.
  unfold persist_hard_state. cbv zeta. ostep. ostep; [done|]. simpl. set (q := mkPersistHardState _ _).
  set (r3 := foldl _ _ _).
  assert (∃ es, res_effects r3 = res_effects r ++ PersistHardState q :: ResetElectionTimer :: es)
    as [es Hes].
  { unfold r3. apply (foldl_inv (λ x, ∃ es,
      res_effects x = res_effects r ++ PersistHardState q :: ResetElectionTimer :: es)).
    - exists []. simpl. by rewrite <-app_assoc.
    - intros x peer [es Hx]. simpl. rewrite Hx, <-app_assoc. by eexists. }
  destruct (_ =? 1); [|simpl; by eauto]. unfold initialize_leader. ostep. ostep; [done|].
  apply (owp_foldM _ (λ _ r', ∃ q es,
    res_effects r' = res_effects r ++ PersistHardState q :: ResetElectionTimer :: es)); [by eauto|].
  intros pre peer suf r' _ (q' & es' & Hr'). unfold send_append. ostep.
  destruct (append_request _ _ _); simpl; [|done]. rewrite Hr', <-app_assoc. simpl. by eauto.
Qed.

(** A timeout of a voter starts an election, which holds a reset of the timer
    until the new term is durable. *)
Lemma election_timeout_resets s r :
  step s ElectionTimeout = Ret r → st_role s = role_follower ∨ st_role s = role_candidate →
  ResetElectionTimer ∈ held (res_state r).
Proof.
  intros Hstep Hrole. destruct (step_inv _ _ _ Hstep) as (_ & _ & Hc & r0 & Hd & Hg).
  assert (st_pending_hard_state s = None) as Hp.
  { apply eq_None_not_Some. rewrite Hc. done. }
  assert (∃ q es, res_effects r0 = PersistHardState q :: ResetElectionTimer :: es) as (q & es & He).
  { simpl in Hd. rewrite bool_decide_false in Hd by (destruct Hrole; congruence).
    unfold handle_timeout in Hd. simpl in Hd. destruct Hrole as [Hr|Hr]; rewrite Hr in Hd.
    - pose proof (start_election_effects (push_rule (mkResult s [] []) follower_election_timeout)) as H.
      rewrite Hd in H. exact H.
    - pose proof (start_election_effects (push_rule (mkResult s [] []) candidate_restart_election)) as H.
      rewrite Hd in H. exact H. }
  unfold gate_on_hard_state in Hg. rewrite He in Hg. simpl in Hg.
  apply bind_Ret in Hg as (u & _ & [= <-]). simpl. unfold held. simpl. set_solver.
Qed.

(** ** Terms of log entries *)

Definition dated (log : list LogEntry) : Prop := Forall (λ e, 1 ≤ en_term e) log.

Definition event_dated (e : Event) : Prop :=
  match e with ReceiveAppendEntries _ q => dated (ae_entries q) | _ => True end.

Lemma scan_entries_dated s entries :
  dated entries →
  owp (scan_entries s entries) (λ point, match point with
    | merge_from rest | merge_truncate _ rest => dated rest | merge_refuse => True end) (λ _, True).
Proof.
  induction 1 as [|e entries He Hes IH]; simpl; [constructor|].
  destruct (_ <? _); [simpl; by constructor|]. ostep.
  destruct (term_at _ _) as [t|]; simpl; [|done].
  destruct (negb _); [|done]. destruct (_ <=? _); simpl; [done|by constructor].
Qed.

Lemma finish_append_log r from q changed :
  log_of (res_state (finish_append r from q changed)) = log_of (res_state r).
Proof. unfold finish_append. destruct changed; simpl; by repeat case_match. Qed.

Lemma handle_append_entries_dated s r from q :
  untouched s r → dated (log_of s) → dated (ae_entries q) →
  owp (handle_append_entries r from q) (λ r', dated (log_of (res_state r'))) (λ _, True).
Proof.
  intros Hr Hlog Hq. unfold handle_append_entries, ensure_peer.
  do 2 (apply owp_bind, owp_throw_when; [done|intros _]). cbv zeta. ostep.
  eapply owp_mono; [by apply (observe_higher_term_untouched s)| |done]. intros r1 _ [H1 _].
  pose proof (ut_log _ _ H1) as E1.
  destruct (_ <? _); [simpl; by rewrite E1|].
  set (r2 := if bool_decide _ then _ else _).
  assert (log_of (res_state r2) = log_of s) as E2.
  { unfold r2. by case_bool_decide. }
  rewrite <-E2 in Hlog. set (s2 := with_role _ _ _ _ _).
  ostep. destruct (if _ && _ then _ else _) as [b|]; simpl; [|done].
  destruct b; simpl; [|exact Hlog].
  ostep. destruct (foldM check_contiguous _ _); simpl; [|done].
  ostep. pose proof (scan_entries_dated s2 _ Hq) as Hscan.
  destruct (scan_entries _ _) as [[[|e rest]|index rest|]|]; unfold mret, outcome_ret in *;
    cbn [owp mbind outcome_bind] in *; try done; rewrite ?finish_append_log.
  - exact Hlog.
  - apply Forall_app. split; [exact Hlog|exact Hscan].
  - apply Forall_app. split; [apply Forall_take; exact Hlog|exact Hscan].
Qed.

Lemma advance_leader_commit_log r :
  owp (advance_leader_commit r) (λ r', log_of (res_state r') = log_of (res_state r)) (λ _, True).
Proof.
  unfold advance_leader_commit. destruct (st_leader (res_state r)) as [l|].
  - ostep. by destruct (commit_candidate _ _ _ _) as [[c|]|].
  - by destruct (_ <=? _).
Qed.

Lemma handle_client_dated s r c :
  untouched s r → dated (log_of s) → voter_ok s →
  owp (handle_client r c) (λ r', dated (log_of (res_state r'))) (λ _, True).
Proof.
  intros Hr Hlog Hv. pose proof (ut_log _ _ Hr) as E. pose proof (ut_voter _ _ Hr Hv) as [_ Hterm].
  unfold handle_client. destruct (bool_decide (st_role _ = _)) eqn:Hrole; simpl; [|by rewrite E].
  apply bool_decide_eq_true in Hrole.
  ostep. ostep; [done|]. destruct (st_leader (res_state r)) as [l|]; [|done]. cbv zeta. ostep.
  apply (owp_mono _ (λ r2, dated (log_of (res_state r2))) _ (λ _, True)); [| |done].
  - apply (owp_foldM _ (λ _ r2, dated (log_of (res_state r2)))).
    + simpl. rewrite E. apply Forall_app. split; [done|]. constructor; [|done]. simpl. auto.
    + intros pre peer suf r2 _ H2. unfold send_append. ostep.
      by destruct (append_request _ _ _).
  - intros r2 _ H2. eapply owp_mono; [apply advance_leader_commit_log| |done].
    intros r3 _ ->. done.
Qed.

Lemma dispatch_dated s e :
  e ≠ ApplyCommitted → is_completion e = false → event_dated e → voter_ok s → dated (log_of s) →
  owp (dispatch (mkResult s [] []) e) (λ r, dated (log_of (res_state r))) (λ _, True).
Proof.
  intros Ha Hc He Hv Hlog. destruct (may_append e) eqn:Hm.
  - destruct e; try done; simpl.
    + by apply (handle_append_entries_dated s); [apply untouched_start|..].
    + by apply (handle_client_dated s); [apply untouched_start|..].
  - eapply owp_mono; [by apply dispatch_untouched| |done]. intros r _ H. by rewrite (ut_log _ _ H).
Qed.

(** The log of a server never holds an entry of term zero. *)
Lemma step_dated s e r :
  step s e = Ret r → e ≠ ApplyCommitted → event_dated e → voter_ok s → dated (log_of s) →
  voter_ok (res_state r) ∧ dated (log_of (res_state r)).
Proof.
  intros Hstep Ha He Hv Hlog. destruct (step_inv _ _ _ Hstep) as (_ & _ & Hc & r0 & Hd & Hg).
  assert (voter_ok (res_state r0) ∧ dated (log_of (res_state r0)) ∧
    st_pending_hard_state (res_state r0) = None) as (Hv0 & Hl0 & Hp0).
  { destruct (is_completion e) eqn:Hcomp.
    - destruct e; try done. simpl in Hd. unfold handle_completion in Hd. simpl in Hd.
      destruct (st_pending_hard_state s) as [p|]; [|done].
      by apply bind_Ret in Hd as (u & _ & [= <-]).
    - assert (st_pending_hard_state s = None) as Hp.
      { apply eq_None_not_Some. rewrite Hc. congruence. }
      pose proof (dispatch_logged s e Ha Hcomp) as Hl. rewrite Hd in Hl. destruct Hl as [_ _ L3 _ L5 _].
      pose proof (dispatch_dated s e Ha Hcomp He Hv Hlog) as Hdated. rewrite Hd in Hdated.
      split; [by apply L5|]. split; [done|congruence]. }
  pose proof (gate_held _ _ Hp0 Hg) as (_ & -> & _ & _ & Er & Et).
  split; [|done]. unfold voter_ok in *. by rewrite Er, Et.
Qed.

(** ** Roles after timeouts *)

Lemma send_appends_state peers r :
  owp (foldM (send_append None) r peers) (λ r', res_state r' = res_state r ∧
    ∃ es, res_effects r' = res_effects r ++ es ∧ ∀ q, PersistHardState q ∉ es) (λ _, True).
Proof.
  apply (owp_foldM _ (λ _ r', res_state r' = res_state r ∧
    ∃ es, res_effects r' = res_effects r ++ es ∧ ∀ q, PersistHardState q ∉ es)).
  - split; [done|]. exists []. rewrite app_nil_r. split; [done|]. set_solver.
  - intros pre peer suf r' _ (Hs & es & Hes & Hno). unfold send_append. ostep.
    destruct (append_request _ _ _) as [q|]; simpl; [|done]. split; [done|].
    exists (es ++ [SendAppendEntries peer q]). rewrite Hes, app_assoc. split; [done|]. set_solver.
Qed.

(** A heartbeat of a leader changes nothing. *)
Lemma heartbeat_state s r :
  step s HeartbeatTimeout = Ret r → st_role s = role_leader → res_state r = s.
Proof.
  intros Hstep Hrole. destruct (step_inv _ _ _ Hstep) as (_ & _ & Hc & r0 & Hd & Hg).
  simpl in Hd. rewrite Hrole, bool_decide_true in Hd by done. unfold handle_timeout in Hd.
  simpl in Hd. rewrite Hrole in Hd.
  pose proof (send_appends_state (st_peers s) (push_rule (mkResult s [] []) leader_heartbeat)) as H.
  rewrite Hd in H. destruct H as (Hs & es & Hes & Hno). simpl in *.
  unfold gate_on_hard_state in Hg. pose proof (split_persistence_spec (res_effects r0)) as Hsp.
  destruct (split_persistence (res_effects r0)) as [[[before q] after]|].
  - destruct Hsp as (pre & _ & He & _). rewrite Hes in He. exfalso. apply (Hno q). rewrite He. set_solver.
  - injection Hg as <-. done.
Qed.

(** In a cluster of more than one server an election timeout makes a candidate. *)
Lemma election_timeout_candidate s r :
  step s ElectionTimeout = Ret r → st_role s = role_follower ∨ st_role s = role_candidate →
  majority s ≠ 1 → st_role (res_state r) = role_candidate.
Proof.
  intros Hstep Hrole Hmaj. destruct (step_inv _ _ _ Hstep) as (_ & _ & Hc & r0 & Hd & Hg).
  assert (st_pending_hard_state s = None) as Hp by (apply eq_None_not_Some; by rewrite Hc).
  assert (∀ rule, owp (start_election (push_rule (mkResult s [] []) rule))
    (λ r', st_role (res_state r') = role_candidate ∧
       st_pending_hard_state (res_state r') = None) (λ _, True)) as Hstart.
  { intros rule. unfold start_election, persist_hard_state. ostep. ostep; [done|]. cbv zeta. ostep.
    ostep. ostep; [done|]. simpl. set (r3 := foldl _ _ _).
    assert (res_state r3 = with_persistence (with_role (with_hard_state s (current_term s + 1)
      (Some (st_node s))) role_candidate None {[st_node s]} None)
      (st_next_hard_state_request_id s + 1) (st_pending_hard_state s)) as Hst.
    { unfold r3. by apply (foldl_inv (λ x, res_state x = _)). }
    rewrite Hst. change (majority (with_persistence _ _ _)) with (majority s).
    destruct (Z.eqb_spec (majority s) 1); [done|]. simpl. by rewrite Hst. }
  simpl in Hd. rewrite bool_decide_false in Hd by (destruct Hrole; congruence).
  unfold handle_timeout in Hd. simpl in Hd.
  assert (st_role (res_state r0) = role_candidate ∧ st_pending_hard_state (res_state r0) = None) as [Hr Hp0].
  { destruct Hrole as [Hr|Hr]; rewrite Hr in Hd.
    - pose proof (Hstart follower_election_timeout) as H. by rewrite Hd in H.
    - pose proof (Hstart candidate_restart_election) as H. by rewrite Hd in H. }
  pose proof (gate_held _ _ Hp0 Hg) as (_ & _ & _ & _ & -> & _). done.
Qed.

(** ** Inputs that request no log write *)

Lemma step_quiet s e r :
  step s e = Ret r → e ≠ ApplyCommitted → is_completion e = false → may_append e = false →
  (PersistLog ∉ res_effects r) ∧ PersistLog ∉ held (res_state r).
Proof.
  intros Hstep Ha Hcomp Hm. destruct (step_inv _ _ _ Hstep) as (_ & _ & Hc & r0 & Hd & Hg).
  assert (st_pending_hard_state s = None) as Hp by (apply eq_None_not_Some; rewrite Hc; congruence).
  pose proof (dispatch_untouched s e Ha Hcomp Hm) as Hu. rewrite Hd in Hu.
  destruct Hu as [_ _ _ U4 _ _ U7]. apply gate_held in Hg as (E & _); [|congruence].
  rewrite E in U7. set_solver.
Qed.

(** Observing a higher term steps down and waits for that term to be durable
    without holding anything back. *)
Lemma observe_term_waits s t r :
  step s (ObserveTerm t) = Ret r → current_term s < t →
  is_Some (st_pending_hard_state (res_state r)) ∧ held (res_state r) = [] ∧
  ∀ e, e ∈ res_effects r → ¬ relies_on_log e.
Proof.
  intros Hstep Ht. destruct (step_inv _ _ _ Hstep) as (_ & _ & Hc & r0 & Hd & Hg).
  simpl in Hd. unfold observe_higher_term in Hd. simpl in Hd.
  destruct (Z.ltb_spec (current_term s) t); [|lia].
  unfold persist_hard_state in Hd. cbv zeta in Hd.
  apply bind_Ret in Hd as (u & _ & [= <-]). unfold gate_on_hard_state in Hg. simpl in Hg.
  destruct (st_pending_hard_state s) as [p|]; [done|]. simpl in Hg. injection Hg as <-.
  simpl. split; [by eexists|]. split; [done|]. intros e ->%list_elem_of_singleton. by intros [].
Qed.

(** Only voting peers are answered. *)
Lemma append_response_from_peer s from q r :
  step s (ReceiveAppendEntriesResponse from q) = Ret r → from ∈ st_peers s.
Proof.
  intros (_ & _ & _ & r0 & Hd & _)%step_inv. simpl in Hd.
  apply bind_Ret in Hd as (u & Hp%throw_when_Ret%negb_false_iff%bool_decide_eq_true & _). done.
Qed.

(** ** Who waits for the hard state

    A server waits for its hard state to be written only while it neither stands
    nor leads, or as a candidate that has just started its election; and who
    stands or leads has voted for itself. *)

Definition passive (s : State) : Prop := st_role s ≠ role_candidate ∧ st_role s ≠ role_leader.

Definition votes_own (s : State) : Prop := passive s ∨ voted_for s = Some (st_node s).

Definition persists (es : list Effect) : Prop := ∃ q, PersistHardState q ∈ es.

Record steady (s : State) : Prop := {
  sy_vote : votes_own s;
  sy_waits : is_Some (st_pending_hard_state s) → passive s ∨
    (st_role s = role_candidate ∧ ResetElectionTimer ∈ held s ∧ ¬ persists (held s)) }.

Lemma follower_passive s : st_role s = role_follower → passive s.
Proof. intros Hr. split; congruence. Qed.

(** The result of a handler that started on server [n], which stood for election
    only if [k]. *)
Record calm (n : Z) (k : Prop) (r : StepResult) : Prop := {
  cm_node : st_node (res_state r) = n;
  cm_stands : st_role (res_state r) = role_candidate → k;
  cm_persists : persists (res_effects r) → passive (res_state r);
  cm_vote : votes_own (res_state r) }.

Lemma calm_push_rule n k r rule : calm n k r → calm n k (push_rule r rule).
Proof. by intros []. Qed.

Lemma calm_push_effect n k r e :
  calm n k r → (∀ q, e ≠ PersistHardState q) → calm n k (push_effect r e).
Proof.
  intros [C1 C4 C2 C3] He. split; simpl; try done. intros [q [?|?%list_elem_of_singleton]%elem_of_app];
    [apply C2; by exists q|by destruct (He q)].
Qed.

(** The same role, or a passive one. *)
Lemma calm_set_state n k r s' :
  calm n k r → st_node s' = st_node (res_state r) →
  passive s' ∨ st_role s' = st_role (res_state r) ∧ voted_for s' = voted_for (res_state r) →
  calm n k (set_state r s').
Proof.
  unfold passive. intros [C1 C4 C2 C3] En [Hp|[Er Ev]]; split; simpl; unfold votes_own, passive in *;
    rewrite ?En, ?Er, ?Ev; auto. by destruct Hp.
Qed.

Ltac calm :=
  repeat first
    [ done
    | apply calm_push_rule
    | apply calm_push_effect; [|done]
    | apply calm_set_state; [|done|first [by left; apply follower_passive|by right]] ].

Lemma persist_hard_state_calm n k r :
  calm n k r → passive (res_state r) →
  owp (persist_hard_state r)
    (λ r', calm n k r' ∧ st_role (res_state r') = st_role (res_state r)) (λ _, True).
Proof.
  intros [C1 C4 C2 C3] Hr. unfold persist_hard_state. ostep. ostep; [done|]. by split; [split|].
Qed.

Lemma send_appends_calm n k peers r :
  calm n k r → owp (foldM (send_append None) r peers) (calm n k) (λ _, True).
Proof.
  intros [C1 C4 C2 C3]. eapply owp_mono; [apply send_appends_state| |done].
  intros r' _ (Hs & es & Hes & Hno). split; rewrite Hs; try done.
  rewrite Hes. intros [q [?|?]%elem_of_app]; [apply C2; by exists q|by destruct (Hno q)].
Qed.

Lemma observe_higher_term_calm n k r t :
  calm n k r → owp (observe_higher_term r t)
    (λ r', calm n k r' ∧ (r' = r ∨ st_role (res_state r') = role_follower)) (λ _, True).
Proof.
  intros Hr. unfold observe_higher_term. destruct (_ <? _); [|split; [done|by left]].
  eapply owp_mono; [apply (persist_hard_state_calm n k)| |done]; [calm|by apply follower_passive|].
  intros r' _ [? Er]. split; [done|by right].
Qed.

Lemma handle_request_vote_calm n k r from q :
  calm n k r → n ∉ st_peers (res_state r) → owp (handle_request_vote r from q) (calm n k) (λ _, True).
Proof.
  intros Hr Hself. unfold handle_request_vote, ensure_peer.
  apply owp_bind, owp_throw_when; [done|intros Hpeer%negb_false_iff%bool_decide_eq_true].
  apply owp_bind, owp_throw_when; [done|intros <-%negb_false_iff%Z.eqb_eq]. ostep.
  eapply owp_mono; [by apply (observe_higher_term_calm n k)| |done]. intros r1 _ [H1 _].
  destruct (_ <? _); [calm|]. destruct (_ && _) eqn:Hb; [|calm].
  apply andb_prop in Hb as [Hb _].
  assert (passive (res_state r1)) as Hpas.
  { destruct H1 as [En _ _ [?|Hv]]; [done|]. rewrite Hv in Hb. apply Z.eqb_eq in Hb. congruence. }
  set (r2 := push_rule _ request_vote_grant).
  assert (calm n k r2) as H2 by (destruct H1; by split; [| | |left]).
  ostep. apply (owp_mono _ (calm n k) _ (λ _, True)); [| |done].
  - destruct (negb _); [|done].
    eapply owp_mono; [by apply persist_hard_state_calm| |done]. by intros ? _ [? _].
  - intros r3 _ H3. simpl. calm.
Qed.

Lemma initialize_leader_calm n k r :
  calm n k r → st_role (res_state r) = role_candidate → owp (initialize_leader r) (calm n k) (λ _, True).
Proof.
  intros [C1 C4 C2 C3] Hr. unfold initialize_leader. ostep. ostep; [done|]. apply send_appends_calm.
  split; simpl; [done|done| |].
  - intros Hp. by destruct (C2 Hp).
  - right. destruct C3 as [[? _]|?]; done.
Qed.

Lemma handle_request_vote_response_calm n k r from q :
  calm n k r → owp (handle_request_vote_response r from q) (calm n k) (λ _, True).
Proof.
  intros Hr. unfold handle_request_vote_response, ensure_peer.
  apply owp_bind, owp_throw_when; [done|intros _]. ostep.
  eapply owp_mono; [by apply (observe_higher_term_calm n k)| |done]. intros r1 _ [H1 _].
  destruct (_ || _) eqn:Hb; [done|]. cbv zeta.
  apply orb_false_iff in Hb as [[Hb _]%orb_false_iff _].
  apply negb_false_iff, bool_decide_eq_true in Hb.
  destruct (_ <=? _); [|calm]. apply initialize_leader_calm; [calm|done].
Qed.

Lemma finish_append_calm n k r from q changed : calm n k r → calm n k (finish_append r from q changed).
Proof. intros Hr. unfold finish_append, append_reply. destruct changed; repeat case_match; calm. Qed.

Lemma handle_append_entries_calm n k r from q :
  calm n k r → owp (handle_append_entries r from q) (calm n k) (λ _, True).
Proof.
  intros Hr. unfold handle_append_entries, ensure_peer.
  do 2 (apply owp_bind, owp_throw_when; [done|intros _]). cbv zeta. ostep.
  eapply owp_mono; [by apply (observe_higher_term_calm n k)| |done]. intros r1 _ [H1 _].
  destruct (_ <? _); [unfold append_reply; calm|].
  set (r2 := if bool_decide _ then _ else _).
  assert (calm n k r2) as H2 by (unfold r2; case_bool_decide; calm).
  set (r3 := push_effect _ ResetElectionTimer).
  assert (calm n k r3) as H3 by (unfold r3; calm).
  assert (st_role (res_state r3) = role_follower) as E3 by done.
  ostep. destruct (if _ && _ then _ else _) as [b|]; simpl; [|done].
  destruct b; simpl; [|unfold append_reply; calm].
  ostep. destruct (foldM check_contiguous _ _); simpl; [|done].
  ostep. destruct (scan_entries _ _) as [[[|e rest]|index rest|]|]; simpl; try done;
    try (apply finish_append_calm; calm). unfold append_reply. calm.
Qed.

Lemma advance_leader_commit_calm n k r :
  calm n k r → owp (advance_leader_commit r) (calm n k) (λ _, True).
Proof.
  intros Hr. unfold advance_leader_commit. destruct (st_leader (res_state r)) as [l|].
  - ostep. destruct (commit_candidate _ _ _ _) as [[c|]|]; simpl; [calm|done|done].
  - by destruct (_ <=? _).
Qed.

Lemma handle_append_entries_response_calm n k r from q :
  calm n k r → owp (handle_append_entries_response r from q) (calm n k) (λ _, True).
Proof.
  intros Hr. unfold handle_append_entries_response, ensure_peer.
  apply owp_bind, owp_throw_when; [done|intros _]. ostep.
  eapply owp_mono; [by apply (observe_higher_term_calm n k)| |done]. intros r1 _ [H1 _].
  destruct (_ || _); [done|]. destruct (st_leader _) as [l|]; [|done].
  destruct (ld_progress l !! from) as [p|]; [|done]. destruct (ar_succeeded q).
  - ostep. ostep; [done|]. apply advance_leader_commit_calm. calm.
  - unfold send_append. ostep. destruct (append_request _ _ _); simpl; [calm|done].
Qed.

Lemma handle_client_calm n k r c : calm n k r → owp (handle_client r c) (calm n k) (λ _, True).
Proof.
  intros Hr. unfold handle_client. destruct (negb _); [done|]. ostep. ostep; [done|].
  destruct (st_leader (res_state r)) as [l|]; [|done]. cbv zeta. ostep.
  eapply owp_mono; [apply (send_appends_calm n k); calm| |done]. intros r2 _ H2.
  by apply advance_leader_commit_calm.
Qed.

Lemma dispatch_calm s (k : Prop) e :
  (st_role s = role_candidate → k) → votes_own s → st_node s ∉ st_peers s →
  e ≠ ApplyCommitted → is_completion e = false →
  (e = ElectionTimeout → st_role s = role_leader ∨ st_role s = role_learner) →
  owp (dispatch (mkResult s [] []) e) (calm (st_node s) k) (λ _, True).
Proof.
  intros Hk Hv Hself Ha Hc Ht.
  assert (calm (st_node s) k (mkResult s [] [])) as H0
    by (split; [done|done|intros [q Hq]; simpl in Hq; set_solver|done]).
  destruct e; simpl in *; try done.
  - unfold handle_timeout. simpl. by destruct (Ht eq_refl) as [-> | ->].
  - case_bool_decide as Hl; [|done]. unfold handle_timeout. simpl. rewrite Hl.
    apply send_appends_calm. calm.
  - eapply owp_mono; [by apply (observe_higher_term_calm (st_node s) k)| |done]. by intros ? _ [? _].
  - by apply handle_request_vote_calm.
  - by apply handle_request_vote_response_calm.
  - by apply handle_append_entries_calm.
  - by apply handle_append_entries_response_calm.
  - by apply handle_client_calm.
Qed.

(** A candidate that has started its election waits for nothing but its own vote. *)
Lemma start_election_waits r :
  (¬ persists (res_effects r)) → majority (res_state r) ≠ 1 →
  owp (start_election r)
    (λ r', ∃ q es, res_effects r' = res_effects r ++ PersistHardState q :: ResetElectionTimer :: es ∧
       (¬ persists es) ∧ st_role (res_state r') = role_candidate ∧
       st_node (res_state r') = st_node (res_state r) ∧
       voted_for (res_state r') = Some (st_node (res_state r))) (λ _, True).
Proof.
  intros Hno Hmaj. unfold start_election. ostep. ostep; [done|]. cbv zeta. ostep.
  unfold persist_hard_state. cbv zeta. ostep. ostep; [done|]. simpl. set (q := mkPersistHardState _ _).
  set (r3 := foldl _ _ _).
  assert (res_state r3 = with_persistence (with_role (with_hard_state (res_state r)
      (current_term (res_state r) + 1) (Some (st_node (res_state r)))) role_candidate None
      {[st_node (res_state r)]} None) (st_next_hard_state_request_id (res_state r) + 1)
      (st_pending_hard_state (res_state r)) ∧
    ∃ es, res_effects r3 = res_effects r ++ PersistHardState q :: ResetElectionTimer :: es ∧
      ¬ persists es) as (Hst & es & Hes & Hp).
  { unfold r3. apply (foldl_inv (λ x, res_state x = _ ∧ ∃ es, res_effects x = _ ∧ ¬ persists es)).
    - split; [done|]. exists []. simpl. rewrite <-app_assoc. split; [done|]. intros [? ?]. set_solver.
    - intros x peer (Hx & es & He & Hp). simpl. split; [done|]. rewrite He, <-app_assoc.
      eexists. split; [done|]. intros [p Hin%elem_of_app]. destruct Hin as [?|?%list_elem_of_singleton];
        [apply Hp; by exists p|done]. }
  rewrite Hst. change (majority (with_persistence _ _ _)) with (majority (res_state r)).
  destruct (Z.eqb_spec (majority (res_state r)) 1); [done|]. simpl. rewrite Hst. by eauto 10.
Qed.

Lemma split_persistence_none es : (¬ persists es) → split_persistence es = None.
Proof.
  intros Hno. pose proof (split_persistence_spec es) as Hsp.
  destruct (split_persistence es) as [[[before q] after]|]; [|done].
  destruct Hsp as (pre & _ & Heq & _). destruct Hno. exists q. rewrite Heq. set_solver.
Qed.

(** What a step waits for afterwards was among the effects of its handler. *)
Lemma gate_waits r r' :
  gate_on_hard_state r = Ret r' → st_pending_hard_state (res_state r) = None →
  is_Some (st_pending_hard_state (res_state r')) → persists (res_effects r).
Proof.
  intros Hg Hp [p Hp']. pose proof (split_persistence_spec (res_effects r)) as Hsp.
  unfold gate_on_hard_state in Hg. destruct (split_persistence (res_effects r)) as [[[before q] after]|].
  - destruct Hsp as (pre & _ & Heq & _). exists q. rewrite Heq. set_solver.
  - injection Hg as <-. congruence.
Qed.

Lemma steady_core s s' :
  st_node s' = st_node s → st_role s' = st_role s → voted_for s' = voted_for s →
  votes_own s → votes_own s'.
Proof. unfold votes_own, passive. by intros -> -> ->. Qed.

Lemma steady_frame s s' :
  st_node s' = st_node s → st_role s' = st_role s → voted_for s' = voted_for s →
  st_pending_hard_state s' = st_pending_hard_state s → steady s → steady s'.
Proof.
  intros En Er Ev Ep [Hv Hw]. split; [by eapply steady_core|].
  unfold passive, held in *. by rewrite Er, Ep.
Qed.

Lemma gate_core r r' :
  gate_on_hard_state r = Ret r' →
  st_node (res_state r') = st_node (res_state r) ∧ st_role (res_state r') = st_role (res_state r) ∧
  voted_for (res_state r') = voted_for (res_state r).
Proof.
  unfold gate_on_hard_state. destruct (split_persistence _) as [[[before q] after]|]; cbv zeta.
  - by intros (? & _ & [= <-])%bind_Ret.
  - by intros [= <-].
Qed.

Lemma election_timeout_steady s r :
  step s ElectionTimeout = Ret r → st_role s = role_follower ∨ st_role s = role_candidate →
  majority s ≠ 1 → steady (res_state r).
Proof.
  intros Hstep Hrole Hmaj. destruct (step_inv _ _ _ Hstep) as (_ & _ & Hc & r0 & Hd & Hg).
  assert (∃ rule, start_election (push_rule (mkResult s [] []) rule) = Ret r0) as [rule Hs].
  { simpl in Hd. rewrite bool_decide_false in Hd by (destruct Hrole; congruence).
    unfold handle_timeout in Hd. simpl in Hd. destruct Hrole as [Hr|Hr]; rewrite Hr in Hd; by eexists. }
  pose proof (start_election_waits (push_rule (mkResult s [] []) rule)) as H. rewrite Hs in H. simpl in H.
  destruct H as (q & es & He & Hno & Hr & Hn & Hv); [intros [? ?]; set_solver|done|].
  destruct (gate_core _ _ Hg) as (En & Er & Ev). split.
  - right. congruence.
  - intros _. right. rewrite Er. split; [done|]. unfold gate_on_hard_state in Hg. rewrite He in Hg.
    simpl in Hg. apply bind_Ret in Hg as (u & _ & [= <-]). simpl. unfold held. simpl.
    split; [set_solver|]. intros [p [?|?]%elem_of_cons]; [done|]. apply Hno. by exists p.
Qed.

(** Every step keeps it, and only a timeout makes a candidate. *)
Lemma step_steady s e r :
  step s e = Ret r → e ≠ ApplyCommitted → st_node s ∉ st_peers s → majority s ≠ 1 →
  steady s → steady (res_state r) ∧
  (st_role (res_state r) = role_candidate →
   st_role s = role_candidate ∨ ResetElectionTimer ∈ held (res_state r)).
Proof.
  intros Hstep Ha Hself Hmaj [Hv Hw].
  destruct (step_inv _ _ _ Hstep) as (_ & _ & Hc & r0 & Hd & Hg).
  destruct (gate_core _ _ Hg) as (En & Er & Ev).
  destruct (is_completion e) eqn:Hcomp.
  - destruct e; try done. simpl in Hd. unfold handle_completion in Hd. simpl in Hd.
    destruct (st_pending_hard_state s) as [p|] eqn:Hp; [|done].
    apply bind_Ret in Hd as (u & _ & [= <-]). simpl in *.
    split; [|intros Hr; left; congruence]. split; [by eapply steady_core|]. intros Hwait.
    pose proof (gate_waits _ _ Hg eq_refl Hwait) as Hper. simpl in Hper.
    destruct Hw as [Hpas|(_ & _ & Hno)]; [done| |].
    + left. unfold passive in *. by rewrite Er.
    + destruct Hno. unfold held. by rewrite Hp.
  - assert (st_pending_hard_state s = None) as Hp by (apply eq_None_not_Some; rewrite Hc; congruence).
    assert ((e = ElectionTimeout ∧ (st_role s = role_follower ∨ st_role s = role_candidate)) ∨
      (e = ElectionTimeout → st_role s = role_leader ∨ st_role s = role_learner)) as [[-> Hr]|Hne].
    { destruct e, (st_role s); naive_solver. }
    { split; [by eapply election_timeout_steady|]. intros _. right. by eapply election_timeout_resets. }
    pose proof (dispatch_calm s (st_role s = role_candidate) e id Hv Hself Ha Hcomp) as H. rewrite Hd in H.
    destruct H as [C1 C4 C2 C3]; [done|].
    pose proof (dispatch_logged s e Ha Hcomp) as Hl. rewrite Hd in Hl. destruct Hl as [_ _ Epd _ _ _].
    split; [|rewrite Er; by left; apply C4].
    split; [by eapply steady_core|]. intros Hwait. left. unfold passive in *. rewrite Er. apply C2.
    eapply gate_waits; [done|congruence|done].
Qed.
