(* ===== verification/Cluster.v ===== *)
(** * A cluster of Figure 2 servers

    Servers running [Figure2.step] over a network that may lose, duplicate,
    delay, reorder and even invent messages, except that a granted vote is only
    received when it was sent; with storage that writes hard states some time
    after they are requested, and with crashes at any point, from which a server
    restarts with the hard state its disk holds.  Between steps a server may
    adjust its log, its indexes and its leader, as the core built on this
    specification does.  The result is election safety: at most one server is
    ever leader in a term. *)

From S2P Require Import Prelude OrdMap Bytes StoreTypes RaftTypes Figure2 Figure2Votes.

(** ** The system *)

Record Server := mkServer {
  sv_core : State;
  sv_disk : RaftHardState }.

(** The network holds every message ever sent, with its destination, as the
    event it becomes there. *)
Record Cluster := mkCluster {
  cl_servers : gmap Z Server;
  cl_network : list (Z * Event) }.

Definition message_of (node : Z) (effect : Effect) : option (Z * Event) :=
  match effect with
  | SendRequestVote to q => Some (to, ReceiveRequestVote node q)
  | SendRequestVoteResponse to q => Some (to, ReceiveRequestVoteResponse node q)
  | SendAppendEntries to q => Some (to, ReceiveAppendEntries node q)
  | SendAppendEntriesResponse to q => Some (to, ReceiveAppendEntriesResponse node q)
  | _ => None
  end.

(** Inputs that may arrive at any time: all but completions of the storage and
    granted votes. *)
Definition free_event (e : Event) : Prop :=
  match e with
  | HardStatePersisted _ => False
  | ReceiveRequestVoteResponse _ response => vr_granted response = false
  | _ => True
  end.

(** A change of the state outside of [step] that elections do not see: it keeps
    term, vote, role and received votes, or steps back to follower. *)
Definition adjusted (s s' : State) : Prop :=
  st_node s' = st_node s ∧ st_peers s' = st_peers s ∧ hard_state s' = hard_state s ∧
  st_pending_hard_state s' = st_pending_hard_state s ∧
  ((st_role s' = st_role s ∧ st_votes_received s' = st_votes_received s) ∨
   st_role s' = role_follower).

(** A restarted server: hard state from disk, everything volatile reset; the
    log and snapshot are whatever the log storage gives back. *)
Definition restarted (old : State) (disk : RaftHardState) (s : State) : Prop :=
  st_node s = st_node old ∧ st_peers s = st_peers old ∧ st_role s = role_follower ∧
  hard_state s = disk ∧ st_votes_received s = ∅ ∧ st_leader s = None ∧
  st_pending_hard_state s = None.

Definition update (c : Cluster) (n : Z) (sv : Server) (sent : list (Z * Event)) : Cluster :=
  mkCluster (<[n := sv]> (cl_servers c)) (cl_network c ++ sent).

Definition sends (n : Z) (r : StepResult) : list (Z * Event) :=
  omap (message_of n) (res_effects r).

Inductive cluster_step (c : Cluster) : Cluster → Prop :=
| cluster_local n sv e r :
    cl_servers c !! n = Some sv → free_event e → step (sv_core sv) e = Ret r →
    cluster_step c (update c n (mkServer (res_state r) (sv_disk sv)) (sends n r))
| cluster_deliver n sv e r :
    cl_servers c !! n = Some sv → (n, e) ∈ cl_network c → step (sv_core sv) e = Ret r →
    cluster_step c (update c n (mkServer (res_state r) (sv_disk sv)) (sends n r))
| cluster_write n sv p :
    cl_servers c !! n = Some sv → st_pending_hard_state (sv_core sv) = Some p →
    cluster_step c (update c n (mkServer (sv_core sv) (phs_state (pd_request p))) [])
| cluster_complete n sv p r :
    cl_servers c !! n = Some sv → st_pending_hard_state (sv_core sv) = Some p →
    sv_disk sv = phs_state (pd_request p) →
    step (sv_core sv) (HardStatePersisted (mkHardStatePersisted
      (phs_request_id (pd_request p)) (phs_state (pd_request p)))) = Ret r →
    cluster_step c (update c n (mkServer (res_state r) (sv_disk sv)) (sends n r))
| cluster_adjust n sv s :
    cl_servers c !! n = Some sv → adjusted (sv_core sv) s →
    cluster_step c (update c n (mkServer s (sv_disk sv)) [])
| cluster_restart n sv s :
    cl_servers c !! n = Some sv → restarted (sv_core sv) (sv_disk sv) s →
    cluster_step c (update c n (mkServer s (sv_disk sv)) []).

Definition cluster_steps : Cluster → Cluster → Prop := rtc cluster_step.

(** A server as it is configured before its first input. *)
Definition initial_server (members : list Z) (n : Z) (sv : Server) : Prop :=
  st_node (sv_core sv) = n ∧ n :: st_peers (sv_core sv) ≡ₚ members ∧
  st_role (sv_core sv) = role_follower ∧ hard_state (sv_core sv) = sv_disk sv ∧
  st_pending_hard_state (sv_core sv) = None.

Record initial (members : list Z) (c : Cluster) : Prop := {
  in_nodup : NoDup members;
  in_servers : map_Forall (initial_server members) (cl_servers c);
  in_network : cl_network c = [] }.

Definition leads (c : Cluster) (n t : Z) : Prop :=
  ∃ sv, cl_servers c !! n = Some sv ∧ st_role (sv_core sv) = role_leader ∧
        current_term (sv_core sv) = t.

(** ** Executing a schedule *)

Inductive action :=
| do_local (n : Z) (e : Event)
| do_deliver (i : nat)
| do_write (n : Z)
| do_complete (n : Z)
| do_crash (n : Z).

Definition feed (c : Cluster) (n : Z) (sv : Server) (e : Event) : option Cluster :=
  match step (sv_core sv) e with
  | Ret r => Some (update c n (mkServer (res_state r) (sv_disk sv)) (sends n r))
  | Throw _ => None
  end.

(** The state a server has after a restart when its log storage is intact. *)
Definition restart_state (s : State) (disk : RaftHardState) : State :=
  mkState (st_node s) (st_peers s) role_follower
    (mkPersistent (hs_current_term disk) (hs_voted_for disk) (ps_snapshot (st_persistent s))
      (log_of s))
    (snapshot_base s) (snapshot_base s) None ∅ None 1 None.

Definition exec (c : Cluster) (a : action) : option Cluster :=
  match a with
  | do_local n e =>
      match cl_servers c !! n, e with
      | Some sv, (ElectionTimeout | HeartbeatTimeout | ApplyCommitted | ObserveTerm _
                  | ReceiveClientCommand _) => feed c n sv e
      | _, _ => None
      end
  | do_deliver i =>
      match cl_network c !! i with
      | Some (n, e) => match cl_servers c !! n with Some sv => feed c n sv e | None => None end
      | None => None
      end
  | do_write n =>
      match cl_servers c !! n with
      | Some sv => match st_pending_hard_state (sv_core sv) with
        | Some p => Some (update c n (mkServer (sv_core sv) (phs_state (pd_request p))) [])
        | None => None
        end
      | None => None
      end
  | do_complete n =>
      match cl_servers c !! n with
      | Some sv => match st_pending_hard_state (sv_core sv) with
        | Some p =>
            if decide (sv_disk sv = phs_state (pd_request p)) then
              feed c n sv (HardStatePersisted (mkHardStatePersisted
                (phs_request_id (pd_request p)) (phs_state (pd_request p))))
            else None
        | None => None
        end
      | None => None
      end
  | do_crash n =>
      match cl_servers c !! n with
      | Some sv => Some (update c n (mkServer (restart_state (sv_core sv) (sv_disk sv)) (sv_disk sv)) [])
      | None => None
      end
  end.

Fixpoint exec_all (c : Cluster) (l : list action) : option Cluster :=
  match l with
  | [] => Some c
  | a :: l' => match exec c a with Some c' => exec_all c' l' | None => None end
  end.

Lemma feed_Some c n sv e c' :
  feed c n sv e = Some c' →
  ∃ r, step (sv_core sv) e = Ret r ∧
    c' = update c n (mkServer (res_state r) (sv_disk sv)) (sends n r).
Proof. unfold feed. destruct (step _ _) as [r|]; [|done]. intros [= <-]. eauto. Qed.

Lemma exec_sound c a c' : exec c a = Some c' → cluster_step c c'.
Proof.
  destruct a as [n e|i|n|n|n]; simpl.
  - destruct (cl_servers c !! n) as [sv|] eqn:Hn; [|by destruct e].
    destruct e; try done; intros (r & Hs & ->)%feed_Some;
      (eapply cluster_local; [exact Hn| |exact Hs]; exact I).
  - destruct (cl_network c !! i) as [[n e]|] eqn:Hi; [|done].
    destruct (cl_servers c !! n) as [sv|] eqn:Hn; [|done].
    intros (r & Hs & ->)%feed_Some. eapply cluster_deliver; [done| |done].
    by eapply list_elem_of_lookup_2.
  - destruct (cl_servers c !! n) as [sv|] eqn:Hn; [|done].
    destruct (st_pending_hard_state (sv_core sv)) as [p|] eqn:Hp; [|done].
    intros [= <-]. by apply cluster_write.
  - destruct (cl_servers c !! n) as [sv|] eqn:Hn; [|done].
    destruct (st_pending_hard_state (sv_core sv)) as [p|] eqn:Hp; [|done].
    case_decide; [|done]. intros (r & Hs & ->)%feed_Some. by eapply cluster_complete.
  - destruct (cl_servers c !! n) as [sv|] eqn:Hn; [|done]. intros [= <-].
    apply cluster_restart; [done|]. split_and!; try done.
    unfold hard_state, current_term, voted_for. simpl. by destruct (sv_disk sv).
Qed.

Lemma exec_all_sound c l c' : exec_all c l = Some c' → cluster_steps c c'.
Proof.
  revert c. induction l as [|a l IH]; intros c; simpl; [intros [= ->]; apply rtc_refl|].
  destruct (exec c a) as [c1|] eqn:Ha; [|done]. intros Hl%IH.
  eapply rtc_l; [by eapply exec_sound|done].
Qed.

(** ** Released messages *)

Lemma follows_antisym h1 h2 : follows h1 h2 → follows h2 h1 → h1 = h2.
Proof.
  destruct h1 as [t1 v1], h2 as [t2 v2]. unfold follows. simpl.
  intros [?|[-> Hv]] [?|[? Hv']]; try lia. f_equal.
  destruct Hv as [->|?]; [|done]. by destruct Hv' as [->|?].
Qed.

(** A granted vote among released effects is the durable one. *)
Lemma released_grant h es h' to resp :
  hs_run h es = Some h' → follows h' h → SendRequestVoteResponse to resp ∈ es →
  vr_granted resp = true → h = mkHardState (vr_term resp) (Some to).
Proof.
  intros Hrun Hback Hin Hg. apply list_elem_of_split in Hin as (es1 & es2 & ->).
  rewrite hs_run_app in Hrun. destruct (hs_run h es1) as [h1|] eqn:H1; [|done].
  simpl in Hrun. rewrite Hg in Hrun. case_decide as Hh; [|done].
  apply hs_run_follows in H1, Hrun. rewrite <-Hh. apply follows_antisym; [done|].
  by trans h'.
Qed.

Lemma gated_grant h s es to resp :
  gated h s es → SendRequestVoteResponse to resp ∈ es → vr_granted resp = true →
  h = mkHardState (vr_term resp) (Some to).
Proof.
  unfold gated. destruct (st_pending_hard_state s) as [p|].
  - intros (pre & -> & Hrun & _ & _) [Hin|Hin%list_elem_of_singleton]%elem_of_app Hg; [|done].
    by eapply released_grant.
  - intros [Hrun _] Hin Hg. by eapply released_grant.
Qed.

(** ** Durable votes *)

(** [V] records every vote that ever reached a disk: voter and term to
    candidate. *)
Abbreviation votes := (gmap (Z * Z) Z).

(** A majority of [members] voted for [n] in term [t]. *)
Definition quorum (members : list Z) (V : votes) (n t : Z) : Prop :=
  ∃ Q : gset Z, Q ⊆ list_to_set members ∧ Z.of_nat (length members) < 2 * Z.of_nat (size Q) ∧
    ∀ v, v ∈ Q → V !! (v, t) = Some n.

Record server_inv (members : list Z) (V : votes) (n : Z) (sv : Server) : Prop := {
  si_node : st_node (sv_core sv) = n;
  si_members : n :: st_peers (sv_core sv) ≡ₚ members;
  si_disk : ∀ c, hs_voted_for (sv_disk sv) = Some c →
    V !! (n, hs_current_term (sv_disk sv)) = Some c;
  si_latest : ∀ t c, V !! (n, t) = Some c →
    t < hs_current_term (sv_disk sv) ∨
    (t = hs_current_term (sv_disk sv) ∧ hs_voted_for (sv_disk sv) = Some c);
  si_core : match st_pending_hard_state (sv_core sv) with
    | None => hard_state (sv_core sv) = sv_disk sv
    | Some p => follows (sv_disk sv) (phs_state (pd_request p)) ∧
        hs_run (phs_state (pd_request p)) (pd_deferred_effects p)
        = Some (hard_state (sv_core sv))
    end;
  si_candidate : st_role (sv_core sv) = role_candidate →
    voted_for (sv_core sv) = Some n ∧
    ∀ v, v ∈ st_votes_received (sv_core sv) → v ≠ n →
      V !! (v, current_term (sv_core sv)) = Some n;
  si_leader : st_role (sv_core sv) = role_leader →
    length members = 1%nat ∨ quorum members V n (current_term (sv_core sv)) }.

Record cluster_inv (members : list Z) (V : votes) (c : Cluster) : Prop := {
  ci_nodup : NoDup members;
  ci_servers : map_Forall (server_inv members V) (cl_servers c);
  ci_voters : ∀ v t n, V !! (v, t) = Some n → v ∈ members;
  ci_messages : ∀ to e, (to, e) ∈ cl_network c → is_completion e = false;
  ci_network : ∀ to from resp, (to, ReceiveRequestVoteResponse from resp) ∈ cl_network c →
    vr_granted resp = true → V !! (from, vr_term resp) = Some to }.

Lemma quorum_mono (members : list Z) (V V' : votes) (n t : Z) :
  V ⊆ V' → quorum members V n t → quorum members V' n t.
Proof.
  intros Hsub (Q & HQ & Hsz & Hv). exists Q. split_and!; try done.
  intros v Hin. eapply lookup_weaken; [by apply Hv|done].
Qed.

(** Two majorities of one membership share a voter. *)
Lemma quorum_unique (members : list Z) (V : votes) (n1 n2 t : Z) :
  NoDup members → quorum members V n1 t → quorum members V n2 t → n1 = n2.
Proof.
  intros Hnd (Q1 & HQ1 & Hs1 & Hv1) (Q2 & HQ2 & Hs2 & Hv2).
  destruct (decide (Q1 ∩ Q2 = ∅)) as [Hdisj|Hne].
  - assert (size (Q1 ∪ Q2) ≤ size (list_to_set members : gset Z))%nat as Hle.
    { apply subseteq_size. set_solver. }
    rewrite size_union in Hle by set_solver.
    rewrite size_list_to_set in Hle by done. lia.
  - apply set_choose_L in Hne as [v [Hin1 Hin2]%elem_of_intersection].
    specialize (Hv1 v Hin1). specialize (Hv2 v Hin2). congruence.
Qed.

Lemma majority_quorum (members peers : list Z) (s : State) (n : Z) :
  n :: peers ≡ₚ members → st_peers s = peers →
  majority s = Z.of_nat (length members) / 2 + 1.
Proof.
  intros Hp Hpe. unfold majority. rewrite Hpe.
  apply Permutation_length in Hp. simpl in Hp. do 2 f_equal. lia.
Qed.

(** ** The invariant is kept *)

Lemma server_inv_mono (members : list Z) (V V' : votes) n sv :
  V ⊆ V' → (∀ t c, V' !! (n, t) = Some c → V !! (n, t) = Some c) →
  server_inv members V n sv → server_inv members V' n sv.
Proof.
  intros Hsub Hown []. split; try done.
  - intros c Hc. eapply lookup_weaken; [by apply si_disk0|done].
  - intros t c Hc. by apply si_latest0, Hown.
  - intros Hr. destruct (si_candidate0 Hr) as [? Hv]. split; [done|].
    intros v Hin Hne. eapply lookup_weaken; [by apply Hv|done].
  - intros Hr. destruct (si_leader0 Hr) as [?|?]; [by left|right].
    by eapply quorum_mono.
Qed.

(** Candidacy and leadership after an input, [grants] being durable votes. *)
Lemma vote_core_inv (members : list Z) (V : votes) n sv grants s' :
  server_inv members V n sv → NoDup members →
  (∀ v t c, V !! (v, t) = Some c → v ∈ members) →
  st_pending_hard_state (sv_core sv) = None →
  (∀ v, v ∈ grants → V !! (v, current_term (sv_core sv)) = Some n) →
  vote_core (sv_core sv) grants s' →
  st_node s' = n ∧ n :: st_peers s' ≡ₚ members ∧
  (st_role s' = role_candidate → voted_for s' = Some n ∧
    ∀ v, v ∈ st_votes_received s' → v ≠ n → V !! (v, current_term s') = Some n) ∧
  (st_role s' = role_leader →
    length members = 1%nat ∨ quorum members V n (current_term s')).
Proof.
  intros [] Hnd Hvoters Hp Hg (s1 & [] & (En & Ep & Er & Et & Ev & Evs)).
  rewrite Hp in si_core0. split; [congruence|]. split; [by rewrite Ep, vs_peers|].
  assert (∀ v, st_role (sv_core sv) = role_candidate →
    v ∈ grants ∪ st_votes_received (sv_core sv) →
    V !! (v, current_term (sv_core sv)) = Some n) as Hvote.
  { intros v Hr [Hin|Hin]%elem_of_union; [by apply Hg|].
    destruct (si_candidate0 Hr) as [Hself Hothers].
    destruct (decide (v = n)) as [->|Hne]; [|by apply Hothers].
    assert (current_term (sv_core sv) = hs_current_term (sv_disk sv)) as ->
      by by rewrite <-si_core0.
    apply si_disk0. rewrite <-si_core0. exact Hself. }
  rewrite Er, Et, Ev, Evs. split.
  - intros Hr. destruct (vs_candidate Hr) as [[-> ->]|(Hrc & -> & -> & Hsub)].
    + rewrite si_node0. split; [done|]. set_solver.
    + split; [by apply si_candidate0|]. intros v Hin _. apply Hvote; [done|]. by apply Hsub.
  - intros Hr. destruct (vs_leader Hr) as [[Hl ->]|[Hm|(Hrc & -> & Hm)]]; [by auto|left|right].
    + rewrite (majority_quorum _ _ _ _ si_members0) in Hm by done.
      assert (length members ≠ 0)%nat.
      { rewrite <-si_members0. done. }
      assert (Z.of_nat (length members) / 2 = 0) by lia.
      pose proof (Z.div_small_iff (Z.of_nat (length members)) 2). lia.
    + rewrite (majority_quorum _ _ _ _ si_members0) in Hm by done.
      exists (grants ∪ st_votes_received (sv_core sv)). split_and!; [| |by eauto].
      * intros v Hin. apply elem_of_list_to_set. eauto.
      * pose proof (Z.mul_div_le (Z.of_nat (length members)) 2).
        pose proof (Z.mod_pos_bound (Z.of_nat (length members)) 2).
        pose proof (Z.div_mod (Z.of_nat (length members)) 2). lia.
Qed.

Lemma gated_core h s es :
  gated h s es →
  match st_pending_hard_state s with
  | None => hard_state s = h
  | Some p => follows h (phs_state (pd_request p)) ∧
      hs_run (phs_state (pd_request p)) (pd_deferred_effects p) = Some (hard_state s)
  end.
Proof. unfold gated. destruct (st_pending_hard_state s); naive_solver. Qed.

(** A server whose released effects are covered by its disk keeps the network
    invariant. *)
Lemma sends_granted (members : list Z) (V : votes) n sv s r :
  server_inv members V n sv → gated (sv_disk sv) s (res_effects r) →
  ∀ to from resp, (to, ReceiveRequestVoteResponse from resp) ∈ sends n r →
    vr_granted resp = true → V !! (from, vr_term resp) = Some to.
Proof.
  intros [] Hgated to from resp (e & He & Hm)%list_elem_of_omap Hg.
  destruct e; simplify_eq/=. pose proof (gated_grant _ _ _ _ _ Hgated He Hg) as Hd.
  rewrite Hd in si_disk0. by apply si_disk0.
Qed.

Lemma sends_messages n r to e : (to, e) ∈ sends n r → is_completion e = false.
Proof. intros (x & _ & Hx)%list_elem_of_omap. by destruct x; simplify_eq/=. Qed.

Lemma cluster_update_inv (members : list Z) (V : votes) c n sv sent :
  cluster_inv members V c → server_inv members V n sv →
  (∀ to e, (to, e) ∈ sent → is_completion e = false) →
  (∀ to from resp, (to, ReceiveRequestVoteResponse from resp) ∈ sent →
    vr_granted resp = true → V !! (from, vr_term resp) = Some to) →
  cluster_inv members V (update c n sv sent).
Proof.
  intros [] Hsv Hmsg Hsent. split; simpl; try done.
  - by apply map_Forall_insert_2.
  - intros to e [Hin|Hin]%elem_of_app; eauto.
  - intros to from resp [Hin|Hin]%elem_of_app; eauto.
Qed.

(** An input from a client, a timer or the network. *)
Lemma cluster_input_inv (members : list Z) (V : votes) c n sv e r :
  cluster_inv members V c → cl_servers c !! n = Some sv →
  (free_event e ∨ (n, e) ∈ cl_network c) → is_completion e = false →
  step (sv_core sv) e = Ret r →
  cluster_inv members V (update c n (mkServer (res_state r) (sv_disk sv)) (sends n r)).
Proof.
  intros Hinv Hn He Hc Hstep. pose proof (ci_servers _ _ _ Hinv _ _ Hn) as Hsv.
  assert (st_pending_hard_state (sv_core sv) = None) as Hp.
  { destruct (step_inv _ _ _ Hstep) as (_ & _ & Hpc & _). apply eq_None_not_Some.
    rewrite Hpc, Hc. done. }
  assert (st_node (sv_core sv) ∉ st_peers (sv_core sv)) as Hself.
  { pose proof (si_members _ _ _ _ Hsv) as Hm. rewrite (si_node _ _ _ _ Hsv).
    pose proof (ci_nodup _ _ _ Hinv) as Hnd. rewrite <-Hm in Hnd. by apply NoDup_cons in Hnd as [? _]. }
  destruct (step_input_votes _ _ _ Hstep Hp Hself) as [Hgated Hvote].
  { intros Hr. rewrite (si_node _ _ _ _ Hsv). by apply (si_candidate _ _ _ _ Hsv). }
  pose proof (si_core _ _ _ _ Hsv) as Hcore. rewrite Hp in Hcore. rewrite Hcore in Hgated.
  assert (∀ v, v ∈ event_grants (sv_core sv) e → V !! (v, current_term (sv_core sv)) = Some n) as Hg.
  { intros v. destruct e; simpl; try set_solver.
    destruct (vr_granted response) eqn:Hgr; simpl; [|set_solver].
    destruct (Z.eqb_spec (vr_term response) (current_term (sv_core sv))) as [<-|]; [|set_solver].
    intros ->%elem_of_singleton. destruct He as [He|He]; [simpl in He; congruence|].
    by apply (ci_network _ _ _ Hinv) in He. }
  destruct (vote_core_inv members V n sv _ _ Hsv (ci_nodup _ _ _ Hinv)
    (ci_voters _ _ _ Hinv) Hp Hg Hvote) as (? & ? & ? & ?).
  apply cluster_update_inv; [done| |apply sends_messages|by eapply sends_granted].
  destruct Hsv. split; simpl; try done. by apply (gated_core _ _ _ Hgated).
Qed.

(** The votes when server [n] has [h] on its disk. *)
Definition record_vote (V : votes) (n : Z) (h : RaftHardState) : votes :=
  match hs_voted_for h with
  | Some c => <[(n, hs_current_term h) := c]> V
  | None => V
  end.

Lemma record_vote_new (V : votes) n h v t c :
  record_vote V n h !! (v, t) = Some c →
  V !! (v, t) = Some c ∨ (v = n ∧ t = hs_current_term h ∧ hs_voted_for h = Some c).
Proof.
  unfold record_vote. destruct (hs_voted_for h) as [v'|] eqn:Hv; [|by left].
  intros [[[= -> ->] <-]|[_ ?]]%lookup_insert_Some; [by right|by left].
Qed.

(** The storage makes a requested hard state durable. *)
Lemma server_write_inv (members : list Z) (V : votes) n sv p :
  server_inv members V n sv → st_pending_hard_state (sv_core sv) = Some p →
  V ⊆ record_vote V n (phs_state (pd_request p)) ∧
  server_inv members (record_vote V n (phs_state (pd_request p))) n
    (mkServer (sv_core sv) (phs_state (pd_request p))).
Proof.
  intros Hsv Hp. set (h := phs_state (pd_request p)). set (V' := record_vote V n h).
  pose proof (si_core _ _ _ _ Hsv) as Hcore. rewrite Hp in Hcore. fold h in Hcore.
  destruct Hcore as [Hfol Hrun].
  assert (∀ t c, V !! (n, t) = Some c → t < hs_current_term h ∨
    (t = hs_current_term h ∧ hs_voted_for h = Some c)) as Hlatest.
  { intros t c0 Hc. apply (si_latest _ _ _ _ Hsv) in Hc. unfold follows in Hfol.
    destruct Hc as [?|[-> Hv]]; [left; destruct Hfol; lia|].
    destruct Hfol as [?|[? [?|Hv']]]; [by left|congruence|]. right. split; [done|congruence]. }
  assert (V ⊆ V') as Hsub.
  { unfold V', record_vote. destruct (hs_voted_for h) as [v|] eqn:Hv; [|done].
    destruct (V !! (n, hs_current_term h)) as [v'|] eqn:Hold; [|by apply insert_subseteq].
    rewrite insert_id; [done|]. destruct (Hlatest _ _ Hold) as [?|[_ ?]]; [lia|congruence]. }
  split; [done|]. destruct Hsv. split; simpl; try done.
  - intros c0 Hc. unfold V', record_vote. fold h in Hc. rewrite Hc. apply lookup_insert_eq.
  - fold h. intros t c0 [Hc|(_ & ? & ?)]%record_vote_new; [by apply Hlatest|by right].
  - rewrite Hp. fold h. split; [done|exact Hrun].
  - intros Hr. destruct (si_candidate0 Hr) as [? Hv]. split; [done|].
    intros v Hin Hne. eapply lookup_weaken; [by apply Hv|done].
  - intros Hr. destruct (si_leader0 Hr); [by left|right]. by eapply quorum_mono.
Qed.

Lemma cluster_write_inv (members : list Z) (V : votes) c n sv p :
  cluster_inv members V c → cl_servers c !! n = Some sv →
  st_pending_hard_state (sv_core sv) = Some p →
  ∃ V', V ⊆ V' ∧
    cluster_inv members V' (update c n (mkServer (sv_core sv) (phs_state (pd_request p))) []).
Proof.
  intros Hinv Hn Hp. pose proof (ci_servers _ _ _ Hinv _ _ Hn) as Hsv.
  destruct (server_write_inv _ _ _ _ _ Hsv Hp) as [Hsub Hsv'].
  exists (record_vote V n (phs_state (pd_request p))). split; [done|].
  destruct Hinv. split; simpl; try done.
  - intros n' sv' [[<- <-]|[Hne Hn']]%lookup_insert_Some; [done|].
    apply (server_inv_mono members V); [done| |by apply ci_servers0].
    intros t c0 [?|(? & _)]%record_vote_new; [done|congruence].
  - intros v t c0 [?|(-> & _)]%record_vote_new; [by eapply ci_voters0|].
    rewrite <-(si_members _ _ _ _ Hsv). by left.
  - by rewrite app_nil_r.
  - rewrite app_nil_r. intros to from resp Hin Hg.
    eapply lookup_weaken; [by eapply ci_network0|done].
Qed.

Lemma cluster_complete_inv (members : list Z) (V : votes) c n sv p r :
  cluster_inv members V c → cl_servers c !! n = Some sv →
  st_pending_hard_state (sv_core sv) = Some p → sv_disk sv = phs_state (pd_request p) →
  step (sv_core sv) (HardStatePersisted (mkHardStatePersisted
    (phs_request_id (pd_request p)) (phs_state (pd_request p)))) = Ret r →
  cluster_inv members V (update c n (mkServer (res_state r) (sv_disk sv)) (sends n r)).
Proof.
  intros Hinv Hn Hp Hdisk Hstep. pose proof (ci_servers _ _ _ Hinv _ _ Hn) as Hsv.
  pose proof (si_core _ _ _ _ Hsv) as Hcore. rewrite Hp in Hcore. destruct Hcore as [_ Hrun].
  destruct (step_completion_votes _ _ _ _ Hstep Hp Hrun) as (_ & Hgated & En & Ep & Er & Et & Ev & Evs).
  rewrite <-Hdisk in Hgated.
  apply cluster_update_inv; [done| |apply sends_messages|by eapply sends_granted].
  destruct Hsv. split; simpl; try done.
  - congruence.
  - by rewrite Ep.
  - by apply (gated_core _ _ _ Hgated).
  - by rewrite Er, Et, Ev, Evs.
  - by rewrite Er, Et.
Qed.

Lemma adjusted_inv (members : list Z) (V : votes) n sv s :
  server_inv members V n sv → adjusted (sv_core sv) s →
  server_inv members V n (mkServer s (sv_disk sv)).
Proof.
  intros [] (En & Ep & [= Et Ev] & Epd & Hrole). split; simpl; try done.
  - congruence.
  - by rewrite Ep.
  - rewrite Epd. unfold hard_state in *. rewrite Et, Ev. exact si_core0.
  - rewrite Et, Ev. destruct Hrole as [[-> ->]| ->]; [done|]. done.
  - rewrite Et. destruct Hrole as [[-> _]| ->]; done.
Qed.

Lemma cluster_step_inv (members : list Z) (V : votes) c c' :
  cluster_inv members V c → cluster_step c c' → ∃ V', V ⊆ V' ∧ cluster_inv members V' c'.
Proof.
  intros Hinv Hstep. destruct Hstep as [n sv e r Hn He Hs|n sv e r Hn He Hs|n sv p Hn Hp
    |n sv p r Hn Hp Hd Hs|n sv s Hn Ha|n sv s Hn Hr].
  - exists V. split; [done|]. eapply cluster_input_inv; eauto. by destruct e.
  - exists V. split; [done|]. eapply cluster_input_inv; eauto. by eapply ci_messages.
  - by apply cluster_write_inv.
  - exists V. split; [done|]. by eapply cluster_complete_inv.
  - exists V. split; [done|]. apply cluster_update_inv; [done| |set_solver|set_solver].
    by eapply adjusted_inv; [apply Hinv|].
  - exists V. split; [done|]. apply cluster_update_inv; [done| |set_solver|set_solver].
    destruct (ci_servers _ _ _ Hinv _ _ Hn). destruct Hr as (En & Ep & Er & Eh & Evs & El & Epd).
    split; simpl; rewrite ?Er, ?Epd, ?Ep; try done. congruence.
Qed.

Lemma cluster_steps_inv (members : list Z) (V : votes) c c' :
  cluster_inv members V c → cluster_steps c c' → ∃ V', V ⊆ V' ∧ cluster_inv members V' c'.
Proof.
  intros Hinv Hs. revert V Hinv. induction Hs as [c|c1 c2 c3 H12 _ IH]; intros V Hinv; [eauto|].
  destruct (cluster_step_inv _ _ _ _ Hinv H12) as (V2 & Hsub & Hinv2).
  destruct (IH _ Hinv2) as (V3 & Hsub3 & Hinv3). exists V3. split; [by trans V2|done].
Qed.

(** The votes on the disks a cluster starts with. *)
Lemma initial_votes (servers : gmap Z Server) :
  ∃ V : votes, ∀ n t c, V !! (n, t) = Some c ↔
    ∃ sv, servers !! n = Some sv ∧ sv_disk sv = mkHardState t (Some c).
Proof.
  induction servers as [|n sv m Hn IH] using map_ind.
  - exists ∅. intros n t c. split; [done|]. intros (sv & Hs & _). by rewrite lookup_empty in Hs.
  - destruct IH as [V HV]. destruct (sv_disk sv) as [t0 [c0|]] eqn:Hd.
    + exists (<[(n, t0) := c0]> V). intros n' t c. rewrite lookup_insert_Some, HV. split.
      * intros [[[= -> ->] ->]|[Hne (sv' & Hs & Hd')]].
        { exists sv. by rewrite lookup_insert_eq. }
        exists sv'. rewrite lookup_insert_ne; [done|]. intros ->. congruence.
      * intros (sv' & [[<- <-]|[Hne Hs]]%lookup_insert_Some & Hd').
        { left. rewrite Hd in Hd'. by simplify_eq. }
        right. split; [congruence|eauto].
    + exists V. intros n' t c. rewrite HV. split.
      * intros (sv' & Hs & Hd'). exists sv'. rewrite lookup_insert_ne; [done|].
        intros ->. congruence.
      * intros (sv' & [[<- <-]|[Hne Hs]]%lookup_insert_Some & Hd'); [congruence|eauto].
Qed.

Lemma initial_inv (members : list Z) c :
  initial members c → ∃ V, cluster_inv members V c.
Proof.
  intros [Hnd Hsv Hnet]. destruct (initial_votes (cl_servers c)) as [V HV]. exists V.
  split; [done| |..].
  - intros n sv Hn. destruct (Hsv _ _ Hn) as (En & Ep & Er & Eh & Epd).
    split; try done; rewrite ?Er, ?Epd; try done.
    + intros v Hv. apply HV. exists sv. split; [done|]. destruct (sv_disk sv). by simpl in *; subst.
    + intros t v (sv' & Hn' & Hd)%HV. simplify_eq. rewrite Hd. by right.
  - intros v t n (sv & Hv & _)%HV. destruct (Hsv _ _ Hv) as (_ & Hp & _). rewrite <-Hp. by left.
  - rewrite Hnet. set_solver.
  - rewrite Hnet. set_solver.
Qed.

(** ** Election safety *)

(** Leaders of one term in an earlier and a later state, by their invariants. *)
Lemma inv_one_leader (members : list Z) (V1 V2 : votes) (c1 c2 : Cluster) (n1 n2 t : Z) :
  cluster_inv members V1 c1 → cluster_inv members V2 c2 → V1 ⊆ V2 →
  leads c1 n1 t → leads c2 n2 t → n1 = n2.
Proof.
  intros Hinv1 Hinv2 Hsub (sv1 & Hn1 & Hr1 & Ht1) (sv2 & Hn2 & Hr2 & Ht2).
  pose proof (ci_servers _ _ _ Hinv1 _ _ Hn1) as Hs1.
  pose proof (ci_servers _ _ _ Hinv2 _ _ Hn2) as Hs2.
  assert (length members = 1%nat → n1 = n2) as Hsingle.
  { intros Hlen. destruct members as [|m [|]]; simplify_eq/=.
    pose proof (si_members _ _ _ _ Hs1) as H1. pose proof (si_members _ _ _ _ Hs2) as H2.
    apply Permutation_singleton_r in H1, H2. congruence. }
  destruct (si_leader _ _ _ _ Hs1 Hr1) as [?|Q1]; [by auto|].
  destruct (si_leader _ _ _ _ Hs2 Hr2) as [?|Q2]; [by auto|].
  rewrite Ht1 in Q1. rewrite Ht2 in Q2.
  eapply quorum_unique; [apply Hinv1|by eapply quorum_mono|done].
Qed.

(** C1: Election safety: in any execution of a cluster whose servers run this
    step function, over a network that loses, duplicates, reorders and invents
    messages other than granted votes, with hard-state writes completing at
    arbitrary times and servers crashing and restarting from their disks, no two
    servers are ever leader of the same term, at the same or at different times. *)
Theorem election_safety (members : list Z) (c0 c1 c2 : Cluster) (n1 n2 t : Z) :
  initial members c0 → cluster_steps c0 c1 → cluster_steps c1 c2 →
  leads c1 n1 t → leads c2 n2 t → n1 = n2.
Proof.
  intros Hinit H01 H12. destruct (initial_inv _ _ Hinit) as [V0 Hinv0].
  destruct (cluster_steps_inv _ _ _ _ Hinv0 H01) as (V1 & _ & Hinv1).
  destruct (cluster_steps_inv _ _ _ _ Hinv1 H12) as (V2 & Hsub & Hinv2).
  by eapply inv_one_leader.
Qed.

(** An election in a cluster of three, with a crash of the voter afterwards. *)
Definition fresh_server (n : Z) (peers : list Z) : Server :=
  mkServer (mkState n peers role_follower (mkPersistent 0 None None []) 0 0 None ∅ None 1 None)
    (mkHardState 0 None).

Definition three_servers : Cluster :=
  mkCluster {[1 := fresh_server 1 [2; 3]; 2 := fresh_server 2 [1; 3]; 3 := fresh_server 3 [1; 2]]} [].

Definition elect_one : list action :=
  [do_local 1 ElectionTimeout; do_write 1; do_complete 1;
   do_deliver 0; do_write 2; do_complete 2; do_write 2; do_complete 2; do_deliver 2; do_crash 2].

Definition elected : Cluster := default three_servers (exec_all three_servers elect_one).

Lemma three_servers_initial : initial [1; 2; 3] three_servers.
Proof.
  split; [by apply (bool_decide_unpack _); vm_compute| |done].
  do 2 (apply map_Forall_insert_2; [by split_and!; simpl; try done; solve_Permutation|]).
  apply map_Forall_singleton. by split_and!; simpl; try done; solve_Permutation.
Qed.

Lemma elected_steps : cluster_steps three_servers elected.
Proof. apply (exec_all_sound _ elect_one). vm_compute. reflexivity. Qed.

Lemma elected_leads : leads elected 1 1.
Proof. eexists. split; [vm_compute; reflexivity|]. split; vm_compute; reflexivity. Qed.

Lemma election_safety_witness : leads elected 1 1 ∧ 1 = 1.
Proof.
  split; [apply elected_leads|].
  apply (election_safety [1; 2; 3] three_servers elected elected 1 1 1);
    [apply three_servers_initial|apply elected_steps|apply rtc_refl|
     apply elected_leads|apply elected_leads].
Defined.
