(* ===== verification/LogCluster.v ===== *)
(** * A cluster of Figure 2 servers with logs on disk

    Servers running [Figure2.step] whose effects an adapter performs one at a
    time and in order, as docs/design/0007 asks: a hard-state request writes
    term and vote and is then reported to the server, [PersistState(log)] writes
    the log before the next effect is started, a message enters the network.  The
    next input is given when all effects of the last one have been performed.
    The network loses, duplicates, delays and reorders messages.  A server may
    crash between any two of these steps; it restarts from what its disk holds,
    with an empty applied state.

    Snapshots are outside of this model, as they are outside of the Figure 2
    rules; a client command is accepted while the log has fewer than 2^63
    entries. *)

From S2P Require Import Prelude OrdMap Bytes StoreTypes RaftTypes Figure2 Cluster.

Record Node := mkNode {
  nd_core : State;
  nd_hard : RaftHardState;
  nd_log : list LogEntry;
  nd_todo : list Effect }.

Record LogCluster := mkLogCluster {
  lc_nodes : gmap Z Node;
  lc_network : list (Z * Event) }.

Definition roomy (s : State) : Prop := 2 * (last_index s + 1) < u64_max.

#[export] Instance roomy_dec s : Decision (roomy s).
Proof. unfold roomy. apply _. Defined.

(** Inputs that do not come from another server. *)
Definition local_event (s : State) (e : Event) : Prop :=
  match e with
  | ElectionTimeout | HeartbeatTimeout | ApplyCommitted | ObserveTerm _ => True
  | ReceiveClientCommand _ => roomy s
  | _ => False
  end.

#[export] Instance local_event_dec s e : Decision (local_event s e).
Proof. destruct e; apply _. Defined.

(** What a server starts with when its disk holds [hard] and [log]. *)
Definition boot_state (node : Z) (peers : list Z) (hard : RaftHardState) (log : list LogEntry)
    : State :=
  mkState node peers role_follower
    (mkPersistent (hs_current_term hard) (hs_voted_for hard) None log)
    0 0 None ∅ None 1 None.

Definition reboot (nd : Node) : Node :=
  mkNode (boot_state (st_node (nd_core nd)) (st_peers (nd_core nd)) (nd_hard nd) (nd_log nd))
    (nd_hard nd) (nd_log nd) [].

(** The adapter performs one effect. *)
Definition perform (nd : Node) (effect : Effect) (rest : list Effect) : Node :=
  match effect with
  | PersistHardState request => mkNode (nd_core nd) (phs_state request) (nd_log nd) rest
  | PersistLog => mkNode (nd_core nd) (nd_hard nd) (log_of (nd_core nd)) rest
  | _ => mkNode (nd_core nd) (nd_hard nd) (nd_log nd) rest
  end.

Definition put_node (c : LogCluster) (n : Z) (nd : Node) (sent : list (Z * Event)) : LogCluster :=
  mkLogCluster (<[n := nd]> (lc_nodes c)) (lc_network c ++ sent).

(** The report that the pending hard state was written. *)
Definition completion_of (p : PendingHardStatePersistence) : Event :=
  HardStatePersisted (mkHardStatePersisted
    (phs_request_id (pd_request p)) (phs_state (pd_request p))).

(** The server is given an input and its effects are queued. *)
Definition receive (nd : Node) (r : StepResult) : Node :=
  mkNode (res_state r) (nd_hard nd) (nd_log nd) (res_effects r).

Inductive log_cluster_step (c : LogCluster) : LogCluster → Prop :=
| log_input n nd e r :
    lc_nodes c !! n = Some nd → nd_todo nd = [] →
    local_event (nd_core nd) e ∨ (n, e) ∈ lc_network c → step (nd_core nd) e = Ret r →
    log_cluster_step c (put_node c n (receive nd r) [])
| log_perform n nd effect rest :
    lc_nodes c !! n = Some nd → nd_todo nd = effect :: rest →
    log_cluster_step c (put_node c n (perform nd effect rest) (option_list (message_of n effect)))
| log_complete n nd p r :
    lc_nodes c !! n = Some nd → nd_todo nd = [] → st_pending_hard_state (nd_core nd) = Some p →
    step (nd_core nd) (completion_of p) = Ret r →
    log_cluster_step c (put_node c n (receive nd r) [])
| log_crash n nd :
    lc_nodes c !! n = Some nd → log_cluster_step c (put_node c n (reboot nd) []).

Definition log_cluster_steps : LogCluster → LogCluster → Prop := rtc log_cluster_step.

(** A server that was never used. *)
Definition new_node (n : Z) (peers : list Z) : Node :=
  mkNode (boot_state n peers (mkHardState 0 None) []) (mkHardState 0 None) [] [].

Record log_initial (members : list Z) (c : LogCluster) : Prop := {
  li_nodup : NoDup members;
  li_several : (2 ≤ length members)%nat;
  li_nodes : ∀ n nd, lc_nodes c !! n = Some nd →
    ∃ peers, n :: peers ≡ₚ members ∧ nd = new_node n peers;
  li_network : lc_network c = [] }.

(** Server [n] holds [e] at index [i], at or below its commit index. *)
Definition commits (c : LogCluster) (n i : Z) (e : LogEntry) : Prop :=
  ∃ nd, lc_nodes c !! n = Some nd ∧ 1 ≤ i ≤ st_commit_index (nd_core nd) ∧
    log_of (nd_core nd) !! Z.to_nat (i - 1) = Some e.

(** ** Executing a schedule *)

Inductive log_action :=
| act_local (n : Z) (e : Event)
| act_deliver (i : nat)
| act_perform (n : Z)
| act_complete (n : Z)
| act_crash (n : Z).

Definition log_feed (c : LogCluster) (n : Z) (nd : Node) (e : Event) : option LogCluster :=
  match nd_todo nd, step (nd_core nd) e with
  | [], Ret r => Some (put_node c n (receive nd r) [])
  | _, _ => None
  end.

Definition log_exec (c : LogCluster) (a : log_action) : option LogCluster :=
  match a with
  | act_local n e =>
      nd ← lc_nodes c !! n;
      if decide (local_event (nd_core nd) e) then log_feed c n nd e else None
  | act_deliver i =>
      m ← lc_network c !! i;
      nd ← lc_nodes c !! m.1;
      log_feed c m.1 nd m.2
  | act_perform n =>
      nd ← lc_nodes c !! n;
      match nd_todo nd with
      | [] => None
      | effect :: rest =>
          Some (put_node c n (perform nd effect rest) (option_list (message_of n effect)))
      end
  | act_complete n =>
      nd ← lc_nodes c !! n;
      p ← st_pending_hard_state (nd_core nd);
      log_feed c n nd (completion_of p)
  | act_crash n =>
      nd ← lc_nodes c !! n;
      Some (put_node c n (reboot nd) [])
  end.

Fixpoint log_exec_all (c : LogCluster) (l : list log_action) : option LogCluster :=
  match l with
  | [] => Some c
  | a :: l' => c' ← log_exec c a; log_exec_all c' l'
  end.

Lemma log_feed_Some c n nd e c' :
  log_feed c n nd e = Some c' →
  nd_todo nd = [] ∧ ∃ r, step (nd_core nd) e = Ret r ∧ c' = put_node c n (receive nd r) [].
Proof.
  unfold log_feed. destruct (nd_todo nd); [|done].
  destruct (step (nd_core nd) e) as [r|]; [|done]. intros [= <-]. eauto.
Qed.

Lemma log_exec_sound c a c' : log_exec c a = Some c' → log_cluster_step c c'.
Proof.
  destruct a as [n e|i|n|n|n]; simpl.
  - intros (nd & Hn & Ha)%bind_Some. case_decide; [|done].
    apply log_feed_Some in Ha as (Ht & r & Hs & ->). eapply log_input; eauto.
  - intros ([n e] & Hi & Ha)%bind_Some. simpl in Ha. apply bind_Some in Ha as (nd & Hn & Ha).
    apply log_feed_Some in Ha as (Ht & r & Hs & ->).
    eapply log_input; eauto. right. by eapply list_elem_of_lookup_2.
  - intros (nd & Hn & Ha)%bind_Some. destruct (nd_todo nd) as [|effect rest] eqn:Ht; [done|].
    injection Ha as <-. by eapply log_perform.
  - intros (nd & Hn & Ha)%bind_Some. apply bind_Some in Ha as (p & Hp & Ha).
    apply log_feed_Some in Ha as (Ht & r & Hs & ->). by eapply log_complete.
  - intros (nd & Hn & [= <-])%bind_Some. by eapply log_crash.
Qed.

Lemma log_exec_all_sound c l c' : log_exec_all c l = Some c' → log_cluster_steps c c'.
Proof.
  revert c. induction l as [|a l IH]; intros c; simpl; [intros [= ->]; constructor|].
  intros (c1 & H1%log_exec_sound & H2)%bind_Some. econstructor; [done|by apply IH].
Qed.
