(* ===== verification/LogReact.v ===== *)
(** * What one input does to the replicated log

    The handlers of [Figure2] seen against the logs of the leaders: which
    requests a leader builds, what an append request that carries a piece of a
    leader's log does to a follower's log, what a response lets a leader commit,
    and what a vote says about the candidate's log. *)

From S2P Require Import Prelude OrdMap Bytes StoreTypes RaftTypes Figure2 Figure2Votes Figure2Log.
From S2P Require Import Figure2Steps Figure2Effects LeaderLogs.

(** ** States without a snapshot *)

Definition unsnapped (s : State) : Prop := ps_snapshot (st_persistent s) = None.

Lemma unsnapped_base s : unsnapped s → snapshot_base s = 0.
Proof. unfold unsnapped, snapshot_base. by intros ->. Qed.

Lemma unsnapped_last_term s : unsnapped s → last_term s = log_term (log_of s).
Proof. unfold unsnapped, last_term, log_term. intros ->. by destruct (last _). Qed.

Lemma unsnapped_last_index s : unsnapped s → good s → last_index s = Z.of_nat (length (log_of s)).
Proof.
  intros Hu Hg. rewrite last_index_length by apply Hg. rewrite unsnapped_base by done. lia.
Qed.

Lemma unsnapped_contiguous s : unsnapped s → good s → contiguous 0 (log_of s).
Proof. intros Hu Hg. rewrite <-(unsnapped_base s Hu). apply Hg. Qed.

Lemma unsnapped_term_at s i t :
  unsnapped s → 0 < i → term_at s i = Ret t →
  ∃ e, log_of s !! Z.to_nat (i - 1) = Some e ∧ en_term e = t.
Proof.
  intros Hu Hi. unfold term_at. rewrite unsnapped_base by done. unfold unsnapped in Hu. rewrite Hu.
  rewrite (proj2 (Z.eqb_neq i 0)), (proj2 (Z.leb_gt i 0)) by lia. simpl.
  replace (i - 0 - 1) with (i - 1) by lia. unfold log_at.
  destruct (log_of s !! Z.to_nat (i - 1)) as [e|]; simpl; [|done].
  intros [= <-]. eauto.
Qed.

Lemma unsnapped_same_log s s' : unsnapped s → same_log s s' → unsnapped s'.
Proof. unfold unsnapped. intros Hu (-> & _). done. Qed.

(** ** Pieces of a log *)

(** The request carries consecutive entries of [lg], after the entry it names. *)
Record slice_of (lg : list LogEntry) (q : AppendEntriesRequest) : Prop := {
  sl_previous : 0 ≤ ae_previous_log_index q;
  sl_end : ae_previous_log_index q + Z.of_nat (length (ae_entries q)) ≤ Z.of_nat (length lg);
  sl_entries : ae_entries q =
    take (length (ae_entries q)) (drop (Z.to_nat (ae_previous_log_index q)) lg);
  sl_term : 0 < ae_previous_log_index q →
    ∃ e, lg !! Z.to_nat (ae_previous_log_index q - 1) = Some e ∧
      en_term e = ae_previous_log_term q }.

Lemma slice_entry lg q i :
  slice_of lg q → (i < length (ae_entries q))%nat →
  ae_entries q !! i = lg !! (Z.to_nat (ae_previous_log_index q) + i)%nat.
Proof.
  intros [_ _ He _] Hi. rewrite He, lookup_take_lt, lookup_drop by done. done.
Qed.

Lemma slice_contiguous lg q :
  slice_of lg q → contiguous 0 lg → contiguous (ae_previous_log_index q) (ae_entries q).
Proof.
  intros Hs Hc i e Hi. rewrite (slice_entry _ _ _ Hs) in Hi by by eapply lookup_lt_Some.
  apply Hc in Hi. destruct Hs. lia.
Qed.

Lemma slice_terms lg q t :
  slice_of lg q → Forall (λ e, en_term e ≤ t) lg → Forall (λ e, en_term e ≤ t) (ae_entries q).
Proof. intros [_ _ -> _] Ht. by apply Forall_take, Forall_drop. Qed.

Lemma slice_app lg ext q : slice_of lg q → slice_of (lg ++ ext) q.
Proof.
  intros [H0 Hend He Ht]. split; [done|rewrite length_app; lia| |].
  - rewrite He at 1. rewrite drop_app_le by lia. symmetry. apply take_app_le.
    rewrite length_drop. lia.
  - intros Hpos. destruct (Ht Hpos) as (e & Hl & Hte). exists e. split; [|done].
    by apply lookup_app_l_Some.
Qed.

(** What a leader sends is a piece of its log. *)
Definition append_of (s : State) (q : AppendEntriesRequest) : Prop :=
  slice_of (log_of s) q ∧ ae_term q = current_term s ∧
  0 ≤ ae_leader_commit q ≤ st_commit_index s.

(** What building a request relies on. *)
Record sendable (s : State) : Prop := {
  sd_unsnapped : unsnapped s;
  sd_last : last_index s = Z.of_nat (length (log_of s));
  sd_room : last_index s < u64_max;
  sd_next : ∀ l p g, st_leader s = Some l → p ∈ st_peers s → ld_progress l !! p = Some g →
    1 ≤ pg_next_index g ≤ last_index s + 1;
  sd_commit : 0 ≤ st_commit_index s }.

Lemma good_sendable s : unsnapped s → good s → sendable s.
Proof.
  intros Hu Hg. split; [done|by apply unsnapped_last_index|apply Hg| |].
  - intros l p g Hl Hp Hpg.
    destruct (lk_progress _ _ _ (ok_leader _ (gd_ok _ Hg) _ Hl) p Hp) as (g' & Hg' & [? _]).
    by simplify_eq.
  - pose proof (ok_base _ (gd_ok _ Hg)) as [Hb _]. by rewrite unsnapped_base in Hb.
Qed.

Lemma append_request_spec s peer ctx q :
  sendable s → peer ∈ st_peers s → append_request s peer ctx = Ret q → append_of s q.
Proof.
  intros [Hu Hlast Hroom Hnext Hc] Hin. unfold append_request.
  destruct (st_leader s) as [l|] eqn:Hl; [|done].
  destruct (ld_progress l !! peer) as [g|] eqn:Hpg; [|done].
  pose proof (Hnext l peer g eq_refl Hin Hpg) as Hnx. cbv zeta.
  rewrite unsnapped_base in * by done. rewrite (u64_small (0 + 1)) by lia.
  rewrite Z.max_l by lia. rewrite (u64_small (pg_next_index g - 1)) by lia.
  set (next := pg_next_index g) in *. intros (t & Ht & [= <-])%bind_Ret.
  split; [|done]. split; simpl; try lia.
  - destruct (Z.leb_spec next (last_index s)); simpl; [|lia].
    rewrite length_drop. lia.
  - destruct (Z.leb_spec next (last_index s)) as [Hle|Hgt]; simpl; [|done].
    replace (next - 0 - 1) with (next - 1) by lia. rewrite firstn_all. done.
  - intros Hpos. by apply (unsnapped_term_at s).
Qed.

(** ** Merging a piece of a leader's log *)

Lemma scan_conflict s entries index rest :
  scan_entries s entries = Ret (merge_truncate index rest) →
  ∃ e rest' t, rest = e :: rest' ∧ en_index e = index ∧ term_at s index = Ret t ∧ t ≠ en_term e.
Proof.
  induction entries as [|e entries IH]; simpl; [done|].
  destruct (_ <? en_index e); [done|]. intros (t & Ht & Hs)%bind_Ret.
  destruct (Z.eqb_spec t (en_term e)) as [|Hne]; simpl in Hs; [by apply IH|].
  destruct (en_index e <=? _); [done|]. injection Hs as <- <-. eauto 10.
Qed.

Section merge.
Context (L : reigns) (s : State) (q : AppendEntriesRequest) (lg : list LogEntry).
Context (Hu : unsnapped s) (Hg : good s).
Context (Hgen : genuine L (log_of s)) (Hlg : genuine L lg) (Hcont : contiguous 0 lg).
Context (Hq : slice_of lg q) (Hprev : previous_matches s q).

Local Abbreviation prev := (Z.to_nat (ae_previous_log_index q)).

Lemma previous_shared : take prev (log_of s) = take prev lg.
Proof.
  destruct Hq as [H0 _ _ Ht]. destruct (Z.eq_dec (ae_previous_log_index q) 0) as [->|Hne]; [done|].
  destruct (Ht ltac:(lia)) as (e & He & Hte). destruct Hprev as [_ Hp].
  destruct (unsnapped_term_at s (ae_previous_log_index q) _ Hu ltac:(lia) Hp) as (e' & He' & Hte').
  replace prev with (S (Z.to_nat (ae_previous_log_index q - 1))) by lia.
  apply (genuine_match L _ _ _ e' e); [done..|congruence].
Qed.

Context (log' pre rest : list LogEntry).
Context (Hm : merge_ok s (ae_previous_log_index q) (ae_entries q) log' pre rest).

Lemma pre_shared : take (prev + length pre) (log_of s) = take (prev + length pre) lg.
Proof.
  destruct Hm as [Hsplit Hpres _].
  destruct pre as [|e pre' _] eqn:Hpre using rev_ind.
  { rewrite Nat.add_0_r. apply previous_shared. }
  destruct (Hpres e) as (e' & Hat & Hte); [set_solver|].
  assert (ae_entries q !! length pre' = Some e) as He.
  { rewrite Hsplit, <-app_assoc. by apply list_lookup_middle. }
  rewrite (slice_contiguous _ _ Hq Hcont _ _ He) in Hat. unfold entry_at in Hat.
  destruct Hq as [H0 _ _ _]. rewrite unsnapped_base in Hat by done.
  rewrite (proj2 (Z.ltb_lt _ _)) in Hat by lia.
  replace (Z.to_nat (ae_previous_log_index q + 1 + Z.of_nat (length pre') - 0 - 1))
    with (prev + length pre')%nat in Hat by lia.
  rewrite (slice_entry _ _ _ Hq) in He by by eapply lookup_lt_Some.
  rewrite length_app. simpl. replace (prev + (length pre' + 1))%nat with (S (prev + length pre')) by lia.
  by eapply (genuine_match L).
Qed.

Local Abbreviation reached := (prev + length (ae_entries q))%nat.

Lemma merged_replaced k :
  k = (prev + length pre)%nat → log' = take k (log_of s) ++ rest → log' = take reached lg.
Proof.
  intros Hk Hlog. rewrite Hlog, Hk, pre_shared. destruct Hm as [Hsplit _ _].
  assert (rest = take (length rest) (drop (prev + length pre) lg)) as Hrest.
  { pose proof (sl_entries _ _ Hq) as He. rewrite Hsplit in He at 1.
    apply (f_equal (drop (length pre))) in He. rewrite drop_app_length in He.
    rewrite He at 1. rewrite skipn_firstn_comm, drop_drop, Hsplit, length_app.
    f_equal. lia. }
  rewrite Hrest, take_take_drop. f_equal. rewrite Hsplit, length_app. lia.
Qed.

Lemma merge_slice point :
  log' = merged_log s point → scan_entries s (ae_entries q) = Ret point → point ≠ merge_refuse →
  match point with merge_from r | merge_truncate _ r => r = rest | merge_refuse => True end →
  (point = merge_from [] ∧ take reached (log_of s) = take reached lg) ∨
  (log' = take reached lg ∧
   ∀ j, (j ≤ length (log_of s))%nat → take j (log_of s) = take j lg → (j ≤ reached)%nat).
Proof.
  intros Hlog Hscan Hnr Hpt. pose proof Hm as [Hsplit _ Hcase].
  rewrite unsnapped_base, Z.sub_0_r in Hcase by done.
  pose proof pre_shared as Hshared. pose proof merged_replaced as Hreplaced.
  assert (length (ae_entries q) = length pre + length rest)%nat as Hlen
    by (rewrite Hsplit; apply length_app).
  destruct point as [r|index r|]; [| |done]; subst r.
  - destruct Hcase as [[Hrest _]|(k & Hk & Hkl & _ & Hlog')].
    + left. rewrite Hrest in Hlen |- *. split; [done|]. simpl in Hlen.
      rewrite Hlen, Nat.add_0_r. done.
    + destruct rest as [|e r].
      { left. split; [done|]. simpl in Hlen. rewrite Hlen, Nat.add_0_r. done. }
      right. split; [by eapply Hreplaced|]. intros j Hj _.
      simpl in Hlog. rewrite Hlog in Hlog'. apply (f_equal length) in Hlog'.
      rewrite !length_app, length_take in Hlog'. lia.
  - destruct (scan_conflict _ _ _ _ Hscan) as (e & r & t & Hrest & Hi & Ht & Hne).
    destruct Hcase as [[Hr _]|(k & Hk & Hkl & _ & Hlog')]; [congruence|].
    right. split; [by eapply Hreplaced|]. intros j Hj Hshare.
    destruct (decide (j ≤ reached)%nat) as [|Hgt]; [done|exfalso].
    assert (ae_entries q !! length pre = Some e) as He.
    { rewrite Hsplit, Hrest. by apply list_lookup_middle. }
    pose proof (slice_contiguous _ _ Hq Hcont _ _ He) as Hidx. pose proof (sl_previous _ _ Hq) as H0.
    rewrite (slice_entry _ _ _ Hq) in He by (rewrite Hlen, Hrest; simpl; lia).
    destruct (unsnapped_term_at s index t Hu ltac:(lia) Ht) as (e' & He' & <-).
    replace (Z.to_nat (index - 1)) with (prev + length pre)%nat in He' by lia.
    rewrite (take_lookup_eq _ _ _ (prev + length pre) Hshare) in He' by lia. congruence.
Qed.
End merge.

(** ** Effects of a reaction *)

(** Hard-state requests come before all other effects. *)
Definition requests_first (es : list Effect) : Prop :=
  ∃ qs rest, es = (PersistHardState <$> qs) ++ rest ∧ ∀ q, PersistHardState q ∉ rest.

Lemma requests_first_snoc es e :
  requests_first es → (∀ q, e ≠ PersistHardState q) → requests_first (es ++ [e]).
Proof.
  intros (qs & rest & -> & Hno) He. exists qs, (rest ++ [e]). rewrite app_assoc. split; [done|].
  intros q [?|?%list_elem_of_singleton]%elem_of_app; [by eapply Hno|by eapply He].
Qed.

Lemma requests_first_nil : requests_first [].
Proof. exists [], []. split; [done|set_solver]. Qed.

Lemma requests_first_one q : requests_first [PersistHardState q].
Proof. exists [q], []. split; [done|set_solver]. Qed.

Lemma gate_state r r' :
  gate_on_hard_state r = Ret r' →
  res_state r' = with_persistence (res_state r) (st_next_hard_state_request_id (res_state r))
    (st_pending_hard_state (res_state r')).
Proof.
  unfold gate_on_hard_state. destruct (split_persistence _) as [[[before q] after]|].
  - intros (_ & _ & [= <-])%bind_Ret. done.
  - intros [= <-]. by destruct (res_state r).
Qed.

(** The gate stops at the first hard-state request, so nothing else is released
    with it. *)
Definition released_alone (s : State) (es : list Effect) : Prop :=
  match st_pending_hard_state s with
  | Some p => es = [PersistHardState (pd_request p)]
  | None => ∀ q, PersistHardState q ∉ es
  end.

Lemma gate_alone r r' :
  requests_first (res_effects r) → st_pending_hard_state (res_state r) = None →
  gate_on_hard_state r = Ret r' → released_alone (res_state r') (res_effects r').
Proof.
  intros (qs & rest & Hes & Hno) Hp. unfold gate_on_hard_state, released_alone. rewrite Hes.
  destruct qs as [|q qs]; simpl.
  - pose proof (split_persistence_spec rest) as Hsp.
    destruct (split_persistence rest) as [[[before q] after]|].
    + destruct Hsp as (pre & _ & -> & _). exfalso. apply (Hno q). set_solver.
    + intros [= <-]. rewrite Hp, Hes. done.
  - intros (_ & _ & [= <-])%bind_Ret. done.
Qed.

(** A completed write releases what was held back, up to the next request. *)
Lemma completion_released s p r :
  st_pending_hard_state s = Some p → requests_first (held s) → step s (HardStatePersisted
    (mkHardStatePersisted (phs_request_id (pd_request p)) (phs_state (pd_request p)))) = Ret r →
  released_alone (res_state r) (res_effects r) ∧
  res_effects r ++ held (res_state r) = held s ∧
  res_state r = with_persistence s (st_next_hard_state_request_id s)
    (st_pending_hard_state (res_state r)).
Proof.
  intros Hp Hf Hstep. destruct (step_inv _ _ _ Hstep) as (_ & _ & _ & r0 & Hd & Hg).
  simpl in Hd. unfold handle_completion in Hd. simpl in Hd. rewrite Hp in Hd.
  apply bind_Ret in Hd as (u & _ & [= <-]). unfold held in Hf. rewrite Hp in Hf. split_and!.
  - by eapply gate_alone; [| |exact Hg].
  - apply (gate_held _ _) in Hg as [Hes _]; [|done]. simpl in Hes. rewrite <-Hes.
    unfold held. by rewrite Hp.
  - apply gate_state in Hg. exact Hg.
Qed.

(** Only hard-state requests, for the term [t]. *)
Definition requests_of (t : Z) (es : list Effect) : Prop :=
  Forall (λ e, ∃ q, e = PersistHardState q ∧ hs_current_term (phs_state q) = t) es.

(** The two outcomes of [observe_higher_term] at the start of a handler: nothing,
    or a follower in the observed term whose hard state is requested. *)
Definition stepped_down (s s' : State) (t : Z) : Prop :=
  current_term s < t ∧ current_term s' = t ∧ voted_for s' = None ∧
  st_role s' = role_follower ∧ st_leader s' = None ∧ st_votes_received s' = ∅ ∧
  st_node s' = st_node s ∧ st_peers s' = st_peers s.

Lemma observe_cases s t :
  owp (observe_higher_term (mkResult s [] []) t)
    (λ r, same_log s (res_state r) ∧ t ≤ current_term (res_state r) ∧
       requests_of (current_term (res_state r)) (res_effects r) ∧
       ((res_state r = s ∧ res_effects r = []) ∨ stepped_down s (res_state r) t))
    (λ _, True).
Proof.
  unfold observe_higher_term. simpl. destruct (Z.ltb_spec (current_term s) t) as [Hlt|Hge]; simpl.
  - unfold persist_hard_state. ostep. ostep; [done|]. simpl. split; [done|].
    split; [reflexivity|]. split; [|right; by split_and!]. constructor; [|done]. by eexists.
  - split; [done|]. split; [lia|]. split; [constructor|by left].
Qed.

Section reactions.
Context (members : list Z) (L : reigns) (acked : Z → Z → nat → Prop).
Context (C : gmap (Z * Z) (list LogEntry)).

(** The first [k] entries are committed, by a term not after [b]. *)
Definition settled (b : Z) (k : nat) (log : list LogEntry) : Prop :=
  k = 0%nat ∨ ∃ t j lg, t ≤ b ∧ committed members L acked t j ∧ leader_log L t = Some lg ∧
    (k ≤ j)%nat ∧ take k log = take k lg.

Lemma settled_le b b' k k' log :
  settled b k log → (k' ≤ k)%nat → b ≤ b' → settled b' k' log.
Proof.
  intros [->|(t & j & lg & Hb & Hc & HL & Hk & Ht)] Hle Hb'; [left; lia|].
  right. exists t, j, lg. split_and!; [lia|done|done|lia|by eapply take_eq_le].
Qed.

Lemma settled_take b k log log' : settled b k log → take k log' = take k log → settled b k log'.
Proof.
  intros [->|(t & j & lg & Hb & Hc & HL & Hk & Ht)] Heq; [by left|].
  right. exists t, j, lg. split_and!; [done..|congruence].
Qed.

(** What performing an effect relies on, in the state [s] after the input. *)
Definition effect_ok (s : State) (e : Effect) : Prop :=
  match e with
  | PersistHardState q => hs_current_term (phs_state q) = current_term s
  | SendRequestVote _ q => st_role s = role_candidate ∧
      rv_last_log_index q = last_index s ∧ rv_last_log_term q = last_term s
  | SendAppendEntries _ q => st_role s = role_leader ∧ append_of s q
  | SendAppendEntriesResponse _ response => ar_succeeded response = true →
      ar_term response = current_term s ∧ 0 ≤ ar_matched_index response ∧
      contains L (current_term s) (Z.to_nat (ar_matched_index response)) (log_of s)
  | _ => True
  end.

(** How an input may change the log: a leader appends an entry, a follower takes
    over a prefix of its leader's log, dropping nothing they share. *)
Definition log_write (s s' : State) : Prop :=
  (st_role s = role_leader ∧ st_role s' = role_leader ∧ current_term s' = current_term s ∧
   2 * Z.of_nat (length (log_of s')) < u64_max ∧
   ∃ e, log_of s' = log_of s ++ [e] ∧ en_term e = current_term s) ∨
  (st_role s' = role_follower ∧ ∃ lg k, leader_log L (current_term s') = Some lg ∧
   (k ≤ length lg)%nat ∧ log_of s' = take k lg ∧
   ∀ j, (j ≤ length (log_of s))%nat → take j (log_of s) = take j lg → (j ≤ k)%nat).

(** A leader's match indexes were acknowledged in its term. *)
Definition progress_acked (s : State) : Prop :=
  ∀ l p g, st_leader s = Some l → ld_progress l !! p = Some g →
    pg_match_index g = 0 ∨ acked p (current_term s) (Z.to_nat (pg_match_index g)).

(** The candidate's log is known and not behind [log]. *)
Definition vote_ok (candidate t : Z) (log : list LogEntry) : Prop :=
  ∃ start, C !! (candidate, t) = Some start ∧ up_to_date start log.

(** The messages of other servers say what they stand for. *)
Definition event_ok (e : Event) : Prop :=
  match e with
  | ReceiveRequestVote from q => ∃ start, C !! (from, rv_term q) = Some start ∧
      rv_last_log_index q = Z.of_nat (length start) ∧ rv_last_log_term q = log_term start
  | ReceiveAppendEntries from q => ∃ lg, leader_log L (ae_term q) = Some lg ∧ slice_of lg q ∧
      0 ≤ ae_leader_commit q ≤ Z.of_nat (length lg) ∧
      settled (ae_term q) (Z.to_nat (ae_leader_commit q)) lg
  | ReceiveAppendEntriesResponse from response => ar_succeeded response = true →
      0 ≤ ar_matched_index response ∧
      (ar_matched_index response = 0 ∨
       acked from (ar_term response) (Z.to_nat (ar_matched_index response)))
  | _ => True
  end.

(** There is room for a client's entry. *)
Definition has_room (s : State) (e : Event) : Prop :=
  match e with
  | ReceiveClientCommand _ => 2 * (last_index s + 1) < u64_max
  | _ => True
  end.

(** A server between inputs. *)
Record idle (s : State) : Prop := {
  id_ok : server_ok s;
  id_pending : st_pending_hard_state s = None;
  id_unsnapped : unsnapped s;
  id_several : 2 ≤ majority s;
  id_members : st_node s :: st_peers s ≡ₚ members;
  id_genuine : genuine L (log_of s);
  id_settled : settled (current_term s) (Z.to_nat (st_commit_index s)) (log_of s);
  id_leader : st_role s = role_leader →
    leader_log L (current_term s) = Some (log_of s) ∧ progress_acked s ∧
    ∀ j, solid L (current_term s) j → acked (st_node s) (current_term s) j }.

Record reacted (s s' : State) (es : list Effect) : Prop := {
  rc_log : (log_of s' = log_of s ∧ PersistLog ∉ es) ∨ (log_first es ∧ log_write s s');
  rc_effects : Forall (effect_ok s') es;
  rc_settled : settled (current_term s') (Z.to_nat (st_commit_index s')) (log_of s');
  rc_leader : st_role s' = role_leader →
    (st_role s = role_leader ∨ (st_role s = role_candidate ∧ log_of s' = log_of s)) ∧
    current_term s' = current_term s ∧ progress_acked s';
  rc_candidate : st_role s' = role_candidate → log_of s' = log_of s ∧
    ((st_role s = role_candidate ∧ current_term s' = current_term s) ∨
     (current_term s' = current_term s + 1));
  rc_vote : ∀ c, voted_for s' = Some c → hard_state s' ≠ hard_state s → c ≠ st_node s →
    vote_ok c (current_term s') (log_of s);
  rc_self : voted_for s' = Some (st_node s) → hard_state s' ≠ hard_state s →
    current_term s < current_term s' ∧ ∀ q, PersistHardState q ∈ es → phs_state q = hard_state s';
  rc_first : requests_first es }.

(** Log and commit index are as before. *)
Definition same_entries (s s' : State) : Prop :=
  log_of s' = log_of s ∧ st_commit_index s' = st_commit_index s.

Lemma same_log_entries s s' : same_log s s' → same_entries s s'.
Proof. by intros (_ & ? & ? & _). Qed.

Lemma settled_same s s' :
  settled (current_term s) (Z.to_nat (st_commit_index s)) (log_of s) → same_entries s s' →
  current_term s ≤ current_term s' →
  settled (current_term s') (Z.to_nat (st_commit_index s')) (log_of s').
Proof. intros Hs (-> & ->) Ht. by eapply settled_le. Qed.

(** *** Reactions that leave the log alone *)

(** A server that ends as a follower, in its term or after stepping down. *)
Lemma reacted_follower s s' es :
  idle s → same_entries s s' → st_role s' = role_follower →
  voted_for s' = None ∨ hard_state s' = hard_state s → current_term s ≤ current_term s' →
  PersistLog ∉ es → Forall (effect_ok s') es → requests_first es → reacted s s' es.
Proof.
  intros Hid Hsame Hrole Hv Hterm Hno He Hf. split; try done.
  - left. by destruct Hsame as [-> _].
  - eapply settled_same; [apply Hid|done|lia].
  - congruence.
  - congruence.
  - intros c Hc Hne. destruct Hv; congruence.
  - intros Hc Hne. destruct Hv; congruence.
Qed.

(** A server that stays what it is. *)
Lemma reacted_same s s' es :
  idle s → same_entries s s' → st_role s' = st_role s → hard_state s' = hard_state s →
  (st_role s' = role_leader → progress_acked s') →
  PersistLog ∉ es → Forall (effect_ok s') es → requests_first es → reacted s s' es.
Proof.
  intros Hid Hsame Hrole [= Ht Hv] Hpr Hno He Hf. split; try done.
  - left. by destruct Hsame as [-> _].
  - eapply settled_same; [apply Hid|done|lia].
  - intros Hl. rewrite Hrole in Hl. split; [by left|]. split; [done|]. apply Hpr. congruence.
  - intros Hc. split; [by destruct Hsame as [-> _]|]. left. split; [congruence|done].
  - intros c Hc Hne. destruct Hne. unfold hard_state. congruence.
  - intros Hc Hne. destruct Hne. unfold hard_state. congruence.
Qed.

Lemma reacted_refl s : idle s → reacted s s [].
Proof.
  intros Hid. apply reacted_same; try done.
  - intros Hl. by apply (id_leader s Hid).
  - set_solver.
  - apply requests_first_nil.
Qed.

Lemma observed_effects s es :
  requests_of (current_term s) es →
  requests_first es ∧ Forall (effect_ok s) es ∧ Forall (λ e, ¬ relies_on_log e) es ∧ (PersistLog ∉ es).
Proof.
  unfold requests_of. intros Hes. split_and!.
  - induction Hes as [|e es (q & -> & _) _ (qs & rest & -> & Hno)]; [apply requests_first_nil|].
    by exists (q :: qs), rest.
  - eapply Forall_impl; [done|]. by intros e (q & -> & ?).
  - eapply Forall_impl; [done|]. intros e (q & -> & _). simpl. tauto.
  - rewrite Forall_forall in Hes. intros Hin. by destruct (Hes _ Hin) as (? & ? & _).
Qed.

Lemma observe_reacted s t :
  idle s → owp (observe_higher_term (mkResult s [] []) t)
    (λ r, reacted s (res_state r) (res_effects r)) (λ _, True).
Proof.
  intros Hid. eapply owp_mono; [apply observe_cases| |done].
  intros r _ (Hsame & _ & Hes & [[-> ->]|Hd]); [by apply reacted_refl|].
  destruct (observed_effects _ _ Hes) as (Hf & He & _ & Hno).
  destruct Hd as (Hlt & Ht & Hv & Hr & _).
  apply reacted_follower; try done; [by apply same_log_entries|by left|lia].
Qed.

(** *** Elections *)

Lemma start_election_reacted s rules :
  idle s → st_role s ≠ role_leader →
  owp (start_election (mkResult s rules []))
    (λ r, reacted s (res_state r) (res_effects r)) (λ _, True).
Proof.
  intros Hid Hnl. unfold start_election, persist_hard_state. ostep. ostep; [done|]. cbv zeta. ostep.
  ostep. ostep; [done|]. simpl. set (r3 := foldl _ _ _).
  set (q := mkPersistHardState _ _) in r3.
  set (s1 := with_persistence _ _ _) in r3.
  assert (res_state r3 = s1 ∧ ∃ es, res_effects r3 = PersistHardState q :: ResetElectionTimer :: es ∧
    Forall (λ e, ∃ to, e = SendRequestVote to (mkRequestVote (current_term s1)
      (st_node s1) (last_index s1) (last_term s1))) es) as [Hst (es & Hes & Hall)].
  { unfold r3. apply (foldl_inv (λ x, res_state x = s1 ∧ ∃ es,
      res_effects x = PersistHardState q :: ResetElectionTimer :: es ∧ Forall _ es)).
    - split; [done|]. by exists [].
    - intros x peer [Hx (es & Hes & Hall)]. simpl. rewrite Hx, Hes. split; [done|].
      eexists (es ++ [_]). split; [done|]. apply Forall_app. split; [done|].
      constructor; [by eauto|done]. }
  assert (majority (res_state r3) = majority s) as Hmaj by (rewrite Hst; done).
  pose proof (id_several s Hid). rewrite Hmaj, (proj2 (Z.eqb_neq _ _)) by lia. simpl.
  rewrite Hst, Hes. split.
  - left. split; [done|]. intros [?|[?|Hin]%elem_of_cons]%elem_of_cons; [done..|].
    rewrite Forall_forall in Hall. by destruct (Hall _ Hin).
  - do 2 (constructor; [done|]). eapply Forall_impl; [done|]. by intros e [to ->].
  - eapply settled_le; [apply (id_settled s Hid)|done|]. change (current_term s ≤ current_term s + 1). lia.
  - done.
  - intros _. split; [done|]. by right.
  - intros c Hc _ Hne. destruct Hne. by injection Hc.
  - intros _ _. split; [change (current_term s < current_term s + 1); lia|].
    intros q' [[= ->]|[?|Hin]%elem_of_cons]%elem_of_cons; [done..|].
    rewrite Forall_forall in Hall. by destruct (Hall _ Hin).
  - eexists [_], (ResetElectionTimer :: es). split; [done|]. intros q' [?|Hin]%elem_of_cons; [done|].
    rewrite Forall_forall in Hall. by destruct (Hall _ Hin).
Qed.

(** Requests to all peers, from a leader. *)
Definition appends (s1 : State) (es : list Effect) : Prop :=
  Forall (λ e, ∃ to q ctx, e = SendAppendEntries to q ∧ to ∈ st_peers s1 ∧
    append_request s1 to ctx = Ret q) es.

Lemma sends_appends s1 rules es0 :
  owp (foldM (send_append None) (mkResult s1 rules es0) (st_peers s1))
    (λ r, res_state r = s1 ∧ ∃ es, res_effects r = es0 ++ es ∧ appends s1 es) (λ _, True).
Proof.
  apply (owp_foldM _ (λ _ r, res_state r = s1 ∧ ∃ es, res_effects r = es0 ++ es ∧ appends s1 es)).
  - split; [done|]. exists []. rewrite app_nil_r. split; [done|by constructor].
  - intros pre peer suf r Hpeers (Hs & es & Hes & Hall). unfold send_append. ostep. simpl. rewrite Hs.
    destruct (append_request s1 peer None) as [q|] eqn:Hq; simpl; [|done]. split; [done|].
    exists (es ++ [SendAppendEntries peer q]). rewrite Hes, app_assoc. split; [done|].
    apply Forall_app. split; [done|]. constructor; [|done]. eexists _, _, _. split_and!; [done| |done].
    rewrite Hpeers. set_solver.
Qed.

(** Requests built in [s1] are right in a state with its log and term and a
    commit index not below its own. *)
Lemma appends_ok s1 s' es :
  sendable s1 → appends s1 es → st_role s' = role_leader → log_of s' = log_of s1 →
  current_term s' = current_term s1 → st_commit_index s1 ≤ st_commit_index s' →
  Forall (effect_ok s') es ∧ (PersistLog ∉ es) ∧ ∀ q, PersistHardState q ∉ es.
Proof.
  unfold appends. intros Hsd Hall Hrole Hlog Ht Hc. split.
  - eapply Forall_impl; [done|]. intros e (to & q & ctx & -> & Hin & Hq). split; [done|].
    destruct (append_request_spec _ _ _ _ Hsd Hin Hq) as (Hs & Hqt & Hqc).
    unfold append_of. rewrite Hlog, Ht. split_and!; [done|done|lia|lia].
  - rewrite Forall_forall in Hall.
    split; [intros Hin|intros q Hin]; by destruct (Hall _ Hin) as (? & ? & ? & ? & _).
Qed.

Lemma requests_first_none es : (∀ q, PersistHardState q ∉ es) → requests_first es.
Proof. intros H. by exists [], es. Qed.

Lemma idle_good s : idle s → good s.
Proof. intros Hid. apply (id_ok s Hid). Qed.

Lemma idle_sendable s : idle s → sendable s.
Proof. intros Hid. apply good_sendable; [apply Hid|by apply idle_good]. Qed.

Lemma timeout_reacted s :
  idle s → owp (handle_timeout (mkResult s [] []))
    (λ r, reacted s (res_state r) (res_effects r)) (λ _, True).
Proof.
  intros Hid. unfold handle_timeout. simpl. destruct (st_role s) eqn:Hr.
  - apply start_election_reacted; [done|congruence].
  - apply start_election_reacted; [done|congruence].
  - eapply owp_mono; [apply (sends_appends s)| |done].
    intros r _ (-> & es & -> & Hall).
    destruct (appends_ok s s es) as (He & Hno & Hq); try done; [by apply idle_sendable|].
    apply reacted_same; try done; [by apply (id_leader s Hid)|by apply requests_first_none].
  - simpl. by apply reacted_refl.
Qed.

(** A message more at the end. *)
Lemma reacted_push s s' es e :
  reacted s s' es → effect_ok s' e → e ≠ PersistLog → (∀ q, e ≠ PersistHardState q) →
  reacted s s' (es ++ [e]).
Proof.
  intros [] He Hl Hq. split; try done.
  - destruct rc_log0 as [[? Hno]|[(pre & post & -> & Hpre & Hn1 & Hn2) ?]]; [left|right].
    + split; [done|]. set_solver.
    + split; [|done]. exists pre, (post ++ [e]). rewrite <-app_assoc. split_and!; try done. set_solver.
  - apply Forall_app. split; [done|]. by constructor.
  - intros Hc Hne. destruct (rc_self0 Hc Hne) as [? Hall]. split; [done|].
    intros q [Hin|Hin%list_elem_of_singleton]%elem_of_app; [by apply Hall|by destruct (Hq q)].
  - by apply requests_first_snoc.
Qed.

Lemma apply_reacted s :
  idle s → owp (handle_apply (mkResult s [] []))
    (λ r, reacted s (res_state r) (res_effects r)) (λ _, True).
Proof.
  intros Hid. unfold handle_apply. cbv zeta. simpl. destruct (_ <=? _); [by apply reacted_refl|].
  ostep. destruct (log_at _ _) as [entry|]; simpl; [|done].
  assert (∀ s' es, log_of s' = log_of s → st_commit_index s' = st_commit_index s →
    st_role s' = st_role s → hard_state s' = hard_state s →
    (∀ l', st_leader s' = Some l' → ∃ l, st_leader s = Some l ∧ ld_progress l' = ld_progress l) →
    (es = [ApplyCommand (st_last_applied s + 1) (en_command entry)] ∨
     es = [ApplyCommand (st_last_applied s + 1) (en_command entry);
           CompleteClientCommand (st_last_applied s + 1)]) →
    reacted s s' es) as Hdone.
  { intros s' es Hlog Hc Hr Hh Hl Hes. apply reacted_same; try done.
    - intros Hlead l p g Hl' Hpg. destruct (Hl l Hl') as (l0 & Hl0 & Hp). rewrite Hp in Hpg.
      assert (current_term s' = current_term s) as -> by by injection Hh.
      rewrite Hr in Hlead.
      destruct (id_leader s Hid Hlead) as (_ & Hpa & _). by eapply Hpa.
    - destruct Hes as [->| ->]; set_solver.
    - destruct Hes as [->| ->]; by repeat constructor.
    - apply requests_first_none. intros q. destruct Hes as [->| ->]; set_solver. }
  destruct (st_leader s) as [l|] eqn:Hl; [|apply Hdone; auto; simpl; congruence].
  case_bool_decide; simpl; apply Hdone; auto; simpl; try (by intros ? [= <-]; eauto).
  intros l' Hl'. rewrite Hl in Hl'. eauto.
Qed.

(** *** Votes *)

Lemma fresh_up_to_date s s1 start q :
  idle s → same_log s s1 →
  rv_last_log_index q = Z.of_nat (length start) → rv_last_log_term q = log_term start →
  is_log_at_least_as_up_to_date s1 (rv_last_log_term q) (rv_last_log_index q) = true →
  up_to_date start (log_of s).
Proof.
  intros Hid Hsame Hi Ht. pose proof (same_log_base _ _ Hsame) as Hb.
  destruct Hsame as (Esn & Elog & _). unfold is_log_at_least_as_up_to_date, up_to_date.
  assert (last_term s1 = log_term (log_of s)) as ->.
  { rewrite <-Elog. apply unsnapped_last_term. unfold unsnapped. rewrite Esn. apply Hid. }
  assert (last_index s1 = Z.of_nat (length (log_of s))) as ->.
  { unfold last_index. rewrite Elog, Hb. fold (last_index s).
    apply unsnapped_last_index; [apply Hid|by apply idle_good]. }
  rewrite Hi, Ht. lia.
Qed.

(** A granted vote, on top of what observing the term did. *)
Lemma granted_reacted s s1 es1 s' es' c :
  idle s → reacted s s1 es1 → same_log s s1 → requests_of (current_term s1) es1 → c ≠ st_node s →
  vote_ok c (current_term s') (log_of s) → voted_for s' = Some c →
  same_entries s1 s' → st_role s' = st_role s1 → st_leader s' = st_leader s1 →
  current_term s' = current_term s1 →
  es' = es1 ∨ (∃ q, es' = es1 ++ [PersistHardState q] ∧
    hs_current_term (phs_state q) = current_term s1) → reacted s s' es'.
Proof.
  intros Hid [] Hsame Hes1 Hcs Hvote Hv [Hlog Hcom] Hr Hl Ht Hes.
  assert (requests_of (current_term s') es') as Hes'.
  { rewrite Ht. destruct Hes as [->|(q & -> & Hq)]; [done|]. apply Forall_app. split; [done|].
    constructor; [by eauto|done]. }
  pose proof Hsame as (_ & Hlog1 & Hcom1 & _).
  destruct (observed_effects _ _ Hes') as (Hf & He & _ & Hno). split; try done.
  - left. split; [congruence|done].
  - by rewrite Hlog, Hcom, Ht.
  - rewrite Hr, Ht, Hlog. intros Hlead. destruct (rc_leader0 Hlead) as (? & ? & Hp). split_and!; try done.
    intros l p g Hl' Hpg. rewrite Ht. apply (Hp l p g); [congruence|done].
  - rewrite Hr, Ht, Hlog. done.
  - intros c' Hc' _ _. by simplify_eq.
  - congruence.
Qed.

Lemma request_vote_reacted s from q :
  idle s → event_ok (ReceiveRequestVote from q) →
  owp (handle_request_vote (mkResult s [] []) from q)
    (λ r, reacted s (res_state r) (res_effects r)) (λ _, True).
Proof.
  intros Hid (start & HC & Hi & Hlt). unfold handle_request_vote.
  ostep. unfold ensure_peer. apply owp_throw_when; [done|intros Hpeer%negb_false_iff%bool_decide_eq_true].
  simpl in Hpeer. ostep.
  apply owp_throw_when; [done|intros Hcand%negb_false_iff%Z.eqb_eq].
  ostep. eapply owp_mono; [apply observe_cases| |done]. intros r1 Hobs (Hsame & Hle & Hes & Hcase).
  pose proof (observe_reacted s (rv_term q) Hid) as Hre. rewrite Hobs in Hre. simpl in Hre. clear Hobs.
  cbv zeta. destruct (Z.ltb_spec (rv_term q) (current_term (res_state r1))) as [Hst|Hge].
  { simpl. by apply reacted_push. }
  destruct (_ && _) eqn:Hgrant; [|simpl; by apply reacted_push].
  apply andb_true_iff in Hgrant as [_ Hfresh]. rewrite Hcand.
  assert (current_term (res_state r1) = rv_term q) as Hterm by lia.
  assert (vote_ok from (current_term (res_state r1)) (log_of s)) as Hvote.
  { rewrite Hterm. exists start. split; [done|]. by eapply fresh_up_to_date. }
  assert (from ≠ st_node s) as Hfrom.
  { intros ->. by apply (ok_self _ (gd_ok _ (idle_good s Hid))). }
  ostep. case_bool_decide; simpl; [do 2 (apply reacted_push; [|done..])|].
  - eapply granted_reacted; [done|exact Hre|done|done|done|exact Hvote|done..|]. by left.
  - unfold persist_hard_state. ostep. ostep; [done|]. simpl. do 2 (apply reacted_push; [|done..]).
    eapply granted_reacted; [done|exact Hre|done|done|done|exact Hvote|done..|].
    right. by eexists.
Qed.

Lemma vote_response_reacted s from q :
  idle s →
  owp (handle_request_vote_response (mkResult s [] []) from q)
    (λ r, good (res_state r) → reacted s (res_state r) (res_effects r)) (λ _, True).
Proof.
  intros Hid. unfold handle_request_vote_response.
  ostep. unfold ensure_peer. apply owp_throw_when; [done|intros _].
  ostep. eapply owp_mono; [apply observe_cases| |done]. intros r1 Hobs (Hsame & Hle & _ & Hcase).
  pose proof (observe_reacted s (vr_term q) Hid) as Hre. rewrite Hobs in Hre. simpl in Hre. clear Hobs.
  cbv zeta. case_bool_decide as Hrole; simpl; [|intros _; exact Hre].
  destruct (_ || _); [intros _; exact Hre|].
  destruct Hcase as [[Hst Hes]|(_ & _ & _ & Hr & _)]; [|congruence].
  rewrite Hst in *. destruct r1 as [s1 rules es1]. simpl in *. subst s1 es1.
  set (s2 := with_role s _ _ _ _). destruct (majority s2 <=? _).
  - unfold initialize_leader. ostep. ostep; [done|]. cbv zeta. simpl.
    set (s3 := with_role s2 role_leader _ _ _).
    eapply owp_mono; [apply (sends_appends s3)| |done].
    intros r _ (-> & es & -> & Hall) Hg.
    destruct (appends_ok s3 s3 es) as (He & Hno & Hq); try done.
    { apply good_sendable; [apply Hid|done]. }
    split; try done.
    + by left.
    + apply (id_settled s Hid).
    + intros _. split; [by right|]. split; [done|]. intros l p g [= <-] Hpg. left. simpl in Hpg.
      rewrite emplace_all in Hpg by apply (idle_good s Hid).
      apply elem_of_list_to_map_2, list_elem_of_fmap in Hpg as (p' & [= _ ->] & _). done.
    + by apply requests_first_none.
  - simpl. intros _. apply reacted_same; try done; [simpl; congruence|set_solver|].
    apply requests_first_nil.
Qed.

(** *** Append requests *)

(** The end of an accepted append request, in a follower [s2] whose log is now
    [log_of (res_state r)] and shares the first [k] entries with the leader. *)
Lemma finish_append_reacted s r from q (changed : bool) lg k :
  idle s → st_role (res_state r) = role_follower →
  voted_for (res_state r) = None ∨ hard_state (res_state r) = hard_state s →
  0 ≤ ae_previous_log_index q →
  k = (Z.to_nat (ae_previous_log_index q) + length (ae_entries q))%nat →
  Z.of_nat k < u64_max → (k ≤ length lg)%nat →
  leader_log L (ae_term q) = Some lg → current_term (res_state r) = ae_term q →
  take k (log_of (res_state r)) = take k lg →
  0 ≤ st_commit_index (res_state r) → 0 ≤ ae_leader_commit q →
  settled (ae_term q) (Z.to_nat (ae_leader_commit q)) lg →
  settled (ae_term q) (Z.to_nat (st_commit_index (res_state r))) (log_of (res_state r)) →
  requests_first (res_effects r) → Forall (effect_ok (res_state r)) (res_effects r) →
  Forall (λ e, ¬ relies_on_log e) (res_effects r) → (PersistLog ∉ res_effects r) →
  (if changed then log_write s (res_state r) else log_of (res_state r) = log_of s) →
  reacted s (res_state (finish_append r from q changed)) (res_effects (finish_append r from q changed)).
Proof.
  intros Hid Hrole Hv H0 Hk Hfit Hkl HL Ht Hshare Hc0 Hlc0 Hlc Hc Hf He Hrel Hno Hch.
  unfold finish_append, append_reply. cbv zeta.
  assert (u64 (ae_previous_log_index q + Z.of_nat (length (ae_entries q))) = Z.of_nat k) as ->
    by (rewrite u64_small; lia).
  set (r2 := if changed then _ else _).
  assert (res_state r2 = res_state r ∧ res_effects r2 = res_effects r ++
    (if changed then [PersistLog] else [])) as [Hst2 Hes2].
  { unfold r2. destruct changed; [done|]. by rewrite app_nil_r. }
  set (r3 := if _ <? ae_leader_commit q then _ else _).
  assert (res_effects r3 = res_effects r2 ∧ log_of (res_state r3) = log_of (res_state r) ∧
    st_role (res_state r3) = role_follower ∧ hard_state (res_state r3) = hard_state (res_state r) ∧
    settled (ae_term q) (Z.to_nat (st_commit_index (res_state r3))) (log_of (res_state r)))
    as (Hes3 & Hlog3 & Hrole3 & Hh3 & Hset3).
  { unfold r3. rewrite Hst2.
    destruct (Z.ltb_spec (st_commit_index (res_state r)) (ae_leader_commit q)); [|by rewrite Hst2].
    destruct (Z.ltb_spec (st_commit_index (res_state r)) (Z.min (ae_leader_commit q) (Z.of_nat k)));
      [|by rewrite Hst2].
    split_and!; try done. simpl. eapply settled_take.
    - apply (settled_le _ _ _ _ _ Hlc); lia.
    - apply (take_eq_le _ _ _ _ Hshare). lia. }
  assert (current_term (res_state r3) = current_term (res_state r)) as Ht3 by by injection Hh3.
  assert (voted_for (res_state r3) = voted_for (res_state r)) as Hv3 by by injection Hh3.
  cbn [res_state res_effects push_effect]. rewrite Hes3, Hes2. split.
  - rewrite Hlog3. destruct changed; [right|left].
    + split; [|].
      * exists (res_effects r), [SendAppendEntriesResponse from (mkAppendResponse
          (current_term (res_state r3)) true (Z.of_nat k) (ae_read_context q))].
        rewrite <-app_assoc. split_and!; try done. set_solver.
      * destruct Hch as [(_ & Hl & _)|[_ Hch]]; [congruence|]. right. by rewrite Hlog3, Ht3.
    + split; [done|]. rewrite app_nil_r. set_solver.
  - rewrite !Forall_app. split_and!.
    + rewrite Forall_forall in He, Hrel. apply Forall_forall. intros e Hin.
      specialize (He e Hin). specialize (Hrel e Hin). destruct e; try done; simpl in *; [congruence|].
      destruct He as (Hc' & _). congruence.
    + destruct changed; by repeat constructor.
    + constructor; [|done]. simpl. intros _. rewrite Ht3, Ht, Hlog3. split; [done|]. split; [lia|].
      rewrite Nat2Z.id. exists lg. done.
  - by rewrite Hlog3, Ht3, Ht.
  - congruence.
  - congruence.
  - rewrite Hv3, Hh3. intros c Hc' Hne. destruct Hv; congruence.
  - rewrite Hv3, Hh3. intros Hc' Hne. destruct Hv; congruence.
  - destruct changed; [|rewrite app_nil_r]; repeat (apply requests_first_snoc; [|done]); done.
Qed.

Context (Hwf : leaders_wf L).
Context (Hroom : ∀ t lg, leader_log L t = Some lg → 2 * Z.of_nat (length lg) < u64_max).

Lemma observe_idle s t r :
  idle s → observe_higher_term (mkResult s [] []) t = Ret r →
  good (res_state r) ∧ same_log s (res_state r) ∧ t ≤ current_term (res_state r) ∧
  reacted s (res_state r) (res_effects r) ∧
  requests_of (current_term (res_state r)) (res_effects r) ∧
  ((res_state r = s ∧ res_effects r = []) ∨ stepped_down s (res_state r) t).
Proof.
  intros Hid Hobs. pose proof (observe_cases s t) as H1. pose proof (observe_reacted s t Hid) as H2.
  pose proof (observe_good (mkResult s [] []) t (idle_good s Hid)) as H3.
  rewrite Hobs in H1, H2, H3. destruct H1 as (Hsame & Hle & Hes & Hcase), H3 as [Hg _].
  by split_and!.
Qed.

(** The log of a follower after a merge that was not refused. *)
Lemma merged_reacted s s2 r from q lg point pre rest rules es :
  idle s → good s2 → same_log s s2 → st_role s2 = role_follower → st_leader s2 = None →
  voted_for s2 = None ∨ hard_state s2 = hard_state s → current_term s ≤ current_term s2 →
  event_ok (ReceiveAppendEntries from q) → leader_log L (ae_term q) = Some lg →
  current_term s2 = ae_term q → previous_matches s2 q →
  contiguous (ae_previous_log_index q) (ae_entries q) →
  merge_ok s2 (ae_previous_log_index q) (ae_entries q) (merged_log s2 point) pre rest →
  scan_entries s2 (ae_entries q) = Ret point → point ≠ merge_refuse →
  match point with merge_from r | merge_truncate _ r => r = rest | merge_refuse => True end →
  requests_of (current_term s2) es →
  r = mkResult (with_log s2 (merged_log s2 point)) rules (es ++ [ResetElectionTimer]) →
  let changed := match point with merge_from [] => false | _ => true end in
  reacted s (res_state (finish_append r from q changed)) (res_effects (finish_append r from q changed)).
Proof.
  intros Hid Hg Hsame Hrole Hlead Hv Hmono (lg' & HL' & Hslice & Hlc & Hset) HL Ht Hprev Hcont Hm Hscan Hnr
    Hpt Hes -> changed.
  rewrite HL' in HL. injection HL as ->.
  pose proof (unsnapped_same_log s s2 (id_unsnapped s Hid) Hsame) as Hu.
  pose proof (Hwf _ _ HL') as Hlwf. pose proof (Hroom _ _ HL') as Hbig.
  pose proof Hsame as (_ & Elog & Ecom & _).
  assert (genuine L (log_of s2)) as Hgen by (rewrite Elog; apply Hid).
  destruct (observed_effects s2 es Hes) as (Hf & He & Hrel & Hno).
  assert (0 ≤ st_commit_index s2) as Hc0 by (by apply sd_commit, good_sendable).
  pose proof (merge_slice L s2 q lg Hu Hg Hgen (lw_genuine _ _ _ Hlwf) (lw_contiguous _ _ _ Hlwf) Hslice
    Hprev _ pre rest Hm point eq_refl Hscan Hnr Hpt) as Hmerge.
  set (k := (Z.to_nat (ae_previous_log_index q) + length (ae_entries q))%nat) in *.
  pose proof (sl_previous _ _ Hslice). pose proof (sl_end _ _ Hslice).
  assert (settled (ae_term q) (Z.to_nat (st_commit_index s2)) (merged_log s2 point)) as Hset2.
  { rewrite <-Ht. eapply settled_take; [by eapply settled_same; [apply Hid|apply same_log_entries|]|].
    apply list_eq. intros i. destruct (decide (i < Z.to_nat (st_commit_index s2))%nat).
    - rewrite !lookup_take_lt by done.
      pose proof (merge_keeps_committed _ _ _ _ _ _ Hm (Z.of_nat i + 1)) as Hk.
      rewrite unsnapped_base in Hk by done. specialize (Hk ltac:(lia)).
      by replace (Z.to_nat (Z.of_nat i + 1 - 0 - 1)) with i in Hk by lia.
    - rewrite !lookup_take_ge by lia. done. }
  apply (finish_append_reacted s _ from q changed lg k); try done; simpl; try lia.
  - change (log_of (with_log s2 ?l)) with l. destruct Hmerge as [[-> Hshare]|[-> _]].
    + simpl. by rewrite app_nil_r.
    + rewrite take_take, Nat.min_id. done.
  - by apply requests_first_snoc.
  - apply Forall_app. split; [|by repeat constructor].
    apply (observed_effects (with_log s2 (merged_log s2 point)) es Hes).
  - apply Forall_app. split; [done|]. repeat constructor. simpl. tauto.
  - set_solver.
  - destruct Hmerge as [[-> _]|[Heq Hmax]]; simpl; [by rewrite app_nil_r|].
    destruct point as [[|e rest']|index rest'|]; [simpl; by rewrite app_nil_r| | |done].
    all: right; split; [done|]; exists lg, k.
    all: change (current_term (with_log s2 ?l)) with (current_term s2).
    all: change (log_of (with_log s2 ?l)) with l.
    all: rewrite Ht, <-Elog; split_and!; [done|lia|done|done].
Qed.

(** A server that takes [from] for the leader of the term [t] it observed. *)
Lemma follow_leader s from t r1 :
  let s2 := with_role (res_state r1) role_follower (Some from) ∅ None in
  idle s → observe_higher_term (mkResult s [] []) t = Ret r1 → current_term (res_state r1) ≤ t →
  good s2 ∧ same_log s s2 ∧ current_term s2 = t ∧ current_term s ≤ current_term s2 ∧
  (voted_for s2 = None ∨ hard_state s2 = hard_state s) ∧ requests_of (current_term s2) (res_effects r1) ∧
  reacted s s2 (res_effects r1 ++ [ResetElectionTimer]).
Proof.
  intros s2 Hid Hobs Hge.
  destruct (observe_idle _ _ _ Hid Hobs) as (Hg1 & Hsame1 & Hle & Hre & Hes & Hcase).
  assert (good s2) as Hg2 by (apply good_role; [done..|set_solver]).
  assert (voted_for s2 = None ∨ hard_state s2 = hard_state s) as Hv2.
  { change (voted_for s2) with (voted_for (res_state r1)).
    change (hard_state s2) with (hard_state (res_state r1)).
    destruct Hcase as [[-> _]|(_ & _ & Hv & _)]; [by right|by left]. }
  assert (current_term s ≤ current_term s2) as Hmono.
  { change (current_term s2) with (current_term (res_state r1)).
    destruct Hcase as [[-> _]|(? & ? & _)]; lia. }
  assert (requests_of (current_term s2) (res_effects r1)) as Hes' by done.
  destruct (observed_effects s2 _ Hes') as (Hf & He & Hrel & Hno).
  split_and!; try done; [change (current_term s2) with (current_term (res_state r1)); lia|].
  apply reacted_follower; try done.
  - by apply same_log_entries.
  - set_solver.
  - apply Forall_app. split; [done|by repeat constructor].
  - by apply requests_first_snoc.
Qed.

Lemma append_entries_reacted s from q :
  idle s → event_ok (ReceiveAppendEntries from q) →
  owp (handle_append_entries (mkResult s [] []) from q)
    (λ r, reacted s (res_state r) (res_effects r)) (λ _, True).
Proof.
  intros Hid Hev. unfold handle_append_entries.
  ostep. unfold ensure_peer. apply owp_throw_when; [done|intros _].
  ostep. apply owp_throw_when; [done|intros _]. cbv zeta. ostep.
  destruct (observe_higher_term _ _) as [r1|] eqn:Hobs; simpl; [|done].
  destruct (observe_idle _ _ _ Hid Hobs) as (Hg1 & Hsame1 & Hle & Hre & Hes & Hcase).
  destruct (Z.ltb_spec (ae_term q) (current_term (res_state r1))) as [Hst|Hge].
  { simpl. by apply reacted_push. }
  set (r2 := if bool_decide _ then _ else _).
  assert (res_state r2 = res_state r1 ∧ res_effects r2 = res_effects r1) as [Hst2 Hes2].
  { unfold r2. by case_bool_decide. }
  set (s2 := with_role (res_state r2) role_follower (Some from) ∅ None).
  set (r3 := push_effect (set_state r2 s2) ResetElectionTimer).
  assert (s2 = with_role (res_state r1) role_follower (Some from) ∅ None) as Hs2
    by (unfold s2; by rewrite Hst2).
  destruct (follow_leader s from (ae_term q) r1 Hid Hobs Hge)
    as (Hg2 & Hsame2 & Ht2 & Hmono & Hv2 & Hes' & Hre3). rewrite <-Hs2 in *.
  rewrite <-Hes2 in Hre3. destruct (observed_effects s2 _ Hes') as (Hf & He & Hrel & Hno).
  assert (reacted s s2 (res_effects r3 ++ [SendAppendEntriesResponse from
    (mkAppendResponse (current_term s2) false 0 (ae_read_context q))])) as Hrefuse.
  { by apply reacted_push. }
  pose proof Hev as (lg & HL & Hslice & _ & _).
  pose proof (unsnapped_same_log s s2 (id_unsnapped s Hid) Hsame2) as Hu.
  ostep. destruct (_ && _) eqn:Hrange; [|simpl; exact Hrefuse].
  apply andb_true_iff in Hrange as [Hb1%Z.leb_le Hb2%Z.leb_le].
  destruct (term_at s2 (ae_previous_log_index q)) as [t|] eqn:Hta; simpl; [|done].
  destruct (Z.eqb_spec t (ae_previous_log_term q)) as [->|]; simpl; [|exact Hrefuse].
  ostep. destruct (foldM check_contiguous _ _) as [e0|]; simpl; [|done].
  assert (contiguous (ae_previous_log_index q) (ae_entries q)) as Hcont.
  { eapply slice_contiguous; [done|]. apply (Hwf _ _ HL). }
  ostep. eapply owp_mono; [apply (scan_entries_spec s2 (ae_previous_log_index q));
    [apply Hg2|apply Hg2|apply Hg2|lia|done]| |done].
  intros point Hscan [->|(pre & rest & Hm & Hpt)]; [simpl; exact Hrefuse|].
  assert (point = merge_refuse ∨ point ≠ merge_refuse) as [->|Hnr] by (destruct point; auto);
    [simpl; exact Hrefuse|].
  assert (∀ r, r = mkResult (with_log s2 (merged_log s2 point)) (res_rules r3) (res_effects r3) →
    reacted s (res_state (finish_append r from q match point with merge_from [] => false | _ => true end))
      (res_effects (finish_append r from q match point with merge_from [] => false | _ => true end)))
    as Hfin.
  { intros r Hr. eapply (merged_reacted s s2 r from q lg point pre rest); try done.
    unfold r3 in Hr. simpl in Hr. rewrite Hes2 in Hr. exact Hr. }
  destruct point as [[|e rest']|index rest'|]; [|apply Hfin; reflexivity..|done].
  apply Hfin. unfold r3. simpl. rewrite app_nil_r. f_equal. by destruct s2 as [? ? ? []].
Qed.

(** *** Commit advancement of a leader *)

Context (Hdown : ∀ v t j j', acked v t j → (j' ≤ j)%nat → acked v t j').

(** The servers a leader counts for an index. *)
Lemma replicated_majority s s1 l t c :
  idle s → st_peers s1 = st_peers s → current_term s1 = t → st_leader s1 = Some l →
  dom (ld_progress l) ⊆ list_to_set (st_peers s) → progress_acked s1 → 0 < c →
  acked (st_node s) t (Z.to_nat c) → majority s ≤ replicated l c →
  ∃ Q, majority_of members Q ∧ ∀ v, v ∈ Q → acked v t (Z.to_nat c).
Proof.
  intros Hid Hp Ht Hl Hdom Hpr Hc Hself Hmaj.
  set (D := dom (filter (λ e : Z * PeerProgress, c ≤ pg_match_index e.2) (ld_progress l)) : gset Z).
  assert (∀ p, p ∈ D → acked p t (Z.to_nat c) ∧ p ∈ st_peers s) as HD.
  { intros p [g Hg]%elem_of_dom. apply map_lookup_filter_Some in Hg as [Hg Hle]. simpl in Hle. split.
    - destruct (Hpr l p g Hl Hg) as [?|Ha]; [lia|]. rewrite Ht in Ha. eapply Hdown; [done|lia].
    - apply elem_of_dom_2, Hdom, elem_of_list_to_set in Hg. done. }
  pose proof (ok_self _ (gd_ok _ (idle_good s Hid))) as Hself'.
  exists ({[st_node s]} ∪ D). split.
  - split.
    + intros v. rewrite elem_of_list_to_set, <-(id_members s Hid). set_solver.
    + rewrite size_union, size_singleton by set_solver. unfold D. rewrite size_dom.
      unfold replicated in Hmaj. unfold majority in Hmaj.
      rewrite <-(id_members s Hid). simpl length.
      pose proof (Z.div_mod (Z.of_nat (length (st_peers s)) + 1) 2 ltac:(lia)).
      pose proof (Z.mod_pos_bound (Z.of_nat (length (st_peers s)) + 1) 2 ltac:(lia)). lia.
  - intros v [->%elem_of_singleton|Hv]%elem_of_union; [done|by apply HD].
Qed.

(** An index a leader finds committable, within the part of its log that is the
    leader's log of its term. *)
Lemma committable_settled s s1 l c lg :
  idle s → st_role s = role_leader → st_peers s1 = st_peers s →
  current_term s1 = current_term s → st_leader s1 = Some l → unsnapped s1 →
  dom (ld_progress l) ⊆ list_to_set (st_peers s) → progress_acked s1 →
  leader_log L (current_term s) = Some lg → lg `prefix_of` log_of s1 →
  0 < c ≤ Z.of_nat (length lg) → committable s1 l c →
  settled (current_term s1) (Z.to_nat c) (log_of s1).
Proof.
  intros Hid Hrole Hp Ht Hl Hu Hdom Hpr HL [ext Hpre] Hc [Hterm Hmaj].
  destruct (unsnapped_term_at s1 c _ Hu ltac:(lia) Hterm) as (e & He & Hte).
  rewrite Hpre, lookup_app_l in He by lia.
  assert (solid L (current_term s) (Z.to_nat c)) as Hsolid.
  { exists lg, (Z.to_nat (c - 1)), e. split_and!; [done|lia|done|congruence]. }
  right. exists (current_term s), (Z.to_nat c), lg. split_and!; [lia| |done|lia|].
  - split; [done|]. eapply (replicated_majority s s1 l); try done; [lia| |].
    + by apply (id_leader s Hid Hrole).
    + unfold majority in *. by rewrite <-Hp.
  - rewrite Hpre. apply take_app_le. lia.
Qed.

(** The domain of a leader's progress. *)
Lemma progress_peers s l :
  good s → st_leader s = Some l → dom (ld_progress l) ⊆@{gset Z} list_to_set (st_peers s).
Proof.
  intros Hg Hl. destruct (ok_leader _ (gd_ok _ Hg) _ Hl) as [Hsz Hp _].
  assert (list_to_set (st_peers s) ⊆@{gset Z} dom (ld_progress l)) as Hsub.
  { intros p Hin%elem_of_list_to_set. destruct (Hp p Hin) as (g & Hg' & _). by apply elem_of_dom_2 in Hg'. }
  apply set_subseteq_size_eq in Hsub; [set_solver|].
  rewrite size_dom, Hsz, size_list_to_set by apply Hg. done.
Qed.

Lemma advance_reacted s s1 rules es l lg :
  idle s → st_role s = role_leader → st_role s1 = role_leader → st_peers s1 = st_peers s →
  current_term s1 = current_term s → st_leader s1 = Some l → unsnapped s1 →
  dom (ld_progress l) ⊆ list_to_set (st_peers s) → progress_acked s1 →
  leader_log L (current_term s) = Some lg → lg `prefix_of` log_of s1 →
  0 ≤ st_commit_index s1 →
  settled (current_term s1) (Z.to_nat (st_commit_index s1)) (log_of s1) →
  (∀ c, Z.of_nat (length lg) < c ≤ last_index s1 → ¬ committable s1 l c) →
  owp (advance_leader_commit (mkResult s1 rules es))
    (λ r, res_effects r = es ∧ st_commit_index s1 ≤ st_commit_index (res_state r) ∧
       (∃ c, res_state r = with_indexes s1 c (st_last_applied s1)) ∧
       settled (current_term (res_state r)) (Z.to_nat (st_commit_index (res_state r)))
         (log_of (res_state r))) (λ _, True).
Proof.
  intros Hid Hrole Hrole1 Hp Ht Hl Hu Hdom Hpr HL Hpre Hc0 Hset Hno.
  unfold advance_leader_commit. simpl. rewrite Hl. ostep.
  eapply owp_mono; [apply commit_candidate_spec| |done]. intros [c|] _ Hc; simpl.
  - destruct Hc as (Hc & Hcom & _).
    assert (c ≤ Z.of_nat (length lg)) as Hle.
    { destruct (Z.le_gt_cases c (Z.of_nat (length lg))); [done|]. exfalso. by apply (Hno c); [lia|]. }
    split_and!; [done|lia|by eexists|].
    by apply (committable_settled s s1 l c lg); try done; lia.
  - split_and!; [done|lia| |done]. exists (st_commit_index s1). by destruct s1.
Qed.

(** Progress with one peer's indexes replaced. *)
Lemma progress_insert s l from g ids :
  progress_acked s → st_leader s = Some l →
  (pg_match_index g = 0 ∨ acked from (current_term s) (Z.to_nat (pg_match_index g))) →
  progress_acked (with_leader s (Some (mkLeaderState (<[from := g]> (ld_progress l)) ids))).
Proof.
  intros Hpr Hl Hg l' p g' [= <-]. simpl. intros [[<- <-]|[_ Hlk]]%lookup_insert_Some; [done|].
  by apply (Hpr l p g').
Qed.

Lemma append_response_reacted s from q :
  idle s → event_ok (ReceiveAppendEntriesResponse from q) →
  owp (handle_append_entries_response (mkResult s [] []) from q)
    (λ r, good (res_state r) → reacted s (res_state r) (res_effects r)) (λ _, True).
Proof.
  intros Hid Hev. unfold handle_append_entries_response.
  ostep. unfold ensure_peer.
  apply owp_throw_when; [done|intros Hpeer%negb_false_iff%bool_decide_eq_true]. simpl in Hpeer. ostep.
  destruct (observe_higher_term _ _) as [r1|] eqn:Hobs; simpl; [|done].
  destruct (observe_idle _ _ _ Hid Hobs) as (Hg1 & Hsame1 & Hle & Hre & Hes & Hcase).
  case_bool_decide as Hrole; simpl; [|intros _; exact Hre].
  destruct (Z.eqb_spec (ar_term q) (current_term (res_state r1))) as [Hterm|]; simpl;
    [|intros _; exact Hre].
  destruct Hcase as [[Hst Hes1]|Hd]; [|destruct Hd as (_ & _ & _ & Hr & _); congruence].
  destruct r1 as [s1 rules es1]. simpl in *. subst s1 es1.
  destruct (st_leader s) as [l|] eqn:Hl; [|done].
  destruct (ld_progress l !! from) as [g|] eqn:Hpg; [|done].
  destruct (id_leader s Hid Hrole) as (HL & Hpr & Hown). pose proof (idle_good s Hid) as Hg.
  pose proof (fit_match _ (gd_fits _ Hg) _ _ _ Hl Hpg) as Hm0.
  destruct (ar_succeeded q) eqn:Hok; cbv zeta.
  - destruct (Hev eq_refl) as [Hq0 Hack]. ostep. apply owp_throw_when; [done|intros _].
    set (g' := mkProgress _ _). set (l2 := mkLeaderState _ _).
    set (s2 := with_leader s _). assert (progress_acked s2) as Hpr2.
    { apply progress_insert; [done|done|]. simpl. rewrite Hterm in Hack.
      destruct (Z.max_spec (pg_match_index g) (ar_matched_index q)) as [[_ ->]|[_ ->]]; [done|].
      by apply (Hpr l from). }
    eapply owp_mono; [apply (advance_reacted s s2 _ [] l2 (log_of s)); try done| |done].
    + apply Hid.
    + simpl. rewrite dom_insert_L. pose proof (progress_peers s l Hg Hl). set_solver.
    + exact (sd_commit s (idle_sendable s Hid)).
    + apply Hid.
    + change (last_index s2) with (last_index s).
      rewrite (unsnapped_last_index s (id_unsnapped s Hid) Hg). lia.
    + intros r _ (-> & Hc & (c & Hst) & Hset) _. rewrite Hst in *. split; try done.
      * left. split; [done|]. set_solver.
      * intros _. split; [by left|]. done.
      * simpl in *. congruence.
      * apply requests_first_nil.
  - unfold send_append. ostep. simpl. set (g' := mkProgress _ _). set (s2 := with_leader s _).
    destruct (append_request s2 from (ar_read_context q)) as [q'|] eqn:Hq; simpl; [|done].
    intros Hg2. assert (sendable s2) as Hsd by (apply good_sendable; [apply Hid|done]).
    apply reacted_same; try done.
    + intros _. apply progress_insert; [done|done|]. simpl. by apply (Hpr l from).
    + set_solver.
    + constructor; [|done]. split; [done|]. by eapply append_request_spec.
    + apply requests_first_none. set_solver.
Qed.

(** No peer of a leader has acknowledged an entry beyond the leader's log. *)
Lemma unreplicated s l l' c :
  idle s → st_leader s = Some l → ld_progress l' = ld_progress l → last_index s < c →
  ¬ majority s <= replicated l' c.
Proof.
  intros Hid Hl Hp Hc Hmaj. pose proof (idle_good s Hid) as Hg. pose proof (id_several s Hid) as H2.
  unfold replicated in Hmaj. rewrite Hp in Hmaj.
  assert (filter (λ e : Z * PeerProgress, c ≤ pg_match_index e.2) (ld_progress l) = ∅) as Hempty.
  { apply map_empty. intros p. apply map_lookup_filter_None. right. intros g Hpg. simpl.
    pose proof (progress_peers s l Hg Hl) as Hd.
    apply elem_of_dom_2 in Hpg as Hin. apply Hd, elem_of_list_to_set in Hin.
    destruct (lk_progress _ _ _ (ok_leader _ (gd_ok _ Hg) _ Hl) p Hin) as (g' & Hpg' & [_ [Hm _]]).
    simplify_eq. lia. }
  rewrite Hempty, map_size_empty in Hmaj. lia.
Qed.

Lemma client_reacted s c :
  idle s → has_room s (ReceiveClientCommand c) → owp (handle_client (mkResult s [] []) c)
    (λ r, good (res_state r) → reacted s (res_state r) (res_effects r)) (λ _, True).
Proof.
  intros Hid Hbig. simpl in Hbig. unfold handle_client. simpl. case_bool_decide as Hrole; simpl;
    [|intros _; by apply reacted_refl].
  ostep. apply owp_throw_when; [done|intros _]. destruct (st_leader s) as [l|] eqn:Hl; [|done].
  cbv zeta. ostep. set (e := mkEntry _ _ _). set (s1 := with_leader _ _).
  destruct (id_leader s Hid Hrole) as (HL & Hpr & Hown). pose proof (idle_good s Hid) as Hg.
  pose proof (unsnapped_last_index s (id_unsnapped s Hid) Hg) as Hlast.
  assert (log_of s1 = log_of s ++ [e]) as Hlog1 by done.
  assert (last_index s1 = last_index s + 1) as Hlast1.
  { unfold last_index at 1. by rewrite Hlog1, last_snoc. }
  assert (progress_acked s1) as Hpr1 by (intros l' p g [= <-] Hpg; by apply (Hpr l p g)).
  assert (settled (current_term s) (Z.to_nat (st_commit_index s)) (log_of s1)) as Hset1.
  { eapply settled_take; [apply Hid|]. rewrite Hlog1. apply take_app_le.
    pose proof (ok_commit _ (gd_ok _ Hg)). lia. }
  eapply owp_mono; [apply (sends_appends s1)| |done]. intros r2 _ (Hst2 & es & Hes2 & Happ).
  destruct r2 as [s2 rules es2]. simpl in Hst2, Hes2. subst s2 es2.
  eapply owp_mono; [apply (advance_reacted s s1 _ _ (mkLeaderState (ld_progress l)
    ({[last_index s + 1]} ∪ ld_pending_clients l)) (log_of s)); try done| |done].
  - apply Hid.
  - apply (progress_peers s l Hg Hl).
  - by apply prefix_app_r.
  - exact (sd_commit s (idle_sendable s Hid)).
  - intros c' Hc' [_ Hmaj]. exfalso. eapply (unreplicated s l); [done..| |exact Hmaj]. lia.
  - intros r _ (-> & Hc & (c' & Hst) & Hset) Hgr. rewrite Hst in *. simpl in Hc.
    assert (sendable s1) as Hsd.
    { destruct (good_sendable _ (id_unsnapped s Hid : unsnapped (with_indexes s1 c' _)) Hgr)
        as [Hu Hl' Hr' Hn _]. split; try done.
      exact (sd_commit s (idle_sendable s Hid)). }
    destruct (appends_ok s1 (with_indexes s1 c' (st_last_applied s1)) es Hsd Happ Hrole eq_refl eq_refl Hc)
      as (He & Hno & Hq).
    split.
    + right. split.
      * exists [], es. split_and!; [done|done|set_solver|done].
      * left. split_and!; [done..| |by exists e].
        change (log_of (with_indexes s1 c' ?a)) with (log_of s1). rewrite Hlog1, length_app. simpl. lia.
    + by constructor.
    + done.
    + intros _. split; [by left|]. done.
    + simpl. congruence.
    + done.
    + done.
    + apply requests_first_none. set_solver.
Qed.

(** ** Whole steps *)

Lemma dispatch_reacted s e :
  idle s → event_ok e → has_room s e → is_completion e = false →
  owp (dispatch (mkResult s [] []) e)
    (λ r, good (res_state r) → reacted s (res_state r) (res_effects r)) (λ _, True).
Proof.
  intros Hid Hev Hbig Hc. assert (∀ m, owp m (λ r, reacted s (res_state r) (res_effects r)) (λ _, True) →
    owp m (λ r, good (res_state r) → reacted s (res_state r) (res_effects r)) (λ _, True)) as Hweak.
  { intros m Hm. eapply owp_mono; [exact Hm| |done]. auto. }
  destruct e; simpl in Hc; try done; unfold dispatch; cbn [res_state].
  - apply Hweak. case_bool_decide; [by apply reacted_refl|by apply timeout_reacted].
  - apply Hweak. case_bool_decide; [by apply timeout_reacted|by apply reacted_refl].
  - by apply Hweak, apply_reacted.
  - by apply Hweak, observe_reacted.
  - by apply Hweak, request_vote_reacted.
  - by apply vote_response_reacted.
  - by apply Hweak, append_entries_reacted.
  - by apply append_response_reacted.
  - by apply client_reacted.
Qed.

Lemma reacted_persistence s s' es id p :
  reacted s s' es → reacted s (with_persistence s' id p) es.
Proof. intros []. by split. Qed.

(** An input to an idle server: the effects it releases and those it holds back. *)
Lemma step_reacted s e r :
  idle s → event_ok e → has_room s e → event_fits s e → is_completion e = false → step s e = Ret r →
  reacted s (res_state r) (res_effects r ++ held (res_state r)) ∧
  released_alone (res_state r) (res_effects r) ∧
  server_ok (res_state r) ∧ unsnapped (res_state r) ∧
  gated (hard_state s) (res_state r) (res_effects r) ∧
  vote_core s (event_grants s e) (res_state r).
Proof.
  intros Hid Hev Hbig Hfit Hc Hstep.
  destruct (step_inv _ _ _ Hstep) as (_ & _ & _ & r0 & Hd & Hg).
  destruct (unchecked_input s e r (id_ok s Hid) (id_pending s Hid) Hfit Hc
    (step_unchecked _ _ _ Hstep)) as (Hok & Hls & Hgated & Hvote).
  assert (st_pending_hard_state (res_state r0) = None) as Hp0.
  { pose proof (dispatch_handled s e (ok_self _ (gd_ok _ (idle_good s Hid)))
      (so_candidate _ (id_ok s Hid)) Hc) as Hh. rewrite Hd in Hh. destruct Hh as [_ Hh].
    rewrite (vs_pending _ _ _ Hh). apply Hid. }
  pose proof (gate_held _ _ Hp0 Hg) as (Hes & _). pose proof (gate_state _ _ Hg) as Hst.
  assert (reacted s (res_state r0) (res_effects r0)) as Hre.
  { pose proof (dispatch_reacted s e Hid Hev Hbig Hc) as Hre. rewrite Hd in Hre. apply Hre.
    pose proof (dispatch_good s e (idle_good s Hid) Hfit Hc) as Hgr. rewrite Hd in Hgr. apply Hgr. }
  split_and!; try done.
  - rewrite <-Hes, Hst. by apply reacted_persistence.
  - by eapply gate_alone; [apply Hre| |].
  - unfold unsnapped. rewrite (ls_snapshot _ _ Hls). apply Hid.
Qed.
End reactions.
