(* ===== verification/LogInv.v ===== *)
(** * The invariant of the cluster with logs

    History variables, which the servers do not have: the votes that reached a
    disk, the log each candidate started its election with, the log each leader
    has built, and which server acknowledged how much of a leader's log.  The
    invariant ties them to the servers and to the messages in the network, and
    is kept by every step. *)

From S2P Require Import Prelude OrdMap Bytes StoreTypes RaftTypes Figure2 Figure2Votes Figure2Log.
From S2P Require Import LeaderLogs Figure2Steps Figure2Effects Cluster LogCluster LogReact.

Record ghost := mkGhost {
  gh_votes : votes;
  gh_starts : gmap (Z * Z) (list LogEntry);
  gh_reigns : reigns;
  gh_acks : Z → Z → nat → Prop }.

(** The effects a server has still to perform, those held back included. *)
Definition remaining (nd : Node) : list Effect := nd_todo nd ++ held (nd_core nd).

Section invariant.
Context (members : list Z).

Record ghost_ok (G : ghost) : Prop := {
  go_nodup : NoDup members;
  go_wf : leaders_wf (gh_reigns G);
  go_room : ∀ t lg, leader_log (gh_reigns G) t = Some lg → 2 * Z.of_nat (length lg) < u64_max;
  go_down : ∀ v t j j', gh_acks G v t j → (j' ≤ j)%nat → gh_acks G v t j';
  go_acks : ∀ v t j, gh_acks G v t j →
    ∃ lg, leader_log (gh_reigns G) t = Some lg ∧ (j ≤ length lg)%nat;
  go_voters : ∀ v t c, gh_votes G !! (v, t) = Some c → v ∈ members;
  go_starts : ∀ c t start, gh_starts G !! (c, t) = Some start →
    1 ≤ t ∧ gh_votes G !! (c, t) = Some c ∧ genuine (gh_reigns G) start ∧
    Forall (λ e, en_term e < t) start;
  go_votes : ∀ v t c, gh_votes G !! (v, t) = Some c → ∃ start, gh_starts G !! (c, t) = Some start ∧
    (gh_reigns G !! t = None → passes_on (gh_reigns G) (gh_acks G) t v start);
  go_leaders : ∀ t n lg, gh_reigns G !! t = Some (n, lg) →
    ∃ start, gh_starts G !! (n, t) = Some start ∧ start `prefix_of` lg ∧
    ∃ Q, majority_of members Q ∧
      ∀ v, v ∈ Q → gh_votes G !! (v, t) = Some n ∧ passes_on (gh_reigns G) (gh_acks G) t v start }.

Record node_ok (G : ghost) (n : Z) (nd : Node) : Prop := {
  no_server : server_inv members (gh_votes G) n (mkServer (nd_core nd) (nd_hard nd));
  no_core : server_ok (nd_core nd);
  no_unsnapped : unsnapped (nd_core nd);
  no_room : 2 * Z.of_nat (length (log_of (nd_core nd))) < u64_max;
  no_term : 0 ≤ hs_current_term (nd_hard nd);
  no_genuine : genuine (gh_reigns G) (nd_log nd);
  no_terms : Forall (λ e, en_term e ≤ hs_current_term (nd_hard nd)) (nd_log nd);
  no_acks : ∀ t j, gh_acks G n t j → t ≤ hs_current_term (nd_hard nd) ∧
    (solid (gh_reigns G) t j → contains (gh_reigns G) t j (nd_log nd) ∨
       ∃ t', t < t' ≤ hs_current_term (nd_hard nd) ∧ omits (gh_reigns G) t' t j);
  no_settled : settled members (gh_reigns G) (gh_acks G) (current_term (nd_core nd))
    (Z.to_nat (st_commit_index (nd_core nd))) (log_of (nd_core nd));
  no_log : (log_of (nd_core nd) = nd_log nd ∧ PersistLog ∉ remaining nd) ∨
    (log_first (remaining nd) ∧
     ∃ s0, log_of s0 = nd_log nd ∧ log_write (gh_reigns G) s0 (nd_core nd));
  no_effects : Forall (effect_ok (gh_reigns G) (nd_core nd)) (remaining nd);
  no_first : requests_first (remaining nd);
  no_todo : match st_pending_hard_state (nd_core nd) with
    | Some p => nd_todo nd = [PersistHardState (pd_request p)] ∨
        (nd_todo nd = [] ∧ nd_hard nd = phs_state (pd_request p))
    | None => hs_run (nd_hard nd) (nd_todo nd) = Some (nd_hard nd) ∧
        ∀ q, PersistHardState q ∉ nd_todo nd
    end;
  no_vote : is_Some (st_pending_hard_state (nd_core nd)) →
    ∀ c, voted_for (nd_core nd) = Some c → c ≠ n →
      gh_votes G !! (n, current_term (nd_core nd)) = Some c ∨
      vote_ok (gh_starts G) c (current_term (nd_core nd)) (nd_log nd);
  no_self : is_Some (st_pending_hard_state (nd_core nd)) →
    voted_for (nd_core nd) = Some n →
      gh_votes G !! (n, current_term (nd_core nd)) = Some n ∨
      (hs_current_term (nd_hard nd) < current_term (nd_core nd) ∧
       ∀ q, PersistHardState q ∈ remaining nd → phs_state q = hard_state (nd_core nd));
  no_candidate : st_role (nd_core nd) = role_candidate →
    1 ≤ current_term (nd_core nd) ∧ log_of (nd_core nd) = nd_log nd ∧
    (gh_votes G !! (n, current_term (nd_core nd)) = Some n →
       gh_starts G !! (n, current_term (nd_core nd)) = Some (nd_log nd)) ∧
    ∀ lg, gh_reigns G !! current_term (nd_core nd) ≠ Some (n, lg);
  no_leader : st_role (nd_core nd) = role_leader →
    gh_reigns G !! current_term (nd_core nd) = Some (n, nd_log nd) ∧
    progress_acked (gh_acks G) (nd_core nd) ∧
    ∀ j, solid (gh_reigns G) (current_term (nd_core nd)) j →
      gh_acks G n (current_term (nd_core nd)) j }.

(** What a message in the network stands for. *)
Definition message_ok (G : ghost) (to : Z) (e : Event) : Prop :=
  is_completion e = false ∧ event_ok members (gh_reigns G) (gh_acks G) (gh_starts G) e ∧
  match e with
  | ReceiveRequestVoteResponse from response =>
      vr_granted response = true → gh_votes G !! (from, vr_term response) = Some to
  | _ => True
  end.

(** The events that other servers send. *)
Definition from_server (e : Event) : Prop :=
  match e with
  | ReceiveRequestVote _ _ | ReceiveRequestVoteResponse _ _
  | ReceiveAppendEntries _ _ | ReceiveAppendEntriesResponse _ _ => True
  | _ => False
  end.

Record log_inv (G : ghost) (c : LogCluster) : Prop := {
  lv_several : (2 ≤ length members)%nat;
  lv_ghost : ghost_ok G;
  lv_nodes : ∀ n nd, lc_nodes c !! n = Some nd → node_ok G n nd;
  lv_network : ∀ to e, (to, e) ∈ lc_network c → message_ok G to e ∧ from_server e }.

(** ** Growth of the history *)

Record ghost_le (G G' : ghost) : Prop := {
  le_votes : gh_votes G ⊆ gh_votes G';
  le_starts : gh_starts G ⊆ gh_starts G';
  le_reigns : grows (gh_reigns G) (gh_reigns G');
  le_acks : ∀ v t j, gh_acks G v t j → gh_acks G' v t j }.

Lemma ghost_le_refl G : ghost_le G G.
Proof. by split. Qed.

Lemma ghost_le_trans G1 G2 G3 : ghost_le G1 G2 → ghost_le G2 G3 → ghost_le G1 G3.
Proof. intros [] []. split; [by etrans..|auto]. Qed.

(** An acknowledged entry that is solid now was solid before. *)
Lemma solid_back L L' t j lg :
  grows L L' → leader_log L t = Some lg → (j ≤ length lg)%nat → solid L' t j → solid L t j.
Proof.
  intros Hg HL Hj (lg' & i & e & HL' & -> & Hi & He).
  destruct (grows_log _ _ _ _ Hg HL) as (ext & HL2 & _). simplify_eq.
  rewrite lookup_app_l in Hi by lia. by exists lg, i, e.
Qed.

Lemma acked_solid_back G L' v t j :
  ghost_ok G → grows (gh_reigns G) L' → gh_acks G v t j → solid L' t j → solid (gh_reigns G) t j.
Proof. intros HG Hg (lg & HL & Hj)%(go_acks G HG). by eapply solid_back. Qed.

Lemma passes_on_frame G L' (A' : Z → Z → nat → Prop) t v start :
  ghost_ok G → grows (gh_reigns G) L' →
  (∀ t0 j, t0 < t → A' v t0 j → gh_acks G v t0 j) →
  passes_on (gh_reigns G) (gh_acks G) t v start → passes_on L' A' t v start.
Proof.
  intros HG Hg HA Hp t0 j Hlt Hs Ha. apply HA in Ha; [|done].
  assert (solid (gh_reigns G) t0 j) as Hs0 by by eapply acked_solid_back.
  destruct (Hp t0 j Hlt Hs0 Ha) as [?|(t1 & Ht1 & Ho)]; [left; by eapply contains_mono|].
  right. exists t1. split; [done|]. eapply omits_mono; try done. lia.
Qed.

Lemma settled_mono G G' b k log :
  ghost_le G G' → settled members (gh_reigns G) (gh_acks G) b k log →
  settled members (gh_reigns G') (gh_acks G') b k log.
Proof.
  intros [_ _ Hg HA] [->|(t & j & lg & Hb & [Hs (Q & HQ & Ha)] & HL & Hk & Ht)]; [by left|]. right.
  destruct (grows_log _ _ _ _ Hg HL) as (ext & HL' & _).
  exists t, j, (lg ++ ext). split_and!; [done| |done|done|].
  - split; [by eapply solid_mono|]. exists Q. split; [done|]. auto.
  - rewrite Ht. symmetry. apply take_app_le. destruct Hs as (lg0 & i & e & HL0 & -> & Hi & _).
    simplify_eq. apply lookup_lt_Some in Hi. lia.
Qed.

Lemma event_ok_mono G G' e :
  ghost_le G G' → event_ok members (gh_reigns G) (gh_acks G) (gh_starts G) e →
  event_ok members (gh_reigns G') (gh_acks G') (gh_starts G') e.
Proof.
  intros Hle. pose proof Hle as [_ HC Hg HA]. destruct e; simpl; try done.
  - intros (start & Hs & ?). exists start. split; [by eapply lookup_weaken|done].
  - intros (lg & HL & Hs & Hc & Hset). destruct (grows_log _ _ _ _ Hg HL) as (ext & HL' & _).
    exists (lg ++ ext). rewrite length_app. split_and!; [done|by apply slice_app|lia|lia|].
    eapply settled_take; [by eapply settled_mono|]. apply take_app_le. lia.
  - intros H Hok. destruct (H Hok) as [? Ha]. split; [done|]. destruct Ha; auto.
Qed.

Lemma message_ok_mono G G' to e : ghost_le G G' → message_ok G to e → message_ok G' to e.
Proof.
  intros Hle (Hc & He & Hv). split; [done|]. split; [by eapply event_ok_mono|].
  destruct e; try done. intros Hg. eapply lookup_weaken; [by apply Hv|apply Hle].
Qed.

Lemma effect_ok_mono G G' s e :
  ghost_le G G' → effect_ok (gh_reigns G) s e → effect_ok (gh_reigns G') s e.
Proof.
  intros [_ _ Hg _]. destruct e; simpl; try done. intros H Hok.
  destruct (H Hok) as (? & ? & ?). split_and!; try done. by eapply contains_mono.
Qed.

Lemma log_write_mono L L' s0 s :
  grows L L' → genuine L (log_of s0) → log_write L s0 s → log_write L' s0 s.
Proof.
  intros Hg Hgen [Hl|(Hr & lg & k & HL & Hk & Hlog & Hmax)]; [by left|right]. split; [done|].
  destruct (grows_log _ _ _ _ Hg HL) as (ext & HL' & Hext). exists (lg ++ ext), k.
  split_and!; [done|rewrite length_app; lia|by rewrite take_app_le by lia|].
  intros j Hj Ht. destruct (decide (j ≤ length lg)%nat) as [Hle|Hgt].
  - apply Hmax; [done|]. by rewrite Ht, take_app_le.
  - (* the follower would have an entry of this term that the leader has not *)
    exfalso. destruct (lookup_lt_is_Some_2 (log_of s0) (length lg)) as [e He]; [lia|].
    rewrite (take_lookup_eq _ _ _ (length lg) Ht) in He by lia.
    rewrite lookup_app_r, Nat.sub_diag in He by lia. pose proof He as He'.
    apply list_elem_of_lookup_2 in He'. rewrite Forall_forall in Hext. specialize (Hext e He').
    simpl in Hext. destruct (Hgen (length lg) e) as (lg2 & HL2 & Heq).
    { rewrite (take_lookup_eq _ _ _ (length lg) Ht) by lia.
      by rewrite lookup_app_r, Nat.sub_diag by lia. }
    rewrite Hext in HL2. simplify_eq. apply (f_equal length) in Heq. rewrite !length_take in Heq. lia.
Qed.

(** A change of the history that does not concern server [n]. *)
Record apart (n : Z) (G G' : ghost) : Prop := {
  ap_le : ghost_le G G';
  ap_votes : ∀ t c, gh_votes G' !! (n, t) = Some c → gh_votes G !! (n, t) = Some c;
  ap_acks : ∀ t j, gh_acks G' n t j → gh_acks G n t j;
  ap_reigns : ∀ t lg, gh_reigns G' !! t = Some (n, lg) → gh_reigns G !! t = Some (n, lg) }.

Lemma apart_refl n G : apart n G G.
Proof. by split. Qed.

Lemma no_acks_mono G G' n nd :
  ghost_ok G → ghost_le G G' → (∀ t j, gh_acks G' n t j → gh_acks G n t j) → node_ok G n nd →
  ∀ t j, gh_acks G' n t j → t ≤ hs_current_term (nd_hard nd) ∧
    (solid (gh_reigns G') t j → contains (gh_reigns G') t j (nd_log nd) ∨
       ∃ t', t < t' ≤ hs_current_term (nd_hard nd) ∧ omits (gh_reigns G') t' t j).
Proof.
  intros HG [_ _ Hg _] HA [] t j Ha%HA. destruct (no_acks0 t j Ha) as [Hle Hs]. split; [done|].
  intros Hs'. assert (solid (gh_reigns G) t j) as Hs0 by by eapply acked_solid_back.
  destruct (Hs Hs0) as [?|(t' & Ht' & Ho)]; [left; by eapply contains_mono|right].
  exists t'. split; [done|]. eapply omits_mono; try done. lia.
Qed.

Lemma node_frame G G' n nd :
  ghost_ok G → apart n G G' → node_ok G n nd → node_ok G' n nd.
Proof.
  intros HG [Hle HV HA HR] Hnode. pose proof (no_acks_mono _ _ _ _ HG Hle HA Hnode) as Hacks.
  pose proof Hle as [HVs HCs Hg HAs]. destruct Hnode. split; try done.
  - by eapply server_inv_mono.
  - by eapply genuine_mono.
  - by eapply settled_mono.
  - destruct no_log0 as [?|[? (s0 & Hs0 & Hw)]]; [by left|right]. split; [done|].
    exists s0. split; [done|]. eapply log_write_mono; try done. by rewrite Hs0.
  - eapply Forall_impl; [done|]. intros e. by apply effect_ok_mono.
  - intros Hp c Hc Hne. destruct (no_vote0 Hp c Hc Hne) as [?|(start & Hs & ?)].
    + left. by eapply lookup_weaken.
    + right. exists start. split; [by eapply lookup_weaken|done].
  - intros Hp Hc. destruct (no_self0 Hp Hc) as [?|?]; [left; by eapply lookup_weaken|by right].
  - intros Hr. destruct (no_candidate0 Hr) as (? & ? & HC & HL). split_and!; try done.
    + intros Hv%HV. eapply lookup_weaken; [by apply HC|done].
    + intros lg Hlg%HR. by eapply HL.
  - intros Hr. destruct (no_leader0 Hr) as (HL & Hp & Hs).
    destruct (Hg _ _ _ HL) as (ext & HL' & _). pose proof (HR _ _ HL') as HL2. rewrite HL in HL2.
    injection HL2 as Heq. rewrite <-Heq in HL'. split_and!; [done| |].
    + intros l p g Hl Hpg. destruct (Hp l p g Hl Hpg); auto.
    + intros j Hsol. apply HAs, Hs. eapply solid_back; [done|by apply leader_log_Some; eauto| |done].
      destruct Hsol as (lg & i & e & Hlg & -> & Hi & _).
      assert (leader_log (gh_reigns G') (current_term (nd_core nd)) = Some (nd_log nd)) as Hlg'
        by (apply leader_log_Some; eauto).
      simplify_eq. by apply lookup_lt_Some in Hi.
Qed.

Lemma put_inv G G' c n nd sent :
  log_inv G c → ghost_ok G' → ghost_le G G' → (∀ m, m ≠ n → apart m G G') →
  node_ok G' n nd → (∀ to e, (to, e) ∈ sent → message_ok G' to e ∧ from_server e) →
  log_inv G' (put_node c n nd sent).
Proof.
  intros [Hsev HG Hnodes Hnet] HG' Hle Hap Hnd Hsent. split; [done|done| |].
  - simpl. intros m nd' [[<- <-]|[Hne Hm]]%lookup_insert_Some; [done|].
    eapply node_frame; [exact HG|by apply Hap|by apply Hnodes].
  - simpl. intros to e [Hin|Hin]%elem_of_app; [|by apply Hsent].
    destruct (Hnet to e Hin). split; [by eapply message_ok_mono|done].
Qed.

(** ** Crashes *)

Lemma genuine_contiguous L log : leaders_wf L → genuine L log → contiguous 0 log.
Proof.
  intros HL Hg i e Hi. destruct (Hg i e Hi) as (lg & Hlg & Ht).
  apply (lw_contiguous _ _ _ (HL _ _ Hlg)). by rewrite <-(take_lookup_eq _ _ _ i Ht) by lia.
Qed.

Lemma genuine_room G log :
  ghost_ok G → genuine (gh_reigns G) log → 2 * Z.of_nat (length log) < u64_max.
Proof.
  intros HG Hg. destruct (decide (log = [])) as [->|Hne]; [simpl; lia|].
  destruct (genuine_last _ _ Hg Hne) as (lg & HL & Hlog). pose proof (go_room G HG _ _ HL).
  rewrite Hlog, length_take. lia.
Qed.

Lemma boot_good n peers hard log :
  n ∉ peers → NoDup peers → contiguous 0 log →
  Forall (λ e, en_term e ≤ hs_current_term hard) log → 2 * Z.of_nat (length log) < u64_max →
  good (boot_state n peers hard log).
Proof.
  intros Hn Hnd Hc Ht Hr.
  assert (last_index (boot_state n peers hard log) = Z.of_nat (length log)) as Hlast
    by (rewrite last_index_length; done).
  split; [|split; simpl; try done; change (snapshot_base (boot_state n peers hard log)) with 0;
    change (log_of (boot_state n peers hard log)) with log; lia|lia].
  split; simpl; try done.
  rewrite Hlast. lia.
Qed.

Lemma node_peers G n nd :
  ghost_ok G → node_ok G n nd → (n ∉ st_peers (nd_core nd)) ∧ NoDup (st_peers (nd_core nd)).
Proof.
  intros HG Hnode. pose proof (si_members _ _ _ _ (no_server _ _ _ Hnode)) as Hm.
  pose proof (go_nodup G HG) as Hnd. rewrite <-Hm in Hnd. by apply NoDup_cons.
Qed.

Lemma reboot_ok G n nd : ghost_ok G → node_ok G n nd → node_ok G n (reboot nd).
Proof.
  intros HG Hnode. destruct (node_peers _ _ _ HG Hnode) as [Hn Hnd].
  pose proof (genuine_contiguous _ _ (go_wf G HG) (no_genuine _ _ _ Hnode)) as Hc.
  pose proof (genuine_room _ _ HG (no_genuine _ _ _ Hnode)) as Hr.
  pose proof (si_node _ _ _ _ (no_server _ _ _ Hnode)) as Hnode_id. simpl in Hnode_id.
  destruct Hnode.
  assert (good (boot_state (st_node (nd_core nd)) (st_peers (nd_core nd)) (nd_hard nd) (nd_log nd)))
    as Hgood by (apply boot_good; [by rewrite Hnode_id|done..]).
  split; simpl; try done.
  - destruct no_server0. split; simpl in *; try done.
    unfold hard_state, current_term, voted_for. simpl. by destruct (nd_hard nd).
  - by left.
  - left. split; [done|]. unfold remaining. simpl. set_solver.
  - apply requests_first_nil.
  - split; [done|]. set_solver.
Qed.

(** ** Reports of the hard-state storage *)

Lemma complete_ok G n nd p r :
  node_ok G n nd → nd_todo nd = [] → st_pending_hard_state (nd_core nd) = Some p →
  step (nd_core nd) (completion_of p) = Ret r → node_ok G n (receive nd r).
Proof.
  intros Hnode Htodo Hp Hstep. destruct Hnode.
  rewrite Hp in no_todo0. destruct no_todo0 as [?|[_ Hhard]]; [congruence|].
  assert (remaining nd = held (nd_core nd)) as Hrem by (unfold remaining; by rewrite Htodo).
  rewrite Hrem in *.
  destruct (completion_released _ _ _ Hp no_first0 Hstep) as (Halone & Hes & Hst).
  destruct (unchecked_completion _ _ _ _ no_core0 Hp (step_unchecked _ _ _ Hstep))
    as (Hok & _ & Hcore & Hgated).
  assert (remaining (receive nd r) = held (nd_core nd)) as Hrem' by done.
  set (p' := st_pending_hard_state (res_state r)) in *.
  split; rewrite ?Hrem'; simpl; try done.
  - destruct no_server0. destruct Hcore as (En & Ep & Er & Et & Ev & Evs). simpl in *.
    split; simpl; rewrite ?En, ?Ep, ?Er, ?Et, ?Ev, ?Evs; try done.
    rewrite Hhard. by apply (gated_core _ _ _ Hgated).
  - by rewrite Hst.
  - by rewrite Hst.
  - by rewrite Hst.
  - rewrite Hst. exact no_log0.
  - rewrite Hst. eapply Forall_impl; [exact no_effects0|]. by intros [].
  - fold p'. unfold released_alone in Halone. fold p' in Halone. unfold gated in Hgated.
    fold p' in Hgated. destruct p' as [p'|]; [by left|]. rewrite Hhard. by destruct Hgated.
  - rewrite Hst. intros _. apply no_vote0. by eexists.
  - rewrite Hst. intros _. apply no_self0. by eexists.
  - rewrite Hst. done.
  - rewrite Hst. done.
Qed.

(** ** Inputs *)

Lemma log_first_nil : ¬ log_first [].
Proof. intros (pre & post & Heq & _). by destruct pre. Qed.

Lemma idle_log G n nd :
  node_ok G n nd → nd_todo nd = [] → st_pending_hard_state (nd_core nd) = None →
  log_of (nd_core nd) = nd_log nd ∧ hard_state (nd_core nd) = nd_hard nd.
Proof.
  intros Hnode Ht Hp. pose proof (si_core _ _ _ _ (no_server _ _ _ Hnode)) as Hc. simpl in Hc.
  rewrite Hp in Hc. split; [|done].
  destruct (no_log _ _ _ Hnode) as [[? _]|[Hf _]]; [done|]. exfalso. apply log_first_nil.
  unfold remaining, held in Hf. by rewrite Ht, Hp in Hf.
Qed.

Lemma node_idle G n nd :
  ghost_ok G → (2 ≤ length members)%nat → node_ok G n nd → nd_todo nd = [] →
  st_pending_hard_state (nd_core nd) = None →
  idle members (gh_reigns G) (gh_acks G) (nd_core nd).
Proof.
  intros HG Hsev Hnode Ht Hp. destruct (idle_log _ _ _ Hnode Ht Hp) as [Hlog _]. destruct Hnode.
  pose proof (si_members _ _ _ _ no_server0) as Hm. pose proof (si_node _ _ _ _ no_server0) as Hn.
  simpl in Hm, Hn. split; try done.
  - rewrite (majority_quorum members (st_peers (nd_core nd)) _ n Hm) by done.
    assert (2 / 2 ≤ Z.of_nat (length members) / 2) as Hd by (apply Z.div_le_mono; lia).
    change (2 / 2) with 1 in Hd. lia.
  - by rewrite Hn.
  - by rewrite Hlog.
  - intros Hr. destruct (no_leader0 Hr) as (HL & ? & ?). rewrite Hlog, Hn.
    split_and!; try done. apply leader_log_Some. eauto.
Qed.

Lemma receive_ok G G' n nd r :
  ghost_ok G → ghost_le G G' → gh_votes G' = gh_votes G → gh_starts G' = gh_starts G →
  gh_acks G' = gh_acks G → node_ok G n nd → nd_todo nd = [] →
  st_pending_hard_state (nd_core nd) = None →
  reacted members (gh_reigns G) (gh_acks G) (gh_starts G) (nd_core nd) (res_state r)
    (res_effects r ++ held (res_state r)) →
  released_alone (res_state r) (res_effects r) →
  server_ok (res_state r) → unsnapped (res_state r) →
  gated (hard_state (nd_core nd)) (res_state r) (res_effects r) →
  server_inv members (gh_votes G) n (mkServer (res_state r) (nd_hard nd)) →
  2 * Z.of_nat (length (log_of (res_state r))) < u64_max →
  (st_role (res_state r) = role_leader →
     gh_reigns G' !! current_term (res_state r) = Some (n, nd_log nd) ∧
     ∀ j, solid (gh_reigns G') (current_term (res_state r)) j →
       gh_acks G n (current_term (res_state r)) j) →
  (st_role (res_state r) = role_candidate →
     ∀ lg, gh_reigns G' !! current_term (res_state r) ≠ Some (n, lg)) →
  node_ok G' n (receive nd r).
Proof.
  intros HG Hle EV EC EA Hnode Ht Hp Hre Halone Hok Hu Hgated Hsv Hroom Hlead Hcand.
  destruct (idle_log _ _ _ Hnode Ht Hp) as [Hlog Hhard].
  assert (∀ t j, gh_acks G' n t j → gh_acks G n t j) as HA by (by rewrite EA).
  pose proof (no_acks_mono _ _ _ _ HG Hle HA Hnode) as Hacks.
  pose proof (si_node _ _ _ _ (no_server _ _ _ Hnode)) as Hn. simpl in Hn.
  pose proof Hsv as Hsv'. destruct Hre. destruct Hnode.
  assert (remaining (receive nd r) = res_effects r ++ held (res_state r)) as Hrem by done.
  split; rewrite ?Hrem, ?EV, ?EC; simpl; try done.
  - eapply genuine_mono; [apply Hle|done].
  - by eapply settled_mono.
  - rewrite <-Hlog. destruct rc_log as [?|[? Hw]]; [by left|right]. split; [done|].
    exists (nd_core nd). split; [done|]. eapply log_write_mono; [apply Hle| |done]. by rewrite Hlog.
  - eapply Forall_impl; [done|]. intros e. by apply effect_ok_mono.
  - unfold released_alone in Halone. unfold gated in Hgated.
    destruct (st_pending_hard_state (res_state r)) as [p|]; [by left|]. rewrite <-Hhard.
    by destruct Hgated.
  - intros _ c Hc Hne. destruct (decide (hard_state (res_state r) = hard_state (nd_core nd))) as [Heq|].
    + left. rewrite Hhard in Heq. assert (current_term (res_state r) = hs_current_term (nd_hard nd)) as ->
        by by rewrite <-Heq.
      apply (si_disk _ _ _ _ no_server0). simpl. rewrite <-Heq. exact Hc.
    + right. rewrite <-Hlog. apply rc_vote; [done..|]. congruence.
  - intros _ Hc. destruct (decide (hard_state (res_state r) = hard_state (nd_core nd))) as [Heq|].
    + left. rewrite Hhard in Heq. assert (current_term (res_state r) = hs_current_term (nd_hard nd)) as ->
        by by rewrite <-Heq.
      apply (si_disk _ _ _ _ no_server0). simpl. rewrite <-Heq. exact Hc.
    + right. rewrite <-Hhard. apply rc_self; [congruence|done].
  - intros Hr. destruct (rc_candidate Hr) as [Hl Hterm]. rewrite Hl.
    destruct Hterm as [[Hr0 Et]|Et].
    + destruct (no_candidate0 Hr0) as (? & ? & ? & _). rewrite Et in *. split_and!; try done. by apply Hcand.
    + assert (hs_current_term (nd_hard nd) = current_term (nd_core nd)) as Ht0 by by rewrite <-Hhard.
      split_and!; [lia|done| |by apply Hcand].
      intros Hv. destruct (si_latest _ _ _ _ no_server0 _ _ Hv) as [?|[? _]]; simpl in *; lia.
  - intros Hr. destruct (Hlead Hr) as [? ?]. destruct (rc_leader Hr) as (_ & _ & Hpr).
    rewrite EA. split_and!; done.
Qed.

(** A new leader. *)
Definition elect (G : ghost) (n t : Z) (log : list LogEntry) : ghost :=
  mkGhost (gh_votes G) (gh_starts G) (<[t := (n, log)]> (gh_reigns G)) (gh_acks G).

Lemma grows_insert L t n log : L !! t = None → grows L (<[t := (n, log)]> L).
Proof.
  intros HL t' n' lg Hlg. exists []. rewrite app_nil_r, lookup_insert_ne; [done|congruence].
Qed.

Lemma leader_wf_mono L L' t lg : grows L L' → leader_wf L t lg → leader_wf L' t lg.
Proof. intros Hg []. split; try done. by eapply genuine_mono. Qed.

Lemma elect_le G n t log : gh_reigns G !! t = None → ghost_le G (elect G n t log).
Proof. intros HL. split; try done. simpl. by apply grows_insert. Qed.

Lemma elect_apart G n t log m :
  gh_reigns G !! t = None → m ≠ n → apart m G (elect G n t log).
Proof.
  intros HL Hne. split; try done; [by apply elect_le|]. simpl.
  intros t' lg [[_ ?]|[_ ?]]%lookup_insert_Some; [congruence|done].
Qed.

Lemma elect_ok G n t log :
  ghost_ok G → gh_reigns G !! t = None → gh_starts G !! (n, t) = Some log →
  quorum members (gh_votes G) n t → ghost_ok (elect G n t log).
Proof.
  intros HG HL HC (Q & HQ & Hsz & HV). pose proof (grows_insert _ _ n log HL) as Hg.
  destruct (go_starts G HG _ _ _ HC) as (H1 & Hv & Hgen & Hts).
  assert (∀ t' v start, passes_on (gh_reigns G) (gh_acks G) t' v start →
    passes_on (<[t := (n, log)]> (gh_reigns G)) (gh_acks G) t' v start) as Hpass.
  { intros t' v start. by apply passes_on_frame. }
  assert (∀ t' lg, leader_log (<[t := (n, log)]> (gh_reigns G)) t' = Some lg →
    (t' = t ∧ lg = log) ∨ leader_log (gh_reigns G) t' = Some lg) as Hcase.
  { intros t' lg (n' & [[<- [= <- <-]]|[_ ?]]%lookup_insert_Some)%leader_log_Some; [by left|right].
    apply leader_log_Some. eauto. }
  pose proof (genuine_room _ _ HG Hgen) as Hroom.
  pose proof (genuine_contiguous _ _ (go_wf G HG) Hgen) as Hcont.
  pose proof (genuine_sorted _ _ (go_wf G HG) Hgen) as Hsort.
  destruct HG. split; simpl; try done.
  - intros t' lg [[-> ->]|Hlg]%Hcase; [|by eapply leader_wf_mono; [|apply go_wf0]].
    split; try done; [by eapply genuine_mono|]. eapply Forall_impl; [done|]. simpl. lia.
  - intros t' lg [[-> ->]|Hlg]%Hcase; [done|by eapply go_room0].
  - intros v t' j Ha. destruct (go_acks0 v t' j Ha) as (lg & Hlg & Hj).
    destruct (grows_log _ _ _ _ Hg Hlg) as (ext & Hlg' & _). exists (lg ++ ext).
    rewrite length_app. split; [done|lia].
  - intros c t' start Hs. destruct (go_starts0 _ _ _ Hs) as (? & ? & ? & ?). split_and!; try done.
    by eapply genuine_mono.
  - intros v t' c Hvc. destruct (go_votes0 v t' c Hvc) as (start & Hs & Hp). exists start.
    split; [done|]. intros Hn. apply Hpass, Hp. by apply lookup_insert_None in Hn as [? _].
  - intros t' n' lg [[<- [= <- <-]]|[Hne Hlg]]%lookup_insert_Some.
    + exists log. split_and!; try done. exists Q. split; [done|]. intros v Hin. split; [by apply HV|].
      apply Hpass. destruct (go_votes0 v t n (HV v Hin)) as (start & Hs & Hp). simplify_eq. by apply Hp.
    + destruct (go_leaders0 _ _ _ Hlg) as (start & Hs & Hpre & Q' & HQ' & Hq). exists start.
      split_and!; try done. exists Q'. split; [done|]. intros v Hin. destruct (Hq v Hin). auto.
Qed.

(** A term in which [n] has a quorum has no other leader. *)
Lemma unclaimed_term G n t :
  ghost_ok G → quorum members (gh_votes G) n t → (∀ lg, gh_reigns G !! t ≠ Some (n, lg)) →
  gh_reigns G !! t = None.
Proof.
  intros HG Hq Hn. destruct (gh_reigns G !! t) as [[n2 lg2]|] eqn:HL; [|done]. exfalso.
  destruct (go_leaders G HG _ _ _ HL) as (start & _ & _ & Q & [HQ Hsz] & HV).
  assert (n2 = n) as ->; [|by apply (Hn lg2)]. eapply quorum_unique; [apply HG| |done].
  exists Q. split_and!; [done..|]. intros v Hin. by apply HV.
Qed.

(** A new leader has no entry of its own term. *)
Lemma new_reign_bare G n t log j :
  ghost_ok G → gh_starts G !! (n, t) = Some log → ¬ solid (<[t := (n, log)]> (gh_reigns G)) t j.
Proof.
  intros HG HC (lg & i & e & Hlg & -> & Hi & He).
  assert (leader_log (<[t := (n, log)]> (gh_reigns G)) t = Some log) as Hlg2.
  { apply leader_log_Some. exists n. apply lookup_insert_eq. }
  simplify_eq. destruct (go_starts G HG _ _ _ HC) as (_ & _ & _ & Hts).
  rewrite Forall_forall in Hts. specialize (Hts e (list_elem_of_lookup_2 _ _ _ Hi)). simpl in Hts. lia.
Qed.

Lemma event_room_fits G n nd e :
  ghost_ok G → node_ok G n nd → nd_todo nd = [] → st_pending_hard_state (nd_core nd) = None →
  event_ok members (gh_reigns G) (gh_acks G) (gh_starts G) e → has_room (nd_core nd) e →
  event_fits (nd_core nd) e.
Proof.
  intros HG Hnode Ht Hp Hev Hroom. destruct e; simpl in *; try done; [|lia].
  destruct Hev as (lg & HL & Hs & _). pose proof (go_room G HG _ _ HL).
  pose proof (sl_previous _ _ Hs). pose proof (sl_end _ _ Hs). pose proof (no_room _ _ _ Hnode).
  rewrite (unsnapped_last_index _ (no_unsnapped _ _ _ Hnode) (so_good _ (no_core _ _ _ Hnode))).
  split_and!; [lia..|]. eapply slice_terms; [done|]. apply (go_wf G HG _ _ HL).
Qed.

(** The votes of the new state. *)
Lemma receive_server G n nd e r :
  ghost_ok G → node_ok G n nd → nd_todo nd = [] → st_pending_hard_state (nd_core nd) = None →
  message_ok G n e → vote_core (nd_core nd) (event_grants (nd_core nd) e) (res_state r) →
  gated (hard_state (nd_core nd)) (res_state r) (res_effects r) →
  server_inv members (gh_votes G) n (mkServer (res_state r) (nd_hard nd)).
Proof.
  intros HG Hnode Ht Hp (_ & _ & Hgrant) Hvote Hgated.
  destruct (idle_log _ _ _ Hnode Ht Hp) as [_ Hhard]. pose proof (no_server _ _ _ Hnode) as Hsv.
  assert (∀ v, v ∈ event_grants (nd_core nd) e →
    gh_votes G !! (v, current_term (nd_core nd)) = Some n) as Hg.
  { intros v. destruct e; simpl; try set_solver.
    destruct (vr_granted response) eqn:Hgr; simpl; [|set_solver].
    destruct (Z.eqb_spec (vr_term response) (current_term (nd_core nd))) as [<-|]; [|set_solver].
    intros ->%elem_of_singleton. by apply Hgrant. }
  destruct (vote_core_inv members (gh_votes G) n _ _ _ Hsv (go_nodup G HG) (go_voters G HG) Hp Hg Hvote)
    as (? & ? & ? & ?).
  rewrite Hhard in Hgated. destruct Hsv. split; simpl in *; try done. by apply (gated_core _ _ _ Hgated).
Qed.

(** An input; a candidate that wins starts its reign. *)
Lemma input_ok G n nd e r :
  ghost_ok G → (2 ≤ length members)%nat → node_ok G n nd → nd_todo nd = [] →
  message_ok G n e → has_room (nd_core nd) e → step (nd_core nd) e = Ret r →
  ∃ G', ghost_le G G' ∧ ghost_ok G' ∧ (∀ m, m ≠ n → apart m G G') ∧ node_ok G' n (receive nd r).
Proof.
  intros HG Hsev Hnode Ht Hmsg Hroom Hstep. pose proof Hmsg as (Hc & Hev & _).
  assert (st_pending_hard_state (nd_core nd) = None) as Hp.
  { destruct (step_inv _ _ _ Hstep) as (_ & _ & Hpc & _). apply eq_None_not_Some.
    rewrite Hpc, Hc. done. }
  pose proof (event_room_fits _ _ _ _ HG Hnode Ht Hp Hev Hroom) as Hfit.
  destruct (step_reacted members _ _ _ (go_wf G HG) (go_room G HG) (go_down G HG) (nd_core nd) e r
    (node_idle _ _ _ HG Hsev Hnode Ht Hp) Hev Hroom Hfit Hc Hstep)
    as (Hre & Halone & Hok & Hu & Hgated & Hvote).
  destruct (idle_log _ _ _ Hnode Ht Hp) as [Hlog Hhard].
  pose proof (receive_server _ _ _ _ _ HG Hnode Ht Hp Hmsg Hvote Hgated) as Hsv.
  assert (2 * Z.of_nat (length (log_of (res_state r))) < u64_max) as Hbig.
  { destruct (rc_log _ _ _ _ _ _ _ Hre) as [[-> _]|[_ [(_ & _ & _ & ? & _)|(_ & lg & k & HL & Hk & -> & _)]]];
      [apply Hnode|done|]. rewrite length_take. pose proof (go_room G HG _ _ HL). lia. }
  pose proof (receive_ok G) as Hrecv.
  assert (∀ lg, gh_reigns G !! (current_term (nd_core nd) + 1) ≠ Some (n, lg)) as Hfresh.
  { intros lg (start & HC & _)%(go_leaders G HG). apply (go_starts G HG) in HC as (_ & Hv & _).
    apply (si_latest _ _ _ _ (no_server _ _ _ Hnode)) in Hv. simpl in Hv.
    assert (hs_current_term (nd_hard nd) = current_term (nd_core nd)) by by rewrite <-Hhard.
    destruct Hv as [?|[? _]]; lia. }
  destruct (decide (st_role (res_state r) = role_leader ∧ st_role (nd_core nd) = role_candidate))
    as [[Hlead Hcand]|Hno].
  - set (T := current_term (nd_core nd)).
    destruct (rc_leader _ _ _ _ _ _ _ Hre Hlead) as (_ & HT & _). fold T in HT.
    destruct (no_candidate _ _ _ Hnode Hcand) as (_ & _ & HC & HnL). fold T in HC, HnL.
    assert (gh_votes G !! (n, T) = Some n) as Hself.
    { destruct (si_candidate _ _ _ _ (no_server _ _ _ Hnode) Hcand) as [Hv _]. simpl in Hv.
      unfold T. change (current_term (nd_core nd)) with (hs_current_term (hard_state (nd_core nd))).
      rewrite Hhard. apply (si_disk _ _ _ _ (no_server _ _ _ Hnode)). simpl. by rewrite <-Hhard. }
    assert (quorum members (gh_votes G) n T) as Hq.
    { destruct (si_leader _ _ _ _ Hsv Hlead) as [?|Hq]; [lia|]. simpl in Hq. by rewrite HT in Hq. }
    pose proof (unclaimed_term G n T HG Hq HnL) as HL.
    specialize (HC Hself). exists (elect G n T (nd_log nd)).
    split_and!; [by apply elect_le|by apply elect_ok|intros m Hm; by apply elect_apart|].
    apply Hrecv; try done; [by apply elect_le| |simpl; congruence].
    intros _. rewrite HT. simpl. split; [apply lookup_insert_eq|].
    intros j Hs. by destruct (new_reign_bare G n T (nd_log nd) j HG HC).
  - exists G. split_and!; [apply ghost_le_refl|done|intros m _; apply apart_refl|].
    apply Hrecv; try done.
    + intros Hlead. destruct (rc_leader _ _ _ _ _ _ _ Hre Hlead) as ([Hl0|[? _]] & HT & _);
        [|exfalso; by apply Hno]. rewrite HT.
      destruct (no_leader _ _ _ Hnode Hl0) as (? & _ & ?). done.
    + intros Hcand. destruct (rc_candidate _ _ _ _ _ _ _ Hre Hcand) as [_ [[Hc0 ->]| ->]]; [|done].
      by apply (no_candidate _ _ _ Hnode).
Qed.

(** ** Writes of the hard state *)

Lemma log_first_tail e es : log_first (e :: es) → e ≠ PersistLog → log_first es.
Proof.
  intros (pre & post & Heq & Hpre & Hn1 & Hn2) He. destruct pre as [|e' pre]; simplify_eq/=.
  exists pre, post. inversion Hpre. split_and!; try done. set_solver.
Qed.

Lemma requests_first_tail q es : requests_first (PersistHardState q :: es) → requests_first es.
Proof.
  intros (qs & rest & Heq & Hno). destruct qs as [|q' qs]; simplify_eq/=.
  - exfalso. apply (Hno q). by left.
  - by exists qs, rest.
Qed.

(** What a server acknowledged is passed on by its vote for a candidate whose log
    is its own or up to date with it, while no leader of that term is known. *)
Lemma vote_passes G n nd t start :
  ghost_ok G → node_ok G n nd → gh_reigns G !! t = None → hs_current_term (nd_hard nd) ≤ t →
  start = nd_log nd ∨
    (up_to_date start (nd_log nd) ∧ genuine (gh_reigns G) start ∧
     Forall (λ e, en_term e < t) start) →
  passes_on (gh_reigns G) (gh_acks G) t n start.
Proof.
  intros HG Hnode HL Ht Hstart t0 j Hlt Hs Ha.
  destruct (no_acks _ _ _ Hnode t0 j Ha) as [_ Hc]. destruct (Hc Hs) as [Hc'|(t' & Ht' & Ho)].
  - destruct Hstart as [->|(Hup & Hgen & Hts)]; [by left|].
    apply (up_to_date_contains _ _ _ t (nd_log nd)); [apply HG|apply Hnode|done..].
  - right. exists t'. split; [|done]. destruct (decide (t' = t)) as [->|]; [|lia].
    destruct Ho as (lg & Hlg & _). apply leader_log_Some in Hlg as [? ?]. congruence.
Qed.

(** The history after server [n] has [h] on its disk, with [log] beside it. *)
Definition write_vote (G : ghost) (n : Z) (h : RaftHardState) (log : list LogEntry) : ghost :=
  mkGhost (record_vote (gh_votes G) n h)
    (if decide (hs_voted_for h = Some n ∧ gh_votes G !! (n, hs_current_term h) = None)
     then <[(n, hs_current_term h) := log]> (gh_starts G) else gh_starts G)
    (gh_reigns G) (gh_acks G).

Section write.
Context (G : ghost) (n : Z) (nd : Node) (p : PendingHardStatePersistence).
Context (HG : ghost_ok G) (Hnode : node_ok G n nd).
Context (Hp : st_pending_hard_state (nd_core nd) = Some p).
Context (Htodo : nd_todo nd = [PersistHardState (pd_request p)]).

Local Abbreviation h' := (phs_state (pd_request p)).
Local Abbreviation G' := (write_vote G n h' (nd_log nd)).

Lemma write_term : hs_current_term h' = current_term (nd_core nd).
Proof.
  pose proof (no_effects _ _ _ Hnode) as He. unfold remaining in He. rewrite Htodo in He.
  by inversion He.
Qed.

Lemma write_follows :
  follows (nd_hard nd) h' ∧ follows h' (hard_state (nd_core nd)).
Proof.
  pose proof (si_core _ _ _ _ (no_server _ _ _ Hnode)) as Hc. simpl in Hc. rewrite Hp in Hc.
  destruct Hc as [Hf Hrun]. split; [done|]. by eapply hs_run_follows.
Qed.

Lemma write_grows : hs_current_term (nd_hard nd) ≤ hs_current_term h'.
Proof. destruct write_follows as [[?|[? _]] _]; lia. Qed.

Lemma write_vote_core c : hs_voted_for h' = Some c → hard_state (nd_core nd) = h'.
Proof.
  intros Hv. destruct write_follows as [_ Hf]. pose proof write_term as Ht.
  unfold follows in Hf. simpl in Hf. destruct Hf as [?|[_ [?|Heq]]]; [lia|congruence|].
  unfold hard_state in *. rewrite <-Ht. simpl in Heq. rewrite <-Heq. by destruct h'.
Qed.

Lemma write_old c : hs_voted_for h' = Some c →
  gh_votes G !! (n, hs_current_term h') = None ∨ gh_votes G !! (n, hs_current_term h') = Some c.
Proof.
  intros Hv. destruct (gh_votes G !! (n, hs_current_term h')) as [c'|] eqn:HV; [|by left]. right.
  destruct (server_write_inv _ _ _ _ _ (no_server _ _ _ Hnode) Hp) as [Hsub Hsv].
  eapply lookup_weaken in HV; [|exact Hsub]. apply (si_latest _ _ _ _ Hsv) in HV. simpl in HV.
  destruct HV as [?|[_ ?]]; [lia|congruence].
Qed.

Lemma write_starts : gh_starts G ⊆ gh_starts G'.
Proof.
  simpl. case_decide as Hd; [|done]. apply insert_subseteq.
  destruct (gh_starts G !! (n, hs_current_term h')) as [start|] eqn:HC; [|done].
  apply (go_starts G HG) in HC as (_ & Hv & _). destruct Hd. congruence.
Qed.

Lemma write_le : ghost_le G G'.
Proof.
  split; [|exact write_starts|done|done]. simpl.
  apply (server_write_inv _ _ _ _ _ (no_server _ _ _ Hnode) Hp).
Qed.

Lemma write_apart m : m ≠ n → apart m G G'.
Proof.
  intros Hm. split; [exact write_le| |done|done]. simpl.
  intros t c [?|(? & _)]%record_vote_new; [done|congruence].
Qed.

(** A vote for the server itself opens its election with the log on its disk. *)
Lemma write_own_start :
  hs_voted_for h' = Some n → gh_votes G !! (n, hs_current_term h') = None →
  gh_starts G' !! (n, hs_current_term h') = Some (nd_log nd) ∧
  hs_current_term (nd_hard nd) < hs_current_term h'.
Proof.
  intros Hv HV. split; [simpl; rewrite decide_True by done; apply lookup_insert_eq|].
  pose proof (write_vote_core n Hv) as Hcore. rewrite write_term in HV |- *.
  destruct (no_self _ _ _ Hnode) as [?|[? _]]; [by eexists| |congruence|done].
  change (hs_voted_for (hard_state (nd_core nd)) = Some n). by rewrite Hcore.
Qed.

Lemma write_ghost_ok : ghost_ok G'.
Proof.
  pose proof write_le as [HV HC _ _]. pose proof write_grows as Hgr. pose proof HG as HG0.
  destruct HG0. split; try done.
  - simpl. intros v t c [?|(-> & _)]%record_vote_new; [by eapply go_voters0|].
    pose proof (si_members _ _ _ _ (no_server _ _ _ Hnode)) as Hm. rewrite <-Hm. by left.
  - intros c t start Hs. simpl in Hs.
    assert (gh_starts G !! (c, t) = Some start ∨ (hs_voted_for h' = Some n ∧
      gh_votes G !! (n, hs_current_term h') = None ∧ c = n ∧ t = hs_current_term h' ∧
      start = nd_log nd)) as [Hold|(Hv & Hnone & -> & -> & ->)].
    { case_decide as Hd; [|by left].
      apply lookup_insert_Some in Hs as [[[= <- <-] <-]|[_ ?]]; [right|by left]. by destruct Hd. }
    + destruct (go_starts0 _ _ _ Hold) as (? & ? & ? & ?). split_and!; try done. by eapply lookup_weaken.
    + destruct (write_own_start Hv Hnone) as [_ Hlt]. pose proof (no_term _ _ _ Hnode).
      split_and!; [lia| |apply Hnode|].
      * simpl. unfold record_vote. rewrite Hv. apply lookup_insert_eq.
      * eapply Forall_impl; [apply Hnode|]. simpl. lia.
  - intros v t c Hv. simpl in Hv. destruct (gh_votes G !! (v, t)) as [c0|] eqn:Hold.
    { assert (c0 = c) as -> by (eapply lookup_weaken in Hold; [|exact HV]; simpl in Hold; congruence).
      destruct (go_votes0 _ _ _ Hold) as (start & Hs & Hpass). exists start.
      split; [by eapply lookup_weaken|done]. }
    apply record_vote_new in Hv as [?|(-> & -> & Hv)]; [congruence|].
    destruct (decide (c = n)) as [->|Hne].
    + destruct (write_own_start Hv Hold) as [Hs Hlt]. exists (nd_log nd). split; [done|].
      simpl. intros HL. eapply vote_passes; try done. by left.
    + pose proof (write_vote_core c Hv) as Hcore.
      assert (voted_for (nd_core nd) = Some c) as Hvc.
      { change (hs_voted_for (hard_state (nd_core nd)) = Some c). by rewrite Hcore. }
      destruct (no_vote _ _ _ Hnode ltac:(by eexists) c Hvc Hne) as [HVc|(start & Hs & Hup)];
        rewrite <-write_term in *; [congruence|].
      exists start. split; [by eapply lookup_weaken|]. simpl. intros HL.
      destruct (go_starts0 _ _ _ Hs) as (_ & _ & Hgen & Hts). eapply vote_passes; try done. by right.
  - intros t m lg HL. destruct (go_leaders0 _ _ _ HL) as (start & Hs & Hpre & Q & HQ & Hq).
    exists start. split_and!; [by eapply lookup_weaken|done|]. exists Q. split; [done|].
    intros v Hin. destruct (Hq v Hin). split; [by eapply lookup_weaken|done].
Qed.

Lemma write_node_ok : node_ok G' n (perform nd (PersistHardState (pd_request p)) []).
Proof.
  pose proof write_le as Hle. pose proof Hle as [HV HC _ _]. pose proof write_grows as Hgr.
  pose proof write_term as Hterm. pose proof write_own_start as Hown.
  pose proof write_vote_core as Hvc.
  destruct (server_write_inv _ _ _ _ _ (no_server _ _ _ Hnode) Hp) as [_ Hsv].
  pose proof Hnode as Hnode0. destruct Hnode0. unfold remaining in *. rewrite Htodo in *.
  split; unfold remaining; simpl in *; try done.
  - lia.
  - eapply Forall_impl; [done|]. simpl. lia.
  - intros t j Ha. destruct (no_acks0 t j Ha) as [? Hc]. split; [lia|]. intros Hs.
    destruct (Hc Hs) as [?|(t' & ? & ?)]; [by left|right]. exists t'. split; [lia|done].
  - destruct no_log0 as [[? Hno]|[Hf ?]]; [left|right]; split; try done; [set_solver|].
    by eapply log_first_tail.
  - by inversion no_effects0.
  - by eapply requests_first_tail.
  - rewrite Hp. by right.
  - intros Hp' c Hc Hne. destruct (no_vote0 Hp' c Hc Hne) as [?|(start & Hs & ?)].
    + left. by eapply lookup_weaken.
    + right. exists start. split; [by eapply lookup_weaken|done].
  - intros Hp' Hc. left. destruct (no_self0 Hp' Hc) as [?|[_ Hall]]; [by eapply lookup_weaken|].
    specialize (Hall (pd_request p) ltac:(by left)). unfold record_vote. rewrite Hall. simpl.
    rewrite Hc. apply lookup_insert_eq.
  - intros Hr. destruct (no_candidate0 Hr) as (? & ? & HC0 & ?). split_and!; try done.
    intros Hv. apply record_vote_new in Hv as [Hv|(_ & _ & Hv)].
    + eapply lookup_weaken; [by apply HC0|done].
    + rewrite <-Hterm. destruct (write_old n Hv) as [Hnone|Hsome]; [by apply Hown|].
      rewrite Hterm in *. eapply lookup_weaken; [by apply HC0|done].
Qed.
End write.
End invariant.
