(* ===== verification/LogWrites.v ===== *)
(** * Log writes and messages keep the invariant

    The remaining steps of the cluster with logs: [PersistState(log)] of a leader
    and of a follower, and the messages that rely on what was written before
    them. *)

From S2P Require Import Prelude OrdMap Bytes StoreTypes RaftTypes Figure2 Figure2Votes Figure2Log.
From S2P Require Import LeaderLogs Figure2Steps Figure2Effects Cluster LogCluster LogReact LogInv.

(** ** Changes of the history *)

(** The leader of term [t] has [log]. *)
Definition extend (G : ghost) (n t : Z) (log : list LogEntry) : ghost :=
  mkGhost (gh_votes G) (gh_starts G) (<[t := (n, log)]> (gh_reigns G)) (gh_acks G).

(** Server [n] acknowledges the first [k] entries of the leader of [t]. *)
Definition acknowledge (G : ghost) (n t : Z) (k : nat) : ghost :=
  mkGhost (gh_votes G) (gh_starts G) (gh_reigns G)
    (λ v t' j, gh_acks G v t' j ∨ (v = n ∧ t' = t ∧ (j ≤ k)%nat)).

Section changes.
Context (members : list Z) (G : ghost) (HG : ghost_ok members G).

Lemma acknowledge_le n t k : ghost_le G (acknowledge G n t k).
Proof. split; try done. simpl. auto. Qed.

Lemma acknowledge_apart n t k m : m ≠ n → apart m G (acknowledge G n t k).
Proof.
  intros Hm. split; try done; [apply acknowledge_le|]. simpl. intros t' j [?|(? & _)]; [done|congruence].
Qed.

(** Nothing was passed on past the acknowledgement, because [n] has not voted in a
    later term. *)
Lemma acknowledge_ok n t k lg :
  leader_log (gh_reigns G) t = Some lg → (k ≤ length lg)%nat →
  (∀ t' c, gh_votes G !! (n, t') = Some c → t' ≤ t) → ghost_ok members (acknowledge G n t k).
Proof.
  intros HL Hk Hlatest.
  assert (∀ v t' c start, gh_votes G !! (v, t') = Some c →
    passes_on (gh_reigns G) (gh_acks G) t' v start →
    passes_on (gh_reigns G) (gh_acks (acknowledge G n t k)) t' v start) as Hpass.
  { intros v t' c start Hv. eapply passes_on_frame; [done|done|].
    intros t0 j Hlt [?|(-> & -> & _)]; [done|]. apply Hlatest in Hv. lia. }
  destruct HG. split; try done; simpl.
  - intros v t' j j' [Ha|(-> & -> & Hj)] Hle; [left; by eapply go_down|right; split_and!; [done..|lia]].
  - intros v t' j [Ha|(-> & -> & Hj)]; [by eapply go_acks|]. exists lg. split; [done|lia].
  - intros v t' c Hv. destruct (go_votes v t' c Hv) as (start & Hs & Hp). exists start.
    split; [done|]. intros Hn. by eapply Hpass; [|apply Hp].
  - intros t' n' lg' Hlg. destruct (go_leaders _ _ _ Hlg) as (start & Hs & Hpre & Q & HQ & Hq).
    exists start. split_and!; try done. exists Q. split; [done|]. intros v Hin.
    destruct (Hq v Hin) as [Hv Hp]. split; [done|]. by eapply Hpass.
Qed.

Context (n t : Z) (lg : list LogEntry) (e : LogEntry).
Context (HL : gh_reigns G !! t = Some (n, lg)) (He : en_term e = t).

Lemma extend_grows : grows (gh_reigns G) (<[t := (n, lg ++ [e])]> (gh_reigns G)).
Proof.
  intros t' n' lg' Hlg. destruct (decide (t' = t)) as [->|Hne].
  - rewrite HL in Hlg. injection Hlg as <- <-. exists [e]. rewrite lookup_insert_eq.
    split; [done|by repeat constructor].
  - exists []. rewrite app_nil_r, lookup_insert_ne by done. done.
Qed.

Lemma extend_le : ghost_le G (extend G n t (lg ++ [e])).
Proof. split; try done. exact extend_grows. Qed.

Lemma extend_apart m : m ≠ n → apart m G (extend G n t (lg ++ [e])).
Proof.
  intros Hm. split; try done; [exact extend_le|]. simpl.
  intros t' lg' [[_ ?]|[_ ?]]%lookup_insert_Some; [congruence|done].
Qed.

(** An entry of its own term at the end of a leader's log. *)
Lemma leader_wf_snoc L L' :
  leader_wf L t lg → grows L L' → leader_log L' t = Some (lg ++ [e]) →
  contiguous 0 (lg ++ [e]) → leader_wf L' t (lg ++ [e]).
Proof.
  intros [H1 Hgen Hs Hts Hc] Hg HL' Hc'. rewrite Forall_forall in Hts. split; try done.
  - intros i x [Hi|[Hge Hi]]%lookup_app_Some.
    + destruct (genuine_mono _ _ _ Hg Hgen i x Hi) as (lg0 & HL0 & Ht). exists lg0. split; [done|].
      apply lookup_lt_Some in Hi. by rewrite take_app_le by lia.
    + apply list_lookup_singleton_Some in Hi as [_ <-]. exists (lg ++ [e]). by rewrite He.
  - intros i k x y Hi [Hk|[Hge Hk]]%lookup_app_Some Hle.
    + rewrite lookup_app_l in Hi by (apply lookup_lt_Some in Hk; lia). by eapply (Hs i k).
    + apply list_lookup_singleton_Some in Hk as [_ <-].
      apply lookup_app_Some in Hi as [Hi|[_ Hi]].
      * rewrite He. apply (Hts x). by eapply list_elem_of_lookup_2.
      * apply list_lookup_singleton_Some in Hi as [_ <-]. done.
  - apply Forall_app. split; [by apply Forall_forall|]. constructor; [lia|done].
Qed.

Lemma extend_ok :
  contiguous 0 (lg ++ [e]) → 2 * Z.of_nat (length (lg ++ [e])) < u64_max →
  ghost_ok members (extend G n t (lg ++ [e])).
Proof.
  intros Hc Hroom. pose proof extend_grows as Hg.
  assert (∀ t' v start, passes_on (gh_reigns G) (gh_acks G) t' v start →
    passes_on (<[t := (n, lg ++ [e])]> (gh_reigns G)) (gh_acks G) t' v start) as Hpass.
  { intros t' v start. by eapply passes_on_frame. }
  assert (leader_log (<[t := (n, lg ++ [e])]> (gh_reigns G)) t = Some (lg ++ [e])) as HLt.
  { apply leader_log_Some. exists n. apply lookup_insert_eq. }
  assert (∀ t' lg', leader_log (<[t := (n, lg ++ [e])]> (gh_reigns G)) t' = Some lg' →
    (t' = t ∧ lg' = lg ++ [e]) ∨ leader_log (gh_reigns G) t' = Some lg') as Hcase.
  { intros t' lg' (n' & [[<- [= <- <-]]|[_ ?]]%lookup_insert_Some)%leader_log_Some; [by left|right].
    apply leader_log_Some. eauto. }
  destruct HG. split; simpl; try done.
  - intros t' lg' [[-> ->]|Hlg]%Hcase; [|by eapply leader_wf_mono; [|apply go_wf]].
    eapply leader_wf_snoc; try done. apply go_wf, leader_log_Some. eauto.
  - intros t' lg' [[-> ->]|Hlg]%Hcase; [done|by eapply go_room].
  - intros v t' j Ha. destruct (go_acks v t' j Ha) as (lg' & Hlg & Hj).
    destruct (grows_log _ _ _ _ Hg Hlg) as (ext & Hlg' & _). exists (lg' ++ ext).
    rewrite length_app. split; [done|lia].
  - intros c t' start Hs. destruct (go_starts _ _ _ Hs) as (? & ? & ? & ?). split_and!; try done.
    by eapply genuine_mono.
  - intros v t' c Hvc. destruct (go_votes v t' c Hvc) as (start & Hs & Hp). exists start.
    split; [done|]. intros Hn. apply Hpass, Hp. by apply lookup_insert_None in Hn as [? _].
  - intros t' n' lg' Hlg. assert (∃ lg0, gh_reigns G !! t' = Some (n', lg0) ∧ lg0 `prefix_of` lg')
      as (lg0 & Hlg0 & Hpre0).
    { apply lookup_insert_Some in Hlg as [[<- [= <- <-]]|[_ ?]]; [|by eauto].
      exists lg. split; [done|]. by apply prefix_app_r. }
    destruct (go_leaders _ _ _ Hlg0) as (start & Hs & Hpre & Q' & HQ' & Hq). exists start.
    split_and!; [done|by etrans|]. exists Q'. split; [done|]. intros v Hin. destruct (Hq v Hin). auto.
Qed.
End changes.

(** ** Performing an effect other than a hard-state request *)

Section perform.
Context (members : list Z) (G : ghost) (n : Z) (nd : Node) (e : Effect) (rest : list Effect).
Context (HG : ghost_ok members G) (Hnode : node_ok members G n nd).
Context (Htodo : nd_todo nd = e :: rest) (He : ∀ q, e ≠ PersistHardState q).

Lemma head_pending : st_pending_hard_state (nd_core nd) = None.
Proof.
  pose proof (no_todo _ _ _ _ Hnode) as Ht. rewrite Htodo in Ht.
  destruct (st_pending_hard_state (nd_core nd)) as [p|]; [|done].
  destruct Ht as [[= -> _]|[? _]]; [by destruct (He (pd_request p))|done].
Qed.

Lemma head_hard : hard_state (nd_core nd) = nd_hard nd.
Proof.
  pose proof (si_core _ _ _ _ (no_server _ _ _ _ Hnode)) as Hc. simpl in Hc.
  by rewrite head_pending in Hc.
Qed.

Lemma head_remaining : remaining nd = e :: rest.
Proof. unfold remaining, held. by rewrite Htodo, head_pending, app_nil_r. Qed.

Lemma head_term : hs_current_term (nd_hard nd) = current_term (nd_core nd).
Proof. by rewrite <-head_hard. Qed.

(** The server has not voted in a later term. *)
Lemma head_latest t c : gh_votes G !! (n, t) = Some c → t ≤ current_term (nd_core nd).
Proof.
  intros Hv%(si_latest _ _ _ _ (no_server _ _ _ _ Hnode)). simpl in Hv. rewrite head_term in Hv.
  destruct Hv as [?|[? _]]; lia.
Qed.

Lemma head_run :
  hs_effect (nd_hard nd) e = Some (nd_hard nd) ∧ hs_run (nd_hard nd) rest = Some (nd_hard nd) ∧
  ∀ q, PersistHardState q ∉ rest.
Proof.
  pose proof (no_todo _ _ _ _ Hnode) as Ht. rewrite Htodo, head_pending in Ht.
  destruct Ht as [Hrun Hno]. assert (∀ q, PersistHardState q ∉ rest) as Hno'.
  { intros q Hq. apply (Hno q). by right. }
  simpl in Hrun. destruct (hs_effect (nd_hard nd) e) as [h|] eqn:Hh; [|done].
  assert (h = nd_hard nd) as ->; [|done].
  pose proof (hs_run_no_persist _ _ _ Hno' Hrun). congruence.
Qed.

(** Effects that do not write the log: the rest remains. *)
Lemma performed_ok :
  e ≠ PersistLog → node_ok members G n (mkNode (nd_core nd) (nd_hard nd) (nd_log nd) rest).
Proof.
  intros Hlog. pose proof head_remaining as Hrem. pose proof head_pending as Hp.
  pose proof head_run as (_ & Hrun & Hno).
  assert (remaining (mkNode (nd_core nd) (nd_hard nd) (nd_log nd) rest) = rest) as Hrem'.
  { unfold remaining, held. simpl. by rewrite Hp, app_nil_r. }
  pose proof Hnode as Hnode0. destruct Hnode0. rewrite Hrem in *.
  split; rewrite ?Hrem'; simpl; try done.
  - destruct no_log as [[? ?]|[Hf ?]]; [left|right]; split; try done; [set_solver|].
    by eapply log_first_tail.
  - by inversion no_effects.
  - by apply requests_first_none.
  - by rewrite Hp.
  - rewrite Hp. by intros [? ?].
Qed.

(** A message that relies on the log leaves when the log is on disk. *)
Lemma relies_written : relies_on_log e → log_of (nd_core nd) = nd_log nd.
Proof.
  intros Hr. destruct (no_log _ _ _ _ Hnode) as [[? _]|[Hf _]]; [done|exfalso].
  rewrite head_remaining in Hf. destruct Hf as (pre & post & Heq & Hpre & _).
  destruct pre as [|e' pre]; simplify_eq/=; [done|]. by inversion Hpre.
Qed.
End perform.

(** ** Log writes *)

Section log_write.
Context (members : list Z) (G : ghost) (n : Z) (nd : Node) (rest : list Effect).
Context (HG : ghost_ok members G) (Hnode : node_ok members G n nd).
Context (Htodo : nd_todo nd = PersistLog :: rest).

Local Abbreviation T := (current_term (nd_core nd)).
Local Abbreviation nd' := (perform nd PersistLog rest).

(** What does not depend on the kind of write. *)
Lemma write_log_node G' :
  ghost_le G G' → gh_votes G' = gh_votes G → gh_starts G' = gh_starts G →
  genuine (gh_reigns G') (log_of (nd_core nd)) →
  Forall (λ e, en_term e ≤ hs_current_term (nd_hard nd)) (log_of (nd_core nd)) →
  (∀ t j, gh_acks G' n t j → t ≤ hs_current_term (nd_hard nd) ∧
    (solid (gh_reigns G') t j → contains (gh_reigns G') t j (log_of (nd_core nd)) ∨
       ∃ t', t < t' ≤ hs_current_term (nd_hard nd) ∧ omits (gh_reigns G') t' t j)) →
  (PersistLog ∉ rest) → st_role (nd_core nd) ≠ role_candidate →
  (st_role (nd_core nd) = role_leader →
    gh_reigns G' !! T = Some (n, log_of (nd_core nd)) ∧ progress_acked (gh_acks G') (nd_core nd) ∧
    ∀ j, solid (gh_reigns G') T j → gh_acks G' n T j) →
  node_ok members G' n nd'.
Proof.
  intros Hle EV EC Hgen Hts Hacks Hno Hnc Hlead.
  pose proof (head_remaining _ _ _ _ _ _ Hnode Htodo ltac:(done)) as Hrem.
  pose proof (head_pending _ _ _ _ _ _ Hnode Htodo ltac:(done)) as Hp.
  pose proof (head_run _ _ _ _ _ _ Hnode Htodo ltac:(done)) as (_ & Hrun & Hnoq).
  assert (remaining nd' = rest) as Hrem'.
  { unfold remaining, held. simpl. by rewrite Hp, app_nil_r. }
  pose proof Hnode as Hnode0. destruct Hnode0. rewrite Hrem in *.
  split; rewrite ?Hrem', ?EV, ?EC; simpl; try done.
  - by eapply settled_mono.
  - by left.
  - inversion no_effects. eapply Forall_impl; [done|]. intros eff. by apply effect_ok_mono.
  - by apply requests_first_none.
  - by rewrite Hp.
  - rewrite Hp. by intros [? ?].
  - rewrite Hp. by intros [? ?].
Qed.

(** A leader writes the entry it created: its reign grows and it acknowledges the
    entry itself. *)
Lemma leader_write_ok e :
  (PersistLog ∉ rest) → st_role (nd_core nd) = role_leader → log_of (nd_core nd) = nd_log nd ++ [e] →
  en_term e = T →
  ∃ G', ghost_le G G' ∧ ghost_ok members G' ∧ (∀ m, m ≠ n → apart m G G') ∧
    node_ok members G' n nd'.
Proof.
  intros Hno Hrole Hlog He.
  pose proof (head_term _ _ _ _ _ _ Hnode Htodo ltac:(done)) as Hterm.
  pose proof (head_latest _ _ _ _ _ _ Hnode Htodo ltac:(done)) as Hlatest.
  pose proof (so_good _ (no_core _ _ _ _ Hnode)) as Hgood.
  destruct (no_leader _ _ _ _ Hnode Hrole) as (HL & Hpr & Hown).
  pose proof (unsnapped_contiguous _ (no_unsnapped _ _ _ _ Hnode) Hgood) as Hcont.
  pose proof (no_room _ _ _ _ Hnode) as Hroom. rewrite Hlog in Hcont, Hroom.
  pose proof (extend_ok _ _ HG n T (nd_log nd) e HL He Hcont Hroom) as HG1.
  pose proof (extend_le G n T (nd_log nd) e HL He) as Hle1.
  set (G1 := extend G n T (nd_log nd ++ [e])) in *.
  set (k := length (nd_log nd ++ [e])). set (G2 := acknowledge G1 n T k).
  assert (leader_log (gh_reigns G1) T = Some (nd_log nd ++ [e])) as HL1.
  { apply leader_log_Some. exists n. apply lookup_insert_eq. }
  assert (ghost_ok members G2) as HG2 by (by eapply acknowledge_ok).
  assert (ghost_le G G2) as Hle2 by (eapply ghost_le_trans; [exact Hle1|apply acknowledge_le]).
  exists G2. split_and!; [done|done| |].
  { intros m Hm. destruct (extend_apart G n T (nd_log nd) e HL He m Hm) as [_ ? ? ?].
    split; [done|done| |done]. simpl. intros t j [?|(? & _)]; [done|congruence]. }
  apply write_log_node; try done.
  + rewrite Hlog. by apply (lw_genuine _ _ _ (go_wf _ _ HG2 T _ HL1)).
  + rewrite Hlog, Hterm. by apply (lw_terms _ _ _ (go_wf _ _ HG2 T _ HL1)).
  + rewrite Hlog. intros t j [Ha|(_ & -> & Hj)].
    * destruct (no_acks_mono members G G1 n nd HG Hle1 ltac:(done) Hnode t j Ha) as [? Hc].
      split; [done|]. intros Hs. destruct (Hc Hs) as [?|?]; [left|by right].
      eapply contains_prefix; [done|done|by apply prefix_app_r].
    * split; [lia|]. intros _. left. by exists (nd_log nd ++ [e]).
  + congruence.
  + intros _. rewrite Hlog. split_and!; [apply lookup_insert_eq| |].
    * intros l p g Hl Hpg. destruct (Hpr l p g Hl Hpg); [by left|right]. by left.
    * intros j (lg & i & x & Hlg & -> & Hi & _). change (gh_reigns G2) with (gh_reigns G1) in Hlg.
      rewrite HL1 in Hlg. injection Hlg as <-. right. split_and!; [done..|].
      apply lookup_lt_Some in Hi. unfold k. lia.
Qed.

(** A follower writes a prefix of its leader's log that is longest where the two
    differ: what it acknowledged before it still contains, or this leader omits. *)
Lemma follower_write_ok lg k :
  (PersistLog ∉ rest) → st_role (nd_core nd) = role_follower →
  leader_log (gh_reigns G) T = Some lg → log_of (nd_core nd) = take k lg →
  (∀ j, (j ≤ length (nd_log nd))%nat → take j (nd_log nd) = take j lg → (j ≤ k)%nat) →
  node_ok members G n nd'.
Proof.
  intros Hno Hrole HL Hlog Hmax.
  pose proof (head_term _ _ _ _ _ _ Hnode Htodo ltac:(done)) as Hterm.
  pose proof (go_wf _ _ HG _ _ HL) as Hlwf.
  apply write_log_node; try done; [| | |congruence|congruence].
  + rewrite Hlog. apply genuine_take. apply Hlwf.
  + rewrite Hlog, Hterm. apply Forall_take. apply Hlwf.
  + intros t j Ha. destruct (no_acks _ _ _ _ Hnode t j Ha) as [Hle Hc]. split; [done|].
    intros Hs. destruct (Hc Hs) as [Hc'|?]; [|by right].
    pose proof (contains_nonempty _ _ _ _ Hs Hc') as Hj.
    destruct Hc' as (lgt & HLt & Hjt & Heq).
    destruct (decide (take j lg = take j lgt)) as [Hsame|Hdiff].
    * left. exists lgt. split_and!; [done|done|]. rewrite Hlog, take_take, Nat.min_l; [done|].
      apply Hmax; [lia|congruence].
    * right. exists T. assert (t ≠ T) by (intros ->; congruence). split; [lia|].
      exists lg. split; [done|]. intros (lg2 & HL2 & _ & Heq2). congruence.
Qed.

Lemma persist_log_ok :
  ∃ G', ghost_le G G' ∧ ghost_ok members G' ∧ (∀ m, m ≠ n → apart m G G') ∧
    node_ok members G' n nd'.
Proof.
  pose proof (head_remaining _ _ _ _ _ _ Hnode Htodo ltac:(done)) as Hrem.
  pose proof (no_log _ _ _ _ Hnode) as Hlog. rewrite Hrem in Hlog.
  destruct Hlog as [[_ ?]|[Hf (s0 & Hs0 & Hw)]]; [set_solver|].
  assert (PersistLog ∉ rest) as Hno.
  { destruct Hf as (pre & post & Heq & _ & Hpre & Hpost). destruct pre; simplify_eq/=; set_solver. }
  destruct Hw as [(_ & Hrole & Ht0 & _ & e & Hlog & He)|(Hrole & lg & k & HL & Hk & Hlog & Hmax)].
  - apply (leader_write_ok e); congruence.
  - exists G. split_and!; [apply ghost_le_refl|done|intros m _; apply apart_refl|].
    rewrite Hs0 in Hmax. by apply (follower_write_ok lg k).
Qed.
End log_write.

(** ** Messages *)

(** An acknowledgement of the server's own, for entries on its disk. *)
Lemma node_acknowledge members G n nd t k :
  node_ok members G n nd → t ≤ hs_current_term (nd_hard nd) →
  contains (gh_reigns G) t k (nd_log nd) → node_ok members (acknowledge G n t k) n nd.
Proof.
  intros Hnode Ht (lg & HL & Hk & Hc). pose proof (acknowledge_le G n t k) as Hle.
  destruct Hnode. split; try done; simpl.
  - intros t' j [Ha|(_ & -> & Hj)]; [by apply no_acks|]. split; [done|]. intros _. left.
    exists lg. split_and!; [done|lia|by eapply take_eq_le].
  - by apply (settled_mono members G (acknowledge G n t k)).
  - intros Hr. destruct (no_leader Hr) as (? & Hp & Hs). split_and!; [done| |by auto].
    intros l p g Hl Hpg. destruct (Hp l p g Hl Hpg); [by left|right]. by left.
Qed.

Section send.
Context (members : list Z) (G : ghost) (n : Z) (nd : Node) (e : Effect) (rest : list Effect).
Context (HG : ghost_ok members G) (Hnode : node_ok members G n nd).
Context (Htodo : nd_todo nd = e :: rest) (He : ∀ q, e ≠ PersistHardState q).

Local Abbreviation s := (nd_core nd).

Lemma head_ok : effect_ok (gh_reigns G) s e.
Proof.
  pose proof (no_effects _ _ _ _ Hnode) as Hall.
  rewrite (head_remaining _ _ _ _ _ _ Hnode Htodo He) in Hall. by inversion Hall.
Qed.

Lemma send_vote_request to q :
  e = SendRequestVote to q → message_ok members G to (ReceiveRequestVote n q).
Proof.
  intros Heq. pose proof head_ok as Hok. pose proof (no_server _ _ _ _ Hnode) as Hsv.
  pose proof (head_hard _ _ _ _ _ _ Hnode Htodo He) as Hh.
  destruct (head_run _ _ _ _ _ _ Hnode Htodo He) as (Hrun & _). rewrite Heq in Hok, Hrun.
  destruct Hok as (Hr & Hi & Ht). simpl in Hrun. case_decide as Hd; [|done].
  destruct (no_candidate _ _ _ _ Hnode Hr) as (_ & Hlog & HC & _).
  destruct (si_candidate _ _ _ _ Hsv Hr) as [Hv _]. simpl in Hv.
  assert (current_term s = rv_term q) as Hterm.
  { change (current_term s) with (hs_current_term (hard_state s)). by rewrite Hh, Hd. }
  assert (gh_votes G !! (n, rv_term q) = Some n) as Hvote.
  { rewrite <-Hterm, <-(head_term _ _ _ _ _ _ Hnode Htodo He). apply (si_disk _ _ _ _ Hsv). simpl.
    rewrite <-Hh. exact Hv. }
  rewrite Hterm in HC. split; [done|]. split; [|done]. exists (nd_log nd).
  split; [by apply HC|]. rewrite Hi, Ht, <-Hlog.
  rewrite unsnapped_last_index, unsnapped_last_term by apply Hnode. done.
Qed.

Lemma send_vote_response to response :
  e = SendRequestVoteResponse to response →
  message_ok members G to (ReceiveRequestVoteResponse n response).
Proof.
  intros Heq. split; [done|]. split; [done|]. intros Hg.
  destruct (head_run _ _ _ _ _ _ Hnode Htodo He) as (Hrun & _). rewrite Heq in Hrun. simpl in Hrun.
  rewrite Hg in Hrun. case_decide as Hd; [|done].
  pose proof (si_disk _ _ _ _ (no_server _ _ _ _ Hnode)) as Hdisk. simpl in Hdisk.
  rewrite Hd in Hdisk. by apply Hdisk.
Qed.

Lemma send_append_request to q :
  e = SendAppendEntries to q → message_ok members G to (ReceiveAppendEntries n q).
Proof.
  intros Heq. pose proof head_ok as Hok. rewrite Heq in Hok. destruct Hok as (Hr & Hs & Ht & Hc).
  assert (log_of s = nd_log nd) as Hlog.
  { eapply relies_written; [done|done|done|]. by rewrite Heq. }
  destruct (no_leader _ _ _ _ Hnode Hr) as (HL & _). rewrite <-Hlog in HL.
  split; [done|]. split; [|done]. exists (log_of s). rewrite Ht.
  pose proof (so_good _ (no_core _ _ _ _ Hnode)) as Hg.
  pose proof (ok_commit _ (gd_ok _ Hg)) as Hcom.
  rewrite (unsnapped_last_index _ (no_unsnapped _ _ _ _ Hnode) Hg) in Hcom.
  split_and!; [apply leader_log_Some; by eauto|done|lia|lia|].
  eapply settled_le; [apply Hnode|lia|done].
Qed.

Lemma send_append_response to response :
  e = SendAppendEntriesResponse to response → ar_succeeded response = true →
  let k := Z.to_nat (ar_matched_index response) in
  contains (gh_reigns G) (current_term s) k (nd_log nd) ∧
  ghost_ok members (acknowledge G n (current_term s) k) ∧
  message_ok members (acknowledge G n (current_term s) k) to (ReceiveAppendEntriesResponse n response).
Proof.
  intros Heq Hs k. pose proof head_ok as Hok. rewrite Heq in Hok.
  destruct (Hok Hs) as (Ht & H0 & Hc). fold k in Hc.
  assert (log_of s = nd_log nd) as Hlog.
  { eapply relies_written; [done|done|done|]. by rewrite Heq. }
  rewrite Hlog in Hc. split; [done|]. destruct Hc as (lg & HL & Hk & _). split.
  - eapply acknowledge_ok; try done. by eapply head_latest.
  - split; [done|]. split; [|done]. intros _. split; [done|]. right. rewrite Ht. right.
    split_and!; [done..|unfold k; lia].
Qed.

Lemma send_ok :
  e ≠ PersistLog →
  ∃ G', ghost_le G G' ∧ ghost_ok members G' ∧ (∀ m, m ≠ n → apart m G G') ∧
    node_ok members G' n (perform nd e rest) ∧
    ∀ to ev, (to, ev) ∈ option_list (message_of n e) → message_ok members G' to ev.
Proof.
  intros Hnl. pose proof (performed_ok _ _ _ _ _ _ HG Hnode Htodo He Hnl) as Hperf.
  assert (perform nd e rest = mkNode (nd_core nd) (nd_hard nd) (nd_log nd) rest) as ->.
  { destruct e; try done. by destruct (He request). }
  assert ((∃ to response, e = SendAppendEntriesResponse to response ∧ ar_succeeded response = true) ∨
    ∀ to ev, (to, ev) ∈ option_list (message_of n e) → message_ok members G to ev)
    as [(to & response & Heq & Hs)|Hmsg].
  { pose proof send_vote_request as Hvq. pose proof send_vote_response as Hvr.
    pose proof send_append_request as Haq.
    destruct e as [| |to q|to q|to q|to q| | |]; simpl.
    1,2,7,8,9: right; set_solver.
    - right. intros to' ev [= -> ->]%list_elem_of_singleton. by apply Hvq.
    - right. intros to' ev [= -> ->]%list_elem_of_singleton. by apply Hvr.
    - right. intros to' ev [= -> ->]%list_elem_of_singleton. by apply Haq.
    - destruct (ar_succeeded q) eqn:Hs; [left; eauto|right].
      intros to' ev [= -> ->]%list_elem_of_singleton. split; [done|]. split; [|done]. simpl. congruence. }
  - destruct (send_append_response to response Heq Hs) as (Hc & HG' & Hm).
    exists (acknowledge G n (current_term s) (Z.to_nat (ar_matched_index response))).
    split_and!; [apply acknowledge_le|done|intros m; apply acknowledge_apart| |].
    + apply node_acknowledge; [done| |done].
      rewrite <-(head_term _ _ _ _ _ _ Hnode Htodo He). done.
    + rewrite Heq. by intros to' ev [= -> ->]%list_elem_of_singleton.
  - exists G. split_and!; [apply ghost_le_refl|done|intros m _; apply apart_refl|done|done].
Qed.
End send.

(** ** The whole system *)

Lemma message_ok_local members G n s e :
  local_event s e → message_ok members G n e ∧ has_room s e.
Proof. by destruct e. Qed.

Lemma server_room s e : from_server e → has_room s e.
Proof. by destruct e. Qed.

Lemma message_from_server n e to ev :
  (to, ev) ∈ option_list (message_of n e) → from_server ev.
Proof. destruct e; simpl; try set_solver; by intros [= -> ->]%list_elem_of_singleton. Qed.

Lemma log_step_inv members G c c' :
  log_inv members G c → log_cluster_step c c' → ∃ G', ghost_le G G' ∧ log_inv members G' c'.
Proof.
  intros Hinv Hstep. pose proof Hinv as [Hsev HG Hnodes Hnet].
  destruct Hstep as [n nd e r Hn Ht He Hs|n nd e rest Hn Ht|n nd p r Hn Ht Hp Hs|n nd Hn];
    pose proof (Hnodes n nd Hn) as Hnode.
  - assert (message_ok members G n e ∧ has_room (nd_core nd) e) as [Hm Hr].
    { destruct He as [He|He]; [by apply message_ok_local|]. destruct (Hnet n e He).
      split; [done|by apply server_room]. }
    destruct (input_ok _ _ _ _ _ _ HG Hsev Hnode Ht Hm Hr Hs) as (G' & Hle & HG' & Hap & Hnode').
    exists G'. split; [done|]. eapply put_inv; try done. set_solver.
  - assert ((∃ q, e = PersistHardState q) ∨ ∀ q, e ≠ PersistHardState q) as [[q ->]|Hq].
    { destruct e; (by right) || (left; by eexists). }
    + pose proof (no_todo _ _ _ _ Hnode) as Htodo. rewrite Ht in Htodo.
      destruct (st_pending_hard_state (nd_core nd)) as [p|] eqn:Hp.
      * destruct Htodo as [[= -> ->]|[? _]]; [|done].
        exists (write_vote G n (phs_state (pd_request p)) (nd_log nd)).
        split; [by eapply write_le|]. simpl. eapply put_inv.
        -- exact Hinv.
        -- by eapply write_ghost_ok.
        -- by eapply write_le.
        -- intros m Hm. by eapply write_apart.
        -- by eapply write_node_ok.
        -- set_solver.
      * destruct Htodo as [_ Hno]. exfalso. apply (Hno q). by left.
    + assert (e = PersistLog ∨ e ≠ PersistLog) as [->|Hnl] by (destruct e; auto).
      * destruct (persist_log_ok _ _ _ _ _ HG Hnode Ht) as (G' & Hle & HG' & Hap & Hnode').
        exists G'. split; [done|]. eapply put_inv; try done. set_solver.
      * destruct (send_ok _ _ _ _ _ _ HG Hnode Ht Hq Hnl) as (G' & Hle & HG' & Hap & Hnode' & Hm).
        exists G'. split; [done|]. eapply put_inv; try done. intros to ev Hin.
        split; [by apply Hm|by eapply message_from_server].
  - exists G. split; [apply ghost_le_refl|]. eapply put_inv; try done.
    + by eapply complete_ok.
    + set_solver.
  - exists G. split; [apply ghost_le_refl|]. eapply put_inv; try done.
    + by apply reboot_ok.
    + set_solver.
Qed.

Lemma log_steps_inv members G c c' :
  log_inv members G c → log_cluster_steps c c' → ∃ G', ghost_le G G' ∧ log_inv members G' c'.
Proof.
  intros Hinv Hs. revert G Hinv. induction Hs as [c|c1 c2 c3 H12 _ IH]; intros G Hinv.
  { exists G. split; [apply ghost_le_refl|done]. }
  destruct (log_step_inv _ _ _ _ Hinv H12) as (G2 & Hle & Hinv2).
  destruct (IH _ Hinv2) as (G3 & Hle3 & Hinv3). exists G3. split; [by eapply ghost_le_trans|done].
Qed.

(** Before the first step nothing has happened. *)
Lemma log_initial_inv members c :
  log_initial members c → log_inv members (mkGhost ∅ ∅ ∅ (λ _ _ _, False)) c.
Proof.
  intros [Hnd Hsev Hnodes Hnet]. split; [done| | |by rewrite Hnet; set_solver].
  - split; simpl; try done.
  - intros n nd (peers & Hp & ->)%Hnodes.
    assert ((n ∉ peers) ∧ NoDup peers) as [Hn Hpn] by (rewrite <-Hp in Hnd; by apply NoDup_cons).
    assert (good (boot_state n peers (mkHardState 0 None) [])) as Hg
      by (apply boot_good; try done; simpl; lia).
    split; simpl; try done.
    + by left.
    + left. split; [done|]. unfold remaining. simpl. set_solver.
    + apply requests_first_nil.
    + split; [done|]. set_solver.
Qed.
