(* ===== verification/LogSafety.v ===== *)
(** * Safety of the replicated log

    Log Matching, Leader Completeness and State Machine Safety of a cluster of
    Figure 2 servers with logs on disk ([LogCluster]). *)

From S2P Require Import Prelude OrdMap Bytes StoreTypes RaftTypes Figure2 Figure2Votes Figure2Log.
From S2P Require Import LeaderLogs Figure2Steps Figure2Effects Cluster LogCluster LogReact LogInv LogWrites.

(** Server [n] has [log] on its disk. *)
Definition stores (c : LogCluster) (n : Z) (log : list LogEntry) : Prop :=
  ∃ nd, lc_nodes c !! n = Some nd ∧ nd_log nd = log.

(** Server [n] leads term [t]. *)
Definition log_leads (c : LogCluster) (n t : Z) : Prop :=
  ∃ nd, lc_nodes c !! n = Some nd ∧ st_role (nd_core nd) = role_leader ∧ current_term (nd_core nd) = t.

(** Server [n] holds [e] at index [i] below its commit index, in term [t]. *)
Definition commits_in (c : LogCluster) (n t i : Z) (e : LogEntry) : Prop :=
  commits c n i e ∧ ∃ nd, lc_nodes c !! n = Some nd ∧ current_term (nd_core nd) = t.

Section safety.
Context (members : list Z).

Lemma history_elected G :
  ghost_ok members G → ∀ t lg, leader_log (gh_reigns G) t = Some lg →
    well_elected members (gh_reigns G) (gh_acks G) t lg.
Proof.
  intros HG t lg (n & HL)%leader_log_Some.
  destruct (go_leaders _ _ HG _ _ _ HL) as (start & _ & Hpre & Q & HQ & Hq).
  exists start, Q. split_and!; [done..|]. intros v Hv. by apply Hq.
Qed.

(** The states of an execution, with one history for two of them. *)
Lemma reachable_inv c0 c1 c2 :
  log_initial members c0 → log_cluster_steps c0 c1 → log_cluster_steps c1 c2 →
  ∃ G1 G2, log_inv members G1 c1 ∧ log_inv members G2 c2 ∧ ghost_le G1 G2.
Proof.
  intros Hinit H01 H12. pose proof (log_initial_inv _ _ Hinit) as H0.
  destruct (log_steps_inv _ _ _ _ H0 H01) as (G1 & _ & H1).
  destruct (log_steps_inv _ _ _ _ H1 H12) as (G2 & Hle & H2). eauto.
Qed.

(** A committed entry lies in the log of a leader that created a committed entry
    of its own at or after it. *)
Lemma commits_settled G c n i e :
  log_inv members G c → commits c n i e →
  ∃ nd t j lg, lc_nodes c !! n = Some nd ∧ t ≤ current_term (nd_core nd) ∧
    committed members (gh_reigns G) (gh_acks G) t j ∧ leader_log (gh_reigns G) t = Some lg ∧
    (Z.to_nat (i - 1) < j)%nat ∧ lg !! Z.to_nat (i - 1) = Some e.
Proof.
  intros Hinv (nd & Hn & Hi & He). exists nd.
  destruct (no_settled _ _ _ _ (lv_nodes _ _ _ Hinv _ _ Hn)) as [?|(t & j & lg & Hb & Hc & HL & Hj & Ht)];
    [lia|].
  exists t, j, lg. split_and!; try done; [lia|].
  rewrite <-He. symmetry. apply (take_lookup_eq _ _ _ _ Ht). lia.
Qed.

Lemma committed_mono G G' t j :
  ghost_le G G' → committed members (gh_reigns G) (gh_acks G) t j →
  committed members (gh_reigns G') (gh_acks G') t j.
Proof.
  intros [_ _ Hg HA] [Hs (Q & HQ & Hq)]. split; [by eapply solid_mono|]. exists Q. auto.
Qed.

(** The same at a later moment. *)
Lemma commits_settled_later G G' c n i e :
  log_inv members G c → ghost_le G G' → commits c n i e →
  ∃ nd t j lg, lc_nodes c !! n = Some nd ∧ t ≤ current_term (nd_core nd) ∧
    committed members (gh_reigns G') (gh_acks G') t j ∧ leader_log (gh_reigns G') t = Some lg ∧
    (Z.to_nat (i - 1) < j)%nat ∧ lg !! Z.to_nat (i - 1) = Some e.
Proof.
  intros Hinv Hle (nd & t & j & lg & Hn & Hb & Hc & HL & Hj & He)%(commits_settled G); [|done].
  destruct (grows_log _ _ _ _ (le_reigns _ _ Hle) HL) as (ext & HL' & _).
  exists nd, t, j, (lg ++ ext). split_and!; try done; [by eapply committed_mono|].
  by apply lookup_app_l_Some.
Qed.
End safety.

(** C2: State Machine Safety: in any execution of a cluster of at least two
    servers, with a network that loses, duplicates, delays and reorders messages,
    effects performed one at a time and crashes between any two of them, the
    entries that two servers hold at one index at or below their commit indexes,
    at the same or at different times, are the same entry. *)
Theorem state_machine_safety (members : list Z) (c0 c1 c2 : LogCluster) (n1 n2 i : Z)
    (e1 e2 : LogEntry) :
  log_initial members c0 → log_cluster_steps c0 c1 → log_cluster_steps c1 c2 →
  commits c1 n1 i e1 → commits c2 n2 i e2 → e1 = e2.
Proof.
  intros Hinit H01 H12 Hc1 Hc2.
  destruct (reachable_inv _ _ _ _ Hinit H01 H12) as (G1 & G2 & Hi1 & Hi2 & Hle).
  destruct (commits_settled_later _ _ _ _ _ _ _ Hi1 Hle Hc1) as (_ & t1 & j1 & lg1 & _ & _ & K1 & L1 & J1 & E1).
  destruct (commits_settled _ _ _ _ _ _ Hi2 Hc2) as (_ & t2 & j2 & lg2 & _ & _ & K2 & L2 & J2 & E2).
  pose proof (lv_ghost _ _ _ Hi2) as HG2.
  assert (take (S (Z.to_nat (i - 1))) lg1 = take (S (Z.to_nat (i - 1))) lg2) as Ht.
  { eapply (committed_agree members (go_nodup _ _ HG2) _ _ (history_elected _ _ HG2) t1 j1 t2 j2);
      try done; lia. }
  rewrite (take_lookup_eq _ _ _ (Z.to_nat (i - 1)) Ht) in E1 by lia. congruence.
Qed.

(** C3: Leader Completeness: an entry at or below the commit index of a server is
    on the disk of every server that leads that server's term or a later one, then
    and afterwards. *)
Theorem leader_completeness (members : list Z) (c0 c1 c2 : LogCluster) (n1 n2 t1 t2 i : Z)
    (e : LogEntry) (log : list LogEntry) :
  log_initial members c0 → log_cluster_steps c0 c1 → log_cluster_steps c1 c2 →
  commits_in c1 n1 t1 i e → log_leads c2 n2 t2 → t1 ≤ t2 → stores c2 n2 log →
  log !! Z.to_nat (i - 1) = Some e.
Proof.
  intros Hinit H01 H12 [Hc1 (nd1 & Hn1 & Ht1)] (nd2 & Hn2 & Hr2 & Ht2) Hle12 (nd2' & Hn2' & <-).
  simplify_eq. destruct (reachable_inv _ _ _ _ Hinit H01 H12) as (G1 & G2 & Hi1 & Hi2 & Hle).
  destruct (commits_settled_later _ _ _ _ _ _ _ Hi1 Hle Hc1) as (nd & t & j & lg & Hn & Hb & K & HL & J & E).
  simplify_eq. pose proof (lv_ghost _ _ _ Hi2) as HG2.
  destruct (no_leader _ _ _ _ (lv_nodes _ _ _ Hi2 _ _ Hn2) Hr2) as (HL2 & _).
  assert (leader_log (gh_reigns G2) (current_term (nd_core nd2)) = Some (nd_log nd2)) as HLd
    by (apply leader_log_Some; eauto).
  destruct (decide (t = current_term (nd_core nd2))) as [->|Hne]; [congruence|].
  destruct (leader_complete members (go_nodup _ _ HG2) _ _ (history_elected _ _ HG2) t j
    (current_term (nd_core nd2)) _ K ltac:(lia) HLd) as (lg' & HL' & _ & Ht).
  simplify_eq. by rewrite (take_lookup_eq _ _ _ (Z.to_nat (i - 1)) Ht) by lia.
Qed.

(** C4: Log Matching: if the logs on two disks, at the same or at different times,
    have entries of one term at one index, they are identical up to that index. *)
Theorem log_matching (members : list Z) (c0 c1 c2 : LogCluster) (n1 n2 : Z)
    (log1 log2 : list LogEntry) (i : nat) (e1 e2 : LogEntry) :
  log_initial members c0 → log_cluster_steps c0 c1 → log_cluster_steps c1 c2 →
  stores c1 n1 log1 → stores c2 n2 log2 → log1 !! i = Some e1 → log2 !! i = Some e2 →
  en_term e1 = en_term e2 → take (S i) log1 = take (S i) log2.
Proof.
  intros Hinit H01 H12 (nd1 & Hn1 & <-) (nd2 & Hn2 & <-) E1 E2 Ht.
  destruct (reachable_inv _ _ _ _ Hinit H01 H12) as (G1 & G2 & Hi1 & Hi2 & Hle).
  eapply (genuine_match (gh_reigns G2)); [| |exact E1|exact E2|done].
  - eapply genuine_mono; [apply Hle|]. apply (no_genuine _ _ _ _ (lv_nodes _ _ _ Hi1 _ _ Hn1)).
  - apply (no_genuine _ _ _ _ (lv_nodes _ _ _ Hi2 _ _ Hn2)).
Qed.

(** ** An execution *)

Definition three_nodes : LogCluster :=
  mkLogCluster {[1 := new_node 1 [2; 3]; 2 := new_node 2 [1; 3]; 3 := new_node 3 [1; 2]]} [].

Definition log_command : CommandEnvelope := mkCommand (mkRequestId 1 1) 7 [].

(** Server 1 is elected by 2, replicates a command to 2 and commits it. *)
Definition commit_one : list log_action :=
  [act_local 1 ElectionTimeout; act_perform 1; act_complete 1; act_perform 1; act_perform 1; act_perform 1;
   act_deliver 0; act_perform 2; act_complete 2; act_perform 2; act_complete 2; act_perform 2; act_perform 2;
   act_deliver 2; act_perform 1; act_perform 1;
   act_local 1 (ReceiveClientCommand log_command); act_perform 1; act_perform 1; act_perform 1;
   act_deliver 5; act_perform 2; act_perform 2; act_perform 2;
   act_deliver 7].

(** A heartbeat tells 2 to commit it too. *)
Definition commit_two : list log_action :=
  [act_local 1 HeartbeatTimeout; act_perform 1; act_perform 1;
   act_deliver 8; act_perform 2; act_perform 2].

(** Server 1 crashes and 3 elects 2. *)
Definition elect_two : list log_action :=
  [act_crash 1; act_local 2 ElectionTimeout; act_perform 2; act_complete 2; act_perform 2; act_perform 2;
   act_perform 2; act_deliver 12; act_perform 3; act_complete 3; act_perform 3; act_complete 3;
   act_perform 3; act_perform 3; act_deliver 13].

Definition run_log (c : LogCluster) (l : list log_action) : LogCluster := default c (log_exec_all c l).

Definition one_committed : LogCluster := run_log three_nodes commit_one.
Definition two_committed : LogCluster := run_log one_committed commit_two.
Definition two_elected : LogCluster := run_log two_committed elect_two.

Definition the_entry : LogEntry := mkEntry 1 1 log_command.

Lemma three_nodes_initial : log_initial [1; 2; 3] three_nodes.
Proof.
  split; [apply (bool_decide_unpack _); by vm_compute|simpl; lia| |done].
  intros n nd Hn. unfold three_nodes in Hn. simpl in Hn.
  repeat (apply lookup_insert_Some in Hn as [[<- <-]|[_ Hn]];
    [eexists; split; [|reflexivity]; apply (bool_decide_unpack _); by vm_compute|]).
  apply lookup_singleton_Some in Hn as [<- <-].
  eexists. split; [|reflexivity]. apply (bool_decide_unpack _); by vm_compute.
Qed.

Lemma run_log_steps c l : log_exec_all c l ≠ None → log_cluster_steps c (run_log c l).
Proof.
  unfold run_log. destruct (log_exec_all c l) as [c'|] eqn:Hl; [|done]. intros _.
  by eapply log_exec_all_sound.
Qed.

Lemma one_committed_steps : log_cluster_steps three_nodes one_committed.
Proof. apply run_log_steps. by vm_compute. Qed.

Lemma two_committed_steps : log_cluster_steps one_committed two_committed.
Proof. apply run_log_steps. by vm_compute. Qed.

Lemma two_elected_steps : log_cluster_steps one_committed two_elected.
Proof.
  trans two_committed; [exact two_committed_steps|]. apply run_log_steps. by vm_compute.
Qed.

Lemma state_machine_safety_witness :
  commits one_committed 1 1 the_entry ∧ commits two_committed 2 1 the_entry ∧ the_entry = the_entry.
Proof.
  assert (commits one_committed 1 1 the_entry) as H1.
  { eexists. split; [vm_compute; reflexivity|]. split; [vm_compute; split; discriminate|reflexivity]. }
  assert (commits two_committed 2 1 the_entry) as H2.
  { eexists. split; [vm_compute; reflexivity|]. split; [vm_compute; split; discriminate|reflexivity]. }
  split_and!; [exact H1|exact H2|].
  exact (state_machine_safety [1; 2; 3] three_nodes one_committed two_committed 1 2 1 _ _
    three_nodes_initial one_committed_steps two_committed_steps H1 H2).
Defined.

Lemma leader_completeness_witness :
  log_leads two_elected 2 2 ∧ [the_entry] !! Z.to_nat (1 - 1) = Some the_entry.
Proof.
  assert (log_leads two_elected 2 2) as Hl.
  { eexists. split; [vm_compute; reflexivity|]. by vm_compute. }
  split; [exact Hl|].
  apply (leader_completeness [1; 2; 3] three_nodes one_committed two_elected 1 2 1 2 1 the_entry).
  - exact three_nodes_initial.
  - exact one_committed_steps.
  - exact two_elected_steps.
  - split.
    + eexists. split; [vm_compute; reflexivity|]. split; [vm_compute; split; discriminate|reflexivity].
    + eexists. split; [vm_compute; reflexivity|]. reflexivity.
  - exact Hl.
  - lia.
  - eexists. split; [vm_compute; reflexivity|]. reflexivity.
Defined.

Lemma log_matching_witness :
  stores one_committed 1 [the_entry] ∧ stores two_elected 2 [the_entry] ∧
  take 1 [the_entry] = take 1 [the_entry].
Proof.
  assert (stores one_committed 1 [the_entry]) as H1.
  { eexists. split; [vm_compute; reflexivity|]. reflexivity. }
  assert (stores two_elected 2 [the_entry]) as H2.
  { eexists. split; [vm_compute; reflexivity|]. reflexivity. }
  split_and!; [exact H1|exact H2|].
  exact (log_matching [1; 2; 3] three_nodes one_committed two_elected 1 2 [the_entry] [the_entry] 0
    the_entry the_entry three_nodes_initial one_committed_steps two_elected_steps H1 H2
    eq_refl eq_refl eq_refl).
Defined.
