(* ===== verification/RaftProps.v ===== *)
(** * Properties of the Raft specification

    The theorems about one Figure 2 server and about the disks and messages of a
    cluster (election safety itself is in [Cluster]). *)

From S2P Require Import Prelude OrdMap Bytes StoreTypes RaftTypes.
From S2P Require Import Figure2 Figure2Votes Figure2Log Figure2Steps Cluster.

(** ** A concrete server for the instances *)

Definition demo_follower : State := sv_core (fresh_server 2 [1; 3]).
Definition demo_command : CommandEnvelope := mkCommand (mkRequestId 1 1) 7 [].
Definition demo_entry : LogEntry := mkEntry 1 1 demo_command.
Definition demo_append : AppendEntriesRequest := mkAppendEntries 1 1 0 0 [demo_entry] 1 None.

Lemma demo_follower_ok : server_ok demo_follower.
Proof.
  split; [split; [|split; simpl; try done|done]|done|done].
  split; simpl; try done; try set_solver.
  by apply (bool_decide_unpack _); vm_compute.
Qed.

Lemma demo_append_fits : event_fits demo_follower (ReceiveAppendEntries 1 demo_append).
Proof. simpl. split_and!; try lia; try done. apply Forall_singleton. simpl. lia. Qed.

(** The server after a step. *)
Definition after_step (s : State) (e : Event) : State :=
  match step s e with Ret r => res_state r | Throw _ => s end.

Lemma after_step_ok s e : server_ok s → event_fits s e → server_ok (after_step s e).
Proof.
  intros Hok Hev. unfold after_step. destruct (step s e) as [r|x] eqn:Hs; [|done].
  by destruct (step_ok _ _ _ Hok Hev Hs).
Qed.

(** Server 2 times out, persists its own vote, is elected with the vote of server
    1 and appends one client command. *)
Definition demo_leader : State :=
  after_step (after_step (after_step demo_follower ElectionTimeout)
    (HardStatePersisted (mkHardStatePersisted 1 (mkHardState 1 (Some 2)))))
    (ReceiveRequestVoteResponse 1 (mkVoteResponse 1 true)).
Definition demo_leader_appended : State :=
  after_step demo_leader (ReceiveClientCommand demo_command).

Lemma demo_leader_ok : server_ok demo_leader.
Proof. repeat (apply after_step_ok; [|done]). apply demo_follower_ok. Qed.

(** ** Validity *)

(** The post-state check of [step] is redundant: on a state of a running
    server and an input whose entries are no newer than its term, a handler that
    succeeds always leaves a valid state, so [step] answers exactly what handler
    and gate compute, and the new state again satisfies the server invariant. *)
Theorem step_never_fails_post_validation (s : State) (e : Event) (r : StepResult) :
  server_ok s → event_fits s e →
  is_completion e = bool_decide (is_Some (st_pending_hard_state s)) →
  unchecked s e = Ret r → step s e = Ret r ∧ server_ok (res_state r).
Proof.
  intros Hok Hev Hc Hun.
  assert (server_ok (res_state r)) as Hok'.
  { destruct (st_pending_hard_state s) as [p|] eqn:Hp.
    - destruct e; try done. by destruct (unchecked_completion _ _ _ _ Hok Hp Hun).
    - by destruct (unchecked_input _ _ _ Hok Hp Hev Hc Hun). }
  split; [|done]. unfold step, ensure_valid. rewrite (good_validate s) by apply Hok. simpl.
  rewrite Hc. unfold unchecked in Hun.
  destruct (bool_decide (is_Some (st_pending_hard_state s))); simpl;
    apply bind_Ret in Hun as (r0 & -> & Hg); simpl; rewrite Hg; simpl;
    by rewrite good_validate by apply Hok'.
Qed.

Lemma step_never_fails_post_validation_witness :
  ∃ r, step demo_follower (ReceiveAppendEntries 1 demo_append) = Ret r ∧ server_ok (res_state r).
Proof.
  eexists. apply (step_never_fails_post_validation demo_follower (ReceiveAppendEntries 1 demo_append));
    [apply demo_follower_ok|apply demo_append_fits|reflexivity|vm_compute; reflexivity].
Defined.

(** ** Terms and votes *)

(** In every step the current term does not decrease, and within a term a
    vote that was cast is never withdrawn or changed. *)
Theorem term_and_vote_monotone (s : State) (e : Event) (r : StepResult) :
  server_ok s → event_fits s e → step s e = Ret r →
  current_term s ≤ current_term (res_state r) ∧
  (current_term (res_state r) = current_term s →
   ∀ v, voted_for s = Some v → voted_for (res_state r) = Some v).
Proof.
  intros Hok Hev Hstep. destruct (step_ok _ _ _ Hok Hev Hstep) as (_ & _ & Hf).
  destruct Hf as [Hlt|[Heq Hv]]; simpl in *.
  - split; [lia|]. lia.
  - split; [lia|]. intros _ v Hs. destruct Hv as [?|Hv]; congruence.
Qed.

Lemma term_and_vote_monotone_witness :
  current_term demo_follower
  ≤ current_term (after_step demo_follower (ReceiveAppendEntries 1 demo_append)).
Proof.
  eapply (term_and_vote_monotone demo_follower (ReceiveAppendEntries 1 demo_append));
    [apply demo_follower_ok|apply demo_append_fits|vm_compute; reflexivity].
Defined.

(** A granted vote is durable before it is sent: for every granted vote
    response that ever entered the network, the voter's disk holds that vote or a
    later term, at that time and ever after. *)
Theorem granted_vote_is_durable (members : list Z) (c0 c : Cluster) (voter to : Z)
    (resp : RequestVoteResponse) (sv : Server) :
  initial members c0 → cluster_steps c0 c →
  (to, ReceiveRequestVoteResponse voter resp) ∈ cl_network c → vr_granted resp = true →
  cl_servers c !! voter = Some sv →
  vr_term resp < hs_current_term (sv_disk sv) ∨
  sv_disk sv = mkHardState (vr_term resp) (Some to).
Proof.
  intros Hinit Hs Hin Hg Hsv. destruct (initial_inv _ _ Hinit) as [V0 Hinv0].
  destruct (cluster_steps_inv _ _ _ _ Hinv0 Hs) as (V & _ & Hinv).
  apply (ci_network _ _ _ Hinv) in Hin; [|done].
  destruct (si_latest _ _ _ _ (ci_servers _ _ _ Hinv _ _ Hsv) _ _ Hin) as [?|[Ht Hv]]; [by left|].
  right. destruct (sv_disk sv). simpl in *. by subst.
Qed.

Lemma granted_vote_is_durable_witness :
  (1, ReceiveRequestVoteResponse 2 (mkVoteResponse 1 true)) ∈ cl_network elected ∧
  (1 < 1 ∨ mkHardState 1 (Some 1) = mkHardState 1 (Some 1)).
Proof.
  split; [vm_compute; do 2 right; left|].
  eapply (granted_vote_is_durable [1; 2; 3] three_servers elected 2 1 (mkVoteResponse 1 true)
    (mkServer _ (mkHardState 1 (Some 1))));
    [apply three_servers_initial|apply elected_steps|vm_compute; do 2 right; left|reflexivity|
     vm_compute; reflexivity].
Defined.

(** ** Log and commit index *)

(** Committed entries are immutable: no step of a server lowers its commit
    index or changes an entry at or below it; the applied index advances by at
    most one and the snapshot stays. *)
Theorem committed_entries_immutable (s : State) (e : Event) (r : StepResult) (i : Z) :
  server_ok s → event_fits s e → step s e = Ret r →
  st_commit_index s ≤ st_commit_index (res_state r) ≤ last_index (res_state r) ∧
  (i ≤ st_commit_index s → entry_at (res_state r) i = entry_at s i) ∧
  st_last_applied s ≤ st_last_applied (res_state r) ≤ st_last_applied s + 1.
Proof.
  intros Hok Hev Hstep. destruct (step_ok _ _ _ Hok Hev Hstep) as ([Hg _ _] & [] & _).
  split_and!; try done; try lia; [apply Hg|]. apply ls_committed.
Qed.

Lemma committed_entries_immutable_witness :
  ∃ r, step demo_follower (ReceiveAppendEntries 1 demo_append) = Ret r ∧
    st_commit_index demo_follower ≤ st_commit_index (res_state r) ≤ last_index (res_state r).
Proof.
  destruct (step demo_follower (ReceiveAppendEntries 1 demo_append)) as [r|x] eqn:Hs;
    [|vm_compute in Hs; discriminate].
  exists r. split; [reflexivity|].
  exact (proj1 (committed_entries_immutable demo_follower (ReceiveAppendEntries 1 demo_append) r 1
    demo_follower_ok demo_append_fits Hs)).
Defined.

(** Leader append-only: while a server stays leader, its log only grows at
    the end. *)
Theorem leader_log_append_only (s : State) (e : Event) (r : StepResult) :
  server_ok s → event_fits s e → step s e = Ret r →
  st_role s = role_leader → st_role (res_state r) = role_leader →
  log_of s `prefix_of` log_of (res_state r).
Proof.
  intros Hok Hev Hstep. destruct (step_ok _ _ _ Hok Hev Hstep) as (_ & [] & _). done.
Qed.

Lemma leader_log_append_only_witness :
  st_role demo_leader = role_leader ∧
  ∃ r, step demo_leader (ReceiveClientCommand demo_command) = Ret r ∧
    log_of demo_leader `prefix_of` log_of (res_state r).
Proof.
  split; [vm_compute; reflexivity|].
  destruct (step demo_leader (ReceiveClientCommand demo_command)) as [r|x] eqn:Hs;
    [|vm_compute in Hs; discriminate].
  exists r. split; [reflexivity|].
  apply (leader_log_append_only demo_leader (ReceiveClientCommand demo_command) r);
    [apply demo_leader_ok|vm_compute; reflexivity|exact Hs|vm_compute; reflexivity|].
  vm_compute in Hs. injection Hs as <-. reflexivity.
Defined.

(** An append request is answered, in order after everything else it caused,
    with success only when the request is of the server's term and its previous
    entry matches; the log then holds every entry of the request at its index with
    its term, and the reported match is the last of them. The server then follows
    the sender. *)
Theorem append_entries_accepted_log_matches (s : State) (from : Z) (q : AppendEntriesRequest)
    (r : StepResult) :
  server_ok s → event_fits s (ReceiveAppendEntries from q) →
  handle_append_entries (mkResult s [] []) from q = Ret r →
  append_post s from q r.
Proof.
  intros Hok Hev Hrun.
  pose proof (handle_append_entries_post (mkResult s [] []) from q (so_good _ Hok) Hev) as Hp.
  by rewrite Hrun in Hp.
Qed.

Lemma append_entries_accepted_log_matches_witness :
  ∃ r, handle_append_entries (mkResult demo_follower [] []) 1 demo_append = Ret r ∧
    append_post demo_follower 1 demo_append r.
Proof.
  eexists. split; [vm_compute; reflexivity|].
  apply (append_entries_accepted_log_matches demo_follower 1 demo_append);
    [apply demo_follower_ok|apply demo_append_fits|vm_compute; reflexivity].
Defined.

(** The leader commits exactly what Raft allows: [advance_leader_commit] moves
    the commit index to the greatest index above it that is of the current term
    and replicated on a majority, and leaves it alone when there is none. *)
Theorem leader_commits_greatest_majority (s : State) (l : LeaderState) (r r' : StepResult) :
  res_state r = s → st_leader s = Some l → st_commit_index s ≤ last_index s →
  advance_leader_commit r = Ret r' →
  let c := st_commit_index (res_state r') in
  (c = st_commit_index s ∨ (st_commit_index s < c ≤ last_index s ∧ committable s l c)) ∧
  ∀ i, c < i ≤ last_index s → ¬ committable s l i.
Proof.
  intros Hs Hl Hle. unfold advance_leader_commit. rewrite Hs, Hl.
  intros (found & Hf & Hr)%bind_Ret.
  pose proof (commit_candidate_spec s l (last_index s)
    (Z.to_nat (last_index s - st_commit_index s))) as Hspec. rewrite Hf in Hspec. simpl in Hspec.
  rewrite Z2Nat.id in Hspec by lia.
  replace (last_index s - (last_index s - st_commit_index s)) with (st_commit_index s) in Hspec by lia.
  destruct found as [c|]; injection Hr as <-; simpl.
  - destruct Hspec as (Hc & Hcom & Hmax). split; [by right|done].
  - rewrite Hs. split; [by left|done].
Qed.

(** A leader of term 1 with one entry, known to be on peer 1. *)
Definition demo_replicated : LeaderState :=
  mkLeaderState (<[1:=mkProgress 2 1]> (<[3:=mkProgress 1 0]> ∅)) {[1]}.
Definition demo_committing : State :=
  with_leader demo_leader_appended (Some demo_replicated).

Lemma leader_commits_greatest_majority_witness :
  ∃ r', advance_leader_commit (mkResult demo_committing [] []) = Ret r' ∧
    st_commit_index (res_state r') = 1 ∧
    ∀ i, st_commit_index (res_state r') < i ≤ last_index demo_committing →
      ¬ committable demo_committing demo_replicated i.
Proof.
  eexists. split; [vm_compute; reflexivity|]. split; [reflexivity|].
  eapply (leader_commits_greatest_majority demo_committing demo_replicated
    (mkResult demo_committing [] []));
    [reflexivity|reflexivity|vm_compute; discriminate|vm_compute; reflexivity].
Defined.
