(* ===== verification/Text.v ===== *)
(** * Text encodings

    The textual helpers of [linearizability.cpp] and of the standard library it
    uses: [std::to_string] and [std::from_chars], the hexadecimal form of byte
    sequences, and the line and field splitting of [std::getline] and
    [operator>>]. *)

From S2P Require Import Prelude OrdMap Bytes.
From Stdlib Require Import Ascii DecimalString DecimalZ DecimalPos.
#[local] Open Scope string_scope.
#[local] Open Scope Z_scope.
#[global] Arguments String.append : simpl nomatch.

(** ** Integers *)

(** [std::to_string] of an integer. *)
Definition decimal (z : Z) : string := NilZero.string_of_int (Z.to_int z).

(** [integer<std::uint64_t>(token, field)]: [std::from_chars] takes digits only,
    fails outside of the range, and the whole token must be consumed. *)
Definition integer_u64 (token field : string) : outcome Z :=
  match NilZero.uint_of_string token with
  | Some d => let value := Z.of_uint d in
      if value <=? u64_max then Ret value
      else Throw (invalid_argument ("invalid " +:+ field +:+ " in replay"))
  | None => Throw (invalid_argument ("invalid " +:+ field +:+ " in replay"))
  end.

(** [integer<std::int64_t>(token, field)]: a leading minus sign is accepted. *)
Definition integer_i64 (token field : string) : outcome Z :=
  match NilZero.int_of_string token with
  | Some d => let value := Z.of_int d in
      if (- i64_max - 1 <=? value) && (value <=? i64_max) then Ret value
      else Throw (invalid_argument ("invalid " +:+ field +:+ " in replay"))
  | None => Throw (invalid_argument ("invalid " +:+ field +:+ " in replay"))
  end.

Definition revision (token : string) : outcome Z :=
  value ← integer_i64 token "revision";
  _ ← throw_when (value <? 0) (invalid_argument "negative revision in replay");
  mret value.

Definition boolean (token : string) : outcome bool :=
  if bool_decide (token = "0") then Ret false
  else if bool_decide (token = "1") then Ret true
  else Throw (invalid_argument "invalid boolean in replay").

(** ** Hexadecimal *)

Definition hex_digit (n : Z) : ascii :=
  default Ascii.zero (String.get (Z.to_nat n) "0123456789abcdef").

Fixpoint hex_bytes (value : ByteSequence) : string :=
  match value with
  | [] => ""
  | b :: rest =>
      String (hex_digit (Z.shiftr (byte.unsigned b) 4))
        (String (hex_digit (Z.land (byte.unsigned b) 15)) (hex_bytes rest))
  end.

Definition hex (value : ByteSequence) : string :=
  match value with [] => "-" | _ => hex_bytes value end.

Definition char_code (c : ascii) : Z := Z.of_N (Ascii.N_of_ascii c).

Definition nibble (c : ascii) : outcome Z :=
  if (48 <=? char_code c) && (char_code c <=? 57) then Ret (char_code c - 48)
  else if (97 <=? char_code c) && (char_code c <=? 102) then Ret (char_code c - 97 + 10)
  else Throw (invalid_argument "invalid hexadecimal digit in replay").

(** The loop over pairs of digits; an odd rest is excluded by the size check. *)
Fixpoint unhex_bytes (text : string) : outcome ByteSequence :=
  match text with
  | String hi (String lo rest) =>
      h ← nibble hi;
      l ← nibble lo;
      bytes ← unhex_bytes rest;
      mret (byte.of_Z (Z.lor (Z.shiftl h 4) l) :: bytes)
  | _ => mret []
  end.

Definition unhex (text : string) : outcome ByteSequence :=
  if bool_decide (text = "-") then mret []
  else
    _ ← throw_when (bool_decide (text = "") || Nat.odd (String.length text))
      (invalid_argument "invalid byte sequence in replay");
    unhex_bytes text.

(** ** Lines and fields *)

Definition newline : ascii := "010".
Definition endl : string := String newline "".

(** The lines successive [std::getline] calls return. *)
Fixpoint get_lines (s : string) : list string :=
  match s with
  | "" => []
  | String c rest =>
      if bool_decide (c = newline) then "" :: get_lines rest
      else match get_lines rest with
           | [] => [String c ""]
           | line :: lines => String c line :: lines
           end
  end.

(** [std::isspace] in the classic locale. *)
Definition is_space (c : ascii) : bool :=
  bool_decide (c = " "%char) || ((9 <=? char_code c) && (char_code c <=? 13)).

(** The first word and the words after it. *)
Fixpoint split_fields (s : string) : string * list string :=
  match s with
  | "" => ("", [])
  | String c rest =>
      let '(word, words) := split_fields rest in
      if is_space c
      then ("", if bool_decide (word = "") then words else word :: words)
      else (String c word, words)
  end.

(** The tokens of [for (std::string token; fields >> token;)]. *)
Definition fields (s : string) : list string :=
  let '(word, words) := split_fields s in
  if bool_decide (word = "") then words else word :: words.

(** ** Characters of a string *)

Fixpoint all_chars (p : ascii → bool) (s : string) : bool :=
  match s with "" => true | String c rest => p c && all_chars p rest end.

Lemma string_app_nil_r s : s +:+ "" = s.
Proof. induction s as [|c s IH]; simpl; [done|]. by rewrite IH. Qed.

Lemma string_app_assoc s1 s2 s3 : (s1 +:+ s2) +:+ s3 = s1 +:+ s2 +:+ s3.
Proof. induction s1 as [|c s1 IH]; simpl; [done|]. by rewrite IH. Qed.

Lemma string_app_inj s t1 t2 : s +:+ t1 = s +:+ t2 → t1 = t2.
Proof. induction s; simpl; [done|]. intros [=]. auto. Qed.

Lemma all_chars_app p s1 s2 : all_chars p (s1 +:+ s2) = all_chars p s1 && all_chars p s2.
Proof. induction s1 as [|c s1 IH]; simpl; [done|]. by rewrite IH, andb_assoc. Qed.

Lemma all_chars_impl (p q : ascii → bool) s :
  (∀ c, p c = true → q c = true) → all_chars p s = true → all_chars q s = true.
Proof.
  intros Hpq. induction s as [|c s IH]; simpl; [done|].
  rewrite !andb_true_iff. naive_solver.
Qed.

(** Splitting at the first separator is unambiguous. *)
Definition starts_with (p : ascii → bool) (s : string) : Prop :=
  match s with "" => True | String c _ => p c = false end.

Lemma split_unique p a b x y :
  all_chars p a = true → all_chars p b = true → starts_with p x → starts_with p y →
  a +:+ x = b +:+ y → a = b ∧ x = y.
Proof.
  revert b. induction a as [|c a IH]; intros [|d b] Ha Hb Hx Hy Heq; simpl in *;
    rewrite ?andb_true_iff in *; subst; try done.
  - destruct Hb as [Hd _]. simpl in *. congruence.
  - destruct Ha as [Hd _]. simpl in *. congruence.
  - injection Heq as -> Heq. destruct (IH b) as [-> ->]; naive_solver.
Qed.

Definition word (s : string) : Prop := s ≠ "" ∧ all_chars (λ c, negb (is_space c)) s = true.

Lemma split_fields_word s rest :
  all_chars (λ c, negb (is_space c)) s = true →
  split_fields (s +:+ String " " rest) = (s, fields rest).
Proof.
  induction s as [|c s IH]; simpl.
  - intros _. unfold fields. by destruct (split_fields rest).
  - rewrite andb_true_iff, negb_true_iff. intros [-> Hs]. by rewrite (IH Hs).
Qed.

Lemma fields_cons s rest : word s → fields (s +:+ " " +:+ rest) = s :: fields rest.
Proof.
  intros [Hne Hs]. change (" " +:+ rest) with (String " " rest).
  unfold fields at 1. rewrite split_fields_word by done.
  by rewrite bool_decide_false.
Qed.

Lemma split_fields_last s :
  all_chars (λ c, negb (is_space c)) s = true → split_fields s = (s, []).
Proof.
  induction s as [|c s IH]; simpl; [done|].
  rewrite andb_true_iff, negb_true_iff. intros [-> Hs]. by rewrite (IH Hs).
Qed.

Lemma fields_last s : word s → fields s = [s].
Proof.
  intros [Hne Hs]. unfold fields. rewrite split_fields_last by done.
  by rewrite bool_decide_false.
Qed.

Lemma get_lines_cons s rest :
  all_chars (λ c, negb (bool_decide (c = newline))) s = true →
  get_lines (s +:+ endl +:+ rest) = s :: get_lines rest.
Proof.
  change (endl +:+ rest) with (String newline rest).
  induction s as [|c s IH]; simpl; [done|].
  rewrite andb_true_iff, negb_true_iff. intros [-> Hs]. by rewrite (IH Hs).
Qed.

(** ** Printed integers *)

Definition is_digit (c : ascii) : bool := (48 <=? char_code c) && (char_code c <=? 57).
Definition is_decimal (c : ascii) : bool := is_digit c || bool_decide (c = "-"%char).

Lemma digits_empty d : all_chars is_digit (NilEmpty.string_of_uint d) = true.
Proof. by induction d. Qed.

Lemma digits_uint d : all_chars is_digit (NilZero.string_of_uint d) = true.
Proof. destruct d; [done|apply digits_empty..]. Qed.

Lemma decimal_chars z : all_chars is_decimal (decimal z) = true.
Proof.
  unfold decimal. destruct (Z.to_int z) as [d|d]; simpl;
    apply (all_chars_impl is_digit); try apply digits_uint;
    unfold is_decimal; intros c ->; done.
Qed.

Lemma to_int_pos z : 0 ≤ z → Z.to_int z = Decimal.Pos (N.to_uint (Z.to_N z)) ∧ N.to_uint (Z.to_N z) ≠ Decimal.Nil.
Proof. destruct z; simpl; try done. intros _. split; [done|]. apply DecimalPos.Unsigned.to_uint_nonnil. Qed.

Lemma of_uint_to_uint z : 0 ≤ z → Z.of_uint (N.to_uint (Z.to_N z)) = z.
Proof.
  intros Hz. pose proof (DecimalZ.of_to z) as Hot. rewrite (proj1 (to_int_pos z Hz)) in Hot.
  done.
Qed.

Lemma integer_u64_decimal z field :
  0 ≤ z ≤ u64_max → integer_u64 (decimal z) field = Ret z.
Proof.
  intros Hz. unfold integer_u64, decimal. destruct (to_int_pos z) as [-> Hn]; [lia|]. simpl.
  rewrite NilZero.usu by done. rewrite of_uint_to_uint by lia.
  by destruct (Z.leb_spec z u64_max); [|lia].
Qed.

Lemma integer_i64_decimal z field :
  0 ≤ z ≤ i64_max → integer_i64 (decimal z) field = Ret z.
Proof.
  intros Hz. unfold integer_i64, decimal. destruct (to_int_pos z) as [Hp Hn]; [lia|].
  rewrite Hp. rewrite NilZero.isi by congruence.
  change (Z.of_int (Decimal.Pos (N.to_uint (Z.to_N z)))) with (Z.of_uint (N.to_uint (Z.to_N z))).
  rewrite of_uint_to_uint by lia.
  destruct (Z.leb_spec (- i64_max - 1) z), (Z.leb_spec z i64_max); (done || lia).
Qed.

Lemma revision_decimal z : 0 ≤ z ≤ i64_max → revision (decimal z) = Ret z.
Proof.
  intros Hz. unfold revision. rewrite integer_i64_decimal by done. simpl.
  by destruct (Z.ltb_spec z 0); [lia|].
Qed.

Lemma to_int_nonnil z : Z.to_int z ≠ Decimal.Pos Decimal.Nil ∧ Z.to_int z ≠ Decimal.Neg Decimal.Nil.
Proof.
  destruct z; simpl; (split; intros [=]).
  all: by eapply DecimalPos.Unsigned.to_uint_nonnil.
Qed.

Lemma decimal_inj z1 z2 : decimal z1 = decimal z2 → z1 = z2.
Proof.
  unfold decimal. intros Heq. apply DecimalZ.to_int_inj.
  apply (f_equal NilZero.int_of_string) in Heq.
  rewrite !NilZero.isi in Heq by apply to_int_nonnil. congruence.
Qed.

Lemma decimal_word z : word (decimal z).
Proof.
  split.
  - unfold decimal. destruct (Z.to_int z) as [d|d]; simpl; [|done]. by destruct d.
  - apply (all_chars_impl is_decimal); [|apply decimal_chars].
    intros c. by destruct c as [[] [] [] [] [] [] [] []].
Qed.

Definition not_char (d c : ascii) : bool := negb (bool_decide (c = d)).

Lemma decimal_not z d : is_decimal d = false → all_chars (not_char d) (decimal z) = true.
Proof.
  intros Hd. apply (all_chars_impl is_decimal); [|apply decimal_chars].
  intros c Hc. unfold not_char. rewrite bool_decide_false; [done|]. congruence.
Qed.

Lemma decimal_nonneg z : 0 ≤ z → all_chars (not_char "-") (decimal z) = true.
Proof.
  intros Hz. unfold decimal. rewrite (proj1 (to_int_pos z Hz)). simpl.
  apply (all_chars_impl is_digit); [|apply digits_uint].
  intros c Hc. unfold not_char. rewrite bool_decide_false; [done|]. by intros ->.
Qed.

(** ** Printed byte sequences *)

Definition is_hex (c : ascii) : bool :=
  is_digit c || ((97 <=? char_code c) && (char_code c <=? 102)) || bool_decide (c = "-"%char).

Lemma hex_digit_chars b :
  is_hex (hex_digit (Z.shiftr (byte.unsigned b) 4)) = true ∧
  is_hex (hex_digit (Z.land (byte.unsigned b) 15)) = true.
Proof. by destruct b. Qed.

Lemma hex_bytes_chars value : all_chars is_hex (hex_bytes value) = true.
Proof.
  induction value as [|b value IH]; simpl; [done|].
  destruct (hex_digit_chars b) as [-> ->]. done.
Qed.

Lemma hex_chars value : all_chars is_hex (hex value) = true.
Proof. destruct value; [done|apply hex_bytes_chars]. Qed.

Lemma hex_word value : word (hex value).
Proof.
  split; [by destruct value|]. apply (all_chars_impl is_hex); [|apply hex_chars].
  intros c. by destruct c as [[] [] [] [] [] [] [] []].
Qed.

Lemma nibble_hex b :
  nibble (hex_digit (Z.shiftr (byte.unsigned b) 4)) = Ret (Z.shiftr (byte.unsigned b) 4) ∧
  nibble (hex_digit (Z.land (byte.unsigned b) 15)) = Ret (Z.land (byte.unsigned b) 15) ∧
  byte.of_Z (Z.lor (Z.shiftl (Z.shiftr (byte.unsigned b) 4) 4) (Z.land (byte.unsigned b) 15)) = b.
Proof. by destruct b. Qed.

Lemma unhex_hex_bytes value : unhex_bytes (hex_bytes value) = Ret value.
Proof.
  induction value as [|b value IH]; [done|]. cbn [hex_bytes unhex_bytes].
  destruct (nibble_hex b) as (-> & -> & Hb). simpl. rewrite IH. simpl. by rewrite Hb.
Qed.

Lemma hex_bytes_even value : Nat.odd (String.length (hex_bytes value)) = false.
Proof. induction value as [|b value IH]; [done|]. exact IH. Qed.

Lemma hex_not_absent value : hex value ≠ "~".
Proof. intros Hh. pose proof (hex_chars value) as Hc. by rewrite Hh in Hc. Qed.

Lemma unhex_hex value : unhex (hex value) = Ret value.
Proof.
  destruct value as [|b value]; [done|]. unfold unhex, hex. rewrite bool_decide_false.
  - rewrite hex_bytes_even. by rewrite unhex_hex_bytes.
  - intros Heq. apply (f_equal String.length) in Heq. simpl in Heq. lia.
Qed.

Lemma hex_inj v1 v2 : hex v1 = hex v2 → v1 = v2.
Proof. intros Heq. apply (f_equal unhex) in Heq. rewrite !unhex_hex in Heq. congruence. Qed.
