(* ===== verification/Linearizability.v ===== *)
(** * The linearizability checker

    Model of [linearizability.cpp] up to and including [check] (the replay text is
    in [LinReplay]): typed histories and their validation, the sequential
    specification [apply], the memoised depth-first search over operation masks,
    and the minimisation of counterexamples. *)

From S2P Require Import Prelude OrdMap Bytes Text.
#[local] Open Scope string_scope.
#[local] Open Scope Z_scope.

(** ** Histories *)

Inductive Operation :=
| Get (key : ByteSequence)
| Put (key value : ByteSequence)
| Erase (key : ByteSequence)
| CompareAndSwap (key : ByteSequence) (expected desired : option ByteSequence).

Record VersionedValue := mkVersioned {
  vv_value : ByteSequence;
  vv_modification_revision : Z }.

Inductive Result :=
| GetResult (value : option VersionedValue) (revision : Z)
| PutResult (revision : Z)
| EraseResult (erased : bool) (revision : Z)
| CompareAndSwapResult (exchanged : bool) (revision : Z).

Inductive CompletionKind := succeeded | failed | timed_out | indeterminate.

Record Invocation := mkInvocation {
  iv_operation_id : Z;
  iv_client_id : Z;
  iv_invoked_at : Z;
  iv_operation : Operation }.

Record Completion := mkCompletion {
  cp_operation_id : Z;
  cp_completed_at : Z;
  cp_kind : CompletionKind;
  cp_result : option Result }.

Record History := mkHistory {
  hi_invocations : list Invocation;
  hi_completions : list Completion }.

Record CheckerLimits := mkCheckerLimits {
  cl_max_operations : Z;
  cl_max_search_states : Z;
  cl_max_memo_entries : Z }.

Definition default_checker_limits : CheckerLimits := mkCheckerLimits 64 200000 100000.

#[export] Instance VersionedValue_eq_dec : EqDecision VersionedValue.
Proof. solve_decision. Defined.
#[export] Instance Operation_eq_dec : EqDecision Operation.
Proof. solve_decision. Defined.
#[export] Instance Result_eq_dec : EqDecision Result.
Proof. solve_decision. Defined.
#[export] Instance CompletionKind_eq_dec : EqDecision CompletionKind.
Proof. solve_decision. Defined.
#[export] Instance Invocation_eq_dec : EqDecision Invocation.
Proof. solve_decision. Defined.

Definition operation_key (operation : Operation) : ByteSequence :=
  match operation with
  | Get key | Put key _ | Erase key | CompareAndSwap key _ _ => key
  end.

Definition result_revision (result : Result) : Z :=
  match result with
  | GetResult _ r | PutResult r | EraseResult _ r | CompareAndSwapResult _ r => r
  end.

Definition operation_matches_result (operation : Operation) (result : Result) : bool :=
  match operation, result with
  | Get _, GetResult _ _ | Put _ _, PutResult _ | Erase _, EraseResult _ _
  | CompareAndSwap _ _ _, CompareAndSwapResult _ _ => true
  | _, _ => false
  end.

(** ** Validation *)

(** The visitor on the result of a successful completion. *)
Definition validate_result (result : Result) : outcome unit :=
  _ ← throw_when (result_revision result <? 0)
    (invalid_argument "result revision must be nonnegative");
  match result with
  | GetResult (Some value) revision =>
      throw_when ((vv_modification_revision value <=? 0)
                  || (revision <? vv_modification_revision value))
        (invalid_argument "get value revision is invalid")
  | _ => mret tt
  end.

Definition validate_invocation (invocations : gmap Z Invocation) (invocation : Invocation) :
    outcome (gmap Z Invocation) :=
  _ ← throw_when ((iv_operation_id invocation =? 0) || (iv_client_id invocation =? 0))
    (invalid_argument "operation and client IDs must be nonzero");
  _ ← throw_when (bool_decide (is_Some (invocations !! iv_operation_id invocation)))
    (invalid_argument "duplicate invocation operation ID");
  _ ← throw_when (bool_decide (operation_key (iv_operation invocation) = []))
    (invalid_argument "operation key must be nonempty");
  mret (<[iv_operation_id invocation := invocation]> invocations).

Definition validate_completion (invocations : gmap Z Invocation) (completions : gset Z)
    (completion : Completion) : outcome (gset Z) :=
  match invocations !! cp_operation_id completion with
  | None => Throw (invalid_argument "completion has no invocation")
  | Some invocation =>
      _ ← throw_when (bool_decide (cp_operation_id completion ∈ completions))
        (invalid_argument "duplicate completion operation ID");
      _ ← throw_when (cp_completed_at completion <? iv_invoked_at invocation)
        (invalid_argument "completion precedes invocation");
      _ ← (if bool_decide (cp_kind completion = succeeded) then
             match cp_result completion with
             | Some result =>
                 _ ← throw_when (negb (operation_matches_result (iv_operation invocation) result))
                   (invalid_argument "successful completion has a mismatched result");
                 validate_result result
             | None =>
                 Throw (invalid_argument "successful completion has a mismatched result")
             end
           else throw_when (bool_decide (is_Some (cp_result completion)))
             (invalid_argument "non-successful completion must not carry a result"));
      mret ({[cp_operation_id completion]} ∪ completions)
  end.

Definition validate (history : History) : outcome unit :=
  invocations ← foldM validate_invocation ∅ (hi_invocations history);
  _ ← foldM (validate_completion invocations) ∅ (hi_completions history);
  mret tt.

(** ** The sequential specification *)

Record ModelState := mkModelState {
  ms_revision : Z;
  ms_values : gmap ByteSequence VersionedValue }.

Definition empty_model : ModelState := mkModelState 0 ∅.

Definition current_equals (state : ModelState) (key : ByteSequence)
    (expected : option ByteSequence) : bool :=
  match expected, ms_values state !! key with
  | None, None => true
  | Some e, Some found => bool_decide (vv_value found = e)
  | _, _ => false
  end.

Definition next_revision (current : Z) : option Z :=
  if current =? i64_max then None else Some (current + 1).

(** [expected_result && std::get<R>( *expected_result) != actual], negated;
    [validate] guarantees that the alternatives agree. *)
Definition accepts (expected_result : option Result) (actual : Result) : bool :=
  match expected_result with
  | None => true
  | Some expected => bool_decide (expected = actual)
  end.

(** [None] is the answer [false], after which the state is discarded. *)
Definition apply (state : ModelState) (operation : Operation)
    (expected_result : option Result) : option ModelState :=
  match operation with
  | Get key =>
      if accepts expected_result (GetResult (ms_values state !! key) (ms_revision state))
      then Some state else None
  | Put key value =>
      match next_revision (ms_revision state) with
      | None => None
      | Some next =>
          if accepts expected_result (PutResult next)
          then Some (mkModelState next (<[key := mkVersioned value next]> (ms_values state)))
          else None
      end
  | Erase key =>
      match ms_values state !! key with
      | Some _ =>
          match next_revision (ms_revision state) with
          | None => None
          | Some next =>
              if accepts expected_result (EraseResult true next)
              then Some (mkModelState next (delete key (ms_values state)))
              else None
          end
      | None =>
          if accepts expected_result (EraseResult false (ms_revision state))
          then Some state else None
      end
  | CompareAndSwap key expected desired =>
      let exchanged := current_equals state key expected in
      let mutates := exchanged
        && (bool_decide (is_Some desired) || bool_decide (is_Some (ms_values state !! key))) in
      if mutates then
        match next_revision (ms_revision state) with
        | None => None
        | Some next =>
            if accepts expected_result (CompareAndSwapResult exchanged next)
            then Some (mkModelState next
                   (match desired with
                    | Some value => <[key := mkVersioned value next]> (ms_values state)
                    | None => delete key (ms_values state)
                    end))
            else None
        end
      else
        if accepts expected_result (CompareAndSwapResult exchanged (ms_revision state))
        then Some state else None
  end.

(** ** The search *)

Record SearchOperation := mkSearchOperation {
  op_invocation : Invocation;
  op_completion : option Completion;
  op_required : bool;
  op_predecessors : Z }.

Inductive SearchOutcome := out_linearizable | out_not_linearizable | out_inconclusive.

#[export] Instance SearchOutcome_eq_dec : EqDecision SearchOutcome.
Proof. solve_decision. Defined.

Record SearchContext := mkContext {
  cx_operations : list SearchOperation;
  cx_limits : CheckerLimits;
  cx_explored : Z;
  cx_dead_states : gset string }.

Definition state_entry_key (entry : ByteSequence * VersionedValue) : string :=
  "|" +:+ hex entry.1 +:+ "=" +:+ hex (vv_value entry.2) +:+ "@"
  +:+ decimal (vv_modification_revision entry.2).

Fixpoint concat_strings (l : list string) : string :=
  match l with [] => "" | s :: rest => s +:+ concat_strings rest end.

Definition state_key (remaining : Z) (state : ModelState) : string :=
  decimal remaining +:+ "|" +:+ decimal (ms_revision state)
  +:+ concat_strings (state_entry_key <$> entries (ms_values state)).

Definition bit (index : nat) : Z := Z.shiftl 1 (Z.of_nat index).

(** A recursive call of [search]: [None] when the answer is [linearizable] and is
    returned at once, otherwise the updated [saw_inconclusive]. *)
Definition note (answer : SearchContext * SearchOutcome) (saw_inconclusive : bool) :
    SearchContext * option bool :=
  match answer with
  | (context, out_linearizable) => (context, None)
  | (context, out_not_linearizable) => (context, Some saw_inconclusive)
  | (context, out_inconclusive) => (context, Some true)
  end.

(** The body of the loop for an eligible candidate: omission first when it is not
    required, then its application. *)
Definition try_candidate (rec : SearchContext → Z → ModelState → SearchContext * SearchOutcome)
    (after : Z) (state : ModelState) (candidate : SearchOperation)
    (context : SearchContext) (saw_inconclusive : bool) : SearchContext * option bool :=
  let omitted :=
    if op_required candidate then (context, Some saw_inconclusive)
    else note (rec context after state) saw_inconclusive in
  match omitted with
  | (context, None) => (context, None)
  | (context, Some saw_inconclusive) =>
      let expected := if op_required candidate
        then op_completion candidate ≫= cp_result else None in
      match apply state (iv_operation (op_invocation candidate)) expected with
      | None => (context, Some saw_inconclusive)
      | Some next => note (rec context after next) saw_inconclusive
      end
  end.

(** The loop over the operations from [index] on. *)
Fixpoint try_candidates (rec : SearchContext → Z → ModelState → SearchContext * SearchOutcome)
    (remaining : Z) (state : ModelState) (index : nat) (candidates : list SearchOperation)
    (context : SearchContext) (saw_inconclusive : bool) : SearchContext * option bool :=
  match candidates with
  | [] => (context, Some saw_inconclusive)
  | candidate :: rest =>
      if (Z.land remaining (bit index) =? 0)
         || negb (Z.land (op_predecessors candidate) remaining =? 0)
      then try_candidates rec remaining state (S index) rest context saw_inconclusive
      else
        match try_candidate rec (Z.ldiff remaining (bit index)) state candidate
                context saw_inconclusive with
        | (context, None) => (context, None)
        | (context, Some saw_inconclusive) =>
            try_candidates rec remaining state (S index) rest context saw_inconclusive
        end
  end.

Definition count_explored (context : SearchContext) : SearchContext :=
  mkContext (cx_operations context) (cx_limits context) (cx_explored context + 1)
    (cx_dead_states context).
Definition insert_dead (context : SearchContext) (memo : string) : SearchContext :=
  mkContext (cx_operations context) (cx_limits context) (cx_explored context)
    ({[memo]} ∪ cx_dead_states context).

(** Every recursive call clears one bit of [remaining], so the number of
    operations is enough fuel; without fuel the answer is [inconclusive]. *)
Fixpoint search (fuel : nat) (context : SearchContext) (remaining : Z) (state : ModelState) :
    SearchContext * SearchOutcome :=
  if remaining =? 0 then (context, out_linearizable)
  else if cl_max_search_states (cx_limits context) <=? cx_explored context
  then (context, out_inconclusive)
  else
    let context := count_explored context in
    let memo := state_key remaining state in
    if bool_decide (memo ∈ cx_dead_states context) then (context, out_not_linearizable)
    else if cl_max_memo_entries (cx_limits context) <=? Z.of_nat (size (cx_dead_states context))
    then (context, out_inconclusive)
    else
      match fuel with
      | O => (context, out_inconclusive)
      | S fuel' =>
          match try_candidates (search fuel') remaining state 0 (cx_operations context)
                  context false with
          | (context, None) => (context, out_linearizable)
          | (context, Some true) => (context, out_inconclusive)
          | (context, Some false) => (insert_dead context memo, out_not_linearizable)
          end
      end.

(** ** Checking a history *)

(** [completions.emplace] keeps the first completion of an operation. *)
Definition completion_map (completions : list Completion) : gmap Z Completion :=
  foldl (λ m c, match m !! cp_operation_id c with
                | Some _ => m
                | None => <[cp_operation_id c := c]> m
                end) ∅ completions.

Definition is_get (operation : Operation) : bool :=
  match operation with Get _ => true | _ => false end.

(** The operation of the search for an invocation, if it takes part. *)
Definition search_operation (completions : gmap Z Completion) (invocation : Invocation) :
    option SearchOperation :=
  let found := completions !! iv_operation_id invocation in
  let kind := cp_kind <$> found in
  if bool_decide (kind = Some failed) || bool_decide (kind = Some timed_out) then None
  else
    let required := bool_decide (kind = Some succeeded) in
    let mutating := negb (is_get (iv_operation invocation)) in
    if negb required && negb mutating then None
    else Some (mkSearchOperation invocation found required 0).

Definition operation_id_le (a b : SearchOperation) : Prop :=
  iv_operation_id (op_invocation a) ≤ iv_operation_id (op_invocation b).
#[export] Instance operation_id_le_dec : RelDecision operation_id_le.
Proof. intros a b. unfold operation_id_le. apply _. Defined.

Definition completed_before (earlier later : SearchOperation) : bool :=
  match op_completion earlier with
  | None => false
  | Some c => cp_completed_at c <? iv_invoked_at (op_invocation later)
  end.

(** [predecessors |= 1 << earlier] for every operation that completed before. *)
Fixpoint predecessor_mask (later : nat) (operation : SearchOperation) (earlier : nat)
    (operations : list SearchOperation) : Z :=
  match operations with
  | [] => 0
  | candidate :: rest =>
      let mask := predecessor_mask later operation (S earlier) rest in
      if negb (Nat.eqb earlier later) && completed_before candidate operation
      then Z.lor mask (bit earlier) else mask
  end.

Definition with_predecessors (operations : list SearchOperation) : list SearchOperation :=
  imap (λ later operation,
    mkSearchOperation (op_invocation operation) (op_completion operation)
      (op_required operation) (predecessor_mask later operation 0 operations)) operations.

Definition search_operations (history : History) : list SearchOperation :=
  merge_sort operation_id_le
    (omap (search_operation (completion_map (hi_completions history)))
      (hi_invocations history)).

Definition check_internal (history : History) (limits : CheckerLimits) :
    outcome (SearchOutcome * Z) :=
  _ ← validate history;
  if (cl_max_operations limits =? 0) || (cl_max_search_states limits =? 0)
     || (cl_max_memo_entries limits =? 0)
  then mret (out_inconclusive, 0)
  else if cl_max_operations limits <? Z.of_nat (length (hi_invocations history))
  then mret (out_inconclusive, 0)
  else
    let operations := search_operations history in
    if 64 <? Z.of_nat (length operations) then mret (out_inconclusive, 0)
    else
      let operations := with_predecessors operations in
      let count := length operations in
      let remaining := if Nat.eqb count 64 then u64_max else bit count - 1 in
      let '(context, answer) :=
        search count (mkContext operations limits 0 ∅) remaining empty_model in
      mret (answer, cx_explored context).

(** ** Counterexamples *)

Definition without (history : History) (operation_id : Z) : History :=
  mkHistory
    (filter (λ i, iv_operation_id i ≠ operation_id) (hi_invocations history))
    (filter (λ c, cp_operation_id c ≠ operation_id) (hi_completions history)).

(** One pass over the sorted operation IDs: the first removal that still is
    definitely not linearizable, and the states explored. *)
Fixpoint reduce_once (history : History) (limits : CheckerLimits) (ids : list Z) (explored : Z) :
    outcome (option History * Z) :=
  match ids with
  | [] => mret (None, explored)
  | id :: rest =>
      let candidate := without history id in
      if bool_decide (hi_invocations candidate = [])
      then reduce_once history limits rest explored
      else
        '(answer, states) ← check_internal candidate limits;
        if bool_decide (answer = out_not_linearizable)
        then mret (Some candidate, explored + states)
        else reduce_once history limits rest (explored + states)
  end.

Definition sorted_ids (history : History) : list Z :=
  merge_sort Z.le (iv_operation_id <$> hi_invocations history).

(** [while (changed)]: every round removes an invocation. *)
Fixpoint reduce (fuel : nat) (history : History) (limits : CheckerLimits) (explored : Z) :
    outcome (History * Z) :=
  match fuel with
  | O => mret (history, explored)
  | S fuel' =>
      '(reduced, explored) ← reduce_once history limits (sorted_ids history) explored;
      match reduced with
      | None => mret (history, explored)
      | Some reduced => reduce fuel' reduced limits explored
      end
  end.
