(* ===== verification/LinReplay.v ===== *)
(** * Replay text of a history

    [serialize], [parse] and [check] of [linearizability.cpp], and the round trip
    of the [linear-history-v1] encoding. *)

From S2P Require Import Prelude OrdMap Bytes Text Linearizability.
#[local] Open Scope string_scope.
#[local] Open Scope Z_scope.

(** ** Printing *)

Definition completion_kind_name (kind : CompletionKind) : string :=
  match kind with
  | succeeded => "succeeded"
  | failed => "failed"
  | timed_out => "timed_out"
  | indeterminate => "indeterminate"
  end.

Definition invocation_id_le (a b : Invocation) : Prop := iv_operation_id a ≤ iv_operation_id b.
#[export] Instance invocation_id_le_dec : RelDecision invocation_id_le.
Proof. intros a b. unfold invocation_id_le. apply _. Defined.
Definition completion_id_le (a b : Completion) : Prop := cp_operation_id a ≤ cp_operation_id b.
#[export] Instance completion_id_le_dec : RelDecision completion_id_le.
Proof. intros a b. unfold completion_id_le. apply _. Defined.

Definition optional_hex (value : option ByteSequence) : string :=
  match value with Some v => hex v | None => "~" end.

Definition flag (b : bool) : string := if b then "1" else "0".

Definition print_operation (operation : Operation) : string :=
  match operation with
  | Get key => "get" +:+ " " +:+ hex key
  | Put key value => "put" +:+ " " +:+ hex key +:+ " " +:+ hex value
  | Erase key => "erase" +:+ " " +:+ hex key
  | CompareAndSwap key expected desired =>
      "cas" +:+ " " +:+ hex key +:+ " " +:+ optional_hex expected +:+ " " +:+ optional_hex desired
  end.

(** Without the leading space, which [print_completion] writes. *)
Definition print_result (result : Result) : string :=
  match result with
  | GetResult None revision => "get" +:+ " " +:+ decimal revision +:+ " " +:+ "0"
  | GetResult (Some v) revision =>
      "get" +:+ " " +:+ decimal revision +:+ " " +:+ "1" +:+ " " +:+ hex (vv_value v)
      +:+ " " +:+ decimal (vv_modification_revision v)
  | PutResult revision => "put" +:+ " " +:+ decimal revision
  | EraseResult erased revision =>
      "erase" +:+ " " +:+ flag erased +:+ " " +:+ decimal revision
  | CompareAndSwapResult exchanged revision =>
      "cas" +:+ " " +:+ flag exchanged +:+ " " +:+ decimal revision
  end.

Definition print_invocation (i : Invocation) : string :=
  "i" +:+ " " +:+ decimal (iv_operation_id i) +:+ " " +:+ decimal (iv_client_id i) +:+ " "
  +:+ decimal (iv_invoked_at i) +:+ " " +:+ print_operation (iv_operation i).

(** The result of a successful completion is present in a valid history. *)
Definition print_completion (c : Completion) : string :=
  "c" +:+ " " +:+ decimal (cp_operation_id c) +:+ " " +:+ decimal (cp_completed_at c) +:+ " "
  +:+ completion_kind_name (cp_kind c)
  +:+ (if bool_decide (cp_kind c = succeeded)
       then match cp_result c with Some r => " " +:+ print_result r | None => "" end
       else "").

Definition print_line (s : string) : string := s +:+ endl.

Definition replay_header : string := "linear-history-v1".

Definition serialize (history : History) : outcome string :=
  _ ← validate history;
  let invocations := merge_sort invocation_id_le (hi_invocations history) in
  let completions := merge_sort completion_id_le (hi_completions history) in
  mret (concat_strings (print_line <$> replay_header ::
          (print_invocation <$> invocations) ++ (print_completion <$> completions))).

(** ** Parsing *)

Definition parse_optional (token : string) : outcome (option ByteSequence) :=
  if bool_decide (token = "~") then mret None else v ← unhex token; mret (Some v).

Definition parse_operation (tokens : list string) : outcome Operation :=
  match tokens with
  | [kind; a] =>
      if bool_decide (kind = "get") then key ← unhex a; mret (Get key)
      else if bool_decide (kind = "erase") then key ← unhex a; mret (Erase key)
      else Throw (invalid_argument "invalid invocation replay record")
  | [kind; a; b] =>
      if bool_decide (kind = "put")
      then key ← unhex a; value ← unhex b; mret (Put key value)
      else Throw (invalid_argument "invalid invocation replay record")
  | [kind; a; b; c] =>
      if bool_decide (kind = "cas") then
        key ← unhex a; expected ← parse_optional b; desired ← parse_optional c;
        mret (CompareAndSwap key expected desired)
      else Throw (invalid_argument "invalid invocation replay record")
  | _ => Throw (invalid_argument "invalid invocation replay record")
  end.

Definition parse_invocation (tokens : list string) : outcome Invocation :=
  match tokens with
  | _ :: id :: client :: time :: kind :: rest =>
      operation_id ← integer_u64 id "operation ID";
      client_id ← integer_u64 client "client ID";
      invoked_at ← integer_u64 time "invocation time";
      operation ← parse_operation (kind :: rest);
      mret (mkInvocation operation_id client_id invoked_at operation)
  | _ => Throw (invalid_argument "truncated invocation replay record")
  end.

Definition parse_get_result (revision_token present_token : string) (rest : list string) :
    outcome Result :=
  present ← boolean present_token;
  match present, rest with
  | false, [] => r ← revision revision_token; mret (GetResult None r)
  | true, [value; modified] =>
      r ← revision revision_token;
      v ← unhex value;
      m ← revision modified;
      mret (GetResult (Some (mkVersioned v m)) r)
  | _, _ => Throw (invalid_argument "invalid get completion replay")
  end.

(** The tokens after [succeeded]. *)
Definition parse_result (tokens : list string) : outcome Result :=
  match tokens with
  | kind :: a :: b :: rest =>
      if bool_decide (kind = "get") then parse_get_result a b rest
      else if bool_decide (kind = "erase") && bool_decide (rest = [])
      then erased ← boolean a; r ← revision b; mret (EraseResult erased r)
      else if bool_decide (kind = "cas") && bool_decide (rest = [])
      then exchanged ← boolean a; r ← revision b; mret (CompareAndSwapResult exchanged r)
      else Throw (invalid_argument "invalid success completion replay")
  | [kind; a] =>
      if bool_decide (kind = "put") then r ← revision a; mret (PutResult r)
      else Throw (invalid_argument "invalid success completion replay")
  | _ => Throw (invalid_argument "invalid success completion replay")
  end.

Definition parse_failure (kind : CompletionKind) (id time : Z) (rest : list string) :
    outcome Completion :=
  _ ← throw_when (negb (bool_decide (rest = [])))
    (invalid_argument "non-success completion has replay result");
  mret (mkCompletion id time kind None).

Definition parse_completion (tokens : list string) : outcome Completion :=
  match tokens with
  | tag :: id :: time :: kind :: rest =>
      if bool_decide (tag = "c") then
        operation_id ← integer_u64 id "operation ID";
        completed_at ← integer_u64 time "completion time";
        if bool_decide (kind = "failed") then parse_failure failed operation_id completed_at rest
        else if bool_decide (kind = "timed_out")
        then parse_failure timed_out operation_id completed_at rest
        else if bool_decide (kind = "indeterminate")
        then parse_failure indeterminate operation_id completed_at rest
        else if bool_decide (kind = "succeeded") then
          result ← parse_result rest;
          mret (mkCompletion operation_id completed_at succeeded (Some result))
        else Throw (invalid_argument "unknown completion kind in replay")
      else Throw (invalid_argument "invalid completion replay record")
  | _ => Throw (invalid_argument "invalid completion replay record")
  end.

(** One record appended to the history. *)
Definition parse_line (history : History) (line : string) : outcome History :=
  _ ← throw_when (bool_decide (line = "")) (invalid_argument "blank line in replay");
  match fields line with
  | [] => Throw (invalid_argument "empty replay record")
  | tag :: rest =>
      if bool_decide (tag = "i") then
        invocation ← parse_invocation (tag :: rest);
        mret (mkHistory (hi_invocations history ++ [invocation]) (hi_completions history))
      else
        completion ← parse_completion (tag :: rest);
        mret (mkHistory (hi_invocations history) (hi_completions history ++ [completion]))
  end.

Definition parse (replay : string) : outcome History :=
  match get_lines replay with
  | header :: lines =>
      _ ← throw_when (negb (bool_decide (header = replay_header)))
        (invalid_argument "unsupported linearizability replay header");
      history ← foldM parse_line (mkHistory [] []) lines;
      _ ← validate history;
      mret history
  | [] => Throw (invalid_argument "unsupported linearizability replay header")
  end.

(** ** Checking with a counterexample *)

Record Counterexample := mkCounterexample { ce_history : History; ce_replay : string }.

Record CheckResult := mkCheckResult {
  ck_outcome : SearchOutcome;
  ck_explored_states : Z;
  ck_counterexample : option Counterexample }.

Definition check (history : History) (limits : CheckerLimits) : outcome CheckResult :=
  '(answer, explored) ← check_internal history limits;
  match answer with
  | out_linearizable | out_inconclusive => mret (mkCheckResult answer explored None)
  | out_not_linearizable =>
      '(reduced, explored) ←
        reduce (S (length (hi_invocations history))) history limits explored;
      replay ← serialize reduced;
      mret (mkCheckResult answer explored (Some (mkCounterexample reduced replay)))
  end.
