(* ===== verification/LinValid.v ===== *)
(** * Valid histories

    What [validate] accepts, as a predicate that does not depend on the order of
    the records, and the round trip of the replay text. *)

From S2P Require Import Prelude OrdMap Bytes Text Linearizability LinReplay.
#[local] Open Scope Z_scope.

Definition result_ok (result : Result) : Prop :=
  0 ≤ result_revision result ∧
  match result with
  | GetResult (Some v) r => 0 < vv_modification_revision v ≤ r
  | _ => True
  end.

Record invocation_ok (i : Invocation) : Prop := {
  io_id : iv_operation_id i ≠ 0;
  io_client : iv_client_id i ≠ 0;
  io_key : operation_key (iv_operation i) ≠ [] }.

(** A completion of invocation [i]. *)
Record completes (i : Invocation) (c : Completion) : Prop := {
  cs_id : iv_operation_id i = cp_operation_id c;
  cs_time : iv_invoked_at i ≤ cp_completed_at c;
  cs_result : if decide (cp_kind c = succeeded)
    then ∃ r, cp_result c = Some r ∧ operation_matches_result (iv_operation i) r = true ∧ result_ok r
    else cp_result c = None }.

Record valid_history (h : History) : Prop := {
  vh_invocations : Forall invocation_ok (hi_invocations h);
  vh_unique : NoDup (iv_operation_id <$> hi_invocations h);
  vh_completions : ∀ c, c ∈ hi_completions h → ∃ i, i ∈ hi_invocations h ∧ completes i c;
  vh_unique_completions : NoDup (cp_operation_id <$> hi_completions h) }.

(** ** [validate] *)

Lemma validate_result_ok r : validate_result r = Ret tt ↔ result_ok r.
Proof.
  unfold validate_result, result_ok.
  destruct (Z.ltb_spec (result_revision r) 0); simpl; [split; [done|lia]|].
  destruct r as [[v|] r|r|? r|? r]; simpl in *; try (split; [done|]; done).
  rewrite throw_when_Ret, orb_false_iff, Z.leb_gt, Z.ltb_ge. lia.
Qed.

(** The index of the invocations seen so far. *)
Definition indexes (l : list Invocation) (m : gmap Z Invocation) : Prop :=
  ∀ id i, m !! id = Some i ↔ i ∈ l ∧ iv_operation_id i = id.

Lemma indexes_snoc l m i :
  indexes l m → m !! iv_operation_id i = None →
  indexes (l ++ [i]) (<[iv_operation_id i := i]> m).
Proof.
  intros Hm Hn id j. rewrite elem_of_app, list_elem_of_singleton.
  destruct (decide (id = iv_operation_id i)) as [->|Hne].
  - rewrite lookup_insert_eq. split; [naive_solver|]. intros [[Hj| ->] Hid]; [|done].
    assert (m !! iv_operation_id i = Some j) as Hl by by apply Hm. congruence.
  - rewrite lookup_insert_ne by done. rewrite (Hm id j). naive_solver.
Qed.

Lemma validate_invocation_Ret m i m' :
  validate_invocation m i = Ret m' →
  invocation_ok i ∧ m !! iv_operation_id i = None ∧ m' = <[iv_operation_id i := i]> m.
Proof.
  unfold validate_invocation. intros (u1 & H1%throw_when_Ret & Hv)%bind_Ret.
  apply bind_Ret in Hv as (u2 & H2%throw_when_Ret & Hv).
  apply bind_Ret in Hv as (u3 & H3%throw_when_Ret & [= <-]).
  apply orb_false_iff in H1 as [?%Z.eqb_neq ?%Z.eqb_neq].
  apply bool_decide_eq_false in H2, H3. apply eq_None_not_Some in H2. done.
Qed.

Lemma validate_invocations_indexes l m pre m' :
  indexes pre m → foldM validate_invocation m l = Ret m' → indexes (pre ++ l) m'.
Proof.
  revert m pre. induction l as [|i l IH]; intros m pre Hm; simpl.
  { rewrite app_nil_r. by intros [= <-]. }
  intros (m1 & (_ & ? & ->)%validate_invocation_Ret & Hf)%bind_Ret.
  replace (pre ++ i :: l) with ((pre ++ [i]) ++ l) by by rewrite <-app_assoc.
  eapply IH; [|done]. by apply indexes_snoc.
Qed.

Lemma validate_invocations_iff l m pre :
  indexes pre m → NoDup (iv_operation_id <$> pre) →
  (∃ m', foldM validate_invocation m l = Ret m' ∧ indexes (pre ++ l) m') ↔
  Forall invocation_ok l ∧ NoDup (iv_operation_id <$> (pre ++ l)).
Proof.
  revert m pre. induction l as [|i l IH]; intros m pre Hm Hnd.
  { rewrite app_nil_r. simpl. split; [done|]. intros _. by exists m. }
  assert (m !! iv_operation_id i = None ↔ iv_operation_id i ∉ iv_operation_id <$> pre) as Hfresh.
  { rewrite list_elem_of_fmap. split.
    - intros Hn (j & Hj & Hin). assert (m !! iv_operation_id i = Some j); [|congruence].
      by apply Hm.
    - intros Hn. destruct (m !! iv_operation_id i) as [j|] eqn:Hj; [|done].
      destruct Hn. exists j. apply Hm in Hj. naive_solver. }
  rewrite Forall_cons. simpl foldM. split.
  - intros (m' & Hf & Hm'). apply bind_Ret in Hf as (m1 & Hv & Hf).
    apply validate_invocation_Ret in Hv as (Hok & H2 & ->).
    destruct (IH (<[iv_operation_id i := i]> m) (pre ++ [i])) as [Hgo _].
    { by apply indexes_snoc. }
    { rewrite fmap_app. apply NoDup_app. split_and!; [done| |apply NoDup_singleton].
      simpl. intros x Hx. apply Hfresh in H2. set_solver. }
    rewrite <-app_assoc in Hgo. destruct Hgo as [? ?]; [by eauto|]. done.
  - intros [[[? ? ?] Hok] Hnd'].
    assert (m !! iv_operation_id i = None) as Hn.
    { apply Hfresh. rewrite fmap_app in Hnd'. apply NoDup_app in Hnd' as (_ & Hd & _).
      intros Hin. apply (Hd _ Hin). simpl. by left. }
    destruct (IH (<[iv_operation_id i := i]> m) (pre ++ [i])) as [_ Hgo].
    { by apply indexes_snoc. }
    { rewrite fmap_app. apply NoDup_app. split_and!; [done| |apply NoDup_singleton].
      simpl. intros x Hx. apply Hfresh in Hn. set_solver. }
    rewrite <-app_assoc in Hgo. destruct Hgo as (m' & Hf & Hm'); [done|].
    exists m'. split; [|done]. unfold validate_invocation.
    replace (iv_operation_id i =? 0) with false by (symmetry; by apply Z.eqb_neq).
    replace (iv_client_id i =? 0) with false by (symmetry; by apply Z.eqb_neq).
    rewrite Hn. simpl. by rewrite bool_decide_false.
Qed.

Lemma validate_completion_iff inv m seen c :
  indexes inv m →
  validate_completion m seen c = Ret ({[cp_operation_id c]} ∪ seen) ↔
  (∃ i, i ∈ inv ∧ completes i c) ∧ cp_operation_id c ∉ seen.
Proof.
  intros Hm. unfold validate_completion.
  destruct (m !! cp_operation_id c) as [i|] eqn:Hi.
  2:{ split; [done|]. intros [(i & Hin & Hc) _].
      assert (m !! cp_operation_id c = Some i); [|congruence]. apply Hm. split; [done|apply Hc]. }
  pose proof (proj1 (Hm _ _) Hi) as [Hin Hid].
  assert ((∃ j, j ∈ inv ∧ completes j c) ↔ completes i c) as ->.
  { split; [|naive_solver]. intros (j & Hj & Hc).
    assert (m !! cp_operation_id c = Some j); [|congruence]. apply Hm. split; [done|apply Hc]. }
  rewrite bind_Ret. setoid_rewrite throw_when_Ret. setoid_rewrite bool_decide_eq_false.
  split.
  - intros (_ & Hs & Hv). split; [|done].
    apply bind_Ret in Hv as (_ & Ht%throw_when_Ret%Z.ltb_ge & Hv).
    apply bind_Ret in Hv as ([] & Hv & _). split; [done|done|].
    case_bool_decide as Hk; [rewrite decide_True by done|rewrite decide_False by done].
    + destruct (cp_result c) as [r|]; [|done].
      apply bind_Ret in Hv as (_ & Hmatch%throw_when_Ret%negb_false_iff & Hv).
      apply validate_result_ok in Hv. eauto.
    + apply throw_when_Ret, bool_decide_eq_false in Hv. by apply eq_None_not_Some.
  - intros [[_ Ht Hr] Hs]. exists tt. split; [done|].
    apply Z.ltb_ge in Ht. rewrite Ht. simpl.
    case_bool_decide as Hk; [rewrite decide_True in Hr by done|rewrite decide_False in Hr by done].
    + destruct Hr as (r & -> & -> & Hok). simpl. apply validate_result_ok in Hok. by rewrite Hok.
    + by rewrite Hr.
Qed.

Lemma validate_completion_Ret m seen c X :
  validate_completion m seen c = Ret X → X = {[cp_operation_id c]} ∪ seen.
Proof.
  unfold validate_completion. destruct (m !! _); [|done].
  do 3 (intros (? & _ & Hv)%bind_Ret; revert Hv). by intros [= <-].
Qed.

Lemma validate_completions_iff inv m l pre seen :
  indexes inv m → NoDup (cp_operation_id <$> pre) →
  (∀ id, id ∈ seen ↔ id ∈ cp_operation_id <$> pre) →
  (∃ X, foldM (validate_completion m) seen l = Ret X) ↔
  (∀ c, c ∈ l → ∃ i, i ∈ inv ∧ completes i c) ∧ NoDup (cp_operation_id <$> (pre ++ l)).
Proof.
  intros Hm. revert pre seen. induction l as [|c l IH]; intros pre seen Hnd Hseen.
  { rewrite app_nil_r. simpl. split; [|by eauto]. intros _. split; [set_solver|done]. }
  assert (cp_operation_id c ∉ seen →
    (∃ X, foldM (validate_completion m) ({[cp_operation_id c]} ∪ seen) l = Ret X) ↔
    (∀ c, c ∈ l → ∃ i, i ∈ inv ∧ completes i c) ∧
    NoDup (cp_operation_id <$> (pre ++ c :: l))) as Hrest.
  { intros Hn. rewrite (IH (pre ++ [c])); [by rewrite <-app_assoc| |].
    - rewrite fmap_app. apply NoDup_app. split_and!; [done| |apply NoDup_singleton].
      simpl. intros x Hx%Hseen. set_solver.
    - intros id. rewrite fmap_app, elem_of_app, elem_of_union, Hseen. simpl. set_solver. }
  simpl foldM. split.
  - intros (X & (seen' & Hv & Hf)%bind_Ret).
    pose proof (validate_completion_Ret _ _ _ _ Hv) as ->.
    apply (validate_completion_iff inv) in Hv as [Hc Hn]; [|done].
    destruct (proj1 (Hrest Hn)) as [Hl Hnd']; [by eauto|]. split; [|done].
    intros c' [->|?]%elem_of_cons; auto.
  - intros [Hl Hnd'].
    assert (cp_operation_id c ∉ seen) as Hn.
    { rewrite Hseen. intros Hin. rewrite fmap_app in Hnd'.
      apply NoDup_app in Hnd' as (_ & Hd & _). apply (Hd _ Hin). simpl. by left. }
    destruct (proj2 (Hrest Hn)) as [X HX].
    { split; [|done]. intros c' ?. apply Hl. by right. }
    exists X. rewrite bind_Ret. eexists. split; [|done].
    apply (validate_completion_iff inv); [done|]. split; [|done]. apply Hl. by left.
Qed.

Lemma validate_iff h : validate h = Ret tt ↔ valid_history h.
Proof.
  destruct h as [invs comps]. unfold validate. simpl.
  assert (indexes [] ∅) as H0.
  { intros id i. rewrite lookup_empty. set_solver. }
  pose proof (validate_invocations_iff invs ∅ [] H0) as Hi. simpl in Hi.
  destruct Hi as [Hi1 Hi2]; [constructor|]. split.
  - intros Hv. apply bind_Ret in Hv as (m & Hm & Hv). apply bind_Ret in Hv as (X & HX & _).
    assert (∃ m', foldM validate_invocation ∅ invs = Ret m' ∧ indexes invs m') as Hex.
    { exists m. split; [done|]. by apply (validate_invocations_indexes _ ∅ []). }
    destruct (Hi1 Hex) as [Hok Hnd]. destruct Hex as (m' & Hm' & Hidx).
    assert (m' = m) as -> by congruence.
    destruct (proj1 (validate_completions_iff invs m comps [] ∅ Hidx (NoDup_nil_2) ltac:(set_solver)))
      as [Hc Hcn]; [by eauto|]. split; done.
  - intros [Hok Hnd Hc Hcn]. simpl in *. destruct Hi2 as (m & Hm & Hidx); [done|].
    rewrite Hm. simpl.
    destruct (proj2 (validate_completions_iff invs m comps [] ∅ Hidx (NoDup_nil_2) ltac:(set_solver)))
      as [X HX]; [done|]. by rewrite HX.
Qed.

(** ** The replay text *)

(** The ranges of the C++ types. *)
Definition invocation_fits (i : Invocation) : Prop :=
  0 ≤ iv_operation_id i ≤ u64_max ∧ 0 ≤ iv_client_id i ≤ u64_max ∧ 0 ≤ iv_invoked_at i ≤ u64_max.
Definition completion_fits (c : Completion) : Prop :=
  0 ≤ cp_operation_id c ≤ u64_max ∧ 0 ≤ cp_completed_at c ≤ u64_max ∧
  ∀ r, cp_result c = Some r → result_revision r ≤ i64_max.
Definition history_fits (h : History) : Prop :=
  Forall invocation_fits (hi_invocations h) ∧ Forall completion_fits (hi_completions h).

Lemma optional_hex_word v : word (optional_hex v).
Proof. destruct v; [apply hex_word|done]. Qed.
Lemma flag_word b : word (flag b).
Proof. by destruct b. Qed.
Lemma kind_word k : word (completion_kind_name k).
Proof. by destruct k. Qed.

#[export] Hint Resolve decimal_word hex_word optional_hex_word flag_word kind_word : kura.

(** Splits a printed record into its fields. *)
Ltac split_words :=
  repeat first [rewrite fields_cons by (auto with kura; done)
               |rewrite fields_last by (auto with kura; done)].

Lemma parse_optional_hex v : parse_optional (optional_hex v) = Ret v.
Proof.
  destruct v as [v|]; [|done]. unfold parse_optional. simpl.
  rewrite bool_decide_false by apply hex_not_absent. by rewrite unhex_hex.
Qed.

Lemma boolean_flag b : boolean (flag b) = Ret b.
Proof. by destruct b. Qed.

Lemma parse_print_operation op :
  parse_operation (fields (print_operation op)) = Ret op.
Proof.
  destruct op; unfold print_operation; split_words; simpl;
    rewrite ?unhex_hex; simpl; rewrite ?unhex_hex, ?parse_optional_hex; simpl;
    by rewrite ?parse_optional_hex.
Qed.

Lemma print_operation_fields op : ∃ kind rest, fields (print_operation op) = kind :: rest.
Proof. destruct op; unfold print_operation; split_words; by eauto. Qed.

Lemma parse_print_invocation h i :
  invocation_fits i →
  parse_line h (print_invocation i)
  = Ret (mkHistory (hi_invocations h ++ [i]) (hi_completions h)).
Proof.
  intros (Hid & Hc & Ht). unfold parse_line.
  replace (bool_decide (print_invocation i = ""%string)) with false by done. simpl.
  unfold print_invocation. split_words.
  destruct (print_operation_fields (iv_operation i)) as (k & rest & Hf).
  pose proof (parse_print_operation (iv_operation i)) as Hop. rewrite Hf in Hop |- *.
  rewrite bool_decide_true by done. unfold parse_invocation.
  rewrite !integer_u64_decimal by done. simpl in Hop |- *. rewrite Hop. by destruct i.
Qed.

Lemma parse_print_result r :
  result_ok r → result_revision r ≤ i64_max → parse_result (fields (print_result r)) = Ret r.
Proof.
  intros [Hr Hv] Hmax. destruct r as [[v|] r|r|b r|b r]; unfold print_result;
    split_words; simpl in *; rewrite ?boolean_flag; simpl;
    rewrite ?revision_decimal by lia; try done; unfold parse_get_result; simpl;
    rewrite revision_decimal by lia; simpl; [|done].
  rewrite unhex_hex. simpl. rewrite revision_decimal by lia. by destruct v.
Qed.

Lemma parse_print_completion h i c :
  completion_fits c → completes i c →
  parse_line h (print_completion c)
  = Ret (mkHistory (hi_invocations h) (hi_completions h ++ [c])).
Proof.
  intros (Hid & Ht & Hmax) [_ _ Hr]. unfold parse_line.
  replace (bool_decide (print_completion c = ""%string)) with false by done. simpl.
  unfold print_completion. case_bool_decide as Hk.
  - rewrite decide_True in Hr by done. destruct Hr as (r & Hr & _ & Hok). rewrite Hr.
    rewrite Hk. split_words. rewrite bool_decide_false by done. unfold parse_completion.
    rewrite bool_decide_true by done.
    rewrite !integer_u64_decimal by done. cbn [mbind outcome_bind].
    rewrite parse_print_result by auto. simpl. destruct c; naive_solver.
  - rewrite decide_False in Hr by done. rewrite string_app_nil_r. split_words. simpl.
    rewrite integer_u64_decimal by done. simpl. rewrite integer_u64_decimal by done. simpl.
    destruct c as [id time [] res]; simpl in *; subst; done.
Qed.

(** ** The round trip *)

Definition no_newline (c : Ascii.ascii) : bool := negb (bool_decide (c = newline)).

Lemma word_no_newline s : word s → all_chars no_newline s = true.
Proof.
  intros [_ Hs]. apply (all_chars_impl _ _ _) with (2 := Hs).
  intros c. by destruct c as [[] [] [] [] [] [] [] []].
Qed.

(** Printed records are single lines. *)
Ltac single_line :=
  rewrite ?all_chars_app, ?andb_true_iff; split_and?;
  first [done | apply word_no_newline; auto with kura].

Lemma print_invocation_line i : all_chars no_newline (print_invocation i) = true.
Proof. unfold print_invocation. destruct (iv_operation i); unfold print_operation; single_line. Qed.

Lemma print_completion_line c : all_chars no_newline (print_completion c) = true.
Proof.
  unfold print_completion. case_bool_decide; [|by single_line].
  destruct (cp_result c) as [[[v|] r|r|b r|b r]|]; unfold print_result; single_line.
Qed.

Lemma get_lines_concat l :
  Forall (λ s, all_chars no_newline s = true) l →
  get_lines (concat_strings (print_line <$> l)) = l.
Proof.
  induction 1 as [|s l Hs _ IH]; [done|].
  change (get_lines (print_line s +:+ concat_strings (print_line <$> l)) = s :: l).
  unfold print_line at 1.
  rewrite string_app_assoc, get_lines_cons by done. by rewrite IH.
Qed.

Lemma foldM_app {A B} (f : A → B → outcome A) a l1 l2 :
  foldM f a (l1 ++ l2) = (a' ← foldM f a l1; foldM f a' l2).
Proof. revert a. induction l1 as [|x l1 IH]; intros a; simpl; [done|]. by destruct (f a x); simpl. Qed.

Lemma parse_invocations invs h :
  Forall invocation_fits invs →
  foldM parse_line h (print_invocation <$> invs)
  = Ret (mkHistory (hi_invocations h ++ invs) (hi_completions h)).
Proof.
  intros Hf. revert h. induction Hf as [|i invs Hi _ IH]; intros h; simpl.
  { rewrite app_nil_r. by destruct h. }
  rewrite parse_print_invocation by done. simpl. rewrite IH. simpl. by rewrite <-app_assoc.
Qed.

Lemma parse_completions comps h :
  Forall (λ c, completion_fits c ∧ ∃ i, completes i c) comps →
  foldM parse_line h (print_completion <$> comps)
  = Ret (mkHistory (hi_invocations h) (hi_completions h ++ comps)).
Proof.
  intros Hf. revert h. induction Hf as [|c comps [Hc [i Hi]] _ IH]; intros h; simpl.
  { rewrite app_nil_r. by destruct h. }
  rewrite (parse_print_completion _ i) by done. simpl. rewrite IH. simpl. by rewrite <-app_assoc.
Qed.

(** The history with its records in operation-ID order. *)
Definition sorted_history (h : History) : History :=
  mkHistory (merge_sort invocation_id_le (hi_invocations h))
    (merge_sort completion_id_le (hi_completions h)).

Lemma sorted_valid h : valid_history h → valid_history (sorted_history h).
Proof.
  intros [Hi Hu Hc Hcu]. split; simpl.
  - by rewrite merge_sort_Permutation.
  - by rewrite merge_sort_Permutation.
  - intros c. setoid_rewrite merge_sort_Permutation. apply Hc.
  - by rewrite merge_sort_Permutation.
Qed.

Lemma parse_serialize h :
  valid_history h → history_fits h →
  ∃ text, serialize h = Ret text ∧ parse text = Ret (sorted_history h).
Proof.
  intros Hv [Hfi Hfc]. unfold serialize.
  rewrite (proj2 (validate_iff h) Hv). eexists. split; [reflexivity|].
  unfold parse. rewrite get_lines_concat.
  2:{ apply Forall_cons. split; [done|]. apply Forall_app. split; apply Forall_fmap, Forall_true.
      - apply print_invocation_line. - apply print_completion_line. }
  rewrite bool_decide_true by done. simpl. rewrite foldM_app.
  rewrite parse_invocations by by rewrite merge_sort_Permutation. simpl.
  rewrite parse_completions.
  2:{ rewrite merge_sort_Permutation. apply Forall_forall. intros c Hc.
      rewrite Forall_forall in Hfc. split; [by apply Hfc|].
      destruct (vh_completions _ Hv c) as (i & _ & ?); [done|]. by exists i. }
  simpl. fold (sorted_history h).
  by rewrite (proj2 (validate_iff _) (sorted_valid _ Hv)).
Qed.
