(* ===== verification/LinSearch.v ===== *)
(** * The search of the linearizability checker

    What a linearization of the remaining operations is, that memoisation keys
    identify search states, and that [search] decides the existence of a
    linearization unless a limit is reached. *)

From S2P Require Import Prelude OrdMap Bytes Text Linearizability LinReplay LinValid.
From Stdlib Require Import Ascii.
#[local] Open Scope Z_scope.

(** ** Memoisation keys *)

Lemma hex_not v d : is_hex d = false → all_chars (not_char d) (hex v) = true.
Proof.
  intros Hd. apply (all_chars_impl is_hex); [|apply hex_chars].
  intros c Hc. unfold not_char. rewrite bool_decide_false; [done|]. congruence.
Qed.

Lemma entries_key_starts (l : list (ByteSequence * VersionedValue)) :
  starts_with (not_char "|"%char) (concat_strings (state_entry_key <$> l)).
Proof. by destruct l. Qed.

Lemma state_entries_inj (l1 l2 : list (ByteSequence * VersionedValue)) :
  concat_strings (state_entry_key <$> l1) = concat_strings (state_entry_key <$> l2) → l1 = l2.
Proof.
  revert l2. induction l1 as [|[k1 [v1 r1]] l1 IH]; intros [|[k2 [v2 r2]] l2] Heq; try done.
  change (state_entry_key (k1, mkVersioned v1 r1) +:+ concat_strings (state_entry_key <$> l1)
    = state_entry_key (k2, mkVersioned v2 r2) +:+ concat_strings (state_entry_key <$> l2))%string
    in Heq.
  unfold state_entry_key at 1 3 in Heq. simpl fst in Heq. simpl snd in Heq.
  cbn [vv_value vv_modification_revision] in Heq.
  rewrite !string_app_assoc in Heq. apply String.app_inv_r in Heq.
  apply (split_unique (not_char "="%char)) in Heq as [->%hex_inj Heq];
    [|by apply hex_not..|done|done].
  apply String.app_inv_r in Heq.
  apply (split_unique (not_char "@"%char)) in Heq as [->%hex_inj Heq];
    [|by apply hex_not..|done|done].
  apply String.app_inv_r in Heq.
  apply (split_unique (not_char "|"%char)) in Heq as [->%decimal_inj Heq];
    [|by apply decimal_not..|apply entries_key_starts|apply entries_key_starts].
  by rewrite (IH l2).
Qed.

Lemma state_key_inj rem1 st1 rem2 st2 :
  state_key rem1 st1 = state_key rem2 st2 → rem1 = rem2 ∧ st1 = st2.
Proof.
  unfold state_key. intros Heq.
  apply (split_unique (not_char "|"%char)) in Heq as [->%decimal_inj Heq];
    [|by apply decimal_not..|done|done].
  apply String.app_inv_r in Heq.
  apply (split_unique (not_char "|"%char)) in Heq as [Hr%decimal_inj Heq];
    [|by apply decimal_not..|apply entries_key_starts|apply entries_key_starts].
  apply state_entries_inj in Heq. split; [done|].
  destruct st1 as [r1 m1], st2 as [r2 m2]; simpl in *.
  rewrite Hr, <-(entries_to_map m1), Heq, entries_to_map. done.
Qed.

(** ** Operation masks *)

Definition has (mask : Z) (i : nat) : Prop := Z.testbit mask (Z.of_nat i) = true.

#[export] Instance has_dec mask i : Decision (has mask i).
Proof. unfold has. apply _. Defined.

Lemma has_bit i j : has (bit i) j ↔ i = j.
Proof.
  unfold has, bit. rewrite Z.shiftl_spec by lia.
  change 1 with (2 ^ 0). rewrite Z.pow2_bits_eqb by lia. rewrite Z.eqb_eq. lia.
Qed.

Lemma mask_zero mask : 0 ≤ mask → mask = 0 ↔ ∀ i, ¬ has mask i.
Proof.
  intros Hm. unfold has. split.
  - intros -> i. by rewrite Z.bits_0.
  - intros Hn. apply Z.bits_inj_0. intros n. destruct (decide (0 ≤ n)).
    + specialize (Hn (Z.to_nat n)). rewrite Z2Nat.id in Hn by done.
      by apply not_true_is_false.
    + apply Z.testbit_neg_r. lia.
Qed.

Lemma has_land m1 m2 i : has (Z.land m1 m2) i ↔ has m1 i ∧ has m2 i.
Proof. unfold has. rewrite Z.land_spec, andb_true_iff. done. Qed.

Lemma has_lor m1 m2 i : has (Z.lor m1 m2) i ↔ has m1 i ∨ has m2 i.
Proof. unfold has. rewrite Z.lor_spec, orb_true_iff. done. Qed.

Lemma has_ldiff m1 i j : has (Z.ldiff m1 (bit i)) j ↔ has m1 j ∧ i ≠ j.
Proof.
  rewrite <-has_bit. unfold has. rewrite Z.ldiff_spec, andb_true_iff, negb_true_iff.
  by rewrite <-not_true_iff_false.
Qed.

Lemma land_bit m i : 0 ≤ m → (Z.land m (bit i) =? 0) = false ↔ has m i.
Proof.
  intros Hm. rewrite Z.eqb_neq, mask_zero.
  - setoid_rewrite has_land. setoid_rewrite has_bit. split; [|naive_solver].
    intros Hn. destruct (decide (has m i)); [done|]. destruct Hn. naive_solver.
  - apply Z.land_nonneg. lia.
Qed.

Lemma land_zero m1 m2 :
  0 ≤ m2 → Z.land m1 m2 = 0 ↔ ∀ i, has m1 i → ¬ has m2 i.
Proof.
  intros Hm. rewrite mask_zero by (apply Z.land_nonneg; lia).
  setoid_rewrite has_land. naive_solver.
Qed.

Lemma bit_nonneg i : 0 ≤ bit i.
Proof. unfold bit. apply Z.shiftl_nonneg. lia. Qed.

Lemma ldiff_nonneg m i : 0 ≤ m → 0 ≤ Z.ldiff m (bit i).
Proof. intros. apply Z.ldiff_nonneg. lia. Qed.

(** The operations of a mask, of which there are [n]. *)
Definition members (n : nat) (mask : Z) : list nat := filter (has mask) (seq 0 n).

Lemma elem_of_members n mask i : i ∈ members n mask ↔ has mask i ∧ (i < n)%nat.
Proof. unfold members. rewrite list_elem_of_filter, elem_of_seq. naive_solver lia. Qed.

Lemma NoDup_members n mask : NoDup (members n mask).
Proof. apply NoDup_filter, NoDup_seq. Qed.

Lemma members_ldiff n mask i :
  has mask i → (i < n)%nat →
  (length (members n (Z.ldiff mask (bit i))) < length (members n mask))%nat.
Proof.
  intros Hi Hn.
  assert (i :: members n (Z.ldiff mask (bit i)) ⊆+ members n mask) as Hsub.
  { apply NoDup_submseteq.
    - constructor; [|apply NoDup_members]. rewrite elem_of_members, has_ldiff. naive_solver.
    - intros j. rewrite elem_of_cons, !elem_of_members, has_ldiff. naive_solver. }
  apply submseteq_length in Hsub. simpl in Hsub. lia.
Qed.

(** ** Linearizations of the remaining operations *)

Definition op_expected (o : SearchOperation) : option Result :=
  if op_required o then op_completion o ≫= cp_result else None.

(** Some element of a nonempty list is least for [time]. *)
Lemma least_element {A} (time : A → Z) (l : list A) :
  l ≠ [] → ∃ x, x ∈ l ∧ ∀ y, y ∈ l → time x ≤ time y.
Proof.
  induction l as [|x l IH]; [done|]. intros _. destruct (decide (l = [])) as [->|Hne].
  { exists x. split; [by left|]. intros y ->%list_elem_of_singleton. done. }
  destruct (IH Hne) as (y & Hy & Hmin). destruct (decide (time x ≤ time y)).
  - exists x. split; [by left|]. intros z [->|Hz]%elem_of_cons; [done|].
    specialize (Hmin z Hz). lia.
  - exists y. split; [by right|]. intros z [->|Hz]%elem_of_cons; [lia|]. auto.
Qed.

Section search.
Context (ops : list SearchOperation).

(** Operation [j] must be linearized before operation [i]. *)
Definition before (j i : nat) : Prop :=
  match ops !! i with Some o => has (op_predecessors o) j | None => False end.

#[export] Instance before_dec j i : Decision (before j i).
Proof. unfold before. destruct (ops !! i); apply _. Defined.

Fixpoint replay (st : ModelState) (order : list nat) : option ModelState :=
  match order with
  | [] => Some st
  | i :: rest =>
      o ← ops !! i;
      next ← apply st (iv_operation (op_invocation o)) (op_expected o);
      replay next rest
  end.

(** [order] executes all required operations of [rem] and possibly others of it,
    in an order compatible with real time, with the recorded results. *)
Record linearizes (rem : Z) (st : ModelState) (order : list nat) : Prop := {
  lz_nodup : NoDup order;
  lz_within : ∀ i, i ∈ order → has rem i;
  lz_required : ∀ i o, has rem i → ops !! i = Some o → op_required o = true → i ∈ order;
  lz_order : StronglySorted (λ i j, ¬ before j i) order;
  lz_legal : is_Some (replay st order) }.

Record mask_ok (rem : Z) : Prop := {
  mo_nonneg : 0 ≤ rem;
  mo_bound : ∀ i, has rem i → (i < length ops)%nat }.

Definition eligible (rem : Z) (i : nat) : Prop :=
  has rem i ∧ ∀ j, before j i → ¬ has rem j.

Lemma mask_ok_ldiff rem i : mask_ok rem → mask_ok (Z.ldiff rem (bit i)).
Proof.
  intros [Hn Hb]. split; [by apply ldiff_nonneg|]. intros j [? _]%has_ldiff. auto.
Qed.

(** Omitting an operation, and executing it. *)
Lemma linearizes_omit rem st order i o :
  ops !! i = Some o → op_required o = false →
  linearizes (Z.ldiff rem (bit i)) st order → linearizes rem st order.
Proof.
  intros Ho Hr [Hnd Hin Hreq Hord Hleg]. split; try done.
  - intros j Hj. by apply Hin, has_ldiff in Hj as [? _].
  - intros j o' Hj Ho' Hr'. apply (Hreq j o'); try done. apply has_ldiff. split; [done|].
    intros <-. congruence.
Qed.

Lemma linearizes_apply rem st next order i o :
  ops !! i = Some o → eligible rem i →
  apply st (iv_operation (op_invocation o)) (op_expected o) = Some next →
  linearizes (Z.ldiff rem (bit i)) next order → linearizes rem st (i :: order).
Proof.
  intros Ho [Hi Hel] Ha [Hnd Hin Hreq Hord Hleg]. split.
  - constructor; [|done]. intros [_ Hne]%Hin%has_ldiff. done.
  - intros j [->|Hj]%elem_of_cons; [done|]. by apply Hin, has_ldiff in Hj as [? _].
  - intros j o' Hj Ho' Hr'. destruct (decide (i = j)) as [->|Hne]; [by left|]. right.
    apply (Hreq j o'); try done. by apply has_ldiff.
  - constructor; [done|]. apply Forall_forall. intros j [Hj _]%Hin%has_ldiff Hb.
    by apply (Hel j).
  - simpl. rewrite Ho. simpl. by rewrite Ha.
Qed.

(** Real time is an interval order: transitive, and increasing in [time]. *)
Context (time : nat → Z).
Hypothesis before_trans : ∀ i j k, before i j → before j k → before i k.
Hypothesis before_time : ∀ i j, before i j → time i < time j.

Lemma next_choice rem st order :
  mask_ok rem → rem ≠ 0 → linearizes rem st order →
  ∃ i o, ops !! i = Some o ∧ eligible rem i ∧
    ((op_required o = false ∧ linearizes (Z.ldiff rem (bit i)) st order) ∨
     ∃ next order', apply st (iv_operation (op_invocation o)) (op_expected o) = Some next ∧
       linearizes (Z.ldiff rem (bit i)) next order').
Proof.
  intros [Hn Hb] Hz Hl. destruct Hl as [Hnd Hin Hreq Hord Hleg].
  assert (∀ i o, ops !! i = Some o → has rem i → i ∉ order →
    op_required o = false ∧ linearizes (Z.ldiff rem (bit i)) st order) as Homit.
  { intros i o Ho Hi Hni. split.
    - apply not_true_is_false. intros Hr. by apply Hni, (Hreq i o).
    - split; try done.
      + intros j Hj. apply has_ldiff. split; [auto|]. by intros <-.
      + intros j o' [Hj _]%has_ldiff. eauto. }
  destruct order as [|x order].
  - destruct (least_element time (members (length ops) rem)) as (i & Hi & Hmin).
    { intros Hnil. apply Hz, mask_zero; [done|]. intros i Hi.
      assert (i ∈ members (length ops) rem) as Hm by (apply elem_of_members; auto).
      rewrite Hnil in Hm. set_solver. }
    apply elem_of_members in Hi as [Hi Hlt]. apply lookup_lt_is_Some in Hlt as [o Ho].
    exists i, o. split_and!; [done| |left; apply Homit; set_solver].
    split; [done|]. intros j Hji Hj. apply before_time in Hji.
    assert (time i ≤ time j); [|lia]. apply Hmin, elem_of_members. auto.
  - destruct (decide (filter (λ j, before j x) (members (length ops) rem) = [])) as [Hnil|Hne].
    + pose proof (Hin x ltac:(by left)) as Hx.
      destruct Hleg as [final Hrep]. simpl in Hrep.
      destruct (ops !! x) as [o|] eqn:Ho; [|done]. simpl in Hrep.
      destruct (apply st _ _) as [next|] eqn:Ha; [|done].
      exists x, o. split_and!; [done| |right; exists next, order; split; [done|]].
      * split; [done|]. intros j Hjx Hj.
        assert (j ∈ filter (λ j, before j x) (members (length ops) rem)) as Hf.
        { apply list_elem_of_filter. split; [done|]. apply elem_of_members. auto. }
        rewrite Hnil in Hf. set_solver.
      * apply NoDup_cons in Hnd as [Hxn Hnd]. inversion Hord; subst. split; try done.
        -- intros j Hj. apply has_ldiff. split; [apply Hin; by right|]. by intros <-.
        -- intros j o' [Hj Hjx]%has_ldiff Ho' Hr'. pose proof (Hreq j o' Hj Ho' Hr'). set_solver.
    + destruct (least_element time _ Hne) as (i & Hi & Hmin).
      apply list_elem_of_filter in Hi as [Hix Hi]. apply elem_of_members in Hi as [Hi Hlt].
      apply lookup_lt_is_Some in Hlt as [o Ho].
      exists i, o. split_and!; [done| |left; apply Homit; try done].
      * split; [done|]. intros j Hji Hj. pose proof (before_time _ _ Hji).
        assert (time i ≤ time j); [|lia]. apply Hmin, list_elem_of_filter.
        split; [by eapply before_trans|]. apply elem_of_members. auto.
      * intros [->|Hio]%elem_of_cons; [apply before_time in Hix; lia|].
        inversion Hord as [|? ? _ Hall]; subst. rewrite Forall_forall in Hall.
        by apply (Hall i).
Qed.

(** ** The search decides *)

Definition dead_ok (dead : gset string) : Prop :=
  ∀ rem st, state_key rem st ∈ dead → mask_ok rem → ∀ order, ¬ linearizes rem st order.

Record context_ok (context : SearchContext) : Prop := {
  co_operations : cx_operations context = ops;
  co_dead : dead_ok (cx_dead_states context) }.

Definition exhausted (context : SearchContext) : Prop :=
  cl_max_search_states (cx_limits context) ≤ cx_explored context ∨
  cl_max_memo_entries (cx_limits context) ≤ Z.of_nat (size (cx_dead_states context)).

Record extends (c1 c2 : SearchContext) : Prop := {
  ex_limits : cx_limits c2 = cx_limits c1;
  ex_explored : cx_explored c1 ≤ cx_explored c2;
  ex_dead : cx_dead_states c1 ⊆ cx_dead_states c2;
  ex_growth : Z.of_nat (size (cx_dead_states c2)) - Z.of_nat (size (cx_dead_states c1))
    ≤ cx_explored c2 - cx_explored c1 }.

#[local] Instance extends_po : PreOrder extends.
Proof.
  split; [intros c; split; [done|done|done|lia]|].
  intros c1 c2 c3 [E1 E2 E3 E4] [F1 F2 F3 F4]. split; [congruence|lia|set_solver|lia].
Qed.

Lemma exhausted_extends c1 c2 : extends c1 c2 → exhausted c1 → exhausted c2.
Proof.
  intros [Hl He Hd _]. unfold exhausted. rewrite Hl.
  pose proof (subseteq_size _ _ Hd). intros [?|?]; [left|right]; lia.
Qed.

Definition answer_ok (rem : Z) (st : ModelState) (context : SearchContext)
    (answer : SearchOutcome) : Prop :=
  match answer with
  | out_linearizable => ∃ order, linearizes rem st order
  | out_not_linearizable => ∀ order, ¬ linearizes rem st order
  | out_inconclusive => exhausted context
  end.

Definition call_ok (context : SearchContext) (rem : Z) (st : ModelState)
    (r : SearchContext * SearchOutcome) : Prop :=
  extends context r.1 ∧ context_ok r.1 ∧ answer_ok rem st r.1 r.2.

(** What a round of the loop establishes about an operation. *)
Definition found (rem : Z) (st : ModelState) (i : nat) (o : SearchOperation) : Prop :=
  (op_required o = false ∧ ∃ order, linearizes (Z.ldiff rem (bit i)) st order) ∨
  ∃ next order, apply st (iv_operation (op_invocation o)) (op_expected o) = Some next ∧
    linearizes (Z.ldiff rem (bit i)) next order.

Definition loop_ok (context : SearchContext) (saw : bool) (good : Prop)
    (r : SearchContext * option bool) : Prop :=
  extends context r.1 ∧ context_ok r.1 ∧
  match r.2 with
  | None => good
  | Some true => exhausted r.1
  | Some false => saw = false ∧ ¬ good
  end.

(** One noted recursive call. *)
Lemma note_ok context rem st saw r :
  call_ok context rem st r → (saw = true → exhausted context) →
  loop_ok context saw (∃ order, linearizes rem st order) (note r saw).
Proof.
  destruct r as [c o]. intros (Hex & Hok & Ha) Hsaw. simpl in *. unfold note, loop_ok.
  destruct o; simpl in *; split_and!; try done.
  destruct saw; [|naive_solver]. eapply exhausted_extends; [done|]. auto.
Qed.

Section loop.
Context (rec : SearchContext → Z → ModelState → SearchContext * SearchOutcome).
Context (rem : Z) (st : ModelState).
Hypothesis rem_ok : mask_ok rem.
Hypothesis rec_ok : ∀ context i st', has rem i → context_ok context →
  call_ok context (Z.ldiff rem (bit i)) st' (rec context (Z.ldiff rem (bit i)) st').

Lemma try_candidate_ok context saw i o :
  has rem i → context_ok context → (saw = true → exhausted context) →
  loop_ok context saw (found rem st i o)
    (try_candidate rec (Z.ldiff rem (bit i)) st o context saw).
Proof.
  intros Hi Hok Hsaw. unfold try_candidate.
  assert (loop_ok context saw
    (op_required o = false ∧ ∃ order, linearizes (Z.ldiff rem (bit i)) st order)
    (if op_required o then (context, Some saw)
     else note (rec context (Z.ldiff rem (bit i)) st) saw)) as Homit.
  { destruct (op_required o) eqn:Hr.
    - split_and!; simpl; try done. destruct saw; [by apply Hsaw|]. split; [done|]. by intros [? _].
    - destruct (note_ok context _ st saw _ (rec_ok context i st Hi Hok) Hsaw) as (Hx & Hc & Hn).
      split_and!; [done|done|]. destruct (note _ _).2 as [[]|]; naive_solver. }
  fold (op_expected o). destruct (if op_required o then _ else _) as [c1 [saw1|]].
  2:{ destruct Homit as (Hx & Hc & Hn). split_and!; try done. by left. }
  destruct Homit as (Hx1 & Hc1 & Hn1). simpl in Hx1, Hc1, Hn1.
  assert (saw1 = true → exhausted c1) as Hsaw1 by by intros ->.
  destruct (apply st _ _) as [next|] eqn:Ha.
  - destruct (note_ok c1 _ next saw1 _ (rec_ok c1 i next Hi Hc1) Hsaw1) as (Hx & Hc & Hn).
    split_and!; [by etrans|done|]. destruct (note _ _).2 as [[]|]; [done| |right; naive_solver].
    destruct Hn as [-> Hn]. destruct Hn1 as [-> Hn1]. split; [done|].
    intros [?|(? & order & [= <-]%(eq_trans (eq_sym Ha)) & ?)]; naive_solver.
  - split_and!; [done|done|]. simpl. destruct saw1; [by auto|]. destruct Hn1 as [-> Hn1].
    split; [done|]. intros [?|(? & ? & ? & _)]; [naive_solver|congruence].
Qed.

Definition found_from (index : nat) : Prop :=
  ∃ i o, (index ≤ i)%nat ∧ ops !! i = Some o ∧ eligible rem i ∧ found rem st i o.

Lemma eligible_test i o :
  ops !! i = Some o →
  (Z.land rem (bit i) =? 0) || negb (Z.land (op_predecessors o) rem =? 0) = false ↔
  eligible rem i.
Proof.
  intros Ho. rewrite orb_false_iff, land_bit by apply rem_ok.
  rewrite negb_false_iff, Z.eqb_eq, land_zero by apply rem_ok.
  unfold eligible, before. by rewrite Ho.
Qed.

Lemma try_candidates_ok rest index context saw :
  drop index ops = rest → context_ok context → (saw = true → exhausted context) →
  loop_ok context saw (found_from index)
    (try_candidates rec rem st index rest context saw).
Proof.
  revert index context saw. induction rest as [|o rest IH]; intros index context saw Hd Hok Hsaw.
  { simpl. split_and!; simpl; try done. destruct saw; [by auto|]. split; [done|].
    intros (i & o & Hi & Ho & _). apply lookup_lt_Some in Ho.
    apply (f_equal length) in Hd. rewrite length_drop in Hd. simpl in Hd. lia. }
  assert (ops !! index = Some o) as Ho.
  { rewrite <-(Nat.add_0_r index), <-lookup_drop, Hd. done. }
  assert (drop (S index) ops = rest) as Hd'.
  { replace (S index) with (index + 1)%nat by lia. rewrite <-drop_drop, Hd. done. }
  assert (∀ good : Prop, (good ↔ eligible rem index ∧ found rem st index o) →
    found_from index ↔ good ∨ found_from (S index)) as Hsplit.
  { intros good ->. split.
    - intros (i & o' & Hi & Ho' & He & Hf). destruct (decide (i = index)) as [->|Hne].
      + left. assert (o' = o) as -> by congruence. done.
      + right. exists i, o'. split_and!; try done. lia.
    - intros [[He Hf]|(i & o' & Hi & ?)].
      + by exists index, o. + exists i, o'. split; [lia|done]. }
  simpl. destruct (_ || _) eqn:Ht.
  - destruct (IH (S index) context saw Hd' Hok Hsaw) as (Hx & Hc & Hn). split_and!; try done.
    assert (¬ eligible rem index) as Hne.
    { intros He%(eligible_test _ o); [|done]. congruence. }
    pose proof (Hsplit False ltac:(naive_solver)) as Hs.
    destruct (try_candidates _ _ _ _ _ _ _).2 as [[]|]; naive_solver.
  - apply (eligible_test _ o) in Ht; [|done].
    pose proof (Hsplit (found rem st index o) ltac:(naive_solver)) as Hs.
    destruct (try_candidate_ok context saw index o (proj1 Ht) Hok Hsaw) as (Hx1 & Hc1 & Hn1).
    destruct (try_candidate _ _ _ _ _ _) as [c1 [saw1|]]; simpl in *.
    2:{ split_and!; simpl; try done. rewrite Hs. by left. }
    assert (saw1 = true → exhausted c1) as Hsaw1 by by intros ->.
    destruct (IH (S index) c1 saw1 Hd' Hc1 Hsaw1) as (Hx & Hc & Hn).
    split_and!; [by etrans|done|].
    destruct (try_candidates _ _ _ _ _ _ _).2 as [[]|]; [done| |naive_solver].
    destruct Hn as [-> Hn]. destruct Hn1 as [-> Hn1]. naive_solver.
Qed.
End loop.

Lemma found_linearizes rem st :
  mask_ok rem → rem ≠ 0 → found_from rem st 0 ↔ ∃ order, linearizes rem st order.
Proof.
  intros Hm Hz. split.
  - intros (i & o & _ & Ho & He & [[Hr [order Hl]]|(next & order & Ha & Hl)]).
    + exists order. by eapply linearizes_omit.
    + exists (i :: order). by eapply linearizes_apply.
  - intros [order Hl]. destruct (next_choice _ _ _ Hm Hz Hl) as (i & o & Ho & He & Hf).
    exists i, o. split_and!; [lia|done|done|]. unfold found. naive_solver.
Qed.

Lemma search_ok fuel context rem st :
  mask_ok rem → (length (members (length ops) rem) ≤ fuel)%nat → context_ok context →
  call_ok context rem st (search fuel context rem st).
Proof.
  revert context rem st. induction fuel as [|fuel IH]; intros context rem st Hm Hf Hok.
  - assert (rem = 0) as ->.
    { apply mask_zero; [apply Hm|]. intros i Hi.
      assert (i ∈ members (length ops) rem) as Hin.
      { apply elem_of_members. split; [done|by apply Hm]. }
      destruct (members _ _); simpl in *; [set_solver|lia]. }
    simpl. split_and!; simpl; try done. exists []. split; simpl; try done; try set_solver.
    + constructor. + intros i o Hi. unfold has in Hi. by rewrite Z.bits_0 in Hi. + constructor.
  - cbn [search]. destruct (Z.eqb_spec rem 0) as [->|Hz].
    { split_and!; simpl; try done. exists []. split; simpl; try done; try set_solver.
      + constructor. + intros i o Hi. unfold has in Hi. by rewrite Z.bits_0 in Hi. + constructor. }
    destruct (Z.leb_spec (cl_max_search_states (cx_limits context)) (cx_explored context)).
    { split_and!; simpl; try done. by left. }
    set (c1 := count_explored context).
    assert (extends context c1) as Hx1 by (split; simpl; [done|lia|done|lia]).
    assert (context_ok c1) as Hc1 by by destruct Hok.
    case_bool_decide as Hmemo.
    { split_and!; simpl; [done|done|]. by apply (co_dead _ Hc1). }
    destruct (Z.leb_spec (cl_max_memo_entries (cx_limits c1)) (Z.of_nat (size (cx_dead_states c1)))).
    { split_and!; simpl; [done|done|]. by right. }
    replace (cx_operations c1) with ops by (symmetry; apply Hc1).
    destruct (try_candidates_ok (search fuel) rem st Hm) with (rest := ops) (index := 0%nat)
      (context := c1) (saw := false) as (Hx & Hc & Hn); try done.
    { intros context' i st' Hi Hok'. apply IH; [by apply mask_ok_ldiff| |done].
      pose proof (members_ldiff (length ops) rem i Hi (mo_bound _ Hm _ Hi)). lia. }
    pose proof (found_linearizes _ st Hm Hz) as Hiff.
    destruct (try_candidates _ _ _ _ _ _ _) as [c2 [[]|]]; simpl in *.
    + split_and!; simpl; [by etrans|done|done].
    + destruct Hn as [_ Hn]. rewrite Hiff in Hn. split_and!; simpl.
      * destruct Hx as [E1 E2 E3 E4]. simpl in *. split; simpl; [done|lia|set_solver|].
        pose proof (size_union_alt {[state_key rem st]} (cx_dead_states c2)) as Hsz.
        pose proof (size_singleton (C := gset string) (state_key rem st)).
        pose proof (subseteq_size (cx_dead_states c2 ∖ {[state_key rem st]}) (cx_dead_states c2)
          ltac:(set_solver)). lia.
      * split; simpl; [apply Hc|]. intros rem' st' [Hk|Hk]%elem_of_union Hm' order Hl.
        -- apply elem_of_singleton, state_key_inj in Hk as [-> ->]. eauto.
        -- by eapply (co_dead _ Hc).
      * intros order Hl. eauto.
    + split_and!; simpl; [by etrans|done|by apply Hiff].
Qed.
End search.
