(* ===== verification/LinCheck.v ===== *)
(** * Deciding linearizability

    The abstract definition of a linearizable history, and that [check_internal]
    decides it within its limits; minimality of the counterexamples of [check]. *)

From S2P Require Import Prelude OrdMap Bytes Text Linearizability LinReplay LinValid LinSearch.
#[local] Open Scope Z_scope.

(** ** Linearizable histories *)

Definition completion_of (h : History) (i : Invocation) : option Completion :=
  head (filter (λ c, cp_operation_id c = iv_operation_id i) (hi_completions h)).

Definition kind_of (h : History) (i : Invocation) : option CompletionKind :=
  cp_kind <$> completion_of h i.

(** The result the client observed. *)
Definition observed (h : History) (i : Invocation) : option Result :=
  if decide (kind_of h i = Some succeeded) then completion_of h i ≫= cp_result else None.

(** [a] completed before [b] was invoked. *)
Definition precedes (h : History) (a b : Invocation) : Prop :=
  ∃ c, completion_of h a = Some c ∧ cp_completed_at c < iv_invoked_at b.

(** The sequential execution of invocations with their observed results. *)
Fixpoint run_history (h : History) (st : ModelState) (order : list Invocation) : option ModelState :=
  match order with
  | [] => Some st
  | i :: rest => next ← apply st (iv_operation i) (observed h i); run_history h next rest
  end.

(** A sequential order that explains the history: every successful operation takes
    effect once, operations known to have had no effect do not, the others may, in
    an order compatible with real time that produces the observed results from the
    empty store. *)
Record linearization (h : History) (order : list Invocation) : Prop := {
  ln_nodup : NoDup order;
  ln_within : ∀ i, i ∈ order → i ∈ hi_invocations h ∧
    kind_of h i ≠ Some failed ∧ kind_of h i ≠ Some timed_out;
  ln_succeeded : ∀ i, i ∈ hi_invocations h → kind_of h i = Some succeeded → i ∈ order;
  ln_real_time : StronglySorted (λ a b, ¬ precedes h b a) order;
  ln_legal : is_Some (run_history h empty_model order) }.

Definition linearizable (h : History) : Prop := ∃ order, linearization h order.

(** ** The operations of the search *)

Lemma completion_map_step (m : gmap Z Completion) comps id :
  foldl (λ m c, match m !! cp_operation_id c with
                | Some _ => m
                | None => <[cp_operation_id c := c]> m
                end) m comps !! id
  = match m !! id with
    | Some c => Some c
    | None => head (filter (λ c, cp_operation_id c = id) comps)
    end.
Proof.
  revert m. induction comps as [|c comps IH]; intros m; simpl.
  { by destruct (m !! id). }
  rewrite IH, filter_cons. destruct (m !! cp_operation_id c) as [d|] eqn:Hc.
  - destruct (m !! id) eqn:Hid; [done|]. rewrite decide_False; [done|]. congruence.
  - destruct (decide (cp_operation_id c = id)) as [<-|Hne].
    + by rewrite lookup_insert_eq, Hc.
    + by rewrite lookup_insert_ne by done.
Qed.

Lemma completion_map_of h i :
  completion_map (hi_completions h) !! iv_operation_id i = completion_of h i.
Proof. unfold completion_map. by rewrite completion_map_step, lookup_empty. Qed.

(** An invocation takes part in the search. *)
Definition takes_part (h : History) (i : Invocation) : Prop :=
  kind_of h i ≠ Some failed ∧ kind_of h i ≠ Some timed_out ∧
  (kind_of h i = Some succeeded ∨ is_get (iv_operation i) = false).

Lemma search_operation_Some h i o :
  search_operation (completion_map (hi_completions h)) i = Some o ↔
  takes_part h i ∧
  o = mkSearchOperation i (completion_of h i) (bool_decide (kind_of h i = Some succeeded)) 0.
Proof.
  unfold search_operation, takes_part. rewrite completion_map_of. fold (kind_of h i).
  destruct (kind_of h i) as [[]|], (is_get (iv_operation i)); simpl; naive_solver.
Qed.

#[export] Instance takes_part_dec h i : Decision (takes_part h i).
Proof. unfold takes_part. apply _. Defined.

Section operations.
Context (h : History) (Hvalid : valid_history h).

(** The completion of an invocation, if any, is one of it. *)
Lemma completion_completes i c :
  i ∈ hi_invocations h → completion_of h i = Some c → completes i c.
Proof.
  intros Hi Hc. unfold completion_of in Hc.
  assert (c ∈ filter (λ c, cp_operation_id c = iv_operation_id i) (hi_completions h)) as Hin.
  { destruct (filter _ _) as [|c' l]; [done|]. injection Hc as ->. by left. }
  apply list_elem_of_filter in Hin as [Hid Hin].
  destruct (vh_completions _ Hvalid c Hin) as (j & Hj & Hcj).
  assert (j = i) as ->; [|done].
  pose proof (vh_unique _ Hvalid) as Hnd.
  apply list_elem_of_lookup in Hi as [n1 H1]. apply list_elem_of_lookup in Hj as [n2 H2].
  assert (n1 = n2) as <-; [|congruence].
  apply (NoDup_lookup _ _ _ (iv_operation_id i) Hnd); rewrite list_lookup_fmap.
  - by rewrite H1. - rewrite H2. simpl. f_equal. rewrite (cs_id _ _ Hcj). done.
Qed.

Definition ops : list SearchOperation := with_predecessors (search_operations h).

Lemma elem_of_search_operations o :
  o ∈ search_operations h ↔ ∃ i, i ∈ hi_invocations h ∧ takes_part h i ∧
    o = mkSearchOperation i (completion_of h i) (bool_decide (kind_of h i = Some succeeded)) 0.
Proof.
  unfold search_operations. rewrite merge_sort_Permutation, list_elem_of_omap.
  setoid_rewrite search_operation_Some. naive_solver.
Qed.

Lemma lookup_ops n o :
  ops !! n = Some o ↔ ∃ o', search_operations h !! n = Some o' ∧
    o = mkSearchOperation (op_invocation o') (op_completion o') (op_required o')
          (predecessor_mask n o' 0 (search_operations h)).
Proof.
  unfold ops, with_predecessors. rewrite list_lookup_imap.
  destruct (search_operations h !! n); simpl; naive_solver.
Qed.

Lemma length_ops : length ops = length (search_operations h).
Proof. unfold ops, with_predecessors. apply length_imap. Qed.

(** What the search knows about its [n]-th operation. *)
Lemma lookup_ops_Some n o :
  ops !! n = Some o →
  op_invocation o ∈ hi_invocations h ∧ takes_part h (op_invocation o) ∧
  op_completion o = completion_of h (op_invocation o) ∧
  op_required o = bool_decide (kind_of h (op_invocation o) = Some succeeded).
Proof.
  intros (o' & Ho' & ->)%lookup_ops. simpl.
  apply list_elem_of_lookup_2, elem_of_search_operations in Ho' as (i & ? & ? & ->). done.
Qed.

Lemma op_expected_observed n o :
  ops !! n = Some o → op_expected o = observed h (op_invocation o).
Proof.
  intros (_ & _ & Hc & Hr)%lookup_ops_Some. unfold op_expected, observed. rewrite Hc, Hr.
  case_bool_decide; [by rewrite decide_True|by rewrite decide_False].
Qed.

Lemma ops_surjective i :
  i ∈ hi_invocations h → takes_part h i → ∃ n o, ops !! n = Some o ∧ op_invocation o = i.
Proof.
  intros Hi Ht.
  assert (∃ n, search_operations h !! n = Some (mkSearchOperation i (completion_of h i)
    (bool_decide (kind_of h i = Some succeeded)) 0)) as [n Hn].
  { apply list_elem_of_lookup, elem_of_search_operations. eauto. }
  eexists n, _. split; [apply lookup_ops; by eauto|]. done.
Qed.

Lemma search_operations_NoDup : NoDup (op_invocation <$> search_operations h).
Proof.
  unfold search_operations. rewrite merge_sort_Permutation.
  pose proof (vh_unique _ Hvalid) as Hnd. apply NoDup_fmap_1 in Hnd. revert Hnd.
  generalize (hi_invocations h) as l. induction l as [|i l IH]; simpl; [constructor|].
  intros [Hi Hnd]%NoDup_cons. destruct (search_operation _ i) as [o|] eqn:Ho; [|auto].
  apply search_operation_Some in Ho as [_ ->]. simpl. constructor; [|auto].
  intros (o & -> & Hin)%list_elem_of_fmap. apply list_elem_of_omap in Hin as (j & Hj & Ho).
  apply search_operation_Some in Ho as [_ ->]. done.
Qed.

Lemma ops_injective n1 n2 o1 o2 :
  ops !! n1 = Some o1 → ops !! n2 = Some o2 → op_invocation o1 = op_invocation o2 → n1 = n2.
Proof.
  intros (o1' & H1 & ->)%lookup_ops (o2' & H2 & ->)%lookup_ops. simpl. intros Heq.
  eapply (NoDup_lookup _ _ _ _ search_operations_NoDup); rewrite list_lookup_fmap.
  - by rewrite H1. - rewrite H2. simpl. congruence.
Qed.

Lemma has_predecessor_mask later o earlier l j :
  has (predecessor_mask later o earlier l) j ↔
  ∃ k o', j = (earlier + k)%nat ∧ l !! k = Some o' ∧ j ≠ later ∧ completed_before o' o = true.
Proof.
  revert earlier. induction l as [|o' l IH]; intros earlier; simpl.
  { unfold has. rewrite Z.bits_0. naive_solver. }
  assert (has (predecessor_mask later o (S earlier) l) j ↔
    ∃ k o'', j = (earlier + S k)%nat ∧ l !! k = Some o'' ∧ j ≠ later ∧ completed_before o'' o = true)
    as Hrest.
  { rewrite IH. split; intros (k & o'' & ? & ?); exists k, o''; (split; [lia|done]). }
  assert ((∃ k o'', j = (earlier + k)%nat ∧ (o' :: l) !! k = Some o'' ∧ j ≠ later ∧
      completed_before o'' o = true) ↔
    (j = earlier ∧ j ≠ later ∧ completed_before o' o = true) ∨
    has (predecessor_mask later o (S earlier) l) j) as ->.
  { rewrite Hrest. split.
    - intros ([|k] & o'' & -> & Ho & Hne & Hc); simpl in Ho.
      + left. injection Ho as ->. rewrite Nat.add_0_r in *. done.
      + right. by exists k, o''.
    - intros [(-> & ? & ?)|(k & o'' & ?)].
      + exists 0%nat, o'. rewrite Nat.add_0_r. done. + by exists (S k), o''. }
  destruct (negb (Nat.eqb earlier later) && completed_before o' o) eqn:Ht.
  - apply andb_true_iff in Ht as [Hne%negb_true_iff%Nat.eqb_neq ?].
    rewrite has_lor, has_bit. naive_solver.
  - split; [naive_solver|]. intros [(-> & Hne%Nat.eqb_neq & Hc)|?]; [|done].
    by rewrite Hne, Hc in Ht.
Qed.

Lemma before_lookup j n :
  before ops j n → ∃ oj o, ops !! j = Some oj ∧ ops !! n = Some o.
Proof.
  unfold before. destruct (ops !! n) as [o|] eqn:Ho; [|done]. intros Hb.
  pose proof Ho as (o' & Ho' & ->)%lookup_ops. simpl in Hb.
  apply has_predecessor_mask in Hb as (k & oj & -> & Hk & _). simpl.
  eexists _, _. split; [apply lookup_ops; by eauto|done].
Qed.

(** The masks encode real-time precedence. *)
Lemma before_precedes j n oj o :
  ops !! j = Some oj → ops !! n = Some o →
  before ops j n ↔ precedes h (op_invocation oj) (op_invocation o).
Proof.
  intros Hj Ho. unfold before. rewrite Ho.
  pose proof (lookup_ops_Some _ _ Hj) as (Hin & _ & Hcj & _).
  pose proof Hj as (oj' & Hj' & ->)%lookup_ops. pose proof Ho as (o' & Ho' & ->)%lookup_ops.
  simpl in *. rewrite has_predecessor_mask. simpl. unfold precedes, completed_before.
  split.
  - intros (k & o'' & -> & Hk & _ & Hc). assert (o'' = oj') as -> by congruence.
    destruct (op_completion oj') as [c|]; [|done]. exists c. split; [done|].
    by apply Z.ltb_lt.
  - intros (c & Hc & Hlt). exists j, oj'. split_and!; [done|done| |].
    + intros ->. assert (o' = oj') as -> by congruence.
      assert (completes (op_invocation oj') c) as [_ Ht _]; [|lia].
      apply completion_completes; [done|]. congruence.
    + rewrite Hcj, Hc. by apply Z.ltb_lt.
Qed.

(** ** From search orders to linearizations and back *)

Definition no_invocation : Invocation := mkInvocation 0 0 0 (Get []).
Definition invocation_at (n : nat) : Invocation :=
  match ops !! n with Some o => op_invocation o | None => no_invocation end.
Definition index_of (i : Invocation) : nat :=
  match list_find (λ o, op_invocation o = i) ops with Some (n, _) => n | None => 0 end.

Lemma invocation_at_ops n o : ops !! n = Some o → invocation_at n = op_invocation o.
Proof. unfold invocation_at. by intros ->. Qed.

Lemma index_of_ops i :
  i ∈ hi_invocations h → takes_part h i →
  ∃ o, ops !! index_of i = Some o ∧ op_invocation o = i.
Proof.
  intros Hi Ht. destruct (ops_surjective i Hi Ht) as (n & o & Ho & Hoi).
  unfold index_of. destruct (list_find (λ o, op_invocation o = i) ops) as [[m o']|] eqn:Hf.
  - apply list_find_Some in Hf as (? & ? & _). eauto.
  - apply list_find_None in Hf. rewrite Forall_lookup in Hf. by destruct (Hf n o).
Qed.

Definition all_operations : Z := bit (length ops) - 1.

Lemma has_all n : has all_operations n ↔ (n < length ops)%nat.
Proof.
  unfold has, all_operations, bit. rewrite Z.shiftl_1_l.
  replace (2 ^ Z.of_nat (length ops) - 1) with (Z.ones (Z.of_nat (length ops)))
    by (rewrite Z.ones_equiv; lia).
  destruct (decide (n < length ops)%nat).
  - rewrite Z.ones_spec_low by lia. done.
  - rewrite Z.ones_spec_high by lia. split; [done|lia].
Qed.

Lemma run_replay st order :
  (∀ n, n ∈ order → (n < length ops)%nat) →
  replay ops st order = run_history h st (invocation_at <$> order).
Proof.
  revert st. induction order as [|n order IH]; intros st Hin; [done|].
  rewrite fmap_cons. cbn [replay run_history].
  destruct (lookup_lt_is_Some_2 ops n) as [o Ho]; [apply Hin; by left|].
  rewrite Ho. cbn [mbind option_bind].
  rewrite (invocation_at_ops _ _ Ho), (op_expected_observed _ _ Ho).
  destruct (apply st _ _); simpl; [|done]. apply IH. intros k Hk. apply Hin. by right.
Qed.

Lemma StronglySorted_fmap_in {A B} (f : A → B) (R : relation A) (R' : relation B) l :
  (∀ x y, x ∈ l → y ∈ l → R x y → R' (f x) (f y)) →
  StronglySorted R l → StronglySorted R' (f <$> l).
Proof.
  intros HR. induction 1 as [|x l Hs IH Hall]; simpl; constructor.
  - apply IH. intros y z Hy Hz. apply HR; by right.
  - apply Forall_fmap, Forall_forall. intros y Hy. rewrite Forall_forall in Hall.
    apply HR; [by left|by right|by apply Hall].
Qed.

Lemma StronglySorted_filter_gen {A} (R : relation A) (P : A → Prop) `{!∀ x, Decision (P x)} l :
  StronglySorted R l → StronglySorted R (filter P l).
Proof.
  induction 1 as [|x l Hs IH Hall]; [constructor|]. rewrite filter_cons. case_decide; [|done].
  constructor; [done|]. apply Forall_forall. intros y [_ Hy]%list_elem_of_filter.
  rewrite Forall_forall in Hall. by apply Hall.
Qed.

Lemma search_to_history order :
  linearizes ops all_operations empty_model order →
  linearization h (invocation_at <$> order).
Proof.
  intros [Hnd Hin Hreq Hord Hleg].
  assert (∀ n, n ∈ order → ∃ o, ops !! n = Some o) as Hlook.
  { intros n Hn. by apply lookup_lt_is_Some_2, has_all, Hin. }
  split.
  - apply NoDup_fmap_2_strong; [|done]. intros n m Hn Hm Heq.
    destruct (Hlook n Hn) as [o1 H1], (Hlook m Hm) as [o2 H2].
    rewrite (invocation_at_ops _ _ H1), (invocation_at_ops _ _ H2) in Heq.
    by eapply ops_injective.
  - intros i (n & -> & Hn)%list_elem_of_fmap. destruct (Hlook n Hn) as [o Ho].
    rewrite (invocation_at_ops _ _ Ho).
    destruct (lookup_ops_Some _ _ Ho) as (? & (? & ? & _) & _). done.
  - intros i Hi Hs.
    destruct (ops_surjective i) as (n & o & Ho & <-); [done|unfold takes_part; rewrite Hs; naive_solver|].
    rewrite <-(invocation_at_ops _ _ Ho). apply list_elem_of_fmap_2.
    apply (Hreq n o); [|done|].
    + apply has_all. by eapply lookup_lt_Some.
    + destruct (lookup_ops_Some _ _ Ho) as (_ & _ & _ & ->). by apply bool_decide_eq_true.
  - eapply StronglySorted_fmap_in; [|exact Hord]. intros n m Hn Hm Hb.
    destruct (Hlook n Hn) as [o1 H1], (Hlook m Hm) as [o2 H2].
    rewrite (invocation_at_ops _ _ H1), (invocation_at_ops _ _ H2).
    by rewrite <-(before_precedes _ _ _ _ H2 H1).
  - rewrite <-run_replay; [done|]. intros n Hn. by apply has_all, Hin.
Qed.

(** Reads without a recorded result do not matter. *)
Lemma run_history_filter st order :
  (∀ i, i ∈ order → kind_of h i ≠ Some failed ∧ kind_of h i ≠ Some timed_out) →
  run_history h st (filter (takes_part h) order) = run_history h st order.
Proof.
  revert st. induction order as [|i order IH]; intros st Hk; [done|].
  assert (∀ st, run_history h st (filter (takes_part h) order) = run_history h st order) as IH'.
  { intros st'. apply IH. intros j Hj. apply Hk. by right. }
  rewrite filter_cons. destruct (decide (takes_part h i)) as [Ht|Ht]; simpl.
  - by destruct (apply st _ _); simpl.
  - destruct (Hk i ltac:(by left)) as [Hf Hto].
    assert (kind_of h i ≠ Some succeeded ∧ is_get (iv_operation i) = true) as [Hs Hg].
    { unfold takes_part in Ht. destruct (is_get (iv_operation i)) eqn:Hg; naive_solver. }
    unfold observed. rewrite decide_False by done.
    by destruct (iv_operation i).
Qed.

Lemma history_to_search order :
  linearization h order →
  linearizes ops all_operations empty_model (index_of <$> filter (takes_part h) order).
Proof.
  intros [Hnd Hin Hsuc Hord Hleg].
  assert (∀ i, i ∈ filter (takes_part h) order →
    ∃ o, ops !! index_of i = Some o ∧ op_invocation o = i) as Hlook.
  { intros i [Ht Hi]%list_elem_of_filter. apply index_of_ops; [by apply Hin|done]. }
  assert (∀ i, i ∈ filter (takes_part h) order → invocation_at (index_of i) = i) as Hback.
  { intros i Hi. destruct (Hlook i Hi) as (o & Ho & Hoi). by rewrite (invocation_at_ops _ _ Ho). }
  split.
  - apply NoDup_fmap_2_strong; [|by apply NoDup_filter]. intros i j Hi Hj Heq.
    rewrite <-(Hback i), <-(Hback j) by done. by rewrite Heq.
  - intros n (i & -> & Hi)%list_elem_of_fmap. destruct (Hlook i Hi) as (o & Ho & _).
    apply has_all. by eapply lookup_lt_Some.
  - intros n o Hn Ho Hr. destruct (lookup_ops_Some _ _ Ho) as (Hi & Ht & _ & Hreq).
    rewrite Hr in Hreq. symmetry in Hreq. apply bool_decide_eq_true in Hreq.
    assert (op_invocation o ∈ filter (takes_part h) order) as Hf.
    { apply list_elem_of_filter. auto. }
    destruct (Hlook _ Hf) as (o' & Ho' & Heq).
    rewrite <-(ops_injective _ _ _ _ Ho' Ho Heq). by apply list_elem_of_fmap_2.
  - eapply StronglySorted_fmap_in; [|exact (StronglySorted_filter_gen _ _ _ Hord)].
    intros i j Hi Hj Hp. destruct (Hlook i Hi) as (o1 & H1 & E1), (Hlook j Hj) as (o2 & H2 & E2).
    rewrite (before_precedes _ _ _ _ H2 H1). by rewrite E1, E2.
  - rewrite run_replay.
    2:{ intros n (i & -> & Hi)%list_elem_of_fmap. destruct (Hlook i Hi) as (o & Ho & _).
        by eapply lookup_lt_Some. }
    replace (invocation_at <$> (index_of <$> filter (takes_part h) order))
      with (filter (takes_part h) order).
    + rewrite run_history_filter; [done|]. intros i Hi. by apply Hin.
    + rewrite <-list_fmap_compose. rewrite <-(list_fmap_id (filter _ _)) at 1.
      apply list_fmap_ext. intros n i Hi%list_elem_of_lookup_2. simpl. by rewrite Hback.
Qed.

(** Real time is an interval order. *)
Lemma before_is_time i j :
  before ops i j → iv_invoked_at (invocation_at i) < iv_invoked_at (invocation_at j).
Proof.
  intros Hb. destruct (before_lookup _ _ Hb) as (oi & oj & Hi & Hj).
  rewrite (before_precedes _ _ _ _ Hi Hj) in Hb. destruct Hb as (c & Hc & Hlt).
  rewrite (invocation_at_ops _ _ Hi), (invocation_at_ops _ _ Hj).
  destruct (lookup_ops_Some _ _ Hi) as (Hin & _).
  destruct (completion_completes _ _ Hin Hc) as [_ ? _]. lia.
Qed.

Lemma before_is_trans i j k : before ops i j → before ops j k → before ops i k.
Proof.
  intros Hij Hjk. destruct (before_lookup _ _ Hij) as (oi & oj & Hi & Hj).
  destruct (before_lookup _ _ Hjk) as (oj' & ok & Hj' & Hk).
  assert (oj' = oj) as -> by congruence.
  rewrite (before_precedes _ _ _ _ Hi Hj) in Hij. rewrite (before_precedes _ _ _ _ Hj Hk) in Hjk.
  rewrite (before_precedes _ _ _ _ Hi Hk).
  destruct Hij as (c & Hc & Hlt), Hjk as (c' & Hc' & Hlt'). exists c. split; [done|].
  destruct (lookup_ops_Some _ _ Hj) as (Hin & _).
  destruct (completion_completes _ _ Hin Hc') as [_ ? _]. lia.
Qed.

Lemma search_decides limits :
  let '(context, answer) :=
    search (length ops) (mkContext ops limits 0 ∅) all_operations empty_model in
  match answer with
  | out_linearizable => linearizable h
  | out_not_linearizable => ¬ linearizable h
  | out_inconclusive =>
      cl_max_search_states limits ≤ cx_explored context ∨
      cl_max_memo_entries limits ≤ cx_explored context
  end.
Proof.
  pose proof (search_ok ops (λ n, iv_invoked_at (invocation_at n)) before_is_trans before_is_time
    (length ops) (mkContext ops limits 0 ∅) all_operations empty_model) as Hs.
  destruct (search _ _ _ _) as [context answer].
  destruct Hs as ([Hlim _ _ Hgrow] & _ & Ha).
  - split; [|by intros n ?%has_all]. unfold all_operations, bit. rewrite Z.shiftl_1_l.
    pose proof (Z.pow_pos_nonneg 2 (Z.of_nat (length ops))). lia.
  - unfold members. etrans; [apply length_filter|]. by rewrite length_seq.
  - split; [done|]. intros rem st Hin. simpl in Hin. set_solver.
  - cbn [cx_limits cx_explored cx_dead_states fst snd] in *.
    rewrite (size_empty (C := gset string)) in Hgrow. destruct answer; simpl in Ha.
    + destruct Ha as [order Hl]. eexists. by apply search_to_history.
    + intros [order Hl]. eapply Ha. by apply history_to_search.
    + unfold exhausted in Ha. rewrite Hlim in Ha. lia.
Qed.
End operations.

(** ** The checker *)

(** The resource limits of the checker that can stop it. *)
Definition limit_reached (h : History) (limits : CheckerLimits) (explored : Z) : Prop :=
  cl_max_operations limits = 0 ∨ cl_max_search_states limits = 0 ∨ cl_max_memo_entries limits = 0 ∨
  cl_max_operations limits < Z.of_nat (length (hi_invocations h)) ∨
  64 < Z.of_nat (length (search_operations h)) ∨
  cl_max_search_states limits ≤ explored ∨ cl_max_memo_entries limits ≤ explored.

Definition verdict_ok (h : History) (limits : CheckerLimits) (answer : SearchOutcome)
    (explored : Z) : Prop :=
  match answer with
  | out_linearizable => linearizable h
  | out_not_linearizable => ¬ linearizable h
  | out_inconclusive => limit_reached h limits explored
  end.

Lemma check_internal_ok h limits :
  match check_internal h limits with
  | Ret (answer, explored) => valid_history h ∧ verdict_ok h limits answer explored
  | Throw _ => ¬ valid_history h
  end.
Proof.
  unfold check_internal. destruct (validate h) as [[]|e] eqn:Hv; simpl.
  2:{ intros Hval%validate_iff. congruence. }
  apply validate_iff in Hv. unfold limit_reached, verdict_ok.
  destruct (_ || _) eqn:Hz.
  { rewrite !orb_true_iff, !Z.eqb_eq in Hz. split; [done|]. unfold limit_reached. tauto. }
  destruct (Z.ltb_spec (cl_max_operations limits) (Z.of_nat (length (hi_invocations h)))).
  { split; [done|]. unfold limit_reached. tauto. }
  destruct (Z.ltb_spec 64 (Z.of_nat (length (search_operations h)))).
  { split; [done|]. unfold limit_reached. tauto. }
  fold (ops h).
  replace (if Nat.eqb (length (ops h)) 64 then u64_max else bit (length (ops h)) - 1)
    with (all_operations h).
  2:{ unfold all_operations. destruct (Nat.eqb_spec (length (ops h)) 64) as [Hl|]; [|done].
      by rewrite Hl. }
  pose proof (search_decides h Hv limits) as Hs.
  destruct (search _ _ _ _) as [context answer]. simpl. split; [done|].
  destruct answer; [done|done|]. unfold limit_reached. tauto.
Qed.

(** ** Reduction of counterexamples *)

Lemma without_valid h id : valid_history h → valid_history (without h id).
Proof.
  intros [Hi Hu Hc Hcu]. split; simpl.
  - apply Forall_forall. intros i [_ ?]%list_elem_of_filter. by eapply Forall_forall in Hi.
  - eapply sublist_NoDup; [exact Hu|]. apply fmap_sublist, sublist_filter.
  - intros c [Hne Hin]%list_elem_of_filter. destruct (Hc c Hin) as (i & Hii & Hci).
    exists i. split; [|done]. apply list_elem_of_filter. split; [|done].
    by rewrite (cs_id _ _ Hci).
  - eapply sublist_NoDup; [exact Hcu|]. apply fmap_sublist, sublist_filter.
Qed.

(** Part of [h] and definitely not linearizable. *)
Record refuted_part (h h' : History) : Prop := {
  rp_valid : valid_history h';
  rp_invocations : hi_invocations h' `sublist_of` hi_invocations h;
  rp_completions : hi_completions h' `sublist_of` hi_completions h;
  rp_refuted : ¬ linearizable h' }.

(** No single removal leaves a history the checker refutes. *)
Definition minimal (h : History) (limits : CheckerLimits) : Prop :=
  ∀ i, i ∈ hi_invocations h →
    hi_invocations (without h (iv_operation_id i)) = [] ∨
    ∃ answer explored, check_internal (without h (iv_operation_id i)) limits = Ret (answer, explored) ∧
      answer ≠ out_not_linearizable.

Lemma reduce_once_ok h limits ids explored :
  valid_history h →
  ∃ reduced explored', reduce_once h limits ids explored = Ret (reduced, explored') ∧
  match reduced with
  | None => ∀ id, id ∈ ids →
      hi_invocations (without h id) = [] ∨
      ∃ answer explored, check_internal (without h id) limits = Ret (answer, explored) ∧
        answer ≠ out_not_linearizable
  | Some h' => ∃ id, id ∈ ids ∧ h' = without h id ∧ valid_history h' ∧ ¬ linearizable h'
  end.
Proof.
  intros Hv. revert explored. induction ids as [|id ids IH]; intros explored; simpl.
  { eexists None, _. split; [done|]. intros id Hid. by apply not_elem_of_nil in Hid. }
  pose proof (without_valid h id Hv) as Hw. case_bool_decide as Hnil.
  { destruct (IH explored) as (reduced & explored' & -> & Hr). eexists _, _. split; [done|].
    destruct reduced as [h'|].
    - destruct Hr as (id' & ? & ?). exists id'. split; [by right|done].
    - intros id' [->|?]%elem_of_cons; [by left|by apply Hr]. }
  pose proof (check_internal_ok (without h id) limits) as Hc.
  destruct (check_internal (without h id) limits) as [[answer states]|e] eqn:He; [|done]. simpl.
  case_bool_decide as Ha.
  { subst. eexists _, _. split; [done|]. exists id. split; [by left|]. split; [done|].
    split; [done|]. apply Hc. }
  destruct (IH (explored + states)) as (reduced & explored' & -> & Hr). eexists _, _. split; [done|].
  destruct reduced as [h'|].
  - destruct Hr as (id' & ? & ?). exists id'. split; [by right|done].
  - intros id' [->|?]%elem_of_cons; [right; by eauto|by apply Hr].
Qed.

Lemma without_shorter h id :
  id ∈ sorted_ids h →
  (length (hi_invocations (without h id)) < length (hi_invocations h))%nat.
Proof.
  unfold sorted_ids. rewrite merge_sort_Permutation.
  intros (i & -> & Hi)%list_elem_of_fmap. simpl.
  apply (length_filter_lt _ _ i); [done|]. naive_solver.
Qed.

Lemma reduce_ok fuel h limits explored :
  valid_history h → ¬ linearizable h → (length (hi_invocations h) < fuel)%nat →
  ∃ h' explored', reduce fuel h limits explored = Ret (h', explored') ∧
    refuted_part h h' ∧ minimal h' limits.
Proof.
  revert h explored. induction fuel as [|fuel IH]; intros h explored Hv Hn Hf; [lia|].
  simpl. destruct (reduce_once_ok h limits (sorted_ids h) explored Hv)
    as (reduced & explored' & -> & Hr). simpl. destruct reduced as [h1|].
  - destruct Hr as (id & Hid & -> & Hv1 & Hn1). pose proof (without_shorter _ _ Hid).
    destruct (IH (without h id) explored' Hv1 Hn1) as (h' & explored'' & -> & [? Hsi Hsc ?] & Hmin);
      [lia|].
    eexists _, _. split; [done|]. split; [|done]. split; try done.
    + etrans; [exact Hsi|]. apply sublist_filter.
    + etrans; [exact Hsc|]. apply sublist_filter.
  - eexists _, _. split; [done|]. split; [done|].
    intros i Hi. apply Hr. unfold sorted_ids. rewrite merge_sort_Permutation.
    by apply list_elem_of_fmap_2.
Qed.
