(* ===== verification/LinProps.v ===== *)
(** * Properties of the linearizability checker *)

From S2P Require Import Prelude OrdMap Bytes Text Linearizability LinReplay LinValid.
From S2P Require Import LinSearch LinCheck.
#[local] Open Scope Z_scope.

(** ** A concrete history for the instances *)

Definition demo_key : ByteSequence := [Init.Byte.x6b].
Definition demo_value : ByteSequence := [Init.Byte.x01; Init.Byte.xff].

(** A write and, after it completed, a read that misses it. *)
Definition stale_read : History :=
  mkHistory
    [mkInvocation 2 1 20 (Get demo_key); mkInvocation 1 1 10 (Put demo_key demo_value);
     mkInvocation 3 2 5 (CompareAndSwap demo_key None (Some []))]
    [mkCompletion 1 11 succeeded (Some (PutResult 1));
     mkCompletion 2 21 succeeded (Some (GetResult None 0))].

Lemma stale_read_valid : validate stale_read = Ret tt.
Proof. vm_compute. reflexivity. Qed.

Lemma stale_read_fits : history_fits stale_read.
Proof.
  split; repeat constructor; simpl; try lia; intros r [= <-]; simpl; lia.
Qed.

(** C7: The checker is sound and complete. [check] throws exactly on malformed
    histories; on a well-formed one the answer linearizable means that some
    sequential order explains it, the answer not linearizable means that none does,
    and an inconclusive answer occurs only when one of the configured limits (or
    the 64 operations of the mask) is reached. Memoisation by state text and the
    real-time masks never change the verdict. *)
Theorem checker_decides_linearizability (h : History) (limits : CheckerLimits) :
  match check h limits with
  | Ret r => valid_history h ∧ verdict_ok h limits (ck_outcome r) (ck_explored_states r) ∧
      (is_Some (ck_counterexample r) ↔ ck_outcome r = out_not_linearizable)
  | Throw _ => ¬ valid_history h
  end.
Proof.
  unfold check. pose proof (check_internal_ok h limits) as Hc.
  destruct (check_internal h limits) as [[answer explored]|e]; [|done]. cbn [mbind outcome_bind].
  destruct Hc as [Hv Ha]. destruct answer.
  - split_and!; [done|done|]. split; [by intros [? ?]|done].
  - destruct (reduce_ok (S (length (hi_invocations h))) h limits explored Hv Ha)
      as (h' & explored' & -> & Hr & _); [lia|]. cbn [mbind outcome_bind].
    unfold serialize. rewrite (proj2 (validate_iff h')) by apply Hr. simpl.
    split_and!; [done|done|]. split; by eauto.
  - split_and!; [done|done|]. split; [by intros [? ?]|done].
Qed.

(** The counterexample of a refuted history is a part of it that is itself
    well-formed and not linearizable, is minimal (removing any one operation leaves
    nothing, or a history the checker does not refute), and its replay text parses
    back to it, with its records in operation order. *)
Theorem counterexample_is_minimal (h : History) (limits : CheckerLimits) (r : CheckResult)
    (ce : Counterexample) :
  history_fits h → check h limits = Ret r → ck_counterexample r = Some ce →
  refuted_part h (ce_history ce) ∧ minimal (ce_history ce) limits ∧
  parse (ce_replay ce) = Ret (sorted_history (ce_history ce)).
Proof.
  intros [Hfi Hfc]. unfold check. pose proof (check_internal_ok h limits) as Hc.
  destruct (check_internal h limits) as [[answer explored]|e]; [|done]. cbn [mbind outcome_bind].
  destruct Hc as [Hv Ha]. destruct answer; [by intros [= <-]| |by intros [= <-]].
  destruct (reduce_ok (S (length (hi_invocations h))) h limits explored Hv Ha)
    as (h' & explored' & -> & Hr & Hmin); [lia|]. cbn [mbind outcome_bind].
  destruct (parse_serialize h') as (text & -> & Hp); [apply Hr| |].
  { destruct Hr as [_ Hi Hco _].
    split; apply Forall_forall; intros x Hx; [eapply Forall_forall in Hfi|eapply Forall_forall in Hfc];
      try done; by eapply elem_of_sublist. }
  simpl. intros [= <-] [= <-]. done.
Qed.

Lemma counterexample_is_minimal_witness :
  ∃ r ce, check stale_read default_checker_limits = Ret r ∧ ck_counterexample r = Some ce ∧
    refuted_part stale_read (ce_history ce).
Proof.
  destruct (check stale_read default_checker_limits) as [r|] eqn:Hc;
    [|vm_compute in Hc; discriminate].
  destruct (ck_counterexample r) as [ce|] eqn:He;
    [|vm_compute in Hc; injection Hc as <-; discriminate].
  exists r, ce. split; [reflexivity|]. split; [exact He|].
  exact (proj1 (counterexample_is_minimal stale_read default_checker_limits r ce
    stale_read_fits Hc He)).
Defined.

(** The replay text round trips: a history that passes validation serializes,
    and parsing the text gives the history with invocations and completions in
    operation-ID order; empty byte strings and absent optional values stay
    distinct. *)
Theorem replay_text_round_trip (h : History) :
  validate h = Ret tt → history_fits h →
  ∃ text, serialize h = Ret text ∧ parse text = Ret (sorted_history h).
Proof. intros Hv. apply parse_serialize. by apply validate_iff. Qed.

Lemma replay_text_round_trip_witness :
  ∃ text, serialize stale_read = Ret text ∧ parse text = Ret (sorted_history stale_read).
Proof.
  apply (replay_text_round_trip stale_read); [apply stale_read_valid|apply stale_read_fits].
Defined.
