(* ===== verification/StoreLin.v ===== *)
(** * The store implements the sequential specification

    The point operations of the in-memory store against the sequential
    specification of the linearizability checker: every call is a step of the
    specification with the same result, so histories of calls that take effect
    one at a time (the store holds its mutex for the whole call) are
    linearizable. *)

From S2P Require Import Prelude OrdMap Bytes StoreTypes Store StoreInv StoreTxn StoreOps.
From S2P Require Import StoreSnapshot StoreTrace.
From S2P Require Import Text Linearizability LinReplay LinValid LinSearch LinCheck.
#[local] Open Scope Z_scope.

(** ** Abstraction *)

Definition versioned (v : KeyValue) : VersionedValue := mkVersioned (kv_value v) (kv_mod_revision v).

Definition model_of (s : Store) : ModelState :=
  mkModelState (revision_ s) (versioned <$> values_ s).

(** The store call of an operation and its result as the client records it; the
    store has no compare-and-swap by value. *)
Definition store_call (op : Operation) : option (M Store Result) :=
  match op with
  | Get key => Some (r ← get key; mret (GetResult (versioned <$> sr_value r) (sr_revision r)))
  | Put key value => Some (r ← put key value; mret (Linearizability.PutResult (pr_revision r)))
  | Erase key => Some (r ← erase key; mret (EraseResult (dr_deleted r) (dr_revision r)))
  | CompareAndSwap _ _ _ => None
  end.

Lemma mwp_Ret {S A} (m : M S A) s (Q : A → S → Prop) a s' :
  mwp m s Q (λ _ _, True) → m s = (Ret a, s') → Q a s'.
Proof. intros Hm Hrun. exact (mwp_run _ _ _ _ _ _ Hm Hrun). Qed.

(** Proves a property of the answer and state of a completed run from the weakest
    precondition of the call. *)
Ltac by_run Hrun :=
  lazymatch type of Hrun with
  | _ = (Ret ?a, ?s') =>
      pattern a, s';
      lazymatch goal with |- ?Q a s' => refine (mwp_Ret _ _ Q a s' _ Hrun) end
  end.

(** A published mutation had a next revision. *)
Lemma step_ok_next s events s' :
  step_ok s (Some events) s' →
  next_revision (revision_ s) = Some (revision_ s') ∧ revision_ s' = revision_ s + 1.
Proof.
  intros [Hinv' [] _]. simpl in *. unfold next_revision. pose proof (inv_revision _ Hinv').
  destruct (Z.eqb_spec (revision_ s) i64_max); [lia|]. split; [by f_equal|done].
Qed.

Lemma get_refines (key : ByteSequence) s r s' :
  (r ← get key; mret (GetResult (versioned <$> sr_value r) (sr_revision r))) s = (Ret r, s') →
  s' = s ∧ r = GetResult (versioned <$> values_ s !! key) (revision_ s).
Proof.
  intros Hrun. by_run Hrun.
  mstep. eapply mwp_mono; [apply get_ok| |done]. by intros a s'' (-> & -> & _).
Qed.

Lemma put_refines (key value : ByteSequence) s r s' :
  store_inv s →
  (r ← put key value; mret (Linearizability.PutResult (pr_revision r))) s = (Ret r, s') →
  r = Linearizability.PutResult (revision_ s + 1) ∧
  values_ s' = <[key := write_value s key value]> (values_ s) ∧
  ∃ events, step_ok s (Some events) s'.
Proof.
  intros Hinv Hrun.
  by_run Hrun.
  mstep. eapply mwp_mono; [by apply put_ok| |done]. intros a s'' (-> & Hv & Hs & _).
  apply mwp_ret. eauto.
Qed.

Lemma erase_refines (key : ByteSequence) s r s' :
  store_inv s →
  (r ← erase key; mret (EraseResult (dr_deleted r) (dr_revision r))) s = (Ret r, s') →
  match values_ s !! key with
  | None => s' = s ∧ r = EraseResult false (revision_ s)
  | Some _ => r = EraseResult true (revision_ s + 1) ∧ values_ s' = delete key (values_ s) ∧
      ∃ events, step_ok s (Some events) s'
  end.
Proof.
  intros Hinv Hrun.
  by_run Hrun.
  mstep. eapply mwp_mono; [by apply erase_ok| |done]. intros a s'' Hr. apply mwp_ret.
  destruct (values_ s !! key) as [v|]; destruct_and!; subst; simpl; eauto.
Qed.

Lemma store_call_refines op m s r s' :
  store_inv s → store_call op = Some m → m s = (Ret r, s') →
  apply (model_of s) op (Some r) = Some (model_of s') ∧ store_inv s'.
Proof.
  intros Hinv. destruct op as [key|key value|key|]; simpl; intros [= <-] Hrun.
  - apply get_refines in Hrun as [-> ->]. split; [|done].
    unfold accepts. by rewrite lookup_fmap, bool_decide_true.
  - apply put_refines in Hrun as (-> & Hv & events & Hs); [|done]. split; [|apply Hs].
    destruct (step_ok_next _ _ _ Hs) as [-> Hrev]. unfold accepts, model_of.
    rewrite bool_decide_true by by rewrite Hrev. f_equal. f_equal.
    rewrite Hv, fmap_insert, Hrev. done.
  - apply erase_refines in Hrun; [|done]. rewrite lookup_fmap.
    destruct (values_ s !! key) as [v|]; simpl.
    + destruct Hrun as (-> & Hv & events & Hs). split; [|apply Hs].
      destruct (step_ok_next _ _ _ Hs) as [-> Hrev]. unfold accepts, model_of.
      rewrite bool_decide_true by by rewrite Hrev. f_equal. f_equal. by rewrite Hv, fmap_delete.
    + destruct Hrun as [-> ->]. split; [|done]. unfold accepts. by rewrite bool_decide_true.
Qed.

(** ** Histories of store calls *)

(** A completed client call: it takes effect at [ca_point]. *)
Record Call := mkCall {
  ca_invocation : Invocation;
  ca_point : Z;
  ca_completed_at : Z;
  ca_result : Result }.

Definition call_completion (c : Call) : Completion :=
  mkCompletion (iv_operation_id (ca_invocation c)) (ca_completed_at c) succeeded (Some (ca_result c)).

Definition history_of (calls : list Call) : History :=
  mkHistory (ca_invocation <$> calls) (call_completion <$> calls).

(** The calls take effect on the store one after the other. *)
Inductive executes : Store → list Call → Store → Prop :=
| executes_nil s : executes s [] s
| executes_cons s c m s1 calls s2 :
    store_call (iv_operation (ca_invocation c)) = Some m → m s = (Ret (ca_result c), s1) →
    executes s1 calls s2 → executes s (c :: calls) s2.

(** Each call takes effect between its invocation and its completion, in the order
    of the list. *)
Definition well_timed (calls : list Call) : Prop :=
  Forall (λ c, iv_invoked_at (ca_invocation c) ≤ ca_point c ≤ ca_completed_at c) calls ∧
  StronglySorted (λ a b, ca_point a ≤ ca_point b) calls.

Lemma completion_of_call calls c :
  NoDup (iv_operation_id <$> (ca_invocation <$> calls)) → c ∈ calls →
  completion_of (history_of calls) (ca_invocation c) = Some (call_completion c).
Proof.
  unfold completion_of. simpl. induction calls as [|d calls IH]; [set_solver|].
  rewrite !fmap_cons, filter_cons. intros [Hn Hnd]%NoDup_cons [->|Hin]%elem_of_cons.
  - by rewrite decide_True.
  - rewrite decide_False; [by apply IH|]. simpl. intros Heq. apply Hn. rewrite Heq.
    do 2 apply list_elem_of_fmap_2. done.
Qed.

Lemma run_history_calls h s calls s' :
  store_inv s → executes s calls s' →
  (∀ c, c ∈ calls → observed h (ca_invocation c) = Some (ca_result c)) →
  run_history h (model_of s) (ca_invocation <$> calls) = Some (model_of s').
Proof.
  intros Hinv Hex. revert Hinv. induction Hex as [|s c m s1 calls s2 Hm Hrun _ IH]; intros Hinv Hobs.
  { done. }
  rewrite fmap_cons. cbn [run_history]. rewrite Hobs by by left.
  destruct (store_call_refines _ _ _ _ _ Hinv Hm Hrun) as [-> Hinv1]. cbn [mbind option_bind].
  apply IH; [done|]. intros d Hd. apply Hobs. by right.
Qed.

(** Every point operation of the store is a step of the sequential
    specification of the linearizability checker: on a store that satisfies its
    invariant, a get, put or erase that returns gives exactly the result the
    specification requires, and leaves the store in the specification's next state;
    the invariant is kept. *)
Theorem store_refines_sequential_specification (op : Operation) (m : M Store Result)
    (s : Store) (r : Result) (s' : Store) :
  store_inv s → store_call op = Some m → m s = (Ret r, s') →
  apply (model_of s) op (Some r) = Some (model_of s') ∧ store_inv s'.
Proof. apply store_call_refines. Qed.

(** C30: Histories of store calls are linearizable: when calls with distinct
    operation IDs run on a new store, each taking effect at one point between its
    invocation and its completion, the recorded history is linearizable in the sense
    the checker decides. *)
Theorem store_histories_linearizable (limits : StoreLimits) (s0 s : Store) (calls : list Call) :
  limits_ok limits → new_store 0 limits = Ret s0 → executes s0 calls s →
  well_timed calls → NoDup (iv_operation_id <$> (ca_invocation <$> calls)) →
  linearization (history_of calls) (ca_invocation <$> calls).
Proof.
  intros Hlim Hnew Hex [Htime Hsort] Hnd.
  pose proof (new_store_ok 0 limits ltac:(lia) Hlim) as Hok. rewrite Hnew in Hok.
  destruct Hok as [Hinv Hs0].
  assert (∀ c, c ∈ calls → kind_of (history_of calls) (ca_invocation c) = Some succeeded) as Hkind.
  { intros c Hc. unfold kind_of. by rewrite completion_of_call. }
  split.
  - by eapply NoDup_fmap_1.
  - intros i (c & -> & Hc)%list_elem_of_fmap. rewrite (Hkind c Hc).
    split; [by apply list_elem_of_fmap_2|done].
  - done.
  - eapply StronglySorted_fmap_in; [|exact Hsort]. intros a b Ha Hb Hab (c & Hc & Hlt).
    rewrite completion_of_call in Hc by done. injection Hc as <-. simpl in Hlt, Hab.
    rewrite Forall_forall in Htime. pose proof (Htime a Ha). pose proof (Htime b Hb). lia.
  - replace empty_model with (model_of s0)
      by (rewrite Hs0; unfold model_of, empty_model; simpl; by rewrite fmap_empty).
    eexists. eapply run_history_calls; [done|done|]. intros c Hc. unfold observed.
    rewrite decide_True by by apply Hkind. by rewrite completion_of_call.
Qed.

(** ** Instances *)

Definition lin_key : ByteSequence := [Init.Byte.x61].

Definition put_call : Call :=
  mkCall (mkInvocation 1 1 0 (Put lin_key [])) 1 2 (Linearizability.PutResult 1).
Definition get_call : Call :=
  mkCall (mkInvocation 2 2 1 (Get lin_key)) 3 4 (GetResult (Some (mkVersioned [] 1)) 1).

Lemma store_limits_ok : limits_ok default_limits.
Proof. by split; simpl; lia. Qed.

Lemma empty_store_inv : store_inv (empty_at 0 default_limits).
Proof. apply empty_at_inv; [lia|apply store_limits_ok]. Qed.

Lemma store_refines_sequential_specification_witness :
  ∃ s', apply (model_of (empty_at 0 default_limits)) (Put lin_key [])
    (Some (Linearizability.PutResult 1)) = Some (model_of s') ∧ store_inv s'.
Proof.
  eexists. eapply (store_refines_sequential_specification (Put lin_key []) _
    (empty_at 0 default_limits));
    [apply empty_store_inv|reflexivity|vm_compute; reflexivity].
Defined.

Lemma store_histories_linearizable_witness :
  linearization (history_of [put_call; get_call]) (ca_invocation <$> [put_call; get_call]).
Proof.
  eapply (store_histories_linearizable default_limits (empty_at 0 default_limits));
    [apply store_limits_ok|reflexivity| | |].
  - eapply executes_cons; [reflexivity|vm_compute; reflexivity|].
    eapply executes_cons; [reflexivity|vm_compute; reflexivity|]. apply executes_nil.
  - split; [repeat constructor; simpl; lia|]. repeat constructor; simpl; lia.
  - apply (bool_decide_unpack _). vm_compute. exact I.
Defined.
