(* ===== verification/Codec.v ===== *)
(** * Little-endian fields and CRC-32C

    The byte-level helpers of [durable_storage.cpp] and
    [raft_hard_state_store.cpp]: [append_le], [read_le], the overflow-checked
    arithmetic and the [Crc32cAccumulator]. *)

From S2P Require Import Prelude OrdMap Bytes.
#[local] Open Scope Z_scope.

Definition fail {A} (message : string) : outcome A := Throw (storage_error message).
Definition fail_when (b : bool) (message : string) : outcome unit :=
  throw_when b (storage_error message).

(** [bytes.size()] as an unsigned integer. *)
Definition bytes_size (bytes : list byte) : Z := Z.of_nat (length bytes).

Lemma bytes_size_app a b : bytes_size (a ++ b) = bytes_size a + bytes_size b.
Proof. unfold bytes_size. rewrite length_app. lia. Qed.

Lemma Ret_inj {A} (a b : A) : Ret a = Ret b → a = b.
Proof. congruence. Qed.

(** ** Fields *)

(** The [sizeof(Integer)] bytes [append_le] pushes. *)
Fixpoint append_le (size : nat) (value : Z) : list byte :=
  match size with
  | O => []
  | S size' => byte.of_Z (Z.land value 255) :: append_le size' (Z.shiftr value 8)
  end.

(** [value |= bytes[offset + i] << 8 * i]. *)
Definition read_le (size : nat) (bytes : list byte) (offset : nat) : outcome Z :=
  _ ← fail_when ((bytes_size bytes <? Z.of_nat offset)
                 || (bytes_size bytes - Z.of_nat offset <? Z.of_nat size))
    "durable format field extends past end of file";
  mret (le_combine (take size (drop offset bytes))).

Lemma append_le_split size value : append_le size value = le_split size value.
Proof.
  revert value. induction size as [|size IH]; intros value; [done|].
  change (le_split (S size) value) with (byte.of_Z value :: le_split size (Z.shiftr value 8)).
  cbn [append_le]. rewrite IH. f_equal.
  apply byte.unsigned_inj. rewrite !byte.unsigned_of_Z. unfold byte.wrap.
  change 255 with (Z.ones 8). rewrite Z.land_ones by lia. change (2 ^ 8) with 256.
  by rewrite Z.mod_mod.
Qed.

Lemma length_append_le size value : length (append_le size value) = size.
Proof. rewrite append_le_split. apply length_le_split. Qed.

Lemma read_le_skip size a b offset :
  (length a ≤ offset)%nat → read_le size (a ++ b) offset = read_le size b (offset - length a).
Proof.
  intros Hle. unfold read_le, bytes_size. rewrite drop_app_ge by done. rewrite length_app.
  replace (Z.of_nat (length a + length b) <? Z.of_nat offset)
    with (Z.of_nat (length b) <? Z.of_nat (offset - length a))
    by (apply eq_true_iff_eq; rewrite !Z.ltb_lt; lia).
  replace (Z.of_nat (length a + length b) - Z.of_nat offset <? Z.of_nat size)
    with (Z.of_nat (length b) - Z.of_nat (offset - length a) <? Z.of_nat size)
    by (apply eq_true_iff_eq; rewrite !Z.ltb_lt; lia).
  done.
Qed.

Lemma read_le_here size value rest :
  0 ≤ value < 2 ^ (8 * Z.of_nat size) →
  read_le size (append_le size value ++ rest) 0 = Ret value.
Proof.
  intros Hv. unfold read_le, bytes_size. rewrite length_app, length_append_le.
  destruct (Z.ltb_spec (Z.of_nat (size + length rest)) (Z.of_nat 0)); [lia|].
  destruct (Z.ltb_spec (Z.of_nat (size + length rest) - Z.of_nat 0) (Z.of_nat size)); [lia|].
  simpl. rewrite drop_0. rewrite take_app_length' by by rewrite length_append_le.
  rewrite append_le_split, le_combine_split, Z.mul_comm. by rewrite Z.mod_small.
Qed.

(** A field that is read lies within the bytes, and the bytes determine it. *)
Lemma read_le_value size bytes offset :
  (offset + size ≤ length bytes)%nat →
  read_le size bytes offset = Ret (le_combine (take size (drop offset bytes))).
Proof.
  intros Hle. unfold read_le, bytes_size.
  destruct (Z.ltb_spec (Z.of_nat (length bytes)) (Z.of_nat offset)); [lia|].
  by destruct (Z.ltb_spec (Z.of_nat (length bytes) - Z.of_nat offset) (Z.of_nat size)); [lia|].
Qed.

Lemma read_le_bound size bytes offset v :
  read_le size bytes offset = Ret v → 0 ≤ v < 2 ^ (8 * Z.of_nat size).
Proof.
  unfold read_le, fail_when. intros (_ & _ & <-%Ret_inj)%bind_Ret.
  pose proof (le_combine_bound (take size (drop offset bytes))) as Hb.
  assert (2 ^ (8 * Z.of_nat (length (take size (drop offset bytes)))) ≤ 2 ^ (8 * Z.of_nat size));
    [|lia].
  apply Z.pow_le_mono_r; [lia|]. rewrite length_take. lia.
Qed.

Lemma read_le_take size bytes offset n :
  (offset + size ≤ n)%nat → (n ≤ length bytes)%nat →
  read_le size (take n bytes) offset = read_le size bytes offset.
Proof.
  intros H1 H2. rewrite !read_le_value; [|lia|rewrite length_take; lia]. f_equal. f_equal.
  rewrite <-(firstn_skipn n bytes) at 2. rewrite drop_app_le by (rewrite length_take; lia).
  rewrite take_app_le; [done|]. rewrite length_drop, length_take. lia.
Qed.

(** Reads a field out of a concatenation of fields. *)
Ltac read_field :=
  repeat (rewrite read_le_skip by (rewrite ?length_append_le; simpl; lia));
  rewrite ?length_append_le; simpl Nat.sub;
  rewrite ?read_le_here by (try done; lia).

(** ** Overflow-checked arithmetic *)

Definition checked_add (left right : Z) : option Z :=
  if u64_max - left <? right then None else Some (left + right).

Definition checked_multiply (left right : Z) : option Z :=
  if negb (left =? 0) && (u64_max `div` left <? right) then None else Some (left * right).

Lemma checked_add_Some l r : l + r ≤ u64_max → checked_add l r = Some (l + r).
Proof. intros. unfold checked_add. by destruct (Z.ltb_spec (u64_max - l) r); [lia|]. Qed.

Lemma checked_multiply_Some l r :
  0 ≤ l → l * r ≤ u64_max → checked_multiply l r = Some (l * r).
Proof.
  intros Hl Hr. unfold checked_multiply. destruct (Z.eqb_spec l 0); [done|]. simpl.
  destruct (Z.ltb_spec (u64_max `div` l) r) as [Hlt|]; [|done].
  assert (r ≤ u64_max `div` l); [|lia]. apply Z.div_le_lower_bound; lia.
Qed.

(** ** CRC-32C *)

Definition crc_polynomial : Z := 2197175160. (* 0x82f63b78 *)

Definition crc_bit (value : Z) : Z :=
  let mask := (0 - Z.land value 1) `mod` 4294967296 in
  Z.lxor (Z.shiftr value 1) (Z.land crc_polynomial mask).

Definition crc_byte (value : Z) (b : byte) : Z :=
  Nat.iter 8 crc_bit (Z.lxor value (byte.unsigned b)).
#[global] Arguments crc_byte : simpl never.

(** [Crc32cAccumulator::update] and [finish]. *)
Definition crc_update (value : Z) (bytes : list byte) : Z := foldl crc_byte value bytes.
Definition crc_finish (value : Z) : Z := Z.lxor value u32_max.

Definition crc32c (bytes : list byte) : Z := crc_finish (crc_update u32_max bytes).

(** The check value of the CRC catalogue. *)
Example crc32c_check :
  crc32c (bytes_of_Zs [49; 50; 51; 52; 53; 54; 55; 56; 57]) = 3808858755.
Proof. vm_compute. reflexivity. Qed.

Lemma crc_update_app value a b : crc_update value (a ++ b) = crc_update (crc_update value a) b.
Proof. apply foldl_app. Qed.

Definition u32 (value : Z) : Prop := 0 ≤ value < 2 ^ 32.

Lemma crc_bit_cases value :
  crc_bit value = Z.lxor (Z.shiftr value 1) (if Z.testbit value 0 then crc_polynomial else 0).
Proof.
  unfold crc_bit. f_equal. change 1 with (Z.ones 1). rewrite Z.land_ones by lia.
  change (2 ^ 1) with 2. rewrite <-Z.bit0_mod. by destruct (Z.testbit value 0).
Qed.

Lemma u32_bits value : u32 value ↔ 0 ≤ value ∧ ∀ i, 32 ≤ i → Z.testbit value i = false.
Proof.
  unfold u32. split.
  - intros [H0 Hlt]. split; [done|]. intros i Hi. destruct (decide (value = 0)) as [->|].
    + apply Z.bits_0.
    + apply Z.bits_above_log2; [done|]. apply Z.log2_lt_pow2; [lia|].
      eapply Z.lt_le_trans; [done|]. apply Z.pow_le_mono_r; lia.
  - intros [H0 Hb]. split; [done|]. destruct (decide (value = 0)) as [->|]; [done|].
    apply Z.log2_lt_pow2; [lia|]. destruct (decide (Z.log2 value < 32)); [done|].
    exfalso. specialize (Hb (Z.log2 value) ltac:(lia)). rewrite Z.bit_log2 in Hb; [done|lia].
Qed.

Lemma u32_lxor a b : u32 a → u32 b → u32 (Z.lxor a b).
Proof.
  rewrite !u32_bits. intros [Ha Hab] [Hb Hbb]. split; [by apply Z.lxor_nonneg|].
  intros i Hi. by rewrite Z.lxor_spec, Hab, Hbb.
Qed.

Lemma u32_crc_bit value : u32 value → u32 (crc_bit value).
Proof.
  intros Hv. rewrite crc_bit_cases. apply u32_lxor.
  - apply u32_bits in Hv as [H0 Hb]. apply u32_bits. split; [by apply Z.shiftr_nonneg|].
    intros i Hi. rewrite Z.shiftr_spec by lia. apply Hb. lia.
  - destruct (Z.testbit value 0); done.
Qed.

(** The polynomial has bit 31, so the dropped bit can be recovered. *)
Lemma crc_bit_inj v1 v2 : u32 v1 → u32 v2 → crc_bit v1 = crc_bit v2 → v1 = v2.
Proof.
  intros H1%u32_bits H2%u32_bits. rewrite !crc_bit_cases. intros Heq.
  assert (∀ v, (0 ≤ v ∧ ∀ i, 32 ≤ i → Z.testbit v i = false) →
    Z.testbit (Z.lxor (Z.shiftr v 1) (if Z.testbit v 0 then crc_polynomial else 0)) 31
    = Z.testbit v 0) as Htop.
  { intros v [_ Hb]. rewrite Z.lxor_spec, Z.shiftr_spec, Hb by lia. by destruct (Z.testbit v 0). }
  assert (Z.testbit v1 0 = Z.testbit v2 0) as H0.
  { rewrite <-(Htop v1 H1), <-(Htop v2 H2). by rewrite Heq. }
  rewrite H0 in Heq.
  assert (Z.shiftr v1 1 = Z.shiftr v2 1) as Hsh.
  { apply (f_equal (λ x, Z.lxor x (if Z.testbit v2 0 then crc_polynomial else 0))) in Heq.
    by rewrite !Z.lxor_assoc, !Z.lxor_nilpotent, !Z.lxor_0_r in Heq. }
  apply Z.bits_inj'. intros i Hi. destruct (decide (i = 0)) as [->|]; [done|].
  replace i with ((i - 1) + 1) by lia. rewrite <-!Z.shiftr_spec by lia. by rewrite Hsh.
Qed.

Lemma u32_byte b : u32 (byte.unsigned b).
Proof. pose proof (byte.unsigned_range b). unfold u32. lia. Qed.

Lemma iter_crc_bit_inj n v1 v2 :
  u32 v1 → u32 v2 → Nat.iter n crc_bit v1 = Nat.iter n crc_bit v2 → v1 = v2.
Proof.
  intros H1 H2. assert (∀ v, u32 v → ∀ m, u32 (Nat.iter m crc_bit v)) as Hu.
  { intros v Hv. induction m; simpl; [done|]. by apply u32_crc_bit. }
  induction n as [|n IH]; simpl; [done|]. intros Heq. apply IH, crc_bit_inj; auto.
Qed.

Lemma u32_crc_byte v b : u32 v → u32 (crc_byte v b).
Proof.
  intros Hv. unfold crc_byte. assert (∀ m x, u32 x → u32 (Nat.iter m crc_bit x)) as Hu.
  { intros m x Hx. induction m; simpl; [done|]. by apply u32_crc_bit. }
  apply Hu, u32_lxor; [done|apply u32_byte].
Qed.

Lemma crc_byte_state_inj v1 v2 b : u32 v1 → u32 v2 → crc_byte v1 b = crc_byte v2 b → v1 = v2.
Proof.
  unfold crc_byte. intros H1 H2 Heq%iter_crc_bit_inj; [|by apply u32_lxor, u32_byte..].
  apply (f_equal (λ x, Z.lxor x (byte.unsigned b))) in Heq.
  by rewrite !Z.lxor_assoc, !Z.lxor_nilpotent, !Z.lxor_0_r in Heq.
Qed.

Lemma crc_byte_inj v b1 b2 : u32 v → crc_byte v b1 = crc_byte v b2 → b1 = b2.
Proof.
  unfold crc_byte. intros Hv Heq%iter_crc_bit_inj; [|by apply u32_lxor, u32_byte..].
  apply byte.unsigned_inj. apply (f_equal (Z.lxor v)) in Heq.
  by rewrite <-!Z.lxor_assoc, !Z.lxor_nilpotent, !Z.lxor_0_l in Heq.
Qed.

Lemma u32_crc_update v bytes : u32 v → u32 (crc_update v bytes).
Proof. intros Hv. apply (foldl_inv u32); [done|]. intros. by apply u32_crc_byte. Qed.

Lemma crc_update_state_inj v1 v2 bytes :
  u32 v1 → u32 v2 → crc_update v1 bytes = crc_update v2 bytes → v1 = v2.
Proof.
  revert v1 v2. induction bytes as [|b bytes IH]; intros v1 v2 H1 H2; simpl; [done|].
  intros Heq. apply (crc_byte_state_inj _ _ b); [done..|].
  apply IH; [by apply u32_crc_byte..|done].
Qed.

Lemma u32_crc32c bytes : u32 (crc32c bytes).
Proof. apply u32_lxor; [by apply u32_crc_update|done]. Qed.

Lemma crc_finish_inj v1 v2 : crc_finish v1 = crc_finish v2 → v1 = v2.
Proof.
  intros Heq. apply (f_equal (λ x, Z.lxor x u32_max)) in Heq. unfold crc_finish in Heq.
  by rewrite !Z.lxor_assoc, !Z.lxor_nilpotent, !Z.lxor_0_r in Heq.
Qed.

(** Changing one byte changes the checksum. *)
Lemma crc32c_one_byte pre b1 b2 post :
  crc32c (pre ++ b1 :: post) = crc32c (pre ++ b2 :: post) → b1 = b2.
Proof.
  intros Heq%crc_finish_inj. rewrite !crc_update_app in Heq. simpl in Heq.
  apply crc_update_state_inj in Heq; [|by apply u32_crc_byte, u32_crc_update..].
  apply crc_byte_inj in Heq; [done|]. by apply u32_crc_update.
Qed.

#[global] Opaque crc32c.
#[global] Arguments append_le : simpl never.
