(* ===== verification/HardState.v ===== *)
(** * The Raft hard-state file

    Model of [raft_hard_state_store.cpp]: the 48-byte record, its validation, the
    legal transitions of term and vote, and [persist], which replaces the file
    atomically and may fail at every system call and at every fault boundary. *)

From S2P Require Import Prelude OrdMap Bytes StoreTypes RaftTypes Codec.
#[local] Open Scope Z_scope.

(** ** The record *)

Definition hard_state_record_size : Z := 48.
Definition hard_state_format_version : Z := 1.
Definition hard_state_magic : list byte := from_string "KURAHST1".

(** The fields of [StorageLimits] that this file and the write-ahead log use. *)
Record StorageLimits := mkStorageLimits {
  sl_wal_segment_bytes : Z;
  sl_max_wal_payload_bytes : Z;
  sl_max_recovery_records : Z;
  sl_max_snapshot_bytes : Z;
  sl_max_raft_hard_state_bytes : Z;
  sl_max_snapshot_members : Z }.

Definition default_storage_limits : StorageLimits :=
  mkStorageLimits 67108864 16777216 1000000 536870912 4096 10000.

Definition encode (generation : Z) (state : RaftHardState) : outcome (list byte) :=
  _ ← fail_when (generation =? 0) "Raft hard-state generation must be nonzero";
  _ ← fail_when (bool_decide (hs_voted_for state = Some 0))
    "Raft votedFor must be absent or a nonzero node ID";
  _ ← fail_when ((hs_current_term state =? 0) && bool_decide (is_Some (hs_voted_for state)))
    "Raft term zero cannot contain a vote";
  let bytes := hard_state_magic
    ++ append_le 2 hard_state_format_version
    ++ append_le 2 hard_state_record_size
    ++ append_le 4 0
    ++ append_le 8 generation
    ++ append_le 8 (hs_current_term state)
    ++ append_le 8 (default 0 (hs_voted_for state)) in
  mret (bytes ++ append_le 4 (crc32c bytes) ++ append_le 4 0).

Record DecodedHardState := mkDecoded {
  dh_generation : Z;
  dh_state : RaftHardState }.

(** [DecodedHardState{}]: what a missing file stands for. *)
Definition initial_decoded : DecodedHardState := mkDecoded 0 (mkHardState 0 None).

Definition decode (bytes : list byte) (limits : StorageLimits) : outcome DecodedHardState :=
  _ ← fail_when (sl_max_raft_hard_state_bytes limits <? bytes_size bytes)
    "Raft hard-state file exceeds configured size limit";
  _ ← fail_when (negb (bytes_size bytes =? hard_state_record_size))
    "Raft hard-state record is torn or has trailing bytes";
  _ ← fail_when (negb (bool_decide (take 8 bytes = hard_state_magic)))
    "Raft hard-state magic is invalid";
  version ← read_le 2 bytes 8;
  size ← read_le 2 bytes 10;
  flags ← read_le 4 bytes 12;
  reserved ← read_le 4 bytes 44;
  _ ← fail_when (negb (version =? hard_state_format_version)
                 || negb (size =? hard_state_record_size)
                 || negb (flags =? 0) || negb (reserved =? 0))
    "Raft hard-state version, size, flags, or reserved field is invalid";
  generation ← read_le 8 bytes 16;
  term ← read_le 8 bytes 24;
  voted_for ← read_le 8 bytes 32;
  _ ← fail_when (generation =? 0) "Raft hard-state generation zero is invalid";
  _ ← fail_when ((term =? 0) && negb (voted_for =? 0)) "Raft hard-state term zero contains a vote";
  checksum ← read_le 4 bytes 40;
  _ ← fail_when (negb (checksum =? crc32c (take 40 bytes))) "Raft hard-state checksum mismatch";
  mret (mkDecoded generation
    (mkHardState term (if voted_for =? 0 then None else Some voted_for))).

Definition validate_transition (current next : RaftHardState) : outcome unit :=
  _ ← fail_when (bool_decide (hs_voted_for next = Some 0))
    "Raft votedFor must be absent or a nonzero node ID";
  _ ← fail_when ((hs_current_term next =? 0) && bool_decide (is_Some (hs_voted_for next)))
    "Raft term zero cannot contain a vote";
  _ ← fail_when (hs_current_term next <? hs_current_term current)
    "Raft currentTerm must not regress";
  fail_when ((hs_current_term next =? hs_current_term current)
             && negb (bool_decide (hs_voted_for current = hs_voted_for next))
             && bool_decide (is_Some (hs_voted_for current)))
    "Raft votedFor must not change or clear within a term".

(** ** The file and its owner *)

Inductive WriteBoundary :=
| temporary_created | record_written | temporary_synchronized | temporary_closed
| final_replaced | directory_synchronized.

(** The directory: the hard-state file and the temporary file being written. *)
Record Directory := mkDirectory {
  dir_final : option (list byte);
  dir_temporary : option (list byte) }.

Record Impl := mkImpl {
  im_directory : Directory;
  im_state : RaftHardState;
  im_generation : Z;
  im_healthy : bool }.

(** The environment of a [persist] call: which system call fails (with, for the
    write, how much was written) and at which boundary the fault hook throws. *)
Record Faults := mkFaults {
  ft_call : WriteBoundary → bool;
  ft_written : nat;
  ft_hook : WriteBoundary → bool }.

Definition no_faults : Faults := mkFaults (λ _, false) 0 (λ _, false).

Definition load_decoded (directory : Directory) (limits : StorageLimits) :
    outcome DecodedHardState :=
  match dir_final directory with
  | None => mret initial_decoded
  | Some bytes => decode bytes limits
  end.

(** The constructor, on a directory that exists. *)
Definition open_store (directory : Directory) (limits : StorageLimits) : outcome Impl :=
  _ ← fail_when (sl_max_raft_hard_state_bytes limits <? hard_state_record_size)
    "Raft hard-state storage limit is smaller than the v1 record";
  decoded ← load_decoded directory limits;
  mret (mkImpl directory (dh_state decoded) (dh_generation decoded) true).

Definition load (limits : StorageLimits) : M Impl RaftHardState :=
  i ← get_state;
  _ ← lift (fail_when (negb (im_healthy i))
    "Raft hard-state store must be reopened after a write failure");
  decoded ← lift (load_decoded (im_directory i) limits);
  _ ← lift (fail_when (negb (dh_generation decoded =? im_generation i)
                       || negb (bool_decide (dh_state decoded = im_state i)))
    "Raft hard state changed outside its owning store");
  mret (im_state i).

(** One system call and the boundary after it: the call may fail, leaving
    [failed], or succeed, leaving [done]; then the hook may throw. *)
Definition write_step (faults : Faults) (boundary : WriteBoundary)
    (failed done : Directory → Directory) : M Directory unit :=
  directory ← get_state;
  if ft_call faults boundary then
    _ ← put_state (failed directory); lift (fail "system call failed")
  else
    _ ← put_state (done directory);
    lift (fail_when (ft_hook faults boundary) "fault injected").

Definition set_temporary (t : option (list byte)) (d : Directory) : Directory :=
  mkDirectory (dir_final d) t.

(** The [try] block of [persist]; the rename is atomic. *)
Definition write_record (faults : Faults) (bytes : list byte) : M Directory unit :=
  _ ← write_step faults temporary_created id (set_temporary (Some []));
  _ ← write_step faults record_written
    (set_temporary (Some (take (ft_written faults) bytes))) (set_temporary (Some bytes));
  _ ← write_step faults temporary_synchronized id id;
  _ ← write_step faults temporary_closed id id;
  _ ← write_step faults final_replaced id (λ d, mkDirectory (Some bytes) None);
  write_step faults directory_synchronized id id.

Definition persist (faults : Faults) (request : PersistRaftHardState) :
    M Impl RaftHardStatePersisted :=
  i ← get_state;
  _ ← lift (fail_when (negb (im_healthy i))
    "Raft hard-state store must be reopened after a write failure");
  _ ← lift (fail_when (phs_request_id request =? 0)
    "Raft hard-state persistence request ID must be nonzero");
  _ ← lift (validate_transition (im_state i) (phs_state request));
  if bool_decide (phs_state request = im_state i)
  then mret (mkHardStatePersisted (phs_request_id request) (im_state i))
  else
    _ ← lift (fail_when (im_generation i =? u64_max)
      "Raft hard-state generation would overflow");
    let next_generation := im_generation i + 1 in
    bytes ← lift (encode next_generation (phs_state request));
    match write_record faults bytes (im_directory i) with
    | (Throw e, directory) =>
        (* the temporary file, if it still exists, is removed *)
        _ ← put_state (mkImpl (set_temporary None directory) (im_state i) (im_generation i) false);
        lift (Throw e)
    | (Ret _, directory) =>
        _ ← put_state (mkImpl directory (phs_state request) next_generation true);
        mret (mkHardStatePersisted (phs_request_id request) (phs_state request))
    end.
