(* ===== verification/HardStateProps.v ===== *)
(** * Correctness of the hard-state file

    Round trip and corruption detection of the record, the transitions the store
    accepts, and that [persist] is atomic under failures; the interface the store
    promises to its clients, and what any client of it gets. *)

From S2P Require Import Prelude OrdMap Bytes StoreTypes RaftTypes Figure2 Figure2Votes.
From S2P Require Import Codec HardState.
#[local] Open Scope Z_scope.

(** ** The record *)

Record hard_state_ok (state : RaftHardState) : Prop := {
  hk_term : 0 ≤ hs_current_term state ≤ u64_max;
  hk_vote : ∀ v, hs_voted_for state = Some v → 0 < v ≤ u64_max;
  hk_zero : hs_current_term state = 0 → hs_voted_for state = None }.

(** The bytes covered by the checksum. *)
Definition record_prefix (generation : Z) (state : RaftHardState) : list byte :=
  hard_state_magic ++ append_le 2 hard_state_format_version ++ append_le 2 hard_state_record_size
  ++ append_le 4 0 ++ append_le 8 generation ++ append_le 8 (hs_current_term state)
  ++ append_le 8 (default 0 (hs_voted_for state)).

Definition record_bytes (generation : Z) (state : RaftHardState) : list byte :=
  record_prefix generation state ++ append_le 4 (crc32c (record_prefix generation state))
  ++ append_le 4 0.

Lemma length_record_prefix g st : length (record_prefix g st) = 40%nat.
Proof. unfold record_prefix. rewrite !length_app, !length_append_le. done. Qed.

Lemma length_record_bytes g st : length (record_bytes g st) = 48%nat.
Proof. unfold record_bytes. rewrite !length_app, !length_append_le, length_record_prefix. done. Qed.

Lemma encode_record_bytes g st :
  g ≠ 0 → hard_state_ok st → encode g st = Ret (record_bytes g st).
Proof.
  intros Hg [Ht Hv Hz]. unfold encode. destruct (Z.eqb_spec g 0); [done|]. simpl.
  rewrite (bool_decide_false (hs_voted_for st = Some 0))
    by (intros Hv0; specialize (Hv 0 Hv0); lia). simpl.
  destruct (Z.eqb_spec (hs_current_term st) 0) as [H0|]; simpl; [|reflexivity].
  rewrite (bool_decide_false (is_Some (hs_voted_for st))); [reflexivity|].
  rewrite (Hz H0). by intros [? ?].
Qed.

Lemma take_record_prefix g st : take 40 (record_bytes g st) = record_prefix g st.
Proof. unfold record_bytes. by rewrite take_app_length' by by rewrite length_record_prefix. Qed.

Definition record_fits (limits : StorageLimits) : Prop :=
  hard_state_record_size ≤ sl_max_raft_hard_state_bytes limits.

(** The fields of a record. *)
Record record_fields (bytes : list byte) (g term vote crc : Z) : Prop := {
  rf_length : length bytes = 48%nat;
  rf_magic : take 8 bytes = hard_state_magic;
  rf_version : read_le 2 bytes 8 = Ret hard_state_format_version;
  rf_size : read_le 2 bytes 10 = Ret hard_state_record_size;
  rf_flags : read_le 4 bytes 12 = Ret 0;
  rf_generation : read_le 8 bytes 16 = Ret g;
  rf_term : read_le 8 bytes 24 = Ret term;
  rf_vote : read_le 8 bytes 32 = Ret vote;
  rf_crc : read_le 4 bytes 40 = Ret crc;
  rf_reserved : read_le 4 bytes 44 = Ret 0 }.

Lemma record_bytes_fields g st :
  0 < g ≤ u64_max → hard_state_ok st →
  record_fields (record_bytes g st) g (hs_current_term st) (default 0 (hs_voted_for st))
    (crc32c (record_prefix g st)).
Proof.
  intros Hg [Ht Hv Hz]. pose proof (u32_crc32c (record_prefix g st)) as Hcrc. unfold u32 in Hcrc.
  assert (0 ≤ default 0 (hs_voted_for st) ≤ u64_max) as Hvote.
  { destruct (hs_voted_for st) as [v|]; simpl; [|lia]. specialize (Hv v eq_refl). lia. }
  revert Hcrc. pose proof (length_record_bytes g st) as Hlen. unfold record_bytes in *.
  generalize (crc32c (record_prefix g st)) as crc. intros crc Hcrc.
  split; [by rewrite !length_app, !length_append_le, length_record_prefix| |..];
    unfold record_prefix; rewrite <-!app_assoc; [by rewrite take_app_length' by done|..].
  all: read_field; reflexivity.
Qed.

Lemma decode_record_bytes g st limits :
  record_fits limits → 0 < g ≤ u64_max → hard_state_ok st →
  decode (record_bytes g st) limits = Ret (mkDecoded g st).
Proof.
  unfold record_fits, hard_state_record_size. intros Hlim Hg Hok. unfold decode, bytes_size.
  destruct (record_bytes_fields g st Hg Hok) as [-> -> -> -> -> -> -> -> -> ->].
  destruct Hok as [Ht Hv Hz]. rewrite take_record_prefix.
  generalize (crc32c (record_prefix g st)) as crc. intros crc.
  destruct (Z.ltb_spec (sl_max_raft_hard_state_bytes limits) (Z.of_nat 48)); [lia|]. simpl.
  destruct (Z.eqb_spec g 0); [lia|]. simpl. rewrite Z.eqb_refl.
  destruct st as [term [v|]]; simpl in *.
  - specialize (Hv v eq_refl). destruct (Z.eqb_spec term 0) as [H0|]; [by specialize (Hz H0)|].
    simpl. by destruct (Z.eqb_spec v 0); [lia|].
  - by rewrite andb_false_r.
Qed.

(** What [decode] accepts. *)
Lemma decode_Ret bytes limits d :
  decode bytes limits = Ret d →
  ∃ vote crc, record_fields bytes (dh_generation d) (hs_current_term (dh_state d)) vote crc ∧
    crc = crc32c (take 40 bytes).
Proof.
  unfold decode, fail_when. intros Hd.
  repeat match type of Hd with
  | (_ ← throw_when _ _; _) = Ret _ => apply bind_Ret in Hd as (? & ?%throw_when_Ret & Hd)
  | (_ ← read_le _ _ _; _) = Ret _ => apply bind_Ret in Hd as (? & ? & Hd)
  end.
  rewrite !orb_false_iff, !negb_false_iff, !Z.eqb_eq in *. destruct_and!.
  injection Hd as <-. simpl. subst.
  repeat match goal with H : bool_decide _ = true |- _ => apply bool_decide_eq_true in H end.
  eexists _, _. split; [|reflexivity]. split; try eassumption.
  unfold bytes_size, hard_state_record_size in *. lia.
Qed.

(** ** Corruption *)

Lemma take_insert_lt {A} (l : list A) n i x :
  (n ≤ i)%nat → take n (<[i := x]> l) = take n l.
Proof.
  intros Hn. apply list_eq. intros j. destruct (decide (j < n)%nat).
  - rewrite !lookup_take_lt by done. by rewrite list_lookup_insert_ne by lia.
  - rewrite !lookup_take_ge by lia. done.
Qed.

Lemma read_le_other size bytes offset i b :
  (i < offset ∨ offset + size ≤ i)%nat →
  read_le size (<[i := b]> bytes) offset = read_le size bytes offset.
Proof.
  intros Hi. unfold read_le, bytes_size. rewrite length_insert. f_equal.
  assert (take size (drop offset (<[i := b]> bytes)) = take size (drop offset bytes)) as ->; [|done].
  apply list_eq. intros j. destruct (decide (j < size)%nat).
  - rewrite !lookup_take_lt, !lookup_drop by done. rewrite list_lookup_insert_ne by lia. done.
  - rewrite !lookup_take_ge by lia. done.
Qed.

Lemma read_le_changed size bytes offset i b v :
  (offset ≤ i < offset + size)%nat → (i < length bytes)%nat → bytes !! i ≠ Some b →
  read_le size bytes offset = Ret v → (offset + size ≤ length bytes)%nat →
  read_le size (<[i := b]> bytes) offset ≠ Ret v.
Proof.
  intros Hi Hlen Hne Hv Hfit Hv'. rewrite read_le_value in Hv by done.
  rewrite read_le_value in Hv' by by rewrite length_insert.
  assert (take size (drop offset bytes) = take size (drop offset (<[i := b]> bytes))) as Heq.
  { apply le_combine_inj; [|congruence].
    rewrite !length_take, !length_drop, length_insert. done. }
  apply (f_equal (λ l, l !! (i - offset)%nat)) in Heq. rewrite !lookup_take_lt, !lookup_drop in Heq by lia.
  replace (offset + (i - offset))%nat with i in Heq by lia.
  rewrite list_lookup_insert_eq in Heq by done. congruence.
Qed.

Lemma decode_corrupted g st limits i b :
  0 < g ≤ u64_max → hard_state_ok st → (i < 48)%nat → record_bytes g st !! i ≠ Some b →
  ∃ e, decode (<[i := b]> (record_bytes g st)) limits = Throw e.
Proof.
  intros Hg Hok Hi Hne. pose proof (length_record_bytes g st) as Hlen.
  pose proof (record_bytes_fields g st Hg Hok) as Hf.
  destruct (decode (<[i := b]> (record_bytes g st)) limits) as [d|e] eqn:Hd; [|by eauto].
  exfalso. apply decode_Ret in Hd as (vote & crc & Hf' & Hcrc).
  destruct (decide (i < 40)%nat) as [H40|H40].
  - pose proof (rf_crc _ _ _ _ _ Hf') as Hc. rewrite read_le_other in Hc by lia.
    rewrite (rf_crc _ _ _ _ _ Hf) in Hc. apply Ret_inj in Hc. rewrite Hcrc in Hc.
    apply Hne. destruct (lookup_lt_is_Some_2 (record_bytes g st) i) as [b0 Hb0]; [lia|].
    rewrite Hb0. f_equal.
    assert (take 40 (<[i:=b]> (record_bytes g st)) = <[i:=b]> (record_prefix g st)) as Ht.
    { unfold record_bytes. rewrite insert_app_l by by rewrite length_record_prefix.
      by rewrite take_app_length' by by rewrite length_insert, length_record_prefix. }
    rewrite Ht in Hc.
    assert (record_prefix g st !! i = Some b0) as Hb0'.
    { rewrite <-take_record_prefix, lookup_take_lt by done. done. }
    rewrite <-(take_drop_middle _ _ _ Hb0') in Hc at 1.
    rewrite insert_take_drop in Hc by by rewrite length_record_prefix.
    by eapply crc32c_one_byte.
  - destruct (decide (i < 44)%nat) as [H44|H44].
    + pose proof (rf_crc _ _ _ _ _ Hf') as Hc.
      rewrite Hcrc, take_insert_lt, take_record_prefix in Hc by lia.
      revert Hc. apply read_le_changed; try lia; [done|]. apply (rf_crc _ _ _ _ _ Hf).
    + pose proof (rf_reserved _ _ _ _ _ Hf') as Hc.
      revert Hc. apply read_le_changed; try lia; [done|]. apply (rf_reserved _ _ _ _ _ Hf).
Qed.

(** ** Transitions *)

Lemma validate_transition_iff current next :
  validate_transition current next = Ret tt ↔
  follows current next ∧ hs_voted_for next ≠ Some 0 ∧
  (hs_current_term next = 0 → hs_voted_for next = None).
Proof.
  unfold validate_transition, fail_when, follows.
  destruct current as [t1 v1], next as [t2 v2]. simpl.
  destruct (decide (v2 = Some 0)) as [->|Hv]; [simpl; split; [done|naive_solver]|].
  rewrite (bool_decide_false (v2 = Some 0)) by done. simpl.
  destruct (Z.eqb_spec t2 0) as [H0|H0], v2 as [v2|]; simpl;
    try (split; [done|]; intros (_ & _ & Hz); by specialize (Hz H0)).
  all: destruct (Z.ltb_spec t2 t1); simpl; [split; [done|lia]|].
  all: rewrite throw_when_Ret, !andb_false_iff, Z.eqb_neq, negb_false_iff, bool_decide_eq_true,
    bool_decide_eq_false, <-eq_None_not_Some.
  all: split; [|intros ([?|[? [?|?]]] & _); try (left; left; lia); by auto].
  all: intros Hc; split; [|by auto].
  all: destruct (decide (t1 < t2)); [by left|right; split; [lia|]].
  all: destruct Hc as [[Hc|Hc]|Hc]; [lia|by right|by left].
Qed.

(** ** The owner of the file *)

Record decoded_ok (d : DecodedHardState) : Prop := {
  dk_generation : 0 ≤ dh_generation d ≤ u64_max;
  dk_state : hard_state_ok (dh_state d) }.

(** What reopening would read; a healthy owner agrees with it. *)
Record impl_inv (limits : StorageLimits) (i : Impl) (d : DecodedHardState) : Prop := {
  iv_stored : load_decoded (im_directory i) limits = Ret d;
  iv_decoded : decoded_ok d;
  iv_healthy : im_healthy i = true → d = mkDecoded (im_generation i) (im_state i) }.

Definition request_fits (request : PersistRaftHardState) : Prop :=
  0 ≤ hs_current_term (phs_state request) ≤ u64_max ∧
  ∀ v, hs_voted_for (phs_state request) = Some v → 0 ≤ v ≤ u64_max.

(** Some system call fails or the fault hook throws somewhere. *)
Definition faulty (faults : Faults) : Prop :=
  ∃ b, ft_call faults b = true ∨ ft_hook faults b = true.

(** The requests [persist] turns down before it writes anything. *)
Definition rejected (i : Impl) (request : PersistRaftHardState) : Prop :=
  im_healthy i = false ∨ phs_request_id request = 0 ∨
  (∃ e, validate_transition (im_state i) (phs_state request) = Throw e) ∨
  (phs_state request ≠ im_state i ∧ im_generation i = u64_max).

(** The file is the old one until it is the complete new one. *)
Lemma write_step_ok faults boundary failed done d Q E :
  E (failed d) → E (done d) → Q (done d) →
  mwp (write_step faults boundary failed done) d (λ _, Q) (λ _ d', faulty faults ∧ E d').
Proof.
  intros HF HD HQ. unfold write_step, fail_when, fail, faulty. mgo; try done; split; eauto.
Qed.

Lemma write_record_ok faults bytes d :
  mwp (write_record faults bytes) d
    (λ _ d', dir_final d' = Some bytes)
    (λ _ d', faulty faults ∧ (dir_final d' = dir_final d ∨ dir_final d' = Some bytes)).
Proof.
  unfold write_record, set_temporary.
  do 5 (apply mwp_bind, write_step_ok; simpl; [by auto..|]).
  apply write_step_ok; simpl; auto.
Qed.

Section persist.
Context (limits : StorageLimits) (Hlimits : record_fits limits).

Lemma load_decoded_record d g st :
  0 < g ≤ u64_max → hard_state_ok st → dir_final d = Some (record_bytes g st) →
  load_decoded d limits = Ret (mkDecoded g st).
Proof. intros Hg Hok Hd. unfold load_decoded. rewrite Hd. by apply decode_record_bytes. Qed.

Lemma load_decoded_same d d' :
  dir_final d' = dir_final d → load_decoded d' limits = load_decoded d limits.
Proof. unfold load_decoded. by intros ->. Qed.

Lemma request_ok current request :
  request_fits request → validate_transition current (phs_state request) = Ret tt →
  follows current (phs_state request) ∧ hard_state_ok (phs_state request).
Proof.
  intros [Ht Hv] (Hf & Hn & Hz)%validate_transition_iff. split; [done|]. split; [done| |done].
  intros v Hvote. specialize (Hv v Hvote). destruct (decide (v = 0)) as [->|]; [done|lia].
Qed.

Lemma persist_ok faults request i d :
  impl_inv limits i d → request_fits request →
  mwp (persist faults request) i
    (λ r i', r = mkHardStatePersisted (phs_request_id request) (phs_state request) ∧
       im_healthy i' = true ∧ im_state i' = phs_state request ∧
       follows (dh_state d) (phs_state request) ∧
       ∃ g, impl_inv limits i' (mkDecoded g (phs_state request)))
    (λ _ i', (i' = i ∧ rejected i request) ∨
      (im_healthy i' = false ∧ im_state i' = im_state i ∧ faulty faults ∧
       (impl_inv limits i' d ∨
        (follows (dh_state d) (phs_state request) ∧
         ∃ g, impl_inv limits i' (mkDecoded g (phs_state request)))))).
Proof.
  intros [Hst [Hg Hok] Hh] Hfit. unfold persist, fail_when. mstep. mstep. mstep. mstep.
  ostep; [left; split; [done|left; by apply negb_true_iff]|].
  apply negb_false_iff in H. specialize (Hh H). subst d. simpl in *.
  mstep. mstep. ostep; [left; split; [done|right; left; by apply Z.eqb_eq]|]. mstep. mstep.
  destruct (validate_transition _ _) as [[]|e] eqn:Hv; simpl;
    [|left; split; [done|right; right; left; eauto]].
  destruct (request_ok _ _ Hfit Hv) as [Hf Hok']. case_bool_decide as Heq.
  { apply mwp_ret. rewrite Heq in *. split_and!; try done. exists (im_generation i). by split. }
  mstep. mstep.
  ostep; [left; split; [done|right; right; right; split; [done|by apply Z.eqb_eq]]|].
  rename select ((_ =? u64_max) = false) into Hmax.
  apply Z.eqb_neq in Hmax. mstep. mstep.
  rewrite encode_record_bytes by (done || lia). simpl.
  pose proof (write_record_ok faults (record_bytes (im_generation i + 1) (phs_state request))
    (im_directory i)) as Hw. unfold mwp in Hw.
  assert (decoded_ok (mkDecoded (im_generation i + 1) (phs_state request))) as Hdok.
  { split; [simpl; lia|done]. }
  destruct (write_record _ _ _) as [[u|e] dir].
  - mgo. split_and!; try done. exists (im_generation i + 1). split; [|done|done].
    apply load_decoded_record; [lia|done|done].
  - mgo. right. destruct Hw as [Hfault Hw]. split_and!; try done. destruct Hw as [Hw|Hw]; [left|right].
    + split; [|done|done]. simpl. rewrite <-Hst. by apply load_decoded_same.
    + split; [done|]. exists (im_generation i + 1). split; [|done|done].
      apply load_decoded_record; [lia|done|done].
Qed.

Lemma open_store_ok i d :
  impl_inv limits i d →
  ∃ i', open_store (im_directory i) limits = Ret i' ∧ impl_inv limits i' d ∧
    im_healthy i' = true ∧ im_state i' = dh_state d.
Proof.
  intros [Hst Hd _]. unfold open_store. unfold record_fits in Hlimits.
  destruct (Z.ltb_spec (sl_max_raft_hard_state_bytes limits) hard_state_record_size); [lia|].
  simpl. rewrite Hst. simpl. eexists. split; [done|]. split; [|done]. split; try done.
  by destruct d.
Qed.

(** ** Executions *)

(** Calls of [persist], under any failures, and reopening of the directory. *)
Inductive owner_step : Impl → Impl → Prop :=
| step_persist faults request i r i' :
    request_fits request → persist faults request i = (r, i') → owner_step i i'
| step_reopen i i' : open_store (im_directory i) limits = Ret i' → owner_step i i'.

Lemma owner_step_inv i i' d :
  impl_inv limits i d → owner_step i i' →
  ∃ d', impl_inv limits i' d' ∧ follows (dh_state d) (dh_state d').
Proof.
  intros Hinv Hs. destruct Hs as [faults request i r i' Hfit Hrun|i i' Hopen].
  - pose proof (persist_ok faults request i d Hinv Hfit) as Hp. unfold mwp in Hp.
    rewrite Hrun in Hp. destruct r as [r|e].
    + destruct Hp as (_ & _ & _ & Hf & g & Hi). by eexists.
    + destruct Hp as [[-> _]|(_ & _ & _ & [Hi|(Hf & g & Hi)])]; [by exists d|by exists d|by eexists].
  - destruct (open_store_ok i d Hinv) as (i'' & Hopen' & Hi & _). exists d.
    assert (i'' = i') as <- by congruence. done.
Qed.

Lemma owner_steps_inv i i' d :
  impl_inv limits i d → rtc owner_step i i' →
  ∃ d', impl_inv limits i' d' ∧ follows (dh_state d) (dh_state d').
Proof.
  intros Hinv Hs. revert d Hinv. induction Hs as [i|i i1 i2 Hs _ IH]; intros d Hinv.
  { by exists d. }
  destruct (owner_step_inv _ _ _ Hinv Hs) as (d1 & H1 & Hf1).
  destruct (IH d1 H1) as (d2 & H2 & Hf2). exists d2. split; [done|]. by etrans.
Qed.

(** What a directory that opens holds. *)
Lemma decode_ok bytes d : decode bytes limits = Ret d → decoded_ok d.
Proof.
  unfold decode, fail_when. intros Hd.
  repeat match type of Hd with
  | (_ ← throw_when _ _; _) = Ret _ => apply bind_Ret in Hd as (? & ?%throw_when_Ret & Hd)
  | (_ ← read_le 8 _ _; _) = Ret _ => apply bind_Ret in Hd as (? & ?%read_le_bound & Hd)
  | (_ ← read_le _ _ _; _) = Ret _ => apply bind_Ret in Hd as (? & ? & Hd)
  end.
  apply Ret_inj in Hd. subst d. simpl in *. split; simpl; [lia|]. split; simpl; [lia|..].
  - intros v. case_match eqn:Hv; intros [= <-]. apply Z.eqb_neq in Hv. lia.
  - intros ->. rename select ((0 =? 0) && _ = false) into Hz. simpl in Hz.
    by case_match.
Qed.

Lemma open_store_inv dir i : open_store dir limits = Ret i → ∃ d, impl_inv limits i d.
Proof.
  unfold open_store. intros (_ & _ & (d & Hd & [= <-])%bind_Ret)%bind_Ret.
  exists d. split; simpl; [done| |by destruct d].
  unfold load_decoded in Hd. destruct (dir_final dir) as [bytes|]; [by eapply decode_ok|].
  injection Hd as <-. split; simpl; [lia|]. split; simpl; [lia|done|done].
Qed.
End persist.

Lemma open_store_fits dir limits i : open_store dir limits = Ret i → record_fits limits.
Proof.
  unfold open_store, record_fits, fail_when.
  by intros (_ & Hlt%throw_when_Ret%Z.ltb_ge & _)%bind_Ret.
Qed.

Lemma open_store_state dir limits i d :
  open_store dir limits = Ret i → impl_inv limits i d →
  im_healthy i = true ∧ im_state i = dh_state d.
Proof.
  unfold open_store. intros (_ & _ & (d' & _ & [= <-])%bind_Ret)%bind_Ret [_ _ Hh].
  split; [done|]. by rewrite (Hh eq_refl).
Qed.

(** ** Theorems *)

(** A hard state survives its file: encoding a state that Raft can produce,
    under a nonzero generation, succeeds with 48 bytes, and decoding them returns
    the same generation, term and vote. *)
Theorem hard_state_record_round_trip (generation : Z) (state : RaftHardState)
    (limits : StorageLimits) :
  record_fits limits → 0 < generation ≤ u64_max → hard_state_ok state →
  ∃ bytes, encode generation state = Ret bytes ∧ length bytes = 48%nat ∧
    decode bytes limits = Ret (mkDecoded generation state).
Proof.
  intros Hl Hg Hok. exists (record_bytes generation state).
  split; [apply encode_record_bytes; [lia|done]|]. split; [apply length_record_bytes|].
  by apply decode_record_bytes.
Qed.

(** No single corrupted byte goes unnoticed: changing any one of the 48 bytes
    of an encoded record, to any other value, makes [decode] fail. *)
Theorem hard_state_corruption_detected (generation : Z) (state : RaftHardState)
    (limits : StorageLimits) (bytes : list byte) (i : nat) (b : byte) :
  0 < generation ≤ u64_max → hard_state_ok state → encode generation state = Ret bytes →
  (i < length bytes)%nat → bytes !! i ≠ Some b →
  ∃ e, decode (<[i := b]> bytes) limits = Throw e.
Proof.
  intros Hg Hok Henc. rewrite encode_record_bytes in Henc by (done || lia).
  apply Ret_inj in Henc. subst bytes. rewrite length_record_bytes. intros Hi.
  by apply decode_corrupted.
Qed.

(** [persist] is atomic and durable under failures. Whatever system call fails
    and at whatever boundary the fault hook throws: if the call returns, reopening
    the directory reads the requested state, which is a legal successor of the old
    one; if it throws, either the request was refused (a zero request ID, an illegal
    transition, an exhausted generation) and nothing changed, or something failed,
    the store refuses further use, and reopening succeeds and reads the old or the
    complete new state. *)
Theorem persist_is_atomic (limits : StorageLimits) (dir : Directory) (i : Impl) (faults : Faults)
    (request : PersistRaftHardState) (r : outcome RaftHardStatePersisted) (i' : Impl) :
  open_store dir limits = Ret i → request_fits request →
  persist faults request i = (r, i') →
  match r with
  | Ret answer => answer = mkHardStatePersisted (phs_request_id request) (phs_state request) ∧
      follows (im_state i) (phs_state request) ∧
      ∃ i'', open_store (im_directory i') limits = Ret i'' ∧ im_state i'' = phs_state request
  | Throw _ => (i' = i ∧ rejected i request) ∨ (im_healthy i' = false ∧ faulty faults ∧
      ∃ i'', open_store (im_directory i') limits = Ret i'' ∧
        (im_state i'' = im_state i ∨
         (im_state i'' = phs_state request ∧ follows (im_state i) (phs_state request))))
  end.
Proof.
  intros Hopen Hfit Hrun. pose proof (open_store_fits _ _ _ Hopen) as Hlim.
  destruct (open_store_inv _ _ _ Hopen) as [d Hinv].
  destruct (open_store_state _ _ _ _ Hopen Hinv) as [Hh Hst].
  pose proof (persist_ok limits Hlim faults request i d Hinv Hfit) as Hp. unfold mwp in Hp.
  rewrite Hrun in Hp. rewrite Hst. destruct r as [answer|e].
  - destruct Hp as (-> & _ & _ & Hf & g & Hi). split; [done|]. split; [done|].
    destruct (open_store_ok limits Hlim _ _ Hi) as (i'' & Ho & _ & _ & Hs). by exists i''.
  - destruct Hp as [Hp|(Hu & _ & Hft & [Hi|(Hf & g & Hi)])];
      [by left|right; split; [done|]; split; [done|]..];
      destruct (open_store_ok limits Hlim _ _ Hi) as (i'' & Ho & _ & _ & Hs); exists i''; auto.
Qed.

(** The durable term and vote never regress: over any sequence of [persist]
    calls, failing or not, and reopenings, the directory can always be reopened,
    and the state it holds is a legal Raft successor of every state it held
    before (the term does not decrease and a vote within a term is kept). *)
Theorem durable_hard_state_never_regresses (limits : StorageLimits) (dir : Directory)
    (i0 i : Impl) :
  open_store dir limits = Ret i0 → rtc (owner_step limits) i0 i →
  ∃ i', open_store (im_directory i) limits = Ret i' ∧ follows (im_state i0) (im_state i').
Proof.
  intros Hopen Hs. pose proof (open_store_fits _ _ _ Hopen) as Hlim.
  destruct (open_store_inv _ _ _ Hopen) as [d Hinv].
  destruct (open_store_state _ _ _ _ Hopen Hinv) as [_ ->].
  destruct (owner_steps_inv limits Hlim _ _ _ Hinv Hs) as (d' & Hinv' & Hf).
  destruct (open_store_ok limits Hlim _ _ Hinv') as (i' & Ho & _ & _ & Hs'). exists i'.
  rewrite Hs'. done.
Qed.

(** ** Instances *)

Definition voted_state : RaftHardState := mkHardState 3 (Some 2).

Lemma voted_state_ok : hard_state_ok voted_state.
Proof. split; simpl; [lia| |lia]. intros v [= <-]. lia. Qed.

Lemma default_record_fits : record_fits default_storage_limits.
Proof. unfold record_fits. simpl. unfold hard_state_record_size. lia. Qed.

Lemma hard_state_record_round_trip_witness :
  ∃ bytes, encode 1 voted_state = Ret bytes ∧ length bytes = 48%nat ∧
    decode bytes default_storage_limits = Ret (mkDecoded 1 voted_state).
Proof.
  apply (hard_state_record_round_trip 1 voted_state default_storage_limits);
    [apply default_record_fits|lia|apply voted_state_ok].
Defined.

Lemma hard_state_corruption_detected_witness :
  ∃ bytes, encode 1 voted_state = Ret bytes ∧
    ∃ e, decode (<[24%nat := Init.Byte.x04]> bytes) default_storage_limits = Throw e.
Proof.
  exists (record_bytes 1 voted_state).
  assert (encode 1 voted_state = Ret (record_bytes 1 voted_state)) as Henc
    by (apply encode_record_bytes; [lia|apply voted_state_ok]).
  split; [exact Henc|].
  apply (hard_state_corruption_detected 1 voted_state default_storage_limits _ 24 Init.Byte.x04);
    [lia|apply voted_state_ok|exact Henc|rewrite length_record_bytes; lia|vm_compute; discriminate].
Defined.

Definition empty_directory : Directory := mkDirectory None None.
Definition first_request : PersistRaftHardState := mkPersistHardState 1 voted_state.

Lemma first_request_fits : request_fits first_request.
Proof. split; simpl; [lia|]. intros v [= <-]. lia. Qed.

(** The fault hook throws after the rename. *)
Definition late_fault : Faults :=
  mkFaults (λ _, false) 0 (λ b, match b with final_replaced => true | _ => false end).

Lemma persist_is_atomic_witness :
  ∃ i e i', open_store empty_directory default_storage_limits = Ret i ∧
    persist late_fault first_request i = (Throw e, i') ∧
    (i' = i ∧ rejected i first_request ∨ (im_healthy i' = false ∧ faulty late_fault ∧
      ∃ i'', open_store (im_directory i') default_storage_limits = Ret i'' ∧
        (im_state i'' = im_state i ∨
         (im_state i'' = voted_state ∧ follows (im_state i) voted_state)))).
Proof.
  eexists _, _, _. split; [reflexivity|]. split; [vm_compute; reflexivity|].
  apply (persist_is_atomic default_storage_limits empty_directory _ late_fault first_request
    (Throw (storage_error "fault injected")));
    [reflexivity|apply first_request_fits|vm_compute; reflexivity].
Defined.

Lemma durable_hard_state_never_regresses_witness :
  ∃ i0 i i', open_store empty_directory default_storage_limits = Ret i0 ∧
    open_store (im_directory i) default_storage_limits = Ret i' ∧
    follows (im_state i0) (im_state i').
Proof.
  destruct (open_store empty_directory default_storage_limits) as [i0|e] eqn:Ho;
    [|vm_compute in Ho; discriminate].
  exists i0, (persist no_faults first_request i0).2.
  destruct (durable_hard_state_never_regresses default_storage_limits empty_directory i0
    (persist no_faults first_request i0).2 Ho) as (i' & Hi' & Hf).
  - apply rtc_once.
    eapply (step_persist _ no_faults first_request i0 (persist no_faults first_request i0).1);
      [apply first_request_fits|]. destruct (persist no_faults first_request i0); reflexivity.
  - exists i'. split; [reflexivity|]. split; [exact Hi'|exact Hf].
Defined.
