(* ===== verification/Wal.v ===== *)
(** * The segmented write-ahead log

    Model of the WAL part of [durable_storage.cpp]: segment headers, record
    encoding, [append] with rotation (under injected write failures), [recover]
    with truncation of a torn suffix, and [truncate_through]. A segment file is
    identified with the sequence number in its name: the directory maps the
    sequence numbers of the published segments to their bytes. *)

From S2P Require Import Prelude OrdMap Bytes Codec HardState.
#[local] Open Scope Z_scope.

Definition wal_segment_header_size : Z := 40.
Definition wal_record_header_size : Z := 40.
Definition storage_format_version : Z := 1.
Definition command_record_type : Z := 1.
Definition wal_magic : list byte := from_string "KURAWAL1".
Definition record_magic : list byte := from_string "KREC".

(** [WalRecordType] has the single value [command]. *)
Record WalEntry := mkWalEntry {
  we_type : Z;
  we_term : Z;
  we_index : Z;
  we_payload : list byte }.

#[export] Instance WalEntry_eq_dec : EqDecision WalEntry.
Proof. solve_decision. Defined.

(** ** Encoding *)

Definition make_segment_header (sequence first_index : Z) : list byte :=
  let bytes := wal_magic
    ++ append_le 2 storage_format_version
    ++ append_le 2 wal_segment_header_size
    ++ append_le 4 0
    ++ append_le 8 sequence
    ++ append_le 8 first_index in
  bytes ++ append_le 4 (crc32c bytes) ++ append_le 4 0.

Definition encode_record (entry : WalEntry) : list byte :=
  let bytes := record_magic
    ++ append_le 2 storage_format_version
    ++ append_le 2 (we_type entry)
    ++ append_le 4 wal_record_header_size
    ++ append_le 8 (we_term entry)
    ++ append_le 8 (we_index entry)
    ++ append_le 8 (bytes_size (we_payload entry)) in
  bytes ++ append_le 4 (crc32c (bytes ++ we_payload entry)) ++ we_payload entry.

(** ** State *)

Record SegmentInfo := mkSegment {
  sg_sequence : Z;
  sg_first_index : Z;
  sg_maximum_index : option Z;
  sg_size : Z }.

(** [wl_active] says whether [active_file_] is open; it then appends to the file
    of the last segment. *)
Record Wal := mkWal {
  wl_directory : gmap Z (list byte);
  wl_segments : list SegmentInfo;
  wl_active : bool;
  wl_last_index : option Z;
  wl_expected_append : option Z;
  wl_active_size : Z;
  wl_record_count : Z;
  wl_healthy : bool }.

Definition set_directory (w : Wal) (d : gmap Z (list byte)) : Wal :=
  mkWal d (wl_segments w) (wl_active w) (wl_last_index w) (wl_expected_append w)
    (wl_active_size w) (wl_record_count w) (wl_healthy w).
Definition close_active (w : Wal) : Wal :=
  mkWal (wl_directory w) (wl_segments w) false (wl_last_index w) (wl_expected_append w)
    (wl_active_size w) (wl_record_count w) (wl_healthy w).
Definition mark_unhealthy (w : Wal) : Wal :=
  mkWal (wl_directory w) (wl_segments w) false (wl_last_index w) (wl_expected_append w)
    (wl_active_size w) (wl_record_count w) false.

(** ** Recovery *)

(** [segment_paths]: the segments in sequence order, which must be consecutive. *)
Fixpoint consecutive (previous : Z) (found : list (Z * list byte)) : bool :=
  match found with
  | [] => true
  | (sequence, _) :: rest =>
      negb (previous =? u64_max) && (sequence =? previous + 1) && consecutive sequence rest
  end.

Definition segment_paths (directory : gmap Z (list byte)) : outcome (list (Z * list byte)) :=
  let found := entries directory in
  _ ← fail_when (bool_decide (is_Some (directory !! 0))) "WAL segment sequence zero is invalid";
  match found with
  | [] => mret []
  | (sequence, _) :: rest =>
      _ ← fail_when (negb (consecutive sequence rest)) "WAL segment sequence gap or regression";
      mret found
  end.

(** The variables of the recovery loops. *)
Record Recovery := mkRecovery {
  rc_entries : list WalEntry;
  rc_expected : option Z;
  rc_count : Z;
  rc_last_index : option Z }.

(** The header of the segment in file [sequence]. *)
Definition read_segment_header (limits : StorageLimits) (sequence : Z) (bytes : list byte)
    (expected : option Z) : outcome Z :=
  _ ← fail_when (sl_wal_segment_bytes limits <? bytes_size bytes)
    "file exceeds configured size limit";
  _ ← fail_when (bytes_size bytes <? wal_segment_header_size) "WAL segment header is truncated";
  version ← read_le 2 bytes 8;
  size ← read_le 2 bytes 10;
  flags ← read_le 4 bytes 12;
  reserved ← read_le 4 bytes 36;
  _ ← fail_when (negb (bool_decide (take 8 bytes = wal_magic))
                 || negb (version =? storage_format_version)
                 || negb (size =? wal_segment_header_size)
                 || negb (flags =? 0) || negb (reserved =? 0))
    "WAL segment header is malformed";
  stored_sequence ← read_le 8 bytes 16;
  first_index ← read_le 8 bytes 24;
  checksum ← read_le 4 bytes 32;
  _ ← fail_when ((stored_sequence =? 0) || (first_index =? 0)
                 || negb (stored_sequence =? sequence)
                 || negb (checksum =? crc32c (take 32 bytes)))
    "WAL segment header checksum or identity is invalid";
  _ ← fail_when (match expected with Some e => negb (first_index =? e) | None => false end)
    "WAL segment first index has a gap or regression";
  mret first_index.

(** The header of a record: its entry without payload, the payload length and the
    stored checksum. [*expected] is engaged wherever the source dereferences it. *)
Definition read_record_header (limits : StorageLimits) (header : list byte) (expected : option Z)
    (first_record : bool) (first_index : Z) : outcome (Z * Z * Z * Z) :=
  version ← read_le 2 header 4;
  type ← read_le 2 header 6;
  size ← read_le 4 header 8;
  _ ← fail_when (negb (bool_decide (take 4 header = record_magic))
                 || negb (version =? storage_format_version)
                 || negb (type =? command_record_type)
                 || negb (size =? wal_record_header_size))
    "WAL record header is malformed";
  term ← read_le 8 header 12;
  index ← read_le 8 header 20;
  payload_length ← read_le 8 header 28;
  stored_checksum ← read_le 4 header 36;
  _ ← fail_when ((index =? 0) || negb (bool_decide (expected = Some index)))
    "WAL record index has a gap or regression";
  _ ← fail_when (first_record && negb (index =? first_index))
    "WAL segment first record does not match its header";
  _ ← fail_when ((sl_max_wal_payload_bytes limits <? payload_length)
                 || (sl_wal_segment_bytes limits - wal_record_header_size <? payload_length))
    "WAL record payload length exceeds configured limit";
  mret (term, index, payload_length, stored_checksum).

(** The record loop of one segment on the bytes from [offset] on; what it has
    recovered stays recorded when it fails. The answer is the maximum index of the
    segment and, when the final segment has a torn suffix, the offset it is
    truncated to. Every record is at least a header long, so the number of bytes is
    enough fuel. *)
Fixpoint scan_records (fuel : nat) (limits : StorageLimits) (is_final : bool) (first_index : Z)
    (rest : list byte) (offset : nat) (maximum_index : option Z) :
    M Recovery (option Z * option nat) :=
  match fuel with
  | O => mret (maximum_index, None)
  | S fuel' =>
      if bool_decide (rest = []) then mret (maximum_index, None)
      else if bytes_size rest <? wal_record_header_size then
        _ ← lift (fail_when (negb is_final) "truncated WAL record header in interior segment");
        mret (maximum_index, Some offset)
      else
        rc ← get_state;
        let header := take 40 rest in
        '(term, index, payload_length, stored_checksum) ←
          lift (read_record_header limits header (rc_expected rc)
            (bool_decide (maximum_index = None)) first_index);
        match checked_add wal_record_header_size payload_length with
        | None => lift (fail "WAL record length overflows")
        | Some record_size =>
            if bytes_size rest <? record_size then
              _ ← lift (fail_when (negb is_final)
                "truncated WAL record payload in interior segment");
              mret (maximum_index, Some offset)
            else
              let payload := take (Z.to_nat payload_length) (drop 40 rest) in
              _ ← lift (fail_when (negb (crc32c (take 36 header ++ payload) =? stored_checksum))
                "WAL record checksum mismatch");
              _ ← lift (fail_when (sl_max_recovery_records limits <=? rc_count rc)
                "WAL record count exceeds configured limit");
              let rest' := drop (Z.to_nat record_size) rest in
              _ ← put_state (mkRecovery
                (rc_entries rc ++ [mkWalEntry command_record_type term index payload])
                (if index =? u64_max then None else Some (index + 1))
                (rc_count rc + 1) (Some index));
              _ ← lift (fail_when ((index =? u64_max)
                                   && (negb (bool_decide (rest' = [])) || negb is_final))
                "WAL contains records after maximum index");
              scan_records fuel' limits is_final first_index rest'
                (offset + Z.to_nat record_size) (Some index)
        end
  end.

(** One iteration of the segment loop. *)
Definition recover_segment (limits : StorageLimits) (is_final : bool) (sequence : Z)
    (bytes : list byte) : M Recovery (SegmentInfo * list byte) :=
  rc ← get_state;
  first_index ← lift (read_segment_header limits sequence bytes (rc_expected rc));
  _ ← put_state (mkRecovery (rc_entries rc)
    (match rc_expected rc with Some e => Some e | None => Some first_index end)
    (rc_count rc) (rc_last_index rc));
  '(maximum_index, torn) ←
    scan_records (length bytes) limits is_final first_index (drop 40 bytes) 40 None;
  let bytes := match torn with Some offset => take offset bytes | None => bytes end in
  _ ← lift (fail_when (bool_decide (maximum_index = None) && negb is_final)
    "empty WAL segment is not the final segment");
  mret (mkSegment sequence first_index maximum_index (bytes_size bytes), bytes).

(** Runs a part of the recovery: [last_index_] and [recovered_record_count_] are
    members of the object and are updated also when it fails. *)
Definition with_recovery {A} (m : M Recovery A) (rc : Recovery) : M Wal (A * Recovery) := λ w,
  let '(answer, rc') := m rc in
  (a ← answer; mret (a, rc'),
   mkWal (wl_directory w) (wl_segments w) (wl_active w) (rc_last_index rc')
     (wl_expected_append w) (wl_active_size w) (rc_count rc') (wl_healthy w)).

(** The segment loop; a torn suffix is cut off the file. *)
Fixpoint recover_segments (limits : StorageLimits) (paths : list (Z * list byte)) (rc : Recovery) :
    M Wal Recovery :=
  match paths with
  | [] => mret rc
  | (sequence, bytes) :: rest =>
      '(segment, bytes, rc) ←
        with_recovery (recover_segment limits (bool_decide (rest = [])) sequence bytes) rc;
      w ← get_state;
      _ ← put_state (mkWal (<[sequence := bytes]> (wl_directory w)) (wl_segments w ++ [segment])
        (wl_active w) (wl_last_index w) (wl_expected_append w) (wl_active_size w)
        (wl_record_count w) (wl_healthy w));
      recover_segments limits rest rc
  end.

Definition recover_locked (limits : StorageLimits) : M Wal (list WalEntry) :=
  w ← get_state;
  _ ← put_state (mkWal (wl_directory w) [] false None None 0 0 (wl_healthy w));
  paths ← lift (segment_paths (wl_directory w));
  rc ← recover_segments limits paths (mkRecovery [] None 0 None);
  w ← get_state;
  _ ← put_state (match last (wl_segments w) with
    | None => mkWal (wl_directory w) [] false (rc_last_index rc) None 0 (rc_count rc) true
    | Some segment => mkWal (wl_directory w) (wl_segments w) true (rc_last_index rc)
        (rc_expected rc) (sg_size segment) (rc_count rc) true
    end);
  mret (rc_entries rc).

Definition recover : StorageLimits → M Wal (list WalEntry) := recover_locked.

(** The constructor on an existing directory. *)
Definition open_wal (limits : StorageLimits) (directory : gmap Z (list byte)) : outcome Wal :=
  _ ← fail_when ((sl_wal_segment_bytes limits <? wal_segment_header_size + wal_record_header_size)
       || (sl_wal_segment_bytes limits - wal_segment_header_size - wal_record_header_size
           <? sl_max_wal_payload_bytes limits)
       || (sl_max_recovery_records limits =? 0))
    "WAL storage limits are invalid";
  match recover_locked limits (mkWal directory [] false None None 0 0 true) with
  | (Ret _, w) => mret w
  | (Throw e, _) => Throw e
  end.

(** [catch (...) { ...; throw; }] *)
Definition on_failure {S A} (m : M S A) (handler : S → S) : M S A := λ s,
  match m s with
  | (Ret a, s') => (Ret a, s')
  | (Throw e, s') => (Throw e, handler s')
  end.

(** ** Appending *)

(** [segments_.back()] of an empty vector; there is a segment whenever the active
    file is open. *)
Definition fail_no_segment {A} : M Wal A := lift (Throw (logic_error "no segment")).

(** The body of the validation loop; the accumulator is [expected]. *)
Definition validate_append_entry (limits : StorageLimits) (expected : option Z)
    (entry : WalEntry) : outcome (option Z) :=
  match expected with
  | None => fail "WAL index would overflow"
  | Some e =>
      _ ← fail_when (negb (we_type entry =? command_record_type)) "unsupported WAL record type";
      _ ← fail_when ((we_index entry =? 0) || negb (we_index entry =? e))
        "WAL append index is not the expected next index";
      _ ← fail_when ((sl_max_wal_payload_bytes limits <? bytes_size (we_payload entry))
             || (sl_wal_segment_bytes limits - wal_segment_header_size
                 <? wal_record_header_size + bytes_size (we_payload entry)))
        "WAL payload exceeds configured limit";
      mret (if we_index entry =? u64_max then None else Some (we_index entry + 1))
  end.

Definition validate_append (limits : StorageLimits) (w : Wal) (entries : list WalEntry) :
    outcome unit :=
  _ ← fail_when (sl_max_recovery_records limits
         - Z.min (sl_max_recovery_records limits) (wl_record_count w)
         <? Z.of_nat (length entries))
    "WAL record count exceeds configured limit";
  _ ← fail_when (bool_decide (wl_expected_append w = None)
                 && bool_decide (is_Some (wl_last_index w))) "WAL index would overflow";
  let expected := match wl_expected_append w with
    | Some e => Some e
    | None => we_index <$> head entries
    end in
  _ ← foldM (validate_append_entry limits) expected entries;
  mret tt.

Inductive Durability := memory_only | flush | synchronize.

#[export] Instance Durability_eq_dec : EqDecision Durability.
Proof. solve_decision. Defined.

(** Which file operation fails: one before the new segment is published, the write
    of the record after that many bytes, or the final synchronisation. Failing to
    synchronise the directory of the segment just published, or to open it, leaves
    the files as [fault_write 0]. *)
Inductive AppendFault := fault_create | fault_write (written : nat) | fault_synchronize.

#[export] Instance AppendFault_eq_dec : EqDecision AppendFault.
Proof. solve_decision. Defined.

Definition fault_of (fault : option (nat * AppendFault)) (position : nat) : option AppendFault :=
  match fault with
  | Some (p, f) => if Nat.eqb p position then Some f else None
  | None => None
  end.

Definition create_segment (failing : bool) (sequence first_index : Z) : M Wal unit :=
  _ ← lift (fail_when ((sequence =? 0) || (first_index =? 0))
    "WAL segment sequence and first index must be nonzero");
  w ← get_state;
  _ ← lift (fail_when (bool_decide (is_Some (wl_directory w !! sequence)))
    "refusing to overwrite existing WAL segment");
  _ ← lift (fail_when failing "system call failed");
  put_state (mkWal (<[sequence := make_segment_header sequence first_index]> (wl_directory w))
    (wl_segments w ++ [mkSegment sequence first_index None wal_segment_header_size])
    true (wl_last_index w) (Some first_index) wal_segment_header_size (wl_record_count w)
    (wl_healthy w)).

Definition ensure_segment (limits : StorageLimits) (failing : bool) (first_index record_size : Z) :
    M Wal unit :=
  w ← get_state;
  if negb (wl_active w) then
    match last (wl_segments w) with
    | None => create_segment failing 1 first_index
    | Some segment =>
        _ ← lift (fail_when (sg_sequence segment =? u64_max) "WAL segment sequence would overflow");
        create_segment failing (sg_sequence segment + 1) first_index
    end
  else if record_size <=? sl_wal_segment_bytes limits - wl_active_size w then mret tt
  else
    _ ← put_state (close_active w);
    match last (wl_segments w) with
    | None => fail_no_segment
    | Some segment =>
        _ ← lift (fail_when (sg_sequence segment =? u64_max) "WAL segment sequence would overflow");
        create_segment failing (sg_sequence segment + 1) first_index
    end.

(** [active_file_->write_all(bytes)]: appends to the file of the last segment. *)
Definition write_active (bytes : list byte) : M Wal unit :=
  w ← get_state;
  match last (wl_segments w) with
  | None => mret tt
  | Some segment =>
      put_state (set_directory w
        (<[sg_sequence segment := default [] (wl_directory w !! sg_sequence segment) ++ bytes]>
           (wl_directory w)))
  end.

(** [segments_.back()] with its new size and maximum index. *)
Definition update_last (segments : list SegmentInfo) (size index : Z) : list SegmentInfo :=
  match last segments with
  | None => []
  | Some s => removelast segments
      ++ [mkSegment (sg_sequence s) (sg_first_index s) (Some index) size]
  end.

Definition append_entry (limits : StorageLimits) (fault : option AppendFault) (entry : WalEntry) :
    M Wal unit :=
  let encoded := encode_record entry in
  _ ← ensure_segment limits (bool_decide (fault = Some fault_create)) (we_index entry)
        (bytes_size encoded);
  match fault with
  | Some (fault_write written) =>
      _ ← write_active (take written encoded); lift (fail "system call failed")
  | _ =>
      _ ← write_active encoded;
      w ← get_state;
      let size := wl_active_size w + bytes_size encoded in
      put_state (mkWal (wl_directory w) (update_last (wl_segments w) size (we_index entry))
        (wl_active w) (Some (we_index entry))
        (if we_index entry =? u64_max then None else Some (we_index entry + 1))
        size (wl_record_count w + 1) (wl_healthy w))
  end.

Fixpoint append_entries (limits : StorageLimits) (fault : option (nat * AppendFault))
    (position : nat) (entries : list WalEntry) : M Wal unit :=
  match entries with
  | [] => mret tt
  | entry :: rest =>
      _ ← append_entry limits (fault_of fault position) entry;
      append_entries limits fault (S position) rest
  end.

(** The synchronisation after the last record: it does not change the bytes of the
    file, but it can fail. *)
Definition synchronize_active (fault : option (nat * AppendFault)) (durability : Durability)
    (position : nat) : M Wal unit :=
  lift (fail_when (bool_decide (durability = synchronize)
                   && bool_decide (fault_of fault position = Some fault_synchronize))
    "system call failed").

Definition append (limits : StorageLimits) (fault : option (nat * AppendFault))
    (durability : Durability) (entries : list WalEntry) : M Wal unit :=
  w ← get_state;
  _ ← lift (fail_when (negb (wl_healthy w)) "WAL requires recover() after a previous append failure");
  match entries with
  | [] => mret tt
  | _ =>
      _ ← lift (validate_append limits w entries);
      on_failure (_ ← append_entries limits fault 0 entries;
                  synchronize_active fault durability (length entries)) mark_unhealthy
  end.

(** ** Truncation *)

(** All records of the segment are at or below [index]. *)
Definition covered (index : Z) (s : SegmentInfo) : bool :=
  match sg_maximum_index s with Some m => m <=? index | None => false end.

(** Which call fails for a segment: the removal of its file, or the synchronisation
    of the directory after it. *)
Inductive RemovalFault := fault_remove | fault_synchronize_directory.

#[export] Instance RemovalFault_eq_dec : EqDecision RemovalFault.
Proof. solve_decision. Defined.

(** The removal loop, from the given position on. *)
Fixpoint remove_segments (fault : option (nat * RemovalFault)) (position : nat)
    (removals : list SegmentInfo) : M Wal unit :=
  match removals with
  | [] => mret tt
  | segment :: rest =>
      _ ← lift (fail_when (bool_decide (fault = Some (position, fault_remove))) "system call failed");
      w ← get_state;
      _ ← put_state (set_directory w (delete (sg_sequence segment) (wl_directory w)));
      _ ← lift (fail_when (bool_decide (fault = Some (position, fault_synchronize_directory)))
        "system call failed");
      remove_segments fault (S position) rest
  end.

(** [truncate_through]; [latest] is the answer of the snapshot store: the last
    included index of its latest snapshot. *)
Definition truncate_through (limits : StorageLimits) (fault : option (nat * RemovalFault))
    (index : Z) (latest : outcome (option Z)) : M Wal unit :=
  _ ← lift (fail_when (index =? 0) "WAL truncation index must be nonzero");
  snapshot_index ← lift latest;
  _ ← lift (fail_when (match snapshot_index with Some s => s <? index | None => true end)
    "WAL truncation is not covered by a durable snapshot");
  _ ← recover_locked limits;
  w ← get_state;
  if Nat.ltb (length (wl_segments w)) 2 then mret tt
  else
    let removals := filter (covered index) (removelast (wl_segments w)) in
    _ ← put_state (close_active w);
    on_failure (_ ← remove_segments fault 0 removals; _ ← recover_locked limits; mret tt)
      mark_unhealthy.
