(* ===== verification/WalScan.v ===== *)
(** * Reading back a write-ahead log

    Which directories [append] produces, up to a torn suffix of the last segment,
    and what [recover] makes of them. *)

From S2P Require Import Prelude OrdMap Bytes Codec HardState Wal.
#[local] Open Scope Z_scope.

(** ** Entries and segments *)

(** The constructor's requirements on the limits. *)
Record wal_limits_ok (limits : StorageLimits) : Prop := {
  wo_segment : 80 ≤ sl_wal_segment_bytes limits ≤ u64_max;
  wo_payload : 0 ≤ sl_max_wal_payload_bytes limits ≤ sl_wal_segment_bytes limits - 80;
  wo_records : 0 < sl_max_recovery_records limits }.

(** An entry that [append] accepts; the largest index is left out. *)
Record entry_ok (limits : StorageLimits) (e : WalEntry) : Prop := {
  eo_type : we_type e = command_record_type;
  eo_term : 0 ≤ we_term e ≤ u64_max;
  eo_index : 0 < we_index e < u64_max;
  eo_payload : bytes_size (we_payload e) ≤ sl_max_wal_payload_bytes limits }.

Fixpoint indexed_from (next : Z) (es : list WalEntry) : Prop :=
  match es with
  | [] => True
  | e :: rest => we_index e = next ∧ indexed_from (next + 1) rest
  end.

Lemma indexed_from_app next es1 es2 :
  indexed_from next (es1 ++ es2) ↔
  indexed_from next es1 ∧ indexed_from (next + Z.of_nat (length es1)) es2.
Proof.
  revert next. induction es1 as [|e es1 IH]; intros next; simpl.
  - rewrite Z.add_0_r. tauto.
  - rewrite IH. replace (next + 1 + Z.of_nat (length es1)) with (next + Z.of_nat (S (length es1))) by lia.
    naive_solver.
Qed.

Definition encode_all (es : list WalEntry) : list byte := concat (encode_record <$> es).

Lemma encode_all_cons e es : encode_all (e :: es) = encode_record e ++ encode_all es.
Proof. done. Qed.

Lemma encode_all_app es1 es2 : encode_all (es1 ++ es2) = encode_all es1 ++ encode_all es2.
Proof. unfold encode_all. by rewrite fmap_app, concat_app. Qed.

(** ** Records *)

Definition record_prefix (e : WalEntry) : list byte :=
  record_magic ++ append_le 2 storage_format_version ++ append_le 2 (we_type e)
  ++ append_le 4 wal_record_header_size ++ append_le 8 (we_term e) ++ append_le 8 (we_index e)
  ++ append_le 8 (bytes_size (we_payload e)).

Definition record_crc (e : WalEntry) : Z := crc32c (record_prefix e ++ we_payload e).

Definition record_header (e : WalEntry) : list byte :=
  record_prefix e ++ append_le 4 (record_crc e).

Lemma encode_record_header e : encode_record e = record_header e ++ we_payload e.
Proof. unfold encode_record, record_header, record_crc, record_prefix. by rewrite <-!app_assoc. Qed.

Lemma length_wal_record_prefix e : length (record_prefix e) = 36%nat.
Proof. unfold record_prefix. by rewrite !length_app, !length_append_le. Qed.

Lemma length_record_header e : length (record_header e) = 40%nat.
Proof. unfold record_header. by rewrite length_app, length_wal_record_prefix, length_append_le. Qed.

Lemma length_encode_record e : length (encode_record e) = (40 + length (we_payload e))%nat.
Proof. by rewrite encode_record_header, length_app, length_record_header. Qed.

Lemma bytes_size_nonneg b : 0 ≤ bytes_size b.
Proof. unfold bytes_size. lia. Qed.

Record record_fields (header : list byte) (type term index size crc : Z) : Prop := {
  rf_magic : take 4 header = record_magic;
  rf_version : read_le 2 header 4 = Ret storage_format_version;
  rf_type : read_le 2 header 6 = Ret type;
  rf_header_size : read_le 4 header 8 = Ret wal_record_header_size;
  rf_term : read_le 8 header 12 = Ret term;
  rf_index : read_le 8 header 20 = Ret index;
  rf_size : read_le 8 header 28 = Ret size;
  rf_crc : read_le 4 header 36 = Ret crc }.

Lemma record_header_fields limits e :
  wal_limits_ok limits → entry_ok limits e →
  record_fields (record_header e) command_record_type (we_term e) (we_index e)
    (bytes_size (we_payload e)) (record_crc e).
Proof.
  intros [Hseg Hpay _] [Hty Hterm Hidx Hlen].
  pose proof (u32_crc32c (record_prefix e ++ we_payload e)) as Hcrc. fold (record_crc e) in Hcrc.
  unfold u32 in Hcrc. pose proof (bytes_size_nonneg (we_payload e)) as H0.
  unfold record_header. revert Hcrc. generalize (record_crc e) as crc. intros crc Hcrc.
  unfold record_prefix. rewrite Hty. rewrite <-!app_assoc, <-(app_nil_r (append_le 4 crc)).
  split; [by rewrite take_app_length' by done|..]; read_field; reflexivity.
Qed.

Lemma read_record_header_ok limits e first_record first_index :
  wal_limits_ok limits → entry_ok limits e → (first_record = true → we_index e = first_index) →
  read_record_header limits (record_header e) (Some (we_index e)) first_record first_index
  = Ret (we_term e, we_index e, bytes_size (we_payload e), record_crc e).
Proof.
  intros Hl He Hfirst. unfold read_record_header, fail_when.
  destruct (record_header_fields limits e Hl He) as [-> -> -> -> -> -> -> ->].
  generalize (record_crc e) as crc. intros crc. destruct Hl as [Hseg Hpay _], He as [Hty Hterm Hidx Hlen].
  cbn [mbind outcome_bind].
  replace (we_index e =? 0) with false by (symmetry; apply Z.eqb_neq; lia).
  rewrite !bool_decide_true by done. simpl.
  replace (first_record && negb (we_index e =? first_index)) with false.
  2:{ destruct first_record; [|done]. rewrite (Hfirst eq_refl), Z.eqb_refl. done. }
  simpl. replace (sl_max_wal_payload_bytes limits <? bytes_size (we_payload e)) with false
    by (symmetry; apply Z.ltb_ge; lia).
  unfold wal_record_header_size.
  replace (sl_wal_segment_bytes limits - 40 <? bytes_size (we_payload e)) with false
    by (symmetry; apply Z.ltb_ge; lia).
  done.
Qed.

(** ** The record loop *)

(** A torn suffix: a proper, nonempty prefix of the next record. *)
Definition torn_ok (limits : StorageLimits) (next : Z) (torn : list byte) : Prop :=
  torn = [] ∨ ∃ e n, entry_ok limits e ∧ we_index e = next ∧
    (0 < n < length (encode_record e))%nat ∧ torn = take n (encode_record e).

Lemma take_header e rest : take 40 (encode_record e ++ rest) = record_header e.
Proof.
  rewrite encode_record_header, <-app_assoc.
  by rewrite take_app_length' by by rewrite length_record_header.
Qed.

Lemma take_header_torn e n :
  (40 ≤ n)%nat → take 40 (take n (encode_record e)) = record_header e.
Proof.
  intros Hn. rewrite take_take, Nat.min_l by done. by rewrite <-(app_nil_r (encode_record e)), take_header.
Qed.

Lemma checked_record_size limits e :
  wal_limits_ok limits → entry_ok limits e →
  checked_add wal_record_header_size (bytes_size (we_payload e))
  = Some (bytes_size (encode_record e)).
Proof.
  intros [Hseg Hpay _] [_ _ _ Hlen]. rewrite checked_add_Some by (unfold wal_record_header_size; lia).
  unfold bytes_size. rewrite length_encode_record. f_equal. unfold wal_record_header_size. lia.
Qed.

Lemma take_prefix e : take 36 (record_header e) = record_prefix e.
Proof. unfold record_header. by rewrite take_app_length' by by rewrite length_wal_record_prefix. Qed.

Lemma take_payload e rest :
  take (Z.to_nat (bytes_size (we_payload e))) (drop 40 (encode_record e ++ rest)) = we_payload e.
Proof.
  rewrite encode_record_header, <-app_assoc, drop_app_length' by by rewrite length_record_header.
  unfold bytes_size. rewrite Nat2Z.id. by rewrite take_app_length.
Qed.

Lemma drop_record e rest :
  drop (Z.to_nat (bytes_size (encode_record e))) (encode_record e ++ rest) = rest.
Proof. unfold bytes_size. rewrite Nat2Z.id. apply drop_app_length. Qed.

(** Recovery state after reading [es]. *)
Definition advance (rc : Recovery) (es : list WalEntry) : Recovery :=
  match last es with
  | None => rc
  | Some e => mkRecovery (rc_entries rc ++ es) (Some (we_index e + 1))
      (rc_count rc + Z.of_nat (length es)) (Some (we_index e))
  end.

Definition last_index_of (maximum : option Z) (es : list WalEntry) : option Z :=
  match last es with None => maximum | Some e => Some (we_index e) end.

Lemma advance_cons rc e es :
  advance rc (e :: es) =
  advance (mkRecovery (rc_entries rc ++ [e]) (Some (we_index e + 1)) (rc_count rc + 1)
    (Some (we_index e))) es.
Proof.
  unfold advance. rewrite last_cons. destruct (last es) as [x|] eqn:Hl; simpl.
  - rewrite <-app_assoc. f_equal. lia.
  - apply last_None in Hl as ->. simpl. done.
Qed.

Lemma last_index_of_cons m e es : last_index_of m (e :: es) = last_index_of (Some (we_index e)) es.
Proof. unfold last_index_of. rewrite last_cons. by destruct (last es). Qed.

Section scan.
Context (limits : StorageLimits) (Hlimits : wal_limits_ok limits).

Lemma scan_torn fuel is_final first_index torn offset maximum rc next :
  torn_ok limits next torn → (torn ≠ [] → is_final = true) → (length torn ≤ fuel)%nat →
  rc_expected rc = Some next → (maximum = None → next = first_index) →
  scan_records fuel limits is_final first_index torn offset maximum rc
  = (Ret (maximum, if bool_decide (torn = []) then None else Some offset), rc).
Proof.
  intros Htorn Hfin Hfuel Hexp Hfirst. destruct fuel as [|fuel].
  { destruct torn; simpl in *; [done|lia]. }
  cbn [scan_records]. case_bool_decide as Hnil; [done|].
  rewrite (Hfin Hnil). destruct Htorn as [->|(e & n & He & Hi & Hn & ->)]; [done|].
  unfold bytes_size at 1. rewrite length_take.
  destruct (Z.ltb_spec (Z.of_nat (n `min` length (encode_record e))) wal_record_header_size)
    as [Hlt|Hge]; [done|].
  unfold wal_record_header_size in Hge.
  unfold mbind, M_bind. cbn [get_state]. rewrite take_header_torn by lia. unfold lift.
  rewrite Hexp, <-Hi.
  rewrite (read_record_header_ok limits e _ first_index Hlimits He).
  2:{ intros Hm%bool_decide_eq_true. rewrite Hi. auto. }
  rewrite (checked_record_size limits e Hlimits He).
  unfold bytes_size at 1. rewrite length_take.
  destruct (Z.ltb_spec (Z.of_nat (n `min` length (encode_record e))) (bytes_size (encode_record e)))
    as [_|Hge']; [done|]. unfold bytes_size in Hge'. lia.
Qed.

Lemma scan_ok es fuel is_final first_index torn offset maximum rc next :
  Forall (entry_ok limits) es → indexed_from next es →
  torn_ok limits (next + Z.of_nat (length es)) torn → (torn ≠ [] → is_final = true) →
  (length (encode_all es ++ torn) ≤ fuel)%nat →
  rc_expected rc = Some next → (maximum = None → next = first_index) →
  rc_count rc + Z.of_nat (length es) ≤ sl_max_recovery_records limits →
  scan_records fuel limits is_final first_index (encode_all es ++ torn) offset maximum rc
  = (Ret (last_index_of maximum es,
          if bool_decide (torn = []) then None else Some (offset + length (encode_all es))%nat),
     advance rc es).
Proof.
  revert fuel offset maximum rc next.
  induction es as [|e es IH]; intros fuel offset maximum rc next Hok Hidx Htorn Hfin Hfuel Hexp
    Hfirst Hcount.
  { rewrite Z.add_0_r in Htorn. simpl. rewrite Nat.add_0_r. by apply (scan_torn _ _ _ _ _ _ _ next). }
  apply Forall_cons in Hok as [He Hok]. destruct Hidx as [Hi Hidx].
  rewrite encode_all_cons, <-app_assoc in Hfuel |- *.
  pose proof (length_encode_record e) as Hlen. rewrite length_app in Hfuel.
  destruct fuel as [|fuel]; [lia|]. cbn [scan_records].
  rewrite bool_decide_false by (intros Hn%(f_equal length); rewrite length_app in Hn; simpl in Hn; lia).
  unfold bytes_size at 1. rewrite length_app.
  destruct (Z.ltb_spec (Z.of_nat (length (encode_record e) + length (encode_all es ++ torn)))
    wal_record_header_size) as [Hlt|_]; [unfold wal_record_header_size in Hlt; lia|].
  unfold mbind, M_bind. cbn [get_state]. rewrite take_header. unfold lift.
  rewrite Hexp, <-Hi.
  rewrite (read_record_header_ok limits e _ first_index Hlimits He).
  2:{ intros Hm%bool_decide_eq_true. rewrite Hi. auto. }
  rewrite (checked_record_size limits e Hlimits He).
  unfold bytes_size at 1 2. rewrite length_app.
  destruct (Z.ltb_spec (Z.of_nat (length (encode_record e) + length (encode_all es ++ torn)))
    (Z.of_nat (length (encode_record e)))) as [Hlt|_]; [lia|].
  rewrite take_payload, take_prefix, drop_record. fold (record_crc e).
  rewrite Z.eqb_refl. cbn [negb fail_when throw_when].
  simpl length in Hcount.
  destruct (Z.leb_spec (sl_max_recovery_records limits) (rc_count rc)); [lia|].
  cbn [fail_when throw_when put_state]. destruct He as [Hty _ Hmax _].
  destruct (Z.eqb_spec (we_index e) u64_max); [lia|]. cbn [andb fail_when throw_when].
  rewrite (IH _ _ _ _ (next + 1)); try done.
  - rewrite last_index_of_cons, advance_cons, length_app. unfold bytes_size.
    rewrite Nat2Z.id, Nat.add_assoc, <-Hty. by destruct e.
  - by replace (next + 1 + Z.of_nat (length es)) with (next + Z.of_nat (length (e :: es)))
      by (simpl length; lia).
  - lia.
  - simpl. by rewrite Hi.
  - simpl. lia.
Qed.

(** ** Segments *)

Definition header_prefix (sequence first_index : Z) : list byte :=
  wal_magic ++ append_le 2 storage_format_version ++ append_le 2 wal_segment_header_size
  ++ append_le 4 0 ++ append_le 8 sequence ++ append_le 8 first_index.

Lemma length_header_prefix q f : length (header_prefix q f) = 32%nat.
Proof. unfold header_prefix. by rewrite !length_app, !length_append_le. Qed.

Lemma make_segment_header_prefix q f :
  make_segment_header q f
  = header_prefix q f ++ append_le 4 (crc32c (header_prefix q f)) ++ append_le 4 0.
Proof. done. Qed.

Lemma length_make_segment_header q f : length (make_segment_header q f) = 40%nat.
Proof.
  rewrite make_segment_header_prefix, !length_app, !length_append_le, length_header_prefix. done.
Qed.

Record header_fields (bytes : list byte) (q f crc : Z) : Prop := {
  hf_magic : take 8 bytes = wal_magic;
  hf_version : read_le 2 bytes 8 = Ret storage_format_version;
  hf_size : read_le 2 bytes 10 = Ret wal_segment_header_size;
  hf_flags : read_le 4 bytes 12 = Ret 0;
  hf_sequence : read_le 8 bytes 16 = Ret q;
  hf_first : read_le 8 bytes 24 = Ret f;
  hf_crc : read_le 4 bytes 32 = Ret crc;
  hf_reserved : read_le 4 bytes 36 = Ret 0 }.

Lemma segment_header_fields q f rest :
  0 ≤ q ≤ u64_max → 0 ≤ f ≤ u64_max →
  header_fields (make_segment_header q f ++ rest) q f (crc32c (header_prefix q f)).
Proof.
  intros Hq Hf. rewrite make_segment_header_prefix.
  pose proof (u32_crc32c (header_prefix q f)) as Hcrc. unfold u32 in Hcrc. revert Hcrc.
  generalize (crc32c (header_prefix q f)) as crc. intros crc Hcrc. unfold header_prefix.
  rewrite <-!app_assoc. split; [by rewrite take_app_length' by done|..]; read_field; reflexivity.
Qed.

Lemma take_header_prefix q f rest :
  take 32 (make_segment_header q f ++ rest) = header_prefix q f.
Proof.
  rewrite make_segment_header_prefix, <-app_assoc.
  by rewrite take_app_length' by by rewrite length_header_prefix.
Qed.

Lemma read_segment_header_ok q f rest expected :
  0 < q ≤ u64_max → 0 < f ≤ u64_max → (expected = None ∨ expected = Some f) →
  40 + bytes_size rest ≤ sl_wal_segment_bytes limits →
  read_segment_header limits q (make_segment_header q f ++ rest) expected = Ret f.
Proof.
  intros Hq Hf He Hsz. unfold read_segment_header, fail_when.
  destruct (segment_header_fields q f rest) as [-> -> -> -> -> -> -> ->]; [lia..|].
  rewrite take_header_prefix. generalize (crc32c (header_prefix q f)) as crc. intros crc.
  replace (sl_wal_segment_bytes limits <? bytes_size (make_segment_header q f ++ rest)) with false.
  2:{ symmetry. apply Z.ltb_ge. unfold bytes_size in *.
      rewrite length_app, length_make_segment_header. lia. }
  replace (bytes_size (make_segment_header q f ++ rest) <? wal_segment_header_size) with false.
  2:{ symmetry. apply Z.ltb_ge. unfold bytes_size, wal_segment_header_size in *.
      rewrite length_app, length_make_segment_header. lia. }
  cbn [throw_when mbind outcome_bind]. simpl.
  replace (q =? 0) with false by (symmetry; apply Z.eqb_neq; lia).
  replace (f =? 0) with false by (symmetry; apply Z.eqb_neq; lia).
  rewrite !Z.eqb_refl. simpl.
  destruct He as [->| ->]; [done|]. by rewrite Z.eqb_refl.
Qed.

(** A segment with its records. *)
Record Seg := mkSeg { gs_sequence : Z; gs_first : Z; gs_entries : list WalEntry }.

Definition seg_bytes (s : Seg) : list byte :=
  make_segment_header (gs_sequence s) (gs_first s) ++ encode_all (gs_entries s).

Definition seg_next (s : Seg) : Z := gs_first s + Z.of_nat (length (gs_entries s)).

Definition seg_info (s : Seg) : SegmentInfo :=
  mkSegment (gs_sequence s) (gs_first s) (last_index_of None (gs_entries s))
    (bytes_size (seg_bytes s)).

Record seg_ok (s : Seg) : Prop := {
  so_sequence : 0 < gs_sequence s ≤ u64_max;
  so_first : 0 < gs_first s < u64_max;
  so_entries : Forall (entry_ok limits) (gs_entries s);
  so_indexed : indexed_from (gs_first s) (gs_entries s);
  so_size : bytes_size (seg_bytes s) ≤ sl_wal_segment_bytes limits }.

Definition after_seg (rc : Recovery) (s : Seg) : Recovery :=
  advance (mkRecovery (rc_entries rc) (Some (gs_first s)) (rc_count rc) (rc_last_index rc))
    (gs_entries s).

Lemma last_index_of_None m es : last_index_of m es = None → m = None ∧ es = [].
Proof.
  unfold last_index_of. destruct (last es) eqn:Hl; [done|]. by apply last_None in Hl as ->.
Qed.

Lemma recover_segment_ok is_final s torn rc :
  seg_ok s → torn_ok limits (seg_next s) torn → (torn ≠ [] → is_final = true) →
  (is_final = false → gs_entries s ≠ []) →
  bytes_size (seg_bytes s ++ torn) ≤ sl_wal_segment_bytes limits →
  (rc_expected rc = None ∨ rc_expected rc = Some (gs_first s)) →
  rc_count rc + Z.of_nat (length (gs_entries s)) ≤ sl_max_recovery_records limits →
  recover_segment limits is_final (gs_sequence s) (seg_bytes s ++ torn) rc
  = (Ret (seg_info s, seg_bytes s), after_seg rc s).
Proof.
  intros [Hseq Hfirst Hok Hidx Hsz] Htorn Hfin Hne Hsize Hexp Hcount.
  unfold recover_segment, mbind, M_bind. cbn [get_state]. unfold lift at 1, seg_bytes at 1.
  rewrite <-app_assoc.
  rewrite read_segment_header_ok; [|lia|lia|done|].
  2:{ unfold bytes_size, seg_bytes in Hsize |- *.
      rewrite !length_app, length_make_segment_header in Hsize. rewrite length_app. lia. }
  cbn [put_state].
  replace (match rc_expected rc with Some e => Some e | None => Some (gs_first s) end)
    with (Some (gs_first s)) by (by destruct Hexp as [-> | ->]).
  replace (drop 40 (seg_bytes s ++ torn)) with (encode_all (gs_entries s) ++ torn).
  2:{ unfold seg_bytes. rewrite <-app_assoc.
      by rewrite drop_app_length' by by rewrite length_make_segment_header. }
  rewrite (scan_ok _ _ _ _ _ _ _ _ (gs_first s)); try done.
  2:{ unfold seg_bytes. rewrite !length_app, length_make_segment_header. lia. }
  assert (match (if bool_decide (torn = []) then None
                 else Some (40 + length (encode_all (gs_entries s)))%nat) with
          | Some offset => take offset (seg_bytes s ++ torn)
          | None => seg_bytes s ++ torn end = seg_bytes s) as ->.
  { case_bool_decide as Ht; [by rewrite Ht, app_nil_r|]. apply take_app_length'.
    unfold seg_bytes. by rewrite length_app, length_make_segment_header. }
  replace (bool_decide (last_index_of None (gs_entries s) = None) && negb is_final) with false.
  2:{ destruct is_final; [by rewrite andb_false_r|]. rewrite bool_decide_false; [done|].
      intros [_ ?]%last_index_of_None. by apply Hne. }
  done.
Qed.
End scan.
