(* ===== verification/WalLog.v ===== *)
(** * Directories of a write-ahead log

    A log is a chain of segments; the files of its directory hold the segments,
    the last one possibly with a torn suffix. [recover] reads exactly the entries
    of the chain, removes the torn suffix, and leaves the object ready to append. *)

From S2P Require Import Prelude OrdMap Bytes Codec HardState Wal WalScan.
#[local] Open Scope Z_scope.
#[local] Opaque seg_bytes encode_record make_segment_header.

(** ** Chains of segments *)

Fixpoint chain (sequence next : Z) (segs : list Seg) : Prop :=
  match segs with
  | [] => True
  | s :: rest => gs_sequence s = sequence ∧ gs_first s = next ∧
      (rest ≠ [] → gs_entries s ≠ []) ∧ chain (sequence + 1) (seg_next s) rest
  end.

Definition log_entries (segs : list Seg) : list WalEntry := concat (gs_entries <$> segs).

(** The index after the last one. *)
Definition log_next (next : Z) (segs : list Seg) : Z := next + Z.of_nat (length (log_entries segs)).

Fixpoint files (segs : list Seg) (torn : list byte) : list (Z * list byte) :=
  match segs with
  | [] => []
  | [s] => [(gs_sequence s, seg_bytes s ++ torn)]
  | s :: rest => (gs_sequence s, seg_bytes s) :: files rest torn
  end.

Definition directory_of (segs : list Seg) (torn : list byte) : gmap Z (list byte) :=
  list_to_map (files segs torn).

Lemma log_entries_cons s segs : log_entries (s :: segs) = gs_entries s ++ log_entries segs.
Proof. done. Qed.

Lemma log_next_cons next s segs :
  gs_first s = next → log_next next (s :: segs) = log_next (seg_next s) segs.
Proof.
  intros <-. unfold log_next, seg_next. rewrite log_entries_cons, length_app. lia.
Qed.

Lemma files_cons s segs torn :
  segs ≠ [] → files (s :: segs) torn = (gs_sequence s, seg_bytes s) :: files segs torn.
Proof. by destruct segs. Qed.

Lemma files_sequences segs torn : (files segs torn).*1 = gs_sequence <$> segs.
Proof.
  induction segs as [|s segs IH]; [done|]. destruct segs as [|s' segs]; [done|].
  rewrite files_cons by done. rewrite !fmap_cons, IH. done.
Qed.

Lemma chain_sequences_lt q n segs x : chain q n segs → x ∈ gs_sequence <$> segs → q ≤ x.
Proof.
  revert q n. induction segs as [|s segs IH]; intros q n; [set_solver|].
  intros (Hq & _ & _ & Hc). rewrite fmap_cons. intros [->|Hx]%elem_of_cons; [lia|].
  pose proof (IH _ _ Hc Hx). lia.
Qed.

Lemma chain_NoDup q n segs : chain q n segs → NoDup (gs_sequence <$> segs).
Proof.
  revert q n. induction segs as [|s segs IH]; intros q n; [constructor|].
  intros (Hq & _ & _ & Hc). rewrite fmap_cons. constructor; [|by eapply IH].
  intros Hx. pose proof (chain_sequences_lt _ _ _ _ Hc Hx). lia.
Qed.

Lemma chain_sorted q n segs torn : chain q n segs → StronglySorted entry_le (files segs torn).
Proof.
  revert q n. induction segs as [|s segs IH]; intros q n; [constructor|].
  intros (Hq & _ & _ & Hc). destruct (decide (segs = [])) as [->|Hne].
  { simpl. repeat constructor. }
  rewrite files_cons by done. constructor; [by eapply IH|].
  apply Forall_forall. intros [x b] Hx. unfold entry_le. simpl.
  assert (x ∈ gs_sequence <$> segs) as Hin.
  { rewrite <-(files_sequences segs torn). apply list_elem_of_fmap. by exists (x, b). }
  pose proof (chain_sequences_lt _ _ _ _ Hc Hin). lia.
Qed.

Lemma entries_directory q n segs torn :
  chain q n segs → entries (directory_of segs torn) = files segs torn.
Proof.
  intros Hc. apply entries_unique; [by eapply chain_sorted| |done].
  rewrite files_sequences. by eapply chain_NoDup.
Qed.

Lemma chain_consecutive q n segs torn :
  chain (q + 1) n segs → Forall (λ s, gs_sequence s ≤ u64_max) segs →
  consecutive q (files segs torn) = true.
Proof.
  revert q n. induction segs as [|s segs IH]; intros q n; [done|].
  intros (Hq & _ & _ & Hc) [Hs Hall]%Forall_cons.
  assert (negb (q =? u64_max) && (gs_sequence s =? q + 1) = true) as Hhd.
  { rewrite andb_true_iff, negb_true_iff, Z.eqb_neq, Z.eqb_eq. lia. }
  destruct (decide (segs = [])) as [->|Hne]; [simpl; by rewrite Hhd|].
  rewrite files_cons by done. cbn [consecutive]. rewrite Hhd. simpl. rewrite Hq. eauto.
Qed.

(** ** Recovery *)

Section recovery.
Context (limits : StorageLimits) (Hlimits : wal_limits_ok limits).

Definition set_recovered (w : Wal) (d : gmap Z (list byte)) (segments : list SegmentInfo)
    (rc : Recovery) : Wal :=
  mkWal d segments (wl_active w) (rc_last_index rc) (wl_expected_append w) (wl_active_size w)
    (rc_count rc) (wl_healthy w).

Definition write_segs (d : gmap Z (list byte)) (segs : list Seg) : gmap Z (list byte) :=
  foldl (λ d s, <[gs_sequence s := seg_bytes s]> d) d segs.

Definition after_segs (rc : Recovery) (segs : list Seg) : Recovery := foldl after_seg rc segs.

Lemma after_seg_expected rc s :
  seg_ok limits s → rc_expected (after_seg rc s) = Some (seg_next s).
Proof.
  intros [_ _ _ Hidx _]. unfold after_seg, advance, seg_next.
  destruct (gs_entries s) as [|e es] using rev_ind; [simpl; by rewrite Z.add_0_r|]. clear IHes.
  rewrite last_snoc. simpl. apply indexed_from_app in Hidx as [_ [He _]].
  rewrite He, length_app. simpl. f_equal. lia.
Qed.

Lemma after_seg_entries rc s :
  rc_entries (after_seg rc s) = rc_entries rc ++ gs_entries s ∧
  rc_count (after_seg rc s) = rc_count rc + Z.of_nat (length (gs_entries s)) ∧
  rc_last_index (after_seg rc s) = last_index_of (rc_last_index rc) (gs_entries s).
Proof.
  unfold after_seg, advance, last_index_of. destruct (last (gs_entries s)) eqn:Hl; [done|].
  apply last_None in Hl as ->. simpl. rewrite app_nil_r, Z.add_0_r. done.
Qed.

Lemma recover_segments_ok segs torn q n rc w :
  chain q n segs → Forall (seg_ok limits) segs →
  torn_ok limits (log_next n segs) torn →
  Forall (λ f, bytes_size f.2 ≤ sl_wal_segment_bytes limits) (files segs torn) →
  (rc_expected rc = None ∨ rc_expected rc = Some n) →
  rc_count rc + Z.of_nat (length (log_entries segs)) ≤ sl_max_recovery_records limits →
  wl_last_index w = rc_last_index rc → wl_record_count w = rc_count rc →
  recover_segments limits (files segs torn) rc w
  = (Ret (after_segs rc segs),
     set_recovered w (write_segs (wl_directory w) segs) (wl_segments w ++ (seg_info <$> segs))
       (after_segs rc segs)).
Proof.
  revert q n rc w. induction segs as [|s segs IH];
    intros q n rc w Hc Hok Htorn Hsz Hexp Hcount Hl Hr.
  { simpl. rewrite app_nil_r. unfold set_recovered. rewrite <-Hl, <-Hr. by destruct w. }
  destruct Hc as (Hq & Hn & Hne & Hc). apply Forall_cons in Hok as [Hs Hok].
  rewrite log_next_cons in Htorn by done.
  rewrite log_entries_cons, length_app in Hcount.
  destruct (after_seg_entries rc s) as (He1 & He2 & He3).
  destruct (decide (segs = [])) as [->|Hsegs].
  - unfold log_next, log_entries in Htorn. simpl in Htorn. rewrite Z.add_0_r in Htorn.
    simpl in Hsz. apply Forall_cons in Hsz as [Hsz _]. simpl in Hsz.
    unfold files, recover_segments, mbind, M_bind, with_recovery. rewrite bool_decide_true by done.
    rewrite <-Hn in Hexp. simpl in Hcount.
    rewrite recover_segment_ok; try done; lia.
  - rewrite files_cons in Hsz |- * by done. apply Forall_cons in Hsz as [Hsz1 Hsz]. simpl in Hsz1.
    cbn [recover_segments]. unfold mbind, M_bind, with_recovery at 1.
    rewrite (bool_decide_false (files segs torn = [])).
    2:{ intros Hf. apply (f_equal (fmap fst)) in Hf. rewrite files_sequences in Hf.
        by destruct segs. }
    rewrite <-(app_nil_r (seg_bytes s)) at 1.
    rewrite <-Hn in Hexp.
    rewrite recover_segment_ok; try done; try (by left); try (by auto);
      [|by rewrite app_nil_r|lia].
    cbn [mbind outcome_bind mret outcome_ret get_state put_state]. simpl.
    rewrite (IH _ _ (after_seg rc s) _ Hc Hok Htorn Hsz); try done.
    + simpl. by rewrite <-app_assoc.
    + right. by apply after_seg_expected.
    + rewrite He2. lia.
Qed.

(** What the loop has recovered at the end. *)
Lemma after_segs_ok segs q n rc :
  chain q n segs → Forall (seg_ok limits) segs →
  rc_entries (after_segs rc segs) = rc_entries rc ++ log_entries segs ∧
  rc_count (after_segs rc segs) = rc_count rc + Z.of_nat (length (log_entries segs)) ∧
  rc_last_index (after_segs rc segs) = last_index_of (rc_last_index rc) (log_entries segs) ∧
  (segs ≠ [] → rc_expected (after_segs rc segs) = Some (log_next n segs)).
Proof.
  revert q n rc. induction segs as [|s segs IH]; intros q n rc.
  { simpl. rewrite app_nil_r, Z.add_0_r. done. }
  intros (Hq & Hn & Hne & Hc) [Hs Hok]%Forall_cons.
  destruct (IH _ _ (after_seg rc s) Hc Hok) as (I1 & I2 & I3 & I4).
  destruct (after_seg_entries rc s) as (He1 & He2 & He3).
  change (after_segs rc (s :: segs)) with (after_segs (after_seg rc s) segs).
  rewrite I1, I2, I3, He1, He2, He3, log_entries_cons, length_app, <-app_assoc.
  split_and!; [done|lia| |].
  - unfold last_index_of. rewrite last_app. destruct (last (log_entries segs)); [done|].
    by destruct (last (gs_entries s)).
  - intros _. rewrite log_next_cons by done. destruct (decide (segs = [])) as [->|Hsegs]; [|auto].
    simpl. rewrite after_seg_expected by done. unfold log_next. simpl. f_equal. lia.
Qed.

Lemma lookup_directory q n segs torn k b :
  chain q n segs → directory_of segs torn !! k = Some b ↔ (k, b) ∈ files segs torn.
Proof.
  intros Hc. unfold directory_of. rewrite <-elem_of_list_to_map; [done|].
  rewrite files_sequences. by eapply chain_NoDup.
Qed.

Lemma lookup_directory_None segs torn k :
  directory_of segs torn !! k = None ↔ k ∉ gs_sequence <$> segs.
Proof.
  unfold directory_of. rewrite <-not_elem_of_list_to_map, files_sequences. done.
Qed.

Lemma elem_of_files segs k b :
  (k, b) ∈ files segs [] ↔ ∃ s, s ∈ segs ∧ k = gs_sequence s ∧ b = seg_bytes s.
Proof.
  clear Hlimits limits. induction segs as [|s segs IH]; [set_solver|]. destruct (decide (segs = [])) as [->|Hne].
  - simpl. rewrite app_nil_r, list_elem_of_singleton. set_solver.
  - rewrite files_cons, elem_of_cons, IH by done. set_solver.
Qed.

Lemma lookup_write_segs d segs k :
  NoDup (gs_sequence <$> segs) →
  write_segs d segs !! k = match list_find (λ s, gs_sequence s = k) segs with
    | Some (_, s) => Some (seg_bytes s) | None => d !! k end.
Proof.
  unfold write_segs. revert d. induction segs as [|s segs IH]; intros d Hnd; [done|].
  rewrite fmap_cons in Hnd. apply NoDup_cons in Hnd as [Hs Hnd]. simpl. rewrite IH by done.
  destruct (decide (gs_sequence s = k)) as [<-|Hne].
  - destruct (list_find (λ s0, gs_sequence s0 = gs_sequence s) segs) as [[i s']|] eqn:Hf.
    + apply list_find_Some in Hf as (Hl & Heq & _). destruct Hs. rewrite <-Heq.
      apply list_elem_of_fmap_2. by eapply list_elem_of_lookup_2.
    + by rewrite lookup_insert_eq.
  - destruct (list_find _ segs) as [[i s']|]; simpl; [done|]. by rewrite lookup_insert_ne.
Qed.

Lemma write_segs_directory q n segs torn :
  chain q n segs → write_segs (directory_of segs torn) segs = directory_of segs [].
Proof.
  intros Hc. apply map_eq. intros k. rewrite lookup_write_segs by by eapply chain_NoDup.
  destruct (list_find _ segs) as [[i s]|] eqn:Hf.
  - apply list_find_Some in Hf as (Hl & Heq & _). symmetry.
    apply (lookup_directory q n); [done|]. apply elem_of_files. exists s.
    split_and!; [by eapply list_elem_of_lookup_2|done|done].
  - apply list_find_None in Hf. trans (None : option (list byte)).
    + apply lookup_directory_None. intros (s & -> & Hs)%list_elem_of_fmap.
      rewrite Forall_forall in Hf. by apply (Hf s).
    + symmetry. apply lookup_directory_None. intros (s & -> & Hs)%list_elem_of_fmap.
      rewrite Forall_forall in Hf. by apply (Hf s).
Qed.

(** A directory with the log [segs], whose first segment and index are [q] and
    [n], and a torn suffix. *)
Record log_ok (q n : Z) (segs : list Seg) (torn : list byte) : Prop := {
  lk_chain : chain q n segs;
  lk_segs : Forall (seg_ok limits) segs;
  lk_torn : torn_ok limits (log_next n segs) torn;
  lk_sizes : Forall (λ f, bytes_size f.2 ≤ sl_wal_segment_bytes limits) (files segs torn);
  lk_count : Z.of_nat (length (log_entries segs)) ≤ sl_max_recovery_records limits }.

(** The object after recovery: consistent with its directory. *)
Record ready (q n : Z) (segs : list Seg) (w : Wal) : Prop := {
  rd_log : log_ok q n segs [];
  rd_directory : wl_directory w = directory_of segs [];
  rd_segments : wl_segments w = seg_info <$> segs;
  rd_active : wl_active w = negb (bool_decide (segs = []));
  rd_last : wl_last_index w = last_index_of None (log_entries segs);
  rd_expected : wl_expected_append w = if bool_decide (segs = []) then None else Some (log_next n segs);
  rd_size : wl_active_size w = match last segs with Some s => bytes_size (seg_bytes s) | None => 0 end;
  rd_count : wl_record_count w = Z.of_nat (length (log_entries segs));
  rd_healthy : wl_healthy w = true }.

Lemma segment_paths_ok q n segs torn :
  log_ok q n segs torn → segment_paths (directory_of segs torn) = Ret (files segs torn).
Proof.
  intros [Hc Hok _ _ _]. unfold segment_paths, fail_when.
  rewrite (entries_directory _ _ _ _ Hc).
  rewrite bool_decide_false.
  2:{ rewrite <-eq_None_not_Some, lookup_directory_None.
      intros (s & Hs0 & Hs)%list_elem_of_fmap. rewrite Forall_forall in Hok.
      destruct (Hok s Hs) as [? _ _ _ _]. lia. }
  destruct segs as [|s segs]; [done|]. destruct Hc as (Hq & _ & _ & Hc).
  apply Forall_cons in Hok as [Hs Hok].
  destruct (decide (segs = [])) as [->|Hne]; [done|].
  rewrite files_cons by done. cbn [mbind outcome_bind throw_when].
  rewrite Hq, (chain_consecutive _ _ _ _ Hc); [done|].
  apply (Forall_impl _ _ _ Hok). intros s' []. lia.
Qed.

Lemma log_ok_untorn q n segs torn : log_ok q n segs torn → log_ok q n segs [].
Proof.
  intros [Hc Hok _ _ Hcount]. split; try done; [by left|].
  apply Forall_forall. intros [k b] (s & Hs & -> & ->)%elem_of_files. simpl.
  rewrite Forall_forall in Hok. apply (Hok s Hs).
Qed.

Lemma recover_locked_ok q n segs torn w :
  log_ok q n segs torn → wl_directory w = directory_of segs torn →
  ∃ w', recover_locked limits w = (Ret (log_entries segs), w') ∧ ready q n segs w'.
Proof.
  intros Hlog Hd. pose proof (segment_paths_ok _ _ _ _ Hlog) as Hpaths.
  pose proof (log_ok_untorn _ _ _ _ Hlog) as Hlog'. destruct Hlog as [Hc Hok Htorn Hsz Hcount].
  unfold recover_locked, mbind, M_bind. cbn [get_state put_state]. unfold lift.
  rewrite Hd, Hpaths.
  rewrite (recover_segments_ok segs torn q n (mkRecovery [] None 0 None) _ Hc Hok Htorn Hsz);
    [|by left|simpl; lia|done|done].
  destruct (after_segs_ok segs q n (mkRecovery [] None 0 None) Hc Hok) as (E1 & E2 & E3 & E4).
  simpl in E1, E2, E3. cbn [set_recovered wl_segments wl_directory wl_active].
  rewrite (write_segs_directory _ _ _ _ Hc). simpl.
  rewrite fmap_last. destruct (last segs) as [s|] eqn:Hlast; simpl.
  - assert (segs ≠ []) as Hne by by intros ->.
    eexists. rewrite E1. split; [done|]. split; simpl; try done.
    + by rewrite bool_decide_false.
    + rewrite bool_decide_false by done. auto.
    + by rewrite Hlast.
  - apply last_None in Hlast as ->. eexists. split; [done|]. split; simpl; try done.
Qed.
End recovery.
