(* ===== verification/WalProps.v ===== *)
(** * Appending to and recovering the write-ahead log *)

From S2P Require Import Prelude OrdMap Bytes Codec HardState Wal WalScan WalLog.
#[local] Open Scope Z_scope.
#[local] Opaque seg_bytes encode_record make_segment_header.

(** ** Extending the last segment *)

Lemma files_snoc init s torn :
  files (init ++ [s]) torn = files init [] ++ [(gs_sequence s, seg_bytes s ++ torn)].
Proof.
  induction init as [|x init IH]; [done|]. simpl app. rewrite files_cons by by destruct init.
  rewrite IH. destruct init; [simpl; by rewrite app_nil_r|done].
Qed.

Lemma directory_snoc init s torn :
  gs_sequence s ∉ gs_sequence <$> init →
  directory_of (init ++ [s]) torn
  = <[gs_sequence s := seg_bytes s ++ torn]> (directory_of init []).
Proof.
  intros Hn. unfold directory_of. rewrite files_snoc.
  apply list_to_map_snoc. by rewrite files_sequences.
Qed.

Lemma log_entries_snoc init s : log_entries (init ++ [s]) = log_entries init ++ gs_entries s.
Proof.
  unfold log_entries. rewrite fmap_app, concat_app. simpl. by rewrite app_nil_r.
Qed.

Lemma chain_snoc q n init s :
  chain q n (init ++ [s]) ↔
  chain q n init ∧ (∀ x, last init = Some x → gs_entries x ≠ []) ∧
  gs_sequence s = q + Z.of_nat (length init) ∧ gs_first s = log_next n init.
Proof.
  revert q n. induction init as [|x init IH]; intros q n.
  { simpl. unfold log_next, log_entries. simpl. rewrite !Z.add_0_r. naive_solver. }
  simpl app. cbn [chain]. rewrite IH. rewrite last_cons. split.
  - intros (Hq & Hn & Hne & Hc & Hlast & Hs & Hf). rewrite log_next_cons by done.
    split_and!; try done.
    + intros Hi. apply Hne. by destruct init.
    + intros y. destruct (last init) eqn:Hl; [auto|]. intros [= <-]. apply Hne. by destruct init.
    + simpl length. lia.
  - intros ((Hq & Hn & Hne & Hc) & Hlast & Hs & Hf). rewrite log_next_cons in Hf by done.
    split_and!; try done.
    + intros _. destruct (last init) eqn:Hl; [|by apply Hlast].
      apply Hne. intros ->. done.
    + intros y Hy. apply Hlast. by rewrite Hy.
    + simpl length in Hs. lia.
Qed.

Lemma mwp_on_failure {S A} (m : M S A) handler s Q E :
  mwp m s Q (λ x s', E x (handler s')) → mwp (on_failure m handler) s Q E.
Proof. unfold mwp, on_failure. by destruct (m s) as [[|] ?]. Qed.

Section append.
Context (limits : StorageLimits) (Hlimits : wal_limits_ok limits).

Definition grow (s : Seg) (e : WalEntry) : Seg :=
  mkSeg (gs_sequence s) (gs_first s) (gs_entries s ++ [e]).

Lemma seg_bytes_grow s e : seg_bytes (grow s e) = seg_bytes s ++ encode_record e.
Proof.
  Transparent seg_bytes. unfold seg_bytes. Opaque seg_bytes. simpl.
  rewrite encode_all_app, <-app_assoc. f_equal. f_equal. unfold encode_all. simpl.
  by rewrite app_nil_r.
Qed.

Lemma sequence_fresh q n init s : chain q n (init ++ [s]) → gs_sequence s ∉ gs_sequence <$> init.
Proof.
  intros Hnd%chain_NoDup. rewrite fmap_app in Hnd. apply NoDup_app in Hnd as (_ & Hd & _).
  intros Hin. apply (Hd _ Hin). by left.
Qed.

(** A log whose last segment has room for the next record. *)
Record room (q n : Z) (init : list Seg) (s : Seg) (e : WalEntry) (w : Wal) : Prop := {
  rm_ready : ready limits q n (init ++ [s]) w;
  rm_entry : entry_ok limits e;
  rm_next : we_index e = log_next n (init ++ [s]);
  rm_size : bytes_size (seg_bytes s) + bytes_size (encode_record e) ≤ sl_wal_segment_bytes limits;
  rm_count : Z.of_nat (length (log_entries (init ++ [s]))) + 1 ≤ sl_max_recovery_records limits }.

Lemma room_grow q n init s e w :
  room q n init s e w → log_ok limits q n (init ++ [grow s e]) [].
Proof.
  intros [[[Hc Hok _ Hsz _] _ _ _ _ _ _ _ _] He Hnext Hroom Hcount].
  apply Forall_app in Hok as [Hok1 Hok2]. apply Forall_cons in Hok2 as [[? ? ? Hidx ?] _].
  pose proof (proj1 (chain_snoc _ _ _ _) Hc) as (Hc1 & Hc2 & Hc3 & Hc4).
  assert (we_index e = seg_next s) as Hi.
  { rewrite Hnext. unfold log_next, seg_next. rewrite log_entries_snoc, length_app, Hc4.
    unfold log_next. lia. }
  assert (bytes_size (seg_bytes (grow s e)) ≤ sl_wal_segment_bytes limits) as Hgrow.
  { rewrite seg_bytes_grow, bytes_size_app. done. }
  split.
  - by apply chain_snoc.
  - apply Forall_app. split; [done|]. apply Forall_singleton. split; simpl; try done.
    + apply Forall_app. split; [done|]. by apply Forall_singleton.
    + apply indexed_from_app. split; [done|]. simpl. done.
  - by left.
  - rewrite files_snoc in Hsz |- *. apply Forall_app in Hsz as [Hsz _]. apply Forall_app.
    split; [done|]. apply Forall_singleton. simpl. by rewrite app_nil_r.
  - rewrite log_entries_snoc in Hcount |- *. simpl. rewrite !length_app in *. simpl. lia.
Qed.

Lemma write_active_run init s bytes w d :
  wl_segments w = seg_info <$> (init ++ [s]) →
  wl_directory w = <[gs_sequence s := d]> (directory_of init []) →
  write_active bytes w
  = (Ret tt, set_directory w (<[gs_sequence s := d ++ bytes]> (directory_of init []))).
Proof.
  intros Hs Hd. unfold write_active, mbind, M_bind. cbn [get_state].
  rewrite Hs, fmap_last, last_snoc. simpl. rewrite Hd, lookup_insert_eq. simpl.
  by rewrite insert_insert_eq.
Qed.

(** ** Rotation *)

(** The part of the object that does not concern the active file. *)
Record held (segs : list Seg) (w : Wal) : Prop := {
  hd_directory : wl_directory w = directory_of segs [];
  hd_segments : wl_segments w = seg_info <$> segs;
  hd_last : wl_last_index w = last_index_of None (log_entries segs);
  hd_count : wl_record_count w = Z.of_nat (length (log_entries segs));
  hd_healthy : wl_healthy w = true }.

Definition new_seg (sequence first_index : Z) : Seg := mkSeg sequence first_index [].

Lemma bytes_size_new_seg sequence first_index : bytes_size (seg_bytes (new_seg sequence first_index)) = 40.
Proof.
  Transparent seg_bytes. unfold seg_bytes, bytes_size. Opaque seg_bytes. simpl.
  by rewrite length_app, length_make_segment_header.
Qed.

Lemma seg_bytes_new_seg sequence first_index :
  seg_bytes (new_seg sequence first_index) = make_segment_header sequence first_index.
Proof.
  Transparent seg_bytes. unfold seg_bytes. Opaque seg_bytes. simpl. by rewrite app_nil_r.
Qed.

Lemma new_seg_log q n segs sequence first_index :
  log_ok limits q n segs [] → chain q n (segs ++ [new_seg sequence first_index]) →
  0 < sequence ≤ u64_max → 0 < first_index < u64_max →
  log_ok limits q n (segs ++ [new_seg sequence first_index]) [].
Proof.
  intros [Hc Hok _ Hsz Hcount] Hchain Hq Hf. destruct Hlimits as [Hseg _ _]. split; [done| |by left| |].
  - apply Forall_app. split; [done|]. apply Forall_singleton. split; simpl; try done.
    rewrite bytes_size_new_seg. lia.
  - rewrite files_snoc. apply Forall_app. split; [done|]. apply Forall_singleton. simpl.
    rewrite app_nil_r, bytes_size_new_seg. lia.
  - rewrite log_entries_snoc. simpl. by rewrite app_nil_r.
Qed.

Lemma create_segment_ok q n segs sequence first_index failing w :
  held segs w → log_ok limits q n (segs ++ [new_seg sequence first_index]) [] →
  mwp (create_segment failing sequence first_index) w
    (λ _ w', ready limits q n (segs ++ [new_seg sequence first_index]) w')
    (λ _ w', failing = true ∧ wl_directory w' = directory_of segs []).
Proof.
  intros [Hd Hs Hl Hr Hh] Hlog. pose proof (lk_chain _ _ _ _ _ Hlog) as Hc.
  pose proof (sequence_fresh _ _ _ _ Hc) as Hfresh. simpl in Hfresh.
  pose proof (lk_segs _ _ _ _ _ Hlog) as Hok. apply Forall_app in Hok as [_ Hok].
  apply Forall_cons in Hok as [[Hsq Hfi _ _ _] _]. simpl in Hsq, Hfi.
  unfold create_segment, fail_when. mgo; try done.
  { rename select (_ || _ = true) into Hz. apply orb_true_iff in Hz as [?%Z.eqb_eq|?%Z.eqb_eq]; lia. }
  { rename select (bool_decide (is_Some _) = true) into Hz. apply bool_decide_eq_true in Hz.
    assert (wl_directory w !! sequence = None) as Hnone by (rewrite Hd; by apply lookup_directory_None).
    rewrite Hnone in Hz. by destruct Hz. }
  split; simpl; try done.
  - rewrite directory_snoc by done. simpl. rewrite app_nil_r, seg_bytes_new_seg, Hd. done.
  - rewrite Hs, fmap_app. simpl. unfold seg_info. rewrite bytes_size_new_seg. done.
  - rewrite bool_decide_false; [done|]. by destruct segs.
  - rewrite log_entries_snoc. simpl. by rewrite app_nil_r.
  - rewrite bool_decide_false by by destruct segs. apply chain_snoc in Hc as (_ & _ & _ & Hf).
    simpl in Hf. f_equal. rewrite Hf. unfold log_next. rewrite log_entries_snoc, length_app. simpl. lia.
  - rewrite last_snoc. symmetry. apply bytes_size_new_seg.
  - rewrite log_entries_snoc, length_app. simpl. lia.
Qed.

Lemma new_seg_room q n segs e w :
  ready limits q n (segs ++ [new_seg (q + Z.of_nat (length segs)) (we_index e)]) w →
  entry_ok limits e →
  Z.of_nat (length (log_entries segs)) + 1 ≤ sl_max_recovery_records limits →
  room q n segs (new_seg (q + Z.of_nat (length segs)) (we_index e)) e w.
Proof.
  intros Hr He Hcount. pose proof (lk_chain _ _ _ _ _ (rd_log _ _ _ _ _ Hr)) as Hc.
  apply chain_snoc in Hc as (_ & _ & _ & Hf). simpl in Hf.
  assert (log_entries (segs ++ [new_seg (q + Z.of_nat (length segs)) (we_index e)]) = log_entries segs)
    as Hle by (rewrite log_entries_snoc; simpl; by rewrite app_nil_r).
  split; try done.
  - unfold log_next. by rewrite Hle.
  - rewrite bytes_size_new_seg. destruct He as [_ _ _ Hp], Hlimits as [_ Hl _].
    unfold bytes_size at 1. rewrite length_encode_record. unfold bytes_size in Hp. lia.
  - by rewrite Hle.
Qed.

Lemma ready_held q n segs w : ready limits q n segs w → held segs w.
Proof. by intros []. Qed.

Lemma held_close segs w : held segs w → held segs (close_active w).
Proof. by intros []. Qed.

Definition sequence_overflow : exn := storage_error "WAL segment sequence would overflow".

Lemma ensure_segment_ok failing e w q n segs :
  ready limits q n segs w → entry_ok limits e →
  (segs ≠ [] → we_index e = log_next n segs) →
  Z.of_nat (length (log_entries segs)) + 1 ≤ sl_max_recovery_records limits →
  mwp (ensure_segment limits failing (we_index e) (bytes_size (encode_record e))) w
    (λ _ w', ∃ q' n' init s, room q' n' init s e w' ∧ log_entries (init ++ [s]) = log_entries segs)
    (λ x w', (failing = false → x = sequence_overflow) ∧ wl_directory w' = directory_of segs []).
Proof.
  intros Hr He Hnext Hcount. pose proof Hr as [Hlog Hd Hs Ha Hl Hx Hsz Hc Hh].
  unfold ensure_segment, fail_when. mstep. mstep. rewrite Ha.
  destruct (last segs) as [s|] eqn:Hlast.
  2:{ apply last_None in Hlast as ->. simpl. rewrite Hs. simpl.
      assert (log_ok limits 1 (we_index e) [new_seg 1 (we_index e)] []) as Hlog1.
      { apply (new_seg_log 1 (we_index e) [] 1 (we_index e)); [|by simpl|lia|apply He].
        split; [done|constructor|by left|constructor|simpl in *; lia]. }
      eapply mwp_mono; [apply (create_segment_ok 1 (we_index e) []); [by eapply ready_held|done]| |].
      2:{ by intros x w' [-> Hdir]. }
      intros u w' Hr'. exists 1, (we_index e), [], (new_seg 1 (we_index e)). split; [|done].
      by apply (new_seg_room 1 (we_index e) []). }
  assert (segs ≠ []) as Hne by by intros ->. specialize (Hnext Hne).
  rewrite bool_decide_false by done. simpl.
  apply last_Some in Hlast as [init ->].
  destruct (Z.leb_spec (bytes_size (encode_record e)) (sl_wal_segment_bytes limits - wl_active_size w)).
  { apply mwp_ret. exists q, n, init, s. split; [|done]. split; try done. lia. }
  rewrite Hs, fmap_last, last_snoc. simpl. mstep. mstep. mstep. mstep. ostep; [done|].
  rename select ((gs_sequence s =? u64_max) = false) into Hmax. apply Z.eqb_neq in Hmax.
  pose proof (lk_chain _ _ _ _ _ Hlog) as Hch. pose proof (proj1 (chain_snoc _ _ _ _) Hch)
    as (_ & _ & Hq & Hf).
  pose proof (lk_segs _ _ _ _ _ Hlog) as Hok. apply Forall_app in Hok as [_ Hok].
  apply Forall_cons in Hok as [[Hsq ? ? ? ?] _].
  assert (gs_sequence s + 1 = q + Z.of_nat (length (init ++ [s]))) as Hseq.
  { rewrite length_app. simpl. lia. }
  rewrite Hseq.
  assert (log_ok limits q n ((init ++ [s])
    ++ [new_seg (q + Z.of_nat (length (init ++ [s]))) (we_index e)]) []) as Hlog'.
  { apply new_seg_log; [done| |lia|apply He]. apply chain_snoc. split_and!; try done.
    intros x. rewrite last_snoc. intros [= <-] Hnil.
    (* an empty segment always has room *)
    assert (seg_bytes s = seg_bytes (new_seg (gs_sequence s) (gs_first s))) as Hb.
    { destruct s as [? ? es]. simpl in Hnil. by subst es. }
    rewrite Hb, bytes_size_new_seg in Hsz. destruct He as [_ _ _ Hp], Hlimits as [_ Hlim _].
    unfold bytes_size in H at 1. rewrite length_encode_record in H. unfold bytes_size in Hp. lia. }
  eapply mwp_mono; [apply create_segment_ok; [by eapply held_close, ready_held|done]| |].
  2:{ by intros x w' [-> Hdir]. }
  intros u w' Hr'. eexists q, n, (init ++ [s]), _. split; [by apply new_seg_room|].
  rewrite (log_entries_snoc (init ++ [s])). simpl. by rewrite app_nil_r.
Qed.

(** ** Writing *)

(** The directory of a log with exactly these entries, up to a torn suffix. *)
Definition holds (d : gmap Z (list byte)) (es : list WalEntry) : Prop :=
  ∃ q n segs torn, log_ok limits q n segs torn ∧ d = directory_of segs torn ∧ log_entries segs = es.

Definition ready_with (w : Wal) (es : list WalEntry) : Prop :=
  ∃ q n segs, ready limits q n segs w ∧ log_entries segs = es.

Lemma ready_with_holds w es : ready_with w es → holds (wl_directory w) es.
Proof.
  intros (q & n & segs & Hr & He). exists q, n, segs, []. split_and!; [apply Hr|apply Hr|done].
Qed.

Lemma room_directory q n init s e w :
  room q n init s e w →
  wl_directory w = <[gs_sequence s := seg_bytes s]> (directory_of init []) ∧
  gs_sequence s ∉ gs_sequence <$> init.
Proof.
  intros [[[Hc _ _ _ _] Hd _ _ _ _ _ _ _] _ _ _ _]. pose proof (sequence_fresh _ _ _ _ Hc) as Hf.
  rewrite Hd, directory_snoc, app_nil_r by done. done.
Qed.

(** A record that was written in full. *)
Lemma write_full q n init s e w :
  room q n init s e w →
  mwp (_ ← write_active (encode_record e);
       w ← get_state;
       let size := wl_active_size w + bytes_size (encode_record e) in
       put_state (mkWal (wl_directory w) (update_last (wl_segments w) size (we_index e))
         (wl_active w) (Some (we_index e))
         (if we_index e =? u64_max then None else Some (we_index e + 1))
         size (wl_record_count w + 1) (wl_healthy w))) w
    (λ _ w', ready limits q n (init ++ [grow s e]) w') (λ _ _, False).
Proof.
  intros Hroom. pose proof (room_grow _ _ _ _ _ _ Hroom) as Hlog.
  destruct (room_directory _ _ _ _ _ _ Hroom) as [Hd Hf].
  destruct Hroom as [[_ _ Hs Ha Hl Hx Hsz Hc Hh] He Hnext Hroom Hcount].
  mstep. unfold mwp at 1. rewrite (write_active_run init s _ _ _ Hs Hd). mgo.
  rewrite last_snoc in Hsz. split; simpl; try done.
  - rewrite directory_snoc by done. by rewrite seg_bytes_grow, app_nil_r.
  - rewrite Hs, !fmap_app. simpl. unfold update_last. rewrite last_snoc, removelast_last. f_equal.
    unfold seg_info. simpl. rewrite seg_bytes_grow, bytes_size_app, Hsz. unfold last_index_of.
    by rewrite last_snoc.
  - rewrite Ha. rewrite !bool_decide_false; [done|by destruct init|by destruct init].
  - rewrite log_entries_snoc. simpl. unfold last_index_of. by rewrite app_assoc, last_snoc.
  - rewrite bool_decide_false by by destruct init. destruct He as [_ _ Hi _].
    destruct (Z.eqb_spec (we_index e) u64_max); [lia|]. f_equal. rewrite Hnext. unfold log_next.
    rewrite !log_entries_snoc. simpl. rewrite !length_app. simpl. lia.
  - rewrite last_snoc, seg_bytes_grow, bytes_size_app. by rewrite Hsz.
  - rewrite Hc, !log_entries_snoc. simpl. rewrite !length_app. simpl. lia.
Qed.

(** A record that was written in part. *)
Lemma write_torn q n init s e w k es :
  room q n init s e w → log_entries (init ++ [s]) = es →
  mwp (write_active (take k (encode_record e))) w
    (λ _ w', ∃ j, holds (wl_directory w') (es ++ take j [e])) (λ _ _, False).
Proof.
  intros Hroom Hes. pose proof (room_grow _ _ _ _ _ _ Hroom) as Hgrow.
  destruct (room_directory _ _ _ _ _ _ Hroom) as [Hd Hf].
  destruct Hroom as [[Hlog _ Hs _ _ _ _ _ _] He Hnext Hsize Hcount].
  unfold mwp. rewrite (write_active_run init s _ _ _ Hs Hd). simpl.
  destruct (decide (length (encode_record e) ≤ k)%nat) as [Hk|Hk].
  - exists 1%nat. rewrite take_ge by done. exists q, n, (init ++ [grow s e]), [].
    split_and!; [done| |].
    + rewrite directory_snoc by done. by rewrite seg_bytes_grow, app_nil_r.
    + rewrite <-Hes, !log_entries_snoc. simpl. by rewrite app_assoc.
  - exists 0%nat. rewrite app_nil_r. exists q, n, (init ++ [s]), (take k (encode_record e)).
    split_and!; [|by rewrite directory_snoc|done].
    destruct Hlog as [Hc Hok _ Hsz Hcnt]. split; try done.
    + destruct (decide (k = 0)%nat) as [->|]; [by left|]. right. exists e, k.
      split_and!; try done; lia.
    + rewrite files_snoc in Hsz |- *. apply Forall_app in Hsz as [Hsz _]. apply Forall_app.
      split; [done|]. apply Forall_singleton. simpl. rewrite bytes_size_app.
      assert (bytes_size (take k (encode_record e)) ≤ bytes_size (encode_record e)); [|lia].
      unfold bytes_size. rewrite length_take. lia.
Qed.

Definition expects (w : Wal) (i : Z) : Prop :=
  wl_expected_append w = None ∨ wl_expected_append w = Some i.

Lemma append_entry_ok fault e w es :
  ready_with w es → entry_ok limits e → expects w (we_index e) →
  Z.of_nat (length es) + 1 ≤ sl_max_recovery_records limits →
  mwp (append_entry limits fault e) w
    (λ _ w', ready_with w' (es ++ [e]) ∧ wl_expected_append w' = Some (we_index e + 1))
    (λ x w', (fault = None → x = sequence_overflow) ∧
       ∃ j, holds (wl_directory w') (es ++ take j [e])).
Proof.
  intros (q & n & segs & Hr & <-) He Hexp Hcount. unfold append_entry. mstep.
  eapply mwp_mono; [apply (ensure_segment_ok _ _ _ _ _ _ Hr He)| |].
  - intros Hne. pose proof (rd_expected _ _ _ _ _ Hr) as Hx. rewrite bool_decide_false in Hx by done.
    destruct Hexp as [Hexp|Hexp]; congruence.
  - done.
  - intros u w' (q' & n' & init & s & Hroom & Hle).
    assert (mwp (_ ← write_active (encode_record e);
       w ← get_state;
       let size := wl_active_size w + bytes_size (encode_record e) in
       put_state (mkWal (wl_directory w) (update_last (wl_segments w) size (we_index e))
         (wl_active w) (Some (we_index e))
         (if we_index e =? u64_max then None else Some (we_index e + 1))
         size (wl_record_count w + 1) (wl_healthy w))) w'
      (λ _ w', ready_with w' (log_entries segs ++ [e]) ∧
         wl_expected_append w' = Some (we_index e + 1))
      (λ x w', (fault = None → x = sequence_overflow) ∧
         ∃ j, holds (wl_directory w') (log_entries segs ++ take j [e]))) as Hfull.
    { eapply mwp_mono; [by apply write_full| |done]. intros v w'' Hr'. split.
      - exists q', n', (init ++ [grow s e]). split; [done|]. rewrite log_entries_snoc. simpl.
        by rewrite app_assoc, <-log_entries_snoc, Hle.
      - rewrite (rd_expected _ _ _ _ _ Hr'). rewrite bool_decide_false by by destruct init.
        f_equal. pose proof (rm_next _ _ _ _ _ _ Hroom) as Hn. rewrite Hn. unfold log_next.
        rewrite !log_entries_snoc. simpl. rewrite !length_app. simpl. lia. }
    destruct fault as [[|k|]|]; [done| |done|done].
    mstep. eapply mwp_mono; [by eapply write_torn| |done]. intros v w'' Hj. by mgo.
  - intros x w' [Hx Hd]. split; [intros ->; by apply Hx|]. exists 0%nat. rewrite app_nil_r. exists q, n, segs, [].
    split_and!; [apply Hr|done|done].
Qed.

Lemma append_entries_ok fault entries position w es :
  ready_with w es → Forall (entry_ok limits) entries →
  (∀ e, head entries = Some e → expects w (we_index e)) →
  (∀ e, head entries = Some e → indexed_from (we_index e) entries) →
  Z.of_nat (length es) + Z.of_nat (length entries) ≤ sl_max_recovery_records limits →
  mwp (append_entries limits fault position entries) w
    (λ _ w', ready_with w' (es ++ entries))
    (λ x w', (fault = None → x = sequence_overflow) ∧
       ∃ j, holds (wl_directory w') (es ++ take j entries)).
Proof.
  revert position w es. induction entries as [|e entries IH];
    intros position w es Hr Hok Hexp Hidx Hcount.
  { simpl. apply mwp_ret. by rewrite app_nil_r. }
  apply Forall_cons in Hok as [He Hok]. simpl length in Hcount. cbn [append_entries]. mstep.
  eapply mwp_mono; [apply append_entry_ok; [done|done|by apply Hexp|lia]| |].
  - intros u w' [Hr' Hexp']. destruct (Hidx e eq_refl) as [_ Hidx'].
    eapply mwp_mono; [apply (IH (S position) w' (es ++ [e]))| |].
    + done. + done.
    + intros e' He'. right. rewrite Hexp'. destruct entries as [|e1 entries]; [done|].
      injection He' as ->. destruct Hidx' as [-> _]. done.
    + intros e' He'. destruct entries as [|e1 entries]; [done|]. injection He' as ->.
      by destruct Hidx' as [Hi ?]; rewrite Hi.
    + rewrite length_app. simpl. lia.
    + intros v w'' Hr''. by rewrite <-app_assoc in Hr''.
    + intros x w'' [Hx [j Hj]]. split; [done|]. exists (S j). simpl. by rewrite <-app_assoc in Hj.
  - intros x w' [Hx [j Hj]]. split.
    + intros ->. by apply Hx.
    + exists (min j 1). destruct j as [|[|j]]; simpl in *; done.
Qed.

(** ** Validation *)

(** The ranges of the C++ types; the largest index is left out. *)
Definition entry_fits (e : WalEntry) : Prop :=
  0 ≤ we_term e ≤ u64_max ∧ 0 ≤ we_index e < u64_max.

Lemma validate_entries_ok entries expected r :
  Forall entry_fits entries →
  foldM (validate_append_entry limits) (Some expected) entries = Ret r →
  Forall (entry_ok limits) entries ∧ indexed_from expected entries.
Proof.
  intros Hfit. revert expected. induction Hfit as [|e entries [Ht Hi] _ IH]; intros expected; [done|].
  cbn [foldM]. intros (r1 & Hv & Hrest)%bind_Ret. unfold validate_append_entry, fail_when in Hv.
  apply bind_Ret in Hv as (_ & H1%throw_when_Ret%negb_false_iff%Z.eqb_eq & Hv).
  apply bind_Ret in Hv as (_ & H2%throw_when_Ret & Hv).
  apply bind_Ret in Hv as (_ & H3%throw_when_Ret & Hv).
  apply orb_false_iff in H2 as [H2%Z.eqb_neq H2'%negb_false_iff%Z.eqb_eq].
  apply orb_false_iff in H3 as [H3%Z.ltb_ge _].
  destruct (Z.eqb_spec (we_index e) u64_max); [lia|]. apply Ret_inj in Hv. subst r1.
  destruct (IH (we_index e + 1)) as [Hok Hidx]; [done|]. split.
  - constructor; [|done]. split; (done || lia).
  - simpl. subst expected. done.
Qed.

Lemma validate_append_ok w entries es :
  ready_with w es → Forall entry_fits entries → validate_append limits w entries = Ret tt →
  Forall (entry_ok limits) entries ∧
  (∀ e, head entries = Some e → expects w (we_index e)) ∧
  (∀ e, head entries = Some e → indexed_from (we_index e) entries) ∧
  Z.of_nat (length es) + Z.of_nat (length entries) ≤ sl_max_recovery_records limits.
Proof.
  intros (q & n & segs & Hr & <-) Hfit. unfold validate_append, fail_when.
  intros (_ & Hcount%throw_when_Ret%Z.ltb_ge & Hv)%bind_Ret.
  apply bind_Ret in Hv as (_ & _ & (r & Hf & _)%bind_Ret).
  rewrite (rd_count _ _ _ _ _ Hr) in Hcount.
  pose proof (lk_count _ _ _ _ _ (rd_log _ _ _ _ _ Hr)) as Hmax.
  destruct entries as [|e entries]; [split_and!; [constructor|done|done|simpl; lia]|].
  assert (∃ x, foldM (validate_append_entry limits) (Some x) (e :: entries) = Ret r ∧
    (wl_expected_append w = None ∨ wl_expected_append w = Some x)) as (x & Hx & Hexp).
  { destruct (wl_expected_append w) as [x|]; [exists x|exists (we_index e)]; split; auto. }
  destruct (validate_entries_ok _ _ _ Hfit Hx) as [Hok Hidx].
  pose proof Hidx as [Hi _]. split_and!; [done| | |].
  - intros e' [= <-]. unfold expects. by rewrite Hi.
  - intros e' [= <-]. by rewrite Hi.
  - rewrite Z.min_r in Hcount by lia. simpl length in *. lia.
Qed.

Lemma ready_with_healthy w es : ready_with w es → wl_healthy w = true.
Proof. by intros (q & n & segs & [] & _). Qed.

(** Writing the entries and synchronising. *)
Lemma append_body_ok fault durability entries w es :
  ready_with w es → Forall entry_fits entries → validate_append limits w entries = Ret tt →
  mwp (_ ← append_entries limits fault 0 entries; synchronize_active fault durability (length entries)) w
    (λ _ w', ready_with w' (es ++ entries))
    (λ x w', (fault = None → x = sequence_overflow) ∧
       ∃ j, holds (wl_directory w') (es ++ take j entries)).
Proof.
  intros Hr Hfit Hv. destruct (validate_append_ok _ _ _ Hr Hfit Hv) as (Hok & Hexp & Hidx & Hcount).
  mstep. eapply mwp_mono; [by apply append_entries_ok| |done].
  intros u w' Hr'. unfold synchronize_active, fail_when. mgo; [|done]. split.
  - intros ->. rename select (_ && _ = true) into Hs. by apply andb_true_iff in Hs as [_ Hs].
  - exists (length entries). rewrite take_ge by done. by apply ready_with_holds.
Qed.

Lemma append_ok fault durability entries w es :
  ready_with w es → Forall entry_fits entries →
  mwp (append limits fault durability entries) w
    (λ _ w', ready_with w' (es ++ entries))
    (λ x w', (w' = w ∧ validate_append limits w entries = Throw x) ∨
       (wl_healthy w' = false ∧ (fault = None → x = sequence_overflow) ∧
        ∃ j, holds (wl_directory w') (es ++ take j entries))).
Proof.
  intros Hr Hfit. unfold append, fail_when. mstep. mstep. mstep. mstep.
  rewrite (ready_with_healthy _ _ Hr). cbn [negb throw_when owp].
  destruct entries as [|e entries]; [apply mwp_ret; by rewrite app_nil_r|].
  mstep. mstep. destruct (validate_append limits w (e :: entries)) as [[]|x] eqn:Hv; cbn [owp]; [|by left].
  pose proof (append_body_ok fault durability _ _ _ Hr Hfit Hv) as Hw.
  apply mwp_on_failure. eapply mwp_mono; [exact Hw|done|].
  intros x w' [Hx Hj]. right. done.
Qed.

Lemma recover_ok w es :
  holds (wl_directory w) es →
  ∃ w', recover limits w = (Ret es, w') ∧ ready_with w' es.
Proof.
  intros (q & n & segs & torn & Hlog & Hd & <-).
  destruct (recover_locked_ok limits Hlimits q n segs torn w Hlog Hd) as (w' & Hrec & Hr).
  exists w'. split; [done|]. by exists q, n, segs.
Qed.
End append.

(** ** Theorems *)

(** Opening a directory that holds a log. *)
Lemma open_wal_ok limits d es :
  wal_limits_ok limits → holds limits d es →
  ∃ w, open_wal limits d = Ret w ∧ ready_with limits w es.
Proof.
  intros Hl Hd. unfold open_wal, fail_when. pose proof Hl as [H1 H2 H3].
  unfold wal_segment_header_size, wal_record_header_size.
  destruct (Z.ltb_spec (sl_wal_segment_bytes limits) (40 + 40)); [lia|].
  destruct (Z.ltb_spec (sl_wal_segment_bytes limits - 40 - 40) (sl_max_wal_payload_bytes limits)); [lia|].
  destruct (Z.eqb_spec (sl_max_recovery_records limits) 0); [lia|]. simpl.
  destruct (recover_ok limits Hl (mkWal d [] false None None 0 0 true) es Hd) as (w & Hr & Hready).
  exists w. unfold recover in Hr. by rewrite Hr.
Qed.

Lemma holds_empty limits : wal_limits_ok limits → holds limits ∅ [].
Proof.
  intros [_ _ H]. exists 1, 1, [], []. split; [|done].
  split; [done|constructor|by left|constructor|simpl; lia].
Qed.

(** ** Truncation *)

Lemma chain_app q n pre post :
  chain q n (pre ++ post) → chain (q + Z.of_nat (length pre)) (log_next n pre) post.
Proof.
  revert q n. induction pre as [|s pre IH]; intros q n; simpl.
  { unfold log_next. simpl. by rewrite !Z.add_0_r. }
  intros (Hq & Hn & _ & Hc). rewrite log_next_cons by done.
  replace (q + Z.of_nat (S (length pre))) with (q + 1 + Z.of_nat (length pre)) by lia. by apply IH.
Qed.

Lemma log_entries_app a b : log_entries (a ++ b) = log_entries a ++ log_entries b.
Proof. unfold log_entries. by rewrite fmap_app, concat_app. Qed.

Lemma files_suffix pre post torn :
  post ≠ [] → ∃ l, files (pre ++ post) torn = l ++ files post torn.
Proof.
  intros Hne. induction pre as [|s pre [l IH]]; [by exists []|].
  exists ((gs_sequence s, seg_bytes s) :: l). simpl app. rewrite files_cons; [by rewrite IH|].
  by destruct pre.
Qed.

Lemma log_ok_suffix limits q n pre post :
  log_ok limits q n (pre ++ post) [] → post ≠ [] →
  log_ok limits (q + Z.of_nat (length pre)) (log_next n pre) post [].
Proof.
  intros [Hc Hok _ Hsz Hcount] Hne. split; [by apply chain_app| |by left| |].
  - by apply Forall_app in Hok as [_ ?].
  - destruct (files_suffix pre post [] Hne) as [l Hl]. rewrite Hl in Hsz.
    by apply Forall_app in Hsz as [_ ?].
  - rewrite log_entries_app, length_app in Hcount. lia.
Qed.

(** The largest index of a segment with records. *)
Lemma seg_maximum limits s :
  seg_ok limits s → gs_entries s ≠ [] →
  last_index_of None (gs_entries s) = Some (seg_next s - 1).
Proof.
  intros [_ _ _ Hidx _] Hne. unfold seg_next, last_index_of.
  destruct (gs_entries s) as [|e es _] using rev_ind; [done|]. rewrite last_snoc.
  apply indexed_from_app in Hidx as [_ [He _]]. f_equal. rewrite He, length_app. simpl. lia.
Qed.

(** The covered segments are the first ones. *)
Lemma covered_prefix limits index q n segs :
  chain q n segs → Forall (seg_ok limits) segs →
  ∃ pre post, segs = pre ++ post ∧ (segs ≠ [] → post ≠ []) ∧
    filter (covered index) (removelast (seg_info <$> segs)) = seg_info <$> pre ∧
    log_next n pre ≤ Z.max n (index + 1).
Proof.
  revert q n. induction segs as [|s segs IH]; intros q n.
  { intros _ _. exists [], []. split_and!; try done. unfold log_next. simpl. lia. }
  intros (Hq & Hn & Hne & Hc) [Hs Hok]%Forall_cons.
  destruct (decide (segs = [])) as [->|Hsegs].
  { exists [], [s]. split_and!; try done. unfold log_next. simpl. lia. }
  assert (removelast (seg_info <$> (s :: segs)) = seg_info s :: removelast (seg_info <$> segs)) as ->.
  { by destruct segs. }
  pose proof (seg_maximum limits s Hs (Hne Hsegs)) as Hmax.
  assert (covered index (seg_info s) = (seg_next s - 1 <=? index)) as Hcov.
  { unfold covered, seg_info. simpl. by rewrite Hmax. }
  destruct (IH _ _ Hc Hok) as (pre & post & -> & Hpost & Hfilter & Hlog).
  rewrite filter_cons, Hcov. destruct (Z.leb_spec (seg_next s - 1) index) as [Hle|Hgt].
  - exists (s :: pre), post. split_and!; [done|by auto| |].
    + rewrite decide_True by done. by rewrite Hfilter.
    + rewrite log_next_cons by done. lia.
  - rewrite decide_False by by intros [].
    assert (pre = []) as ->.
    { destruct pre as [|x pre]; [done|]. exfalso. destruct Hc as (_ & Hf & _ & _).
      apply Forall_cons in Hok as [Hx _].
      rewrite log_next_cons in Hlog by done. unfold log_next in Hlog.
      assert (covered index (seg_info x) = true) as Hcx.
      { assert (seg_info x ∈ filter (covered index) (removelast (seg_info <$> (x :: pre) ++ post)))
          as Hin by (rewrite Hfilter; by left).
        apply list_elem_of_filter in Hin as [Hin _]. by apply Is_true_true. }
      unfold covered, seg_info in Hcx. simpl in Hcx. unfold last_index_of in Hcx.
      destruct (gs_entries x) as [|e es _] eqn:He using rev_ind; [done|]. rewrite last_snoc in Hcx.
      apply Z.leb_le in Hcx. destruct Hx as [_ _ _ Hidx _]. rewrite He in Hidx.
      apply indexed_from_app in Hidx as [_ [Hi _]]. lia. }
    simpl in *. exists [], (s :: post). split_and!; try done. unfold log_next. simpl. lia.
Qed.

Lemma chain_indexed limits q n segs :
  chain q n segs → Forall (seg_ok limits) segs → indexed_from n (log_entries segs).
Proof.
  revert q n. induction segs as [|s segs IH]; intros q n; [done|].
  intros (Hq & Hn & _ & Hc) [Hs Hok]%Forall_cons. rewrite log_entries_cons.
  apply indexed_from_app. rewrite <-Hn. split; [apply Hs|]. by eapply IH.
Qed.

Lemma indexed_bound n es e :
  indexed_from n es → e ∈ es → n ≤ we_index e < n + Z.of_nat (length es).
Proof.
  revert n. induction es as [|x es IH]; intros n; [set_solver|].
  intros [Hx Hes] [->|Hin]%elem_of_cons; simpl length; [lia|]. specialize (IH _ Hes Hin). lia.
Qed.

Lemma entries_below limits q n pre post index :
  log_ok limits q n (pre ++ post) [] → log_next n pre ≤ Z.max n (index + 1) →
  Forall (λ e, we_index e ≤ index) (log_entries pre).
Proof.
  intros [Hc Hok _ _ _] Hnext. pose proof (chain_indexed _ _ _ _ Hc Hok) as Hidx.
  rewrite log_entries_app in Hidx. apply indexed_from_app in Hidx as [Hidx _].
  apply Forall_forall. intros e He. pose proof (indexed_bound _ _ _ Hidx He).
  unfold log_next in Hnext. lia.
Qed.

Lemma delete_directory q n pre post :
  chain q n (pre ++ post) → post ≠ [] →
  foldl (λ d s, delete (sg_sequence s) d) (directory_of (pre ++ post) []) (seg_info <$> pre)
  = directory_of post [].
Proof.
  intros Hc Hne. apply map_eq. intros k. rewrite lookup_foldl_delete.
  pose proof (chain_NoDup _ _ _ Hc) as Hnd. rewrite fmap_app in Hnd.
  apply NoDup_app in Hnd as (_ & Hdisj & _). pose proof (chain_app _ _ _ _ Hc) as Hc'.
  rewrite <-list_fmap_compose.
  assert ((sg_sequence ∘ seg_info) <$> pre = gs_sequence <$> pre) as -> by done.
  destruct (decide (k ∈ gs_sequence <$> pre)) as [Hin|Hin].
  - symmetry. apply lookup_directory_None. by apply Hdisj.
  - apply option_eq. intros b.
    rewrite (lookup_directory _ _ _ _ _ _ Hc), (lookup_directory _ _ _ _ _ _ Hc').
    rewrite !elem_of_files. split.
    + intros (s & [Hs|Hs]%elem_of_app & -> & ->); [|by eauto].
      destruct Hin. by apply list_elem_of_fmap_2.
    + intros (s & Hs & -> & ->). exists s. rewrite elem_of_app. auto.
Qed.

(** Recovery after a torn write loses nothing that was written completely. For
    every directory that holds a log whose last file ends in any proper prefix of
    the next record, [recover] returns exactly the entries of the log, cuts the
    torn bytes off the file, and leaves the log ready to append. *)
Theorem recover_ignores_torn_suffix (limits : StorageLimits) (q n : Z) (segs : list Seg)
    (torn : list byte) (w : Wal) :
  wal_limits_ok limits → log_ok limits q n segs torn → wl_directory w = directory_of segs torn →
  ∃ w', recover limits w = (Ret (log_entries segs), w') ∧
    wl_directory w' = directory_of segs [] ∧ wl_healthy w' = true ∧
    recover limits w' = (Ret (log_entries segs), w').
Proof.
  intros Hl Hlog Hd. destruct (recover_locked_ok limits Hl q n segs torn w Hlog Hd) as (w' & Hr & Hready).
  exists w'. split; [done|]. split; [apply Hready|]. split; [apply Hready|].
  destruct (recover_locked_ok limits Hl q n segs [] w') as (w'' & Hr' & Hready');
    [apply Hready|apply Hready|].
  unfold recover. rewrite Hr'. f_equal.
  destruct Hready as [_ ? ? ? ? ? ? ? ?], Hready' as [_ ? ? ? ? ? ? ? ?].
  destruct w', w''; simpl in *; congruence.
Qed.

(** C11: What [append] acknowledged is recovered, and a failed [append] leaves a
    prefix. On a log that is ready with entries [es], with whichever file operation
    failing and however many bytes of a record reaching the file: if the call
    returns, a later [recover] returns [es] followed by all new entries; if it
    throws, either validation refused the entries and nothing changed, or the log
    refuses to append until [recover], which succeeds and returns [es] followed by
    a prefix of the new entries. Without a failing file operation, entries that
    pass validation are refused only when segment numbers are exhausted. *)
Theorem append_then_recover (limits : StorageLimits) (fault : option (nat * AppendFault))
    (durability : Durability) (entries es : list WalEntry) (w w' : Wal) (r : outcome unit) :
  wal_limits_ok limits → ready_with limits w es → Forall entry_fits entries →
  append limits fault durability entries w = (r, w') →
  match r with
  | Ret _ => ready_with limits w' (es ++ entries) ∧
      ∃ w'', recover limits w' = (Ret (es ++ entries), w'') ∧ ready_with limits w'' (es ++ entries)
  | Throw e =>
      (w' = w ∧ validate_append limits w entries = Throw e) ∨
      (wl_healthy w' = false ∧ (fault = None → e = sequence_overflow) ∧
       ∃ j w'', recover limits w' = (Ret (es ++ take j entries), w'') ∧
         ready_with limits w'' (es ++ take j entries))
  end.
Proof.
  intros Hl Hr Hfit Hrun. pose proof (append_ok limits Hl fault durability entries w es Hr Hfit) as Hw.
  unfold mwp in Hw. rewrite Hrun in Hw. destruct r as [u|e].
  - split; [done|]. apply recover_ok; [done|]. by apply ready_with_holds.
  - destruct Hw as [Hw|(Hh & Hx & j & Hj)]; [by left|right]. split_and!; [done|done|]. exists j.
    by apply recover_ok.
Qed.

(** The removal loop removes a prefix of the list, all of it unless a call fails. *)
Lemma remove_segments_run fault position removals w :
  ∃ r k, remove_segments fault position removals w
      = (r, set_directory w (foldl (λ d s, delete (sg_sequence s) d) (wl_directory w)
          (take k removals))) ∧
    (r = Ret tt ∧ k = length removals ∨ fault ≠ None ∧ ∃ e, r = Throw e).
Proof.
  revert position w. induction removals as [|s removals IH]; intros position w.
  { exists (Ret tt), 0%nat. split; [by destruct w|by left]. }
  cbn [remove_segments]. unfold mbind, M_bind, fail_when. cbn [lift].
  destruct (bool_decide_reflect (fault = Some (position, fault_remove))) as [->|_];
    cbn [throw_when get_state put_state lift].
  { exists (Throw (storage_error "system call failed")), 0%nat. split; [by destruct w|by right; eauto]. }
  destruct (bool_decide_reflect (fault = Some (position, fault_synchronize_directory))) as [->|_];
    cbn [throw_when].
  { exists (Throw (storage_error "system call failed")), 1%nat. split; [done|by right; eauto]. }
  destruct (IH (S position) (set_directory w (delete (sg_sequence s) (wl_directory w))))
    as (r & k & Hrun & Hr). exists r, (S k). rewrite Hrun. split; [done|].
  destruct Hr as [[-> ->]|[Hne He]]; [by left|by right].
Qed.

(** Recovery after any number of the covered segments were removed. *)
Lemma recover_truncated limits index q n pre post k w :
  wal_limits_ok limits → log_ok limits q n (pre ++ post) [] → post ≠ [] →
  log_next n pre ≤ Z.max n (index + 1) →
  wl_directory w = foldl (λ d s, delete (sg_sequence s) d) (directory_of (pre ++ post) [])
    (take k (seg_info <$> pre)) →
  ∃ removed kept w', log_entries (pre ++ post) = removed ++ kept ∧
    Forall (λ e, we_index e ≤ index) removed ∧
    recover_locked limits w = (Ret kept, w') ∧ ready_with limits w' kept.
Proof.
  intros Hl Hlog Hne Hnext Hd.
  assert (pre ++ post = take k pre ++ (drop k pre ++ post)) as Hsplit
    by by rewrite app_assoc, take_drop.
  assert (drop k pre ++ post ≠ []) as Hne' by by destruct (drop k pre).
  pose proof (entries_below _ _ _ _ _ _ Hlog Hnext) as Hbelow.
  rewrite <-(take_drop k pre), log_entries_app in Hbelow at 1. apply Forall_app in Hbelow as [Hbelow _].
  rewrite <-fmap_take, Hsplit, (delete_directory q n) in Hd;
    [|by rewrite <-Hsplit; apply Hlog|done].
  destruct (recover_locked_ok limits Hl (q + Z.of_nat (length (take k pre)))
    (log_next n (take k pre)) (drop k pre ++ post) [] w) as (w' & Hrec & Hr).
  { apply log_ok_suffix; [by rewrite <-Hsplit|done]. }
  { done. }
  exists (log_entries (take k pre)), (log_entries (drop k pre ++ post)), w'. split_and!; [|done|done|].
  - by rewrite Hsplit, log_entries_app.
  - by eexists _, _, _.
Qed.

(** C34: Truncation below a snapshot keeps every entry the snapshot does not cover,
    also when it fails midway. On a ready log, [truncate_through] with an index
    covered by the latest snapshot either succeeds and leaves a ready log, or, when
    the removal of a file or the synchronisation of the directory after it fails,
    leaves a log that refuses to append until [recover]; the entries left, or recovered then, are a suffix of the log, and
    every entry removed is at or below that index. *)
Theorem truncate_keeps_uncovered_entries (limits : StorageLimits)
    (fault : option (nat * RemovalFault)) (index snapshot_index : Z) (es : list WalEntry) (w : Wal) :
  wal_limits_ok limits → ready_with limits w es → 0 < index ≤ snapshot_index →
  ∃ removed kept w' w'', es = removed ++ kept ∧ Forall (λ e, we_index e ≤ index) removed ∧
    recover limits w' = (Ret kept, w'') ∧ ready_with limits w'' kept ∧
    (truncate_through limits fault index (Ret (Some snapshot_index)) w = (Ret tt, w') ∧
       ready_with limits w' kept
     ∨ fault ≠ None ∧ wl_healthy w' = false ∧
       ∃ e, truncate_through limits fault index (Ret (Some snapshot_index)) w = (Throw e, w')).
Proof.
  intros Hl (q & n & segs & Hr & <-) Hindex.
  destruct (recover_locked_ok limits Hl q n segs [] w) as (w1 & Hrec & Hr1); [apply Hr|apply Hr|].
  unfold truncate_through, fail_when, mbind, M_bind. cbn [lift].
  destruct (Z.eqb_spec index 0); [lia|]. destruct (Z.ltb_spec snapshot_index index); [lia|].
  cbn [throw_when]. rewrite Hrec. cbn [get_state].
  pose proof Hr1 as [Hlog Hd Hs _ _ _ _ _ _]. rewrite Hs, length_fmap.
  destruct (Nat.ltb_spec (length segs) 2) as [Hlt|Hge].
  { assert (ready_with limits w1 (log_entries segs)) as Hw1 by by exists q, n, segs.
    destruct (recover_ok limits Hl w1 (log_entries segs)) as (w2 & Hrec2 & Hw2);
      [by apply ready_with_holds|].
    exists [], (log_entries segs), w1, w2. split_and!; try done. by left. }
  destruct (covered_prefix limits index q n segs (lk_chain _ _ _ _ _ Hlog) (lk_segs _ _ _ _ _ Hlog))
    as (pre & post & -> & Hpost & -> & Hnext).
  assert (post ≠ []) as Hne by (apply Hpost; intros Hnil; rewrite Hnil in Hge; simpl in Hge; lia).
  cbn [put_state]. unfold on_failure.
  destruct (remove_segments_run fault 0 (seg_info <$> pre) (close_active w1)) as (r & k & -> & Hk).
  set (w2 := set_directory _ _).
  assert (∀ w3, wl_directory w3 = wl_directory w2 → ∃ removed kept w',
    log_entries (pre ++ post) = removed ++ kept ∧ Forall (λ e, we_index e ≤ index) removed ∧
    recover_locked limits w3 = (Ret kept, w') ∧ ready_with limits w' kept) as Hrecover.
  { intros w3 Hw3. apply (recover_truncated limits index q n _ _ k); try done.
    rewrite Hw3. subst w2. simpl. by rewrite Hd. }
  destruct Hk as [[-> _]|[Hf [e ->]]].
  - destruct (Hrecover w2 eq_refl) as (removed & kept & w' & -> & Hrm & -> & Hw').
    destruct (recover_ok limits Hl w' kept) as (w'' & Hrec2 & Hw''); [by apply ready_with_holds|].
    exists removed, kept, w', w''. split_and!; try done. by left.
  - destruct (Hrecover (mark_unhealthy w2) eq_refl) as (removed & kept & w' & -> & Hrm & Hrec2 & Hw').
    exists removed, kept, (mark_unhealthy w2), w'. split_and!; try done. right. split_and!; eauto.
Qed.

(** ** Instances *)

Definition small_limits : StorageLimits := mkStorageLimits 130 40 100 1000 100 10.

Lemma small_limits_ok : wal_limits_ok small_limits.
Proof. split; simpl; lia. Qed.

Definition small_entry (index : Z) : WalEntry :=
  mkWalEntry command_record_type 1 index [Init.Byte.x01; Init.Byte.x02].

Lemma small_entry_ok index : 0 < index < u64_max → entry_ok small_limits (small_entry index).
Proof. intros Hi. split; simpl; [done|lia|done|unfold bytes_size; simpl; lia]. Qed.

Lemma small_entries_fit : Forall entry_fits [small_entry 1; small_entry 2; small_entry 3].
Proof. repeat constructor; simpl; lia. Qed.

Definition one_record : list Seg := [mkSeg 1 1 [small_entry 1]].
Definition torn_record : list byte := take 41 (encode_record (small_entry 2)).

Lemma torn_log_ok : log_ok small_limits 1 1 one_record torn_record.
Proof.
  split; simpl; [done| | | |lia].
  - constructor; [|constructor]. split; simpl; [lia|lia| |done|].
    + constructor; [|constructor]. apply small_entry_ok. lia.
    + vm_compute. discriminate.
  - right. exists (small_entry 2), 41%nat. split; [apply small_entry_ok; lia|].
    split; [done|]. split; [|done]. rewrite length_encode_record. simpl. lia.
  - constructor; [|constructor]. vm_compute. discriminate.
Qed.

Lemma recover_ignores_torn_suffix_witness :
  ∃ w', recover small_limits (mkWal (directory_of one_record torn_record) [] false None None 0 0 true)
      = (Ret [small_entry 1], w') ∧
    wl_directory w' = directory_of one_record [] ∧ wl_healthy w' = true ∧
    recover small_limits w' = (Ret [small_entry 1], w').
Proof.
  apply (recover_ignores_torn_suffix small_limits 1 1 one_record torn_record);
    [apply small_limits_ok|apply torn_log_ok|reflexivity].
Defined.

Lemma append_then_recover_witness :
  ∃ w w'', ready_with small_limits w [] ∧
    let w' := (append small_limits None synchronize [small_entry 1; small_entry 2; small_entry 3] w).2 in
    recover small_limits w' = (Ret [small_entry 1; small_entry 2; small_entry 3], w'').
Proof.
  destruct (open_wal_ok small_limits ∅ [] small_limits_ok (holds_empty _ small_limits_ok))
    as (w & Ho & Hr).
  vm_compute in Ho. apply Ret_inj in Ho. exists w.
  destruct (append small_limits None synchronize [small_entry 1; small_entry 2; small_entry 3] w) as [r w'] eqn:Ha.
  pose proof (append_then_recover small_limits None synchronize [small_entry 1; small_entry 2; small_entry 3] []
    w w' r small_limits_ok Hr small_entries_fit Ha) as Hw.
  subst w. vm_compute in Ha. injection Ha as <- <-.
  destruct Hw as (_ & w'' & Hw & _). exists w''. split; [exact Hr|]. exact Hw.
Defined.

(** Three entries in two segments. *)
Lemma three_entries_ready :
  ∃ w, ready_with small_limits w [small_entry 1; small_entry 2; small_entry 3].
Proof.
  destruct (open_wal_ok small_limits ∅ [] small_limits_ok (holds_empty _ small_limits_ok))
    as (w & Ho & Hr).
  vm_compute in Ho. apply Ret_inj in Ho.
  pose proof (append_ok small_limits small_limits_ok None synchronize
    [small_entry 1; small_entry 2; small_entry 3] w [] Hr small_entries_fit) as Hw.
  unfold mwp in Hw.
  destruct (append small_limits None synchronize [small_entry 1; small_entry 2; small_entry 3] w)
    as [[u|e] w'] eqn:Ha.
  - by exists w'.
  - subst w. vm_compute in Ha. discriminate.
Qed.

Lemma truncate_keeps_uncovered_entries_witness :
  ∃ w removed kept w' w'', ready_with small_limits w [small_entry 1; small_entry 2; small_entry 3] ∧
    truncate_through small_limits None 2 (Ret (Some 2)) w = (Ret tt, w') ∧
    recover small_limits w' = (Ret kept, w'') ∧
    [small_entry 1; small_entry 2; small_entry 3] = removed ++ kept.
Proof.
  destruct three_entries_ready as [w Hr].
  destruct (truncate_keeps_uncovered_entries small_limits None 2 2 _ w small_limits_ok Hr ltac:(lia))
    as (removed & kept & w' & w'' & He & _ & Hrec & _ & Ht).
  exists w, removed, kept, w', w''. split; [exact Hr|].
  destruct Ht as [[Ht _]|[Hf _]]; [|by destruct Hf]. split; [exact Ht|]. split; [exact Hrec|exact He].
Defined.

(** ** A failed recovery *)

(** A file whose header fails the checks of [recover] fails them also behind another
    segment. *)
Lemma read_segment_header_fails limits sequence bytes expected e :
  read_segment_header limits sequence bytes None = Throw e →
  ∃ e', read_segment_header limits sequence bytes expected = Throw e'.
Proof.
  intros He. destruct (read_segment_header limits sequence bytes expected) as [i|e'] eqn:Hr; [|by eauto].
  exfalso. revert He Hr. unfold read_segment_header, fail_when, mbind, outcome_bind. simpl.
  repeat case_match; intros; simplify_eq.
Qed.

(** [segment_paths] lists the files in order. *)
Lemma segment_paths_entries d paths : segment_paths d = Ret paths → paths = entries d.
Proof.
  unfold segment_paths. intros (? & _ & H)%bind_Ret. destruct (entries d) as [|[q b] rest].
  - by injection H.
  - by apply bind_Ret in H as (? & _ & [= <-]).
Qed.

(** All files of a directory that starts with segment [q]. *)
Lemma entries_from (d : gmap Z (list byte)) q bytes rest k v :
  entries d = (q, bytes) :: rest → (k, v) ∈ entries d → q ≤ k.
Proof.
  intros He. pose proof (sorted_entries d) as Hs. rewrite He in *.
  apply StronglySorted_inv in Hs as [_ Hs]. intros [[= -> ->]|Hin]%elem_of_cons; [done|].
  by apply (proj1 (Forall_forall _ _) Hs) in Hin.
Qed.

Lemma entries_insert_first (d : gmap Z (list byte)) q bytes rest b :
  entries d = (q, bytes) :: rest → 1 < q →
  d !! 1 = None ∧ entries (<[1 := b]> d) = (1, b) :: (q, bytes) :: rest.
Proof.
  intros He Hq.
  assert (∀ k v, (k, v) ∈ entries d → 1 < k) as Hall.
  { intros k v Hin. pose proof (entries_from _ _ _ _ _ _ He Hin). lia. }
  assert (d !! 1 = None) as Hn.
  { destruct (d !! 1) as [v|] eqn:Hv; [|done]. apply elem_of_entries in Hv. by apply Hall in Hv. }
  split; [done|]. rewrite <-He. apply entries_unique.
  - constructor; [apply sorted_entries|]. apply Forall_forall. intros [k v] Hin%Hall.
    change (1 ≤ k). lia.
  - simpl. constructor; [|apply NoDup_entries]. intros ([k v] & Hk & Hin%Hall)%list_elem_of_fmap.
    simpl in *. lia.
  - simpl. by rewrite entries_to_map.
Qed.

(** The object after a recovery that could not read the header of the first file. *)
Lemma recover_fails_first limits q bytes rest e w :
  segment_paths (wl_directory w) = Ret ((q, bytes) :: rest) →
  read_segment_header limits q bytes None = Throw e →
  recover limits w = (Throw e, mkWal (wl_directory w) [] false None None 0 0 (wl_healthy w)).
Proof.
  intros Hp Hh. unfold recover, recover_locked, mbind, M_bind, get_state, put_state, lift.
  rewrite Hp. cbn [recover_segments]. unfold mbind, M_bind, with_recovery, recover_segment,
    mbind, M_bind, get_state, lift. simpl. by rewrite Hh.
Qed.

(** A recovery whose second file cannot be read fails, whatever the first holds. *)
Lemma recover_fails_second limits w q1 bytes1 q bytes rest e :
  entries (wl_directory w) = (q1, bytes1) :: (q, bytes) :: rest →
  read_segment_header limits q bytes None = Throw e → ∃ e', (recover limits w).1 = Throw e'.
Proof.
  intros Hent Hx. unfold recover, recover_locked, mbind, M_bind, get_state, put_state, lift.
  destruct (segment_paths (wl_directory w)) as [paths|x] eqn:Hp; [|by eexists].
  apply segment_paths_entries in Hp as ->. rewrite Hent. cbn [recover_segments].
  unfold mbind, M_bind, with_recovery.
  destruct (recover_segment limits _ q1 bytes1 _) as [[[segment b]|x] rc]; [|by eexists].
  cbn. unfold recover_segment at 1, mbind, M_bind, get_state, lift. cbn.
  destruct (read_segment_header_fails limits q bytes (rc_expected rc) e Hx) as [e' He'].
  rewrite He'. by eexists.
Qed.

(** An object without segments takes any entry into a new first segment. *)
Lemma append_first limits durability entry d :
  wal_limits_ok limits → entry_ok limits entry → d !! 1 = None →
  ∃ w', append limits None durability [entry] (mkWal d [] false None None 0 0 true) = (Ret tt, w') ∧
    wl_directory w' = <[1 := make_segment_header 1 (we_index entry) ++ encode_record entry]> d.
Proof.
  intros [[L1 L2] [L3 L4] L5] [E1 E2 [E3 E4] E5] Hn.
  set (w := mkWal d [] false None None 0 0 true).
  assert (validate_append limits w [entry] = Ret tt) as Hv.
  { unfold validate_append, fail_when. cbn [wl_record_count wl_expected_append wl_last_index w length].
    destruct (Z.ltb_spec (sl_max_recovery_records limits - Z.min (sl_max_recovery_records limits) 0)
      (Z.of_nat 1)); [lia|]. simpl. unfold validate_append_entry, fail_when.
    rewrite E1, !Z.eqb_refl. simpl. destruct (Z.eqb_spec (we_index entry) 0); [lia|]. simpl.
    unfold wal_segment_header_size, wal_record_header_size.
    destruct (Z.ltb_spec (sl_max_wal_payload_bytes limits) (bytes_size (we_payload entry))); [lia|].
    destruct (Z.ltb_spec (sl_wal_segment_bytes limits - 40) (40 + bytes_size (we_payload entry))); [lia|].
    done. }
  unfold append, fail_when, mbind, M_bind, get_state. cbn [lift w wl_healthy negb throw_when].
  fold w. rewrite Hv. unfold on_failure. cbn [append_entries fault_of]. 
  unfold append_entry, ensure_segment, create_segment, mbind, M_bind, get_state, put_state, fail_when.
  cbn. destruct (Z.eqb_spec (we_index entry) 0); [lia|]. rewrite Hn. cbn.
  rewrite (bool_decide_false (None = Some fault_create)) by done. cbn.
  unfold write_active, mbind, M_bind, get_state, put_state. cbn.
  unfold synchronize_active, fail_when. cbn.
  rewrite (bool_decide_false (None = Some fault_synchronize)), andb_false_r by done. cbn.
  eexists. split; [reflexivity|]. cbn. by rewrite lookup_insert_eq, insert_insert_eq.
Qed.

(** C40: After a [recover] that could not read the header of the first file, the log
    still accepts writes.  For every healthy log whose first remaining segment is
    not segment 1 (earlier ones were truncated) and has an unreadable header, and
    for every well-formed entry, whatever its index: [recover] throws but leaves the
    object healthy and without segments, [append] then acknowledges the entry into
    a new segment 1, and every later [recover] throws. *)
Theorem failed_recover_still_appends (limits : StorageLimits) (durability : Durability) (q : Z)
    (bytes : list byte) (rest : list (Z * list byte)) (e : exn) (entry : WalEntry) (w : Wal) :
  wal_limits_ok limits → wl_healthy w = true → 1 < q →
  segment_paths (wl_directory w) = Ret ((q, bytes) :: rest) →
  read_segment_header limits q bytes None = Throw e → entry_ok limits entry →
  ∃ w1 w2 e2, recover limits w = (Throw e, w1) ∧ wl_healthy w1 = true ∧
    append limits None durability [entry] w1 = (Ret tt, w2) ∧
    wl_directory w2 =
      <[1 := make_segment_header 1 (we_index entry) ++ encode_record entry]> (wl_directory w) ∧
    (recover limits w2).1 = Throw e2.
Proof.
  intros Hl Hh Hq Hp Hx He. pose proof (segment_paths_entries _ _ Hp) as Hent.
  destruct (entries_insert_first (wl_directory w) q bytes rest
    (make_segment_header 1 (we_index entry) ++ encode_record entry) (eq_sym Hent) Hq) as [Hn Hent2].
  pose proof (recover_fails_first _ _ _ _ _ _ Hp Hx) as Hrec. rewrite Hh in Hrec.
  destruct (append_first limits durability entry (wl_directory w) Hl He Hn) as (w2 & Ha & Hd).
  destruct (recover_fails_second limits w2 1 (make_segment_header 1 (we_index entry) ++ encode_record entry)
    q bytes rest e) as [e2 He2]; [by rewrite Hd|done|].
  by exists (mkWal (wl_directory w) [] false None None 0 0 true), w2, e2.
Qed.

(** Such a log arises: three entries fill two segments, the first segment is
    truncated, and the file of the second is emptied. *)
Definition damaged_wal : outcome Wal :=
  w ← open_wal small_limits ∅;
  let w1 := (append small_limits None synchronize
    [small_entry 1; small_entry 2; small_entry 3] w).2 in
  let w2 := (truncate_through small_limits None 2 (Ret (Some 2)) w1).2 in
  mret (set_directory w2 ((λ _, []) <$> wl_directory w2)).

Lemma damaged_wal_reached :
  ∃ w, damaged_wal = Ret w ∧ wl_healthy w = true ∧ segment_paths (wl_directory w) = Ret [(2, [])].
Proof. eexists. split; [vm_compute; reflexivity|]. split; vm_compute; reflexivity. Qed.

Lemma failed_recover_still_appends_witness :
  ∃ w w1 w2 e e2, damaged_wal = Ret w ∧ recover small_limits w = (Throw e, w1) ∧
    append small_limits None synchronize [small_entry 77] w1 = (Ret tt, w2) ∧
    (recover small_limits w2).1 = Throw e2.
Proof.
  destruct damaged_wal_reached as (w & Hw & Hh & Hp).
  assert (1 < 2) as Hq by lia. assert (0 < 77 < u64_max) as Hi by lia.
  destruct (failed_recover_still_appends small_limits synchronize 2 [] []
    (storage_error "WAL segment header is truncated") (small_entry 77) w small_limits_ok Hh Hq Hp
    eq_refl (small_entry_ok 77 Hi)) as (w1 & w2 & e2 & Hr & _ & Ha & _ & He).
  exists w, w1, w2, (storage_error "WAL segment header is truncated"), e2.
  split; [exact Hw|]. split; [exact Hr|]. split; [exact Ha|exact He].
Defined.

(** ** The record loop ends *)

Lemma read_record_header_length limits header expected first index term i payload checksum :
  read_record_header limits header expected first index = Ret (term, i, payload, checksum) → 0 ≤ payload.
Proof.
  unfold read_record_header. intros H.
  apply bind_Ret in H as (v & _ & H). apply bind_Ret in H as (t & _ & H). apply bind_Ret in H as (z & _ & H).
  apply bind_Ret in H as (_ & _ & H). apply bind_Ret in H as (tm & _ & H). apply bind_Ret in H as (ix & _ & H).
  apply bind_Ret in H as (pl & Hp%read_le_bound & H). apply bind_Ret in H as (cs & _ & H).
  do 3 apply bind_Ret in H as (_ & _ & H). apply Ret_inj in H. injection H as _ _ <- _. lia.
Qed.

Lemma scan_records_fuel limits is_final first_index fuel fuel' rest offset maximum_index rc :
  (length rest ≤ 40 * fuel)%nat → (length rest ≤ 40 * fuel')%nat →
  scan_records fuel limits is_final first_index rest offset maximum_index rc
  = scan_records fuel' limits is_final first_index rest offset maximum_index rc.
Proof.
  revert fuel' rest offset maximum_index rc.
  induction fuel as [|fuel IH]; intros [|fuel'] rest offset maximum_index rc Hf Hf'; [done|..].
  1,2: destruct rest; [done|simpl in *; lia].
  cbn [scan_records]. destruct (bool_decide (rest = [])) eqn:Hr; [done|].
  destruct (Z.ltb_spec (bytes_size rest) wal_record_header_size) as [|Hlong]; [done|].
  unfold mbind, M_bind, get_state, lift.
  destruct (read_record_header _ _ _ _ _) as [[[[term index] payload] checksum]|e] eqn:Hh; [|done].
  apply read_record_header_length in Hh.
  destruct (checked_add wal_record_header_size payload) as [size|] eqn:Ha; [|done].
  unfold checked_add in Ha. destruct (_ <? _); [done|]. injection Ha as <-.
  destruct (Z.ltb_spec (bytes_size rest) (wal_record_header_size + payload)) as [|Hfit]; [done|].
  destruct (fail_when _ _) as [[]|e]; [|done]. destruct (fail_when _ _) as [[]|e]; [|done].
  unfold put_state. destruct (fail_when _ _) as [[]|e]; [|done].
  unfold bytes_size, wal_record_header_size in *.
  apply IH; rewrite length_drop; lia.
Qed.

(** C28: The scan of a segment ends.  On any bytes, valid or not, the record loop of
    [recover] makes at most one round per forty bytes behind the segment header and
    one more: with room for that many rounds or for any greater number it gives the
    same result and leaves the same state as with the room [recover] gives it. *)
Theorem segment_scan_terminates (limits : StorageLimits) (is_final : bool) (first_index : Z)
    (bytes : list byte) (offset extra : nat) (maximum_index : option Z) (rc : Recovery) :
  scan_records (length (drop 40 bytes) `div` 40 + 1 + extra) limits is_final first_index
    (drop 40 bytes) offset maximum_index rc
  = scan_records (length bytes) limits is_final first_index (drop 40 bytes) offset maximum_index rc.
Proof.
  apply scan_records_fuel; [|rewrite length_drop; lia].
  pose proof (Nat.div_mod_eq (length (drop 40 bytes)) 40).
  pose proof (Nat.mod_upper_bound (length (drop 40 bytes)) 40). lia.
Qed.
