(* ===== verification/SnapshotFile.v ===== *)
(** * Snapshot files

    [validate_snapshot_value], [encode_snapshot] and [decode_snapshot] of
    [durable_storage.cpp]; decoding what was encoded gives the snapshot back. *)

From S2P Require Import Prelude OrdMap Bytes StoreTypes RaftTypes Codec HardState Wal.
#[local] Open Scope Z_scope.

Record Snapshot := mkSnapshot {
  sn_metadata : SnapshotMetadata;
  sn_state : list byte;
  sn_checksum : Z }.

Definition snapshot_header_size : Z := 68.
Definition snapshot_magic : list byte := from_string "KURASNP1".

(** [node.value == 0 || !members.insert(node.value).second] *)
Definition insert_member (members : gset Z) (node : Z) : outcome (gset Z) :=
  _ ← fail_when ((node =? 0) || bool_decide (node ∈ members))
    "snapshot membership contains zero or duplicate node ID";
  mret ({[node]} ∪ members).

(** The size of a file with [members] member IDs and [state] bytes of state. *)
Definition snapshot_size (members state : Z) : option Z :=
  member_bytes ← checked_multiply members 8;
  total ← checked_add snapshot_header_size member_bytes;
  checked_add total state.

Definition members_exceed (limits : StorageLimits) (voters learners : Z) : bool :=
  (sl_max_snapshot_members limits <? voters) || (sl_max_snapshot_members limits <? learners)
  || (sl_max_snapshot_members limits - learners <? voters).

Definition validate_snapshot_value (snapshot : Snapshot) (limits : StorageLimits) : outcome unit :=
  let metadata := sn_metadata snapshot in
  let voters := mb_voters (sm_membership metadata) in
  let learners := mb_learners (sm_membership metadata) in
  _ ← fail_when (negb (sm_format_version metadata =? storage_format_version))
    "snapshot format_version must be 1";
  _ ← fail_when (sm_last_included_index metadata =? 0)
    "snapshot last-included index must be nonzero";
  _ ← fail_when ((sm_store_revision metadata <? 0) || (sm_compaction_revision metadata <? 0)
                 || (sm_store_revision metadata <? sm_compaction_revision metadata))
    "snapshot revisions are invalid";
  _ ← fail_when (members_exceed limits (Z.of_nat (length voters)) (Z.of_nat (length learners)))
    "snapshot membership exceeds configured limit";
  members ← foldM insert_member ∅ voters;
  members ← foldM insert_member members learners;
  fail_when (match snapshot_size (Z.of_nat (size members)) (bytes_size (sn_state snapshot)) with
             | Some total => sl_max_snapshot_bytes limits <? total
             | None => true
             end) "snapshot exceeds configured size limit".

Definition encode_members (nodes : list Z) : list byte := concat (append_le 8 <$> nodes).

Definition encode_snapshot (snapshot : Snapshot) (limits : StorageLimits) : outcome (list byte) :=
  _ ← validate_snapshot_value snapshot limits;
  let metadata := sn_metadata snapshot in
  let voters := mb_voters (sm_membership metadata) in
  let learners := mb_learners (sm_membership metadata) in
  let body := encode_members voters ++ encode_members learners ++ sn_state snapshot in
  let bytes := snapshot_magic
    ++ append_le 2 storage_format_version
    ++ append_le 2 snapshot_header_size
    ++ append_le 4 0
    ++ append_le 8 (sm_last_included_index metadata)
    ++ append_le 8 (sm_last_included_term metadata)
    ++ append_le 8 (sm_store_revision metadata)
    ++ append_le 8 (sm_compaction_revision metadata)
    ++ append_le 4 (Z.of_nat (length voters))
    ++ append_le 4 (Z.of_nat (length learners))
    ++ append_le 8 (bytes_size (sn_state snapshot)) in
  mret (bytes ++ append_le 4 (crc32c (bytes ++ body)) ++ body).

(** [for (i = 0; i < count; ++i)]: member IDs from [offset] on. *)
Fixpoint decode_members (count : nat) (bytes : list byte) (offset : nat) (members : gset Z) :
    outcome (list Z * nat * gset Z) :=
  match count with
  | O => mret ([], offset, members)
  | S count' =>
      node ← read_le 8 bytes offset;
      members ← insert_member members node;
      '(nodes, offset, members) ← decode_members count' bytes (offset + 8) members;
      mret (node :: nodes, offset, members)
  end.

Definition decode_snapshot (bytes : list byte) (limits : StorageLimits) : outcome Snapshot :=
  _ ← fail_when (sl_max_snapshot_bytes limits <? bytes_size bytes)
    "file exceeds configured size limit";
  _ ← fail_when (bytes_size bytes <? snapshot_header_size) "snapshot header is truncated";
  _ ← fail_when (negb (bool_decide (take 8 bytes = snapshot_magic))) "snapshot magic is invalid";
  version ← read_le 2 bytes 8;
  header_size ← read_le 2 bytes 10;
  flags ← read_le 4 bytes 12;
  _ ← fail_when (negb (version =? storage_format_version)
                 || negb (header_size =? snapshot_header_size) || negb (flags =? 0))
    "snapshot version, header size, or flags are unsupported";
  index ← read_le 8 bytes 16;
  term ← read_le 8 bytes 24;
  store_revision_bits ← read_le 8 bytes 32;
  compaction_revision_bits ← read_le 8 bytes 40;
  voter_count ← read_le 4 bytes 48;
  learner_count ← read_le 4 bytes 52;
  state_length ← read_le 8 bytes 56;
  stored_checksum ← read_le 4 bytes 64;
  _ ← fail_when (negb (Z.shiftr store_revision_bits 63 =? 0)
                 || negb (Z.shiftr compaction_revision_bits 63 =? 0))
    "snapshot revision is negative";
  _ ← fail_when (members_exceed limits voter_count learner_count)
    "snapshot membership exceeds configured limit";
  _ ← fail_when (match checked_add voter_count learner_count with
                 | None => true
                 | Some member_count =>
                     negb (bool_decide (snapshot_size member_count state_length
                                        = Some (bytes_size bytes)))
                 end) "snapshot body length is invalid";
  _ ← fail_when (negb (crc32c (take 64 bytes ++ drop 68 bytes) =? stored_checksum))
    "snapshot checksum mismatch";
  '(voters, offset, members) ← decode_members (Z.to_nat voter_count) bytes 68 ∅;
  '(learners, offset, _) ← decode_members (Z.to_nat learner_count) bytes offset members;
  let snapshot := mkSnapshot
    (mkSnapshotMetadata index term store_revision_bits compaction_revision_bits
       (mkMembership voters learners) storage_format_version)
    (drop offset bytes) stored_checksum in
  _ ← validate_snapshot_value snapshot limits;
  mret snapshot.

(** ** The round trip *)

(** The ranges of the C++ types. *)
Record snapshot_typed (s : Snapshot) : Prop := {
  st_index : 0 ≤ sm_last_included_index (sn_metadata s) ≤ u64_max;
  st_term : 0 ≤ sm_last_included_term (sn_metadata s) ≤ u64_max;
  st_revision : sm_store_revision (sn_metadata s) ≤ i64_max;
  st_voters : Forall (λ v, 0 ≤ v ≤ u64_max) (mb_voters (sm_membership (sn_metadata s)));
  st_learners : Forall (λ v, 0 ≤ v ≤ u64_max) (mb_learners (sm_membership (sn_metadata s))) }.

Record snapshot_limits_typed (limits : StorageLimits) : Prop := {
  sl_members_u32 : 0 ≤ sl_max_snapshot_members limits ≤ u32_max;
  sl_bytes_u64 : sl_max_snapshot_bytes limits ≤ u64_max }.

Lemma insert_member_Ret X node X' :
  insert_member X node = Ret X' ↔ node ≠ 0 ∧ (node ∉ X) ∧ X' = ({[node]} ∪ X).
Proof.
  unfold insert_member, fail_when. rewrite bind_Ret. split.
  - intros (_ & [?%Z.eqb_neq ?%bool_decide_eq_false]%throw_when_Ret%orb_false_iff & <-%Ret_inj). done.
  - intros (? & ? & ->). exists tt. rewrite throw_when_Ret, orb_false_iff, Z.eqb_neq, bool_decide_eq_false.
    done.
Qed.

Lemma insert_members_size nodes X X' :
  foldM insert_member X nodes = Ret X' → size X' = Nat.add (size X) (length nodes).
Proof.
  revert X. induction nodes as [|v nodes IH]; intros X; simpl; [intros [= <-]; lia|].
  intros (X1 & (_ & Hv & ->)%insert_member_Ret & Hr)%bind_Ret. rewrite (IH _ Hr).
  rewrite size_union by set_solver. rewrite size_singleton. lia.
Qed.

Lemma encode_members_cons v nodes : encode_members (v :: nodes) = append_le 8 v ++ encode_members nodes.
Proof. done. Qed.

Lemma length_encode_members nodes : length (encode_members nodes) = (8 * length nodes)%nat.
Proof.
  induction nodes as [|v nodes IH]; [done|].
  rewrite encode_members_cons, length_app, length_append_le, IH. simpl. lia.
Qed.

Lemma decode_encode_members nodes pre post X X' :
  Forall (λ v, 0 ≤ v ≤ u64_max) nodes → foldM insert_member X nodes = Ret X' →
  decode_members (length nodes) (pre ++ encode_members nodes ++ post) (length pre) X
  = Ret (nodes, (length pre + 8 * length nodes)%nat, X').
Proof.
  intros Hf. revert pre X. induction Hf as [|v nodes Hv _ IH]; intros pre X; cbn [foldM].
  { intros [= <-]. simpl. by rewrite Nat.add_0_r. }
  intros (X1 & HX1 & Hr)%bind_Ret. cbn [length decode_members].
  rewrite encode_members_cons, <-app_assoc, read_le_skip, Nat.sub_diag by lia.
  rewrite read_le_here by lia. cbn [mbind outcome_bind]. rewrite HX1. cbn [mbind outcome_bind].
  replace (length pre + 8)%nat with (length (pre ++ append_le 8 v))
    by by rewrite length_app, length_append_le.
  rewrite (app_assoc pre), (IH (pre ++ append_le 8 v) X1 Hr). simpl. f_equal. f_equal. f_equal.
  rewrite length_app, length_append_le. lia.
Qed.

Lemma metadata_eta m :
  sm_format_version m = storage_format_version →
  mkSnapshotMetadata (sm_last_included_index m) (sm_last_included_term m) (sm_store_revision m)
    (sm_compaction_revision m)
    (mkMembership (mb_voters (sm_membership m)) (mb_learners (sm_membership m)))
    storage_format_version = m.
Proof. intros <-. by destruct m as [? ? ? ? [? ?] ?]. Qed.

Section round_trip.
Context (s : Snapshot) (limits : StorageLimits).
Context (Htyped : snapshot_typed s) (Hlimits : snapshot_limits_typed limits).
Context (Hvalid : validate_snapshot_value s limits = Ret tt).

Let metadata := sn_metadata s.
Let voters := mb_voters (sm_membership metadata).
Let learners := mb_learners (sm_membership metadata).

Definition snapshot_body : list byte :=
  encode_members voters ++ encode_members learners ++ sn_state s.

Definition snapshot_prefix : list byte :=
  snapshot_magic ++ append_le 2 storage_format_version ++ append_le 2 snapshot_header_size
  ++ append_le 4 0 ++ append_le 8 (sm_last_included_index metadata)
  ++ append_le 8 (sm_last_included_term metadata) ++ append_le 8 (sm_store_revision metadata)
  ++ append_le 8 (sm_compaction_revision metadata) ++ append_le 4 (Z.of_nat (length voters))
  ++ append_le 4 (Z.of_nat (length learners)) ++ append_le 8 (bytes_size (sn_state s)).

Definition snapshot_crc : Z := crc32c (snapshot_prefix ++ snapshot_body).

Definition snapshot_bytes : list byte :=
  snapshot_prefix ++ append_le 4 snapshot_crc ++ snapshot_body.

Lemma encode_snapshot_bytes : encode_snapshot s limits = Ret snapshot_bytes.
Proof. unfold encode_snapshot. rewrite Hvalid. done. Qed.

Lemma length_snapshot_prefix : length snapshot_prefix = 64%nat.
Proof. unfold snapshot_prefix. by rewrite !length_app, !length_append_le. Qed.

(** What validation established. *)
Record validated (m1 m2 : gset Z) : Prop := {
  vd_format : sm_format_version metadata = storage_format_version;
  vd_index : sm_last_included_index metadata ≠ 0;
  vd_revision : 0 ≤ sm_compaction_revision metadata ≤ sm_store_revision metadata;
  vd_members : Z.of_nat (length voters) + Z.of_nat (length learners)
    ≤ sl_max_snapshot_members limits;
  vd_voters : foldM insert_member ∅ voters = Ret m1;
  vd_learners : foldM insert_member m1 learners = Ret m2;
  vd_size : bytes_size snapshot_bytes ≤ sl_max_snapshot_bytes limits }.

Lemma length_snapshot_bytes :
  bytes_size snapshot_bytes
  = 68 + 8 * (Z.of_nat (length voters) + Z.of_nat (length learners)) + bytes_size (sn_state s).
Proof.
  unfold snapshot_bytes, snapshot_body, bytes_size.
  rewrite !length_app, length_snapshot_prefix, length_append_le, !length_encode_members. lia.
Qed.

Lemma snapshot_size_ok members state :
  0 ≤ members → 0 ≤ state → 68 + 8 * members + state ≤ u64_max →
  snapshot_size members state = Some (68 + 8 * members + state).
Proof.
  intros Hm Hs Hle. unfold snapshot_size, snapshot_header_size.
  rewrite checked_multiply_Some by lia. cbn [mbind option_bind].
  rewrite checked_add_Some by lia. cbn [mbind option_bind].
  rewrite checked_add_Some by lia. f_equal. lia.
Qed.

Lemma snapshot_size_Some members state total :
  0 ≤ members → 0 ≤ state → snapshot_size members state = Some total →
  total = 68 + 8 * members + state.
Proof.
  intros Hm Hs. unfold snapshot_size, checked_multiply, checked_add, snapshot_header_size.
  destruct (_ && _); simpl; [done|]. destruct (_ <? _); simpl; [done|].
  destruct (_ <? _); simpl; [done|]. intros [= <-]. lia.
Qed.

Lemma members_exceed_false v l :
  members_exceed limits v l = false ↔
  v ≤ sl_max_snapshot_members limits ∧ l ≤ sl_max_snapshot_members limits ∧
  v + l ≤ sl_max_snapshot_members limits.
Proof. unfold members_exceed. rewrite !orb_false_iff, !Z.ltb_ge. lia. Qed.

Lemma validate_snapshot_Ret : ∃ m1 m2, validated m1 m2.
Proof.
  pose proof Hvalid as Hv. unfold validate_snapshot_value, fail_when in Hv.
  apply bind_Ret in Hv as (_ & H1%throw_when_Ret%negb_false_iff%Z.eqb_eq & Hv).
  apply bind_Ret in Hv as (_ & H2%throw_when_Ret%Z.eqb_neq & Hv).
  apply bind_Ret in Hv as (_ & H3%throw_when_Ret & Hv).
  apply bind_Ret in Hv as (_ & H4%throw_when_Ret%members_exceed_false & Hv).
  apply bind_Ret in Hv as (m1 & Hm1 & Hv). apply bind_Ret in Hv as (m2 & Hm2 & Hv).
  apply throw_when_Ret in Hv. rewrite !orb_false_iff, !Z.ltb_ge in H3.
  fold metadata in H1, H2, H3, H4, Hm1, Hm2. fold voters in H4, Hm1. fold learners in H4, Hm2.
  exists m1, m2. split; try done; [lia|lia|]. rewrite length_snapshot_bytes.
  pose proof (insert_members_size _ _ _ Hm1) as Hs1.
  pose proof (insert_members_size _ _ _ Hm2) as Hs2. rewrite size_empty in Hs1.
  destruct (snapshot_size _ _) as [total|] eqn:Ht; [|done]. apply Z.ltb_ge in Hv.
  apply snapshot_size_Some in Ht; [|lia|unfold bytes_size; lia]. lia.
Qed.

Record snapshot_fields (bytes : list byte) (crc : Z) : Prop := {
  sf_magic : take 8 bytes = snapshot_magic;
  sf_version : read_le 2 bytes 8 = Ret storage_format_version;
  sf_size : read_le 2 bytes 10 = Ret snapshot_header_size;
  sf_flags : read_le 4 bytes 12 = Ret 0;
  sf_index : read_le 8 bytes 16 = Ret (sm_last_included_index metadata);
  sf_term : read_le 8 bytes 24 = Ret (sm_last_included_term metadata);
  sf_store : read_le 8 bytes 32 = Ret (sm_store_revision metadata);
  sf_compaction : read_le 8 bytes 40 = Ret (sm_compaction_revision metadata);
  sf_voters : read_le 4 bytes 48 = Ret (Z.of_nat (length voters));
  sf_learners : read_le 4 bytes 52 = Ret (Z.of_nat (length learners));
  sf_state : read_le 8 bytes 56 = Ret (bytes_size (sn_state s));
  sf_crc : read_le 4 bytes 64 = Ret crc }.

Lemma snapshot_bytes_fields : snapshot_fields snapshot_bytes snapshot_crc.
Proof.
  destruct validate_snapshot_Ret as (m1 & m2 & [_ _ Hrev Hmem _ _ Hsz]).
  rewrite length_snapshot_bytes in Hsz.
  destruct Htyped as [Hi Ht Hr _ _]. destruct Hlimits as [Hlm Hlb].
  fold metadata in Hi, Ht, Hr.
  assert (0 ≤ bytes_size (sn_state s)) by (unfold bytes_size; lia).
  pose proof (u32_crc32c (snapshot_prefix ++ snapshot_body)) as Hcrc. fold snapshot_crc in Hcrc.
  unfold u32 in Hcrc. unfold snapshot_bytes. revert Hcrc. generalize snapshot_crc as crc.
  intros crc Hcrc. unfold snapshot_prefix. rewrite <-!app_assoc.
  split; [by rewrite take_app_length' by done|..]; read_field; reflexivity.
Qed.

Lemma decode_snapshot_bytes :
  decode_snapshot snapshot_bytes limits = Ret (mkSnapshot metadata (sn_state s) snapshot_crc).
Proof.
  destruct validate_snapshot_Ret as (m1 & m2 & [Hfmt Hidx Hrev Hmem Hm1 Hm2 Hsz]).
  pose proof length_snapshot_bytes as Hlen. pose proof Hlimits as [Hlm Hlb].
  assert (0 ≤ bytes_size (sn_state s)) as Hs0 by (unfold bytes_size; lia).
  unfold decode_snapshot, fail_when.
  destruct snapshot_bytes_fields as [-> -> -> -> -> -> -> -> -> -> -> ->].
  replace (sl_max_snapshot_bytes limits <? bytes_size snapshot_bytes) with false
    by (symmetry; apply Z.ltb_ge; lia).
  replace (bytes_size snapshot_bytes <? snapshot_header_size) with false
    by (symmetry; apply Z.ltb_ge; unfold snapshot_header_size; lia).
  cbn [mbind outcome_bind throw_when]. rewrite bool_decide_true by done.
  cbn [negb mbind outcome_bind throw_when orb].
  assert (∀ r, 0 ≤ r ≤ i64_max → (Z.shiftr r 63 =? 0) = true) as Hshift.
  { intros r Hr. apply Z.eqb_eq. rewrite Z.shiftr_div_pow2 by lia. apply Z.div_small. lia. }
  destruct Htyped as [_ _ Hr Hv Hl]. fold metadata in Hr, Hv, Hl. fold voters in Hv. fold learners in Hl.
  rewrite (Hshift (sm_store_revision metadata)), (Hshift (sm_compaction_revision metadata)) by lia.
  rewrite (proj2 (members_exceed_false _ _)) by lia.
  rewrite checked_add_Some by lia.
  rewrite snapshot_size_ok by lia. rewrite bool_decide_true by (f_equal; lia).
  cbn [negb orb throw_when mbind outcome_bind].
  replace (take 64 snapshot_bytes ++ drop 68 snapshot_bytes) with (snapshot_prefix ++ snapshot_body).
  2:{ unfold snapshot_bytes. rewrite take_app_length' by by rewrite length_snapshot_prefix.
      rewrite app_assoc, drop_app_length'; [done|].
      by rewrite length_app, length_snapshot_prefix, length_append_le. }
  fold snapshot_crc. rewrite Z.eqb_refl. cbn [negb throw_when mbind outcome_bind].
  rewrite !Nat2Z.id.
  assert (snapshot_bytes = (snapshot_prefix ++ append_le 4 snapshot_crc)
    ++ encode_members voters ++ encode_members learners ++ sn_state s) as Hb1.
  { unfold snapshot_bytes, snapshot_body. by rewrite <-app_assoc. }
  assert (length (snapshot_prefix ++ append_le 4 snapshot_crc) = 68%nat) as Hpre.
  { by rewrite length_app, length_snapshot_prefix, length_append_le. }
  revert Hb1 Hpre. generalize (snapshot_prefix ++ append_le 4 snapshot_crc) as pre.
  generalize snapshot_crc as crc. intros crc pre Hb1 Hpre. rewrite Hb1.
  replace 68%nat with (length pre).
  rewrite (decode_encode_members voters pre _ _ m1 Hv Hm1). cbn [mbind outcome_bind].
  rewrite app_assoc.
  replace (length pre + 8 * length voters)%nat with (length (pre ++ encode_members voters))
    by by rewrite length_app, length_encode_members.
  rewrite (decode_encode_members learners (pre ++ encode_members voters) _ _ m2 Hl Hm2).
  cbn [mbind outcome_bind].
  rewrite app_assoc, drop_app_length' by by rewrite !length_app, !length_encode_members.
  assert (mkSnapshotMetadata (sm_last_included_index metadata) (sm_last_included_term metadata)
    (sm_store_revision metadata) (sm_compaction_revision metadata) (mkMembership voters learners)
    storage_format_version = metadata) as Hmeta.
  { by apply metadata_eta. }
  rewrite Hmeta. clear Hmeta.
  assert (validate_snapshot_value (mkSnapshot metadata (sn_state s) crc) limits = Ret tt) as ->;
    [exact Hvalid|done].
Qed.
End round_trip.

(** Snapshot files round trip: a snapshot that [encode_snapshot] accepts is
    encoded to at most the configured number of bytes, and [decode_snapshot] of
    them returns its metadata, membership and state (with the checksum filled in). *)
Theorem snapshot_file_round_trip (s : Snapshot) (limits : StorageLimits) (bytes : list byte) :
  snapshot_typed s → snapshot_limits_typed limits → encode_snapshot s limits = Ret bytes →
  bytes_size bytes ≤ sl_max_snapshot_bytes limits ∧
  ∃ checksum, decode_snapshot bytes limits
    = Ret (mkSnapshot (sn_metadata s) (sn_state s) checksum).
Proof.
  intros Ht Hl Henc.
  assert (validate_snapshot_value s limits = Ret tt) as Hv.
  { unfold encode_snapshot in Henc. by apply bind_Ret in Henc as ([] & ? & _). }
  rewrite encode_snapshot_bytes in Henc by done. apply Ret_inj in Henc. subst bytes.
  destruct (validate_snapshot_Ret s limits Hv) as (m1 & m2 & [_ _ _ _ _ _ Hsz]).
  split; [done|]. eexists. by apply decode_snapshot_bytes.
Qed.

(** ** Instance *)

Definition small_snapshot : Snapshot :=
  mkSnapshot (mkSnapshotMetadata 5 2 9 3 (mkMembership [1; 2; 3] [4]) 1)
    [Init.Byte.x01; Init.Byte.x02] 0.

Lemma small_snapshot_typed : snapshot_typed small_snapshot.
Proof. split; simpl; try lia; repeat constructor; lia. Qed.

Lemma default_limits_typed : snapshot_limits_typed default_storage_limits.
Proof. split; simpl; lia. Qed.

Lemma snapshot_file_round_trip_witness :
  ∃ bytes checksum, encode_snapshot small_snapshot default_storage_limits = Ret bytes ∧
    decode_snapshot bytes default_storage_limits
    = Ret (mkSnapshot (sn_metadata small_snapshot) (sn_state small_snapshot) checksum).
Proof.
  destruct (encode_snapshot small_snapshot default_storage_limits) as [bytes|e] eqn:He;
    [|vm_compute in He; discriminate].
  destruct (snapshot_file_round_trip small_snapshot default_storage_limits bytes
    small_snapshot_typed default_limits_typed He) as (_ & checksum & Hd).
  exists bytes, checksum. split; [reflexivity|exact Hd].
Defined.
