(* ===== verification/FileIO.v ===== *)
(** * Reading and writing files

    Class [DurableFile] of [durable_storage.cpp] and of [raft_hard_state_store.cpp],
    on POSIX: calls that transfer less than was asked for, calls that are
    interrupted and repeated, and errors.  [Disk] summarizes what is proved here: a
    write appends everything, or a part and throws. *)

From S2P Require Import Prelude OrdMap Bytes Text Codec HardState.
#[local] Open Scope Z_scope.

(** ** The operating system *)

Inductive errno := EINTR | EINVAL | ENOTSUP | other_error (code : Z).

(** How a call ends: with a count or descriptor, or an error. *)
Inductive call_result := returned (value : Z) | failed (error : errno).

(** [px_script] says how the next calls end; when it is used up, calls do all that
    was asked for.  [px_bytes] is the file behind the descriptor, [px_offset] where
    it is read, [px_open] whether there is a descriptor. *)
Record Posix := mkPosix {
  px_script : list call_result;
  px_bytes : list byte;
  px_offset : nat;
  px_open : bool }.

Definition set_script (script : list call_result) (p : Posix) : Posix :=
  mkPosix script (px_bytes p) (px_offset p) (px_open p).
Definition set_bytes (bytes : list byte) (p : Posix) : Posix :=
  mkPosix (px_script p) bytes (px_offset p) (px_open p).
Definition set_open (open_ : bool) (p : Posix) : Posix :=
  mkPosix (px_script p) (px_bytes p) (px_offset p) open_.

(** A single call. *)
Definition next_call : M Posix call_result := λ p,
  match px_script p with
  | [] => (Ret (returned 0), p)
  | r :: script => (Ret r, set_script script p)
  end.

(** [do ... while (result < 0 && errno == EINTR)] *)
Fixpoint retry_loop (script : list call_result) : call_result * list call_result :=
  match script with
  | [] => (returned 0, [])
  | failed EINTR :: script' => retry_loop script'
  | r :: script' => (r, script')
  end.

Definition retried_call : M Posix call_result := λ p,
  let '(r, script) := retry_loop (px_script p) in (Ret r, set_script script p).

(** The count of a transfer of at most [wanted] bytes. *)
Definition transferred (value : Z) (wanted : nat) : nat := Nat.min (Z.to_nat value) wanted.

Section file_io.
(** [std::system_category().message] *)
Context (error_text : errno → string).

Definition system_message (action : string) (error : errno) : string :=
  action +:+ ": " +:+ error_text error.

Definition check_result (action : string) (r : call_result) : outcome unit :=
  match r with
  | returned _ => mret tt
  | failed e => fail (system_message action e)
  end.

(** ** Opening *)

Definition open_file (action path : string) (contents : list byte) : M Posix unit :=
  r ← retried_call;
  _ ← lift (check_result (action +:+ path) r);
  p ← get_state;
  put_state (mkPosix (px_script p) contents 0 true).

Definition create_new (path : string) : M Posix unit := open_file "create " path [].
Definition open_read (path : string) (contents : list byte) : M Posix unit := open_file "open " path contents.
Definition open_append (path : string) (contents : list byte) : M Posix unit := open_file "open " path contents.

(** ** Transfers *)

(** The loop of [write_all] over the bytes not yet written. *)
Fixpoint write_loop (action : string) (script : list call_result) (rest contents : list byte)
    : outcome unit * list call_result * list byte :=
  match rest, script with
  | [], _ => (Ret tt, script, contents)
  | _, [] => (Ret tt, [], contents ++ rest)
  | _, failed EINTR :: script' => write_loop action script' rest contents
  | _, failed e :: script' => (fail (system_message action e), script', contents)
  | _, returned value :: script' =>
      let count := transferred value (length rest) in
      if Nat.eqb count 0 then (fail (action +:+ " made no progress"), script', contents)
      else write_loop action script' (drop count rest) (contents ++ take count rest)
  end.

Definition write_all (action : string) (bytes : list byte) : M Posix unit := λ p,
  let '(r, script, contents) := write_loop action (px_script p) bytes (px_bytes p) in
  (r, set_bytes contents (set_script script p)).

(** The loop of [read_all]: [wanted] bytes are missing, [rest] is what the file has
    from here on. *)
Fixpoint read_loop (action shorter : string) (script : list call_result) (wanted : nat) (rest : list byte)
    : outcome (list byte) * list call_result :=
  match wanted, script with
  | O, _ => (Ret [], script)
  | _, [] => (if Nat.leb wanted (length rest) then Ret (take wanted rest) else fail shorter, [])
  | _, failed EINTR :: script' => read_loop action shorter script' wanted rest
  | _, failed e :: script' => (fail (system_message action e), script')
  | _, returned value :: script' =>
      let count := transferred value (Nat.min wanted (length rest)) in
      if Nat.eqb count 0 then (fail shorter, script')
      else let '(r, script'') := read_loop action shorter script' (wanted - count) (drop count rest) in
           (more ← r; mret (take count rest ++ more), script'')
  end.

Definition read_all (action shorter : string) (wanted : nat) : M Posix (list byte) := λ p,
  let '(r, script) := read_loop action shorter (px_script p) wanted (drop (px_offset p) (px_bytes p)) in
  (r, mkPosix script (px_bytes p) (px_offset p + wanted) (px_open p)).

(** ** Other calls *)

Definition size_of (action : string) : M Posix Z :=
  r ← next_call;
  _ ← lift (check_result action r);
  p ← get_state;
  mret (bytes_size (px_bytes p)).

(** [off_t] has 64 bits. *)
Definition truncate (length : Z) : M Posix unit :=
  _ ← lift (fail_when (i64_max <? length) "truncate length exceeds POSIX file limit");
  r ← next_call;
  _ ← lift (check_result "truncate durable file" r);
  modify (λ p, set_bytes (resize (Z.to_nat length) Init.Byte.x00 (px_bytes p)) p).

Definition synchronize (action : string) : M Posix unit :=
  r ← retried_call; lift (check_result action r).

(** The descriptor is given up whatever [::close] answers; an interruption is not an
    error. *)
Definition close (action : string) : M Posix unit :=
  p ← get_state;
  if negb (px_open p) then mret tt
  else
    _ ← modify (set_open false);
    r ← next_call;
    match r with
    | failed EINTR => mret tt
    | _ => lift (check_result action r)
    end.

Definition close_noexcept : M Posix unit :=
  p ← get_state;
  if negb (px_open p) then mret tt
  else _ ← next_call; modify (set_open false).

(** The directory is opened and synchronized; a file system that cannot do either is
    accepted. *)
Definition best_effort (action : string) (r : call_result) (continue : M Posix unit) : M Posix unit :=
  match r with
  | failed EINVAL | failed ENOTSUP => mret tt
  | failed e => lift (fail (system_message action e))
  | returned _ => continue
  end.

Definition synchronize_directory (opening synchronizing : string) : M Posix unit :=
  opened ← retried_call;
  best_effort opening opened
    (result ← retried_call;
     _ ← next_call;
     best_effort synchronizing result (mret tt)).

(** [read_file]; the destructor closes the file. *)
Definition read_file (path : string) (contents : list byte) (maximum : Z) : M Posix (list byte) :=
  _ ← open_read path contents;
  length ← size_of "measure durable file";
  _ ← lift (fail_when (maximum <? length) ("file exceeds configured size limit: " +:+ path));
  read_all "read durable file" "durable file became shorter while reading" (Z.to_nat length).

(** ** The two classes *)

Definition durable_write_all : list byte → M Posix unit := write_all "write durable file".
Definition durable_read_all : nat → M Posix (list byte) :=
  read_all "read durable file" "durable file became shorter while reading".
Definition durable_size : M Posix Z := size_of "measure durable file".
Definition durable_synchronize : M Posix unit := synchronize "synchronize durable file".
Definition durable_close : M Posix unit := close "close durable file".
Definition durable_synchronize_directory : M Posix unit :=
  synchronize_directory "open directory for synchronization" "synchronize directory".

Definition hard_state_write_all : list byte → M Posix unit := write_all "write Raft hard state".
Definition hard_state_read_all : nat → M Posix (list byte) :=
  read_all "read Raft hard state" "Raft hard-state file became shorter while reading".
Definition hard_state_size : M Posix Z := size_of "measure Raft hard state".
Definition hard_state_synchronize : M Posix unit := synchronize "synchronize Raft hard state".
Definition hard_state_close : M Posix unit := close "close Raft hard state".
Definition hard_state_synchronize_directory : M Posix unit :=
  synchronize_directory "open hard-state directory for synchronization" "synchronize hard-state directory".
End file_io.

(** ** Transfers are exact *)

Section transfers.
Context (error_text : errno → string).

(** An interruption or some progress. *)
Definition benign (r : call_result) : Prop :=
  match r with
  | failed EINTR => True
  | returned value => 0 < value
  | failed _ => False
  end.

Lemma write_loop_spec action script rest contents :
  match write_loop error_text action script rest contents with
  | (Ret _, _, contents') => contents' = contents ++ rest
  | (Throw e, _, contents') => (∃ message, e = storage_error message) ∧ ¬ Forall benign script ∧
      ∃ k, (k < length rest)%nat ∧ contents' = contents ++ take k rest
  end.
Proof.
  revert rest contents. induction script as [|r script IH]; intros [|b rest] contents.
  - simpl. by rewrite app_nil_r.
  - done.
  - simpl. by rewrite app_nil_r.
  - cbn [write_loop].
    assert (∀ e : exn, (∃ message, e = storage_error message) → ¬ benign r →
      (∃ message, e = storage_error message) ∧ ¬ Forall benign (r :: script) ∧
      ∃ k, (k < length (b :: rest))%nat ∧ contents = contents ++ take k (b :: rest)) as Hstop.
    { intros e He Hr. split_and!; [done|by inversion 1|]. exists 0%nat. rewrite app_nil_r. simpl. split; [lia|done]. }
    destruct r as [value|[]].
    + destruct (Nat.eqb_spec (transferred value (length (b :: rest))) 0) as [H0|Hne].
      { apply Hstop; [by eexists|]. unfold transferred in H0. simpl in H0 |- *. lia. }
      set (count := transferred value (length (b :: rest))) in *.
      assert (count ≤ length (b :: rest))%nat as Hle by (unfold count, transferred; lia).
      specialize (IH (drop count (b :: rest)) (contents ++ take count (b :: rest))).
      destruct (write_loop error_text action script _ _) as [[[u|e] script'] contents'].
      * by rewrite IH, <-app_assoc, take_drop.
      * destruct IH as (He & Hb & k & Hk & ->). split_and!; [done|by inversion 1|].
        rewrite length_drop in Hk. exists (count + k)%nat. split; [lia|].
        rewrite <-app_assoc, take_take_drop. done.
    + specialize (IH (b :: rest) contents). destruct (write_loop _ _ _ _ _) as [[[u|e] script'] contents']; [done|].
      destruct IH as (He & Hb & Hk). split_and!; [done|by inversion 1|done].
    + apply Hstop; [by eexists|by intros []].
    + apply Hstop; [by eexists|by intros []].
    + apply Hstop; [by eexists|by intros []].
Qed.

Lemma read_loop_spec action shorter script wanted rest :
  match (read_loop error_text action shorter script wanted rest).1 with
  | Ret bytes => bytes = take wanted rest ∧ (wanted ≤ length rest)%nat
  | Throw e => (∃ message, e = storage_error message) ∧
      (Forall benign script → (length rest < wanted)%nat)
  end.
Proof.
  revert wanted rest. induction script as [|r script IH]; intros [|wanted] rest.
  - simpl. split; [done|lia].
  - cbn [read_loop]. destruct (Nat.leb_spec (S wanted) (length rest)); simpl; [done|].
    split; [by eexists|lia].
  - simpl. split; [done|lia].
  - cbn [read_loop]. destruct r as [value|[]].
    + destruct (Nat.eqb_spec (transferred value (Nat.min (S wanted) (length rest))) 0) as [H0|Hne].
      { simpl. split; [by eexists|]. intros Hb. inversion_clear Hb as [|?? Hv _]. simpl in Hv.
        unfold transferred in H0. lia. }
      set (count := transferred value (Nat.min (S wanted) (length rest))) in *.
      assert (count ≤ S wanted ∧ count ≤ length rest)%nat as [Hw Hr] by (unfold count, transferred; lia).
      specialize (IH (S wanted - count)%nat (drop count rest)).
      destruct (read_loop error_text action shorter script (S wanted - count) (drop count rest)) as [[bytes|e] script'];
        simpl in IH |- *.
      * destruct IH as [-> Hle]. rewrite length_drop in Hle. split; [|lia].
        rewrite take_take_drop. f_equal. lia.
      * destruct IH as [He Hb]. split; [done|]. intros Hall. inversion_clear Hall as [|?? _ Hs].
        specialize (Hb Hs). rewrite length_drop in Hb. lia.
    + specialize (IH (S wanted) rest). destruct (read_loop _ _ _ _ _ _) as [[bytes|e] script']; simpl in IH |- *; [done|].
      destruct IH as [He Hb]. split; [done|]. intros Hall. inversion_clear Hall. auto.
    + simpl. split; [by eexists|]. intros Hall. by inversion_clear Hall.
    + simpl. split; [by eexists|]. intros Hall. by inversion_clear Hall.
    + simpl. split; [by eexists|]. intros Hall. by inversion_clear Hall.
Qed.

Lemma check_result_throw action r e : check_result error_text action r = Throw e → ∃ message, e = storage_error message.
Proof. destruct r; simpl; [done|]. intros [= <-]. by eexists. Qed.

Lemma read_file_spec path contents maximum p :
  mwp (read_file error_text path contents maximum) p
    (λ bytes _, bytes = contents ∧ bytes_size contents ≤ maximum)
    (λ e _, ∃ message, e = storage_error message).
Proof.
  unfold read_file, open_read, open_file, size_of. apply mwp_bind, mwp_bind.
  unfold retried_call, mwp at 1. destruct (retry_loop (px_script p)) as [r script].
  apply mwp_bind, mwp_lift. destruct (check_result error_text _ r) as [[]|e] eqn:Hr;
    [|by eapply check_result_throw].
  apply mwp_bind, mwp_get, mwp_put, mwp_bind, mwp_bind. unfold next_call, mwp at 1. simpl.
  assert (∀ r2 p2, px_bytes p2 = contents → px_offset p2 = 0%nat →
    mwp (_ ← lift (check_result error_text "measure durable file" r2);
         p ← get_state; mret (bytes_size (px_bytes p))) p2
      (λ length p3, mwp
         (_ ← lift (fail_when (maximum <? length) ("file exceeds configured size limit: " +:+ path));
          read_all error_text "read durable file" "durable file became shorter while reading" (Z.to_nat length)) p3
         (λ bytes _, bytes = contents ∧ bytes_size contents ≤ maximum)
         (λ e _, ∃ message, e = storage_error message))
      (λ e _, ∃ message, e = storage_error message)) as Hrest.
  { intros r2 p2 Hb Ho. apply mwp_bind, mwp_lift.
    destruct (check_result error_text "measure durable file" r2) as [[]|e] eqn:Hr2; [|by eapply check_result_throw].
    apply mwp_bind, mwp_get, mwp_ret, mwp_bind, mwp_lift, owp_throw_when; [by eexists|]. intros Hle%Z.ltb_ge.
    rewrite Hb in *. unfold bytes_size in *. rewrite Nat2Z.id. unfold mwp, read_all. rewrite Hb, Ho, drop_0.
    pose proof (read_loop_spec "read durable file" "durable file became shorter while reading" (px_script p2)
      (length contents) contents) as Hl.
    destruct (read_loop _ _ _ _ _ _) as [[bytes|e] script3]; simpl in Hl.
    - destruct Hl as [-> _]. by rewrite take_ge by done.
    - apply Hl. }
  destruct script as [|r2 script2]; apply Hrest; done.
Qed.

(** C27: File transfers are exact.  However the system splits and interrupts the
    calls, [write_all] appends all the bytes and returns, or appends a proper prefix
    of them and throws, and it throws only after an error or a call without
    progress; [read_all] returns the bytes asked for when the file has them and no
    call fails; and [read_file] returns the whole contents of a file within the
    limit or throws. *)
Theorem file_transfers_exact (action shorter path : string) (bytes contents : list byte) (wanted : nat) (maximum : Z) (p : Posix) :
  (match write_all error_text action bytes p with
   | (Ret _, p') => px_bytes p' = px_bytes p ++ bytes
   | (Throw e, p') => (∃ message, e = storage_error message) ∧ ¬ Forall benign (px_script p) ∧
       ∃ k, (k < length bytes)%nat ∧ px_bytes p' = px_bytes p ++ take k bytes
   end) ∧
  (Forall benign (px_script p) → (px_offset p + wanted ≤ length (px_bytes p))%nat →
   (read_all error_text action shorter wanted p).1 = Ret (take wanted (drop (px_offset p) (px_bytes p)))) ∧
  match (read_file error_text path contents maximum p).1 with
  | Ret result => result = contents ∧ bytes_size contents ≤ maximum
  | Throw e => ∃ message, e = storage_error message
  end.
Proof.
  split_and!.
  - unfold write_all. pose proof (write_loop_spec action (px_script p) bytes (px_bytes p)) as Hw.
    by destruct (write_loop _ _ _ _ _) as [[[u|e] script] contents'].
  - intros Hb Hlen. unfold read_all.
    pose proof (read_loop_spec action shorter (px_script p) wanted (drop (px_offset p) (px_bytes p))) as Hr.
    destruct (read_loop _ _ _ _ _ _) as [[result|e] script]; simpl in Hr |- *; [by destruct Hr as [-> _]|].
    destruct Hr as [_ Hr]. specialize (Hr Hb). rewrite length_drop in Hr. lia.
  - pose proof (read_file_spec path contents maximum p) as Hr. unfold mwp in Hr.
    by destruct (read_file _ _ _ _ _) as [[result|e] p'].
Qed.
End transfers.
