(* ===== verification/FileNames.v ===== *)
(** * File names of the durable storage

    [decimal_name] and [parse_decimal_name] of [durable_storage.cpp]: a prefix, a
    64-bit number as twenty decimal digits, and a suffix.  Names and numbers
    correspond exactly, so that a directory can be read as a map from numbers. *)

From S2P Require Import Prelude OrdMap Bytes Text.
From Stdlib Require Import Ascii DecimalString DecimalZ DecimalPos.
#[local] Open Scope Z_scope.

(** ** The names *)

Fixpoint zeros (count : nat) : string :=
  match count with O => ""%string | S c => String "0" (zeros c) end.

(** [std::setw(width) << std::setfill('0')]: the text on the right, at least
    [width] characters. *)
Definition setw (width : nat) (text : string) : string :=
  zeros (width - String.length text) +:+ text.

Definition decimal_name (prefix : string) (value : Z) (suffix : string) : string :=
  prefix +:+ setw 20 (decimal value) +:+ suffix.

(** [std::string::starts_with] and [ends_with] *)
Definition starts_with (name prefix : string) : bool := String.prefix prefix name.
Definition ends_with (name suffix : string) : bool :=
  Nat.leb (String.length suffix) (String.length name) &&
  bool_decide (String.substring (String.length name - String.length suffix)
                 (String.length suffix) name = suffix).

(** The loop over the digits; the size check excludes a text that is too short. *)
Fixpoint parse_digits (count : nat) (text : string) (value : Z) : option Z :=
  match count, text with
  | O, _ => Some value
  | S _, ""%string => None
  | S count', String character rest =>
      if (char_code character <? 48) || (57 <? char_code character) then None
      else
        let digit := char_code character - 48 in
        if (u64_max - digit) / 10 <? value then None
        else parse_digits count' rest (value * 10 + digit)
  end.

Definition parse_decimal_name (name prefix suffix : string) : option Z :=
  if negb (Nat.eqb (String.length name) (String.length prefix + 20 + String.length suffix))
     || negb (starts_with name prefix) || negb (ends_with name suffix)
  then None
  else parse_digits 20 (String.substring (String.length prefix) 20 name) 0.

(** [unique_suffix]: the readings of the clock and of the global counter in
    hexadecimal; a 64-bit number has at most sixteen digits. *)
Fixpoint hex_number_digits (fuel : nat) (value : Z) (rest : string) : string :=
  match fuel with
  | O => rest
  | S fuel' =>
      let text := String (hex_digit (value mod 16)) rest in
      if value / 16 =? 0 then text else hex_number_digits fuel' (value / 16) text
  end.
Definition hex_number (value : Z) : string := hex_number_digits 16 value "".

Definition unique_suffix (clock count : Z) : string := hex_number clock +:+ "-" +:+ hex_number count.

(** ** Strings *)

Lemma length_append (a b : string) :
  String.length (a +:+ b) = (String.length a + String.length b)%nat.
Proof. induction a as [|c a IH]; simpl; [done|]. by rewrite IH. Qed.

Lemma string_app_inj_r (a b c d : string) :
  a +:+ b = c +:+ d → String.length b = String.length d → b = d.
Proof.
  revert c. induction a as [|x a IH]; intros [|y c]; simpl; try done.
  - intros -> Hl. simpl in Hl. rewrite length_append in Hl. lia.
  - intros <- Hl. simpl in Hl. rewrite length_append in Hl. lia.
  - intros [= _ Heq]. by apply (IH c).
Qed.

Lemma length_zeros n : String.length (zeros n) = n.
Proof. induction n; simpl; congruence. Qed.

Lemma substring_all s : String.substring 0 (String.length s) s = s.
Proof. induction s as [|c s IH]; simpl; congruence. Qed.

Lemma substring_skip a n s : String.substring (String.length a) n (a +:+ s) = String.substring 0 n s.
Proof. induction a as [|c a IH]; simpl; [done|exact IH]. Qed.

Lemma substring_front s t : String.substring 0 (String.length s) (s +:+ t) = s.
Proof.
  induction s as [|c s IH]; simpl; [by destruct t|]. by rewrite IH.
Qed.

Lemma string_split n s :
  (n ≤ String.length s)%nat →
  ∃ a b, s = a +:+ b ∧ String.length a = n.
Proof.
  revert s. induction n as [|n IH]; intros s Hs; [by exists "", s|].
  destruct s as [|c s]; simpl in Hs; [lia|].
  destruct (IH s) as (a & b & -> & <-); [lia|]. by exists (String c a), b.
Qed.

Lemma starts_with_spec name prefix : starts_with name prefix = true ↔ ∃ rest, name = prefix +:+ rest.
Proof.
  unfold starts_with. revert name. induction prefix as [|c p IH]; intros name; simpl.
  { split; intros _; [by exists name|by destruct name]. }
  destruct name as [|c' name]; [split; [done|by intros [??]]|].
  cbn [String.prefix]. destruct (ascii_dec c c') as [->|Hne].
  - rewrite IH. split; intros [rest Hr]; exists rest; congruence.
  - split; [done|]. intros [rest Hr]. congruence.
Qed.

Lemma ends_with_spec name suffix : ends_with name suffix = true ↔ ∃ front, name = front +:+ suffix.
Proof.
  unfold ends_with. rewrite andb_true_iff, Nat.leb_le, bool_decide_eq_true. split.
  - intros [Hle Hsub].
    destruct (string_split (String.length name - String.length suffix) name) as (a & b & -> & Ha); [lia|].
    exists a. f_equal. rewrite <-Ha, substring_skip in Hsub. rewrite length_append in Ha, Hle.
    assert (String.length suffix = String.length b) as Hl by lia.
    rewrite Hl, substring_all in Hsub. congruence.
  - intros [front ->]. rewrite length_append. split; [lia|].
    replace (_ - _)%nat with (String.length front) by lia. rewrite substring_skip. apply substring_all.
Qed.

(** ** Numbers as digits *)

(** The value of digits that continue a number. *)
Fixpoint digits_value (d : Decimal.uint) (value : Z) : Z :=
  match d with
  | Decimal.Nil => value
  | Decimal.D0 d => digits_value d (value * 10)
  | Decimal.D1 d => digits_value d (value * 10 + 1)
  | Decimal.D2 d => digits_value d (value * 10 + 2)
  | Decimal.D3 d => digits_value d (value * 10 + 3)
  | Decimal.D4 d => digits_value d (value * 10 + 4)
  | Decimal.D5 d => digits_value d (value * 10 + 5)
  | Decimal.D6 d => digits_value d (value * 10 + 6)
  | Decimal.D7 d => digits_value d (value * 10 + 7)
  | Decimal.D8 d => digits_value d (value * 10 + 8)
  | Decimal.D9 d => digits_value d (value * 10 + 9)
  end.

Lemma digits_value_acc d (acc : positive) :
  digits_value d (Zpos acc) = Zpos (Pos.of_uint_acc d acc).
Proof. revert acc. induction d as [|d IH|d IH|d IH|d IH|d IH|d IH|d IH|d IH|d IH|d IH]; intros acc; cbn [digits_value Pos.of_uint_acc]; [done|rewrite <-IH; f_equal; lia..]. Qed.

Lemma digits_value_uint d : digits_value d 0 = Z.of_uint d.
Proof.
  unfold Z.of_uint. induction d as [|d IH|d IH|d IH|d IH|d IH|d IH|d IH|d IH|d IH|d IH];
    cbn [digits_value Pos.of_uint]; [done|exact IH|apply (digits_value_acc d)..].
Qed.

Lemma digits_value_lower d value :
  0 ≤ value → value * 10 ^ Z.of_nat (Decimal.nb_digits d) ≤ digits_value d value.
Proof.
  revert value. induction d as [|d IH|d IH|d IH|d IH|d IH|d IH|d IH|d IH|d IH|d IH]; intros value Hv;
    cbn [digits_value Decimal.nb_digits]; [lia|..];
    (etrans; [|apply IH; lia]); rewrite Nat2Z.inj_succ, Z.pow_succ_r by lia; nia.
Qed.

Lemma parse_digit c k n rest value :
  char_code c = 48 + k → 0 ≤ k ≤ 9 →
  parse_digits (S n) (String c rest) value
  = if u64_max <? value * 10 + k then None else parse_digits n rest (value * 10 + k).
Proof.
  intros Hc Hk. cbn [parse_digits]. rewrite Hc.
  destruct (Z.ltb_spec (48 + k) 48), (Z.ltb_spec 57 (48 + k)); try lia. simpl.
  replace (48 + k - 48) with k by lia.
  pose proof (Z.div_mod (u64_max - k) 10) as Hdm. pose proof (Z.mod_pos_bound (u64_max - k) 10) as Hb.
  destruct (Z.ltb_spec ((u64_max - k) / 10) value), (Z.ltb_spec u64_max (value * 10 + k));
    try done; lia.
Qed.

Lemma parse_uint d rest value :
  0 ≤ value → digits_value d value ≤ u64_max →
  parse_digits (Decimal.nb_digits d) (NilEmpty.string_of_uint d +:+ rest) value
  = Some (digits_value d value).
Proof.
  assert (∀ c k d, char_code c = 48 + k → 0 ≤ k ≤ 9 →
    (∀ value, 0 ≤ value → digits_value d value ≤ u64_max →
      parse_digits (Decimal.nb_digits d) (NilEmpty.string_of_uint d +:+ rest) value
      = Some (digits_value d value)) →
    ∀ value, 0 ≤ value → digits_value d (value * 10 + k) ≤ u64_max →
    parse_digits (S (Decimal.nb_digits d)) (String c (NilEmpty.string_of_uint d) +:+ rest) value
    = Some (digits_value d (value * 10 + k))) as Hdigit.
  { intros c k e Hc Hk IH v Hv Hmax. cbn [String.append]. rewrite (parse_digit c k) by done.
    pose proof (digits_value_lower e (v * 10 + k) ltac:(lia)) as Hlow.
    pose proof (Z.pow_pos_nonneg 10 (Z.of_nat (Decimal.nb_digits e)) ltac:(lia) ltac:(lia)) as Hpow.
    destruct (Z.ltb_spec u64_max (v * 10 + k)) as [Hgt|_]; [nia|]. apply IH; [lia|done]. }
  revert value. induction d as [|d IH|d IH|d IH|d IH|d IH|d IH|d IH|d IH|d IH|d IH]; [done|..].
  { intros v Hv. cbn [digits_value]. replace (v * 10) with (v * 10 + 0) by lia. by apply Hdigit. }
  all: by apply Hdigit.
Qed.

Lemma parse_zeros n m rest : parse_digits (n + m) (zeros n +:+ rest) 0 = parse_digits m rest 0.
Proof.
  induction n as [|n IH]; [done|]. cbn [zeros String.append Nat.add].
  by rewrite (parse_digit "0" 0) by done.
Qed.

(** The decimal form has as many digits as the number needs. *)
Lemma uint_nonzero_head n :
  (0 < n)%N → ∃ k d, N.to_uint n = k ∧ Decimal.nb_digits k = S (Decimal.nb_digits d) ∧
    10 ^ Z.of_nat (Decimal.nb_digits d) ≤ Z.of_N n.
Proof.
  intros Hn. assert (N.to_uint n = Decimal.unorm (N.to_uint n)) as Hnorm.
  { rewrite <-DecimalPos.Unsigned.to_of. f_equal. symmetry.
    destruct n; [done|]. apply DecimalPos.Unsigned.of_to. }
  assert (digits_value (N.to_uint n) 0 = Z.of_N n) as Hval.
  { rewrite digits_value_uint. destruct n as [|p]; [done|]. unfold Z.of_uint. simpl.
    by rewrite DecimalPos.Unsigned.of_to. }
  destruct (N.to_uint n) as [|d|d|d|d|d|d|d|d|d|d] eqn:Hd; simpl in Hval; try lia.
  { exfalso. unfold Decimal.unorm in Hnorm. simpl in Hnorm.
    assert (∀ e x, Decimal.nzhead e = Decimal.D0 x → False) as Hnz.
    { intros e. induction e; simpl; intros x He; try done. by eapply IHe. }
    destruct (Decimal.nzhead d) eqn:He; try done; [|by eapply Hnz].
    injection Hnorm as ->. simpl in Hval. lia. }
  all: eexists _, d; split; [done|]; split; [done|].
  all: match type of Hval with digits_value ?e ?v = _ =>
    pose proof (digits_value_lower e v ltac:(lia)) as Hlow;
    pose proof (Z.pow_pos_nonneg 10 (Z.of_nat (Decimal.nb_digits e)) ltac:(lia) ltac:(lia)); lia end.
Qed.

Lemma length_string_of_uint d : String.length (NilEmpty.string_of_uint d) = Decimal.nb_digits d.
Proof. induction d; simpl; congruence. Qed.

(** The padded form of a 64-bit number is its twenty digits. *)
Lemma padded_decimal value :
  0 ≤ value ≤ u64_max →
  String.length (setw 20 (decimal value)) = 20%nat ∧
  ∀ rest, parse_digits 20 (setw 20 (decimal value) +:+ rest) 0 = Some value.
Proof.
  intros Hv. unfold setw, decimal. destruct (to_int_pos value) as [-> Hnil]; [lia|].
  cbn [NilZero.string_of_int]. set (d := N.to_uint (Z.to_N value)) in *.
  assert (NilZero.string_of_uint d = NilEmpty.string_of_uint d) as -> by by destruct d.
  assert (digits_value d 0 = value) as Hd.
  { rewrite digits_value_uint. unfold d. apply of_uint_to_uint. lia. }
  assert (Decimal.nb_digits d ≤ 20)%nat as Hlen.
  { destruct (decide (value = 0)) as [->|Hne]; [vm_compute; lia|].
    destruct (uint_nonzero_head (Z.to_N value)) as (k & e & Hk & Hkd & Hpow); [lia|].
    unfold d. rewrite Hk, Hkd.
    assert (10 ^ Z.of_nat (Decimal.nb_digits e) < 10 ^ 20) as Hlt%Z.pow_lt_mono_r_iff; lia. }
  rewrite length_append, length_zeros, length_string_of_uint. split; [lia|]. intros rest.
  rewrite string_app_assoc.
  replace 20%nat with ((20 - Decimal.nb_digits d) + Decimal.nb_digits d)%nat at 1 by lia.
  rewrite parse_zeros, parse_uint; rewrite ?Hd; try done; lia.
Qed.

(** ** Names and numbers correspond *)

Lemma parse_digits_bound n text value v :
  parse_digits n text value = Some v → 0 ≤ value ≤ u64_max →
  value * 10 ^ Z.of_nat n ≤ v < (value + 1) * 10 ^ Z.of_nat n ∧ v ≤ u64_max.
Proof.
  revert text value. induction n as [|n IH]; intros text value; cbn [parse_digits].
  { intros [= <-] ?. simpl. lia. }
  destruct text as [|c rest]; [done|].
  destruct (Z.ltb_spec (char_code c) 48), (Z.ltb_spec 57 (char_code c)); try done. simpl.
  destruct (Z.ltb_spec ((u64_max - (char_code c - 48)) / 10) value) as [|Hle]; [done|].
  intros Hp Hv. pose proof (Z.div_mod (u64_max - (char_code c - 48)) 10) as Hdm.
  pose proof (Z.mod_pos_bound (u64_max - (char_code c - 48)) 10) as Hb.
  apply IH in Hp; [|lia]. rewrite Nat2Z.inj_succ, Z.pow_succ_r by lia. nia.
Qed.

Lemma char_code_inj c c' : char_code c = char_code c' → c = c'.
Proof.
  unfold char_code. intros Heq%N2Z.inj. rewrite <-(ascii_N_embedding c), <-(ascii_N_embedding c').
  congruence.
Qed.

(** Equally many digits with the same value are the same digits. *)
Lemma parse_digits_inj n a b value v :
  String.length a = n → String.length b = n → 0 ≤ value ≤ u64_max →
  parse_digits n a value = Some v → parse_digits n b value = Some v → a = b.
Proof.
  revert a b value. induction n as [|n IH]; intros a b value Ha Hb Hv; [by destruct a, b|].
  destruct a as [|c a], b as [|c' b]; try done. injection Ha as Ha. injection Hb as Hb. simpl.
  destruct (Z.ltb_spec (char_code c) 48), (Z.ltb_spec 57 (char_code c)); try done.
  destruct (Z.ltb_spec (char_code c') 48), (Z.ltb_spec 57 (char_code c')); try done. simpl.
  destruct (Z.ltb_spec ((u64_max - (char_code c - 48)) / 10) value) as [|Hle]; [done|].
  destruct (Z.ltb_spec ((u64_max - (char_code c' - 48)) / 10) value) as [|Hle']; [done|].
  intros Hpa Hpb.
  pose proof (Z.div_mod (u64_max - (char_code c - 48)) 10) as Hdm.
  pose proof (Z.mod_pos_bound (u64_max - (char_code c - 48)) 10) as Hmb.
  pose proof (Z.div_mod (u64_max - (char_code c' - 48)) 10) as Hdm'.
  pose proof (Z.mod_pos_bound (u64_max - (char_code c' - 48)) 10) as Hmb'.
  pose proof (parse_digits_bound _ _ _ _ Hpa ltac:(lia)) as [Hba _].
  pose proof (parse_digits_bound _ _ _ _ Hpb ltac:(lia)) as [Hbb _].
  pose proof (Z.pow_pos_nonneg 10 (Z.of_nat n) ltac:(lia) ltac:(lia)) as Hpow.
  assert (char_code c = char_code c') as Heq by nia.
  apply char_code_inj in Heq as ->. f_equal. by apply (IH a b (value * 10 + (char_code c' - 48))); [..|lia| |].
Qed.

#[global] Arguments parse_digits : simpl never.

Lemma parse_decimal_name_Some (name prefix suffix : string) (value : Z) :
  parse_decimal_name name prefix suffix = Some value ↔
  0 ≤ value ≤ u64_max ∧ name = decimal_name prefix value suffix.
Proof.
  unfold parse_decimal_name, decimal_name. split.
  - destruct (Nat.eqb_spec (String.length name) (String.length prefix + 20 + String.length suffix))
      as [Hlen|]; [|done].
    destruct (starts_with name prefix) eqn:Hs; [|done]. destruct (ends_with name suffix) eqn:He; [|done].
    simpl. apply starts_with_spec in Hs as [rest ->]. apply ends_with_spec in He as [front He].
    rewrite length_append in Hlen. rewrite substring_skip. intros Hp.
    destruct (string_split 20 rest) as (a & b & -> & Ha); [lia|].
    replace (String.substring 0 20 (a +:+ b)) with a in Hp by by rewrite <-Ha, substring_front.
    pose proof (parse_digits_bound _ _ _ _ Hp ltac:(lia)) as [Hb Hu].
    assert (0 ≤ value ≤ u64_max) as Hv by (rewrite Z.mul_0_l in Hb; lia).
    split; [done|]. f_equal. destruct (padded_decimal value Hv) as [Hl Hpad].
    specialize (Hpad ""). rewrite string_app_nil_r in Hpad.
    f_equal; [exact (parse_digits_inj 20 a _ 0 value Ha Hl ltac:(lia) Hp Hpad)|].
    rewrite <-string_app_assoc in He. rewrite length_append in Hlen.
    eapply string_app_inj_r; [exact He|lia].
  - intros [Hv ->]. destruct (padded_decimal value Hv) as [Hl Hpad].
    rewrite (proj2 (Nat.eqb_eq _ _)) by (rewrite !length_append; lia).
    rewrite (proj2 (starts_with_spec _ _)) by eauto.
    rewrite (proj2 (ends_with_spec _ _)) by (eexists; symmetry; apply string_app_assoc).
    simpl. rewrite substring_skip.
    replace (String.substring 0 20 _) with (setw 20 (decimal value))
      by (rewrite <-Hl at 2; by rewrite substring_front).
    specialize (Hpad ""). rewrite string_app_nil_r in Hpad. exact Hpad.
Qed.

(** File names and numbers correspond exactly.  [parse_decimal_name] accepts
    precisely the names that [decimal_name] gives to 64-bit numbers and returns the
    number: no other name, no name with fewer or more digits and no number beyond 64
    bits is taken for a segment or a snapshot. *)
Theorem file_names_exact (name prefix suffix : string) (value : Z) :
  parse_decimal_name name prefix suffix = Some value ↔
  0 ≤ value ≤ u64_max ∧ name = decimal_name prefix value suffix.
Proof. apply parse_decimal_name_Some. Qed.

Lemma decimal_name_inj (prefix suffix : string) (v1 v2 : Z) :
  0 ≤ v1 ≤ u64_max → 0 ≤ v2 ≤ u64_max →
  decimal_name prefix v1 suffix = decimal_name prefix v2 suffix → v1 = v2.
Proof.
  intros H1 H2 Heq.
  pose proof (proj2 (parse_decimal_name_Some _ prefix suffix v1) (conj H1 eq_refl)) as Hp1.
  pose proof (proj2 (parse_decimal_name_Some _ prefix suffix v2) (conj H2 eq_refl)) as Hp2.
  rewrite Heq in Hp1. congruence.
Qed.

(** A name with something behind it is not a name of the same kind. *)
Lemma longer_name_ignored (prefix suffix rest : string) (value : Z) :
  0 ≤ value ≤ u64_max → rest ≠ ""%string →
  parse_decimal_name (decimal_name prefix value suffix +:+ rest) prefix suffix = None.
Proof.
  intros Hv Hrest. unfold parse_decimal_name, decimal_name.
  destruct (padded_decimal value Hv) as [Hl _].
  rewrite (proj2 (Nat.eqb_neq _ _)); [done|]. rewrite !length_append, Hl.
  destruct rest; [done|]. simpl. lia.
Qed.
