(* ===== verification/Disk.v ===== *)
(** * Directories, system calls and power failures

    What the durable storage relies on of a file system.  A directory maps names
    to files; a file can have two names while it is published.  A system call
    succeeds, fails, or is the moment at which the process dies.  After a power
    failure a file that was synchronized has its contents, any other has unknown
    contents, and each name is as it was at some moment since the directory was
    last synchronized. *)

From S2P Require Import Prelude OrdMap Bytes Codec HardState Wal.
#[local] Open Scope Z_scope.

(** ** State *)

Record File := mkFile {
  fl_bytes : list byte;
  fl_synchronized : bool }.

Inductive dir_entry :=
| regular_file (inode : nat)
| other_entry.
#[global] Instance dir_entry_eq_dec : EqDecision dir_entry.
Proof. solve_decision. Defined.

(** [dk_names] is the directory as processes see it; [dk_earlier] its earlier
    states since it was last synchronized; [dk_running] whether the process that
    uses it is alive. *)
Record Disk := mkDisk {
  dk_inodes : gmap nat File;
  dk_names : gmap string dir_entry;
  dk_earlier : list (gmap string dir_entry);
  dk_running : bool }.

Definition set_names (names : gmap string dir_entry) (d : Disk) : Disk :=
  mkDisk (dk_inodes d) names (dk_earlier d ++ [dk_names d]) (dk_running d).
Definition set_inode (inode : nat) (f : File) (d : Disk) : Disk :=
  mkDisk (<[inode := f]> (dk_inodes d)) (dk_names d) (dk_earlier d) (dk_running d).
Definition stop (d : Disk) : Disk := mkDisk (dk_inodes d) (dk_names d) (dk_earlier d) false.
Definition start_again (d : Disk) : Disk := mkDisk (dk_inodes d) (dk_names d) (dk_earlier d) true.
Definition directory_synchronized_now (d : Disk) : Disk :=
  mkDisk (dk_inodes d) (dk_names d) [] (dk_running d).

(** ** System calls *)

Inductive fate := succeeds | fails | dies.

(** A call of a process: it has its effect, throws, or is the end of the process,
    after which no call has an effect.  [partial] is what a call that did not
    succeed may have done. *)
Definition sys_call (f : fate) (partial : Disk → Disk) (effect : Disk → outcome Disk) : M Disk unit :=
  d ← get_state;
  if negb (dk_running d) then mret tt
  else match f with
    | dies => put_state (stop (partial d))
    | fails => _ ← put_state (partial d); lift (fail "system call failed")
    | succeeds => d' ← lift (effect d); put_state d'
    end.

(** [DurableFile::create_new]: the name must be free. *)
Definition fresh_inode (d : Disk) : nat := fresh (dom (dk_inodes d)).

Definition create_new (f : fate) (name : string) (inode : nat) : M Disk unit :=
  sys_call f id (λ d,
    _ ← fail_when (bool_decide (is_Some (dk_names d !! name))) "create failed: file exists";
    mret (set_inode inode (mkFile [] false) (set_names (<[name := regular_file inode]> (dk_names d)) d))).

(** [write_all]: when it fails, [written] bytes were written. *)
Definition write_all (f : fate) (written : nat) (inode : nat) (bytes : list byte) : M Disk unit :=
  sys_call f (set_inode inode (mkFile (take written bytes) false))
    (λ d, mret (set_inode inode (mkFile bytes false) d)).

Definition synchronize_file (f : fate) (inode : nat) : M Disk unit :=
  sys_call f id (λ d,
    mret (match dk_inodes d !! inode with
          | Some file => set_inode inode (mkFile (fl_bytes file) true) d
          | None => d
          end)).

Definition close_file (f : fate) : M Disk unit := sys_call f id mret.

(** [::link] refuses an existing name. *)
Definition link_file (f : fate) (inode : nat) (final_path : string) : M Disk unit :=
  sys_call f id (λ d,
    _ ← fail_when (bool_decide (is_Some (dk_names d !! final_path))) "publish failed: file exists";
    mret (set_names (<[final_path := regular_file inode]> (dk_names d)) d)).

Definition unlink_file (f : fate) (name : string) : M Disk unit :=
  sys_call f id (λ d, mret (set_names (delete name (dk_names d)) d)).

Definition rename_no_replace (link_fate unlink_fate : fate) (inode : nat)
    (temporary final_path : string) : M Disk unit :=
  _ ← link_file link_fate inode final_path;
  unlink_file unlink_fate temporary.

(** [synchronize_directory_best_effort]: a file system without directory
    synchronization is accepted silently. *)
Inductive sync_fate := synchronizes | unsupported | sync_fails | dies_in_sync.

Definition synchronize_directory_best_effort (f : sync_fate) : M Disk unit :=
  match f with
  | synchronizes => sys_call succeeds id (λ d, mret (directory_synchronized_now d))
  | unsupported => sys_call succeeds id mret
  | sync_fails => sys_call fails id mret
  | dies_in_sync => sys_call dies id mret
  end.

(** What happens to the calls of a publication. *)
Record Fates := mkFates {
  ft_create : fate;
  ft_write : fate;
  ft_write_size : nat;
  ft_synchronize : fate;
  ft_close : fate;
  ft_link : fate;
  ft_unlink : fate;
  ft_directory : sync_fate;
  ft_remove : bool }.

Definition all_succeed : Fates :=
  mkFates succeeds succeeds 0 succeeds succeeds succeeds succeeds synchronizes true.

(** Removal of the temporary file in the handler, whose failure is ignored. *)
Definition remove_ignored (succeeds_ : bool) (name : string) (d : Disk) : Disk :=
  if dk_running d && succeeds_ && bool_decide (is_Some (dk_names d !! name))
  then set_names (delete name (dk_names d)) d else d.

(** The [try] block with its handler: the temporary file is created, written,
    synchronized, closed and renamed, then the directory is synchronized.  The
    handler removes the temporary file when it was created and not yet renamed. *)
Definition publish_file (ft : Fates) (temporary final_path : string) (bytes : list byte) : M Disk unit :=
  d ← get_state;
  let inode := fresh_inode d in
  _ ← create_new (ft_create ft) temporary inode;
  _ ← on_failure
    (_ ← write_all (ft_write ft) (ft_write_size ft) inode bytes;
     _ ← synchronize_file (ft_synchronize ft) inode;
     _ ← close_file (ft_close ft);
     rename_no_replace (ft_link ft) (ft_unlink ft) inode temporary final_path)
    (remove_ignored (ft_remove ft) temporary);
  synchronize_directory_best_effort (ft_directory ft).

(** ** Power failures *)

(** What the machine may find when it starts again. *)
Record power_failure (d d' : Disk) : Prop := {
  pf_names : ∀ name, ∃ names, names ∈ dk_names d :: dk_earlier d ∧ dk_names d' !! name = names !! name;
  pf_inodes : ∀ inode,
    match dk_inodes d !! inode with
    | Some f => ∃ f', dk_inodes d' !! inode = Some f' ∧ (fl_synchronized f = true → fl_bytes f' = fl_bytes f)
    | None => dk_inodes d' !! inode = None
    end;
  pf_synchronized : ∀ inode f, dk_inodes d' !! inode = Some f → fl_synchronized f = true;
  pf_earlier : dk_earlier d' = [];
  pf_running : dk_running d' = true }.
