(* ===== verification/DiskProps.v ===== *)
(** * What a publication does to a directory

    A publication through a temporary file changes nothing but the temporary name
    until the complete and synchronized file gets its final name; whatever call
    fails or is the last one of the process. *)

From S2P Require Import Prelude OrdMap Bytes Codec HardState Wal WalProps Disk.
#[local] Open Scope Z_scope.

(** What a name stands for now, and what it may stand for after a power failure. *)
Definition versions (d : Disk) (name : string) : list (option dir_entry) :=
  (λ names : gmap string dir_entry, names !! name) <$> (dk_names d :: dk_earlier d).

Lemma versions_now d name : dk_names d !! name ∈ versions d name.
Proof. by left. Qed.

Lemma versions_set_names names d name v :
  v ∈ versions (set_names names d) name ↔ v = names !! name ∨ v ∈ versions d name.
Proof.
  unfold versions, set_names. simpl. rewrite fmap_app. simpl.
  rewrite !elem_of_cons, elem_of_app, list_elem_of_singleton. naive_solver.
Qed.

(** A call of a running process succeeds, fails or ends it; a dead process makes no
    calls. *)
Lemma sys_call_spec f partial effect d (Q : unit → Disk → Prop) E :
  (dk_running d = false → Q tt d) →
  (dk_running d = true → f = dies → Q tt (stop (partial d))) →
  (dk_running d = true → f = fails → ∀ e, E e (partial d)) →
  (dk_running d = true → f = succeeds → owp (effect d) (Q tt) (λ e, E e d)) →
  mwp (sys_call f partial effect) d Q E.
Proof.
  intros Hdead Hdies Hfails Hok. unfold sys_call. apply mwp_bind, mwp_get.
  destruct (dk_running d) eqn:Hrun; simpl; [|apply mwp_ret; auto]. destruct f.
  - apply mwp_bind, mwp_lift. eapply owp_mono; [by apply Hok| |done]. intros d' _ HQ. by apply mwp_put.
  - apply mwp_bind, mwp_put, mwp_lift. by apply Hfails.
  - apply mwp_put. by apply Hdies.
Qed.

Lemma fresh_inode_new d : fresh_inode d ∉ dom (dk_inodes d).
Proof. unfold fresh_inode. by apply is_fresh. Qed.

(** ** Two stages *)

Section publication.
Context (d0 : Disk) (temporary final_path : string) (bytes : list byte) (inode : nat).
Context (Htemp : temporary ≠ final_path) (Hfree : dk_names d0 !! final_path = None)
        (Hinode : dk_inodes d0 !! inode = None).

(** Before the final name exists. *)
Record unlinked (d : Disk) : Prop := {
  ul_inodes : ∀ i f, dk_inodes d0 !! i = Some f → dk_inodes d !! i = Some f;
  ul_names : ∀ name, name ≠ temporary → dk_names d !! name = dk_names d0 !! name;
  ul_versions : ∀ name v, name ≠ temporary → v ∈ versions d name → v ∈ versions d0 name }.

(** The final name exists and stands for the complete, synchronized file. *)
Record linked (d : Disk) : Prop := {
  lk_inodes : ∀ i f, dk_inodes d0 !! i = Some f → dk_inodes d !! i = Some f;
  lk_file : dk_inodes d !! inode = Some (mkFile bytes true);
  lk_final : dk_names d !! final_path = Some (regular_file inode);
  lk_names : ∀ name, name ≠ temporary → name ≠ final_path → dk_names d !! name = dk_names d0 !! name;
  lk_versions : ∀ name v, name ≠ temporary → v ∈ versions d name →
    v ∈ versions d0 name ∨ name = final_path ∧ v = Some (regular_file inode) }.

Lemma unlinked_start : unlinked d0.
Proof. by split. Qed.

Lemma unlinked_stop d : unlinked d → unlinked (stop d).
Proof. by intros [??]; split. Qed.
Lemma linked_stop d : linked d → linked (stop d).
Proof. by intros [??]; split. Qed.

Lemma unlinked_inode d f : unlinked d → unlinked (set_inode inode f d).
Proof.
  intros [Hi Hn Hv]. split; [|done..]. intros i g Hg. simpl.
  rewrite lookup_insert_ne by congruence. auto.
Qed.

Lemma unlinked_names d names :
  (∀ name, name ≠ temporary → names !! name = dk_names d !! name) →
  unlinked d → unlinked (set_names names d).
Proof.
  intros Hnames [Hi Hn Hv]. split; [done|..]; simpl.
  - intros name Hne. rewrite Hnames by done. auto.
  - intros name v Hne [->|Hin]%versions_set_names; [|auto]. rewrite Hnames by done.
    apply Hv; [done|]. apply versions_now.
Qed.

Lemma linked_names d names :
  (∀ name, name ≠ temporary → names !! name = dk_names d !! name) →
  linked d → linked (set_names names d).
Proof.
  intros Hnames [Hi Hf Hfin Hn Hv]. split; simpl; try done.
  - by rewrite Hnames.
  - intros name Hne Hne'. rewrite Hnames by done. auto.
  - intros name v Hne [->|Hin]%versions_set_names; [|auto]. rewrite Hnames by done.
    apply Hv; [done|]. apply versions_now.
Qed.

Lemma link_linked d :
  unlinked d → dk_inodes d !! inode = Some (mkFile bytes true) →
  linked (set_names (<[final_path := regular_file inode]> (dk_names d)) d).
Proof.
  intros [Hi Hn Hv] Hf. split; simpl; try done.
  - apply lookup_insert_eq.
  - intros name Hne Hne'. rewrite lookup_insert_ne by done. auto.
  - intros name v Hne [->|Hin]%versions_set_names; [|auto].
    destruct (decide (name = final_path)) as [->|Hne']; [rewrite lookup_insert_eq; auto|].
    rewrite lookup_insert_ne by done. left. apply Hv; [done|]. apply versions_now.
Qed.

Lemma remove_unlinked b d : unlinked d → unlinked (remove_ignored b temporary d).
Proof.
  intros Hu. unfold remove_ignored. destruct (_ && _); [|done].
  apply unlinked_names; [|done]. intros name Hne. by rewrite lookup_delete_ne.
Qed.
Lemma remove_linked b d : linked d → linked (remove_ignored b temporary d).
Proof.
  intros Hu. unfold remove_ignored. destruct (_ && _); [|done].
  apply linked_names; [|done]. intros name Hne. by rewrite lookup_delete_ne.
Qed.

(** ** The publication *)

Definition running_has (f : File) (d : Disk) : Prop :=
  dk_running d = true → dk_inodes d !! inode = Some f.

Lemma write_spec f written d :
  unlinked d → running_has (mkFile [] false) d →
  mwp (write_all f written inode bytes) d
    (λ _ d', unlinked d' ∧ running_has (mkFile bytes false) d') (λ _ d', unlinked d').
Proof.
  intros Hu Hr. apply sys_call_spec.
  - intros Hdead. split; [done|]. intros Hrun. congruence.
  - intros _ _. split; [by apply unlinked_stop, unlinked_inode|]. intros Hrun. done.
  - intros _ _ _. by apply unlinked_inode.
  - intros _ _. simpl. split; [by apply unlinked_inode|]. intros _. apply lookup_insert_eq.
Qed.

Lemma synchronize_spec f d :
  unlinked d → running_has (mkFile bytes false) d →
  mwp (synchronize_file f inode) d
    (λ _ d', unlinked d' ∧ running_has (mkFile bytes true) d') (λ _ d', unlinked d').
Proof.
  intros Hu Hr. apply sys_call_spec.
  - intros Hdead. split; [done|]. intros Hrun. congruence.
  - intros _ _. split; [by apply unlinked_stop|]. intros Hrun. done.
  - done.
  - intros Hrun _. simpl. rewrite (Hr Hrun). split; [by apply unlinked_inode|].
    intros _. apply lookup_insert_eq.
Qed.

Lemma close_spec f d file :
  unlinked d → running_has file d →
  mwp (close_file f) d (λ _ d', unlinked d' ∧ running_has file d') (λ _ d', unlinked d').
Proof.
  intros Hu Hr. apply sys_call_spec; [done| |done|done].
  intros _ _. split; [by apply unlinked_stop|]. intros Hrun. done.
Qed.

(** After the renaming: the process is alive and the file published, or it died. *)
Definition settled (d : Disk) : Prop := linked d ∨ unlinked d ∧ dk_running d = false.

Lemma rename_spec f g d :
  unlinked d → running_has (mkFile bytes true) d →
  mwp (rename_no_replace f g inode temporary final_path) d
    (λ _ d', settled d') (λ _ d', unlinked d' ∨ linked d').
Proof.
  intros Hu Hr. unfold rename_no_replace. apply mwp_bind.
  assert (∀ d1, settled d1 → mwp (unlink_file g temporary) d1 (λ _ d', settled d')
    (λ _ d', unlinked d' ∨ linked d')) as Hunlink.
  { intros d1 Hs. apply sys_call_spec.
    - done.
    - intros Hrun _. destruct Hs as [Hl|[_ Hd]]; [|congruence]. left. by apply linked_stop.
    - intros Hrun _ _. destruct Hs as [Hl|[_ Hd]]; [by right|congruence].
    - intros Hrun _. destruct Hs as [Hl|[_ Hd]]; [|congruence]. left. simpl.
      apply linked_names; [|done]. intros name Hne. by rewrite lookup_delete_ne. }
  apply sys_call_spec.
  - intros Hdead. apply Hunlink. by right.
  - intros Hrun _. apply Hunlink. right. split; [by apply unlinked_stop|done].
  - intros _ _ _. by left.
  - intros Hrun _. apply owp_bind, owp_throw_when; [by left|]. intros _. simpl. apply Hunlink. left.
    apply link_linked; [done|]. by apply Hr.
Qed.

Lemma create_spec f :
  mwp (create_new f temporary inode) d0
    (λ _ d', unlinked d' ∧ running_has (mkFile [] false) d') (λ _ d', unlinked d').
Proof.
  apply sys_call_spec.
  - intros Hdead. split; [apply unlinked_start|]. intros Hrun. congruence.
  - intros Hrun _. split; [apply unlinked_stop, unlinked_start|done].
  - intros _ _ _. apply unlinked_start.
  - intros Hrun _. apply owp_bind, owp_throw_when; [intros _; apply unlinked_start|]. intros _. simpl. split.
    + apply unlinked_inode, unlinked_names; [|apply unlinked_start].
      intros name Hne. by rewrite lookup_insert_ne.
    + intros _. apply lookup_insert_eq.
Qed.

Lemma linked_synchronized d : linked d → linked (directory_synchronized_now d).
Proof.
  intros [? ? ? ? Hv]. split; [done..|]. intros name v Hne Hin. apply Hv; [done|].
  unfold versions in Hin. simpl in Hin. apply list_elem_of_singleton in Hin as ->. apply versions_now.
Qed.

Lemma directory_spec f d :
  settled d → mwp (synchronize_directory_best_effort f) d
    (λ _ d', settled d' ∧ (dk_running d' = true → f = synchronizes → dk_earlier d' = []))
    (λ _ d', unlinked d' ∨ linked d').
Proof.
  intros Hs. destruct f; apply sys_call_spec; try done.
  - intros Hdead. split; [done|]. intros. congruence.
  - intros Hrun _. destruct Hs as [Hl|[_ ?]]; [|congruence]. split; [left|done]. by apply linked_synchronized.
  - intros Hrun _ _. destruct Hs as [Hl|[_ ?]]; [by right|congruence].
  - intros Hrun _. destruct Hs as [Hl|[_ ?]]; [|congruence]. split; [left; by apply linked_stop|done].
Qed.

(** The handler keeps either stage. *)
Lemma remove_either b d :
  unlinked d ∨ linked d → unlinked (remove_ignored b temporary d) ∨ linked (remove_ignored b temporary d).
Proof. intros [?|?]; [left; by apply remove_unlinked|right; by apply remove_linked]. Qed.

Lemma publish_file_spec ft :
  inode = fresh_inode d0 →
  mwp (publish_file ft temporary final_path bytes) d0
    (λ _ d', settled d' ∧ (dk_running d' = true → ft_directory ft = synchronizes → dk_earlier d' = []))
    (λ _ d', unlinked d' ∨ linked d').
Proof.
  intros Hfresh. unfold publish_file. apply mwp_bind, mwp_get. rewrite <-Hfresh. apply mwp_bind.
  eapply mwp_mono; [apply create_spec| |by auto]. intros [] d1 [Hu Hr]. apply mwp_bind.
  apply mwp_on_failure.
  apply (mwp_mono _ _ (λ _ d, settled d) _ (λ _ d, unlinked d ∨ linked d) _);
    [|intros [] d2; apply directory_spec|intros e d2; apply remove_either].
  apply mwp_bind. eapply mwp_mono; [by apply write_spec| |by auto]. intros [] d2 [Hu2 Hr2]. apply mwp_bind.
  eapply mwp_mono; [by apply synchronize_spec| |by auto]. intros [] d3 [Hu3 Hr3]. apply mwp_bind.
  eapply mwp_mono; [by apply close_spec| |by auto]. intros [] d4 [Hu4 Hr4]. by apply rename_spec.
Qed.
End publication.

(** ** Power failures *)

Lemma power_versions d d' name v : power_failure d d' → v ∈ versions d' name → v ∈ versions d name.
Proof.
  intros [Hn _ _ He _]. unfold versions at 1. rewrite He. intros ->%list_elem_of_singleton.
  destruct (Hn name) as (names & Hin & ->). unfold versions.
  by apply (list_elem_of_fmap_2 (λ names : gmap string dir_entry, names !! name)).
Qed.

Lemma power_file d d' inode f :
  power_failure d d' → dk_inodes d !! inode = Some f → fl_synchronized f = true →
  dk_inodes d' !! inode = Some f.
Proof.
  intros [_ Hi Hs _ _] Hf Hsync. specialize (Hi inode). rewrite Hf in Hi.
  destruct Hi as (f' & Hf' & Hb). pose proof (Hs _ _ Hf') as Hs'. specialize (Hb Hsync).
  destruct f, f'. simpl in *. by subst.
Qed.

(** A disk after the machine has started: the directory is as it is stored, and so
    are its files. *)
Definition at_rest (d : Disk) : Prop :=
  dk_earlier d = [] ∧
  ∀ name inode, dk_names d !! name = Some (regular_file inode) →
    ∃ f, dk_inodes d !! inode = Some f ∧ fl_synchronized f = true.
