(* ===== verification/SnapshotStore.v ===== *)
(** * The file snapshot store

    Class [FileSnapshotStore] of [durable_storage.cpp]: snapshots are files named
    by their last included index; [publish] adds one through a temporary file,
    [latest] answers the valid one with the highest index. *)

From S2P Require Import Prelude OrdMap Bytes Text RaftTypes Codec HardState Wal SnapshotFile FileNames Disk.
#[local] Open Scope Z_scope.

(** The order in which [std::filesystem::directory_iterator] lists a directory is
    unspecified. *)
Class DirectoryListing := {
  listing : gmap string dir_entry → list (string * dir_entry);
  listing_perm names : listing names ≡ₚ map_to_list names }.

Definition snapshot_name (index : Z) : string := decimal_name "snapshot-" index ".ksnap".

(** The constructor; [create_fails] says whether the directory could not be
    created. *)
Definition open_snapshot_store (limits : StorageLimits) (create_fails : bool) : outcome unit :=
  _ ← fail_when ((sl_max_snapshot_bytes limits <? snapshot_header_size)
                 || (sl_max_snapshot_members limits =? 0)) "snapshot storage limits are invalid";
  fail_when create_fails "create snapshot directory".

Definition last_included_index (s : Snapshot) : Z := sm_last_included_index (sn_metadata s).

(** [decode_snapshot(path, limits)]: the file is read, then decoded. *)
Definition decode_snapshot_file (limits : StorageLimits) (d : Disk) (inode : nat) : outcome Snapshot :=
  match dk_inodes d !! inode with
  | Some f => decode_snapshot (fl_bytes f) limits
  | None => fail "open failed"
  end.

Section snapshot_store.
Context `{!DirectoryListing}.

Definition candidates (d : Disk) : list (Z * nat) :=
  omap (λ '(name, entry),
    match entry, parse_decimal_name name "snapshot-" ".ksnap" with
    | regular_file inode, Some index => if index =? 0 then None else Some (index, inode)
    | _, _ => None
    end) (listing (dk_names d)).

Definition higher_index (left right : Z * nat) : Prop := right.1 ≤ left.1.
#[global] Instance higher_index_dec : RelDecision higher_index.
Proof. unfold higher_index. solve_decision. Defined.

(** The second loop of [latest_locked]: an invalid file and a file whose index is
    not that of its name are skipped. *)
Fixpoint first_valid (limits : StorageLimits) (d : Disk) (found : list (Z * nat))
    : outcome (option Snapshot) :=
  match found with
  | [] => mret None
  | (index, inode) :: rest =>
      match decode_snapshot_file limits d inode with
      | Ret snapshot =>
          if negb (last_included_index snapshot =? index) then first_valid limits d rest
          else mret (Some snapshot)
      | Throw (storage_error _) => first_valid limits d rest
      | Throw e => Throw e
      end
  end.

Definition latest_locked (limits : StorageLimits) (d : Disk) : outcome (option Snapshot) :=
  first_valid limits d (merge_sort higher_index (candidates d)).

Definition latest (limits : StorageLimits) (d : Disk) : outcome (option Snapshot) := latest_locked limits d.

(** What [truncate_through] asks of the snapshot store. *)
Definition latest_index (limits : StorageLimits) (d : Disk) : outcome (option Z) :=
  answer ← latest limits d; Ret (option_map last_included_index answer).

(** [publish]; [clock] and [count] are what the clock and the global counter give
    to [unique_suffix]. *)
Definition publish (limits : StorageLimits) (ft : Fates) (clock count : Z) (snapshot : Snapshot)
    : M Disk unit :=
  d ← get_state;
  current ← lift (latest_locked limits d);
  _ ← lift (fail_when (match current with
                       | Some c => last_included_index snapshot <=? last_included_index c
                       | None => false
                       end) "snapshot publication must advance the snapshot index");
  bytes ← lift (encode_snapshot snapshot limits);
  let final_path := snapshot_name (last_included_index snapshot) in
  _ ← lift (fail_when (bool_decide (is_Some (dk_names d !! final_path)))
    "refusing to replace an existing snapshot");
  let temporary := final_path +:+ ".tmp." +:+ unique_suffix clock count in
  publish_file ft temporary final_path bytes.

(** [validate]; [parent] and [filename] are the parent directory and the file name
    of the normalized absolute path. *)
Definition validate (limits : StorageLimits) (directory parent filename : string) (d : Disk)
    : outcome Snapshot :=
  match bool_decide (parent = directory), parse_decimal_name filename "snapshot-" ".ksnap" with
  | true, Some name_index =>
      snapshot ← match dk_names d !! filename with
        | Some (regular_file inode) => decode_snapshot_file limits d inode
        | _ => fail "open failed"
        end;
      _ ← fail_when (negb (last_included_index snapshot =? name_index))
        "snapshot filename and content index differ";
      mret snapshot
  | _, _ => fail "snapshot validation path is outside the owned directory"
  end.
End snapshot_store.
