(* ===== verification/SnapshotStoreProps.v ===== *)
(** * Correctness of the file snapshot store

    What [latest] selects; that a publication adds at most the complete new file,
    whatever fails; and that published snapshots survive crashes of the process and
    power failures. *)

From S2P Require Import Prelude OrdMap Bytes Text RaftTypes Codec HardState Wal WalProps SnapshotFile FileNames.
From S2P Require Import Disk DiskProps SnapshotStore.
#[local] Open Scope Z_scope.

(** ** Decoding throws storage errors only *)

Definition storage_throw (e : exn) : Prop := ∃ message, e = storage_error message.

Lemma fail_when_storage b message (Q : unit → Prop) :
  (b = false → Q tt) → owp (fail_when b message) Q storage_throw.
Proof. intros HQ. apply owp_throw_when; [by eexists|done]. Qed.

Lemma read_le_storage size bytes offset : owp (read_le size bytes offset) (λ _, True) storage_throw.
Proof. unfold read_le. apply owp_bind, fail_when_storage. done. Qed.

Lemma decode_members_storage count bytes offset members :
  owp (decode_members count bytes offset members) (λ _, True) storage_throw.
Proof.
  revert offset members. induction count as [|count IH]; intros offset members; [done|]. simpl.
  apply owp_bind. eapply owp_mono; [apply read_le_storage| |done]. intros node _ _.
  apply owp_bind. unfold insert_member. apply owp_bind, fail_when_storage. intros _. simpl.
  apply owp_bind. eapply owp_mono; [apply IH| |done]. by intros [[nodes o] m] _ _.
Qed.

Lemma insert_members_storage nodes members :
  owp (foldM insert_member members nodes) (λ _, True) storage_throw.
Proof.
  apply (owp_foldM _ (λ _ _, True)); [done|]. intros. unfold insert_member.
  by apply owp_bind, fail_when_storage.
Qed.

Lemma validate_snapshot_storage s limits :
  owp (validate_snapshot_value s limits) (λ _, True) storage_throw.
Proof.
  unfold validate_snapshot_value. do 4 (apply owp_bind, fail_when_storage; intros _).
  do 2 (apply owp_bind; eapply owp_mono; [apply insert_members_storage| |done]; intros ? _ _).
  by apply fail_when_storage.
Qed.

Lemma decode_snapshot_storage bytes limits :
  owp (decode_snapshot bytes limits) (λ _, True) storage_throw.
Proof.
  unfold decode_snapshot.
  repeat first
    [ apply owp_bind, fail_when_storage; intros _
    | apply owp_bind; eapply owp_mono; [apply read_le_storage| |done]; intros ? _ _
    | apply owp_bind; eapply owp_mono; [apply decode_members_storage| |done]; intros [[? ?] ?] _ _
    | apply owp_bind; eapply owp_mono; [apply validate_snapshot_storage| |done]; intros _ _ _ ].
  done.
Qed.

Lemma decode_file_storage limits d inode :
  owp (decode_snapshot_file limits d inode) (λ _, True) storage_throw.
Proof.
  unfold decode_snapshot_file. destruct (dk_inodes d !! inode); [apply decode_snapshot_storage|].
  by eexists.
Qed.

(** ** Selection *)

(** The directory has a valid snapshot under its index. *)
Definition snapshot_at (limits : StorageLimits) (d : Disk) (s : Snapshot) : Prop :=
  0 < last_included_index s ≤ u64_max ∧
  ∃ inode, dk_names d !! snapshot_name (last_included_index s) = Some (regular_file inode) ∧
    decode_snapshot_file limits d inode = Ret s.

(** The answer of [latest]. *)
Definition newest (limits : StorageLimits) (d : Disk) (answer : option Snapshot) : Prop :=
  match answer with
  | Some s => snapshot_at limits d s ∧
      ∀ s', snapshot_at limits d s' → last_included_index s' ≤ last_included_index s
  | None => ∀ s', ¬ snapshot_at limits d s'
  end.

Section selection.
Context `{!DirectoryListing} (limits : StorageLimits).

Lemma elem_of_candidates d index inode :
  (index, inode) ∈ candidates d ↔
  0 < index ≤ u64_max ∧ dk_names d !! snapshot_name index = Some (regular_file inode).
Proof.
  unfold candidates. rewrite list_elem_of_omap. split.
  - intros ([name [ino|]] & Hin & Hx); [|done]. rewrite listing_perm, elem_of_map_to_list in Hin.
    destruct (parse_decimal_name name "snapshot-" ".ksnap") as [v|] eqn:Hp; [|done].
    destruct (Z.eqb_spec v 0); [done|]. injection Hx as -> ->.
    apply parse_decimal_name_Some in Hp as [Hv ->]. split; [lia|done].
  - intros [Hi Hn]. exists (snapshot_name index, regular_file inode).
    rewrite listing_perm, elem_of_map_to_list. split; [done|]. simpl.
    rewrite (proj2 (parse_decimal_name_Some _ _ _ index)) by (split; [lia|done]).
    by destruct (Z.eqb_spec index 0); [lia|].
Qed.

(** The result of scanning candidates: the highest valid one. *)
Definition scanned (d : Disk) (found : list (Z * nat)) (r : outcome (option Snapshot)) : Prop :=
  let valid s := ∃ inode, (last_included_index s, inode) ∈ found ∧
    decode_snapshot_file limits d inode = Ret s in
  match r with
  | Ret (Some s) => valid s ∧ ∀ s', valid s' → last_included_index s' ≤ last_included_index s
  | Ret None => ∀ s', ¬ valid s'
  | Throw _ => False
  end.

(** A candidate that is not a snapshot with its index is skipped. *)
Lemma scanned_skip d found index inode r :
  (∀ s, decode_snapshot_file limits d inode = Ret s → last_included_index s ≠ index) →
  scanned d found r → scanned d ((index, inode) :: found) r.
Proof.
  intros Hno. destruct r as [[s|]|e]; simpl; [| |done].
  - intros [(i & Hin & Hd) Hmax]. split; [exists i; split; [by right|done]|].
    intros s' (i' & [[= Heq ->]|Hin']%elem_of_cons & Hd'); [by edestruct Hno|eauto].
  - intros Hnone s' (i' & [[= Heq ->]|Hin']%elem_of_cons & Hd'); [by edestruct Hno|].
    apply (Hnone s'). eauto.
Qed.

Lemma first_valid_spec d found :
  StronglySorted higher_index found → scanned d found (first_valid limits d found).
Proof.
  induction 1 as [|[index inode] found Hsort IH Hall]; simpl.
  { by intros s' (i & Hin%elem_of_nil & _). }
  pose proof (decode_file_storage limits d inode) as Hst.
  destruct (decode_snapshot_file limits d inode) as [s|e] eqn:Hd; simpl in Hst.
  - destruct (Z.eqb_spec (last_included_index s) index) as [<-|Hne]; simpl.
    + split; [exists inode; split; [by left|done]|].
      intros s' (i' & [[= Heq ->]|Hin']%elem_of_cons & Hd'); [by rewrite Heq|].
      rewrite Forall_forall in Hall. apply (Hall _ Hin').
    + apply scanned_skip; [|exact IH]. intros s' Hs'. congruence.
  - destruct Hst as [message ->]. apply scanned_skip; [|exact IH]. intros s' Hs'. congruence.
Qed.

Lemma latest_newest d : ∃ answer, latest limits d = Ret answer ∧ newest limits d answer.
Proof.
  assert (Total higher_index) by (intros [] []; unfold higher_index; simpl; lia).
  assert (Transitive higher_index) by (intros [] [] []; unfold higher_index; simpl; lia).
  pose proof (first_valid_spec d (merge_sort higher_index (candidates d))
    (StronglySorted_merge_sort _ _)) as Hs.
  unfold latest, latest_locked. destruct (first_valid _ _ _) as [answer|e]; [|done].
  exists answer. split; [done|].
  assert (∀ p, p ∈ merge_sort higher_index (candidates d) ↔ p ∈ candidates d) as Hp
    by (intros p; by rewrite merge_sort_Permutation).
  assert (∀ s, (∃ inode, (last_included_index s, inode) ∈ merge_sort higher_index (candidates d) ∧
    decode_snapshot_file limits d inode = Ret s) ↔ snapshot_at limits d s) as Hv.
  { intros s. unfold snapshot_at. setoid_rewrite Hp. setoid_rewrite elem_of_candidates. naive_solver. }
  destruct answer as [s|]; simpl in *; setoid_rewrite Hv in Hs; done.
Qed.

Lemma newest_unique d a b : newest limits d a → newest limits d b → a = b.
Proof.
  destruct a as [s|], b as [s'|]; simpl; intros Ha Hb; try done.
  - destruct Ha as [Hs Hmax], Hb as [Hs' Hmax'].
    assert (last_included_index s = last_included_index s') as Heq by
      (specialize (Hmax _ Hs'); specialize (Hmax' _ Hs); lia).
    destruct Hs as (_ & i & Hn & Hd), Hs' as (_ & i' & Hn' & Hd'). congruence.
  - by destruct (Hb s (proj1 Ha)).
  - by destruct (Ha s' (proj1 Hb)).
Qed.
End selection.

(** ** Publication *)

(** The snapshot as it is read back, its checksum filled in. *)
Definition same_snapshot (s s' : Snapshot) : Prop :=
  sn_metadata s' = sn_metadata s ∧ sn_state s' = sn_state s.

Lemma same_index s s' : same_snapshot s s' → last_included_index s' = last_included_index s.
Proof. intros [Hm _]. unfold last_included_index. by rewrite Hm. Qed.

(** [name] is the name of a snapshot. *)
Definition is_snapshot_name (name : string) : Prop :=
  ∃ index, 0 < index ≤ u64_max ∧ name = snapshot_name index.

Section publication.
Context `{!DirectoryListing} (limits : StorageLimits) (Hlimits : snapshot_limits_typed limits).

(** The complete file of [s] under its final name, synchronized. *)
Definition stored (d : Disk) (s : Snapshot) (inode : nat) : Prop :=
  ∃ bytes, encode_snapshot s limits = Ret bytes ∧ dk_inodes d !! inode = Some (mkFile bytes true).

Lemma encode_index s bytes :
  snapshot_typed s → encode_snapshot s limits = Ret bytes → 0 < last_included_index s ≤ u64_max.
Proof.
  intros Ht He. unfold encode_snapshot in He. apply bind_Ret in He as ([] & Hv & _).
  unfold validate_snapshot_value in Hv. do 2 (apply bind_Ret in Hv as ([] & ?Hc & Hv)).
  apply throw_when_Ret, Z.eqb_neq in Hc0. destruct Ht as [Hi _ _ _ _]. unfold last_included_index. lia.
Qed.

Lemma stored_decodes d s inode :
  snapshot_typed s → stored d s inode →
  ∃ s', decode_snapshot_file limits d inode = Ret s' ∧ same_snapshot s s'.
Proof.
  intros Ht (bytes & He & Hi). unfold decode_snapshot_file. rewrite Hi. simpl.
  destruct (snapshot_file_round_trip s limits bytes Ht Hlimits He) as (_ & checksum & Hd).
  exists (mkSnapshot (sn_metadata s) (sn_state s) checksum). by split.
Qed.

(** What [publish] leaves behind: the files there were, and perhaps the new one. *)
Record published (d : Disk) (s : Snapshot) (d' : Disk) : Prop := {
  pb_inodes : ∀ i f, dk_inodes d !! i = Some f → dk_inodes d' !! i = Some f;
  pb_names : ∀ name, is_snapshot_name name →
    dk_names d' !! name = dk_names d !! name ∨
    dk_names d !! name = None ∧ (∀ s1, snapshot_at limits d s1 → last_included_index s1 < last_included_index s) ∧
    ∃ inode, name = snapshot_name (last_included_index s) ∧
      dk_names d' !! name = Some (regular_file inode) ∧ stored d' s inode;
  pb_versions : ∀ name v, is_snapshot_name name → v ∈ versions d' name →
    v ∈ versions d name ∨
    dk_names d !! name = None ∧
    ∃ inode, name = snapshot_name (last_included_index s) ∧ v = Some (regular_file inode) ∧ stored d' s inode }.

Lemma published_refl d s : published d s d.
Proof. split; auto. Qed.

(** A successful call with a synchronized directory. *)
Definition confirmed (d : Disk) (s : Snapshot) : Prop :=
  ∃ inode, stored d s inode ∧
    ∀ v, v ∈ versions d (snapshot_name (last_included_index s)) → v = Some (regular_file inode).

Lemma temporary_name index rest :
  0 < index ≤ u64_max → ¬ is_snapshot_name (snapshot_name index +:+ ".tmp." +:+ rest).
Proof.
  intros Hi (index' & Hi' & Heq).
  assert (parse_decimal_name (snapshot_name index +:+ ".tmp." +:+ rest) "snapshot-" ".ksnap" = None) as Hn
    by by apply longer_name_ignored; [lia|].
  rewrite Heq in Hn. rewrite (proj2 (parse_decimal_name_Some _ _ _ index')) in Hn; [done|]. split; [lia|done].
Qed.

Lemma publish_spec d ft clock count s :
  snapshot_typed s →
  mwp (publish limits ft clock count s) d
    (λ _ d', published d s d' ∧
      (dk_running d' = true → ∃ s', snapshot_at limits d' s' ∧ same_snapshot s s' ∧
        ∀ s1, snapshot_at limits d s1 → last_included_index s1 < last_included_index s) ∧
      (dk_running d' = true → ft_directory ft = synchronizes → confirmed d' s))
    (λ _ d', published d s d').
Proof.
  intros Ht. unfold publish. apply mwp_bind, mwp_get, mwp_bind, mwp_lift.
  destruct (latest_newest limits d) as (current & Hlatest & Hnewest). unfold latest in Hlatest.
  rewrite Hlatest. simpl. apply mwp_bind, mwp_lift, owp_throw_when; [intros _; apply published_refl|].
  intros Hadv. assert (∀ s1, snapshot_at limits d s1 → last_included_index s1 < last_included_index s) as Hlow.
  { intros s1 Hs1. destruct current as [c|]; simpl in Hnewest; [|by destruct (Hnewest s1)].
    apply Z.leb_gt in Hadv. destruct Hnewest as [_ Hmax]. specialize (Hmax _ Hs1). lia. }
  apply mwp_bind, mwp_lift. destruct (encode_snapshot s limits) as [bytes|e] eqn:He; [|apply published_refl].
  simpl. apply mwp_bind, mwp_lift, owp_throw_when; [intros _; apply published_refl|].
  intros Hfree%bool_decide_eq_false. apply eq_None_not_Some in Hfree.
  pose proof (encode_index s bytes Ht He) as Hi.
  set (final := snapshot_name (last_included_index s)) in *.
  set (temporary := final +:+ ".tmp." +:+ unique_suffix clock count).
  assert (¬ is_snapshot_name temporary) as Hnt by by apply temporary_name.
  assert (is_snapshot_name final) as Hf by (eexists; split; [exact Hi|done]).
  assert (temporary ≠ final) as Hne by congruence.
  assert (dk_inodes d !! fresh_inode d = None) as Hfresh.
  { apply not_elem_of_dom, fresh_inode_new. }
  assert (∀ d', unlinked d temporary d' → published d s d') as Hun.
  { intros d' [Hu1 Hu2 Hu3]. split; [done|..].
    - intros name Hname. left. apply Hu2. congruence.
    - intros name v Hname Hv. left. apply Hu3; [congruence|done]. }
  assert (∀ d', linked d temporary final bytes (fresh_inode d) d' → published d s d') as Hli.
  { intros d' [Hl1 Hl2 Hl3 Hl4 Hl5]. split; [done|..].
    - intros name Hname. destruct (decide (name = final)) as [->|Hother]; [|left; apply Hl4; congruence].
      right. split; [done|]. split; [done|]. exists (fresh_inode d). split_and!; [done|done|]. by exists bytes.
    - intros name v Hname Hv. destruct (Hl5 name v) as [?|[-> ->]]; [congruence|done|by left|].
      right. split; [done|]. exists (fresh_inode d). split_and!; [done|done|]. by exists bytes. }
  eapply mwp_mono; [by apply (publish_file_spec d temporary final bytes (fresh_inode d))|..].
  - intros [] d' [Hs Hsync]. split; [destruct Hs as [?|[? _]]; auto|].
    split; [|intros Hrun Hdir].
    { intros Hrun. destruct Hs as [Hl|[_ ?]]; [|congruence]. destruct Hl as [_ Hl2 Hl3 _ _].
      destruct (stored_decodes d' s (fresh_inode d)) as (s' & Hd & Hsame); [done|by exists bytes|].
      exists s'. split; [|done]. unfold snapshot_at. rewrite (same_index _ _ Hsame). eauto. }
    destruct Hs as [Hl|[_ ?]]; [|congruence]. specialize (Hsync Hrun Hdir).
    exists (fresh_inode d). destruct Hl as [_ Hl2 Hl3 _ _]. split; [by exists bytes|].
    intros v. unfold versions. rewrite Hsync. simpl. fold final. rewrite Hl3.
    by intros ->%list_elem_of_singleton.
  - intros e d' [?|?]; auto.
Qed.

(** ** Runs with crashes and power failures *)

Inductive storage_event :=
| ev_publish (s : Snapshot) (ft : Fates) (clock count : Z) (result : outcome unit) (alive : bool)
| ev_restart
| ev_power_failure.

Inductive store_step : Disk → storage_event → Disk → Prop :=
| ss_publish d d' ft clock count s result :
    dk_running d = true → snapshot_typed s → publish limits ft clock count s d = (result, d') →
    store_step d (ev_publish s ft clock count result (dk_running d')) d'
| ss_restart d : dk_running d = false → store_step d ev_restart (start_again d)
| ss_power_failure d d' : power_failure d d' → store_step d ev_power_failure d'.

Inductive store_run (d0 : Disk) : list storage_event → Disk → Prop :=
| sr_start : store_run d0 [] d0
| sr_step events d event d' :
    store_run d0 events d → store_step d event d' → store_run d0 (events ++ [event]) d'.

(** The snapshot of a call of [publish] that returned, with the directory
    synchronized. *)
Definition confirms (event : storage_event) (s : Snapshot) : Prop :=
  match event with
  | ev_publish s' ft _ _ (Ret _) true => s' = s ∧ ft_directory ft = synchronizes
  | _ => False
  end.

Definition submits (event : storage_event) (s : Snapshot) : Prop :=
  match event with ev_publish s' _ _ _ _ _ => s' = s ∧ snapshot_typed s | _ => False end.

Lemma publish_step_spec d d' ft clock count s result :
  snapshot_typed s → publish limits ft clock count s d = (result, d') →
  published d s d' ∧ (confirms (ev_publish s ft clock count result (dk_running d')) s → confirmed d' s).
Proof.
  intros Ht Hp. pose proof (publish_spec d ft clock count s Ht) as Hw. unfold mwp in Hw. rewrite Hp in Hw.
  destruct result as [[]|e]; simpl; [|by split]. destruct Hw as (? & _ & Hc). split; [done|].
  destruct (dk_running d') eqn:Hrun; [|done]. intros [_ Hs]. by apply Hc.
Qed.

Lemma confirmed_step d event d' s :
  snapshot_typed s → confirmed d s → store_step d event d' → confirmed d' s.
Proof.
  intros Ht (inode & (bytes & He & Hf) & Hv) Hstep. exists inode.
  assert (is_snapshot_name (snapshot_name (last_included_index s))) as Hname
    by (eexists; split; [by eapply encode_index|done]).
  destruct Hstep as [d d' ft clock count s2 result Hrun Ht2 Hp|d _|d d' Hp].
  - destruct (publish_step_spec _ _ _ _ _ _ _ Ht2 Hp) as [[Hi Hn Hvs] _].
    split; [exists bytes; eauto|]. intros v Hin. destruct (Hvs _ _ Hname Hin) as [Hold|(Hnone & _)]; [auto|].
    pose proof (Hv _ (versions_now d _)). congruence.
  - split; [by exists bytes|done].
  - split; [exists bytes; split; [done|by eapply power_file]|]. intros v Hin. by eapply Hv, power_versions.
Qed.

(** Every file under a snapshot name is complete: it was there at the start or is
    the file of a snapshot handed to [publish]. *)
Definition accounted (d0 : Disk) (events : list storage_event) (d : Disk) : Prop :=
  ∀ name inode, is_snapshot_name name → Some (regular_file inode) ∈ versions d name →
  ∃ f, dk_inodes d !! inode = Some f ∧ fl_synchronized f = true ∧
    (Some (regular_file inode) ∈ versions d0 name ∧ dk_inodes d0 !! inode = Some f ∨
     ∃ event s, event ∈ events ∧ submits event s ∧ name = snapshot_name (last_included_index s) ∧
       encode_snapshot s limits = Ret (fl_bytes f)).

Lemma accounted_step d0 events d event d' :
  accounted d0 events d → store_step d event d' → accounted d0 (events ++ [event]) d'.
Proof.
  intros Hacc Hstep name inode Hname Hin.
  assert (∀ f, dk_inodes d !! inode = Some f → fl_synchronized f = true → dk_inodes d' !! inode = Some f) as Hkeep.
  { intros f Hf Hsync. destruct Hstep as [d d' ft clock count s result Hrun Ht Hp|d _|d d' Hp]; [|done|].
    - destruct (publish_step_spec _ _ _ _ _ _ _ Ht Hp) as [[Hi _ _] _]. auto.
    - by eapply power_file. }
  assert (Some (regular_file inode) ∈ versions d name ∨ ∃ s, submits event s ∧ stored d' s inode ∧
    name = snapshot_name (last_included_index s)) as [Hold|(s & Hsub & (bytes & He & Hf) & ->)].
  { destruct Hstep as [d d' ft clock count s result Hrun Ht Hp|d _|d d' Hp].
    - destruct (publish_step_spec _ _ _ _ _ _ _ Ht Hp) as [[_ _ Hv] _].
      destruct (Hv _ _ Hname Hin) as [?|(_ & i & -> & [= <-] & Hs)]; [by left|]. right. by exists s.
    - by left.
    - left. by eapply power_versions. }
  - destruct (Hacc name inode Hname Hold) as (f & Hf & Hsync & Hfrom). exists f.
    split; [by apply Hkeep|]. split; [done|]. destruct Hfrom as [?|(event' & s & ? & ?)]; [by left|].
    right. exists event', s. split; [by apply elem_of_app; left|done].
  - exists (mkFile bytes true). split; [done|]. split; [done|]. right. exists event, s.
    split; [apply elem_of_app; right; by left|done].
Qed.

Lemma run_accounted d0 events d : accounted d0 [] d0 → store_run d0 events d → accounted d0 events d.
Proof. intros H0. induction 1; [done|]. by eapply accounted_step. Qed.

Lemma run_confirmed d0 events d event s :
  store_run d0 events d → event ∈ events → confirms event s → snapshot_typed s → confirmed d s.
Proof.
  intros Hrun Hin Hc Ht. induction Hrun as [|events d event' d' Hrun IH Hstep]; [by apply elem_of_nil in Hin|].
  apply elem_of_app in Hin as [Hin| ->%list_elem_of_singleton]; [by eapply confirmed_step; eauto|].
  destruct Hstep as [d d' ft clock count s2 result Hr Ht2 Hp|d _|d d' Hp]; [|done..].
  destruct (publish_step_spec _ _ _ _ _ _ _ Ht2 Hp) as [_ Hconf].
  assert (s2 = s) as -> by (simpl in Hc; destruct result, (dk_running d'); naive_solver). by apply Hconf.
Qed.

(** A call that returned in a process that is alive shows the snapshot; any other
    call shows it or changes nothing. *)
Lemma publish_shows d ft clock count s result d' :
  snapshot_typed s → (∀ name inode, dk_names d !! name = Some (regular_file inode) → is_Some (dk_inodes d !! inode)) →
  publish limits ft clock count s d = (result, d') →
  (latest limits d = latest limits d' ∧ ¬ (result = Ret tt ∧ dk_running d' = true)) ∨
  ∃ s', latest limits d' = Ret (Some s') ∧ same_snapshot s s'.
Proof.
  intros Ht Hfiles Hp. pose proof (publish_spec d ft clock count s Ht) as Hw. unfold mwp in Hw. rewrite Hp in Hw.
  assert (published d s d' ∧ (result = Ret tt → dk_running d' = true →
    ∃ s', snapshot_at limits d' s' ∧ same_snapshot s s' ∧
      ∀ s1, snapshot_at limits d s1 → last_included_index s1 < last_included_index s)) as [[Hi Hn _] Hshown].
  { destruct result as [[]|e]; [|by split]. destruct Hw as (? & ? & _). split; [done|auto]. }
  clear Hw. destruct (latest_newest limits d) as (a & Ha & Hna). destruct (latest_newest limits d') as (b & Hb & Hnb).
  assert (∀ s1, snapshot_at limits d s1 → snapshot_at limits d' s1) as Hold.
  { intros s1 (Hidx & inode & Hname & Hd). split; [done|]. exists inode.
    destruct (Hn (snapshot_name (last_included_index s1))) as [Heq|(Hnone & _)]; [by eexists| |congruence].
    split; [congruence|]. destruct (Hfiles _ _ Hname) as [f Hf]. unfold decode_snapshot_file in *.
    rewrite Hf in Hd. by rewrite (Hi _ _ Hf). }
  assert (∀ s1, snapshot_at limits d' s1 → snapshot_at limits d s1 ∨
    same_snapshot s s1 ∧ ∀ s2, snapshot_at limits d s2 → last_included_index s2 < last_included_index s) as Hnew.
  { intros s1 (Hidx & inode & Hname & Hd).
    destruct (Hn (snapshot_name (last_included_index s1))) as [Heq|(Hnone & Hlow & i & _ & Hi' & Hst)]; [by eexists|..].
    - left. split; [done|]. exists inode. rewrite <-Heq. split; [done|]. rewrite Heq in Hname.
      destruct (Hfiles _ _ Hname) as [f Hf]. unfold decode_snapshot_file in *. rewrite Hf.
      by rewrite (Hi _ _ Hf) in Hd.
    - right. split; [|done]. destruct (stored_decodes d' s i Ht Hst) as (s' & Hd' & Hsame). congruence. }
  rewrite Ha, Hb. destruct b as [s1|]; simpl in Hnb.
  - destruct Hnb as [Hs1 Hmax]. destruct (Hnew _ Hs1) as [Hs1'|[Hsame _]]; [|by eauto]. left. split.
    + f_equal. apply (newest_unique limits d _ _ Hna). split; [done|]. intros s2 Hs2. by apply Hmax, Hold.
    + intros [Hret Hrun]. destruct (Hshown Hret Hrun) as (s' & Hs' & Hsame & Hlow).
      specialize (Hlow _ Hs1'). specialize (Hmax _ Hs'). rewrite (same_index _ _ Hsame) in Hmax. lia.
  - left. split.
    + f_equal. apply (newest_unique limits d _ _ Hna). intros s2 Hs2. by apply (Hnb s2), Hold.
    + intros [Hret Hrun]. destruct (Hshown Hret Hrun) as (s' & Hs' & _). by apply (Hnb s').
Qed.
End publication.

(** ** Theorems *)

(** C26: [latest] answers the newest valid snapshot.  It never throws, and in whatever
    order the directory is listed its answer is the snapshot with the highest index
    among the regular files whose name is the name of their index and whose contents
    are valid, or nothing when there is none; temporary and damaged files are passed
    over. *)
Theorem latest_selects_newest (H : DirectoryListing) (limits : StorageLimits) (d : Disk) (answer : option Snapshot) :
  latest limits d = Ret answer ↔ newest limits d answer.
Proof.
  destruct (latest_newest limits d) as (a & Ha & Hn). rewrite Ha. split; [by intros [= <-]|].
  intros Hb. f_equal. by eapply newest_unique.
Qed.

Lemma at_rest_accounted limits d : at_rest d → accounted limits d [] d.
Proof.
  intros [He Hf] name inode _. unfold versions. rewrite He. intros Hn%list_elem_of_singleton.
  destruct (Hf name inode) as (f & ? & ?); [done|]. exists f. split_and!; [done..|left]. split; [|done].
  by apply list_elem_of_singleton.
Qed.

Lemma run_typed `{!DirectoryListing} limits d0 events d event s :
  store_run limits d0 events d → event ∈ events → confirms event s → snapshot_typed s.
Proof.
  induction 1 as [|events d event' d' Hrun IH Hstep]; [by intros ?%elem_of_nil|].
  intros [Hin| ->%list_elem_of_singleton]%elem_of_app; [auto|].
  destruct Hstep as [d d' ft clock count s2 result Hr Ht2 Hp|d _|d d' Hp]; simpl; [|done..].
  destruct result, (dk_running d'); naive_solver.
Qed.

(** C17: Snapshots survive crashes and power failures.  Calls of [publish], each with
    any of its system calls failing, being the last one of the process or writing
    only a part, alternate with restarts and power failures, from a directory at
    rest.  At any moment [latest] answers a snapshot that was there at the beginning
    or was handed to [publish], complete and unaltered; and once [publish] of a
    snapshot has returned, with the directory synchronized, it answers that snapshot
    or one with a higher index. *)
Theorem snapshot_store_crash_safe (H : DirectoryListing) (limits : StorageLimits) (d0 d : Disk)
    (events : list storage_event) :
  snapshot_limits_typed limits → at_rest d0 → store_run limits d0 events d →
  (∀ s, latest limits d = Ret (Some s) → snapshot_at limits d0 s ∨
    ∃ event s0, event ∈ events ∧ submits event s0 ∧ same_snapshot s0 s) ∧
  (∀ event s, event ∈ events → confirms event s →
    ∃ s', latest limits d = Ret (Some s') ∧ last_included_index s ≤ last_included_index s' ∧
      (last_included_index s' = last_included_index s → same_snapshot s s')).
Proof.
  intros Hlim Hrest Hrun. destruct (latest_newest limits d) as (answer & Hl & Hnew). rewrite Hl. split.
  - intros s [= ->]. destruct Hnew as [(Hidx & inode & Hname & Hd) _].
    destruct (run_accounted limits Hlim d0 events d (at_rest_accounted _ _ Hrest) Hrun
      (snapshot_name (last_included_index s)) inode) as (f & Hf & _ & Hfrom);
      [by eexists|rewrite <-Hname; apply versions_now|].
    unfold decode_snapshot_file in Hd. rewrite Hf in Hd.
    destruct Hfrom as [[Hv Hf0]|(event & s0 & Hin & Hsub & Heq & He)].
    + left. split; [done|]. exists inode. unfold versions in Hv. rewrite (proj1 Hrest) in Hv.
      apply list_elem_of_singleton in Hv. unfold decode_snapshot_file. by rewrite Hf0.
    + right. exists event, s0. split_and!; [done..|].
      assert (snapshot_typed s0) as Ht by (destruct event; naive_solver).
      destruct (snapshot_file_round_trip s0 limits (fl_bytes f) Ht Hlim He) as (_ & checksum & Hd').
      rewrite Hd in Hd'. injection Hd' as ->. done.
  - intros event s Hin Hc. pose proof (run_typed _ _ _ _ _ _ Hrun Hin Hc) as Ht.
    destruct (run_confirmed limits Hlim d0 events d event s Hrun Hin Hc Ht) as (inode & Hst & Hv).
    destruct (stored_decodes limits Hlim d s inode Ht Hst) as (s1 & Hd1 & Hsame).
    assert (snapshot_at limits d s1) as Hat.
    { destruct Hst as (bytes & He & _). unfold snapshot_at. rewrite (same_index _ _ Hsame).
      split; [by eapply encode_index|]. exists inode. split; [by apply Hv, versions_now|done]. }
    destruct answer as [s'|]; [|by destruct (Hnew s1)]. destruct Hnew as [(_ & i' & Hn' & Hd') Hmax].
    exists s'. rewrite <-(same_index _ _ Hsame). split_and!; [done|by apply Hmax|].
    intros Heq. destruct Hat as (_ & i1 & Hn1 & Hd1'). rewrite Heq in Hn'. congruence.
Qed.

(** ** Instances *)

Definition map_listing : DirectoryListing := {| listing := map_to_list; listing_perm _ := Permutation_refl _ |}.

Definition empty_disk : Disk := mkDisk ∅ ∅ [] true.

(** A publication of [small_snapshot] on the empty disk. *)
Definition small_publication (ft : Fates) : outcome unit * Disk :=
  @publish map_listing default_storage_limits ft 255 0 small_snapshot empty_disk.

Lemma small_publication_step ft :
  @store_step map_listing default_storage_limits empty_disk
    (ev_publish small_snapshot ft 255 0 (small_publication ft).1 (dk_running (small_publication ft).2))
    (small_publication ft).2.
Proof. apply ss_publish; [done|apply small_snapshot_typed|apply surjective_pairing]. Qed.

Lemma power_failure_at_rest d :
  dk_running d = true → map_Forall (λ _ f, fl_synchronized f = true) (dk_inodes d) → dk_earlier d = [] →
  power_failure d d.
Proof.
  intros Hr Hi He. split; [|..|done|done].
  - intros name. exists (dk_names d). split; [by left|done].
  - intros i. destruct (dk_inodes d !! i) as [f|]; [by exists f|done].
  - done.
Qed.

(** Published, then the power fails. *)
Lemma snapshot_store_crash_safe_witness :
  ∃ s', @latest map_listing default_storage_limits (small_publication all_succeed).2 = Ret (Some s') ∧
    5 ≤ last_included_index s'.
Proof.
  destruct (snapshot_store_crash_safe map_listing default_storage_limits empty_disk
    (small_publication all_succeed).2
    ([ev_publish small_snapshot all_succeed 255 0 (small_publication all_succeed).1
        (dk_running (small_publication all_succeed).2)] ++ [ev_power_failure])) as [_ Hc].
  - apply default_limits_typed.
  - split; [reflexivity|]. intros name inode Hn. simpl in Hn. rewrite lookup_empty in Hn. discriminate Hn.
  - eapply sr_step; [|apply ss_power_failure, power_failure_at_rest].
    + apply (sr_step _ _ []) with (d := empty_disk); [apply sr_start|apply small_publication_step].
    + vm_compute. reflexivity.
    + apply (bool_decide_unpack _). vm_compute. exact I.
    + vm_compute. reflexivity.
  - destruct (Hc (ev_publish small_snapshot all_succeed 255 0 (small_publication all_succeed).1
      (dk_running (small_publication all_succeed).2)) small_snapshot) as (s' & Hl & Hi & _).
    + left.
    + vm_compute. auto.
    + exists s'. split; [exact Hl|exact Hi].
Defined.

(** When the last call fails, the snapshot has its name, but the directory is not
    synchronized: the power failure may undo it. *)
Definition directory_unsynchronized : Fates :=
  mkFates succeeds succeeds 0 succeeds succeeds succeeds succeeds sync_fails true.

Definition after_publication : Disk := (small_publication directory_unsynchronized).2.

(** What a power failure may leave of [d]: the files as they are, the directory as
    it was before. *)
Definition undone (d : Disk) : Disk := mkDisk (dk_inodes d) ∅ [] true.

Lemma undone_possible d :
  map_Forall (λ _ f, fl_synchronized f = true) (dk_inodes d) → ∅ ∈ dk_names d :: dk_earlier d →
  power_failure d (undone d).
Proof.
  intros Hi He. split; [|..|done|done].
  - intros name. exists ∅. by split.
  - intros i. simpl. destruct (dk_inodes d !! i) as [f|]; [by exists f|done].
  - done.
Qed.

(** C37: Truncation trusts a snapshot that is not durable.  [publish] throws when the
    directory cannot be synchronized, but [latest] then answers the new snapshot;
    [truncate_through] accepts that answer and removes a segment of the log; after a
    power failure the snapshot can be gone, and the removed entries are nowhere. *)
Theorem truncation_trusts_unsynchronized_snapshot :
  (small_publication directory_unsynchronized).1 = Throw (storage_error "system call failed") ∧
  (∃ s, @latest map_listing default_storage_limits after_publication = Ret (Some s) ∧
    last_included_index s = 5) ∧
  (∃ w0 w w' w'' kept, open_wal small_limits ∅ = Ret w0 ∧
    append small_limits None Wal.synchronize [small_entry 1; small_entry 2; small_entry 3] w0 = (Ret tt, w) ∧
    truncate_through small_limits None 2
      (@latest_index map_listing default_storage_limits after_publication) w = (Ret tt, w') ∧
    recover small_limits w' = (Ret kept, w'') ∧ small_entry 1 ∉ kept) ∧
  power_failure after_publication (undone after_publication) ∧
  @latest map_listing default_storage_limits (undone after_publication) = Ret None.
Proof.
  split_and!.
  - vm_compute. reflexivity.
  - eexists. split; [vm_compute; reflexivity|reflexivity].
  - do 5 eexists. split; [vm_compute; reflexivity|]. do 3 (split; [vm_compute; reflexivity|]).
    apply (bool_decide_unpack _). vm_compute. exact I.
  - apply undone_possible; [apply (bool_decide_unpack _); vm_compute; exact I|].
    apply (bool_decide_unpack _). vm_compute. exact I.
  - vm_compute. reflexivity.
Qed.
