(* ===== verification/WalNames.v ===== *)
(** * The files of the write-ahead log

    [Wal] keeps the directory of the log as a map from sequence numbers to
    contents.  Here are the parts of [durable_storage.cpp] that work on file names:
    the discovery of segments and the creation of a segment file; and the theorem
    that the map represents the named directory. *)

From S2P Require Import Prelude OrdMap Bytes Text RaftTypes Codec HardState Wal WalProps SnapshotFile FileNames.
From S2P Require Import Disk DiskProps SnapshotStore SnapshotStoreProps.
#[local] Open Scope Z_scope.

Definition segment_name (sequence : Z) : string := decimal_name "wal-" sequence ".kwal".

(** The loop over the directory. *)
Definition discover (found : list (Z * nat)) (item : string * dir_entry) : outcome (list (Z * nat)) :=
  match item.2 with
  | other_entry => mret found
  | regular_file inode =>
      match parse_decimal_name item.1 "wal-" ".kwal" with
      | Some sequence =>
          _ ← fail_when (sequence =? 0) "WAL segment sequence zero is invalid";
          mret (found ++ [(sequence, inode)])
      | None =>
          _ ← fail_when (starts_with item.1 "wal-" && ends_with item.1 ".kwal")
            ("malformed WAL segment filename: " +:+ item.1);
          mret found
      end
  end.

Definition lower_sequence (left right : Z * nat) : Prop := left.1 ≤ right.1.
#[global] Instance lower_sequence_dec : RelDecision lower_sequence.
Proof. unfold lower_sequence. solve_decision. Defined.

(** The check for gaps after sorting. *)
Fixpoint without_gap (previous : Z) (found : list (Z * nat)) : bool :=
  match found with
  | [] => true
  | (sequence, _) :: rest =>
      negb (previous =? u64_max) && (sequence =? previous + 1) && without_gap sequence rest
  end.

Section wal_names.
Context `{!DirectoryListing}.

(** [segment_paths]: the files of the segments in sequence order. *)
Definition named_segment_paths (d : Disk) : outcome (list (Z * nat)) :=
  found ← foldM discover [] (listing (dk_names d));
  let sorted := merge_sort lower_sequence found in
  _ ← fail_when (match sorted with
                 | [] => false
                 | (sequence, _) :: rest => negb (without_gap sequence rest)
                 end) "WAL segment sequence gap or regression";
  mret sorted.

(** The part of [create_segment] that works on the directory. *)
Definition create_segment_file (ft : Fates) (clock count sequence first_index : Z) : M Disk unit :=
  _ ← lift (fail_when ((sequence =? 0) || (first_index =? 0))
    "WAL segment sequence and first index must be nonzero");
  d ← get_state;
  let final_path := segment_name sequence in
  _ ← lift (fail_when (bool_decide (is_Some (dk_names d !! final_path)))
    "refusing to overwrite existing WAL segment");
  let temporary := final_path +:+ ".tmp." +:+ unique_suffix clock count in
  publish_file ft temporary final_path (make_segment_header sequence first_index).

(** ** The map it represents *)

Definition file_bytes (d : Disk) (inode : nat) : list byte := default [] (fl_bytes <$> dk_inodes d !! inode).

Definition segment_of (item : string * dir_entry) : option (Z * nat) :=
  match item.2, parse_decimal_name item.1 "wal-" ".kwal" with
  | regular_file inode, Some sequence => Some (sequence, inode)
  | _, _ => None
  end.

Definition segments_of (d : Disk) : gmap Z (list byte) :=
  list_to_map (prod_map id (file_bytes d) <$> omap segment_of (listing (dk_names d))).

(** A regular file that looks like a segment but whose name has no number. *)
Definition malformed (d : Disk) : Prop :=
  ∃ name inode, dk_names d !! name = Some (regular_file inode) ∧
    starts_with name "wal-" = true ∧ ends_with name ".kwal" = true ∧
    parse_decimal_name name "wal-" ".kwal" = None.

Lemma elem_of_segments d sequence inode :
  (sequence, inode) ∈ omap segment_of (listing (dk_names d)) ↔
  0 ≤ sequence ≤ u64_max ∧ dk_names d !! segment_name sequence = Some (regular_file inode).
Proof.
  rewrite list_elem_of_omap. split.
  - intros ([name [i|]] & Hin & Hx); [|done]. rewrite listing_perm, elem_of_map_to_list in Hin.
    unfold segment_of in Hx. simpl in Hx.
    destruct (parse_decimal_name name "wal-" ".kwal") as [v|] eqn:Hp; [|done]. injection Hx as -> ->.
    apply parse_decimal_name_Some in Hp as [Hv ->]. done.
  - intros [Hs Hn]. exists (segment_name sequence, regular_file inode).
    rewrite listing_perm, elem_of_map_to_list. split; [done|]. unfold segment_of. simpl.
    by rewrite (proj2 (parse_decimal_name_Some _ _ _ sequence)).
Qed.

Lemma NoDup_segments d : NoDup (omap segment_of (listing (dk_names d))).*1.
Proof.
  assert (NoDup (listing (dk_names d)).*1) as Hnd by (rewrite listing_perm; apply NoDup_fst_map_to_list).
  induction (listing (dk_names d)) as [|[name e] l IH]; [constructor|]. cbn in Hnd |- *.
  apply NoDup_cons in Hnd as [Hnot Hnd]. destruct (segment_of (name, e)) as [[q i]|] eqn:Hs; [|by apply IH].
  simpl. constructor; [|by apply IH]. intros ([q' i'] & -> & ([name' e'] & Hin & Hs')%list_elem_of_omap)%list_elem_of_fmap.
  simpl in Hs. unfold segment_of in Hs, Hs'. simpl in Hs, Hs'. destruct e, e'; try done.
  destruct (parse_decimal_name name "wal-" ".kwal") eqn:Hp; [|done].
  destruct (parse_decimal_name name' "wal-" ".kwal") eqn:Hp'; [|done].
  injection Hs as -> ->. injection Hs' as -> ->.
  apply parse_decimal_name_Some in Hp as [_ ->], Hp' as [_ ->]. apply Hnot.
  apply list_elem_of_fmap. eexists (_, _). by split; [|exact Hin].
Qed.

Lemma lookup_segments d sequence bytes :
  segments_of d !! sequence = Some bytes ↔
  0 ≤ sequence ≤ u64_max ∧
  ∃ inode, dk_names d !! segment_name sequence = Some (regular_file inode) ∧ bytes = file_bytes d inode.
Proof.
  unfold segments_of. rewrite <-elem_of_list_to_map.
  - rewrite list_elem_of_fmap. split.
    + intros ([q i] & [= -> ->] & [Hq Hn]%elem_of_segments). eauto.
    + intros (Hq & i & Hn & ->). exists (sequence, i). split; [done|]. by apply elem_of_segments.
  - rewrite <-list_fmap_compose. replace (fst ∘ prod_map id (file_bytes d)) with (@fst Z nat) by done.
    apply NoDup_segments.
Qed.

(** ** Discovery *)

Definition zero_segment : exn := storage_error "WAL segment sequence zero is invalid".

Definition bad_name (item : string * dir_entry) : Prop :=
  ∃ inode, item.2 = regular_file inode ∧ starts_with item.1 "wal-" = true ∧
    ends_with item.1 ".kwal" = true ∧ parse_decimal_name item.1 "wal-" ".kwal" = None.

Definition zero_name (item : string * dir_entry) : Prop :=
  ∃ inode, segment_of item = Some (0, inode).

Lemma discover_spec found item :
  owp (discover found item)
    (λ r, r = found ++ option_list (segment_of item) ∧ ¬ bad_name item ∧ ¬ zero_name item)
    (λ e, storage_throw e ∧ (bad_name item ∨ zero_name item ∧ e = zero_segment)).
Proof.
  destruct item as [name [inode|]]; unfold zero_name, discover, segment_of, bad_name; simpl.
  - destruct (parse_decimal_name name "wal-" ".kwal") as [v|] eqn:Hp.
    + apply owp_bind, owp_throw_when.
      * intros ->%Z.eqb_eq. split; [by eexists|right]. split; [by exists inode|done].
      * intros Hv%Z.eqb_neq. simpl. split_and!; [done|naive_solver|]. intros [i Hi]. congruence.
    + apply owp_bind, owp_throw_when.
      * intros [? ?]%andb_prop. split; [by eexists|left]. by exists inode.
      * intros Hb. simpl. rewrite app_nil_r. split_and!; [done|..].
        -- intros (i & _ & H1 & H2 & _). by rewrite H1, H2 in Hb.
        -- intros [i Hi]. done.
  - rewrite app_nil_r. split_and!; [done|naive_solver|]. intros [i Hi]. done.
Qed.

Lemma discover_all found l :
  owp (foldM discover found l)
    (λ r, r = found ++ omap segment_of l ∧ Forall (λ item, ¬ bad_name item ∧ ¬ zero_name item) l)
    (λ e, storage_throw e ∧ (Exists bad_name l ∨ Exists zero_name l ∧ e = zero_segment)).
Proof.
  revert found. induction l as [|item l IH]; intros found; simpl.
  { by rewrite app_nil_r. }
  apply owp_bind. eapply owp_mono; [apply discover_spec|..].
  - intros r _ (-> & Hb & Hz). eapply owp_mono; [apply IH|..].
    + intros r _ [-> Hall]. split; [|by constructor]. rewrite <-app_assoc. f_equal.
      by destruct (segment_of item).
    + intros e _ [He Hor]. split; [done|]. destruct Hor as [?|[? ?]]; [left; by right|right].
      split; [by right|done].
  - intros e _ [He Hor]. split; [done|]. destruct Hor as [?|[? ?]]; [left; by left|right].
    split; [by left|done].
Qed.

Lemma bad_names d : Exists bad_name (listing (dk_names d)) ↔ malformed d.
Proof.
  rewrite Exists_exists. unfold malformed, bad_name. setoid_rewrite listing_perm. split.
  - intros ([name e] & Hin & i & He & ?). simpl in *. subst e. apply elem_of_map_to_list in Hin. eauto.
  - intros (name & i & Hn & ?). exists (name, regular_file i). rewrite elem_of_map_to_list. eauto.
Qed.

Lemma zero_names d : Exists zero_name (listing (dk_names d)) ↔ is_Some (segments_of d !! 0).
Proof.
  rewrite Exists_exists. unfold zero_name. split.
  - intros (item & Hin & i & Hi).
    assert ((0, i) ∈ omap segment_of (listing (dk_names d))) as [_ Hn]%elem_of_segments
      by (apply list_elem_of_omap; eauto).
    exists (file_bytes d i). apply lookup_segments. split; [lia|eauto].
  - intros [bytes (_ & i & Hn & _)%lookup_segments].
    assert ((0, i) ∈ omap segment_of (listing (dk_names d))) as (item & ? & ?)%list_elem_of_omap
      by (apply elem_of_segments; split; [lia|done]). eauto.
Qed.

Lemma without_gap_consecutive d previous l :
  consecutive previous (prod_map id (file_bytes d) <$> l) = without_gap previous l.
Proof. revert previous. induction l as [|[q i] l IH]; intros previous; simpl; [done|]. by rewrite IH. Qed.

Lemma sorted_segments d :
  entries (segments_of d)
  = prod_map id (file_bytes d) <$> merge_sort lower_sequence (omap segment_of (listing (dk_names d))).
Proof.
  assert (Total lower_sequence) by (intros [] []; unfold lower_sequence; simpl; lia).
  assert (Transitive lower_sequence) by (intros [] [] []; unfold lower_sequence; simpl; lia).
  apply entries_unique.
  - pose proof (StronglySorted_merge_sort lower_sequence (omap segment_of (listing (dk_names d)))) as Hs.
    induction Hs as [|[q i] l Hs IH Hall]; simpl; constructor; [done|].
    rewrite Forall_fmap. eapply Forall_impl; [exact Hall|]. by intros [q' i'].
  - rewrite <-list_fmap_compose. replace (fst ∘ prod_map id (file_bytes d)) with (@fst Z nat) by done.
    rewrite merge_sort_Permutation. apply NoDup_segments.
  - unfold segments_of. apply list_to_map_proper; [|by rewrite merge_sort_Permutation].
    rewrite <-list_fmap_compose. replace (fst ∘ prod_map id (file_bytes d)) with (@fst Z nat) by done.
    rewrite merge_sort_Permutation. apply NoDup_segments.
Qed.

Lemma discovery_refines d :
  (malformed d → ∃ message, named_segment_paths d = Throw (storage_error message)) ∧
  (¬ malformed d →
   match named_segment_paths d with
   | Ret paths => segment_paths (segments_of d) = Ret (prod_map id (file_bytes d) <$> paths)
   | Throw e => segment_paths (segments_of d) = Throw e
   end).
Proof.
  pose proof (discover_all [] (listing (dk_names d))) as Hd. unfold named_segment_paths.
  destruct (foldM discover [] (listing (dk_names d))) as [found|e]; simpl in Hd |- *.
  - destruct Hd as [-> Hall]. split.
    + intros Hm%bad_names. exfalso. rewrite Exists_exists in Hm. destruct Hm as (item & Hin & Hb).
      rewrite Forall_forall in Hall. by destruct (Hall item Hin).
    + intros _. unfold segment_paths. rewrite bool_decide_false.
      2:{ intros Hz%zero_names. rewrite Exists_exists in Hz. destruct Hz as (item & Hin & Hz).
          rewrite Forall_forall in Hall. by destruct (Hall item Hin). }
      simpl. rewrite sorted_segments.
      destruct (merge_sort lower_sequence (omap segment_of (listing (dk_names d)))) as [|[q i] rest]; simpl; [done|].
      rewrite without_gap_consecutive. by destruct (without_gap q rest).
  - destruct Hd as [[message ->] Hor]. split; [intros _; by exists message|]. intros Hm.
    destruct Hor as [Hb|[Hz He]]; [by destruct Hm; apply bad_names|].
    unfold segment_paths. rewrite bool_decide_true by by apply zero_names. by rewrite He.
Qed.

(** ** Creation *)

(** Every name of a regular file stands for a file. *)
Definition files_exist (d : Disk) : Prop :=
  ∀ name inode, dk_names d !! name = Some (regular_file inode) → is_Some (dk_inodes d !! inode).

Lemma segments_of_ext d d' :
  files_exist d → (∀ i f, dk_inodes d !! i = Some f → dk_inodes d' !! i = Some f) →
  (∀ q, 0 ≤ q ≤ u64_max → dk_names d' !! segment_name q = dk_names d !! segment_name q) →
  segments_of d' = segments_of d.
Proof.
  intros Hex Hi Hn. apply map_eq. intros q. apply option_eq. intros bytes. rewrite !lookup_segments.
  split; intros (Hq & i & Hname & ->); (split; [done|]); exists i.
  - rewrite Hn in Hname by done. split; [done|]. destruct (Hex _ _ Hname) as [f Hf].
    unfold file_bytes. by rewrite Hf, (Hi _ _ Hf).
  - rewrite Hn by done. split; [done|]. destruct (Hex _ _ Hname) as [f Hf].
    unfold file_bytes. by rewrite Hf, (Hi _ _ Hf).
Qed.

Lemma segments_of_insert d d' q inode bytes b :
  files_exist d → (∀ i f, dk_inodes d !! i = Some f → dk_inodes d' !! i = Some f) →
  0 ≤ q ≤ u64_max → dk_names d' !! segment_name q = Some (regular_file inode) →
  dk_inodes d' !! inode = Some (mkFile bytes b) →
  (∀ q', 0 ≤ q' ≤ u64_max → q' ≠ q → dk_names d' !! segment_name q' = dk_names d !! segment_name q') →
  segments_of d' = <[q := bytes]> (segments_of d).
Proof.
  intros Hex Hi Hq Hname Hf Hn. apply map_eq. intros q'. apply option_eq. intros bytes'.
  destruct (decide (q' = q)) as [->|Hne].
  - rewrite lookup_insert_eq, lookup_segments. unfold file_bytes. split.
    + intros (_ & i & Hname' & ->). rewrite Hname in Hname'. injection Hname' as <-. by rewrite Hf.
    + intros [= <-]. split; [done|]. exists inode. by rewrite Hf.
  - rewrite lookup_insert_ne by done. rewrite !lookup_segments.
    split; intros (Hq' & i & Hname' & ->); (split; [done|]); exists i.
    + rewrite Hn in Hname' by done. split; [done|]. destruct (Hex _ _ Hname') as [f Hf'].
      unfold file_bytes. by rewrite Hf', (Hi _ _ Hf').
    + rewrite Hn by done. split; [done|]. destruct (Hex _ _ Hname') as [f Hf'].
      unfold file_bytes. by rewrite Hf', (Hi _ _ Hf').
Qed.

Lemma create_segment_file_spec d ft clock count q first_index :
  files_exist d → 0 ≤ q ≤ u64_max →
  let created d' := segments_of d !! q = None ∧
    segments_of d' = <[q := make_segment_header q first_index]> (segments_of d) in
  mwp (create_segment_file ft clock count q first_index) d
    (λ _ d', (dk_running d' = true → created d') ∧ (segments_of d' = segments_of d ∨ created d'))
    (λ _ d', segments_of d' = segments_of d ∨ created d').
Proof.
  intros Hex Hq created. unfold create_segment_file.
  apply mwp_bind, mwp_lift, owp_throw_when; [by left|]. intros _. apply mwp_bind, mwp_get, mwp_bind, mwp_lift.
  apply owp_throw_when; [by left|]. intros Hfree%bool_decide_eq_false. apply eq_None_not_Some in Hfree.
  set (final := segment_name q) in *.
  set (temporary := final +:+ ".tmp." +:+ unique_suffix clock count).
  assert (∀ q', 0 ≤ q' ≤ u64_max → segment_name q' ≠ temporary) as Hother.
  { intros q' Hq' Heq. assert (parse_decimal_name temporary "wal-" ".kwal" = None) as Hn
      by by apply longer_name_ignored.
    rewrite <-Heq in Hn. by rewrite (proj2 (parse_decimal_name_Some _ _ _ q')) in Hn. }
  assert (dk_inodes d !! fresh_inode d = None) as Hfresh by apply not_elem_of_dom, fresh_inode_new.
  assert (∀ d', unlinked d temporary d' → segments_of d' = segments_of d) as Hun.
  { intros d' [Hi Hn _]. apply segments_of_ext; [done..|]. intros q' Hq'. by apply Hn, Hother. }
  assert (∀ d', linked d temporary final (make_segment_header q first_index) (fresh_inode d) d' → created d') as Hli.
  { intros d' [Hi Hf Hfin Hn _]. split.
    - apply eq_None_not_Some. intros [bytes (_ & i & Hname & _)%lookup_segments].
      fold final in Hname. congruence.
    - eapply segments_of_insert; [done..|exact Hfin|exact Hf|]. intros q' Hq' Hne. apply Hn; [by apply Hother|].
      intros Heq. apply Hne. by eapply decimal_name_inj. }
  eapply mwp_mono; [apply (publish_file_spec d temporary final _ (fresh_inode d)); [|done..]|..].
  - intros Heq. by apply (Hother q Hq).
  - intros [] d' [Hs _]. split.
    + intros Hrun. destruct Hs as [?|[_ ?]]; [auto|congruence].
    + destruct Hs as [?|[? _]]; auto.
  - intros e d' [?|?]; auto.
Qed.
End wal_names.

(** C25: The map of segments represents the directory.  In whatever order the
    directory is listed, the discovery of segments returns the files of the map the
    log works on, in order, and throws exactly when that throws (sequence zero, gap)
    or when a file looks like a segment without having the name of one.  Creating a
    segment, whatever system call fails or is the last of the process, leaves the map
    as it was or adds the new segment with its complete header, and does the latter
    when it returns. *)
Theorem segment_directory_refines (H : DirectoryListing) (d : Disk) :
  files_exist d →
  (malformed d → ∃ message, named_segment_paths d = Throw (storage_error message)) ∧
  (¬ malformed d →
   match named_segment_paths d with
   | Ret paths => segment_paths (segments_of d) = Ret (prod_map id (file_bytes d) <$> paths)
   | Throw e => segment_paths (segments_of d) = Throw e
   end) ∧
  ∀ ft clock count q first_index result d',
    0 ≤ q ≤ u64_max → create_segment_file ft clock count q first_index d = (result, d') →
    let created := segments_of d !! q = None ∧
      segments_of d' = <[q := make_segment_header q first_index]> (segments_of d) in
    (segments_of d' = segments_of d ∨ created) ∧ (result = Ret tt → dk_running d' = true → created).
Proof.
  intros Hex. destruct (discovery_refines d) as [Hbad Hok]. split_and!; [done|done|].
  intros ft clock count q first_index result d' Hq Hc created.
  pose proof (create_segment_file_spec d ft clock count q first_index Hex Hq) as Hw.
  unfold mwp in Hw. rewrite Hc in Hw. destruct result as [[]|e]; [|by split].
  destruct Hw as [? ?]. split; auto.
Qed.

Lemma segment_directory_refines_witness :
  ∃ d', create_segment_file all_succeed 255 0 1 1 empty_disk = (Ret tt, d') ∧
    @segments_of map_listing d' = {[1 := make_segment_header 1 1]}.
Proof.
  destruct (create_segment_file all_succeed 255 0 1 1 empty_disk) as [result d'] eqn:Hc.
  destruct (segment_directory_refines map_listing empty_disk) as (_ & _ & Hcreate).
  - intros name inode Hn. simpl in Hn. rewrite lookup_empty in Hn. discriminate Hn.
  - destruct (Hcreate all_succeed 255 0 1 1 result d' ltac:(lia) Hc) as [_ Hr].
    assert (result = Ret tt ∧ dk_running d' = true) as [-> Hrun].
    { change result with (result, d').1. change (dk_running d') with (dk_running (result, d').2).
      rewrite <-Hc. split; vm_compute; reflexivity. }
    exists d'. split; [reflexivity|]. destruct (Hr eq_refl Hrun) as [_ ->]. reflexivity.
Defined.
