(* ===== verification/HardStateDisk.v ===== *)
(** * The hard-state file on a disk

    [FileRaftHardStateStore] of [raft_hard_state_store.cpp] over a directory whose
    system calls may fail or be the last ones of the process, and whose power may
    fail: [HardState] takes the directory for durable, here it is durable once it
    was synchronized. *)

From S2P Require Import Prelude OrdMap Bytes Text StoreTypes RaftTypes Figure2 Figure2Votes Codec HardState.
From S2P Require Import HardStateProps Wal WalProps FileNames Disk DiskProps.
#[local] Open Scope Z_scope.

Definition hard_state_name : string := "raft-hard-state.krhs".

Record DiskStore := mkDiskStore {
  ds_disk : Disk;
  ds_state : RaftHardState;
  ds_generation : Z;
  ds_healthy : bool }.

(** [load_decoded] on the directory. *)
Definition load_from (limits : StorageLimits) (d : Disk) : outcome DecodedHardState :=
  match dk_names d !! hard_state_name with
  | None => mret initial_decoded
  | Some (regular_file inode) =>
      match dk_inodes d !! inode with
      | Some f => decode (fl_bytes f) limits
      | None => fail "open failed"
      end
  | Some other_entry => fail "open failed"
  end.

(** The constructor; [create_fails] says whether the directory could not be
    created. *)
Definition open_on (limits : StorageLimits) (create_fails : bool) (d : Disk) : outcome DiskStore :=
  _ ← fail_when (sl_max_raft_hard_state_bytes limits <? hard_state_record_size)
    "Raft hard-state storage limit is smaller than the v1 record";
  _ ← fail_when create_fails "create Raft hard-state directory";
  decoded ← load_from limits d;
  mret (mkDiskStore d (dh_state decoded) (dh_generation decoded) true).

Definition load_on (limits : StorageLimits) : M DiskStore RaftHardState :=
  s ← get_state;
  _ ← lift (fail_when (negb (ds_healthy s))
    "Raft hard-state store must be reopened after a write failure");
  decoded ← lift (load_from limits (ds_disk s));
  _ ← lift (fail_when (negb (dh_generation decoded =? ds_generation s)
                       || negb (bool_decide (dh_state decoded = ds_state s)))
    "Raft hard state changed outside its owning store");
  mret (ds_state s).

(** [reached]: the fault hook of a process that is alive may throw. *)
Definition reached (hook : WriteBoundary → bool) (boundary : WriteBoundary) : M Disk unit :=
  d ← get_state;
  lift (fail_when (dk_running d && hook boundary) "fault injected").

(** [::rename] replaces the final name in one step. *)
Definition replace_atomically (f : fate) (inode : nat) (temporary final_path : string) : M Disk unit :=
  sys_call f id (λ d,
    mret (set_names (<[final_path := regular_file inode]> (delete temporary (dk_names d))) d)).

(** The [try] block of [persist] with the part of its handler that works on the
    directory. *)
Definition replace_file (ft : Fates) (hook : WriteBoundary → bool) (temporary final_path : string)
    (bytes : list byte) : M Disk unit :=
  d ← get_state;
  let inode := fresh_inode d in
  _ ← create_new (ft_create ft) temporary inode;
  _ ← on_failure
    (_ ← reached hook temporary_created;
     _ ← write_all (ft_write ft) (ft_write_size ft) inode bytes;
     _ ← reached hook record_written;
     _ ← synchronize_file (ft_synchronize ft) inode;
     _ ← reached hook temporary_synchronized;
     _ ← close_file (ft_close ft);
     _ ← reached hook temporary_closed;
     replace_atomically (ft_link ft) inode temporary final_path)
    (remove_ignored (ft_remove ft) temporary);
  _ ← reached hook final_replaced;
  _ ← synchronize_directory_best_effort (ft_directory ft);
  reached hook directory_synchronized.

Definition persist_on (ft : Fates) (hook : WriteBoundary → bool) (clock count : Z)
    (request : PersistRaftHardState) : M DiskStore RaftHardStatePersisted :=
  s ← get_state;
  _ ← lift (fail_when (negb (ds_healthy s))
    "Raft hard-state store must be reopened after a write failure");
  _ ← lift (fail_when (phs_request_id request =? 0)
    "Raft hard-state persistence request ID must be nonzero");
  _ ← lift (validate_transition (ds_state s) (phs_state request));
  if bool_decide (phs_state request = ds_state s)
  then mret (mkHardStatePersisted (phs_request_id request) (ds_state s))
  else
    _ ← lift (fail_when (ds_generation s =? u64_max) "Raft hard-state generation would overflow");
    let next_generation := ds_generation s + 1 in
    bytes ← lift (encode next_generation (phs_state request));
    let temporary := hard_state_name +:+ ".tmp." +:+ unique_suffix clock count in
    match replace_file ft hook temporary hard_state_name bytes (ds_disk s) with
    | (Throw e, d) =>
        _ ← put_state (mkDiskStore d (ds_state s) (ds_generation s) false);
        lift (Throw e)
    | (Ret _, d) =>
        _ ← put_state (mkDiskStore d (phs_state request) next_generation true);
        mret (mkHardStatePersisted (phs_request_id request) (phs_state request))
    end.

(** ** Replacement *)

Lemma reached_spec hook boundary d (Q : unit → Disk → Prop) E :
  Q tt d → (∀ e, E e d) → mwp (reached hook boundary) d Q E.
Proof. intros HQ HE. unfold reached. apply mwp_bind, mwp_get, mwp_lift, owp_throw_when; auto. Qed.

Section replacement.
Context (d0 : Disk) (temporary final_path : string) (bytes : list byte) (inode : nat).
Context (Htemp : temporary ≠ final_path) (Hinode : dk_inodes d0 !! inode = None).

Lemma replace_linked d :
  unlinked d0 temporary d → dk_inodes d !! inode = Some (mkFile bytes true) →
  linked d0 temporary final_path bytes inode
    (set_names (<[final_path := regular_file inode]> (delete temporary (dk_names d))) d).
Proof.
  intros [Hi Hn Hv] Hf. split; simpl; try done.
  - apply lookup_insert_eq.
  - intros name Hne Hne'. rewrite lookup_insert_ne, lookup_delete_ne by done. auto.
  - intros name v Hne [->|Hin]%versions_set_names; [|auto].
    destruct (decide (name = final_path)) as [->|Hne']; [rewrite lookup_insert_eq; auto|].
    rewrite lookup_insert_ne, lookup_delete_ne by done. left. apply Hv; [done|]. apply versions_now.
Qed.

Lemma replace_spec f d :
  unlinked d0 temporary d → running_has inode (mkFile bytes true) d →
  mwp (replace_atomically f inode temporary final_path) d
    (λ _ d', settled d0 temporary final_path bytes inode d') (λ _ d', unlinked d0 temporary d').
Proof.
  intros Hu Hr. apply sys_call_spec.
  - intros Hdead. by right.
  - intros _ _. right. split; [by apply unlinked_stop|done].
  - done.
  - intros Hrun _. left. by apply replace_linked; [|apply Hr].
Qed.

Lemma replace_file_spec ft hook :
  inode = fresh_inode d0 →
  mwp (replace_file ft hook temporary final_path bytes) d0
    (λ _ d', settled d0 temporary final_path bytes inode d' ∧
      (dk_running d' = true → ft_directory ft = synchronizes → dk_earlier d' = []))
    (λ _ d', unlinked d0 temporary d' ∨ linked d0 temporary final_path bytes inode d').
Proof.
  intros Hfresh. unfold replace_file. apply mwp_bind, mwp_get. rewrite <-Hfresh. apply mwp_bind.
  eapply mwp_mono; [by apply create_spec| |by auto]. intros [] d1 [Hu Hr]. apply mwp_bind, mwp_on_failure.
  assert (∀ d, unlinked d0 temporary d ∨ linked d0 temporary final_path bytes inode d →
    unlinked d0 temporary (remove_ignored (ft_remove ft) temporary d) ∨
    linked d0 temporary final_path bytes inode (remove_ignored (ft_remove ft) temporary d)) as Hcut
    by by apply remove_either.
  apply mwp_bind, reached_spec; [|by auto]. apply mwp_bind.
  eapply mwp_mono; [by apply write_spec| |by auto]. intros [] d2 [Hu2 Hr2].
  apply mwp_bind, reached_spec; [|by auto]. apply mwp_bind.
  eapply mwp_mono; [by apply synchronize_spec| |by auto]. intros [] d3 [Hu3 Hr3].
  apply mwp_bind, reached_spec; [|by auto]. apply mwp_bind.
  eapply mwp_mono; [by apply close_spec| |by auto]. intros [] d4 [Hu4 Hr4].
  apply mwp_bind, reached_spec; [|by auto].
  eapply mwp_mono; [by apply replace_spec| |by auto]. intros [] d5 Hs.
  assert (unlinked d0 temporary d5 ∨ linked d0 temporary final_path bytes inode d5) as H5
    by (destruct Hs as [?|[? _]]; auto).
  apply mwp_bind, reached_spec; [|by auto]. apply mwp_bind.
  eapply mwp_mono; [by apply directory_spec| |by auto]. intros [] d6 [Hs6 He6].
  apply reached_spec; [by auto|]. intros _. destruct Hs6 as [?|[? _]]; auto.
Qed.
End replacement.
