(* ===== verification/HardStateDiskProps.v ===== *)
(** * The hard state survives power failures

    A term and vote that [persist] wrote and acknowledged are never forgotten,
    whatever calls fail and whenever the process dies or the power fails; and the
    one way in which an acknowledgement can be premature. *)

From S2P Require Import Prelude OrdMap Bytes Text StoreTypes RaftTypes Figure2 Figure2Votes Codec HardState.
From S2P Require Import HardStateProps Wal WalProps FileNames Disk DiskProps HardStateDisk.
#[local] Open Scope Z_scope.

(** ** What the name can stand for *)

Definition version_ok (limits : StorageLimits) (P : RaftHardState → Prop) (d : Disk)
    (v : option dir_entry) : Prop :=
  match v with
  | None => P (dh_state initial_decoded)
  | Some (regular_file inode) =>
      ∃ f decoded, dk_inodes d !! inode = Some f ∧ fl_synchronized f = true ∧
        decode (fl_bytes f) limits = Ret decoded ∧ P (dh_state decoded)
  | Some other_entry => False
  end.

(** Whatever the power failure brings back, the hard state satisfies [P]. *)
Definition all_versions (limits : StorageLimits) (P : RaftHardState → Prop) (d : Disk) : Prop :=
  ∀ v, v ∈ versions d hard_state_name → version_ok limits P d v.

(** Predicates that later hard states inherit. *)
Definition inherited (P : RaftHardState → Prop) : Prop := ∀ h h', follows h h' → P h → P h'.

Lemma inherited_follows h : inherited (follows h).
Proof. intros h1 h2 H12 H1. by eapply follows_trans. Qed.

(** A healthy owner in a process that is alive has what is stored. *)
Definition owner_ok (limits : StorageLimits) (s : DiskStore) : Prop :=
  dk_running (ds_disk s) = true → ds_healthy s = true →
  load_from limits (ds_disk s) = Ret (mkDecoded (ds_generation s) (ds_state s)).

Section survival.
Context (limits : StorageLimits) (Hlimits : record_fits limits).

Lemma load_version P d :
  all_versions limits P d → ∃ decoded, load_from limits d = Ret decoded ∧ P (dh_state decoded) ∧ decoded_ok decoded.
Proof.
  intros Hall. specialize (Hall _ (versions_now d hard_state_name)). unfold load_from.
  destruct (dk_names d !! hard_state_name) as [[inode|]|]; simpl in Hall.
  - destruct Hall as (f & decoded & -> & _ & Hd & HP). exists decoded. split_and!; [done|done|].
    by eapply decode_ok.
  - done.
  - exists initial_decoded. split_and!; [done|done|]. split; simpl; [lia|]. split; simpl; [lia|done|done].
Qed.

Lemma version_keep P d d' v :
  (∀ i f, dk_inodes d !! i = Some f → fl_synchronized f = true → dk_inodes d' !! i = Some f) →
  version_ok limits P d v → version_ok limits P d' v.
Proof.
  intros Hi. destruct v as [[inode|]|]; simpl; [|done..]. intros (f & decoded & Hf & Hs & ?).
  exists f, decoded. split; [by apply Hi|done].
Qed.

Lemma power_all_versions P d d' : power_failure d d' → all_versions limits P d → all_versions limits P d'.
Proof.
  intros Hp Hall v Hv. eapply version_keep; [intros i f; by apply power_file|].
  by eapply Hall, power_versions.
Qed.

Lemma restart_all_versions P d : all_versions limits P d → all_versions limits P (start_again d).
Proof. intros Hall v Hv. eapply version_keep; [|by apply Hall]. done. Qed.

Lemma temporary_differs rest : (hard_state_name +:+ ".tmp." +:+ rest) ≠ hard_state_name.
Proof.
  intros Heq. apply (f_equal String.length) in Heq. rewrite !length_append in Heq. simpl in Heq. lia.
Qed.

(** ** A call *)

Lemma replaced_versions P d d' temporary g st inode :
  linked d temporary hard_state_name (record_bytes g st) inode d' → temporary ≠ hard_state_name →
  0 < g ≤ u64_max → hard_state_ok st → P st → all_versions limits P d →
  all_versions limits P d' ∧ load_from limits d' = Ret (mkDecoded g st).
Proof.
  intros [Hi Hf Hfin _ Hv] Hne Hg Hst HP Hall.
  assert (decode (record_bytes g st) limits = Ret (mkDecoded g st)) as Hd by by apply decode_record_bytes.
  split; [|unfold load_from; rewrite Hfin, Hf; done].
  intros v Hin. destruct (Hv _ _ (not_eq_sym Hne) Hin) as [Hold|[_ ->]].
  - eapply version_keep; [|by apply Hall]. auto.
  - exists (mkFile (record_bytes g st) true), (mkDecoded g st). done.
Qed.

Lemma persist_on_spec P ft hook clock count request s :
  inherited P → all_versions limits P (ds_disk s) → owner_ok limits s → dk_running (ds_disk s) = true →
  request_fits request →
  mwp (persist_on ft hook clock count request) s
    (λ _ s', all_versions limits P (ds_disk s') ∧ owner_ok limits s' ∧
      (dk_running (ds_disk s') = true → ds_generation s' ≠ ds_generation s → ft_directory ft = synchronizes →
       all_versions limits (follows (phs_state request)) (ds_disk s')))
    (λ _ s', all_versions limits P (ds_disk s') ∧ owner_ok limits s').
Proof.
  intros HP Hall Hown Hrun Hreq. unfold persist_on. apply mwp_bind, mwp_get.
  apply mwp_bind, mwp_lift, owp_throw_when; [done|]. intros Hh%negb_false_iff.
  apply mwp_bind, mwp_lift, owp_throw_when; [done|]. intros _.
  apply mwp_bind, mwp_lift. destruct (validate_transition _ _) as [[]|e] eqn:Hval; [|done].
  destruct (request_ok _ _ Hreq Hval) as [Hf Hst]. cbn [owp].
  destruct (bool_decide _); [apply mwp_ret; naive_solver|].
  destruct (load_version P (ds_disk s) Hall) as (decoded & Hload & HPd & Hdec).
  rewrite (Hown Hrun Hh) in Hload. injection Hload as <-. destruct Hdec as [Hg _]. simpl in Hg, HPd.
  apply mwp_bind, mwp_lift, owp_throw_when; [done|]. intros Hmax%Z.eqb_neq.
  apply mwp_bind, mwp_lift. rewrite encode_record_bytes by (done || lia). cbn [owp].
  set (temporary := hard_state_name +:+ ".tmp." +:+ unique_suffix clock count).
  assert (temporary ≠ hard_state_name) as Hne by apply temporary_differs.
  assert (dk_inodes (ds_disk s) !! fresh_inode (ds_disk s) = None) as Hfresh
    by apply not_elem_of_dom, fresh_inode_new.
  set (g := ds_generation s + 1). set (st := phs_state request) in *.
  pose proof (replace_file_spec (ds_disk s) temporary hard_state_name (record_bytes g st)
    (fresh_inode (ds_disk s)) Hne Hfresh ft hook eq_refl) as Hw. unfold mwp in Hw.
  assert (∀ d', unlinked (ds_disk s) temporary d' → all_versions limits P d') as Hun.
  { intros d' [Hi _ Hv] v Hin. eapply version_keep; [|apply Hall, Hv; [exact (not_eq_sym Hne)|exact Hin]]. auto. }
  assert (∀ d', linked (ds_disk s) temporary hard_state_name (record_bytes g st) (fresh_inode (ds_disk s)) d' →
    all_versions limits P d' ∧ load_from limits d' = Ret (mkDecoded g st)) as Hli.
  { intros d' Hl. eapply replaced_versions; [done|done|subst g; lia|done| |done]. by eapply HP. }
  destruct (replace_file ft hook temporary hard_state_name (record_bytes g st) (ds_disk s)) as [[u|e] d'].
  - destruct Hw as [Hs Hsync]. apply mwp_bind, mwp_put, mwp_ret. simpl. split_and!.
    + destruct Hs as [Hl|[Hu _]]; [by apply Hli|by apply Hun].
    + intros Hrun' _. simpl in *. destruct Hs as [Hl|[_ ?]]; [by apply Hli|congruence].
    + intros Hrun' _ Hdir v. specialize (Hsync Hrun' Hdir). destruct Hs as [Hl|[_ ?]]; [|congruence].
      unfold versions. cbn [ds_disk]. rewrite Hsync. cbn [fmap list_fmap]. rewrite (lk_final _ _ _ _ _ _ Hl).
      intros ->%list_elem_of_singleton. exists (mkFile (record_bytes g st) true), (mkDecoded g st).
      split_and!; [apply (lk_file _ _ _ _ _ _ Hl)|done| |apply follows_refl].
      apply decode_record_bytes; [done|subst g; lia|done].
  - apply mwp_bind, mwp_put, mwp_lift. simpl. split; [|done].
    destruct Hw as [Hu|Hl]; [by apply Hun|by apply Hli].
Qed.

(** ** Runs *)

Inductive owner_event :=
| ev_persist (request : PersistRaftHardState) (ft : Fates) (result : outcome RaftHardStatePersisted)
    (alive wrote : bool)
| ev_reopen
| ev_power.

(** The owner calls [persist]; it may be opened again at any time, after a failure
    or the death of the process; and the power may fail. *)
Inductive disk_step : DiskStore → owner_event → DiskStore → Prop :=
| dst_persist s s' ft hook clock count request result :
    dk_running (ds_disk s) = true → request_fits request →
    persist_on ft hook clock count request s = (result, s') →
    disk_step s (ev_persist request ft result (dk_running (ds_disk s'))
      (negb (ds_generation s' =? ds_generation s))) s'
| dst_reopen s s' :
    open_on limits false (start_again (ds_disk s)) = Ret s' → disk_step s ev_reopen s'
| dst_power s d' s' :
    power_failure (ds_disk s) d' → open_on limits false d' = Ret s' → disk_step s ev_power s'.

Inductive disk_run (s0 : DiskStore) : list owner_event → DiskStore → Prop :=
| dr_start : disk_run s0 [] s0
| dr_step events s event s' :
    disk_run s0 events s → disk_step s event s' → disk_run s0 (events ++ [event]) s'.

(** [persist] wrote the state and returned, with the directory synchronized. *)
Definition acknowledges (event : owner_event) (st : RaftHardState) : Prop :=
  match event with
  | ev_persist request ft (Ret _) true true => phs_state request = st ∧ ft_directory ft = synchronizes
  | _ => False
  end.

Lemma open_on_ok P d :
  all_versions limits P d →
  ∃ s, open_on limits false d = Ret s ∧ P (ds_state s) ∧ ds_disk s = d ∧ owner_ok limits s.
Proof.
  intros Hall. destruct (load_version P d Hall) as (decoded & Hl & HP & _). unfold open_on.
  destruct (Z.ltb_spec (sl_max_raft_hard_state_bytes limits) hard_state_record_size) as [Hlt|_];
    [unfold record_fits in Hlimits; lia|]. simpl. rewrite Hl. simpl. eexists. split_and!; [done|done|done|].
  intros _ _. simpl. rewrite Hl. by destruct decoded.
Qed.

Lemma disk_step_ok P s event s' :
  inherited P → all_versions limits P (ds_disk s) → owner_ok limits s → disk_step s event s' →
  all_versions limits P (ds_disk s') ∧ owner_ok limits s' ∧
  ∀ st, acknowledges event st → all_versions limits (follows st) (ds_disk s').
Proof.
  intros HP Hall Hown Hstep.
  destruct Hstep as [s1 s2 ft hook clock count request result Hrun Hreq Hp|s1 s2 Ho|s1 d' s2 Hpow Ho].
  - pose proof (persist_on_spec P ft hook clock count request s1 HP Hall Hown Hrun Hreq) as Hw.
    unfold mwp in Hw. rewrite Hp in Hw. destruct result as [r|e]; [|by destruct Hw].
    destruct Hw as (? & ? & Hack). split_and!; [done|done|]. intros st. simpl.
    destruct (dk_running (ds_disk s2)) eqn:Hr; [|done].
    destruct (Z.eqb_spec (ds_generation s2) (ds_generation s1)); [done|]. intros [<- Hd]. auto.
  - destruct (open_on_ok P (start_again (ds_disk s1))) as (s3 & Ho3 & _ & Hd3 & Hown3);
      [by apply restart_all_versions|]. rewrite Ho in Ho3. injection Ho3 as <-. rewrite Hd3.
    split_and!; [by apply restart_all_versions|done|done].
  - destruct (open_on_ok P d') as (s3 & Ho3 & _ & Hd3 & Hown3); [by eapply power_all_versions|].
    rewrite Ho in Ho3. injection Ho3 as <-. rewrite Hd3. split_and!; [by eapply power_all_versions|done|done].
Qed.

Lemma disk_run_ok P s0 events s :
  inherited P → all_versions limits P (ds_disk s0) → owner_ok limits s0 → disk_run s0 events s →
  all_versions limits P (ds_disk s) ∧ owner_ok limits s ∧
  ∀ event st, event ∈ events → acknowledges event st → all_versions limits (follows st) (ds_disk s).
Proof.
  intros HP Hall Hown. induction 1 as [|events s event s' Hrun (IHall & IHown & IHack) Hstep].
  { split_and!; [done|done|]. by intros event st ?%elem_of_nil. }
  destruct (disk_step_ok P _ _ _ HP IHall IHown Hstep) as (? & ? & Hack). split_and!; [done|done|].
  intros event' st [Hin| ->%list_elem_of_singleton]%elem_of_app Ha; [|by apply Hack].
  exact (proj1 (disk_step_ok (follows st) _ _ _ (inherited_follows st) (IHack _ _ Hin Ha) IHown Hstep)).
Qed.
End survival.

Lemma open_at_rest limits d s :
  at_rest d → open_on limits false d = Ret s →
  record_fits limits ∧ ds_disk s = d ∧ all_versions limits (follows (ds_state s)) d ∧ owner_ok limits s.
Proof.
  intros [He Hf] Ho. unfold open_on, fail_when in Ho.
  apply bind_Ret in Ho as (_ & Hlim%throw_when_Ret%Z.ltb_ge & Ho). apply bind_Ret in Ho as (_ & _ & Ho).
  apply bind_Ret in Ho as (decoded & Hl & <-%Ret_inj). simpl. split_and!; [done|done| |].
  - intros v. unfold versions. rewrite He. intros ->%list_elem_of_singleton. unfold load_from in Hl.
    destruct (dk_names d !! hard_state_name) as [[inode|]|] eqn:Hn; simpl.
    + destruct (Hf _ _ Hn) as (f & Hi & Hs). rewrite Hi in Hl. exists f, decoded.
      split_and!; [done..|apply follows_refl].
    + done.
    + injection Hl as <-. apply follows_refl.
  - intros _ _. simpl. rewrite Hl. by destruct decoded.
Qed.

(** C16: An acknowledged hard state is never forgotten.  Calls of [persist], with any
    failing system call, fault hook, partial write or death of the process,
    alternate with reopenings and power failures, from a directory at rest.  At any
    moment, after a power failure as after a restart, the store can be opened, and
    its term and vote are legal successors of those it held at the beginning and of
    every one that [persist] wrote and returned from, with the directory
    synchronized: the term does not decrease and a vote within a term is kept. *)
Theorem acknowledged_hard_state_survives (limits : StorageLimits) (d0 d' : Disk) (s0 s : DiskStore)
    (events : list owner_event) :
  at_rest d0 → open_on limits false d0 = Ret s0 → disk_run limits s0 events s →
  power_failure (ds_disk s) d' ∨ d' = start_again (ds_disk s) →
  ∃ s', open_on limits false d' = Ret s' ∧ follows (ds_state s0) (ds_state s') ∧
    ∀ event st, event ∈ events → acknowledges event st → follows st (ds_state s').
Proof.
  intros Hrest Hopen Hrun Hd'.
  destruct (open_at_rest limits d0 s0 Hrest Hopen) as (Hlim & Hd0 & Hall & Hown).
  rewrite <-Hd0 in Hall.
  destruct (disk_run_ok limits Hlim (follows (ds_state s0)) s0 events s) as (Hall' & _ & Hack);
    [apply inherited_follows|done..|].
  assert (∀ P, all_versions limits P (ds_disk s) → all_versions limits P d') as Hd.
  { intros P HP. destruct Hd' as [Hp| ->]; [by eapply power_all_versions|by apply restart_all_versions]. }
  destruct (open_on_ok limits Hlim _ _ (Hd _ Hall')) as (s' & Ho & Hf & _). exists s'. split_and!; [done|done|].
  intros event st Hin Ha. destruct (open_on_ok limits Hlim _ _ (Hd _ (Hack event st Hin Ha))) as (s2 & Ho2 & ? & _).
  congruence.
Qed.

(** ** Instances *)

Definition bare_disk : Disk := mkDisk ∅ ∅ [] true.
Definition no_hook (boundary : WriteBoundary) : bool := false.

Definition bare_store : DiskStore := mkDiskStore bare_disk (mkHardState 0 None) 0 true.

(** A call on the empty directory. *)
Definition first_call (ft : Fates) : outcome RaftHardStatePersisted * DiskStore :=
  persist_on ft no_hook 255 0 first_request bare_store.

Lemma bare_at_rest : at_rest bare_disk.
Proof. split; [done|]. intros name inode Hn. simpl in Hn. by rewrite lookup_empty in Hn. Qed.

Lemma bare_opens : open_on default_storage_limits false bare_disk = Ret bare_store.
Proof. vm_compute. reflexivity. Qed.

Lemma acknowledged_hard_state_survives_witness :
  ∃ s', open_on default_storage_limits false (start_again (ds_disk (first_call all_succeed).2)) = Ret s' ∧
    follows voted_state (ds_state s').
Proof.
  destruct (acknowledged_hard_state_survives default_storage_limits bare_disk
    (start_again (ds_disk (first_call all_succeed).2)) bare_store (first_call all_succeed).2
    ([] ++ [ev_persist first_request all_succeed (first_call all_succeed).1
       (dk_running (ds_disk (first_call all_succeed).2))
       (negb (ds_generation (first_call all_succeed).2 =? ds_generation bare_store))])) as (s' & Ho & _ & Hack).
  - apply bare_at_rest.
  - apply bare_opens.
  - eapply dr_step; [apply dr_start|]. eapply dst_persist; [reflexivity|apply first_request_fits|].
    apply surjective_pairing.
  - right. reflexivity.
  - exists s'. split; [exact Ho|]. eapply Hack; [left|]. vm_compute. auto.
Defined.

(** A disk that lost its last directory change. *)
Definition directory_lost (d : Disk) : Disk := mkDisk (dk_inodes d) ∅ [] true.

(** The directory cannot be synchronized. *)
Definition unsynchronized : Fates :=
  mkFates succeeds succeeds 0 succeeds succeeds succeeds succeeds sync_fails true.

Definition after_failure : DiskStore := (first_call unsynchronized).2.
Definition reopened : DiskStore :=
  mkDiskStore (ds_disk after_failure) voted_state 1 true.

(** C38: A reopened store acknowledges what is not durable.  [persist] of a vote throws
    because the directory cannot be synchronized; the store is opened again and reads
    the vote; [persist] of the same vote now returns, without any system call; and
    after a power failure the store can be found without the vote, and accepts a vote
    for another candidate in the same term. *)
Theorem reopened_store_acknowledges_undurable_vote :
  (first_call unsynchronized).1 = Throw (storage_error "system call failed") ∧
  open_on default_storage_limits false (start_again (ds_disk after_failure)) = Ret reopened ∧
  persist_on all_succeed no_hook 255 1 first_request reopened
    = (Ret (mkHardStatePersisted 1 voted_state), reopened) ∧
  power_failure (ds_disk reopened) (directory_lost (ds_disk reopened)) ∧
  ∃ s s', open_on default_storage_limits false (directory_lost (ds_disk reopened)) = Ret s ∧
    persist_on all_succeed no_hook 255 0 (mkPersistHardState 1 (mkHardState 3 (Some 1))) s
      = (Ret (mkHardStatePersisted 1 (mkHardState 3 (Some 1))), s') ∧
    voted_state = mkHardState 3 (Some 2).
Proof.
  split_and!.
  - vm_compute. reflexivity.
  - vm_compute. reflexivity.
  - vm_compute. reflexivity.
  - split; [|..|done|done].
    + intros name. exists ∅. split; [|done]. apply (bool_decide_unpack _). vm_compute. exact I.
    + intros i. simpl. destruct (_ !! i) as [f|]; [by exists f|done].
    + assert (map_Forall (λ _ f, fl_synchronized f = true) (dk_inodes (ds_disk reopened))) as Hall
        by (apply (bool_decide_unpack _); vm_compute; exact I).
      exact Hall.
  - do 2 eexists. split; [vm_compute; reflexivity|]. split; [vm_compute; reflexivity|done].
Qed.
