(* ===== verification/RaftMessages.v ===== *)
(** * Raft messages and records on the wire

    The byte formats of [raft_election.cpp]: the six messages servers exchange
    and the four records a simulated server keeps in its storage (hard state,
    log, applied index, snapshot).

    The C++ decoders take the bytes and an offset that they advance; here a
    [reader] consumes the bytes from that offset on.  The encoders append to a
    buffer; here they return what is appended. *)

From S2P Require Import Prelude OrdMap Bytes StoreTypes RaftTypes Codec.
#[local] Open Scope Z_scope.

(** ** Snapshot messages *)

Record RaftSnapshot := mkSnapshot {
  sn_metadata : SnapshotMetadata;
  sn_state : list byte;
  sn_checksum : Z }.

Record InstallSnapshotRequest := mkInstall {
  is_term : Z;
  is_leader : Z;
  is_transfer_id : Z;
  is_metadata : SnapshotMetadata;
  is_offset : Z;
  is_total_size : Z;
  is_chunk : list byte;
  is_state_checksum : Z;
  is_done : bool;
  is_read_context : option Z }.

Record InstallSnapshotResponse := mkInstallResponse {
  ir_term : Z;
  ir_transfer_id : Z;
  ir_succeeded : bool;
  ir_last_included_index : Z;
  ir_read_context : option Z }.

(** ** Tags *)

Definition request_vote_tag : Z := 1.
Definition request_vote_response_tag : Z := 2.
Definition hard_state_tag : Z := 3.
Definition append_entries_tag : Z := 4.
Definition append_entries_response_tag : Z := 5.
Definition log_state_tag : Z := 6.
Definition applied_state_tag : Z := 7.
Definition install_snapshot_tag : Z := 8.
Definition install_snapshot_response_tag : Z := 9.
Definition snapshot_state_tag : Z := 10.

(** ** Writing *)

Definition push_back (value : Z) : list byte := [byte.of_Z value].
Definition append_u32 (value : Z) : list byte := append_le 4 value.
Definition append_u64 (value : Z) : list byte := append_le 8 value.
Definition flag (b : bool) : Z := if b then 1 else 0.

(** [static_cast] between [std::int64_t] and [std::uint64_t]; the first is
    [u64]. *)
Definition to_i64 (value : Z) : Z := if i64_max <? value then value - 2 ^ 64 else value.
Definition append_i64 (value : Z) : list byte := append_u64 (u64 value).

(** A count and the items, as the encoders write vectors. *)
Definition append_counted {A} (write : A → list byte) (items : list A) : list byte :=
  append_u64 (Z.of_nat (length items)) ++ concat (write <$> items).

Definition encode_metadata (m : SnapshotMetadata) : list byte :=
  append_u64 (sm_last_included_index m)
  ++ append_u64 (sm_last_included_term m)
  ++ append_i64 (sm_store_revision m)
  ++ append_i64 (sm_compaction_revision m)
  ++ append_u32 (sm_format_version m)
  ++ append_counted append_u64 (mb_voters (sm_membership m))
  ++ append_counted append_u64 (mb_learners (sm_membership m)).

Definition append_blob (bytes : list byte) : list byte := append_u64 (bytes_size bytes) ++ bytes.

Definition encode_entry (e : LogEntry) : list byte :=
  append_u64 (en_term e)
  ++ append_u64 (en_index e)
  ++ append_u64 (rid_client (cmd_request_id (en_command e)))
  ++ append_u64 (rid_sequence (cmd_request_id (en_command e)))
  ++ append_u32 (cmd_type_tag (en_command e))
  ++ append_blob (cmd_payload (en_command e)).

Definition encode_context (context : option Z) : list byte :=
  push_back (flag (bool_decide (is_Some context))) ++ append_u64 (default 0 context).

Definition encode_request_vote (q : RequestVoteRequest) : list byte :=
  push_back request_vote_tag
  ++ append_u64 (rv_term q)
  ++ append_u64 (rv_candidate q)
  ++ append_u64 (rv_last_log_index q)
  ++ append_u64 (rv_last_log_term q).

Definition encode_request_vote_response (q : RequestVoteResponse) : list byte :=
  push_back request_vote_response_tag
  ++ append_u64 (vr_term q)
  ++ push_back (flag (vr_granted q)).

Definition encode_append_entries (q : AppendEntriesRequest) : list byte :=
  push_back append_entries_tag
  ++ append_u64 (ae_term q)
  ++ append_u64 (ae_leader q)
  ++ append_u64 (ae_previous_log_index q)
  ++ append_u64 (ae_previous_log_term q)
  ++ append_u64 (ae_leader_commit q)
  ++ encode_context (ae_read_context q)
  ++ append_counted encode_entry (ae_entries q).

Definition encode_append_entries_response (q : AppendEntriesResponse) : list byte :=
  push_back append_entries_response_tag
  ++ append_u64 (ar_term q)
  ++ push_back (flag (ar_succeeded q))
  ++ append_u64 (ar_matched_index q)
  ++ encode_context (ar_read_context q).

Definition encode_install_snapshot (q : InstallSnapshotRequest) : list byte :=
  push_back install_snapshot_tag
  ++ append_u64 (is_term q)
  ++ append_u64 (is_leader q)
  ++ append_u64 (is_transfer_id q)
  ++ encode_metadata (is_metadata q)
  ++ append_u64 (is_offset q)
  ++ append_u64 (is_total_size q)
  ++ append_u32 (is_state_checksum q)
  ++ push_back (flag (is_done q))
  ++ encode_context (is_read_context q)
  ++ append_blob (is_chunk q).

Definition encode_install_snapshot_response (q : InstallSnapshotResponse) : list byte :=
  push_back install_snapshot_response_tag
  ++ append_u64 (ir_term q)
  ++ append_u64 (ir_transfer_id q)
  ++ push_back (flag (ir_succeeded q))
  ++ append_u64 (ir_last_included_index q)
  ++ encode_context (ir_read_context q).

Definition encode_snapshot_state (s : RaftSnapshot) : list byte :=
  push_back snapshot_state_tag
  ++ encode_metadata (sn_metadata s)
  ++ append_u32 (crc32c (sn_state s))
  ++ append_blob (sn_state s).

Definition encode_hard_state (h : RaftHardState) : list byte :=
  push_back hard_state_tag
  ++ append_u64 (hs_current_term h)
  ++ push_back (flag (bool_decide (is_Some (hs_voted_for h))))
  ++ append_u64 (default 0 (hs_voted_for h)).

Definition encode_log (log : list LogEntry) : list byte :=
  push_back log_state_tag ++ append_counted encode_entry log.

Definition encode_applied (index : Z) : list byte :=
  push_back applied_state_tag ++ append_u64 index.

(** ** Reading *)

Definition reader (A : Type) : Type := M (list byte) A.

Definition reject {A} (message : string) : reader A := lift (Throw (invalid_argument message)).
Definition reject_when (b : bool) (message : string) : reader unit :=
  lift (throw_when b (invalid_argument message)).

(** [bytes.size() - offset] *)
Definition remaining : reader Z := λ bytes, (Ret (bytes_size bytes), bytes).

Definition read_bytes (count : nat) : reader (list byte) := λ bytes,
  (Ret (take count bytes), drop count bytes).
Definition read_rest : reader (list byte) := λ bytes, (Ret bytes, []).

Definition read_int (size : nat) : reader Z :=
  left ← remaining;
  _ ← reject_when (left <? Z.of_nat size) "truncated Raft payload";
  bytes ← read_bytes size;
  mret (le_combine bytes).

Definition read_u32 : reader Z := read_int 4.
Definition read_u64 : reader Z := read_int 8.
Definition read_i64 : reader Z := value ← read_u64; mret (to_i64 value).

(** [bytes[offset++]], after the check that there is such a byte. *)
Definition read_byte (message : string) : reader Z := λ bytes,
  match bytes with
  | [] => (Throw (invalid_argument message), bytes)
  | b :: rest => (Ret (byte.unsigned b), rest)
  end.

Fixpoint read_many {A} (read : reader A) (count : nat) : reader (list A) :=
  match count with
  | O => mret []
  | S count' => x ← read; xs ← read_many read count'; mret (x :: xs)
  end.

(** A count, checked against the bytes that are left, and that many items. *)
Definition read_counted {A} (width : Z) (message : string) (read : reader A)
    : reader (list A) :=
  count ← read_u64;
  left ← remaining;
  _ ← reject_when (left `div` width <? count) message;
  read_many read (Z.to_nat count).

Definition decode_metadata : reader SnapshotMetadata :=
  index ← read_u64;
  term ← read_u64;
  store_revision ← read_i64;
  compaction_revision ← read_i64;
  format_version ← read_u32;
  voters ← read_counted 8 "invalid snapshot voter count" read_u64;
  learners ← read_counted 8 "invalid snapshot learner count" read_u64;
  mret (mkSnapshotMetadata index term store_revision compaction_revision
    (mkMembership voters learners) format_version).

Definition decode_context : reader (option Z) :=
  present ← read_byte "truncated ReadIndex context";
  value ← read_u64;
  _ ← reject_when ((1 <? present) || ((present =? 0) && negb (value =? 0))
                   || (negb (present =? 0) && (value =? 0))) "invalid ReadIndex context";
  mret (if present =? 0 then None else Some value).

(** A size, checked against the bytes that are left, and that many bytes. *)
Definition read_sized (message : string) : reader (list byte) :=
  size ← read_u64;
  left ← remaining;
  _ ← reject_when (left <? size) message;
  read_bytes (Z.to_nat size).

Definition decode_entry : reader LogEntry :=
  term ← read_u64;
  index ← read_u64;
  client ← read_u64;
  sequence ← read_u64;
  type_tag ← read_u32;
  payload ← read_sized "truncated Raft command payload";
  mret (mkEntry term index (mkCommand (mkRequestId client sequence) type_tag payload)).

Definition expect_end (message : string) : reader unit :=
  left ← remaining; reject_when (negb (left =? 0)) message.

(** A size, checked against the bytes that are left, which must be exactly that
    many. *)
Definition read_sized_rest (truncated inexact : string) : reader (list byte) :=
  size ← read_u64;
  left ← remaining;
  _ ← reject_when (left <? size) truncated;
  bytes ← read_rest;
  _ ← reject_when (negb (bytes_size bytes =? size)) inexact;
  mret bytes.

(** The records of the simulated storage: the first byte is the tag. *)
Definition decode_record {A} (tag : Z) (message : string) (sized : Z → bool) (read : reader A)
    (bytes : list byte) : outcome A :=
  match bytes with
  | [] => Throw (invalid_argument message)
  | b :: rest =>
      if (byte.unsigned b =? tag) && sized (bytes_size bytes)
      then fst (read rest) else Throw (invalid_argument message)
  end.

Definition decode_snapshot_state (bytes : list byte) : outcome RaftSnapshot :=
  decode_record snapshot_state_tag "invalid simulated Raft snapshot" (λ _, true)
    (metadata ← decode_metadata;
     checksum ← read_u32;
     size ← read_u64;
     left ← remaining;
     _ ← reject_when (left <? size) "truncated simulated Raft snapshot";
     state ← read_rest;
     _ ← reject_when (negb (bytes_size state =? size) || negb (crc32c state =? checksum))
       "corrupt simulated Raft snapshot";
     mret (mkSnapshot metadata state checksum)) bytes.

Definition decode_hard_state (bytes : list byte) : outcome RaftHardState :=
  decode_record hard_state_tag "invalid simulated Raft hard state" (λ size, size =? 18)
    (term ← read_u64;
     has_vote ← read_byte "unreachable: the record has 18 bytes";
     vote ← read_u64;
     _ ← reject_when ((1 <? has_vote) || ((has_vote =? 0) && negb (vote =? 0))
                      || (negb (has_vote =? 0) && (vote =? 0))) "invalid simulated Raft vote";
     mret (mkHardState term (if has_vote =? 0 then None else Some vote))) bytes.

Definition decode_log (bytes : list byte) : outcome (list LogEntry) :=
  decode_record log_state_tag "invalid simulated Raft log" (λ _, true)
    (log ← read_counted 44 "invalid simulated Raft log count" decode_entry;
     _ ← expect_end "trailing bytes in simulated Raft log";
     mret log) bytes.

Definition decode_applied (bytes : list byte) : outcome Z :=
  decode_record applied_state_tag "invalid simulated applied state" (λ size, size =? 9)
    (index ← read_u64;
     _ ← reject_when (index =? 0) "simulated applied index must be nonzero";
     mret index) bytes.

(** ** Messages *)

Inductive DecodedMessage :=
| msg_request_vote (q : RequestVoteRequest)
| msg_request_vote_response (q : RequestVoteResponse)
| msg_append_entries (q : AppendEntriesRequest)
| msg_append_entries_response (q : AppendEntriesResponse)
| msg_install_snapshot (q : InstallSnapshotRequest)
| msg_install_snapshot_response (q : InstallSnapshotResponse).

(** The overloaded [encode]. *)
Definition encode_message (m : DecodedMessage) : list byte :=
  match m with
  | msg_request_vote q => encode_request_vote q
  | msg_request_vote_response q => encode_request_vote_response q
  | msg_append_entries q => encode_append_entries q
  | msg_append_entries_response q => encode_append_entries_response q
  | msg_install_snapshot q => encode_install_snapshot q
  | msg_install_snapshot_response q => encode_install_snapshot_response q
  end.

Definition read_request_vote : reader RequestVoteRequest :=
  term ← read_u64;
  candidate ← read_u64;
  last_log_index ← read_u64;
  last_log_term ← read_u64;
  mret (mkRequestVote term candidate last_log_index last_log_term).

Definition read_request_vote_response : reader RequestVoteResponse :=
  term ← read_u64;
  granted ← read_byte "unreachable: the message has 10 bytes";
  _ ← reject_when (1 <? granted) "invalid RequestVote response";
  mret (mkVoteResponse term (negb (granted =? 0))).

Definition read_append_entries : reader AppendEntriesRequest :=
  term ← read_u64;
  leader ← read_u64;
  previous_log_index ← read_u64;
  previous_log_term ← read_u64;
  leader_commit ← read_u64;
  read_context ← decode_context;
  entries ← read_counted 44 "invalid AppendEntries count" decode_entry;
  _ ← expect_end "trailing bytes in AppendEntries";
  mret (mkAppendEntries term leader previous_log_index previous_log_term entries leader_commit
    read_context).

Definition read_append_entries_response : reader AppendEntriesResponse :=
  term ← read_u64;
  succeeded ← read_byte "unreachable: the message has 27 bytes";
  matched ← read_u64;
  context ← decode_context;
  _ ← reject_when (1 <? succeeded) "invalid AppendEntries response";
  mret (mkAppendResponse term (negb (succeeded =? 0)) matched context).

Definition read_install_snapshot : reader InstallSnapshotRequest :=
  term ← read_u64;
  leader ← read_u64;
  transfer_id ← read_u64;
  metadata ← decode_metadata;
  offset ← read_u64;
  total_size ← read_u64;
  state_checksum ← read_u32;
  done ← read_byte "truncated InstallSnapshot";
  _ ← reject_when (1 <? done) "invalid InstallSnapshot done flag";
  read_context ← decode_context;
  chunk ← read_sized_rest "truncated InstallSnapshot chunk" "invalid InstallSnapshot chunk size";
  mret (mkInstall term leader transfer_id metadata offset total_size chunk state_checksum
    (negb (done =? 0)) read_context).

Definition read_install_snapshot_response : reader InstallSnapshotResponse :=
  term ← read_u64;
  transfer_id ← read_u64;
  succeeded ← read_byte "truncated InstallSnapshot response";
  last_included_index ← read_u64;
  read_context ← decode_context;
  left ← remaining;
  _ ← reject_when ((1 <? succeeded) || negb (left =? 0)) "invalid InstallSnapshot response";
  mret (mkInstallResponse term transfer_id (negb (succeeded =? 0)) last_included_index read_context).

Definition decode_message (bytes : list byte) : outcome DecodedMessage :=
  match bytes with
  | [] => Throw (invalid_argument "empty Raft election message")
  | b :: rest =>
      let tag := byte.unsigned b in
      let size := bytes_size bytes in
      if (tag =? request_vote_tag) && (size =? 33)
      then q ← fst (read_request_vote rest); mret (msg_request_vote q)
      else if (tag =? request_vote_response_tag) && (size =? 10)
      then q ← fst (read_request_vote_response rest); mret (msg_request_vote_response q)
      else if tag =? append_entries_tag
      then q ← fst (read_append_entries rest); mret (msg_append_entries q)
      else if (tag =? append_entries_response_tag) && (size =? 27)
      then q ← fst (read_append_entries_response rest); mret (msg_append_entries_response q)
      else if tag =? install_snapshot_tag
      then q ← fst (read_install_snapshot rest); mret (msg_install_snapshot q)
      else if tag =? install_snapshot_response_tag
      then q ← fst (read_install_snapshot_response rest); mret (msg_install_snapshot_response q)
      else Throw (invalid_argument "unknown Raft election message")
  end.
