(* ===== verification/RaftMessageLaws.v ===== *)
(** * The message formats are exact

    Every reader of [RaftMessages] is shown to accept precisely the bytes its
    writer produces: [Codec read write valid] says that reading succeeds with a
    value and a rest if and only if the value is valid and the bytes are its
    encoding followed by the rest.  Instances are composed along the fields of
    each format. *)

From S2P Require Import Prelude OrdMap Bytes StoreTypes RaftTypes Codec RaftMessages.
#[local] Open Scope Z_scope.

Class Codec {A} (read : reader A) (write : A → list byte) (valid : A → Prop) : Prop :=
  codec_iff bytes a rest : read bytes = (Ret a, rest) ↔ valid a ∧ bytes = write a ++ rest.

(** ** Steps of a reader *)

Lemma reader_bind {A B} (p : reader A) (k : A → reader B) bytes b rest :
  (x ← p; k x) bytes = (Ret b, rest) ↔
  ∃ a mid, p bytes = (Ret a, mid) ∧ k a mid = (Ret b, rest).
Proof.
  unfold mbind, M_bind. destruct (p bytes) as [[a|e] mid]; split.
  - intros Hk. eauto.
  - by intros (a' & mid' & [= <- <-] & ?).
  - done.
  - by intros (? & ? & ? & _).
Qed.

Lemma reader_codec `{Codec A read write valid} {B} (k : A → reader B) bytes b rest :
  (x ← read; k x) bytes = (Ret b, rest) ↔
  ∃ a mid, valid a ∧ bytes = write a ++ mid ∧ k a mid = (Ret b, rest).
Proof.
  rewrite reader_bind. split; intros (a & mid & Ha).
  - destruct Ha as [[? ?]%codec_iff ?]. eauto 10.
  - destruct Ha as (? & ? & ?). exists a, mid. split; [by apply codec_iff|done].
Qed.

Lemma reader_run `{Codec A read write valid} {B} (k : A → reader B) a mid :
  valid a → (x ← read; k x) (write a ++ mid) = k a mid.
Proof.
  intros Ha. unfold mbind, M_bind.
  by rewrite (proj2 (codec_iff (read := read) (write a ++ mid) a mid)).
Qed.

Lemma reader_remaining {B} (k : Z → reader B) bytes :
  (x ← remaining; k x) bytes = k (bytes_size bytes) bytes.
Proof. done. Qed.

Lemma reader_check {B} (c : bool) message (k : reader B) bytes b rest :
  (_ ← reject_when c message; k) bytes = (Ret b, rest) ↔ c = false ∧ k bytes = (Ret b, rest).
Proof. unfold mbind, M_bind. destruct c; simpl; naive_solver. Qed.

Lemma reader_check_run {B} (c : bool) message (k : reader B) bytes :
  c = false → (_ ← reject_when c message; k) bytes = k bytes.
Proof. by intros ->. Qed.

Lemma reader_ret {A} (a b : A) bytes rest :
  (mret a : reader A) bytes = (Ret b, rest) ↔ b = a ∧ rest = bytes.
Proof. unfold mret, M_ret. naive_solver. Qed.

(** [decode_step] takes one field off a hypothesis about a reader, [encode_step]
    one off a goal. *)
Ltac decode_step H :=
  first
    [ apply reader_ret in H as [-> ->]
    | rewrite reader_remaining in H
    | let E := fresh "Hcheck" in apply reader_check in H as [E H]
    | let a := fresh "v" in let mid := fresh "mid" in let V := fresh "Hv" in
      apply reader_codec in H as (a & mid & V & -> & H) ].

Ltac encode_step :=
  rewrite <-?app_assoc;
  first
    [ rewrite reader_remaining
    | rewrite reader_run by assumption
    | rewrite reader_check_run ].

(** ** Integers *)

Definition fits (size : nat) (v : Z) : Prop := 0 ≤ v < 2 ^ (8 * Z.of_nat size).
Abbreviation fits_u64 := (fits 8).
Abbreviation fits_u32 := (fits 4).
Definition fits_i64 (v : Z) : Prop := - 2 ^ 63 ≤ v ≤ i64_max.

Lemma le_combine_fits bytes size : length bytes = size → fits size (le_combine bytes).
Proof. intros <-. apply le_combine_bound. Qed.

Lemma read_int_codec size : Codec (read_int size) (append_le size) (fits size).
Proof.
  intros bytes v rest. unfold read_int. rewrite reader_remaining, reader_check.
  unfold mbind, M_bind, read_bytes, mret, M_ret, bytes_size. split.
  - intros [Hlen [= <- <-]]. apply Z.ltb_ge in Hlen.
    assert (length (take size bytes) = size) as Htake by (rewrite length_take; lia).
    split; [by apply le_combine_fits|].
    assert (append_le size (le_combine (take size bytes)) = take size bytes) as ->.
    { rewrite append_le_split. rewrite <-Htake at 1. apply split_le_combine. }
    by rewrite take_drop.
  - intros [Hv ->]. rewrite length_app, length_append_le. split; [apply Z.ltb_ge; lia|].
    rewrite take_app_length', drop_app_length' by by rewrite length_append_le.
    rewrite append_le_split, le_combine_split, Z.mul_comm. by rewrite Z.mod_small.
Qed.

#[export] Instance read_u64_codec : Codec read_u64 append_u64 fits_u64 := read_int_codec 8.
#[export] Instance read_u32_codec : Codec read_u32 append_u32 fits_u32 := read_int_codec 4.

Lemma u64_negative v : - 2 ^ 63 ≤ v < 0 → u64 v = v + 2 ^ 64.
Proof. intros Hv. unfold u64. symmetry. apply (Z.mod_unique _ _ (-1)); lia. Qed.

Lemma to_i64_u64 v : fits_i64 v → to_i64 (u64 v) = v.
Proof.
  unfold fits_i64, to_i64. intros Hv. destruct (decide (v < 0)).
  - rewrite u64_negative by lia. destruct (Z.ltb_spec i64_max (v + 2 ^ 64)); lia.
  - rewrite u64_small by lia. destruct (Z.ltb_spec i64_max v); lia.
Qed.

Lemma u64_to_i64 v : fits_u64 v → fits_i64 (to_i64 v) ∧ u64 (to_i64 v) = v.
Proof.
  unfold fits, fits_i64, to_i64. intros Hv. destruct (Z.ltb_spec i64_max v); (split; [lia|]).
  - rewrite u64_negative by lia. lia.
  - apply u64_small. lia.
Qed.

#[export] Instance read_i64_codec : Codec read_i64 append_i64 fits_i64.
Proof.
  intros bytes v rest. unfold read_i64, append_i64. rewrite reader_codec. split.
  - intros (w & mid & Hw & -> & [-> ->]%reader_ret).
    destruct (u64_to_i64 w Hw) as [? ->]. done.
  - intros [Hv ->]. exists (u64 v), rest. split_and!; [|done|].
    + pose proof (u64_range v). unfold fits. lia.
    + apply reader_ret. by rewrite to_i64_u64.
Qed.

(** ** Bytes and blobs *)

#[export] Instance read_byte_codec message : Codec (read_byte message) push_back (fits 1).
Proof.
  intros bytes v rest. unfold push_back. destruct bytes as [|b bytes]; simpl.
  - split; [done|]. by intros [_ ?].
  - split.
    + intros [= <- <-]. rewrite byte.of_Z_unsigned.
      split; [|done]. pose proof (byte.unsigned_range b). unfold fits. lia.
    + intros [Hv [= -> ->]]. rewrite byte.unsigned_of_Z. unfold byte.wrap, fits in *.
      by rewrite Z.mod_small by lia.
Qed.

Lemma flag_fits b : fits 1 (flag b).
Proof. by destruct b. Qed.
Lemma flag_eqb b : (flag b =? 0) = negb b.
Proof. by destruct b. Qed.
Lemma flag_ltb b : (1 <? flag b) = false.
Proof. by destruct b. Qed.

(** A byte that is read as a truth value. *)
Lemma flag_value v : fits 1 v → (1 <? v) = false → v = flag (negb (v =? 0)).
Proof.
  unfold fits. intros Hv Hlt%Z.ltb_ge. assert (v = 0 ∨ v = 1) as [-> | ->] by lia; done.
Qed.

#[export] Hint Resolve flag_fits : kura.

Definition fits_blob (bytes : list byte) : Prop := fits_u64 (bytes_size bytes).

Lemma read_many_codec `{Codec A read write valid} n :
  Codec (read_many read n) (λ l, concat (write <$> l)) (λ l, length l = n ∧ Forall valid l).
Proof.
  induction n as [|n IH]; intros bytes l rest; simpl.
  - rewrite reader_ret. split; [by intros [-> ->]|]. intros [[Hl _] ->]. by destruct l.
  - split.
    + intros Hr. do 3 decode_step Hr. destruct Hv0 as [<- ?]. simpl.
      rewrite <-app_assoc. split; [|done]. split; [done|]. by constructor.
    + intros [[Hlen Hall] ->]. destruct l as [|x l]; [done|]. inversion Hall; subst.
      injection Hlen as Hlen. simpl. rewrite <-app_assoc, reader_run by done.
      exact (reader_run (H := IH) (λ xs, mret (x :: xs)) l rest (conj Hlen H3)).
Qed.

Lemma concat_width {A} (write : A → list byte) (valid : A → Prop) width l :
  (∀ a, valid a → width ≤ bytes_size (write a)) → Forall valid l →
  width * Z.of_nat (length l) ≤ bytes_size (concat (write <$> l)).
Proof.
  intros Hw. induction 1 as [|x l Hx _ IH]; [unfold bytes_size; simpl; lia|].
  rewrite fmap_cons. cbn [concat length]. specialize (Hw x Hx).
  unfold bytes_size in *. rewrite length_app. lia.
Qed.

Definition fits_list {A} (valid : A → Prop) (l : list A) : Prop :=
  fits_u64 (Z.of_nat (length l)) ∧ Forall valid l.

(** The check of a count never refuses what the writer produced: every item
    takes at least [width] bytes. *)
Lemma read_counted_codec `{Codec A read write valid} width message :
  0 < width → (∀ a, valid a → width ≤ bytes_size (write a)) →
  Codec (read_counted width message read)
    (append_counted write) (fits_list valid).
Proof.
  intros H0 Hw bytes l rest. pose proof (read_many_codec (A := A) (read := read)) as Hmany.
  unfold read_counted, append_counted. split.
  - intros Hr. do 3 decode_step Hr. apply codec_iff in Hr as [[Hlen Hall] ->].
    unfold fits in Hv. rewrite <-app_assoc, Hlen, Z2Nat.id by lia.
    split; [|done]. split; [|done]. rewrite Hlen, Z2Nat.id by lia. exact Hv.
  - intros [[Hlen Hall] ->]. rewrite <-app_assoc, reader_run by done.
    rewrite reader_remaining, reader_check_run.
    + rewrite Nat2Z.id. by apply codec_iff.
    + apply Z.ltb_ge, Z.div_le_lower_bound; [done|].
      pose proof (concat_width write valid width l Hw Hall) as Hsz.
      unfold bytes_size in *. rewrite length_app. lia.
Qed.

#[export] Instance read_nodes_codec message :
  Codec (read_counted 8 message read_u64) (append_counted append_u64) (fits_list fits_u64).
Proof.
  apply read_counted_codec; [done|]. intros a _. unfold bytes_size, append_u64.
  by rewrite length_append_le.
Qed.

(** ** Contexts, entries, metadata *)

Definition fits_option (o : option Z) : Prop :=
  match o with Some v => fits_u64 v ∧ v ≠ 0 | None => True end.

(** An optional nonzero value as a flag and the value or zero. *)
Lemma optional_written (o : option Z) :
  fits_option o → ∃ p v, p = flag (bool_decide (is_Some o)) ∧ v = default 0 o ∧ fits 1 p ∧
    fits_u64 v ∧ ((1 <? p) || ((p =? 0) && negb (v =? 0)) || (negb (p =? 0) && (v =? 0))) = false ∧
    (if p =? 0 then None else Some v) = o.
Proof.
  intros Ho. exists (flag (bool_decide (is_Some o))), (default 0 o).
  split_and!; try done; try apply flag_fits; rewrite ?flag_eqb, ?flag_ltb;
    destruct o as [v|]; simpl in *; try done; [tauto|].
  destruct (Z.eqb_spec v 0); [tauto|done].
Qed.

Lemma optional_read p v :
  fits 1 p → fits_u64 v →
  ((1 <? p) || ((p =? 0) && negb (v =? 0)) || (negb (p =? 0) && (v =? 0))) = false →
  let o := if p =? 0 then None else Some v in
  fits_option o ∧ p = flag (bool_decide (is_Some o)) ∧ v = default 0 o.
Proof.
  intros Hp Hv [[Hlt H0]%orb_false_iff H1]%orb_false_iff. pose proof (flag_value p Hp Hlt) as Hf.
  destruct (p =? 0); simpl in *.
  - apply negb_false_iff, Z.eqb_eq in H0. done.
  - apply Z.eqb_neq in H1. done.
Qed.

#[export] Instance decode_context_codec : Codec decode_context encode_context fits_option.
Proof.
  intros bytes o rest. unfold decode_context, encode_context. split.
  - intros Hr. do 4 decode_step Hr.
    destruct (optional_read v v0) as (Ho & <- & <-); [done..|]. by rewrite <-app_assoc.
  - intros [Ho ->]. destruct (optional_written o Ho) as (p & v & <- & <- & ? & ? & Hc & <-).
    do 2 encode_step. by encode_step.
Qed.

Record fits_entry (e : LogEntry) : Prop := {
  fe_term : fits_u64 (en_term e);
  fe_index : fits_u64 (en_index e);
  fe_client : fits_u64 (rid_client (cmd_request_id (en_command e)));
  fe_sequence : fits_u64 (rid_sequence (cmd_request_id (en_command e)));
  fe_tag : fits_u32 (cmd_type_tag (en_command e));
  fe_payload : fits_blob (cmd_payload (en_command e)) }.

#[export] Instance read_sized_codec message : Codec (read_sized message) append_blob fits_blob.
Proof.
  intros bytes b rest. unfold read_sized, append_blob, fits_blob, read_bytes. split.
  - intros Hr. do 3 decode_step Hr. injection Hr as <- <-.
    apply Z.ltb_ge in Hcheck. unfold bytes_size, fits in *.
    assert (Z.of_nat (length (take (Z.to_nat v) mid)) = v) as ->.
    { rewrite length_take. lia. }
    by rewrite <-app_assoc, take_drop.
  - intros [Hb ->]. do 2 encode_step. unfold bytes_size in *. encode_step.
    + by rewrite Nat2Z.id, take_app_length, drop_app_length.
    + apply Z.ltb_ge. rewrite length_app. lia.
Qed.

#[export] Instance decode_entry_codec : Codec decode_entry encode_entry fits_entry.
Proof.
  intros bytes e rest. unfold decode_entry, encode_entry. split.
  - intros Hr. do 7 decode_step Hr. rewrite <-!app_assoc. by split; [split|].
  - intros [[] ->]. do 6 encode_step. by destruct e as [? ? [[] ? ?]].
Qed.

Lemma encode_entry_size e : 44 ≤ bytes_size (encode_entry e).
Proof.
  unfold encode_entry, append_blob, bytes_size, append_u64, append_u32.
  rewrite !length_app, !length_append_le. lia.
Qed.

#[export] Instance read_entries_codec message :
  Codec (read_counted 44 message decode_entry) (append_counted encode_entry)
    (fits_list fits_entry).
Proof. apply read_counted_codec; [done|]. intros e _. apply encode_entry_size. Qed.

Record fits_metadata (m : SnapshotMetadata) : Prop := {
  fm_index : fits_u64 (sm_last_included_index m);
  fm_term : fits_u64 (sm_last_included_term m);
  fm_revision : fits_i64 (sm_store_revision m);
  fm_compaction : fits_i64 (sm_compaction_revision m);
  fm_version : fits_u32 (sm_format_version m);
  fm_voters : fits_list fits_u64 (mb_voters (sm_membership m));
  fm_learners : fits_list fits_u64 (mb_learners (sm_membership m)) }.

#[export] Instance decode_metadata_codec : Codec decode_metadata encode_metadata fits_metadata.
Proof.
  intros bytes m rest. unfold decode_metadata, encode_metadata. split.
  - intros Hr. do 8 decode_step Hr. rewrite <-!app_assoc. by split; [split|].
  - intros [[] ->]. do 7 encode_step. by destruct m as [? ? ? ? [] ?].
Qed.

(** ** Whole messages *)

Lemma fst_reader {A} (p : reader A) bytes a :
  fst (p bytes) = Ret a ↔ ∃ rest, p bytes = (Ret a, rest).
Proof.
  destruct (p bytes) as [o rest]; simpl. split; [intros ->; eauto|].
  by intros (rest' & [= -> _]).
Qed.

(** The fields after the tag. *)
Abbreviation body := (drop 1).

Definition exact {A} (read : reader A) (write : A → list byte) (valid : A → Prop) : Prop :=
  ∀ bytes a, fst (read bytes) = Ret a ↔ valid a ∧ bytes = body (write a).

(** A format of fixed size, whose decoder is only called on that size. *)
Definition exact_sized {A} (size : Z) (read : reader A) (write : A → list byte)
    (valid : A → Prop) : Prop :=
  ∀ bytes a, fst (read bytes) = Ret a ∧ bytes_size bytes = size ↔
    valid a ∧ bytes = body (write a).

Lemma push_back_app value bytes : body (push_back value ++ bytes) = bytes.
Proof. done. Qed.

Lemma push_back_cons value bytes : push_back value ++ bytes = byte.of_Z value :: bytes.
Proof. done. Qed.

Lemma bytes_size_u64 v : bytes_size (append_u64 v) = 8.
Proof. unfold bytes_size, append_u64. by rewrite length_append_le. Qed.
Lemma bytes_size_byte v : bytes_size (push_back v) = 1.
Proof. done. Qed.
Lemma bytes_size_context o : bytes_size (encode_context o) = 9.
Proof. unfold encode_context. by rewrite bytes_size_app, bytes_size_u64. Qed.
Lemma bytes_size_nil bytes : bytes_size bytes = 0 ↔ bytes = [].
Proof. unfold bytes_size. destruct bytes; simpl; split; done || lia. Qed.

#[global] Opaque push_back.

(** Evaluates the size of a sequence of fields. *)
Ltac fields_size H :=
  rewrite ?bytes_size_app, ?bytes_size_u64, ?bytes_size_byte, ?bytes_size_context in H.

(** Solves a sized format: the decoder in one direction, the writer in the
    other. *)
Ltac rest_empty H :=
  let E := fresh "Hrest" in
  fields_size H; rename H into E;
  match type of E with
  | context [bytes_size ?r] =>
      assert (r = []) as -> by (apply bytes_size_nil; lia); clear E
  end.

Record fits_request_vote (q : RequestVoteRequest) : Prop := {
  frv_term : fits_u64 (rv_term q);
  frv_candidate : fits_u64 (rv_candidate q);
  frv_index : fits_u64 (rv_last_log_index q);
  frv_log_term : fits_u64 (rv_last_log_term q) }.

Lemma request_vote_exact :
  exact_sized 32 read_request_vote encode_request_vote fits_request_vote.
Proof.
  intros bytes q. unfold read_request_vote, encode_request_vote. rewrite fst_reader, push_back_app.
  split.
  - intros [[rest Hr] Hsize]. do 5 decode_step Hr. rest_empty Hsize.
    rewrite app_nil_r. by split; [split|].
  - intros [[] ->]. split; [|by rewrite !bytes_size_app, !bytes_size_u64].
    exists []. rewrite <-(app_nil_r (append_u64 (rv_last_log_term q))).
    do 4 encode_step. by destruct q.
Qed.

Lemma request_vote_response_exact :
  exact_sized 9 read_request_vote_response encode_request_vote_response
    (λ q, fits_u64 (vr_term q)).
Proof.
  intros bytes q. unfold read_request_vote_response, encode_request_vote_response.
  rewrite fst_reader, push_back_app. split.
  - intros [[rest Hr] Hsize]. do 4 decode_step Hr. rest_empty Hsize. simpl.
    rewrite app_nil_r, <-flag_value by done. done.
  - intros [? ->]. split; [|by rewrite !bytes_size_app, !bytes_size_u64].
    pose proof (flag_fits (vr_granted q)). exists [].
    rewrite <-(app_nil_r (push_back (flag _))). do 2 encode_step.
    encode_step; [|apply flag_ltb]. rewrite flag_eqb, negb_involutive. by destruct q.
Qed.

Record fits_append_entries (q : AppendEntriesRequest) : Prop := {
  fae_term : fits_u64 (ae_term q);
  fae_leader : fits_u64 (ae_leader q);
  fae_index : fits_u64 (ae_previous_log_index q);
  fae_log_term : fits_u64 (ae_previous_log_term q);
  fae_commit : fits_u64 (ae_leader_commit q);
  fae_context : fits_option (ae_read_context q);
  fae_entries : fits_list fits_entry (ae_entries q) }.

Lemma append_entries_exact :
  exact read_append_entries encode_append_entries fits_append_entries.
Proof.
  intros bytes q. unfold read_append_entries, encode_append_entries, expect_end.
  rewrite fst_reader, push_back_app. split.
  - intros [rest Hr]. do 7 decode_step Hr. rewrite reader_bind in Hr.
    destruct Hr as (? & ? & Hend & Hr). rewrite reader_remaining in Hend.
    unfold reject_when, lift in Hend. injection Hend as Hend <-.
    apply throw_when_Ret, negb_false_iff, Z.eqb_eq, bytes_size_nil in Hend. subst.
    decode_step Hr. rewrite app_nil_r. by split; [split|].
  - intros [[] ->]. exists []. rewrite <-(app_nil_r (append_counted _ _)).
    do 7 encode_step. by destruct q.
Qed.

Record fits_append_response (q : AppendEntriesResponse) : Prop := {
  far_term : fits_u64 (ar_term q);
  far_matched : fits_u64 (ar_matched_index q);
  far_context : fits_option (ar_read_context q) }.

Lemma append_entries_response_exact :
  exact_sized 26 read_append_entries_response encode_append_entries_response fits_append_response.
Proof.
  intros bytes q. unfold read_append_entries_response, encode_append_entries_response.
  rewrite fst_reader, push_back_app. split.
  - intros [[rest Hr] Hsize]. do 6 decode_step Hr. rest_empty Hsize. simpl.
    rewrite app_nil_r, <-flag_value by done. by split; [split|].
  - intros [[] ->]. split.
    2: { by rewrite !bytes_size_app, !bytes_size_u64, bytes_size_byte, bytes_size_context. }
    pose proof (flag_fits (ar_succeeded q)). exists [].
    rewrite <-(app_nil_r (encode_context _)). do 4 encode_step.
    encode_step; [|apply flag_ltb]. rewrite flag_eqb, negb_involutive. by destruct q.
Qed.

Record fits_install (q : InstallSnapshotRequest) : Prop := {
  fi_term : fits_u64 (is_term q);
  fi_leader : fits_u64 (is_leader q);
  fi_transfer : fits_u64 (is_transfer_id q);
  fi_metadata : fits_metadata (is_metadata q);
  fi_offset : fits_u64 (is_offset q);
  fi_total : fits_u64 (is_total_size q);
  fi_checksum : fits_u32 (is_state_checksum q);
  fi_context : fits_option (is_read_context q);
  fi_chunk : fits_blob (is_chunk q) }.

(** The last field of a format, which extends to its end. *)
Lemma read_sized_rest_iff truncated inexact bytes b rest :
  read_sized_rest truncated inexact bytes = (Ret b, rest) ↔
  fits_blob b ∧ rest = [] ∧ bytes = append_blob b.
Proof.
  unfold read_sized_rest, append_blob, fits_blob. split.
  - intros Hr. do 3 decode_step Hr. rewrite reader_bind in Hr.
    destruct Hr as (? & ? & [= <- <-] & Hr). do 2 decode_step Hr.
    apply negb_false_iff, Z.eqb_eq in Hcheck0. by rewrite Hcheck0.
  - intros (Hb & -> & ->). do 2 encode_step. encode_step; [|apply Z.ltb_irrefl].
    rewrite reader_bind. eexists b, []. split; [done|].
    encode_step; [done|]. by rewrite Z.eqb_refl.
Qed.

Lemma install_snapshot_exact :
  exact read_install_snapshot encode_install_snapshot fits_install.
Proof.
  intros bytes q. unfold read_install_snapshot, encode_install_snapshot.
  rewrite fst_reader, push_back_app. split.
  - intros [rest Hr]. do 10 decode_step Hr. rewrite reader_bind in Hr.
    destruct Hr as (chunk & ? & (? & -> & ->)%read_sized_rest_iff & Hr). decode_step Hr. simpl.
    rewrite <-flag_value by done. by split; [split|].
  - intros [[] ->]. pose proof (flag_fits (is_done q)). exists []. do 8 encode_step.
    encode_step; [|apply flag_ltb]. encode_step. rewrite reader_bind.
    eexists (is_chunk q), []. split; [by apply read_sized_rest_iff|].
    rewrite flag_eqb, negb_involutive. by destruct q.
Qed.

Record fits_install_response (q : InstallSnapshotResponse) : Prop := {
  fir_term : fits_u64 (ir_term q);
  fir_transfer : fits_u64 (ir_transfer_id q);
  fir_index : fits_u64 (ir_last_included_index q);
  fir_context : fits_option (ir_read_context q) }.

Lemma install_snapshot_response_exact :
  exact read_install_snapshot_response encode_install_snapshot_response fits_install_response.
Proof.
  intros bytes q. unfold read_install_snapshot_response, encode_install_snapshot_response.
  rewrite fst_reader, push_back_app. split.
  - intros [rest Hr]. do 8 decode_step Hr. apply orb_false_iff in Hcheck as [Hlt Hend].
    apply negb_false_iff, Z.eqb_eq, bytes_size_nil in Hend as ->. simpl.
    rewrite app_nil_r, <-flag_value by done. by split; [split|].
  - intros [[] ->]. pose proof (flag_fits (ir_succeeded q)). exists [].
    rewrite <-(app_nil_r (encode_context _)). do 6 encode_step.
    encode_step; [|by rewrite flag_ltb]. rewrite flag_eqb, negb_involutive. by destruct q.
Qed.

(** ** The message decoder *)

Definition fits_message (m : DecodedMessage) : Prop :=
  match m with
  | msg_request_vote q => fits_request_vote q
  | msg_request_vote_response q => fits_u64 (vr_term q)
  | msg_append_entries q => fits_append_entries q
  | msg_append_entries_response q => fits_append_response q
  | msg_install_snapshot q => fits_install q
  | msg_install_snapshot_response q => fits_install_response q
  end.

Definition message_tag (m : DecodedMessage) : Z :=
  match m with
  | msg_request_vote _ => request_vote_tag
  | msg_request_vote_response _ => request_vote_response_tag
  | msg_append_entries _ => append_entries_tag
  | msg_append_entries_response _ => append_entries_response_tag
  | msg_install_snapshot _ => install_snapshot_tag
  | msg_install_snapshot_response _ => install_snapshot_response_tag
  end.

Lemma encode_message_tag m :
  encode_message m = byte.of_Z (message_tag m) :: body (encode_message m).
Proof. by destruct m. Qed.

Lemma tag_byte b tag : 0 ≤ tag < 256 → byte.unsigned b = tag ↔ b = byte.of_Z tag.
Proof.
  intros Ht. split.
  - intros <-. by rewrite byte.of_Z_unsigned.
  - intros ->. rewrite byte.unsigned_of_Z. unfold byte.wrap. by rewrite Z.mod_small by lia.
Qed.

Lemma bytes_size_cons b bytes : bytes_size (b :: bytes) = bytes_size bytes + 1.
Proof. unfold bytes_size. simpl. lia. Qed.

Lemma decode_message_sound b rest m :
  decode_message (b :: rest) = Ret m →
  byte.unsigned b = message_tag m ∧ fits_message m ∧ rest = body (encode_message m).
Proof.
  unfold decode_message. cbv zeta. rewrite bytes_size_cons. intros Hd.
  repeat match type of Hd with
  | (if ?c then _ else _) = _ => destruct c eqn:?
  end; try done; apply bind_Ret in Hd as (q & Hq & [= <-]);
    repeat match goal with H : _ && _ = true |- _ => apply andb_prop in H as [? ?] end;
    (split; [by apply Z.eqb_eq|]).
  - apply request_vote_exact. split; [done|lia].
  - apply request_vote_response_exact. split; [done|lia].
  - by apply append_entries_exact.
  - apply append_entries_response_exact. split; [done|lia].
  - by apply install_snapshot_exact.
  - by apply install_snapshot_response_exact.
Qed.

Lemma decode_message_complete m : fits_message m → decode_message (encode_message m) = Ret m.
Proof.
  intros Hm. rewrite encode_message_tag. unfold decode_message. cbv zeta.
  rewrite (proj2 (tag_byte (byte.of_Z (message_tag m)) (message_tag m) ltac:(by destruct m)) eq_refl).
  rewrite bytes_size_cons. destruct m as [q|q|q|q|q|q]; cbn [message_tag fits_message] in *.
  - destruct (proj2 (request_vote_exact (body (encode_request_vote q)) q)) as [Hr Hs]; [done|].
    unfold encode_message. rewrite Hs, Hr. done.
  - destruct (proj2 (request_vote_response_exact (body (encode_request_vote_response q)) q))
      as [Hr Hs]; [done|]. unfold encode_message. rewrite Hs, Hr. done.
  - pose proof (proj2 (append_entries_exact (body (encode_append_entries q)) q)) as Hr.
    unfold encode_message. rewrite Hr by done. done.
  - destruct (proj2 (append_entries_response_exact (body (encode_append_entries_response q)) q))
      as [Hr Hs]; [done|]. unfold encode_message. rewrite Hs, Hr. done.
  - pose proof (proj2 (install_snapshot_exact (body (encode_install_snapshot q)) q)) as Hr.
    unfold encode_message. rewrite Hr by done. done.
  - pose proof (proj2 (install_snapshot_response_exact
      (body (encode_install_snapshot_response q)) q)) as Hr.
    unfold encode_message. rewrite Hr by done. done.
Qed.

(** C21: The message codec is exact in both directions: [decode_message] accepts a
    byte string if and only if it is the encoding of a message whose fields fit
    their machine types, and then returns that message.  So every message round
    trips, no two encodings of one message exist, and truncated, padded or
    otherwise altered bytes are rejected unless they encode another message. *)
Theorem decode_message_exact (bytes : list byte) (m : DecodedMessage) :
  decode_message bytes = Ret m ↔ fits_message m ∧ bytes = encode_message m.
Proof.
  split.
  - destruct bytes as [|b rest]; [done|]. intros (Ht & Hm & ->)%decode_message_sound.
    split; [done|]. rewrite encode_message_tag. f_equal. apply tag_byte; [by destruct m|done].
  - intros [Hm ->]. by apply decode_message_complete.
Qed.

(** ** Stored records *)

Lemma decode_record_iff {A} tag message sized (read : reader A) bytes a :
  0 ≤ tag < 256 →
  decode_record tag message sized read bytes = Ret a ↔
  ∃ rest, bytes = push_back tag ++ rest ∧ sized (bytes_size rest + 1) = true ∧
    fst (read rest) = Ret a.
Proof.
  intros Ht. unfold decode_record. destruct bytes as [|b rest].
  - split; [done|]. by intros (? & ? & _).
  - rewrite bytes_size_cons. split.
    + destruct (Z.eqb_spec (byte.unsigned b) tag) as [->%tag_byte|]; simpl; try done.
      destruct (sized _) eqn:?; [|done]. intros Hr. exists rest. by rewrite push_back_cons.
    + intros (rest' & Hb & Hs & Hr). rewrite push_back_cons in Hb. injection Hb as -> <-.
      rewrite (proj2 (tag_byte (byte.of_Z tag) tag Ht) eq_refl), Z.eqb_refl, Hs. done.
Qed.

(** A record whose fields are [exact]. *)
Lemma decode_record_exact {A} tag message sized (read : reader A) write valid bytes a :
  0 ≤ tag < 256 →
  (∀ rest, sized (bytes_size rest + 1) = true ∧ fst (read rest) = Ret a ↔
     valid a ∧ rest = write a) →
  decode_record tag message sized read bytes = Ret a ↔
  valid a ∧ bytes = push_back tag ++ write a.
Proof.
  intros Ht Hread. rewrite decode_record_iff by done. split.
  - by intros (rest & -> & [? ->]%Hread).
  - intros [Hv ->]. exists (write a). split; [done|]. by apply Hread.
Qed.

Definition hard_state_fields (h : RaftHardState) : list byte :=
  append_u64 (hs_current_term h)
  ++ push_back (flag (bool_decide (is_Some (hs_voted_for h))))
  ++ append_u64 (default 0 (hs_voted_for h)).

Lemma decode_hard_state_exact bytes h :
  decode_hard_state bytes = Ret h ↔
  (fits_u64 (hs_current_term h) ∧ fits_option (hs_voted_for h)) ∧ bytes = encode_hard_state h.
Proof.
  unfold decode_hard_state, encode_hard_state.
  apply (decode_record_exact hard_state_tag _ _ _ hard_state_fields
    (λ h, fits_u64 (hs_current_term h) ∧ fits_option (hs_voted_for h))); [done|].
  intros rest. rewrite fst_reader. unfold hard_state_fields. split.
  - intros [Hsize%Z.eqb_eq [rest' Hr]]. do 5 decode_step Hr. rest_empty Hsize.
    rewrite app_nil_r. cbn [hs_current_term hs_voted_for].
    by destruct (optional_read v0 v1) as (Ho & <- & <-).
  - intros [[Ht Ho] ->]. split.
    { by rewrite !bytes_size_app, !bytes_size_u64, bytes_size_byte. }
    destruct (optional_written _ Ho) as (p & v & <- & <- & ? & ? & Hc & Hp). exists [].
    rewrite <-(app_nil_r (append_u64 v)). do 3 encode_step. encode_step; [|done].
    rewrite Hp. by destruct h.
Qed.

Lemma decode_log_exact bytes log :
  decode_log bytes = Ret log ↔ fits_list fits_entry log ∧ bytes = encode_log log.
Proof.
  unfold decode_log, encode_log.
  apply (decode_record_exact log_state_tag _ _ _ (append_counted encode_entry)
    (fits_list fits_entry)); [done|].
  intros rest. rewrite fst_reader. unfold expect_end. split.
  - intros [_ [rest' Hr]]. decode_step Hr. rewrite reader_bind in Hr.
    destruct Hr as (? & ? & Hend & Hr). rewrite reader_remaining in Hend.
    unfold reject_when, lift in Hend. injection Hend as Hend <-.
    apply throw_when_Ret, negb_false_iff, Z.eqb_eq, bytes_size_nil in Hend. subst.
    decode_step Hr. by rewrite app_nil_r.
  - intros [Hl ->]. split; [done|]. exists [].
    rewrite <-(app_nil_r (append_counted _ _)). by encode_step.
Qed.

Lemma decode_applied_exact bytes i :
  decode_applied bytes = Ret i ↔ (fits_u64 i ∧ i ≠ 0) ∧ bytes = encode_applied i.
Proof.
  unfold decode_applied, encode_applied.
  apply (decode_record_exact applied_state_tag _ _ _ append_u64 (λ i, fits_u64 i ∧ i ≠ 0)); [done|].
  intros rest. rewrite fst_reader. split.
  - intros [Hsize%Z.eqb_eq [rest' Hr]]. do 3 decode_step Hr. rest_empty Hsize.
    rewrite app_nil_r. apply Z.eqb_neq in Hcheck. done.
  - intros [[Hi H0] ->]. split; [by rewrite bytes_size_u64|]. exists [].
    rewrite <-(app_nil_r (append_u64 i)). encode_step. encode_step; [done|]. by apply Z.eqb_neq.
Qed.

Lemma crc32c_fits bytes : fits_u32 (crc32c bytes).
Proof. apply u32_crc32c. Qed.

Lemma decode_snapshot_state_exact bytes s :
  decode_snapshot_state bytes = Ret s ↔
  (fits_metadata (sn_metadata s) ∧ fits_blob (sn_state s) ∧ sn_checksum s = crc32c (sn_state s)) ∧
  bytes = encode_snapshot_state s.
Proof.
  unfold decode_snapshot_state, encode_snapshot_state.
  apply (decode_record_exact snapshot_state_tag _ _ _
    (λ s, encode_metadata (sn_metadata s) ++ append_u32 (crc32c (sn_state s))
          ++ append_blob (sn_state s))
    (λ s, fits_metadata (sn_metadata s) ∧ fits_blob (sn_state s) ∧
          sn_checksum s = crc32c (sn_state s))); [done|].
  intros rest. rewrite fst_reader. unfold append_blob, fits_blob. split.
  - intros [_ [rest' Hr]]. do 5 decode_step Hr. rewrite reader_bind in Hr.
    destruct Hr as (? & ? & [= <- <-] & Hr). do 2 decode_step Hr.
    apply orb_false_iff in Hcheck0 as [Hs%negb_false_iff%Z.eqb_eq Hcrc%negb_false_iff%Z.eqb_eq].
    cbn [sn_metadata sn_state sn_checksum]. rewrite Hs, Hcrc. done.
  - intros [(Hm & Hb & Hc) ->]. split; [done|]. exists [].
    pose proof (crc32c_fits (sn_state s)). do 4 encode_step. encode_step; [|apply Z.ltb_irrefl].
    rewrite reader_bind. eexists (sn_state s), []. split; [done|].
    encode_step; [|by rewrite !Z.eqb_refl]. rewrite <-Hc. by destruct s.
Qed.

(** The stored records are exact as well: the hard state, the log, the applied
    index and the snapshot are each decoded precisely from their own encodings,
    with the restrictions the decoders check (a vote is not node zero, the applied
    index is not zero, the checksum is that of the state). *)
Theorem stored_records_exact (bytes : list byte) :
  (∀ h, decode_hard_state bytes = Ret h ↔
     (fits_u64 (hs_current_term h) ∧ fits_option (hs_voted_for h)) ∧
     bytes = encode_hard_state h) ∧
  (∀ log, decode_log bytes = Ret log ↔ fits_list fits_entry log ∧ bytes = encode_log log) ∧
  (∀ i, decode_applied bytes = Ret i ↔ (fits_u64 i ∧ i ≠ 0) ∧ bytes = encode_applied i) ∧
  (∀ s, decode_snapshot_state bytes = Ret s ↔
     (fits_metadata (sn_metadata s) ∧ fits_blob (sn_state s) ∧
      sn_checksum s = crc32c (sn_state s)) ∧
     bytes = encode_snapshot_state s).
Proof.
  split_and!; intros x; [apply decode_hard_state_exact|apply decode_log_exact
    |apply decode_applied_exact|apply decode_snapshot_state_exact].
Qed.
