(* ===== verification/RaftCore.v ===== *)
(** * The timed Raft core

    [class Core] of [raft_election.cpp]: the Figure 2 state machine driven by
    timer deadlines, with gated log persistence, application of committed
    entries one at a time, linearizable reads by ReadIndex, and snapshots
    (creation, transfer, installation, compaction of the log).

    The members of the class are grouped into records by what they serve.  The
    methods are computations over the object ([M Core]), so that what an
    exception leaves behind is part of the model; the [StepResult&] parameters
    are passed and returned.  Where the source dereferences an optional it does
    not test, the model throws [logic_error "optional is empty"]. *)

From S2P Require Import Prelude OrdMap Bytes StoreTypes RaftTypes Codec RaftMessages Figure2.
#[local] Open Scope Z_scope.

#[export] Instance ClusterMembership_eq_dec : EqDecision ClusterMembership.
Proof. solve_decision. Defined.
#[export] Instance SnapshotMetadata_eq_dec : EqDecision SnapshotMetadata.
Proof. solve_decision. Defined.
#[export] Instance RequestId_countable : Countable RequestId.
Proof.
  refine (inj_countable' (λ r, (rid_client r, rid_sequence r)) (λ p, mkRequestId p.1 p.2) _).
  by intros [].
Defined.

Module election.

(** ** Inputs and effects *)

Record TimeoutRange := mkTimeouts { to_minimum : Z; to_maximum : Z }.

Record PersistRaftLog := mkPersistLog {
  pl_request_id : Z;
  pl_log : list LogEntry }.

Record CreateRaftSnapshot := mkCreate {
  cs_applied_index : Z;
  cs_store_revision : Z;
  cs_compaction_revision : Z;
  cs_membership : ClusterMembership;
  cs_state : list byte }.

Inductive Input :=
| ElectionDeadline (timer_id : Z)
| HeartbeatDeadline (timer_id : Z)
| ReceiveRequestVote (from : Z) (request : RequestVoteRequest)
| ReceiveRequestVoteResponse (from : Z) (response : RequestVoteResponse)
| ReceiveAppendEntries (from : Z) (request : AppendEntriesRequest)
| ReceiveAppendEntriesResponse (from : Z) (response : AppendEntriesResponse)
| ReceiveClientCommand (command : CommandEnvelope)
| HardStatePersisted (completion : RaftHardStatePersisted)
| RaftLogPersisted (completion : PersistRaftLog)
| LogEntryApplied (request_id index : Z)
| LogEntryApplyFailed (request_id index : Z)
| RetryApplication
| CreateSnapshot (request : CreateRaftSnapshot)
| ReceiveInstallSnapshot (from : Z) (request : InstallSnapshotRequest)
| ReceiveInstallSnapshotResponse (from : Z) (response : InstallSnapshotResponse)
| RaftSnapshotPersisted (request_id : Z) (snapshot : RaftSnapshot)
| RaftSnapshotRestored (request_id index : Z)
| ReadIndexRequest (request_id : RequestId)
| CancelReadIndex (request_id : RequestId)
| TimeoutReadIndex (request_id : RequestId).

Inductive ReadIndexFailure :=
| not_leader | current_term_not_committed | capacity_exceeded | duplicate_request
| cancelled | timed_out | leadership_lost | context_exhausted.

Inductive SnapshotRejection :=
| no_applied_entry | stale | invalid_membership | invalid_revision
| invalid_transfer | corrupt | too_large | persistence_busy.

Record ApplyRequest := mkApply { ap_request_id : Z; ap_entry : LogEntry }.

Inductive Effect :=
| RoleTransition (from to : RaftRole) (term : Z)
| PersistHardState (request : PersistRaftHardState)
| PersistLog (request : PersistRaftLog)
| PersistRaftSnapshot (request_id : Z) (snapshot : RaftSnapshot)
| SendRequestVote (to : Z) (request : RequestVoteRequest)
| SendRequestVoteResponse (to : Z) (response : RequestVoteResponse)
| SendAppendEntries (to : Z) (request : AppendEntriesRequest)
| SendAppendEntriesResponse (to : Z) (response : AppendEntriesResponse)
| SendInstallSnapshot (to : Z) (request : InstallSnapshotRequest)
| SendInstallSnapshotResponse (to : Z) (response : InstallSnapshotResponse)
| RestoreStateMachineSnapshot (request_id : Z) (snapshot : RaftSnapshot)
| TruncateRaftLogPrefix (through : Z)
| RaftSnapshotCreated (index : Z)
| RaftSnapshotRejected (reason : SnapshotRejection)
| ApplyLogEntry (request : ApplyRequest)
| ApplicationBackpressured (index : Z)
| CompleteClientCommand (index : Z)
| ReadIndexResponse (request_id : RequestId) (committed_index : Z)
| ReadIndexRejected (request_id : RequestId) (reason : ReadIndexFailure)
| ResetElectionDeadline (timer_id delay : Z)
| CancelElectionDeadline (timer_id : Z)
| ResetHeartbeatDeadline (timer_id delay : Z)
| CancelHeartbeatDeadline (timer_id : Z).

Record StepResult := mkStep {
  sr_rules : list RuleId;
  sr_effects : list Effect }.

Definition emit (r : StepResult) (effect : Effect) : StepResult :=
  mkStep (sr_rules r) (sr_effects r ++ [effect]).
Definition with_effects (effects : list Effect) : StepResult := mkStep [] effects.
Definition append_result (r r' : StepResult) : StepResult :=
  mkStep (sr_rules r ++ sr_rules r') (sr_effects r ++ sr_effects r').

(** ** The object *)

Record PendingLogPersistence := mkPendingLog {
  lp_request : PersistRaftLog;
  lp_deferred_effects : list Effect }.

Record PendingApplication := mkPendingApplication {
  pa_request : ApplyRequest;
  pa_blocked : bool }.

Record PendingRead := mkPendingRead {
  pr_request : RequestId;
  pr_read_index : Z;
  pr_acknowledgements : gset Z;
  pr_quorum_confirmed : bool }.

Record PendingSnapshotPersistence := mkPendingSnapshot {
  sp_request_id : Z;
  sp_snapshot : RaftSnapshot;
  sp_reply_to : option Z;
  sp_response : option InstallSnapshotResponse;
  sp_local_creation : bool }.

Record PendingSnapshotTransfer := mkTransfer {
  tr_transfer_id : Z;
  tr_term : Z;
  tr_index : Z }.

Record PendingSnapshotRestore := mkRestore {
  rs_request_id : Z;
  rs_snapshot : RaftSnapshot;
  rs_reply_to : Z;
  rs_response : InstallSnapshotResponse }.

(** The members that are never assigned after construction. *)
Record Config := mkConfig {
  cf_timeouts : TimeoutRange;
  cf_heartbeat_interval : Z;
  cf_max_pending_reads : Z;
  cf_max_read_history : Z;
  cf_max_snapshot_bytes : Z;
  cf_max_snapshot_members : Z }.

Record Timers := mkTimers {
  tm_random_state : Z;
  tm_next_timer_id : Z;
  tm_election_timer : option Z;
  tm_election_timeout : option Z;
  tm_heartbeat_timer : option Z }.

Record LogWork := mkLogWork {
  lw_next_log_request_id : Z;
  lw_next_application_request_id : Z;
  lw_pending_log : option PendingLogPersistence;
  lw_pending_application : option PendingApplication }.

Record SnapshotWork := mkSnapshotWork {
  sw_pending_snapshot : option PendingSnapshotPersistence;
  sw_pending_snapshot_restore : option PendingSnapshotRestore;
  sw_install_after_hard_state : option (Z * InstallSnapshotRequest);
  sw_durable_snapshot : option RaftSnapshot;
  sw_snapshot_transfers : gmap Z PendingSnapshotTransfer;
  sw_next_snapshot_request_id : Z;
  sw_next_snapshot_transfer_id : Z }.

Record Reads := mkReads {
  rd_pending_reads : gmap Z PendingRead;
  rd_pending_read_requests : gmap RequestId Z;
  rd_used_read_requests : gset RequestId;
  rd_next_read_context : Z;
  rd_completed_read_count : Z;
  rd_rejected_read_count : Z }.

Record Core := mkCore {
  co_config : Config;
  co_state : State;
  co_timers : Timers;
  co_log_work : LogWork;
  co_snapshots : SnapshotWork;
  co_reads : Reads;
  co_started : bool }.

(** Assignments. *)
Definition set_state (s : State) (c : Core) : Core :=
  mkCore (co_config c) s (co_timers c) (co_log_work c) (co_snapshots c) (co_reads c) (co_started c).
Definition set_timers (t : Timers) (c : Core) : Core :=
  mkCore (co_config c) (co_state c) t (co_log_work c) (co_snapshots c) (co_reads c) (co_started c).
Definition set_log_work (w : LogWork) (c : Core) : Core :=
  mkCore (co_config c) (co_state c) (co_timers c) w (co_snapshots c) (co_reads c) (co_started c).
Definition set_snapshots (w : SnapshotWork) (c : Core) : Core :=
  mkCore (co_config c) (co_state c) (co_timers c) (co_log_work c) w (co_reads c) (co_started c).
Definition set_reads (r : Reads) (c : Core) : Core :=
  mkCore (co_config c) (co_state c) (co_timers c) (co_log_work c) (co_snapshots c) r (co_started c).
Definition set_started (c : Core) : Core :=
  mkCore (co_config c) (co_state c) (co_timers c) (co_log_work c) (co_snapshots c) (co_reads c) true.

Definition set_election_timer (timer timeout : option Z) (t : Timers) : Timers :=
  mkTimers (tm_random_state t) (tm_next_timer_id t) timer timeout (tm_heartbeat_timer t).
Definition set_heartbeat_timer (timer : option Z) (t : Timers) : Timers :=
  mkTimers (tm_random_state t) (tm_next_timer_id t) (tm_election_timer t) (tm_election_timeout t)
    timer.
Definition set_pending_log (p : option PendingLogPersistence) (w : LogWork) : LogWork :=
  mkLogWork (lw_next_log_request_id w) (lw_next_application_request_id w) p
    (lw_pending_application w).
Definition set_application (next : Z) (p : option PendingApplication) (w : LogWork) : LogWork :=
  mkLogWork (lw_next_log_request_id w) next (lw_pending_log w) p.
Definition set_next_log_request_id (next : Z) (w : LogWork) : LogWork :=
  mkLogWork next (lw_next_application_request_id w) (lw_pending_log w) (lw_pending_application w).
Definition set_pending_snapshot (next : Z) (p : option PendingSnapshotPersistence)
    (w : SnapshotWork) : SnapshotWork :=
  mkSnapshotWork p (sw_pending_snapshot_restore w) (sw_install_after_hard_state w)
    (sw_durable_snapshot w) (sw_snapshot_transfers w) next (sw_next_snapshot_transfer_id w).
Definition set_pending_restore (p : option PendingSnapshotRestore) (w : SnapshotWork)
    : SnapshotWork :=
  mkSnapshotWork (sw_pending_snapshot w) p (sw_install_after_hard_state w)
    (sw_durable_snapshot w) (sw_snapshot_transfers w) (sw_next_snapshot_request_id w)
    (sw_next_snapshot_transfer_id w).
Definition set_install_after (i : option (Z * InstallSnapshotRequest)) (w : SnapshotWork)
    : SnapshotWork :=
  mkSnapshotWork (sw_pending_snapshot w) (sw_pending_snapshot_restore w) i
    (sw_durable_snapshot w) (sw_snapshot_transfers w) (sw_next_snapshot_request_id w)
    (sw_next_snapshot_transfer_id w).
Definition set_durable_snapshot (s : RaftSnapshot) (w : SnapshotWork) : SnapshotWork :=
  mkSnapshotWork (sw_pending_snapshot w) (sw_pending_snapshot_restore w)
    (sw_install_after_hard_state w) (Some s) (sw_snapshot_transfers w)
    (sw_next_snapshot_request_id w) (sw_next_snapshot_transfer_id w).
Definition set_transfers (next : Z) (t : gmap Z PendingSnapshotTransfer) (w : SnapshotWork)
    : SnapshotWork :=
  mkSnapshotWork (sw_pending_snapshot w) (sw_pending_snapshot_restore w)
    (sw_install_after_hard_state w) (sw_durable_snapshot w) t
    (sw_next_snapshot_request_id w) next.
Definition set_pending_reads (p : gmap Z PendingRead) (q : gmap RequestId Z) (r : Reads) : Reads :=
  mkReads p q (rd_used_read_requests r) (rd_next_read_context r) (rd_completed_read_count r)
    (rd_rejected_read_count r).
Definition count_rejected (r : Reads) : Reads :=
  mkReads (rd_pending_reads r) (rd_pending_read_requests r) (rd_used_read_requests r)
    (rd_next_read_context r) (rd_completed_read_count r) (u64 (rd_rejected_read_count r + 1)).
Definition count_completed (r : Reads) : Reads :=
  mkReads (rd_pending_reads r) (rd_pending_read_requests r) (rd_used_read_requests r)
    (rd_next_read_context r) (u64 (rd_completed_read_count r + 1)) (rd_rejected_read_count r).

Definition on_timers (f : Timers → Timers) (c : Core) : Core := set_timers (f (co_timers c)) c.
Definition on_log_work (f : LogWork → LogWork) (c : Core) : Core :=
  set_log_work (f (co_log_work c)) c.
Definition on_snapshots (f : SnapshotWork → SnapshotWork) (c : Core) : Core :=
  set_snapshots (f (co_snapshots c)) c.
Definition on_reads (f : Reads → Reads) (c : Core) : Core := set_reads (f (co_reads c)) c.

Abbreviation method A := (M Core A).

(** ** Timers *)

Definition splitmix64 (state : Z) : Z * Z :=
  let state' := u64 (state + 0x9e3779b97f4a7c15) in
  let value1 := u64 (Z.lxor state' (Z.shiftr state' 30) * 0xbf58476d1ce4e5b9) in
  let value2 := u64 (Z.lxor value1 (Z.shiftr value1 27) * 0x94d049bb133111eb) in
  (Z.lxor value2 (Z.shiftr value2 31), state').

Definition next_deadline : method Effect :=
  c ← get_state;
  let t := co_timers c in
  let timer := tm_next_timer_id t in
  _ ← lift (throw_when ((timer =? 0) || (timer =? u64_max))
    (overflow_error "Raft election timer ID exhausted"));
  let minimum := to_minimum (cf_timeouts (co_config c)) in
  let width := to_maximum (cf_timeouts (co_config c)) - minimum in
  let '(delay, random) :=
    if width =? 0 then (minimum, tm_random_state t)
    else let '(value, random) := splitmix64 (tm_random_state t) in
         (minimum + value `mod` (width + 1), random) in
  _ ← put_state (set_timers
    (mkTimers random (timer + 1) (Some timer) (Some delay) (tm_heartbeat_timer t)) c);
  mret (ResetElectionDeadline timer delay).

Definition next_heartbeat : method Effect :=
  c ← get_state;
  let t := co_timers c in
  let timer := tm_next_timer_id t in
  _ ← lift (throw_when ((timer =? 0) || (timer =? u64_max))
    (overflow_error "Raft timer ID exhausted"));
  _ ← put_state (set_timers
    (mkTimers (tm_random_state t) (timer + 1) (tm_election_timer t) (tm_election_timeout t)
      (Some timer)) c);
  mret (ResetHeartbeatDeadline timer (cf_heartbeat_interval (co_config c))).

(** ** Application *)

Definition schedule_application (r : StepResult) : method StepResult :=
  c ← get_state;
  let s := co_state c in
  let w := co_log_work c in
  if bool_decide (is_Some (lw_pending_application w)) || (st_commit_index s <=? st_last_applied s)
  then mret r
  else
    let id := lw_next_application_request_id w in
    _ ← lift (throw_when (2 ^ 63 <=? id) (overflow_error "Raft application request ID exhausted"));
    let index := st_last_applied s + 1 in
    _ ← modify (on_log_work (set_application (id + 1) (lw_pending_application w)));
    entry ← lift (log_at (log_of s) (u64 (index - snapshot_base s - 1)));
    let request := mkApply id entry in
    _ ← modify (on_log_work (set_application (id + 1) (Some (mkPendingApplication request false))));
    mret (emit r (ApplyLogEntry request)).

(** ** Reads *)

Definition read_ready (s : State) (pending : PendingRead) : bool :=
  pr_quorum_confirmed pending && (pr_read_index pending <=? st_last_applied s).

Definition complete_ready_reads (r : StepResult) : method StepResult :=
  c ← get_state;
  mfold (λ r '(context, pending),
      if read_ready (co_state c) pending then
        _ ← modify (on_reads (λ d, count_completed (set_pending_reads
          (delete context (rd_pending_reads d))
          (delete (pr_request pending) (rd_pending_read_requests d)) d)));
        mret (emit r (ReadIndexResponse (pr_request pending) (pr_read_index pending)))
      else mret r)
    r (entries (rd_pending_reads (co_reads c))).

Definition reject_pending_reads (reason : ReadIndexFailure) (r : StepResult) : method StepResult :=
  c ← get_state;
  r' ← mfold (λ r '(_, pending),
      _ ← modify (on_reads count_rejected);
      mret (emit r (ReadIndexRejected (pr_request pending) reason)))
    r (entries (rd_pending_reads (co_reads c)));
  _ ← modify (on_reads (set_pending_reads ∅ ∅));
  mret r'.

(** [response] as received from [from]. *)
Definition acknowledge_read (from : Z) (response : AppendEntriesResponse) (r : StepResult)
    : method StepResult :=
  c ← get_state;
  let s := co_state c in
  if negb (bool_decide (st_role s = role_leader))
     || negb (ar_term response =? current_term s) || negb (ar_succeeded response)
  then mret r
  else
    match ar_read_context response with
    | None => mret r
    | Some context =>
        match rd_pending_reads (co_reads c) !! context with
        | None => mret r
        | Some pending =>
            let acknowledgements := {[from]} ∪ pr_acknowledgements pending in
            let confirmed := pr_quorum_confirmed pending
              || (majority s <=? Z.of_nat (size acknowledgements)) in
            _ ← modify (on_reads (λ d, set_pending_reads
              (<[context := mkPendingRead (pr_request pending) (pr_read_index pending)
                   acknowledgements confirmed]> (rd_pending_reads d))
              (rd_pending_read_requests d) d));
            complete_ready_reads r
        end
    end.

(** ** Log persistence *)

(** The effects up to and including the first log request, that request, and
    the effects after it. *)
Fixpoint split_log_persistence (effects : list Effect)
    : option (list Effect * PersistRaftLog * list Effect) :=
  match effects with
  | [] => None
  | PersistLog request :: after => Some ([PersistLog request], request, after)
  | effect :: rest =>
      match split_log_persistence rest with
      | Some (before, request, after) => Some (effect :: before, request, after)
      | None => None
      end
  end.

Definition gate_log_persistence (r : StepResult) : method StepResult :=
  match split_log_persistence (sr_effects r) with
  | None => mret r
  | Some (before, request, deferred) =>
      c ← get_state;
      _ ← lift (throw_when (bool_decide (is_Some (lw_pending_log (co_log_work c))))
        (logic_error "Raft log persistence is already pending"));
      _ ← modify (on_log_work (set_pending_log (Some (mkPendingLog request deferred))));
      mret (mkStep (sr_rules r) before)
  end.

(** ** Snapshot transfer *)

(** The body of the loop of [replace_compacted_appends]. *)
Definition replace_compacted_append (snapshot : RaftSnapshot) (leader : LeaderState)
    (effects : list Effect) (effect : Effect) : method (list Effect) :=
  match effect with
  | SendAppendEntries to request =>
      match ld_progress leader !! to with
      | None => mret (effects ++ [effect])
      | Some progress =>
          if sm_last_included_index (sn_metadata snapshot) <? pg_next_index progress
          then mret (effects ++ [effect])
          else
            c ← get_state;
            let transfer := sw_next_snapshot_transfer_id (co_snapshots c) in
            _ ← lift (throw_when ((transfer =? 0) || (transfer =? u64_max))
              (overflow_error "Raft snapshot transfer ID exhausted"));
            _ ← modify (on_snapshots (λ w, set_transfers (transfer + 1)
              (<[to := mkTransfer transfer (current_term (co_state c))
                   (sm_last_included_index (sn_metadata snapshot))]> (sw_snapshot_transfers w)) w));
            mret (effects ++ [SendInstallSnapshot to
              (mkInstall (current_term (co_state c)) (st_node (co_state c)) transfer
                (sn_metadata snapshot) 0 (bytes_size (sn_state snapshot)) (sn_state snapshot)
                (crc32c (sn_state snapshot)) true (ae_read_context request))])
      end
  | _ => mret (effects ++ [effect])
  end.

Definition replace_compacted_appends (r : StepResult) : method StepResult :=
  c ← get_state;
  match sw_durable_snapshot (co_snapshots c), st_leader (co_state c) with
  | Some snapshot, Some leader =>
      if bool_decide (st_role (co_state c) = role_leader) then
        effects ← mfold (replace_compacted_append snapshot leader) [] (sr_effects r);
        mret (mkStep (sr_rules r) effects)
      else mret r
  | _, _ => mret r
  end.

(** ** Translation of a Figure 2 step *)

Definition is_reset_election_timer (e : Figure2.Effect) : bool :=
  match e with Figure2.ResetElectionTimer => true | _ => false end.

(** The part of [translate] for a role that changed. *)
Definition translate_role (previous : RaftRole) (resets_election : bool) (t : StepResult)
    : method StepResult :=
  c ← get_state;
  let s := co_state c in
  let t1 := emit t (RoleTransition previous (st_role s) (current_term s)) in
  match (if bool_decide (st_role s = role_leader) then tm_election_timer (co_timers c) else None)
  with
  | Some timer =>
      let t2 := emit t1 (CancelElectionDeadline timer) in
      _ ← modify (on_timers (set_election_timer None None));
      heartbeat ← next_heartbeat;
      mret (emit t2 heartbeat)
  | None =>
      if bool_decide (previous = role_leader) && negb (bool_decide (st_role s = role_leader)) then
        t2 ← match tm_heartbeat_timer (co_timers c) with
             | Some timer =>
                 _ ← modify (on_timers (set_heartbeat_timer None));
                 mret (emit t1 (CancelHeartbeatDeadline timer))
             | None => mret t1
             end;
        t3 ← (if resets_election then mret t2
              else deadline ← next_deadline; mret (emit t2 deadline));
        t4 ← reject_pending_reads leadership_lost t3;
        _ ← modify (on_snapshots (λ w, set_transfers (sw_next_snapshot_transfer_id w) ∅ w));
        mret t4
      else mret t1
  end.

Definition translate_effect (t : StepResult) (effect : Figure2.Effect) : method StepResult :=
  match effect with
  | Figure2.PersistHardState request => mret (emit t (PersistHardState request))
  | Figure2.SendRequestVote to q => mret (emit t (SendRequestVote to q))
  | Figure2.SendRequestVoteResponse to q => mret (emit t (SendRequestVoteResponse to q))
  | Figure2.SendAppendEntries to q => mret (emit t (SendAppendEntries to q))
  | Figure2.SendAppendEntriesResponse to q => mret (emit t (SendAppendEntriesResponse to q))
  | Figure2.PersistLog =>
      c ← get_state;
      let id := lw_next_log_request_id (co_log_work c) in
      _ ← lift (throw_when (id =? u64_max)
        (overflow_error "Raft log persistence request ID exhausted"));
      _ ← modify (on_log_work (set_next_log_request_id (id + 1)));
      mret (emit t (PersistLog (mkPersistLog id (log_of (co_state c)))))
  | Figure2.ResetElectionTimer => deadline ← next_deadline; mret (emit t deadline)
  | Figure2.ApplyCommand _ _ | Figure2.CompleteClientCommand _ => mret t
  end.

Definition translate (result : Figure2.StepResult) (previous : RaftRole) : method StepResult :=
  let resets_election := existsb is_reset_election_timer (res_effects result) in
  _ ← modify (set_state (res_state result));
  let t := mkStep (res_rules result) [] in
  t1 ← (if bool_decide (st_role (res_state result) = previous) then mret t
        else translate_role previous resets_election t);
  t2 ← mfold translate_effect t1 (res_effects result);
  t3 ← gate_log_persistence t2;
  t4 ← replace_compacted_appends t3;
  c ← get_state;
  if negb (bool_decide (is_Some (st_pending_hard_state (co_state c))))
     && negb (bool_decide (is_Some (lw_pending_log (co_log_work c))))
  then schedule_application t4 else mret t4.

(** [translate(figure2::step(state_, event), state_.role)] *)
Definition run_figure2 (event : Event) : method StepResult :=
  c ← get_state;
  result ← lift (Figure2.step (co_state c) event);
  translate result (st_role (co_state c)).

(** ** Read requests *)

Definition reject_read (request : RequestId) (reason : ReadIndexFailure) : method StepResult :=
  _ ← modify (on_reads count_rejected);
  mret (with_effects [ReadIndexRejected request reason]).

(** The term of the entry at the commit index, zero if there is none. *)
Definition commit_term (s : State) : outcome Z :=
  let commit := st_commit_index s in
  let base := snapshot_base s in
  match (if commit =? base then ps_snapshot (st_persistent s) else None) with
  | Some snapshot => mret (sm_last_included_term snapshot)
  | None =>
      if base <? commit then
        entry ← log_at (log_of s) (commit - base - 1); mret (en_term entry)
      else mret 0
  end.

Definition with_read_context (context : Z) (effect : Effect) : Effect :=
  match effect with
  | SendAppendEntries to q =>
      SendAppendEntries to (mkAppendEntries (ae_term q) (ae_leader q) (ae_previous_log_index q)
        (ae_previous_log_term q) (ae_entries q) (ae_leader_commit q) (Some context))
  | SendInstallSnapshot to q =>
      SendInstallSnapshot to (mkInstall (is_term q) (is_leader q) (is_transfer_id q)
        (is_metadata q) (is_offset q) (is_total_size q) (is_chunk q) (is_state_checksum q)
        (is_done q) (Some context))
  | _ => effect
  end.

Definition begin_read (request : RequestId) : method StepResult :=
  _ ← lift (throw_when (bool_decide (request = mkRequestId 0 0))
    (invalid_argument "ReadIndex request ID must be nonzero"));
  c ← get_state;
  let s := co_state c in
  let d := co_reads c in
  if negb (bool_decide (st_role s = role_leader)) then reject_read request not_leader
  else if bool_decide (request ∈ rd_used_read_requests d) then reject_read request duplicate_request
  else
    term ← lift (commit_term s);
    if (st_commit_index s =? 0) || negb (term =? current_term s)
    then reject_read request current_term_not_committed
    else if (cf_max_pending_reads (co_config c) <=? Z.of_nat (size (rd_pending_reads d)))
            || (cf_max_read_history (co_config c) <=? Z.of_nat (size (rd_used_read_requests d)))
    then reject_read request capacity_exceeded
    else
      let context := rd_next_read_context d in
      if (context =? 0) || (context =? u64_max) then reject_read request context_exhausted
      else
        _ ← modify (set_reads (mkReads
          (<[context := mkPendingRead request (st_commit_index s) {[st_node s]} false]>
             (rd_pending_reads d))
          (<[request := context]> (rd_pending_read_requests d))
          ({[request]} ∪ rd_used_read_requests d) (context + 1)
          (rd_completed_read_count d) (rd_rejected_read_count d)));
        result ← run_figure2 HeartbeatTimeout;
        mret (mkStep (sr_rules result) (with_read_context context <$> sr_effects result)).

(** The common body of [cancel_read] and [timeout_read]. *)
Definition drop_read (request : RequestId) (reason : ReadIndexFailure) : method StepResult :=
  c ← get_state;
  match rd_pending_read_requests (co_reads c) !! request with
  | None => mret (with_effects [])
  | Some context =>
      _ ← modify (on_reads (λ d, count_rejected (set_pending_reads
        (delete context (rd_pending_reads d)) (delete request (rd_pending_read_requests d)) d)));
      mret (with_effects [ReadIndexRejected request reason])
  end.

Definition cancel_read (request : RequestId) : method StepResult := drop_read request cancelled.
Definition timeout_read (request : RequestId) : method StepResult := drop_read request timed_out.

(** ** Snapshots *)

(** [std::ranges::sort] with [by_id] *)
Definition sort_nodes (nodes : list Z) : list Z := merge_sort Z.le nodes.

(** [std::adjacent_find(...) != end] *)
Fixpoint has_adjacent (nodes : list Z) : bool :=
  match nodes with
  | a :: ((b :: _) as rest) => (a =? b) || has_adjacent rest
  | _ => false
  end.

(** [std::ranges::is_sorted] with [by_id] *)
Fixpoint is_sorted (nodes : list Z) : bool :=
  match nodes with
  | a :: ((b :: _) as rest) => negb (b <? a) && is_sorted rest
  | _ => true
  end.

Definition length_Z {A} (l : list A) : Z := Z.of_nat (length l).

(** The voters a snapshot must name, in order. *)
Definition expected_voters (s : State) : list Z := sort_nodes (st_peers s ++ [st_node s]).

Definition membership_valid (c : Core) (m : ClusterMembership) : bool :=
  bool_decide (mb_voters m = expected_voters (co_state c))
  && negb (has_adjacent (mb_voters m))
  && negb (has_adjacent (mb_learners m))
  && negb (bool_decide (0 ∈ mb_learners m))
  && negb (existsb (λ node, bool_decide (node ∈ mb_voters m)) (mb_learners m))
  && (length_Z (mb_voters m) + length_Z (mb_learners m) <=? cf_max_snapshot_members (co_config c)).

(** Takes the next snapshot request identifier and records the pending write. *)
Definition request_snapshot (snapshot : RaftSnapshot) (reply_to : option Z)
    (response : option InstallSnapshotResponse) (local_creation : bool) : method Effect :=
  c ← get_state;
  let id := sw_next_snapshot_request_id (co_snapshots c) in
  _ ← lift (throw_when ((id =? 0) || (2 ^ 62 <=? id))
    (overflow_error "Raft snapshot persistence request ID exhausted"));
  _ ← modify (on_snapshots (set_pending_snapshot (id + 1)
    (Some (mkPendingSnapshot id snapshot reply_to response local_creation))));
  mret (PersistRaftSnapshot id snapshot).

Definition reject_snapshot (reason : SnapshotRejection) : StepResult :=
  with_effects [RaftSnapshotRejected reason].

(** The term of an applied entry. *)
Definition applied_term (s : State) (index : Z) : outcome Z :=
  let base := snapshot_base s in
  match (if index =? base then ps_snapshot (st_persistent s) else None) with
  | Some snapshot => mret (sm_last_included_term snapshot)
  | None => entry ← log_at (log_of s) (u64 (index - base - 1)); mret (en_term entry)
  end.

Definition begin_snapshot (request : CreateRaftSnapshot) : method StepResult :=
  c ← get_state;
  let s := co_state c in
  let w := co_snapshots c in
  let index := cs_applied_index request in
  if bool_decide (is_Some (sw_pending_snapshot w)) then mret (reject_snapshot persistence_busy)
  else if (index =? 0) || negb (index =? st_last_applied s)
  then mret (reject_snapshot no_applied_entry)
  else if match sw_durable_snapshot w with
          | Some d => index <=? sm_last_included_index (sn_metadata d)
          | None => false
          end
  then mret (reject_snapshot stale)
  else if (cs_store_revision request <? 0) || (cs_compaction_revision request <? 0)
          || (cs_store_revision request <? cs_compaction_revision request)
  then mret (reject_snapshot invalid_revision)
  else
    let membership := mkMembership (sort_nodes (mb_voters (cs_membership request)))
      (sort_nodes (mb_learners (cs_membership request))) in
    if negb (membership_valid c membership) then mret (reject_snapshot invalid_membership)
    else
      let overhead := 68 + 8 * (length_Z (mb_voters membership) + length_Z (mb_learners membership)) in
      let max_bytes := cf_max_snapshot_bytes (co_config c) in
      if (max_bytes <? overhead) || (max_bytes - overhead <? bytes_size (cs_state request))
      then mret (reject_snapshot too_large)
      else
        term ← lift (applied_term s index);
        let snapshot := mkSnapshot
          (mkSnapshotMetadata index term (cs_store_revision request)
            (cs_compaction_revision request) membership 1)
          (cs_state request) (crc32c (cs_state request)) in
        persistence ← request_snapshot snapshot None None true;
        mret (with_effects [persistence]).

(** The [valid_shape] of [receive_snapshot]. *)
Definition valid_shape (c : Core) (request : InstallSnapshotRequest) : bool :=
  let m := is_metadata request in
  let voter_count := length_Z (mb_voters (sm_membership m)) in
  let learner_count := length_Z (mb_learners (sm_membership m)) in
  let max_bytes := cf_max_snapshot_bytes (co_config c) in
  let max_members := cf_max_snapshot_members (co_config c) in
  let member_size_valid :=
    (voter_count <=? max_members) && (learner_count <=? max_members)
    && (voter_count <=? max_members - learner_count)
    && (voter_count <=? (max_bytes - 68) `div` 8) && (learner_count <=? (max_bytes - 68) `div` 8)
    && (voter_count <=? (max_bytes - 68) `div` 8 - learner_count) in
  let member_count := if member_size_valid then voter_count + learner_count else 0 in
  let state_size_valid := is_total_size request <=? max_bytes in
  let encoded_size :=
    if member_size_valid && state_size_valid
    then u64 (68 + 8 * member_count + is_total_size request) else u64_max in
  member_size_valid && state_size_valid
  && negb (is_transfer_id request =? 0)
  && (is_offset request =? 0) && is_done request
  && (is_total_size request =? bytes_size (is_chunk request))
  && (is_total_size request <=? encoded_size) && (encoded_size <=? max_bytes)
  && negb (sm_last_included_index m =? 0) && negb (sm_last_included_term m =? 0)
  && (sm_last_included_term m <=? is_term request) && (sm_format_version m =? 1)
  && (0 <=? sm_store_revision m) && (0 <=? sm_compaction_revision m)
  && (sm_compaction_revision m <=? sm_store_revision m).

(** The membership check of [receive_snapshot]. *)
Definition received_membership_valid (s : State) (m : ClusterMembership) : bool :=
  let unique := list_to_set (mb_voters m ++ mb_learners m) : gset Z in
  bool_decide (sort_nodes (mb_voters m) = expected_voters s)
  && negb (bool_decide (0 ∈ mb_voters m ++ mb_learners m))
  && is_sorted (mb_voters m) && is_sorted (mb_learners m)
  && (Z.of_nat (size unique) =? length_Z (mb_voters m) + length_Z (mb_learners m)).

Definition install_reply (from : Z) (response : InstallSnapshotResponse) : Effect :=
  SendInstallSnapshotResponse from response.

Definition install_rejection (s : State) (from : Z) (request : InstallSnapshotRequest) : Effect :=
  install_reply from (mkInstallResponse (current_term s) (is_transfer_id request) false 0
    (is_read_context request)).

(** The state in which [receive_snapshot] recognises the sender as leader. *)
Definition follow (from : Z) (s : State) : State :=
  with_role s role_follower (Some from) ∅ None.

(** The part of [receive_snapshot] after the sender was recognised. *)
Definition install_snapshot (from : Z) (request : InstallSnapshotRequest) (r : StepResult)
    : method StepResult :=
  c ← get_state;
  let s := co_state c in
  let m := is_metadata request in
  let rejected := emit r (install_rejection s from request) in
  if negb (valid_shape c request) || negb (crc32c (is_chunk request) =? is_state_checksum request)
  then mret rejected
  else if negb (received_membership_valid s (sm_membership m)) then mret rejected
  else
    let covering := match sw_durable_snapshot (co_snapshots c) with
      | Some durable =>
          if sm_last_included_index m <=? sm_last_included_index (sn_metadata durable)
          then Some durable else None
      | None => None
      end in
    match covering with
    | Some durable =>
        mret (emit r (install_reply from (mkInstallResponse (current_term s)
          (is_transfer_id request)
          (bool_decide (m = sn_metadata durable) && bool_decide (is_chunk request = sn_state durable))
          (sm_last_included_index (sn_metadata durable)) (is_read_context request))))
    | None =>
        if sm_last_included_index m <=? st_last_applied s then mret rejected
        else
          persistence ← request_snapshot (mkSnapshot m (is_chunk request) (is_state_checksum request))
            (Some from) (Some (mkInstallResponse (current_term s) (is_transfer_id request) true
              (sm_last_included_index m) (is_read_context request))) false;
          mret (emit r persistence)
    end.

Definition receive_snapshot (from : Z) (request : InstallSnapshotRequest) : method StepResult :=
  c ← get_state;
  let s := co_state c in
  _ ← lift (throw_when (negb (bool_decide (from ∈ st_peers s)) || negb (is_leader request =? from))
    (invalid_argument "InstallSnapshot sender is not its voting leader"));
  if is_term request <? current_term s
  then mret (with_effects [install_rejection s from request])
  else if current_term s <? is_term request then
    _ ← modify (on_snapshots (set_install_after (Some (from, request))));
    run_figure2 (ObserveTerm (is_term request))
  else if bool_decide (is_Some (sw_pending_snapshot (co_snapshots c)))
  then mret (with_effects [install_rejection s from request])
  else
    r ← translate (mkResult (follow from s) [] [ResetElectionTimer]) (st_role s);
    install_snapshot from request r.

(** ** Compaction *)

Definition with_snapshot (s : State) (log : list LogEntry) (m : SnapshotMetadata) : State :=
  mkState (st_node s) (st_peers s) (st_role s)
    (mkPersistent (current_term s) (voted_for s) (Some m) log)
    (st_commit_index s) (st_last_applied s) (st_known_leader s) (st_votes_received s)
    (st_leader s) (st_next_hard_state_request_id s) (st_pending_hard_state s).

(** The log that remains after compaction to a snapshot: the suffix behind it if
    the log agrees with it, and nothing otherwise. *)
Definition compacted_log (s : State) (m : SnapshotMetadata) : list LogEntry :=
  let index := sm_last_included_index m in
  let base := snapshot_base s in
  match (if index =? base then ps_snapshot (st_persistent s) else None) with
  | Some current =>
      if sm_last_included_term current =? sm_last_included_term m then log_of s else []
  | None =>
      if base <? index then
        match log_of s !! Z.to_nat (index - base - 1) with
        | Some entry =>
            if en_term entry =? sm_last_included_term m
            then drop (S (Z.to_nat (index - base - 1))) (log_of s) else []
        | None => []
        end
      else []
  end.

(** The specification state after compaction. *)
Definition compacted_state (m : SnapshotMetadata) (s : State) : State :=
  with_indexes (with_snapshot s (compacted_log s m) m)
    (Z.max (st_commit_index s) (sm_last_included_index m))
    (Z.max (st_last_applied s) (sm_last_included_index m)).

Definition compact_to (snapshot : RaftSnapshot) : method unit :=
  c ← get_state;
  let m := sn_metadata snapshot in
  let index := sm_last_included_index m in
  let pending := match lw_pending_application (co_log_work c) with
    | Some p => if en_index (ap_entry (pa_request p)) <=? index then None else Some p
    | None => None
    end in
  _ ← modify (set_state (compacted_state m (co_state c)));
  _ ← modify (on_log_work (λ w, set_application (lw_next_application_request_id w) pending w));
  modify (on_snapshots (set_durable_snapshot snapshot)).

Definition install_persisted_snapshot (request_id : Z) (snapshot : RaftSnapshot) (r : StepResult)
    : method StepResult :=
  c ← get_state;
  let w := co_snapshots c in
  match sw_pending_snapshot w with
  | Some pending =>
      if (request_id =? sp_request_id pending)
         && bool_decide (sn_metadata snapshot = sn_metadata (sp_snapshot pending))
         && bool_decide (sn_state snapshot = sn_state (sp_snapshot pending))
      then
        _ ← modify (on_snapshots (set_pending_snapshot (sw_next_snapshot_request_id w) None));
        let durable := mkSnapshot (sn_metadata (sp_snapshot pending)) (sn_state (sp_snapshot pending))
          (crc32c (sn_state (sp_snapshot pending))) in
        let index := sm_last_included_index (sn_metadata durable) in
        if sp_local_creation pending then
          _ ← compact_to durable;
          mret (emit (emit r (TruncateRaftLogPrefix index)) (RaftSnapshotCreated index))
        else
          reply_to ← deref (sp_reply_to pending);
          response ← deref (sp_response pending);
          _ ← modify (on_snapshots (set_pending_restore
            (Some (mkRestore request_id durable reply_to response))));
          mret (emit r (RestoreStateMachineSnapshot request_id durable))
      else lift (Throw (invalid_argument "Raft snapshot completion does not match pending request"))
  | None => lift (Throw (invalid_argument "Raft snapshot completion does not match pending request"))
  end.

Definition complete_snapshot_restore (request_id index : Z) (r : StepResult) : method StepResult :=
  c ← get_state;
  match sw_pending_snapshot_restore (co_snapshots c) with
  | Some pending =>
      let last := sm_last_included_index (sn_metadata (rs_snapshot pending)) in
      if (request_id =? rs_request_id pending) && (index =? last) then
        _ ← modify (on_snapshots (set_pending_restore None));
        _ ← compact_to (rs_snapshot pending);
        mret (emit (emit r (TruncateRaftLogPrefix last))
          (SendInstallSnapshotResponse (rs_reply_to pending) (rs_response pending)))
      else lift (Throw (invalid_argument
        "Raft snapshot restore completion does not match pending restore"))
  | None => lift (Throw (invalid_argument
      "Raft snapshot restore completion does not match pending restore"))
  end.

Definition transfer_matches (c : Core) (from : Z) (response : InstallSnapshotResponse) : bool :=
  let s := co_state c in
  bool_decide (st_role s = role_leader)
  && (ir_term response =? current_term s) && ir_succeeded response
  && match sw_durable_snapshot (co_snapshots c) with
     | Some durable =>
         ir_last_included_index response =? sm_last_included_index (sn_metadata durable)
     | None => false
     end
  && match sw_snapshot_transfers (co_snapshots c) !! from with
     | Some transfer =>
         (tr_transfer_id transfer =? ir_transfer_id response)
         && (tr_term transfer =? ir_term response)
         && (tr_index transfer =? ir_last_included_index response)
     | None => false
     end.

Definition receive_snapshot_response (from : Z) (response : InstallSnapshotResponse)
    : method StepResult :=
  c ← get_state;
  let s := co_state c in
  _ ← lift (throw_when (negb (bool_decide (from ∈ st_peers s)))
    (invalid_argument "InstallSnapshot response is from a non-peer"));
  if current_term s <? ir_term response then run_figure2 (ObserveTerm (ir_term response))
  else if negb (transfer_matches c from response) then mret (with_effects [])
  else
    _ ← modify (on_snapshots (λ w, set_transfers (sw_next_snapshot_transfer_id w)
      (delete from (sw_snapshot_transfers w)) w));
    let synthetic := mkAppendResponse (ir_term response) true (ir_last_included_index response)
      (ir_read_context response) in
    result ← run_figure2 (Figure2.ReceiveAppendEntriesResponse from synthetic);
    result' ← acknowledge_read from synthetic result;
    resume ← run_figure2 HeartbeatTimeout;
    mret (append_result result' resume).

(** ** The step function *)

Definition validate_entry (term : Z) (expected : Z) (entry : LogEntry) : outcome Z :=
  throw_when (expected =? u64_max) (overflow_error "AppendEntries index exhausted");;
  throw_when (negb (en_index entry =? expected + 1) || (en_term entry =? 0)
              || (term <? en_term entry))
    (invalid_argument "AppendEntries entries have invalid term/index ordering");;
  mret (expected + 1).

Definition validate_append_request (q : AppendEntriesRequest) : outcome unit :=
  throw_when ((ae_term q =? 0) || (ae_leader q =? 0))
    (invalid_argument "AppendEntries term and leader must be nonzero");;
  (if ae_previous_log_index q =? 0
   then throw_when (negb (ae_previous_log_term q =? 0))
     (invalid_argument "AppendEntries index zero must have term zero")
   else throw_when (ae_previous_log_term q =? 0)
     (invalid_argument "AppendEntries nonzero index must have a nonzero term"));;
  foldM (validate_entry (ae_term q)) (ae_previous_log_index q) (ae_entries q);;
  mret tt.

Definition start : method StepResult :=
  c ← get_state;
  _ ← lift (throw_when (co_started c) (logic_error "Raft election core already started"));
  _ ← modify set_started;
  deadline ← next_deadline;
  mret (with_effects [deadline]).

(** The pending application a completion or failure must name. *)
Definition pending_application_matches (w : LogWork) (request_id index : Z) : bool :=
  match lw_pending_application w with
  | Some p => negb (pa_blocked p) && (request_id =? ap_request_id (pa_request p))
              && (index =? en_index (ap_entry (pa_request p)))
  | None => false
  end.

(** Whether a client waits for the entry at [index]. *)
Definition awaits_client (s : State) (index : Z) : bool :=
  match st_leader s with
  | Some leader => bool_decide (index ∈ ld_pending_clients leader)
  | None => false
  end.

(** The specification state after the entry at [index] was applied. *)
Definition applied_state (index : Z) (s : State) : State :=
  let s1 := with_indexes s (st_commit_index s) index in
  match st_leader s with
  | Some leader => with_leader s1 (Some (mkLeaderState (ld_progress leader)
      (ld_pending_clients leader ∖ {[index]})))
  | None => s1
  end.

Definition entry_applied (request_id index : Z) : method StepResult :=
  c ← get_state;
  let w := co_log_work c in
  _ ← lift (throw_when (negb (pending_application_matches w request_id index))
    (invalid_argument "application completion does not match pending entry"));
  _ ← modify (set_state (applied_state index (co_state c)));
  _ ← modify (on_log_work (set_application (lw_next_application_request_id w) None));
  let r := with_effects (if awaits_client (co_state c) index then [CompleteClientCommand index] else []) in
  r1 ← complete_ready_reads r;
  schedule_application r1.

Definition entry_apply_failed (request_id index : Z) : method StepResult :=
  c ← get_state;
  let w := co_log_work c in
  _ ← lift (throw_when (negb (pending_application_matches w request_id index))
    (invalid_argument "application failure does not match pending entry"));
  pending ← deref (lw_pending_application w);
  _ ← modify (on_log_work (set_application (lw_next_application_request_id w)
    (Some (mkPendingApplication (pa_request pending) true))));
  mret (with_effects [ApplicationBackpressured index]).

Definition retry_application : method StepResult :=
  c ← get_state;
  let w := co_log_work c in
  match lw_pending_application w with
  | Some (mkPendingApplication request true) =>
      let id := lw_next_application_request_id w in
      _ ← lift (throw_when (2 ^ 63 <=? id) (overflow_error "Raft application request ID exhausted"));
      let request' := mkApply id (ap_entry request) in
      _ ← modify (on_log_work (set_application (id + 1) (Some (mkPendingApplication request' false))));
      mret (with_effects [ApplyLogEntry request'])
  | _ => lift (Throw (logic_error "application retry requires a blocked entry"))
  end.

Definition log_persisted (completion : PersistRaftLog) : method StepResult :=
  c ← get_state;
  match lw_pending_log (co_log_work c) with
  | None => lift (Throw (invalid_argument "unexpected Raft log persistence completion"))
  | Some pending =>
      _ ← lift (throw_when
        (negb (pl_request_id completion =? pl_request_id (lp_request pending))
         || negb (bool_decide (pl_log completion = pl_log (lp_request pending))))
        (invalid_argument "Raft log completion does not match pending request"));
      _ ← modify (on_log_work (set_pending_log None));
      r ← replace_compacted_appends (with_effects (lp_deferred_effects pending));
      schedule_application r
  end.

Definition hard_state_persisted (completion : RaftHardStatePersisted) : method StepResult :=
  completed ← run_figure2 (Figure2.HardStatePersisted completion);
  c ← get_state;
  match sw_install_after_hard_state (co_snapshots c) with
  | Some (from, request) =>
      if bool_decide (is_Some (st_pending_hard_state (co_state c))) then mret completed
      else
        _ ← modify (on_snapshots (set_install_after None));
        continuation ← receive_snapshot from request;
        mret (append_result completed continuation)
  | None => mret completed
  end.

Definition election_deadline (timer_id : Z) : method StepResult :=
  c ← get_state;
  if negb (bool_decide (tm_election_timer (co_timers c) = Some timer_id)) then mret (with_effects [])
  else
    _ ← modify (on_timers (set_election_timer None None));
    run_figure2 ElectionTimeout.

Definition heartbeat_deadline (timer_id : Z) : method StepResult :=
  c ← get_state;
  if negb (bool_decide (tm_heartbeat_timer (co_timers c) = Some timer_id))
     || negb (bool_decide (st_role (co_state c) = role_leader))
  then mret (with_effects [])
  else
    _ ← modify (on_timers (set_heartbeat_timer None));
    result ← run_figure2 HeartbeatTimeout;
    heartbeat ← next_heartbeat;
    mret (emit result heartbeat).

(** [complete_ready_reads] and [schedule_application] after a snapshot event. *)
Definition finish_completion (r : StepResult) : method StepResult :=
  r1 ← complete_ready_reads r; schedule_application r1.

(** The inputs that are blocked on pending log persistence. *)
Definition step_unblocked (input : Input) : method StepResult :=
  match input with
  | HardStatePersisted completion => hard_state_persisted completion
  | CreateSnapshot request => begin_snapshot request
  | ReceiveInstallSnapshot from request => receive_snapshot from request
  | ReceiveInstallSnapshotResponse from response => receive_snapshot_response from response
  | ReadIndexRequest request => begin_read request
  | CancelReadIndex request => cancel_read request
  | TimeoutReadIndex request => timeout_read request
  | ReceiveAppendEntries from request =>
      _ ← lift (validate_append_request request);
      run_figure2 (Figure2.ReceiveAppendEntries from request)
  | ReceiveAppendEntriesResponse from response =>
      result ← run_figure2 (Figure2.ReceiveAppendEntriesResponse from response);
      acknowledge_read from response result
  | ElectionDeadline timer_id => election_deadline timer_id
  | HeartbeatDeadline timer_id => heartbeat_deadline timer_id
  | ReceiveRequestVote from request => run_figure2 (Figure2.ReceiveRequestVote from request)
  | ReceiveRequestVoteResponse from response =>
      run_figure2 (Figure2.ReceiveRequestVoteResponse from response)
  | ReceiveClientCommand command => run_figure2 (Figure2.ReceiveClientCommand command)
  | _ => mret (with_effects [])
  end.

Definition step (input : Input) : method StepResult :=
  c ← get_state;
  _ ← lift (throw_when (negb (co_started c)) (logic_error "Raft election core has not started"));
  match input with
  | RaftSnapshotPersisted request_id snapshot =>
      r ← install_persisted_snapshot request_id snapshot (with_effects []); finish_completion r
  | RaftSnapshotRestored request_id index =>
      r ← complete_snapshot_restore request_id index (with_effects []); finish_completion r
  | _ =>
      _ ← lift (throw_when (bool_decide (is_Some (sw_pending_snapshot (co_snapshots c)))
                            || bool_decide (is_Some (sw_pending_snapshot_restore (co_snapshots c))))
        (logic_error "Raft core input is blocked on snapshot persistence/restore"));
      match input with
      | LogEntryApplied request_id index => entry_applied request_id index
      | LogEntryApplyFailed request_id index => entry_apply_failed request_id index
      | RetryApplication => retry_application
      | RaftLogPersisted completion => log_persisted completion
      | _ =>
          _ ← lift (throw_when (bool_decide (is_Some (lw_pending_log (co_log_work c))))
            (logic_error "Raft core input is blocked on log persistence"));
          step_unblocked input
      end
  end.

(** ** Construction *)

(** What a restarting server gives its core. *)
Record Recovered := mkRecovered {
  rc_hard_state : RaftHardState;
  rc_log : list LogEntry;
  rc_applied : Z;
  rc_snapshot : option RaftSnapshot }.

(** The [any_of] and limit checks at the head of the constructor. *)
Definition check_arguments (self : Z) (peers : list Z) (cf : Config) (rc : Recovered)
    : outcome unit :=
  let cluster_size := length_Z peers + 1 in
  let h := rc_hard_state rc in
  throw_when (self =? 0) (invalid_argument "Raft node ID must be nonzero");;
  throw_when (bool_decide (0 ∈ peers)) (invalid_argument "Raft peer IDs must be nonzero");;
  throw_when ((cluster_size <? 3) || (cluster_size `mod` 2 =? 0))
    (invalid_argument "Raft election cluster must have an odd size of at least three");;
  throw_when ((to_minimum (cf_timeouts cf) =? 0)
              || (to_maximum (cf_timeouts cf) <? to_minimum (cf_timeouts cf)))
    (invalid_argument "invalid Raft election timeout range");;
  throw_when (cf_heartbeat_interval cf =? 0)
    (invalid_argument "Raft heartbeat interval must be nonzero");;
  throw_when ((cf_max_pending_reads cf =? 0) || (cf_max_read_history cf <? cf_max_pending_reads cf))
    (invalid_argument "invalid ReadIndex limits");;
  throw_when (cf_max_snapshot_bytes cf <? 68) (invalid_argument "invalid Raft snapshot size limit");;
  throw_when (cf_max_snapshot_members cf <? cluster_size)
    (invalid_argument "invalid Raft snapshot member limit");;
  throw_when ((hs_current_term h =? 0) && bool_decide (is_Some (hs_voted_for h)))
    (invalid_argument "bootstrap term cannot contain a vote");;
  throw_when (match hs_voted_for h with
              | Some v => negb (v =? self) && negb (bool_decide (v ∈ peers))
              | None => false
              end) (invalid_argument "recovered vote is outside the cluster");;
  throw_when (existsb (λ entry, en_term entry =? 0) (rc_log rc))
    (invalid_argument "recovered Raft log entries must have nonzero terms").

(** One member of the recovered membership: whether a bad one was seen, and the
    members so far. *)
Definition collect_member (acc : bool * gset Z) (member : Z) : bool * gset Z :=
  if acc.1 || (member =? 0) then (true, acc.2)
  else (bool_decide (member ∈ acc.2), {[member]} ∪ acc.2).

Definition check_snapshot (self : Z) (peers : list Z) (cf : Config) (h : RaftHardState)
    (snapshot : RaftSnapshot) : outcome unit :=
  let m := sn_metadata snapshot in
  throw_when ((sm_last_included_index m =? 0) || (sm_last_included_term m =? 0)
              || (hs_current_term h <? sm_last_included_term m)
              || negb (sm_format_version m =? 1))
    (invalid_argument "invalid recovered Raft snapshot");;
  throw_when ((sm_store_revision m <? 0) || (sm_compaction_revision m <? 0)
              || (sm_store_revision m <? sm_compaction_revision m))
    (invalid_argument "invalid recovered snapshot revisions");;
  let '(invalid_member, members) := foldl collect_member (false, ∅)
    (mb_voters (sm_membership m) ++ mb_learners (sm_membership m)) in
  let member_count := Z.of_nat (size members) in
  let max_bytes := cf_max_snapshot_bytes cf in
  throw_when (invalid_member
              || negb (bool_decide ((list_to_set (mb_voters (sm_membership m)) : gset Z)
                                    = list_to_set (self :: peers)))
              || (cf_max_snapshot_members cf <? member_count)
              || ((max_bytes - 68) `div` 8 <? member_count)
              || (max_bytes - 68 - member_count * 8 <? bytes_size (sn_state snapshot)))
    (invalid_argument "invalid recovered snapshot membership or size").

(** The log behind a recovered snapshot. *)
Definition recover_log (log : list LogEntry) (m : SnapshotMetadata) : outcome (list LogEntry) :=
  let index := sm_last_included_index m in
  match list_find (λ entry, en_index entry = index) log with
  | Some (i, matching) =>
      throw_when (negb (en_term matching =? sm_last_included_term m))
        (invalid_argument "recovered snapshot conflicts with Raft log");;
      mret (drop (S i) log)
  | None =>
      throw_when (match log with
                  | front :: _ => negb (en_index front =? u64 (index + 1))
                  | [] => false
                  end) (invalid_argument "recovered log does not follow the Raft snapshot");;
      mret log
  end.

(** The checks at the end of the constructor. *)
Definition check_state (s : State) : outcome unit :=
  throw_when (last_index s <? st_last_applied s)
    (invalid_argument "recovered applied index exceeds the Raft log");;
  match validate s with
  | [] => mret tt
  | message :: _ => Throw (invalid_argument message)
  end.

Definition initial_state (self : Z) (peers : list Z) (h : RaftHardState)
    (snapshot : option SnapshotMetadata) (log : list LogEntry) (applied : Z) : State :=
  mkState self peers role_follower
    (mkPersistent (hs_current_term h) (hs_voted_for h) snapshot log)
    applied applied None ∅ None 1 None.

Definition initial_core (cf : Config) (s : State) (seed : Z) (snapshot : option RaftSnapshot) : Core :=
  mkCore cf s (mkTimers seed 1 None None None)
    (mkLogWork (2 ^ 63) (2 ^ 62) None None)
    (mkSnapshotWork None None None snapshot ∅ (2 ^ 61) 1)
    (mkReads ∅ ∅ ∅ 1 0 0) false.

Definition construct (self : Z) (peers : list Z) (cf : Config) (rc : Recovered) (seed : Z)
    : outcome Core :=
  let h := rc_hard_state rc in
  check_arguments self peers cf rc;;
  s ← match rc_snapshot rc with
      | None => mret (initial_state self peers h None (rc_log rc) (rc_applied rc))
      | Some snapshot =>
          check_snapshot self peers cf h snapshot;;
          log ← recover_log (rc_log rc) (sn_metadata snapshot);
          mret (initial_state self peers h (Some (sn_metadata snapshot)) log
            (Z.max (rc_applied rc) (sm_last_included_index (sn_metadata snapshot))))
      end;
  check_state s;;
  mret (initial_core cf s seed (rc_snapshot rc)).

(** ** Observation *)

Record Snapshot := mkView {
  vw_role : RaftRole;
  vw_hard_state : RaftHardState;
  vw_votes_received : list Z;
  vw_election_timer : option Z;
  vw_election_timeout : option Z;
  vw_heartbeat_timer : option Z;
  vw_log : list LogEntry;
  vw_snapshot_metadata : option SnapshotMetadata;
  vw_peer_progress : gmap Z PeerProgress;
  vw_commit_index : Z;
  vw_last_applied : Z;
  vw_application_pending : bool;
  vw_application_blocked : bool;
  vw_pending_read_count : Z;
  vw_completed_read_count : Z;
  vw_rejected_read_count : Z;
  vw_waiting_for_persistence : bool }.

Definition waiting_for_persistence (c : Core) : bool :=
  bool_decide (is_Some (st_pending_hard_state (co_state c)))
  || bool_decide (is_Some (lw_pending_log (co_log_work c)))
  || bool_decide (is_Some (sw_pending_snapshot (co_snapshots c)))
  || bool_decide (is_Some (sw_pending_snapshot_restore (co_snapshots c))).

Definition snapshot (c : Core) : Snapshot :=
  let s := co_state c in
  mkView (st_role s) (hard_state s) (set_entries (st_votes_received s))
    (tm_election_timer (co_timers c)) (tm_election_timeout (co_timers c))
    (tm_heartbeat_timer (co_timers c)) (log_of s) (ps_snapshot (st_persistent s))
    (match st_leader s with Some leader => ld_progress leader | None => ∅ end)
    (st_commit_index s) (st_last_applied s)
    (bool_decide (is_Some (lw_pending_application (co_log_work c))))
    (match lw_pending_application (co_log_work c) with Some p => pa_blocked p | None => false end)
    (Z.of_nat (size (rd_pending_reads (co_reads c))))
    (rd_completed_read_count (co_reads c)) (rd_rejected_read_count (co_reads c))
    (waiting_for_persistence c).

End election.
