(* ===== verification/RaftCoreFrames.v ===== *)
(** * Frames of the core's helpers

    What each helper of [Core] assigns and which effects it adds, in the form
    "the object afterwards is the object before with one group of members
    replaced".  The properties of the core are proved from these. *)

From S2P Require Import Prelude OrdMap Bytes StoreTypes RaftTypes Codec RaftMessages Figure2.
From S2P Require Import RaftCore.
Import election.
#[local] Open Scope Z_scope.

(** ** Extending a result *)

(** [r'] is [r] with effects satisfying [P] added. *)
Definition adds (P : Effect → Prop) (r r' : StepResult) : Prop :=
  ∃ es, r' = mkStep (sr_rules r) (sr_effects r ++ es) ∧ Forall P es.

Lemma adds_refl P r : adds P r r.
Proof. exists []. rewrite app_nil_r. by destruct r. Qed.

Lemma adds_emit (P : Effect → Prop) r r' e : adds P r r' → P e → adds P r (emit r' e).
Proof.
  intros (es & -> & Hes) He. exists (es ++ [e]). unfold emit. simpl.
  rewrite app_assoc. split; [done|]. apply Forall_app. by split; [|constructor].
Qed.

Lemma adds_trans P r1 r2 r3 : adds P r1 r2 → adds P r2 r3 → adds P r1 r3.
Proof.
  intros (es & -> & H1) (es' & -> & H2). exists (es ++ es'). simpl.
  rewrite app_assoc. split; [done|]. by apply Forall_app.
Qed.

Lemma adds_mono (P Q : Effect → Prop) r r' : (∀ e, P e → Q e) → adds P r r' → adds Q r r'.
Proof. intros HPQ (es & -> & H). exists es. split; [done|]. by eapply Forall_impl. Qed.

Lemma adds_elem P r r' e :
  adds P r r' → e ∈ sr_effects r' → e ∈ sr_effects r ∨ P e.
Proof.
  intros (es & -> & Hes) [?|Hin]%elem_of_app; [by left|right].
  by eapply (proj1 (Forall_forall _ _)).
Qed.

#[export] Hint Resolve adds_refl : kura.

(** ** Timers *)

Definition timer_effect (e : Effect) : Prop :=
  match e with
  | ResetElectionDeadline _ _ | CancelElectionDeadline _
  | ResetHeartbeatDeadline _ _ | CancelHeartbeatDeadline _ => True
  | _ => False
  end.

(** Identifiers of timers left. *)
Definition timer_exhausted (c : Core) : Prop :=
  tm_next_timer_id (co_timers c) = 0 ∨ tm_next_timer_id (co_timers c) = u64_max.

Lemma splitmix64_nonneg state : 0 ≤ state → 0 ≤ (splitmix64 state).1.
Proof.
  intros Hs. unfold splitmix64. simpl. apply Z.lxor_nonneg. split; intros _;
    [apply Z.shiftr_nonneg|]; apply u64_range.
Qed.

Lemma next_deadline_spec c :
  mwp next_deadline c
    (λ e c', ∃ delay random,
       let next := tm_next_timer_id (co_timers c) in
       e = ResetElectionDeadline next delay ∧ next ≠ 0 ∧
       c' = set_timers (mkTimers random (next + 1) (Some next) (Some delay)
              (tm_heartbeat_timer (co_timers c))) c ∧
       (to_minimum (cf_timeouts (co_config c)) ≤ to_maximum (cf_timeouts (co_config c)) →
        to_minimum (cf_timeouts (co_config c)) ≤ delay ≤ to_maximum (cf_timeouts (co_config c))))
    (λ e c', c' = c ∧ timer_exhausted c).
Proof.
  unfold next_deadline. do 2 mstep. mstep. mstep. apply owp_throw_when.
  { intros [?%Z.eqb_eq|?%Z.eqb_eq]%orb_prop; unfold timer_exhausted; auto. }
  intros [H0%Z.eqb_neq _]%orb_false_iff. set (width := _ - _).
  destruct (if width =? 0 then _ else _) as [delay random] eqn:Hd. do 3 mstep.
  exists delay, random. split_and!; try done.
  intros Hle. destruct (Z.eqb_spec width 0).
  - injection Hd as <- <-. lia.
  - destruct (splitmix64 _) as [v rs]. injection Hd as <- <-.
    pose proof (Z.mod_pos_bound v (width + 1)). subst width. lia.
Qed.

Lemma next_heartbeat_spec c :
  mwp next_heartbeat c
    (λ e c', let next := tm_next_timer_id (co_timers c) in
       e = ResetHeartbeatDeadline next (cf_heartbeat_interval (co_config c)) ∧
       c' = set_timers (mkTimers (tm_random_state (co_timers c)) (next + 1)
              (tm_election_timer (co_timers c)) (tm_election_timeout (co_timers c)) (Some next)) c)
    (λ e c', c' = c ∧ timer_exhausted c).
Proof.
  unfold next_heartbeat. do 2 mstep. mstep. mstep. apply owp_throw_when.
  { intros [?%Z.eqb_eq|?%Z.eqb_eq]%orb_prop; unfold timer_exhausted; auto. }
  intros _. by do 3 mstep.
Qed.

(** ** Application *)

Lemma schedule_application_spec r c :
  mwp (schedule_application r) c
    (λ r' c', (r' = r ∧ c' = c ∧
        (is_Some (lw_pending_application (co_log_work c)) ∨
         st_commit_index (co_state c) ≤ st_last_applied (co_state c))) ∨
       (let s := co_state c in
        let id := lw_next_application_request_id (co_log_work c) in
        ∃ entry, lw_pending_application (co_log_work c) = None ∧
          st_last_applied s < st_commit_index s ∧ id < 2 ^ 63 ∧
          log_at (log_of s) (u64 (st_last_applied s + 1 - snapshot_base s - 1)) = Ret entry ∧
          r' = emit r (ApplyLogEntry (mkApply id entry)) ∧
          c' = on_log_work (set_application (id + 1)
                 (Some (mkPendingApplication (mkApply id entry) false))) c))
    (λ e c', ∃ n, c' = on_log_work (set_application n (lw_pending_application (co_log_work c))) c).
Proof.
  unfold schedule_application. do 2 mstep. mstep.
  - mstep. left. split_and!; try done.
    rename select (_ || _ = true) into Hb. apply orb_prop in Hb as [Hb|Hb].
    + left. by apply bool_decide_eq_true in Hb.
    + right. by apply Z.leb_le.
  - rename select (_ || _ = false) into Hb. apply orb_false_iff in Hb as [Hp Hc].
    apply bool_decide_eq_false, eq_None_not_Some in Hp. apply Z.leb_gt in Hc.
    mstep. mstep. apply owp_throw_when.
    { intros _. exists (lw_next_application_request_id (co_log_work c)).
      by destruct c as [? ? ? [] ? ? ?]. }
    intros Hid%Z.leb_gt. mstep. apply mwp_modify. mstep. mstep.
    destruct (log_at _ _) as [entry|x] eqn:Hat; simpl.
    2: { eexists. reflexivity. }
    mstep. apply mwp_modify. mstep. right. exists entry. split_and!; try done.
Qed.

(** ** Reads *)

Definition read_effect (e : Effect) : Prop :=
  match e with ReadIndexResponse _ _ | ReadIndexRejected _ _ => True | _ => False end.

(** The pending reads that can be answered, in order of their contexts. *)
Definition ready_reads (c : Core) : list (Z * PendingRead) :=
  filter (λ kp, read_ready (co_state c) kp.2 = true) (entries (rd_pending_reads (co_reads c))).

Definition response_of (kp : Z * PendingRead) : Effect :=
  ReadIndexResponse (pr_request kp.2) (pr_read_index kp.2).

(** What remains after answering the reads of [l]. *)
Record answered (l : list (Z * PendingRead)) (d d' : Reads) : Prop := {
  an_pending : rd_pending_reads d' = foldl (λ m kp, delete kp.1 m) (rd_pending_reads d) l;
  an_requests : rd_pending_read_requests d'
    = foldl (λ m kp, delete (pr_request kp.2) m) (rd_pending_read_requests d) l;
  an_used : rd_used_read_requests d' = rd_used_read_requests d;
  an_context : rd_next_read_context d' = rd_next_read_context d;
  an_rejected : rd_rejected_read_count d' = rd_rejected_read_count d }.

Lemma complete_ready_reads_spec r c :
  mwp (complete_ready_reads r) c
    (λ r' c', ∃ d, c' = set_reads d c ∧ answered (ready_reads c) (co_reads c) d ∧
       r' = mkStep (sr_rules r) (sr_effects r ++ (response_of <$> ready_reads c)))
    (λ _ _, False).
Proof.
  unfold complete_ready_reads, ready_reads. do 2 mstep.
  set (P := λ kp : Z * PendingRead, read_ready (co_state c) kp.2 = true).
  apply (mwp_mfold _ (λ pre r' c', ∃ d, c' = set_reads d c ∧
    answered (filter P pre) (co_reads c) d ∧
    r' = mkStep (sr_rules r) (sr_effects r ++ (response_of <$> filter P pre)))).
  - exists (co_reads c). split_and!; [by destruct c|done|]. by rewrite app_nil_r; destruct r.
  - intros pre [k p] suf r' c' _ (d & -> & Hd & ->). rewrite filter_app.
    destruct (read_ready (co_state c) p) eqn:Hr.
    + rewrite filter_cons_True by done. mstep. apply mwp_modify. mstep. eexists.
      split_and!; [reflexivity| |].
      * destruct Hd. split; simpl; rewrite ?foldl_app; simpl; congruence.
      * unfold emit. simpl. rewrite fmap_app, app_assoc. done.
    + rewrite filter_cons_False by (unfold P; simpl; by rewrite Hr).
      rewrite filter_nil, app_nil_r. mstep. eauto.
Qed.

Lemma reject_pending_reads_spec reason r c :
  mwp (reject_pending_reads reason r) c
    (λ r' c', ∃ n, c' = set_reads (mkReads ∅ ∅ (rd_used_read_requests (co_reads c))
          (rd_next_read_context (co_reads c)) (rd_completed_read_count (co_reads c)) n) c ∧
       r' = mkStep (sr_rules r) (sr_effects r ++
         ((λ kp : Z * PendingRead, ReadIndexRejected (pr_request kp.2) reason) <$>
            entries (rd_pending_reads (co_reads c)))))
    (λ _ _, False).
Proof.
  unfold reject_pending_reads. do 3 mstep.
  eapply mwp_mono; [apply (mwp_mfold _ (λ pre r' c', ∃ n,
      c' = set_reads (mkReads (rd_pending_reads (co_reads c))
        (rd_pending_read_requests (co_reads c)) (rd_used_read_requests (co_reads c))
        (rd_next_read_context (co_reads c)) (rd_completed_read_count (co_reads c)) n) c ∧
      r' = mkStep (sr_rules r) (sr_effects r ++
         ((λ kp : Z * PendingRead, ReadIndexRejected (pr_request kp.2) reason) <$> pre)))
      (λ _ _, False))| |done].
  - exists (rd_rejected_read_count (co_reads c)). split; [by destruct c as [? ? ? ? ? [] ?]|].
    by rewrite app_nil_r; destruct r.
  - intros pre [k p] suf r' c' _ (n & -> & ->). mstep. apply mwp_modify. mstep.
    eexists. split; [reflexivity|]. unfold emit. simpl. by rewrite fmap_app, app_assoc.
  - intros r' c' (n & -> & ->). mstep. apply mwp_modify. mstep. by exists n.
Qed.

(** The acknowledgement of a pending read by [from]. *)
Definition acknowledged (s : State) (from : Z) (p : PendingRead) : PendingRead :=
  let acks := {[from]} ∪ pr_acknowledgements p in
  mkPendingRead (pr_request p) (pr_read_index p) acks
    (pr_quorum_confirmed p || (majority s <=? Z.of_nat (size acks))).

(** When [acknowledge_read] counts a response. *)
Definition counts (c : Core) (response : AppendEntriesResponse) (context : Z) (p : PendingRead)
    : Prop :=
  st_role (co_state c) = role_leader ∧ ar_term response = current_term (co_state c) ∧
  ar_succeeded response = true ∧ ar_read_context response = Some context ∧
  rd_pending_reads (co_reads c) !! context = Some p.

Lemma acknowledge_read_spec from response r c :
  mwp (acknowledge_read from response r) c
    (λ r' c', (r' = r ∧ c' = c) ∨
       ∃ context p, counts c response context p ∧
         let d1 := set_pending_reads (<[context := acknowledged (co_state c) from p]>
           (rd_pending_reads (co_reads c))) (rd_pending_read_requests (co_reads c)) (co_reads c) in
         let c1 := set_reads d1 c in
         ∃ d, c' = set_reads d c ∧ answered (ready_reads c1) d1 d ∧
           r' = mkStep (sr_rules r) (sr_effects r ++ (response_of <$> ready_reads c1)))
    (λ _ _, False).
Proof.
  unfold acknowledge_read. do 2 mstep. mstep; [by mstep; left|].
  rename select (_ || _ = false) into Hb.
  apply orb_false_iff in Hb as [Hb Hs%negb_false_iff].
  apply orb_false_iff in Hb as [Hr%negb_false_iff%bool_decide_eq_true Ht%negb_false_iff%Z.eqb_eq].
  mstep; [|by mstep; left]. mstep; [|by mstep; left]. mstep. apply mwp_modify.
  eapply mwp_mono; [apply complete_ready_reads_spec| |done].
  intros r' c' (d & -> & Hd & ->). right. do 2 eexists. split; [by split_and!|].
  exists d. split; [done|]. split; [exact Hd|done].
Qed.

Lemma acknowledge_read_frame from response r c :
  mwp (acknowledge_read from response r) c
    (λ r' c', (∃ d, c' = set_reads d c) ∧ adds read_effect r r') (λ _ _, False).
Proof.
  eapply mwp_mono; [apply acknowledge_read_spec| |done].
  intros r' c' [[-> ->]|(context & p & _ & d & -> & _ & ->)].
  - split; [exists (co_reads c); by destruct c|auto with kura].
  - split; [by exists d|]. eexists. split; [done|]. by apply Forall_fmap, Forall_true.
Qed.

(** ** Log persistence *)

Lemma split_log_persistence_spec es :
  match split_log_persistence es with
  | None => ∀ q, PersistLog q ∉ es
  | Some (before, q, after) =>
      ∃ pre, before = pre ++ [PersistLog q] ∧ es = pre ++ PersistLog q :: after ∧
        ∀ q', PersistLog q' ∉ pre
  end.
Proof.
  induction es as [|e es IH]; simpl; [set_solver|].
  destruct e; try (destruct (split_log_persistence es) as [[[before q] after]|];
    [destruct IH as (pre & -> & -> & Hpre); eexists (_ :: pre); split_and!; try done; set_solver
    |set_solver]).
  exists []. split_and!; try done. set_solver.
Qed.

Lemma gate_log_persistence_spec r c :
  mwp (gate_log_persistence r) c
    (λ r' c', (r' = r ∧ c' = c ∧ ∀ q, PersistLog q ∉ sr_effects r) ∨
       ∃ pre q after, sr_effects r = pre ++ PersistLog q :: after ∧
         (∀ q', PersistLog q' ∉ pre) ∧ lw_pending_log (co_log_work c) = None ∧
         r' = mkStep (sr_rules r) (pre ++ [PersistLog q]) ∧
         c' = on_log_work (set_pending_log (Some (mkPendingLog q after))) c)
    (λ _ c', c' = c ∧ is_Some (lw_pending_log (co_log_work c))).
Proof.
  unfold gate_log_persistence. pose proof (split_log_persistence_spec (sr_effects r)) as Hs.
  destruct (split_log_persistence (sr_effects r)) as [[[before q] after]|].
  - destruct Hs as (pre & -> & Hes & Hpre). do 4 mstep. apply owp_throw_when.
    { by intros ?%bool_decide_eq_true. }
    intros Hp%bool_decide_eq_false%eq_None_not_Some. mstep. apply mwp_modify. mstep.
    right. by eexists pre, q, after.
  - mstep. by left.
Qed.

(** ** Snapshot transfer *)

(** Snapshot bookkeeping apart from the transfers. *)
Record same_but_transfers (w w' : SnapshotWork) : Prop := {
  bt_pending : sw_pending_snapshot w' = sw_pending_snapshot w;
  bt_restore : sw_pending_snapshot_restore w' = sw_pending_snapshot_restore w;
  bt_install : sw_install_after_hard_state w' = sw_install_after_hard_state w;
  bt_durable : sw_durable_snapshot w' = sw_durable_snapshot w;
  bt_request : sw_next_snapshot_request_id w' = sw_next_snapshot_request_id w }.

Lemma same_but_transfers_refl w : same_but_transfers w w.
Proof. done. Qed.
Lemma same_but_transfers_trans w1 w2 w3 :
  same_but_transfers w1 w2 → same_but_transfers w2 w3 → same_but_transfers w1 w3.
Proof. intros [] []. split; congruence. Qed.
#[export] Hint Resolve same_but_transfers_refl : kura.

(** An append request that was turned into the transfer of [snapshot]. *)
Definition replaced (s : State) (snapshot : option RaftSnapshot) (e e' : Effect) : Prop :=
  e' = e ∨
  ∃ to q sn id, e = SendAppendEntries to q ∧ snapshot = Some sn ∧
    e' = SendInstallSnapshot to (mkInstall (current_term s) (st_node s) id (sn_metadata sn) 0
      (bytes_size (sn_state sn)) (sn_state sn) (crc32c (sn_state sn)) true (ae_read_context q)).

Lemma replaced_same s sn es : Forall2 (replaced s sn) es es.
Proof. induction es; constructor; [by left|done]. Qed.

Lemma replace_compacted_appends_spec r c :
  mwp (replace_compacted_appends r) c
    (λ r' c', ∃ w, c' = set_snapshots w c ∧ same_but_transfers (co_snapshots c) w ∧
       sr_rules r' = sr_rules r ∧
       Forall2 (replaced (co_state c) (sw_durable_snapshot (co_snapshots c)))
         (sr_effects r) (sr_effects r') ∧
       (st_role (co_state c) ≠ role_leader → c' = c ∧ r' = r))
    (λ _ c', ∃ w, c' = set_snapshots w c ∧ same_but_transfers (co_snapshots c) w).
Proof.
  unfold replace_compacted_appends. do 2 mstep.
  assert (∃ w, c = set_snapshots w c ∧ same_but_transfers (co_snapshots c) w ∧
    sr_rules r = sr_rules r ∧
    Forall2 (replaced (co_state c) (sw_durable_snapshot (co_snapshots c))) (sr_effects r) (sr_effects r) ∧
    (st_role (co_state c) ≠ role_leader → c = c ∧ r = r)) as Hsame.
  { exists (co_snapshots c). split_and!; try done; [by destruct c|apply replaced_same]. }
  mstep; [|by mstep]. rename r0 into sn. mstep; [|by mstep]. rename l into leader.
  destruct (bool_decide (st_role (co_state c) = role_leader)) eqn:Hr; [|by mstep].
  apply bool_decide_eq_true in Hr. mstep.
  eapply mwp_mono; [apply (mwp_mfold _ (λ pre es' c', ∃ w, c' = set_snapshots w c ∧
      same_but_transfers (co_snapshots c) w ∧
      Forall2 (replaced (co_state c) (sw_durable_snapshot (co_snapshots c))) pre es')
      (λ _ c', ∃ w, c' = set_snapshots w c ∧ same_but_transfers (co_snapshots c) w))| |done].
  - exists (co_snapshots c). split_and!; [by destruct c|done|constructor].
  - intros pre e suf es' c' _ (w & -> & Hw & Hes). unfold replace_compacted_append.
    assert (∃ w0, set_snapshots w c = set_snapshots w0 c ∧ same_but_transfers (co_snapshots c) w0 ∧
      Forall2 (replaced (co_state c) (sw_durable_snapshot (co_snapshots c))) (pre ++ [e]) (es' ++ [e]))
      as Hkeep.
    { exists w. split_and!; try done. apply Forall2_app; [done|]. constructor; [by left|done]. }
    destruct e; try (by mstep). mstep; [|by mstep]. mstep; [by mstep|].
    do 4 mstep. apply owp_throw_when; [intros _; by exists w|]. intros _.
    mstep. apply mwp_modify. mstep. eexists. split; [reflexivity|]. split.
    + destruct Hw. by split.
    + apply Forall2_app; [done|]. constructor; [|done]. right.
      do 4 eexists. split; [done|]. split; [done|]. reflexivity.
  - intros es' c' (w & -> & Hw & Hes). mstep. exists w. split_and!; try done.
    by rewrite <-Heqo.
Qed.

(** ** Translation *)

Definition translation_effect (e : Effect) : Prop :=
  match e with
  | RoleTransition _ _ _ | ReadIndexRejected _ _ => True
  | _ => timer_effect e
  end.

(** The members [translate_role] may assign: timers, reads, transfers. *)
Definition role_frame (c c' : Core) : Prop :=
  co_state c' = co_state c ∧ co_config c' = co_config c ∧ co_started c' = co_started c ∧
  co_log_work c' = co_log_work c ∧ same_but_transfers (co_snapshots c) (co_snapshots c').

Lemma role_frame_refl c : role_frame c c.
Proof. done. Qed.

Lemma role_frame_trans c1 c2 c3 : role_frame c1 c2 → role_frame c2 c3 → role_frame c1 c3.
Proof.
  intros (?&?&?&?&?) (?&?&?&?&?). split_and!; try congruence.
  by eapply same_but_transfers_trans.
Qed.

Lemma translate_role_frame previous resets t c :
  mwp (translate_role previous resets t) c
    (λ t' c', role_frame c c' ∧ adds translation_effect t t')
    (λ _ c', role_frame c c').
Proof.
  unfold translate_role. do 2 mstep. set (t1 := emit t _).
  assert (adds translation_effect t t1) as H1 by (by apply adds_emit; [apply adds_refl|]).
  mstep.
  - mstep. apply mwp_modify. mstep.
    eapply mwp_mono; [apply next_heartbeat_spec| |].
    + intros e c' [-> ->]. mstep. split; [done|]. by do 2 (apply adds_emit; [|done]).
    + by intros e c' [-> _].
  - mstep; [|by mstep]. mstep.
    apply (mwp_mono _ _ (λ t2 c2, role_frame c c2 ∧ adds translation_effect t t2) _
      (λ _ c2, role_frame c c2)); [|clear H1|done].
    { mstep; [|by mstep]. mstep. apply mwp_modify. mstep. split; [done|]. by apply adds_emit. }
    intros t2 c2 [Hf2 H2]. mstep.
    apply (mwp_mono _ _ (λ t3 c3, role_frame c c3 ∧ adds translation_effect t t3) _
      (λ _ c3, role_frame c c3)); [|clear H2|done].
    { mstep; [by mstep|]. mstep. eapply mwp_mono; [apply next_deadline_spec| |].
      - intros e c3 (delay & random & -> & _ & -> & _). mstep. split; [|by apply adds_emit].
        by eapply role_frame_trans; [exact Hf2|].
      - by intros e c3 [-> _]. }
    intros t3 c3 [Hf3 H3]. mstep.
    eapply mwp_mono; [apply reject_pending_reads_spec| |done].
    intros t4 c4 (n & -> & ->). mstep. apply mwp_modify. mstep. split.
    + by eapply role_frame_trans; [exact Hf3|].
    + eapply adds_trans; [exact H3|]. eexists. split; [done|]. by apply Forall_fmap, Forall_true.
Qed.
