(* ===== verification/RaftCoreTranslate.v ===== *)
(** * What [translate] does with a Figure 2 result

    The specification of [Core::translate] that the invariants of the core rest
    on: how timers, pending reads, log persistence and application follow from
    the state and the effects of the Figure 2 step. *)

From S2P Require Import Prelude OrdMap Bytes StoreTypes RaftTypes Codec RaftMessages Figure2.
From S2P Require Import Figure2Votes Figure2Log Figure2Steps Figure2Effects RaftCore RaftCoreFrames.
Import election.
#[local] Open Scope Z_scope.

(** ** Change of role *)

(** Timers after a change from role [previous] to [role]. *)
Record role_timers (previous role : RaftRole) (resets : bool) (t t' : Timers) : Prop := {
  rt_lead : role = role_leader → is_Some (tm_election_timer t) → is_Some (tm_heartbeat_timer t');
  rt_keep : previous ≠ role_leader → role ≠ role_leader → t' = t;
  rt_step_down : previous = role_leader → role ≠ role_leader → resets = false →
    is_Some (tm_election_timer t') }.

(** Reads after a change of role: leaving leadership drops them. *)
Definition role_reads (previous role : RaftRole) (d d' : Reads) : Prop :=
  rd_used_read_requests d' = rd_used_read_requests d ∧
  rd_next_read_context d' = rd_next_read_context d ∧
  if bool_decide (previous = role_leader) && negb (bool_decide (role = role_leader))
  then rd_pending_reads d' = ∅ ∧ rd_pending_read_requests d' = ∅
  else d' = d.

Lemma translate_role_spec previous resets t c :
  let role := st_role (co_state c) in
  previous ≠ role →
  mwp (translate_role previous resets t) c
    (λ t' c', role_frame c c' ∧ adds translation_effect t t' ∧
       role_timers previous role resets (co_timers c) (co_timers c') ∧
       role_reads previous role (co_reads c) (co_reads c'))
    (λ _ _, True).
Proof.
  cbv zeta. intros Hne. unfold translate_role. do 2 mstep. set (t1 := emit t _).
  assert (adds translation_effect t t1) as H1 by (by apply adds_emit; [apply adds_refl|]).
  destruct (bool_decide (st_role (co_state c) = role_leader)) eqn:Hlead.
  - apply bool_decide_eq_true in Hlead.
    assert (∀ d, role_reads previous (st_role (co_state c)) d d) as Hreads.
    { intros d. split; [done|]. split; [done|]. rewrite Hlead. by rewrite andb_comm. }
    mstep.
    + mstep. apply mwp_modify. mstep. eapply mwp_mono; [apply next_heartbeat_spec| |done].
      intros e c' [-> ->]. mstep. refine (conj _ (conj _ (conj _ _))); [done| | |apply Hreads].
      * by do 2 (apply adds_emit; [|done]).
      * split; [simpl; by eauto|congruence|congruence].
    + rewrite andb_comm. simpl. mstep. refine (conj _ (conj _ (conj _ _))); [done|done| |apply Hreads].
      split; [|congruence..]. intros _ [timer Ht]. congruence.
  - apply bool_decide_eq_false in Hlead.
    destruct (bool_decide (previous = role_leader)) eqn:Hprev; simpl.
    2: { mstep. refine (conj _ (conj _ (conj _ _))); [done|done| |].
         - apply bool_decide_eq_false in Hprev. by split.
         - split; [done|]. split; [done|]. by rewrite Hprev. }
    mstep.
    apply (mwp_mono _ _ (λ t2 c2, role_frame c c2 ∧ adds translation_effect t t2 ∧
      co_reads c2 = co_reads c) _ (λ _ _, True)); [|clear H1|done].
    { mstep; [|by mstep]. mstep. apply mwp_modify. mstep. split; [done|]. split; [by apply adds_emit|done]. }
    intros t2 c2 (Hf2 & H2 & Hr2). mstep.
    apply (mwp_mono _ _ (λ t3 c3, role_frame c c3 ∧ adds translation_effect t t3 ∧
      co_reads c3 = co_reads c ∧ (resets = false → is_Some (tm_election_timer (co_timers c3)))) _
      (λ _ _, True)); [|clear H2|done].
    { mstep; [by mstep|]. mstep. eapply mwp_mono; [apply next_deadline_spec| |done].
      intros e c3 (delay & random & -> & _ & -> & _). mstep.
      refine (conj _ (conj _ (conj _ _))); [|by apply adds_emit|done|by eexists].
      by eapply role_frame_trans; [exact Hf2|]. }
    intros t3 c3 (Hf3 & H3 & Hr3 & Ht3). mstep.
    eapply mwp_mono; [apply reject_pending_reads_spec| |done].
    intros t4 c4 (n & -> & ->). mstep. apply mwp_modify. mstep.
    refine (conj _ (conj _ (conj _ _))).
    + by eapply role_frame_trans; [exact Hf3|].
    + eapply adds_trans; [exact H3|]. eexists. split; [done|]. by apply Forall_fmap, Forall_true.
    + apply bool_decide_eq_true in Hprev. split; [done|done|]. by intros _ _ ?; apply Ht3.
    + split; [simpl; by rewrite Hr3|]. split; [simpl; by rewrite Hr3|].
      rewrite Hprev, bool_decide_false by done. done.
Qed.

(** ** Translation of the effects *)

(** How an effect of the specification appears among the effects of the core. *)
Inductive rendered (log : list LogEntry) : Figure2.Effect → Effect → Prop :=
| rendered_hard_state q : rendered log (Figure2.PersistHardState q) (PersistHardState q)
| rendered_log q : pl_log q = log → rendered log Figure2.PersistLog (PersistLog q)
| rendered_vote to q : rendered log (Figure2.SendRequestVote to q) (SendRequestVote to q)
| rendered_vote_response to q :
    rendered log (Figure2.SendRequestVoteResponse to q) (SendRequestVoteResponse to q)
| rendered_append to q : rendered log (Figure2.SendAppendEntries to q) (SendAppendEntries to q)
| rendered_append_response to q :
    rendered log (Figure2.SendAppendEntriesResponse to q) (SendAppendEntriesResponse to q)
| rendered_reset timer delay :
    rendered log ResetElectionTimer (ResetElectionDeadline timer delay).

(** The list of effects, in order, without those the core ignores. *)
Inductive rendering (log : list LogEntry) : list Figure2.Effect → list Effect → Prop :=
| rendering_nil : rendering log [] []
| rendering_snoc fes es fe e :
    rendering log fes es → rendered log fe e → rendering log (fes ++ [fe]) (es ++ [e])
| rendering_skip fes es fe :
    rendering log fes es → (∀ e, ¬ rendered log fe e) → rendering log (fes ++ [fe]) es.

Lemma rendering_split log fes es :
  rendering log fes es → ∀ pre e post, es = pre ++ e :: post →
  ∃ fpre fe fpost, fes = fpre ++ fe :: fpost ∧ rendering log fpre pre ∧ rendered log fe e.
Proof.
  induction 1 as [|fes es fe e H IH Hr|fes es fe H IH Hno]; intros pre e' post Hes.
  - by destruct pre.
  - destruct post as [|x post _] using rev_ind.
    + apply app_inj_tail in Hes as [<- <-]. by exists fes, fe, [].
    + rewrite app_comm_cons, app_assoc in Hes. apply app_inj_tail in Hes as [-> ->].
      destruct (IH pre e' post eq_refl) as (fpre & fe' & fpost & -> & ? & ?).
      exists fpre, fe', (fpost ++ [fe]). by rewrite <-app_assoc.
  - destruct (IH pre e' post Hes) as (fpre & fe' & fpost & -> & ? & ?).
    exists fpre, fe', (fpost ++ [fe]). by rewrite <-app_assoc.
Qed.

Lemma rendering_elem log fes es e :
  rendering log fes es → e ∈ es → ∃ fe, fe ∈ fes ∧ rendered log fe e.
Proof.
  intros Hr (pre & post & ->)%list_elem_of_split.
  destruct (rendering_split _ _ _ Hr _ _ _ eq_refl) as (fpre & fe & fpost & -> & _ & ?).
  exists fe. split; [set_solver|done].
Qed.

(** The log request appears exactly where the specification made it. *)
Lemma rendering_log log fes es q :
  rendering log fes es → PersistLog q ∈ es → pl_log q = log ∧ Figure2.PersistLog ∈ fes.
Proof.
  intros Hr Hin. destruct (rendering_elem _ _ _ _ Hr Hin) as (fe & Hfe & He). by inversion He; subst.
Qed.

Lemma rendering_has_log log fes es :
  rendering log fes es → Figure2.PersistLog ∈ fes → ∃ q, PersistLog q ∈ es.
Proof.
  induction 1 as [|fes es fe e H IH Hr|fes es fe H IH Hno]; intros Hin.
  - set_solver.
  - apply elem_of_app in Hin as [Hin|<-%list_elem_of_singleton].
    + destruct (IH Hin) as [q ?]. exists q. set_solver.
    + inversion Hr; subst. exists q. set_solver.
  - apply elem_of_app in Hin as [Hin|<-%list_elem_of_singleton]; [by apply IH|].
    exfalso. apply (Hno (PersistLog (mkPersistLog 0 log))). by constructor.
Qed.

Lemma translate_effects_spec t fes c :
  let log := log_of (co_state c) in
  mwp (mfold translate_effect t fes) c
    (λ t' c', ∃ es, t' = mkStep (sr_rules t) (sr_effects t ++ es) ∧ rendering log fes es ∧
       co_state c' = co_state c ∧ co_config c' = co_config c ∧ co_started c' = co_started c ∧
       co_snapshots c' = co_snapshots c ∧ co_reads c' = co_reads c ∧
       (∃ id, co_log_work c' = set_next_log_request_id id (co_log_work c)) ∧
       tm_heartbeat_timer (co_timers c') = tm_heartbeat_timer (co_timers c) ∧
       (is_Some (tm_election_timer (co_timers c)) ∨ ResetElectionTimer ∈ fes →
        is_Some (tm_election_timer (co_timers c'))))
    (λ _ _, True).
Proof.
  cbv zeta. set (log := log_of (co_state c)).
  apply (mwp_mfold _ (λ pre t' c', ∃ es, t' = mkStep (sr_rules t) (sr_effects t ++ es) ∧
       rendering log pre es ∧
       co_state c' = co_state c ∧ co_config c' = co_config c ∧ co_started c' = co_started c ∧
       co_snapshots c' = co_snapshots c ∧ co_reads c' = co_reads c ∧
       (∃ id, co_log_work c' = set_next_log_request_id id (co_log_work c)) ∧
       tm_heartbeat_timer (co_timers c') = tm_heartbeat_timer (co_timers c) ∧
       (is_Some (tm_election_timer (co_timers c)) ∨ ResetElectionTimer ∈ pre →
        is_Some (tm_election_timer (co_timers c'))))).
  - exists []. split_and!; try done.
    + rewrite app_nil_r. by destruct t.
    + constructor.
    + exists (lw_next_log_request_id (co_log_work c)). by destruct (co_log_work c).
    + intros [?|?]; [done|set_solver].
  - intros pre fe suf t' c' _ (es & -> & Hren & E1 & E2 & E3 & E4 & E5 & [id E6] & E7 & E8).
    destruct fe; simpl.
    + mstep. exists (es ++ [PersistHardState request]). unfold emit. simpl. rewrite app_assoc.
      split_and!; try done; [by apply rendering_snoc; [|constructor]|eauto|]. intros [?|?]; apply E8; set_solver.
    + do 4 mstep. apply owp_throw_when; [done|]. intros _. mstep. apply mwp_modify. mstep.
      eexists. unfold emit. simpl. rewrite <-app_assoc. split_and!; try done.
      * constructor; [done|]. constructor. by rewrite E1.
      * rewrite E6. by eexists.
      * intros [?|?]; apply E8; set_solver.
    + mstep. exists (es ++ [SendRequestVote to request]). unfold emit. simpl. rewrite app_assoc.
      split_and!; try done; [by apply rendering_snoc; [|constructor]|eauto|]. intros [?|?]; apply E8; set_solver.
    + mstep. exists (es ++ [SendRequestVoteResponse to response]). unfold emit. simpl.
      rewrite app_assoc.
      split_and!; try done; [by apply rendering_snoc; [|constructor]|eauto|]. intros [?|?]; apply E8; set_solver.
    + mstep. exists (es ++ [SendAppendEntries to request]). unfold emit. simpl. rewrite app_assoc.
      split_and!; try done; [by apply rendering_snoc; [|constructor]|eauto|]. intros [?|?]; apply E8; set_solver.
    + mstep. exists (es ++ [SendAppendEntriesResponse to response]). unfold emit. simpl.
      rewrite app_assoc.
      split_and!; try done; [by apply rendering_snoc; [|constructor]|eauto|]. intros [?|?]; apply E8; set_solver.
    + mstep. eapply mwp_mono; [apply next_deadline_spec| |done].
      intros e c2 (delay & random & -> & _ & -> & _). mstep. eexists. unfold emit. simpl.
      rewrite <-app_assoc. split_and!; try done; [by apply rendering_snoc; [|constructor]|eauto].
    + mstep. exists es. split_and!; try done; [|eauto|intros [?|?]; apply E8; set_solver].
      apply rendering_skip; [done|]. intros e He. inversion He.
    + mstep. exists es. split_and!; try done; [|eauto|intros [?|?]; apply E8; set_solver].
      apply rendering_skip; [done|]. intros e He. inversion He.
Qed.

(** ** The whole translation *)

(** Messages of the core that speak of its log. *)
Definition core_relies (e : Effect) : Prop :=
  match e with
  | SendAppendEntries _ _ => True
  | SendAppendEntriesResponse _ response => ar_succeeded response = true
  | _ => False
  end.

(** The pending application is as before, or the next committed entry was taken. *)
Definition scheduled (s : State) (w w' : LogWork) : Prop :=
  lw_pending_application w' = lw_pending_application w ∨
  (lw_pending_application w = None ∧ ∃ id entry,
     lw_pending_application w' = Some (mkPendingApplication (mkApply id entry) false) ∧
     st_last_applied s < st_commit_index s ∧
     log_at (log_of s) (u64 (st_last_applied s + 1 - snapshot_base s - 1)) = Ret entry).

(** Log persistence after effects [fes] that leave the log [log]. *)
Definition log_requested (log : list LogEntry) (fes : list Figure2.Effect) (w w' : LogWork) : Prop :=
  ((Figure2.PersistLog ∉ fes) ∧ lw_pending_log w' = lw_pending_log w) ∨
  (Figure2.PersistLog ∈ fes ∧ lw_pending_log w = None ∧ ∃ p, lw_pending_log w' = Some p ∧
     pl_log (lp_request p) = log ∧
     (∀ e, e ∈ lp_deferred_effects p → translation_effect e ∨ ∃ fe, rendered log fe e) ∧
     (log_first fes → ∀ q, PersistLog q ∉ lp_deferred_effects p)).

Record translated (c : Core) (fr : Figure2.StepResult) (previous : RaftRole) (r : StepResult)
    (c' : Core) : Prop := {
  tl_state : co_state c' = res_state fr;
  tl_config : co_config c' = co_config c;
  tl_started : co_started c' = co_started c;
  tl_snapshots : same_but_transfers (co_snapshots c) (co_snapshots c');
  tl_reads : role_reads previous (st_role (res_state fr)) (co_reads c) (co_reads c');
  tl_election : st_role (res_state fr) ≠ role_leader →
    is_Some (tm_election_timer (co_timers c)) ∨ ResetElectionTimer ∈ res_effects fr ∨
    previous = role_leader → is_Some (tm_election_timer (co_timers c'));
  tl_heartbeat : st_role (res_state fr) = role_leader →
    (if decide (previous = role_leader) then is_Some (tm_heartbeat_timer (co_timers c))
     else is_Some (tm_election_timer (co_timers c))) → is_Some (tm_heartbeat_timer (co_timers c'));
  tl_log : log_requested (log_of (res_state fr)) (res_effects fr) (co_log_work c) (co_log_work c');
  tl_application : scheduled (res_state fr) (co_log_work c) (co_log_work c');
  tl_apply : ∀ q, ApplyLogEntry q ∈ sr_effects r →
    lw_pending_application (co_log_work c) = None ∧
    lw_pending_application (co_log_work c') = Some (mkPendingApplication q false);
  tl_relies : ∀ e, e ∈ sr_effects r → core_relies e →
    ∃ fpre fe fpost, res_effects fr = fpre ++ fe :: fpost ∧ relies_on_log fe ∧
      Figure2.PersistLog ∉ fpre;
  tl_reads_effects : ∀ id i, ReadIndexResponse id i ∉ sr_effects r }.

(** The part of the specification that holds before the last three helpers run:
    the effects still in one list. *)
Record ungated (c : Core) (fr : Figure2.StepResult) (previous : RaftRole) (r : StepResult)
    (c' : Core) : Prop := {
  ug_state : co_state c' = res_state fr;
  ug_config : co_config c' = co_config c;
  ug_started : co_started c' = co_started c;
  ug_snapshots : same_but_transfers (co_snapshots c) (co_snapshots c');
  ug_reads : role_reads previous (st_role (res_state fr)) (co_reads c) (co_reads c');
  ug_election : st_role (res_state fr) ≠ role_leader →
    is_Some (tm_election_timer (co_timers c)) ∨ ResetElectionTimer ∈ res_effects fr ∨
    previous = role_leader → is_Some (tm_election_timer (co_timers c'));
  ug_heartbeat : st_role (res_state fr) = role_leader →
    (if decide (previous = role_leader) then is_Some (tm_heartbeat_timer (co_timers c))
     else is_Some (tm_election_timer (co_timers c))) → is_Some (tm_heartbeat_timer (co_timers c'));
  ug_log : ∃ id, co_log_work c' = set_next_log_request_id id (co_log_work c);
  ug_effects : ∃ head es, sr_effects r = head ++ es ∧ Forall translation_effect head ∧
    rendering (log_of (res_state fr)) (res_effects fr) es }.

Lemma existsb_reset fes :
  existsb is_reset_election_timer fes = true ↔ ResetElectionTimer ∈ fes.
Proof.
  rewrite existsb_exists. split.
  - intros (e & Hin%list_elem_of_In & He). by destruct e.
  - intros Hin. exists ResetElectionTimer. split; [by apply list_elem_of_In|done].
Qed.

Lemma role_reads_same role d : role_reads role role d d.
Proof. split; [done|]. split; [done|]. by case_bool_decide. Qed.

Lemma translate_ungated fr previous c :
  mwp (_ ← modify (set_state (res_state fr));
       t1 ← (if bool_decide (st_role (res_state fr) = previous) then mret (mkStep (res_rules fr) [])
             else translate_role previous (existsb is_reset_election_timer (res_effects fr))
                    (mkStep (res_rules fr) []));
       mfold translate_effect t1 (res_effects fr)) c
    (ungated c fr previous) (λ _ _, True).
Proof.
  mstep. apply mwp_modify. mstep.
  set (role := st_role (res_state fr)). set (resets := existsb _ _).
  apply (mwp_mono _ _ (λ t1 c1, role_frame (set_state (res_state fr) c) c1 ∧
    adds translation_effect (mkStep (res_rules fr) []) t1 ∧
    ((previous = role ∧ co_timers c1 = co_timers c) ∨
     (previous ≠ role ∧ role_timers previous role resets (co_timers c) (co_timers c1))) ∧
    role_reads previous role (co_reads c) (co_reads c1)) _ (λ _ _, True)); [| |done].
  { case_bool_decide as Hsame.
    - mstep. subst previous. split; [done|]. split; [apply adds_refl|]. split; [by left|].
      apply role_reads_same.
    - eapply mwp_mono; [by apply translate_role_spec| |done].
      intros t1 c1 (? & ? & ? & ?). split; [done|]. split; [done|]. split; [|done]. right. done. }
  intros t1 c1 ((F1 & F2 & F3 & F4 & F5) & (head & -> & Hhead) & Htimers & Hreads).
  eapply mwp_mono; [apply translate_effects_spec| |done].
  intros t2 c2 (es & -> & Hren & E1 & E2 & E3 & E4 & E5 & [id E6] & E7 & E8).
  split.
  - by rewrite E1, F1.
  - by rewrite E2, F2.
  - by rewrite E3, F3.
  - by rewrite E4.
  - by rewrite E5.
  - fold role. intros Hl Hsrc. apply E8. subst resets.
    destruct (existsb is_reset_election_timer (res_effects fr)) eqn:Hres;
      [right; by apply existsb_reset|left].
    assert (ResetElectionTimer ∉ res_effects fr) as Hno by (rewrite <-existsb_reset; congruence).
    destruct Htimers as [[Hp ->]|[Hp []]].
    + destruct Hsrc as [?|[?|?]]; [done|done|congruence].
    + destruct (decide (previous = role_leader)) as [Hpl|Hpl].
      * by apply rt_step_down0.
      * rewrite rt_keep0 by done. destruct Hsrc as [?|[?|?]]; done.
  - fold role. rewrite E7. intros Hl. destruct Htimers as [[Hp ->]|[Hp []]].
    + rewrite decide_True by congruence. done.
    + rewrite decide_False by congruence. by apply rt_lead0.
  - exists id. by rewrite E6, F4.
  - exists head, es. split; [done|]. split; [done|]. by rewrite F1 in Hren.
Qed.

Lemma schedule_application_scheduled r c :
  mwp (schedule_application r) c
    (λ r' c', (∃ w, c' = set_log_work w c) ∧
       lw_pending_log (co_log_work c') = lw_pending_log (co_log_work c) ∧
       scheduled (co_state c) (co_log_work c) (co_log_work c') ∧
       (r' = r ∨ ∃ q, r' = emit r (ApplyLogEntry q) ∧
          lw_pending_application (co_log_work c) = None ∧
          lw_pending_application (co_log_work c') = Some (mkPendingApplication q false)))
    (λ _ _, True).
Proof.
  eapply mwp_mono; [apply schedule_application_spec| |done].
  intros r' c' [(-> & -> & _)|(entry & Hn & Hlt & _ & Hat & -> & ->)].
  - split_and!; [exists (co_log_work c); by destruct c|done|by left|by left].
  - split_and!; [by eexists|done| |].
    + right. split; [done|]. by do 2 eexists.
    + right. by eexists.
Qed.

(** Effects of the core that [translate] adds itself. *)
Lemma translation_effect_not e :
  translation_effect e → ¬ core_relies e ∧ (∀ q, e ≠ PersistLog q) ∧ (∀ q, e ≠ ApplyLogEntry q) ∧
  (∀ id i, e ≠ ReadIndexResponse id i).
Proof. intros He. destruct e; simpl in *; try done; split_and!; try done; intros []. Qed.

Lemma rendered_not log fe e :
  rendered log fe e → (∀ q, e ≠ ApplyLogEntry q) ∧ (∀ id i, e ≠ ReadIndexResponse id i) ∧
  (core_relies e → relies_on_log fe) ∧ (fe = Figure2.PersistLog → ∃ q, e = PersistLog q).
Proof. intros He. split_and!; inversion He; subst; try done; eauto. Qed.

(** An effect of the list that no log request precedes. *)
Lemma ungated_elem log fes head es pre e post :
  Forall translation_effect head → rendering log fes es → head ++ es = pre ++ e :: post →
  (∀ q, PersistLog q ∉ pre) → ¬ translation_effect e →
  ∃ fpre fe fpost, fes = fpre ++ fe :: fpost ∧ rendered log fe e ∧ Figure2.PersistLog ∉ fpre.
Proof.
  intros Hhead Hren Heq Hpre He.
  assert (∃ pre', pre = head ++ pre' ∧ es = pre' ++ e :: post) as (pre' & -> & Hes).
  { apply app_eq_inv in Heq as [(k & Hh & Hs)|(k & Hp & Hs)].
    - destruct k as [|x k].
      + exists []. rewrite app_nil_r in *. by subst.
      + injection Hs as <- _. exfalso. apply He. rewrite Hh in Hhead.
        apply Forall_app in Hhead as [_ Hhead]. by inversion Hhead.
    - exists k. by subst. }
  destruct (rendering_split _ _ _ Hren _ _ _ Hes) as (fpre & fe & fpost & -> & Hrp & Hr).
  exists fpre, fe, fpost. split_and!; try done. intros Hin.
  destruct (rendering_has_log _ _ _ Hrp Hin) as [q Hq]. apply (Hpre q). set_solver.
Qed.

(** The helpers that [translate] ends with. *)
Definition release (t : StepResult) : method StepResult :=
  t3 ← gate_log_persistence t;
  t4 ← replace_compacted_appends t3;
  c ← get_state;
  if negb (bool_decide (is_Some (st_pending_hard_state (co_state c))))
     && negb (bool_decide (is_Some (lw_pending_log (co_log_work c))))
  then schedule_application t4 else mret t4.

Lemma translate_release fr previous c :
  translate fr previous c =
  (t ← (_ ← modify (set_state (res_state fr));
        t1 ← (if bool_decide (st_role (res_state fr) = previous) then mret (mkStep (res_rules fr) [])
              else translate_role previous (existsb is_reset_election_timer (res_effects fr))
                     (mkStep (res_rules fr) []));
        mfold translate_effect t1 (res_effects fr));
   release t) c.
Proof.
  unfold translate, release, mbind, M_bind. simpl.
  match goal with
  | |- context [(if ?b then ?m1 else ?m2) ?c1] =>
      destruct ((if b then m1 else m2) c1) as [[t1|e] c2]; [|done]
  end.
  by destruct (mfold translate_effect t1 (res_effects fr) c2) as [[t2|e] c3].
Qed.

(** What [release] does to the object. *)
Record released_from (c : Core) (t : StepResult) (r : StepResult) (c' : Core) : Prop := {
  rl_state : co_state c' = co_state c;
  rl_config : co_config c' = co_config c;
  rl_started : co_started c' = co_started c;
  rl_snapshots : same_but_transfers (co_snapshots c) (co_snapshots c');
  rl_reads : co_reads c' = co_reads c;
  rl_timers : co_timers c' = co_timers c;
  rl_log : ((∀ q, PersistLog q ∉ sr_effects t) ∧
      lw_pending_log (co_log_work c') = lw_pending_log (co_log_work c)) ∨
    ∃ pre q post, sr_effects t = pre ++ PersistLog q :: post ∧ (∀ q', PersistLog q' ∉ pre) ∧
      lw_pending_log (co_log_work c) = None ∧
      lw_pending_log (co_log_work c') = Some (mkPendingLog q post);
  rl_application : scheduled (co_state c) (co_log_work c) (co_log_work c');
  rl_effects : ∀ e, e ∈ sr_effects r →
    (∃ pre post, sr_effects t = pre ++ e :: post ∧ ∀ q, PersistLog q ∉ pre) ∨
    (∃ to q, e = SendInstallSnapshot to q) ∨
    (∃ q, e = ApplyLogEntry q ∧ lw_pending_application (co_log_work c) = None ∧
       lw_pending_application (co_log_work c') = Some (mkPendingApplication q false)) }.

Lemma replaced_elem s sn es es' e' :
  Forall2 (replaced s sn) es es' → e' ∈ es' → e' ∈ es ∨ ∃ to q, e' = SendInstallSnapshot to q.
Proof.
  intros Hes (i & Hi)%list_elem_of_lookup.
  destruct (Forall2_lookup_r _ _ _ _ _ Hes Hi) as (e0 & Hi0 & [->|(to & q & sn' & id & _ & _ & ->)]).
  - left. by eapply list_elem_of_lookup_2.
  - right. eauto.
Qed.

Lemma release_spec t c : mwp (release t) c (released_from c t) (λ _ _, True).
Proof.
  unfold release. mstep. eapply mwp_mono; [apply gate_log_persistence_spec| |done].
  intros t3 c3 Hgate.
  assert (co_state c3 = co_state c ∧ co_config c3 = co_config c ∧ co_started c3 = co_started c ∧
    co_snapshots c3 = co_snapshots c ∧ co_reads c3 = co_reads c ∧ co_timers c3 = co_timers c ∧
    lw_pending_application (co_log_work c3) = lw_pending_application (co_log_work c) ∧
    (∀ e, e ∈ sr_effects t3 →
      ∃ pre post, sr_effects t = pre ++ e :: post ∧ ∀ q, PersistLog q ∉ pre))
    as (E1 & E2 & E3 & E4 & E5 & E6 & E7 & Hes3).
  { destruct Hgate as [(-> & -> & Hno)|(pre & q & post & Hes & Hpre & _ & -> & ->)];
      (split_and!; try done); simpl.
    - intros e (pre & post & He)%list_elem_of_split. exists pre, post. split; [done|].
      intros q Hq. apply (Hno q). rewrite He. set_solver.
    - intros e [Hin| ->%list_elem_of_singleton]%elem_of_app; [|by eauto].
      apply list_elem_of_split in Hin as (p1 & p2 & ->). eexists p1, _. split.
      + rewrite Hes, <-app_assoc. done.
      + intros q' Hq. apply (Hpre q'). set_solver. }
  assert (((∀ q, PersistLog q ∉ sr_effects t) ∧
      lw_pending_log (co_log_work c3) = lw_pending_log (co_log_work c)) ∨
    ∃ pre q post, sr_effects t = pre ++ PersistLog q :: post ∧ (∀ q', PersistLog q' ∉ pre) ∧
      lw_pending_log (co_log_work c) = None ∧
      lw_pending_log (co_log_work c3) = Some (mkPendingLog q post)) as Hlog.
  { destruct Hgate as [(-> & -> & Hno)|(pre & q & post & Hes & Hpre & Hn & -> & ->)]; [by left|right].
    by exists pre, q, post. }
  clear Hgate. mstep. eapply mwp_mono; [apply replace_compacted_appends_spec| |done].
  intros t4 c4 (w & -> & Hw & _ & Hrep & _). do 2 mstep.
  assert (∀ e, e ∈ sr_effects t4 →
      (∃ pre post, sr_effects t = pre ++ e :: post ∧ ∀ q, PersistLog q ∉ pre) ∨
      (∃ to q, e = SendInstallSnapshot to q)) as Hes4.
  { intros e He. destruct (replaced_elem _ _ _ _ _ Hrep He) as [Hin|?]; [left|by right].
    by apply Hes3. }
  clear Hrep Hes3. mstep.
  - eapply mwp_mono; [apply schedule_application_scheduled| |done].
    intros r c5 ([w5 ->] & Hpl & Hsch & Hr). simpl in *. split; simpl; try done.
    + by rewrite <-E4.
    + by rewrite Hpl.
    + unfold scheduled in *. by rewrite <-E7, <-E1.
    + intros e He. destruct Hr as [->|(q & -> & Hn & Hs)].
      * destruct (Hes4 e He) as [?|?]; auto.
      * apply elem_of_app in He as [He| ->%list_elem_of_singleton].
        -- destruct (Hes4 e He) as [?|?]; auto.
        -- right. right. exists q. by rewrite <-E7.
  - mstep. split; simpl; try done.
    + by rewrite <-E4.
    + left. done.
    + intros e He. destruct (Hes4 e He) as [?|?]; auto.
Qed.

Lemma log_first_once fes fpre fpost :
  log_first fes → fes = fpre ++ Figure2.PersistLog :: fpost → Figure2.PersistLog ∉ fpre.
Proof.
  intros (a & b & -> & _ & Ha & Hb) Heq Hin.
  apply app_eq_inv in Heq as [(k & -> & Hk)|(k & -> & Hk)].
  - set_solver.
  - destruct k as [|x k]; [rewrite app_nil_r in Hin; done|].
    injection Hk as <- ->. set_solver.
Qed.

Lemma log_requested_intro log fes head es w w' :
  Forall translation_effect head → rendering log fes es →
  ((∀ q, PersistLog q ∉ head ++ es) ∧ lw_pending_log w' = lw_pending_log w) ∨
  (∃ pre q post, head ++ es = pre ++ PersistLog q :: post ∧ (∀ q', PersistLog q' ∉ pre) ∧
     lw_pending_log w = None ∧ lw_pending_log w' = Some (mkPendingLog q post)) →
  log_requested log fes w w'.
Proof.
  intros Hhead Hren [[Hno Hw]|(pre & q & post & Heq & Hpre & Hn & Hw)].
  - left. split; [|done]. intros Hin. destruct (rendering_has_log _ _ _ Hren Hin) as [q Hq].
    apply (Hno q). set_solver.
  - right. destruct (ungated_elem log fes head es pre (PersistLog q) post) as
      (fpre & fe & fpost & Hf & Hr & Hfp); [done..|by intros []|].
    inversion Hr; subst fe. split; [rewrite Hf; set_solver|]. split; [done|].
    exists (mkPendingLog q post). split; [done|]. split; [done|]. simpl. split.
    { intros e He. assert (e ∈ head ++ es) as [Hin|Hin]%elem_of_app by (rewrite Heq; set_solver).
      - left. by eapply (proj1 (Forall_forall _ _)).
      - right. destruct (rendering_elem _ _ _ _ Hren Hin) as (fe' & _ & ?). by exists fe'. }
    intros Hfirst q' Hin.
    apply list_elem_of_split in Hin as (p1 & p2 & ->).
    assert (∃ pre', pre = head ++ pre' ∧ es = pre' ++ PersistLog q :: p1 ++ PersistLog q' :: p2)
      as (pre' & -> & Hes).
    { apply app_eq_inv in Heq as [(k & Hh & Hs)|(k & Hp & Hs)].
      - destruct k as [|x k].
        + exists []. rewrite app_nil_r in *. by subst.
        + injection Hs as <- _. rewrite Hh in Hhead.
          apply Forall_app in Hhead as [_ Hhead]. by inversion Hhead.
      - exists k. by subst. }
    rewrite app_comm_cons, app_assoc in Hes.
    destruct (rendering_split _ _ _ Hren _ _ _ Hes) as (g1 & g & g2 & Hg & Hrg & Hrr).
    inversion Hrr; subst g. apply (log_first_once _ _ _ Hfirst Hg).
    apply (rendering_log _ _ _ q Hrg). set_solver.
Qed.

Lemma translate_spec fr previous c :
  mwp (translate fr previous) c (translated c fr previous) (λ _ _, True).
Proof.
  eapply mwp_eq; [apply translate_release|].
  mstep. eapply mwp_mono; [apply translate_ungated| |done]. intros t c1 [].
  eapply mwp_mono; [apply release_spec| |done]. intros r c' [].
  destruct ug_effects0 as (head & es & Hes & Hhead & Hren).
  assert (∀ e, e ∈ sr_effects r → ¬ translation_effect e →
    (∃ fpre fe fpost, res_effects fr = fpre ++ fe :: fpost ∧
       rendered (log_of (res_state fr)) fe e ∧ Figure2.PersistLog ∉ fpre) ∨
    (∃ to q, e = SendInstallSnapshot to q) ∨
    (∃ q, e = ApplyLogEntry q ∧ lw_pending_application (co_log_work c1) = None ∧
       lw_pending_application (co_log_work c') = Some (mkPendingApplication q false))) as Hsrc.
  { intros e He Hne. destruct (rl_effects0 e He) as [(pre & post & Ht & Hpre)|?]; [left|by right].
    rewrite Hes in Ht. by eapply ungated_elem. }
  destruct ug_log0 as [id Hid].
  assert (lw_pending_application (co_log_work c1) = lw_pending_application (co_log_work c)) as Ea
    by by rewrite Hid.
  assert (lw_pending_log (co_log_work c1) = lw_pending_log (co_log_work c)) as El by by rewrite Hid.
  split.
  - congruence.
  - congruence.
  - congruence.
  - by eapply same_but_transfers_trans.
  - by rewrite rl_reads0.
  - by rewrite rl_timers0.
  - by rewrite rl_timers0.
  - rewrite Hes in rl_log0. rewrite El in rl_log0. by eapply log_requested_intro.
  - unfold scheduled in *. by rewrite <-Ea, <-ug_state0.
  - intros q Hq. destruct (Hsrc _ Hq) as [(? & fe & ? & _ & Hr & _)|[(? & ? & ?)|(q' & [= <-] & ?)]];
      [by intros []| |done|by rewrite <-Ea]. by inversion Hr.
  - intros e He Hrel. destruct (Hsrc e He) as [(fpre & fe & fpost & ? & Hr & ?)|[(? & ? & ->)|(q' & -> & _)]].
    + by intros [Hn _]%translation_effect_not.
    + exists fpre, fe, fpost. split_and!; try done. by apply (rendered_not _ _ _ Hr).
    + done.
    + done.
  - intros i id' Hin. destruct (Hsrc _ Hin) as [(? & fe & ? & _ & Hr & _)|[(? & ? & ?)|(q' & ? & _)]];
      [by intros []| |done|done]. by inversion Hr.
Qed.

(** ** What makes a translation throw

    On a valid state the helpers throw only when a counter is used up. *)

Abbreviation tires m c := (mwp m c (λ _ _, True) (λ e _, exhausted e)).

Lemma next_deadline_tires c : tires next_deadline c.
Proof.
  unfold next_deadline. do 4 mstep. apply owp_throw_when; [by eexists|]. intros _.
  mstep. by do 3 mstep.
Qed.

Lemma next_heartbeat_tires c : tires next_heartbeat c.
Proof.
  unfold next_heartbeat. do 4 mstep. apply owp_throw_when; [by eexists|]. intros _. by do 3 mstep.
Qed.

Lemma schedule_application_tires r c : good (co_state c) → tires (schedule_application r) c.
Proof.
  intros [[] [] Hroom]. unfold schedule_application. do 2 mstep. mstep; [by mstep|].
  rename select (_ || _ = false) into Hb. apply orb_false_iff in Hb as [_ Hc%Z.leb_gt].
  do 2 mstep. apply owp_throw_when; [by eexists|]. intros _. mstep. apply mwp_modify. do 2 mstep.
  rewrite last_index_length in * by done. rewrite u64_small by lia.
  destruct (log_at _ _) eqn:Hat; simpl; [mstep; apply mwp_modify; by mstep|].
  unfold log_at in Hat. destruct (log_of (co_state c) !! _) eqn:He; [done|].
  apply lookup_ge_None in He. lia.
Qed.

Lemma replace_compacted_appends_tires r c : tires (replace_compacted_appends r) c.
Proof.
  unfold replace_compacted_appends. do 2 mstep. mstep; [|by mstep]. mstep; [|by mstep].
  mstep; [|by mstep]. mstep.
  eapply mwp_mono; [apply (mwp_mfold _ (λ _ _ _, True) (λ e _, exhausted e)); [done|]| |done].
  - intros pre e suf es' c' _ _. unfold replace_compacted_append. destruct e; try (by mstep).
    mstep; [|by mstep]. mstep; [by mstep|]. do 4 mstep. apply owp_throw_when; [by eexists|].
    intros _. mstep. apply mwp_modify. by mstep.
  - intros es' c' _. by mstep.
Qed.

Lemma translate_role_tires previous resets t c : tires (translate_role previous resets t) c.
Proof.
  unfold translate_role. do 2 mstep. mstep.
  - mstep. apply mwp_modify. mstep. eapply mwp_mono; [apply next_heartbeat_tires| |done].
    intros e c' _. by mstep.
  - mstep; [|by mstep]. mstep.
    apply (mwp_mono _ _ (λ _ _, True) _ (λ e _, exhausted e)); [|intros t2 c2 _|done].
    { mstep; [|by mstep]. mstep. apply mwp_modify. by mstep. }
    mstep. apply (mwp_mono _ _ (λ _ _, True) _ (λ e _, exhausted e)); [|intros t3 c3 _|done].
    { mstep; [by mstep|]. mstep. eapply mwp_mono; [apply next_deadline_tires| |done].
      intros e c' _. by mstep. }
    mstep. eapply mwp_mono; [apply reject_pending_reads_spec| |done].
    intros t4 c4 _. mstep. apply mwp_modify. by mstep.
Qed.

Lemma translate_effects_tires t fes c : tires (mfold translate_effect t fes) c.
Proof.
  apply (mwp_mfold _ (λ _ _ _, True) (λ e _, exhausted e)); [done|].
  intros pre fe suf t' c' _ _. destruct fe; simpl; try (by mstep).
  - do 4 mstep. apply owp_throw_when; [by eexists|]. intros _. mstep. apply mwp_modify. by mstep.
  - mstep. eapply mwp_mono; [apply next_deadline_tires| |done]. intros e c2 _. by mstep.
Qed.

Lemma gate_log_persistence_tires t c :
  lw_pending_log (co_log_work c) = None ∨ (∀ q, PersistLog q ∉ sr_effects t) →
  tires (gate_log_persistence t) c.
Proof.
  intros Hl. unfold gate_log_persistence. pose proof (split_log_persistence_spec (sr_effects t)) as Hs.
  destruct (split_log_persistence (sr_effects t)) as [[[before q] after]|]; [|by mstep].
  destruct Hs as (pre & _ & Hes & _). do 4 mstep. apply owp_throw_when.
  - intros [p Hp]%bool_decide_eq_true. destruct Hl as [Hl|Hno]; [congruence|].
    destruct (Hno q). rewrite Hes. set_solver.
  - intros _. mstep. apply mwp_modify. by mstep.
Qed.

Lemma release_tires t c :
  good (co_state c) → lw_pending_log (co_log_work c) = None ∨ (∀ q, PersistLog q ∉ sr_effects t) →
  tires (release t) c.
Proof.
  intros Hg Hl. unfold release. mstep.
  eapply mwp_mono; [eapply mwp_throws; [apply gate_log_persistence_spec|
    by apply gate_log_persistence_tires]| |done].
  intros t3 c3 H3. assert (co_state c3 = co_state c) as E3
    by by destruct H3 as [(_ & -> & _)|(? & ? & ? & _ & _ & _ & _ & ->)].
  mstep. eapply mwp_mono; [eapply mwp_throws; [apply replace_compacted_appends_spec|
    apply replace_compacted_appends_tires]| |done].
  intros t4 c4 (w & -> & _). do 2 mstep. mstep; [|by mstep].
  apply schedule_application_tires. simpl. by rewrite E3.
Qed.

(** A valid result whose log request finds no other pending. *)
Lemma translate_tires fr previous c :
  good (res_state fr) →
  lw_pending_log (co_log_work c) = None ∨ (Figure2.PersistLog ∉ res_effects fr) →
  tires (translate fr previous) c.
Proof.
  intros Hg Hl. eapply mwp_eq; [apply translate_release|].
  mstep. eapply mwp_mono; [apply (mwp_throws _ _ _ (λ e _, exhausted e) _ (translate_ungated fr previous c))| |done].
  - mstep. apply mwp_modify. mstep.
    apply (mwp_mono _ _ (λ _ _, True) _ (λ e _, exhausted e)); [| |done].
    + mstep; [by mstep|]. apply translate_role_tires.
    + intros t1 c1 _. apply translate_effects_tires.
  - intros t c1 [U1 _ _ _ _ _ _ [id U2] (head & es & Hes & Hhead & Hren)].
    apply release_tires; [by rewrite U1|]. rewrite U2, Hes. destruct Hl as [?|Hno]; [by left|right].
    intros q [Hin|Hin]%elem_of_app.
    + by apply (proj1 (Forall_forall _ _) Hhead) in Hin.
    + by destruct (rendering_log _ _ _ _ Hren Hin).
Qed.
