(* ===== verification/RaftCoreRefine.v ===== *)
(** * The core refines the Figure 2 specification

    For every input there is a list of moves of the specification state,
    [reaction]: events of [figure2::step], the completion of an application,
    recognising the sender of a snapshot as leader, compaction.  A call of
    [Core::step] that returns has made exactly these moves, one that throws has made
    the first of them; and every vote message it releases was an effect of one of
    the moves made. *)

From S2P Require Import Prelude OrdMap Bytes StoreTypes RaftTypes Codec RaftMessages Figure2.
From S2P Require Import RaftCore RaftCoreFrames RaftCoreTranslate.
Import election.
#[local] Open Scope Z_scope.

(** ** Moves of the specification state *)

Inductive move :=
| mv_event (e : Event)
| mv_follow (from : Z)
| mv_applied (index : Z)
| mv_compacted (m : SnapshotMetadata).

(** One move, with the effects of the moves so far. *)
Definition make (acc : State * list Figure2.Effect) (mv : move)
    : outcome (State * list Figure2.Effect) :=
  let '(s, out) := acc in
  match mv with
  | mv_event e => r ← Figure2.step s e; mret (res_state r, out ++ res_effects r)
  | mv_follow from => mret (follow from s, out)
  | mv_applied index => mret (applied_state index s, out)
  | mv_compacted m => mret (compacted_state m s, out)
  end.

Definition play (s : State) (moves : list move) : outcome (State * list Figure2.Effect) :=
  foldM make (s, []) moves.

(** The moves of a snapshot request of [from], in specification state [s]: an
    unknown sender and an older term are turned away, a newer term is adopted first,
    and only the leader of the current term is followed. *)
Definition snapshot_moves (w : SnapshotWork) (s : State) (from : Z)
    (q : InstallSnapshotRequest) : list move :=
  if negb (bool_decide (from ∈ st_peers s)) || negb (is_leader q =? from) then []
  else if is_term q <? current_term s then []
  else if current_term s <? is_term q then [mv_event (ObserveTerm (is_term q))]
  else if bool_decide (is_Some (sw_pending_snapshot w)) then [] else [mv_follow from].

(** A read request that starts a round of heartbeats. *)
Definition read_admitted (c : Core) (request : RequestId) : bool :=
  let s := co_state c in
  let d := co_reads c in
  bool_decide (st_role s = role_leader) && negb (bool_decide (request ∈ rd_used_read_requests d))
  && match commit_term s with
     | Ret term => negb ((st_commit_index s =? 0) || negb (term =? current_term s))
     | Throw _ => false
     end
  && negb ((cf_max_pending_reads (co_config c) <=? Z.of_nat (size (rd_pending_reads d)))
           || (cf_max_read_history (co_config c) <=? Z.of_nat (size (rd_used_read_requests d))))
  && negb ((rd_next_read_context d =? 0) || (rd_next_read_context d =? u64_max)).

(** The answer to a transferred snapshot as the append response it stands for. *)
Definition synthetic_response (q : InstallSnapshotResponse) : AppendEntriesResponse :=
  mkAppendResponse (ir_term q) true (ir_last_included_index q) (ir_read_context q).

(** The moves an input of [step] stands for in core [c]. *)
Definition reaction (c : Core) (i : Input) : list move :=
  let s := co_state c in
  let w := co_snapshots c in
  match i with
  | ElectionDeadline timer =>
      if bool_decide (tm_election_timer (co_timers c) = Some timer)
      then [mv_event ElectionTimeout] else []
  | HeartbeatDeadline timer =>
      if bool_decide (tm_heartbeat_timer (co_timers c) = Some timer)
         && bool_decide (st_role s = role_leader)
      then [mv_event HeartbeatTimeout] else []
  | ReceiveRequestVote from q => [mv_event (Figure2.ReceiveRequestVote from q)]
  | ReceiveRequestVoteResponse from q => [mv_event (Figure2.ReceiveRequestVoteResponse from q)]
  | ReceiveAppendEntries from q => [mv_event (Figure2.ReceiveAppendEntries from q)]
  | ReceiveAppendEntriesResponse from q => [mv_event (Figure2.ReceiveAppendEntriesResponse from q)]
  | ReceiveClientCommand command => [mv_event (Figure2.ReceiveClientCommand command)]
  | HardStatePersisted completion =>
      mv_event (Figure2.HardStatePersisted completion) ::
      match Figure2.step s (Figure2.HardStatePersisted completion), sw_install_after_hard_state w with
      | Ret r, Some (from, q) =>
          if bool_decide (is_Some (st_pending_hard_state (res_state r))) then []
          else snapshot_moves w (res_state r) from q
      | _, _ => []
      end
  | LogEntryApplied request_id index =>
      if pending_application_matches (co_log_work c) request_id index then [mv_applied index] else []
  | ReceiveInstallSnapshot from q => snapshot_moves w s from q
  | ReceiveInstallSnapshotResponse from q =>
      if negb (bool_decide (from ∈ st_peers s)) then []
      else if current_term s <? ir_term q then [mv_event (ObserveTerm (ir_term q))]
      else if transfer_matches c from q
      then [mv_event (Figure2.ReceiveAppendEntriesResponse from (synthetic_response q));
            mv_event HeartbeatTimeout]
      else []
  | RaftSnapshotPersisted request_id snapshot =>
      match sw_pending_snapshot w with
      | Some pending =>
          if (request_id =? sp_request_id pending)
             && bool_decide (sn_metadata snapshot = sn_metadata (sp_snapshot pending))
             && bool_decide (sn_state snapshot = sn_state (sp_snapshot pending))
             && sp_local_creation pending
          then [mv_compacted (sn_metadata (sp_snapshot pending))] else []
      | None => []
      end
  | RaftSnapshotRestored request_id index =>
      match sw_pending_snapshot_restore w with
      | Some pending =>
          if (request_id =? rs_request_id pending)
             && (index =? sm_last_included_index (sn_metadata (rs_snapshot pending)))
          then [mv_compacted (sn_metadata (rs_snapshot pending))] else []
      | None => []
      end
  | ReadIndexRequest request => if read_admitted c request then [mv_event HeartbeatTimeout] else []
  | RaftLogPersisted _ | LogEntryApplyFailed _ _ | RetryApplication | CreateSnapshot _
  | CancelReadIndex _ | TimeoutReadIndex _ => []
  end.

Lemma foldM_make_out moves s out s' out' pre :
  foldM make (s, out) moves = Ret (s', out') →
  foldM make (s, pre ++ out) moves = Ret (s', pre ++ out').
Proof.
  revert s out. induction moves as [|mv moves IH]; intros s out; [by intros [= -> ->]|].
  intros ([s1 out1] & Hm & Hr)%bind_Ret. cbn [foldM].
  assert (make (s, pre ++ out) mv = Ret (s1, pre ++ out1)) as ->.
  { destruct mv; simpl in Hm; [|by injection Hm as <- <-..].
    apply bind_Ret in Hm as (r & Hs & [= <- <-]). simpl. rewrite Hs. simpl. by rewrite app_assoc. }
  by apply IH.
Qed.

Lemma play_app s moves s1 out1 moves' s2 out2 :
  play s moves = Ret (s1, out1) → play s1 moves' = Ret (s2, out2) →
  play s (moves ++ moves') = Ret (s2, out1 ++ out2).
Proof.
  unfold play. intros H1 H2. apply (foldM_make_out _ _ _ _ _ out1) in H2. rewrite app_nil_r in H2.
  revert H1. generalize (@nil Figure2.Effect). revert s.
  induction moves as [|mv moves IH]; intros s out; [by intros [= -> ->]|].
  intros ([s' out'] & Hm & Hr)%bind_Ret. cbn [app foldM]. rewrite Hm. by apply IH.
Qed.

(** ** Vote messages *)

Definition vote_of (e : Effect) : option Figure2.Effect :=
  match e with
  | SendRequestVote to q => Some (Figure2.SendRequestVote to q)
  | SendRequestVoteResponse to q => Some (Figure2.SendRequestVoteResponse to q)
  | _ => None
  end.

(** The effects waiting for the log to be persisted. *)
Definition log_deferred (c : Core) : list Effect :=
  match lw_pending_log (co_log_work c) with
  | Some p => lp_deferred_effects p
  | None => []
  end.

(** The vote messages among [es] and the deferred effects come from [out] or
    were [known]. *)
Definition released (known : Effect → Prop) (out : list Figure2.Effect) (es : list Effect)
    (c : Core) : Prop :=
  ∀ e v, vote_of e = Some v → e ∈ es ∨ e ∈ log_deferred c → known e ∨ v ∈ out.

Section tracking.
Context (moves : list move) (s0 : State) (known : Effect → Prop).

(** The object and the result so far are explained by playing [moves] from [s0]. *)
Definition tracked (r : StepResult) (c : Core) : Prop :=
  ∃ out, play s0 moves = Ret (co_state c, out) ∧ released known out (sr_effects r) c.

(** What is left of that when an exception discards the result. *)
Definition tracked_state (c : Core) : Prop := tracked (with_effects []) c.

Lemma tracked_weaken r c : tracked r c → tracked_state c.
Proof.
  intros (out & He & Hr). exists out. split; [done|]. intros e v Hv [Hin|Hin].
  - simpl in Hin. set_solver.
  - eauto.
Qed.

(** A helper that keeps the specification state and the deferred effects and
    adds no vote message. *)
Lemma tracked_adds (P : Effect → Prop) r r' c c' :
  (∀ e, P e → vote_of e = None) → adds P r r' → co_state c' = co_state c →
  log_deferred c' = log_deferred c → tracked r c → tracked r' c'.
Proof.
  intros HP Hadds Hs Hd (out & He & Hr). exists out. rewrite Hs. split; [done|].
  intros e v Hv [Hin|Hin].
  - apply (adds_elem _ _ _ _ Hadds) in Hin as [Hin|Hp]; [by eapply Hr; eauto|].
    rewrite (HP e Hp) in Hv. done.
  - rewrite Hd in Hin. eauto.
Qed.

Lemma tracked_frame r c c' :
  co_state c' = co_state c → log_deferred c' = log_deferred c → tracked r c → tracked r c'.
Proof. intros Hs Hd. by apply (tracked_adds (λ _, False) r r); [done|apply adds_refl|..]. Qed.

(** *** The helpers *)

Lemma complete_ready_reads_tracked r c :
  tracked r c → mwp (complete_ready_reads r) c tracked (λ _, tracked_state).
Proof.
  intros Ht. eapply mwp_mono; [apply complete_ready_reads_spec| |done].
  intros r' c' (d & -> & _ & ->).
  apply (tracked_adds read_effect r _ c); try done; [by intros []|].
  eexists. split; [done|]. by apply Forall_fmap, Forall_true.
Qed.

Lemma acknowledge_read_tracked from response r c :
  tracked r c → mwp (acknowledge_read from response r) c tracked (λ _, tracked_state).
Proof.
  intros Ht. eapply mwp_mono; [apply acknowledge_read_frame| |done].
  intros r' c' [[d ->] Ha]. by apply (tracked_adds read_effect r _ c); [intros []|..].
Qed.

Lemma schedule_application_tracked r c :
  tracked r c → mwp (schedule_application r) c tracked (λ _, tracked_state).
Proof.
  intros Ht. eapply mwp_mono; [apply schedule_application_spec| |].
  - intros r' c' [(-> & -> & _)|(entry & _ & _ & _ & _ & -> & ->)]; [done|].
    apply (tracked_adds (λ e, vote_of e = None) r _ c); try done.
    by apply adds_emit; [apply adds_refl|].
  - intros e c' [n ->]. by apply (tracked_weaken r), (tracked_frame _ c).
Qed.

Lemma gate_log_persistence_tracked r c :
  tracked r c → mwp (gate_log_persistence r) c tracked (λ _, tracked_state).
Proof.
  intros Ht. eapply mwp_mono; [apply gate_log_persistence_spec| |].
  - intros r' c' [(-> & -> & _)|(pre & q & after & Hes & _ & Hnone & -> & ->)]; [done|].
    destruct Ht as (out & He & Hr). exists out. split; [done|].
    intros e v Hv Hin. eapply Hr; [done|]. left. rewrite Hes. unfold log_deferred in Hin.
    simpl in Hin. set_solver.
  - intros e c' [-> _]. by eapply tracked_weaken.
Qed.

Lemma replaced_vote s sn e e' v : replaced s sn e e' → vote_of e' = Some v → e' = e.
Proof. intros [->|(to & q & sn' & id & -> & _ & ->)]; done. Qed.

Lemma replace_compacted_appends_tracked r c :
  tracked r c → mwp (replace_compacted_appends r) c tracked (λ _, tracked_state).
Proof.
  intros Ht. eapply mwp_mono; [apply replace_compacted_appends_spec| |].
  - intros r' c' (w & -> & _ & _ & Hes & _). destruct Ht as (out & He & Hr).
    exists out. split; [done|]. intros e v Hv [Hin|Hin]; [|by eapply Hr; eauto].
    apply list_elem_of_lookup in Hin as [i Hi].
    destruct (Forall2_lookup_r _ _ _ _ _ Hes Hi) as (e0 & Hi0 & Hrep).
    apply (replaced_vote _ _ _ _ v Hrep) in Hv as Heq. subst e0.
    eapply Hr; [done|]. left. by eapply list_elem_of_lookup_2.
  - intros e c' (w & -> & _). by apply (tracked_weaken r), (tracked_frame _ c).
Qed.

Lemma translate_role_tracked previous resets r c :
  tracked r c → mwp (translate_role previous resets r) c tracked (λ _, tracked_state).
Proof.
  intros Ht. eapply mwp_mono; [apply translate_role_frame| |].
  - intros r' c' [(Hs & _ & _ & Hw & _) Ha].
    apply (tracked_adds translation_effect r _ c); try done; [by intros []|].
    unfold log_deferred. by rewrite Hw.
  - intros e c' (Hs & _ & _ & Hw & _). apply (tracked_weaken r), (tracked_frame _ c); try done.
    unfold log_deferred. by rewrite Hw.
Qed.

(** An effect of the specification, which [out] contains. *)
Lemma translate_effect_tracked r effect c out :
  play s0 moves = Ret (co_state c, out) →
  (∀ e, vote_of e = Some effect → effect ∈ out) → released known out (sr_effects r) c →
  mwp (translate_effect r effect) c
    (λ r' c', co_state c' = co_state c ∧ released known out (sr_effects r') c')
    (λ _, tracked_state).
Proof.
  intros He Hin Hr.
  assert (∀ e, (∀ v, vote_of e = Some v → v = effect) →
    released known out (sr_effects (emit r e)) c) as Hemit.
  { intros e Hv e' v Hv' [[Hin'| ->%list_elem_of_singleton]%elem_of_app|Hin'];
      [by eauto| |by eauto]. right. rewrite (Hv v Hv') in Hv' |- *. by eapply Hin. }
  assert (tracked_state c) as Hts by by apply (tracked_weaken r); exists out.
  destruct effect; simpl.
  - mstep. split; [done|]. by apply Hemit.
  - do 4 mstep. apply owp_throw_when; [done|]. intros _. mstep. apply mwp_modify. mstep.
    split; [done|]. by apply Hemit.
  - mstep. split; [done|]. apply Hemit. by intros v [= <-].
  - mstep. split; [done|]. apply Hemit. by intros v [= <-].
  - mstep. split; [done|]. by apply Hemit.
  - mstep. split; [done|]. by apply Hemit.
  - mstep. eapply mwp_mono; [apply next_deadline_spec| |].
    + intros e c' (delay & random & -> & _ & -> & _). mstep. split; [done|]. by apply Hemit.
    + by intros e c' [-> _].
  - by mstep.
  - by mstep.
Qed.

(** Translating a result whose state and vote messages are explained. *)
Lemma translate_tracked result previous c out :
  play s0 moves = Ret (res_state result, out) →
  (∀ e v, v ∈ res_effects result → vote_of e = Some v → v ∈ out) →
  released known out [] c →
  mwp (translate result previous) c tracked (λ _, tracked_state).
Proof.
  intros He Hout Hr. unfold translate. mstep. apply mwp_modify. mstep.
  assert (tracked (mkStep (res_rules result) []) (set_state (res_state result) c)) as H0
    by by exists out.
  apply (mwp_mono _ _ (λ t1 c1, co_state c1 = res_state result ∧
    released known out (sr_effects t1) c1) _ (λ _, tracked_state)); [| |done].
  { mstep; [mstep; by split|].
    eapply mwp_mono; [apply translate_role_frame| |].
    - intros t1 c1 [(Hs & _ & _ & Hw & _) Ha]. split; [done|].
      assert (log_deferred c1 = log_deferred c) as Hd by (unfold log_deferred; by rewrite Hw).
      intros e v Hv [Hin|Hin]; [|rewrite Hd in Hin; by eauto].
      apply (adds_elem _ _ _ _ Ha) in Hin as [Hin|Hp]; [simpl in Hin; set_solver|].
      by destruct e.
    - intros e c1 (Hs & _ & _ & Hw & _).
      apply (tracked_weaken (mkStep (res_rules result) [])),
        (tracked_frame _ (set_state (res_state result) c)); try done.
      unfold log_deferred. by rewrite Hw. }
  intros t1 c1 [Hs1 H1]. mstep.
  apply (mwp_mono _ _ tracked _ (λ _, tracked_state)); [| |done].
  { eapply mwp_mono; [apply (mwp_mfold _ (λ _ t c', co_state c' = res_state result ∧
      released known out (sr_effects t) c') (λ _, tracked_state)); [done|]| |done].
    - intros pre effect suf t c' Hl [Hs Ht].
      eapply mwp_mono; [eapply (translate_effect_tracked _ effect _ out); [by rewrite Hs| |done]| |done].
      + intros e Hv. eapply Hout; [|done]. rewrite Hl. set_solver.
      + intros t' c'' [Hs' ?]. split; [congruence|done].
    - intros t c' [Hs Ht]. exists out. by rewrite Hs. }
  intros t2 c2 H2. mstep.
  eapply mwp_mono; [by apply gate_log_persistence_tracked| |done]. intros t3 c3 H3. mstep.
  eapply mwp_mono; [by apply replace_compacted_appends_tracked| |done]. intros t4 c4 H4.
  do 2 mstep. mstep; [by apply schedule_application_tracked|by mstep].
Qed.

Lemma append_result_nil r : append_result r (with_effects []) = r.
Proof. unfold append_result, with_effects. simpl. rewrite !app_nil_r. by destruct r. Qed.
End tracking.

(** ** Sequences of parts *)

(** A method whose effect on the object is explained, by [moves], from the object it
    was called on. *)
Definition refines (moves : list move) (c : Core) (r : StepResult) (c' : Core) : Prop :=
  tracked moves (co_state c) (λ e, e ∈ log_deferred c) r c'.

Definition refines_state (moves : list move) (c c' : Core) : Prop :=
  refines moves c (with_effects []) c'.

(** The first of [moves] explain the object. *)
Definition refines_some (moves : list move) (c c' : Core) : Prop :=
  ∃ made, made `prefix_of` moves ∧ refines_state made c c'.

Lemma refines_all moves c c' : refines_state moves c c' → refines_some moves c c'.
Proof. intros H. by exists moves. Qed.

Lemma refines_weaken moves c r c' : refines moves c r c' → refines_some moves c c'.
Proof. intros H%tracked_weaken. by apply refines_all. Qed.

Lemma refines_refl c : refines_state [] c c.
Proof.
  exists []. split; [done|]. intros e v _ [Hin|Hin]; [simpl in Hin; set_solver|by left].
Qed.

(** Nothing was done yet. *)
Lemma refines_none moves c : refines_some moves c c.
Proof. exists []. split; [apply prefix_nil|apply refines_refl]. Qed.

Lemma refines_compose moves moves' c r c1 r' c' :
  refines moves c r c1 → refines moves' c1 r' c' →
  refines (moves ++ moves') c (append_result r r') c'.
Proof.
  intros (out & He & Hr) (out' & He' & Hr'). exists (out ++ out').
  split; [by eapply play_app|]. intros e v Hv Hin.
  assert (e ∈ sr_effects r ∨ e ∈ log_deferred c1 ∨ v ∈ out') as Hcases.
  { destruct Hin as [[?|Hin]%elem_of_app|Hin]; [by left|..];
      (destruct (Hr' e v Hv) as [?|?]; auto). }
  destruct Hcases as [?|[?|?]]; [| |set_solver];
    (destruct (Hr e v Hv) as [?|?]; [by auto|by left|set_solver]).
Qed.

Lemma refines_then moves moves' c r c1 (m : method StepResult) :
  refines moves c r c1 →
  mwp m c1 (refines moves' c1) (λ _, refines_some moves' c1) →
  mwp m c1 (λ r' c', refines (moves ++ moves') c (append_result r r') c')
    (λ _, refines_some (moves ++ moves') c).
Proof.
  intros H1 Hm. eapply mwp_mono; [exact Hm| |].
  - intros r' c' H2. by eapply refines_compose.
  - intros e c' (made & Hpre & H2). exists (moves ++ made). split; [by apply prefix_app|].
    apply (tracked_weaken _ _ _ (append_result r (with_effects []))). by eapply refines_compose.
Qed.

(** The same when the object has so far only changed beside the specification. *)
Lemma refines_state_then moves c c1 (m : method StepResult) :
  refines_state [] c c1 →
  mwp m c1 (refines moves c1) (λ _, refines_some moves c1) →
  mwp m c1 (refines moves c) (λ _, refines_some moves c).
Proof.
  intros H1 Hm. eapply mwp_mono; [by apply (refines_then [] moves _ _ _ m H1)| |done].
  intros r' c' H2. exact H2.
Qed.

Abbreviation ok moves m c := (mwp m c (refines moves c) (λ _, refines_some moves c)).

Lemma run_figure2_refines e c : ok [mv_event e] (run_figure2 e) c.
Proof.
  unfold run_figure2. do 4 mstep.
  destruct (Figure2.step (co_state c) e) as [r|x] eqn:Hs; simpl; [|apply refines_none].
  eapply mwp_mono; [apply (translate_tracked [mv_event e] (co_state c) (λ e, e ∈ log_deferred c) _ _ _ (res_effects r))|done|].
  - unfold play. simpl. by rewrite Hs.
  - done.
  - intros e' v _ [Hin|Hin]; [set_solver|by left].
  - intros x c' H. by apply refines_all.
Qed.

(** The specification state it leaves. *)
Lemma run_figure2_state e c :
  mwp (run_figure2 e) c (λ _ c', ∃ fr, Figure2.step (co_state c) e = Ret fr ∧
    co_state c' = res_state fr ∧ same_but_transfers (co_snapshots c) (co_snapshots c')) (λ _ _, True).
Proof.
  unfold run_figure2. do 4 mstep.
  destruct (Figure2.step (co_state c) e) as [fr|x] eqn:Hs; simpl; [|done].
  eapply mwp_mono; [apply translate_spec| |done]. intros r c' T. exists fr.
  split_and!; [done|apply T|apply T].
Qed.

(** ** The methods *)

Section methods.
Implicit Types c : Core.

(** A result without vote messages on an object with the same specification
    state. *)
Lemma refines_quiet c r c' :
  co_state c' = co_state c → log_deferred c' = log_deferred c →
  Forall (λ e, vote_of e = None) (sr_effects r) → refines [] c r c'.
Proof.
  intros Hs Hd Hes. exists []. rewrite Hs. split; [done|].
  intros e v Hv [Hin|Hin].
  - rewrite (proj1 (Forall_forall _ _) Hes e Hin) in Hv. done.
  - left. by rewrite <-Hd.
Qed.

(** One move without effects. *)
Lemma refines_move mv c s :
  make (co_state c, []) mv = Ret (s, []) → refines_state [mv] c (set_state s c).
Proof.
  intros Hm. exists []. unfold play. cbn [foldM]. rewrite Hm. split; [done|].
  intros e v _ [Hin|Hin]; [simpl in Hin; set_solver|by left].
Qed.

(** The object after an exception that came before any change. *)
Lemma throw_refines moves c (b : bool) e (m : method StepResult) :
  (b = false → ok moves m c) → ok moves (_ ← lift (throw_when b e); m) c.
Proof.
  intros Hm. do 2 mstep. apply owp_throw_when; [intros _; apply refines_none|done].
Qed.

Lemma reject_read_refines request reason c : ok [] (reject_read request reason) c.
Proof. unfold reject_read. mstep. apply mwp_modify. mstep. by apply refines_quiet; repeat constructor. Qed.

Lemma drop_read_refines request reason c : ok [] (drop_read request reason) c.
Proof.
  unfold drop_read. do 3 mstep; [|mstep; apply refines_refl].
  mstep. apply mwp_modify. mstep. by apply refines_quiet; repeat constructor.
Qed.

Lemma with_read_context_vote context e v :
  vote_of (with_read_context context e) = Some v → with_read_context context e = e.
Proof. by destruct e. Qed.

Lemma begin_read_refines request c :
  ok (if read_admitted c request then [mv_event HeartbeatTimeout] else []) (begin_read request) c.
Proof.
  unfold begin_read, read_admitted. apply throw_refines. intros _. do 2 mstep.
  destruct (bool_decide (st_role _ = _)); simpl; [|apply reject_read_refines].
  destruct (bool_decide (request ∈ _)); simpl; [apply reject_read_refines|].
  mstep. mstep. destruct (commit_term _) as [term|x]; simpl; [|apply refines_none].
  destruct (_ || _); simpl; [apply reject_read_refines|].
  destruct (_ || _); simpl; [apply reject_read_refines|].
  destruct (_ || _); simpl; [apply reject_read_refines|]. mstep. apply mwp_modify. mstep.
  eapply mwp_mono; [apply (refines_state_then [mv_event HeartbeatTimeout] c)| |done].
  - by apply refines_quiet; repeat constructor.
  - apply run_figure2_refines.
  - intros r c' (out & He & Hr). mstep. exists out. split; [done|].
    intros e v Hv [Hin|Hin]; [|by eauto]. simpl in Hin.
    apply list_elem_of_fmap in Hin as (e0 & -> & Hin).
    pose proof (with_read_context_vote _ _ _ Hv) as Heq. rewrite Heq in Hv |- *. eauto.
Qed.

Lemma begin_snapshot_refines request c : ok [] (begin_snapshot request) c.
Proof.
  assert (∀ reason, refines [] c (reject_snapshot reason) c) as Hrej.
  { intros reason. by apply refines_quiet; repeat constructor. }
  unfold begin_snapshot. do 2 mstep. do 6 (mstep; [by mstep|]).
  mstep. mstep. destruct (applied_term _ _); simpl; [|apply refines_none].
  unfold request_snapshot. do 5 mstep. apply owp_throw_when; [intros _; apply refines_none|].
  intros _. mstep. apply mwp_modify. do 2 mstep. by apply refines_quiet; repeat constructor.
Qed.

Lemma install_snapshot_refines moves from request r c0 c :
  refines moves c0 r c →
  mwp (install_snapshot from request r) c (refines moves c0) (λ _, refines_some moves c0).
Proof.
  intros Hr. assert (∀ response, refines moves c0
    (emit r (install_reply from response)) c) as Hrep.
  { intros response. apply (tracked_adds _ _ _ (λ e, vote_of e = None) r _ c); try done.
    by apply adds_emit; [apply adds_refl|]. }
  unfold install_snapshot. do 2 mstep. do 4 (mstep; [mstep; apply Hrep|]). unfold request_snapshot. do 5 mstep.
  apply owp_throw_when; [intros _; by eapply refines_weaken|].
  intros _. mstep. apply mwp_modify. do 2 mstep.
  apply (tracked_adds _ _ _ (λ e, vote_of e = None) r _ c); try done.
  by apply adds_emit; [apply adds_refl|].
Qed.

Lemma receive_snapshot_refines from request c :
  ok (snapshot_moves (co_snapshots c) (co_state c) from request) (receive_snapshot from request) c.
Proof.
  unfold receive_snapshot, snapshot_moves. do 2 mstep. apply throw_refines. intros ->.
  destruct (is_term request <? _); [mstep; by apply refines_quiet; repeat constructor|].
  destruct (_ <? is_term request).
  - mstep. apply mwp_modify. apply (refines_state_then [mv_event (ObserveTerm (is_term request))] c).
    + by apply refines_quiet; repeat constructor.
    + apply run_figure2_refines.
  - case_bool_decide; [mstep; by apply refines_quiet; repeat constructor|]. mstep.
    eapply mwp_mono; [apply (translate_tracked [mv_follow from] (co_state c) (λ e, e ∈ log_deferred c)
      _ _ c [])| |].
    + done.
    + simpl. intros e v ->%list_elem_of_singleton. by destruct e.
    + intros e v _ [Hin|Hin]; [set_solver|by left].
    + intros r c' Hr. by apply install_snapshot_refines.
    + intros x c' Hr. by apply refines_all.
Qed.

Lemma receive_snapshot_response_refines from response c :
  ok (reaction c (ReceiveInstallSnapshotResponse from response))
    (receive_snapshot_response from response) c.
Proof.
  unfold receive_snapshot_response, reaction. do 2 mstep. apply throw_refines. intros ->.
  destruct (_ <? _); [apply run_figure2_refines|].
  destruct (transfer_matches c from response); simpl; [|mstep; apply refines_refl].
  mstep. apply mwp_modify. set (c1 := on_snapshots _ c). mstep.
  set (mv := mv_event (Figure2.ReceiveAppendEntriesResponse from (synthetic_response response))).
  assert (refines_state [] c c1) as H1 by by apply refines_quiet; repeat constructor.
  eapply mwp_mono; [apply (refines_state_then [mv] c c1 _ H1), run_figure2_refines| |].
  2: { intros x c2 (made & Hpre & Hm). exists made. split; [|done]. by apply (prefix_app_r _ [mv] [mv_event HeartbeatTimeout]). }
  intros r c2 H2. mstep.
  eapply mwp_mono; [by apply acknowledge_read_tracked| |].
  2: { intros x c3 H. exists [mv]. split; [by eexists|done]. }
  intros r' c3 H3. mstep.
  eapply mwp_mono; [apply (refines_then [mv] [mv_event HeartbeatTimeout] c r' c3 _ H3);
    apply run_figure2_refines| |done].
  intros r'' c4 H4. by mstep.
Qed.

Lemma compact_to_refines snapshot c :
  mwp (compact_to snapshot) c (λ _, refines_state [mv_compacted (sn_metadata snapshot)] c)
    (λ _ _, False).
Proof.
  unfold compact_to. do 3 mstep. apply mwp_modify. mstep. apply mwp_modify, mwp_modify.
  apply (tracked_frame _ _ _ _ (set_state (compacted_state (sn_metadata snapshot) (co_state c)) c));
    [done..|]. by apply refines_move.
Qed.

Lemma finish_completion_refines moves c0 r c :
  refines moves c0 r c →
  mwp (finish_completion r) c (refines moves c0) (λ _, refines_some moves c0).
Proof.
  intros Hr. unfold finish_completion. mstep.
  eapply mwp_mono; [by apply complete_ready_reads_tracked| |].
  2: { intros x c' H. by apply refines_all. }
  intros r' c' H'. eapply mwp_mono; [by apply schedule_application_tracked|done|].
  intros x c2 H. by apply refines_all.
Qed.

Lemma install_persisted_snapshot_refines request_id snapshot c :
  ok (reaction c (RaftSnapshotPersisted request_id snapshot))
    (install_persisted_snapshot request_id snapshot (with_effects [])) c.
Proof.
  unfold install_persisted_snapshot, reaction. do 2 mstep.
  destruct (sw_pending_snapshot (co_snapshots c)) as [p|]; [|apply refines_none].
  destruct (_ && bool_decide (sn_state snapshot = _)); simpl; [|apply refines_none].
  mstep. apply mwp_modify. set (c1 := on_snapshots _ c).
  assert (refines_state [] c c1) as H1 by by apply refines_quiet; repeat constructor.
  destruct (sp_local_creation p); simpl.
  - mstep. eapply mwp_mono; [apply compact_to_refines| |done]. intros [] c2 H2. mstep.
    apply (refines_compose [] _ _ _ _ _ _ H1) in H2.
    apply (tracked_adds _ _ _ (λ e, vote_of e = None) (with_effects []) _ c2); try done.
    by do 2 (apply adds_emit; [|done]); apply adds_refl.
  - mstep. apply mwp_deref; [intros to _|by intros _; apply refines_all].
    mstep. apply mwp_deref; [intros response _|by intros _; apply refines_all].
    mstep. apply mwp_modify. mstep. by apply refines_quiet; repeat constructor.
Qed.

Lemma complete_snapshot_restore_refines request_id index c :
  ok (reaction c (RaftSnapshotRestored request_id index))
    (complete_snapshot_restore request_id index (with_effects [])) c.
Proof.
  unfold complete_snapshot_restore, reaction. do 2 mstep.
  destruct (sw_pending_snapshot_restore (co_snapshots c)) as [p|]; [|apply refines_none].
  destruct (_ && _); simpl; [|apply refines_none]. mstep. apply mwp_modify. set (c1 := on_snapshots _ c).
  assert (refines_state [] c c1) as H1 by by apply refines_quiet; repeat constructor.
  mstep. eapply mwp_mono; [apply compact_to_refines| |done]. intros [] c2 H2. mstep.
  apply (refines_compose [] _ _ _ _ _ _ H1) in H2.
  apply (tracked_adds _ _ _ (λ e, vote_of e = None) (with_effects []) _ c2); try done.
  by do 2 (apply adds_emit; [|done]); apply adds_refl.
Qed.

Lemma entry_applied_refines request_id index c :
  ok (reaction c (LogEntryApplied request_id index)) (entry_applied request_id index) c.
Proof.
  unfold entry_applied, reaction. do 2 mstep. apply throw_refines. intros ->%negb_false_iff.
  mstep. apply mwp_modify. mstep. apply mwp_modify. set (c1 := on_log_work _ _).
  assert (refines_state [mv_applied index] c c1) as H1.
  { apply (tracked_frame _ _ _ _ (set_state (applied_state index (co_state c)) c)); [done..|].
    by apply refines_move. }
  apply (finish_completion_refines [mv_applied index] c).
  apply (tracked_adds _ _ _ (λ e, vote_of e = None) (with_effects []) _ c1); try done.
  by destruct (awaits_client _ _);
    [exists [CompleteClientCommand index]; repeat constructor|apply adds_refl].
Qed.

Lemma entry_apply_failed_refines request_id index c : ok [] (entry_apply_failed request_id index) c.
Proof.
  unfold entry_apply_failed. do 2 mstep. apply throw_refines. intros _. mstep.
  apply mwp_deref; [intros p _|intros _; apply refines_none].
  mstep. apply mwp_modify. mstep. by apply refines_quiet; repeat constructor.
Qed.

Lemma retry_application_refines c : ok [] retry_application c.
Proof.
  unfold retry_application. do 2 mstep. mstep; [|apply refines_none].
  destruct p as [request []]; [|apply refines_none]. apply throw_refines. intros _.
  mstep. apply mwp_modify. mstep. by apply refines_quiet; repeat constructor.
Qed.

Lemma log_persisted_refines completion c : ok [] (log_persisted completion) c.
Proof.
  unfold log_persisted. do 2 mstep. mstep; [|apply refines_none]. apply throw_refines. intros _.
  mstep. apply mwp_modify. mstep.
  assert (refines [] c (with_effects (lp_deferred_effects p))
    (on_log_work (set_pending_log None) c)) as H1.
  { exists []. split; [done|]. intros e v _ [Hin|Hin].
    - left. unfold log_deferred. by rewrite Heqo.
    - unfold log_deferred in Hin. simpl in Hin. set_solver. }
  eapply mwp_mono; [by apply replace_compacted_appends_tracked| |].
  2: { intros x c' H. by apply refines_all. }
  intros r c' H2. eapply mwp_mono; [by apply schedule_application_tracked|done|].
  intros x c2 H. by apply refines_all.
Qed.

Lemma hard_state_persisted_refines completion c :
  ok (reaction c (HardStatePersisted completion)) (hard_state_persisted completion) c.
Proof.
  set (mv := mv_event (Figure2.HardStatePersisted completion)).
  unfold hard_state_persisted. mstep.
  eapply mwp_mono; [eapply mwp_and_l; [apply run_figure2_refines|apply run_figure2_state]| |].
  2: { intros x c1 (made & Hpre & H). exists made. split; [|done].
       by apply (prefix_app_r _ [mv]). }
  intros r c1 [H1 (fr & Hs & E1 & Hw)]. unfold reaction. rewrite Hs. do 2 mstep.
  rewrite (bt_install _ _ Hw), E1.
  destruct (sw_install_after_hard_state (co_snapshots c)) as [[from request]|]; [|by mstep].
  case_bool_decide; [by mstep|].
  mstep. apply mwp_modify. set (c2 := on_snapshots _ c1). mstep.
  assert (refines [mv] c r c2) as H2 by by apply (tracked_frame _ _ _ _ c1).
  assert (snapshot_moves (co_snapshots c) (res_state fr) from request =
    snapshot_moves (co_snapshots c2) (co_state c2) from request) as ->.
  { unfold snapshot_moves. simpl. by rewrite E1, (bt_pending _ _ Hw). }
  eapply mwp_mono; [apply (refines_then [mv]
    (snapshot_moves (co_snapshots c2) (co_state c2) from request) c r c2 _ H2);
    apply receive_snapshot_refines| |done].
  intros r' c3 H3. by mstep.
Qed.

Lemma election_deadline_refines timer c :
  ok (reaction c (ElectionDeadline timer)) (election_deadline timer) c.
Proof.
  unfold election_deadline, reaction. do 2 mstep.
  case_bool_decide; simpl; [|mstep; apply refines_refl]. mstep. apply mwp_modify.
  apply (refines_state_then [mv_event ElectionTimeout] c).
  - by apply refines_quiet; repeat constructor.
  - apply run_figure2_refines.
Qed.

Lemma heartbeat_deadline_refines timer c :
  ok (reaction c (HeartbeatDeadline timer)) (heartbeat_deadline timer) c.
Proof.
  unfold heartbeat_deadline, reaction. do 2 mstep. rewrite <-negb_andb.
  destruct (_ && _); simpl; [|mstep; apply refines_refl].
  mstep. apply mwp_modify. mstep.
  eapply mwp_mono; [apply (refines_state_then [mv_event HeartbeatTimeout] c)| |done].
  - by apply refines_quiet; repeat constructor.
  - apply run_figure2_refines.
  - intros r c1 H1. mstep. eapply mwp_mono; [apply next_heartbeat_spec| |].
    + intros e c2 [-> ->]. mstep. apply (tracked_adds _ _ _ timer_effect r _ c1); try done.
      * by intros [].
      * by apply adds_emit; [apply adds_refl|].
    + intros e c2 [-> _]. by eapply refines_weaken.
Qed.
End methods.

(** ** The step function *)

Lemma step_refines i c : ok (reaction c i) (step i) c.
Proof.
  unfold step. do 2 mstep. apply throw_refines. intros _.
  assert (∀ (b1 b2 : bool) x1 x2, ok (reaction c i) (step_unblocked i) c →
    ok (reaction c i) (_ ← lift (throw_when b1 x1); _ ← lift (throw_when b2 x2); step_unblocked i) c)
    as Hun.
  { intros b1 b2 x1 x2 H. by do 2 (apply throw_refines; intros _). }
  destruct i; try (apply Hun; simpl).
  - apply election_deadline_refines.
  - apply heartbeat_deadline_refines.
  - apply run_figure2_refines.
  - apply run_figure2_refines.
  - mstep. mstep. destruct (validate_append_request _); simpl; [|apply refines_none].
    apply run_figure2_refines.
  - mstep. eapply mwp_mono; [apply run_figure2_refines| |done].
    intros r c' Hr. eapply mwp_mono; [by apply acknowledge_read_tracked|done|].
    intros x c2 H. by apply refines_all.
  - apply run_figure2_refines.
  - apply hard_state_persisted_refines.
  - apply throw_refines. intros _. apply log_persisted_refines.
  - apply throw_refines. intros _. apply entry_applied_refines.
  - apply throw_refines. intros _. apply entry_apply_failed_refines.
  - apply throw_refines. intros _. apply retry_application_refines.
  - apply begin_snapshot_refines.
  - apply receive_snapshot_refines.
  - apply receive_snapshot_response_refines.
  - mstep. eapply mwp_mono; [apply install_persisted_snapshot_refines| |done].
    intros r c' Hr. by apply finish_completion_refines.
  - mstep. eapply mwp_mono; [apply complete_snapshot_restore_refines| |done].
    intros r c' Hr. by apply finish_completion_refines.
  - apply begin_read_refines.
  - apply drop_read_refines.
  - apply drop_read_refines.
Qed.

(** The same for a call and its outcome: what is released is what the step
    returned, nothing if it threw. *)
Lemma step_reacts i c o c' :
  step i c = (o, c') →
  ∃ made out, made `prefix_of` reaction c i ∧ (∀ r, o = Ret r → made = reaction c i) ∧
    play (co_state c) made = Ret (co_state c', out) ∧
    ∀ e v, vote_of e = Some v →
      (∃ r, o = Ret r ∧ e ∈ sr_effects r) ∨ e ∈ log_deferred c' →
      e ∈ log_deferred c ∨ v ∈ out.
Proof.
  intros Hstep. pose proof (step_refines i c) as Href. unfold mwp in Href. rewrite Hstep in Href.
  destruct o as [r|x].
  - destruct Href as (out & Hev & Hrel). exists (reaction c i), out. split_and!; try done.
    intros e v Hv [(r' & [= <-] & Hin)|Hin]; eapply Hrel; eauto.
  - destruct Href as (made & Hpre & out & Hev & Hrel). exists made, out. split_and!; try done.
    intros e v Hv [(r' & ? & _)|Hin]; [done|]. eapply Hrel; eauto.
Qed.
