(* ===== verification/CoreCluster.v ===== *)
(** * A cluster of timed cores

    Servers running [Core::step] with disks, crashes and a network as in
    [Cluster].  Each execution is simulated by one of the Figure 2 cluster, so
    election safety carries over to the program's core, including its snapshot
    and read paths and steps that end in an exception. *)

From S2P Require Import Prelude OrdMap Bytes StoreTypes RaftTypes Codec RaftMessages Figure2.
From S2P Require Import Figure2Votes Cluster RaftCore RaftCoreFrames RaftCoreRefine.
Import election.
#[local] Open Scope Z_scope.

(** ** The system *)

Record CoreServer := mkCoreServer {
  cs_core : Core;
  cs_disk : RaftHardState }.

(** The network holds every message ever sent, with sender and destination. *)
Record CoreCluster := mkCoreCluster {
  cc_servers : gmap Z CoreServer;
  cc_network : list (Z * Input) }.

Definition input_of (node : Z) (effect : Effect) : option (Z * Input) :=
  match effect with
  | SendRequestVote to q => Some (to, ReceiveRequestVote node q)
  | SendRequestVoteResponse to q => Some (to, ReceiveRequestVoteResponse node q)
  | SendAppendEntries to q => Some (to, ReceiveAppendEntries node q)
  | SendAppendEntriesResponse to q => Some (to, ReceiveAppendEntriesResponse node q)
  | SendInstallSnapshot to q => Some (to, ReceiveInstallSnapshot node q)
  | SendInstallSnapshotResponse to q => Some (to, ReceiveInstallSnapshotResponse node q)
  | _ => None
  end.

(** The messages a call of [step] releases; an exception releases none. *)
Definition core_sends (node : Z) (o : outcome StepResult) : list (Z * Input) :=
  match o with Ret r => omap (input_of node) (sr_effects r) | Throw _ => [] end.

(** Inputs that may arrive at any time. *)
Definition free_input (i : Input) : Prop :=
  match i with
  | HardStatePersisted _ => False
  | ReceiveRequestVoteResponse _ response => vr_granted response = false
  | _ => True
  end.

Definition core_update (c : CoreCluster) (n : Z) (sv : CoreServer) (sent : list (Z * Input))
    : CoreCluster :=
  mkCoreCluster (<[n := sv]> (cc_servers c)) (cc_network c ++ sent).

(** A core built from what the disks hold and started. *)
Definition booted (self : Z) (peers : list Z) (disk : RaftHardState) (core : Core) : Prop :=
  ∃ cf rc seed core0 r, rc_hard_state rc = disk ∧
    construct self peers cf rc seed = Ret core0 ∧ start core0 = (Ret r, core).

Inductive core_cluster_step (c : CoreCluster) : CoreCluster → Prop :=
| core_local n sv i o core :
    cc_servers c !! n = Some sv → free_input i → step i (cs_core sv) = (o, core) →
    core_cluster_step c (core_update c n (mkCoreServer core (cs_disk sv)) (core_sends n o))
| core_deliver n sv i o core :
    cc_servers c !! n = Some sv → (n, i) ∈ cc_network c → step i (cs_core sv) = (o, core) →
    core_cluster_step c (core_update c n (mkCoreServer core (cs_disk sv)) (core_sends n o))
| core_write n sv p :
    cc_servers c !! n = Some sv → st_pending_hard_state (co_state (cs_core sv)) = Some p →
    core_cluster_step c (core_update c n (mkCoreServer (cs_core sv) (phs_state (pd_request p))) [])
| core_complete n sv completion o core :
    cc_servers c !! n = Some sv → hsp_state completion = cs_disk sv →
    step (HardStatePersisted completion) (cs_core sv) = (o, core) →
    core_cluster_step c (core_update c n (mkCoreServer core (cs_disk sv)) (core_sends n o))
| core_restart n sv core :
    cc_servers c !! n = Some sv →
    booted (st_node (co_state (cs_core sv))) (st_peers (co_state (cs_core sv))) (cs_disk sv) core →
    core_cluster_step c (core_update c n (mkCoreServer core (cs_disk sv)) []).

Definition core_cluster_steps : CoreCluster → CoreCluster → Prop := rtc core_cluster_step.

Record core_initial (members : list Z) (c : CoreCluster) : Prop := {
  ki_nodup : NoDup members;
  ki_servers : map_Forall (λ n sv, ∃ peers, n :: peers ≡ₚ members ∧
    booted n peers (cs_disk sv) (cs_core sv)) (cc_servers c);
  ki_network : cc_network c = [] }.

Definition core_leads (c : CoreCluster) (n t : Z) : Prop :=
  ∃ sv, cc_servers c !! n = Some sv ∧ st_role (co_state (cs_core sv)) = role_leader ∧
        current_term (co_state (cs_core sv)) = t.

(** ** Booting *)

Lemma booted_state self peers disk core :
  booted self peers disk core →
  ∃ snapshot log applied, co_state core = initial_state self peers disk snapshot log applied ∧
    log_deferred core = [].
Proof.
  intros (cf & rc & seed & core0 & r & <- & Hc & Hstart).
  assert (∃ snapshot log applied, core0 = initial_core cf
    (initial_state self peers (rc_hard_state rc) snapshot log applied) seed (rc_snapshot rc))
    as (snapshot & log & applied & ->).
  { unfold construct in Hc. apply bind_Ret in Hc as (? & _ & Hc).
    apply bind_Ret in Hc as (s & Hs & Hc). apply bind_Ret in Hc as (? & _ & [= <-]).
    destruct (rc_snapshot rc) as [sn|].
    - apply bind_Ret in Hs as (? & _ & Hs). apply bind_Ret in Hs as (log & _ & [= <-]). by do 3 eexists.
    - injection Hs as <-. by do 3 eexists. }
  assert (mwp start (initial_core cf (initial_state self peers (rc_hard_state rc) snapshot log applied)
      seed (rc_snapshot rc))
    (λ _ c', co_state c' = initial_state self peers (rc_hard_state rc) snapshot log applied ∧
       log_deferred c' = []) (λ _ _, True)) as Hwp.
  { unfold start. do 4 mstep. apply owp_throw_when; [done|]. intros _. mstep. apply mwp_modify.
    mstep. eapply mwp_mono; [apply next_deadline_spec| |done].
    intros e c' (delay & random & _ & _ & -> & _). by mstep. }
  exists snapshot, log, applied. exact (mwp_run _ _ _ _ _ _ Hwp Hstart).
Qed.

(** ** Simulation *)

Definition abstract_server (sv : CoreServer) : Server :=
  mkServer (co_state (cs_core sv)) (cs_disk sv).

Record simulated (cc : CoreCluster) (c : Cluster) : Prop := {
  sim_servers : cl_servers c = abstract_server <$> cc_servers cc;
  sim_deferred : ∀ n sv e v m, cc_servers cc !! n = Some sv → e ∈ log_deferred (cs_core sv) →
    vote_of e = Some v → message_of n v = Some m → m ∈ cl_network c;
  sim_network : ∀ to from resp, (to, ReceiveRequestVoteResponse from resp) ∈ cc_network cc →
    (to, Figure2.ReceiveRequestVoteResponse from resp) ∈ cl_network c;
  sim_messages : ∀ to i, (to, i) ∈ cc_network cc → ∀ completion, i ≠ HardStatePersisted completion }.

(** A move that is no event, on a server of the Figure 2 cluster. *)
Lemma move_adjusted s out mv s' out' :
  make (s, out) mv = Ret (s', out') → (∀ e, mv ≠ mv_event e) → adjusted s s' ∧ out' = out.
Proof.
  destruct mv as [e|from|index|m]; simpl; intros H Hne; [by destruct (Hne e)|..];
    injection H as <- <-; (split; [|done]).
  - split_and!; try done. by right.
  - unfold applied_state. destruct (st_leader s); split_and!; try done; by left.
  - split_and!; try done. by left.
Qed.

(** A server of the Figure 2 cluster can make the moves of a core. *)
Lemma moves_cluster moves s out s' out' n disk c :
  foldM make (s, out) moves = Ret (s', out') →
  (∀ e, mv_event e ∈ moves → free_event e ∨ (n, e) ∈ cl_network c ∨
     ∃ completion, e = Figure2.HardStatePersisted completion ∧ hsp_state completion = disk) →
  cl_servers c !! n = Some (mkServer s disk) →
  ∃ c' es, cluster_steps c c' ∧ out' = out ++ es ∧
    cl_servers c' = <[n := mkServer s' disk]> (cl_servers c) ∧
    cl_network c' = cl_network c ++ omap (message_of n) es.
Proof.
  revert s out c. induction moves as [|mv moves IH]; intros s out c Hp Hallowed Hn.
  { injection Hp as <- <-. exists c, []. split; [apply rtc_refl|].
    by rewrite insert_id, !app_nil_r. }
  apply bind_Ret in Hp as ([s1 out1] & Hm & Hp).
  assert (∃ c1 es, cluster_steps c c1 ∧ out1 = out ++ es ∧
    cl_servers c1 = <[n := mkServer s1 disk]> (cl_servers c) ∧
    cl_network c1 = cl_network c ++ omap (message_of n) es) as (c1 & es1 & H1 & -> & Hsv & Hnet).
  { assert ((∃ e, mv = mv_event e) ∨ ∀ e, mv ≠ mv_event e) as [[e ->]|Hne]
      by (destruct mv; [left; eauto|right..]; done).
    - simpl in Hm. apply bind_Ret in Hm as (r & Hs & [= <- <-]).
      exists (update c n (mkServer (res_state r) disk) (sends n r)), (res_effects r).
      split_and!; try done. apply rtc_once.
      destruct (Hallowed e) as [Hf|[Hin|(completion & -> & Hd)]]; [set_solver|..].
      + by apply (cluster_local c n (mkServer s disk) e).
      + by apply (cluster_deliver c n (mkServer s disk) e).
      + destruct (step_inv _ _ _ Hs) as (_ & _ & _ & r0 & Hdis & _).
        simpl in Hdis. unfold handle_completion in Hdis. simpl in Hdis.
        destruct (st_pending_hard_state s) as [p|] eqn:Hpd; [|done].
        apply bind_Ret in Hdis as (u & Hb%throw_when_Ret & _).
        apply orb_false_iff in Hb as [Hid%negb_false_iff%Z.eqb_eq
          Hst%negb_false_iff%bool_decide_eq_true].
        apply (cluster_complete c n (mkServer s disk) p); [done|done|simpl; congruence|].
        simpl. rewrite <-Hid, <-Hst. by destruct completion.
    - destruct (move_adjusted _ _ _ _ _ Hm Hne) as [Ha ->].
      exists (update c n (mkServer s1 disk) []), []. split_and!; try done; [|by rewrite app_nil_r].
      apply rtc_once. by apply (cluster_adjust c n (mkServer s disk)). }
  destruct (IH s1 (out ++ es1) c1 Hp) as (c2 & es2 & H2 & -> & Hsv2 & Hnet2).
  - intros e He. destruct (Hallowed e) as [?|[?|?]]; [set_solver|by left| |by right; right].
    right. left. rewrite Hnet. set_solver.
  - by rewrite Hsv, lookup_insert_eq.
  - exists c2, (es1 ++ es2). split_and!; [by etrans|by rewrite app_assoc| |].
    + by rewrite Hsv2, Hsv, insert_insert_eq.
    + by rewrite Hnet2, Hnet, omap_app, app_assoc.
Qed.

(** The Figure 2 events of an input, whatever the core. *)
Definition triggers (i : Input) (e : Event) : Prop :=
  match e with
  | ElectionTimeout | HeartbeatTimeout | ObserveTerm _ | Figure2.ReceiveAppendEntriesResponse _ _
  | Figure2.ReceiveAppendEntries _ _ | Figure2.ReceiveClientCommand _ => True
  | ApplyCommitted => False
  | Figure2.ReceiveRequestVote from q => i = ReceiveRequestVote from q
  | Figure2.ReceiveRequestVoteResponse from q => i = ReceiveRequestVoteResponse from q
  | Figure2.HardStatePersisted completion => i = HardStatePersisted completion
  end.

Lemma reaction_triggers c i e : mv_event e ∈ reaction c i → triggers i e.
Proof.
  assert (∀ w s from q, mv_event e ∈ snapshot_moves w s from q → ∃ t, e = ObserveTerm t) as Hsnap.
  { intros w s from q. unfold snapshot_moves. repeat case_match; set_solver. }
  destruct i; unfold reaction; intros Hin; repeat case_match;
    repeat apply elem_of_cons in Hin as [Hin|Hin]; set_solver.
Qed.

(** One call of [step] on a server. *)
Lemma core_step_simulated cc c n sv i o core :
  simulated cc c → cc_servers cc !! n = Some sv → step i (cs_core sv) = (o, core) →
  (∀ e, triggers i e → free_event e ∨ (n, e) ∈ cl_network c ∨
     ∃ completion, e = Figure2.HardStatePersisted completion ∧ hsp_state completion = cs_disk sv) →
  ∃ c', cluster_steps c c' ∧
    simulated (core_update cc n (mkCoreServer core (cs_disk sv)) (core_sends n o)) c'.
Proof.
  intros [Hservers Hdef Hnet Hmsg] Hn Hstep Htrig.
  destruct (step_reacts _ _ _ _ Hstep) as (made & out & Hpre & _ & Hev & Hrel).
  destruct (moves_cluster _ _ _ _ _ n (cs_disk sv) c Hev) as (c' & es & Hsteps & -> & Hsv' & Hnet').
  { intros e He. apply Htrig, (reaction_triggers (cs_core sv)). destruct Hpre as [rest ->]. set_solver. }
  { by rewrite Hservers, lookup_fmap, Hn. }
  assert (∀ e v m, vote_of e = Some v →
      (∃ r, o = Ret r ∧ e ∈ sr_effects r) ∨ e ∈ log_deferred core →
      message_of n v = Some m → m ∈ cl_network c') as Hsent.
  { intros e v m Hv Hin Hm. rewrite Hnet'. destruct (Hrel e v Hv Hin) as [Hd|Ho].
    - apply elem_of_app. left. by eapply Hdef.
    - apply elem_of_app. right. apply list_elem_of_omap. eauto. }
  exists c'. split; [done|]. split.
  - rewrite Hsv', Hservers. simpl. by rewrite fmap_insert.
  - simpl. intros n' sv' e v m [[<- <-]|[Hne Hn']]%lookup_insert_Some Hin Hv Hm.
    + eapply Hsent; eauto.
    + rewrite Hnet'. apply elem_of_app. left. by eapply Hdef.
  - simpl. intros to from resp [Hin|Hin]%elem_of_app.
    + rewrite Hnet'. apply elem_of_app. left. by apply Hnet.
    + destruct o as [r|x]; [|set_solver]. simpl in Hin.
      apply list_elem_of_omap in Hin as (e & He & Hi). destruct e; simplify_eq/=.
      apply (Hsent (SendRequestVoteResponse to resp) (Figure2.SendRequestVoteResponse to resp));
        [done|left; eauto|done].
  - simpl. intros to i' [Hin|Hin]%elem_of_app; [by eauto|].
    destruct o as [r|x]; [|set_solver]. simpl in Hin.
    apply list_elem_of_omap in Hin as (e & He & Hi). by destruct e; simplify_eq/=.
Qed.

Lemma free_input_triggers i e : free_input i → triggers i e → free_event e.
Proof.
  destruct e; simpl; try done; try (intros Hf Hi; subst; done).
Qed.

Lemma core_cluster_step_simulated cc cc' c :
  simulated cc c → core_cluster_step cc cc' → ∃ c', cluster_steps c c' ∧ simulated cc' c'.
Proof.
  intros Hsim Hstep. destruct Hstep as [n sv i o core Hn Hi Hs|n sv i o core Hn Hi Hs|n sv p Hn Hp
    |n sv completion o core Hn Hd Hs|n sv core Hn Hb].
  - eapply core_step_simulated; try done. intros e He. left. by eapply free_input_triggers.
  - eapply core_step_simulated; try done. intros e He. destruct e; try (by left); simpl in He; subst i.
    + right. left. by apply (sim_network _ _ Hsim).
    + exfalso. by eapply (sim_messages _ _ Hsim).
  - exists (update c n (mkServer (co_state (cs_core sv)) (phs_state (pd_request p))) []).
    destruct Hsim as [Hservers Hdef Hnet Hmsg]. split.
    + apply rtc_once. apply (cluster_write c n (abstract_server sv)); [|done].
      by rewrite Hservers, lookup_fmap, Hn.
    + split; simpl; rewrite ?app_nil_r; try done.
      * by rewrite Hservers, fmap_insert.
      * intros n' sv' e v m [[<- <-]|[Hne Hn']]%lookup_insert_Some; simpl; eauto.
  - eapply core_step_simulated; try done. intros e He.
    destruct e; try (by left); simpl in He; simplify_eq.
    right. right. eauto.
  - destruct Hsim as [Hservers Hdef Hnet Hmsg].
    destruct (booted_state _ _ _ _ Hb) as (snapshot & log & applied & Hst & Hnone).
    exists (update c n (mkServer (co_state core) (cs_disk sv)) []). split.
    + apply rtc_once. apply (cluster_restart c n (abstract_server sv)).
      * by rewrite Hservers, lookup_fmap, Hn.
      * rewrite Hst. split_and!; try done; simpl. by destruct (cs_disk sv).
    + split; simpl; rewrite ?app_nil_r; try done.
      * by rewrite Hservers, fmap_insert.
      * intros n' sv' e v m [[<- <-]|[Hne Hn']]%lookup_insert_Some; simpl; [|by eauto].
        rewrite Hnone. set_solver.
Qed.

Lemma core_cluster_steps_simulated cc cc' c :
  simulated cc c → core_cluster_steps cc cc' → ∃ c', cluster_steps c c' ∧ simulated cc' c'.
Proof.
  intros Hsim Hs. revert c Hsim. induction Hs as [cc|cc1 cc2 cc3 H12 _ IH]; intros c Hsim.
  - exists c. split; [apply rtc_refl|done].
  - destruct (core_cluster_step_simulated _ _ _ Hsim H12) as (c2 & H2 & Hsim2).
    destruct (IH _ Hsim2) as (c3 & H3 & Hsim3). exists c3. split; [by etrans|done].
Qed.

Lemma core_initial_simulated members cc :
  core_initial members cc →
  ∃ c, initial members c ∧ simulated cc c.
Proof.
  intros [Hnd Hsv Hnet]. exists (mkCluster (abstract_server <$> cc_servers cc) []). split.
  - split; [done| |done]. intros n sv (sv0 & <- & Hn)%lookup_fmap_Some.
    destruct (Hsv n sv0 Hn) as (peers & Hp & Hb).
    destruct (booted_state _ _ _ _ Hb) as (snapshot & log & applied & Hst & _).
    split_and!; simpl; rewrite Hst; try done. unfold hard_state, current_term, voted_for. simpl.
    by destruct (cs_disk sv0).
  - split; simpl; try done.
    + intros n sv e v m Hn Hin. destruct (Hsv n sv Hn) as (peers & _ & Hb).
      destruct (booted_state _ _ _ _ Hb) as (? & ? & ? & _ & Hnone). rewrite Hnone in Hin. set_solver.
    + rewrite Hnet. set_solver.
    + rewrite Hnet. set_solver.
Qed.

(** ** Election safety of the core *)

Lemma simulated_leads cc c n t : simulated cc c → core_leads cc n t → leads c n t.
Proof.
  intros [Hservers _ _ _] (sv & Hn & Hr & Ht). exists (abstract_server sv).
  by rewrite Hservers, lookup_fmap, Hn.
Qed.

(** ** Executing a schedule *)

Inductive core_action :=
| act_input (n : Z) (i : Input)
| act_deliver (k : nat)
| act_write (n : Z)
| act_complete (n : Z)
| act_restart (n : Z) (cf : Config) (rc : Recovered) (seed : Z).

Definition core_feed (c : CoreCluster) (n : Z) (sv : CoreServer) (i : Input) : CoreCluster :=
  let '(o, core) := step i (cs_core sv) in
  core_update c n (mkCoreServer core (cs_disk sv)) (core_sends n o).

Definition boot (self : Z) (peers : list Z) (cf : Config) (rc : Recovered) (seed : Z)
    : option Core :=
  match construct self peers cf rc seed with
  | Ret core0 => match start core0 with (Ret _, core) => Some core | (Throw _, _) => None end
  | Throw _ => None
  end.

#[export] Instance free_input_dec i : Decision (free_input i).
Proof. destruct i; apply _. Defined.

Definition core_exec (c : CoreCluster) (a : core_action) : option CoreCluster :=
  match a with
  | act_input n i =>
      sv ← cc_servers c !! n; if decide (free_input i) then Some (core_feed c n sv i) else None
  | act_deliver k =>
      '(n, i) ← cc_network c !! k; sv ← cc_servers c !! n; Some (core_feed c n sv i)
  | act_write n =>
      sv ← cc_servers c !! n;
      p ← st_pending_hard_state (co_state (cs_core sv));
      Some (core_update c n (mkCoreServer (cs_core sv) (phs_state (pd_request p))) [])
  | act_complete n =>
      sv ← cc_servers c !! n;
      p ← st_pending_hard_state (co_state (cs_core sv));
      Some (core_feed c n sv (HardStatePersisted
        (mkHardStatePersisted (phs_request_id (pd_request p)) (cs_disk sv))))
  | act_restart n cf rc seed =>
      sv ← cc_servers c !! n;
      if decide (rc_hard_state rc = cs_disk sv) then
        core ← boot (st_node (co_state (cs_core sv))) (st_peers (co_state (cs_core sv))) cf rc seed;
        Some (core_update c n (mkCoreServer core (cs_disk sv)) [])
      else None
  end.

Fixpoint core_exec_all (c : CoreCluster) (l : list core_action) : option CoreCluster :=
  match l with
  | [] => Some c
  | a :: l' => c' ← core_exec c a; core_exec_all c' l'
  end.

Lemma boot_booted self peers cf rc seed core :
  boot self peers cf rc seed = Some core → booted self peers (rc_hard_state rc) core.
Proof.
  unfold boot, booted. destruct (construct _ _ _ _ _) as [core0|] eqn:Hc; [|done].
  destruct (start core0) as [[r|] core'] eqn:Hs; [|done]. intros [= <-].
  exists cf, rc, seed, core0, r. done.
Qed.

Lemma core_exec_sound c a c' : core_exec c a = Some c' → core_cluster_step c c'.
Proof.
  unfold core_exec, core_feed. destruct a as [n i|k|n|n|n cf rc seed].
  - intros (sv & Hn & Hd)%bind_Some. case_decide as Hf; [|done]. injection Hd as <-.
    destruct (step i (cs_core sv)) as [o core] eqn:Hs. by eapply core_local.
  - intros ([n i] & Hk & (sv & Hn & [= <-])%bind_Some)%bind_Some.
    destruct (step i (cs_core sv)) as [o core] eqn:Hs. eapply core_deliver; [done| |done].
    by eapply list_elem_of_lookup_2.
  - intros (sv & Hn & (p & Hp & [= <-])%bind_Some)%bind_Some. by apply core_write.
  - intros (sv & Hn & (p & Hp & [= <-])%bind_Some)%bind_Some.
    destruct (step _ (cs_core sv)) as [o core] eqn:Hs. by eapply core_complete; [..|exact Hs].
  - intros (sv & Hn & Hd)%bind_Some. case_decide as Hf; [|done].
    apply bind_Some in Hd as (core & Hb & [= <-]). eapply core_restart; [done|].
    rewrite <-Hf. by eapply boot_booted.
Qed.

Lemma core_exec_all_sound c l c' : core_exec_all c l = Some c' → core_cluster_steps c c'.
Proof.
  revert c. induction l as [|a l IH]; intros c; simpl; [intros [= ->]; apply rtc_refl|].
  intros (c1 & Ha & Hl%IH)%bind_Some. eapply rtc_l; [by eapply core_exec_sound|done].
Qed.

(** ** The theorem *)

(** C5: Election safety of the program's core: in any execution of a cluster of
    [Core] objects, constructed from what their disks hold and started, over a
    network that loses, duplicates, reorders and invents messages other than
    granted votes, with hard-state writes completing at arbitrary times, snapshot
    installation, reads and compaction interleaved at will, steps that throw and
    crashes with restarts, no two servers are ever leader of the same term. *)
Theorem core_election_safety (members : list Z) (cc0 cc1 cc2 : CoreCluster) (n1 n2 t : Z) :
  core_initial members cc0 → core_cluster_steps cc0 cc1 → core_cluster_steps cc1 cc2 →
  core_leads cc1 n1 t → core_leads cc2 n2 t → n1 = n2.
Proof.
  intros Hinit H01 H12 Hl1 Hl2.
  destruct (core_initial_simulated _ _ Hinit) as (c0 & Hi & Hsim0).
  destruct (core_cluster_steps_simulated _ _ _ Hsim0 H01) as (c1 & Hs1 & Hsim1).
  destruct (core_cluster_steps_simulated _ _ _ Hsim1 H12) as (c2 & Hs2 & Hsim2).
  destruct (initial_inv _ _ Hi) as [V0 Hinv0].
  destruct (cluster_steps_inv _ _ _ _ Hinv0 Hs1) as (V1 & _ & Hinv1).
  destruct (cluster_steps_inv _ _ _ _ Hinv1 Hs2) as (V2 & Hsub & Hinv2).
  apply (inv_one_leader members V1 V2 c1 c2 n1 n2 t); try done; by eapply simulated_leads.
Qed.

(** Three cores, an election won by the first with the vote of the second, and a
    crash of the second. *)
Definition demo_config : Config := mkConfig (mkTimeouts 10 20) 2 128 4096 67108864 1024.
Definition demo_recovered : Recovered := mkRecovered (mkHardState 0 None) [] 0 None.

Definition demo_core (self : Z) (peers : list Z) : Core :=
  default (initial_core demo_config (initial_state self peers (mkHardState 0 None) None [] 0) 0 None)
    (boot self peers demo_config demo_recovered self).

Definition three_cores : CoreCluster :=
  mkCoreCluster
    {[1 := mkCoreServer (demo_core 1 [2; 3]) (mkHardState 0 None);
      2 := mkCoreServer (demo_core 2 [1; 3]) (mkHardState 0 None);
      3 := mkCoreServer (demo_core 3 [1; 2]) (mkHardState 0 None)]} [].

Definition core_election : list core_action :=
  [act_input 1 (ElectionDeadline 1); act_write 1; act_complete 1;
   act_deliver 0; act_write 2; act_complete 2; act_write 2; act_complete 2; act_deliver 2;
   act_restart 2 demo_config (mkRecovered (mkHardState 1 (Some 1)) [] 0 None) 7].

Definition core_elected : CoreCluster := default three_cores (core_exec_all three_cores core_election).

Lemma three_cores_initial : core_initial [1; 2; 3] three_cores.
Proof.
  split; [by apply (bool_decide_unpack _); vm_compute| |done].
  assert (∀ self peers, is_Some (boot self peers demo_config demo_recovered self) →
    booted self peers (mkHardState 0 None) (demo_core self peers)) as Hboot.
  { intros self peers [core Hc]. unfold demo_core. rewrite Hc. by apply boot_booted in Hc. }
  apply map_Forall_insert_2; [exists [2; 3]|apply map_Forall_insert_2;
    [exists [1; 3]|apply map_Forall_singleton; exists [1; 2]]];
    (split; [solve_Permutation|apply Hboot; eexists; vm_compute; reflexivity]).
Qed.

Lemma core_elected_steps : core_cluster_steps three_cores core_elected.
Proof. apply (core_exec_all_sound _ core_election). vm_compute. reflexivity. Qed.

Lemma core_elected_leads : core_leads core_elected 1 1.
Proof. eexists. split; [vm_compute; reflexivity|]. split; vm_compute; reflexivity. Qed.

Lemma core_election_safety_witness : core_leads core_elected 1 1 ∧ 1 = 1.
Proof.
  split; [apply core_elected_leads|].
  apply (core_election_safety [1; 2; 3] three_cores core_elected core_elected 1 1 1);
    [apply three_cores_initial|apply core_elected_steps|apply rtc_refl|
     apply core_elected_leads|apply core_elected_leads].
Defined.
