(* ===== verification/RaftCoreInv.v ===== *)
(** * The invariant of a running core

    [core_ok] collects what holds between the calls of [Core::step]: the
    specification state is valid; a leader has a heartbeat timer, whoever is not
    leader has an election timer armed or about to be, or may have lost its
    deadline; pending reads belong to the current leadership; the entry being
    applied is the next committed one; a pending log write is of the current log; a
    snapshot being written or restored fits the state it will replace. *)

From S2P Require Import Prelude OrdMap Bytes StoreTypes RaftTypes Codec RaftMessages Figure2.
From S2P Require Import Figure2Votes Figure2Log Figure2Steps Figure2Effects.
From S2P Require Import RaftCore RaftCoreFrames RaftCoreTranslate.
Import election.
#[local] Open Scope Z_scope.

(** ** The parts of the invariant *)

(** [lost] says that a deadline may have been lost. *)
Record timers_ok (lost : Prop) (s : State) (t : Timers) : Prop := {
  tk_leader : st_role s = role_leader → is_Some (tm_heartbeat_timer t);
  tk_candidate : st_role s = role_candidate →
    is_Some (tm_election_timer t) ∨ ResetElectionTimer ∈ held s;
  tk_other : st_role s ≠ role_leader →
    is_Some (tm_election_timer t) ∨ ResetElectionTimer ∈ held s ∨ lost }.

(** The members that may acknowledge. *)
Definition cluster_members (s : State) : gset Z := {[st_node s]} ∪ list_to_set (st_peers s).

Record read_ok (s : State) (d : Reads) (context : Z) (p : PendingRead) : Prop := {
  ro_role : st_role s = role_leader;
  ro_context : 1 ≤ context < rd_next_read_context d;
  ro_index : pr_read_index p ≤ st_commit_index s;
  ro_self : st_node s ∈ pr_acknowledgements p;
  ro_members : pr_acknowledgements p ⊆ cluster_members s;
  ro_quorum : pr_quorum_confirmed p = true → majority s ≤ Z.of_nat (size (pr_acknowledgements p));
  ro_request : rd_pending_read_requests d !! pr_request p = Some context;
  ro_used : pr_request p ∈ rd_used_read_requests d }.

Record reads_ok (s : State) (d : Reads) : Prop := {
  rk_pending : ∀ context p, rd_pending_reads d !! context = Some p → read_ok s d context p;
  rk_requests : ∀ request context, rd_pending_read_requests d !! request = Some context →
    ∃ p, rd_pending_reads d !! context = Some p ∧ pr_request p = request;
  rk_next : 1 ≤ rd_next_read_context d }.

Definition application_ok (s : State) (w : LogWork) : Prop :=
  ∀ p, lw_pending_application w = Some p →
    st_last_applied s < st_commit_index s ∧
    entry_at s (st_last_applied s + 1) = Some (ap_entry (pa_request p)).

(** Effects that may wait for the log: no further log request, no answer to a read
    and no application. *)
Definition deferrable (e : Effect) : Prop :=
  match e with
  | PersistLog _ | ReadIndexResponse _ _ | ApplyLogEntry _ => False
  | _ => True
  end.

Definition log_work_ok (s : State) (w : LogWork) (sw : SnapshotWork) : Prop :=
  ∀ p, lw_pending_log w = Some p →
    pl_log (lp_request p) = log_of s ∧ (Figure2.PersistLog ∉ held s) ∧
    (∀ e, e ∈ lp_deferred_effects p → deferrable e) ∧
    sw_pending_snapshot sw = None ∧ sw_pending_snapshot_restore sw = None.

(** A snapshot that may replace the prefix of the log. *)
Record metadata_ok (s : State) (m : SnapshotMetadata) : Prop := {
  mk_index : 0 < sm_last_included_index m < u64_max;
  mk_term : sm_last_included_term m ≠ 0 ∧ sm_last_included_term m ≤ current_term s }.

(** One received from a leader reaches beyond what is applied. *)
Record remote_ok (s : State) (m : SnapshotMetadata) : Prop := {
  rm_metadata : metadata_ok s m;
  rm_beyond : st_last_applied s < sm_last_included_index m;
  rm_role : st_role s = role_follower }.

(** One created locally is of the applied entry. *)
Record local_ok (s : State) (m : SnapshotMetadata) : Prop := {
  lc_metadata : metadata_ok s m;
  lc_index : sm_last_included_index m = st_last_applied s;
  lc_beyond : snapshot_base s < sm_last_included_index m;
  lc_term : applied_term s (sm_last_included_index m) = Ret (sm_last_included_term m) }.

Record snapshots_ok (s : State) (w : SnapshotWork) : Prop := {
  sk_durable : sn_metadata <$> sw_durable_snapshot w = ps_snapshot (st_persistent s);
  sk_pending : ∀ p, sw_pending_snapshot w = Some p →
    if sp_local_creation p then local_ok s (sn_metadata (sp_snapshot p))
    else remote_ok s (sn_metadata (sp_snapshot p)) ∧ is_Some (sp_reply_to p) ∧
         is_Some (sp_response p);
  sk_restore : ∀ p, sw_pending_snapshot_restore w = Some p →
    remote_ok s (sn_metadata (rs_snapshot p));
  sk_one : sw_pending_snapshot w = None ∨ sw_pending_snapshot_restore w = None }.

(** A snapshot request is set aside only while a hard state is being written: that
    of its own term, for which nothing else waits, or that of an earlier term. *)
Definition install_ok (s : State) (w : SnapshotWork) : Prop :=
  ∀ from q, sw_install_after_hard_state w = Some (from, q) →
    is_Some (st_pending_hard_state s) ∧ (held s = [] ∨ current_term s < is_term q) ∧
    0 ≤ sm_last_included_index (is_metadata q) < u64_max.

(** Everything but the timers and the request set aside. *)
Record core_base (c : Core) : Prop := {
  cb_server : server_ok (co_state c);
  cb_size : (2 ≤ length (st_peers (co_state c)))%nat;
  cb_role : st_role (co_state c) ≠ role_learner;
  cb_voter : voter_ok (co_state c);
  cb_dated : dated (log_of (co_state c));
  cb_held : Figure2.PersistLog ∈ held (co_state c) → log_first (held (co_state c));
  cb_reads : reads_ok (co_state c) (co_reads c);
  cb_application : application_ok (co_state c) (co_log_work c);
  cb_log : log_work_ok (co_state c) (co_log_work c) (co_snapshots c);
  cb_snapshots : snapshots_ok (co_state c) (co_snapshots c);
  cb_steady : steady (co_state c) }.

Record core_ok (lost : Prop) (c : Core) : Prop := {
  ck_base : core_base c;
  ck_timers : timers_ok lost (co_state c) (co_timers c);
  ck_install : install_ok (co_state c) (co_snapshots c) }.
#[global] Arguments ck_base {_} _ _.
#[global] Arguments ck_timers {_} _ _.
#[global] Arguments ck_install {_} _ _.

Lemma timers_ok_weaken (lost lost' : Prop) s t : (lost → lost') → timers_ok lost s t → timers_ok lost' s t.
Proof. intros Hl [? ? Ho]. split; try done. intros Hr. destruct (Ho Hr) as [?|[?|?]]; auto. Qed.

Lemma core_ok_weaken (lost lost' : Prop) c : (lost → lost') → core_ok lost c → core_ok lost' c.
Proof. intros Hl [? ? ?]. split; [done|by eapply timers_ok_weaken|done]. Qed.

(** No write of the log or of a snapshot is pending. *)
Record idle (c : Core) : Prop := {
  id_log : lw_pending_log (co_log_work c) = None;
  id_snapshot : sw_pending_snapshot (co_snapshots c) = None;
  id_restore : sw_pending_snapshot_restore (co_snapshots c) = None }.

(** No write of a snapshot is pending, nor one of the log that the result of a
    step would run into. *)
Definition room_for (c : Core) (fr : Figure2.StepResult) : Prop :=
  sw_pending_snapshot (co_snapshots c) = None ∧ sw_pending_snapshot_restore (co_snapshots c) = None ∧
  (lw_pending_log (co_log_work c) = None ∨
   (Figure2.PersistLog ∉ res_effects fr) ∧ Figure2.PersistLog ∉ held (res_state fr)).

Lemma idle_room c fr : idle c → room_for c fr.
Proof. intros []. split_and!; auto. Qed.

(** ** A Figure 2 step *)

Lemma majority_big s : (2 ≤ length (st_peers s))%nat → 2 ≤ majority s.
Proof.
  intros Hl. unfold majority. pose proof (Z.div_le_mono 3 (Z.of_nat (length (st_peers s)) + 1) 2).
  change (3 / 2) with 1 in *. lia.
Qed.

(** What the invariant needs of a transition of the specification state with its
    effects. *)
Record advances (s : State) (fr : Figure2.StepResult) : Prop := {
  av_server : server_ok (res_state fr);
  av_log : log_step s (res_state fr);
  av_applied : st_last_applied (res_state fr) = st_last_applied s;
  av_learner : st_role (res_state fr) = role_learner → st_role s = role_learner;
  av_voter : voter_ok (res_state fr);
  av_steady : steady (res_state fr);
  av_candidate : st_role (res_state fr) = role_candidate →
    st_role s = role_candidate ∨ ResetElectionTimer ∈ held (res_state fr);
  av_dated : dated (log_of (res_state fr));
  av_node : st_node (res_state fr) = st_node s;
  av_peers : st_peers (res_state fr) = st_peers s;
  av_effects : Figure2.PersistLog ∈ res_effects fr → log_first (res_effects fr);
  av_held : Figure2.PersistLog ∈ held (res_state fr) → log_first (held (res_state fr));
  av_reset : ResetElectionTimer ∈ held s →
    ResetElectionTimer ∈ res_effects fr ∨ ResetElectionTimer ∈ held (res_state fr);
  av_lead : st_role (res_state fr) = role_leader → st_role s ≠ role_leader →
    st_role s = role_candidate ∧ held s = [];
  av_stay : st_role s = role_leader → st_role (res_state fr) = role_leader →
    current_term (res_state fr) = current_term s;
  av_once : Figure2.PersistLog ∈ res_effects fr → Figure2.PersistLog ∉ held (res_state fr);
  av_quiet : Figure2.PersistLog ∉ res_effects fr → Figure2.PersistLog ∉ held (res_state fr) →
    log_of (res_state fr) = log_of s ∧ Figure2.PersistLog ∉ held s;
  av_relies : ∀ pre e post, res_effects fr = pre ++ e :: post → relies_on_log e →
    Figure2.PersistLog ∉ pre →
    (Figure2.PersistLog ∉ res_effects fr) ∧ Figure2.PersistLog ∉ held (res_state fr) }.

Lemma log_first_app_l es es' : log_first (es ++ es') → Figure2.PersistLog ∈ es → log_first es.
Proof.
  intros (pre & post & Heq & Hpre & H1 & H2) Hin.
  apply app_eq_inv in Heq as [(k & -> & Hk)|(k & -> & Hk)].
  - destruct k as [|x k]; [rewrite app_nil_r in Hin; done|]. injection Hk as <- ->.
    exists pre, k. split_and!; try done. set_solver.
  - set_solver.
Qed.

Lemma log_first_app_r es es' : log_first (es ++ es') → Figure2.PersistLog ∈ es' → log_first es'.
Proof.
  intros (pre & post & Heq & Hpre & H1 & H2) Hin.
  apply app_eq_inv in Heq as [(k & -> & Hk)|(k & -> & Hk)].
  - destruct k as [|x k].
    + simpl in Hk. subst es'. exists [], post. split_and!; [done|constructor|set_solver|done].
    + injection Hk as <- ->. set_solver.
  - exists k, post. apply Forall_app in Hpre as [_ Hpre]. split_and!; try done. set_solver.
Qed.

(** A message that relies on the log before the request cannot be. *)
Lemma log_first_relies es pre e post :
  log_first es → es = pre ++ e :: post → relies_on_log e → Figure2.PersistLog ∉ pre → False.
Proof.
  intros (a & b & -> & Ha & H1 & H2) Heq He Hpre.
  apply app_eq_inv in Heq as [(k & -> & Hk)|(k & -> & Hk)].
  - destruct k as [|x k]; [by simplify_eq/=|]. injection Hk as <- ->.
    apply Forall_app in Ha as [_ Ha]. by inversion Ha.
  - destruct k as [|x k]; [by simplify_eq/=|]. injection Hk as <- ->. set_solver.
Qed.

Lemma held_none s : st_pending_hard_state s = None → held s = [].
Proof. unfold held. by intros ->. Qed.

Lemma step_advances s e fr :
  Figure2.step s e = Ret fr → server_ok s → event_fits s e → event_dated e → e ≠ ApplyCommitted →
  voter_ok s → steady s → dated (log_of s) → (Figure2.PersistLog ∈ held s → log_first (held s)) →
  (2 ≤ length (st_peers s))%nat → advances s fr.
Proof.
  intros Hstep Hok Hfit Hdat Ha Hv Hst Hd Hh Hsz.
  assert (majority s ≠ 1) as Hmaj by (pose proof (majority_big _ Hsz); lia).
  pose proof (step_steady _ _ _ Hstep Ha (ok_self _ (gd_ok _ (so_good _ Hok))) Hmaj Hst) as [Hst' Hcd].
  destruct (step_ok _ _ _ Hok Hfit Hstep) as (Hok' & Hls & Hf).
  destruct (step_dated _ _ _ Hstep Ha Hdat Hv Hd) as [Hv' Hd'].
  destruct (step_step_logged _ _ _ Hstep Ha) as [_ Happ Hlrn Hlog].
  pose proof (step_pending _ _ _ Hstep) as Hc. pose proof (step_unchecked _ _ _ Hstep) as Hun.
  assert (Figure2.PersistLog ∈ res_effects fr ++ held (res_state fr) →
    log_first (res_effects fr ++ held (res_state fr))) as Hfirst.
  { intros Hin. cbv zeta in Hlog. destruct (is_completion e).
    - destruct Hlog as [Et _]. rewrite Et in *. auto.
    - by destruct Hlog as [_ [[_ ?]|?]]. }
  assert (st_node (res_state fr) = st_node s ∧ st_peers (res_state fr) = st_peers s ∧
    (st_role (res_state fr) = role_leader → st_role s ≠ role_leader →
     st_role s = role_candidate ∧ held s = []) ∧
    (ResetElectionTimer ∈ held s → ResetElectionTimer ∈ res_effects fr ++ held (res_state fr)) ∧
    (st_role s = role_leader → st_role (res_state fr) = role_leader →
     current_term (res_state fr) = current_term s) ∧
    (Figure2.PersistLog ∉ res_effects fr ++ held (res_state fr) →
     log_of (res_state fr) = log_of s ∧ Figure2.PersistLog ∉ held s))
    as (En & Ep & Hlead & Hreset & Hstay & Hquiet).
  { destruct (st_pending_hard_state s) as [p|] eqn:Hp.
    - destruct e; try done. destruct (unchecked_completion _ _ _ _ Hok Hp Hun)
        as (_ & _ & (? & ? & Er & ? & _) & _). simpl in Hlog. destruct Hlog as [-> ?].
      split_and!; try done. congruence.
    - rewrite (held_none s) by done.
      destruct (unchecked_input _ _ _ Hok Hp Hfit Hc Hun)
        as (_ & _ & _ & (s1 & [] & (? & ? & Er & Et & _))).
      pose proof (majority_big _ Hsz) as Hbig.
      split_and!; try done; try congruence; [|intros ?%elem_of_nil; done| |].
      + rewrite Er. intros Hl Hl'. destruct (vs_leader Hl) as [[? _]|[?|(? & _)]]; [done|lia|done].
      + rewrite Er, Et. intros Hl Hl'.
        destruct (vs_leader Hl') as [[_ ?]|[?|(? & _)]]; [done|lia|congruence].
      + cbv zeta in Hlog. rewrite Hc in Hlog. rewrite bool_decide_false in Hlog by (intros []; congruence).
        destruct Hlog as [_ [[? _]|(a & b & Heq & _)]]; [set_solver|]. rewrite Heq. set_solver. }
  split; try done.
  - intros Hin. eapply log_first_app_l; [apply Hfirst; set_solver|done].
  - intros Hin. eapply log_first_app_r; [apply Hfirst; set_solver|done].
  - intros Hin. by apply elem_of_app, Hreset.
  - intros Hin Hin'. destruct Hfirst as (a & b & Heq & _ & H1 & H2); [set_solver|].
    apply app_eq_inv in Heq as [(k & E & Hk)|(k & E & Hk)];
      [|apply H1; rewrite E; apply elem_of_app; by left].
    destruct k as [|x k]; [rewrite E, app_nil_r in Hin; done|]. injection Hk as _ E'.
    apply H2. rewrite E'. apply elem_of_app. by right.
  - intros H1 H2. apply Hquiet. set_solver.
  - intros pre e' post Heq He Hpre.
    assert (Figure2.PersistLog ∉ res_effects fr ++ held (res_state fr)) as Hno; [|set_solver].
    intros Hin. apply (log_first_relies _ pre e' (post ++ held (res_state fr)) (Hfirst Hin)); [|done..].
    by rewrite Heq, <-app_assoc.
Qed.

Lemma follow_advances from s :
  server_ok s → voter_ok s → dated (log_of s) → (Figure2.PersistLog ∈ held s → log_first (held s)) →
  advances s (mkResult (follow from s) [] [ResetElectionTimer]).
Proof.
  intros [Hg Hc Hp] [Hv0 Hv] Hd Hh. split; simpl; try done.
  - split; [by apply good_role|done|done].
  - by apply same_log_step.
  - split; [done|]. by intros [?|?].
  - assert (passive (follow from s)) as Hpas by by apply follower_passive.
    split; [by left|]. intros _. by left.
  - intros [?|?]%elem_of_cons; [done|set_solver].
  - set_solver.
  - intros [?|?]%elem_of_cons; [done|set_solver].
  - intros pre e post Heq He. destruct pre as [|x [|]]; [by injection Heq as <- _|done|done].
Qed.

(** The entry [schedule_application] takes. *)
Lemma log_at_entry s entry :
  good s → st_last_applied s < st_commit_index s →
  log_at (log_of s) (u64 (st_last_applied s + 1 - snapshot_base s - 1)) = Ret entry →
  entry_at s (st_last_applied s + 1) = Some entry.
Proof.
  intros [[] [] Hroom] Hlt. rewrite u64_small by lia. unfold log_at, entry_at.
  destruct (Z.ltb_spec (snapshot_base s) (st_last_applied s + 1)); [|lia].
  destruct (log_of s !! _) as [x|] eqn:Hx; [|done]. by intros [= <-].
Qed.

Lemma scheduled_ok s w w' :
  good s → scheduled s w w' → application_ok s w → application_ok s w'.
Proof.
  intros Hg [Heq|(Hn & id & entry & Hs & Hlt & Hat)] Hok p Hp.
  - apply Hok. congruence.
  - rewrite Hs in Hp. injection Hp as <-. split; [done|]. simpl. by apply log_at_entry.
Qed.

(** The next entry to apply is committed, so a step keeps it. *)
Lemma application_step s s' w :
  log_step s s' → st_last_applied s' = st_last_applied s →
  application_ok s w → application_ok s' w.
Proof.
  intros [_ L2 L3 _ _] Ha Hok p Hp. destruct (Hok p Hp) as [Hlt He]. rewrite Ha.
  split; [lia|]. by rewrite L3 by lia.
Qed.

Lemma majority_peers s s' : st_peers s' = st_peers s → majority s' = majority s.
Proof. unfold majority. by intros ->. Qed.

Lemma read_ok_step s s' d context p :
  st_role s' = role_leader → st_node s' = st_node s → st_peers s' = st_peers s →
  st_commit_index s ≤ st_commit_index s' → read_ok s d context p → read_ok s' d context p.
Proof.
  intros Hr Hn Hp Hc [R1 R2 R3 R4 R5 R6 R7 R8].
  split; try done; try lia; unfold cluster_members; rewrite ?Hn, ?Hp; try done.
  by rewrite (majority_peers s s') by done.
Qed.

(** Reads survive as long as leadership does. *)
Lemma reads_step s s' d d' :
  st_node s' = st_node s → st_peers s' = st_peers s → st_commit_index s ≤ st_commit_index s' →
  role_reads (st_role s) (st_role s') d d' → reads_ok s d → reads_ok s' d'.
Proof.
  intros Hn Hp Hc (Eu & Ec & Hd) [R1 R2 R3].
  destruct (bool_decide (st_role s = role_leader)) eqn:Hl;
    destruct (bool_decide (st_role s' = role_leader)) eqn:Hl'; simpl in Hd.
  - apply bool_decide_eq_true in Hl'. subst d'. split; try done. intros context p Hin.
    by apply (read_ok_step s); [..|apply R1].
  - destruct Hd as [E1 E2]. split; rewrite ?E1, ?E2, ?Ec; try done.
  - subst d'. split; try done. intros context p Hin. apply bool_decide_eq_false in Hl.
    by destruct (R1 _ _ Hin).
  - subst d'. split; try done. intros context p Hin. apply bool_decide_eq_false in Hl.
    by destruct (R1 _ _ Hin).
Qed.

(** ** Translation keeps the invariant *)

Lemma translated_base c fr r c' :
  core_base c → room_for c fr → advances (co_state c) fr →
  translated c fr (st_role (co_state c)) r c' → core_base c'.
Proof.
  intros [B1 B2 B3 B4 B5 B6 B7 B8 B9 B10 B11] (I2 & I3 & I1) A T.
  pose proof A as [A1 A2 A3 A4 A5 A0 _ A6 A7 A8 A9 A10 A11 A12 A13 A14 A15 A16].
  destruct (tl_snapshots _ _ _ _ _ T) as [S1 S2 S3 S4 S5].
  pose proof (so_good _ A1) as Hgood.
  split; rewrite ?(tl_state _ _ _ _ _ T); try done.
  - by rewrite A8.
  - auto.
  - eapply reads_step; [..|apply (tl_reads _ _ _ _ _ T)|done]; try done. by destruct A2.
  - eapply scheduled_ok; [done|apply (tl_application _ _ _ _ _ T)|].
    by eapply application_step.
  - intros p Hp. rewrite S1, S2. destruct (tl_log _ _ _ _ _ T) as [[_ E]|(Hin & _ & p' & E & Hl & Hsrc & Hno)];
      rewrite E in Hp.
    { destruct I1 as [I1|[N1 N2]]; [congruence|]. destruct (B9 _ Hp) as (L1 & _ & L3 & _).
      destruct (A15 N1 N2) as [-> _]. done. }
    injection Hp as <-. split_and!; auto.
    intros e He. pose proof (Hno (A9 Hin)) as Hno'.
    destruct (Hsrc e He) as [Ht|[fe Hr]]; [by destruct e; simpl in Ht; try done|].
    inversion Hr; subst; try done. by eapply Hno'.
  - destruct B10 as [K1 K2 K3]. split.
    + rewrite S4, K1. destruct A2 as [E _ _ _ _]. by rewrite E.
    + rewrite S1, I2. done.
    + rewrite S2, I3. done.
    + left. by rewrite S1.
Qed.

Lemma translated_timers lost c fr r c' :
  timers_ok lost (co_state c) (co_timers c) → advances (co_state c) fr →
  translated c fr (st_role (co_state c)) r c' → timers_ok lost (co_state c') (co_timers c').
Proof.
  intros [Hlead Hcand Helect] A T. pose proof (tl_election _ _ _ _ _ T) as Hel.
  assert (∀ P : Prop, is_Some (tm_election_timer (co_timers c)) ∨ ResetElectionTimer ∈ held (co_state c) ∨ P →
    st_role (res_state fr) ≠ role_leader →
    is_Some (tm_election_timer (co_timers c')) ∨ ResetElectionTimer ∈ held (res_state fr) ∨ P) as Hmove.
  { intros P [?|[Hin|?]] Hr; [left; by auto| |by auto].
    destruct (av_reset _ _ A Hin) as [?|?]; [left; by auto|by auto]. }
  split; rewrite (tl_state _ _ _ _ _ T); intros Hr.
  - apply (tl_heartbeat _ _ _ _ _ T); [done|]. case_decide as Hp; [by apply Hlead|].
    destruct (av_lead _ _ A Hr Hp) as [Hc Hnil].
    destruct (Hcand Hc) as [?|Hin]; [done|]. rewrite Hnil in Hin. set_solver.
  - destruct (av_candidate _ _ A Hr) as [Hc|?]; [|by right].
    destruct (Hmove False) as [?|[?|[]]]; [|congruence|by left|by right].
    destruct (Hcand Hc); auto.
  - destruct (decide (st_role (co_state c) = role_leader)) as [Hp|Hp]; [left; by auto|].
    apply Hmove; [by apply Helect|done].
Qed.
