(* ===== verification/RaftCoreKeep.v ===== *)
(** * Every call keeps the invariant

    [core_ok] is established by construction and [start] and kept by every call of
    [step], whether it returns or throws, unless a counter is used up. *)

From S2P Require Import Prelude OrdMap Bytes StoreTypes RaftTypes Codec RaftMessages Figure2.
From S2P Require Import Figure2Votes Figure2Log Figure2Steps Figure2Effects.
From S2P Require Import RaftCore RaftCoreFrames RaftCoreTranslate RaftCoreInv.
Import election.
#[local] Open Scope Z_scope.

(** ** Reads *)

Lemma foldl_delete_Some {A V} `{Countable K} (f : A → K) (l : list A) (m : gmap K V) k v :
  foldl (λ m x, delete (f x) m) m l !! k = Some v ↔ m !! k = Some v ∧ k ∉ f <$> l.
Proof.
  revert m. induction l as [|x l IH]; intros m; simpl; [set_solver|].
  rewrite IH, lookup_delete_Some. set_solver.
Qed.

(** Removing pending reads together with their requests. *)
Lemma reads_ok_remove s d d' (l : list (Z * PendingRead)) :
  (∀ kp, kp ∈ l → rd_pending_reads d !! kp.1 = Some kp.2) →
  rd_pending_reads d' = foldl (λ m kp, delete kp.1 m) (rd_pending_reads d) l →
  rd_pending_read_requests d' =
    foldl (λ m kp, delete (pr_request kp.2) m) (rd_pending_read_requests d) l →
  rd_used_read_requests d' = rd_used_read_requests d →
  rd_next_read_context d' = rd_next_read_context d →
  reads_ok s d → reads_ok s d'.
Proof.
  intros Hl Ep Eq Eu Ec [R1 R2 R3]. split; [| |by rewrite Ec].
  - intros context p. rewrite Ep, (foldl_delete_Some fst). intros [Hin Hno].
    destruct (R1 _ _ Hin) as [? ? ? ? ? ? Hreq ?]. split; try done; rewrite ?Ec, ?Eu; try done.
    rewrite Eq. apply (foldl_delete_Some (λ kp, pr_request kp.2)). split; [done|].
    intros ([k q] & Hk & Hkl)%list_elem_of_fmap. simpl in Hk. apply Hno.
    pose proof (Hl _ Hkl) as Hq. simpl in Hq. destruct (R1 _ _ Hq) as [_ _ _ _ _ _ Hreq' _].
    rewrite <-Hk, Hreq in Hreq'. injection Hreq' as ->. apply list_elem_of_fmap. by exists (k, q).
  - intros request context. rewrite Eq, (foldl_delete_Some (λ kp, pr_request kp.2)).
    intros [Hreq Hno]. destruct (R2 _ _ Hreq) as (p & Hp & <-). exists p. split; [|done].
    rewrite Ep. apply (foldl_delete_Some fst). split; [done|].
    intros ([k q] & Hk & Hkl)%list_elem_of_fmap. simpl in Hk. subst k. apply Hno.
    pose proof (Hl _ Hkl) as Hq. simpl in Hq. apply list_elem_of_fmap. exists (context, q).
    split; [simpl; congruence|done].
Qed.

Lemma ready_reads_pending c kp :
  kp ∈ ready_reads c → rd_pending_reads (co_reads c) !! kp.1 = Some kp.2.
Proof.
  unfold ready_reads. intros [_ Hin]%list_elem_of_filter. destruct kp as [k p].
  rewrite entries_perm in Hin. by apply elem_of_map_to_list in Hin.
Qed.

Lemma answered_ok c d' :
  answered (ready_reads c) (co_reads c) d' → reads_ok (co_state c) (co_reads c) →
  reads_ok (co_state c) d'.
Proof.
  intros [E1 E2 E3 E4 _]. apply (reads_ok_remove _ _ _ (ready_reads c)); try done.
  apply ready_reads_pending.
Qed.

Lemma acknowledged_ok s d context p from :
  reads_ok s d → rd_pending_reads d !! context = Some p → from ∈ st_peers s →
  reads_ok s (set_pending_reads (<[context := acknowledged s from p]> (rd_pending_reads d))
    (rd_pending_read_requests d) d).
Proof.
  intros [R1 R2 R3] Hp Hfrom. split; [| |done].
  - simpl. intros k q [[<- <-]|[Hne Hq]]%lookup_insert_Some; [|by destruct (R1 _ _ Hq); split].
    destruct (R1 _ _ Hp) as [P1 P2 P3 P4 P5 P6 P7 P8]. split; simpl; try done.
    + set_solver.
    + unfold cluster_members in *. set_solver.
    + intros [Hq|Hm%Z.leb_le]%orb_prop; [|done]. specialize (P6 Hq).
      assert (size (pr_acknowledgements p) ≤ size ({[from]} ∪ pr_acknowledgements p))%nat.
      { apply subseteq_size. set_solver. }
      lia.
  - simpl. intros request k Hreq. destruct (R2 _ _ Hreq) as (q & Hq & <-).
    destruct (decide (k = context)) as [->|Hne].
    + exists (acknowledged s from p). rewrite lookup_insert_eq. split; [done|]. simpl. congruence.
    + exists q. by rewrite lookup_insert_ne.
Qed.

Lemma new_read_ok s d request completed rejected :
  let context := rd_next_read_context d in
  reads_ok s d → st_role s = role_leader → request ∉ rd_used_read_requests d →
  reads_ok s (mkReads
    (<[context := mkPendingRead request (st_commit_index s) {[st_node s]} false]> (rd_pending_reads d))
    (<[request := context]> (rd_pending_read_requests d))
    ({[request]} ∪ rd_used_read_requests d) (context + 1) completed rejected).
Proof.
  cbv zeta. intros [R1 R2 R3] Hr Hfresh. split; simpl; [| |lia].
  - intros k q [[<- <-]|[Hne Hq]]%lookup_insert_Some.
    + split; simpl; try done; try lia.
      * set_solver.
      * unfold cluster_members. set_solver.
      * by rewrite lookup_insert_eq.
      * set_solver.
    + destruct (R1 _ _ Hq) as [P1 P2 P3 P4 P5 P6 P7 P8]. split; simpl; try done; try lia.
      * rewrite lookup_insert_ne; [done|]. intros ->. done.
      * set_solver.
  - intros r k [[<- <-]|[Hne Hq]]%lookup_insert_Some.
    + eexists. rewrite lookup_insert_eq. done.
    + destruct (R2 _ _ Hq) as (p & Hp & <-). exists p. split; [|done].
      destruct (R1 _ _ Hp) as [_ P2 _ _ _ _ _ _]. rewrite lookup_insert_ne by lia. done.
Qed.

(** ** Changing one group of members *)

Section keeping.
Context {lost : Prop}.
Abbreviation core_ok := (RaftCoreInv.core_ok lost).

Lemma core_ok_reads c d : core_ok c → reads_ok (co_state c) d → core_ok (set_reads d c).
Proof. by intros [[] Ht Hi] Hd; split; [split|..]. Qed.

Lemma core_ok_application c w :
  core_ok c → lw_pending_log w = lw_pending_log (co_log_work c) →
  application_ok (co_state c) w → core_ok (set_log_work w c).
Proof.
  intros [[B1 B2 B3 B4 B5 B6 B7 B8 B9 B10 B11] Ht Hi] Hl Ha. split; [split|..]; try done. intros p. simpl. rewrite Hl. apply B9.
Qed.

Lemma core_ok_transfers c w :
  core_ok c → same_but_transfers (co_snapshots c) w → core_ok (set_snapshots w c).
Proof.
  intros [[B1 B2 B3 B4 B5 B6 B7 B8 B9 B10 B11] Ht Hi] [S1 S2 S3 S4 S5]. split; [split|..]; try done; simpl.
  - intros p Hp. rewrite S1, S2. by apply B9.
  - destruct B10 as [K1 K2 K3 K4]. split; rewrite ?S1, ?S2, ?S4; done.
  - intros from q. rewrite S3. apply Hi.
Qed.

Lemma core_base_timers c t : core_base c → core_base (set_timers t c).
Proof. by intros []; split. Qed.

Lemma core_ok_timers c t : core_ok c → timers_ok lost (co_state c) t → core_ok (set_timers t c).
Proof. intros [Hb Ht Hi] Hok. by split; [apply core_base_timers|..]. Qed.

Lemma core_ok_good c : core_ok c → good (co_state c).
Proof. intros [[[Hg _ _] _ _ _ _ _ _ _ _ _ _] _ _]. done. Qed.

(** ** Helpers *)

(** A call that returns keeps the invariant, and so does one that throws, unless
    a counter was used up. *)
Abbreviation keeps m c := (mwp m c (λ _ c', core_ok c') (λ e c', exhausted e ∨ core_ok c')).

Lemma complete_ready_reads_keeps r c : core_ok c → keeps (complete_ready_reads r) c.
Proof.
  intros Hok. eapply mwp_mono; [apply complete_ready_reads_spec| |done].
  intros _ c' (d & -> & Hd & _). apply core_ok_reads; [done|].
  by apply (answered_ok c); [|destruct Hok as [[] _ _]].
Qed.

Lemma schedule_application_keeps r c : core_ok c → keeps (schedule_application r) c.
Proof.
  intros Hok. eapply mwp_mono; [eapply (mwp_throws _ _ _ (λ e _, exhausted e));
    [apply schedule_application_scheduled|apply schedule_application_tires; by apply core_ok_good]| |by left].
  intros _ c' ([w ->] & Hl & Hs & _). apply core_ok_application; [done|done|].
  eapply scheduled_ok; [by apply core_ok_good|exact Hs|]. by destruct Hok as [[] _ _].
Qed.

Lemma finish_completion_keeps r c : core_ok c → keeps (finish_completion r) c.
Proof.
  intros Hok. unfold finish_completion. mstep.
  eapply mwp_mono; [by apply complete_ready_reads_keeps| |done]. intros r1 c1 H1.
  by apply schedule_application_keeps.
Qed.

Lemma acknowledge_read_keeps from response r c :
  core_ok c → from ∈ st_peers (co_state c) →
  mwp (acknowledge_read from response r) c (λ _ c', core_ok c' ∧ ∃ d, c' = set_reads d c)
    (λ _ _, False).
Proof.
  intros Hok Hfrom. eapply mwp_mono; [apply acknowledge_read_spec| |done].
  intros _ c' [[_ ->]|(context & p & (_ & _ & _ & _ & Hp) & d & -> & Hd & _)].
  - split; [done|]. exists (co_reads c). by destruct c.
  - split; [|by eexists]. apply core_ok_reads; [done|].
    pose proof (cb_reads _ (ck_base _ Hok)) as Hr.
    pose proof (acknowledged_ok _ _ _ _ _ Hr Hp Hfrom) as Hr1.
    by apply (answered_ok (set_reads (set_pending_reads
      (<[context:=acknowledged (co_state c) from p]> (rd_pending_reads (co_reads c)))
      (rd_pending_read_requests (co_reads c)) (co_reads c)) c)).
Qed.

(** ** Figure 2 steps *)

(** No write is pending, or only one of the log that the event does not concern. *)
Definition ready_for (c : Core) (e : Event) : Prop :=
  sw_pending_snapshot (co_snapshots c) = None ∧ sw_pending_snapshot_restore (co_snapshots c) = None ∧
  (lw_pending_log (co_log_work c) = None ∨ is_completion e = false ∧ may_append e = false).

Lemma idle_ready c e : idle c → ready_for c e.
Proof. intros []. split_and!; auto. Qed.

Lemma ready_room c e fr :
  ready_for c e → e ≠ ApplyCommitted → Figure2.step (co_state c) e = Ret fr → room_for c fr.
Proof.
  intros (H1 & H2 & H3) Ha Hstep. split_and!; try done. destruct H3 as [?|[? ?]]; [by left|right].
  by eapply step_quiet.
Qed.

Lemma run_figure2_base e c :
  core_base c → ready_for c e → event_fits (co_state c) e → event_dated e → e ≠ ApplyCommitted →
  mwp (run_figure2 e) c
    (λ r c', ∃ fr, Figure2.step (co_state c) e = Ret fr ∧ advances (co_state c) fr ∧
       translated c fr (st_role (co_state c)) r c' ∧ core_base c')
    (λ x c', exhausted x ∨ c' = c ∧ Figure2.step (co_state c) e = Throw x).
Proof.
  intros Hb Hready Hfit Hdat Ha. unfold run_figure2. do 4 mstep.
  destruct (Figure2.step (co_state c) e) as [fr|] eqn:Hstep; simpl; [|by right].
  assert (advances (co_state c) fr) as Hadv.
  { destruct Hb. by eapply step_advances. }
  pose proof (ready_room _ _ _ Hready Ha Hstep) as Hroom.
  eapply mwp_mono; [eapply (mwp_throws _ _ _ (λ e _, exhausted e));
    [apply translate_spec|apply translate_tires]| |by left].
  - apply (so_good _ (av_server _ _ Hadv)).
  - destruct Hroom as (_ & _ & [?|[? _]]); auto.
  - intros r c' T. exists fr. split_and!; try done. by eapply translated_base.
Qed.

(** An input that is not a completion finds no request set aside. *)
Lemma install_ok_input s e fr w :
  Figure2.step s e = Ret fr → is_completion e = false → install_ok s w →
  sw_install_after_hard_state w = None.
Proof.
  intros Hstep Hc Hi. destruct (sw_install_after_hard_state w) as [[from q]|] eqn:Hw; [|done].
  destruct (Hi _ _ Hw) as [Hp _]. pose proof (step_pending _ _ _ Hstep) as H.
  rewrite bool_decide_true in H by done. congruence.
Qed.

Lemma run_figure2_keeps e c :
  core_ok c → idle c → event_fits (co_state c) e → event_dated e → e ≠ ApplyCommitted →
  is_completion e = false →
  mwp (run_figure2 e) c
    (λ r c', core_ok c' ∧ ∃ fr, Figure2.step (co_state c) e = Ret fr ∧
       advances (co_state c) fr ∧ translated c fr (st_role (co_state c)) r c')
    (λ x c', exhausted x ∨ core_ok c').
Proof.
  intros Hok Hidle Hfit Hdat Ha Hc. pose proof Hok as [Hb Ht Hi].
  eapply mwp_mono; [apply run_figure2_base; try done; by apply idle_ready| |].
  2: { intros x c' [?|[-> _]]; auto. }
  intros r c' (fr & Hstep & Hadv & T & Hb'). split; [|by eauto]. split; [done| |].
  - by eapply translated_timers.
  - intros from q Hq. rewrite (bt_install _ _ (tl_snapshots _ _ _ _ _ T)) in Hq.
    rewrite (install_ok_input _ _ _ _ Hstep Hc Hi) in Hq. done.
Qed.

(** A call that requests no log write leaves the core idle. *)
Lemma translated_idle c fr previous r c' :
  idle c → translated c fr previous r c' → Figure2.PersistLog ∉ res_effects fr → idle c'.
Proof.
  intros [I1 I2 I3] T Hno. destruct (tl_snapshots _ _ _ _ _ T) as [S1 S2 _ _ _].
  split; [|congruence..]. destruct (tl_log _ _ _ _ _ T) as [[_ E]|[Hin _]]; [congruence|done].
Qed.

(** The deadline of the armed election timer arrives while the hard state is being
    written: the timer is gone, but the election is refused. *)
Definition loses_deadline (c : Core) (i : Input) : Prop :=
  match i with
  | ElectionDeadline timer => tm_election_timer (co_timers c) = Some timer ∧
      is_Some (st_pending_hard_state (co_state c))
  | _ => False
  end.

Lemma no_election_timer_ok c lost' :
  core_ok c → (st_role (co_state c) = role_candidate → ResetElectionTimer ∈ held (co_state c)) →
  (st_role (co_state c) ≠ role_leader → lost') →
  RaftCoreInv.core_ok lost' (on_timers (set_election_timer None None) c).
Proof.
  intros [Hb [T1 T2 T3] Hi] Hc Hl. split; [by apply core_base_timers| |done].
  split; simpl; [done|by auto|by auto].
Qed.

(** Whoever has started an election has its timer reset held back. *)
Lemma candidate_waits c :
  core_base c → is_Some (st_pending_hard_state (co_state c)) →
  st_role (co_state c) = role_candidate → ResetElectionTimer ∈ held (co_state c).
Proof. intros Hb Hp Hr. by destruct (sy_waits _ (cb_steady _ Hb) Hp) as [[? _]|(_ & ? & _)]. Qed.

Lemma leader_waits_for_nothing c :
  core_base c → st_role (co_state c) = role_leader → st_pending_hard_state (co_state c) = None.
Proof.
  intros Hb Hr. apply eq_None_not_Some. intros Hp.
  destruct (sy_waits _ (cb_steady _ Hb) Hp) as [[_ ?]|(? & _)]; congruence.
Qed.

Lemma election_deadline_keeps timer c :
  core_ok c → idle c →
  mwp (election_deadline timer) c (λ _ c', core_ok c')
    (λ x c', exhausted x ∨ RaftCoreInv.core_ok (lost ∨ loses_deadline c (ElectionDeadline timer)) c').
Proof.
  intros Hok Hidle. unfold election_deadline. do 2 mstep. mstep; [by mstep|].
  rename select (negb _ = false) into Harmed. apply negb_false_iff, bool_decide_eq_true in Harmed.
  mstep. apply mwp_modify. set (c1 := on_timers _ c). pose proof Hok as [Hb Ht Hi].
  assert (core_base c1) as Hb1 by by apply core_base_timers.
  assert (idle c1) as Hidle1 by by destruct Hidle.
  assert (majority (co_state c) ≠ 1) as Hmaj by (pose proof (majority_big _ (cb_size _ Hb)); lia).
  eapply mwp_mono; [apply run_figure2_base; try done; by apply idle_ready| |].
  - intros r c' (fr & Hstep & Hadv & T & Hb'). change (co_state c1) with (co_state c) in *. split; [done| |].
    + destruct (decide (st_role (co_state c) = role_leader)) as [Hl|Hl].
      { eapply (translated_timers _ c1); [|done..]. by split; [apply Ht|simpl; congruence..]. }
      assert (st_role (co_state c) = role_follower ∨ st_role (co_state c) = role_candidate) as Hrole.
      { pose proof (cb_role _ Hb). destruct (st_role (co_state c)); tauto. }
      pose proof (election_timeout_candidate _ _ Hstep Hrole Hmaj) as Hc.
      pose proof (election_timeout_resets _ _ Hstep Hrole).
      split; rewrite (tl_state _ _ _ _ _ T), Hc; by auto.
    + intros from q Hq. rewrite (bt_install _ _ (tl_snapshots _ _ _ _ _ T)) in Hq.
      rewrite (install_ok_input _ _ _ (co_snapshots c1) Hstep eq_refl Hi) in Hq. done.
  - intros x c' [?|[-> Hstep]]; [by left|]. change (co_state c1) with (co_state c) in *.
    destruct (st_pending_hard_state (co_state c)) as [p|] eqn:Hp.
    2: { left. eapply election_timeout_tires; [|done..]. by destruct Hb. }
    right. apply no_election_timer_ok; [done| |].
    + apply candidate_waits; [done|by rewrite Hp].
    + intros _. right. split; [done|by rewrite Hp].
Qed.

Lemma heartbeat_deadline_keeps timer c : core_ok c → idle c → keeps (heartbeat_deadline timer) c.
Proof.
  intros Hok Hidle. pose proof Hok as [Hb Ht Hi]. unfold heartbeat_deadline. do 2 mstep. mstep; [by mstep|].
  rename select (_ || _ = false) into Hrole.
  apply orb_false_iff in Hrole as [_ Hl%negb_false_iff%bool_decide_eq_true].
  mstep. apply mwp_modify. set (c1 := on_timers _ c).
  assert (core_base c1) as Hb1 by by apply core_base_timers.
  assert (idle c1) as Hidle1 by by destruct Hidle.
  mstep. eapply mwp_mono; [apply run_figure2_base; try done; by apply idle_ready| |].
  2: { intros x c' [?|[-> Hstep]]; [by left|]. change (co_state c1) with (co_state c) in *.
       destruct (heartbeat_returns (co_state c)) as [r Hr]; [by destruct Hb| |done|congruence].
       by apply leader_waits_for_nothing. }
  intros r c2 (fr & Hstep & Hadv & T & Hb2). change (co_state c1) with (co_state c) in *.
  mstep. eapply mwp_mono; [eapply (mwp_throws _ _ _ (λ e _, exhausted e));
    [apply next_heartbeat_spec|apply next_heartbeat_tires]| |by left]. intros e c3 [-> ->]. mstep.
  assert (co_state c2 = co_state c) as Es.
  { rewrite (tl_state _ _ _ _ _ T). by apply heartbeat_state. }
  split; [by apply core_base_timers| |].
  - split; simpl; [by eexists|rewrite Es; congruence|]. rewrite Es. done.
  - intros from q Hq. simpl in Hq. rewrite (bt_install _ _ (tl_snapshots _ _ _ _ _ T)) in Hq.
    rewrite (install_ok_input _ _ _ (co_snapshots c1) Hstep eq_refl Hi) in Hq. done.
Qed.

Lemma begin_read_keeps request c : core_ok c → idle c → keeps (begin_read request) c.
Proof.
  intros Hok Hidle. unfold begin_read. do 2 mstep. apply owp_throw_when; [by right|]. intros _. do 2 mstep.
  assert (∀ reason, keeps (reject_read request reason) c) as Hrej.
  { intros reason. unfold reject_read. mstep. apply mwp_modify. mstep.
    apply core_ok_reads; [done|].
    apply (reads_ok_remove _ (co_reads c) _ []); try done; [set_solver|by destruct (ck_base _ Hok)]. }
  mstep; [done|]. rename select (negb _ = false) into Hl.
  apply negb_false_iff, bool_decide_eq_true in Hl. mstep; [done|].
  rename select (bool_decide _ = false) into Hu. apply bool_decide_eq_false in Hu.
  do 2 mstep. destruct (commit_term _); simpl; [|by right]. mstep; [done|]. mstep; [done|]. mstep; [done|].
  mstep. apply mwp_modify. mstep.
  eapply mwp_mono; [apply run_figure2_keeps| |done]; try done.
  - apply core_ok_reads; [done|]. apply new_read_ok; try done. by destruct (ck_base _ Hok).
  - by destruct Hidle.
  - intros r c' [H _]. by mstep.
Qed.

Lemma drop_read_keeps request reason c : core_ok c → keeps (drop_read request reason) c.
Proof.
  intros Hok. unfold drop_read. do 2 mstep. mstep; [|by mstep]. rename z into context.
  mstep. apply mwp_modify. mstep. apply core_ok_reads; [done|].
  pose proof (cb_reads _ (ck_base _ Hok)) as Hr. destruct (rk_requests _ _ Hr _ _ Heqo) as (p & Hp & <-).
  apply (reads_ok_remove _ (co_reads c) _ [(context, p)]); try done.
  by intros kp ->%list_elem_of_singleton.
Qed.

(** ** Application *)

(** The state of a core changes while its log and hard state stay. *)
Lemma core_base_state c s w :
  core_base c → server_ok s →
  st_node s = st_node (co_state c) → st_peers s = st_peers (co_state c) →
  st_role s = st_role (co_state c) → st_persistent s = st_persistent (co_state c) →
  st_commit_index (co_state c) ≤ st_commit_index s → st_last_applied (co_state c) ≤ st_last_applied s →
  st_pending_hard_state s = st_pending_hard_state (co_state c) →
  lw_pending_log w = lw_pending_log (co_log_work c) → application_ok s w →
  sw_pending_snapshot (co_snapshots c) = None → sw_pending_snapshot_restore (co_snapshots c) = None →
  core_base (set_log_work w (set_state s c)).
Proof.
  intros [B1 B2 B3 B4 B5 B6 B7 B8 B9 B10 B11] Hs En Ep Er Ee Ec Ea Eh El Happ Hn1 Hn2.
  assert (held s = held (co_state c)) as Hheld by (unfold held; by rewrite Eh).
  assert (log_of s = log_of (co_state c)) as Hlog by (unfold log_of; by rewrite Ee).
  split; simpl; try done.
  - by rewrite Ep.
  - by rewrite Er.
  - unfold voter_ok, current_term in *. by rewrite Er, Ee.
  - by rewrite Hlog.
  - by rewrite Hheld.
  - eapply reads_step; [..|exact B7]; try done. rewrite Er. apply role_reads_same.
  - intros p. simpl. rewrite El, Hlog, Hheld. apply B9.
  - destruct B10 as [K1 K2 K3 K4]. split; try done; [by rewrite K1, Ee|by rewrite Hn1|by rewrite Hn2].
  - apply (steady_frame (co_state c)); try done. unfold voted_for. by rewrite Ee.
Qed.

Lemma entry_at_index s i e :
  good s → entry_at s i = Some e → en_index e = i ∧ snapshot_base s < i ≤ last_index s.
Proof.
  intros [[] [] _]. unfold entry_at. destruct (Z.ltb_spec (snapshot_base s) i); [|done]. intros He.
  pose proof (ok_contiguous _ _ He). apply lookup_lt_Some in He.
  rewrite last_index_length by done. lia.
Qed.

Lemma good_applied s index :
  good s → st_last_applied s ≤ index ≤ st_commit_index s → good (applied_state index s).
Proof.
  intros Hg Hi. assert (good (with_indexes s (st_commit_index s) index)) as H1.
  { apply good_indexes; [done| |lia]. destruct Hg as [[] _ _]. lia. }
  unfold applied_state. destruct (st_leader s) as [l|] eqn:Hl; [|done].
  pose proof H1 as [[] [] _]. simpl in *.
  apply good_leader; [done| | |].
  - apply ok_role. rewrite Hl. by eexists.
  - destruct (ok_leader _ Hl) as [L1 L2 L3]. split; simpl; try done. intros i Hin.
    apply L3. set_solver.
  - simpl. intros p g. by apply fit_match.
Qed.

Lemma applied_state_frame index s :
  let s' := applied_state index s in
  st_node s' = st_node s ∧ st_peers s' = st_peers s ∧ st_role s' = st_role s ∧
  st_persistent s' = st_persistent s ∧ st_commit_index s' = st_commit_index s ∧
  st_last_applied s' = index ∧ st_pending_hard_state s' = st_pending_hard_state s.
Proof. unfold applied_state. by destruct (st_leader s). Qed.

(** The object after the pending entry was applied. *)
Lemma applied_core_ok id index c :
  core_ok c → sw_pending_snapshot (co_snapshots c) = None →
  sw_pending_snapshot_restore (co_snapshots c) = None →
  pending_application_matches (co_log_work c) id index = true →
  index = st_last_applied (co_state c) + 1 ∧
  core_ok (on_log_work (set_application (lw_next_application_request_id (co_log_work c)) None)
    (set_state (applied_state index (co_state c)) c)).
Proof.
  intros Hok Hn1 Hn2 Hm. unfold pending_application_matches in Hm.
  destruct (lw_pending_application (co_log_work c)) as [p|] eqn:Hp; [|done].
  apply andb_prop in Hm as [_ Hix%Z.eqb_eq].
  pose proof Hok as [Hb [Ht1 Ht2 Ht3] Hi].
  destruct (cb_application _ Hb _ Hp) as [Hlt He].
  pose proof (cb_server _ Hb) as [Hg Hcand Hpend].
  destruct (entry_at_index _ _ _ Hg He) as [Hei _]. split; [lia|].
  assert (good (applied_state index (co_state c))) as Hg'.
  { apply good_applied; [done|]. lia. }
  destruct (applied_state_frame index (co_state c)) as (E1 & E2 & E3 & E4 & E5 & E6 & E7).
  set (s' := applied_state index (co_state c)) in *.
  assert (server_ok s') as Hs'.
  { split; [done| |].
    - rewrite E1, E3. unfold voted_for. rewrite E4. exact Hcand.
    - rewrite E7. unfold hard_state, current_term, voted_for. rewrite E4. exact Hpend. }
  split.
  - apply (core_base_state c s'); try done; lia.
  - split; simpl; rewrite E3; [exact Ht1|unfold held; rewrite E7..]; [exact Ht2|exact Ht3].
  - intros from q Hq. simpl in *. unfold held, current_term. rewrite E4, E7. by apply Hi in Hq.
Qed.

Lemma entry_applied_keeps id index c :
  core_ok c → sw_pending_snapshot (co_snapshots c) = None →
  sw_pending_snapshot_restore (co_snapshots c) = None → keeps (entry_applied id index) c.
Proof.
  intros Hok Hn1 Hn2. unfold entry_applied. do 4 mstep. apply owp_throw_when; [by right|].
  intros Hm%negb_false_iff. destruct (applied_core_ok _ _ _ Hok Hn1 Hn2 Hm) as [_ Hok'].
  mstep. apply mwp_modify. mstep. apply mwp_modify.
  mstep. eapply mwp_mono; [by apply complete_ready_reads_keeps| |done].
  intros r c1 H1. by apply schedule_application_keeps.
Qed.

Lemma entry_apply_failed_keeps id index c : core_ok c → keeps (entry_apply_failed id index) c.
Proof.
  intros Hok. unfold entry_apply_failed. do 4 mstep. apply owp_throw_when; [by right|]. intros _.
  mstep. apply mwp_deref; [|by right]. intros p Hp. mstep. apply mwp_modify. mstep.
  apply core_ok_application; [done|done|]. intros q [= <-]. simpl.
  by apply (cb_application _ (ck_base _ Hok) p).
Qed.

Lemma retry_application_keeps c : core_ok c → keeps retry_application c.
Proof.
  intros Hok. unfold retry_application. do 2 mstep.
  destruct (lw_pending_application (co_log_work c)) as [[request []]|] eqn:Hp;
    [|by mstep; right|by mstep; right].
  do 2 mstep. apply owp_throw_when; [by right|]. intros _. mstep. apply mwp_modify. mstep.
  apply core_ok_application; [done|done|]. intros q [= <-]. simpl.
  by apply (cb_application _ (ck_base _ Hok) _ Hp).
Qed.

Lemma log_persisted_keeps completion c : core_ok c → keeps (log_persisted completion) c.
Proof.
  intros Hok. unfold log_persisted. do 2 mstep. mstep; [|by mstep; right]. do 2 mstep.
  apply owp_throw_when; [by right|]. intros _. mstep. apply mwp_modify. mstep.
  eapply mwp_mono; [eapply (mwp_throws _ _ _ (λ e _, exhausted e));
    [apply replace_compacted_appends_spec|apply replace_compacted_appends_tires]| |by left].
  intros r c' (w & -> & Hw & _). apply schedule_application_keeps, core_ok_transfers; [|done].
  destruct Hok as [[B1 B2 B3 B4 B5 B6 B7 B8 B9 B10 B11] Ht Hi]. split; [split|..]; done.
Qed.

(** ** Snapshots *)

(** A write of a snapshot that fits the state is recorded. *)
Lemma request_snapshot_keeps sn reply response local c :
  core_ok c → idle c →
  (if local : bool then local_ok (co_state c) (sn_metadata sn)
   else remote_ok (co_state c) (sn_metadata sn) ∧ is_Some reply ∧ is_Some response) →
  keeps (request_snapshot sn reply response local) c.
Proof.
  intros [[B1 B2 B3 B4 B5 B6 B7 B8 B9 B10 B11] Ht Hi] [I1 I2 I3] Hsn. unfold request_snapshot. do 4 mstep.
  apply owp_throw_when; [by right|]. intros _. mstep. apply mwp_modify. mstep.
  split; [split|..]; try done; simpl.
  - intros p Hp. simpl in Hp. congruence.
  - destruct B10 as [K1 K2 K3 K4]. split; simpl; try done; [|by right].
    by intros p [= <-].
Qed.

Lemma begin_snapshot_keeps request c : core_ok c → idle c → keeps (begin_snapshot request) c.
Proof.
  intros Hok Hidle. unfold begin_snapshot. do 2 mstep. mstep; [by mstep|]. mstep; [by mstep|].
  rename select (_ || _ = false) into Hix.
  apply orb_false_iff in Hix as [Hnz%Z.eqb_neq Hla%negb_false_iff%Z.eqb_eq].
  destruct (match sw_durable_snapshot (co_snapshots c) with Some _ => _ | None => _ end) eqn:Hst;
    [by mstep|]. mstep; [by mstep|]. mstep; [by mstep|]. mstep; [by mstep|]. do 2 mstep.
  destruct (applied_term _ _) as [term|] eqn:Hterm; simpl; [|by right]. mstep.
  eapply mwp_mono; [apply request_snapshot_keeps; try done| |done].
  2: { intros e c' H. by mstep. }
  pose proof Hok as [Hb _ _]. pose proof (cb_server _ Hb) as [[[] [] Hroom] _ _].
  assert (snapshot_base (co_state c) < cs_applied_index request) as Hbase.
  { pose proof (sk_durable _ _ (cb_snapshots _ Hb)) as Hd. unfold snapshot_base in *.
    destruct (sw_durable_snapshot (co_snapshots c)) as [d|]; simpl in Hd; rewrite <-Hd in *.
    - by apply Z.leb_gt in Hst.
    - simpl in *. lia. }
  split; simpl; [|done|done|done]. split; simpl; [lia|].
  unfold applied_term in Hterm. destruct (Z.eqb_spec (cs_applied_index request)
    (snapshot_base (co_state c))); [lia|].
  apply bind_Ret in Hterm as (e & Hat & [= <-]). unfold log_at in Hat.
  destruct (log_of (co_state c) !! _) as [e'|] eqn:He; [|done]. injection Hat as <-.
  pose proof (Forall_lookup_1 _ _ _ _ (cb_dated _ Hb) He) as Hd1.
  pose proof (Forall_lookup_1 _ _ _ _ ok_terms He). simpl in *. lia.
Qed.

(** *** Receiving *)

Definition install_fits (q : InstallSnapshotRequest) : Prop :=
  0 ≤ sm_last_included_index (is_metadata q) < u64_max.

Lemma install_snapshot_keeps from q r c :
  core_ok c → idle c → install_fits q → st_role (co_state c) = role_follower →
  is_term q = current_term (co_state c) → keeps (install_snapshot from q r) c.
Proof.
  intros Hok Hidle Hfit Hr Ht. unfold install_snapshot. do 2 mstep. mstep; [by mstep|].
  rename select (_ || _ = false) into Hv. apply orb_false_iff in Hv as [Hv%negb_false_iff _].
  mstep; [by mstep|].
  destruct (match sw_durable_snapshot (co_snapshots c) with Some _ => _ | None => _ end) eqn:Hcov;
    [by mstep|]. mstep; [by mstep|]. rename select ((_ <=? _) = false) into Hla. apply Z.leb_gt in Hla.
  mstep. eapply mwp_mono; [apply request_snapshot_keeps; try done| |done].
  2: { intros e c' H. by mstep. }
  unfold valid_shape in Hv. cbv zeta in Hv. repeat rewrite andb_true_iff in Hv.
  destruct Hv as (((((((_ & Hi%negb_true_iff%Z.eqb_neq) & Hn%negb_true_iff%Z.eqb_neq) &
    Hle%Z.leb_le) & _) & _) & _) & _).
  unfold install_fits in Hfit. split; [|split; by eexists]. simpl.
  split; [split; [lia|]|done|done]. split; [done|lia].
Qed.

(** A request of a higher term may arrive while a log write is pending. *)
Definition admits (c : Core) (q : InstallSnapshotRequest) : Prop :=
  idle c ∨ ready_for c (ObserveTerm (is_term q)) ∧ current_term (co_state c) < is_term q.

Lemma core_base_install c o : core_base c → core_base (on_snapshots (set_install_after o) c).
Proof.
  intros [B1 B2 B3 B4 B5 B6 B7 B8 B9 B10 B11]. split; try done. by destruct B10; split.
Qed.

Lemma receive_snapshot_keeps from q c :
  core_ok c → admits c q → install_fits q → keeps (receive_snapshot from q) c.
Proof.
  intros Hok Hadm Hfit. unfold receive_snapshot. do 4 mstep. apply owp_throw_when; [by right|].
  intros _. mstep; [by mstep|]. rename select ((_ <? _) = false) into Hge. apply Z.ltb_ge in Hge.
  pose proof Hok as [Hb Ht Hi]. mstep.
  - rename select ((_ <? _) = true) into Hgt. apply Z.ltb_lt in Hgt. mstep. apply mwp_modify.
    set (c1 := on_snapshots _ c). assert (core_base c1) as Hb1 by by apply core_base_install.
    assert (ready_for c1 (ObserveTerm (is_term q))) as Hready.
    { destruct Hadm as [?|[? _]]; [by apply (idle_ready c)|done]. }
    eapply mwp_mono; [by apply run_figure2_base| |].
    + intros r c' (fr & Hstep & Hadv & T & Hb'). split; [done|by eapply (translated_timers _ c1)|].
      intros from' q' Hq. rewrite (bt_install _ _ (tl_snapshots _ _ _ _ _ T)) in Hq.
      simpl in Hq. injection Hq as <- <-. rewrite (tl_state _ _ _ _ _ T).
      destruct (observe_term_waits _ _ _ Hstep Hgt) as (? & ? & _). split; [done|]. split; [by left|done].
    + intros x c' [?|[-> Hstep]]; [by left|]. change (co_state c1) with (co_state c) in *.
      destruct (st_pending_hard_state (co_state c)) as [p|] eqn:Hp.
      * right. split; [done|done|]. intros from' q' [= <- <-]. simpl. rewrite Hp.
        split; [by eexists|]. split; [by right|done].
      * left. eapply observe_term_tires; [|done..]. by destruct Hb.
  - rename select ((_ <? _) = false) into Hle. apply Z.ltb_ge in Hle.
    assert (idle c) as Hidle by (destruct Hadm as [?|[_ ?]]; [done|lia]). mstep; [by mstep|]. mstep.
    assert (advances (co_state c) (mkResult (follow from (co_state c)) [] [ResetElectionTimer])) as Hadv.
    { destruct Hb. by apply follow_advances. }
    eapply mwp_mono; [eapply (mwp_throws _ _ _ (λ e _, exhausted e));
      [apply translate_spec|apply translate_tires]| |by left].
    { apply (so_good _ (av_server _ _ Hadv)). }
    { left. by destruct Hidle. }
    intros r c' T. assert (core_ok c') as Hok'.
    { split.
      - eapply translated_base; [done|by apply idle_room|done|done].
      - by eapply translated_timers.
      - intros from' q' Hq. rewrite (bt_install _ _ (tl_snapshots _ _ _ _ _ T)) in Hq.
        rewrite (tl_state _ _ _ _ _ T). by apply Hi in Hq. }
    apply install_snapshot_keeps; try done.
    + eapply translated_idle; [done|done|]. simpl. set_solver.
    + by rewrite (tl_state _ _ _ _ _ T).
    + rewrite (tl_state _ _ _ _ _ T). change (is_term q = current_term (co_state c)). lia.
Qed.

(** The request set aside, after the hard state it waited for was written. *)
Lemma completion_install s completion fr w :
  Figure2.step s (Figure2.HardStatePersisted completion) = Ret fr → server_ok s → install_ok s w →
  ∀ from q, sw_install_after_hard_state w = Some (from, q) →
    install_fits q ∧ ((res_effects fr = [] ∧ held (res_state fr) = []) ∨
      current_term (res_state fr) < is_term q).
Proof.
  intros Hstep Hok Hi from q Hw. destruct (Hi from q Hw) as ([p Hp] & Hwait & Hfit). split; [done|].
  destruct (step_step_logged _ _ _ Hstep) as [_ _ _ [Htot _]]; [done|].
  destruct (unchecked_completion _ _ _ _ Hok Hp (step_unchecked _ _ _ Hstep))
    as (_ & _ & (_ & _ & _ & Et & _) & _).
  destruct Hwait as [Hnil|?]; [left|right; by rewrite Et]. rewrite Hnil in Htot.
  by apply app_nil_both in Htot.
Qed.

Lemma completion_admits c fr r c1 q :
  idle c → translated c fr (st_role (co_state c)) r c1 →
  (res_effects fr = [] ∧ held (res_state fr) = []) ∨ current_term (res_state fr) < is_term q →
  admits (on_snapshots (set_install_after None) c1) q.
Proof.
  intros Hidle T [[Heff _]|Hlt].
  - left. assert (idle c1) as [I1 I2 I3]; [|done].
    eapply translated_idle; [done|done|]. rewrite Heff. set_solver.
  - right. split; [|simpl; by rewrite (tl_state _ _ _ _ _ T)].
    destruct Hidle as [_ I2 I3], (tl_snapshots _ _ _ _ _ T) as [S1 S2 _ _ _].
    split_and!; simpl; [congruence|congruence|by right].
Qed.

(** The object on which a request set aside is taken up again. *)
Lemma completion_core_ok c fr r c1 :
  core_base c → timers_ok lost (co_state c) (co_timers c) → idle c → advances (co_state c) fr →
  translated c fr (st_role (co_state c)) r c1 → core_ok (on_snapshots (set_install_after None) c1).
Proof.
  intros Hb Ht Hidle Hadv T. split; [apply core_base_install| |done].
  - eapply translated_base; [done|by apply idle_room|done|done].
  - exact (translated_timers _ _ _ _ _ Ht Hadv T).
Qed.

Lemma hard_state_persisted_keeps completion c :
  core_ok c → idle c → keeps (hard_state_persisted completion) c.
Proof.
  intros Hok Hidle. pose proof Hok as [Hb Ht Hi]. unfold hard_state_persisted. mstep.
  eapply mwp_mono; [apply run_figure2_base; try done; by apply idle_ready| |].
  2: { intros x c' [?|[-> _]]; auto. }
  intros r c1 (fr & Hstep & Hadv & T & Hb1).
  assert (timers_ok lost (co_state c1) (co_timers c1)) as Ht1 by by eapply translated_timers.
  pose proof (bt_install _ _ (tl_snapshots _ _ _ _ _ T)) as Einst. do 2 mstep.
  destruct (sw_install_after_hard_state (co_snapshots c1)) as [[from q]|] eqn:Hin.
  2: { mstep. split; [done|done|]. intros from q. by rewrite Hin. }
  destruct (completion_install _ _ _ _ Hstep (cb_server _ Hb) Hi from q) as [Hfit Hwait]; [congruence|].
  mstep.
  - mstep. split; [done|done|]. rename select (bool_decide _ = true) into Hp.
    apply bool_decide_eq_true in Hp. intros from' q' Hq. rewrite Hin in Hq. injection Hq as <- <-.
    split; [done|]. split; [|done]. rewrite (tl_state _ _ _ _ _ T). destruct Hwait as [[_ ?]|?]; auto.
  - mstep. apply mwp_modify. mstep.
    eapply mwp_mono; [apply (receive_snapshot_keeps from q); [|by eapply completion_admits|done]| |done].
    + exact (completion_core_ok _ _ _ _ Hb Ht Hidle Hadv T).
    + intros r' c' H. by mstep.
Qed.

(** *** Compaction *)

(** The log agrees with a snapshot that lies inside it. *)
Definition agrees (s : State) (m : SnapshotMetadata) : Prop :=
  ∃ e, entry_at s (sm_last_included_index m) = Some e ∧ en_term e = sm_last_included_term m.

(** What remains of the log, with the base it starts from. *)
Lemma compacted_log_spec s m :
  good s → snapshot_base s < sm_last_included_index m →
  let index := sm_last_included_index m in
  contiguous index (compacted_log s m) ∧
  (agrees s m → index ≤ last_index s ∧ index + Z.of_nat (length (compacted_log s m)) = last_index s ∧
     ∀ i, index < i →
       compacted_log s m !! Z.to_nat (i - index - 1) = log_of s !! Z.to_nat (i - snapshot_base s - 1)) ∧
  (¬ agrees s m → compacted_log s m = []).
Proof.
  intros Hg Hb. cbv zeta. pose proof Hg as [[] [] _]. unfold compacted_log, agrees, entry_at.
  set (index := sm_last_included_index m) in *. set (base := snapshot_base s) in *.
  destruct (Z.eqb_spec index base); [lia|]. destruct (Z.ltb_spec base index); [|lia].
  assert (contiguous index []) as Hnil by done.
  destruct (log_of s !! Z.to_nat (index - base - 1)) as [e|] eqn:He.
  2: { split_and!; [done|by intros (? & ? & _)|done]. }
  destruct (Z.eqb_spec (en_term e) (sm_last_included_term m)) as [Ht|Ht].
  2: { split_and!; [done|by intros (? & [= <-] & ?)|done]. }
  pose proof (lookup_lt_Some _ _ _ He) as Hlen. split_and!.
  - intros i x. rewrite lookup_drop. intros Hx%ok_contiguous. lia.
  - intros _. rewrite last_index_length, length_drop by done. fold base. split_and!; try lia.
    intros i Hi. rewrite lookup_drop. f_equal. lia.
  - intros []. eauto.
Qed.

Lemma compacted_log_sublist s m :
  ∀ e, e ∈ compacted_log s m → e ∈ log_of s.
Proof.
  intros e. unfold compacted_log. repeat case_match; try set_solver.
  all: intros (i & Hi)%list_elem_of_lookup; rewrite ?lookup_drop in Hi; by eapply list_elem_of_lookup_2.
Qed.

(** Compaction to a snapshot ahead of the base, if what is committed beyond it
    stays in the log. *)
Lemma good_compacted s m :
  good s → metadata_ok s m → snapshot_base s < sm_last_included_index m →
  (sm_last_included_index m < st_commit_index s ∨ st_role s = role_leader → agrees s m) →
  good (compacted_state m s).
Proof.
  intros Hg [Hm1 Hm2] Hb Hag. pose proof (compacted_log_spec s m Hg Hb) as (Hc & Hyes & Hno).
  pose proof Hg as [[] [] Hroom].
  assert (last_index (compacted_state m s) = sm_last_included_index m +
    Z.of_nat (length (compacted_log s m))) as Hlast by by apply (last_index_length (compacted_state m s)).
  assert (∀ e, e ∈ compacted_log s m → en_term e ≤ current_term s) as Hterms.
  { intros e He%compacted_log_sublist. by eapply (proj1 (Forall_forall _ _) ok_terms). }
  assert (agrees s m ∨ ¬ agrees s m) as [Ha|Ha].
  { unfold agrees. destruct (entry_at s (sm_last_included_index m)) as [e|]; [|naive_solver].
    destruct (decide (en_term e = sm_last_included_term m)); naive_solver. }
  - destruct (Hyes Ha) as (H1 & H2 & _). rewrite H2 in Hlast.
    split; [split; simpl; try done|split; simpl; try done|]; rewrite ?Hlast; try lia.
    + by intros m' [= <-]; destruct Hm2; split; [lia|].
    + change (sm_last_included_index m ≤ Z.max (st_commit_index s) (sm_last_included_index m) ∧
        sm_last_included_index m ≤ Z.max (st_last_applied s) (sm_last_included_index m)). lia.
    + by apply Forall_forall.
    + done.
    + change (0 ≤ sm_last_included_index m). lia.
    + change (sm_last_included_index m + Z.of_nat (length (compacted_log s m)) ≤ u64_max). lia.
  - rewrite (Hno Ha) in Hlast. simpl in Hlast.
    assert (st_commit_index s ≤ sm_last_included_index m ∧ st_leader s = None) as [Hcm Hl].
    { split; [apply Z.nlt_ge; naive_solver|]. apply eq_None_not_Some. rewrite <-ok_role. naive_solver. }
    split; [split; simpl; try done|split; simpl; try done|]; rewrite ?Hlast, ?Hl; try done; try lia.
    + by intros m' [= <-]; destruct Hm2; split; [lia|].
    + change (sm_last_included_index m ≤ Z.max (st_commit_index s) (sm_last_included_index m) ∧
        sm_last_included_index m ≤ Z.max (st_last_applied s) (sm_last_included_index m)). lia.
    + by apply Forall_forall.
    + change (0 ≤ sm_last_included_index m). lia.
    + change (sm_last_included_index m + Z.of_nat (length (compacted_log s m)) ≤ u64_max).
      rewrite (Hno Ha). simpl. lia.
Qed.

Lemma compact_to_keeps sn c :
  let s := co_state c in
  let m := sn_metadata sn in
  core_ok c → lw_pending_log (co_log_work c) = None →
  sw_pending_snapshot (co_snapshots c) = None → sw_pending_snapshot_restore (co_snapshots c) = None →
  metadata_ok s m → snapshot_base s < sm_last_included_index m →
  st_last_applied s ≤ sm_last_included_index m →
  (sm_last_included_index m < st_commit_index s ∨ st_role s = role_leader → agrees s m) →
  keeps (compact_to sn) c.
Proof.
  cbv zeta. intros [Hb Ht Hi] Hl Hn1 Hn2 Hm Hbase Hla Hag. unfold compact_to. do 3 mstep.
  apply mwp_modify. mstep. apply mwp_modify. apply mwp_modify.
  set (m := sn_metadata sn) in *. set (s := co_state c) in *.
  pose proof (cb_server _ Hb) as [Hg Hcand Hpend].
  assert (good (compacted_state m s)) as Hg' by by apply good_compacted.
  assert (st_commit_index s ≤ st_commit_index (compacted_state m s)) as Hcm by (simpl; lia).
  destruct Hb as [B1 B2 B3 B4 B5 B6 B7 B8 B9 [K1 K2 K3 K4] B11].
  split; [split|..]; simpl; try done.
  - apply Forall_forall. intros e He%compacted_log_sublist. by apply (proj1 (Forall_forall _ _) B5).
  - eapply reads_step; [..|exact B7]; try done. apply role_reads_same.
  - intros p Hp. simpl in Hp.
    destruct (lw_pending_application (co_log_work c)) as [p0|] eqn:Hp0; [|done].
    destruct (Z.leb_spec (en_index (ap_entry (pa_request p0))) (sm_last_included_index m)); [done|].
    injection Hp as <-. destruct (B8 _ Hp0) as [Hlt He]. fold s in Hlt, He.
    destruct (entry_at_index _ _ _ Hg He) as [Hei _].
    assert (sm_last_included_index m = st_last_applied s) as Hix by lia.
    destruct (compacted_log_spec s m Hg Hbase) as (_ & Hyes & _).
    destruct Hyes as (_ & _ & Hlook); [apply Hag; left; lia|].
    change (Z.max (st_last_applied s) (sm_last_included_index m) <
      Z.max (st_commit_index s) (sm_last_included_index m) ∧
      entry_at (compacted_state m s) (Z.max (st_last_applied s) (sm_last_included_index m) + 1)
      = Some (ap_entry (pa_request p0))).
    rewrite Z.max_l by lia. split; [lia|]. unfold entry_at in *.
    change (snapshot_base (compacted_state m s)) with (sm_last_included_index m).
    change (log_of (compacted_state m s)) with (compacted_log s m).
    destruct (Z.ltb_spec (sm_last_included_index m) (st_last_applied s + 1)); [|lia].
    destruct (Z.ltb_spec (snapshot_base s) (st_last_applied s + 1)); [|lia].
    rewrite Hlook by lia. done.
  - intros p Hp. simpl in Hp. congruence.
  - split; simpl; try done; [by rewrite Hn1|by rewrite Hn2].
  - by apply (steady_frame s).
  - by destruct Ht; split.
Qed.

Lemma local_agrees s m : good s → local_ok s m → agrees s m.
Proof.
  intros [[] [] Hroom] [[M1 M2] L2 L3 L4]. unfold applied_term in L4.
  destruct (Z.eqb_spec (sm_last_included_index m) (snapshot_base s)); [lia|].
  apply bind_Ret in L4 as (e & Hat & [= Ht]). rewrite u64_small in Hat by lia.
  exists e. split; [|done]. unfold entry_at, log_at in *.
  destruct (Z.ltb_spec (snapshot_base s) (sm_last_included_index m)); [|lia].
  destruct (log_of s !! _); [|done]. by injection Hat as <-.
Qed.

Lemma install_persisted_snapshot_keeps id sn r c :
  core_ok c → keeps (install_persisted_snapshot id sn r) c.
Proof.
  intros Hok. unfold install_persisted_snapshot. do 2 mstep.
  destruct (sw_pending_snapshot (co_snapshots c)) as [p|] eqn:Hp; [|by mstep; right]. mstep; [|by mstep; right].
  mstep. apply mwp_modify. set (c1 := on_snapshots _ c). set (durable := mkSnapshot _ _ _).
  pose proof Hok as [Hb Ht Hi]. destruct Hb as [B1 B2 B3 B4 B5 B6 B7 B8 B9 [K1 K2 K3 K4] B11].
  assert (lw_pending_log (co_log_work c) = None) as Hl.
  { apply eq_None_not_Some. intros [q Hq]. destruct (B9 _ Hq) as (_ & _ & _ & Hn & _). congruence. }
  assert (sw_pending_snapshot_restore (co_snapshots c) = None) as Hn2 by (destruct K4; [congruence|done]).
  assert (core_ok c1) as Hok1.
  { split; [split|..]; try done; [|split; simpl; try done; by left]. intros q Hq. simpl in Hq. congruence. }
  pose proof (K2 _ Hp) as Hk. destruct (sp_local_creation p).
  - mstep. eapply mwp_mono; [apply (compact_to_keeps durable c1)| |done]; try done; simpl.
    + by destruct Hk.
    + by destruct Hk.
    + destruct Hk. lia.
    + intros _. apply local_agrees; [|done]. by apply core_ok_good.
  - destruct Hk as (Hrem & [reply Hreply] & [response Hresp]). mstep. apply mwp_deref; [|congruence].
    intros reply' _. mstep. apply mwp_deref; [|congruence]. intros response' _. mstep. apply mwp_modify. mstep.
    destruct Hok1 as [[C1 C2 C3 C4 C5 C6 C7 C8 C9 [L1 L2 L3 L4] C11] Ht1 Hi1].
    split; [split|..]; try done; simpl.
    + intros q Hq. simpl in Hq. congruence.
    + split; simpl; try done; [|by left]. by intros q [= <-].
Qed.

Lemma complete_snapshot_restore_keeps id index r c :
  core_ok c →
  (∀ p, sw_pending_snapshot_restore (co_snapshots c) = Some p →
    let m := sn_metadata (rs_snapshot p) in
    sm_last_included_index m < st_commit_index (co_state c) → agrees (co_state c) m) →
  keeps (complete_snapshot_restore id index r) c.
Proof.
  intros Hok Hag. unfold complete_snapshot_restore. do 2 mstep.
  destruct (sw_pending_snapshot_restore (co_snapshots c)) as [p|] eqn:Hp; [|by mstep; right]. mstep; [|by mstep; right].
  mstep. apply mwp_modify. set (c1 := on_snapshots _ c).
  pose proof Hok as [Hb Ht Hi]. destruct Hb as [B1 B2 B3 B4 B5 B6 B7 B8 B9 [K1 K2 K3 K4] B11].
  assert (lw_pending_log (co_log_work c) = None) as Hl.
  { apply eq_None_not_Some. intros [q Hq]. destruct (B9 _ Hq) as (_ & _ & _ & _ & Hn). congruence. }
  assert (sw_pending_snapshot (co_snapshots c) = None) as Hn1 by (destruct K4; [done|congruence]).
  assert (core_ok c1) as Hok1.
  { split; [split|..]; try done; [|split; simpl; try done; by left]. intros q Hq. simpl in Hq. congruence. }
  destruct (K3 _ Hp) as [Hm Hbeyond Hrole].
  mstep. eapply mwp_mono; [apply (compact_to_keeps (rs_snapshot p) c1)| |done]; try done; simpl.
  - destruct (core_ok_good _ Hok) as [[] _ _]. lia.
  - lia.
  - intros [?|?]; [by apply (Hag _ eq_refl)|congruence].
Qed.

Lemma receive_snapshot_response_keeps from response c :
  core_ok c → idle c → keeps (receive_snapshot_response from response) c.
Proof.
  intros Hok Hidle. unfold receive_snapshot_response. do 4 mstep. apply owp_throw_when; [by right|].
  intros Hpeer%negb_false_iff%bool_decide_eq_true. mstep.
  { eapply mwp_mono; [by apply run_figure2_keeps| |done]. by intros r c' [? _]. }
  mstep; [by mstep|]. mstep. apply mwp_modify. set (c1 := on_snapshots _ c).
  assert (core_ok c1) as Hok1 by by apply core_ok_transfers.
  assert (idle c1) as Hidle1 by by destruct Hidle.
  mstep. eapply mwp_mono; [by apply run_figure2_keeps| |done].
  intros r c2 (Hok2 & fr & Hstep & Hadv & T).
  assert (idle c2) as Hidle2.
  { eapply translated_idle; [done|done|]. by eapply step_quiet in Hstep as [? _]. }
  mstep. eapply mwp_mono; [apply acknowledge_read_keeps; [done|]| |done].
  { rewrite (tl_state _ _ _ _ _ T), (av_peers _ _ Hadv). done. }
  intros r' c3 (Hok3 & d & ->). mstep.
  eapply mwp_mono; [apply run_figure2_keeps| |done]; try done; [by destruct Hidle2|].
  intros r'' c' [? _]. by mstep.
Qed.

(** ** The step function *)

(** What the invariant needs of an input: machine words, and a restored snapshot
    that agrees with the committed log it lies in. *)
Definition input_fits (c : Core) (i : Input) : Prop :=
  match i with
  | ReceiveAppendEntries _ q =>
      0 ≤ ae_previous_log_index q ∧
      ae_previous_log_index q + Z.of_nat (length (ae_entries q)) < u64_max ∧
      last_index (co_state c) + Z.of_nat (length (ae_entries q)) < u64_max ∧
      Forall (λ e, 0 ≤ en_term e) (ae_entries q)
  | ReceiveClientCommand _ => last_index (co_state c) + 1 < u64_max
  | ReceiveInstallSnapshot _ q => install_fits q
  | RaftSnapshotRestored _ _ =>
      ∀ p, sw_pending_snapshot_restore (co_snapshots c) = Some p →
        let m := sn_metadata (rs_snapshot p) in
        sm_last_included_index m < st_commit_index (co_state c) → agrees (co_state c) m
  | _ => True
  end.

(** What [validate_append_request] ensures. *)
Lemma validate_append_request_spec q :
  validate_append_request q = Ret tt → Forall (λ e, 0 ≤ en_term e) (ae_entries q) →
  Forall (λ e, en_term e ≤ ae_term q) (ae_entries q) ∧ dated (ae_entries q).
Proof.
  unfold validate_append_request. intros (? & _ & H)%bind_Ret Hpos.
  apply bind_Ret in H as (? & _ & H). apply bind_Ret in H as (? & H & _).
  assert (∀ es n n', foldM (validate_entry (ae_term q)) n es = Ret n' →
    Forall (λ e, en_term e ≠ 0 ∧ en_term e ≤ ae_term q) es) as Hes.
  { induction es as [|e es IH]; intros n n' Hf; constructor.
    - apply bind_Ret in Hf as (n1 & Hv & _). unfold validate_entry in Hv.
      apply bind_Ret in Hv as (? & _ & Hv). apply bind_Ret in Hv as (? & Hv%throw_when_Ret & _).
      apply orb_false_iff in Hv as [Hv Hle%Z.ltb_ge]. apply orb_false_iff in Hv as [_ Hz%Z.eqb_neq].
      done.
    - apply bind_Ret in Hf as (n1 & _ & Hf). by eapply IH. }
  apply Hes in H. split; apply Forall_forall; intros e He;
    pose proof (proj1 (Forall_forall _ _) H e He) as [? ?];
    pose proof (proj1 (Forall_forall _ _) Hpos e He) as Hp; simpl in *; lia.
Qed.

Lemma step_unblocked_keeps i c :
  core_ok c → idle c → input_fits c i → (∀ timer, i ≠ ElectionDeadline timer) →
  keeps (step_unblocked i) c.
Proof.
  intros Hok Hidle Hfit Hne.
  assert (∀ e, event_fits (co_state c) e → event_dated e → e ≠ ApplyCommitted →
    is_completion e = false → keeps (run_figure2 e) c) as Hrun.
  { intros e H1 H2 H3 H4. eapply mwp_mono; [by apply run_figure2_keeps| |done]. by intros r c' [? _]. }
  destruct i; simpl in *; try (by mstep); try (by apply Hrun).
  - by edestruct Hne.
  - by apply heartbeat_deadline_keeps.
  - mstep. mstep. destruct (validate_append_request request) as [[]|] eqn:Hv; simpl; [|by right].
    destruct Hfit as (H1 & H2 & H3 & H4).
    destruct (validate_append_request_spec _ Hv H4) as [H5 H6]. by apply Hrun.
  - mstep. eapply mwp_mono; [by apply run_figure2_keeps| |done].
    intros r c' (Hok' & fr & Hstep & Hadv & T).
    eapply mwp_mono; [apply acknowledge_read_keeps; [done|]| |done].
    + rewrite (tl_state _ _ _ _ _ T), (av_peers _ _ Hadv). by eapply append_response_from_peer.
    + by intros r' c'' [? _].
  - by apply hard_state_persisted_keeps.
  - by apply begin_snapshot_keeps.
  - apply receive_snapshot_keeps; [done|by left|done].
  - by apply receive_snapshot_response_keeps.
  - by apply begin_read_keeps.
  - by apply drop_read_keeps.
  - by apply drop_read_keeps.
Qed.

(** [step], unless it loses a deadline. *)
Lemma step_keeps_timers i c :
  core_ok c → input_fits c i → (∀ timer, i ≠ ElectionDeadline timer) → keeps (step i) c.
Proof.
  intros Hok Hfit Hne. unfold step. do 4 mstep. apply owp_throw_when; [by right|]. intros _.
  assert (∀ (b : bool) (m : method StepResult) x, (b = false → keeps m c) → keeps (_ ← lift (throw_when b x); m) c) as Hthrow.
  { intros b m x Hm. mstep. mstep. apply owp_throw_when; [by right|done]. }
  assert (keeps (_ ← lift (throw_when (bool_decide (is_Some (sw_pending_snapshot (co_snapshots c)))
      || bool_decide (is_Some (sw_pending_snapshot_restore (co_snapshots c))))
      (logic_error "Raft core input is blocked on snapshot persistence/restore"));
    _ ← lift (throw_when (bool_decide (is_Some (lw_pending_log (co_log_work c))))
      (logic_error "Raft core input is blocked on log persistence")); step_unblocked i) c) as Hun.
  { apply Hthrow. intros [H1%bool_decide_eq_false%eq_None_not_Some
      H2%bool_decide_eq_false%eq_None_not_Some]%orb_false_iff.
    apply Hthrow. intros H3%bool_decide_eq_false%eq_None_not_Some. by apply step_unblocked_keeps. }
  destruct i; try exact Hun; clear Hun.
  - apply Hthrow. intros _. by apply log_persisted_keeps.
  - apply Hthrow. intros [H1%bool_decide_eq_false%eq_None_not_Some
      H2%bool_decide_eq_false%eq_None_not_Some]%orb_false_iff. by apply entry_applied_keeps.
  - apply Hthrow. intros _. by apply entry_apply_failed_keeps.
  - apply Hthrow. intros _. by apply retry_application_keeps.
  - mstep. eapply mwp_mono; [by apply install_persisted_snapshot_keeps| |done].
    intros r c' H. by apply finish_completion_keeps.
  - mstep. eapply mwp_mono; [by apply complete_snapshot_restore_keeps| |done].
    intros r c' H. by apply finish_completion_keeps.
Qed.

Lemma step_keeps i c :
  core_ok c → input_fits c i →
  mwp (step i) c (λ _ c', core_ok c')
    (λ x c', exhausted x ∨ RaftCoreInv.core_ok (lost ∨ loses_deadline c i) c').
Proof.
  intros Hok Hfit. assert ((∀ timer, i ≠ ElectionDeadline timer) ∨ ∃ timer, i = ElectionDeadline timer)
    as [Hne|[timer ->]] by (destruct i; eauto).
  { eapply mwp_mono; [by apply step_keeps_timers|done|]. intros x c' [?|?]; [by left|right].
    eapply core_ok_weaken; [|done]. by left. }
  set (Q := λ (x : exn) (c' : Core), _).
  assert (∀ x, Q x c) as HQ.
  { intros x. right. eapply core_ok_weaken; [|done]. by left. }
  unfold step. do 4 mstep. apply owp_throw_when; [done|]. intros _. do 2 mstep.
  apply owp_throw_when; [done|]. intros [H1%bool_decide_eq_false%eq_None_not_Some
    H2%bool_decide_eq_false%eq_None_not_Some]%orb_false_iff. do 2 mstep.
  apply owp_throw_when; [done|]. intros H3%bool_decide_eq_false%eq_None_not_Some.
  by apply election_deadline_keeps.
Qed.

(** ** Construction *)

(** The recovered state is of machine words. *)
Record recovered_fits (rc : Recovered) : Prop := {
  rf_term : 0 ≤ hs_current_term (rc_hard_state rc);
  rf_log : Forall (λ e, 0 ≤ en_term e) (rc_log rc);
  rf_snapshot : ∀ sn, rc_snapshot rc = Some sn → 0 ≤ sm_last_included_index (sn_metadata sn);
  rf_room : match rc_snapshot rc with
            | Some sn => sm_last_included_index (sn_metadata sn)
            | None => 0
            end + Z.of_nat (length (rc_log rc)) < u64_max }.

(** What construction leaves: a valid follower. *)
Lemma construct_state self peers cf rc seed c :
  construct self peers cf rc seed = Ret c →
  ∃ log applied, (∃ k, log = drop k (rc_log rc)) ∧ (2 ≤ length peers)%nat ∧
    Forall (λ e, en_term e ≠ 0) (rc_log rc) ∧
    let s := initial_state self peers (rc_hard_state rc) (sn_metadata <$> rc_snapshot rc) log applied in
    validate s = [] ∧ c = initial_core cf s seed (rc_snapshot rc).
Proof.
  unfold construct. intros (u & Hargs & H)%bind_Ret. apply bind_Ret in H as (s & Hs & H).
  apply bind_Ret in H as (u' & Hchk & [= <-]).
  assert (∃ log applied, (∃ k, log = drop k (rc_log rc)) ∧
    s = initial_state self peers (rc_hard_state rc) (sn_metadata <$> rc_snapshot rc) log applied)
    as (log & applied & Hlog & ->).
  { destruct (rc_snapshot rc) as [sn|]; simpl.
    - apply bind_Ret in Hs as (? & _ & Hs). apply bind_Ret in Hs as (log & Hlog & [= <-]).
      do 2 eexists. split; [|reflexivity]. unfold recover_log in Hlog.
      destruct (list_find _ _) as [[i e]|].
      + apply bind_Ret in Hlog as (? & _ & [= <-]). by eexists.
      + apply bind_Ret in Hlog as (? & _ & [= <-]). by exists 0%nat.
    - injection Hs as <-. do 2 eexists. split; [by exists 0%nat|reflexivity]. }
  exists log, applied. split; [done|]. unfold check_arguments in Hargs. cbv zeta in Hargs.
  do 2 apply bind_Ret in Hargs as (? & _ & Hargs).
  apply bind_Ret in Hargs as (? & Hsize%throw_when_Ret & Hargs).
  apply orb_false_iff in Hsize as [Hsize%Z.ltb_ge _]. unfold length_Z in Hsize.
  do 7 apply bind_Ret in Hargs as (? & _ & Hargs). apply throw_when_Ret in Hargs as Hent.
  unfold check_state in Hchk. apply bind_Ret in Hchk as (? & _ & Hchk).
  split; [lia|]. split.
  - apply Forall_forall. intros e He Hz. apply not_true_iff_false in Hent. apply Hent.
    apply existsb_exists. exists e. split; [by apply list_elem_of_In|]. by apply Z.eqb_eq.
  - split; [|done]. by destruct (validate _).
Qed.

Lemma construct_ok self peers cf rc seed c :
  construct self peers cf rc seed = Ret c → recovered_fits rc → core_base c.
Proof.
  intros Hc [F1 F2 F3 F4].
  destruct (construct_state _ _ _ _ _ _ Hc) as (log & applied & [k ->] & Hsz & Hnz & Hval & ->).
  set (s := initial_state _ _ _ _ _ _) in *.
  assert (snapshot_base s = match rc_snapshot rc with
    | Some sn => sm_last_included_index (sn_metadata sn) | None => 0 end) as Hbase.
  { unfold snapshot_base. simpl. by destruct (rc_snapshot rc). }
  assert (0 ≤ snapshot_base s) as H0.
  { rewrite Hbase. destruct (rc_snapshot rc) as [sn|]; [by apply F3|done]. }
  assert (snapshot_base s + Z.of_nat (length (log_of s)) < u64_max) as Hroom.
  { rewrite Hbase. change (log_of s) with (drop k (rc_log rc)). rewrite length_drop. lia. }
  assert (state_fits s) as Hfits by by split; try done; lia.
  assert (dated (log_of s)) as Hd.
  { apply Forall_drop, Forall_forall. intros e He.
    pose proof (proj1 (Forall_forall _ _) F2 e He). pose proof (proj1 (Forall_forall _ _) Hnz e He).
    simpl in *. lia. }
  assert (state_ok s) as Hok by (apply validate_spec; [done|by intros []|done]).
  assert (good s) as Hg.
  { split; [done|done|]. destruct Hok. by rewrite last_index_length. }
  split; try done; simpl.
  - split; [done|]. by intros [?|?].
  - unfold held. simpl. set_solver.
  - split; try done. by left.
  - split; [left; by apply follower_passive|]. by intros [].
Qed.

Lemma start_keeps c :
  core_base c → st_role (co_state c) = role_follower →
  sw_install_after_hard_state (co_snapshots c) = None →
  mwp start c (λ _ c', core_ok c') (λ _ _, True).
Proof.
  intros Hb Hr Hi. unfold start. do 4 mstep. apply owp_throw_when; [done|]. intros _. mstep.
  apply mwp_modify. mstep. eapply mwp_mono; [apply next_deadline_spec| |done].
  intros e c' (delay & random & _ & _ & -> & _). mstep. split.
  - apply core_base_timers. by destruct Hb; split.
  - split; simpl; [congruence|congruence|]. intros _. left. by eexists.
  - intros from q Hq. simpl in Hq. congruence.
Qed.
End keeping.
