(* ===== verification/RaftCoreTrace.v ===== *)
(** * Accounting for the effects of a call

    Where the reads a core holds and answers, the entries it hands to the state
    machine and the messages about its log come from, for every call of [step]
    that returns; and what a call that throws may have done to reads and log.  The
    properties of whole runs are sums of these accounts. *)

From S2P Require Import Prelude OrdMap Bytes StoreTypes RaftTypes Codec RaftMessages Figure2.
From S2P Require Import Figure2Votes Figure2Log Figure2Steps Figure2Effects.
From S2P Require Import RaftCore RaftCoreFrames RaftCoreTranslate RaftCoreInv RaftCoreKeep.
Import election.
#[local] Open Scope Z_scope.

(** Nothing waits for the log to be written. *)
Definition settled (c : Core) : Prop :=
  lw_pending_log (co_log_work c) = None ∧ Figure2.PersistLog ∉ held (co_state c).

(** The input is a positive answer of [n], in term [t], to a message with read
    context [k]. *)
Definition acknowledges (i : Input) (n t k : Z) : Prop :=
  match i with
  | ReceiveAppendEntriesResponse from q =>
      from = n ∧ ar_term q = t ∧ ar_succeeded q = true ∧ ar_read_context q = Some k
  | ReceiveInstallSnapshotResponse from q =>
      from = n ∧ ir_term q = t ∧ ir_succeeded q = true ∧ ir_read_context q = Some k
  | _ => False
  end.

(** How a call with input [i] in state [c] comes to hold read [p] under context
    [k]: it held it, it held it with one acknowledgement less, or [i] asked. *)
Definition derived (c : Core) (i : Input) (k : Z) (p : PendingRead) : Prop :=
  let s := co_state c in
  rd_pending_reads (co_reads c) !! k = Some p ∨
  (∃ p0 n, rd_pending_reads (co_reads c) !! k = Some p0 ∧ acknowledges i n (current_term s) k ∧
     n ∈ st_peers s ∧ pr_request p = pr_request p0 ∧ pr_read_index p = pr_read_index p0 ∧
     pr_acknowledgements p = {[n]} ∪ pr_acknowledgements p0) ∨
  (i = ReadIndexRequest (pr_request p) ∧ k = rd_next_read_context (co_reads c) ∧
     st_role s = role_leader ∧ commit_term s = Ret (current_term s) ∧
     pr_read_index p = st_commit_index s ∧ pr_acknowledgements p = {[st_node s]}).

(** The applied index after a call. *)
Definition applied_after (c : Core) (i : Input) : Z :=
  match i with
  | LogEntryApplied _ index | RaftSnapshotRestored _ index => index
  | _ => st_last_applied (co_state c)
  end.

(** The log that is known to be durable after a call. *)
Definition logged_after (c : Core) (i : Input) (log : list LogEntry) : Prop :=
  (∃ q, i = RaftLogPersisted q ∧ ∀ e, e ∈ log → e ∈ pl_log q) ∨
  (settled c ∧ ∀ e, e ∈ log → e ∈ log_of (co_state c)).

(** The part of the account that only mentions the object. *)
Record accounts_state (c : Core) (i : Input) (c1 : Core) : Prop := {
  ac_reads : ∀ k p, rd_pending_reads (co_reads c1) !! k = Some p →
    derived c i k p ∧ current_term (co_state c1) = current_term (co_state c);
  ac_applied : st_last_applied (co_state c1) = applied_after c i;
  ac_log : settled c1 → logged_after c i (log_of (co_state c1));
  ac_peers : st_peers (co_state c1) = st_peers (co_state c);
  ac_node : st_node (co_state c1) = st_node (co_state c) }.

(** The part about the effects released so far. *)
Record accounts_effects (c : Core) (i : Input) (r : StepResult) (c1 : Core) : Prop := {
  ac_responses : ∀ request index, ReadIndexResponse request index ∈ sr_effects r →
    ∃ k p, derived c i k p ∧ pr_request p = request ∧ pr_read_index p = index ∧
      index ≤ st_last_applied (co_state c1) ∧
      majority (co_state c) ≤ Z.of_nat (size (pr_acknowledgements p));
  ac_apply : ∀ q, ApplyLogEntry q ∈ sr_effects r →
    lw_pending_application (co_log_work c1) = Some (mkPendingApplication q false);
  ac_relies : ∀ e, e ∈ sr_effects r → core_relies e → settled c1 }.

Definition accounts (c : Core) (i : Input) (r : StepResult) (c1 : Core) : Prop :=
  accounts_state c i c1 ∧ accounts_effects c i r c1.

(** The account of a call that throws and leaves [c1]. *)
Record unanswered (c : Core) (i : Input) (c1 : Core) : Prop := {
  un_reads : ∀ k p, rd_pending_reads (co_reads c1) !! k = Some p →
    derived c i k p ∧ current_term (co_state c1) = current_term (co_state c);
  un_log : settled c1 → settled c ∧ ∀ e, e ∈ log_of (co_state c1) → e ∈ log_of (co_state c);
  un_peers : st_peers (co_state c1) = st_peers (co_state c);
  un_node : st_node (co_state c1) = st_node (co_state c) }.

Lemma unanswered_unchanged c i : unanswered c i c.
Proof. split; try done. intros k p Hp. split; [by left|done]. Qed.

Lemma accounts_unanswered c i c1 :
  (∀ q, i ≠ RaftLogPersisted q) → accounts_state c i c1 → unanswered c i c1.
Proof.
  intros Hi [S1 S2 S3 S4 S5]. split; try done. intros Hs.
  destruct (S3 Hs) as [(q & Hq & _)|?]; [by destruct (Hi q)|done].
Qed.

(** Effects that need no account. *)
Definition plain (e : Effect) : Prop :=
  ¬ core_relies e ∧
  match e with ReadIndexResponse _ _ | ApplyLogEntry _ => False | _ => True end.

Lemma accounts_plain c i es c1 :
  accounts_state c i c1 → Forall plain es → accounts c i (with_effects es) c1.
Proof.
  intros Hs Hes. split; [done|].
  assert (∀ e, e ∈ es → plain e) as Hp by by apply Forall_forall.
  split; simpl.
  - intros request index Hin. by destruct (Hp _ Hin).
  - intros q Hin. by destruct (Hp _ Hin).
  - intros e Hin He. by destruct (Hp _ Hin).
Qed.

Lemma accounts_emit c i r c1 e : accounts c i r c1 → plain e → accounts c i (emit r e) c1.
Proof.
  intros [Hs [E1 E2 E3]] [Hr He]. split; [done|]. split; simpl.
  - intros request index [?|Heq%list_elem_of_singleton]%elem_of_app; [auto|by subst e].
  - intros q [?|Heq%list_elem_of_singleton]%elem_of_app; [auto|by subst e].
  - intros e' [?| ->%list_elem_of_singleton]%elem_of_app; [eauto|done].
Qed.

(** The state a call starts with. *)
Lemma accounts_start c i :
  (applied_after c i = st_last_applied (co_state c)) → accounts_state c i c.
Proof.
  intros Ha. split; [|done| |done|done].
  - intros k p Hp. split; [by left|done].
  - intros Hs. right. done.
Qed.

(** ** Helpers *)

Section accounting.
Context {lost : Prop} (c : Core) (i : Input).
Hypothesis Hwrite : ∀ q, i ≠ RaftLogPersisted q.

Abbreviation core_ok := (RaftCoreInv.core_ok lost).
Abbreviation threw := (λ e c', exhausted e ∨ unanswered c i c').
Abbreviation accounted m c1 := (mwp m c1 (accounts c i) threw).

Lemma translated_accounts r c1 fr r' c2 :
  accounts c i r c1 →
  lw_pending_log (co_log_work c1) = None ∨ (∀ e, e ∈ res_effects fr → ¬ relies_on_log e) →
  advances (co_state c1) fr →
  (∀ k p, rd_pending_reads (co_reads c1) !! k = Some p → st_role (co_state c1) = role_leader) →
  sr_effects r = [] ∨
    (Figure2.PersistLog ∉ res_effects fr) ∧ Figure2.PersistLog ∉ held (res_state fr) →
  translated c1 fr (st_role (co_state c1)) r' c2 → accounts c i (append_result r r') c2.
Proof.
  intros [[S1 S2 S3 S4 S5] [E1 E2 E3]] Hlw A Hl Hno T.
  assert (lw_pending_log (co_log_work c1) = None → Figure2.PersistLog ∉ res_effects fr →
    Figure2.PersistLog ∉ held (res_state fr) → settled c2) as Hsettled.
  { intros H0 H1 H2. split; [|by rewrite (tl_state _ _ _ _ _ T)].
    destruct (tl_log _ _ _ _ _ T) as [[_ E]|[? _]]; [congruence|done]. }
  assert (settled c2 → settled c1 ∧ log_of (co_state c2) = log_of (co_state c1)) as Hback.
  { intros [H1 H2]. rewrite (tl_state _ _ _ _ _ T) in *.
    assert (Figure2.PersistLog ∉ res_effects fr) as Hno1.
    { intros Hin. destruct (tl_log _ _ _ _ _ T) as [[? _]|(_ & _ & p & E & _)]; [done|congruence]. }
    destruct (av_quiet _ _ A Hno1 H2) as [El Hh]. split; [|done]. split; [|done].
    destruct (tl_log _ _ _ _ _ T) as [[_ E]|[? _]]; [congruence|done]. }
  split; split.
  - intros k p Hp. destruct (tl_reads _ _ _ _ _ T) as (_ & _ & Hd).
    rewrite (tl_state _ _ _ _ _ T).
    destruct (bool_decide (st_role (co_state c1) = role_leader)) eqn:Hr1;
      destruct (bool_decide (st_role (res_state fr) = role_leader)) eqn:Hr2; simpl in Hd.
    + rewrite Hd in Hp. apply bool_decide_eq_true in Hr1, Hr2. rewrite (av_stay _ _ A) by done. auto.
    + destruct Hd as [E _]. by rewrite E, lookup_empty in Hp.
    + rewrite Hd in Hp. apply bool_decide_eq_false in Hr1. by apply Hl in Hp.
    + rewrite Hd in Hp. apply bool_decide_eq_false in Hr1. by apply Hl in Hp.
  - rewrite (tl_state _ _ _ _ _ T), (av_applied _ _ A). done.
  - intros [Hc1 ->]%Hback. auto.
  - rewrite (tl_state _ _ _ _ _ T), (av_peers _ _ A). done.
  - rewrite (tl_state _ _ _ _ _ T), (av_node _ _ A). done.
  - simpl. intros request index [Hin|Hin]%elem_of_app; [|by destruct (tl_reads_effects _ _ _ _ _ T request index)].
    rewrite (tl_state _ _ _ _ _ T), (av_applied _ _ A). auto.
  - simpl. intros q [Hin|Hin]%elem_of_app; [|by apply (tl_apply _ _ _ _ _ T)].
    destruct (tl_application _ _ _ _ _ T) as [->|[Hn _]]; [auto|]. rewrite (E2 _ Hin) in Hn. done.
  - simpl. intros e [Hin|Hin]%elem_of_app He.
    + destruct Hno as [Hr|[H1 H2]]; [rewrite Hr in Hin; set_solver|].
      apply Hsettled; [|done..]. by destruct (E3 _ Hin He).
    + destruct (tl_relies _ _ _ _ _ T e Hin He) as (fpre & fe & fpost & Heq & Hfe & Hpre).
      destruct (av_relies _ _ A _ _ _ Heq Hfe Hpre).
      destruct Hlw as [?|Hq]; [auto|]. destruct (Hq fe); [rewrite Heq; set_solver|done].
Qed.

(** Translation keeps reads or drops them all. *)
Lemma translated_reads c1 fr previous r c2 k p :
  translated c1 fr previous r c2 → rd_pending_reads (co_reads c2) !! k = Some p →
  rd_pending_reads (co_reads c1) !! k = Some p.
Proof.
  intros T. destruct (tl_reads _ _ _ _ _ T) as (_ & _ & Hd). case_match.
  - destruct Hd as [-> _]. by rewrite lookup_empty.
  - by rewrite Hd.
Qed.

Lemma complete_ready_reads_accounts r c1 :
  accounts c i r c1 → core_ok c1 → accounted (complete_ready_reads r) c1.
Proof.
  intros [[S1 S2 S3 S4 S5] [E1 E2 E3]] Hok. eapply mwp_mono; [apply complete_ready_reads_spec| |done].
  intros r' c2 (d & -> & [D1 _ _ _ _] & ->). split; split; simpl; try done.
  - intros k p Hp. apply S1. rewrite D1 in Hp. by apply (foldl_delete_Some fst) in Hp as [? _].
  - intros request index [Hin|Hin]%elem_of_app; [auto|].
    apply list_elem_of_fmap in Hin as ([k p] & [= -> ->] & Hin).
    pose proof (ready_reads_pending _ _ Hin) as Hp. simpl in Hp. destruct (S1 _ _ Hp) as [Hder _].
    unfold ready_reads in Hin. apply list_elem_of_filter in Hin as [Hready _]. simpl in Hready.
    unfold read_ready in Hready. apply andb_prop in Hready as [Hq Hle%Z.leb_le].
    exists k, p. split_and!; try done.
    pose proof (rk_pending _ _ (cb_reads _ (ck_base _ Hok)) _ _ Hp) as [_ _ _ _ _ R6 _ _].
    rewrite <-(majority_peers (co_state c) (co_state c1)) by done. auto.
  - intros q [Hin|Hin]%elem_of_app; [auto|]. by apply list_elem_of_fmap in Hin as (? & ? & _).
  - intros e [Hin|Hin]%elem_of_app He; [by eapply E3|].
    by apply list_elem_of_fmap in Hin as (? & -> & _).
Qed.

Lemma schedule_application_accounts r c1 :
  accounts c i r c1 → good (co_state c1) → accounted (schedule_application r) c1.
Proof.
  intros [[S1 S2 S3 S4 S5] [E1 E2 E3]] Hg.
  eapply mwp_mono; [eapply (mwp_throws _ _ _ (λ e _, exhausted e));
    [apply schedule_application_scheduled|by apply schedule_application_tires]| |by left].
  intros r' c2 ([w ->] & Hl & Hs & Hr).
  assert (settled (set_log_work w c1) ↔ settled c1) as Hset.
  { unfold settled. simpl in *. by rewrite Hl. }
  split; split; simpl; try done.
  - by rewrite Hset.
  - intros request index Hin. apply E1. destruct Hr as [->|(q & -> & _)]; [done|].
    by apply elem_of_app in Hin as [?|?%list_elem_of_singleton].
  - intros q Hin. simpl in *. destruct Hr as [->|(q' & -> & Hn & Hs')].
    + destruct Hs as [->|[Hn _]]; [auto|]. by rewrite (E2 _ Hin) in Hn.
    + apply elem_of_app in Hin as [Hin|[= ->]%list_elem_of_singleton]; [|done].
      by rewrite (E2 _ Hin) in Hn.
  - intros e Hin He. rewrite Hset. apply (E3 e); [|done]. destruct Hr as [->|(q & -> & _)]; [done|].
    by apply elem_of_app in Hin as [?| ->%list_elem_of_singleton].
Qed.

Lemma finish_completion_accounts r c1 :
  accounts c i r c1 → core_ok c1 → accounted (finish_completion r) c1.
Proof.
  intros Ha Hok. unfold finish_completion. mstep.
  eapply mwp_mono; [apply mwp_and; [by apply complete_ready_reads_accounts|
    eapply mwp_mono; [by apply complete_ready_reads_spec|intros ? ? H; exact H|done]]| |done].
  intros r1 c2 [H1 (d & -> & _)]. apply schedule_application_accounts; [done|].
  exact (core_ok_good _ Hok).
Qed.

Lemma acknowledge_read_accounts from q r c1 :
  accounts c i r c1 → core_ok c1 → from ∈ st_peers (co_state c1) →
  (∀ k p, rd_pending_reads (co_reads c1) !! k = Some p → rd_pending_reads (co_reads c) !! k = Some p) →
  (∀ n t k, n = from → ar_term q = t → ar_succeeded q = true → ar_read_context q = Some k →
     acknowledges i n t k) →
  accounted (acknowledge_read from q r) c1.
Proof.
  intros Ha Hok Hfrom Hsub Hack. unfold acknowledge_read. do 2 mstep. mstep; [by mstep|].
  rename select (_ || _ = false) into Hb. apply orb_false_iff in Hb as [Hb Hs%negb_false_iff].
  apply orb_false_iff in Hb as [Hr%negb_false_iff%bool_decide_eq_true Ht%negb_false_iff%Z.eqb_eq].
  destruct (ar_read_context q) as [k|] eqn:Hk; [|by mstep].
  destruct (rd_pending_reads (co_reads c1) !! k) as [p|] eqn:Hp; [|by mstep].
  mstep. apply mwp_modify. destruct Ha as [[S1 S2 S3 S4 S5] [E1 E2 E3]].
  apply complete_ready_reads_accounts.
  - split; split; simpl; try done.
    intros k' p' [[<- <-]|[Hne Hp']]%lookup_insert_Some; [|auto].
    destruct (S1 _ _ Hp) as [_ Hterm]. split; [|done]. right. left. exists p, from.
    split_and!; try done; [by apply Hsub|apply Hack; try done; congruence|congruence].
  - apply core_ok_reads; [done|].
    by apply (acknowledged_ok _ (co_reads c1) _ _ _ (cb_reads _ (ck_base _ Hok))).
Qed.

(** A Figure 2 step at the start of a call. *)
Lemma run_figure2_accounts e c1 :
  accounts_state c i c1 → core_base c1 → idle c1 → event_fits (co_state c1) e → event_dated e →
  e ≠ ApplyCommitted →
  mwp (run_figure2 e) c1 (λ r c2, accounts c i r c2 ∧ ∃ fr, Figure2.step (co_state c1) e = Ret fr ∧
    advances (co_state c1) fr ∧ translated c1 fr (st_role (co_state c1)) r c2) threw.
Proof.
  intros Ha Hok Hidle Hfit Hdat Hne.
  eapply mwp_mono; [apply run_figure2_base; try done; by apply idle_ready| |].
  2: { intros x c' [?|[-> _]]; [by left|right]. by apply accounts_unanswered. }
  intros r c2 (fr & Hstep & Hadv & T & _). split; [|by eauto].
  assert (append_result (with_effects []) r = mkStep (sr_rules r) (sr_effects r)) as Heq by done.
  destruct r as [rules es]. simpl in Heq. rewrite <-Heq.
  eapply translated_accounts; try done; [by apply accounts_plain|left; by destruct Hidle| |by left].
  intros k p Hp. by destruct (rk_pending _ _ (cb_reads _ Hok) _ _ Hp).
Qed.

(** *** Results put together *)

Lemma accounts_state_frame c1 c2 :
  co_state c2 = co_state c1 → co_reads c2 = co_reads c1 →
  lw_pending_log (co_log_work c2) = lw_pending_log (co_log_work c1) →
  accounts_state c i c1 → accounts_state c i c2.
Proof.
  intros Es Er El [S1 S2 S3 S4 S5]. split; rewrite ?Es, ?Er; try done.
  intros [H1 H2]. apply S3. by rewrite El, Es in *.
Qed.

Lemma append_nothing r : append_result (with_effects []) r = r.
Proof. by destruct r. Qed.

Lemma append_result_emit r r' e : append_result r (emit r' e) = emit (append_result r r') e.
Proof. unfold append_result, emit. simpl. by rewrite app_assoc. Qed.

Lemma accounts_append_plain r c1 e :
  accounts c i r c1 → plain e → accounts c i (append_result r (with_effects [e])) c1.
Proof.
  intros Ha He. assert (append_result r (with_effects [e]) = emit r e) as ->.
  { unfold append_result, emit. simpl. by rewrite app_nil_r. }
  by apply accounts_emit.
Qed.

(** *** Snapshots *)

Lemma request_snapshot_accounts sn reply response local c1 r :
  accounts c i r c1 →
  mwp (request_snapshot sn reply response local) c1
    (λ e c2, plain e ∧ accounts c i r c2) (λ x _, exhausted x).
Proof.
  intros [Hs [E1 E2 E3]]. unfold request_snapshot. do 4 mstep. apply owp_throw_when; [by eexists|].
  intros _. mstep. apply mwp_modify. mstep. split; [by split; [intros []|]|].
  split; [by apply (accounts_state_frame c1)|done].
Qed.

Lemma begin_snapshot_accounts request c1 :
  accounts_state c i c1 → accounted (begin_snapshot request) c1.
Proof.
  intros Hs. assert (∀ reason, accounts c i (reject_snapshot reason) c1) as Hrej.
  { intros reason. apply accounts_plain; [done|]. constructor; [|done]. by split; [intros []|]. }
  unfold begin_snapshot. do 2 mstep. mstep; [by mstep|]. mstep; [by mstep|].
  destruct (match sw_durable_snapshot (co_snapshots c1) with Some _ => _ | None => _ end); [by mstep|].
  mstep; [by mstep|]. mstep; [by mstep|]. mstep; [by mstep|]. do 2 mstep.
  destruct (applied_term _ _); simpl; [|right; by apply accounts_unanswered]. mstep.
  eapply mwp_mono; [apply (request_snapshot_accounts _ _ _ _ _ (with_effects [])); by apply accounts_plain| |by left].
  intros e c2 [He Ha]. mstep. rewrite <-(append_nothing (with_effects [e])).
  by apply accounts_append_plain.
Qed.

Lemma install_snapshot_accounts from q r r' c1 :
  accounts c i (append_result r r') c1 →
  mwp (install_snapshot from q r') c1 (λ r2 c2, accounts c i (append_result r r2) c2)
    (λ x _, exhausted x).
Proof.
  intros Ha.
  assert (∀ response, accounts c i (append_result r (emit r' (install_reply from response))) c1) as Hrep.
  { intros response. rewrite append_result_emit. apply accounts_emit; [done|]. by split; [intros []|]. }
  unfold install_snapshot. do 2 mstep. mstep; [mstep; apply Hrep|]. mstep; [mstep; apply Hrep|].
  destruct (match sw_durable_snapshot (co_snapshots c1) with Some _ => _ | None => _ end);
    [mstep; apply Hrep|]. mstep; [mstep; apply Hrep|]. mstep.
  eapply mwp_mono; [by apply request_snapshot_accounts| |done]. intros e c2 [He Ha2]. mstep.
  rewrite append_result_emit. by apply accounts_emit.
Qed.

Lemma receive_snapshot_accounts from q r c1 :
  accounts c i r c1 → core_ok c1 → admits c1 q →
  sr_effects r = [] ∨ Figure2.PersistLog ∉ held (co_state c1) →
  mwp (receive_snapshot from q) c1 (λ r2 c2, accounts c i (append_result r r2) c2) threw.
Proof.
  intros Ha Hok Hadm Hno. pose proof Hok as [Hb _ _].
  assert (∀ k p, rd_pending_reads (co_reads c1) !! k = Some p → st_role (co_state c1) = role_leader)
    as Hlead.
  { intros k p Hp. by destruct (rk_pending _ _ (cb_reads _ Hb) _ _ Hp). }
  assert (accounts c i (append_result r (with_effects [install_rejection (co_state c1) from q])) c1)
    as Hrej.
  { apply accounts_append_plain; [done|]. by split; [intros []|]. }
  unfold receive_snapshot. do 4 mstep. apply owp_throw_when; [right; by destruct Ha; apply accounts_unanswered|].
  intros _. mstep; [by mstep|]. mstep.
  - rename select ((_ <? _) = true) into Hgt. apply Z.ltb_lt in Hgt. mstep. apply mwp_modify.
    set (c2 := on_snapshots _ c1). assert (core_base c2) as Hb2 by by apply core_base_install.
    assert (accounts c i r c2) as Ha2.
    { destruct Ha as [Hs [E1 E2 E3]]. split; [by apply (accounts_state_frame c1)|done]. }
    assert (ready_for c2 (ObserveTerm (is_term q))) as Hready.
    { destruct Hadm as [?|[? _]]; [by apply (idle_ready c1)|done]. }
    eapply mwp_mono; [by apply run_figure2_base| |].
    + intros r2 c3 (fr & Hstep & Hadv & T & _). apply (translated_accounts r c2 fr); try done.
      * right. by destruct (observe_term_waits _ _ _ Hstep Hgt) as (_ & _ & ?).
      * right. by eapply step_quiet.
    + intros x c' [?|[-> _]]; [by left|right]. by destruct Ha2; apply accounts_unanswered.
  - rename select ((_ <? _) = false) into Hle. apply Z.ltb_ge in Hle.
    assert (idle c1) as Hidle by (destruct Hadm as [?|[_ ?]]; [done|lia]). mstep; [by mstep|]. mstep.
    assert (advances (co_state c1) (mkResult (follow from (co_state c1)) [] [ResetElectionTimer])) as Hadv.
    { destruct Hb. by apply follow_advances. }
    eapply mwp_mono; [eapply (mwp_throws _ _ _ (λ e _, exhausted e));
      [apply translate_spec|apply translate_tires]| |by left].
    { apply (so_good _ (av_server _ _ Hadv)). }
    { left. by destruct Hidle. }
    intros r2 c2 T. eapply mwp_mono; [apply (install_snapshot_accounts from q r r2)| |by left].
    + eapply translated_accounts; try done; [left; by destruct Hidle|].
      destruct Hno as [?|Hno]; [by left|right]. split; [|done]. simpl. set_solver.
    + by intros r3 c3 H.
Qed.

End accounting.

Lemma hard_state_persisted_accounts lost completion c :
  core_ok lost c → idle c →
  mwp (hard_state_persisted completion) c (accounts c (HardStatePersisted completion))
    (λ x c', exhausted x ∨ unanswered c (HardStatePersisted completion) c').
Proof.
  intros Hok Hidle. set (i := HardStatePersisted completion).
  assert (∀ q, i ≠ RaftLogPersisted q) as Hw by done. unfold hard_state_persisted. mstep.
  eapply mwp_mono; [apply (run_figure2_accounts c i); try done; [by apply accounts_start|by destruct Hok]| |done].
  intros r c1 (Ha & fr & Hstep & Hadv & T). do 2 mstep.
  pose proof (bt_install _ _ (tl_snapshots _ _ _ _ _ T)) as Einst.
  destruct (sw_install_after_hard_state (co_snapshots c1)) as [[from q]|] eqn:Hin; [|by mstep].
  mstep; [by mstep|]. rename select (bool_decide _ = false) into Hnone.
  apply bool_decide_eq_false, eq_None_not_Some in Hnone.
  pose proof Hok as [Hb Ht Hi].
  destruct (completion_install _ _ _ _ Hstep (cb_server _ Hb) Hi from q) as [_ Hwait]; [congruence|].
  mstep. apply mwp_modify. mstep.
  eapply mwp_mono; [apply (receive_snapshot_accounts (lost := lost) c i Hw from q r)| |done].
  - destruct Ha as [Hs [E1 E2 E3]]. split; [by apply (accounts_state_frame c i c1)|done].
  - exact (completion_core_ok _ _ _ _ Hb Ht Hidle Hadv T).
  - by eapply completion_admits.
  - right. simpl. rewrite (held_none (co_state c1)) by done. set_solver.
  - intros r2 c2 H. by mstep.
Qed.

Section handlers.
Context {lost : Prop} (c : Core).
Hypothesis (Hok : core_ok lost c) (Hidle : idle c).

Abbreviation accounted i m := (mwp m c (accounts c i) (λ e c', exhausted e ∨ unanswered c i c')).

Lemma handler_accounts i e :
  (∀ q, i ≠ RaftLogPersisted q) → applied_after c i = st_last_applied (co_state c) → event_fits (co_state c) e → event_dated e →
  e ≠ ApplyCommitted → accounted i (run_figure2 e).
Proof.
  intros Hw Hi Hfit Hdat Hne. eapply mwp_mono; [apply (run_figure2_accounts c i); try done| |done].
  - by apply accounts_start.
  - by destruct Hok.
  - by intros r c' [? _].
Qed.

Lemma append_response_accounts from q :
  accounted (ReceiveAppendEntriesResponse from q)
    (step_unblocked (ReceiveAppendEntriesResponse from q)).
Proof.
  simpl. mstep.
  eapply mwp_mono; [eapply mwp_and_l;
    [apply (run_figure2_accounts c (ReceiveAppendEntriesResponse from q)); try done;
     [by apply accounts_start|by destruct Hok]|by apply (run_figure2_keeps (lost := lost))]| |done].
  intros r c1 [[Ha _] (Hok1 & fr & Hstep & Hadv & T)].
  apply (acknowledge_read_accounts (lost := lost)); try done.
  - rewrite (tl_state _ _ _ _ _ T), (av_peers _ _ Hadv). by eapply append_response_from_peer.
  - intros k p. by eapply translated_reads.
Qed.

Lemma snapshot_response_accounts from q :
  accounted (ReceiveInstallSnapshotResponse from q) (receive_snapshot_response from q).
Proof.
  set (i := ReceiveInstallSnapshotResponse from q).
  unfold receive_snapshot_response. do 4 mstep.
  apply owp_throw_when; [right; apply unanswered_unchanged|].
  intros Hpeer%negb_false_iff%bool_decide_eq_true. mstep; [by apply handler_accounts|].
  mstep; [mstep; by apply accounts_plain; [apply accounts_start|]|].
  rename select (negb _ = false) into Hm. apply negb_false_iff in Hm. unfold transfer_matches in Hm.
  repeat rewrite andb_true_iff in Hm. destruct Hm as ((((_ & _) & Hsucc) & _) & _).
  mstep. apply mwp_modify. set (c1 := on_snapshots _ c).
  assert (core_ok lost c1) as Hok1 by by apply core_ok_transfers.
  assert (idle c1) as Hidle1 by by destruct Hidle.
  mstep. eapply mwp_mono; [eapply mwp_and_l; [apply (run_figure2_accounts c i); try done;
    [by apply (accounts_state_frame c i c); [..|apply accounts_start]|by destruct Hok1]|
    by apply (run_figure2_keeps (lost := lost))]| |done].
  intros r c2 [[Ha _] (Hok2 & fr & Hstep & Hadv & T)].
  assert (idle c2) as Hidle2.
  { eapply translated_idle; [done|done|]. by eapply step_quiet in Hstep as [? _]. }
  assert (from ∈ st_peers (co_state c2)) as Hpeer2.
  { rewrite (tl_state _ _ _ _ _ T), (av_peers _ _ Hadv). done. }
  mstep. eapply mwp_mono; [eapply mwp_and_l; [apply (acknowledge_read_accounts (lost := lost) c i from _ r c2); try done|
    by apply (acknowledge_read_keeps (lost := lost))]| |done].
  - intros k p Hp. by apply (translated_reads _ _ _ _ _ _ _ T) in Hp.
  - intros r' c3 [Ha3 (Hok3 & d & Hc3)]. mstep.
    assert (idle c3) as Hidle3 by (subst c3; by destruct Hidle2).
    eapply mwp_mono; [apply run_figure2_base; try done; [by destruct Hok3|by apply idle_ready]| |].
    2: { intros x c' [?|[-> _]]; [by left|right]. by destruct Ha3; apply accounts_unanswered. }
    intros r2 c4 (fr2 & Hstep2 & Hadv2 & T2 & _). mstep.
    eapply translated_accounts; try done.
    + left. by destruct Hidle3.
    + intros k p Hp. by destruct (rk_pending _ _ (cb_reads _ (ck_base _ Hok3)) _ _ Hp).
    + right. by eapply step_quiet.
Qed.

Lemma begin_read_accounts request :
  accounted (ReadIndexRequest request) (begin_read request).
Proof.
  set (i := ReadIndexRequest request). pose proof (unanswered_unchanged c i) as Hun.
  unfold begin_read. do 2 mstep. apply owp_throw_when; [by right|]. intros _. do 2 mstep.
  assert (∀ reason, accounted i (reject_read request reason)) as Hrej.
  { intros reason. unfold reject_read. mstep. apply mwp_modify. mstep.
    apply accounts_plain; [|constructor; [by split; [intros []|]|done]].
    destruct (accounts_start c i eq_refl). by split. }
  mstep; [done|]. rename select (negb _ = false) into Hl.
  apply negb_false_iff, bool_decide_eq_true in Hl. mstep; [done|].
  rename select (bool_decide _ = false) into Hu. apply bool_decide_eq_false in Hu.
  do 2 mstep. destruct (commit_term (co_state c)) as [term|] eqn:Hct; simpl; [|by right]. mstep; [done|].
  rename select (_ || _ = false) into Hterm.
  apply orb_false_iff in Hterm as [_ Ht%negb_false_iff%Z.eqb_eq]. subst term.
  mstep; [done|]. mstep; [done|]. mstep. apply mwp_modify. mstep.
  set (c1 := set_reads _ c).
  assert (core_ok lost c1) as Hok1.
  { apply core_ok_reads; [done|]. apply new_read_ok; try done. by destruct (ck_base _ Hok). }
  eapply mwp_mono; [apply (run_figure2_accounts c i ltac:(done) HeartbeatTimeout c1); try done| |done].
  - split; simpl; try done.
    + intros k p [[<- <-]|[_ Hp]]%lookup_insert_Some; (split; [|done]).
      * right. right. done.
      * by left.
    + intros Hs. by right.
  - by destruct Hok1.
  - by destruct Hidle.
  - intros r c2 [[Hs [E1 E2 E3]] _]. mstep. split; [done|]. split; simpl.
    + intros rq index (e & He & Hin)%list_elem_of_fmap. apply E1. by destruct e; simplify_eq/=.
    + intros q (e & He & Hin)%list_elem_of_fmap. apply E2. by destruct e; simplify_eq/=.
    + intros e (e0 & He & Hin)%list_elem_of_fmap Hrel. apply (E3 e0 Hin). by destruct e0; simplify_eq/=.
Qed.

Lemma drop_read_accounts i request reason :
  applied_after c i = st_last_applied (co_state c) → accounted i (drop_read request reason).
Proof.
  intros Hi. pose proof (accounts_start c i Hi) as Hs. unfold drop_read. do 2 mstep.
  mstep; [|mstep; by apply accounts_plain]. mstep. apply mwp_modify. mstep.
  apply accounts_plain; [|constructor; [by split; [intros []|]|done]].
  destruct Hs as [S1 S2 S3 S4 S5]. split; try done. simpl. intros k p [_ Hp]%lookup_delete_Some. auto.
Qed.

Lemma election_deadline_accounts timer :
  accounted (ElectionDeadline timer) (election_deadline timer).
Proof.
  set (i := ElectionDeadline timer). pose proof (accounts_start c i eq_refl) as Hs.
  unfold election_deadline. do 2 mstep. mstep; [mstep; by apply accounts_plain|]. mstep. apply mwp_modify.
  eapply mwp_mono; [apply (run_figure2_accounts c i); try done| |done].
  - by apply (accounts_state_frame c i c).
  - apply core_base_timers. by destruct Hok.
  - by destruct Hidle.
  - by intros r c' [? _].
Qed.

Lemma heartbeat_deadline_accounts timer :
  accounted (HeartbeatDeadline timer) (heartbeat_deadline timer).
Proof.
  set (i := HeartbeatDeadline timer). pose proof (accounts_start c i eq_refl) as Hs.
  unfold heartbeat_deadline. do 2 mstep. mstep; [mstep; by apply accounts_plain|]. mstep.
  apply mwp_modify. mstep. eapply mwp_mono; [apply (run_figure2_accounts c i); try done| |done].
  - by apply (accounts_state_frame c i c).
  - apply core_base_timers. by destruct Hok.
  - by destruct Hidle.
  - intros r c1 [[Hs1 [E1 E2 E3]] _]. mstep.
    eapply mwp_mono; [eapply (mwp_throws _ _ _ (λ e _, exhausted e));
      [apply next_heartbeat_spec|apply next_heartbeat_tires]| |by left].
    intros e c2 [-> ->]. mstep. apply accounts_emit; [|by split; [intros []|]].
    split; [by apply (accounts_state_frame c i c1)|done].
Qed.
End handlers.

(** *** Completions *)

Section completions.
Context {lost : Prop}.
Abbreviation threw c i := (λ e c', exhausted e ∨ unanswered c i c').

Lemma applied_accounts c id index :
  core_ok lost c → sw_pending_snapshot (co_snapshots c) = None →
  sw_pending_snapshot_restore (co_snapshots c) = None →
  mwp (entry_applied id index) c (accounts c (LogEntryApplied id index))
    (threw c (LogEntryApplied id index)).
Proof.
  intros Hok Hn1 Hn2. set (i := LogEntryApplied id index). unfold entry_applied. do 4 mstep.
  apply owp_throw_when; [right; apply unanswered_unchanged|]. intros Hm%negb_false_iff.
  destruct (applied_core_ok _ _ _ Hok Hn1 Hn2 Hm) as [_ Hok'].
  mstep. apply mwp_modify. mstep. apply mwp_modify.
  destruct (applied_state_frame index (co_state c)) as (E1 & E2 & E3 & E4 & E5 & E6 & E7).
  apply (finish_completion_accounts (lost := lost) c i); [|done]. apply accounts_plain.
  - split; simpl; try done.
    + intros k p Hp. unfold current_term. rewrite E4. split; [by left|done].
    + intros [H1 H2]. right. simpl in *. unfold held, log_of in *. rewrite E7 in H2. rewrite E4. done.
  - case_match; [|done]. constructor; [|done]. by split; [intros []|].
Qed.

Lemma apply_failed_accounts c id index :
  mwp (entry_apply_failed id index) c (accounts c (LogEntryApplyFailed id index))
    (threw c (LogEntryApplyFailed id index)).
Proof.
  unfold entry_apply_failed. do 4 mstep. apply owp_throw_when; [right; apply unanswered_unchanged|]. intros _.
  mstep. apply mwp_deref; [|right; apply unanswered_unchanged]. intros p Hp. mstep. apply mwp_modify. mstep.
  apply accounts_plain; [|constructor; [by split; [intros []|]|done]].
  by apply (accounts_state_frame c _ c); [..|apply accounts_start].
Qed.

Lemma retry_accounts c : mwp retry_application c (accounts c RetryApplication) (threw c RetryApplication).
Proof.
  unfold retry_application. do 2 mstep.
  destruct (lw_pending_application (co_log_work c)) as [[request []]|] eqn:Hp;
    [|mstep; right; apply unanswered_unchanged..].
  do 2 mstep. apply owp_throw_when; [right; apply unanswered_unchanged|]. intros _. mstep. apply mwp_modify. mstep.
  split; [by apply (accounts_state_frame c _ c); [..|apply accounts_start]|].
  split; simpl; intros *; try (intros ?%list_elem_of_singleton; done).
  - by intros [= ->]%list_elem_of_singleton.
  - by intros ->%list_elem_of_singleton.
Qed.

Lemma log_persisted_accounts c completion :
  core_ok lost c → mwp (log_persisted completion) c (accounts c (RaftLogPersisted completion))
    (threw c (RaftLogPersisted completion)).
Proof.
  intros Hok. set (i := RaftLogPersisted completion). unfold log_persisted. do 2 mstep.
  destruct (lw_pending_log (co_log_work c)) as [p|] eqn:Hp; [|mstep; right; apply unanswered_unchanged]. do 2 mstep.
  apply owp_throw_when; [right; apply unanswered_unchanged|].
  intros [_ Hlog%negb_false_iff%bool_decide_eq_true]%orb_false_iff. mstep. apply mwp_modify. mstep.
  destruct (cb_log _ (ck_base _ Hok) _ Hp) as (Hpl & Hheld & Hdef & _).
  set (c1 := on_log_work _ c). assert (settled c1) as Hset by by split.
  eapply mwp_mono; [eapply (mwp_throws _ _ _ (λ e _, exhausted e));
    [apply replace_compacted_appends_spec|apply replace_compacted_appends_tires]| |by left].
  intros r c2 (w & -> & Hw & _ & Hrep & _).
  apply schedule_application_accounts; [|exact (core_ok_good _ Hok)]. split; split; simpl; try done.
  - intros k q Hq. split; [by left|done].
  - intros _. left. exists completion. split; [done|]. rewrite Hlog, Hpl. done.
  - intros request index Hin. destruct (replaced_elem _ _ _ _ _ Hrep Hin) as [Hd|(? & ? & ?)]; [|done].
    by apply Hdef in Hd.
  - intros q Hin. destruct (replaced_elem _ _ _ _ _ Hrep Hin) as [Hd|(? & ? & ?)]; [|done].
    by apply Hdef in Hd.
Qed.

(** Compaction at the start of a call. *)
Lemma compact_to_accounts c i sn c1 :
  co_state c1 = co_state c → co_reads c1 = co_reads c →
  lw_pending_log (co_log_work c1) = lw_pending_log (co_log_work c) →
  applied_after c i = Z.max (st_last_applied (co_state c)) (sm_last_included_index (sn_metadata sn)) →
  mwp (compact_to sn) c1 (λ _ c2, accounts_state c i c2) (λ _ _, False).
Proof.
  intros Es Er El Ha. unfold compact_to. do 3 mstep. apply mwp_modify. mstep. apply mwp_modify.
  apply mwp_modify. split; simpl; rewrite ?Es, ?Er; try done.
  - intros k p Hp. split; [by left|done].
  - intros [H1 H2]. right. simpl in H1, H2. rewrite El in H1. split; [done|].
    intros e. apply compacted_log_sublist.
Qed.

Lemma snapshot_persisted_accounts c id sn :
  core_ok lost c →
  mwp (install_persisted_snapshot id sn (with_effects [])) c
    (accounts c (RaftSnapshotPersisted id sn)) (threw c (RaftSnapshotPersisted id sn)).
Proof.
  intros Hok. set (i := RaftSnapshotPersisted id sn). unfold install_persisted_snapshot. do 2 mstep.
  destruct (sw_pending_snapshot (co_snapshots c)) as [p|] eqn:Hp;
    [|mstep; right; apply unanswered_unchanged].
  mstep; [|mstep; right; apply unanswered_unchanged].
  mstep. apply mwp_modify. set (durable := mkSnapshot _ _ _).
  pose proof (sk_pending _ _ (cb_snapshots _ (ck_base _ Hok)) _ Hp) as Hk.
  destruct (sp_local_creation p).
  - mstep. eapply mwp_mono; [apply (compact_to_accounts c i); try done| |done].
    + simpl. destruct Hk as [_ Hix _ _]. lia.
    + intros u c2 Hs. mstep. apply accounts_emit; [|by split; [intros []|]].
      apply accounts_emit; [|by split; [intros []|]]. by apply accounts_plain.
  - destruct Hk as (_ & [reply Hreply] & [response Hresp]). mstep. apply mwp_deref; [|congruence].
    intros reply' _. mstep. apply mwp_deref; [|congruence]. intros response' _. mstep. apply mwp_modify. mstep.
    apply accounts_emit; [|by split; [intros []|]]. apply accounts_plain; [|done].
    by apply (accounts_state_frame c i c); [..|apply accounts_start].
Qed.

Lemma snapshot_restored_accounts c id index :
  core_ok lost c →
  mwp (complete_snapshot_restore id index (with_effects [])) c
    (accounts c (RaftSnapshotRestored id index)) (threw c (RaftSnapshotRestored id index)).
Proof.
  intros Hok. set (i := RaftSnapshotRestored id index). unfold complete_snapshot_restore. do 2 mstep.
  destruct (sw_pending_snapshot_restore (co_snapshots c)) as [p|] eqn:Hp;
    [|mstep; right; apply unanswered_unchanged].
  mstep; [|mstep; right; apply unanswered_unchanged].
  rename select (_ && _ = true) into Hm. apply andb_prop in Hm as [_ Hix%Z.eqb_eq].
  mstep. apply mwp_modify.
  destruct (sk_restore _ _ (cb_snapshots _ (ck_base _ Hok)) _ Hp) as [_ Hbeyond _].
  mstep. eapply mwp_mono; [apply (compact_to_accounts c i); try done| |done].
  - simpl. lia.
  - intros u c2 Hs. mstep. apply accounts_emit; [|by split; [intros []|]].
    apply accounts_emit; [|by split; [intros []|]]. by apply accounts_plain.
Qed.

(** ** The step function *)

Lemma step_unblocked_accounts i c :
  core_ok lost c → idle c → input_fits c i → (∀ id index, i ≠ LogEntryApplied id index) →
  (∀ id index, i ≠ RaftSnapshotRestored id index) →
  mwp (step_unblocked i) c (accounts c i) (threw c i).
Proof.
  intros Hok Hidle Hfit Hna Hnr.
  assert (applied_after c i = st_last_applied (co_state c)) as Hi.
  { destruct i; try done; [by edestruct Hna|by edestruct Hnr]. }
  destruct i; try (by eapply append_response_accounts); simpl in *;
    try (mstep; by apply accounts_plain; [apply accounts_start|]); try (by eapply handler_accounts).
  - by eapply election_deadline_accounts.
  - by eapply heartbeat_deadline_accounts.
  - mstep. mstep. destruct (validate_append_request request) as [[]|] eqn:Hv; simpl;
      [|right; apply unanswered_unchanged].
    destruct Hfit as (H1 & H2 & H3 & H4).
    destruct (validate_append_request_spec _ Hv H4) as [H5 H6]. by eapply handler_accounts.
  - by eapply hard_state_persisted_accounts.
  - by eapply begin_snapshot_accounts, accounts_start.
  - eapply mwp_mono; [apply (receive_snapshot_accounts (lost := lost) c (ReceiveInstallSnapshot from request)
      ltac:(done) from request (with_effects [])); try done| |done].
    + by apply accounts_plain; [apply accounts_start|].
    + by left.
    + by left.
    + intros r c' Ha. cbv beta in Ha. by rewrite append_nothing in Ha.
  - by eapply snapshot_response_accounts.
  - by eapply begin_read_accounts.
  - by eapply drop_read_accounts.
  - by eapply drop_read_accounts.
Qed.

Lemma step_accounts i c :
  core_ok lost c → input_fits c i → mwp (step i) c (accounts c i) (threw c i).
Proof.
  intros Hok Hfit. unfold step. do 4 mstep. apply owp_throw_when; [right; apply unanswered_unchanged|]. intros _.
  assert (∀ (b : bool) (m : method StepResult) x, (b = false → mwp m c (accounts c i) (threw c i)) →
    mwp (_ ← lift (throw_when b x); m) c (accounts c i) (threw c i)) as Hthrow.
  { intros b m x Hm. mstep. mstep. apply owp_throw_when; [right; apply unanswered_unchanged|done]. }
  assert ((∀ id index, i ≠ LogEntryApplied id index) → (∀ id index, i ≠ RaftSnapshotRestored id index) →
    mwp (_ ← lift (throw_when (bool_decide (is_Some (sw_pending_snapshot (co_snapshots c)))
      || bool_decide (is_Some (sw_pending_snapshot_restore (co_snapshots c))))
      (logic_error "Raft core input is blocked on snapshot persistence/restore"));
    _ ← lift (throw_when (bool_decide (is_Some (lw_pending_log (co_log_work c))))
      (logic_error "Raft core input is blocked on log persistence")); step_unblocked i) c
      (accounts c i) (threw c i)) as Hun.
  { intros Hna Hnr. apply Hthrow. intros [H1%bool_decide_eq_false%eq_None_not_Some
      H2%bool_decide_eq_false%eq_None_not_Some]%orb_false_iff.
    apply Hthrow. intros H3%bool_decide_eq_false%eq_None_not_Some. by eapply step_unblocked_accounts. }
  destruct i; try (by apply Hun); clear Hun.
  - apply Hthrow. intros _. by eapply log_persisted_accounts.
  - apply Hthrow. intros [H1%bool_decide_eq_false%eq_None_not_Some
      H2%bool_decide_eq_false%eq_None_not_Some]%orb_false_iff. by eapply applied_accounts.
  - apply Hthrow. intros _. apply apply_failed_accounts.
  - apply Hthrow. intros _. apply retry_accounts.
  - mstep. eapply mwp_mono; [eapply mwp_and_l; [by eapply snapshot_persisted_accounts|
      by apply (install_persisted_snapshot_keeps (lost := lost))]| |done].
    intros r c' [Ha Hok']. by apply (finish_completion_accounts (lost := lost)).
  - mstep. eapply mwp_mono; [eapply mwp_and_l; [by eapply snapshot_restored_accounts|
      by apply (complete_snapshot_restore_keeps (lost := lost))]| |done].
    intros r c' [Ha Hok']. by apply (finish_completion_accounts (lost := lost)).
Qed.
End completions.
