(* ===== verification/RaftCoreRun.v ===== *)
(** * Runs of one core

    Sequences of calls on a core that was constructed from recovered state and
    started, with the history of inputs and the log most recently reported
    durable.  A call may return or throw, as long as it does not throw because a
    counter is used up.  What the accounts of single calls add up to. *)

From S2P Require Import Prelude OrdMap Bytes StoreTypes RaftTypes Codec RaftMessages Figure2.
From S2P Require Import Figure2Votes Figure2Log Figure2Steps Figure2Effects.
From S2P Require Import RaftCore RaftCoreFrames RaftCoreTranslate RaftCoreInv RaftCoreKeep RaftCoreTrace.
Import election.
#[local] Open Scope Z_scope.

Definition durable_after (log : list LogEntry) (i : Input) : list LogEntry :=
  match i with RaftLogPersisted q => pl_log q | _ => log end.

(** Each call of the history, with the object it was made on. *)
Abbreviation history := (list (Core * Input)).

(** A completion of the log answers a request. *)
Lemma log_completion_pending q c r c' :
  step (RaftLogPersisted q) c = (Ret r, c') → is_Some (lw_pending_log (co_log_work c)).
Proof.
  assert (mwp (step (RaftLogPersisted q)) c (λ _ _, is_Some (lw_pending_log (co_log_work c)))
    (λ _ _, True)) as H; [|intros Hs; exact (mwp_run _ _ _ _ _ _ H Hs)].
  unfold step. do 4 mstep. apply owp_throw_when; [done|]. intros _. do 2 mstep.
  apply owp_throw_when; [done|]. intros _. unfold log_persisted. do 2 mstep.
  destruct (lw_pending_log (co_log_work c)) as [p|]; [|by mstep].
  eapply mwp_mono; [apply mwp_true|by eexists|done].
Qed.

(** A completed application is that of the next entry. *)
Lemma applied_index_next lost id index c r c' :
  core_ok lost c → step (LogEntryApplied id index) c = (Ret r, c') →
  index = st_last_applied (co_state c) + 1.
Proof.
  intros Hok. assert (mwp (step (LogEntryApplied id index)) c
    (λ _ _, index = st_last_applied (co_state c) + 1) (λ _ _, True)) as H;
    [|intros Hs; exact (mwp_run _ _ _ _ _ _ H Hs)].
  unfold step. do 4 mstep. apply owp_throw_when; [done|]. intros _. do 2 mstep.
  apply owp_throw_when; [done|]. intros [H1%bool_decide_eq_false%eq_None_not_Some
    H2%bool_decide_eq_false%eq_None_not_Some]%orb_false_iff.
  unfold entry_applied. do 4 mstep. apply owp_throw_when; [done|]. intros Hm%negb_false_iff.
  destruct (applied_core_ok _ _ _ Hok H1 H2 Hm) as [Hi _].
  eapply mwp_mono; [apply mwp_true|done|done].
Qed.

(** Some election deadline of the history arrived while the hard state was being
    written. *)
Definition lost_in (h : history) : Prop := ∃ c i, (c, i) ∈ h ∧ loses_deadline c i.

Lemma lost_in_app h h' : lost_in h → lost_in (h ++ h').
Proof. intros (c & i & Hin & Hl). exists c, i. split; [set_solver|done]. Qed.

Section runs.
Context (self : Z) (peers : list Z) (cf : Config) (rc : Recovered) (seed : Z).

Inductive core_run : history → list LogEntry → Core → Prop :=
| run_boot c0 r c :
    recovered_fits rc → construct self peers cf rc seed = Ret c0 → start c0 = (Ret r, c) →
    core_run [] (rc_log rc) c
| run_call h log c i r c' :
    core_run h log c → input_fits c i → step i c = (Ret r, c') →
    core_run (h ++ [(c, i)]) (durable_after log i) c'
| run_throw h log c i x c' :
    core_run h log c → input_fits c i → step i c = (Throw x, c') → ¬ exhausted x →
    core_run (h ++ [(c, i)]) log c'.

(** What construction and [start] leave. *)
Lemma boot_state c0 r c :
  construct self peers cf rc seed = Ret c0 → start c0 = (Ret r, c) →
  co_reads c = co_reads c0 ∧ co_state c = co_state c0 ∧ co_log_work c = co_log_work c0.
Proof.
  intros Hc Hs.
  assert (mwp start c0 (λ _ c', co_reads c' = co_reads c0 ∧ co_state c' = co_state c0 ∧
    co_log_work c' = co_log_work c0) (λ _ _, True)) as H; [|exact (mwp_run _ _ _ _ _ _ H Hs)].
  unfold start. do 4 mstep. apply owp_throw_when; [done|]. intros _. mstep. apply mwp_modify.
  mstep. eapply mwp_mono; [apply next_deadline_spec| |done].
  intros e c' (delay & random & _ & _ & -> & _). by mstep.
Qed.

Lemma run_core_ok h log c : core_run h log c → core_ok (lost_in h) c.
Proof.
  induction 1 as [c0 r c Hf Hc Hs|h log c i r c' _ IH Hf Hs|h log c i x c' _ IH Hf Hs Hx].
  - pose proof (construct_ok _ _ _ _ _ _ Hc Hf) as Hb.
    destruct (construct_state _ _ _ _ _ _ Hc) as (l & a & _ & _ & _ & _ & ->).
    exact (mwp_run _ _ _ _ _ _ (start_keeps _ Hb eq_refl eq_refl) Hs).
  - eapply core_ok_weaken; [apply lost_in_app|].
    exact (mwp_run _ _ _ _ _ _ (step_keeps _ _ IH Hf) Hs).
  - destruct (mwp_run _ _ _ _ _ _ (step_keeps _ _ IH Hf) Hs) as [?|Hok]; [done|].
    eapply core_ok_weaken; [|exact Hok]. intros [?|?]; [by apply lost_in_app|].
    exists c, i. split; [set_solver|done].
Qed.

Lemma run_call_accounts h log c i r c' :
  core_run h log c → input_fits c i → step i c = (Ret r, c') → accounts c i r c'.
Proof.
  intros Hr Hf Hs. exact (mwp_run _ _ _ _ _ _ (step_accounts _ _ (run_core_ok _ _ _ Hr) Hf) Hs).
Qed.

Lemma run_throw_accounts h log c i x c' :
  core_run h log c → input_fits c i → step i c = (Throw x, c') → ¬ exhausted x → unanswered c i c'.
Proof.
  intros Hr Hf Hs Hx.
  by destruct (mwp_run _ _ _ _ _ _ (step_accounts _ _ (run_core_ok _ _ _ Hr) Hf) Hs).
Qed.

Lemma run_members h log c :
  core_run h log c → st_node (co_state c) = self ∧ st_peers (co_state c) = peers.
Proof.
  induction 1 as [c0 r c Hf Hc Hs|h log c i r c' Hr IH Hf Hs|h log c i x c' Hr IH Hf Hs Hx].
  - destruct (construct_state _ _ _ _ _ _ Hc) as (l & a & _ & _ & _ & _ & Heq).
    destruct (boot_state _ _ _ Hc Hs) as (_ & -> & _). by rewrite Heq.
  - destruct (run_call_accounts _ _ _ _ _ _ Hr Hf Hs) as [[_ _ _ E1 E2] _]. by rewrite E1, E2.
  - destruct (run_throw_accounts _ _ _ _ _ _ Hr Hf Hs Hx) as [_ _ E1 E2]. by rewrite E1, E2.
Qed.

(** ** The durable log *)

(** While nothing waits for the log, all of it is durable. *)
Lemma run_settled h log c :
  core_run h log c → settled c → ∀ e, e ∈ log_of (co_state c) → e ∈ log.
Proof.
  induction 1 as [c0 r c Hf Hc Hs|h log c i r c' Hr IH Hf Hs|h log c i x c' Hr IH Hf Hs Hx];
    intros Hset e He.
  - destruct (construct_state _ _ _ _ _ _ Hc) as (l & a & [k ->] & _ & _ & _ & Heq).
    destruct (boot_state _ _ _ Hc Hs) as (_ & E & _). rewrite E, Heq in He.
    change (e ∈ drop k (rc_log rc)) in He.
    apply list_elem_of_lookup in He as [j Hj]. rewrite lookup_drop in Hj.
    by eapply list_elem_of_lookup_2.
  - destruct (run_call_accounts _ _ _ _ _ _ Hr Hf Hs) as [[_ _ Hlog _ _] _].
    destruct (Hlog Hset) as [(q & -> & Hq)|[Hset0 Hsub]]; [by apply Hq|].
    specialize (IH Hset0 e (Hsub e He)). destruct i; try done.
    destruct (log_completion_pending _ _ _ _ Hs) as [p Hp]. destruct Hset0. congruence.
  - destruct (run_throw_accounts _ _ _ _ _ _ Hr Hf Hs Hx) as [_ Hlog _ _].
    destruct (Hlog Hset) as [Hset0 Hsub]. by apply IH, Hsub.
Qed.

(** ** Reads *)

(** Read [p] was asked under context [k] of the leader of term [t], which had
    committed an entry of that term, and its acknowledgements are its own and
    answers received since. *)
Definition asked (h : history) (k t : Z) (p : PendingRead) : Prop :=
  ∃ h1 c h2, h = h1 ++ (c, ReadIndexRequest (pr_request p)) :: h2 ∧
    st_role (co_state c) = role_leader ∧ current_term (co_state c) = t ∧
    commit_term (co_state c) = Ret t ∧ pr_read_index p = st_commit_index (co_state c) ∧
    ∀ n, n ∈ pr_acknowledgements p →
      n = self ∨ n ∈ peers ∧ ∃ c' i, (c', i) ∈ h2 ∧ acknowledges i n t k.

Lemma asked_later h k t p ci : asked h k t p → asked (h ++ [ci]) k t p.
Proof.
  intros (h1 & c & h2 & -> & H1 & H2 & H3 & H4 & Hn).
  exists h1, c, (h2 ++ [ci]). rewrite <-app_assoc. split_and!; try done.
  intros n Hin. destruct (Hn n Hin) as [?|(? & c' & i & ? & ?)]; [by left|right].
  split; [done|]. exists c', i. split; [set_solver|done].
Qed.

Lemma derived_asked h log c i k p :
  core_run h log c → 
  (∀ k p, rd_pending_reads (co_reads c) !! k = Some p → asked h k (current_term (co_state c)) p) →
  derived c i k p → asked (h ++ [(c, i)]) k (current_term (co_state c)) p.
Proof.
  intros Hr IH. destruct (run_members _ _ _ Hr) as [En Ep].
  intros [Hp|[(p0 & n & Hp & Hack & Hn & Erq & Eix & Eack)|(-> & -> & Hl & Ht & Eix & Eack)]].
  - by apply asked_later, IH.
  - apply IH in Hp as (h1 & c0 & h2 & -> & H1 & H2 & H3 & H4 & Hacks).
    exists h1, c0, (h2 ++ [(c, i)]). rewrite Erq, Eix, <-app_assoc. split_and!; try done.
    rewrite Eack. intros n' [->%elem_of_singleton|Hin]%elem_of_union.
    + right. rewrite <-Ep. split; [done|]. exists c, i. split; [set_solver|done].
    + destruct (Hacks n' Hin) as [?|(? & c' & i' & ? & ?)]; [by left|right].
      split; [done|]. exists c', i'. split; [set_solver|done].
  - exists h, c, []. split_and!; try done. rewrite Eack, En. intros n ->%elem_of_singleton. by left.
Qed.

Lemma run_asked h log c :
  core_run h log c → ∀ k p, rd_pending_reads (co_reads c) !! k = Some p →
  asked h k (current_term (co_state c)) p.
Proof.
  induction 1 as [c0 r c Hf Hc Hs|h log c i r c' Hr IH Hf Hs|h log c i x c' Hr IH Hf Hs Hx];
    intros k p Hp.
  - destruct (construct_state _ _ _ _ _ _ Hc) as (l & a & _ & _ & _ & _ & Heq).
    destruct (boot_state _ _ _ Hc Hs) as (E & _ & _). rewrite E, Heq in Hp. simpl in Hp.
    by rewrite lookup_empty in Hp.
  - destruct (run_call_accounts _ _ _ _ _ _ Hr Hf Hs) as [[Hreads _ _ _ _] _].
    destruct (Hreads _ _ Hp) as [Hd ->]. by eapply derived_asked.
  - destruct (run_throw_accounts _ _ _ _ _ _ Hr Hf Hs Hx) as [Hreads _ _ _].
    destruct (Hreads _ _ Hp) as [Hd ->]. by eapply derived_asked.
Qed.
End runs.

(** ** Executing runs *)

Definition fits_check (c : Core) (i : Input) : bool :=
  match i with
  | ReceiveAppendEntries _ q =>
      (0 <=? ae_previous_log_index q)
      && (ae_previous_log_index q + Z.of_nat (length (ae_entries q)) <? u64_max)
      && (last_index (co_state c) + Z.of_nat (length (ae_entries q)) <? u64_max)
      && forallb (λ e, 0 <=? en_term e) (ae_entries q)
  | ReceiveClientCommand _ => last_index (co_state c) + 1 <? u64_max
  | ReceiveInstallSnapshot _ q =>
      (0 <=? sm_last_included_index (is_metadata q)) && (sm_last_included_index (is_metadata q) <? u64_max)
  | RaftSnapshotRestored _ _ =>
      match sw_pending_snapshot_restore (co_snapshots c) with
      | Some p => st_commit_index (co_state c) <=? sm_last_included_index (sn_metadata (rs_snapshot p))
      | None => true
      end
  | _ => true
  end.

Lemma fits_check_sound c i : fits_check c i = true → input_fits c i.
Proof.
  destruct i; simpl; try done.
  - repeat rewrite andb_true_iff. rewrite Z.leb_le, !Z.ltb_lt, forallb_forall.
    intros (((H1 & H2) & H3) & H4). split_and!; try done. apply Forall_forall. intros e He.
    by apply Z.leb_le, H4, list_elem_of_In.
  - by intros ?%Z.ltb_lt.
  - rewrite andb_true_iff, Z.leb_le, Z.ltb_lt. done.
  - intros H p Hp. rewrite Hp in H. apply Z.leb_le in H. lia.
Qed.

Definition run_input (hc : history * list LogEntry * Core) (i : Input)
    : option (history * list LogEntry * Core) :=
  let '(h, log, c) := hc in
  if fits_check c i then
    match step i c with
    | (Ret _, c') => Some (h ++ [(c, i)], durable_after log i, c')
    | (Throw (overflow_error _), _) => None
    | (Throw _, c') => Some (h ++ [(c, i)], log, c')
    end
  else None.

Fixpoint run_inputs (hc : history * list LogEntry * Core) (inputs : list Input)
    : option (history * list LogEntry * Core) :=
  match inputs with
  | [] => Some hc
  | i :: rest => hc' ← run_input hc i; run_inputs hc' rest
  end.

Lemma run_inputs_sound self peers cf rc seed inputs h log c h' log' c' :
  core_run self peers cf rc seed h log c → run_inputs (h, log, c) inputs = Some (h', log', c') →
  core_run self peers cf rc seed h' log' c'.
Proof.
  revert h log c. induction inputs as [|i inputs IH]; intros h log c Hr; simpl; [by intros [= <- <- <-]|].
  intros (hc & Hi & Hrest)%bind_Some. unfold run_input in Hi.
  destruct (fits_check c i) eqn:Hf; [|done].
  apply fits_check_sound in Hf. destruct (step i c) as [[r|x] c1] eqn:Hs.
  - injection Hi as <-. eapply IH; [|done]. by eapply run_call.
  - assert (hc = (h ++ [(c, i)], log, c1) ∧ ¬ exhausted x) as [-> Hx].
    { destruct x; simplify_eq/=; (split; [done|by intros []]). }
    eapply IH; [|done]. by eapply run_throw.
Qed.
