(* ===== verification/RaftCoreProps.v ===== *)
(** * Properties of the timed core

    The claims about single calls of [Core::step] and about sequences of them. *)

From S2P Require Import Prelude OrdMap Bytes StoreTypes RaftTypes Codec RaftMessages Figure2.
From S2P Require Import Figure2Votes Figure2Log Figure2Steps Figure2Effects.
From S2P Require Import RaftCore RaftCoreFrames RaftCoreRefine CoreCluster.
From S2P Require Import RaftCoreTranslate RaftCoreInv RaftCoreKeep RaftCoreTrace RaftCoreRun.
Import election.
#[local] Open Scope Z_scope.

(** ** Refinement of Figure 2 *)

(** C10: [Core::step] refines the Figure 2 specification.  An input stands for a
    list of moves of the specification state that the code's own conditions
    determine: [figure2::step] on the event of the input, recording an applied
    entry only when the completion names the entry in progress, following the
    sender of a snapshot only when it leads the current term, compaction only to
    the snapshot that was being written or restored.  A call that returns has
    made exactly these moves, one that throws a prefix of them, and its
    specification state is what playing them gives; and every vote message the
    call releases or holds back for the log was held before or is an effect of
    the moves. *)
Theorem core_step_refines_figure2 (i : Input) (c : Core) (o : outcome StepResult) (c' : Core) :
  step i c = (o, c') →
  ∃ made out, made `prefix_of` reaction c i ∧ (∀ r, o = Ret r → made = reaction c i) ∧
    play (co_state c) made = Ret (co_state c', out) ∧
    ∀ e v, vote_of e = Some v →
      (∃ r, o = Ret r ∧ e ∈ sr_effects r) ∨ e ∈ log_deferred c' →
      e ∈ log_deferred c ∨ v ∈ out.
Proof. apply step_reacts. Qed.

(** The election of server 1 is one step of the specification. *)
Lemma core_step_refines_figure2_witness :
  let c := demo_core 1 [2; 3] in
  ∃ out, play (co_state c) [mv_event ElectionTimeout]
    = Ret (co_state (step (ElectionDeadline 1) c).2, out).
Proof.
  destruct (core_step_refines_figure2 (ElectionDeadline 1) (demo_core 1 [2; 3])
    (step (ElectionDeadline 1) (demo_core 1 [2; 3])).1
    (step (ElectionDeadline 1) (demo_core 1 [2; 3])).2) as (made & out & _ & Hall & Hplay & _);
    [vm_compute; reflexivity|].
  exists out. rewrite (Hall (match (step (ElectionDeadline 1) (demo_core 1 [2; 3])).1 with
    | Ret r => r | Throw _ => with_effects [] end)) in Hplay by (vm_compute; reflexivity).
  exact Hplay.
Defined.

(** ** A run for the witnesses

    Server 1 of three wins an election, commits and applies a command and answers
    a read. *)

Definition demo_command : CommandEnvelope := mkCommand (mkRequestId 5 1) 1 [].
Definition demo_entry : LogEntry := mkEntry 1 1 demo_command.

Definition demo_inputs : list Input :=
  [ElectionDeadline 1;
   HardStatePersisted (mkHardStatePersisted 1 (mkHardState 1 (Some 1)));
   ReceiveRequestVoteResponse 2 (mkVoteResponse 1 true);
   ReceiveClientCommand demo_command;
   RaftLogPersisted (mkPersistLog (2 ^ 63) [demo_entry]);
   ReceiveAppendEntriesResponse 2 (mkAppendResponse 1 true 1 None);
   LogEntryApplied (2 ^ 62) 1;
   ReadIndexRequest (mkRequestId 7 1)].

Definition run_core (self : Z) (peers : list Z) (rc : Recovered) (inputs : list Input)
    : history * list LogEntry * Core :=
  let c := default (initial_core demo_config (initial_state self peers (mkHardState 0 None) None [] 0)
    0 None) (boot self peers demo_config rc self) in
  default ([], rc_log rc, c) (run_inputs ([], rc_log rc, c) inputs).

(** The run is one whenever the computation succeeds. *)
Lemma run_core_sound self peers rc inputs :
  recovered_fits rc → is_Some (boot self peers demo_config rc self) →
  is_Some (run_inputs ([], rc_log rc, (run_core self peers rc []).2) inputs) →
  let run := run_core self peers rc inputs in
  core_run self peers demo_config rc self run.1.1 run.1.2 run.2.
Proof.
  cbv zeta. unfold run_core. intros Hf [c0 Hb] Hrun. rewrite Hb in *. simpl in *. destruct Hrun as [[[h log] c] Hrun].
  rewrite Hrun. simpl. eapply run_inputs_sound; [|exact Hrun].
  unfold boot in Hb. destruct (construct _ _ _ _ _) as [c1|] eqn:Hc; [|done].
  destruct (start c1) as [[r|] c2] eqn:Hs; [|done]. injection Hb as <-. by eapply run_boot.
Qed.

Lemma demo_recovered_fits : recovered_fits demo_recovered.
Proof. split; simpl; try done. Qed.

Definition demo_run_at (k : nat) : history * list LogEntry * Core :=
  run_core 1 [2; 3] demo_recovered (take k demo_inputs).
Definition demo_core_at (k : nat) : Core := (demo_run_at k).2.

Lemma demo_run_sound k :
  (k ≤ 8)%nat →
  core_run 1 [2; 3] demo_config demo_recovered 1 (demo_run_at k).1.1 (demo_run_at k).1.2 (demo_core_at k).
Proof.
  intros Hk. apply (run_core_sound 1 [2; 3] demo_recovered (take k demo_inputs));
    [apply demo_recovered_fits|eexists; vm_compute; reflexivity|].
  do 9 (destruct k as [|k]; [eexists; vm_compute; reflexivity|]). lia.
Qed.

(** ** The invariant *)

(** C23: Whatever calls of [step] a core has seen since it was constructed from
    recovered state and started, whether they returned or threw (except on a
    counter that is used up), its specification state is valid, reads are pending
    only on a leader and under fresh contexts with their captured index committed,
    a marked quorum really is one, the entry being applied is the next committed
    one, a log write in flight is of the current log, the durable snapshot is the
    base of the log, a snapshot being written or restored fits the state it will
    replace, a leader waits for no hard state, and timers are armed unless an
    election deadline arrived while a hard state was being written. *)
Theorem running_core_invariant (self : Z) (peers : list Z) (cf : Config) (rc : Recovered) (seed : Z)
    (h : history) (log : list LogEntry) (c : Core) :
  core_run self peers cf rc seed h log c → core_ok (lost_in h) c ∧ validate (co_state c) = [].
Proof.
  intros Hr%run_core_ok. split; [done|]. by eapply good_validate, core_ok_good.
Qed.

Lemma running_core_invariant_witness : core_ok (lost_in (demo_run_at 8).1.1) (demo_core_at 8).
Proof.
  destruct (running_core_invariant 1 [2; 3] demo_config demo_recovered 1 _ _ (demo_core_at 8)
    (demo_run_sound 8 ltac:(lia))) as [H _]. exact H.
Defined.

(** C31: After any calls of [step], returning or throwing (except on a counter that
    is used up), a leader has a heartbeat deadline armed, a candidate has an
    election deadline armed or holds its reset back for the hard state that is
    being written, and so does any other server, unless the deadline of its armed
    election timer once arrived while a hard state was being written. *)
Theorem running_core_timers_armed (self : Z) (peers : list Z) (cf : Config) (rc : Recovered)
    (seed : Z) (h : history) (log : list LogEntry) (c : Core) :
  core_run self peers cf rc seed h log c →
  let armed := is_Some (tm_election_timer (co_timers c)) in
  let held_back := ∃ p, st_pending_hard_state (co_state c) = Some p ∧
    ResetElectionTimer ∈ pd_deferred_effects p in
  (st_role (co_state c) = role_leader → is_Some (tm_heartbeat_timer (co_timers c))) ∧
  (st_role (co_state c) = role_candidate → armed ∨ held_back) ∧
  (st_role (co_state c) ≠ role_leader → armed ∨ held_back ∨
     ∃ c0 timer, (c0, ElectionDeadline timer) ∈ h ∧ tm_election_timer (co_timers c0) = Some timer ∧
       is_Some (st_pending_hard_state (co_state c0))).
Proof.
  intros Hr%run_core_ok. cbv zeta. destruct Hr as [_ [Hl Hc Ho] _].
  assert (ResetElectionTimer ∈ held (co_state c) → ∃ p, st_pending_hard_state (co_state c) = Some p ∧
    ResetElectionTimer ∈ pd_deferred_effects p) as Hheld.
  { unfold held. destruct (st_pending_hard_state (co_state c)) as [p|]; [by exists p|set_solver]. }
  split_and!; [done|intros Hn; destruct (Hc Hn); auto|]. intros Hn.
  destruct (Ho Hn) as [?|[?|(c0 & i & Hin & Hlost)]]; [auto..|]. destruct i; try done. eauto 10.
Qed.

Lemma running_core_timers_armed_witness :
  st_role (co_state (demo_core_at 3)) = role_leader ∧
  is_Some (tm_heartbeat_timer (co_timers (demo_core_at 3))).
Proof.
  assert (st_role (co_state (demo_core_at 3)) = role_leader) as Hl by (vm_compute; reflexivity).
  split; [exact Hl|].
  destruct (running_core_timers_armed 1 [2; 3] demo_config demo_recovered 1 _ _ (demo_core_at 3)
    (demo_run_sound 3 ltac:(lia))) as [H _]. exact (H Hl).
Defined.

(** The exception is real: a follower adopts term 9, its election deadline arrives
    while that term is being written, and when the write is done it has no
    deadline left. *)
Definition lost_run : history * list LogEntry * Core :=
  run_core 1 [2; 3] demo_recovered
    [ReceiveAppendEntriesResponse 2 (mkAppendResponse 9 false 0 None); ElectionDeadline 1;
     HardStatePersisted (mkHardStatePersisted 1 (mkHardState 9 None))].

Lemma lost_deadline_leaves_no_timer :
  core_run 1 [2; 3] demo_config demo_recovered 1 lost_run.1.1 lost_run.1.2 lost_run.2 ∧
  let c := lost_run.2 in
  st_role (co_state c) = role_follower ∧ tm_election_timer (co_timers c) = None ∧
  waiting_for_persistence c = false.
Proof.
  split; [|by vm_compute].
  apply run_core_sound; [apply demo_recovered_fits|eexists; vm_compute; reflexivity..].
Qed.

(** ** Application *)

(** C20: Entries reach the state machine in log order, one at a time and only when
    committed.  An entry handed out is the one after the applied index and is
    committed, and no other is outstanding; the applied index moves by one with
    each completed application, to the snapshot with a completed restore, and
    otherwise not at all. *)
Theorem entries_applied_in_order (self : Z) (peers : list Z) (cf : Config) (rc : Recovered)
    (seed : Z) (h : history) (log : list LogEntry) (c : Core) (i : Input) (r : StepResult) (c' : Core) :
  core_run self peers cf rc seed h log c → input_fits c i → step i c = (Ret r, c') →
  (∀ q, ApplyLogEntry q ∈ sr_effects r →
     let next := st_last_applied (co_state c') + 1 in
     entry_at (co_state c') next = Some (ap_entry q) ∧ en_index (ap_entry q) = next ∧
     next ≤ st_commit_index (co_state c') ∧
     lw_pending_application (co_log_work c') = Some (mkPendingApplication q false)) ∧
  st_last_applied (co_state c') =
    match i with
    | LogEntryApplied _ _ => st_last_applied (co_state c) + 1
    | RaftSnapshotRestored _ index => index
    | _ => st_last_applied (co_state c)
    end.
Proof.
  intros Hr Hf Hs. pose proof (run_call_accounts _ _ _ _ _ _ _ _ _ _ _ Hr Hf Hs) as [[_ Ha _ _ _] [_ Hq _]].
  pose proof (run_core_ok _ _ _ _ _ _ _ _ (run_call _ _ _ _ _ _ _ _ _ _ _ Hr Hf Hs)) as Hok'. split.
  - intros q Hin. pose proof (Hq _ Hin) as Hp. cbv zeta.
    destruct (cb_application _ (ck_base _ Hok') _ Hp) as [Hlt He]. simpl in He.
    destruct (entry_at_index _ _ _ (core_ok_good _ Hok') He) as [Hi _]. split_and!; try done. lia.
  - rewrite Ha. destruct i; try done. simpl. by eapply applied_index_next; [eapply run_core_ok|].
Qed.

(** The result and the object after one more input. *)
Definition result_of (i : Input) (c : Core) : StepResult :=
  match (step i c).1 with Ret r => r | Throw _ => with_effects [] end.
Definition core_after (i : Input) (c : Core) : Core := (step i c).2.

Lemma step_returns i c :
  match (step i c).1 with Ret _ => true | Throw _ => false end = true →
  step i c = (Ret (result_of i c), core_after i c).
Proof.
  unfold result_of, core_after. by destruct (step i c) as [[r|x] c'].
Qed.

Definition demo_replicated : Input := ReceiveAppendEntriesResponse 2 (mkAppendResponse 1 true 1 None).

Lemma entries_applied_in_order_witness :
  entry_at (co_state (core_after demo_replicated (demo_core_at 5))) 1 = Some demo_entry.
Proof.
  destruct (entries_applied_in_order 1 [2; 3] demo_config demo_recovered 1 _ _ (demo_core_at 5)
    demo_replicated (result_of demo_replicated (demo_core_at 5))
    (core_after demo_replicated (demo_core_at 5)) (demo_run_sound 5 ltac:(lia)))
    as [H Ha]; [apply fits_check_sound; vm_compute; reflexivity|apply step_returns; vm_compute; reflexivity|].
  destruct (H (mkApply (2 ^ 62) demo_entry)) as [He _];
    [apply list_elem_of_In; vm_compute; left; reflexivity|].
  rewrite Ha in He. exact He.
Defined.

(** ** The log *)

(** C9: A server speaks of its log only when the log is durable.  Whenever a call
    releases an append request or a positive append response, every entry the
    log then holds is in the log most recently reported written (the recovered
    one before the first report). *)
Theorem log_durable_before_messages (self : Z) (peers : list Z) (cf : Config) (rc : Recovered)
    (seed : Z) (h : history) (log : list LogEntry) (c : Core) (i : Input) (r : StepResult) (c' : Core)
    (e : Effect) (entry : LogEntry) :
  core_run self peers cf rc seed h log c → input_fits c i → step i c = (Ret r, c') →
  e ∈ sr_effects r → core_relies e → entry ∈ log_of (co_state c') →
  entry ∈ durable_after log i.
Proof.
  intros Hr Hf Hs Hin He Hentry.
  pose proof (run_call_accounts _ _ _ _ _ _ _ _ _ _ _ Hr Hf Hs) as [_ [_ _ Hrel]].
  by apply (run_settled _ _ _ _ _ _ _ _ (run_call _ _ _ _ _ _ _ _ _ _ _ Hr Hf Hs) (Hrel _ Hin He)).
Qed.

Definition demo_written : Input := RaftLogPersisted (mkPersistLog (2 ^ 63) [demo_entry]).

Lemma log_durable_before_messages_witness :
  demo_entry ∈ durable_after (demo_run_at 4).1.2 demo_written.
Proof.
  apply (log_durable_before_messages 1 [2; 3] demo_config demo_recovered 1 _ _ (demo_core_at 4)
    demo_written (result_of demo_written (demo_core_at 4)) (core_after demo_written (demo_core_at 4))
    (SendAppendEntries 2 (mkAppendEntries 1 1 0 0 [demo_entry] 0 None)) demo_entry
    (demo_run_sound 4 ltac:(lia))).
  - apply fits_check_sound. vm_compute. reflexivity.
  - apply step_returns. vm_compute. reflexivity.
  - apply list_elem_of_In. vm_compute. left. reflexivity.
  - exact I.
  - apply list_elem_of_In. vm_compute. left. reflexivity.
Defined.

(** ** Linearizable reads *)




(** ** Snapshots and recovery *)

(** A follower with two uncommitted entries of an old term. *)
Definition stale_entries : list LogEntry := [mkEntry 1 1 demo_command; mkEntry 1 2 demo_command].
Definition stale_recovered : Recovered := mkRecovered (mkHardState 1 None) stale_entries 0 None.

Definition new_metadata : SnapshotMetadata :=
  mkSnapshotMetadata 1 2 0 0 (mkMembership [1; 2; 3] []) 1.
Definition new_install : InstallSnapshotRequest :=
  mkInstall 2 1 1 new_metadata 0 0 [] (crc32c []) true None.
Definition new_snapshot : RaftSnapshot := mkSnapshot new_metadata [] (crc32c []).

(** The leader of the next term installs its snapshot there. *)
Definition install_inputs : list Input :=
  [ReceiveInstallSnapshot 1 new_install;
   HardStatePersisted (mkHardStatePersisted 1 (mkHardState 2 None));
   RaftSnapshotPersisted (2 ^ 61) new_snapshot;
   RaftSnapshotRestored (2 ^ 61) 1].

Definition installed : history * list LogEntry * Core := run_core 3 [1; 2] stale_recovered install_inputs.

Lemma installed_run :
  core_run 3 [1; 2] demo_config stale_recovered 3 installed.1.1 installed.1.2 installed.2.
Proof.
  apply run_core_sound; [|eexists; vm_compute; reflexivity|eexists; vm_compute; reflexivity].
  split; simpl; try done. by repeat constructor.
Qed.

(** C35: Installing a snapshot that conflicts with the follower's log discards the
    log in memory but never requests that the discarded log be rewritten, so what
    is durable afterwards is no valid recovery point: constructing a core from
    the written hard state, log and snapshot throws, and if the log is first
    truncated through the snapshot index, as the truncation effect asks, an entry
    that the running core has discarded comes back behind the snapshot. *)
Theorem installed_snapshot_conflicts_on_recovery :
  ∃ h c snapshot,
    core_run 3 [1; 2] demo_config stale_recovered 3 h stale_entries c ∧
    waiting_for_persistence c = false ∧ sw_durable_snapshot (co_snapshots c) = Some snapshot ∧
    log_of (co_state c) = [] ∧
    construct 3 [1; 2] demo_config
      (mkRecovered (hard_state (co_state c)) stale_entries 0 (Some snapshot)) 3
      = Throw (invalid_argument "recovered snapshot conflicts with Raft log") ∧
    ∃ c2, construct 3 [1; 2] demo_config
        (mkRecovered (hard_state (co_state c)) (drop 1 stale_entries) 0 (Some snapshot)) 3 = Ret c2 ∧
      log_of (co_state c2) = drop 1 stale_entries.
Proof.
  exists installed.1.1, installed.2, new_snapshot. split_and!; try (vm_compute; reflexivity).
  - exact installed_run.
  - eexists. split; vm_compute; reflexivity.
Qed.

(** C36: A snapshot request is not held back by a hard-state write: while the term
    the server has just adopted is still being written, a request of an older
    term is answered at once, and the answer carries the adopted term, which a
    crash would forget. *)
Theorem snapshot_request_overtakes_hard_state :
  ∃ h log c p r c' response,
    core_run 3 [1; 2] demo_config stale_recovered 3 h log c ∧
    st_pending_hard_state (co_state c) = Some p ∧
    step (ReceiveInstallSnapshot 1 (mkInstall 1 1 1 new_metadata 0 0 [] (crc32c []) true None)) c
      = (Ret r, c') ∧
    SendInstallSnapshotResponse 1 response ∈ sr_effects r ∧
    ir_term response = hs_current_term (phs_state (pd_request p)) ∧
    hs_current_term (rc_hard_state stale_recovered) < ir_term response.
Proof.
  set (run := run_core 3 [1; 2] stale_recovered [ReceiveRequestVote 2 (mkRequestVote 2 2 5 1)]).
  set (i := ReceiveInstallSnapshot 1 (mkInstall 1 1 1 new_metadata 0 0 [] (crc32c []) true None)).
  exists run.1.1, run.1.2, run.2. eexists _, (result_of i run.2), (core_after i run.2), _. split_and!.
  - apply run_core_sound; [|eexists; vm_compute; reflexivity|eexists; vm_compute; reflexivity].
    split; simpl; try done. by repeat constructor.
  - vm_compute. reflexivity.
  - apply step_returns. vm_compute. reflexivity.
  - apply list_elem_of_In. vm_compute. left. reflexivity.
  - vm_compute. reflexivity.
  - vm_compute. reflexivity.
Qed.
