(* ===== verification/Simulator.v ===== *)
(** * The deterministic cluster simulator

    [raft_simulation.cpp]: a queue of pending events (starts, messages, timers,
    disk completions) delivered to node adapters in logical time, with crashes,
    partitions, delays, drops and duplicates, a textual trace of what was done,
    and the replay of such a trace.

    The simulator knows its nodes through the interface [NodeAdapter] only, so
    the model is parametric in a type of adapters and their [step]; a
    [NodeFactory] returns an adapter or null.  A factory is taken to be a
    function of the node: the same call gives the same adapter.  Event numbers
    are unbounded here; the theorems that read them back from text ask for fewer
    than 2^64 of them. *)

From S2P Require Import Prelude OrdMap Bytes Text.
From Stdlib Require Import Ascii.
#[local] Open Scope string_scope.
#[local] Open Scope Z_scope.

(** ** Events and actions *)

Record DurableRecord := mkRecord {
  dr_request_id : Z;
  dr_bytes : list byte }.

Inductive NodeEvent :=
| StartEvent (self : Z) (peers : list Z) (durable_records : list DurableRecord)
| MessageEvent (from : Z) (bytes : list byte)
| TimerEvent (timer_id : Z)
| PersistedEvent (request_id : Z).

Inductive NodeAction :=
| SendAction (to : Z) (bytes : list byte)
| PersistAction (request_id : Z) (bytes : list byte)
| SetTimerAction (timer_id delay : Z)
| CancelTimerAction (timer_id : Z).

(** The virtual method [NodeAdapter::step]. *)
Class NodeAdapter (A : Type) := adapter_step : NodeEvent → M A (list NodeAction).
#[global] Hint Mode NodeAdapter ! : typeclass_instances.

Definition NodeFactory (A : Type) : Type := Z → option A.

Inductive PendingEventKind := kind_start | kind_message | kind_timer | kind_disk_completion.

#[export] Instance PendingEventKind_eq_dec : EqDecision PendingEventKind.
Proof. solve_decision. Defined.

Record PendingEvent := mkPendingEvent {
  pe_id : Z;
  pe_ready_at : Z;
  pe_kind : PendingEventKind;
  pe_from : option Z;
  pe_to : Z }.

Abbreviation Link := (Z * Z)%type.

Definition directed (from to : Z) : Link := (from, to).
Definition undirected (first second : Z) : Link :=
  if second <? first then (second, first) else (first, second).

(** The whole text must be a decimal number of 64 bits. *)
Definition parse_number (text : string) : outcome Z :=
  match integer_u64 text "" with
  | Ret value => Ret value
  | Throw _ => Throw (simulation_failure "invalid replay trace number")
  end.

Definition kind_name (kind : PendingEventKind) : string :=
  match kind with
  | kind_start => "start"
  | kind_message => "message"
  | kind_timer => "timer"
  | kind_disk_completion => "disk"
  end.

(** ** The object *)

Record NodeState (A : Type) := mkNode {
  ns_adapter : option A;
  ns_durable : list DurableRecord;
  ns_generation : Z;
  ns_running : bool }.
Arguments mkNode {A} _ _ _ _.
Arguments ns_adapter {A} _.
Arguments ns_durable {A} _.
Arguments ns_generation {A} _.
Arguments ns_running {A} _.

Record QueuedEvent := mkQueued {
  qe_summary : PendingEvent;
  qe_generation : Z;
  qe_event : NodeEvent;
  qe_pending_record : option DurableRecord }.

(** The settings of the simulated network and disks. *)
Record Faults := mkFaults {
  fl_partitions : gset Link;
  fl_network_delays : gmap Link Z;
  fl_persistence_delays : gmap Z Z;
  fl_drops : gmap Link Z;
  fl_duplicates : gmap Link Z }.

Record Simulator (A : Type) := mkSimulator {
  sim_topology : list Z;
  sim_seed : Z;
  sim_random_state : Z;
  sim_now : Z;
  sim_next_event_id : Z;
  sim_nodes : gmap Z (NodeState A);
  sim_events : list QueuedEvent;
  sim_faults : Faults;
  sim_history : list string }.
Arguments mkSimulator {A} _ _ _ _ _ _ _ _ _.
Arguments sim_topology {A} _.
Arguments sim_seed {A} _.
Arguments sim_random_state {A} _.
Arguments sim_now {A} _.
Arguments sim_next_event_id {A} _.
Arguments sim_nodes {A} _.
Arguments sim_events {A} _.
Arguments sim_faults {A} _.
Arguments sim_history {A} _.

Section simulator.
Context {A : Type} `{NodeAdapter A}.
Implicit Types s : Simulator A.

(** Assignments. *)
Definition set_random_state (random : Z) s : Simulator A :=
  mkSimulator (sim_topology s) (sim_seed s) random (sim_now s) (sim_next_event_id s) (sim_nodes s)
    (sim_events s) (sim_faults s) (sim_history s).
Definition set_now (now : Z) s : Simulator A :=
  mkSimulator (sim_topology s) (sim_seed s) (sim_random_state s) now (sim_next_event_id s)
    (sim_nodes s) (sim_events s) (sim_faults s) (sim_history s).
Definition set_nodes (nodes : gmap Z (NodeState A)) s : Simulator A :=
  mkSimulator (sim_topology s) (sim_seed s) (sim_random_state s) (sim_now s) (sim_next_event_id s)
    nodes (sim_events s) (sim_faults s) (sim_history s).
Definition set_events (events : list QueuedEvent) s : Simulator A :=
  mkSimulator (sim_topology s) (sim_seed s) (sim_random_state s) (sim_now s) (sim_next_event_id s)
    (sim_nodes s) events (sim_faults s) (sim_history s).
Definition set_faults (faults : Faults) s : Simulator A :=
  mkSimulator (sim_topology s) (sim_seed s) (sim_random_state s) (sim_now s) (sim_next_event_id s)
    (sim_nodes s) (sim_events s) faults (sim_history s).
Definition set_history (history : list string) s : Simulator A :=
  mkSimulator (sim_topology s) (sim_seed s) (sim_random_state s) (sim_now s) (sim_next_event_id s)
    (sim_nodes s) (sim_events s) (sim_faults s) history.
(** [events_.push_back] of an event numbered [next_event_id_++]. *)
Definition push_event (event : QueuedEvent) s : Simulator A :=
  mkSimulator (sim_topology s) (sim_seed s) (sim_random_state s) (sim_now s)
    (sim_next_event_id s + 1) (sim_nodes s) (sim_events s ++ [event]) (sim_faults s)
    (sim_history s).
Definition set_node (id : Z) (node : NodeState A) s : Simulator A :=
  set_nodes (<[id := node]> (sim_nodes s)) s.

Abbreviation sim_method B := (M (Simulator A) B).

(** ** Helpers *)

Definition node (id : Z) : sim_method (NodeState A) :=
  s ← get_state;
  match sim_nodes s !! id with
  | Some found => mret found
  | None => lift (Throw (invalid_argument "node is not in the topology"))
  end.

Definition trace s : string := foldr (λ line text, line +:+ endl +:+ text) "" (sim_history s).

Definition fail {B} (message : string) : sim_method B :=
  s ← get_state; lift (Throw (simulation_failure (message +:+ endl +:+ trace s))).

Definition fail_when (b : bool) (message : string) : sim_method unit :=
  if b then fail message else mret tt.

Definition push_history (line : string) : sim_method unit :=
  modify (λ s, set_history (sim_history s ++ [line]) s).

Definition record_control (control : string) : sim_method unit :=
  push_history ("control " +:+ control).

Definition enqueue (ready_at : Z) (kind : PendingEventKind) (from : option Z) (to : Z)
    (event : NodeEvent) (generation : Z) (pending_record : option DurableRecord)
    : sim_method unit :=
  s ← get_state;
  _ ← lift (throw_when (ready_at <? sim_now s)
    (simulation_failure "attempted to schedule an event in the past"));
  modify (push_event (mkQueued (mkPendingEvent (sim_next_event_id s) ready_at kind from to)
    generation event pending_record)).

Definition enqueue_start (id : Z) : sim_method unit :=
  state ← node id;
  s ← get_state;
  let peers := filter (λ candidate, candidate ≠ id) (sim_topology s) in
  enqueue (sim_now s) kind_start None id (StartEvent id peers (ns_durable state))
    (ns_generation state) None.

Definition random : sim_method Z :=
  s ← get_state;
  let state := u64 (sim_random_state s + 0x9e3779b97f4a7c15) in
  let value1 := u64 (Z.lxor state (Z.shiftr state 30) * 0xbf58476d1ce4e5b9) in
  let value2 := u64 (Z.lxor value1 (Z.shiftr value1 27) * 0x94d049bb133111eb) in
  _ ← put_state (set_random_state state s);
  mret (Z.lxor value2 (Z.shiftr value2 31)).

Definition ready_at (event : QueuedEvent) : Z := pe_ready_at (qe_summary event).

(** The positions of the events with the least [ready_at]. *)
Definition earliest_indices (events : list QueuedEvent) : list nat :=
  match events with
  | [] => []
  | first :: rest =>
      let earliest := foldl (λ m event, Z.min m (ready_at event)) (ready_at first) rest in
      filter (λ index, ready_at <$> (events !! index) = Some earliest) (seq 0 (length events))
  end.

(** ** Actions of a node *)

(** [count > 0] of a map entry. *)
Definition positive_entry (counts : gmap Link Z) (link : Link) : bool :=
  match counts !! link with Some count => 0 <? count | None => false end.

(** [map[key]], which inserts zero for a missing key. *)
Definition entry_or_zero `{Countable K} (key : K) (m : gmap K Z) : Z := default 0 (m !! key).
Definition touch `{Countable K} (key : K) (m : gmap K Z) : gmap K Z :=
  <[key := entry_or_zero key m]> m.

Definition on_drops (f : gmap Link Z → gmap Link Z) (l : Faults) : Faults :=
  mkFaults (fl_partitions l) (fl_network_delays l) (fl_persistence_delays l) (f (fl_drops l))
    (fl_duplicates l).
Definition on_duplicates (f : gmap Link Z → gmap Link Z) (l : Faults) : Faults :=
  mkFaults (fl_partitions l) (fl_network_delays l) (fl_persistence_delays l) (fl_drops l)
    (f (fl_duplicates l)).
Definition on_network_delays (f : gmap Link Z → gmap Link Z) (l : Faults) : Faults :=
  mkFaults (fl_partitions l) (f (fl_network_delays l)) (fl_persistence_delays l) (fl_drops l)
    (fl_duplicates l).
Definition on_persistence_delays (f : gmap Z Z → gmap Z Z) (l : Faults) : Faults :=
  mkFaults (fl_partitions l) (fl_network_delays l) (f (fl_persistence_delays l)) (fl_drops l)
    (fl_duplicates l).
Definition on_partitions (f : gset Link → gset Link) (l : Faults) : Faults :=
  mkFaults (f (fl_partitions l)) (fl_network_delays l) (fl_persistence_delays l) (fl_drops l)
    (fl_duplicates l).
Definition update_faults (f : Faults → Faults) : sim_method unit :=
  modify (λ s, set_faults (f (sim_faults s)) s).

Fixpoint repeat_method (count : nat) (m : sim_method unit) : sim_method unit :=
  match count with O => mret tt | S count' => _ ← m; repeat_method count' m end.

Definition send_action (origin to : Z) (bytes : list byte) : sim_method unit :=
  _ ← node to;
  s ← get_state;
  let link := directed origin to in
  if positive_entry (fl_drops (sim_faults s)) link
  then update_faults (on_drops (λ m, <[link := entry_or_zero link m - 1]> m))
  else
    let duplicates := fl_duplicates (sim_faults s) in
    copies ← (if positive_entry duplicates link
              then _ ← update_faults (on_duplicates (λ m, <[link := 0]> m));
                   mret (u64 (1 + entry_or_zero link duplicates))
              else mret 1);
    let delay := entry_or_zero link (fl_network_delays (sim_faults s)) in
    _ ← update_faults (on_network_delays (touch link));
    _ ← fail_when (u64_max - sim_now s <? delay) "network delay overflows logical time";
    repeat_method (Z.to_nat copies)
      (destination ← node to;
       enqueue (sim_now s + delay) kind_message (Some origin) to (MessageEvent origin bytes)
         (ns_generation destination) None).

(** A disk completion of the node for this request. *)
Definition completes (origin generation request_id : Z) (queued : QueuedEvent) : bool :=
  bool_decide (pe_kind (qe_summary queued) = kind_disk_completion)
  && (pe_to (qe_summary queued) =? origin)
  && (qe_generation queued =? generation)
  && match qe_event queued with PersistedEvent id => id =? request_id | _ => false end.

Definition persist_action (origin generation request_id : Z) (bytes : list byte)
    : sim_method unit :=
  s ← get_state;
  _ ← fail_when (existsb (completes origin generation request_id) (sim_events s))
    "duplicate outstanding persistence request id";
  let delay := entry_or_zero origin (fl_persistence_delays (sim_faults s)) in
  _ ← update_faults (on_persistence_delays (touch origin));
  _ ← fail_when (u64_max - sim_now s <? delay) "persistence delay overflows logical time";
  enqueue (sim_now s + delay) kind_disk_completion None origin (PersistedEvent request_id)
    generation (Some (mkRecord request_id bytes)).

(** A timer of the node with this number. *)
Definition times (origin generation timer_id : Z) (queued : QueuedEvent) : bool :=
  bool_decide (pe_kind (qe_summary queued) = kind_timer)
  && (pe_to (qe_summary queued) =? origin)
  && (qe_generation queued =? generation)
  && match qe_event queued with TimerEvent id => id =? timer_id | _ => false end.

(** [events_.erase(std::remove_if(...))] *)
Definition remove_events (p : QueuedEvent → bool) : sim_method unit :=
  modify (λ s, set_events (filter (λ queued, p queued = false) (sim_events s)) s).

Definition set_timer_action (origin generation timer_id delay : Z) : sim_method unit :=
  _ ← remove_events (times origin generation timer_id);
  s ← get_state;
  _ ← fail_when (u64_max - sim_now s <? delay) "timer delay overflows logical time";
  enqueue (sim_now s + delay) kind_timer None origin (TimerEvent timer_id) generation None.

Definition process_action (origin generation : Z) (action : NodeAction) : sim_method unit :=
  match action with
  | SendAction to bytes => send_action origin to bytes
  | PersistAction request_id bytes => persist_action origin generation request_id bytes
  | SetTimerAction timer_id delay => set_timer_action origin generation timer_id delay
  | CancelTimerAction timer_id => remove_events (times origin generation timer_id)
  end.

Definition process_actions (origin generation : Z) (actions : list NodeAction)
    : sim_method unit :=
  state ← node origin;
  if negb (ns_running state) || negb (ns_generation state =? generation) then mret tt
  else mfold (λ _, process_action origin generation) tt actions.

(** ** Delivery *)

(** [destination.adapter->step(event)], with the exception handler. *)
Definition step_adapter (to : Z) (state : NodeState A) (event : NodeEvent)
    : sim_method (list NodeAction) :=
  adapter ← deref (ns_adapter state);
  let '(result, adapter') := adapter_step event adapter in
  _ ← modify (set_node to
    (mkNode (Some adapter') (ns_durable state) (ns_generation state) (ns_running state)));
  match result with
  | Ret actions => mret actions
  | Throw error => fail ("node adapter threw: " +:+ what error)
  end.

Definition step_line (summary : PendingEvent) : string :=
  "step " +:+ decimal (pe_id summary) +:+ " " +:+ decimal (pe_ready_at summary) +:+ " "
  +:+ kind_name (pe_kind summary) +:+ " " +:+ decimal (pe_to summary).

(** Whether a partition lies between the sender and the receiver. *)
Definition cut_off (faults : Faults) (summary : PendingEvent) : bool :=
  bool_decide (pe_kind summary = kind_message)
  && match pe_from summary with
     | Some from => bool_decide (undirected from (pe_to summary) ∈ fl_partitions faults)
     | None => false
     end.

(** A completed write becomes durable. *)
Definition add_record (state : NodeState A) (record : option DurableRecord) : NodeState A :=
  match record with
  | Some r => mkNode (ns_adapter state) (ns_durable state ++ [r]) (ns_generation state)
                (ns_running state)
  | None => state
  end.

Definition deliver_index (index : nat) (record_step : bool) : sim_method unit :=
  s ← get_state;
  match sim_events s !! index with
  | None => lift (Throw (out_of_range "vector::at"))
  | Some queued =>
      let summary := qe_summary queued in
      _ ← modify (set_events (delete index (sim_events s)));
      _ ← modify (set_now (Z.max (sim_now s) (pe_ready_at summary)));
      _ ← (if record_step then push_history (step_line summary) else mret tt);
      destination ← node (pe_to summary);
      if cut_off (sim_faults s) summary then mret tt
      else if negb (ns_running destination)
              || negb (ns_generation destination =? qe_generation queued) then mret tt
      else
        let destination' := add_record destination (qe_pending_record queued) in
        _ ← modify (set_node (pe_to summary) destination');
        actions ← step_adapter (pe_to summary) destination' (qe_event queued);
        process_actions (pe_to summary) (qe_generation queued) actions
  end.

(** ** Public methods *)

Definition running (id : Z) : sim_method bool := state ← node id; mret (ns_running state).

Definition durable_records (id : Z) : sim_method (list DurableRecord) :=
  state ← node id; mret (ns_durable state).

(** The order of [pending_events]: by time, then by number. *)
Definition event_le (first second : PendingEvent) : Prop :=
  pe_ready_at first < pe_ready_at second ∨
  (pe_ready_at first = pe_ready_at second ∧ pe_id first ≤ pe_id second).
#[export] Instance event_le_dec : RelDecision event_le.
Proof. unfold event_le. intros ??. apply _. Defined.

Definition pending_events s : list PendingEvent :=
  merge_sort event_le (qe_summary <$> sim_events s).

Definition step : sim_method bool :=
  s ← get_state;
  match earliest_indices (sim_events s) with
  | [] => mret false
  | eligible =>
      value ← random;
      match eligible !! Z.to_nat (value `mod` Z.of_nat (length eligible)) with
      | Some selected => _ ← deliver_index selected true; mret true
      | None => lift (Throw (out_of_range "vector::operator[]"))
      end
  end.

(** The loop of [run], with [remaining] deliveries left of [max_events]. *)
Fixpoint run_loop (remaining : nat) : sim_method unit :=
  s ← get_state;
  match sim_events s with
  | [] => mret tt
  | _ =>
      match remaining with
      | O => fail "simulation event limit exceeded"
      | S remaining' => _ ← step; run_loop remaining'
      end
  end.
Definition run (max_events : Z) : sim_method unit := run_loop (Z.to_nat max_events).

(** [std::find_if] for the event with a number. *)
Definition has_id (event : Z) (queued : QueuedEvent) : Prop := pe_id (qe_summary queued) = event.
#[export] Instance has_id_dec event queued : Decision (has_id event queued).
Proof. unfold has_id. apply _. Defined.

Definition deliver (event : Z) : sim_method unit :=
  s ← get_state;
  let is_event index := pe_id ∘ qe_summary <$> (sim_events s !! index) = Some event in
  match list_find is_event (earliest_indices (sim_events s)) with
  | None => lift (Throw (invalid_argument "event is not pending at the earliest logical time"))
  | Some (_, index) =>
      _ ← record_control ("deliver " +:+ decimal event);
      deliver_index index false
  end.

Definition delayed (additional_delay : Z) (queued : QueuedEvent) : QueuedEvent :=
  let p := qe_summary queued in
  mkQueued (mkPendingEvent (pe_id p) (pe_ready_at p + additional_delay) (pe_kind p) (pe_from p)
    (pe_to p)) (qe_generation queued) (qe_event queued) (qe_pending_record queued).

Definition delay_message (event additional_delay : Z) : sim_method unit :=
  s ← get_state;
  match list_find (has_id event) (sim_events s) with
  | Some (index, found) =>
      if negb (bool_decide (pe_kind (qe_summary found) = kind_message))
      then lift (Throw (invalid_argument "event is not a pending message"))
      else
        _ ← lift (throw_when (u64_max - ready_at found <? additional_delay)
          (overflow_error "message delay overflows logical time"));
        _ ← modify (set_events (<[index := delayed additional_delay found]> (sim_events s)));
        record_control ("delay-message " +:+ decimal event +:+ " " +:+ decimal additional_delay)
  | None => lift (Throw (invalid_argument "event is not a pending message"))
  end.

Definition partition (first second : Z) : sim_method unit :=
  _ ← node first;
  _ ← node second;
  _ ← update_faults (on_partitions (λ m, {[undirected first second]} ∪ m));
  record_control ("partition " +:+ decimal first +:+ " " +:+ decimal second).

Definition heal (first second : Z) : sim_method unit :=
  _ ← node first;
  _ ← node second;
  _ ← update_faults (on_partitions (λ m, m ∖ {[undirected first second]}));
  record_control ("heal " +:+ decimal first +:+ " " +:+ decimal second).

Definition set_network_delay (from to delay : Z) : sim_method unit :=
  _ ← node from;
  _ ← node to;
  _ ← update_faults (on_network_delays (λ m, <[directed from to := delay]> m));
  record_control ("network-delay " +:+ decimal from +:+ " " +:+ decimal to +:+ " " +:+ decimal delay).

Definition set_persistence_delay (id delay : Z) : sim_method unit :=
  _ ← node id;
  _ ← update_faults (on_persistence_delays (λ m, <[id := delay]> m));
  record_control ("persistence-delay " +:+ decimal id +:+ " " +:+ decimal delay).

(** [counts[link] += count] *)
Definition increase (link : Link) (count : Z) (counts : gmap Link Z) : gmap Link Z :=
  <[link := u64 (entry_or_zero link counts + count)]> counts.

Definition drop_next (from to count : Z) : sim_method unit :=
  _ ← node from;
  _ ← node to;
  _ ← update_faults (on_drops (increase (directed from to) count));
  record_control ("drop-next " +:+ decimal from +:+ " " +:+ decimal to +:+ " " +:+ decimal count).

Definition duplicate_next (from to additional_copies : Z) : sim_method unit :=
  _ ← node from;
  _ ← node to;
  _ ← update_faults (on_duplicates (increase (directed from to) additional_copies));
  record_control ("duplicate-next " +:+ decimal from +:+ " " +:+ decimal to +:+ " "
                  +:+ decimal additional_copies).

(** What a crash removes from the queue. *)
Definition lost_in_crash (id : Z) (queued : QueuedEvent) : bool :=
  (pe_to (qe_summary queued) =? id)
  && negb (bool_decide (pe_kind (qe_summary queued) = kind_message)).

Definition crash (id : Z) : sim_method unit :=
  state ← node id;
  _ ← lift (throw_when (negb (ns_running state)) (logic_error "node is already crashed"));
  _ ← modify (set_node id (mkNode None (ns_durable state) (u64 (ns_generation state + 1)) false));
  _ ← remove_events (lost_in_crash id);
  record_control ("crash " +:+ decimal id).

Definition require (condition : bool) (message : string) : sim_method unit :=
  fail_when (negb condition) message.

(** ** Construction, restart and replay *)

Section factory.
Context (factory : NodeFactory A).

Definition make_node (id : Z) : outcome A :=
  match factory id with
  | Some adapter => Ret adapter
  | None => Throw (invalid_argument "simulation node factory returned null")
  end.

Definition restart (id : Z) : sim_method unit :=
  state ← node id;
  _ ← lift (throw_when (ns_running state) (logic_error "node is already running"));
  adapter ← lift (make_node id);
  _ ← modify (set_node id (mkNode (Some adapter) (ns_durable state) (ns_generation state) true));
  _ ← enqueue_start id;
  record_control ("restart " +:+ decimal id).

Definition header_line (seed : Z) (topology : list Z) : string :=
  foldl (λ line id, line +:+ " " +:+ decimal id) ("sim-v1 seed " +:+ decimal seed +:+ " nodes")
    topology.

(** One node of the topology in the constructor. *)
Definition add_node (nodes : gmap Z (NodeState A)) (id : Z) : outcome (gmap Z (NodeState A)) :=
  adapter ← make_node id;
  mret (<[id := mkNode (Some adapter) [] 0 true]> nodes).

Definition construct (topology : list Z) (seed : Z) : outcome (Simulator A) :=
  _ ← throw_when (bool_decide (topology = []))
    (invalid_argument "simulation topology is empty");
  let sorted := merge_sort Z.le topology in
  _ ← throw_when (negb (bool_decide (NoDup sorted)))
    (invalid_argument "simulation topology has duplicate nodes");
  nodes ← foldM add_node ∅ sorted;
  let s := mkSimulator sorted seed seed 0 1 nodes [] (mkFaults ∅ ∅ ∅ ∅ ∅)
    [header_line seed sorted] in
  let '(result, s') := mfold (λ _, enqueue_start) tt sorted s in
  _ ← result;
  mret s'.

(** The word at a position of a line, empty when there are fewer. *)
Definition word_at (words : list string) (k : nat) : string := default "" (words !! k).

Definition replay_step (words : list string) : sim_method unit :=
  event_id ← lift (parse_number (word_at words 1));
  s ← get_state;
  match list_find (has_id event_id) (sim_events s) with
  | None => fail "replay event is not pending"
  | Some (index, queued) =>
      let summary := qe_summary queued in
      _ ← fail_when (negb (bool_decide (index ∈ earliest_indices (sim_events s))))
        "replay event is not at the earliest logical time";
      time ← lift (parse_number (word_at words 2));
      _ ← fail_when (negb (pe_ready_at summary =? time)
                     || negb (bool_decide (kind_name (pe_kind summary) = word_at words 3)))
        "replay event metadata does not match";
      destination ← lift (parse_number (word_at words 4));
      _ ← fail_when (negb (pe_to summary =? destination)) "replay event metadata does not match";
      _ ← random;
      deliver_index index true
  end.

(** The controls by the number of words they read. *)
Definition replay_control (words : list string) : sim_method unit :=
  let control := word_at words 1 in
  let number k := lift (parse_number (word_at words k)) in
  if bool_decide (control = "crash") then first ← number 2%nat; crash first
  else if bool_decide (control = "restart") then first ← number 2%nat; restart first
  else if bool_decide (control = "deliver") then first ← number 2%nat; deliver first
  else if bool_decide (control = "partition") then
    first ← number 2%nat; second ← number 3%nat; partition first second
  else if bool_decide (control = "heal") then
    first ← number 2%nat; second ← number 3%nat; heal first second
  else if bool_decide (control = "delay-message") then
    first ← number 2%nat; second ← number 3%nat; delay_message first second
  else if bool_decide (control = "network-delay") then
    first ← number 2%nat; second ← number 3%nat; third ← number 4%nat;
    set_network_delay first second third
  else if bool_decide (control = "persistence-delay") then
    first ← number 2%nat; second ← number 3%nat; set_persistence_delay first second
  else if bool_decide (control = "drop-next") then
    first ← number 2%nat; second ← number 3%nat; third ← number 4%nat;
    drop_next first second third
  else if bool_decide (control = "duplicate-next") then
    first ← number 2%nat; second ← number 3%nat; third ← number 4%nat;
    duplicate_next first second third
  else fail "unknown replay trace control".

(** One line of the trace after the header. *)
Definition replay_line (line : string) : sim_method unit :=
  if bool_decide (line = "") then mret tt
  else
    let words := fields line in
    let command := word_at words 0 in
    if bool_decide (command = "step") then replay_step words
    else
      _ ← fail_when (negb (bool_decide (command = "control"))) "unknown replay trace command";
      replay_control words.

Definition replay (text : string) : outcome (Simulator A) :=
  match get_lines text with
  | [] => Throw (simulation_failure "empty replay trace")
  | header :: lines =>
      let words := fields header in
      _ ← throw_when (negb (bool_decide (word_at words 0 = "sim-v1"))
                      || negb (bool_decide (word_at words 1 = "seed"))
                      || negb (bool_decide (word_at words 3 = "nodes")))
        (simulation_failure "invalid replay trace header");
      topology ← mapM parse_number (drop 4 words);
      seed ← parse_number (word_at words 2);
      s ← construct topology seed;
      let '(result, s') := mfold (λ _, replay_line) tt lines s in
      _ ← result;
      mret s'
  end.

End factory.
End simulator.
