(* ===== verification/SimulatorInv.v ===== *)
(** * The invariant of the simulator

    [sim_ok] holds between the public calls: every pending event is numbered
    below the next number, is not in the past, goes to a node of the topology and
    has the shape its kind says; numbers are distinct; a node has at most one
    outstanding write per request number and generation; a node runs exactly when
    it has an adapter.  [produced] and [processed] say what the actions of a node
    do to the queue. *)

From S2P Require Import Prelude OrdMap Bytes Text Simulator.
#[local] Open Scope Z_scope.

(** The contents an event of each kind carries. *)
Definition shaped (q : QueuedEvent) : Prop :=
  match pe_kind (qe_summary q), qe_event q with
  | kind_start, StartEvent self _ _ =>
      self = pe_to (qe_summary q) ∧ pe_from (qe_summary q) = None ∧ qe_pending_record q = None
  | kind_message, MessageEvent from _ =>
      pe_from (qe_summary q) = Some from ∧ qe_pending_record q = None
  | kind_timer, TimerEvent _ => pe_from (qe_summary q) = None ∧ qe_pending_record q = None
  | kind_disk_completion, PersistedEvent id =>
      pe_from (qe_summary q) = None ∧ ∃ bytes, qe_pending_record q = Some (mkRecord id bytes)
  | _, _ => False
  end.

(** The request a disk completion answers: node, generation and number. *)
Definition answers (q : QueuedEvent) : option (Z * Z * Z) :=
  match pe_kind (qe_summary q), qe_event q with
  | kind_disk_completion, PersistedEvent id => Some (pe_to (qe_summary q), qe_generation q, id)
  | _, _ => None
  end.

Definition event_id (q : QueuedEvent) : Z := pe_id (qe_summary q).

Section invariant.
Context {A : Type} `{NodeAdapter A}.
Implicit Types s : Simulator A.

Record event_ok (nodes : gmap Z (NodeState A)) (now next : Z) (q : QueuedEvent) : Prop := {
  eo_id : 1 ≤ event_id q < next;
  eo_time : now ≤ ready_at q ≤ u64_max;
  eo_to : is_Some (nodes !! pe_to (qe_summary q));
  eo_shape : shaped q }.

Definition requests_distinct (events : list QueuedEvent) : Prop :=
  ∀ q1 q2 r, q1 ∈ events → q2 ∈ events → answers q1 = Some r → answers q2 = Some r → q1 = q2.

Record sim_ok s : Prop := {
  ok_sorted : Sorted Z.le (sim_topology s);
  ok_nodup : NoDup (sim_topology s);
  ok_nodes : ∀ n, is_Some (sim_nodes s !! n) ↔ n ∈ sim_topology s;
  ok_now : 0 ≤ sim_now s ≤ u64_max;
  ok_next : 1 ≤ sim_next_event_id s;
  ok_events : ∀ q, q ∈ sim_events s →
    event_ok (sim_nodes s) (sim_now s) (sim_next_event_id s) q;
  ok_ids : NoDup (event_id <$> sim_events s);
  ok_requests : requests_distinct (sim_events s);
  ok_adapters : ∀ n st, sim_nodes s !! n = Some st → is_Some (ns_adapter st) ↔ ns_running st = true }.

(** The queue with events removed and the rest as before. *)
Lemma sim_ok_fewer s events :
  sim_ok s → sublist events (sim_events s) → sim_ok (set_events events s).
Proof.
  intros [] Hsub. assert (∀ q, q ∈ events → q ∈ sim_events s) as Hin.
  { intros q Hq. by eapply elem_of_sublist. }
  split; try done; simpl.
  - intros q Hq. by destruct (ok_events0 q (Hin q Hq)).
  - eapply sublist_NoDup; [done|]. by apply fmap_sublist.
  - intros q1 q2 r H1 H2. apply ok_requests0; auto.
Qed.

Lemma sim_ok_faults s l : sim_ok s → sim_ok (set_faults l s).
Proof. by intros []; split. Qed.
Lemma sim_ok_history s l : sim_ok s → sim_ok (set_history l s).
Proof. by intros []; split. Qed.
Lemma sim_ok_random s r : sim_ok s → sim_ok (set_random_state r s).
Proof. by intros []; split. Qed.

#[local] Hint Resolve sim_ok_faults sim_ok_history sim_ok_random : kura.

(** A new event. *)
Lemma sim_ok_push s q :
  sim_ok s → event_id q = sim_next_event_id s → sim_now s ≤ ready_at q ≤ u64_max →
  is_Some (sim_nodes s !! pe_to (qe_summary q)) → shaped q →
  (∀ q' r, q' ∈ sim_events s → answers q = Some r → answers q' ≠ Some r) →
  sim_ok (push_event q s).
Proof.
  intros [] Hid Ht Hto Hsh Hnew. split; try done; simpl.
  - lia.
  - intros q' [Hq'| ->%list_elem_of_singleton]%elem_of_app.
    + destruct (ok_events0 q' Hq') as [E1 E2 E3 E4]. split; simpl; try done. lia.
    + split; simpl; try done. lia.
  - rewrite fmap_app. apply NoDup_app. split_and!; [done| |by apply NoDup_singleton].
    intros x (q' & -> & Hq')%list_elem_of_fmap. destruct (ok_events0 q' Hq') as [E1 _ _ _].
    simpl. intros ?%list_elem_of_singleton. lia.
  - intros q1 q2 r [H1| ->%list_elem_of_singleton]%elem_of_app
      [H2| ->%list_elem_of_singleton]%elem_of_app A1 A2; try done.
    + by eapply ok_requests0.
    + by destruct (Hnew q1 r).
    + by destruct (Hnew q2 r).
Qed.

(** A node changed in place. *)
Lemma sim_ok_node s n st st' :
  sim_ok s → sim_nodes s !! n = Some st → (is_Some (ns_adapter st') ↔ ns_running st' = true) →
  sim_ok (set_node n st' s).
Proof.
  intros [] Hn Hst. assert (∀ m, is_Some (<[n := st']> (sim_nodes s) !! m) ↔ is_Some (sim_nodes s !! m)) as Hdom.
  { intros m. destruct (decide (n = m)) as [<-|?].
    - rewrite lookup_insert_eq, Hn. split; by eexists.
    - by rewrite lookup_insert_ne. }
  split; try done; simpl.
  - intros m. by rewrite Hdom.
  - intros q Hq. destruct (ok_events0 q Hq). split; try done. simpl. by rewrite Hdom.
  - intros m st0 [[_ <-]|[_ ?]]%lookup_insert_Some; [done|by eauto].
Qed.

(** ** Actions *)

(** [q] is an event one of the actions asks for. *)
Definition produced s (origin generation : Z) (action : NodeAction) (q : QueuedEvent) : Prop :=
  match action with
  | SendAction to bytes =>
      pe_kind (qe_summary q) = kind_message ∧ pe_to (qe_summary q) = to ∧
      qe_event q = MessageEvent origin bytes ∧
      ∃ st, sim_nodes s !! to = Some st ∧ qe_generation q = ns_generation st
  | PersistAction id bytes =>
      answers q = Some (origin, generation, id) ∧ qe_pending_record q = Some (mkRecord id bytes)
  | SetTimerAction id delay =>
      pe_kind (qe_summary q) = kind_timer ∧ pe_to (qe_summary q) = origin ∧
      qe_generation q = generation ∧ qe_event q = TimerEvent id ∧ ready_at q = sim_now s + delay
  | CancelTimerAction _ => False
  end.

(** What processing the actions of a node leaves. *)
Record processed (origin generation : Z) (actions : list NodeAction) s s' : Prop := {
  pd_ok : sim_ok s';
  pd_topology : sim_topology s' = sim_topology s;
  pd_seed : sim_seed s' = sim_seed s;
  pd_random : sim_random_state s' = sim_random_state s;
  pd_now : sim_now s' = sim_now s;
  pd_next : sim_next_event_id s ≤ sim_next_event_id s';
  pd_nodes : sim_nodes s' = sim_nodes s;
  pd_history : sim_history s' = sim_history s;
  pd_new : ∀ q, q ∈ sim_events s' → q ∈ sim_events s ∨
    ∃ action, action ∈ actions ∧ produced s origin generation action q;
  pd_old : ∀ q, q ∈ sim_events s → pe_kind (qe_summary q) ≠ kind_timer → q ∈ sim_events s';
  pd_persist : ∀ id bytes, PersistAction id bytes ∈ actions →
    (∃ q, q ∈ sim_events s' ∧ produced s origin generation (PersistAction id bytes) q) ∧
    ∀ q, q ∈ sim_events s → answers q ≠ Some (origin, generation, id) }.

Lemma processed_refl origin generation s : sim_ok s → processed origin generation [] s s.
Proof. intros Hok. split; try done; [by left|set_solver]. Qed.

Lemma produced_nodes s s' origin generation action q :
  sim_nodes s' = sim_nodes s → sim_now s' = sim_now s →
  produced s' origin generation action q → produced s origin generation action q.
Proof. intros En Et. destruct action; simpl; by rewrite ?En, ?Et. Qed.

Lemma processed_trans origin generation a1 a2 s1 s2 s3 :
  processed origin generation a1 s1 s2 → processed origin generation a2 s2 s3 →
  processed origin generation (a1 ++ a2) s1 s3.
Proof.
  intros [O1 T1 S1 R1 N1 X1 D1 H1 W1 L1 P1] [O2 T2 S2 R2 N2 X2 D2 H2 W2 L2 P2].
  split; try done; try congruence; [lia|..].
  - intros q [Hq|(a & Ha & Hp)]%W2.
    + apply W1 in Hq as [?|(a & Ha & Hp)]; [by left|right; exists a; set_solver].
    + right. exists a. split; [set_solver|]. by eapply produced_nodes.
  - auto.
  - intros id bytes [Hin|Hin]%elem_of_app.
    + destruct (P1 _ _ Hin) as [(q & Hq & Hp) Hno]. split; [|done].
      exists q. split; [|done]. apply L2; [done|]. destruct Hp as [Ha _]. unfold answers in Ha.
      by destruct (pe_kind _).
    + destruct (P2 _ _ Hin) as [(q & Hq & Hp) Hno]. split.
      * exists q. split; [done|]. by eapply produced_nodes.
      * intros q' Hq'. destruct (decide (pe_kind (qe_summary q') = kind_timer)) as [Ht|Ht]; [|by auto].
        unfold answers. rewrite Ht. done.
Qed.

(** Changes that an action may make besides adding events. *)
Lemma processed_faults origin generation actions l s s' :
  processed origin generation actions (set_faults l s) s' → processed origin generation actions s s'.
Proof. by intros []; split. Qed.

Lemma fail_mwp {B} message s (Q : B → Simulator A → Prop) :
  mwp (fail message) s Q (λ _ _, True).
Proof. by unfold fail; do 3 mstep. Qed.

Lemma fail_when_mwp b message s (Q : unit → Simulator A → Prop) :
  (b = false → Q tt s) → mwp (fail_when b message) s Q (λ _ _, True).
Proof. destruct b; simpl; [intros _; apply fail_mwp|intros HQ; by apply HQ]. Qed.

Lemma enqueue_spec at_time kind from to event generation record s :
  sim_ok s → at_time ≤ u64_max → is_Some (sim_nodes s !! to) →
  let q := mkQueued (mkPendingEvent (sim_next_event_id s) at_time kind from to) generation event record in
  shaped q → (∀ q' r, q' ∈ sim_events s → answers q = Some r → answers q' ≠ Some r) →
  mwp (enqueue at_time kind from to event generation record) s
    (λ _ s', s' = push_event q s ∧ sim_ok s') (λ _ _, True).
Proof.
  intros Hok Hmax Hto q Hsh Hnew. unfold enqueue. do 4 mstep. apply owp_throw_when; [done|].
  intros Ht%Z.ltb_ge. apply mwp_modify. split; [done|]. by apply sim_ok_push.
Qed.

Definition persists (action : NodeAction) : Prop :=
  match action with PersistAction _ _ => True | _ => False end.

Lemma processed_nothing origin generation action s :
  sim_ok s → (¬ persists action) → processed origin generation [action] s s.
Proof.
  intros Hok Ha. split; try done; [by left|].
  intros id bytes Hin%list_elem_of_singleton. by subst action.
Qed.

(** One more event of an action. *)
Lemma processed_push origin generation action q s s' :
  processed origin generation [action] s s' → (¬ persists action) →
  sim_ok (push_event q s') → produced s origin generation action q →
  processed origin generation [action] s (push_event q s').
Proof.
  intros [? ? ? ? ? ? ? ? W ? ?] Ha Hok Hp. split; try done; simpl.
  - lia.
  - intros q' [?%W| ->%list_elem_of_singleton]%elem_of_app; [done|right; set_solver].
  - intros q' Hq' Hk. apply elem_of_app. left. auto.
  - intros id bytes Hin%list_elem_of_singleton. by subst action.
Qed.

Lemma repeat_method_spec (I : Simulator A → Prop) (m : M (Simulator A) unit) n s :
  I s → (∀ s, I s → mwp m s (λ _, I) (λ _ _, True)) → mwp (repeat_method n m) s (λ _, I) (λ _ _, True).
Proof.
  revert s. induction n as [|n IH]; intros s HI Hm; simpl; [by mstep|].
  mstep. eapply mwp_mono; [by apply Hm| |done]. auto.
Qed.

Lemma node_spec id s (Q : NodeState A → Simulator A → Prop) (E : exn → Simulator A → Prop) :
  (∀ st, sim_nodes s !! id = Some st → Q st s) →
  (∀ e, sim_nodes s !! id = None → E e s) → mwp (node id) s Q E.
Proof. intros HQ HE. unfold node. do 2 mstep. destruct (sim_nodes s !! id) eqn:?; mstep; simpl; auto. Qed.

Lemma send_action_spec origin generation to bytes s :
  sim_ok s → mwp (send_action origin to bytes) s
    (λ _ s', processed origin generation [SendAction to bytes] s s') (λ _ _, True).
Proof.
  intros Hok. unfold send_action. mstep. apply node_spec; [|done]. intros st Hst. mstep. mstep.
  destruct (positive_entry _ _).
  - unfold update_faults. apply mwp_modify. eapply processed_faults. apply processed_nothing; auto with kura.
  - set (link := directed origin to).
    assert (∀ copies l, mwp (_ ← update_faults (on_network_delays (touch link));
      _ ← fail_when (u64_max - sim_now s <? entry_or_zero link (fl_network_delays (sim_faults s)))
        "network delay overflows logical time";
      repeat_method copies (destination ← node to;
        enqueue (sim_now s + entry_or_zero link (fl_network_delays (sim_faults s))) kind_message
          (Some origin) to (MessageEvent origin bytes) (ns_generation destination) None))
      (set_faults l s)
      (λ _ s', processed origin generation [SendAction to bytes] s s') (λ _ _, True)) as Hloop.
    { intros copies l. mstep. apply mwp_modify. mstep. apply fail_when_mwp. intros Hd%Z.ltb_ge.
      eapply mwp_mono; [apply (repeat_method_spec
        (processed origin generation [SendAction to bytes] (set_faults
          (on_network_delays (touch link) (sim_faults (set_faults l s))) s)))| |done].
      - apply processed_nothing; auto with kura.
      - intros s' Hp. mstep. apply node_spec; [|done]. intros st' Hst'.
        eapply mwp_mono; [apply enqueue_spec; [apply Hp|lia|by eexists|done|done]| |done].
        intros ? s'' [-> Hok']. apply processed_push; try done; [tauto|].
        split_and!; try done. exists st'. split; [|done]. rewrite <-(pd_nodes _ _ _ _ _ Hp). done.
      - intros ? s'. apply processed_faults. }
    mstep. destruct (positive_entry _ _).
    + mstep. apply mwp_modify. mstep. apply Hloop.
    + mstep. replace s with (set_faults (sim_faults s) s) at 3 by by destruct s. apply Hloop.
Qed.

Lemma completes_answers origin generation id q :
  shaped q → completes origin generation id q = true ↔ answers q = Some (origin, generation, id).
Proof.
  unfold shaped, completes, answers. destruct (pe_kind _), (qe_event q); simpl; try done.
  intros _. rewrite !andb_true_iff, !Z.eqb_eq. naive_solver.
Qed.

Lemma persist_action_spec origin generation id bytes s :
  sim_ok s → is_Some (sim_nodes s !! origin) → mwp (persist_action origin generation id bytes) s
    (λ _ s', processed origin generation [PersistAction id bytes] s s') (λ _ _, True).
Proof.
  intros Hok Ho. unfold persist_action. do 3 mstep. apply fail_when_mwp. intros Hno.
  assert (∀ q, q ∈ sim_events s → answers q ≠ Some (origin, generation, id)) as Hnew.
  { intros q Hq Ha. apply not_true_iff_false in Hno. apply Hno, existsb_exists. exists q.
    split; [by apply list_elem_of_In|]. apply completes_answers; [|done].
    by destruct (ok_events _ Hok q Hq). }
  mstep. apply mwp_modify. mstep. apply fail_when_mwp. intros Hd%Z.ltb_ge.
  eapply mwp_mono; [apply enqueue_spec; auto with kura| |done].
  - lia.
  - simpl. split; [done|]. by eexists.
  - intros q' r Hq' [= <-]. by apply Hnew.
  - intros _ s' [-> Hok']. split; try done; simpl.
    + lia.
    + intros q [?| ->%list_elem_of_singleton]%elem_of_app; [by left|right].
      eexists. split; [by left|done].
    + intros q Hq _. set_solver.
    + intros id' bytes' [= -> ->]%list_elem_of_singleton. split; [|done].
      eexists. split; [apply elem_of_app; right; by left|done].
Qed.

(** Removing timers. *)
Lemma remove_timers_spec origin generation action id s :
  sim_ok s → (¬ persists action) → mwp (remove_events (times origin generation id)) s
    (λ _ s', processed origin generation [action] s s' ∧
       sim_nodes s' = sim_nodes s ∧ sim_now s' = sim_now s) (λ _ _, True).
Proof.
  intros Hok Ha. unfold remove_events. apply mwp_modify. split; [|done]. split; try done; simpl.
  - apply sim_ok_fewer; [done|]. apply sublist_filter.
  - intros q [_ ?]%list_elem_of_filter. by left.
  - intros q Hq Hk. apply list_elem_of_filter. split; [|done]. unfold times.
    by rewrite bool_decide_false.
  - intros id' bytes' Hin%list_elem_of_singleton. by subst action.
Qed.

Lemma process_action_spec origin generation action s :
  sim_ok s → is_Some (sim_nodes s !! origin) → mwp (process_action origin generation action) s
    (λ _ s', processed origin generation [action] s s') (λ _ _, True).
Proof.
  intros Hok Ho. destruct action as [to bytes|id bytes|id delay|id]; simpl.
  - by apply send_action_spec.
  - by apply persist_action_spec.
  - unfold set_timer_action. mstep.
    eapply mwp_mono; [apply (remove_timers_spec _ _ (SetTimerAction id delay)); auto| |done].
    intros _ s1 (Hp & En & Et). do 3 mstep. apply fail_when_mwp. intros Hd%Z.ltb_ge.
    eapply mwp_mono; [apply enqueue_spec; [apply Hp|lia|by rewrite En|done|done]| |done].
    intros _ s' [-> Hok']. apply processed_push; try done; [tauto|].
    split_and!; try done. unfold ready_at. simpl. by rewrite Et.
  - eapply mwp_mono; [apply (remove_timers_spec _ _ (CancelTimerAction id)); auto| |done].
    by intros _ s' [? _].
Qed.

Lemma process_actions_spec origin generation actions s st :
  sim_ok s → sim_nodes s !! origin = Some st →
  mwp (process_actions origin generation actions) s
    (λ _ s', if ns_running st && (ns_generation st =? generation)
             then processed origin generation actions s s' else s' = s) (λ _ _, True).
Proof.
  intros Hok Ho. unfold process_actions. mstep. apply node_spec; [|done]. intros st' Hst'.
  rewrite Ho in Hst'. injection Hst' as <-. rewrite <-negb_andb.
  destruct (ns_running st && (ns_generation st =? generation)); simpl; [|by mstep].
  apply (mwp_mfold _ (λ pre _ s', processed origin generation pre s s')).
  - by apply processed_refl.
  - intros pre a suf [] s' _ Hp. eapply mwp_mono; [apply process_action_spec| |done].
    + apply Hp.
    + rewrite (pd_nodes _ _ _ _ _ Hp). by eexists.
    + intros ? s''. by apply processed_trans.
Qed.

End invariant.

#[export] Hint Resolve sim_ok_faults sim_ok_history sim_ok_random : kura.
