(* ===== verification/SimulatorRun.v ===== *)
(** * Runs of the simulator

    What one delivery does ([delivered]), the public methods as [call]s, and the
    invariant over sequences of calls on a constructed simulator. *)

From S2P Require Import Prelude OrdMap Bytes Text Simulator SimulatorInv.
#[local] Open Scope Z_scope.

(** ** The earliest events *)

Lemma foldl_min_spec (events : list QueuedEvent) m0 :
  let m := foldl (λ m event, Z.min m (ready_at event)) m0 events in
  m ≤ m0 ∧ (∀ q, q ∈ events → m ≤ ready_at q) ∧ (m = m0 ∨ ∃ q, q ∈ events ∧ ready_at q = m).
Proof.
  revert m0. induction events as [|q events IH]; intros m0; simpl.
  - split_and!; [lia|set_solver|by left].
  - destruct (IH (Z.min m0 (ready_at q))) as (H1 & H2 & H3). split_and!.
    + lia.
    + intros q' [->|Hq']%elem_of_cons; [lia|auto].
    + destruct H3 as [->|(q' & Hq' & <-)].
      * destruct (Z.min_spec m0 (ready_at q)) as [[? ->]|[? ->]]; [by left|].
        right. exists q. split; [by left|done].
      * right. exists q'. split; [by right|done].
Qed.

(** The eligible positions are those of the events with the least time. *)
Lemma earliest_indices_spec events index :
  index ∈ earliest_indices events ↔
  ∃ q, events !! index = Some q ∧ ∀ q', q' ∈ events → ready_at q ≤ ready_at q'.
Proof.
  destruct events as [|first rest]; [set_solver|].
  destruct (foldl_min_spec rest (ready_at first)) as (H1 & H2 & H3).
  unfold earliest_indices. rewrite list_elem_of_filter, elem_of_seq.
  set (m := foldl _ _ _) in *. split.
  - intros [(q & Hq & Hm)%fmap_Some _]. exists q. split; [done|]. rewrite <-Hm.
    intros q' [->|Hq']%elem_of_cons; auto.
  - intros (q & Hq & Hmin). split.
    + rewrite Hq. simpl. f_equal. apply Z.le_antisymm.
      * destruct H3 as [->|(q' & Hq' & <-)]; apply Hmin; [by left|by right].
      * apply list_elem_of_lookup_2, elem_of_cons in Hq as [->|Hq]; auto.
    + apply lookup_lt_Some in Hq. lia.
Qed.

Lemma earliest_indices_nonempty events : events ≠ [] → earliest_indices events ≠ [].
Proof.
  intros Hne He. destruct events as [|first rest]; [done|].
  destruct (foldl_min_spec rest (ready_at first)) as (H1 & H2 & H3).
  assert (∃ q, q ∈ first :: rest ∧ ∀ q', q' ∈ first :: rest → ready_at q ≤ ready_at q')
    as (q & [i Hi]%list_elem_of_lookup & Hmin).
  { destruct H3 as [Hm|(q & Hq & Hm)]; [exists first|exists q]; (split; [set_solver|]);
      intros q' [->|Hq']%elem_of_cons; try apply H2 in Hq'; lia. }
  assert (i ∈ earliest_indices (first :: rest)) as Hin by (apply earliest_indices_spec; eauto).
  rewrite He in Hin. set_solver.
Qed.

Section runs.
Context {A : Type} `{NodeAdapter A}.
Implicit Types s : Simulator A.

(** ** One delivery *)

(** The event is taken from the queue, time moves to it, and a recorded step is
    written to the history. *)
Definition arrived (index : nat) (q : QueuedEvent) (line : list string) s : Simulator A :=
  set_history (sim_history s ++ line)
    (set_now (Z.max (sim_now s) (ready_at q)) (set_events (delete index (sim_events s)) s)).

(** The event does not reach its node: a partition, a crash or a restart is in
    between. *)
Definition blocked s (q : QueuedEvent) (st : NodeState A) : Prop :=
  cut_off (sim_faults s) (qe_summary q) = true ∨ ns_running st = false ∨
  ns_generation st ≠ qe_generation q.

Definition stepped (q : QueuedEvent) (st : NodeState A) (adapter : A) : NodeState A :=
  mkNode (Some adapter) (ns_durable (add_record st (qe_pending_record q))) (ns_generation st)
    (ns_running st).

Inductive delivered (index : nat) (q : QueuedEvent) (line : list string) s : Simulator A → Prop :=
| delivered_blocked st :
    sim_nodes s !! pe_to (qe_summary q) = Some st → blocked s q st →
    delivered index q line s (arrived index q line s)
| delivered_stepped st adapter adapter' actions s' :
    sim_nodes s !! pe_to (qe_summary q) = Some st → (¬ blocked s q st) →
    ns_adapter st = Some adapter → adapter_step (qe_event q) adapter = (Ret actions, adapter') →
    processed (pe_to (qe_summary q)) (qe_generation q) actions
      (set_node (pe_to (qe_summary q)) (stepped q st adapter') (arrived index q line s)) s' →
    delivered index q line s s'.

Definition recorded (record_step : bool) (q : QueuedEvent) : list string :=
  if record_step then [step_line (qe_summary q)] else [].

Lemma arrived_ok index q line s :
  sim_ok s → index ∈ earliest_indices (sim_events s) → sim_events s !! index = Some q →
  sim_ok (arrived index q line s).
Proof.
  intros Hok (q0 & Hq0 & Hmin)%earliest_indices_spec Hq. rewrite Hq in Hq0. injection Hq0 as <-.
  apply sim_ok_history. pose proof (sim_ok_fewer s (delete index (sim_events s)) Hok
    (sublist_delete _ _)) as [O1 O2 O3 O4 O5 Hev O7 O8 O9]. split; try done; simpl in *.
  - destruct (ok_events _ Hok q) as [_ Ht _ _]; [by eapply list_elem_of_lookup_2|].
    pose proof (ok_now _ Hok). lia.
  - intros q' Hq'. destruct (Hev q' Hq') as [E1 E2 E3 E4]. split; try done.
    assert (q' ∈ sim_events s) as Hin by (by eapply elem_of_sublist, sublist_delete).
    specialize (Hmin q' Hin). lia.
Qed.

Lemma deliver_index_spec index q record_step s :
  sim_ok s → index ∈ earliest_indices (sim_events s) → sim_events s !! index = Some q →
  mwp (deliver_index index record_step) s
    (λ _ s', sim_ok s' ∧ delivered index q (recorded record_step q) s s') (λ _ _, True).
Proof.
  intros Hok Hin Hq. pose proof (arrived_ok index q (recorded record_step q) s Hok Hin Hq) as Hok1.
  unfold deliver_index. do 2 mstep. rewrite Hq. mstep. apply mwp_modify. mstep. apply mwp_modify.
  assert (∀ m (Q : unit → Simulator A → Prop),
    mwp (m tt) (arrived index q (recorded record_step q) s) Q (λ _ _, True) →
    mwp ((if record_step then push_history (step_line (qe_summary q)) else mret tt) ≫= m)
      (set_now (Z.max (sim_now s) (ready_at q)) (set_events (delete index (sim_events s)) s)) Q
      (λ _ _, True)) as Hpush.
  { intros m Q Hm. mstep. destruct record_step; simpl.
    - by apply mwp_modify.
    - mstep. unfold arrived in Hm. simpl in Hm. by rewrite app_nil_r in Hm. }
  apply Hpush. clear Hpush. set (s1 := arrived _ _ _ _) in *.
  mstep. apply node_spec; [|done]. intros st Hst. change (sim_nodes s !! pe_to (qe_summary q) = Some st) in Hst.
  destruct (cut_off (sim_faults s) (qe_summary q)) eqn:Hcut.
  { mstep. split; [done|]. by apply (delivered_blocked _ _ _ _ st); [|left]. }
  destruct (negb (ns_running st) || negb (ns_generation st =? qe_generation q)) eqn:Hrun.
  { mstep. split; [done|]. apply (delivered_blocked _ _ _ _ st); [done|right].
    apply orb_true_iff in Hrun as [Hr%negb_true_iff|Hg%negb_true_iff%Z.eqb_neq]; [by left|by right]. }
  apply orb_false_iff in Hrun as [Hr%negb_false_iff Hg%negb_false_iff%Z.eqb_eq].
  assert (¬ blocked s q st) as Hnb by (intros [?|[?|?]]; congruence).
  destruct (proj2 (ok_adapters _ Hok _ _ Hst) Hr) as [adapter Had].
  set (st1 := add_record st (qe_pending_record q)).
  assert (ns_adapter st1 = ns_adapter st ∧ ns_generation st1 = ns_generation st ∧
    ns_running st1 = ns_running st) as (E1 & E2 & E3) by (unfold st1; by destruct (qe_pending_record q)).
  mstep. apply mwp_modify. mstep. unfold step_adapter. mstep.
  apply mwp_deref; [|done]. rewrite E1. intros a Ha. rewrite Had in Ha. injection Ha as <-.
  destruct (adapter_step (qe_event q) adapter) as [result adapter'] eqn:Hstep. mstep.
  apply mwp_modify. destruct result as [actions|error]; [|apply fail_mwp]. mstep.
  assert (set_node (pe_to (qe_summary q)) (mkNode (Some adapter') (ns_durable st1) (ns_generation st1)
      (ns_running st1)) (set_node (pe_to (qe_summary q)) st1 s1)
    = set_node (pe_to (qe_summary q)) (stepped q st adapter') s1) as ->.
  { unfold set_node, set_nodes, stepped. simpl. by rewrite insert_insert_eq, E2, E3. }
  set (s2 := set_node _ (stepped q st adapter') s1).
  assert (sim_ok s2) as Hok2.
  { apply (sim_ok_node _ _ st); [done..|]. simpl. rewrite Hr. split; [done|by eexists]. }
  assert (sim_nodes s2 !! pe_to (qe_summary q) = Some (stepped q st adapter')) as Hn2.
  { simpl. by rewrite lookup_insert_eq. }
  eapply mwp_mono; [exact (process_actions_spec _ (qe_generation q) actions _ _ Hok2 Hn2)| |done].
  intros ? s'. simpl. rewrite Hr, Hg, Z.eqb_refl. simpl. intros Hp.
  split; [apply Hp|]. by eapply delivered_stepped.
Qed.

Lemma delivered_ids index q line s s' :
  delivered index q line s s' →
  sim_topology s' = sim_topology s ∧ sim_seed s' = sim_seed s ∧
  sim_next_event_id s ≤ sim_next_event_id s' ∧ sim_now s ≤ sim_now s' ∧
  sim_history s' = sim_history s ++ line ∧ sim_random_state s' = sim_random_state s.
Proof.
  intros [st Hst Hb|st a a' actions s1 Hst Hb Ha Hs [_ E1 E2 E3 E4 E5 E6 E7 _ _ _]]; simpl in *.
  - split_and!; try done; lia.
  - split_and!; try done; lia.
Qed.

(** ** The public methods *)

Lemma simulator_step_spec s :
  sim_ok s → mwp step s (λ b s',
    if b then ∃ index q random, sim_events s !! index = Some q ∧
      index ∈ earliest_indices (sim_events s) ∧ sim_ok s' ∧
      (∃ value, Simulator.random s = (Ret value, set_random_state random s)) ∧
      deliver_index index true (set_random_state random s) = (Ret tt, s') ∧
      delivered index q [step_line (qe_summary q)] (set_random_state random s) s'
    else s' = s ∧ sim_events s = []) (λ _ _, True).
Proof.
  intros Hok. unfold step. do 2 mstep. destruct (sim_events s) as [|q0 rest] eqn:Hev.
  { by mstep. }
  rewrite <-Hev. pose proof (earliest_indices_nonempty (sim_events s)) as Hne.
  rewrite Hev in Hne at 1. specialize (Hne ltac:(done)).
  destruct (earliest_indices (sim_events s)) as [|i0 more] eqn:Hel; [done|].
  mstep. unfold Simulator.random at 1. do 4 mstep. cbv zeta.
  set (random := u64 (sim_random_state s + _)). set (value := Z.lxor _ _). mstep.
  destruct ((i0 :: more) !! _) as [index|] eqn:Hi; [|by mstep].
  apply list_elem_of_lookup_2 in Hi. rewrite <-Hel in Hi.
  destruct (proj1 (earliest_indices_spec _ _) Hi) as (q & Hq & _).
  pose proof (deliver_index_spec index q true (set_random_state random s)
    (sim_ok_random _ _ Hok) Hi Hq) as Hd.
  mstep. unfold mwp in Hd |- *.
  destruct (deliver_index index true (set_random_state random s)) as [[[]|e] s'] eqn:Hrun; [|done].
  destruct Hd as [Hok' Hd]. simpl. exists index, q, random. split_and!; try done; [by rewrite <-Hel|by exists value].
Qed.

Inductive call :=
| call_step
| call_run (max_events : Z)
| call_deliver (event : Z)
| call_delay_message (event additional_delay : Z)
| call_partition (first second : Z)
| call_heal (first second : Z)
| call_network_delay (from to delay : Z)
| call_persistence_delay (id delay : Z)
| call_drop_next (from to count : Z)
| call_duplicate_next (from to additional_copies : Z)
| call_crash (id : Z)
| call_restart (id : Z).

Context (factory : NodeFactory A).

Definition perform (c : call) : M (Simulator A) unit :=
  match c with
  | call_step => _ ← step; mret tt
  | call_run max_events => run max_events
  | call_deliver event => deliver event
  | call_delay_message event delay => delay_message event delay
  | call_partition first second => partition first second
  | call_heal first second => heal first second
  | call_network_delay from to delay => set_network_delay from to delay
  | call_persistence_delay id delay => set_persistence_delay id delay
  | call_drop_next from to count => drop_next from to count
  | call_duplicate_next from to copies => duplicate_next from to copies
  | call_crash id => crash id
  | call_restart id => restart factory id
  end.

Definition perform_all (calls : list call) : M (Simulator A) unit :=
  mfold (λ _, perform) tt calls.

(** ** The transitions behind the calls *)

(** The node after a crash and after a restart. *)
Definition crashed (st : NodeState A) : NodeState A :=
  mkNode None (ns_durable st) (u64 (ns_generation st + 1)) false.
Definition restarted (st : NodeState A) (adapter : A) : NodeState A :=
  mkNode (Some adapter) (ns_durable st) (ns_generation st) true.

Definition start_event s (id : Z) (st : NodeState A) : QueuedEvent :=
  mkQueued (mkPendingEvent (sim_next_event_id s) (sim_now s) kind_start None id) (ns_generation st)
    (StartEvent id (filter (λ candidate, candidate ≠ id) (sim_topology s)) (ns_durable st)) None.

Inductive moves s : Simulator A → Prop :=
| move_deliver index q line random history s' :
    index ∈ earliest_indices (sim_events s) → sim_events s !! index = Some q →
    delivered index q line (set_history history (set_random_state random s)) s' →
    moves s s'
| move_settings faults history : moves s (set_history history (set_faults faults s))
| move_delay index q delay history :
    sim_events s !! index = Some q → pe_kind (qe_summary q) = kind_message →
    0 ≤ delay ≤ u64_max - ready_at q →
    moves s (set_history history (set_events (<[index := delayed delay q]> (sim_events s)) s))
| move_crash id st history :
    sim_nodes s !! id = Some st → ns_running st = true →
    moves s (set_history history (set_events
      (filter (λ q, lost_in_crash id q = false) (sim_events s)) (set_node id (crashed st) s)))
| move_restart id st adapter history :
    sim_nodes s !! id = Some st → ns_running st = false → factory id = Some adapter →
    moves s (set_history history (push_event (start_event s id st)
      (set_node id (restarted st adapter) s))).

Lemma delayed_answers delay q : answers (delayed delay q) = answers q.
Proof. done. Qed.
Lemma delayed_shaped delay q : shaped q → shaped (delayed delay q).
Proof. done. Qed.

Lemma sim_ok_delay s index q delay :
  sim_ok s → sim_events s !! index = Some q → pe_kind (qe_summary q) = kind_message →
  0 ≤ delay ≤ u64_max - ready_at q →
  sim_ok (set_events (<[index := delayed delay q]> (sim_events s)) s).
Proof.
  intros [O1 O2 O3 O4 O5 O6 O7 O8 O9] Hq Hk Hd. assert (q ∈ sim_events s) as Hin by by eapply list_elem_of_lookup_2.
  assert (∀ q', q' ∈ <[index := delayed delay q]> (sim_events s) → q' = delayed delay q ∨ q' ∈ sim_events s) as Hel.
  { intros q' [j Hj]%list_elem_of_lookup. destruct (decide (index = j)) as [<-|Hne].
    - rewrite list_lookup_insert_eq in Hj by by eapply lookup_lt_Some. left. congruence.
    - rewrite list_lookup_insert_ne in Hj by done. right. by eapply list_elem_of_lookup_2. }
  split; try done; simpl.
  - intros q' [->|Hq']%Hel; [|by apply O6].
    destruct (O6 q Hin) as [E1 E2 E3 E4]. split; try done. unfold ready_at in *. simpl. lia.
  - rewrite list_fmap_insert. change (event_id (delayed delay q)) with (event_id q).
    rewrite list_insert_id; [done|]. by rewrite list_lookup_fmap, Hq.
  - assert (answers q = None) as Hnone by (unfold answers; by rewrite Hk).
    intros q1 q2 r [->|H1]%Hel [->|H2]%Hel; rewrite ?delayed_answers, ?Hnone; try done.
    by apply O8.
Qed.

Lemma moves_ok s s' : sim_ok s → moves s s' → sim_ok s'.
Proof.
  intros Hok [index q line random history s1 Hi Hq Hd|faults history|index q delay history Hq Hk Hd
    |id st history Hn Hr|id st adapter history Hn Hr Hf].
  - destruct Hd as [st Hst Hb|st a a' actions s1 Hst Hb Ha Hs Hp]; [|apply Hp].
    apply arrived_ok; auto with kura.
  - auto with kura.
  - apply sim_ok_history. by apply sim_ok_delay.
  - apply sim_ok_history. apply (sim_ok_fewer (set_node id (crashed st) s)).
    + apply (sim_ok_node _ _ st); [done..|]. simpl. split; [by intros []|done].
    + apply sublist_filter.
  - apply sim_ok_history. set (s1 := set_node id (restarted st adapter) s).
    assert (sim_ok s1) as Hok1.
    { apply (sim_ok_node _ _ st); [done..|]. simpl. split; [done|by eexists]. }
    apply sim_ok_push; try done.
    + unfold ready_at. simpl. pose proof (ok_now _ Hok). lia.
    + simpl. rewrite lookup_insert_eq. by eexists.
Qed.

(** The numbers a caller passes are 64-bit words. *)
Definition fits_word (z : Z) : Prop := 0 ≤ z ≤ u64_max.

Definition call_fits (c : call) : Prop :=
  match c with
  | call_delay_message _ delay | call_network_delay _ _ delay | call_persistence_delay _ delay =>
      fits_word delay
  | call_drop_next _ _ count | call_duplicate_next _ _ count => fits_word count
  | _ => True
  end.

#[local] Ltac control_step :=
  first [mstep | apply node_spec; [intros ? ?|done] | apply mwp_modify].

(** A control call changes the settings and adds one line to the history. *)
Definition controls (line : string) s s' : Prop :=
  ∃ faults, s' = set_history (sim_history s ++ ["control " +:+ line]) (set_faults faults s).

Lemma partition_spec first second s :
  mwp (partition first second) s (λ _ s', is_Some (sim_nodes s !! first) ∧
    is_Some (sim_nodes s !! second) ∧
    controls ("partition " +:+ decimal first +:+ " " +:+ decimal second) s s') (λ _ _, True).
Proof. unfold partition. repeat control_step. split_and!; by eexists. Qed.

Lemma heal_spec first second s :
  mwp (heal first second) s (λ _ s', is_Some (sim_nodes s !! first) ∧
    is_Some (sim_nodes s !! second) ∧
    controls ("heal " +:+ decimal first +:+ " " +:+ decimal second) s s') (λ _ _, True).
Proof. unfold heal. repeat control_step. split_and!; by eexists. Qed.

Lemma set_network_delay_spec from to delay s :
  mwp (set_network_delay from to delay) s (λ _ s', is_Some (sim_nodes s !! from) ∧
    is_Some (sim_nodes s !! to) ∧
    controls ("network-delay " +:+ decimal from +:+ " " +:+ decimal to +:+ " " +:+ decimal delay)
      s s') (λ _ _, True).
Proof. unfold set_network_delay. repeat control_step. split_and!; by eexists. Qed.

Lemma set_persistence_delay_spec id delay s :
  mwp (set_persistence_delay id delay) s (λ _ s', is_Some (sim_nodes s !! id) ∧
    controls ("persistence-delay " +:+ decimal id +:+ " " +:+ decimal delay) s s') (λ _ _, True).
Proof. unfold set_persistence_delay. repeat control_step. split_and!; by eexists. Qed.

Lemma drop_next_spec from to count s :
  mwp (drop_next from to count) s (λ _ s', is_Some (sim_nodes s !! from) ∧
    is_Some (sim_nodes s !! to) ∧
    controls ("drop-next " +:+ decimal from +:+ " " +:+ decimal to +:+ " " +:+ decimal count)
      s s') (λ _ _, True).
Proof. unfold drop_next. repeat control_step. split_and!; by eexists. Qed.

Lemma duplicate_next_spec from to count s :
  mwp (duplicate_next from to count) s (λ _ s', is_Some (sim_nodes s !! from) ∧
    is_Some (sim_nodes s !! to) ∧
    controls ("duplicate-next " +:+ decimal from +:+ " " +:+ decimal to +:+ " " +:+ decimal count)
      s s') (λ _ _, True).
Proof. unfold duplicate_next. repeat control_step. split_and!; by eexists. Qed.

Lemma delay_message_spec event delay s :
  mwp (delay_message event delay) s (λ _ s', ∃ index q,
    sim_events s !! index = Some q ∧ event_id q = event ∧ pe_kind (qe_summary q) = kind_message ∧
    delay ≤ u64_max - ready_at q ∧
    s' = set_history (sim_history s ++
           ["control delay-message " +:+ decimal event +:+ " " +:+ decimal delay])
           (set_events (<[index := delayed delay q]> (sim_events s)) s)) (λ _ _, True).
Proof.
  unfold delay_message. do 2 mstep.
  destruct (list_find _ _) as [[index q]|] eqn:Hf; [|by mstep].
  apply list_find_Some in Hf as (Hq & Hid & _).
  destruct (negb _) eqn:Hk; [by mstep|]. apply negb_false_iff, bool_decide_eq_true in Hk.
  do 2 mstep. apply owp_throw_when; [done|]. intros Hd%Z.ltb_ge. repeat control_step.
  exists index, q. split_and!; done.
Qed.

Lemma crash_spec id s :
  mwp (crash id) s (λ _ s', ∃ st, sim_nodes s !! id = Some st ∧ ns_running st = true ∧
    s' = set_history (sim_history s ++ ["control crash " +:+ decimal id]) (set_events
      (filter (λ q, lost_in_crash id q = false) (sim_events s)) (set_node id (crashed st) s)))
    (λ _ _, True).
Proof.
  unfold crash. mstep. apply node_spec; [|done]. intros st Hst. do 2 mstep.
  apply owp_throw_when; [done|]. intros Hr%negb_false_iff. repeat control_step. by exists st.
Qed.

Lemma restart_spec id s :
  sim_ok s → mwp (restart factory id) s (λ _ s', ∃ st adapter, sim_nodes s !! id = Some st ∧
    ns_running st = false ∧ factory id = Some adapter ∧
    s' = set_history (sim_history s ++ ["control restart " +:+ decimal id])
      (push_event (start_event s id st) (set_node id (restarted st adapter) s))) (λ _ _, True).
Proof.
  intros Hok. unfold restart. mstep. apply node_spec; [|done]. intros st Hst. do 2 mstep.
  apply owp_throw_when; [done|]. intros Hr. do 2 mstep. unfold make_node.
  destruct (factory id) as [adapter|] eqn:Hf; [|done]. simpl. mstep. apply mwp_modify. mstep.
  unfold enqueue_start. mstep. apply node_spec; [|done]. simpl.
  rewrite lookup_insert_eq. intros st' [= <-]. do 2 mstep. unfold enqueue. do 4 mstep.
  apply owp_throw_when; [done|]. intros _. repeat control_step. by exists st, adapter.
Qed.

Lemma deliver_spec event s :
  sim_ok s → mwp (deliver event) s (λ _ s', ∃ index q,
    index ∈ earliest_indices (sim_events s) ∧ sim_events s !! index = Some q ∧
    event_id q = event ∧
    delivered index q [] (set_history (sim_history s ++ ["control deliver " +:+ decimal event]) s) s')
    (λ _ _, True).
Proof.
  intros Hok. unfold deliver. do 2 mstep.
  destruct (list_find _ _) as [[k index]|] eqn:Hf; [|by mstep].
  apply list_find_Some in Hf as (Hk%list_elem_of_lookup_2 & (q & Hq & Hid)%fmap_Some & _).
  mstep. apply mwp_modify. eapply mwp_mono; [by apply (deliver_index_spec index q);
    [apply sim_ok_history|..]| |done].
  intros ? s' [_ Hd]. by exists index, q.
Qed.

Lemma controls_moves line s s' : controls line s s' → moves s s'.
Proof. intros [faults ->]. apply move_settings. Qed.

Lemma step_moves s : sim_ok s → mwp step s (λ b s', rtc moves s s') (λ _ _, True).
Proof.
  intros Hok. eapply mwp_mono; [by apply simulator_step_spec| |done]. intros [] s'.
  - intros (index & q & random & Hq & Hi & _ & _ & _ & Hd). apply rtc_once.
    eapply (move_deliver s index q _ random (sim_history s)); [done|done|].
    by replace (set_history (sim_history s) _) with (set_random_state random s) by by destruct s.
  - intros [-> _]. apply rtc_refl.
Qed.

Lemma moves_all_ok s s' : sim_ok s → rtc moves s s' → sim_ok s'.
Proof. intros Hok Hm. induction Hm as [|s1 s2 s3 H12 _ IH]; [done|]. by eapply IH, moves_ok. Qed.

Lemma perform_moves c s :
  sim_ok s → call_fits c → mwp (perform c) s (λ _ s', rtc moves s s') (λ _ _, True).
Proof.
  intros Hok Hfit. destruct c; simpl in *.
  - mstep. eapply mwp_mono; [by apply step_moves| |done]. intros b s' ?. by mstep.
  - unfold run. generalize (Z.to_nat max_events). intros n. revert s Hok.
    induction n as [|n IH]; intros s Hok; simpl; do 2 mstep.
    + destruct (sim_events s); [mstep; apply rtc_refl|apply fail_mwp].
    + destruct (sim_events s); [mstep; apply rtc_refl|]. mstep.
      eapply mwp_mono; [by apply step_moves| |done]. intros b s1 Hm.
      eapply mwp_mono; [apply IH; by eapply moves_all_ok| |done]. intros ? s2. by trans s1.
  - eapply mwp_mono; [by apply deliver_spec| |done]. intros ? s' (index & q & Hi & Hq & _ & Hd).
    apply rtc_once. eapply (move_deliver s index q _ (sim_random_state s)); [done|done|].
    by replace (set_random_state _ s) with s by by destruct s.
  - eapply mwp_mono; [apply delay_message_spec| |done].
    intros ? s' (index & q & Hq & _ & Hk & Hd & ->). apply rtc_once, move_delay; try done.
    unfold fits_word in Hfit. lia.
  - eapply mwp_mono; [apply partition_spec| |done]. intros ? s' (_ & _ & ?). by eapply rtc_once, controls_moves.
  - eapply mwp_mono; [apply heal_spec| |done]. intros ? s' (_ & _ & ?). by eapply rtc_once, controls_moves.
  - eapply mwp_mono; [apply set_network_delay_spec| |done]. intros ? s' (_ & _ & ?). by eapply rtc_once, controls_moves.
  - eapply mwp_mono; [apply set_persistence_delay_spec| |done]. intros ? s' (_ & ?). by eapply rtc_once, controls_moves.
  - eapply mwp_mono; [apply drop_next_spec| |done]. intros ? s' (_ & _ & ?). by eapply rtc_once, controls_moves.
  - eapply mwp_mono; [apply duplicate_next_spec| |done]. intros ? s' (_ & _ & ?). by eapply rtc_once, controls_moves.
  - eapply mwp_mono; [apply crash_spec| |done]. intros ? s' (st & Hn & Hr & ->).
    by apply rtc_once, move_crash.
  - eapply mwp_mono; [by apply restart_spec| |done]. intros ? s' (st & adapter & Hn & Hr & Hf & ->).
    by apply rtc_once, move_restart.
Qed.

Lemma moves_frame s s' :
  moves s s' → sim_topology s' = sim_topology s ∧ sim_seed s' = sim_seed s ∧
  sim_next_event_id s ≤ sim_next_event_id s' ∧ sim_now s ≤ sim_now s'.
Proof.
  intros [index q line random history s1 Hi Hq Hd|faults history|index q delay history Hq Hk Hd
    |id st history Hn Hr|id st adapter history Hn Hr Hf]; simpl; try (split_and!; done || lia).
  by destruct (delivered_ids _ _ _ _ _ Hd) as (? & ? & ? & ? & _).
Qed.

Lemma all_moves_frame s s' :
  rtc (moves) s s' → sim_topology s' = sim_topology s ∧ sim_seed s' = sim_seed s ∧
  sim_next_event_id s ≤ sim_next_event_id s' ∧ sim_now s ≤ sim_now s'.
Proof.
  induction 1 as [|s1 s2 s3 H12 _ IH]; [split_and!; done || lia|].
  destruct (moves_frame _ _ H12) as (? & ? & ? & ?), IH as (? & ? & ? & ?).
  split_and!; congruence || lia.
Qed.

(** ** Construction *)

(** A new simulator: every node is there with an adapter of its own, nothing
    durable and a start event. *)
Record fresh s (topology : list Z) (seed : Z) : Prop := {
  fr_ok : sim_ok s;
  fr_topology : sim_topology s = merge_sort Z.le topology;
  fr_seed : sim_seed s = seed;
  fr_nodes : ∀ n st, sim_nodes s !! n = Some st →
    ns_durable st = [] ∧ ns_generation st = 0 ∧ ns_running st = true ∧ ns_adapter st = factory n;
  fr_events : ∀ q, q ∈ sim_events s → pe_kind (qe_summary q) = kind_start ∧
    ∃ n, qe_event q = StartEvent n (filter (λ c, c ≠ n) (sim_topology s)) [];
  fr_history : sim_history s = [header_line seed (sim_topology s)] }.

Lemma add_nodes_spec (l : list Z) nodes nodes' :
  foldM (add_node factory) nodes l = Ret nodes' →
  ∀ n st, nodes' !! n = Some st ↔
    (n ∈ l ∧ ∃ adapter, factory n = Some adapter ∧ st = mkNode (Some adapter) [] 0 true) ∨
    ((n ∉ l) ∧ nodes !! n = Some st).
Proof.
  revert nodes. induction l as [|m l IH]; intros nodes; simpl.
  - intros [= <-] n st. split; [intros ?; right; set_solver|]. intros [[? _]|[_ ?]]; [set_solver|done].
  - intros (nodes1 & (adapter & Hf & [= <-])%bind_Ret & Hl)%bind_Ret n st.
    rewrite (IH _ Hl). unfold make_node in Hf. destruct (factory m) as [a|] eqn:Hm; [|done].
    injection Hf as <-. rewrite lookup_insert_Some, elem_of_cons.
    destruct (decide (n ∈ l)), (decide (m = n)); naive_solver.
Qed.

Lemma construct_fresh topology seed s :
  construct factory topology seed = Ret s → fresh s topology seed ∧ sim_topology s ≠ [].
Proof.
  unfold construct. intros (u1 & Hne%throw_when_Ret & Hc)%bind_Ret.
  apply bool_decide_eq_false in Hne. apply bind_Ret in Hc as (u2 & Hnd%throw_when_Ret & Hc).
  apply negb_false_iff, bool_decide_eq_true in Hnd.
  apply bind_Ret in Hc as (nodes & Hnodes & Hc). pose proof (add_nodes_spec _ _ _ Hnodes) as Hn.
  set (sorted := merge_sort Z.le topology) in *. set (s0 := mkSimulator _ _ _ _ _ _ _ _ _) in Hc.
  assert (fresh s0 topology seed) as Hfr.
  { split; try done; simpl; [|by intros n st [(_ & a & Hf & ->)|[_ ?]]%Hn|set_solver].
    split; simpl; try done; [apply (Sorted_merge_sort _)| |set_solver|constructor|
      intros ????; set_solver|].
    - intros n. split; [by intros [st [[? _]|[_ ?]]%Hn]|]. intros Hin.
      assert (is_Some (factory n)) as [a Ha].
      { clear -Hnodes Hin. revert Hnodes. generalize (∅ : gmap Z (NodeState A)).
        induction sorted as [|m l IH]; intros nodes0; [set_solver|]. simpl.
        intros (nodes1 & Ha & Hl)%bind_Ret. apply elem_of_cons in Hin as [->|Hin]; [|by eapply IH].
        unfold add_node, make_node in Ha. by destruct (factory m). }
      eexists. apply Hn. left. eauto.
    - intros n st [(_ & a & Hf & ->)|[_ ?]]%Hn; [|done]. simpl. split; [done|by eexists]. }
  assert (mwp (mfold (λ _, enqueue_start) tt sorted) s0
    (λ _ s', fresh s' topology seed) (λ _ _, True)) as Hwp.
  { apply (mwp_mfold _ (λ _ _ s', fresh s' topology seed)); [done|].
    intros pre id suf [] s1 Hpre [Hok E1 E2 E3 E4 E5]. unfold enqueue_start. mstep.
    apply node_spec; [|done]. intros st Hst. do 2 mstep.
    eapply mwp_mono; [apply enqueue_spec; [done|apply (ok_now _ Hok)|by eexists|done|done]| |done].
    intros ? s' [-> Hok']. split; try done. simpl. intros q [?| ->%list_elem_of_singleton]%elem_of_app.
    - by apply E4.
    - split; [done|]. exists id. simpl. by destruct (E3 _ _ Hst) as (-> & _). }
  destruct (mfold _ _ _ s0) as [o s'] eqn:Hrun. apply bind_Ret in Hc as ([] & -> & [= <-]).
  pose proof (mwp_run _ _ _ _ _ _ Hwp Hrun) as Hfr'. simpl in Hfr'. split; [done|].
  rewrite (fr_topology _ _ _ Hfr'). intros Hnil.
  pose proof (merge_sort_Permutation Z.le topology) as Hp. fold sorted in Hp. unfold sorted in Hp.
  rewrite Hnil in Hp. by apply Permutation_nil_l in Hp.
Qed.

Lemma perform_all_moves calls s s' :
  sim_ok s → Forall call_fits calls → perform_all calls s = (Ret tt, s') → rtc moves s s'.
Proof.
  intros Hok Hfit Hrun.
  assert (mwp (perform_all calls) s (λ _ s', rtc moves s s') (λ _ _, True)) as Hwp;
    [|exact (mwp_run _ _ _ _ _ _ Hwp Hrun)].
  apply (mwp_mfold _ (λ _ _ s', rtc moves s s')); [apply rtc_refl|].
  intros pre c suf [] s1 -> Hm. apply Forall_app in Hfit as [_ [Hc _]%Forall_cons].
  eapply mwp_mono; [apply perform_moves; [by eapply moves_all_ok|done]| |done].
  intros ? s2. by trans s1.
Qed.

End runs.

(** ** An example *)

(** A node that greets its peers when it starts, writes a record for every message
    and sets a timer; it keeps the number of its last request. *)
Definition echo_step (event : NodeEvent) : M Z (list NodeAction) :=
  n ← get_state;
  match event with
  | StartEvent self peers records =>
      _ ← put_state (Z.of_nat (length records));
      mret ((λ peer, SendAction peer [byte.of_Z 1]) <$> peers)
  | MessageEvent from bytes =>
      _ ← put_state (n + 1);
      mret [PersistAction (n + 1) bytes; SetTimerAction 1 5]
  | _ => mret []
  end.
#[export] Instance echo_adapter : NodeAdapter Z := echo_step.
Definition echo_factory : NodeFactory Z := λ _, Some 0.

(** Three nodes; the first is partitioned, slowed down and crashed. *)
Definition echo_calls : list call :=
  [call_partition 1 2; call_network_delay 2 3 4; call_duplicate_next 3 2 1; call_step; call_step;
   call_step; call_drop_next 1 3 1; call_step; call_heal 1 2; call_crash 1; call_persistence_delay 2 3;
   call_restart 1; call_delay_message 5 2; call_step; call_deliver 11; call_run 50].

Definition echo_start : Simulator Z :=
  match construct echo_factory [3; 1; 2] 42 with
  | Ret s => s
  | Throw _ => mkSimulator [] 0 0 0 0 ∅ [] (mkFaults ∅ ∅ ∅ ∅ ∅) []
  end.
Definition echo_end : Simulator Z := (perform_all echo_factory echo_calls echo_start).2.

Lemma echo_started : construct echo_factory [3; 1; 2] 42 = Ret echo_start.
Proof. vm_compute. reflexivity. Qed.

Lemma echo_performed : perform_all echo_factory echo_calls echo_start = (Ret tt, echo_end).
Proof. vm_compute. reflexivity. Qed.

Lemma echo_calls_fit : Forall call_fits echo_calls.
Proof. repeat constructor; done. Qed.

(** The invariant of the simulator after any sequence of public calls that
    return: no pending event lies in the past, each goes to a node of the
    topology and carries what its kind says, event numbers are distinct and below
    the next one, no node has two outstanding writes with one request number in
    one incarnation, and a node runs exactly when it has an adapter; time never
    goes back. *)
Theorem simulator_invariant {A} `{NodeAdapter A} (factory : NodeFactory A) (topology : list Z)
    (seed : Z) (calls more : list call) (s0 s s' : Simulator A) :
  Forall call_fits calls → Forall call_fits more →
  construct factory topology seed = Ret s0 → perform_all factory calls s0 = (Ret tt, s) →
  perform_all factory more s = (Ret tt, s') →
  sim_ok s ∧ sim_ok s' ∧ sim_now s ≤ sim_now s'.
Proof.
  intros Hfit Hfit' Hc Hp Hp'. destruct (construct_fresh _ _ _ _ Hc) as [Hfr _].
  pose proof (moves_all_ok _ _ _ (fr_ok _ _ _ _ Hfr)
    (perform_all_moves _ _ _ _ (fr_ok _ _ _ _ Hfr) Hfit Hp)) as Hok.
  pose proof (perform_all_moves _ _ _ _ Hok Hfit' Hp') as Hm.
  split; [done|]. split; [by eapply moves_all_ok|]. by apply (all_moves_frame _ _ _ Hm).
Qed.

Lemma simulator_invariant_witness :
  sim_ok echo_end ∧ sim_ok echo_end ∧ sim_now echo_end ≤ sim_now echo_end.
Proof.
  apply (simulator_invariant echo_factory [3; 1; 2] 42 echo_calls [] echo_start echo_end echo_end);
    [apply echo_calls_fit|by constructor|apply echo_started|apply echo_performed|done].
Defined.
