(* ===== verification/SimulatorReplay.v ===== *)
(** * Replay of a trace

    The text a simulator keeps of a run determines the run: [replay] of the trace
    builds a simulator in exactly the state the trace was taken from. *)

From S2P Require Import Prelude OrdMap Bytes Text Simulator SimulatorInv SimulatorRun.
#[local] Open Scope string_scope.
#[local] Open Scope Z_scope.

(** ** Text *)

Lemma parse_number_decimal z : fits_word z → parse_number (decimal z) = Ret z.
Proof. intros Hz. unfold parse_number. by rewrite integer_u64_decimal. Qed.

(** A line of the history can be read back: it is not empty and has no newline. *)
Definition line_ok (line : string) : Prop :=
  line ≠ "" ∧ all_chars (λ c, negb (bool_decide (c = newline))) line = true.

Lemma decimal_no_newline z : all_chars (λ c, negb (bool_decide (c = newline))) (decimal z) = true.
Proof.
  apply (all_chars_impl is_decimal); [|apply decimal_chars].
  intros c. by destruct c as [[] [] [] [] [] [] [] []].
Qed.

Lemma kind_name_word kind : word (kind_name kind).
Proof. by destruct kind. Qed.

Lemma kind_no_newline kind :
  all_chars (λ c, negb (bool_decide (c = newline))) (kind_name kind) = true.
Proof. by destruct kind. Qed.

Lemma get_lines_history (history : list string) :
  Forall line_ok history →
  get_lines (foldr (λ line text, line +:+ endl +:+ text) "" history) = history.
Proof.
  induction 1 as [|line history [_ Hl] _ IH]; [done|]. cbn [foldr]. by rewrite get_lines_cons, IH.
Qed.

(** Evaluates the comparisons of a line's words with keywords. *)
Ltac compare_words :=
  repeat first [rewrite bool_decide_true by done | rewrite bool_decide_false by done]; simpl.

Lemma line_ok_app (prefix rest : string) :
  prefix ≠ "" → all_chars (λ c, negb (bool_decide (c = newline))) prefix = true →
  all_chars (λ c, negb (bool_decide (c = newline))) rest = true → line_ok (prefix +:+ rest).
Proof.
  intros Hne H1 H2. split; [|by rewrite all_chars_app, H1, H2]. by destruct prefix.
Qed.

(** Numbers, each after a space. *)
Definition numbers (l : list Z) : string := foldr (λ id text, " " +:+ decimal id +:+ text) "" l.

(** The header. *)
Lemma header_line_words seed topology :
  header_line seed topology =
  "sim-v1 seed " +:+ decimal seed +:+ " nodes" +:+ numbers topology.
Proof.
  unfold header_line.
  assert (∀ l acc, foldl (λ line id, line +:+ " " +:+ decimal id) acc l =
    acc +:+ numbers l) as Hf.
  { induction l as [|id l IH]; intros acc; simpl; [by rewrite string_app_nil_r|].
    rewrite IH, !string_app_assoc. done. }
  rewrite Hf, !string_app_assoc. done.
Qed.

Lemma fields_numbers (l : list Z) word_ :
  word word_ →
  fields (word_ +:+ numbers l) = word_ :: (decimal <$> l).
Proof.
  revert word_. induction l as [|id l IH]; intros word_ Hw.
  - unfold numbers. cbn [foldr]. rewrite string_app_nil_r. by apply fields_last.
  - change (numbers (id :: l)) with (" " +:+ decimal id +:+ numbers l).
    rewrite fields_cons by done. by rewrite IH by apply decimal_word.
Qed.

Lemma header_fields seed topology :
  fields (header_line seed topology) =
  "sim-v1" :: "seed" :: decimal seed :: "nodes" :: (decimal <$> topology).
Proof.
  rewrite header_line_words. change ("sim-v1 seed " +:+ ?x) with ("sim-v1" +:+ " " +:+ "seed" +:+ " " +:+ x).
  rewrite fields_cons by done. rewrite fields_cons by done.
  change (" nodes" +:+ ?x) with (" " +:+ "nodes" +:+ x).
  rewrite fields_cons by apply decimal_word. by rewrite fields_numbers.
Qed.

Lemma numbers_no_newline l :
  all_chars (λ c, negb (bool_decide (c = newline))) (numbers l) = true.
Proof.
  induction l as [|id l IH]; simpl; [done|]. by rewrite all_chars_app, decimal_no_newline.
Qed.

Lemma header_ok seed topology : line_ok (header_line seed topology).
Proof.
  rewrite header_line_words. apply line_ok_app; [done..|].
  rewrite !all_chars_app, decimal_no_newline, numbers_no_newline. done.
Qed.

Lemma parse_numbers (l : list Z) : Forall fits_word l → mapM parse_number (decimal <$> l) = Ret l.
Proof.
  induction 1 as [|z l Hz _ IH]; [done|]. rewrite fmap_cons. cbn [mapM].
  rewrite parse_number_decimal by done. simpl. by rewrite IH.
Qed.

(** ** Lines *)

#[local] Close Scope string_scope.

Lemma mfold_app {S B C} (f : B → C → M S B) b (l1 l2 : list C) s s1 b1 :
  mfold f b l1 s = (Ret b1, s1) → mfold f b (l1 ++ l2) s = mfold f b1 l2 s1.
Proof.
  revert b s. induction l1 as [|x l1 IH]; intros b s; simpl; [by intros [= -> ->]|].
  unfold mbind, M_bind. destruct (f b x s) as [[b'|e] s']; [apply IH|done].
Qed.

Section replay.
Context {A : Type} `{NodeAdapter A} (factory : NodeFactory A).
Implicit Types s : Simulator A.

(** [replay] of the lines added between two states leads from one to the other. *)
Definition replays s s' : Prop :=
  ∃ lines, sim_history s' = sim_history s ++ lines ∧ Forall line_ok lines ∧
    mfold (λ _, replay_line factory) tt lines s = (Ret tt, s').

Lemma replays_refl s : replays s s.
Proof. exists []. by rewrite app_nil_r. Qed.

Lemma replays_trans s1 s2 s3 : replays s1 s2 → replays s2 s3 → replays s1 s3.
Proof.
  intros (l1 & E1 & O1 & R1) (l2 & E2 & O2 & R2). exists (l1 ++ l2).
  rewrite E2, E1, app_assoc. split_and!; [done|by apply Forall_app|].
  by rewrite (mfold_app _ _ _ _ _ _ _ R1).
Qed.

Lemma replays_line line s s' :
  sim_history s' = sim_history s ++ [line] → line_ok line →
  replay_line factory line s = (Ret tt, s') → replays s s'.
Proof.
  intros Eh Hl Hr. exists [line]. split_and!; [done|by constructor|]. simpl.
  unfold mbind, M_bind. by rewrite Hr.
Qed.

(** ** Control lines *)

Lemma control_words name args s :
  word name →
  replay_line factory ("control " +:+ name +:+ numbers args) s =
  replay_control factory ("control" :: name :: (decimal <$> args)) s.
Proof.
  intros Hn. unfold replay_line. rewrite bool_decide_false by done.
  change ("control " +:+ ?x) with ("control" +:+ " " +:+ x).
  rewrite fields_cons, fields_numbers by done. unfold word_at at 1 2. simpl. by compare_words.
Qed.

Lemma control_line_ok name args :
  all_chars (λ c, negb (bool_decide (c = newline))) name = true →
  line_ok ("control " +:+ name +:+ numbers args).
Proof.
  intros Hn. apply line_ok_app; [done..|]. by rewrite all_chars_app, Hn, numbers_no_newline.
Qed.

(** The name and the numbers of a control call. *)
Definition control_of (c : call) : option (string * list Z) :=
  match c with
  | call_step | call_run _ => None
  | call_deliver event => Some ("deliver", [event])
  | call_delay_message event delay => Some ("delay-message", [event; delay])
  | call_partition first second => Some ("partition", [first; second])
  | call_heal first second => Some ("heal", [first; second])
  | call_network_delay from to delay => Some ("network-delay", [from; to; delay])
  | call_persistence_delay id delay => Some ("persistence-delay", [id; delay])
  | call_drop_next from to count => Some ("drop-next", [from; to; count])
  | call_duplicate_next from to count => Some ("duplicate-next", [from; to; count])
  | call_crash id => Some ("crash", [id])
  | call_restart id => Some ("restart", [id])
  end.

(** A control line is executed as the call it records. *)
Lemma control_replayed c name args s :
  control_of c = Some (name, args) → Forall fits_word args →
  replay_line factory ("control " +:+ name +:+ numbers args) s = perform factory c s.
Proof.
  intros Hc Hargs. assert (word name) as Hn by (by destruct c; simplify_eq/=).
  rewrite control_words by done.
  destruct c; simplify_eq/=; repeat apply Forall_cons in Hargs as [? Hargs];
    unfold replay_control, word_at; simpl; compare_words;
    unfold mbind, M_bind, lift; rewrite !parse_number_decimal by done; done.
Qed.

Lemma control_replays c name args s s' :
  control_of c = Some (name, args) → Forall fits_word args → perform factory c s = (Ret tt, s') →
  sim_history s' = sim_history s ++ ["control " +:+ name +:+ numbers args] → replays s s'.
Proof.
  intros Hc Hargs Hp Hh. eapply replays_line; [exact Hh| |by rewrite (control_replayed c)].
  apply control_line_ok. by destruct c; simplify_eq/=.
Qed.

(** ** Steps *)

Lemma list_find_id (events : list QueuedEvent) index q
    `{!∀ q', Decision (has_id (event_id q) q')} :
  NoDup (event_id <$> events) → events !! index = Some q →
  list_find (has_id (event_id q)) events = Some (index, q).
Proof.
  intros Hnd Hq. apply list_find_Some. split_and!; [done|done|].
  intros j q' Hj Hlt Hid. unfold has_id in Hid. change (event_id q' = event_id q) in Hid.
  assert (j = index); [|lia]. eapply (NoDup_lookup (event_id <$> events)); [done| |].
  - by rewrite list_lookup_fmap, Hj.
  - rewrite list_lookup_fmap, Hq. simpl. by f_equal.
Qed.

Lemma step_line_ok summary : line_ok (step_line summary).
Proof.
  apply line_ok_app; [done..|].
  rewrite !all_chars_app, !decimal_no_newline, kind_no_newline. done.
Qed.

Lemma step_line_fields summary :
  fields (step_line summary) = ["step"; decimal (pe_id summary); decimal (pe_ready_at summary);
    kind_name (pe_kind summary); decimal (pe_to summary)].
Proof.
  unfold step_line. change ("step " +:+ ?x) with ("step" +:+ " " +:+ x).
  rewrite fields_cons by done. rewrite !fields_cons by (apply decimal_word || apply kind_name_word).
  by rewrite fields_last by apply decimal_word.
Qed.

Definition topology_fits s : Prop := Forall fits_word (sim_topology s).

(** The numbers of a pending event can be read back. *)
Lemma event_fits s q :
  sim_ok s → topology_fits s → sim_next_event_id s ≤ u64_max + 1 → q ∈ sim_events s →
  fits_word (event_id q) ∧ fits_word (ready_at q) ∧ fits_word (pe_to (qe_summary q)).
Proof.
  intros Hok Ht Hnext Hq. destruct (ok_events _ Hok q Hq) as [E1 E2 E3 _].
  pose proof (ok_now _ Hok). unfold fits_word. split_and!; try lia.
  all: apply (ok_nodes _ Hok) in E3; pose proof (proj1 (Forall_forall _ _) Ht _ E3) as Hf;
    unfold fits_word in Hf; lia.
Qed.

Lemma step_replays s b s' :
  sim_ok s → topology_fits s → sim_next_event_id s ≤ u64_max + 1 →
  step s = (Ret b, s') → replays s s'.
Proof.
  intros Hok Ht Hnext Hrun. pose proof (mwp_run _ _ _ _ _ _ (simulator_step_spec s Hok) Hrun) as Hs.
  destruct b; [|destruct Hs as [-> _]; apply replays_refl].
  destruct Hs as (index & q & rnd & Hq & Hi & _ & [value Hr] & Hd & Hdel).
  destruct (delivered_ids _ _ _ _ _ Hdel) as (_ & _ & _ & _ & Hh & _).
  pose proof (list_elem_of_lookup_2 _ _ _ Hq) as Hin.
  destruct (event_fits s q Hok Ht Hnext Hin) as (F1 & F2 & F3).
  eapply replays_line; [exact Hh|apply step_line_ok|].
  unfold replay_line. rewrite bool_decide_false by done. rewrite step_line_fields.
  unfold word_at at 1. simpl. compare_words. unfold replay_step, word_at. simpl.
  unfold mbind, M_bind, lift. rewrite parse_number_decimal by done. simpl.
  pose proof (list_find_id (sim_events s) index q (ok_ids _ Hok) Hq) as Hfind.
  change (event_id q) with (pe_id (qe_summary q)) in Hfind. rewrite Hfind.
  rewrite (bool_decide_true (index ∈ _)) by done. simpl.
  rewrite parse_number_decimal by done. simpl.
  rewrite Z.eqb_refl, bool_decide_true by done. simpl.
  rewrite parse_number_decimal by done. simpl. rewrite Z.eqb_refl. simpl.
  unfold random in Hr. injection Hr as _ <-. exact Hd.
Qed.

(** ** Calls *)

Lemma node_fits s n : sim_ok s → topology_fits s → is_Some (sim_nodes s !! n) → fits_word n.
Proof. intros Hok Ht Hn%(ok_nodes _ Hok). by apply (proj1 (Forall_forall _ _) Ht). Qed.

Lemma run_loop_replays n s s' :
  sim_ok s → topology_fits s → sim_next_event_id s' ≤ u64_max + 1 →
  run_loop n s = (Ret tt, s') → replays s s'.
Proof.
  revert s. induction n as [|n IH]; intros s Hok Ht Hnext; simpl; unfold mbind at 1, M_bind at 1; simpl.
  - destruct (sim_events s); [intros [= <-]; apply replays_refl|done].
  - destruct (sim_events s); [intros [= <-]; apply replays_refl|].
    unfold mbind, M_bind. destruct (step s) as [[b|e] s1] eqn:Hs; [|done]. intros Hr.
    pose proof (mwp_run _ _ _ _ _ _ (step_moves factory s Hok) Hs) as Hm. simpl in Hm.
    pose proof (moves_all_ok _ _ _ Hok Hm) as Hok1.
    destruct (all_moves_frame _ _ _ Hm) as (E1 & _ & E3 & _).
    assert (perform factory (call_run (Z.of_nat n)) s1 = (Ret tt, s')) as Hr2.
    { simpl. unfold run. by rewrite Nat2Z.id. }
    pose proof (mwp_run _ _ _ _ _ _ (perform_moves factory (call_run (Z.of_nat n)) s1 Hok1 I) Hr2)
      as Hm2. simpl in Hm2. destruct (all_moves_frame _ _ _ Hm2) as (_ & _ & E3' & _).
    eapply replays_trans; [eapply step_replays; try done; lia|].
    apply IH; try done. unfold topology_fits. by rewrite E1.
Qed.

Lemma call_replays c s s' :
  sim_ok s → topology_fits s → call_fits c → sim_next_event_id s' ≤ u64_max + 1 →
  perform factory c s = (Ret tt, s') → replays s s'.
Proof.
  intros Hok Ht Hfit Hnext Hp.
  pose proof (mwp_run _ _ _ _ _ _ (perform_moves factory c s Hok Hfit) Hp) as Hm. simpl in Hm.
  destruct (all_moves_frame _ _ _ Hm) as (_ & _ & Hle & _).
  assert (sim_next_event_id s ≤ u64_max + 1) as Hnext0 by lia. clear Hm Hle.
  pose proof (λ n, node_fits s n Hok Ht) as Hn.
  destruct c as [|max|event|event delay|n1 n2|n1 n2|n1 n2 delay|n1 delay|n1 n2 k|n1 n2 k|n1|n1];
    simpl in Hfit.
  - simpl in Hp. unfold mbind, M_bind in Hp. destruct (step s) as [[b|e] s1] eqn:Hs; [|done].
    injection Hp as <-. by eapply step_replays.
  - by eapply run_loop_replays.
  - destruct (mwp_run _ _ _ _ _ _ (deliver_spec event s Hok) Hp) as (index & q & Hi & Hq & <- & Hd).
    destruct (delivered_ids _ _ _ _ _ Hd) as (_ & _ & _ & _ & Hh & _).
    eapply control_replays with (3 := Hp); [reflexivity| |].
    + constructor; [|done]. by eapply event_fits, list_elem_of_lookup_2.
    + rewrite Hh, app_nil_r. simpl. by rewrite string_app_nil_r.
  - destruct (mwp_run _ _ _ _ _ _ (delay_message_spec event delay s) Hp)
      as (index & q & Hq & <- & Hk & Hd & ->).
    eapply control_replays with (3 := Hp); [reflexivity| |].
    + repeat constructor; try apply Hfit; eapply event_fits; by eauto using list_elem_of_lookup_2.
    + simpl. by rewrite string_app_nil_r.
  - destruct (mwp_run _ _ _ _ _ _ (partition_spec n1 n2 s) Hp) as (H1 & H2 & faults & ->).
    eapply control_replays with (3 := Hp); [reflexivity|by auto|]. simpl. by rewrite string_app_nil_r.
  - destruct (mwp_run _ _ _ _ _ _ (heal_spec n1 n2 s) Hp) as (H1 & H2 & faults & ->).
    eapply control_replays with (3 := Hp); [reflexivity|by auto|]. simpl. by rewrite string_app_nil_r.
  - destruct (mwp_run _ _ _ _ _ _ (set_network_delay_spec n1 n2 delay s) Hp) as (H1 & H2 & faults & ->).
    eapply control_replays with (3 := Hp); [reflexivity|by auto|]. simpl. by rewrite string_app_nil_r.
  - destruct (mwp_run _ _ _ _ _ _ (set_persistence_delay_spec n1 delay s) Hp) as (H1 & faults & ->).
    eapply control_replays with (3 := Hp); [reflexivity|by auto|]. simpl. by rewrite string_app_nil_r.
  - destruct (mwp_run _ _ _ _ _ _ (drop_next_spec n1 n2 k s) Hp) as (H1 & H2 & faults & ->).
    eapply control_replays with (3 := Hp); [reflexivity|by auto|]. simpl. by rewrite string_app_nil_r.
  - destruct (mwp_run _ _ _ _ _ _ (duplicate_next_spec n1 n2 k s) Hp) as (H1 & H2 & faults & ->).
    eapply control_replays with (3 := Hp); [reflexivity|by auto|]. simpl. by rewrite string_app_nil_r.
  - destruct (mwp_run _ _ _ _ _ _ (crash_spec n1 s) Hp) as (st & H1 & _ & ->).
    eapply control_replays with (3 := Hp); [reflexivity|by eauto|]. simpl. by rewrite string_app_nil_r.
  - destruct (mwp_run _ _ _ _ _ _ (restart_spec factory n1 s Hok) Hp) as (st & adapter & H1 & _ & _ & ->).
    eapply control_replays with (3 := Hp); [reflexivity|by eauto|]. simpl. by rewrite string_app_nil_r.
Qed.

Lemma perform_all_replays calls s s' :
  sim_ok s → topology_fits s → Forall call_fits calls → sim_next_event_id s' ≤ u64_max + 1 →
  perform_all factory calls s = (Ret tt, s') → replays s s'.
Proof.
  intros Hok Ht Hfit Hnext. revert s Hok Ht. induction Hfit as [|c calls Hc Hfit IH]; intros s Hok Ht.
  - intros [= <-]. apply replays_refl.
  - unfold perform_all. simpl. unfold mbind, M_bind.
    destruct (perform factory c s) as [[[]|e] s1] eqn:Hp; [|done]. intros Hr.
    pose proof (mwp_run _ _ _ _ _ _ (perform_moves factory c s Hok Hc) Hp) as Hm. simpl in Hm.
    pose proof (moves_all_ok _ _ _ Hok Hm) as Hok1.
    pose proof (perform_all_moves _ _ _ _ Hok1 Hfit Hr) as Hm2.
    destruct (all_moves_frame _ _ _ Hm) as (E1 & _), (all_moves_frame _ _ _ Hm2) as (_ & _ & E2 & _).
    eapply replays_trans; [apply (call_replays c s s1); try done; lia|].
    apply IH; try done. unfold topology_fits. by rewrite E1.
Qed.

(** ** The theorem *)

Lemma merge_sort_sorted (l : list Z) : Sorted Z.le l → merge_sort Z.le l = l.
Proof.
  intros Hs. apply (Sorted_unique Z.le); [apply (Sorted_merge_sort _)|done|].
  apply merge_sort_Permutation.
Qed.

(** The header of the trace rebuilds the simulator the run started from. *)
Lemma construct_sorted topology seed s :
  construct factory topology seed = Ret s → construct factory (sim_topology s) seed = Ret s.
Proof.
  intros Hc. destruct (construct_fresh _ _ _ _ Hc) as [[Hok Et _ _ _ _] Hne].
  rewrite <-Hc. unfold construct. rewrite (bool_decide_false (sim_topology s = [])) by done.
  rewrite (merge_sort_sorted (sim_topology s)) by apply Hok.
  assert (topology ≠ []) as Hne'.
  { intros ->. unfold construct in Hc. done. }
  rewrite (bool_decide_false (topology = [])) by done. by rewrite <-Et.
Qed.

(** C19: A trace determines its run.  For every simulator constructed from a
    topology and a seed and then driven by any sequence of public calls that
    return (steps chosen at random, runs, chosen deliveries, delays, partitions,
    drops, duplicates, crashes and restarts), with words of 64 bits for arguments
    and fewer than 2^64 events, [replay] of its trace returns a simulator in the
    identical state: clock, random state, nodes with their adapters and durable
    records, queue, settings and history. *)
Theorem replay_reproduces_run (topology : list Z) (seed : Z) (s0 s : Simulator A)
    (calls : list call) :
  Forall fits_word topology → fits_word seed → Forall call_fits calls →
  construct factory topology seed = Ret s0 → perform_all factory calls s0 = (Ret tt, s) →
  sim_next_event_id s ≤ u64_max + 1 →
  replay factory (trace s) = Ret s.
Proof.
  intros Htop Hseed Hfit Hc Hp Hnext. pose proof (construct_fresh _ _ _ _ Hc) as [Hfr _].
  assert (topology_fits s0) as Ht.
  { unfold topology_fits. rewrite (fr_topology _ _ _ _ Hfr). by rewrite merge_sort_Permutation. }
  destruct (perform_all_replays calls s0 s (fr_ok _ _ _ _ Hfr) Ht Hfit Hnext Hp)
    as (lines & Hh & Hl & Hr).
  assert (Forall line_ok (sim_history s)) as Hok.
  { rewrite Hh, (fr_history _ _ _ _ Hfr). constructor; [apply header_ok|done]. }
  unfold replay, trace. rewrite get_lines_history by done.
  rewrite Hh, (fr_history _ _ _ _ Hfr). cbn [app]. rewrite header_fields.
  pose proof (parse_numbers (sim_topology s0) Ht) as Hnums.
  set (nums := decimal <$> sim_topology s0) in *. unfold word_at. simpl.
  rewrite drop_0, Hnums. simpl. rewrite parse_number_decimal by done. simpl.
  rewrite (construct_sorted _ _ _ Hc). simpl. by rewrite Hr.
Qed.

End replay.

Lemma replay_reproduces_run_witness : replay echo_factory (trace echo_end) = Ret echo_end.
Proof.
  apply (replay_reproduces_run echo_factory [3; 1; 2] 42 echo_start echo_end echo_calls);
    [repeat constructor; done|done|apply echo_calls_fit|apply echo_started|apply echo_performed|].
  vm_compute. done.
Defined.
