(* ===== verification/SimNode.v ===== *)
(** * Raft nodes in the simulator

    [class SimulationNode] of [raft_election.cpp]: the adapter through which the
    simulator drives a [Core].  It decodes messages, matches timers and disk
    completions to what the core waits for, holds events back while the core
    waits for its storage, encodes the core's effects as actions, and plays the
    scripted client of the configuration.  The observers of the configuration are
    callbacks without a result and are left out. *)

From S2P Require Import Prelude OrdMap Bytes StoreTypes RaftTypes Codec RaftMessages Figure2.
From S2P Require Import RaftCore Simulator.
Import election.
#[local] Open Scope Z_scope.

Module SimulationNode.

Record SimulationConfig := mkSimulationConfig {
  sc_timeouts : TimeoutRange;
  sc_seed : Z;
  sc_mix_node_id_into_seed : bool;
  sc_heartbeat_interval : Z;
  sc_commands_on_leadership : list CommandEnvelope;
  sc_reads_on_leadership : list RequestId;
  sc_snapshots_on_apply : list CreateRaftSnapshot;
  sc_max_pending_reads : Z;
  sc_max_read_history : Z }.

Record Node := mkSimNode {
  nd_expected : Z;
  nd_config : SimulationConfig;
  nd_core : option Core;
  nd_queued : list NodeEvent;
  nd_next_leader_command : nat;
  nd_next_read_request : nat;
  nd_next_snapshot : nat }.

Definition set_core (core : Core) (n : Node) : Node :=
  mkSimNode (nd_expected n) (nd_config n) (Some core) (nd_queued n) (nd_next_leader_command n)
    (nd_next_read_request n) (nd_next_snapshot n).
Definition set_queued (queued : list NodeEvent) (n : Node) : Node :=
  mkSimNode (nd_expected n) (nd_config n) (nd_core n) queued (nd_next_leader_command n)
    (nd_next_read_request n) (nd_next_snapshot n).
Definition next_command (n : Node) : Node :=
  mkSimNode (nd_expected n) (nd_config n) (nd_core n) (nd_queued n) (S (nd_next_leader_command n))
    (nd_next_read_request n) (nd_next_snapshot n).
Definition next_read (n : Node) : Node :=
  mkSimNode (nd_expected n) (nd_config n) (nd_core n) (nd_queued n) (nd_next_leader_command n)
    (S (nd_next_read_request n)) (nd_next_snapshot n).
Definition next_snapshot (n : Node) : Node :=
  mkSimNode (nd_expected n) (nd_config n) (nd_core n) (nd_queued n) (nd_next_leader_command n)
    (nd_next_read_request n) (S (nd_next_snapshot n)).

Abbreviation node_method A := (M Node A).

(** [core_->m()] *)
Definition on_core {A} (m : method A) : node_method A :=
  n ← get_state;
  core ← deref (nd_core n);
  let '(result, core') := m core in
  _ ← put_state (set_core core' n);
  lift result.

Definition read_core : node_method Core := n ← get_state; deref (nd_core n).

(** ** Effects as actions *)

Definition action_of (effect : Effect) : option NodeAction :=
  match effect with
  | PersistHardState q =>
      Some (PersistAction (phs_request_id q) (encode_hard_state (phs_state q)))
  | PersistLog q => Some (PersistAction (pl_request_id q) (encode_log (pl_log q)))
  | PersistRaftSnapshot id sn => Some (PersistAction id (encode_snapshot_state sn))
  | ApplyLogEntry q =>
      Some (PersistAction (ap_request_id q) (encode_applied (en_index (ap_entry q))))
  | SendRequestVote to q => Some (SendAction to (encode_request_vote q))
  | SendRequestVoteResponse to q => Some (SendAction to (encode_request_vote_response q))
  | SendAppendEntries to q => Some (SendAction to (encode_append_entries q))
  | SendAppendEntriesResponse to q => Some (SendAction to (encode_append_entries_response q))
  | SendInstallSnapshot to q => Some (SendAction to (encode_install_snapshot q))
  | SendInstallSnapshotResponse to q => Some (SendAction to (encode_install_snapshot_response q))
  | ResetElectionDeadline timer delay | ResetHeartbeatDeadline timer delay =>
      Some (SetTimerAction timer delay)
  | CancelElectionDeadline timer | CancelHeartbeatDeadline timer =>
      Some (CancelTimerAction timer)
  | _ => None
  end.

Definition restore_of (effect : Effect) : option (Z * Z) :=
  match effect with
  | RestoreStateMachineSnapshot id sn => Some (id, sm_last_included_index (sn_metadata sn))
  | _ => None
  end.

(** [translate]: a requested restore is completed at once, which calls [step] and
    [translate] again.  The completion of a restore requests no other, so two
    levels are enough. *)
Fixpoint translate_levels (levels : nat) (r : StepResult) : node_method (list NodeAction) :=
  let actions := omap action_of (sr_effects r) in
  let restores := omap restore_of (sr_effects r) in
  match levels with
  | O => match restores with
         | [] => mret actions
         | _ => lift (Throw (logic_error "restores are nested too deeply"))
         end
  | S levels' =>
      mfold (λ actions '(id, index),
        result ← on_core (step (RaftSnapshotRestored id index));
        continued ← translate_levels levels' result;
        mret (actions ++ continued)) actions restores
  end.
Definition translate : StepResult → node_method (list NodeAction) := translate_levels 1.

Definition step_core (input : Input) : node_method (list NodeAction) :=
  result ← on_core (step input); translate result.

(** ** Events *)

Definition input_of_message (from : Z) (m : DecodedMessage) : Input :=
  match m with
  | msg_request_vote q => ReceiveRequestVote from q
  | msg_request_vote_response q => ReceiveRequestVoteResponse from q
  | msg_append_entries q => ReceiveAppendEntries from q
  | msg_append_entries_response q => ReceiveAppendEntriesResponse from q
  | msg_install_snapshot q => ReceiveInstallSnapshot from q
  | msg_install_snapshot_response q => ReceiveInstallSnapshotResponse from q
  end.

(** What a disk completion means to the core: the pending log, snapshot, hard
    state or application it answers, looked for in this order. *)
Definition input_of_completion (c : Core) (request_id : Z) : option Input :=
  let log := match lw_pending_log (co_log_work c) with
             | Some p => if pl_request_id (lp_request p) =? request_id
                         then Some (RaftLogPersisted (mkPersistLog request_id (pl_log (lp_request p))))
                         else None
             | None => None
             end in
  let snapshot := match sw_pending_snapshot (co_snapshots c) with
                  | Some p => if sp_request_id p =? request_id
                              then Some (RaftSnapshotPersisted request_id (sp_snapshot p)) else None
                  | None => None
                  end in
  let hard_state := match st_pending_hard_state (co_state c) with
                    | Some p => if phs_request_id (pd_request p) =? request_id
                                then Some (HardStatePersisted
                                  (mkHardStatePersisted request_id (phs_state (pd_request p))))
                                else None
                    | None => None
                    end in
  let application := match lw_pending_application (co_log_work c) with
                     | Some p => if ap_request_id (pa_request p) =? request_id
                                 then Some (LogEntryApplied request_id (en_index (ap_entry (pa_request p))))
                                 else None
                     | None => None
                     end in
  match log with
  | Some i => Some i
  | None => match snapshot with
            | Some i => Some i
            | None => match hard_state with Some i => Some i | None => application end
            end
  end.

Definition handle_running (event : NodeEvent) : node_method (list NodeAction) :=
  match event with
  | MessageEvent from bytes =>
      decoded ← lift (decode_message bytes);
      step_core (input_of_message from decoded)
  | TimerEvent timer_id =>
      c ← read_core;
      if bool_decide (vw_heartbeat_timer (snapshot c) = Some timer_id)
      then step_core (HeartbeatDeadline timer_id)
      else step_core (ElectionDeadline timer_id)
  | PersistedEvent request_id =>
      c ← read_core;
      match input_of_completion c request_id with
      | Some input => step_core input
      | None => lift (Throw (invalid_argument "unexpected simulated persistence completion"))
      end
  | StartEvent _ _ _ => lift (Throw (invalid_argument "duplicate Raft election start event"))
  end.

(** ** Start *)

Definition validate_recovered_transition (previous next : RaftHardState) : outcome unit :=
  throw_when ((hs_current_term next <? hs_current_term previous)
              || ((hs_current_term next =? 0) && bool_decide (is_Some (hs_voted_for next))))
    (invalid_argument "invalid simulated Raft hard-state term");;
  throw_when ((hs_current_term next =? hs_current_term previous)
              && bool_decide (is_Some (hs_voted_for previous))
              && negb (bool_decide (hs_voted_for next = hs_voted_for previous)))
    (invalid_argument "simulated Raft vote changed in one term").

(** One durable record, by its first byte. *)
Definition recover_record (rc : Recovered) (record : DurableRecord) : outcome Recovered :=
  match dr_bytes record with
  | [] => Throw (invalid_argument "empty simulated Raft record")
  | tag :: _ =>
      let tag := byte.unsigned tag in
      if tag =? hard_state_tag then
        decoded ← decode_hard_state (dr_bytes record);
        validate_recovered_transition (rc_hard_state rc) decoded;;
        mret (mkRecovered decoded (rc_log rc) (rc_applied rc) (rc_snapshot rc))
      else if tag =? log_state_tag then
        log ← decode_log (dr_bytes record);
        mret (mkRecovered (rc_hard_state rc) log (rc_applied rc) (rc_snapshot rc))
      else if tag =? applied_state_tag then
        applied ← decode_applied (dr_bytes record);
        throw_when (applied <? rc_applied rc)
          (invalid_argument "simulated applied index regressed");;
        mret (mkRecovered (rc_hard_state rc) (rc_log rc) applied (rc_snapshot rc))
      else if tag =? snapshot_state_tag then
        decoded ← decode_snapshot_state (dr_bytes record);
        throw_when (match rc_snapshot rc with
                    | Some sn => sm_last_included_index (sn_metadata decoded)
                                 <=? sm_last_included_index (sn_metadata sn)
                    | None => false
                    end) (invalid_argument "simulated Raft snapshot regressed");;
        mret (mkRecovered (rc_hard_state rc) (rc_log rc) (rc_applied rc) (Some decoded))
      else Throw (invalid_argument "unknown simulated Raft record")
  end.

Definition nothing_recovered : Recovered := mkRecovered (mkHardState 0 None) [] 0 None.

Definition recover_records (records : list DurableRecord) : outcome Recovered :=
  foldM recover_record nothing_recovered records.

(** The constructor's default snapshot limits. *)
Definition core_config (sc : SimulationConfig) : Config :=
  mkConfig (sc_timeouts sc) (sc_heartbeat_interval sc) (sc_max_pending_reads sc)
    (sc_max_read_history sc) (64 * 1024 * 1024) 1024.

Definition node_seed (sc : SimulationConfig) (self : Z) : Z :=
  if sc_mix_node_id_into_seed sc
  then Z.lxor (sc_seed sc) (u64 (self * 0x9e3779b97f4a7c15)) else sc_seed sc.

Definition handle_start (self : Z) (peers : list Z) (records : list DurableRecord)
    : node_method (list NodeAction) :=
  n ← get_state;
  _ ← lift (throw_when (bool_decide (is_Some (nd_core n)) || negb (self =? nd_expected n))
    (invalid_argument "invalid Raft election start event"));
  rc ← lift (recover_records records);
  core ← lift (construct self peers (core_config (nd_config n)) rc (node_seed (nd_config n) self));
  _ ← put_state (set_core core n);
  result ← on_core start;
  translate result.

(** ** Step *)

(** The loop over the events held back; [count] is the number of them. *)
Fixpoint drain (count : nat) (actions : list NodeAction) : node_method (list NodeAction) :=
  n ← get_state;
  c ← read_core;
  match nd_queued n, count with
  | next :: rest, S count' =>
      if vw_waiting_for_persistence (snapshot c) then mret actions
      else
        _ ← modify (set_queued rest);
        more ← handle_running next;
        drain count' (actions ++ more)
  | _, _ => mret actions
  end.

(** The next scripted command, when this node leads. *)
Definition propose : node_method (list NodeAction) :=
  n ← get_state;
  c ← read_core;
  match sc_commands_on_leadership (nd_config n) !! nd_next_leader_command n with
  | Some command =>
      if bool_decide (vw_role (snapshot c) = role_leader)
         && negb (vw_waiting_for_persistence (snapshot c))
      then _ ← modify next_command; step_core (ReceiveClientCommand command)
      else mret []
  | None => mret []
  end.

(** The next scripted snapshot, when its entry has just been applied. *)
Definition take_snapshot : node_method (list NodeAction) :=
  n ← get_state;
  c ← read_core;
  let view := snapshot c in
  match sc_snapshots_on_apply (nd_config n) !! nd_next_snapshot n with
  | Some request =>
      if negb (vw_waiting_for_persistence view)
         && (cs_applied_index request =? vw_last_applied view)
         && match vw_snapshot_metadata view with
            | Some m => sm_last_included_index m <? vw_last_applied view
            | None => true
            end
      then _ ← modify next_snapshot; step_core (CreateSnapshot request)
      else mret []
  | None => mret []
  end.

(** Whether the last committed entry is of the current term. *)
Definition current_term_committed (view : Snapshot) : outcome bool :=
  let base := match vw_snapshot_metadata view with
              | Some m => sm_last_included_index m
              | None => 0
              end in
  let commit := vw_commit_index view in
  if commit =? 0 then mret false
  else
    term ← (if commit =? base
            then match vw_snapshot_metadata view with
                 | Some m => mret (sm_last_included_term m)
                 | None => Throw (logic_error "optional is empty")
                 end
            else entry ← log_at (vw_log view) (u64 (commit - base - 1)); mret (en_term entry));
    mret (term =? hs_current_term (vw_hard_state view)).

(** The next scripted read, when this node leads and has committed in its term. *)
Definition ask_read : node_method (list NodeAction) :=
  n ← get_state;
  c ← read_core;
  let view := snapshot c in
  committed ← lift (current_term_committed view);
  match sc_reads_on_leadership (nd_config n) !! nd_next_read_request n with
  | Some request =>
      if bool_decide (vw_role view = role_leader) && negb (vw_waiting_for_persistence view)
         && committed
      then _ ← modify next_read; step_core (ReadIndexRequest request)
      else mret []
  | None => mret []
  end.

Definition node_step (event : NodeEvent) : node_method (list NodeAction) :=
  match event with
  | StartEvent self peers records => handle_start self peers records
  | _ =>
      n ← get_state;
      match nd_core n with
      | None => lift (Throw (logic_error "Raft election node has not started"))
      | Some c =>
          if vw_waiting_for_persistence (snapshot c)
             && match event with PersistedEvent _ => false | _ => true end
          then _ ← modify (set_queued (nd_queued n ++ [event])); mret []
          else
            handled ← handle_running event;
            n1 ← get_state;
            drained ← drain (length (nd_queued n1)) handled;
            proposal ← propose;
            created ← take_snapshot;
            read ← ask_read;
            mret (drained ++ proposal ++ created ++ read)
      end
  end.

Definition new_node (sc : SimulationConfig) (expected : Z) : Node :=
  mkSimNode expected sc None [] 0 0 0.

Definition make_simulation_factory (sc : SimulationConfig) : NodeFactory Node :=
  λ node, Some (new_node sc node).

End SimulationNode.

#[export] Instance simulation_node_adapter : NodeAdapter SimulationNode.Node :=
  SimulationNode.node_step.
