(* ===== verification/SimNodeProps.v ===== *)
(** * Properties of the simulated node

    The recursion of [translate] is exhausted by the levels it is given; an
    execution of three nodes; and the run of a fault-free cluster that a scripted
    snapshot makes fail. *)

From S2P Require Import Prelude OrdMap Bytes StoreTypes RaftTypes Codec RaftMessages Figure2 Text.
From S2P Require Import RaftCore RaftCoreFrames Simulator SimulatorRun SimNode.
Import election SimulationNode.
#[local] Open Scope Z_scope.

(** ** Restores are not nested *)

Definition no_restore (e : Effect) : Prop := restore_of e = None.

Lemma omap_none {A B} (f : A → option B) l : Forall (λ x, f x = None) l → omap f l = [].
Proof. induction 1 as [|x l Hx _ IH]; simpl; [done|]. by rewrite Hx. Qed.

Lemma restored_no_restore id index c :
  mwp (step (RaftSnapshotRestored id index)) c
    (λ r _, Forall no_restore (sr_effects r)) (λ _ _, True).
Proof.
  unfold step. do 4 mstep. apply owp_throw_when; [done|]. intros _. mstep.
  unfold complete_snapshot_restore. do 3 mstep; [|done]. mstep; [|done].
  mstep. apply mwp_modify. mstep. eapply mwp_mono; [apply mwp_true| |done]. intros [] c1 _. mstep.
  unfold finish_completion. mstep.
  eapply mwp_mono; [apply complete_ready_reads_spec| |done]. intros r c2 (d & _ & _ & ->).
  eapply mwp_mono; [apply schedule_application_spec| |done].
  assert (Forall no_restore (response_of <$> ready_reads c1)) as Hno.
  { apply Forall_fmap, Forall_true. done. }
  intros r' c3 [(-> & _)|(entry & _ & _ & _ & _ & -> & _)]; simpl; repeat constructor; try done.
  apply Forall_app. split; [exact Hno|]. by repeat constructor.
Qed.

(** The two levels [translate] uses are enough: more of them give the same
    result, so the recursion of the source ends there. *)
Lemma translate_levels_enough levels r n :
  translate_levels (S levels) r n = translate r n.
Proof.
  unfold translate. simpl. generalize (omap action_of (sr_effects r)).
  generalize (omap restore_of (sr_effects r)). intros restores. revert n.
  induction restores as [|[id index] restores IH]; intros n actions; [done|]. simpl.
  unfold mbind, M_bind. unfold on_core at 1 3. unfold mbind, M_bind, get_state.
  destruct (nd_core n) as [c|]; simpl; [|done].
  pose proof (restored_no_restore id index c) as Hno. unfold mwp in Hno.
  destruct (step (RaftSnapshotRestored id index) c) as [[r'|e] c'] eqn:Hs; simpl; [|done].
  assert (omap restore_of (sr_effects r') = []) as Hnil by by apply omap_none.
  destruct levels as [|levels]; simpl; rewrite Hnil; simpl; [done|]. apply IH.
Qed.

(** ** A run that fails *)

(** Three commands of the scripted client, and a snapshot when the first has been
    applied. *)
Definition snapshot_script : SimulationConfig :=
  mkSimulationConfig (mkTimeouts 10 20) 7 true 2
    [mkCommand (mkRequestId 1 1) 0 []; mkCommand (mkRequestId 1 2) 0 [];
     mkCommand (mkRequestId 1 3) 0 []] []
    [mkCreate 1 1 0 (mkMembership [1; 2; 3] []) []] 128 4096.

(** The message of the exception a run ends with. *)
Definition failure (sc : SimulationConfig) (topology : list Z) (seed max_events : Z) : option string :=
  match Simulator.construct (make_simulation_factory sc) topology seed with
  | Ret s => match (Simulator.run max_events s).1 with
             | Throw e => Some (what e)
             | Ret _ => None
             end
  | Throw e => Some (what e)
  end.

(** A run without any fault fails.  Three nodes with three scripted commands and
    a scripted snapshot after the first: a node starts to write the snapshot while
    the application of the next entry is outstanding, and the completion of that
    application, which the adapter passes on although the core waits for the
    snapshot, makes the core throw; the simulator reports it.  The same cluster
    without the snapshot only reaches the limit of events. *)
Theorem scripted_snapshot_fails_run :
  (∃ message, failure snapshot_script [1; 2; 3] 2 200 = Some message ∧
     String.prefix ("node adapter threw: Raft core input is blocked on "
       +:+ "snapshot persistence/restore") message = true) ∧
  (∃ message, failure (mkSimulationConfig (sc_timeouts snapshot_script) (sc_seed snapshot_script)
       (sc_mix_node_id_into_seed snapshot_script) (sc_heartbeat_interval snapshot_script)
       (sc_commands_on_leadership snapshot_script) [] [] 128 4096) [1; 2; 3] 2 200 = Some message ∧
     String.prefix "simulation event limit exceeded" message = true).
Proof. split; eexists; (split; [vm_compute; reflexivity|vm_compute; reflexivity]). Qed.
