(* ===== verification/KuraPointer.v ===== *)
(** * Snapshot pointers and the key layout of the Kura client

    The first part of [kura_client.cpp]: identifiers, the binary form of a
    [SnapshotPointer] (include/kura/metadata/kura/snapshot_pointer.hpp), and the
    keys under which the client stores the current pointer, the snapshots, the
    writer and the readers of a table.  The codec is exact, and keys of distinct
    tables or purposes are distinct. *)

From Stdlib Require Import Ascii.
From S2P Require Import Prelude OrdMap Bytes StoreTypes Text Codec.
#[local] Open Scope Z_scope.

(** ** Definitions *)

Record SnapshotPointer := mkPointer {
  sp_snapshot_id : string;
  sp_manifest_uri : string;
  sp_schema_id : string;
  sp_integrity_hash : list byte }.

#[export] Instance SnapshotPointer_eq_dec : EqDecision SnapshotPointer.
Proof. solve_decision. Defined.

Definition pointer_magic : string := "KSP1".

(** The characters [A-Za-z0-9._-]. *)
Definition identifier_char (c : ascii) : bool :=
  let code := char_code c in
  ((97 <=? code) && (code <=? 122)) || ((65 <=? code) && (code <=? 90))
  || ((48 <=? code) && (code <=? 57)) || (code =? 45) || (code =? 95) || (code =? 46).

Definition validate_identifier (value kind : string) : outcome unit :=
  throw_when (bool_decide (value = "") || negb (all_chars identifier_char value))
    (invalid_argument (kind +:+ " must use [A-Za-z0-9._-]")).

Definition append_u32 (output : list byte) (value : Z) : outcome (list byte) :=
  _ ← throw_when (u32_max <? value) (length_error "snapshot pointer field is too large");
  mret (output ++ append_le 4 value).

Definition append_field (output value : list byte) : outcome (list byte) :=
  output ← append_u32 output (bytes_size value);
  mret (output ++ value).

Definition encode_pointer (pointer : SnapshotPointer) : outcome ByteSequence :=
  _ ← validate_identifier (sp_snapshot_id pointer) "snapshot ID";
  _ ← validate_identifier (sp_schema_id pointer) "schema ID";
  _ ← throw_when (bool_decide (sp_manifest_uri pointer = ""))
    (invalid_argument "manifest URI must not be empty");
  _ ← throw_when (bool_decide (sp_integrity_hash pointer = []))
    (invalid_argument "integrity hash must not be empty");
  encoded ← append_field (from_string pointer_magic) (from_string (sp_snapshot_id pointer));
  encoded ← append_field encoded (from_string (sp_manifest_uri pointer));
  encoded ← append_field encoded (from_string (sp_schema_id pointer));
  append_field encoded (sp_integrity_hash pointer).

(** What is left of [input] from [offset] on. *)
Definition left_from (input : list byte) (offset : nat) : Z :=
  bytes_size input - Z.min (bytes_size input) (Z.of_nat offset).

(** The readers return the advanced [offset]. *)
Definition read_u32 (input : list byte) (offset : nat) : outcome (Z * nat) :=
  _ ← throw_when (left_from input offset <? 4)
    (client_error sc_corruption "truncated snapshot pointer length");
  mret (le_combine (take 4 (drop offset input)), (offset + 4)%nat).

Definition read_field (input : list byte) (offset : nat) : outcome (list byte * nat) :=
  header ← read_u32 input offset;
  let '(size, offset) := header in
  _ ← throw_when (left_from input offset <? size)
    (client_error sc_corruption "truncated snapshot pointer field");
  mret (take (Z.to_nat size) (drop offset input), (offset + Z.to_nat size)%nat).

Definition decode_pointer (encoded : ByteSequence) : outcome SnapshotPointer :=
  let magic := from_string pointer_magic in
  _ ← throw_when ((bytes_size encoded <? bytes_size magic)
                  || negb (bool_decide (take (length magic) encoded = magic)))
    (client_error sc_corruption "snapshot pointer has an invalid format marker");
  snapshot_id ← read_field encoded (length magic);
  manifest_uri ← read_field encoded (snapshot_id.2);
  schema_id ← read_field encoded (manifest_uri.2);
  hash ← read_field encoded (schema_id.2);
  _ ← throw_when (negb (hash.2 =? length encoded)%nat)
    (client_error sc_corruption "snapshot pointer has trailing bytes");
  mret (mkPointer (to_string snapshot_id.1) (to_string manifest_uri.1) (to_string schema_id.1)
    hash.1).

(** [KuraClient::table_prefix] after its check of the table. *)
Definition prefix_of_table (catalog table : string) : string :=
  "/kura/v1/catalogs/" +:+ catalog +:+ "/tables/" +:+ table +:+ "/".

(** ** The codec is exact *)

Definition field_bytes (value : list byte) : list byte := append_le 4 (bytes_size value) ++ value.

Definition pointer_bytes (p : SnapshotPointer) : ByteSequence :=
  from_string pointer_magic ++ field_bytes (from_string (sp_snapshot_id p))
  ++ field_bytes (from_string (sp_manifest_uri p)) ++ field_bytes (from_string (sp_schema_id p))
  ++ field_bytes (sp_integrity_hash p).

Definition field_fits (value : list byte) : Prop := bytes_size value ≤ u32_max.

Record pointer_fits (p : SnapshotPointer) : Prop := {
  pf_snapshot : field_fits (from_string (sp_snapshot_id p));
  pf_manifest : field_fits (from_string (sp_manifest_uri p));
  pf_schema : field_fits (from_string (sp_schema_id p));
  pf_hash : field_fits (sp_integrity_hash p) }.

Definition identifier (value : string) : Prop :=
  value ≠ "" ∧ all_chars identifier_char value = true.

Record pointer_valid (p : SnapshotPointer) : Prop := {
  pv_snapshot : identifier (sp_snapshot_id p);
  pv_schema : identifier (sp_schema_id p);
  pv_manifest : sp_manifest_uri p ≠ "";
  pv_hash : sp_integrity_hash p ≠ [];
  pv_fits : pointer_fits p }.

Lemma from_to_string b : from_string (to_string b) = b.
Proof. apply String.list_byte_of_string_of_list_byte. Qed.

Lemma to_from_string s : to_string (from_string s) = s.
Proof. apply String.string_of_list_byte_of_string. Qed.

Lemma from_string_inj s1 s2 : from_string s1 = from_string s2 → s1 = s2.
Proof. intros Heq. by rewrite <-(to_from_string s1), Heq, to_from_string. Qed.

Lemma from_string_app s1 s2 : from_string (s1 +:+ s2) = from_string s1 ++ from_string s2.
Proof.
  unfold from_string, String.list_byte_of_string.
  induction s1 as [|c s1 IH]; simpl; [done|]. by rewrite IH.
Qed.

Lemma validate_identifier_Ret value kind u :
  validate_identifier value kind = Ret u ↔ identifier value.
Proof.
  unfold validate_identifier, identifier. rewrite throw_when_Ret, orb_false_iff, negb_false_iff.
  by rewrite bool_decide_eq_false.
Qed.

Lemma append_field_Ret output value b :
  append_field output value = Ret b ↔ field_fits value ∧ b = output ++ field_bytes value.
Proof.
  unfold append_field, append_u32, field_bytes, field_fits. rewrite bind_Ret. split.
  - intros (o & ([] & Hs & [= <-])%bind_Ret & [= <-]). apply throw_when_Ret in Hs.
    split; [lia|]. by rewrite app_assoc.
  - intros [Hf ->]. exists (output ++ append_le 4 (bytes_size value)). split; [|by rewrite <-app_assoc].
    by rewrite (proj2 (Z.ltb_ge _ _) Hf).
Qed.

Lemma encode_pointer_Ret p b : encode_pointer p = Ret b ↔ pointer_valid p ∧ b = pointer_bytes p.
Proof.
  unfold encode_pointer, pointer_bytes. split.
  - intros ([] & H1%validate_identifier_Ret & Hb)%bind_Ret.
    apply bind_Ret in Hb as ([] & H2%validate_identifier_Ret & Hb).
    apply bind_Ret in Hb as ([] & H3%throw_when_Ret & Hb).
    apply bind_Ret in Hb as ([] & H4%throw_when_Ret & Hb).
    apply bind_Ret in Hb as (b1 & [F1 ->]%append_field_Ret & Hb).
    apply bind_Ret in Hb as (b2 & [F2 ->]%append_field_Ret & Hb).
    apply bind_Ret in Hb as (b3 & [F3 ->]%append_field_Ret & [F4 ->]%append_field_Ret).
    apply bool_decide_eq_false in H3, H4. split; [by repeat (split; try done)|].
    by rewrite <-!app_assoc.
  - intros [[H1 H2 H3 H4 [F1 F2 F3 F4]] ->].
    apply bind_Ret. exists tt. split; [by apply validate_identifier_Ret|].
    apply bind_Ret. exists tt. split; [by apply validate_identifier_Ret|].
    rewrite !bool_decide_false by done. simpl.
    apply bind_Ret. eexists. split; [by apply append_field_Ret|].
    apply bind_Ret. eexists. split; [by apply append_field_Ret|].
    apply bind_Ret. eexists. split; [by apply append_field_Ret|].
    apply append_field_Ret. split; [done|]. by rewrite <-!app_assoc.
Qed.

Lemma left_from_app pre rest : left_from (pre ++ rest) (length pre) = bytes_size rest.
Proof. unfold left_from. rewrite bytes_size_app. unfold bytes_size. lia. Qed.

Lemma read_u32_Ret pre rest v off :
  read_u32 (pre ++ rest) (length pre) = Ret (v, off) ↔
  0 ≤ v ≤ u32_max ∧ ∃ post, rest = append_le 4 v ++ post ∧ off = length (pre ++ append_le 4 v).
Proof.
  unfold read_u32. rewrite left_from_app, drop_app_length, bind_Ret. split.
  - intros ([] & Hlen%throw_when_Ret & [= <- <-]). unfold bytes_size in Hlen.
    assert (length (take 4 rest) = 4%nat) as Ht by (rewrite length_take; lia).
    pose proof (le_combine_bound (take 4 rest)) as Hb. rewrite Ht in Hb.
    change (2 ^ (8 * Z.of_nat 4)) with 4294967296 in Hb. split; [lia|].
    assert (append_le 4 (le_combine (take 4 rest)) = take 4 rest) as ->.
    { rewrite append_le_split. rewrite <-Ht at 1. apply split_le_combine. }
    exists (drop 4 rest). rewrite take_drop. split; [done|]. rewrite length_app. lia.
  - intros (Hv & post & -> & ->). exists tt. split.
    + apply throw_when_Ret, Z.ltb_ge. rewrite bytes_size_app. unfold bytes_size.
      rewrite length_append_le. lia.
    + rewrite take_app_length' by by rewrite length_append_le.
      rewrite append_le_split, le_combine_split. change (Z.of_nat 4 * 8) with 32.
      rewrite Z.mod_small by lia. by rewrite length_app, length_le_split.
Qed.

Lemma read_field_Ret pre rest f off :
  read_field (pre ++ rest) (length pre) = Ret (f, off) ↔
  field_fits f ∧ ∃ post, rest = field_bytes f ++ post ∧ off = length (pre ++ field_bytes f).
Proof.
  unfold read_field, field_fits, field_bytes. rewrite bind_Ret. split.
  - intros ([v o] & (Hv & post & -> & ->)%read_u32_Ret & Hb).
    rewrite app_assoc in Hb. apply bind_Ret in Hb as ([] & Hle%throw_when_Ret & [= Hf Ho]).
    rewrite left_from_app in Hle. rewrite drop_app_length in Hf. unfold bytes_size in *.
    assert (length f = Z.to_nat v) as Hl by (rewrite <-Hf, length_take; lia).
    assert (Z.of_nat (length f) = v) as Hlv by lia. rewrite Hlv.
    split; [lia|]. exists (drop (Z.to_nat v) post). rewrite <-Hf, <-Ho.
    split; [by rewrite <-app_assoc, take_drop|].
    rewrite !length_app, length_append_le, length_take in *. lia.
  - intros (Hfit & post & -> & ->). exists (bytes_size f, length (pre ++ append_le 4 (bytes_size f))).
    split; [apply read_u32_Ret; split; [unfold bytes_size in *; lia|]; exists (f ++ post);
      by rewrite <-app_assoc|].
    rewrite <-app_assoc, app_assoc. rewrite left_from_app, drop_app_length.
    assert ((bytes_size (f ++ post) <? bytes_size f) = false) as ->.
    { apply Z.ltb_ge. rewrite bytes_size_app. unfold bytes_size. lia. }
    cbn [throw_when mbind outcome_bind]. unfold bytes_size. rewrite Nat2Z.id, take_app_length.
    by rewrite app_assoc, (length_app _ f).
Qed.

Lemma decode_pointer_Ret b p : decode_pointer b = Ret p ↔ pointer_fits p ∧ b = pointer_bytes p.
Proof.
  unfold decode_pointer, pointer_bytes. set (magic := from_string pointer_magic). split.
  - intros ([] & Hm%throw_when_Ret & Hb)%bind_Ret.
    apply orb_false_iff in Hm as [_ Hm]. apply negb_false_iff, bool_decide_eq_true in Hm.
    rewrite <-(take_drop (length magic) b), Hm in Hb |- *. generalize dependent (drop (length magic) b).
    intros rest Hb. apply bind_Ret in Hb as ([f1 o1] & (F1 & r1 & -> & ->)%read_field_Ret & Hb).
    cbn [fst snd] in Hb. rewrite app_assoc in Hb.
    apply bind_Ret in Hb as ([f2 o2] & (F2 & r2 & -> & ->)%read_field_Ret & Hb).
    cbn [fst snd] in Hb. rewrite app_assoc in Hb.
    apply bind_Ret in Hb as ([f3 o3] & (F3 & r3 & -> & ->)%read_field_Ret & Hb).
    cbn [fst snd] in Hb. rewrite app_assoc in Hb.
    apply bind_Ret in Hb as ([f4 o4] & (F4 & r4 & -> & ->)%read_field_Ret & Hb).
    cbn [fst snd] in Hb. rewrite app_assoc in Hb.
    apply bind_Ret in Hb as ([] & Hend%throw_when_Ret & [= <-]).
    apply negb_false_iff, Nat.eqb_eq in Hend. rewrite (length_app _ r4) in Hend.
    destruct r4 as [|]; [|simpl in Hend; lia]. simpl. rewrite !from_to_string.
    split; [by split; simpl; rewrite ?from_to_string|]. by rewrite app_nil_r.
  - intros [[F1 F2 F3 F4] ->].
    apply bind_Ret. exists tt. split.
    { apply throw_when_Ret, orb_false_iff. split.
      - apply Z.ltb_ge. rewrite bytes_size_app. unfold bytes_size. lia.
      - by rewrite take_app_length, bool_decide_true. }
    apply bind_Ret. eexists. split; [apply read_field_Ret; eauto|]. cbn [fst snd].
    rewrite app_assoc. apply bind_Ret. eexists. split; [apply read_field_Ret; eauto|]. cbn [fst snd].
    rewrite app_assoc. apply bind_Ret. eexists. split; [apply read_field_Ret; eauto|]. cbn [fst snd].
    rewrite app_assoc. apply bind_Ret.
    eexists. split; [apply read_field_Ret; split; [done|exists []; by rewrite app_nil_r]|].
    cbn [fst snd]. apply bind_Ret. exists tt.
    split; [by apply throw_when_Ret; rewrite Nat.eqb_refl|]. rewrite !to_from_string. by destruct p.
Qed.

(** The binary form of a snapshot pointer is exact.  Encoding succeeds on
    precisely the pointers with identifiers for snapshot and schema, a manifest, a
    hash and fields below 4 GiB; decoding accepts precisely the encodings of the
    pointers whose fields have such lengths and returns the encoded pointer. *)
Theorem pointer_codec_exact (p : SnapshotPointer) (b : ByteSequence) :
  (encode_pointer p = Ret b ↔ pointer_valid p ∧ b = pointer_bytes p) ∧
  (decode_pointer b = Ret p ↔ pointer_fits p ∧ b = pointer_bytes p).
Proof. split; [apply encode_pointer_Ret|apply decode_pointer_Ret]. Qed.

(** ** The keys of a table *)

(** What the client stores under a table. *)
Inductive item :=
| current_item
| writer_item
| snapshot_item (snapshot_id : string)
| reader_item (client_id sequence : Z).

Definition reader_name (client_id sequence : Z) : string :=
  decimal client_id +:+ "-" +:+ decimal sequence.

Definition item_name (i : item) : string :=
  match i with
  | current_item => "current"
  | writer_item => "writer"
  | snapshot_item id => "snapshots/" +:+ id
  | reader_item client_id sequence => "readers/" +:+ reader_name client_id sequence
  end.

Record table := mkTable { tb_catalog : string; tb_name : string }.

#[export] Instance table_eq_dec : EqDecision table.
Proof. solve_decision. Defined.

Definition table_ok (t : table) : Prop := identifier (tb_catalog t) ∧ identifier (tb_name t).

Definition table_prefix_of (t : table) : string := prefix_of_table (tb_catalog t) (tb_name t).

Definition table_key (t : table) (i : item) : ByteSequence :=
  from_string (table_prefix_of t +:+ item_name i).

Lemma identifier_no_slash s : all_chars identifier_char s = true → all_chars (not_char "/"%char) s = true.
Proof.
  apply all_chars_impl. intros c Hc. unfold not_char. apply negb_true_iff, bool_decide_eq_false.
  by intros ->.
Qed.

Lemma prefix_of_table_inj t1 t2 rest1 rest2 :
  table_ok t1 → table_ok t2 →
  table_prefix_of t1 +:+ rest1 = table_prefix_of t2 +:+ rest2 → t1 = t2 ∧ rest1 = rest2.
Proof.
  destruct t1 as [c1 n1], t2 as [c2 n2]. intros [[_ C1] [_ N1]] [[_ C2] [_ N2]].
  cbn [tb_catalog tb_name] in *.
  unfold table_prefix_of, prefix_of_table. cbn [tb_catalog tb_name].
  rewrite !string_app_assoc. intros Heq%string_app_inj.
  apply (split_unique (not_char "/"%char)) in Heq as [-> Heq];
    [|by apply identifier_no_slash..|done|done].
  apply string_app_inj in Heq.
  apply (split_unique (not_char "/"%char)) in Heq as [-> Heq];
    [|by apply identifier_no_slash..|done|done].
  split; [done|]. by injection Heq.
Qed.

Lemma prefix_of_table_eq catalog name :
  prefix_of_table catalog name = table_prefix_of (mkTable catalog name).
Proof. done. Qed.

Lemma table_prefix_of_slash t : ∃ rest, table_prefix_of t = String "/" rest.
Proof. by eexists. Qed.

#[global] Opaque table_prefix_of.
#[global] Arguments table_key : simpl never.

Lemma reader_name_inj c1 n1 c2 n2 :
  0 ≤ c1 → 0 ≤ c2 → reader_name c1 n1 = reader_name c2 n2 → c1 = c2 ∧ n1 = n2.
Proof.
  intros H1 H2 Heq. unfold reader_name in Heq.
  apply (split_unique (not_char "-"%char)) in Heq as [Hc Heq]; [..|done|done].
  - apply decimal_inj in Hc as ->. split; [done|]. apply decimal_inj. by injection Heq.
  - by apply decimal_nonneg.
  - by apply decimal_nonneg.
Qed.

Definition item_ok (i : item) : Prop :=
  match i with reader_item client_id _ => 0 ≤ client_id | _ => True end.

Lemma item_name_inj i1 i2 : item_ok i1 → item_ok i2 → item_name i1 = item_name i2 → i1 = i2.
Proof.
  destruct i1, i2; simpl; try done; intros H1 H2 Heq.
  - by injection Heq as ->.
  - injection Heq as Heq. by apply reader_name_inj in Heq as [-> ->].
Qed.

(** Distinct items of distinct tables have distinct keys. *)
Lemma table_key_inj t1 t2 i1 i2 :
  table_ok t1 → table_ok t2 → item_ok i1 → item_ok i2 →
  table_key t1 i1 = table_key t2 i2 → t1 = t2 ∧ i1 = i2.
Proof.
  intros Ht1 Ht2 Hi1 Hi2 Heq%from_string_inj.
  apply prefix_of_table_inj in Heq as [-> Heq]; [|done..]. split; [done|]. by apply item_name_inj.
Qed.

(** The range of readers of a table has exactly the keys that start with its
    prefix. *)
Lemma reader_range t i t' end_ :
  table_ok t → table_ok t' → item_ok i →
  prefix_range_end (from_string (table_prefix_of t +:+ "readers/")) = Some end_ →
  bytes_le (from_string (table_prefix_of t +:+ "readers/")) (table_key t' i) ∧
  key_lt (table_key t' i) end_ ↔
  t' = t ∧ ∃ client_id sequence, i = reader_item client_id sequence.
Proof.
  intros Ht Ht' Hi He. pose proof (prefix_range_end_correct
    (from_string (table_prefix_of t +:+ "readers/")) (table_key t' i)) as Hp.
  rewrite He in Hp. rewrite <-Hp. split.
  - intros [rest Heq]. assert (table_prefix_of t' +:+ item_name i
      = table_prefix_of t +:+ ("readers/" +:+ to_string rest)) as Hs.
    { apply from_string_inj. rewrite <-string_app_assoc.
      rewrite (from_string_app (table_prefix_of t +:+ _)), from_to_string. exact Heq. }
    apply prefix_of_table_inj in Hs as [-> Hs]; [|done..]. split; [done|].
    destruct i; simpl in Hs; try done. eauto.
  - intros (-> & client_id & sequence & ->). unfold table_key. cbn [item_name].
    rewrite <-string_app_assoc, (from_string_app (_ +:+ _) (reader_name _ _)). by eexists.
Qed.

(** The prefix of the readers has an end, above it. *)
Lemma reader_range_end t :
  ∃ end_, prefix_range_end (from_string (table_prefix_of t +:+ "readers/")) = Some end_ ∧
    key_lt (from_string (table_prefix_of t +:+ "readers/")) end_.
Proof.
  set (prefix := from_string _). pose proof (prefix_range_end_correct prefix prefix) as Hp.
  destruct (prefix_range_end prefix) as [end_|] eqn:He.
  - exists end_. split; [done|]. by apply Hp.
  - rewrite prefix_range_end_succ in He. apply prefix_succ_None in He.
    destruct (table_prefix_of_slash t) as [rest Hr]. unfold prefix in He. rewrite Hr in He.
    apply Forall_inv in He. done.
Qed.
