(* ===== verification/KuraClient.v ===== *)
(** * The Kura client

    [kura_client.cpp] and the headers under [kura/]: class [KuraClient] over the
    interface [KuraMetadataBackend], the in-process implementation of that
    interface on a store, and the lease sessions behind [WriterGuard] and
    [ReaderGuard].

    A backend call is atomic (the backend holds its mutex), the methods of the
    client are not: several calls of one method interleave with the calls of
    other threads.  A method is therefore a program that makes backend calls and
    goes on with their outcomes. *)

From S2P Require Import Prelude OrdMap Bytes StoreTypes Store Text KuraPointer.
#[local] Open Scope Z_scope.

(** ** The interface *)

(** The methods of [KuraMetadataBackend] with their arguments.  [b_sleep] is the
    wait of [await_snapshot_change]: one millisecond passes, and the answer says
    whether the deadline still lies ahead. *)
Inductive backend_call :=
| b_current_tick
| b_get (key : ByteSequence)
| b_range (start_ end_ : ByteSequence)
| b_transaction (request : TransactionRequest)
| b_grant_lease (ttl : Z)
| b_keep_alive (id token : Z)
| b_revoke_lease (id token : Z)
| b_create_watch (request : WatchRequest)
| b_poll_watch (id : Z)
| b_cancel_watch (id : Z)
| b_collect_snapshot_if_unreferenced (current_key snapshot_key readers_start readers_end : ByteSequence)
    (snapshot_id : string)
| b_sleep.

Definition reply (c : backend_call) : Type :=
  match c with
  | b_current_tick => Z
  | b_get _ => StoreRead
  | b_range _ _ => RangeRead
  | b_transaction _ => TransactionResult
  | b_grant_lease _ => LeaseGrantResult
  | b_keep_alive _ _ => LeaseLookupResult
  | b_revoke_lease _ _ => LeaseCleanupResult
  | b_create_watch _ => WatchResponse
  | b_poll_watch _ => option WatchResponse
  | b_cancel_watch _ => unit
  | b_collect_snapshot_if_unreferenced _ _ _ _ _ => bool
  | b_sleep => bool
  end.

(** Programs that call the backend. *)
Inductive prog (A : Type) :=
| done (a : A)
| ask (c : backend_call) (k : outcome (reply c) → prog A).
Arguments done {A} a.
Arguments ask {A} c k.

#[global] Instance prog_ret : MRet prog := λ A a, done a.
#[global] Instance prog_bind : MBind prog := λ A B f,
  fix bind (p : prog A) : prog B :=
    match p with
    | done a => f a
    | ask c k => ask c (λ o, bind (k o))
    end.

(** ** The in-process backend *)

(** [InProcessKuraMetadataBackend::Impl], with the reading of its tick source. *)
Record Backend := mkBackend {
  bk_store : Store;
  bk_tick : Z;
  bk_request_sequence : Z }.

Definition set_store (s : Store) (b : Backend) : Backend :=
  mkBackend s (bk_tick b) (bk_request_sequence b).

Definition on_store {A} (m : M Store A) : M Backend A := λ b,
  let '(result, s) := m (bk_store b) in (result, set_store s b).

(** [request_sequence++] *)
Definition next_backend_request : M Backend RequestId :=
  b ← get_state;
  _ ← put_state (mkBackend (bk_store b) (bk_tick b) (u64 (bk_request_sequence b + 1)));
  mret (mkRequestId 0 (bk_request_sequence b)).

Definition with_lease_tick (tick : Z) (q : TransactionRequest) : TransactionRequest :=
  mkTxn (tx_request_id q) (tx_comparisons q) (tx_lease_ownership q) tick (tx_success q)
    (tx_failure q).

Definition numeric_compare (key : ByteSequence) (target : CompareTarget) (result : CompareResult)
    (expected : Z) : Compare :=
  mkCompare key target result (operand_int expected).

Definition put_request (key value : ByteSequence) (lease_id : Z) : RequestOperation :=
  op_put (mkPutRequest (mkRequestId 0 0) key value lease_id false).

Definition delete_request (key : ByteSequence) : RequestOperation :=
  op_delete (mkDeleteRequest (mkRequestId 0 0) (mkKeyRange key (exact_key_end key)) false).

Definition collect_snapshot_if_unreferenced (current_key snapshot_key readers_start
    readers_end : ByteSequence) (snapshot_id : string) : M Backend bool :=
  current ← on_store (get current_key);
  is_current ← match sr_value current with
    | None => mret false
    | Some value =>
        pointer ← lift (decode_pointer (kv_value value));
        mret (bool_decide (sp_snapshot_id pointer = snapshot_id))
    end;
  if is_current : bool then mret false
  else
    readers ← on_store (range readers_start readers_end);
    if existsb (λ reader, bool_decide (to_string (kv_value reader) = snapshot_id)) (rr_values readers)
    then mret false
    else
      snapshot ← on_store (get snapshot_key);
      match sr_value snapshot with
      | None => mret true
      | Some value =>
          request_id ← next_backend_request;
          b ← get_state;
          result ← on_store (transaction (mkTxn request_id
            [numeric_compare snapshot_key ct_mod_revision cr_equal (kv_mod_revision value)] []
            (bk_tick b) [delete_request snapshot_key] []));
          mret (tr_succeeded result)
      end.

(** A handler of backend calls. *)
Class BackendHandler (B : Type) := handle (c : backend_call) : M B (reply c).

Definition in_process (c : backend_call) : M Backend (reply c) :=
  match c with
  | b_current_tick => b ← get_state; mret (bk_tick b)
  | b_get key => on_store (get key)
  | b_range start_ end_ => on_store (range start_ end_)
  | b_transaction request =>
      b ← get_state; on_store (transaction (with_lease_tick (bk_tick b) request))
  | b_grant_lease ttl =>
      request_id ← next_backend_request;
      b ← get_state; on_store (grant_lease (mkGrant request_id 0 ttl (bk_tick b)))
  | b_keep_alive id token =>
      b ← get_state; on_store (keep_alive (mkKeepAlive id token (bk_tick b)))
  | b_revoke_lease id token =>
      request_id ← next_backend_request;
      b ← get_state; on_store (revoke_lease (mkRevoke request_id id token (bk_tick b)))
  | b_create_watch request => on_store (create_watch request)
  | b_poll_watch id => on_store (poll_watch id)
  | b_cancel_watch id => λ b, (Ret tt, (on_store (cancel_watch id) b).2)
  | b_collect_snapshot_if_unreferenced current_key snapshot_key readers_start readers_end id =>
      collect_snapshot_if_unreferenced current_key snapshot_key readers_start readers_end id
  | b_sleep => mret true
  end.

#[global] Instance in_process_handler : BackendHandler Backend := in_process.

(** A program run without interference. *)
Fixpoint run_prog {A B} `{BackendHandler B} (p : prog A) (b : B) : A * B :=
  match p with
  | done a => (a, b)
  | ask c k => let '(o, b') := handle c b in run_prog (k o) b'
  end.

(** ** Lease sessions and guards *)

(** [LeaseSession]: what the guard and its worker thread share. *)
Record LeaseSession := mkSession {
  ls_id : Z;
  ls_token : Z;
  ls_keepalive_interval : Z;
  ls_active : bool;
  ls_closed : bool }.

Definition deactivate (s : LeaseSession) : LeaseSession :=
  mkSession (ls_id s) (ls_token s) (ls_keepalive_interval s) false (ls_closed s).

Definition session_keep_alive (s : LeaseSession) : prog (bool * LeaseSession) :=
  if negb (ls_active s) then mret (false, s)
  else ask (b_keep_alive (ls_id s) (ls_token s)) (λ o,
    match o with
    | Ret result =>
        if bool_decide (ll_code result = lease_ok) then done (true, s) else done (false, deactivate s)
    | Throw _ => done (false, deactivate s)
    end).

(** The loop of the worker after a wait: it stops when it is told to or when the
    session became inactive. *)
Definition worker_iteration (stop_requested : bool) (s : LeaseSession) : prog (bool * LeaseSession) :=
  if stop_requested then mret (false, s)
  else result ← session_keep_alive s; mret (ls_active result.2, result.2).

(** [close], after the worker was joined. *)
Definition session_close (s : LeaseSession) : prog LeaseSession :=
  if ls_closed s then mret s
  else
    let closed := mkSession (ls_id s) (ls_token s) (ls_keepalive_interval s) false true in
    ask (b_revoke_lease (ls_id s) (ls_token s)) (λ _, done closed).

(** The guards; a guard that was moved from has no implementation. *)
Record WriterGuardImpl := mkWriter {
  wg_lease : LeaseSession;
  wg_table_prefix : string;
  wg_observed_revision : Z }.
Definition WriterGuard : Type := option WriterGuardImpl.

Record ReaderGuardImpl := mkReader {
  rg_lease : LeaseSession;
  rg_reader_id : string;
  rg_snapshot : SnapshotPointer }.
Definition ReaderGuard : Type := option ReaderGuardImpl.

Definition guard_lease (g : WriterGuard) : Z := default 0 (ls_id ∘ wg_lease <$> g).
Definition guard_fencing_token (g : WriterGuard) : Z := default 0 (ls_token ∘ wg_lease <$> g).
Definition guard_observed_revision (g : WriterGuard) : Z := default 0 (wg_observed_revision <$> g).
Definition guard_active (g : WriterGuard) : bool := default false (ls_active ∘ wg_lease <$> g).

Definition reader_guard_id (g : ReaderGuard) : string := default "" (rg_reader_id <$> g).
Definition reader_guard_lease (g : ReaderGuard) : Z := default 0 (ls_id ∘ rg_lease <$> g).
Definition reader_guard_snapshot (g : ReaderGuard) : SnapshotPointer :=
  default (mkPointer "" "" "" []) (rg_snapshot <$> g).
Definition reader_guard_active (g : ReaderGuard) : bool := default false (ls_active ∘ rg_lease <$> g).

Definition with_writer_lease (w : WriterGuardImpl) (s : LeaseSession) : WriterGuardImpl :=
  mkWriter s (wg_table_prefix w) (wg_observed_revision w).
Definition with_reader_lease (r : ReaderGuardImpl) (s : LeaseSession) : ReaderGuardImpl :=
  mkReader s (rg_reader_id r) (rg_snapshot r).

Definition writer_keep_alive (g : WriterGuard) : prog (bool * WriterGuard) :=
  match g with
  | None => mret (false, g)
  | Some w => r ← session_keep_alive (wg_lease w); mret (r.1, Some (with_writer_lease w r.2))
  end.
Definition writer_close (g : WriterGuard) : prog WriterGuard :=
  match g with
  | None => mret g
  | Some w => s ← session_close (wg_lease w); mret (Some (with_writer_lease w s))
  end.
Definition reader_keep_alive (g : ReaderGuard) : prog (bool * ReaderGuard) :=
  match g with
  | None => mret (false, g)
  | Some r => result ← session_keep_alive (rg_lease r); mret (result.1, Some (with_reader_lease r result.2))
  end.
Definition reader_close (g : ReaderGuard) : prog ReaderGuard :=
  match g with
  | None => mret g
  | Some r => s ← session_close (rg_lease r); mret (Some (with_reader_lease r s))
  end.

(** ** The client *)

Inductive PublishStatus := published | conflict | recovered_after_uncertain_response.

Record PublishResult := mkPublish {
  pb_status : PublishStatus;
  pb_revision : Z;
  pb_current : option SnapshotPointer }.

Record SnapshotUpdate := mkUpdate {
  su_pointer : SnapshotPointer;
  su_revision : Z;
  su_full_resynchronization : bool }.

Record KuraClient := mkClient {
  kc_catalog_id : string;
  kc_client_id : Z;
  kc_next_sequence : Z;
  kc_next_watch_id : Z }.

(** Methods of the client: they call the backend, change the client and may
    throw. *)
Definition client (A : Type) : Type := KuraClient → prog (outcome A * KuraClient).

#[global] Instance client_ret : MRet client := λ A a kc, done (Ret a, kc).
#[global] Instance client_bind : MBind client := λ A B f m kc,
  result ← m kc;
  match result with
  | (Ret a, kc') => f a kc'
  | (Throw e, kc') => mret (Throw e, kc')
  end.

Definition call (c : backend_call) : client (reply c) := λ kc, ask c (λ o, done (o, kc)).
Definition cthrow {A} (e : exn) : client A := λ kc, done (Throw e, kc).
Definition clift {A} (o : outcome A) : client A := λ kc, done (o, kc).
(** [try { m } catch]: the outcome of [m] as a value. *)
Definition attempt {A} (m : client A) : client (outcome A) := λ kc,
  result ← m kc; mret (Ret result.1, result.2).
(** A destructor that runs a backend call when the scope is left. *)
Definition finally {A} (m : client A) (cleanup : backend_call) : client A :=
  result ← attempt m; _ ← attempt (call cleanup); clift result.

(** [next_client_id.fetch_add(1)] on the global counter, then the check. *)
Definition construct_client (catalog_id : string) : M Z KuraClient :=
  next ← get_state;
  _ ← put_state (u64 (next + 1));
  _ ← lift (validate_identifier catalog_id "catalog ID");
  mret (mkClient catalog_id next 1 1).

Definition table_prefix (table_id : string) : client string := λ kc,
  done (_ ← validate_identifier table_id "table ID";
        mret (prefix_of_table (kc_catalog_id kc) table_id), kc).

(** [next_sequence_++] and [next_watch_id_++] *)
Definition take_sequence : client Z := λ kc,
  done (Ret (kc_next_sequence kc),
        mkClient (kc_catalog_id kc) (kc_client_id kc) (u64 (kc_next_sequence kc + 1))
          (kc_next_watch_id kc)).
(** [next_watch_id_] is signed, so its overflow would be undefined; it counts calls
    and does not get there. *)
Definition take_watch_id : client Z := λ kc,
  done (Ret (kc_next_watch_id kc),
        mkClient (kc_catalog_id kc) (kc_client_id kc) (kc_next_sequence kc)
          (kc_next_watch_id kc + 1)).

Definition client_id : client Z := λ kc, done (Ret (kc_client_id kc), kc).

Definition next_request_id : client RequestId :=
  id ← client_id; sequence ← take_sequence; mret (mkRequestId id sequence).

Definition bytes (value : string) : ByteSequence := from_string value.

Definition cthrow_when (b : bool) (e : exn) : client unit := clift (throw_when b e).

(** [std::max(1ms, duration_cast<milliseconds>(ttl) / 3)] *)
Definition keepalive_interval (ttl : Z) : Z := Z.max 1 (ttl * 1000 / 3).

Definition new_session (lease : LeaseRecord) (ttl : Z) : LeaseSession :=
  mkSession (lr_id lease) (lr_fencing_token lease) (keepalive_interval ttl) true false.

Definition writer_claim (request_id : RequestId) (prefix : string) (lease : LeaseRecord)
    : TransactionRequest :=
  let writer_key := bytes (prefix +:+ "writer") in
  let writer_value := bytes (decimal (lr_id lease) +:+ ":" +:+ decimal (lr_fencing_token lease)) in
  mkTxn request_id [numeric_compare writer_key ct_version cr_equal 0]
    [mkOwnership (lr_id lease) (lr_fencing_token lease)] 0
    [put_request writer_key writer_value (lr_id lease)] [].

Definition acquire_writer (table_id : string) (ttl : Z) : client WriterGuard :=
  _ ← cthrow_when (ttl <=? 0) (invalid_argument "writer TTL must be positive");
  prefix ← table_prefix table_id;
  current ← call (b_get (bytes (prefix +:+ "current")));
  granted ← call (b_grant_lease ttl);
  let lease := gr_lease granted in
  request_id ← next_request_id;
  claim ← call (b_transaction (writer_claim request_id prefix lease));
  if negb (tr_succeeded claim) then
    _ ← call (b_revoke_lease (lr_id lease) (lr_fencing_token lease));
    cthrow (client_error sc_comparison_failed "another writer owns the table")
  else
    mret (Some (mkWriter (new_session lease ttl) prefix
      (default 0 (kv_mod_revision <$> sr_value current)))).

Definition uncertain_status (code : StatusCode) : bool :=
  match code with sc_not_leader | sc_no_quorum | sc_deadline_exceeded => true | _ => false end.

Definition publication (request_id : RequestId) (guard : WriterGuard) (prefix : string)
    (expected_revision : Z) (snapshot_id : string) (encoded : ByteSequence) : TransactionRequest :=
  let current_key := bytes (prefix +:+ "current") in
  let writer_key := bytes (prefix +:+ "writer") in
  let snapshot_key := bytes (prefix +:+ "snapshots/" +:+ snapshot_id) in
  mkTxn request_id
    [numeric_compare current_key ct_mod_revision cr_equal expected_revision;
     numeric_compare writer_key ct_lease_id cr_equal (guard_lease guard)]
    [mkOwnership (guard_lease guard) (guard_fencing_token guard)] 0
    [put_request current_key encoded 0; put_request snapshot_key encoded 0] [].

(** The body of the [try] block. *)
Definition submit_publication (request : TransactionRequest) (current_key : ByteSequence)
    (pointer : SnapshotPointer) : client PublishResult :=
  result ← call (b_transaction request);
  if negb (tr_succeeded result) then
    current ← call (b_get current_key);
    decoded ← match sr_value current with
      | Some value => p ← clift (decode_pointer (kv_value value)); mret (Some p)
      | None => mret None
      end;
    mret (mkPublish conflict (default 0 (kv_mod_revision <$> sr_value current)) decoded)
  else mret (mkPublish published (hd_revision (tr_header result)) (Some pointer)).

Definition publish_snapshot (guard : WriterGuard) (expected_revision : Z)
    (pointer : SnapshotPointer) : client PublishResult :=
  match guard with
  | Some w =>
      _ ← cthrow_when (negb (guard_active guard))
        (client_error sc_lease_not_found "writer guard is no longer active");
      encoded ← clift (encode_pointer pointer);
      let current_key := bytes (wg_table_prefix w +:+ "current") in
      request_id ← next_request_id;
      let request := publication request_id guard (wg_table_prefix w) expected_revision
        (sp_snapshot_id pointer) encoded in
      result ← attempt (submit_publication request current_key pointer);
      match result with
      | Throw (client_error code message) =>
          if negb (uncertain_status code) then cthrow (client_error code message)
          else
            current ← call (b_get current_key);
            match sr_value current with
            | Some value =>
                if bool_decide (kv_value value = encoded)
                then mret (mkPublish recovered_after_uncertain_response (kv_mod_revision value)
                             (Some pointer))
                else cthrow (client_error code message)
            | None => cthrow (client_error code message)
            end
      | _ => clift result
      end
  | None => cthrow (client_error sc_lease_not_found "writer guard is no longer active")
  end.

Definition registration (request_id : RequestId) (prefix reader_id snapshot_id : string)
    (encoded : ByteSequence) (lease : LeaseRecord) : TransactionRequest :=
  let reader_key := bytes (prefix +:+ "readers/" +:+ reader_id) in
  let snapshot_key := bytes (prefix +:+ "snapshots/" +:+ snapshot_id) in
  mkTxn request_id [mkCompare snapshot_key ct_value cr_equal (operand_bytes encoded)]
    [mkOwnership (lr_id lease) (lr_fencing_token lease)] 0
    [put_request reader_key (bytes snapshot_id) (lr_id lease)] [].

Definition register_reader (table_id : string) (snapshot : SnapshotPointer) (ttl : Z)
    : client ReaderGuard :=
  _ ← cthrow_when (ttl <=? 0) (invalid_argument "reader TTL must be positive");
  encoded ← clift (encode_pointer snapshot);
  prefix ← table_prefix table_id;
  granted ← call (b_grant_lease ttl);
  let lease := gr_lease granted in
  id ← client_id;
  sequence ← take_sequence;
  let reader_id := reader_name id sequence in
  request_id ← next_request_id;
  registered ← call (b_transaction (registration request_id prefix reader_id
    (sp_snapshot_id snapshot) encoded lease));
  if negb (tr_succeeded registered) then
    _ ← call (b_revoke_lease (lr_id lease) (lr_fencing_token lease));
    cthrow (client_error sc_comparison_failed "snapshot is not registered")
  else mret (Some (mkReader (new_session lease ttl) reader_id snapshot)).

Definition current_snapshot (table_id : string) : client (option SnapshotUpdate) :=
  prefix ← table_prefix table_id;
  current ← call (b_get (bytes (prefix +:+ "current")));
  match sr_value current with
  | None => mret None
  | Some value =>
      pointer ← clift (decode_pointer (kv_value value));
      mret (Some (mkUpdate pointer (sr_revision current) false))
  end.

(** A full read, marked as such. *)
Definition resynchronize (table_id : string) : client (option SnapshotUpdate) :=
  current ← current_snapshot table_id;
  mret ((λ u, mkUpdate (su_pointer u) (su_revision u) true) <$> current).

(** The first event that carries a value. *)
Definition first_current (events : list WatchEvent) : option (Z * KeyValue) :=
  head (omap (λ e, (λ v, (we_revision e, v)) <$> mu_current (we_mutation e)) events).

(** The [do] loop; with a timeout of zero it polls once.  Every round sleeps at least a millisecond, so the deadline
    has passed after as many rounds as the timeout has milliseconds. *)
Fixpoint poll_loop (remaining : nat) (table_id : string) (watch_id : Z)
    : client (option SnapshotUpdate) :=
  response ← call (b_poll_watch watch_id);
  let next : client (option SnapshotUpdate) :=
    match remaining with
    | O => mret None
    | S remaining' =>
        ahead ← call b_sleep;
        if ahead : bool then poll_loop remaining' table_id watch_id else mret None
    end in
  match response with
  | None => next
  | Some r =>
      if bool_decide (wr_status r = sc_compacted) then resynchronize table_id
      else match first_current (wr_events r) with
        | Some (revision, value) =>
            pointer ← clift (decode_pointer (kv_value value));
            mret (Some (mkUpdate pointer revision false))
        | None => next
        end
  end.

Definition await_snapshot_change (table_id : string) (from_revision timeout : Z)
    : client (option SnapshotUpdate) :=
  _ ← cthrow_when ((from_revision <? 0) || (from_revision =? i64_max) || (timeout <? 0))
    (invalid_argument "watch revision and timeout must not be negative");
  prefix ← table_prefix table_id;
  let current_key := bytes (prefix +:+ "current") in
  watch_id ← take_watch_id;
  created ← attempt (call (b_create_watch
    (mkWatchRequest watch_id (mkKeyRange current_key []) (from_revision + 1) include_all false)));
  match created with
  | Throw (store_error sc_compacted _ _ | client_error sc_compacted _) => resynchronize table_id
  | Throw e => cthrow e
  | Ret _ => finally (poll_loop (Z.to_nat timeout) table_id watch_id) (b_cancel_watch watch_id)
  end.

Definition collect_snapshot (table_id snapshot_id : string) : client bool :=
  _ ← clift (validate_identifier snapshot_id "snapshot ID");
  prefix ← table_prefix table_id;
  let reader_prefix := bytes (prefix +:+ "readers/") in
  match prefix_range_end reader_prefix with
  | None => cthrow (logic_error "reader namespace has no finite range")
  | Some reader_end =>
      call (b_collect_snapshot_if_unreferenced (bytes (prefix +:+ "current"))
        (bytes (prefix +:+ "snapshots/" +:+ snapshot_id)) reader_prefix reader_end snapshot_id)
  end.
