(* ===== verification/KuraWorld.v ===== *)
(** * Clients of one backend

    Any number of [KuraClient] objects share an in-process backend.  Every client
    runs one method at a time; the backend calls of different clients interleave
    in any order, with the keep-alives and closings of lease sessions, the
    passing of time, and the expiry of leases by the owner of the store.  Steps
    chosen by a schedule are computed, for a run of two clients on one table. *)

From S2P Require Import Prelude OrdMap Bytes StoreTypes Store Text KuraPointer KuraClient.
#[local] Open Scope Z_scope.

(** ** Methods and their results *)

Inductive operation :=
| op_acquire (table_id : string) (ttl : Z)
| op_publish (guard : WriterGuard) (expected_revision : Z) (pointer : SnapshotPointer)
| op_register (table_id : string) (snapshot : SnapshotPointer) (ttl : Z)
| op_await (table_id : string) (from_revision timeout : Z)
| op_collect (table_id snapshot_id : string)
| op_current (table_id : string).

Inductive result :=
| res_writer (guard : WriterGuard)
| res_publish (r : PublishResult)
| res_reader (guard : ReaderGuard)
| res_update (update : option SnapshotUpdate)
| res_collected (collected : bool).

Definition perform (op : operation) : client result :=
  match op with
  | op_acquire table ttl => g ← acquire_writer table ttl; mret (res_writer g)
  | op_publish guard expected pointer =>
      r ← publish_snapshot guard expected pointer; mret (res_publish r)
  | op_register table snapshot ttl => g ← register_reader table snapshot ttl; mret (res_reader g)
  | op_await table from timeout => u ← await_snapshot_change table from timeout; mret (res_update u)
  | op_collect table id => b ← collect_snapshot table id; mret (res_collected b)
  | op_current table => u ← current_snapshot table; mret (res_update u)
  end.

(** Times to live are 64-bit numbers, and the guard of a publication is one that
    [acquire_writer] made: its prefix is that of a table. *)
Definition operation_ok (op : operation) : Prop :=
  match op with
  | op_acquire _ ttl | op_register _ _ ttl => ttl ≤ i64_max
  | op_publish (Some w) _ _ => ∃ t, table_ok t ∧ wg_table_prefix w = table_prefix_of t
  | _ => True
  end.

(** ** States and steps *)

(** A client between methods, or in one. *)
Inductive actor :=
| idle (kc : KuraClient)
| busy (op : operation) (p : prog (outcome result * KuraClient)).

Record World := mkWorld {
  w_backend : Backend;
  w_actors : gmap Z actor;
  w_next_client_id : Z }.

Definition set_actor (j : Z) (a : actor) (b : Backend) (w : World) : World :=
  mkWorld b (<[j := a]> (w_actors w)) (w_next_client_id w).
Definition set_backend (b : Backend) (w : World) : World :=
  mkWorld b (w_actors w) (w_next_client_id w).

Inductive label :=
| lab_new (j : Z)
| lab_start (j : Z) (op : operation)
| lab_call (j : Z) (c : backend_call) (o : outcome (reply c))
| lab_return (j : Z) (op : operation) (r : outcome result) (kc : KuraClient)
| lab_session (s : LeaseSession)
| lab_time.

(** The counters of a client do not run out during its next method. *)
Definition counters_left (kc : KuraClient) : Prop := kc_next_sequence kc + 2 ≤ u64_max.

Inductive world_step : World → label → World → Prop :=
| ws_new w catalog kc next :
    w_next_client_id w < u64_max →
    construct_client catalog (w_next_client_id w) = (Ret kc, next) →
    world_step w (lab_new (kc_client_id kc))
      (mkWorld (w_backend w) (<[kc_client_id kc := idle kc]> (w_actors w)) next)
| ws_start w j kc op :
    w_actors w !! j = Some (idle kc) → operation_ok op → counters_left kc →
    world_step w (lab_start j op) (set_actor j (busy op (perform op kc)) (w_backend w) w)
| ws_call w j op c k o b :
    w_actors w !! j = Some (busy op (ask c k)) → c ≠ b_sleep → handle c (w_backend w) = (o, b) →
    world_step w (lab_call j c o) (set_actor j (busy op (k o)) b w)
| ws_sleep w j op k ahead :
    w_actors w !! j = Some (busy op (ask b_sleep k)) →
    world_step w (lab_call j b_sleep (Ret ahead))
      (set_actor j (busy op (k (Ret ahead))) (w_backend w) w)
| ws_return w j op r kc :
    w_actors w !! j = Some (busy op (done (r, kc))) →
    world_step w (lab_return j op r kc) (set_actor j (idle kc) (w_backend w) w)
| ws_keep_alive w s r b :
    run_prog (session_keep_alive s) (w_backend w) = (r, b) →
    world_step w (lab_session s) (set_backend b w)
| ws_close w s s' b :
    run_prog (session_close s) (w_backend w) = (s', b) →
    world_step w (lab_session s) (set_backend b w)
| ws_tick w tick :
    bk_tick (w_backend w) ≤ tick ≤ u64_max →
    world_step w lab_time (set_backend
      (mkBackend (bk_store (w_backend w)) tick (bk_request_sequence (w_backend w))) w)
| ws_expire w tick :
    0 ≤ tick ≤ u64_max →
    world_step w lab_time (set_backend
      (set_store (expire_leases tick (bk_store (w_backend w))).2 (w_backend w)) w).

(** Runs with the labels of their steps, oldest first. *)
Inductive world_run (w0 : World) : list label → World → Prop :=
| wr_start : world_run w0 [] w0
| wr_step trace w lab w' :
    world_run w0 trace w → world_step w lab w' → world_run w0 (trace ++ [lab]) w'.

(** A fresh backend on a store, and no clients yet. *)
Definition initial_world (s : Store) (tick : Z) : World :=
  mkWorld (mkBackend s tick 1) ∅ 1.

(** ** Schedules *)

(** What happens next: a client is made; it starts a method ([t] is the table of a
    publication's guard); it makes one call; it makes its remaining calls and
    returns. *)
Inductive sched :=
| sc_new (catalog : string)
| sc_start (j : Z) (op : operation) (t : table)
| sc_call (j : Z)
| sc_finish (j : Z).

Definition run : Type := list label * World.

(** The labels of the calls of a program that does not sleep. *)
Fixpoint call_labels {A} (j : Z) (p : prog A) (b : Backend) : list label :=
  match p with
  | done _ => []
  | ask c k => let '(o, b') := handle c b in lab_call j c o :: call_labels j (k o) b'
  end.

Definition is_sleep (c : backend_call) : bool := match c with b_sleep => true | _ => false end.

Fixpoint awake {A} (p : prog A) (b : Backend) : bool :=
  match p with
  | done _ => true
  | ask c k => negb (is_sleep c) && let '(o, b') := handle c b in awake (k o) b'
  end.

#[export] Instance table_ok_dec t : Decision (table_ok t).
Proof. unfold table_ok, identifier. apply _. Defined.

Definition operation_check (op : operation) (t : table) : bool :=
  match op with
  | op_acquire _ ttl | op_register _ _ ttl => ttl <=? i64_max
  | op_publish (Some w) _ _ =>
      bool_decide (table_ok t) && bool_decide (wg_table_prefix w = table_prefix_of t)
  | _ => true
  end.

Definition exec_call (j : Z) (op : operation) (p : prog (outcome result * KuraClient)) (w : World)
    : option (label * World) :=
  match p with
  | done _ => None
  | ask c k =>
      if is_sleep c then
        match c as c' return (outcome (reply c') → prog (outcome result * KuraClient)) →
            option (label * World) with
        | b_sleep => λ k', Some (lab_call j b_sleep (Ret true),
            set_actor j (busy op (k' (Ret true))) (w_backend w) w)
        | _ => λ _, None
        end k
      else let '(o, b) := handle c (w_backend w) in
        Some (lab_call j c o, set_actor j (busy op (k o)) b w)
  end.

Definition exec_one (r : run) (a : sched) : option run :=
  let '(trace, w) := r in
  match a with
  | sc_new catalog =>
      match construct_client catalog (w_next_client_id w) with
      | (Ret kc, next) =>
          if w_next_client_id w <? u64_max then
            Some (trace ++ [lab_new (kc_client_id kc)],
              mkWorld (w_backend w) (<[kc_client_id kc := idle kc]> (w_actors w)) next)
          else None
      | _ => None
      end
  | sc_start j op t =>
      match w_actors w !! j with
      | Some (idle kc) =>
          if operation_check op t && bool_decide (counters_left kc) then
            Some (trace ++ [lab_start j op], set_actor j (busy op (perform op kc)) (w_backend w) w)
          else None
      | _ => None
      end
  | sc_call j =>
      match w_actors w !! j with
      | Some (busy op p) =>
          '(lab, w') ← exec_call j op p w; Some (trace ++ [lab], w')
      | _ => None
      end
  | sc_finish j =>
      match w_actors w !! j with
      | Some (busy op p) =>
          if awake p (w_backend w) then
            let '((r, kc), b) := run_prog p (w_backend w) in
            Some (trace ++ call_labels j p (w_backend w) ++ [lab_return j op r kc],
              set_actor j (idle kc) b w)
          else None
      | _ => None
      end
  end.

Fixpoint exec_all (l : list sched) (r : run) : option run :=
  match l with
  | [] => Some r
  | a :: l' => r' ← exec_one r a; exec_all l' r'
  end.

(** ** Schedules are runs *)

Lemma operation_check_sound op t : operation_check op t = true → operation_ok op.
Proof.
  destruct op as [| [w|] | | | |]; simpl; try done; try lia.
  intros [Ht%bool_decide_eq_true Hp%bool_decide_eq_true]%andb_prop. eauto.
Qed.

(** Completing a program in steps. *)
Lemma complete_sound w0 j op p trace w r kc b' :
  world_run w0 trace (set_actor j (busy op p) (w_backend w) w) →
  awake p (w_backend w) = true → run_prog p (w_backend w) = ((r, kc), b') →
  world_run w0 (trace ++ call_labels j p (w_backend w) ++ [lab_return j op r kc])
    (set_actor j (idle kc) b' w).
Proof.
  revert trace w. induction p as [[r' kc']|c k IH]; intros trace w Hrun Haw Hp; simpl in *.
  - injection Hp as -> -> <-. eapply wr_step in Hrun.
    2:{ apply ws_return. simpl. apply lookup_insert_eq. }
    unfold set_actor in *. simpl in *. by rewrite insert_insert_eq in Hrun.
  - destruct (handle c (w_backend w)) as [o b1] eqn:Hh.
    assert (world_run w0 (trace ++ [lab_call j c o]) (set_actor j (busy op (k o)) b1 w)) as Hrun1.
    { eapply wr_step in Hrun; [|eapply ws_call; [apply lookup_insert_eq| |exact Hh]].
      - unfold set_actor in *. simpl in *. by rewrite insert_insert_eq in Hrun.
      - by intros ->. }
    specialize (IH o (trace ++ [lab_call j c o]) (set_backend b1 w) Hrun1).
    rewrite <-app_assoc in IH. simpl in IH. apply IH; [|done].
    by destruct (is_sleep c).
Qed.

Lemma exec_call_sound j op p w lab w' :
  w_actors w !! j = Some (busy op p) → exec_call j op p w = Some (lab, w') → world_step w lab w'.
Proof.
  intros Ha. destruct p as [|c k]; simpl; [done|]. destruct (is_sleep c) eqn:Hs.
  - destruct c; try done. intros [= <- <-]. by apply ws_sleep.
  - destruct (handle c (w_backend w)) as [o b] eqn:Hh. intros [= <- <-].
    eapply ws_call; [done| |done]. by intros ->.
Qed.

Lemma exec_one_sound w0 r a r' :
  world_run w0 r.1 r.2 → exec_one r a = Some r' → world_run w0 r'.1 r'.2.
Proof.
  destruct r as [trace w]. intros Hrun. destruct a as [catalog|j op t|j|j]; simpl.
  - destruct (construct_client _ _) as [[kc|e] next] eqn:Hc; [|done].
    destruct (Z.ltb_spec (w_next_client_id w) u64_max); [|done]. intros [= <-].
    eapply wr_step; [done|]. by econstructor.
  - destruct (w_actors w !! j) as [[kc|]|] eqn:Ha; try done.
    destruct (operation_check op t && _) eqn:Hok; [|done]. intros [= <-].
    apply andb_prop in Hok as [Hop%operation_check_sound Hleft%bool_decide_eq_true].
    eapply wr_step; [done|]. by eapply ws_start.
  - destruct (w_actors w !! j) as [[|op p]|] eqn:Ha; try done.
    destruct (exec_call j op p w) as [[lab w']|] eqn:Hc; simpl; [|done]. intros [= <-].
    eapply wr_step; [done|]. by eapply exec_call_sound.
  - destruct (w_actors w !! j) as [[|op p]|] eqn:Ha; try done.
    destruct (awake p (w_backend w)) eqn:Haw; [|done].
    destruct (run_prog p (w_backend w)) as [[r kc] b] eqn:Hp. intros [= <-].
    eapply complete_sound; [|done|done]. unfold set_actor. rewrite insert_id by done. by destruct w.
Qed.

Lemma schedule_sound w0 l r r' :
  world_run w0 r.1 r.2 → exec_all l r = Some r' → world_run w0 r'.1 r'.2.
Proof.
  revert r. induction l as [|a l IH]; intros r Hrun; simpl; [by intros [= <-]|].
  destruct (exec_one r a) as [r1|] eqn:Ha; simpl; [|done]. apply IH. by eapply exec_one_sound.
Qed.

(** The run of a schedule, when none of its steps is refused. *)
Definition run_of (w0 : World) (l : list sched) : run := default ([], w0) (exec_all l ([], w0)).

Lemma run_of_sound w0 l :
  bool_decide (is_Some (exec_all l ([], w0))) = true → world_run w0 (run_of w0 l).1 (run_of w0 l).2.
Proof.
  intros [r' Hr]%bool_decide_eq_true. unfold run_of. rewrite Hr.
  by apply (schedule_sound w0 l ([], w0)); [apply wr_start|].
Qed.

(** ** Two clients *)

Definition demo_world : World := initial_world (empty_at 0 default_limits) 1.

Definition demo_pointer (id : string) : SnapshotPointer :=
  mkPointer id ("object://" +:+ id) "schema" [byte.of_Z 1].

(** The guard the first acquisition of table [t] returns. *)
Definition demo_writer : WriterGuardImpl :=
  mkWriter (mkSession 1 1 10000 true false) (prefix_of_table "default" "t") 0.

Definition demo_table : table := mkTable "default" "t".

(** A method from start to end. *)
Definition sc_whole (j : Z) (op : operation) : list sched := [sc_start j op demo_table; sc_finish j].

(** The first client acquires the table and publishes a snapshot; the second one
    registers as its reader; the first publishes the next snapshot. *)
Definition demo_schedule : list sched :=
  [sc_new "default"; sc_new "default"]
  ++ sc_whole 1 (op_acquire "t" 30)
  ++ sc_whole 1 (op_publish (Some demo_writer) 0 (demo_pointer "s1"))
  ++ sc_whole 2 (op_register "t" (demo_pointer "s1") 30)
  ++ sc_whole 1 (op_publish (Some demo_writer) 2 (demo_pointer "s2")).

Definition demo_run : run := run_of demo_world demo_schedule.

Lemma demo_runs : world_run demo_world demo_run.1 demo_run.2.
Proof. apply run_of_sound. vm_compute. reflexivity. Qed.
