(* ===== verification/KuraMoves.v ===== *)
(** * What a backend call does to the store

    Every call a client makes changes the store in one of a few ways, the moves;
    the calls a client can make are listed by [made_by].  The theorems about
    interleaved clients only use the moves. *)

From S2P Require Import Prelude OrdMap Bytes StoreTypes Store StoreInv StoreTxn StoreOps StoreLease.
From S2P Require Import StoreWatch Text KuraPointer KuraClient.
#[local] Open Scope Z_scope.

(** ** Moves *)

Inductive move :=
| mv_quiet
| mv_cleanup (ids : list Z)
| mv_claim (t : table) (lease token : Z)
| mv_publish (t : table) (expected lease token : Z) (p : SnapshotPointer)
| mv_register (t : table) (client_id sequence lease token : Z) (snapshot_id : string)
| mv_collect (t : table) (snapshot_id : string).

(** The lease is stored with the token and has not expired at the tick. *)
Definition live_at (lease token tick : Z) (s : Store) : Prop :=
  ∃ l, leases_ s !! lease = Some l ∧ sl_fencing_token l = token ∧ tick < sl_expiry_tick l.

Definition change (m : move) (tick : Z) (s s' : Store) : Prop :=
  match m with
  | mv_quiet => values_ s' = values_ s
  | mv_cleanup ids =>
      (∀ k v, values_ s' !! k = Some v ↔ values_ s !! k = Some v ∧ kv_lease_id v ∉ ids) ∧
      (∀ id, id ∈ ids → leases_ s' !! id = None) ∧ 0 ∉ ids
  | mv_claim t lease token =>
      values_ s !! table_key t writer_item = None ∧ live_at lease token tick s ∧
      ∃ v, values_ s' = <[table_key t writer_item := v]> (values_ s) ∧ kv_lease_id v = lease
  | mv_publish t expected lease token p =>
      default 0 (kv_mod_revision <$> values_ s !! table_key t current_item) = expected ∧
      default 0 (kv_lease_id <$> values_ s !! table_key t writer_item) = lease ∧
      live_at lease token tick s ∧ revision_ s' = revision_ s + 1 ∧ pointer_valid p ∧
      ∃ v1 v2, values_ s' = <[table_key t current_item := v1]>
          (<[table_key t (snapshot_item (sp_snapshot_id p)) := v2]> (values_ s)) ∧
        kv_value v1 = pointer_bytes p ∧ kv_mod_revision v1 = revision_ s' ∧
        kv_lease_id v1 = 0 ∧ kv_lease_id v2 = 0
  | mv_register t client_id sequence lease token id =>
      live_at lease token tick s ∧ is_Some (values_ s !! table_key t (snapshot_item id)) ∧
      ∃ v, values_ s' = <[table_key t (reader_item client_id sequence) := v]> (values_ s) ∧
        kv_lease_id v = lease ∧ kv_value v = from_string id
  | mv_collect t id =>
      (∀ v p, values_ s !! table_key t current_item = Some v → decode_pointer (kv_value v) = Ret p →
        sp_snapshot_id p ≠ id) ∧
      (∀ client_id sequence v, 0 ≤ client_id →
        values_ s !! table_key t (reader_item client_id sequence) = Some v →
        to_string (kv_value v) ≠ id) ∧
      values_ s' = delete (table_key t (snapshot_item id)) (values_ s)
  end.

Record moved (m : move) (tick : Z) (s s' : Store) : Prop := {
  md_inv : store_inv s';
  md_leases : lease_step s s';
  md_revision : revision_ s ≤ revision_ s';
  md_change : change m tick s s' }.

(** ** The calls of a client *)

(** The calls client [j] makes when the sequence numbers of its readers start at
    [lo]. *)
Inductive made_by (j lo : Z) : backend_call → Prop :=
| mb_current_tick : made_by j lo b_current_tick
| mb_get key : made_by j lo (b_get key)
| mb_range start_ end_ : made_by j lo (b_range start_ end_)
| mb_grant ttl : 0 < ttl ≤ i64_max → made_by j lo (b_grant_lease ttl)
| mb_keep_alive id token : made_by j lo (b_keep_alive id token)
| mb_revoke id token : made_by j lo (b_revoke_lease id token)
| mb_create_watch q : made_by j lo (b_create_watch q)
| mb_poll_watch id : made_by j lo (b_poll_watch id)
| mb_cancel_watch id : made_by j lo (b_cancel_watch id)
| mb_sleep : made_by j lo b_sleep
| mb_claim rid t lease :
    table_ok t → made_by j lo (b_transaction (writer_claim rid (table_prefix_of t) lease))
| mb_publish rid guard t expected p :
    table_ok t → pointer_valid p →
    made_by j lo (b_transaction (publication rid guard (table_prefix_of t) expected
      (sp_snapshot_id p) (pointer_bytes p)))
| mb_register rid t sequence p lease :
    table_ok t → pointer_valid p → lo ≤ sequence →
    made_by j lo (b_transaction (registration rid (table_prefix_of t) (reader_name j sequence)
      (sp_snapshot_id p) (pointer_bytes p) lease))
| mb_collect t reader_end id :
    table_ok t → identifier id →
    prefix_range_end (bytes (table_prefix_of t +:+ "readers/")) = Some reader_end →
    made_by j lo (b_collect_snapshot_if_unreferenced (bytes (table_prefix_of t +:+ "current"))
      (bytes (table_prefix_of t +:+ "snapshots/" +:+ id))
      (bytes (table_prefix_of t +:+ "readers/")) reader_end id).

Definition from_client (j lo : Z) (m : move) : Prop :=
  match m with
  | mv_quiet | mv_cleanup _ => True
  | mv_claim t _ _ | mv_publish t _ _ _ _ | mv_collect t _ => table_ok t
  | mv_register t client_id sequence _ _ _ => table_ok t ∧ client_id = j ∧ lo ≤ sequence
  end.

(** ** Steps of the store *)

Definition backend_ok (b : Backend) : Prop :=
  store_inv (bk_store b) ∧ 0 ≤ bk_tick b ≤ u64_max.

Lemma effect_moved m tick s oe s' :
  store_inv s' → effect s oe s' → change m tick s s' → moved m tick s s'.
Proof. intros Hinv [] Hc. split; try done. destruct oe; lia. Qed.

Lemma moved_quiet tick s s' : store_inv s' → effect s None s' → moved mv_quiet tick s s'.
Proof. intros Hinv Heff. eapply effect_moved; [done..|apply Heff]. Qed.

Lemma moved_refl tick s : store_inv s → moved mv_quiet tick s s.
Proof. intros Hinv. destruct (step_ok_refl s Hinv). by apply moved_quiet. Qed.

Lemma moved_cleanup ids code tick s r s' :
  store_inv s → (∀ id, id ∈ ids → is_Some (leases_ s !! id)) →
  cleanup_post ids code s r s' → moved (mv_cleanup ids) tick s s'.
Proof.
  intros Hs Hids [[Hinv Heff _] Hv Hl _]. eapply effect_moved; [done..|]. split; [done|]. split.
  - intros id Hin. destruct (leases_ s' !! id) as [l|] eqn:E; [|done]. by apply Hl in E as [_ ?].
  - intros [l Hl0]%Hids. pose proof (do_zero _ _ _ (inv_data _ Hs)). congruence.
Qed.

Lemma mwp_on_store {A} (m : M Store A) b (Q : A → Store → Prop) (E : exn → Store → Prop) :
  mwp m (bk_store b) Q E →
  mwp (on_store m) b (λ a b', Q a (bk_store b') ∧ bk_tick b' = bk_tick b)
    (λ e b', E e (bk_store b') ∧ bk_tick b' = bk_tick b).
Proof. unfold mwp, on_store. by destruct (m (bk_store b)) as [[a|e] s']. Qed.

(** A transaction that only acts when its guards hold. *)
Lemma guarded_transaction q s :
  store_inv s → 0 ≤ tx_lease_tick q ≤ u64_max → tx_failure q = [] →
  mwp (transaction q) s
    (λ r s', store_inv s' ∧ lease_step s s' ∧ revision_ s ≤ revision_ s' ∧
       tr_header r = header_at (revision_ s') ∧
       if tr_succeeded r
       then txn_guard s q ∧ (∀ k, values_ s' !! k = txn_value (revision_ s') (values_ s) (tx_success q) k) ∧
            (Exists (effective (values_ s)) (tx_success q) → revision_ s' = revision_ s + 1)
       else values_ s' = values_ s)
    (λ _ s', s' = s).
Proof.
  intros Hinv Htick Hfail. eapply mwp_mono; [by apply transaction_ok| |by intros e s' []].
  intros r s' [Hg _ Hh Hv _ Hs _]. unfold txn_branch in *.
  assert (∃ oe, step_ok s oe s' ∧ (Exists (effective (values_ s))
    (if tr_succeeded r then tx_success q else tx_failure q) → oe ≠ None)) as (oe & Hok & Hoe).
  { destruct Hs as [(Hex & es & _ & Hs)|(Hex & Hs & _)]; eexists; (split; [exact Hs|done]). }
  pose proof Hok as [Hinv' Heff _]. destruct Heff.
  split; [done|]. split; [done|]. split; [destruct oe; lia|]. split; [done|].
  destruct (tr_succeeded r).
  - split; [by apply Hg|]. split; [done|]. intros Hex. destruct oe; [lia|]. by destruct (Hoe Hex).
  - rewrite Hfail in Hv. apply map_eq. done.
Qed.

Lemma live_ownership lease token s tick :
  Forall (λ o, ownership_matches (leases_ s) tick o = true) [mkOwnership lease token] →
  live_at lease token tick s.
Proof.
  rewrite Forall_singleton. unfold ownership_matches, live_at. simpl.
  destruct (leases_ s !! lease) as [l|]; [|done]. rewrite andb_true_iff. intros [? ?].
  exists l. split; [done|]. lia.
Qed.

Lemma zero_version s k :
  store_inv s → default 0 (kv_version <$> values_ s !! k) = 0 → values_ s !! k = None.
Proof.
  intros Hinv. destruct (values_ s !! k) as [v|] eqn:Hk; [|done]. simpl.
  pose proof (vo_version _ _ _ (do_values _ _ _ (inv_data _ Hinv) _ _ Hk)). lia.
Qed.

(** One put, or two to distinct keys. *)
Lemma txn_value_put rev values p :
  ∀ values', (∀ k, values' !! k = txn_value rev values [op_put p] k) →
  values' = <[pq_key p := put_value rev (values !! pq_key p) p]> values.
Proof.
  intros values' Hv. apply map_eq. intros k. rewrite Hv. simpl.
  case_bool_decide as Hk; [subst k; by rewrite lookup_insert_eq|by rewrite lookup_insert_ne].
Qed.

Lemma txn_value_put2 rev values p q :
  ∀ values', (∀ k, values' !! k = txn_value rev values [op_put p; op_put q] k) →
  values' = <[pq_key p := put_value rev (values !! pq_key p) p]>
    (<[pq_key q := put_value rev (values !! pq_key q) q]> values).
Proof.
  intros values' Hv. apply map_eq. intros k. rewrite Hv. simpl.
  case_bool_decide as Hp; [subst k; by rewrite lookup_insert_eq|rewrite lookup_insert_ne by done].
  case_bool_decide as Hq; [subst k; by rewrite lookup_insert_eq|by rewrite lookup_insert_ne].
Qed.

(** ** The transactions of the client *)

Lemma claim_moved rid t lease tick s :
  store_inv s → 0 ≤ tick ≤ u64_max →
  mwp (transaction (with_lease_tick tick (writer_claim rid (table_prefix_of t) lease))) s
    (λ r s', moved (if tr_succeeded r then mv_claim t (lr_id lease) (lr_fencing_token lease)
                    else mv_quiet) tick s s') (λ _ s', s' = s).
Proof.
  intros Hinv Htick. eapply mwp_mono; [by apply guarded_transaction| |done].
  intros r s' (Hinv' & Hl & Hr & _ & Hc). destruct (tr_succeeded r); split; try done.
  destruct Hc as ([Hcmp Hown] & Hv & _). apply txn_value_put in Hv. simpl in *.
  rewrite Forall_singleton in Hcmp. unfold compare_holds in Hcmp. simpl in Hcmp.
  split; [by apply zero_version|]. split; [by apply live_ownership|].
  eexists. split; [exact Hv|done].
Qed.

Lemma publish_moved rid guard t expected p tick s :
  store_inv s → 0 ≤ tick ≤ u64_max → pointer_valid p →
  mwp (transaction (with_lease_tick tick (publication rid guard (table_prefix_of t) expected
      (sp_snapshot_id p) (pointer_bytes p)))) s
    (λ r s', tr_header r = header_at (revision_ s') ∧
       moved (if tr_succeeded r
              then mv_publish t expected (guard_lease guard) (guard_fencing_token guard) p
              else mv_quiet) tick s s') (λ _ s', s' = s).
Proof.
  intros Hinv Htick Hp. eapply mwp_mono; [by apply guarded_transaction| |done].
  intros r s' (Hinv' & Hl & Hr & Hh & Hc). split; [done|].
  destruct (tr_succeeded r); split; try done.
  destruct Hc as ([Hcmp Hown] & Hv & Hrev). apply txn_value_put2 in Hv. simpl in *.
  rewrite Forall_cons, Forall_singleton in Hcmp. destruct Hcmp as [H1 H2]. unfold compare_holds in H1, H2.
  simpl in H1, H2. split; [done|]. split; [done|]. split; [by apply live_ownership|].
  split; [apply Hrev; by left|]. split; [done|]. do 2 eexists. split; [exact Hv|]. done.
Qed.

Lemma register_moved rid t client_id sequence p lease tick s :
  store_inv s → 0 ≤ tick ≤ u64_max →
  mwp (transaction (with_lease_tick tick (registration rid (table_prefix_of t)
      (reader_name client_id sequence) (sp_snapshot_id p) (pointer_bytes p) lease))) s
    (λ r s', moved (if tr_succeeded r
                    then mv_register t client_id sequence (lr_id lease) (lr_fencing_token lease)
                           (sp_snapshot_id p)
                    else mv_quiet) tick s s') (λ _ s', s' = s).
Proof.
  intros Hinv Htick. eapply mwp_mono; [by apply guarded_transaction| |done].
  intros r s' (Hinv' & Hl & Hr & Hh & Hc). destruct (tr_succeeded r); split; try done.
  destruct Hc as ([Hcmp Hown] & Hv & _). apply txn_value_put in Hv. simpl in *.
  rewrite Forall_singleton in Hcmp. unfold compare_holds in Hcmp. simpl in Hcmp.
  split; [by apply live_ownership|]. split.
  - assert (default [] (kv_value <$> values_ s !! table_key t (snapshot_item (sp_snapshot_id p)))
      = pointer_bytes p) as Heq by exact Hcmp.
    by destruct (values_ s !! table_key t (snapshot_item (sp_snapshot_id p))).
  - eexists. split; [exact Hv|done].
Qed.

Lemma contains_exact (key : ByteSequence) k : contains_key (mkKeyRange key (exact_key_end key)) k = true ↔ k = key.
Proof. rewrite contains_key_spec. apply exact_key_end_range. Qed.

Lemma txn_value_delete rev values (key : ByteSequence) :
  ∀ values', (∀ k, values' !! k = txn_value rev values [delete_request key] k) →
  values' = delete key values.
Proof.
  intros values' Hv. apply map_eq. intros k. rewrite Hv. simpl.
  destruct (contains_key _ k) eqn:E.
  - apply contains_exact in E as ->. by rewrite lookup_delete_eq.
  - rewrite lookup_delete_ne; [done|]. intros <-. apply not_true_iff_false in E.
    by rewrite contains_exact in E.
Qed.

(** What [collect_snapshot_if_unreferenced] does: nothing, or it removes a
    snapshot that is neither current nor read. *)
Lemma collect_moved t reader_end id b :
  backend_ok b → table_ok t →
  prefix_range_end (bytes (table_prefix_of t +:+ "readers/")) = Some reader_end →
  mwp (collect_snapshot_if_unreferenced (bytes (table_prefix_of t +:+ "current"))
      (bytes (table_prefix_of t +:+ "snapshots/" +:+ id))
      (bytes (table_prefix_of t +:+ "readers/")) reader_end id) b
    (λ _ b', bk_tick b' = bk_tick b ∧ ∃ m, m ∈ [mv_quiet; mv_collect t id] ∧
       moved m (bk_tick b) (bk_store b) (bk_store b'))
    (λ _ b', bk_tick b' = bk_tick b ∧ bk_store b' = bk_store b).
Proof.
  intros [Hinv Htick] Ht Hend.
  change (bytes (table_prefix_of t +:+ "current")) with (table_key t current_item).
  change (bytes (table_prefix_of t +:+ "snapshots/" +:+ id)) with (table_key t (snapshot_item id)).
  unfold collect_snapshot_if_unreferenced. mstep.
  eapply mwp_mono; [apply mwp_on_store, get_ok| |by intros e b1 [[[-> _] _] ->]].
  intros current b1 [(Hs1 & -> & _) Hb1]. rewrite <-Hs1 in *. rewrite <-Hb1 in *. clear b Hs1 Hb1.
  cbn [sr_value]. mstep.
  eapply (mwp_mono _ _ (λ is_current b', b' = b1 ∧ (is_current = false → ∀ v p,
    values_ (bk_store b1) !! table_key t current_item = Some v →
    decode_pointer (kv_value v) = Ret p → sp_snapshot_id p ≠ id)) _ (λ _ b', b' = b1));
    [|intros is_current b2 [-> Hcur]|by intros e b2 ->].
  { destruct (values_ (bk_store b1) !! table_key t current_item) as [v|]; [|by mstep].
    mstep. mstep. destruct (decode_pointer (kv_value v)) as [p|e] eqn:Hd; simpl; [|done]. mstep.
    split; [done|]. intros Hne%bool_decide_eq_false v' p' [= <-] Hp'. congruence. }
  assert (∃ m, m ∈ [mv_quiet; mv_collect t id] ∧
    moved m (bk_tick b1) (bk_store b1) (bk_store b1)) as Hnothing.
  { exists mv_quiet. split; [by left|by apply moved_refl]. }
  destruct is_current; [mstep; done|]. mstep.
  eapply mwp_mono; [apply mwp_on_store, range_ok| |by intros e b2 [[[-> _] _] ->]].
  intros readers b2 [[Hs2 ->] Hb2]. cbn [rr_values].
  destruct (existsb _ _) eqn:Hex; [mstep; rewrite Hs2; done|]. mstep.
  assert (∀ client_id sequence v, 0 ≤ client_id →
    values_ (bk_store b1) !! table_key t (reader_item client_id sequence) = Some v →
    to_string (kv_value v) ≠ id) as Hread.
  { intros client_id sequence v Hc Hv <-. apply not_true_iff_false in Hex. apply Hex, existsb_exists.
    exists v. rewrite bool_decide_true by done. split; [|done]. apply list_elem_of_In.
    apply (list_elem_of_fmap_2 snd _ (table_key t (reader_item client_id sequence), v)).
    apply elem_of_scan. split; [done|]. by eapply (reader_range t); eauto. }
  eapply mwp_mono; [apply mwp_on_store, get_ok| |by intros e b3 [[[-> _] _] ->]].
  intros snapshot b3 [(Hs3 & -> & _) Hb3]. cbn [sr_value]. rewrite Hs2, Hb2 in *.
  destruct (values_ (bk_store b1) !! table_key t (snapshot_item id)) as [v|]; [|mstep; by rewrite Hs3].
  unfold next_backend_request. mgo. cbn [bk_tick bk_store].
  eapply mwp_mono; [apply mwp_on_store, guarded_transaction; simpl; try done; [by rewrite Hs3|by rewrite Hb3]| |].
  - intros r b4 [(Hi & Hl & Hr & _ & Hc) Hb4]. mstep. simpl in *. rewrite Hb3 in *. rewrite Hs3 in *.
    split; [done|]. destruct (tr_succeeded r).
    + exists (mv_collect t id). split; [by right; left|]. split; try done.
      split; [by apply Hcur|]. split; [done|]. destruct Hc as (_ & Hv & _). by apply (txn_value_delete 0).
    + exists mv_quiet. split; [by left|]. by split.
  - intros e b4 [-> Hb4]. simpl in *. by rewrite Hb4, Hb3, Hs3.
Qed.

(** ** Every call *)

(** [b'] follows [b] by the move [m]. *)
Record backend_moved (m : move) (b b' : Backend) : Prop := {
  bm_tick : bk_tick b' = bk_tick b;
  bm_store : moved m (bk_tick b) (bk_store b) (bk_store b') }.

Lemma backend_same b b' :
  backend_ok b → bk_tick b' = bk_tick b → bk_store b' = bk_store b → backend_moved mv_quiet b b'.
Proof. intros [Hinv _] Ht Hs. split; [done|]. rewrite Hs. by apply moved_refl. Qed.

Lemma on_store_moved {A} (m : M Store A) b (Q : A → move → Prop) :
  backend_ok b →
  mwp m (bk_store b) (λ a s', ∃ mv, Q a mv ∧ moved mv (bk_tick b) (bk_store b) s')
    (λ _ s', s' = bk_store b) →
  mwp (on_store m) b (λ a b', ∃ mv, Q a mv ∧ backend_moved mv b b')
    (λ _ b', backend_moved mv_quiet b b').
Proof.
  intros Hok Hm. eapply mwp_mono; [by apply mwp_on_store|..]; simpl.
  - intros a b' [(mv & HQ & Hmv) Ht]. by exists mv.
  - intros _ b' [Hs Ht]. by apply backend_same.
Qed.

(** Drawing a request number changes neither the store nor the tick. *)
Lemma next_backend_request_moved {A} (k : RequestId → Backend → M Backend A) b Q E :
  (∀ rid n, mwp (k rid (mkBackend (bk_store b) (bk_tick b) n)) (mkBackend (bk_store b) (bk_tick b) n) Q E) →
  mwp (rid ← next_backend_request; b' ← get_state; k rid b') b Q E.
Proof. intros Hk. unfold next_backend_request. mgo. apply Hk. Qed.

Section calls.
Context (j lo : Z).

(** Only a transaction with two operations publishes. *)
Definition is_publication (c : backend_call) : bool :=
  match c with b_transaction q => (length (tx_success q) =? 2)%nat | _ => false end.

Definition is_publish (m : move) : bool := match m with mv_publish _ _ _ _ _ => true | _ => false end.

Definition call_move (c : backend_call) (m : move) : Prop :=
  from_client j lo m ∧ (is_publish m = true → is_publication c = true).

Definition call_spec (c : backend_call) (b : Backend) : Prop :=
  mwp (handle c) b (λ _ b', ∃ m, call_move c m ∧ backend_moved m b b')
    (λ _ b', backend_moved mv_quiet b b').

Lemma on_store_spec {A} c (m : M Store A) b :
  backend_ok b →
  mwp m (bk_store b) (λ _ s', ∃ mv, call_move c mv ∧ moved mv (bk_tick b) (bk_store b) s')
    (λ _ s', s' = bk_store b) →
  mwp (on_store m) b (λ _ b', ∃ mv, call_move c mv ∧ backend_moved mv b b')
    (λ _ b', backend_moved mv_quiet b b').
Proof. apply (on_store_moved m b (λ _, call_move c)). Qed.

(** Calls that leave the values alone. *)
Lemma quiet_spec {A} c (m : M Store A) b (Q : A → Store → Prop) E :
  backend_ok b → mwp m (bk_store b) Q E →
  (∀ a s', Q a s' → store_inv s' ∧ effect (bk_store b) None s') →
  (∀ e s', E e s' → s' = bk_store b) →
  mwp (on_store m) b (λ _ b', ∃ mv, call_move c mv ∧ backend_moved mv b b')
    (λ _ b', backend_moved mv_quiet b b').
Proof.
  intros Hok Hm HQ HE. apply on_store_spec; [done|]. eapply mwp_mono; [exact Hm| |exact HE].
  intros a s' Ha. exists mv_quiet. split; [done|]. destruct (HQ _ _ Ha). by apply moved_quiet.
Qed.

Lemma lease_spec id token b :
  backend_ok b → call_spec (b_keep_alive id token) b ∧ call_spec (b_revoke_lease id token) b.
Proof.
  intros Hok. pose proof Hok as [Hinv Htick]. split; unfold call_spec, handle, in_process_handler, in_process.
  - do 2 mstep. eapply quiet_spec; [done|by apply keep_alive_ok|by intros a s' [[] _ _]|].
    by intros e s' [[-> _] _].
  - apply next_backend_request_moved. intros rid n. set (b1 := mkBackend _ _ _).
    assert (∀ m b', backend_moved m b1 b' → backend_moved m b b') as Hb1 by by intros m b' [].
    eapply mwp_mono; [apply (on_store_spec (b_revoke_lease id token) _ b1); [done|]| |].
    + eapply mwp_mono; [by apply revoke_lease_ok|simpl|by intros e s' [-> _]].
      intros r s' [_ Hpost]. destruct (leases_ (bk_store b) !! id) as [l|] eqn:Hl.
      * destruct (decide _).
        { exists (mv_cleanup [id]). split; [done|]. eapply moved_cleanup; [done| |exact Hpost].
          by intros id' ->%list_elem_of_singleton; eexists. }
        destruct Hpost as (_ & [] & _). exists mv_quiet. split; [done|by apply moved_quiet].
      * destruct Hpost as (_ & [] & _). exists mv_quiet. split; [done|by apply moved_quiet].
    + simpl. intros r b' (m & Hm & Hmv). eauto.
    + simpl. intros e b'. apply Hb1.
Qed.

Lemma transaction_spec q b :
  backend_ok b →
  mwp (transaction (with_lease_tick (bk_tick b) q)) (bk_store b)
    (λ _ s', ∃ mv, call_move (b_transaction q) mv ∧ moved mv (bk_tick b) (bk_store b) s')
    (λ _ s', s' = bk_store b) →
  call_spec (b_transaction q) b.
Proof. intros Hok Hm. unfold call_spec, handle, in_process_handler, in_process. do 2 mstep. by apply on_store_spec. Qed.

Lemma handle_moved c b : backend_ok b → made_by j lo c → call_spec c b.
Proof.
  intros Hok Hc. pose proof Hok as [Hinv Htick].
  assert (∀ c, ∃ m, call_move c m ∧ backend_moved m b b) as Hsame.
  { intros c'. exists mv_quiet. split; [done|]. by apply backend_same. }
  destruct Hc as [|key|start_ end_|ttl Httl|id token|id token|q|id|id| |rid t lease Ht|
    rid guard t expected p Ht Hp|rid t sequence p lease Ht Hp Hseq|t reader_end id Ht Hid Hend];
    try (by apply lease_spec); unfold call_spec; try (unfold handle, in_process_handler, in_process; mgo; by apply Hsame).
  - eapply quiet_spec; [done|apply get_ok|..]; simpl.
    + intros a s' (-> & _). split; [done|]. by apply step_ok_refl.
    + by intros e s' [[-> _] _].
  - eapply quiet_spec; [done|apply range_ok|..]; simpl.
    + intros a s' (-> & _). split; [done|]. by apply step_ok_refl.
    + by intros e s' [[-> _] _].
  - unfold handle, in_process_handler, in_process. apply next_backend_request_moved. intros rid n.
    set (b1 := mkBackend _ _ _).
    assert (∀ m b', backend_moved m b1 b' → backend_moved m b b') as Hb1 by by intros m b' [].
    eapply mwp_mono; [apply (quiet_spec (b_grant_lease ttl) _ b1
      (grant_post (mkGrant rid 0 ttl (bk_tick b)) (bk_store b)) (clean_throw (bk_store b)))| |].
    + done.
    + apply grant_lease_ok; simpl; [done|lia|done].
    + by intros a s' [[] _ _ _ _ _].
    + by intros e s' [-> _].
    + simpl. intros r b' (m & Hm & Hmv). eauto.
    + simpl. intros e b'. apply Hb1.
  - eapply quiet_spec; [done|by apply create_watch_ok| |by intros e s' [-> _]].
    intros a s' [Hi _ _ Hst _]. split; [done|]. rewrite Hst. apply set_watchers_effect.
  - eapply quiet_spec; [done|by apply poll_watch_ok|by intros a s' []|by intros e s' [-> _]].
  - unfold handle, in_process_handler, in_process, mwp. simpl.
    pose proof (quiet_spec (b_cancel_watch id) (cancel_watch id) b _ _ Hok (cancel_watch_ok id (bk_store b) Hinv)) as Hq.
    assert (mwp (on_store (cancel_watch id)) b
      (λ _ b', ∃ mv, call_move (b_cancel_watch id) mv ∧ backend_moved mv b b')
      (λ _ b', backend_moved mv_quiet b b')) as Hw by (apply Hq; [naive_solver|by intros e s' [-> _]]).
    unfold mwp in Hw. destruct (on_store (cancel_watch id) b) as [[a|e] b']; simpl; [done|].
    by exists mv_quiet.
  - apply transaction_spec; [done|]. eapply mwp_mono; [by apply claim_moved| |done].
    intros r s' Hm. eexists. split; [|exact Hm]. by destruct (tr_succeeded r).
  - apply transaction_spec; [done|]. eapply mwp_mono; [by apply publish_moved| |done].
    intros r s' [_ Hm]. eexists. split; [|exact Hm]. by destruct (tr_succeeded r).
  - apply transaction_spec; [done|]. eapply mwp_mono; [by apply register_moved| |done].
    intros r s' Hm. eexists. split; [|exact Hm]. by destruct (tr_succeeded r).
  - unfold handle, in_process_handler, in_process. eapply mwp_mono; [by apply (collect_moved t)|..]; simpl.
    + intros a b' (Htk & m & Hin & Hm). exists m. split; [|done].
      apply elem_of_cons in Hin as [->|Hin%list_elem_of_singleton]; [done|]. by subst m.
    + intros e b' [Htk Hs]. by apply backend_same.
Qed.

End calls.
