(* ===== verification/KuraInv.v ===== *)
(** * What holds of the store under any client calls

    The current pointer of a table and every registered reader name a stored
    snapshot ([layout_ok]); a key that a lease of a session holds stays as it was
    while that lease lives ([attached]).  Both are kept by every move, whoever
    makes it. *)

From S2P Require Import Prelude OrdMap Bytes StoreTypes Store StoreInv StoreTxn StoreOps StoreLease.
From S2P Require Import Text KuraPointer KuraClient KuraMoves.
#[local] Open Scope Z_scope.
#[local] Set Warnings "-clear-no-such-hyp".

#[export] Instance item_eq_dec : EqDecision item.
Proof. solve_decision. Defined.

(** ** Definitions *)

Record layout_ok (values : gmap ByteSequence KeyValue) : Prop := {
  lay_current : ∀ t v, table_ok t → values !! table_key t current_item = Some v →
    kv_lease_id v = 0 ∧ ∃ p, decode_pointer (kv_value v) = Ret p ∧
      is_Some (values !! table_key t (snapshot_item (sp_snapshot_id p)));
  lay_snapshot : ∀ t id v, table_ok t → values !! table_key t (snapshot_item id) = Some v →
    kv_lease_id v = 0;
  lay_reader : ∀ t client_id sequence v, table_ok t → 0 ≤ client_id →
    values !! table_key t (reader_item client_id sequence) = Some v →
    is_Some (values !! table_key t (snapshot_item (to_string (kv_value v)))) }.

(** The lease is stored with the token. *)
Definition holds (lease token : Z) (s : Store) : Prop :=
  ∃ l, leases_ s !! lease = Some l ∧ sl_fencing_token l = token.

(** While the lease lives, the item is stored, attached to it, with a value that
    satisfies [P]. *)
Definition attached (t : table) (i : item) (lease token : Z) (P : KeyValue → Prop) (s : Store) : Prop :=
  token < next_fencing_token_ s ∧
  (holds lease token s → ∃ v, values_ s !! table_key t i = Some v ∧ kv_lease_id v = lease ∧ P v).

(** The items a move writes. *)
Definition move_writes (m : move) (t : table) (i : item) : Prop :=
  match m with
  | mv_quiet | mv_cleanup _ => False
  | mv_claim t' _ _ => t = t' ∧ i = writer_item
  | mv_publish t' _ _ _ p => t = t' ∧ (i = current_item ∨ i = snapshot_item (sp_snapshot_id p))
  | mv_register t' client_id sequence _ _ _ => t = t' ∧ i = reader_item client_id sequence
  | mv_collect t' id => t = t' ∧ i = snapshot_item id
  end.

(** ** Lookups *)

Lemma lookup_item (t1 : table) (i1 : item) (t2 : table) (i2 : item) (v : KeyValue) (values : gmap ByteSequence KeyValue) :
  table_ok t1 → table_ok t2 → item_ok i1 → item_ok i2 →
  <[table_key t1 i1 := v]> values !! table_key t2 i2
  = if decide (t1 = t2 ∧ i1 = i2) then Some v else values !! table_key t2 i2.
Proof.
  intros Ht1 Ht2 Hi1 Hi2. destruct (decide _) as [[<- <-]|Hne]; [apply lookup_insert_eq|].
  apply lookup_insert_ne. intros Heq. by apply table_key_inj in Heq.
Qed.

Lemma lookup_delete_item (t1 : table) (i1 : item) (t2 : table) (i2 : item) (values : gmap ByteSequence KeyValue) :
  table_ok t1 → table_ok t2 → item_ok i1 → item_ok i2 →
  delete (table_key t1 i1) values !! table_key t2 i2
  = if decide (t1 = t2 ∧ i1 = i2) then None else values !! table_key t2 i2.
Proof.
  intros Ht1 Ht2 Hi1 Hi2. destruct (decide _) as [[<- <-]|Hne]; [apply lookup_delete_eq|].
  apply lookup_delete_ne. intros Heq. by apply table_key_inj in Heq.
Qed.

(** ** The layout *)

Section layout.
Context (values : gmap ByteSequence KeyValue) (Hlay : layout_ok values).

Lemma layout_cleanup values' (ids : list Z) :
  (∀ k v, values' !! k = Some v ↔ values !! k = Some v ∧ kv_lease_id v ∉ ids) → 0 ∉ ids →
  layout_ok values'.
Proof.
  intros Hv Hz. destruct Hlay as [Hcur Hsnap Hread].
  assert (∀ t id, table_ok t → is_Some (values !! table_key t (snapshot_item id)) →
    is_Some (values' !! table_key t (snapshot_item id))) as Hkeep.
  { intros t id Ht [v Hv']. exists v. apply Hv. split; [done|]. by rewrite (Hsnap t id v). }
  split.
  - intros t v Ht [Hv' _]%Hv. destruct (Hcur t v Ht Hv') as [? (p & ? & ?)]. eauto 10.
  - intros t id v Ht [Hv' _]%Hv. eauto.
  - intros t c n v Ht Hn [Hv' _]%Hv. eauto.
Qed.

Lemma layout_claim t0 v0 : table_ok t0 → layout_ok (<[table_key t0 writer_item := v0]> values).
Proof.
  intros Ht0. destruct Hlay as [Hcur Hsnap Hread]. split.
  - intros t v Ht. rewrite lookup_item, decide_False by naive_solver. intros Hv.
    destruct (Hcur t v Ht Hv) as [? (p & ? & ?)]. split; [done|]. exists p.
    rewrite lookup_item, decide_False by naive_solver. done.
  - intros t id v Ht. rewrite lookup_item, decide_False by naive_solver. eauto.
  - intros t c n v Ht Hn. rewrite !lookup_item, !decide_False by naive_solver. eauto.
Qed.

Lemma layout_publish t0 p0 v1 v2 :
  table_ok t0 → pointer_valid p0 → kv_value v1 = pointer_bytes p0 → kv_lease_id v1 = 0 →
  kv_lease_id v2 = 0 →
  layout_ok (<[table_key t0 current_item := v1]>
    (<[table_key t0 (snapshot_item (sp_snapshot_id p0)) := v2]> values)).
Proof.
  intros Ht0 Hp0 Hval L1 L2. destruct Hlay as [Hcur Hsnap Hread]. set (values' := <[_ := v1]> _).
  assert (∀ t id, table_ok t → is_Some (values !! table_key t (snapshot_item id)) →
    is_Some (values' !! table_key t (snapshot_item id))) as Hkeep.
  { intros t id Ht Hs. unfold values'. rewrite !lookup_item by done.
    rewrite decide_False by naive_solver. by destruct (decide _). }
  split; unfold values'.
  - intros t v Ht. rewrite lookup_item by done. destruct (decide _) as [[<- _]|Hne].
    + intros [= <-]. split; [done|]. exists p0. rewrite Hval. split.
      { apply decode_pointer_Ret. split; [apply Hp0|done]. }
      rewrite !lookup_item, decide_False, decide_True by naive_solver. done.
    + rewrite lookup_item, decide_False by naive_solver. intros Hv.
      destruct (Hcur t v Ht Hv) as [? (p & ? & ?)]. eauto 10.
  - intros t id v Ht. rewrite !lookup_item, decide_False by naive_solver.
    destruct (decide _); [by intros [= <-]|eauto].
  - intros t c n v Ht Hn. rewrite lookup_item, lookup_item, !decide_False by naive_solver. eauto.
Qed.

Lemma layout_register t0 client_id sequence id0 v0 :
  table_ok t0 → 0 ≤ client_id → is_Some (values !! table_key t0 (snapshot_item id0)) →
  kv_value v0 = from_string id0 →
  layout_ok (<[table_key t0 (reader_item client_id sequence) := v0]> values).
Proof.
  intros Ht0 Hc0 Hsome Hval. destruct Hlay as [Hcur Hsnap Hread]. set (values' := <[_ := v0]> _).
  assert (∀ t id, table_ok t → is_Some (values !! table_key t (snapshot_item id)) →
    is_Some (values' !! table_key t (snapshot_item id))) as Hkeep.
  { intros t id Ht Hs. unfold values'. rewrite !lookup_item by done.
    by rewrite decide_False by naive_solver. }
  split; unfold values'.
  - intros t v Ht. rewrite lookup_item, decide_False by naive_solver. intros Hv.
    destruct (Hcur t v Ht Hv) as [? (p & ? & ?)]. eauto 10.
  - intros t id v Ht. rewrite lookup_item, decide_False by naive_solver. eauto.
  - intros t c n v Ht Hn. rewrite lookup_item by done. destruct (decide _) as [[<- _]|_].
    + intros [= <-]. rewrite Hval, to_from_string. auto.
    + eauto.
Qed.

Lemma layout_collect t0 id0 :
  table_ok t0 →
  (∀ v p, values !! table_key t0 current_item = Some v → decode_pointer (kv_value v) = Ret p →
    sp_snapshot_id p ≠ id0) →
  (∀ client_id sequence v, 0 ≤ client_id →
    values !! table_key t0 (reader_item client_id sequence) = Some v → to_string (kv_value v) ≠ id0) →
  layout_ok (delete (table_key t0 (snapshot_item id0)) values).
Proof.
  intros Ht0 Hncur Hnread. destruct Hlay as [Hcur Hsnap Hread]. split.
  - intros t v Ht. rewrite lookup_delete_item, decide_False by naive_solver. intros Hv.
    destruct (Hcur t v Ht Hv) as [? (p & Hp & ?)]. split; [done|]. exists p. split; [done|].
    rewrite lookup_delete_item, decide_False by naive_solver. done.
  - intros t id v Ht. rewrite lookup_delete_item by done. destruct (decide _); [done|eauto].
  - intros t c n v Ht Hn. rewrite lookup_delete_item, decide_False by naive_solver. intros Hv.
    rewrite lookup_delete_item, decide_False; [eauto|naive_solver..].
Qed.

End layout.

(** ** Moves *)

Section moves.
Context (j lo tick : Z) (m : move) (s s' : Store).
Hypothesis (Hj : 0 ≤ j).
Hypothesis (Hfrom : from_client j lo m).
Hypothesis (Hmoved : moved m tick s s').

(** An item that the move does not write is kept, or lost with its lease. *)
Lemma unwritten_item t i :
  table_ok t → item_ok i → ¬ move_writes m t i →
  values_ s' !! table_key t i = values_ s !! table_key t i ∨
  ∃ ids, m = mv_cleanup ids.
Proof.
  intros Ht Hi Hw. destruct Hmoved as [_ _ _ Hc], m; simpl in *.
  - left. by rewrite Hc.
  - eauto.
  - left. destruct Hc as (_ & _ & v & -> & _). rewrite lookup_item by done.
    by rewrite decide_False by naive_solver.
  - left. destruct Hc as (_ & _ & _ & _ & _ & v1 & v2 & -> & _).
    rewrite !lookup_item by done. by rewrite !decide_False by naive_solver.
  - left. destruct Hc as (_ & _ & v & -> & _), Hfrom as (? & -> & _). rewrite lookup_item by done.
    by rewrite decide_False by naive_solver.
  - left. destruct Hc as (_ & _ & ->). rewrite lookup_delete_item by done.
    by rewrite decide_False by naive_solver.
Qed.

Lemma holds_before lease token :
  token < next_fencing_token_ s → holds lease token s' → holds lease token s.
Proof.
  intros Hlt (l' & Hl' & Ht). destruct (md_leases _ _ _ _ Hmoved) as [_ (granted & Hstep)].
  destruct (Hstep _ _ Hl') as [(l & Hl & Heq)|[_ ?]]; [|lia]. exists l. by rewrite Heq.
Qed.

Lemma attached_moved t i lease token P :
  table_ok t → item_ok i → (move_writes m t i → i = writer_item) →
  attached t i lease token P s → attached t i lease token P s'.
Proof.
  intros Ht Hi Hw [Hlt Hatt]. split.
  { destruct (md_leases _ _ _ _ Hmoved) as [? _]. lia. }
  intros Hh. pose proof (holds_before _ _ Hlt Hh) as Hh0.
  destruct (Hatt Hh0) as (v & Hv & Hl & HP). exists v. split; [|done].
  destruct (unwritten_item t i Ht Hi) as [Heq|[ids ->]].
  - intros Hwr. pose proof (Hw Hwr) as ->. destruct m; simpl in Hwr; try naive_solver.
    destruct Hwr as [<- _]. destruct (md_change _ _ _ _ Hmoved) as [Hnone _]. congruence.
  - by rewrite Heq.
  - destruct (md_change _ _ _ _ Hmoved) as (Hval & Hdead & _). apply Hval. split; [done|].
    intros Hin%Hdead. destruct Hh as (l & Hl' & _). congruence.
Qed.

Lemma layout_moved : layout_ok (values_ s) → layout_ok (values_ s').
Proof.
  intros Hlay. destruct Hmoved as [_ _ _ Hc], m; simpl in *.
  - by rewrite Hc.
  - destruct Hc as (Hv & _ & Hz). by eapply layout_cleanup.
  - destruct Hc as (_ & _ & v & -> & _). by apply layout_claim.
  - destruct Hc as (_ & _ & _ & _ & Hp & v1 & v2 & -> & Hval & _ & L1 & L2).
    by apply layout_publish.
  - destruct Hfrom as (Ht & -> & _), Hc as (_ & Hsome & v & -> & _ & Hval). by eapply layout_register.
  - destruct Hc as (Hcur & Hread & ->). by apply layout_collect.
Qed.

End moves.
