(* ===== verification/KuraThreads.v ===== *)
(** * The methods of a client among other clients

    [good j lo Φ p b]: from backend [b] on, whatever other clients do in between,
    the program [p] only makes calls of client [j], and ends in a result of which
    [Φ] holds at that moment.  Every method of [KuraClient] is shown to be good
    for what it promises. *)

From S2P Require Import Prelude OrdMap Bytes StoreTypes Store StoreInv StoreTxn StoreOps StoreLease.
From S2P Require Import Text KuraPointer KuraClient KuraWorld KuraMoves KuraInv.
#[local] Open Scope Z_scope.
#[local] Set Warnings "-clear-no-such-hyp".

(** ** Interference *)

Definition kura_ok (b : Backend) : Prop := backend_ok b ∧ layout_ok (values_ (bk_store b)).

(** A step that is not client [j]'s: a move of another client, of a session or of
    the owner of the store, or the passing of time. *)
Inductive by_others (j : Z) (b b' : Backend) : Prop :=
| bo_move i lo m :
    i ≠ j → 0 ≤ i → from_client i lo m → backend_moved m b b' → by_others j b b'
| bo_time :
    bk_store b' = bk_store b → 0 ≤ bk_tick b' ≤ u64_max → by_others j b b'.

Definition later (j : Z) : relation Backend := rtc (by_others j).

Lemma kura_ok_moved i lo m b b' :
  0 ≤ i → from_client i lo m → kura_ok b → backend_moved m b b' → kura_ok b'.
Proof.
  intros Hi Hf [[Hinv Htick] Hlay] [Ht Hm]. split; [split|].
  - apply Hm.
  - by rewrite Ht.
  - by eapply layout_moved.
Qed.

Lemma by_others_ok j b b' : kura_ok b → by_others j b b' → kura_ok b'.
Proof.
  intros Hok [i lo m _ Hi Hf Hm|Hs Ht]; [by eapply kura_ok_moved|].
  destruct Hok as [[Hinv _] Hlay]. unfold kura_ok, backend_ok. by rewrite Hs.
Qed.

(** A fact that the steps of others keep. *)
Definition stable (j : Z) (P : Backend → Prop) : Prop := ∀ b b', by_others j b b' → P b → P b'.

Lemma attached_stable j t i lease token P :
  table_ok t → item_ok i →
  match i with writer_item => True | reader_item client_id _ => client_id = j | _ => False end →
  stable j (λ b, attached t i lease token P (bk_store b)).
Proof.
  intros Ht Hi Hij b b' [i' lo m Hne Hi' Hf [_ Hm]|Hs _] Hatt; [|by rewrite Hs].
  eapply attached_moved; try done. intros Hw. destruct i as [| |id|c n]; try done.
  subst c. destruct m; simpl in Hw, Hf; naive_solver.
Qed.

(** ** Good programs *)

(** A sleep is answered by the clock. *)
Definition answers (c : backend_call) (b : Backend) (o : outcome (reply c)) (b' : Backend) : Prop :=
  handle c b = (o, b') ∨ (c = b_sleep ∧ b' = b).

Section good.
Context (j lo : Z) (Hj : 0 ≤ j).

Fixpoint good {A} (Φ : outcome A → KuraClient → Backend → Prop) (p : prog (outcome A * KuraClient))
    (b : Backend) : Prop :=
  match p with
  | done (r, kc) => Φ r kc b
  | ask c k => made_by j lo c ∧
      ∀ b1 o b2, later j b b1 → kura_ok b1 → answers c b1 o b2 → good Φ (k o) b2
  end.

Lemma good_later {A} (Φ : outcome A → KuraClient → Backend → Prop) p b b' :
  (∀ r kc, stable j (Φ r kc)) → later j b b' → good Φ p b → good Φ p b'.
Proof.
  intros Hst Hl. destruct p as [[r kc]|c k]; simpl.
  - induction Hl as [|b b1 b' Hs _ IH]; [done|]. intros HΦ. apply IH. by eapply Hst.
  - intros [Hc Hk]. split; [done|]. intros b1 o b2 Hl'. apply Hk. by trans b'.
Qed.

Lemma good_mono {A} (Φ Ψ : outcome A → KuraClient → Backend → Prop) p b :
  (∀ r kc b', Φ r kc b' → Ψ r kc b') → good Φ p b → good Ψ p b.
Proof.
  intros Himp. revert b. induction p as [[r kc]|c k IH]; intros b; simpl; [auto|].
  intros [Hc Hk]. split; [done|]. eauto.
Qed.

(** ** Rules *)

Lemma good_bind {A B} (m : client A) (f : A → client B) kc b
    (Φ : outcome B → KuraClient → Backend → Prop) :
  good (λ r kc' b', match r with Ret a => good Φ (f a kc') b' | Throw e => Φ (Throw e) kc' b' end)
    (m kc) b →
  good Φ ((x ← m; f x) kc) b.
Proof.
  change ((x ← m; f x) kc) with (result ← m kc; match result with
    | (Ret a, kc') => f a kc' | (Throw e, kc') => mret (Throw e, kc') end).
  generalize (m kc). intros p. revert b.
  induction p as [[[a|e] kc']|c k IH]; intros b Hp; simpl in *; [done|done|].
  destruct Hp as [Hc Hk]. split; [done|]. eauto.
Qed.

Lemma good_attempt {A} (m : client A) kc b (Φ : outcome (outcome A) → KuraClient → Backend → Prop) :
  good (λ r, Φ (Ret r)) (m kc) b → good Φ (attempt m kc) b.
Proof.
  unfold attempt. generalize (m kc). intros p. revert b.
  induction p as [[r kc']|c k IH]; intros b Hp; simpl in *; [done|].
  destruct Hp as [Hc Hk]. split; [done|]. eauto.
Qed.

Lemma good_call c kc b (Φ : outcome (reply c) → KuraClient → Backend → Prop) :
  made_by j lo c → (∀ b1 o b2, kura_ok b1 → answers c b1 o b2 → Φ o kc b2) →
  good Φ (call c kc) b.
Proof. intros Hc HΦ. split; [done|]. intros b1 o b2 _. apply HΦ. Qed.

Lemma good_lift {A} (o : outcome A) kc b (Φ : outcome A → KuraClient → Backend → Prop) :
  Φ o kc b → good Φ (clift o kc) b.
Proof. done. Qed.

Lemma good_throw_when (c : bool) e kc b (Φ : outcome unit → KuraClient → Backend → Prop) :
  (c = true → Φ (Throw e) kc b) → (c = false → Φ (Ret tt) kc b) → good Φ (cthrow_when c e kc) b.
Proof. destruct c; simpl; auto. Qed.

(** ** The state of the client *)

Record client_ok (kc : KuraClient) : Prop := {
  co_id : kc_client_id kc = j;
  co_sequence : lo ≤ kc_next_sequence kc;
  co_catalog : identifier (kc_catalog_id kc) }.

Lemma good_table_prefix table kc b (Φ : outcome string → KuraClient → Backend → Prop) :
  client_ok kc → (∀ e, Φ (Throw e) kc b) →
  (table_ok (mkTable (kc_catalog_id kc) table) →
    Φ (Ret (table_prefix_of (mkTable (kc_catalog_id kc) table))) kc b) →
  good Φ (table_prefix table kc) b.
Proof.
  intros Hkc Hthrow Hret. unfold table_prefix. simpl.
  destruct (validate_identifier table "table ID") as [[]|e] eqn:Hv; simpl; [|done].
  apply validate_identifier_Ret in Hv. rewrite prefix_of_table_eq. apply Hret.
  split; [apply Hkc|done].
Qed.

Definition advanced (kc : KuraClient) : KuraClient :=
  mkClient (kc_catalog_id kc) (kc_client_id kc) (kc_next_sequence kc + 1) (kc_next_watch_id kc).

Lemma good_client_id kc b (Φ : outcome Z → KuraClient → Backend → Prop) :
  Φ (Ret (kc_client_id kc)) kc b → good Φ (client_id kc) b.
Proof. done. Qed.

Lemma good_take_sequence kc b (Φ : outcome Z → KuraClient → Backend → Prop) :
  0 ≤ kc_next_sequence kc < u64_max → Φ (Ret (kc_next_sequence kc)) (advanced kc) b →
  good Φ (take_sequence kc) b.
Proof. intros Hn HΦ. unfold take_sequence. simpl. by rewrite u64_small by lia. Qed.

Lemma good_next_request_id kc b (Φ : outcome RequestId → KuraClient → Backend → Prop) :
  0 ≤ kc_next_sequence kc < u64_max →
  Φ (Ret (mkRequestId (kc_client_id kc) (kc_next_sequence kc))) (advanced kc) b →
  good Φ (next_request_id kc) b.
Proof. intros Hn HΦ. unfold next_request_id. simpl. by rewrite u64_small by lia. Qed.

Lemma client_ok_advanced kc : client_ok kc → client_ok (advanced kc).
Proof. intros []. split; simpl; try done. lia. Qed.

(** ** Methods that only keep the client *)

Definition keeps {A} (m : client A) : Prop :=
  ∀ kc b, client_ok kc → good (λ _ kc' _, client_ok kc') (m kc) b.

Lemma keeps_bind {A B} (m : client A) (f : A → client B) :
  keeps m → (∀ a, keeps (f a)) → keeps (x ← m; f x).
Proof.
  intros Hm Hf kc b Hkc. apply good_bind. eapply good_mono; [|by apply Hm].
  intros [a|e] kc' b' Hkc'; [by apply Hf|done].
Qed.

Lemma keeps_lift {A} (o : outcome A) : keeps (clift o).
Proof. by intros kc b. Qed.

Lemma keeps_ret {A} (a : A) : keeps (mret a).
Proof. by intros kc b. Qed.

Lemma keeps_throw {A} e : keeps (cthrow (A := A) e).
Proof. by intros kc b. Qed.

Lemma keeps_call c : made_by j lo c → keeps (call c).
Proof. intros Hc kc b Hkc. by apply good_call. Qed.

Lemma keeps_attempt {A} (m : client A) : keeps m → keeps (attempt m).
Proof. intros Hm kc b Hkc. apply good_attempt. by apply Hm. Qed.

Lemma keeps_table_prefix table : keeps (table_prefix table).
Proof. intros kc b Hkc. by apply good_table_prefix. Qed.

Lemma keeps_take_watch_id : keeps take_watch_id.
Proof. intros kc b []. by split. Qed.

#[local] Hint Resolve keeps_lift keeps_ret keeps_throw keeps_table_prefix keeps_take_watch_id : kura.
#[local] Hint Extern 2 (keeps (call _)) => apply keeps_call; constructor : kura.
#[local] Hint Extern 2 (keeps (cthrow_when _ _)) => apply keeps_lift : kura.

Ltac keep :=
  repeat first
    [ progress auto with kura
    | apply keeps_bind; [|intros ?]
    | apply keeps_attempt
    | match goal with |- keeps (match ?x with _ => _ end) => destruct x end ].

Lemma current_snapshot_keeps table : keeps (current_snapshot table).
Proof. unfold current_snapshot. keep. Qed.
#[local] Hint Resolve current_snapshot_keeps : kura.

Lemma resynchronize_keeps table : keeps (resynchronize table).
Proof. unfold resynchronize. keep. Qed.
#[local] Hint Resolve resynchronize_keeps : kura.

Lemma poll_loop_keeps remaining table watch_id : keeps (poll_loop remaining table watch_id).
Proof. induction remaining as [|n IH]; simpl; keep. Qed.
#[local] Hint Resolve poll_loop_keeps : kura.

Lemma await_snapshot_change_keeps table from timeout : keeps (await_snapshot_change table from timeout).
Proof. unfold await_snapshot_change, finally. keep. Qed.

(** ** The other methods *)

Lemma collect_snapshot_good table id kc b :
  client_ok kc → good (λ _ kc' _, client_ok kc') (collect_snapshot table id kc) b.
Proof.
  intros Hkc. unfold collect_snapshot. apply good_bind, good_lift.
  destruct (validate_identifier id "snapshot ID") as [[]|e] eqn:Hid; [|done].
  apply validate_identifier_Ret in Hid. apply good_bind, good_table_prefix; [done..|]. intros Ht.
  cbv zeta. destruct (prefix_range_end _) as [reader_end|] eqn:Hend; [|done].
  apply good_call; [by constructor|done].
Qed.

Lemma publish_snapshot_good guard expected pointer kc b :
  client_ok kc → 0 ≤ kc_next_sequence kc < u64_max →
  operation_ok (op_publish guard expected pointer) →
  good (λ _ kc' _, client_ok kc') (publish_snapshot guard expected pointer kc) b.
Proof.
  intros Hkc Hn Hop. unfold publish_snapshot. destruct guard as [w|]; [|done].
  destruct Hop as (t & Ht & Hprefix). apply good_bind, good_throw_when; [done|]. intros _.
  apply good_bind, good_lift. destruct (encode_pointer pointer) as [encoded|e] eqn:Henc; [|done].
  apply encode_pointer_Ret in Henc as [Hvalid ->]. cbv zeta. rewrite Hprefix.
  apply good_bind, good_next_request_id; [done|].
  generalize (mkRequestId (kc_client_id kc) (kc_next_sequence kc)). intros rid.
  match goal with |- good _ (?m (advanced kc)) b => assert (keeps m) as Hm end.
  { unfold submit_publication. keep. }
  by apply Hm, client_ok_advanced.
Qed.

Lemma transaction_handled q b o b' (Q : TransactionResult → Store → Prop) E :
  answers (b_transaction q) b o b' →
  mwp (transaction (with_lease_tick (bk_tick b) q)) (bk_store b) Q E →
  match o with Ret r => Q r (bk_store b') | Throw e => E e (bk_store b') end.
Proof.
  intros [Hh|[? _]] Hm; [|done].
  assert (mwp (handle (b_transaction q)) b (λ r b', Q r (bk_store b')) (λ e b', E e (bk_store b')))
    as Hw by (unfold handle, in_process_handler, in_process; do 2 mstep;
      eapply mwp_mono; [by apply mwp_on_store|naive_solver..]).
  unfold mwp in Hw. rewrite Hh in Hw. done.
Qed.

(** After a move that stores an item under a live lease, the item is attached. *)
Lemma attached_intro m tick s s' t i lease token v (P : KeyValue → Prop) :
  store_inv s → moved m tick s s' → live_at lease token tick s →
  values_ s' = <[table_key t i := v]> (values_ s) → kv_lease_id v = lease → P v →
  attached t i lease token P s'.
Proof.
  intros Hinv Hm (l & Hl & Ht & _) Hv Hlease HP. split.
  - destruct (inv_leases _ Hinv _ _ Hl), (md_leases _ _ _ _ Hm) as [? _]. lia.
  - intros _. exists v. by rewrite Hv, lookup_insert_eq.
Qed.

(** A guard [acquire_writer] returned holds the writer key while its lease lives. *)
Definition writer_post (table_id : string) (r : outcome WriterGuard) (kc : KuraClient)
    (b : Backend) : Prop :=
  client_ok kc ∧ ∀ w, r = Ret (Some w) →
    let t := mkTable (kc_catalog_id kc) table_id in
    table_ok t ∧ wg_table_prefix w = table_prefix_of t ∧
    attached t writer_item (ls_id (wg_lease w)) (ls_token (wg_lease w)) (λ _, True) (bk_store b).

Lemma writer_post_throw table e kc b : client_ok kc → writer_post table (Throw e) kc b.
Proof. done. Qed.
#[local] Hint Resolve writer_post_throw : kura.

Lemma acquire_writer_good table ttl kc b :
  client_ok kc → 0 ≤ kc_next_sequence kc < u64_max → ttl ≤ i64_max →
  good (writer_post table) (acquire_writer table ttl kc) b.
Proof.
  intros Hkc Hn Httl. unfold acquire_writer.
  apply good_bind, good_throw_when; [done|]. intros Hpos.
  apply good_bind, good_table_prefix; [done..|]. intros Ht.
  apply good_bind, good_call; [constructor|]. intros b1 [current|e] b2 Hok _; [|done].
  apply good_bind, good_call; [constructor; lia|]. intros b3 [granted|e] b4 Hok3 _; [|done].
  cbv zeta. apply good_bind, good_next_request_id; [done|].
  apply good_bind, good_call; [by constructor|]. intros b5 [claim|e] b6 Hok5 Ha;
    [|by apply writer_post_throw, client_ok_advanced].
  destruct Hok5 as [[Hinv Htick] _]. eapply transaction_handled in Ha; [|by apply claim_moved].
  simpl in claim, Ha. destruct (tr_succeeded claim); simpl.
  - split; [by apply client_ok_advanced|]. intros w [= <-]. simpl. split; [done|]. split; [done|].
    destruct (md_change _ _ _ _ Ha) as (_ & Hlive & v & Hv & Hl). by eapply attached_intro.
  - split; [constructor|]. intros b7 o b8 _ _ _.
    destruct o; by apply writer_post_throw, client_ok_advanced.
Qed.

(** A guard [register_reader] returned holds its reader key while its lease lives. *)
Definition reader_post (table_id : string) (snapshot : SnapshotPointer) (r : outcome ReaderGuard)
    (kc : KuraClient) (b : Backend) : Prop :=
  client_ok kc ∧ ∀ g, r = Ret (Some g) →
    let t := mkTable (kc_catalog_id kc) table_id in
    table_ok t ∧ pointer_valid snapshot ∧ ∃ sequence, lo ≤ sequence < kc_next_sequence kc ∧
    rg_reader_id g = reader_name j sequence ∧
    attached t (reader_item j sequence) (ls_id (rg_lease g)) (ls_token (rg_lease g))
      (λ v, to_string (kv_value v) = sp_snapshot_id snapshot) (bk_store b).

Lemma register_reader_good table snapshot ttl kc b :
  client_ok kc → 0 ≤ kc_next_sequence kc → counters_left kc → ttl ≤ i64_max →
  good (reader_post table snapshot) (register_reader table snapshot ttl kc) b.
Proof.
  intros Hkc Hn Hleft Httl. unfold counters_left in Hleft. unfold register_reader.
  apply good_bind, good_throw_when; [done|]. intros Hpos.
  apply good_bind, good_lift. destruct (encode_pointer snapshot) as [encoded|e] eqn:Henc; [|done].
  apply encode_pointer_Ret in Henc as [Hvalid ->].
  apply good_bind, good_table_prefix; [done..|]. intros Ht.
  apply good_bind, good_call; [constructor; lia|]. intros b1 [granted|e] b2 Hok1 _; [|done].
  cbv zeta. apply good_bind, good_client_id.
  apply good_bind, good_take_sequence; [lia|].
  apply good_bind, good_next_request_id; [simpl; lia|].
  assert (client_ok (advanced (advanced kc))) as Hkc2 by by repeat apply client_ok_advanced.
  pose proof (co_id _ Hkc) as Hid. pose proof (co_sequence _ Hkc) as Hlo. rewrite Hid.
  apply good_bind, good_call; [by constructor|]. intros b3 [registered|e] b4 Hok3 Ha; [|done].
  destruct Hok3 as [[Hinv Htick] _]. eapply transaction_handled in Ha; [|by apply register_moved].
  simpl in registered, Ha. destruct (tr_succeeded registered); simpl.
  - split; [done|]. intros g [= <-]. simpl. split; [done|]. split; [done|].
    exists (kc_next_sequence kc).
    split; [lia|]. split; [done|].
    destruct (md_change _ _ _ _ Ha) as (Hlive & _ & v & Hv & Hl & Hval).
    eapply attached_intro; try done. by rewrite Hval, to_from_string.
  - split; [constructor|]. intros b5 o b6 _ _ _. by destruct o.
Qed.

(** ** Every operation *)

Definition operation_post (op : operation) (r : outcome result) (kc : KuraClient) (b : Backend)
    : Prop :=
  client_ok kc ∧
  match op with
  | op_acquire table _ => ∀ w, r = Ret (res_writer (Some w)) → writer_post table (Ret (Some w)) kc b
  | op_register table snapshot _ =>
      ∀ g, r = Ret (res_reader (Some g)) → reader_post table snapshot (Ret (Some g)) kc b
  | _ => True
  end.

Lemma perform_good op kc b :
  client_ok kc → 0 ≤ kc_next_sequence kc → counters_left kc → operation_ok op →
  good (operation_post op) (perform op kc) b.
Proof.
  intros Hkc Hn Hleft Hop. unfold counters_left in Hleft. destruct op; apply good_bind.
  - eapply good_mono; [|apply acquire_writer_good; [done|lia|done]].
    intros [g|e] kc' b' [Hkc' Hpost]; (split; [done|]); intros w [= ->]. by split.
  - eapply good_mono; [|apply publish_snapshot_good; [done|lia|done]]. by intros [] kc' b'.
  - eapply good_mono; [|by apply register_reader_good].
    intros [g|e] kc' b' [Hkc' Hpost]; (split; [done|]); intros w [= ->]. by split.
  - eapply good_mono; [|by apply await_snapshot_change_keeps]. by intros [] kc' b'.
  - eapply good_mono; [|by apply collect_snapshot_good]. by intros [] kc' b'.
  - eapply good_mono; [|by apply current_snapshot_keeps]. by intros [] kc' b'.
Qed.

Lemma operation_post_stable op r kc : stable j (operation_post op r kc).
Proof.
  intros b b' Hb [Hkc Hop]. split; [done|]. destruct op; try done.
  - intros w Hr. destruct (Hop w Hr) as [_ Hw]. split; [done|]. intros w' [= <-].
    destruct (Hw w eq_refl) as (Ht & Hp & Hatt). split; [done|]. split; [done|].
    revert Hatt. by apply (attached_stable j).
  - intros g Hr. destruct (Hop g Hr) as [_ Hg]. split; [done|]. intros g' [= <-].
    destruct (Hg g eq_refl) as (Ht & Hv & n & Hn & Hid & Hatt). split; [done|].
    split; [done|]. exists n.
    split; [done|]. split; [done|]. revert Hatt. by apply (attached_stable j).
Qed.
End good.
