(* ===== verification/KuraProps.v ===== *)
(** * Properties of clients that share a backend

    The invariant of a world of clients, and what follows from it: a registered
    reader protects its snapshot, a table has one writer, and the publications of
    a table form a chain. *)

From S2P Require Import Prelude OrdMap Bytes StoreTypes Store StoreInv StoreTxn StoreOps StoreLease.
From S2P Require Import StoreSnapshot StoreProps Text KuraPointer KuraClient KuraWorld KuraMoves.
From S2P Require Import KuraInv KuraThreads.
#[local] Open Scope Z_scope.

(** ** The invariant of a world *)

Definition actor_ok (j lo : Z) (a : actor) (b : Backend) : Prop :=
  0 ≤ lo ∧
  match a with
  | idle kc => client_ok j lo kc
  | busy op p => good j lo (operation_post j lo op) p b
  end.

(** What holds of a method that has returned, as long as the client does not use
    sequence numbers below [bound]. *)
Definition returned_ok (j bound : Z) (op : operation) (r : outcome result) (kc : KuraClient)
    (b : Backend) : Prop :=
  match op, r with
  | op_acquire table _, Ret (res_writer (Some w)) =>
      let t := mkTable (kc_catalog_id kc) table in
      table_ok t ∧
      attached t writer_item (ls_id (wg_lease w)) (ls_token (wg_lease w)) (λ _, True) (bk_store b)
  | op_register table snapshot _, Ret (res_reader (Some g)) =>
      let t := mkTable (kc_catalog_id kc) table in
      table_ok t ∧ pointer_valid snapshot ∧ ∃ sequence, sequence < bound ∧
      attached t (reader_item j sequence) (ls_id (rg_lease g)) (ls_token (rg_lease g))
        (λ v, to_string (kv_value v) = sp_snapshot_id snapshot) (bk_store b)
  | _, _ => True
  end.

(** [floor j] bounds the sequence numbers client [j] will use from below. *)
Record world_ok (trace : list label) (floor : Z → Z) (w : World) : Prop := {
  wo_backend : kura_ok (w_backend w);
  wo_next : 1 ≤ w_next_client_id w ≤ u64_max;
  wo_actors : ∀ j a, w_actors w !! j = Some a →
    0 ≤ j < w_next_client_id w ∧ actor_ok j (floor j) a (w_backend w);
  wo_returned : ∀ j op r kc, lab_return j op r kc ∈ trace →
    0 ≤ j < w_next_client_id w ∧ returned_ok j (floor j) op r kc (w_backend w) }.

(** ** Steps of the world *)

(** A call of client [i] with the move it makes. *)
Lemma returned_ok_moved i lo m j bound op r kc b b' :
  0 ≤ i → 0 ≤ j → from_client i lo m → backend_moved m b b' → (i = j → bound ≤ lo) →
  returned_ok j bound op r kc b → returned_ok j bound op r kc b'.
Proof.
  intros Hi Hj Hf [_ Hm] Hlo. unfold returned_ok. destruct op, r as [[]|]; try done.
  - destruct guard as [w|]; [|done]. intros [Ht Hatt]. split; [done|].
    eapply (attached_moved i lo); try done.
  - destruct guard as [g|]; [|done]. intros (Ht & Hv & n & Hn & Hatt).
    split; [done|]. split; [done|]. exists n. split; [done|].
    eapply (attached_moved i lo); try done. intros Hw. destruct m; simpl in Hw, Hf; try naive_solver.
    destruct Hw as [_ [= -> ->]], Hf as (_ & <- & ?). specialize (Hlo eq_refl). lia.
Qed.

Lemma returned_ok_others j bound op r kc b b' :
  0 ≤ j → by_others j b b' → returned_ok j bound op r kc b → returned_ok j bound op r kc b'.
Proof.
  intros Hj [i lo m Hne Hi Hf Hm|Hs Ht]; [by eapply returned_ok_moved|].
  unfold returned_ok. by rewrite Hs.
Qed.

Lemma actor_ok_others j lo a b b' : 0 ≤ j → by_others j b b' → actor_ok j lo a b → actor_ok j lo a b'.
Proof.
  intros Hj Hb [Hlo Ha]. split; [done|]. destruct a as [kc|op p]; [done|].
  eapply good_later; [|by eapply rtc_once|done]. intros. by apply operation_post_stable.
Qed.

(** Steps that no client makes. *)
Lemma world_ok_backend trace floor w b' lab :
  (∀ j, by_others j (w_backend w) b') → (∀ j op r kc, lab ≠ lab_return j op r kc) →
  world_ok trace floor w → world_ok (trace ++ [lab]) floor (set_backend b' w).
Proof.
  intros Hb Hlab [Hok Hnext Hact Hret]. split; simpl.
  - by eapply (by_others_ok 0).
  - done.
  - intros j a Ha. destruct (Hact j a Ha) as [Hj Haj]. split; [done|].
    eapply actor_ok_others; [lia|apply Hb|done].
  - intros j op r kc [Hin|Hin%list_elem_of_singleton]%elem_of_app; [|by destruct (Hlab j op r kc)].
    destruct (Hret _ _ _ _ Hin) as [Hj Hr]. split; [done|]. eapply returned_ok_others; [lia|apply Hb|done].
Qed.

(** Some other client. *)
Definition another (j : Z) : Z := if decide (j = 0) then 1 else 0.

Lemma another_ne j : another j ≠ j ∧ 0 ≤ another j.
Proof. unfold another. destruct (decide (j = 0)); lia. Qed.

(** A call that any client may make is a step of another one. *)
Lemma call_others c b o b' :
  (∀ i, made_by i 0 c) → kura_ok b → handle c b = (o, b') → ∀ j, by_others j b b'.
Proof.
  intros Hc [Hok _] Hh j. destruct (another_ne j) as [Hne Hpos].
  pose proof (handle_moved (another j) 0 c b Hok (Hc _)) as Hm. unfold call_spec, mwp in Hm.
  rewrite Hh in Hm. destruct o; [destruct Hm as (m & [Hf _] & Hm)|];
    (eapply (bo_move j _ _ _ 0 _ Hne Hpos); [|exact Hm]; done).
Qed.

Lemma by_others_refl b : kura_ok b → ∀ j, by_others j b b.
Proof. intros [[_ Ht] _] j. by apply bo_time. Qed.

Lemma keep_alive_others s r b b' :
  kura_ok b → run_prog (session_keep_alive s) b = (r, b') → ∀ j, by_others j b b'.
Proof.
  intros Hok. unfold session_keep_alive. destruct (negb (ls_active s)); simpl.
  { intros [= _ <-]. by apply by_others_refl. }
  destruct (handle _ b) as [o b1] eqn:Hh. intros Hrun.
  assert (b1 = b') as <-; [|eapply call_others; [|done|exact Hh]; by constructor].
  destruct o as [found|e]; simpl in Hrun; [|congruence]. destruct (bool_decide _); simpl in Hrun; congruence.
Qed.

Lemma close_others s r b b' :
  kura_ok b → run_prog (session_close s) b = (r, b') → ∀ j, by_others j b b'.
Proof.
  intros Hok. unfold session_close. destruct (ls_closed s); simpl.
  { intros [= _ <-]. by apply by_others_refl. }
  destruct (handle _ b) as [o b1] eqn:Hh. intros [= _ <-].
  eapply call_others; [|done|exact Hh]. by constructor.
Qed.

Lemma expire_others tick b :
  kura_ok b → 0 ≤ tick ≤ u64_max →
  ∀ j, by_others j b (set_store (expire_leases tick (bk_store b)).2 b).
Proof.
  intros [[Hinv Hbt] Hlay] Htick j. destruct (another_ne j) as [Hne Hpos].
  pose proof (expire_leases_ok tick (bk_store b) Hinv Htick) as He. unfold mwp in He.
  destruct (expire_leases tick (bk_store b)) as [[r|e] s'].
  - destruct He as [_ Hc].
    eapply (bo_move j _ _ (another j) 0 (mv_cleanup (expired_leases (leases_ (bk_store b)) tick))); try done.
    split; [done|]. eapply moved_cleanup; [done| |exact Hc].
    intros id (l & Hl & _)%expired_leases_spec. by eexists.
  - destruct He as [[-> _] _]. by apply bo_time.
Qed.

(** ** The invariant is kept *)

(** A step of client [j] alone. *)
Lemma world_ok_actor trace floor w j a b' m lo' lab :
  world_ok trace floor w → 0 ≤ j < w_next_client_id w →
  from_client j (floor j) m → backend_moved m (w_backend w) b' → floor j ≤ lo' →
  actor_ok j lo' a b' →
  (∀ i op r kc, lab = lab_return i op r kc → i = j ∧ returned_ok j lo' op r kc b') →
  world_ok (trace ++ [lab]) (λ i, if decide (i = j) then lo' else floor i) (set_actor j a b' w).
Proof.
  intros [Hok Hnext Hact Hret] Hj Hf Hm Hlo Ha Hlab. split; simpl.
  - eapply kura_ok_moved; [|done|done|done]. lia.
  - done.
  - intros i a' [[<- <-]|[Hne Ha']]%lookup_insert_Some.
    + by rewrite decide_True by done.
    + rewrite decide_False by done. destruct (Hact i a' Ha') as [Hi Hai]. split; [done|].
      eapply actor_ok_others; [lia| |done]. apply (bo_move i _ _ j (floor j) m); [done|lia|done|done].
  - intros i op r kc [Hin|Hin%list_elem_of_singleton]%elem_of_app.
    + destruct (Hret _ _ _ _ Hin) as [Hi Hr]. split; [done|].
      assert (returned_ok i (floor i) op r kc b') as Hr'.
      { eapply returned_ok_moved; [|lia|done|done| |done]; [lia|by intros ->]. }
      destruct (decide (i = j)) as [->|]; [|done]. revert Hr'. unfold returned_ok.
      destruct op, r as [[]|]; try done. destruct guard; [|done].
      intros (? & ? & n & ? & ?). split; [done|]. split; [done|]. exists n. split; [lia|done].
    + destruct (Hlab _ _ _ _ (eq_sym Hin)) as [-> Hr]. by rewrite decide_True by done.
Qed.

Lemma quiet_move b : kura_ok b → ∀ j lo, from_client j lo mv_quiet ∧ backend_moved mv_quiet b b.
Proof. intros [Hok _] j lo. split; [done|]. by apply backend_same. Qed.

Lemma world_step_ok trace floor w lab w' :
  world_ok trace floor w → world_step w lab w' → ∃ floor', world_ok (trace ++ [lab]) floor' w'.
Proof.
  intros Hw Hstep. pose proof (wo_backend _ _ _ Hw) as Hok. pose proof (quiet_move _ Hok) as Hq.
  destruct Hstep as [w catalog kc next Hlt Hc|w j kc op Ha Hop Hleft|w j op c k o b Ha Hns Hh|
    w j op k ahead Ha|w j op r kc Ha|w s r b Hrun|w s s' b Hrun|w tick Htick|w tick Htick].
  - assert (kc = mkClient catalog (w_next_client_id w) 1 1 ∧ next = u64 (w_next_client_id w + 1) ∧
      identifier catalog) as (-> & -> & Hv).
    { unfold construct_client, mbind, M_bind, get_state, put_state, lift in Hc.
      destruct (validate_identifier catalog "catalog ID") as [[]|e] eqn:Hv; [|done].
      apply validate_identifier_Ret in Hv. by injection Hc as <- <-. }
    destruct Hw as [_ Hnext Hact Hret].
    exists (λ i, if decide (i = w_next_client_id w) then 1 else floor i). split; simpl.
    + done.
    + rewrite u64_small; lia.
    + rewrite u64_small by lia. intros i a [[<- <-]|[Hne Ha]]%lookup_insert_Some.
      * rewrite decide_True by done. split; [lia|]. by split.
      * rewrite decide_False by done. destruct (Hact i a Ha). split; [lia|done].
    + rewrite u64_small by lia. intros i op r kc [Hin|Hin%list_elem_of_singleton]%elem_of_app; [|done].
      destruct (Hret _ _ _ _ Hin). rewrite decide_False by lia. split; [lia|done].
  - destruct (wo_actors _ _ _ Hw j _ Ha) as [Hj [Hlo Hkc]]. eexists.
    eapply (world_ok_actor _ _ _ _ _ _ mv_quiet (floor j)); try done; [by apply (Hq 0 0)|..].
    split; [done|]. apply perform_good; try done. destruct Hkc. lia.
  - destruct (wo_actors _ _ _ Hw j _ Ha) as [Hj [Hlo [Hc Hgood]]]. eexists.
    assert (∃ m, from_client j (floor j) m ∧ backend_moved m (w_backend w) b) as (m & Hf & Hm).
    { pose proof (handle_moved j (floor j) c _ (proj1 Hok) Hc) as Hm. unfold call_spec, mwp in Hm.
      rewrite Hh in Hm. destruct o; [destruct Hm as (m & [] & ?); by exists m|by exists mv_quiet]. }
    eapply (world_ok_actor _ _ _ _ _ _ m (floor j)); try done.
    split; [done|]. eapply Hgood; [apply rtc_refl|done|by left].
  - destruct (wo_actors _ _ _ Hw j _ Ha) as [Hj [Hlo [Hc Hgood]]]. eexists.
    eapply (world_ok_actor _ _ _ _ _ _ mv_quiet (floor j)); try done; [by apply (Hq 0 0)|..].
    split; [done|]. eapply Hgood; [apply rtc_refl|done|by right].
  - destruct (wo_actors _ _ _ Hw j _ Ha) as [Hj [Hlo [Hkc Hpost]]]. simpl in Hpost. eexists.
    eapply (world_ok_actor _ _ _ _ _ _ mv_quiet (kc_next_sequence kc)); try done;
      [by apply (Hq 0 0)|apply Hkc|split; [destruct Hkc; lia|by destruct Hkc]|].
    intros i op' r' kc' [= <- <- <- <-]. split; [done|]. unfold returned_ok.
    destruct op, r as [[]|]; try done.
    + destruct guard as [g|]; [|done]. destruct (Hpost g eq_refl) as [_ Hg].
      destruct (Hg g eq_refl) as (? & _ & ?). done.
    + destruct guard as [g|]; [|done]. destruct (Hpost g eq_refl) as [_ Hg].
      destruct (Hg g eq_refl) as (? & ? & n & ? & _ & ?).
      split; [done|]. split; [done|]. exists n. split; [lia|done].
  - exists floor. apply world_ok_backend; [by eapply keep_alive_others|done|done].
  - exists floor. apply world_ok_backend; [by eapply close_others|done|done].
  - exists floor. apply world_ok_backend; [|done|done]. intros j. apply bo_time; [done|simpl].
    destruct Hok as [[_ ?] _]. lia.
  - exists floor. apply world_ok_backend; [by apply expire_others|done|done].
Qed.

Lemma world_run_ok s tick trace w :
  store_inv s → layout_ok (values_ s) → 0 ≤ tick ≤ u64_max →
  world_run (initial_world s tick) trace w → ∃ floor, world_ok trace floor w.
Proof.
  intros Hinv Hlay Htick. induction 1 as [|trace w lab w' _ [floor IH] Hstep].
  - exists (λ _, 0). split; simpl; [by split|lia|set_solver|set_solver].
  - by eapply world_step_ok.
Qed.

(** ** Collection is refused *)

#[local] Opaque prefix_of_table.

Lemma collect_snapshot_call table id kc end_ :
  let t := mkTable (kc_catalog_id kc) table in
  table_ok t → identifier id →
  prefix_range_end (from_string (table_prefix_of t +:+ "readers/")) = Some end_ →
  collect_snapshot table id kc =
  ask (b_collect_snapshot_if_unreferenced (table_key t current_item) (table_key t (snapshot_item id))
    (from_string (table_prefix_of t +:+ "readers/")) end_ id) (λ o, done (o, kc)).
Proof.
  intros t Ht Hid Hend.
  unfold collect_snapshot, mbind, client_bind, clift, table_prefix. simpl.
  rewrite (proj2 (validate_identifier_Ret id "snapshot ID" tt) Hid).
  rewrite (proj2 (validate_identifier_Ret table "table ID" tt) (proj2 Ht)). simpl.
  rewrite prefix_of_table_eq. fold t. unfold bytes. by rewrite Hend.
Qed.

(** A snapshot that a reader names is not collected. *)
Lemma collect_refused table client_id sequence v id kc b :
  let t := mkTable (kc_catalog_id kc) table in
  kura_ok b → table_ok t → identifier id → 0 ≤ client_id →
  values_ (bk_store b) !! table_key t (reader_item client_id sequence) = Some v →
  to_string (kv_value v) = id →
  (run_prog (collect_snapshot table id kc) b).1 = (Ret false, kc).
Proof.
  intros t [[Hinv Htick] Hlay] Ht Hid Hc Hv Hval. destruct (reader_range_end t) as (end_ & Hend & Hlt).
  rewrite (collect_snapshot_call _ _ _ end_) by done. fold t. simpl run_prog.
  assert (mwp (collect_snapshot_if_unreferenced (table_key t current_item)
    (table_key t (snapshot_item id)) (from_string (table_prefix_of t +:+ "readers/")) end_ id) b
    (λ r _, r = false) (λ _ _, False)) as Hw; [|].
  { unfold collect_snapshot_if_unreferenced. mstep.
    eapply mwp_mono; [apply mwp_on_store, get_ok| |].
    2:{ intros e b' [[_ Hnil] _]. destruct (table_prefix_of_slash t) as [rest Hr].
        unfold table_key in Hnil. by rewrite Hr in Hnil. }
    intros current b1 [(Hs1 & -> & _) _]. cbn [sr_value]. rewrite <-Hs1 in *. mstep.
    eapply (mwp_mono _ _ (λ _ b', b' = b1) _ (λ _ _, False)); [|intros is_current b2 ->|done].
    { destruct (values_ (bk_store b1) !! table_key t current_item) as [v'|] eqn:Hcur; [|by mstep].
      destruct (lay_current _ Hlay t v' Ht Hcur) as (_ & p & Hp & _). mstep. mstep. by rewrite Hp. }
    destruct is_current; [by mstep|]. mstep.
    eapply mwp_mono; [apply mwp_on_store, range_ok| |].
    2:{ intros e b' [[_ Hno] _]. apply Hno. split; [|done].
        destruct (table_prefix_of_slash t) as [rest ->]. done. }
    intros readers b2 [[Hs2 ->] _]. cbn [rr_values].
    destruct (existsb _ _) eqn:Hex; [by mstep|]. exfalso. apply not_true_iff_false in Hex.
    apply Hex, existsb_exists. exists v. rewrite bool_decide_true by done. split; [|done].
    apply list_elem_of_In.
    apply (list_elem_of_fmap_2 snd _ (table_key t (reader_item client_id sequence), v)).
    apply elem_of_scan. split; [done|].
    apply (reader_range t (reader_item client_id sequence) t end_ Ht Ht Hc Hend). eauto. }
  unfold mwp in Hw. unfold handle, in_process_handler, in_process.
  destruct (collect_snapshot_if_unreferenced _ _ _ _ _ b) as [[r|e] b']; [by subst r|done].
Qed.

(** C13: A registered reader protects its snapshot.  Clients and lease sessions use
    one backend in any interleaving of their backend calls, with the passing of
    time and expiry of leases, from any store whose current pointers and readers
    name stored snapshots.  Once [register_reader] has returned a guard, then at
    any later moment at which the lease of the guard is still stored with its token,
    the snapshot is stored, and [collect_snapshot] for it answers false. *)
Theorem reader_protects_snapshot (s : Store) (tick : Z) (trace : list label) (w : World) (j ttl : Z)
    (table : string) (snapshot : SnapshotPointer) (g : ReaderGuardImpl) (kc : KuraClient) :
  store_inv s → layout_ok (values_ s) → 0 ≤ tick ≤ u64_max →
  world_run (initial_world s tick) trace w →
  lab_return j (op_register table snapshot ttl) (Ret (res_reader (Some g))) kc ∈ trace →
  holds (ls_id (rg_lease g)) (ls_token (rg_lease g)) (bk_store (w_backend w)) →
  is_Some (values_ (bk_store (w_backend w)) !!
    table_key (mkTable (kc_catalog_id kc) table) (snapshot_item (sp_snapshot_id snapshot))) ∧
  (run_prog (collect_snapshot table (sp_snapshot_id snapshot) kc) (w_backend w)).1 = (Ret false, kc).
Proof.
  intros Hinv Hlay Htick Hrun Hin Hholds.
  destruct (world_run_ok _ _ _ _ Hinv Hlay Htick Hrun) as [floor [Hok _ _ Hret]].
  destruct (Hret _ _ _ _ Hin) as [Hj (Ht & Hvalid & n & _ & _ & Hatt)].
  destruct (Hatt Hholds) as (v & Hv & _ & Hval). split.
  - rewrite <-Hval. apply (lay_reader _ (proj2 Hok) _ j n v); [done|lia|done].
  - eapply (collect_refused table j n v); try done; [apply Hvalid|lia].
Qed.

Lemma layout_empty : layout_ok ∅.
Proof. by split. Qed.

Definition demo_reader : ReaderGuardImpl :=
  mkReader (mkSession 2 2 10000 true false) (reader_name 2 1) (demo_pointer "s1").
Definition demo_end : World := demo_run.2.

Lemma reader_protects_snapshot_witness :
  is_Some (values_ (bk_store (w_backend demo_end)) !!
    table_key (mkTable "default" "t") (snapshot_item "s1")) ∧
  (run_prog (collect_snapshot "t" "s1" (mkClient "default" 2 3 1)) (w_backend demo_end)).1
  = (Ret false, mkClient "default" 2 3 1).
Proof.
  apply (reader_protects_snapshot (empty_at 0 default_limits) 1 demo_run.1 demo_end 2 30 "t"
    (demo_pointer "s1") demo_reader (mkClient "default" 2 3 1)).
  - apply demo_inv.
  - apply layout_empty.
  - done.
  - apply demo_runs.
  - apply (list_elem_of_lookup_2 _ 13). vm_compute. reflexivity.
  - eexists. split; vm_compute; reflexivity.
Defined.

(** C14: A table has one writer.  In the same executions, two guards that
    [acquire_writer] returned for one table and whose leases are both still stored
    with their tokens have the same lease and token. *)
Theorem table_has_one_writer (s : Store) (tick : Z) (trace : list label) (w : World)
    (j1 j2 ttl1 ttl2 : Z) (table : string) (g1 g2 : WriterGuardImpl) (kc1 kc2 : KuraClient) :
  store_inv s → layout_ok (values_ s) → 0 ≤ tick ≤ u64_max →
  world_run (initial_world s tick) trace w →
  lab_return j1 (op_acquire table ttl1) (Ret (res_writer (Some g1))) kc1 ∈ trace →
  lab_return j2 (op_acquire table ttl2) (Ret (res_writer (Some g2))) kc2 ∈ trace →
  kc_catalog_id kc1 = kc_catalog_id kc2 →
  holds (ls_id (wg_lease g1)) (ls_token (wg_lease g1)) (bk_store (w_backend w)) →
  holds (ls_id (wg_lease g2)) (ls_token (wg_lease g2)) (bk_store (w_backend w)) →
  ls_id (wg_lease g1) = ls_id (wg_lease g2) ∧ ls_token (wg_lease g1) = ls_token (wg_lease g2).
Proof.
  intros Hinv Hlay Htick Hrun Hin1 Hin2 Hcat Hh1 Hh2.
  destruct (world_run_ok _ _ _ _ Hinv Hlay Htick Hrun) as [floor [Hok _ _ Hret]].
  destruct (Hret _ _ _ _ Hin1) as [_ (_ & _ & Hatt1)], (Hret _ _ _ _ Hin2) as [_ (_ & _ & Hatt2)].
  destruct (Hatt1 Hh1) as (v1 & Hv1 & Hl1 & _), (Hatt2 Hh2) as (v2 & Hv2 & Hl2 & _).
  rewrite Hcat in Hv1. simplify_eq. split; [congruence|].
  destruct Hh1 as (l1 & E1 & <-), Hh2 as (l2 & E2 & <-). congruence.
Qed.

Lemma table_has_one_writer_witness : ls_id (wg_lease demo_writer) = 1 ∧ (1 = 1 ∧ 1 = 1).
Proof.
  split; [done|].
  apply (table_has_one_writer (empty_at 0 default_limits) 1 demo_run.1 demo_end 1 1 30 30 "t"
    demo_writer demo_writer (mkClient "default" 1 2 1) (mkClient "default" 1 2 1)).
  - apply demo_inv.
  - apply layout_empty.
  - done.
  - apply demo_runs.
  - apply (list_elem_of_lookup_2 _ 6). vm_compute. reflexivity.
  - apply (list_elem_of_lookup_2 _ 6). vm_compute. reflexivity.
  - done.
  - eexists. split; vm_compute; reflexivity.
  - eexists. split; vm_compute; reflexivity.
Defined.
