(* ===== verification/KuraPublish.v ===== *)
(** * The publications of a table

    The transactions that successfully wrote the current pointer of a table, in
    the order of the execution, with the revision each started from and the
    revision it made. *)

From S2P Require Import Prelude OrdMap Bytes StoreTypes Store StoreInv StoreTxn StoreOps StoreLease.
From S2P Require Import StoreProps Text KuraPointer KuraClient KuraWorld KuraMoves.
From S2P Require Import KuraInv KuraThreads KuraProps.
#[local] Open Scope Z_scope.

(** ** Definitions *)

Definition writes_current (t : table) (q : TransactionRequest) : bool :=
  existsb (λ op, match op with
    | op_put p => bool_decide (pq_key p = table_key t current_item)
    | _ => false
    end) (tx_success q).

(** The base revision a publication compares with. *)
Definition base_revision (q : TransactionRequest) : Z :=
  match tx_comparisons q with
  | c :: _ => match cmp_expected c with operand_int z => z | operand_bytes _ => 0 end
  | [] => 0
  end.

Definition published_by (t : table) (c : backend_call) : outcome (reply c) → option (Z * Z) :=
  match c with
  | b_transaction q => λ o,
      match o with
      | Ret r => if tr_succeeded r && writes_current t q
                 then Some (base_revision q, hd_revision (tr_header r)) else None
      | Throw _ => None
      end
  | _ => λ _, None
  end.

Definition publications (t : table) (trace : list label) : list (Z * Z) :=
  omap (λ lab, match lab with lab_call _ c o => published_by t c o | _ => None end) trace.

(** Every publication starts from what the one before it made. *)
Fixpoint chained (base : Z) (l : list (Z * Z)) : Prop :=
  match l with
  | [] => True
  | (expected, revision) :: l' => expected = base ∧ base < revision ∧ chained revision l'
  end.

Definition last_revision (base : Z) (l : list (Z * Z)) : Z := foldl (λ _ e, e.2) base l.

Definition current_revision (t : table) (s : Store) : Z :=
  default 0 (kv_mod_revision <$> values_ s !! table_key t current_item).

(** ** Moves and publications *)

Lemma current_revision_bound t s : store_inv s → 0 ≤ current_revision t s ≤ revision_ s.
Proof.
  intros Hinv. unfold current_revision.
  destruct (values_ s !! table_key t current_item) as [v|] eqn:Hv; simpl.
  - destruct (do_values _ _ _ (inv_data _ Hinv) _ _ Hv). lia.
  - destruct (inv_revision _ Hinv). lia.
Qed.

(** Only a publication of the table changes the revision of its current pointer. *)
Lemma current_revision_kept j lo m t b b' :
  0 ≤ j → kura_ok b → from_client j lo m → backend_moved m b b' → table_ok t →
  ¬ move_writes m t current_item →
  current_revision t (bk_store b') = current_revision t (bk_store b).
Proof.
  intros Hj [_ Hlay] Hf [_ Hm] Ht Hw. unfold current_revision.
  destruct (unwritten_item j lo _ _ _ _ Hj Hf Hm t current_item Ht I Hw) as [->|[ids ->]]; [done|].
  destruct (md_change _ _ _ _ Hm) as (Hv & _ & Hz). f_equal. f_equal. apply option_eq. intros v.
  rewrite Hv. split; [by intros []|]. intros Hk. split; [done|].
  destruct (lay_current _ Hlay t v Ht Hk) as [-> _]. done.
Qed.

Lemma chained_snoc base l e :
  chained base (l ++ [e]) ↔ chained base l ∧ e.1 = last_revision base l ∧ last_revision base l < e.2.
Proof.
  revert base. induction l as [|[e1 r1] l IH]; intros base; simpl.
  - destruct e as [e r]. simpl. naive_solver.
  - rewrite IH. unfold last_revision. simpl. naive_solver.
Qed.

Lemma last_revision_snoc base l e : last_revision base (l ++ [e]) = e.2.
Proof. unfold last_revision. by rewrite foldl_app. Qed.

(** What a call does to the current pointer of a table. *)
Definition publishes (t : table) (e : option (Z * Z)) (s s' : Store) : Prop :=
  match e with
  | None => current_revision t s' = current_revision t s
  | Some (expected, revision) =>
      expected = current_revision t s ∧ current_revision t s < revision ∧
      current_revision t s' = revision
  end.

Lemma writes_current_other t t' i v lease rid cmps owners tick :
  table_ok t → table_ok t' → item_ok i → i ≠ current_item →
  writes_current t (mkTxn rid cmps owners tick [put_request (table_key t' i) v lease] []) = false.
Proof.
  intros Ht Ht' Hi Hne. unfold writes_current. simpl. rewrite orb_false_r.
  apply bool_decide_eq_false. intros Heq. apply table_key_inj in Heq as [_ ?]; done.
Qed.

Lemma claim_writes t t' rid lease :
  table_ok t → table_ok t' → writes_current t (writer_claim rid (table_prefix_of t') lease) = false.
Proof. intros. by apply (writes_current_other t t' writer_item). Qed.

Lemma registration_writes t t' rid client_id sequence id encoded lease :
  table_ok t → table_ok t' → 0 ≤ client_id →
  writes_current t (registration rid (table_prefix_of t') (reader_name client_id sequence) id encoded lease)
  = false.
Proof. intros. by apply (writes_current_other t t' (reader_item client_id sequence)). Qed.

Lemma publication_writes t t' rid guard expected p :
  table_ok t → table_ok t' →
  writes_current t (publication rid guard (table_prefix_of t') expected (sp_snapshot_id p) (pointer_bytes p))
  = bool_decide (t' = t).
Proof.
  intros Ht Ht'. unfold writes_current. simpl. rewrite orb_false_r.
  change (bytes (table_prefix_of t' +:+ "current")) with (table_key t' current_item).
  rewrite (bool_decide_false (bytes _ = _)).
  - rewrite orb_false_r. apply bool_decide_ext. split; [|by intros ->].
    intros Heq. by apply table_key_inj in Heq as [? _].
  - intros Heq. change (table_key t' (snapshot_item (sp_snapshot_id p)) = table_key t current_item) in Heq.
    by apply table_key_inj in Heq as [_ ?].
Qed.

Lemma publish_publishes t t' rid guard expected p b o b' :
  kura_ok b → table_ok t → table_ok t' → pointer_valid p →
  let q := publication rid guard (table_prefix_of t') expected (sp_snapshot_id p) (pointer_bytes p) in
  handle (b_transaction q) b = (o, b') →
  publishes t (published_by t (b_transaction q) o) (bk_store b) (bk_store b').
Proof.
  intros Hok Ht Ht' Hp q Hh. pose proof Hok as [[Hinv Htick] Hlay].
  pose proof (transaction_handled q b o b' _ _ (or_introl Hh)
    (publish_moved rid guard t' expected p (bk_tick b) (bk_store b) Hinv Htick Hp)) as Hm.
  assert (bk_tick b' = bk_tick b) as Hbt.
  { pose proof (handle_moved 0 0 _ _ (proj1 Hok) (mb_publish 0 0 rid guard t' expected p Ht' Hp)) as Hs.
    fold q in Hs. unfold call_spec, mwp in Hs. rewrite Hh in Hs.
    destruct o; [destruct Hs as (? & _ & [])|destruct Hs]; done. }
  destruct o as [r|e]; simpl; [|by rewrite Hm]. destruct Hm as [Hhead Hm]. unfold q at 1.
  rewrite publication_writes by done.
  destruct (tr_succeeded r); simpl.
  - destruct (bool_decide_reflect (t' = t)) as [->|Hne]; simpl.
    + destruct (md_change _ _ _ _ Hm) as (<- & _ & _ & Hrev & _ & v1 & v2 & Hv & _ & Hmod & _).
      rewrite Hhead. simpl. pose proof (current_revision_bound t _ Hinv).
      split; [done|]. split; [lia|]. unfold current_revision at 1. rewrite Hv, lookup_insert_eq. done.
    + apply (current_revision_kept 0 0 (mv_publish t' expected (guard_lease guard)
        (guard_fencing_token guard) p)); [done..|by split|done|]. simpl. naive_solver.
  - apply (current_revision_kept 0 0 mv_quiet); [done..|by split|done|]. by intros [].
Qed.

Lemma call_publishes j lo t c b o b' :
  0 ≤ j → kura_ok b → table_ok t → made_by j lo c → handle c b = (o, b') →
  publishes t (published_by t c o) (bk_store b) (bk_store b').
Proof.
  intros Hj Hok Ht Hc Hh. destruct (is_publication c) eqn:Hpub.
  - destruct Hc; try done. by eapply publish_publishes.
  - assert (published_by t c o = None) as ->.
    { destruct Hc; try done; destruct o as [r|e]; try done; simpl.
      - by rewrite claim_writes, andb_false_r.
      - by rewrite registration_writes, andb_false_r. }
    pose proof (handle_moved j lo c b (proj1 Hok) Hc) as Hm. unfold call_spec, mwp in Hm.
    rewrite Hh in Hm. destruct o as [r|e].
    + destruct Hm as (m & [Hf Hp] & Hm). eapply (current_revision_kept j lo m); try done.
      destruct m; simpl; try naive_solver. intros _. specialize (Hp eq_refl). congruence.
    + apply (current_revision_kept j lo mv_quiet); try done. by intros [].
Qed.

(** ** The theorem *)

Lemma current_kept_others j lo m t b b' :
  0 ≤ j → kura_ok b → table_ok t → from_client j lo m → is_publish m = false →
  backend_moved m b b' → current_revision t (bk_store b') = current_revision t (bk_store b).
Proof.
  intros Hj Hok Ht Hf Hp Hm. eapply (current_revision_kept j lo m); try done.
  destruct m; simpl in *; naive_solver.
Qed.

(** Steps outside the calls of clients do not publish. *)
Lemma session_current {A} (p : prog A) r t b b' :
  kura_ok b → table_ok t →
  match p with
  | done _ => True
  | ask c k => made_by 0 0 c ∧ is_publication c = false ∧ ∀ o, ∃ a, k o = done a
  end →
  run_prog p b = (r, b') → current_revision t (bk_store b') = current_revision t (bk_store b).
Proof.
  intros Hok Ht. destruct p as [a|c k]; simpl; [by intros _ [= _ ->]|]. intros (Hc & Hpub & Hk).
  destruct (handle c b) as [o b1] eqn:Hh. destruct (Hk o) as [a ->]. intros [= _ <-].
  pose proof (handle_moved 0 0 c b (proj1 Hok) Hc) as Hm. unfold call_spec, mwp in Hm.
  rewrite Hh in Hm. destruct o as [r'|e].
  - destruct Hm as (m & [Hf Hp] & Hm). eapply (current_kept_others 0 0 m); try done.
    destruct (is_publish m); [|done]. specialize (Hp eq_refl). congruence.
  - by apply (current_kept_others 0 0 mv_quiet).
Qed.

Lemma keep_alive_current s r t b b' :
  kura_ok b → table_ok t → run_prog (session_keep_alive s) b = (r, b') →
  current_revision t (bk_store b') = current_revision t (bk_store b).
Proof.
  intros Hok Ht. eapply session_current; [done|done|]. unfold session_keep_alive.
  destruct (negb (ls_active s)); simpl; [done|]. split; [constructor|]. split; [done|].
  intros [found|e]; [|by eexists]. destruct (bool_decide _); by eexists.
Qed.

Lemma close_current s r t b b' :
  kura_ok b → table_ok t → run_prog (session_close s) b = (r, b') →
  current_revision t (bk_store b') = current_revision t (bk_store b).
Proof.
  intros Hok Ht. eapply session_current; [done|done|]. unfold session_close.
  destruct (ls_closed s); simpl; [done|]. split; [constructor|]. split; [done|]. by eexists.
Qed.

Lemma expire_current tick t b :
  kura_ok b → table_ok t → 0 ≤ tick ≤ u64_max →
  current_revision t (expire_leases tick (bk_store b)).2 = current_revision t (bk_store b).
Proof.
  intros Hok Ht Htick. pose proof Hok as [[Hinv Hbt] _].
  pose proof (expire_leases_ok tick (bk_store b) Hinv Htick) as He. unfold mwp in He.
  destruct (expire_leases tick (bk_store b)) as [[r|e] s']; simpl; [|by destruct He as [[-> _] _]].
  destruct He as [_ Hc].
  apply (current_kept_others 0 0 (mv_cleanup (expired_leases (leases_ (bk_store b)) tick)) t b
    (set_store s' b)); try done.
  split; [done|]. eapply moved_cleanup; [done| |exact Hc].
  intros id (l & Hl & _)%expired_leases_spec. by eexists.
Qed.

Lemma publications_snoc t trace lab :
  publications t (trace ++ [lab]) = publications t trace ++ publications t [lab].
Proof. apply omap_app. Qed.

(** One step appends what it published. *)
Lemma step_publishes t trace floor w lab w' :
  world_ok trace floor w → table_ok t → world_step w lab w' →
  publishes t (head (publications t [lab])) (bk_store (w_backend w)) (bk_store (w_backend w')).
Proof.
  intros Hw Ht Hstep. pose proof (wo_backend _ _ _ Hw) as Hok.
  destruct Hstep as [w catalog kc next Hlt Hc|w j kc op Ha Hop Hleft|w j op c k o b Ha Hns Hh|
    w j op k ahead Ha|w j op r kc Ha|w s r b Hrun|w s s' b Hrun|w tick Htick|w tick Htick];
    try done; simpl.
  - destruct (wo_actors _ _ _ Hw j _ Ha) as [Hj [Hlo [Hc _]]].
    pose proof (call_publishes j _ t c _ _ _ (proj1 Hj) Hok Ht Hc Hh) as Hp.
    by destruct (published_by t c o).
  - by eapply keep_alive_current.
  - by eapply close_current.
  - by apply expire_current.
Qed.

(** C12: The publications of a table form a chain.  In any interleaving of clients,
    sessions, time and expiry, every transaction that writes the current pointer of
    a table starts from the revision the previous one made (the first one from the
    revision the store began with) and makes a later one, which is then the revision
    of the current pointer.  So no base revision is consumed twice, and no
    publication is overwritten unseen. *)
Theorem publications_form_chain (s : Store) (tick : Z) (trace : list label) (w : World) (t : table) :
  store_inv s → layout_ok (values_ s) → 0 ≤ tick ≤ u64_max → table_ok t →
  world_run (initial_world s tick) trace w →
  chained (current_revision t s) (publications t trace) ∧
  current_revision t (bk_store (w_backend w)) = last_revision (current_revision t s) (publications t trace).
Proof.
  intros Hinv Hlay Htick Ht. induction 1 as [|trace w lab w' Hrun [IHc IHl] Hstep]; [done|].
  destruct (world_run_ok _ _ _ _ Hinv Hlay Htick Hrun) as [floor Hw].
  pose proof (step_publishes t _ _ _ _ _ Hw Ht Hstep) as Hp. rewrite publications_snoc.
  assert (publications t [lab] = [] ∨ ∃ e, publications t [lab] = [e]) as [He|[[e r] He]].
  { unfold publications. simpl. destruct lab; simpl; eauto. destruct (published_by t c o); eauto. }
  - rewrite He in *. rewrite app_nil_r. simpl in Hp. by rewrite Hp.
  - rewrite He in *. simpl in Hp. destruct Hp as (-> & Hlt & Hcur). rewrite chained_snoc, last_revision_snoc.
    rewrite IHl in *. done.
Qed.

Lemma publications_form_chain_witness :
  chained 0 (publications (mkTable "default" "t") demo_run.1) ∧
  publications (mkTable "default" "t") demo_run.1 = [(0, 2); (2, 4)].
Proof.
  split; [|vm_compute; reflexivity].
  apply (publications_form_chain (empty_at 0 default_limits) 1 demo_run.1 demo_run.2 (mkTable "default" "t"));
    [apply demo_inv|apply layout_empty|done|by repeat split|apply demo_runs].
Defined.

(** ** Lost leases *)









