(* ===== verification/KuraAwait.v ===== *)
(** * Waiting for changes

    Watch identifiers are counted per client but belong to the backend: what
    happens when two clients wait at the same time, in executions computed from
    schedules. *)

From S2P Require Import Prelude OrdMap Bytes StoreTypes Store StoreProps Text KuraPointer KuraClient KuraWorld.
From S2P Require Import KuraMoves KuraInv KuraThreads KuraProps KuraPublish.
#[local] Open Scope Z_scope.

(** A store whose watchers may be one response behind. *)
Definition small_limits : StoreLimits := mkLimits 1048576 8388608 128 10000 1024 1 10000.
Definition small_world : World := initial_world (empty_at 0 small_limits) 1.

Definition writer_of (lease : Z) (name : string) : WriterGuardImpl :=
  mkWriter (mkSession lease lease 10000 true false) (prefix_of_table "default" name) 0.

Definition sc_publish (lease : Z) (name : string) (expected : Z) (snapshot : string) : list sched :=
  [sc_start 3 (op_publish (Some (writer_of lease name)) expected (demo_pointer snapshot))
     (mkTable "default" name); sc_finish 3].

(** Clients 1 and 2 wait on tables [t] and [u], client 3 owns both tables. *)
Definition owners : list sched :=
  [sc_new "default"; sc_new "default"; sc_new "default"]
  ++ sc_whole 3 (op_acquire "t" 30) ++ sc_whole 3 (op_acquire "u" 30).

(** Both clients wait at once. *)
Definition waiting_schedule : list sched :=
  owners ++ [sc_start 1 (op_await "t" 2 5) demo_table; sc_call 1] ++ sc_whole 2 (op_await "u" 2 5).

(** Two publications overflow the watch of client 1, which takes the notice and
    sleeps; client 2 begins to wait, and its table is published. *)
Definition crossed_schedule : list sched :=
  owners ++ [sc_start 1 (op_await "t" 2 5) demo_table; sc_call 1]
  ++ sc_publish 1 "t" 0 "s1" ++ sc_publish 1 "t" 3 "s2"
  ++ [sc_call 1; sc_call 1; sc_start 2 (op_await "u" 4 5) demo_table; sc_call 2]
  ++ sc_publish 2 "u" 0 "x1" ++ [sc_finish 1; sc_finish 2].

Definition small_run (l : list sched) : run := run_of small_world l.

(** C39: Clients that wait at the same time disturb each other.  Two clients on one
    backend use the same watch identifier.  While the first waits, the waiting
    method of the second throws "watch ID is already active"; and after the watch of
    the first has overflowed, the second takes the identifier over: the first
    client's wait on table [t] then returns the pointer published for table [u], and
    the second client's wait throws "unknown watch ID". *)
Theorem concurrent_waits_collide :
  (∃ trace w kc, world_run small_world trace w ∧
    lab_return 2 (op_await "u" 2 5)
      (Throw (store_error sc_invalid_argument "watch ID is already active" 0)) kc ∈ trace) ∧
  (∃ trace w kc kc', world_run small_world trace w ∧
    lab_return 1 (op_await "t" 2 5)
      (Ret (res_update (Some (mkUpdate (demo_pointer "x1") 5 false)))) kc ∈ trace ∧
    publications demo_table trace = [(0, 3); (3, 4)] ∧
    publications (mkTable "default" "u") trace = [(0, 5)] ∧
    lab_return 2 (op_await "u" 4 5) (Throw unknown_watch) kc' ∈ trace).
Proof.
  split.
  - exists (small_run waiting_schedule).1, (small_run waiting_schedule).2. eexists. split.
    + apply run_of_sound. vm_compute. reflexivity.
    + apply (list_elem_of_lookup_2 _ 17). vm_compute. reflexivity.
  - exists (small_run crossed_schedule).1, (small_run crossed_schedule).2. do 2 eexists. split_and!.
    + apply run_of_sound. vm_compute. reflexivity.
    + apply (list_elem_of_lookup_2 _ 30). vm_compute. reflexivity.
    + vm_compute. reflexivity.
    + vm_compute. reflexivity.
    + apply (list_elem_of_lookup_2 _ 33). vm_compute. reflexivity.
Qed.
